(* ===== verification/_CoqProject ===== *)
-Q . S2P
Prelude.v
Float64.v
FloatRound.v
FloatOps.v
FloatSum.v
FlowTypes.v
Ordering.v
Fairness.v
SafeQueue.v
ListQueue.v
ArrayHeap.v
MaxMinHeap.v
HeapOrder.v
QueueFactory.v
QueueContract.v
ManagedQueue.v
RegistryConfig.v
Leasing.v
Shard.v
Item.v
Registry.v
RegistryInv.v
RegistryProps.v
Processor.v
ProcessorInv.v
ProcessorProps.v
Controller.v
ControllerProps.v
SchedTypes.v
Json.v
Pickers.v
SchedulerProfile.v
Filters.v
Scorers.v
SessionAffinity.v
ContextLength.v
Scheduler.v
ActiveRequest.v
ProfileHandlers.v
Saturation.v
InFlight.v
Candidates.v
ModelRewrite.v
RequestControl.v
Director.v
Envoy.v
ExtProc.v
EndToEnd.v
ResponseQueue.v
GoHeap.v
Eviction.v
DataGraph.v
DataDependencies.v
Datastore.v
DataRuntime.v
Reconcilers.v
ApproxPrefix.v
JsonDecode.v
SidecarTargets.v
SidecarProxy.v
SidecarOptions.v
SidecarProps.v
MetricsExtractor.v
ConfigLoader.v
JsonTyped.v
Parsers.v
ParserProps.v
