(* ===== verification/Prelude.v ===== *)
(** * Verification of the llm-d inference scheduler

    The endpoint picker (EPP) of llm-d decides, for every inference request that a proxy
    hands it, whether the request may proceed now ([pkg/epp/flowcontrol]) and which model
    server endpoints serve it ([pkg/epp/scheduling] with the plugins under
    [pkg/epp/framework/plugins]). The stream of the proxy is served by [pkg/epp/handlers],
    which hands the request to the director ([pkg/epp/requestcontrol]); the director asks
    for admission, finds candidates, has the plugins prepare their data, schedules, and
    reports the request and its response to the plugins. This library models these parts
    as Rocq definitions that follow the Go sources, and proves what they promise, each by
    itself and together. At the endpoint that is chosen, the routing sidecar ([pkg/sidecar])
    reads the headers of the scheduler and runs the request over encoders, prefiller and
    decoder; it is modelled too. Paths below are relative to [src/pkg/epp].

    ** Conventions

    Integers are [Z] and go through [Int.i64] or [Int.u64] wherever the source computes at
    machine width. A [float64] is a [spec_float] of the Standard Library with IEEE
    rounding ([Float64], [FloatRound], [FloatOps], [FloatSum]); products and sums are not fused.
    Stateful code runs in the monad [GoM] of this file, state passing with panics; [wp] is
    its weakest precondition, and also says that the code does not panic. Errors are
    values of [GoError] with wrapping. Pointers that the source compares or shares are
    positives into an explicit store. Go's choices are arguments: random draws, the
    enumeration order of a map, the address of a new object; a theorem holds for all of
    them. Third-party code is a parameter with its documented behaviour as a class of
    laws: label selectors, PromQL, [math.Pow], the caches. Logging, metrics and tracing are left
    out.

    ** Flow control

    - [FlowTypes]: errors, outcomes, flow keys, requests, items and the store of queue
      handles ([flowcontrol/types], [framework/interface/flowcontrol]).
    - [Ordering], [Fairness]: the policies under [framework/plugins/flowcontrol].
    - [SafeQueue] is the contract of [flowcontrol/contracts/queue.go] as a class;
      [ListQueue] and [MaxMinHeap] (over [ArrayHeap]) implement it, [QueueFactory] selects
      an implementation by name, [QueueContract] states the refinement of a multiset and
      [HeapOrder] which operations of the heap keep its order.
    - [ManagedQueue], [RegistryConfig], [Leasing], [Shard], [Registry] model
      [flowcontrol/registry]; [RegistryInv] holds the invariants and [RegistryProps] the
      theorems. [Leasing] also has the race of pinning requests and the collector as
      interleaved atomic steps.
    - [Item], [Processor], [Controller] model [flowcontrol/controller]; [ProcessorInv],
      [ProcessorProps] and [ControllerProps] hold invariants and theorems. A request of
      [EnqueueAndWait] is a thread whose steps interleave with the processor, the
      collector and other requests.

    The theorems show: no request that was handed over is lost, and every caller gets one
    terminal outcome that matches its error; admission respects capacities; dispatch goes
    by priority, fairness and order, and stops at a saturated band; shutdown finalizes
    everything; queues refine multisets; a connection's queue is never collected;
    statistics and leases are exact; configurations are validated and partitioned
    exactly. Closed examples mark where the code falls short of its documentation.

    ** Scheduling

    - [SchedTypes], [Json]: endpoints, attributes, requests and their encoding
      ([framework/interface]).
    - [Pickers], [Filters], [Scorers], [SessionAffinity], [ContextLength],
      [ActiveRequest]: the plugins under [framework/plugins/scheduling].
    - [SchedulerProfile]: the run of a profile ([scheduling/scheduler_profile.go]) and the
      classes [LawfulFilter], [LawfulScorer], [LawfulPicker] against which it is verified
      and which every plugin discharges.
    - [Scheduler]: the scheduling cycle ([scheduling/scheduler.go]) and the class
      [LawfulHandler]; [ProfileHandlers]: the handlers, deciders and headers.

    The theorems show: a profile routes to filtered candidates of the highest weighted
    total; less loaded endpoints rank higher in [float64] arithmetic; adaptive filters
    never leave a request without candidates; a cycle ends within one round more than
    there are profiles and its decision is routable; the disaggregation handler runs
    exactly the stages its deciders ask for, and the headers announce exactly those;
    sessions return to their pod; active request counts are exact.

    ** Request control and the stream

    - [Saturation]: the saturation detectors and the usage limit
      ([framework/plugins/flowcontrol]) that gate dispatch.
    - [InFlight], [ApproxPrefix]: the producers of in-flight load and of prefix cache matches
      ([framework/plugins/requestcontrol]), the second with the index of LRU caches and the
      plugin state ([framework/interface/plugin/plugin_state.go]).
    - [Candidates], [RequestControl], [Director]: candidate location and its cache, the
      admission controllers and the director ([requestcontrol]); the classes
      [LawfulProducer] and [LawfulScheduler] say what the director relies on, and the
      scheduler discharges the second.
    - [ModelRewrite]: the store of model rewrites ([datastore/modelrewritestore.go]).
    - [ResponseQueue]: the queues on which the director runs the response plugins, as
      interleaved steps of streams and goroutines ([requestcontrol/director.go]).
    - [Envoy], [ExtProc]: headers and chunks ([pkg/common/envoy]) and the loop that serves
      a stream ([handlers]); the class [LawfulDirector] is its interface to the director.
    - [JsonTyped]: the decoding of [encoding/json] into Go types: documents, fields by name
      without regard to case, kinds of values, custom decoders; decoding into [any] is shown to
      be the decoder of [JsonDecode].
    - [Parsers]: the OpenAI, vLLM gRPC and pass-through parsers of requests and responses
      ([framework/plugins/requesthandling/parsers]), with the decoders of the request types
      ([framework/interface/requesthandling/types.go]); the decoding of protobuf messages is a
      parameter. [ParserProps] has the theorems, and examples where the code falls short.
    - [EndToEnd]: stream, director and in-flight load together.
    - [GoHeap]: the heap of Go's [container/heap], on which queues with handles are built.
    - [Eviction]: the eviction of running requests ([flowcontrol/eviction]): queue, registry,
      evictor and plugin.
    - [Datastore], [Reconcilers]: the store of pool, endpoints, objectives and rewrites
      ([datastore]) and the controllers that keep it up to date ([controller]), as a system
      of changes of the cluster, events and reconciliations; the class [LawfulFactory] is
      the interface to the data layer.
    - [DataRuntime]: the runtime of the data layer with its collectors ([datalayer]), which
      discharges it.
    - [MetricsExtractor]: the extractor of the metrics of model servers, with specifications,
      mappings and factory ([framework/plugins/datalayer/extractor/metrics]).
    - [ConfigLoader]: the loader of the configuration ([config/loader]), which instantiates the
      plugins and builds the configurations of the other parts; the class [BuiltinPlugins] says
      what it relies on.
    - [DataGraph], [DataDependencies]: the topological sort and the graph of the data that
      plugins produce and consume ([datalayer/data_graph.go]), the default producers and
      the order of the data producers ([requestcontrol/request_control_config.go]).

    The theorems show: load detectors close the gate exactly when the pool is saturated;
    in-flight counters are exact, over any interleaving and however streams end; the hashes of a
    prompt stand for its prefixes, and a prompt is found where it was sent; cached
    candidates are no older than the cache allows; the admission controllers refuse with
    the right status; a request that is let through goes to endpoints of the pool under
    the rewritten model name, with the hooks run once; the rules of rewrites apply by
    precedence; the proxy is answered in the order it expects; every request that is sent
    to an endpoint is ended once; the response plugins see all chunks, in order; eviction
    signals the requests that come first in the eviction order, once each; data producers
    run after those whose data they consume; a request that a client encodes is understood,
    and the model server gets the body of the client with the rewritten model; the usage that
    a model server reports is found in plain and streamed responses; the payload of a gRPC
    frame is read within its bounds unless the announced length overflows; once all events are reconciled, the endpoints
    are exactly the active ports of the ready pods of the pool, each with one collector; an
    accepted configuration of sources and extractors fits together; the newest metrics of a model
    server reach its endpoint; a configuration that loads is complete, and the default one
    loads.

    ** The routing sidecar

    - [JsonDecode]: the decoder of [encoding/json] that the sidecar relies on, with the round
      trip through the encoder of [Json].
    - [SidecarTargets]: hosts, ports and URLs of Go's [net] and [url] packages, and the allow
      list ([pkg/sidecar/proxy/allowlist.go]) as a system of events of pools and pods.
    - [SidecarProxy]: the handlers of [pkg/sidecar/proxy]: routing, the NIXL, shared storage
      and SGLang connectors, the encoder stage, data parallel ranks, errors and writers.
    - [SidecarOptions]: defaults, completion and validation of the options.
    - [SidecarProps]: the theorems, and examples where the code falls short.

    The theorems show: with the protection enabled requests go only to the decoders of the
    sidecar and to pods of the pool; the hosts that the scheduler announces are those that
    the sidecar contacts; the decoder gets the request of the client with the parameters of
    the prefiller; every request is answered, whatever the servers answer.

    ** Bounds and fuel

    Loops of the heap run on fuel of the number of items, and running out is a panic, which
    the theorems exclude. The level of a heap index uses [math.Log2] exactly below [2^47].
    [Schedule] takes its number of rounds as an argument: [schedule_terminates] shows that
    the number of profiles plus one suffices for every lawful handler. The JSON decoder runs
    on the length of its input, which the round trip shows to be enough, and on the nesting
    limit of the library.

    ** Simplifications

    One clock; header names and values in ASCII; requests that are not nil and have a
    header map; [container/list] as documented; a [resource.Quantity] by its value;
    registry operations are atomic, their races being the subject of [Leasing]; a sweep
    visits the queues one after the other; [Submit] and [SubmitOrBlock] are one step; the
    JSON encoder works on bytes. When the data producers time out, those that have not
    begun do not run. [ExtProc] runs the response plugins at once, which [ResponseQueue]
    shows to be what streams with ids of their own see. The cache of the Kubernetes client
    and its events are in step, and the pods are those of the namespace of the pool, as the
    controller manager is set up; a reconciliation is one step, [pod_added_to_new_pool]
    shows what the code does otherwise. Dynamic metadata and the usage of
    tokens are left out of the stream. In the sidecar the encoders are asked one after the other,
    and a streamed decode is described by how much of it has arrived when it is inspected;
    header names are in lower case.

    ** Not modelled

    - Kubernetes clients and the manager of controllers, the gRPC server, command lines other than
      the sidecar's options, metrics, tracing and TLS: calls of libraries.
    - Predicted latency, its queue and sampler, its admission and the latency scorer: a client
      of a prediction service. The no-hit LRU scorer and the older metrics client.
    - The decoding of protobuf messages: generated code and a library.
    - The precise prefix cache scorer and the tokenizer: clients of an external indexer.
*)

From stdpp Require Import prelude gmap strings list sorting.

#[export] Set Warnings "-clear-no-such-hyp".

Declare Scope go_scope.
Delimit Scope go_scope with go.

(** ** Go machine integers

    [int64] and [uint64] values are kept as [Z]; every operation that the
    source performs at machine width goes through one of the two wrappers. *)

Module Int.

Definition two63 : Z := 2 ^ 63.
Definition two64 : Z := 2 ^ 64.

(** [uint64(z)]: reduction modulo [2^64]. *)
Definition u64 (z : Z) : Z := z `mod` two64.

(** [int64(z)]: two's complement reduction into [-2^63, 2^63). *)
Definition i64 (z : Z) : Z := (z + two63) `mod` two64 - two63.

(** [^x] on [uint64]. *)
Definition u64_not (x : Z) : Z := Z.lxor x (two64 - 1).

(** The source's idiom [counter.Add(^n + 1)] ("atomic subtraction"). *)
Definition u64_atomic_sub (counter n : Z) : Z := u64 (counter + u64 (u64_not n + 1)).

Lemma u64_small z : (0 ≤ z < two64)%Z → u64 z = z.
Proof. apply Z.mod_small. Qed.

Lemma i64_small z : (- two63 ≤ z < two63)%Z → i64 z = z.
Proof. unfold i64, two63, two64. intros. rewrite Z.mod_small; lia. Qed.

Lemma u64_range z : (0 ≤ u64 z < two64)%Z.
Proof. apply Z.mod_pos_bound. unfold two64. lia. Qed.

Lemma i64_range z : (- two63 ≤ i64 z < two63)%Z.
Proof.
  unfold i64. pose proof (Z.mod_pos_bound (z + two63) two64).
  unfold two63, two64 in *. lia.
Qed.

Lemma u64_add_l a b : u64 (u64 a + b) = u64 (a + b).
Proof. unfold u64. by rewrite Zplus_mod_idemp_l. Qed.

Lemma u64_add_r a b : u64 (a + u64 b) = u64 (a + b).
Proof. unfold u64. by rewrite Zplus_mod_idemp_r. Qed.

Lemma u64_u64 z : u64 (u64 z) = u64 z.
Proof. apply u64_small, u64_range. Qed.

Lemma i64_add_l a b : i64 (i64 a + b) = i64 (a + b).
Proof.
  unfold i64. f_equal.
  replace ((a + two63) `mod` two64 - two63 + b + two63)%Z
    with ((a + two63) `mod` two64 + b)%Z by lia.
  rewrite Zplus_mod_idemp_l. f_equal. lia.
Qed.

Lemma i64_add_r a b : i64 (a + i64 b) = i64 (a + b).
Proof. rewrite Z.add_comm, i64_add_l. f_equal. lia. Qed.

(** Reading a signed counter back as [uint64] undoes the signed wrap. *)
Lemma u64_i64 z : u64 (i64 z) = u64 z.
Proof.
  unfold u64, i64.
  rewrite Zminus_mod_idemp_l. f_equal. lia.
Qed.

Lemma i64_mul_l a b c : i64 a = i64 b → i64 (a * c) = i64 (b * c).
Proof.
  intros H. apply (f_equal u64) in H. rewrite !u64_i64 in H. unfold u64, i64 in *. f_equal.
  rewrite <- (Zplus_mod_idemp_l (a * c)), <- (Zplus_mod_idemp_l (b * c)). f_equal. f_equal.
  by rewrite <- (Zmult_mod_idemp_l a), <- (Zmult_mod_idemp_l b), H.
Qed.

Lemma i64_i64 z : i64 (i64 z) = i64 z.
Proof. apply i64_small, i64_range. Qed.

Lemma i64_u64 z : i64 (u64 z) = i64 z.
Proof. unfold u64, i64. by rewrite Zplus_mod_idemp_l. Qed.

Lemma i64_opp_i64 z : i64 (- i64 z) = i64 (- z).
Proof.
  unfold i64. f_equal.
  replace (- ((z + two63) `mod` two64 - two63) + two63)%Z
    with (two64 - (z + two63) `mod` two64)%Z by (unfold two63, two64; lia).
  rewrite Zminus_mod_idemp_r. f_equal. unfold two63, two64. lia.
Qed.

(** The complement-and-increment idiom is subtraction modulo [2^64]. *)
Lemma u64_not_eq x : (0 ≤ x < two64)%Z → u64_not x = (two64 - 1 - x)%Z.
Proof.
  intros Hx. unfold u64_not, two64 in *.
  apply Z.bits_inj'. intros n Hn.
  replace (2 ^ 64 - 1 - x)%Z with (Z.pred (2 ^ 64) - x)%Z by lia.
  rewrite Z.lxor_spec.
  replace (2 ^ 64 - 1)%Z with (Z.ones 64) by reflexivity.
  replace (Z.pred (2 ^ 64)) with (Z.ones 64) by reflexivity.
  rewrite Z.sub_nocarry_ldiff.
  2:{ apply Z.bits_inj'. intros m Hm. rewrite Z.ldiff_spec, Z.bits_0.
      destruct (decide (m < 64)%Z).
      - rewrite Z.ones_spec_low by lia. by rewrite andb_false_r.
      - rewrite Z.ones_spec_high by lia.
        destruct (decide (x = 0)%Z) as [->|]; [by rewrite Z.bits_0|].
        rewrite Z.bits_above_log2; [done|lia|].
        apply Z.log2_lt_pow2; [lia|].
        apply Z.lt_le_trans with (2 ^ 64)%Z; [lia|].
        apply Z.pow_le_mono_r; lia. }
  rewrite Z.ldiff_spec.
  destruct (decide (n < 64)%Z).
  - rewrite Z.ones_spec_low by lia. by destruct (Z.testbit x n).
  - rewrite Z.ones_spec_high by lia.
    destruct (decide (x = 0)%Z) as [->|]; [by rewrite Z.bits_0|].
    rewrite Z.bits_above_log2; [done|lia|].
    apply Z.log2_lt_pow2; [lia|].
    apply Z.lt_le_trans with (2 ^ 64)%Z; [lia|].
    apply Z.pow_le_mono_r; lia.
Qed.

Lemma u64_atomic_sub_eq c n :
  (0 ≤ n < two64)%Z → u64_atomic_sub c n = u64 (c - n).
Proof.
  intros Hn. unfold u64_atomic_sub. rewrite u64_not_eq by done.
  rewrite u64_add_r. unfold u64.
  replace (c + (two64 - 1 - n + 1))%Z with (c - n + 1 * two64)%Z by lia.
  apply Z_mod_plus_full.
Qed.

End Int.

(** ** Lists filtered by a boolean predicate *)

Lemma filter_In_elem {A} (p : A → bool) l x : x ∈ List.filter p l ↔ x ∈ l ∧ p x = true.
Proof. rewrite !list_elem_of_In. apply filter_In. Qed.

Lemma NoDup_filter_fmap {A B} (f : A → B) (p : A → bool) l :
  NoDup (f <$> l) → NoDup (f <$> List.filter p l).
Proof.
  induction l as [|x l IH]; [done|]. rewrite fmap_cons. intros [Hx Hnd]%NoDup_cons. simpl.
  destruct (p x); [|by apply IH]. rewrite fmap_cons. apply NoDup_cons. split; [|by apply IH].
  rewrite list_elem_of_fmap in *. intros (y & Hfy & [Hy _]%filter_In_elem). eauto.
Qed.

Lemma Forall_filter_list {A} (P : A → Prop) (p : A → bool) l :
  Forall P l → Forall P (List.filter p l).
Proof. induction 1; simpl; [done|]. destruct (p x); eauto. Qed.

(** ** Separators in strings *)

Fixpoint char_free (c : Ascii.ascii) (s : string) : bool :=
  match s with
  | EmptyString => true
  | String a s' => negb (Ascii.eqb a c) && char_free c s'
  end.

Lemma char_free_app c a b : char_free c (a +:+ b) = char_free c a && char_free c b.
Proof. induction a as [|x a IH]; [done|]. simpl. rewrite IH. by rewrite andb_assoc. Qed.

(** What follows the last separator is determined. *)
Lemma last_sep_inj c a b a' b' : char_free c b = true → char_free c b' = true →
  a +:+ String c b = a' +:+ String c b' → a = a' ∧ b = b'.
Proof.
  intros Hb Hb'. revert a'. induction a as [|x a IH]; intros [|y a'] Heq.
  - by injection Heq as ->.
  - exfalso. injection Heq as -> ->. rewrite char_free_app in Hb. simpl in Hb. rewrite Ascii.eqb_refl in Hb.
    by destruct (char_free y a').
  - exfalso. injection Heq as -> <-. rewrite char_free_app in Hb'. simpl in Hb'. rewrite Ascii.eqb_refl in Hb'.
    by destruct (char_free c a).
  - injection Heq as -> Heq. by destruct (IH a' Heq) as [-> ->].
Qed.

Lemma string_app_inj_r (a a' s : string) : a +:+ s = a' +:+ s → a = a'.
Proof.
  assert (∀ (x y : string), String.length (x +:+ y) = String.length x + String.length y)%nat as Hlen.
  { intros x y. induction x as [|c x IH]; [done|]. simpl. f_equal. exact IH. }
  revert a'. induction a as [|x a IH]; intros [|y a'] Heq; [done|..].
  - apply (f_equal String.length) in Heq. rewrite !Hlen in Heq. simpl in Heq. lia.
  - apply (f_equal String.length) in Heq. rewrite !Hlen in Heq. simpl in Heq. lia.
  - injection Heq as -> Heq. f_equal. by apply IH.
Qed.

(** ** Sums over finite maps *)

Definition sum_map {K A} `{Countable K} (f : A → Z) (m : gmap K A) : Z :=
  map_fold (λ _ x acc, f x + acc)%Z 0%Z m.

Section sum_map.
Context {K A : Type} `{Countable K} (f : A → Z).

Lemma sum_map_empty : sum_map f (∅ : gmap K A) = 0%Z.
Proof using Type. apply map_fold_empty. Qed.

Lemma sum_map_insert (m : gmap K A) k x :
  m !! k = None → sum_map f (<[k := x]> m) = (f x + sum_map f m)%Z.
Proof using Type. intros Hk. unfold sum_map. rewrite map_fold_insert_L; [done|lia|done]. Qed.

Lemma sum_map_delete (m : gmap K A) k x :
  m !! k = Some x → sum_map f m = (f x + sum_map f (delete k m))%Z.
Proof using Type.
  intros Hk. rewrite <- (insert_delete_id m k x) at 1 by done.
  apply sum_map_insert, lookup_delete_eq.
Qed.

Lemma sum_map_update (m : gmap K A) k x y :
  m !! k = Some y → sum_map f (<[k := x]> m) = (sum_map f m - f y + f x)%Z.
Proof using Type.
  intros Hk. rewrite (sum_map_delete m k y) by done. rewrite <- insert_delete_eq.
  rewrite sum_map_insert by apply lookup_delete_eq. lia.
Qed.

Lemma sum_map_const (g : A → Z) (m : gmap K A) :
  (∀ k x, m !! k = Some x → f x = g x) → sum_map f m = sum_map g m.
Proof using Type.
  induction m as [|k x m Hk IH] using map_ind; intros Hfg; [done|].
  unfold sum_map. rewrite !map_fold_insert_L by (done || lia). fold (sum_map f m) (sum_map g m).
  rewrite (Hfg k x) by apply lookup_insert_eq. f_equal. apply IH. intros k' x' Hk'.
  apply (Hfg k'). rewrite lookup_insert_ne; [done|]. intros <-. congruence.
Qed.

Lemma sum_map_zero (m : gmap K A) :
  (∀ k x, m !! k = Some x → f x = 0%Z) → sum_map f m = 0%Z.
Proof using Type.
  induction m as [|k x m Hk IH] using map_ind; intros Hz; [done|].
  rewrite sum_map_insert by done. rewrite (Hz k x) by apply lookup_insert_eq. rewrite IH; [done|].
  intros k' x' Hk'. apply (Hz k'). rewrite lookup_insert_ne; [done|]. intros <-. congruence.
Qed.

Lemma sum_map_nonneg (m : gmap K A) : (∀ x, 0 ≤ f x)%Z → (0 ≤ sum_map f m)%Z.
Proof using Type.
  intros Hf. induction m as [|k x m Hk IH] using map_ind; [by rewrite sum_map_empty|].
  rewrite sum_map_insert by done. specialize (Hf x). lia.
Qed.
End sum_map.

(** ** A monad for code that updates shared state and may panic

    [GoM S A] runs on a state [S] and returns [None] exactly when the Go code
    would stop with a run-time panic (an index out of range, a dereferenced nil
    pointer, a failed type assertion, a close of a closed channel). *)

Definition GoM (S A : Type) : Type := S → option (A * S).

#[export] Instance gom_ret S : MRet (GoM S) := λ A a s, Some (a, s).
#[export] Instance gom_bind S : MBind (GoM S) :=
  λ A B k c s, match c s with Some (a, s') => k a s' | None => None end.

Definition gets {S A} (f : S → A) : GoM S A := λ s, Some (f s, s).
Definition modify {S} (f : S → S) : GoM S unit := λ s, Some (tt, f s).
Definition panic {S A} : GoM S A := λ _, None.

(** An index expression, a pointer dereference or a map read of a pointer that
    is dereferenced at once: [None] is the panic. *)
Definition getsome {S A} (f : S → option A) : GoM S A :=
  λ s, match f s with Some a => Some (a, s) | None => None end.

Fixpoint for_each {S A} (xs : list A) (body : A → GoM S unit) : GoM S unit :=
  match xs with
  | [] => mret tt
  | x :: xs' => _ ← body x; for_each xs' body
  end.

(** [wp c Q s]: running [c] from [s] does not panic and its result and final
    state satisfy [Q]. *)
Definition wp {S A} (c : GoM S A) (Q : A → S → Prop) (s : S) : Prop :=
  match c s with Some (a, s') => Q a s' | None => False end.

Section wp_rules.
Context {S : Type}.

Lemma wp_ret {A} (a : A) (Q : A → S → Prop) s : Q a s → wp (mret a) Q s.
Proof. done. Qed.

Lemma wp_bind {A B} (c : GoM S A) (k : A → GoM S B) Q s :
  wp c (λ a s', wp (k a) Q s') s → wp (c ≫= k) Q s.
Proof. unfold wp, mbind, gom_bind. by destruct (c s) as [[a s']|]. Qed.

Lemma wp_bind_inv {A B} (c : GoM S A) (k : A → GoM S B) Q s :
  wp (c ≫= k) Q s → wp c (λ a s', wp (k a) Q s') s.
Proof. unfold wp, mbind, gom_bind. by destruct (c s) as [[a s']|]. Qed.

Lemma wp_mono {A} (c : GoM S A) (Q Q' : A → S → Prop) s :
  wp c Q s → (∀ a s', Q a s' → Q' a s') → wp c Q' s.
Proof. unfold wp. destruct (c s) as [[a s']|]; auto. Qed.

Lemma wp_and {A} (c : GoM S A) (Q Q' : A → S → Prop) s :
  wp c Q s → wp c Q' s → wp c (λ a s', Q a s' ∧ Q' a s') s.
Proof. unfold wp. destruct (c s) as [[a s']|]; auto. Qed.

Lemma wp_gets {A} (f : S → A) Q s : Q (f s) s → wp (gets f) Q s.
Proof. done. Qed.

Lemma wp_modify (f : S → S) Q s : Q tt (f s) → wp (modify f) Q s.
Proof. done. Qed.

Lemma wp_getsome {A} (f : S → option A) Q s a :
  f s = Some a → Q a s → wp (getsome f) Q s.
Proof. intros Hf HQ. unfold wp, getsome. by rewrite Hf. Qed.

Lemma wp_run {A} (c : GoM S A) Q s :
  wp c Q s ↔ ∃ a s', c s = Some (a, s') ∧ Q a s'.
Proof.
  unfold wp. destruct (c s) as [[a s']|]; split.
  - eauto.
  - by intros (? & ? & [= <- <-] & ?).
  - done.
  - by intros (? & ? & ? & ?).
Qed.

(** A loop invariant indexed by the elements already visited. *)
Lemma wp_for_each {A} (xs : list A) body (I : list A → S → Prop) Q s :
  I [] s →
  (∀ pre x post s, xs = pre ++ x :: post → I pre s →
    wp (body x) (λ _ s', I (pre ++ [x]) s') s) →
  (∀ s, I xs s → Q tt s) →
  wp (for_each xs body) Q s.
Proof.
  intros H0 Hstep HQ.
  enough (∀ pre post s, xs = pre ++ post → I pre s → wp (for_each post body) Q s)
    by (apply (H [] xs); done).
  intros pre post; revert pre; induction post as [|x post IH]; intros pre s' Heq HI; simpl.
  - apply wp_ret, HQ. rewrite app_nil_r in Heq. by subst.
  - apply wp_bind. eapply wp_mono; [by eapply Hstep|].
    intros [] s''. simpl. intros HI'. apply (IH (pre ++ [x])); [|done].
    by rewrite <- (assoc_L (++)).
Qed.
End wp_rules.

(** The total-correctness automation: decompose binds and primitive steps. *)
Ltac wp_step :=
  lazymatch goal with
  | |- wp (mret _) _ _ => apply wp_ret
  | |- wp (gets _) _ _ => apply wp_gets
  | |- wp (modify _) _ _ => apply wp_modify
  | |- wp (_ ≫= _) _ _ => apply wp_bind
  end.
Ltac wp_steps := repeat (wp_step; cbv beta; simpl).
