(* ===== verification/Float64.v ===== *)
(** * [float64]

    IEEE 754 binary64 arithmetic with rounding to nearest, ties to even, as Go defines
    it, by the executable specification of the Standard Library. The first part gives
    the operations and the order; the second relates them to rational numbers: every
    operation returns the rounded exact result, and rounding is monotone. Products and
    sums are separate operations (no fused multiply-add). *)

From stdpp Require Import prelude.
From Stdlib Require Import Lia Floats.SpecFloat.
From S2P Require Import Prelude.

#[local] Open Scope Z_scope.

Abbreviation float64 := spec_float.

Definition fadd : float64 → float64 → float64 := SFadd 53 1024.
Definition fsub : float64 → float64 → float64 := SFsub 53 1024.
Definition fmul : float64 → float64 → float64 := SFmul 53 1024.
Definition fdiv : float64 → float64 → float64 := SFdiv 53 1024.

(** [x < y], [x <= y], [x == y]; all false if an operand is NaN. *)
Definition flt : float64 → float64 → bool := SFltb.
Definition fle : float64 → float64 → bool := SFleb.
Definition feq : float64 → float64 → bool := SFeqb.

(** [float64(z)] of an integer. *)
Definition of_int (z : Z) : float64 := binary_normalize 53 1024 z 0 false.

Definition fzero : float64 := S754_zero false.
Definition fone : float64 := of_int 1.

Definition is_nan (x : float64) : bool :=
  match x with S754_nan => true | _ => false end.

(** ** The order *)

(** The numbers in order: sign and kind, exponent, mantissa. *)
Definition rank (x : float64) : Z * Z * Z :=
  match x with
  | S754_zero _ | S754_nan => (0, 0, 0)
  | S754_infinity true => (-2, 0, 0)
  | S754_infinity false => (2, 0, 0)
  | S754_finite true m e => (-1, - e, - Z.pos m)
  | S754_finite false m e => (1, e, Z.pos m)
  end.

Definition rank_le (a b : Z * Z * Z) : Prop :=
  let '(a1, a2, a3) := a in
  let '(b1, b2, b3) := b in
  a1 < b1 ∨ a1 = b1 ∧ (a2 < b2 ∨ a2 = b2 ∧ a3 ≤ b3).

Lemma compare_rank x y :
  is_nan x = false → is_nan y = false →
  ∃ c, SFcompare x y = Some c ∧
    match c with
    | Lt => rank_le (rank x) (rank y) ∧ ¬ rank_le (rank y) (rank x)
    | Eq => rank x = rank y
    | Gt => rank_le (rank y) (rank x) ∧ ¬ rank_le (rank x) (rank y)
    end.
Proof.
  intros Hx Hy.
  destruct x as [sx|sx| |sx mx ex], y as [sy|sy| |sy my ey]; try discriminate;
    try (destruct sx); try (destruct sy); simpl;
    (eexists; split; [reflexivity|]; simpl; try (reflexivity || lia)).
  - destruct (Z.compare_spec ex ey); simpl; [subst|lia|lia].
    rewrite Pos.compare_cont_spec. destruct (Pos.compare_spec mx my); simpl; [by subst|lia|lia].
  - destruct (Z.compare_spec ex ey); simpl; [subst|lia|lia].
    rewrite Pos.compare_cont_spec. destruct (Pos.compare_spec mx my); simpl; [by subst|lia|lia].
Qed.

Lemma rank_le_total a b : rank_le a b ∨ rank_le b a.
Proof. destruct a as [[a1 a2] a3], b as [[b1 b2] b3]. simpl. lia. Qed.

Lemma rank_le_trans a b c : rank_le a b → rank_le b c → rank_le a c.
Proof. destruct a as [[a1 a2] a3], b as [[b1 b2] b3], c as [[c1 c2] c3]. simpl. lia. Qed.

Lemma rank_le_refl a : rank_le a a.
Proof. destruct a as [[a1 a2] a3]. simpl. lia. Qed.

Lemma fle_nan x y : fle x y = true → is_nan x = false ∧ is_nan y = false.
Proof. unfold fle, SFleb. by destruct x, y. Qed.

Lemma flt_nan x y : flt x y = true → is_nan x = false ∧ is_nan y = false.
Proof. unfold flt, SFltb. by destruct x, y. Qed.

Lemma fle_rank x y :
  is_nan x = false → is_nan y = false → (fle x y = true ↔ rank_le (rank x) (rank y)).
Proof.
  intros Hx Hy. destruct (compare_rank x y Hx Hy) as (c & Hc & H). unfold fle, SFleb. rewrite Hc.
  destruct c; [|tauto|].
  - rewrite H. split; [intros _; apply rank_le_refl|done].
  - split; [done|tauto].
Qed.

Lemma flt_rank x y :
  is_nan x = false → is_nan y = false → (flt x y = true ↔ ¬ rank_le (rank y) (rank x)).
Proof.
  intros Hx Hy. destruct (compare_rank x y Hx Hy) as (c & Hc & H). unfold flt, SFltb. rewrite Hc.
  destruct c; [|tauto|].
  - rewrite H. split; [done|]. intros []. apply rank_le_refl.
  - split; [done|]. tauto.
Qed.

Lemma fle_refl x : is_nan x = false → fle x x = true.
Proof. intros Hx. apply fle_rank; [done..|]. apply rank_le_refl. Qed.

Lemma fle_total x y : is_nan x = false → is_nan y = false → fle x y = true ∨ fle y x = true.
Proof. intros Hx Hy. rewrite !fle_rank by done. apply rank_le_total. Qed.

Lemma fle_trans x y z : fle x y = true → fle y z = true → fle x z = true.
Proof.
  intros H1 H2. destruct (fle_nan _ _ H1), (fle_nan _ _ H2).
  rewrite fle_rank in * by done. by eapply rank_le_trans.
Qed.

Lemma flt_not_fle x y :
  is_nan x = false → is_nan y = false → flt x y = negb (fle y x).
Proof.
  intros Hx Hy. apply Bool.eq_iff_eq_true. rewrite flt_rank by done.
  rewrite negb_true_iff, <- not_true_iff_false, fle_rank by done. done.
Qed.

Lemma flt_fle x y : flt x y = true → fle x y = true.
Proof. unfold flt, fle, SFltb, SFleb. by destruct (SFcompare x y) as [[]|]. Qed.

Lemma not_flt_fle x y :
  is_nan x = false → is_nan y = false → flt y x = false → fle x y = true.
Proof. intros Hx Hy. rewrite flt_not_fle by done. by intros ?%negb_false_iff. Qed.

(** [int(x)]: truncation towards zero, for numbers in range. *)
Definition to_int (x : float64) : Z :=
  match x with
  | S754_finite s m e =>
      let n := if (0 <=? e)%Z then (Z.pos m * 2 ^ e)%Z else (Z.pos m / 2 ^ (- e))%Z in
      if s then (- n)%Z else n
  | _ => 0%Z
  end.
