(* ===== verification/FloatRound.v ===== *)
(** * Rounding of [float64] results

    The operations of [Float64] return the exact result rounded to nearest even:
    [rounded q s f] says that [f] is the positive rational [q] rounded, with sign [s].
    Rounding is monotone and exact on representable numbers, and the order of numbers
    is the order of their values. *)

From stdpp Require Import prelude.
From Stdlib Require Import ZArith QArith Qpower Lqa Lia Floats.SpecFloat.
From S2P Require Import Prelude Float64.

#[local] Open Scope Q_scope.

Create HintDb pow2.

(** Conjunctions of inequalities, for [lra]. *)
Ltac qcases := repeat match goal with H : _ ∧ _ |- _ => destruct H end; repeat split.

(** ** Powers of two *)

Definition pow2 (e : Z) : Q := Qpower 2 e.

Lemma pow2_pos e : 0 < pow2 e.
Proof. apply Qpower_0_lt. reflexivity. Qed.

Lemma pow2_plus a b : pow2 (a + b) == pow2 a * pow2 b.
Proof. apply Qpower_plus. discriminate. Qed.

Lemma pow2_succ e : pow2 (e + 1) == 2 * pow2 e.
Proof. rewrite pow2_plus. unfold pow2 at 2. simpl. ring. Qed.

Lemma pow2_le a b : (a ≤ b)%Z → pow2 a <= pow2 b.
Proof. intros H. apply Qpower_le_compat_l; [done|discriminate]. Qed.

Lemma pow2_lt_inv a b : pow2 a < pow2 b → (a < b)%Z.
Proof. intros H. by apply Qpower_lt_compat_l_inv in H. Qed.

Lemma pow2_Z n : (0 ≤ n)%Z → pow2 n == inject_Z (2 ^ n).
Proof. intros Hn. unfold pow2. symmetry. by apply (Zpower_Qpower 2 n). Qed.

Lemma pow2_0 : pow2 0 == 1.
Proof. reflexivity. Qed.

Lemma inj_le a b : (a ≤ b)%Z → inject_Z a <= inject_Z b.
Proof. intros H. by rewrite <- Zle_Qle. Qed.

Lemma inj_lt_inv a b : inject_Z a < inject_Z b → (a < b)%Z.
Proof. intros H. by rewrite Zlt_Qlt. Qed.

Lemma inj_succ a : inject_Z (a + 1) == inject_Z a + 1.
Proof. rewrite inject_Z_plus. reflexivity. Qed.

Lemma scale_le a b e : a <= b → a * pow2 e <= b * pow2 e.
Proof. intros H. apply Qmult_le_compat_r; [done|]. apply Qlt_le_weak, pow2_pos. Qed.

Lemma scale_lt a b e : a < b → a * pow2 e < b * pow2 e.
Proof. intros H. apply Qmult_lt_compat_r; [apply pow2_pos|done]. Qed.

Lemma scale_lt_inv a b e : a * pow2 e < b * pow2 e → a < b.
Proof. intros H. apply (Qmult_lt_r a b (pow2 e)); [apply pow2_pos|done]. Qed.

Lemma scale_le_inv a b e : a * pow2 e <= b * pow2 e → a <= b.
Proof. intros H. apply (Qmult_le_r a b (pow2 e)); [apply pow2_pos|done]. Qed.

(** A multiple of [2^(n+e)] at exponent [e]. *)
Lemma pow2_scaled n e : (0 ≤ n)%Z → pow2 (n + e) == inject_Z (2 ^ n) * pow2 e.
Proof. intros Hn. by rewrite pow2_plus, pow2_Z. Qed.

(** ** Mantissas with a remainder *)

(** Where the discarded part of a mantissa lies: nothing, below one half, one half,
    above. *)
Definition frac (r s : bool) (f : Q) : Prop :=
  match r, s with
  | false, false => f == 0
  | false, true => 0 < f ∧ f < 1 # 2
  | true, false => f == 1 # 2
  | true, true => (1 # 2) < f ∧ f < 1
  end.

Definition repr (mrs : shr_record) (e : Z) (q : Q) : Prop :=
  ∃ f, frac (shr_r mrs) (shr_s mrs) f ∧ q == (inject_Z (shr_m mrs) + f) * pow2 e.

Lemma frac_range r s f : frac r s f → 0 <= f ∧ f < 1.
Proof. destruct r, s; simpl; intros H; qcases; lra. Qed.

Lemma repr_bounds mrs e q :
  repr mrs e q → inject_Z (shr_m mrs) * pow2 e <= q ∧ q < inject_Z (shr_m mrs + 1) * pow2 e.
Proof.
  intros (f & Hf & ->). destruct (frac_range _ _ _ Hf). rewrite inj_succ. split.
  - apply scale_le. lra.
  - apply scale_lt. lra.
Qed.

Lemma shr_1_repr mrs e q :
  (0 ≤ shr_m mrs)%Z → repr mrs e q → (0 ≤ shr_m (shr_1 mrs))%Z ∧ repr (shr_1 mrs) (e + 1) q.
Proof.
  intros Hm (f & Hf & Hq).
  assert (∃ p b, shr_m mrs = (2 * p + Z.b2z b)%Z ∧ (0 ≤ p)%Z ∧
            shr_1 mrs = {| shr_m := p; shr_r := b; shr_s := shr_r mrs || shr_s mrs |})
    as (p & b & Hp & Hp0 & ->).
  { destruct mrs as [[|[p|p|]|p] r s]; simpl in *; [| | | |lia].
    - by exists 0%Z, false.
    - by exists (Z.pos p), true.
    - by exists (Z.pos p), false.
    - by exists 0%Z, true. }
  split; [done|]. exists ((inject_Z (Z.b2z b) + f) * (1 # 2)). split.
  - cbn [shr_r shr_s]. destruct b, (shr_r mrs), (shr_s mrs); unfold frac in *; simpl in *;
      change (inject_Z 1) with 1; change (inject_Z 0) with 0; qcases; lra.
  - cbn [shr_m]. rewrite Hq, Hp, pow2_succ, inject_Z_plus, inject_Z_mult. ring.
Qed.

Lemma iter_repr n : ∀ mrs e q,
  (0 ≤ shr_m mrs)%Z → repr mrs e q →
  (0 ≤ shr_m (iter_pos shr_1 n mrs))%Z ∧ repr (iter_pos shr_1 n mrs) (e + Z.pos n) q.
Proof.
  induction n as [n IH|n IH|]; intros mrs e q Hm Hr; simpl.
  - destruct (shr_1_repr _ _ _ Hm Hr) as [Hm1 Hr1]. destruct (IH _ _ _ Hm1 Hr1) as [Hm2 Hr2].
    destruct (IH _ _ _ Hm2 Hr2) as [Hm3 Hr3]. split; [done|].
    by replace (e + Z.pos n~1)%Z with (e + 1 + Z.pos n + Z.pos n)%Z by lia.
  - destruct (IH _ _ _ Hm Hr) as [Hm2 Hr2]. destruct (IH _ _ _ Hm2 Hr2) as [Hm3 Hr3]. split; [done|].
    by replace (e + Z.pos n~0)%Z with (e + Z.pos n + Z.pos n)%Z by lia.
  - by apply shr_1_repr.
Qed.

Lemma shr_repr mrs e n q :
  (0 ≤ shr_m mrs)%Z → repr mrs e q →
  (0 ≤ shr_m (shr mrs e n).1)%Z ∧ repr (shr mrs e n).1 (shr mrs e n).2 q ∧
  (shr mrs e n).2 = Z.max e (e + n).
Proof.
  intros Hm Hr. destruct n as [|n|n]; simpl.
  - split_and!; [done..|lia].
  - destruct (iter_repr n _ _ _ Hm Hr). split_and!; [done..|lia].
  - split_and!; [done..|lia].
Qed.

(** ** The exponent of the result *)

Abbreviation fexp64 := (fexp 53 1024).
Definition emin64 : Z := -1074.

Lemma fexp64_eq x : fexp64 x = Z.max (x - 53) emin64.
Proof. reflexivity. Qed.

Lemma digits_spec p :
  (2 ^ (Z.pos (digits2_pos p) - 1) ≤ Z.pos p < 2 ^ Z.pos (digits2_pos p))%Z.
Proof.
  induction p as [p IH|p IH|]; simpl digits2_pos; [| |done];
    rewrite Pos2Z.inj_succ; unfold Z.succ;
    replace (Z.pos (digits2_pos p) + 1 - 1)%Z with (Z.pos (digits2_pos p) - 1 + 1)%Z by lia;
    rewrite !Z.pow_add_r by lia; lia.
Qed.

(** The number of binary digits is determined by the bounds. *)
Lemma pow_between a b x : (2 ^ a ≤ x)%Z → (x < 2 ^ b)%Z → (0 ≤ b)%Z → (a < b)%Z.
Proof.
  intros H1 H2 Hb. destruct (Z.lt_ge_cases a b) as [|Hge]; [done|].
  assert (2 ^ b ≤ 2 ^ a)%Z by (apply Z.pow_le_mono_r; lia). lia.
Qed.

Lemma digits_unique p d :
  (0 < d)%Z → (2 ^ (d - 1) ≤ Z.pos p < 2 ^ d)%Z → Z.pos (digits2_pos p) = d.
Proof.
  intros Hd [H1 H2]. destruct (digits_spec p) as [H3 H4].
  pose proof (pow_between _ _ _ H1 H4 ltac:(lia)). pose proof (pow_between _ _ _ H3 H2 ltac:(lia)). lia.
Qed.

(** [e] is the exponent at which the positive number [q] has 53 digits, or the least
    exponent. *)
Definition exponent_for (q : Q) (e : Z) : Prop :=
  q < pow2 (e + 53) ∧ (e = emin64 ∨ (emin64 < e)%Z ∧ pow2 (e + 52) <= q).

Lemma exponent_unique q e e' : exponent_for q e → exponent_for q e' → e = e'.
Proof.
  intros [H1 H2] [H3 H4].
  assert (∀ a b, q < pow2 (a + 53) → (emin64 < b)%Z ∧ pow2 (b + 52) <= q → (b ≤ a)%Z) as Hle.
  { intros a b Ha [_ Hb]. assert (b + 52 < a + 53)%Z; [|lia]. apply pow2_lt_inv.
    eapply Qle_lt_trans; eauto. }
  destruct H2 as [->|H2], H4 as [->|H4]; [done| | |].
  - specialize (Hle _ _ H1 H4). lia.
  - specialize (Hle _ _ H3 H2). lia.
  - pose proof (Hle _ _ H1 H4). pose proof (Hle _ _ H3 H2). lia.
Qed.

(** The magnitude of a represented number. *)
Lemma repr_mag mrs e q p :
  shr_m mrs = Z.pos p → repr mrs e q →
  pow2 (Z.pos (digits2_pos p) - 1 + e) <= q ∧ q < pow2 (Z.pos (digits2_pos p) + e).
Proof.
  intros Hp Hr. destruct (repr_bounds _ _ _ Hr) as [H1 H2]. rewrite Hp in H1, H2.
  destruct (digits_spec p) as [H3 H4]. rewrite !pow2_scaled by lia. split.
  - eapply Qle_trans; [|exact H1]. by apply scale_le, inj_le.
  - eapply Qlt_le_trans; [exact H2|]. apply scale_le, inj_le. lia.
Qed.

(** The first shift brings a mantissa with enough digits to the right exponent. *)
Lemma shr_fexp_repr m e l q :
  (0 ≤ m)%Z → repr (shr_record_of_loc m l) e q → (e ≤ fexp64 (Zdigits2 m + e))%Z →
  ∃ mrs e', shr_fexp 53 1024 m e l = (mrs, e') ∧ (0 ≤ shr_m mrs)%Z ∧ repr mrs e' q ∧ exponent_for q e'.
Proof.
  intros Hm Hr He. unfold shr_fexp.
  assert (shr_m (shr_record_of_loc m l) = m) as Hsm by by destruct l as [|[]].
  destruct (shr_repr _ e (fexp64 (Zdigits2 m + e) - e) q ltac:(by rewrite Hsm) Hr) as (H1 & H2 & H3).
  destruct (shr _ _ _) as [mrs e'] eqn:Hshr. simpl in *. exists mrs, e'. split_and!; [done..|].
  replace (Z.max _ _) with (fexp64 (Zdigits2 m + e)) in H3 by lia. rewrite H3. clear H3 Hshr H1 H2.
  rewrite fexp64_eq in *. unfold exponent_for. destruct m as [|p|p]; [| |lia]; simpl Zdigits2 in *.
  - destruct (repr_bounds _ _ _ Hr) as [_ Hlt]. rewrite Hsm in Hlt.
    assert (Z.max (0 + e - 53) emin64 = emin64) as -> by lia. split; [|by left].
    eapply Qlt_le_trans; [exact Hlt|]. rewrite Qmult_1_l.
    apply pow2_le. lia.
  - destruct (repr_mag _ _ _ p Hsm Hr) as [Hge Hlt]. split.
    + eapply Qlt_le_trans; [exact Hlt|]. apply pow2_le. lia.
    + destruct (Z.le_gt_cases (Z.pos (digits2_pos p) + e - 53) emin64).
      * left. lia.
      * right. split; [lia|]. eapply Qle_trans; [|exact Hge]. apply pow2_le. lia.
Qed.

(** ** Rounding to nearest, ties to even *)

Definition rne (mrs : shr_record) : Z := round_nearest_even (shr_m mrs) (loc_of_shr_record mrs).

Lemma rne_near mrs : (shr_m mrs ≤ rne mrs ≤ shr_m mrs + 1)%Z.
Proof.
  destruct mrs as [m [] []]; unfold rne; simpl; try lia. destruct (Z.even m); lia.
Qed.

Lemma repr_floor_le mrs1 mrs2 e q1 q2 :
  repr mrs1 e q1 → repr mrs2 e q2 → q1 <= q2 → (shr_m mrs1 ≤ shr_m mrs2)%Z.
Proof.
  intros H1 H2 Hq. destruct (repr_bounds _ _ _ H1) as [Ha _], (repr_bounds _ _ _ H2) as [_ Hb].
  assert (shr_m mrs1 < shr_m mrs2 + 1)%Z; [|lia]. apply inj_lt_inv, (scale_lt_inv _ _ e).
  eapply Qle_lt_trans; [exact Ha|]. eapply Qle_lt_trans; [exact Hq|exact Hb].
Qed.

Lemma rne_mono mrs1 mrs2 e q1 q2 :
  repr mrs1 e q1 → repr mrs2 e q2 → q1 <= q2 → (rne mrs1 ≤ rne mrs2)%Z.
Proof.
  intros H1 H2 Hq. pose proof (repr_floor_le _ _ _ _ _ H1 H2 Hq) as Hle.
  pose proof (rne_near mrs1). pose proof (rne_near mrs2).
  destruct (decide (shr_m mrs1 = shr_m mrs2)) as [Heq|]; [|lia].
  destruct H1 as (f1 & Hf1 & Hq1), H2 as (f2 & Hf2 & Hq2). rewrite Hq1, Hq2, Heq in Hq.
  apply scale_le_inv in Hq.
  destruct mrs1 as [m [] []], mrs2 as [m' [] []]; unfold rne, frac in *; simpl in *; subst m';
    try destruct (Z.even m); try lia; qcases; lra.
Qed.

Definition canonical (m : positive) (e : Z) : Prop := fexp64 (Z.pos (digits2_pos m) + e) = e.

(** A result too large for the format is infinite. *)
Definition pack (s : bool) (m : positive) (e : Z) : float64 :=
  if (e <=? 971)%Z then S754_finite s m e else S754_infinity s.

(** [f] is [q] rounded, with sign [s]. *)
Definition rounded (q : Q) (s : bool) (f : float64) : Prop :=
  ∃ E mrs, exponent_for q E ∧ (0 ≤ shr_m mrs)%Z ∧ repr mrs E q ∧
    (rne mrs = 0%Z ∧ f = S754_zero s ∨
     ∃ m e, canonical m e ∧ inject_Z (Z.pos m) * pow2 e == inject_Z (rne mrs) * pow2 E ∧ f = pack s m e).

(** The rounded mantissa has at most 53 digits, or is [2^53]. *)
Lemma rne_range q E mrs :
  exponent_for q E → (0 ≤ shr_m mrs)%Z → repr mrs E q →
  (0 ≤ rne mrs ≤ 2 ^ 53)%Z ∧ (E = emin64 ∨ (emin64 < E)%Z ∧ (2 ^ 52 ≤ rne mrs)%Z).
Proof.
  intros [Hlt Hge] Hm Hr. pose proof (rne_near mrs) as Hn. destruct (repr_bounds _ _ _ Hr) as [H1 H2].
  assert (shr_m mrs < 2 ^ 53)%Z as H53.
  { apply inj_lt_inv, (scale_lt_inv _ _ E). eapply Qle_lt_trans; [exact H1|].
    eapply Qlt_le_trans; [exact Hlt|]. rewrite Z.add_comm, pow2_scaled by lia. apply Qle_refl. }
  split; [lia|]. destruct Hge as [->|[HE Hge]]; [by left|right]. split; [done|].
  assert (2 ^ 52 < shr_m mrs + 1)%Z; [|lia]. apply inj_lt_inv, (scale_lt_inv _ _ E).
  eapply Qle_lt_trans; [|exact H2]. rewrite Z.add_comm, pow2_scaled in Hge by lia. exact Hge.
Qed.

(** The second shift only undoes a carry. *)
Lemma renormalize R E :
  (0 ≤ R ≤ 2 ^ 53)%Z → (E = emin64 ∨ (emin64 < E)%Z ∧ (2 ^ 52 ≤ R)%Z) →
  ∃ mrs e, shr_fexp 53 1024 R E loc_Exact = (mrs, e) ∧
    (R = 0%Z ∧ shr_m mrs = 0%Z ∨
     ∃ m, shr_m mrs = Z.pos m ∧ canonical m e ∧ inject_Z (Z.pos m) * pow2 e == inject_Z R * pow2 E).
Proof.
  intros HR HE. unfold shr_fexp. rewrite fexp64_eq. destruct R as [|p|p]; [| |lia].
  - assert (repr {| shr_m := 0; shr_r := false; shr_s := false |} E 0) as Hr by (exists 0; split; [reflexivity|]; change (0 == (0 + 0) * pow2 E); ring).
    destruct (shr_repr {| shr_m := 0; shr_r := false; shr_s := false |} E (Z.max (Zdigits2 0 + E - 53) emin64 - E) 0
      (Z.le_refl 0) Hr) as (Hm & Hr' & _).
    simpl shr_record_of_loc. destruct (shr _ _ _) as [mrs e]. simpl in *. exists mrs, e. split; [done|]. left.
    split; [done|]. destruct (repr_bounds _ _ _ Hr') as [Hle _].
    assert (shr_m mrs < 1)%Z; [|lia]. apply inj_lt_inv, (scale_lt_inv _ _ e).
    eapply Qle_lt_trans; [exact Hle|]. rewrite Qmult_1_l. apply pow2_pos.
  - simpl Zdigits2. destruct (decide (Z.pos p = 2 ^ 53)%Z) as [Hp|Hp].
    + assert (p = 9007199254740992%positive) as -> by lia. assert (emin64 ≤ E)%Z by lia.
      change (Z.pos (digits2_pos 9007199254740992)) with 54%Z.
      replace (Z.max (54 + E - 53) emin64 - E)%Z with 1%Z by lia. simpl.
      do 2 eexists. split; [reflexivity|]. right. eexists. split; [reflexivity|]. split.
      * unfold canonical. rewrite fexp64_eq.
        change (Z.pos (digits2_pos 4503599627370496)) with 53%Z. lia.
      * rewrite pow2_succ. change (inject_Z 9007199254740992) with (inject_Z (4503599627370496 * 2)).
        rewrite inject_Z_mult. ring.
    + destruct (digits_spec p) as [Hd1 Hd2].
      assert (Z.pos (digits2_pos p) ≤ 53)%Z.
      { assert (Z.pos (digits2_pos p) - 1 < 53)%Z; [|lia]. eapply pow_between; [exact Hd1| |]; lia. }
      assert (Z.max (Z.pos (digits2_pos p) + E - 53) emin64 = E) as Hcan.
      { destruct HE as [->|[HE H52]]; [lia|]. assert (52 < Z.pos (digits2_pos p))%Z; [|lia].
        eapply pow_between; [exact H52|exact Hd2|lia]. }
      rewrite Hcan, Z.sub_diag. simpl. do 2 eexists. split; [reflexivity|]. right.
      exists p. split_and!; [done| |reflexivity]. unfold canonical. by rewrite fexp64_eq.
Qed.

Lemma binary_round_aux_rounded s m e l q :
  (0 ≤ m)%Z → repr (shr_record_of_loc m l) e q → (e ≤ fexp64 (Zdigits2 m + e))%Z →
  rounded q s (binary_round_aux 53 1024 s m e l).
Proof.
  intros Hm Hr He. destruct (shr_fexp_repr m e l q Hm Hr He) as (mrs & E & H1 & Hm1 & Hr1 & HE).
  unfold binary_round_aux. rewrite H1. destruct (rne_range q E mrs HE Hm1 Hr1) as [HR HE'].
  destruct (renormalize (rne mrs) E HR HE') as (mrs2 & e2 & H2 & Hc). unfold rne in H2. rewrite H2.
  exists E, mrs. split_and!; [done..|]. destruct Hc as [[Hz ->]|(m2 & -> & Hcan & Hv)].
  - by left.
  - right. exists m2, e2. split_and!; [done..|]. reflexivity.
Qed.

(** ** Canonical numbers are ordered by value *)

Lemma canonical_range m e :
  canonical m e → (emin64 ≤ e)%Z ∧ (Z.pos m < 2 ^ 53)%Z ∧ (e = emin64 ∨ (2 ^ 52 ≤ Z.pos m)%Z).
Proof.
  unfold canonical. rewrite fexp64_eq. intros H. destruct (digits_spec m) as [H1 H2].
  split_and!; [lia| |].
  - eapply Z.lt_le_trans; [exact H2|]. apply Z.pow_le_mono_r; lia.
  - destruct (decide (e = emin64)); [by left|right]. eapply Z.le_trans; [|exact H1].
    apply Z.pow_le_mono_r; lia.
Qed.

Lemma canonical_le m1 e1 m2 e2 :
  canonical m1 e1 → canonical m2 e2 →
  inject_Z (Z.pos m1) * pow2 e1 <= inject_Z (Z.pos m2) * pow2 e2 →
  (e1 < e2 ∨ e1 = e2 ∧ (m1 ≤ m2)%positive)%Z.
Proof.
  intros H1 H2 Hv. destruct (canonical_range _ _ H1) as (Ha & Hb & Hc), (canonical_range _ _ H2) as (Hd & He & Hf).
  destruct (Z.lt_trichotomy e1 e2) as [|[<-|Hlt]]; [by left| |].
  - right. split; [done|]. apply scale_le_inv in Hv. rewrite <- Zle_Qle in Hv. lia.
  - exfalso. destruct Hc as [->|Hc]; [lia|].
    assert (inject_Z (Z.pos m2) * pow2 e2 < pow2 (53 + e2)) as Hm2.
    { rewrite pow2_scaled by lia. apply scale_lt. by rewrite <- Zlt_Qlt. }
    assert (pow2 (52 + e1) <= inject_Z (Z.pos m1) * pow2 e1) as Hm1.
    { rewrite pow2_scaled by lia. apply scale_le. by rewrite <- Zle_Qle. }
    assert (53 + e2 ≤ 52 + e1)%Z as Hle%pow2_le by lia.
    apply (Qlt_irrefl (pow2 (53 + e2))). eapply Qle_lt_trans; [exact Hle|].
    eapply Qle_lt_trans; [exact Hm1|]. eapply Qle_lt_trans; [exact Hv|exact Hm2].
Qed.

Lemma canonical_unique m1 e1 m2 e2 :
  canonical m1 e1 → canonical m2 e2 →
  inject_Z (Z.pos m1) * pow2 e1 == inject_Z (Z.pos m2) * pow2 e2 → m1 = m2 ∧ e1 = e2.
Proof.
  intros H1 H2 Hv. pose proof (canonical_le _ _ _ _ H1 H2 ltac:(rewrite Hv; apply Qle_refl)).
  pose proof (canonical_le _ _ _ _ H2 H1 ltac:(rewrite Hv; apply Qle_refl)). lia.
Qed.

Lemma pack_le m1 e1 m2 e2 :
  (e1 < e2 ∨ e1 = e2 ∧ (m1 ≤ m2)%positive)%Z → fle (pack false m1 e1) (pack false m2 e2) = true.
Proof.
  intros H. unfold pack. destruct (Z.leb_spec e1 971), (Z.leb_spec e2 971); try lia; try done.
  unfold fle, SFleb. simpl. destruct H as [Hlt|[-> Hm]].
  - by rewrite (proj2 (Z.compare_lt_iff _ _) Hlt).
  - rewrite Z.compare_refl, Pos.compare_cont_spec. simpl. by destruct (Pos.compare_spec m1 m2); try lia.
Qed.

(** ** Rounding is monotone and exact *)

Lemma exponent_mono q1 q2 E1 E2 : q1 <= q2 → exponent_for q1 E1 → exponent_for q2 E2 → (E1 ≤ E2)%Z.
Proof.
  intros Hq [_ H1] [H2 H2']. destruct H1 as [->|[_ H1]]; [destruct H2' as [->|[]]; lia|].
  assert (E1 + 52 < E2 + 53)%Z; [|lia]. apply pow2_lt_inv.
  eapply Qle_lt_trans; [exact H1|]. eapply Qle_lt_trans; [exact Hq|exact H2].
Qed.

Lemma rounded_value_mono q1 q2 E1 E2 mrs1 mrs2 :
  q1 <= q2 → exponent_for q1 E1 → exponent_for q2 E2 → (0 ≤ shr_m mrs1)%Z → (0 ≤ shr_m mrs2)%Z →
  repr mrs1 E1 q1 → repr mrs2 E2 q2 →
  inject_Z (rne mrs1) * pow2 E1 <= inject_Z (rne mrs2) * pow2 E2.
Proof.
  intros Hq HE1 HE2 Hm1 Hm2 H1 H2. pose proof (exponent_mono _ _ _ _ Hq HE1 HE2).
  destruct (decide (E1 = E2)) as [<-|Hne]; [by apply scale_le, inj_le; eapply rne_mono|].
  destruct (rne_range _ _ _ HE1 Hm1 H1) as [Hr1 _], (rne_range _ _ _ HE2 Hm2 H2) as [_ [->|[_ Hr2]]];
    [destruct HE1 as [_ [->|[]]]; lia|].
  apply Qle_trans with (pow2 (53 + E1)); [rewrite pow2_scaled by lia; apply scale_le, inj_le; lia|].
  apply Qle_trans with (pow2 (52 + E2)); [apply pow2_le; lia|].
  rewrite pow2_scaled by lia. by apply scale_le, inj_le.
Qed.

Theorem rounded_mono q1 q2 f1 f2 :
  q1 <= q2 → rounded q1 false f1 → rounded q2 false f2 → fle f1 f2 = true.
Proof.
  intros Hq (E1 & mrs1 & HE1 & Hm1 & H1 & Hc1) (E2 & mrs2 & HE2 & Hm2 & H2 & Hc2).
  pose proof (rounded_value_mono _ _ _ _ _ _ Hq HE1 HE2 Hm1 Hm2 H1 H2) as Hv.
  destruct Hc1 as [[_ ->]|(m1 & e1 & Hcan1 & Hv1 & ->)].
  - destruct Hc2 as [[_ ->]|(m2 & e2 & _ & _ & ->)]; [done|]. unfold pack. by destruct (_ <=? _)%Z.
  - destruct Hc2 as [[Hz _]|(m2 & e2 & Hcan2 & Hv2 & ->)].
    + exfalso. rewrite <- Hv1, Hz in Hv. assert (0 * pow2 e1 < inject_Z (Z.pos m1) * pow2 e1) as Hlt.
      { apply scale_lt. change 0 with (inject_Z 0). rewrite <- Zlt_Qlt. lia. }
      rewrite Qmult_0_l in Hlt, Hv. apply (Qlt_irrefl 0). by eapply Qlt_le_trans.
    + apply pack_le, (canonical_le _ _ _ _ Hcan1 Hcan2). by rewrite Hv1, Hv2.
Qed.

Lemma canonical_exponent m e : canonical m e → exponent_for (inject_Z (Z.pos m) * pow2 e) e.
Proof.
  intros H. destruct (canonical_range _ _ H) as (H1 & H2 & H3). split.
  - rewrite Z.add_comm, pow2_scaled by lia. apply scale_lt. by rewrite <- Zlt_Qlt.
  - destruct (decide (e = emin64)); [by left|right]. split; [lia|]. destruct H3 as [|H3]; [done|].
    rewrite Z.add_comm, pow2_scaled by lia. by apply scale_le, inj_le.
Qed.

Theorem rounded_exact m e s q f :
  canonical m e → q == inject_Z (Z.pos m) * pow2 e → rounded q s f → f = pack s m e.
Proof.
  intros Hcan Hq (E & mrs & HE & Hm & Hr & Hc).
  assert (E = e) as ->.
  { eapply exponent_unique; [exact HE|]. pose proof (canonical_exponent m e Hcan) as [Ha Hb]. split; by rewrite Hq. }
  assert (rne mrs = Z.pos m) as Hrne.
  { destruct Hr as (f' & Hf & Hq'). rewrite Hq in Hq'. apply Qmult_inj_r in Hq';
      [|intros Hz; apply (Qlt_irrefl 0); rewrite <- Hz at 2; apply pow2_pos].
    destruct (frac_range _ _ _ Hf) as [Hf1 Hf2].
    assert (shr_m mrs = Z.pos m) as Hmm.
    { assert (shr_m mrs < Z.pos m + 1)%Z by (apply inj_lt_inv; rewrite inj_succ, Hq'; lra).
      assert (Z.pos m < shr_m mrs + 1)%Z by (apply inj_lt_inv; rewrite inj_succ, Hq'; lra). lia. }
    rewrite Hmm in Hq'. destruct mrs as [m' [] []]; simpl in *; qcases; try lra; by subst. }
  destruct Hc as [[Hz _]|(m' & e' & Hcan' & Hv & ->)]; [lia|].
  rewrite Hrne in Hv. by destruct (canonical_unique _ _ _ _ Hcan' Hcan Hv) as [-> ->].
Qed.

(** ** Non-negative numbers *)

Definition fval (x : float64) : Q :=
  match x with
  | S754_finite s m e => (if s then -1 else 1) * (inject_Z (Z.pos m) * pow2 e)
  | _ => 0
  end.

(** A non-negative number of the format. *)
Definition nonneg (x : float64) : Prop :=
  match x with
  | S754_zero _ => True
  | S754_finite false m e => canonical m e ∧ (e ≤ 971)%Z
  | _ => False
  end.

Definition positive_float (x : float64) : Prop :=
  match x with S754_finite false m e => canonical m e ∧ (e ≤ 971)%Z | _ => False end.

Lemma positive_nonneg x : positive_float x → nonneg x.
Proof. by destruct x as [| | |[]]. Qed.

Lemma mantissa_pos m e : 0 < inject_Z (Z.pos m) * pow2 e.
Proof.
  rewrite <- (Qmult_0_l (pow2 e)). apply scale_lt. change 0 with (inject_Z 0). rewrite <- Zlt_Qlt. lia.
Qed.

Lemma fval_nonneg x : nonneg x → 0 <= fval x.
Proof.
  destruct x as [| | |[] m e]; simpl; intros H; try apply Qle_refl; [done|].
  rewrite Qmult_1_l. apply Qlt_le_weak, mantissa_pos.
Qed.

Lemma nonneg_not_nan x : nonneg x → is_nan x = false.
Proof. by destruct x. Qed.

Lemma fle_fval x y : nonneg x → nonneg y → (fle x y = true ↔ fval x <= fval y).
Proof.
  intros Hx Hy. split; intros H.
  - apply Qnot_lt_le. intros Hlt. revert H. apply not_true_iff_false.
    destruct x as [sx| | |[] mx ex], y as [sy| | |[] my ey]; try done; simpl in Hlt.
    + exfalso. rewrite Qmult_1_l in Hlt. apply (Qlt_irrefl 0).
      eapply Qlt_trans; [apply (mantissa_pos my ey)|exact Hlt].
    + rewrite !Qmult_1_l in Hlt. destruct Hx as [Hx _], Hy as [Hy _].
      destruct (canonical_le my ey mx ex) as [Hl|[-> Hl]]; [done|done|by apply Qlt_le_weak|..].
      * unfold fle, SFleb. simpl. by rewrite (proj2 (Z.compare_gt_iff _ _) Hl).
      * unfold fle, SFleb. simpl. rewrite Z.compare_refl, Pos.compare_cont_spec. simpl.
        destruct (Pos.compare_spec mx my); [|lia|done]. subst. by apply Qlt_irrefl in Hlt.
  - destruct x as [sx| | |[] mx ex], y as [sy| | |[] my ey]; try done; simpl in H.
    + exfalso. rewrite Qmult_1_l in H. apply (Qlt_irrefl 0).
      eapply Qlt_le_trans; [apply (mantissa_pos mx ex)|exact H].
    + rewrite !Qmult_1_l in H. destruct Hx as [Hx Hx'], Hy as [Hy Hy'].
      pose proof (pack_le mx ex my ey (canonical_le _ _ _ _ Hx Hy H)) as Hp. unfold pack in Hp.
      by rewrite (proj2 (Z.leb_le ex 971) Hx'), (proj2 (Z.leb_le ey 971) Hy') in Hp.
Qed.

(** Results that are rounded without sign are non-negative, possibly infinite. *)
Lemma rounded_sign q f :
  rounded q false f → nonneg f ∨ f = S754_infinity false.
Proof.
  intros (E & mrs & _ & _ & _ & [[_ ->]|(m & e & Hcan & _ & ->)]); [by left|].
  unfold pack. destruct (Z.leb_spec e 971); [left|by right]. by split.
Qed.

Lemma below_finite f c : nonneg f ∨ f = S754_infinity false → nonneg c → fle f c = true → nonneg f.
Proof. intros [Hf| ->] Hc Hle; [done|]. by destruct c as [| | |[]]. Qed.

(** A non-negative number is its own rounding. *)
Lemma exponent_zero : exponent_for 0 emin64.
Proof. split; [apply pow2_pos|by left]. Qed.

Lemma rounded_Qeq q q' s f : q == q' → rounded q s f → rounded q' s f.
Proof.
  intros Hq (E & mrs & [He1 He2] & Hm & (f' & Hf & Hv) & Hc). exists E, mrs. split_and!; [|done| |done].
  - split; [by rewrite <- Hq|]. destruct He2 as [|[]]; [by left|right]. split; [done|]. by rewrite <- Hq.
  - exists f'. split; [done|]. by rewrite <- Hq.
Qed.

Lemma exact_rounded x : nonneg x → ∃ y, rounded (fval x) false y ∧ fle x y = true ∧ fle y x = true.
Proof.
  intros Hx. destruct x as [s| | |[] m e]; try done.
  - exists (S754_zero false). split; [|by split]. exists emin64, {| shr_m := 0; shr_r := false; shr_s := false |}.
    split_and!; [apply exponent_zero|done| |by left]. exists 0. split; [reflexivity|].
    change (0 == (0 + 0) * pow2 emin64). ring.
  - destruct Hx as [Hcan He]. exists (S754_finite false m e).
    pose proof (canonical_exponent _ _ Hcan) as HE.
    assert (repr {| shr_m := Z.pos m; shr_r := false; shr_s := false |} e (inject_Z (Z.pos m) * pow2 e)) as Hr
      by (exists 0; split; [reflexivity|]; simpl; ring).
    split; [|by split; apply fle_refl].
    apply (rounded_Qeq (inject_Z (Z.pos m) * pow2 e)); [simpl; ring|].
    exists e, {| shr_m := Z.pos m; shr_r := false; shr_s := false |}. split_and!; [done..|].
    right. exists m, e. split_and!; [done|reflexivity|]. unfold pack. by rewrite (proj2 (Z.leb_le _ _) He).
Qed.

(** Comparing a rounded result with a number of the format. *)
Theorem rounded_le q f c : rounded q false f → nonneg c → q <= fval c → fle f c = true.
Proof.
  intros Hf Hc Hq. destruct (exact_rounded c Hc) as (y & Hy & _ & Hyc).
  eapply fle_trans; [|exact Hyc]. by eapply rounded_mono.
Qed.

Theorem rounded_ge q f c : rounded q false f → nonneg c → fval c <= q → fle c f = true.
Proof.
  intros Hf Hc Hq. destruct (exact_rounded c Hc) as (y & Hy & Hyc & _).
  eapply fle_trans; [exact Hyc|]. by eapply rounded_mono.
Qed.
