(* ===== verification/FloatOps.v ===== *)
(** * The operations of [float64] round the exact result

    Division, multiplication, addition and subtraction of non-negative numbers, and
    conversion of integers; with the bounds that the scorers and the saturation
    detectors rely on. *)

From stdpp Require Import prelude.
From Stdlib Require Import ZArith QArith Qpower Qfield Lqa Lia Floats.SpecFloat.
From S2P Require Import Prelude Float64 FloatRound.

#[local] Open Scope Q_scope.

Lemma inj_pos z : (0 < z)%Z → 0 < inject_Z z.
Proof. intros H. change 0 with (inject_Z 0). by rewrite <- Zlt_Qlt. Qed.

Lemma inj_2 z : inject_Z (2 * z) == 2 * inject_Z z.
Proof. by rewrite inject_Z_mult. Qed.

Lemma not_zero q : 0 < q → ¬ q == 0.
Proof. intros H Hz. rewrite Hz in H. by apply (Qlt_irrefl 0). Qed.

#[export] Hint Resolve pow2_pos inj_pos not_zero mantissa_pos : pow2.

(** ** Division *)

Lemma new_location_repr (q r m e : Z) :
  (0 ≤ r < m)%Z →
  repr (shr_record_of_loc q (new_location m r)) e ((inject_Z q + inject_Z r / inject_Z m) * pow2 e).
Proof.
  intros Hr. exists (inject_Z r / inject_Z m). assert (0 < inject_Z m) as Hm by (apply inj_pos; lia).
  assert (shr_m (shr_record_of_loc q (new_location m r)) = q) as Hq by by destruct (new_location m r) as [|[]].
  split; [|by rewrite Hq].
  assert (∀ c, (2 * r ?= m)%Z = c → r ≠ 0%Z →
    frac (shr_r (shr_record_of_loc q (loc_Inexact c))) (shr_s (shr_record_of_loc q (loc_Inexact c)))
      (inject_Z r / inject_Z m)) as Hcases.
  { intros c Hc Hr0. assert (0 < inject_Z r) as Hr1 by (apply inj_pos; lia).
    assert (inject_Z r < inject_Z m) as Hr2 by (rewrite <- Zlt_Qlt; lia). destruct c; simpl.
    - apply Z.compare_eq in Hc. assert (inject_Z m == 2 * inject_Z r) as -> by (by rewrite <- Hc, inj_2).
      field. by apply not_zero.
    - rewrite Z.compare_lt_iff, Zlt_Qlt, inj_2 in Hc.
      split; [apply Qlt_shift_div_l|apply Qlt_shift_div_r]; lra.
    - rewrite Z.compare_gt_iff, Zlt_Qlt, inj_2 in Hc.
      split; [apply Qlt_shift_div_l|apply Qlt_shift_div_r]; lra. }
  unfold new_location, new_location_even, new_location_odd. destruct (Z.even m) eqn:Heven;
    match goal with |- context [shr_record_of_loc q (if ?b then _ else _)] => destruct b eqn:Hr0 end;
    try (apply Z.eqb_eq in Hr0; subst r; apply (Qmult_0_l (/ inject_Z m))); apply Z.eqb_neq in Hr0.
  - by apply Hcases.
  - assert (2 * r ≠ m)%Z by (intros <-; rewrite Z.even_mul in Heven; done).
    destruct (Z.compare_spec (2 * r + 1) m); (apply Hcases; [|done]);
      rewrite ?Z.compare_lt_iff, ?Z.compare_gt_iff; lia.
Qed.

(** The quotient has enough digits at the exponent that [SFdiv_core_binary] chooses. *)
Lemma div_exponent m1 e1 m2 e2 q e l x :
  let D := (Z.pos (digits2_pos m1) + e1 - (Z.pos (digits2_pos m2) + e2))%Z in
  pow2 (D - 1) < x → (e ≤ fexp64 D)%Z → (0 ≤ q)%Z → repr (shr_record_of_loc q l) e x →
  (e ≤ fexp64 (Zdigits2 q + e))%Z.
Proof.
  intros D HD He Hq Hr. assert (shr_m (shr_record_of_loc q l) = q) as Hm by by destruct l as [|[]].
  rewrite fexp64_eq in *. destruct q as [|p|p]; [| |lia]; simpl Zdigits2.
  - destruct (repr_bounds _ _ _ Hr) as [_ Hlt]. rewrite Hm, Qmult_1_l in Hlt.
    assert (D - 1 < e)%Z by (apply pow2_lt_inv; by eapply Qlt_trans). lia.
  - destruct (repr_mag _ _ _ p Hm Hr) as [_ Hlt].
    assert (D - 1 < Z.pos (digits2_pos p) + e)%Z by (apply pow2_lt_inv; by eapply Qlt_trans). lia.
Qed.

Lemma div_magnitude m1 e1 m2 e2 :
  pow2 (Z.pos (digits2_pos m1) + e1 - (Z.pos (digits2_pos m2) + e2) - 1) <
  (inject_Z (Z.pos m1) * pow2 e1) / (inject_Z (Z.pos m2) * pow2 e2).
Proof.
  destruct (digits_spec m1) as [H1 _], (digits_spec m2) as [_ H2].
  apply Qlt_shift_div_l; [apply mantissa_pos|].
  replace (Z.pos (digits2_pos m1) + e1 - (Z.pos (digits2_pos m2) + e2) - 1)%Z
    with ((Z.pos (digits2_pos m1) - 1 + e1) + - (Z.pos (digits2_pos m2) + e2))%Z by lia.
  rewrite pow2_plus. apply Qlt_le_trans with (pow2 (Z.pos (digits2_pos m1) - 1 + e1)).
  - rewrite <- (Qmult_1_r (pow2 (Z.pos (digits2_pos m1) - 1 + e1))) at 2. rewrite <- Qmult_assoc.
    rewrite (Qmult_comm (pow2 _)), (Qmult_comm (pow2 _) 1). apply scale_lt.
    apply Qlt_le_trans with (pow2 (- (Z.pos (digits2_pos m2) + e2)) * pow2 (Z.pos (digits2_pos m2) + e2)).
    + rewrite (Qmult_comm (pow2 (- _))), (Qmult_comm (pow2 (- _))). apply scale_lt.
      rewrite pow2_scaled by lia. apply scale_lt. by rewrite <- Zlt_Qlt.
    + rewrite <- pow2_plus, Z.add_opp_diag_l. apply Qle_refl.
  - rewrite pow2_scaled by lia. by apply scale_le, inj_le.
Qed.

Lemma fdiv_rounded s1 m1 e1 s2 m2 e2 :
  rounded ((inject_Z (Z.pos m1) * pow2 e1) / (inject_Z (Z.pos m2) * pow2 e2)) (xorb s1 s2)
    (fdiv (S754_finite s1 m1 e1) (S754_finite s2 m2 e2)).
Proof.
  unfold fdiv, SFdiv, SFdiv_core_binary. simpl Zdigits2.
  set (D := (Z.pos (digits2_pos m1) + e1 - (Z.pos (digits2_pos m2) + e2))%Z).
  set (e := Z.min (fexp64 D) (e1 - e2)). set (s := (e1 - e2 - e)%Z).
  assert (0 ≤ s)%Z as Hs by lia.
  replace (match s with 0%Z => Z.pos m1 | Z.pos _ => Z.shiftl (Z.pos m1) s | Z.neg _ => 0%Z end)
    with (Z.pos m1 * 2 ^ s)%Z.
  2:{ destruct s as [|s'|s']; [lia| |lia]. by rewrite Z.shiftl_mul_pow2 by lia. }
  pose proof (Z_div_mod (Z.pos m1 * 2 ^ s) (Z.pos m2) ltac:(lia)) as Hdiv.
  destruct (Z.div_eucl _ _) as [q r]. destruct Hdiv as [Hqr Hr].
  assert (0 ≤ q)%Z as Hq.
  { assert (0 < Z.pos m1 * 2 ^ s)%Z by (apply Z.mul_pos_pos; [lia|apply Z.pow_pos_nonneg; lia]). nia. }
  assert ((inject_Z (Z.pos m1) * pow2 e1) / (inject_Z (Z.pos m2) * pow2 e2) ==
    (inject_Z q + inject_Z r / inject_Z (Z.pos m2)) * pow2 e) as Hval.
  { replace e1 with (s + (e + e2))%Z by lia. rewrite pow2_plus, (pow2_plus e e2), pow2_Z by done.
    rewrite Qmult_assoc, <- inject_Z_mult, Hqr, inject_Z_plus, inject_Z_mult.
    field. repeat split; apply not_zero; (apply pow2_pos || by apply inj_pos). }
  pose proof (new_location_repr q r (Z.pos m2) e Hr) as Hrep.
  eapply rounded_Qeq; [symmetry; exact Hval|].
  apply binary_round_aux_rounded; [done|exact Hrep|].
  eapply (div_exponent m1 e1 m2 e2); [|apply Z.le_min_l|done|exact Hrep].
  eapply Qlt_le_trans; [apply div_magnitude|]. rewrite Hval. apply Qle_refl.
Qed.

(** ** Conversion, addition and subtraction *)

Lemma iter_xO m d : Z.pos (Pos.iter xO m d) = (Z.pos m * 2 ^ Z.pos d)%Z.
Proof.
  induction d as [|d IH] using Pos.peano_ind; [simpl; lia|].
  rewrite Pos.iter_succ, Pos2Z.inj_xO, IH, Pos2Z.inj_succ, Z.pow_succ_r by lia. lia.
Qed.

Lemma digits_iter_xO m d : digits2_pos (Pos.iter xO m d) = (digits2_pos m + d)%positive.
Proof.
  induction d as [|d IH] using Pos.peano_ind; [simpl; lia|].
  rewrite Pos.iter_succ. simpl. rewrite IH. lia.
Qed.

Lemma shl_align_value m e e' :
  inject_Z (Z.pos (shl_align m e e').1) * pow2 (shl_align m e e').2 == inject_Z (Z.pos m) * pow2 e ∧
  (shl_align m e e').2 = Z.min e e' ∧
  (Z.pos (digits2_pos (shl_align m e e').1) + (shl_align m e e').2 = Z.pos (digits2_pos m) + e)%Z.
Proof.
  unfold shl_align. destruct (e' - e)%Z as [|d|d] eqn:Hd; simpl; split_and!; try reflexivity; try lia.
  - rewrite iter_xO, inject_Z_mult, <- pow2_Z, <- Qmult_assoc, <- pow2_plus by lia.
    by replace (Z.pos d + e')%Z with e by lia.
  - rewrite digits_iter_xO. lia.
Qed.

Lemma binary_round_rounded s m e :
  rounded (inject_Z (Z.pos m) * pow2 e) s (binary_round 53 1024 s m e).
Proof.
  unfold binary_round. set (e' := fexp64 (Z.pos (digits2_pos m) + e)).
  destruct (shl_align_value m e e') as (Hv & He & Hd). destruct (shl_align m e e') as [mz ez]. simpl in *.
  eapply rounded_Qeq; [exact Hv|]. apply binary_round_aux_rounded; [done| |].
  - exists 0. split; [reflexivity|]. simpl. ring.
  - simpl Zdigits2. rewrite Hd. fold e'. lia.
Qed.

Lemma binary_normalize_rounded z e :
  (0 ≤ z)%Z → rounded (inject_Z z * pow2 e) false (binary_normalize 53 1024 z e false).
Proof.
  intros Hz. destruct z as [|m|m]; [|apply binary_round_rounded|lia].
  exists emin64, {| shr_m := 0; shr_r := false; shr_s := false |}.
  assert (inject_Z 0 * pow2 e == 0) as Hv by apply Qmult_0_l.
  split_and!; [|done| |by left].
  - destruct exponent_zero as [H _]. split; [by rewrite Hv|by left].
  - exists 0. split; [reflexivity|]. rewrite Hv. change (0 == (0 + 0) * pow2 emin64). ring.
Qed.

Lemma of_int_rounded z : (0 ≤ z)%Z → rounded (inject_Z z) false (of_int z).
Proof.
  intros Hz. eapply rounded_Qeq; [|by apply (binary_normalize_rounded z 0)]. rewrite pow2_0. apply Qmult_1_r.
Qed.

(** The mantissa of an operand at a smaller exponent. *)
Lemma aligned m e ez :
  (ez ≤ e)%Z → inject_Z (Z.pos (shl_align m e ez).1) * pow2 ez == inject_Z (Z.pos m) * pow2 e.
Proof.
  intros H. destruct (shl_align_value m e ez) as (Hv & He & _). rewrite Z.min_r in He by done. by rewrite He in Hv.
Qed.

Lemma fadd_rounded x y :
  positive_float x → positive_float y → rounded (fval x + fval y) false (fadd x y).
Proof.
  destruct x as [| | |[] mx ex], y as [| | |[] my ey]; try done. intros _ _.
  unfold fadd, SFadd, cond_Zopp. set (ez := Z.min ex ey).
  eapply rounded_Qeq; [|apply binary_normalize_rounded; lia].
  rewrite inject_Z_plus, Qmult_plus_distr_l, !aligned by lia. simpl. ring.
Qed.

Lemma fsub_rounded x y :
  positive_float x → positive_float y → fval y <= fval x → rounded (fval x - fval y) false (fsub x y).
Proof.
  destruct x as [| | |[] mx ex], y as [| | |[] my ey]; try done. intros _ _ Hle.
  unfold fsub, SFsub, cond_Zopp. set (ez := Z.min ex ey).
  assert (fval (S754_finite false mx ex) - fval (S754_finite false my ey) ==
    inject_Z (Z.pos (shl_align mx ex ez).1 - Z.pos (shl_align my ey ez).1) * pow2 ez) as Hv.
  { rewrite <- Z.add_opp_r, inject_Z_plus, inject_Z_opp, Qmult_plus_distr_l.
    setoid_rewrite (Qmult_comm (- _)). setoid_rewrite <- (Qopp_involutive (pow2 ez * - _)).
    setoid_replace (- (pow2 ez * - inject_Z (Z.pos (shl_align my ey ez).1)))
      with (inject_Z (Z.pos (shl_align my ey ez).1) * pow2 ez) using relation Qeq by ring.
    rewrite !aligned by lia. simpl. ring. }
  eapply rounded_Qeq; [symmetry; exact Hv|]. apply binary_normalize_rounded.
  destruct (Z.le_gt_cases 0 (Z.pos (shl_align mx ex ez).1 - Z.pos (shl_align my ey ez).1)) as [|Hlt]; [done|].
  exfalso. rewrite Zlt_Qlt in Hlt. apply (scale_lt _ _ ez) in Hlt. rewrite <- Hv, Qmult_0_l in Hlt. lra.
Qed.

Lemma digits_mul m1 m2 :
  (Z.pos (digits2_pos m1) + Z.pos (digits2_pos m2) - 1 ≤ Z.pos (digits2_pos (m1 * m2)))%Z.
Proof.
  destruct (digits_spec m1) as [H1 _], (digits_spec m2) as [H2 _], (digits_spec (m1 * m2)) as [_ H3].
  assert (Z.pos (digits2_pos m1) - 1 + (Z.pos (digits2_pos m2) - 1) < Z.pos (digits2_pos (m1 * m2)))%Z; [|lia].
  eapply pow_between; [|exact H3|lia]. rewrite Z.pow_add_r, Pos2Z.inj_mul by lia.
  apply Z.mul_le_mono_nonneg; try done; apply Z.pow_nonneg; lia.
Qed.

Lemma fmul_rounded x y :
  positive_float x → positive_float y → rounded (fval x * fval y) false (fmul x y).
Proof.
  destruct x as [| | |[] mx ex], y as [| | |[] my ey]; try done. intros [Hx Hx'] [Hy Hy'].
  unfold fmul, SFmul. simpl xorb.
  assert (fval (S754_finite false mx ex) * fval (S754_finite false my ey) ==
    inject_Z (Z.pos (mx * my)) * pow2 (ex + ey)) as Hv.
  { rewrite Pos2Z.inj_mul, inject_Z_mult, pow2_plus. simpl. ring. }
  eapply rounded_Qeq; [symmetry; exact Hv|]. apply binary_round_aux_rounded; [done| |].
  - exists 0. split; [reflexivity|]. simpl. ring.
  - simpl Zdigits2. pose proof (digits_mul mx my). unfold canonical in *. rewrite fexp64_eq in *.
    unfold emin64 in *. lia.
Qed.

(** ** Results up to the sign of zero *)

(** [f] is [q] rounded, where the two zeros are the same number. *)
Definition rounds (q : Q) (f : float64) : Prop :=
  ∃ f0, rounded q false f0 ∧ fle f f0 = true ∧ fle f0 f = true.

Lemma rounded_rounds q f : rounded q false f → rounds q f.
Proof.
  intros H. exists f. split; [done|]. destruct (rounded_sign _ _ H) as [Hn| ->]; [|done].
  apply nonneg_not_nan in Hn. split; by apply fle_refl.
Qed.

Lemma rounds_mono q1 q2 f1 f2 : q1 <= q2 → rounds q1 f1 → rounds q2 f2 → fle f1 f2 = true.
Proof.
  intros Hq (g1 & H1 & H1' & _) (g2 & H2 & _ & H2'). eapply fle_trans; [exact H1'|].
  eapply fle_trans; [|exact H2']. by eapply rounded_mono.
Qed.

Lemma nonneg_rounds x : nonneg x → rounds (fval x) x.
Proof. intros Hx. destruct (exact_rounded x Hx) as (y & Hy & H1 & H2). by exists y. Qed.

Lemma rounds_le q f c : rounds q f → nonneg c → q <= fval c → fle f c = true.
Proof. intros Hf Hc Hq. eapply rounds_mono; [exact Hq|exact Hf|by apply nonneg_rounds]. Qed.

Lemma rounds_ge q f c : rounds q f → nonneg c → fval c <= q → fle c f = true.
Proof. intros Hf Hc Hq. eapply rounds_mono; [exact Hq|by apply nonneg_rounds|exact Hf]. Qed.

Lemma rounds_Qeq q q' f : q == q' → rounds q f → rounds q' f.
Proof. intros Hq (g & Hg & H). exists g. split; [by eapply rounded_Qeq|done]. Qed.

Lemma rounds_exact q f c : rounds q f → nonneg c → q == fval c → fle f c = true ∧ fle c f = true.
Proof.
  intros Hf Hc Hq. split; [eapply rounds_le|eapply rounds_ge]; try done; rewrite Hq; apply Qle_refl.
Qed.

(** Numbers that compare equal to a non-negative one are non-negative. *)
Lemma nonneg_eqv f g : nonneg g → fle f g = true → fle g f = true → nonneg f.
Proof.
  intros Hg H1 H2. destruct f as [|[]| |[] m e], g as [| | |[] m' e']; try done.
  unfold fle, SFleb in *. simpl in *. destruct (Z.compare_spec e e'); [subst|destruct (Z.compare_spec e' e); (done || lia)|done].
  rewrite Z.compare_refl, Pos.compare_cont_spec in *. simpl in *.
  destruct (Pos.compare_spec m m'); [by subst|destruct (Pos.compare_spec m' m); (done || lia)|done].
Qed.

Lemma rounds_nonneg q f c : rounds q f → nonneg c → q <= fval c → nonneg f.
Proof.
  intros Hr Hc Hq. pose proof (rounds_le _ _ _ Hr Hc Hq) as Hle. destruct Hr as (g & Hg & H1 & H2).
  apply (nonneg_eqv f g); [|done|done]. apply (below_finite g c); [by eapply rounded_sign|done|].
  by eapply fle_trans.
Qed.

(** A non-negative result that is bounded is close to its value from both sides. *)
Lemma rounds_fval q f c : rounds q f → nonneg f → nonneg c →
  (q <= fval c → fval f <= fval c) ∧ (fval c <= q → fval c <= fval f).
Proof.
  intros Hr Hf Hc. split; intros Hq; apply fle_fval; try done; [by eapply rounds_le|by eapply rounds_ge].
Qed.

(** ** Zeros included *)

Lemma fval_zero s : fval (S754_zero s) == 0.
Proof. reflexivity. Qed.

Lemma nonneg_cases x : nonneg x → (∃ s, x = S754_zero s) ∨ positive_float x.
Proof. destruct x as [s| | |[]]; simpl; eauto. Qed.

Lemma fval_positive x : positive_float x → 0 < fval x.
Proof. destruct x as [| | |[] m e]; try done. intros _. simpl. rewrite Qmult_1_l. apply mantissa_pos. Qed.

Lemma rounds_zero s : rounds 0 (S754_zero s).
Proof. by apply (nonneg_rounds (S754_zero s)). Qed.

Theorem fdiv_rounds x y : nonneg x → positive_float y → rounds (fval x / fval y) (fdiv x y).
Proof.
  intros Hx Hy. destruct (nonneg_cases x Hx) as [[s ->]|Hp].
  - destruct y as [| | |[] m e]; try done. eapply rounds_Qeq; [|apply (rounds_zero (xorb s false))].
    symmetry. apply Qmult_0_l.
  - apply rounded_rounds. destruct x as [| | |[] mx ex], y as [| | |[] my ey]; try done.
    eapply rounded_Qeq; [|apply (fdiv_rounded false mx ex false my ey)]. simpl.
    field. repeat split; apply not_zero; (apply pow2_pos || by apply inj_pos).
Qed.

Theorem fmul_rounds x y : nonneg x → nonneg y → rounds (fval x * fval y) (fmul x y).
Proof.
  intros Hx Hy. destruct (nonneg_cases x Hx) as [[s ->]|Hp], (nonneg_cases y Hy) as [[s' ->]|Hp'].
  - eapply rounds_Qeq; [|apply (rounds_zero (xorb s s'))]. simpl. ring.
  - destruct y as [| | |[] m e]; try done. eapply rounds_Qeq; [|apply (rounds_zero (xorb s false))].
    symmetry. apply Qmult_0_l.
  - destruct x as [| | |[] m e]; try done. eapply rounds_Qeq; [|apply (rounds_zero (xorb false s'))].
    symmetry. apply Qmult_0_r.
  - by apply rounded_rounds, fmul_rounded.
Qed.

Theorem fsub_rounds x y :
  positive_float x → nonneg y → fval y <= fval x → rounds (fval x - fval y) (fsub x y).
Proof.
  intros Hx Hy Hle. destruct (nonneg_cases y Hy) as [[s ->]|Hp].
  - destruct x as [| | |[] m e]; try done. eapply rounds_Qeq; [|by apply (nonneg_rounds (S754_finite false m e))].
    simpl. ring.
  - by apply rounded_rounds, fsub_rounded.
Qed.

Theorem fadd_rounds x y : nonneg x → nonneg y → rounds (fval x + fval y) (fadd x y).
Proof.
  intros Hx Hy. destruct (nonneg_cases x Hx) as [[s ->]|Hp], (nonneg_cases y Hy) as [[s' ->]|Hp'].
  - destruct s, s'; (eapply rounds_Qeq; [|apply rounds_zero]); simpl; ring.
  - destruct y as [| | |[] m e]; try done. eapply rounds_Qeq; [|by apply (nonneg_rounds (S754_finite false m e))].
    simpl. ring.
  - destruct x as [| | |[] m e]; try done. eapply rounds_Qeq; [|by apply (nonneg_rounds (S754_finite false m e))].
    simpl. ring.
  - by apply rounded_rounds, fadd_rounded.
Qed.

Theorem of_int_rounds z : (0 ≤ z)%Z → rounds (inject_Z z) (of_int z).
Proof. intros Hz. by apply rounded_rounds, of_int_rounded. Qed.

(** ** Ratios and complements *)

Lemma fone_eq : fone = S754_finite false 4503599627370496 (-52).
Proof. reflexivity. Qed.

Lemma fone_positive : positive_float fone.
Proof. rewrite fone_eq. by split. Qed.

Lemma fone_nonneg : nonneg fone.
Proof. apply positive_nonneg, fone_positive. Qed.

Lemma fval_one : fval fone == 1.
Proof. reflexivity. Qed.

Lemma fzero_nonneg : nonneg fzero.
Proof. done. Qed.

#[export] Hint Resolve fone_positive fone_nonneg fzero_nonneg positive_nonneg nonneg_not_nan : pow2.

(** The unit interval. *)
Definition unit_range (x : float64) : Prop := nonneg x ∧ fval x <= 1.

Lemma unit_range_le x : unit_range x → fle fzero x = true ∧ fle x fone = true.
Proof.
  intros [Hx H1]. split; apply fle_fval; auto with pow2.
  - rewrite fval_zero. by apply fval_nonneg.
  - by rewrite fval_one.
Qed.

Lemma rounds_unit q f : rounds q f → q <= 1 → unit_range f.
Proof.
  intros Hr Hq. assert (nonneg f) as Hn by (eapply rounds_nonneg; [exact Hr|apply fone_nonneg|by rewrite fval_one]).
  split; [done|]. rewrite <- fval_one. by apply (rounds_fval q f fone Hr Hn fone_nonneg); rewrite fval_one.
Qed.

Lemma fdiv_unit x y : nonneg x → positive_float y → fval x <= fval y → unit_range (fdiv x y).
Proof.
  intros Hx Hy Hle. eapply rounds_unit; [by apply fdiv_rounds|].
  apply Qle_shift_div_r; [by apply fval_positive|]. by rewrite Qmult_1_l.
Qed.

Lemma fdiv_mono x1 x2 y :
  nonneg x1 → nonneg x2 → positive_float y → fval x1 <= fval x2 → fle (fdiv x1 y) (fdiv x2 y) = true.
Proof.
  intros H1 H2 Hy Hle. eapply rounds_mono; [|by apply fdiv_rounds..].
  apply Qmult_le_compat_r; [done|]. apply Qinv_le_0_compat, Qlt_le_weak, fval_positive, Hy.
Qed.

Lemma fsub_one_unit x : unit_range x → unit_range (fsub fone x).
Proof.
  intros [Hx H1]. eapply rounds_unit; [apply fsub_rounds; auto with pow2; by rewrite fval_one|].
  pose proof (fval_nonneg x Hx). rewrite fval_one. lra.
Qed.

Lemma fsub_one_anti x y :
  unit_range x → unit_range y → fval x <= fval y → fle (fsub fone y) (fsub fone x) = true.
Proof.
  intros [Hx H1] [Hy H2] Hle.
  eapply rounds_mono; [|apply fsub_rounds|apply fsub_rounds]; auto with pow2; rewrite ?fval_one; lra.
Qed.

Lemma fmul_unit x y : unit_range x → unit_range y → unit_range (fmul x y).
Proof.
  intros [Hx H1] [Hy H2]. eapply rounds_unit; [by apply fmul_rounds|].
  pose proof (fval_nonneg x Hx). pose proof (fval_nonneg y Hy).
  apply Qle_trans with (1 * fval y); [by apply Qmult_le_compat_r|]. lra.
Qed.

Lemma fmul_mono_r c x y :
  nonneg c → nonneg x → nonneg y → fval x <= fval y → fle (fmul c x) (fmul c y) = true.
Proof.
  intros Hc Hx Hy Hle. eapply rounds_mono; [|by apply fmul_rounds..].
  rewrite !(Qmult_comm (fval c)). apply Qmult_le_compat_r; [done|by apply fval_nonneg].
Qed.

(** ** Weighted sums *)

(** A non-negative number or positive infinity. *)
Definition nonneg_inf (x : float64) : Prop := nonneg x ∨ x = S754_infinity false.

Lemma nonneg_inf_not_nan x : nonneg_inf x → is_nan x = false.
Proof. intros [H| ->]; [by apply nonneg_not_nan|done]. Qed.

Lemma rounds_nonneg_inf q f : rounds q f → nonneg_inf f.
Proof.
  intros (g & Hg & H1 & H2). destruct (rounded_sign _ _ Hg) as [Hn| ->]; [left; by eapply nonneg_eqv|].
  right. by destruct f as [|[]| |[]].
Qed.

Lemma fadd_nonneg_inf x y : nonneg_inf x → nonneg y → nonneg_inf (fadd x y).
Proof.
  intros [Hx| ->] Hy; [by eapply rounds_nonneg_inf, fadd_rounds|]. right. by destruct y as [| | |[]].
Qed.

(** A number between zero and one times a non-negative weight. *)
Lemma fmul_weight x w : unit_range x → nonneg w → nonneg (fmul x w).
Proof.
  intros [Hx H1] Hw. eapply rounds_nonneg; [by apply fmul_rounds|exact Hw|].
  pose proof (fval_nonneg w Hw). apply Qle_trans with (1 * fval w); [by apply Qmult_le_compat_r|]. lra.
Qed.

(** A number of the format: every [float64] value is one. *)
Definition valid (x : float64) : Prop :=
  match x with S754_finite _ m e => canonical m e ∧ (e ≤ 971)%Z | _ => True end.

Lemma valid_unit x :
  valid x → is_nan x = false → flt x fzero = false → flt fone x = false → unit_range x.
Proof.
  intros Hv Hn H0 H1. assert (nonneg x) as Hx.
  { apply not_flt_fle in H0; [|done..]. destruct x as [s|[]| |[] m e]; done. }
  split; [done|]. rewrite <- fval_one. apply fle_fval; [done|apply fone_nonneg|]. by apply not_flt_fle.
Qed.

Lemma unit_zero : unit_range fzero.
Proof. split; [done|]. rewrite fval_zero. discriminate. Qed.

Lemma unit_one : unit_range fone.
Proof. split; [apply fone_nonneg|]. rewrite fval_one. apply Qle_refl. Qed.

(** ** Integers *)

Lemma of_int_le a b : (0 ≤ a)%Z → (a ≤ b)%Z → fle (of_int a) (of_int b) = true.
Proof.
  intros Ha Hab. eapply rounds_mono; [|apply of_int_rounds; lia|apply of_int_rounds; lia]. by apply inj_le.
Qed.

Definition huge : float64 := S754_finite false 4503599627370496 971.

Lemma of_int_nonneg z : (0 ≤ z < 2 ^ 64)%Z → nonneg (of_int z).
Proof.
  intros Hz. eapply (rounds_nonneg _ _ huge); [apply of_int_rounds; lia|by split|].
  apply Qle_trans with (inject_Z (2 ^ 64)); [apply inj_le; lia|]. vm_compute. discriminate.
Qed.

Lemma of_int_positive z : (0 < z < 2 ^ 64)%Z → positive_float (of_int z).
Proof.
  intros Hz. assert (nonneg (of_int z)) as Hn by (apply of_int_nonneg; lia).
  assert (fle fone (of_int z) = true) as H1 by (apply (of_int_le 1); lia).
  by destruct (of_int z) as [| | |[]].
Qed.

Lemma of_int_fval a b :
  (0 ≤ a)%Z → (a ≤ b)%Z → (b < 2 ^ 64)%Z → fval (of_int a) <= fval (of_int b).
Proof. intros Ha Hab Hb. apply fle_fval; [apply of_int_nonneg; lia..|]. by apply of_int_le. Qed.

(** The ratio of two integers. *)
Lemma ratio_unit a b : (0 ≤ a ≤ b)%Z → (0 < b < 2 ^ 64)%Z → unit_range (fdiv (of_int a) (of_int b)).
Proof.
  intros Ha Hb. apply fdiv_unit; [apply of_int_nonneg; lia|apply of_int_positive; lia|].
  apply of_int_fval; lia.
Qed.

Lemma ratio_mono a a' b :
  (0 ≤ a ≤ a')%Z → (a' < 2 ^ 64)%Z → (0 < b < 2 ^ 64)%Z →
  fle (fdiv (of_int a) (of_int b)) (fdiv (of_int a') (of_int b)) = true.
Proof.
  intros Ha Ha' Hb. apply fdiv_mono; [apply of_int_nonneg; lia..|apply of_int_positive; lia|].
  apply of_int_fval; lia.
Qed.

(** Integers that are not positive. *)
Lemma rounded_neg q f : rounded q true f → fle f fzero = true.
Proof.
  intros (E & mrs & _ & _ & _ & [[_ ->]|(m & e & _ & _ & ->)]); [done|].
  unfold pack. by destruct (Z.leb_spec e 971).
Qed.

Lemma of_int_nonpos z : (z ≤ 0)%Z → fle (of_int z) fzero = true.
Proof.
  intros Hz. destruct z as [|p|p]; [done|lia|].
  eapply (rounded_neg (inject_Z (Z.pos p) * pow2 0)), binary_round_rounded.
Qed.

Lemma positive_not_le x : positive_float x → fle x fzero = false.
Proof. by destruct x as [| | |[]]. Qed.

Lemma positive_not_eq x : positive_float x → feq x fzero = false.
Proof. by destruct x as [| | |[]]. Qed.

(** The smaller of two numbers, as the code computes it. *)
Definition capped (cap x : float64) : float64 := if flt cap x then cap else x.

Lemma capped_spec cap x :
  positive_float cap → nonneg x → nonneg (capped cap x) ∧ fval (capped cap x) <= fval cap.
Proof.
  intros Hc Hx. unfold capped. destruct (flt cap x) eqn:E; [split; [by apply positive_nonneg|apply Qle_refl]|].
  split; [done|]. apply fle_fval; [done|by apply positive_nonneg|]. apply not_flt_fle; auto with pow2.
Qed.

Lemma capped_mono cap x y :
  positive_float cap → nonneg x → nonneg y → fval x <= fval y → fval (capped cap x) <= fval (capped cap y).
Proof.
  intros Hc Hx Hy Hxy. pose proof (capped_spec cap x Hc Hx) as [_ H1].
  unfold capped in *. destruct (flt cap y) eqn:Ey; [exact H1|]. destruct (flt cap x) eqn:Ex; [|done].
  apply Qle_trans with (fval x); [|done].
  apply fle_fval; [by apply positive_nonneg|done|]. by apply flt_fle.
Qed.

(** One minus the share of a capped load. *)
Lemma load_share_unit cap x : positive_float cap → nonneg x → unit_range (fdiv (capped cap x) cap).
Proof. intros Hc Hx. destruct (capped_spec cap x Hc Hx). by apply fdiv_unit. Qed.

Lemma load_share_anti cap x y :
  positive_float cap → nonneg x → nonneg y → fval x <= fval y →
  fle (fsub fone (fdiv (capped cap y) cap)) (fsub fone (fdiv (capped cap x) cap)) = true.
Proof.
  intros Hc Hx Hy Hxy. pose proof (load_share_unit cap x Hc Hx) as Hux. pose proof (load_share_unit cap y Hc Hy) as Huy.
  apply fsub_one_anti; [done..|]. apply fle_fval; [apply Hux|apply Huy|].
  destruct (capped_spec cap x Hc Hx), (capped_spec cap y Hc Hy). apply fdiv_mono; [done..|]. by apply capped_mono.
Qed.

Lemma unit_valid x : unit_range x → valid x ∧ is_nan x = false.
Proof. intros [Hx _]. split; [by destruct x as [| | |[]]|by apply nonneg_not_nan]. Qed.

Lemma fmul_unit_le c x : nonneg c → unit_range x → fle (fmul c x) c = true.
Proof.
  intros Hc [Hx Hx1]. eapply rounds_le; [by apply fmul_rounds|done|].
  pose proof (fval_nonneg c Hc). rewrite Qmult_comm.
  apply Qle_trans with (1 * fval c); [by apply Qmult_le_compat_r|]. lra.
Qed.

Lemma fmul_mono_l x y w :
  nonneg x → nonneg y → nonneg w → fle x y = true → fle (fmul x w) (fmul y w) = true.
Proof.
  intros Hx Hy Hw Hxy. eapply rounds_mono; [|by apply fmul_rounds..].
  apply Qmult_le_compat_r; [by apply fle_fval|by apply fval_nonneg].
Qed.

Lemma nonneg_inf_le_inf x : nonneg_inf x → fle x (S754_infinity false) = true.
Proof. intros [Hx| ->]; [|done]. by destruct x as [| | |[]]. Qed.

Lemma fadd_mono a b x y :
  nonneg_inf a → nonneg_inf b → nonneg x → nonneg y → fle a b = true → fle x y = true →
  fle (fadd a x) (fadd b y) = true.
Proof.
  intros Ha [Hb| ->] Hx Hy Hab Hxy; cycle 1.
  { replace (fadd (S754_infinity false) y) with (S754_infinity false) by by destruct y as [| | |[]].
    by apply nonneg_inf_le_inf, fadd_nonneg_inf. }
  destruct Ha as [Ha| ->]; [|by destruct b as [| | |[]]].
  eapply rounds_mono; [|by apply fadd_rounds..]. apply Qplus_le_compat; by apply fle_fval.
Qed.

(** Adding a non-negative number. *)
Lemma fadd_grows a b y : nonneg_inf a → nonneg_inf b → nonneg y → fle a b = true → fle a (fadd b y) = true.
Proof.
  intros Ha [Hb| ->] Hy Hab; cycle 1.
  { replace (fadd (S754_infinity false) y) with (S754_infinity false) by by destruct y as [| | |[]].
    by apply nonneg_inf_le_inf. }
  destruct Ha as [Ha| ->]; [|by destruct b as [| | |[]]].
  eapply rounds_ge; [by apply fadd_rounds|done|]. apply fle_fval in Hab; [|done..].
  pose proof (fval_nonneg y Hy). lra.
Qed.

(** A larger divisor. *)
Lemma fdiv_anti x y1 y2 :
  nonneg x → positive_float y1 → positive_float y2 → fval y1 <= fval y2 → fle (fdiv x y2) (fdiv x y1) = true.
Proof.
  intros Hx H1 H2 Hy. eapply rounds_mono; [|by apply fdiv_rounds..].
  pose proof (fval_positive y1 H1). pose proof (fval_positive y2 H2). pose proof (fval_nonneg x Hx).
  apply Qle_shift_div_l; [done|]. apply Qle_trans with (fval x / fval y2 * fval y2).
  - rewrite !(Qmult_comm (fval x / fval y2)). apply Qmult_le_compat_r; [done|].
    apply Qle_shift_div_l; [done|]. by rewrite Qmult_0_l.
  - rewrite Qmult_comm, Qmult_div_r; [apply Qle_refl|]. by apply not_zero.
Qed.

Lemma nonneg_inf_unit x : nonneg_inf x → fle x fone = true → unit_range x.
Proof.
  intros [Hx| ->] H; [|done]. split; [done|]. rewrite <- fval_one. by apply fle_fval; [|apply fone_nonneg|].
Qed.

Lemma fdiv_nonneg x y : nonneg x → positive_float y → 1 <= fval y → nonneg (fdiv x y) ∧ fval (fdiv x y) <= fval x.
Proof.
  intros Hx Hy H1. pose proof (fval_nonneg x Hx) as H0. pose proof (fval_positive y Hy).
  assert (fval x / fval y <= fval x) as Hq.
  { apply Qle_shift_div_r; [done|]. rewrite Qmult_comm. apply Qle_trans with (1 * fval x); [lra|].
    by apply Qmult_le_compat_r. }
  pose proof (rounds_nonneg _ _ x (fdiv_rounds x y Hx Hy) Hx Hq) as Hn. split; [done|].
  by apply (rounds_fval _ _ _ (fdiv_rounds x y Hx Hy) Hn Hx).
Qed.

(** One plus a number below [2^64]. *)
Lemma fadd_one_positive x : nonneg x → fval x <= inject_Z (2 ^ 64) → positive_float (fadd fone x) ∧ 1 <= fval (fadd fone x).
Proof.
  intros Hx Hb. pose proof (fadd_rounds fone x fone_nonneg Hx) as Hr. pose proof (fval_nonneg x Hx).
  assert (nonneg (fadd fone x)) as Hn.
  { eapply (rounds_nonneg _ _ huge); [exact Hr|by split|]. rewrite fval_one.
    apply Qle_trans with (1 + inject_Z (2 ^ 64)); [lra|]. vm_compute. discriminate. }
  assert (1 <= fval (fadd fone x)) as H1.
  { rewrite <- fval_one at 1. apply (rounds_fval _ _ _ Hr Hn fone_nonneg). rewrite fval_one. lra. }
  split; [|done]. destruct (nonneg_cases _ Hn) as [[s Hs]|]; [|done]. rewrite Hs, fval_zero in H1. by vm_compute in H1.
Qed.

(** [1 + z / k] for integers. *)
Definition one_plus (z k : Z) : float64 := fadd fone (fdiv (of_int z) (of_int k)).

Lemma one_plus_positive z k :
  (0 ≤ z < 2 ^ 63)%Z → (0 < k < 2 ^ 63)%Z → positive_float (one_plus z k) ∧ fle fone (one_plus z k) = true.
Proof.
  intros Hz Hk. assert (1 <= fval (of_int k)) as H1.
  { rewrite <- fval_one. unfold fone. apply of_int_fval; lia. }
  destruct (fdiv_nonneg (of_int z) (of_int k)) as [Hn Hle]; [apply of_int_nonneg; lia|apply of_int_positive; lia|done|].
  destruct (fadd_one_positive _ Hn) as [Hp H1'].
  { apply Qle_trans with (fval (of_int z)); [done|]. apply Qle_trans with (fval (of_int (2 ^ 63))); [apply of_int_fval; lia|].
    vm_compute. discriminate. }
  split; [done|]. apply fle_fval; [apply fone_nonneg|by apply positive_nonneg|]. by rewrite fval_one.
Qed.

Lemma one_plus_mono z z' k :
  (0 ≤ z ≤ z')%Z → (z' < 2 ^ 63)%Z → (0 < k < 2 ^ 63)%Z → fle (one_plus z k) (one_plus z' k) = true.
Proof.
  intros Hz Hz' Hk. assert (1 <= fval (of_int k)) as H1.
  { rewrite <- fval_one. unfold fone. apply of_int_fval; lia. }
  assert (∀ x, (0 ≤ x < 2 ^ 63)%Z → nonneg (fdiv (of_int x) (of_int k))) as Hn.
  { intros x Hx. apply fdiv_nonneg; [apply of_int_nonneg; lia|apply of_int_positive; lia|done]. }
  apply fadd_mono; [left; apply fone_nonneg..|apply Hn; lia|apply Hn; lia|by vm_compute|apply ratio_mono; lia].
Qed.

(** Dividing by a number that is at least one. *)
Lemma fdiv_large x d :
  unit_range x → positive_float d → fle fone d = true → unit_range (fdiv x d) ∧ fle (fdiv x d) x = true.
Proof.
  intros [Hx Hx1] Hd H1. apply fle_fval in H1; [|apply fone_nonneg|by apply positive_nonneg]. rewrite fval_one in H1.
  destruct (fdiv_nonneg x d Hx Hd H1) as [Hn Hle]. split; [split; [done|lra]|]. by apply fle_fval.
Qed.

Lemma fdiv_anti_le x y1 y2 :
  nonneg x → positive_float y1 → positive_float y2 → fle y1 y2 = true → fle (fdiv x y2) (fdiv x y1) = true.
Proof. intros Hx H1 H2 Hy. apply fdiv_anti; [done..|]. by apply fle_fval; [apply positive_nonneg..|]. Qed.

Lemma flt_le_trans x y z : fle x y = true → flt y z = true → flt x z = true.
Proof.
  intros H1 H2. destruct (fle_nan _ _ H1) as [Hx Hy], (flt_nan _ _ H2) as [_ Hz].
  rewrite flt_not_fle in * by done. apply negb_true_iff. apply negb_true_iff in H2.
  destruct (fle z x) eqn:E; [|done]. by rewrite (fle_trans _ _ _ E H1) in H2.
Qed.

Lemma flt_fle_trans x y z : flt x y = true → fle y z = true → flt x z = true.
Proof.
  intros H1 H2. destruct (flt_nan _ _ H1) as [Hx Hy], (fle_nan _ _ H2) as [_ Hz].
  rewrite flt_not_fle in * by done. apply negb_true_iff. apply negb_true_iff in H1.
  destruct (fle z x) eqn:E; [|done]. by rewrite (fle_trans _ _ _ H2 E) in H1.
Qed.
