(* ===== verification/FloatSum.v ===== *)
(** * Results strictly below an integer

    Rounding is monotone, but it does not keep a strict inequality: a number below an
    integer may round up to it. For the sums and averages of the saturation detectors it
    does: a sum of [k] numbers of the format that are below one stays below [k], and
    divided by [k] it stays below one. *)

From stdpp Require Import prelude.
From Stdlib Require Import ZArith QArith Qpower Qfield Lqa Lia Floats.SpecFloat.
From S2P Require Import Prelude Float64 FloatRound FloatOps.

#[local] Open Scope Q_scope.

(** ** The distance between a number and its rounding *)

Lemma rne_half mrs e q :
  repr mrs e q →
  (inject_Z (rne mrs) - (1 # 2)) * pow2 e <= q ∧ q <= (inject_Z (rne mrs) + (1 # 2)) * pow2 e.
Proof.
  intros (f & Hf & Hq). rewrite !Hq. unfold rne. destruct mrs as [m [] []]; simpl in *.
  - split; apply scale_le; rewrite inj_succ; lra.
  - destruct (Z.even m); split; apply scale_le; rewrite ?inj_succ; lra.
  - split; apply scale_le; lra.
  - split; apply scale_le; lra.
Qed.

Lemma rounds_half q f :
  rounds q f → nonneg f →
  ∃ E R, exponent_for q E ∧ fval f == inject_Z R * pow2 E ∧
    (inject_Z R - (1 # 2)) * pow2 E <= q ∧ q <= (inject_Z R + (1 # 2)) * pow2 E.
Proof.
  intros (g & (E & mrs & HE & Hm & Hr & Hg) & H1 & H2) Hf.
  assert (nonneg g) as Hng by by eapply nonneg_eqv.
  exists E, (rne mrs). split_and!; [done| |apply (rne_half _ _ _ Hr)..].
  assert (fval f == fval g) as -> by (apply Qle_antisym; by apply fle_fval).
  destruct Hg as [[-> ->]|(m & e & Hcan & Hv & ->)]; [simpl; ring|].
  unfold pack in *. destruct (e <=? 971)%Z; [|done]. simpl. rewrite Qmult_1_l. exact Hv.
Qed.

(** A number that is more than half a unit below a multiple of the unit rounds below it. *)
Lemma rounds_lt q f E N :
  rounds q f → nonneg f → exponent_for q E → q < (inject_Z N - (1 # 2)) * pow2 E →
  fval f < inject_Z N * pow2 E.
Proof.
  intros Hr Hf HE Hq. destruct (rounds_half q f Hr Hf) as (E' & R & HE' & -> & Hlow & _).
  rewrite (exponent_unique _ _ _ HE' HE) in *. apply scale_lt.
  assert (inject_Z R - (1 # 2) < inject_Z N - (1 # 2)) by (apply (scale_lt_inv _ _ E); lra). lra.
Qed.

(** ** Integers *)

Lemma int_scaled k e : (e ≤ 0)%Z → inject_Z k == inject_Z (k * 2 ^ (- e)) * pow2 e.
Proof.
  intros He. rewrite inject_Z_mult, <- Qmult_assoc, <- pow2_scaled by lia.
  replace (- e + e)%Z with 0%Z by lia. rewrite pow2_0. ring.
Qed.

Lemma exponent_int q E k : exponent_for q E → q < inject_Z k → (k ≤ 2 ^ 53)%Z → (E ≤ 0)%Z.
Proof.
  intros [_ [->|[_ Hge]]] Hq Hk; [done|]. assert (E + 52 < 53)%Z; [|lia]. apply pow2_lt_inv.
  rewrite (pow2_Z 53) by lia. eapply Qle_lt_trans; [exact Hge|]. eapply Qlt_le_trans; [exact Hq|]. by apply inj_le.
Qed.

(** Integers of at most 53 bits are numbers of the format. *)
Lemma of_int_exact z : (0 ≤ z < 2 ^ 53)%Z → fval (of_int z) == inject_Z z.
Proof.
  intros Hz. destruct (rounds_half (inject_Z z) (of_int z)) as (E & R & HE & -> & Hlow & Hhigh).
  { apply of_int_rounds. lia. }
  { apply of_int_nonneg. lia. }
  assert (E ≤ 0)%Z as HE0 by (eapply (exponent_int _ _ (2 ^ 53)); [exact HE|rewrite <- Zlt_Qlt; lia|lia]).
  rewrite (int_scaled z E HE0) in *. apply scale_le_inv in Hlow, Hhigh.
  assert (R = z * 2 ^ (- E))%Z as ->; [|reflexivity].
  assert (R < z * 2 ^ (- E) + 1)%Z by (apply inj_lt_inv; rewrite inj_succ; lra).
  assert (z * 2 ^ (- E) < R + 1)%Z by (apply inj_lt_inv; rewrite inj_succ; lra). lia.
Qed.

(** A number of the format below an integer is at least one unit below it. *)
Lemma below_int m e k :
  canonical m e → inject_Z (Z.pos m) * pow2 e < inject_Z k → (k ≤ 2 ^ 53)%Z →
  (e ≤ 0)%Z ∧ inject_Z (Z.pos m) * pow2 e <= inject_Z k - pow2 e.
Proof.
  intros Hcan Hlt Hk. assert (e ≤ 0)%Z as He by (eapply exponent_int; [by apply canonical_exponent|done..]).
  split; [done|]. rewrite (int_scaled k e He) in *. apply scale_lt_inv, inj_lt_inv in Hlt.
  assert (inject_Z (Z.pos m + 1) * pow2 e <= inject_Z (k * 2 ^ (- e)) * pow2 e) as H by (apply scale_le, inj_le; lia).
  rewrite inj_succ in H. lra.
Qed.

(** ** Sums and quotients *)

Lemma pow2_half e : (1 # 2) * pow2 e == pow2 (e - 1).
Proof. replace e with (e - 1 + 1)%Z at 1 by lia. rewrite pow2_succ. ring. Qed.

(** The units of the two summands add up to more than half a unit of the sum. *)
Lemma sum_gap ms es mr er q E k :
  canonical ms es → canonical mr er → (1 ≤ k < 2 ^ 53 - 1)%Z →
  q == inject_Z (Z.pos ms) * pow2 es + inject_Z (Z.pos mr) * pow2 er →
  inject_Z (Z.pos ms) * pow2 es < inject_Z k → inject_Z (Z.pos mr) * pow2 er < 1 → exponent_for q E →
  q < inject_Z (k + 1) - pow2 (E - 1).
Proof.
  intros Hs Hr Hk Hq Hsk Hr1 [HE HE'].
  destruct (below_int _ _ _ Hs Hsk ltac:(lia)) as [_ Hs'], (below_int mr er 1 Hr Hr1 ltac:(lia)) as [_ Hr'].
  pose proof (pow2_pos er). rewrite inj_succ. change (inject_Z 1) with 1 in *.
  destruct (Z.le_gt_cases (E - 1) es) as [Hes|Hes].
  { pose proof (pow2_le _ _ Hes). lra. }
  destruct HE' as [->|[_ Hge]]; [destruct (canonical_range _ _ Hs); lia|].
  destruct (canonical_exponent _ _ Hs) as [Hs53 _].
  pose proof (pow2_le (es + 53) (E + 51) ltac:(lia)).
  replace (E + 52)%Z with (E + 51 + 1)%Z in Hge by lia. rewrite pow2_succ in Hge.
  assert (E + 51 < 0)%Z as HE51 by (apply pow2_lt_inv; rewrite pow2_0; lra).
  assert (1 <= inject_Z k) by (apply (inj_le 1); lia).
  pose proof (pow2_le (E + 51) (-1) ltac:(lia)) as Ha. pose proof (pow2_le (E - 1) (-1) ltac:(lia)) as Hb.
  assert (pow2 (-1) == 1 # 2) as Hhalf by reflexivity. lra.
Qed.

Lemma fadd_below s r k :
  nonneg s → nonneg r → (1 ≤ k < 2 ^ 53 - 1)%Z → fval s < inject_Z k → fval r < 1 →
  nonneg (fadd s r) ∧ fval (fadd s r) < inject_Z (k + 1).
Proof.
  intros Hs Hr Hk Hsk Hr1. pose proof (fadd_rounds s r Hs Hr) as Hrd.
  assert (nonneg (of_int (k + 1))) as Hc by (apply of_int_nonneg; lia).
  assert (nonneg (fadd s r)) as Hn.
  { apply (rounds_nonneg _ _ _ Hrd Hc). rewrite of_int_exact, inj_succ by lia. lra. }
  split; [done|]. assert (1 <= inject_Z k) by (apply (inj_le 1); lia).
  destruct (nonneg_cases s Hs) as [[b ->]|Hsp].
  { eapply Qle_lt_trans; [apply (rounds_fval _ _ r Hrd Hn Hr)|rewrite inj_succ; lra]. simpl. lra. }
  destruct (nonneg_cases r Hr) as [[b ->]|Hrp].
  { eapply Qle_lt_trans; [apply (rounds_fval _ _ s Hrd Hn Hs)|rewrite inj_succ; lra]. simpl. lra. }
  destruct s as [| | |[] ms es], r as [| | |[] mr er]; try done. simpl in Hsk, Hr1. rewrite Qmult_1_l in Hsk, Hr1.
  destruct (rounds_half _ _ Hrd Hn) as (E & _ & HE & _).
  assert (fval (S754_finite false ms es) + fval (S754_finite false mr er) ==
    inject_Z (Z.pos ms) * pow2 es + inject_Z (Z.pos mr) * pow2 er) as Hq by (simpl; ring).
  pose proof (sum_gap ms es mr er _ E k (proj1 Hsp) (proj1 Hrp) Hk Hq Hsk Hr1 HE) as Hgap.
  assert (E ≤ 0)%Z as HE0 by (eapply (exponent_int _ _ (k + 1)); [exact HE|pose proof (pow2_pos (E - 1)); lra|lia]).
  rewrite (int_scaled (k + 1) E HE0). eapply rounds_lt; [exact Hrd|done..|].
  rewrite (int_scaled (k + 1) E HE0), <- pow2_half in Hgap. lra.
Qed.

(** The largest number below one. *)
Definition pred_one : float64 := S754_finite false 9007199254740991 (-53).

Lemma pred_one_nonneg : nonneg pred_one.
Proof. by split. Qed.

Lemma fval_pred_one : fval pred_one == 1 - (1 # 9007199254740992).
Proof. reflexivity. Qed.

Lemma quotient_gap mx ex my ey :
  canonical mx ex → canonical my ey → inject_Z (Z.pos mx) * pow2 ex < inject_Z (Z.pos my) * pow2 ey →
  inject_Z (Z.pos mx) * pow2 ex <= fval pred_one * (inject_Z (Z.pos my) * pow2 ey).
Proof.
  intros Hx Hy Hlt. rewrite fval_pred_one. pose proof (pow2_pos ex).
  destruct (canonical_range _ _ Hx) as (Hxe & Hxm & _), (canonical_range _ _ Hy) as (_ & Hym & Hy52).
  assert (∀ m : positive, (Z.pos m < 2 ^ 53)%Z → inject_Z (Z.pos m) <= 9007199254740991 # 1) as Hmax
    by (intros m Hm; change (9007199254740991 # 1) with (inject_Z 9007199254740991); apply inj_le; lia).
  pose proof (Hmax mx Hxm) as Hmx. pose proof (Hmax my Hym) as Hmy.
  destruct (canonical_le mx ex my ey Hx Hy) as [Hl|[-> Hl]]; [lra| |].
  - destruct Hy52 as [->|Hy52]; [lia|].
    assert (4503599627370496 # 1 <= inject_Z (Z.pos my)) as Hmy'
      by (change (4503599627370496 # 1) with (inject_Z 4503599627370496); apply inj_le; lia).
    assert (2 * pow2 ex <= pow2 ey) by (rewrite <- pow2_succ; apply pow2_le; lia).
    pose proof (scale_le _ _ ex Hmx). pose proof (scale_le _ _ ey Hmy'). lra.
  - apply scale_lt_inv, inj_lt_inv in Hlt.
    assert (inject_Z (Z.pos mx) + 1 <= inject_Z (Z.pos my)) as Hl' by (rewrite <- inj_succ; apply inj_le; lia).
    rewrite Qmult_assoc. apply scale_le. lra.
Qed.

(** The quotient of two different numbers of the format does not round to one. *)
Lemma fdiv_below x y :
  nonneg x → positive_float y → fval x < fval y →
  nonneg (fdiv x y) ∧ fval (fdiv x y) < 1.
Proof.
  intros Hx Hy Hlt. destruct (fdiv_unit x y Hx Hy) as [Hn _]; [lra|]. split; [done|].
  pose proof (fval_positive y Hy) as Hy0.
  eapply Qle_lt_trans; [apply (rounds_fval _ _ _ (fdiv_rounds x y Hx Hy) Hn pred_one_nonneg)|reflexivity].
  apply Qle_shift_div_r; [done|]. clear Hn.
  destruct (nonneg_cases x Hx) as [[b ->]|Hxp].
  { apply Qmult_le_0_compat; [discriminate|lra]. }
  destruct x as [| | |[] mx ex], y as [| | |[] my ey]; try done.
  unfold fval in Hlt. unfold fval at 1 3. rewrite !Qmult_1_l in *. by apply quotient_gap; [apply Hxp|apply Hy|].
Qed.

(** ** In terms of the order of numbers *)

Lemma flt_fval x y : nonneg x → nonneg y → (flt x y = true ↔ fval x < fval y).
Proof.
  intros Hx Hy. rewrite flt_not_fle by by apply nonneg_not_nan. rewrite negb_true_iff, <- not_true_iff_false.
  rewrite (fle_fval y x Hy Hx). split; [apply Qnot_le_lt|apply Qlt_not_le].
Qed.

(** A number from zero up to, and not including, one. *)
Definition below_one (x : float64) : Prop := nonneg x ∧ flt x fone = true.

Lemma below_one_fval x : below_one x ↔ nonneg x ∧ fval x < 1.
Proof.
  unfold below_one. split; intros [Hx H]; (split; [done|]).
  - apply (flt_fval x fone Hx fone_nonneg) in H. by rewrite fval_one in H.
  - apply (flt_fval x fone Hx fone_nonneg). by rewrite fval_one.
Qed.

Lemma fdiv_below_one x y : nonneg x → positive_float y → flt x y = true → below_one (fdiv x y).
Proof.
  intros Hx Hy Hlt. apply below_one_fval, fdiv_below; [done..|]. apply flt_fval; auto using positive_nonneg.
Qed.

Lemma ratio_below_one a b : (0 ≤ a < b)%Z → (b < 2 ^ 53)%Z → below_one (fdiv (of_int a) (of_int b)).
Proof.
  intros Ha Hb. apply below_one_fval, fdiv_below; [apply of_int_nonneg; lia|apply of_int_positive; lia|].
  rewrite !of_int_exact by lia. rewrite <- Zlt_Qlt. lia.
Qed.

(** [x / y] is at least one if [x] is at least [y]. *)
Lemma fdiv_above x y :
  nonneg_inf x → positive_float y → fle y x = true → nonneg_inf (fdiv x y) ∧ fle fone (fdiv x y) = true.
Proof.
  intros [Hx| ->] Hy Hle.
  - pose proof (fdiv_rounds x y Hx Hy) as Hrd. split; [by eapply rounds_nonneg_inf|].
    apply (rounds_ge _ _ _ Hrd fone_nonneg). rewrite fval_one. apply Qle_shift_div_l; [by apply fval_positive|].
    rewrite Qmult_1_l. apply fle_fval; auto using positive_nonneg.
  - destruct y as [| | |[]]; try done. split; [by right|done].
Qed.

Lemma fadd_inf_nonneg x y : nonneg_inf x → nonneg_inf y → nonneg_inf (fadd x y).
Proof.
  intros Hx [Hy| ->]; [by apply fadd_nonneg_inf|]. right. by destruct Hx as [Hx| ->]; [destruct x as [| | |[]]|].
Qed.

Lemma fadd_above s r k :
  nonneg_inf s → nonneg_inf r → (0 ≤ k < 2 ^ 53 - 1)%Z → fle (of_int k) s = true → fle fone r = true →
  fle (of_int (k + 1)) (fadd s r) = true.
Proof.
  intros Hs Hr Hk Hks H1r.
  destruct Hr as [Hr| ->]; [|destruct Hs as [Hs| ->]; [destruct s as [| | |[]]; try done|];
    apply nonneg_inf_le_inf; left; apply of_int_nonneg; lia].
  destruct Hs as [Hs| ->]; [|destruct r as [| | |[]]; try done; apply nonneg_inf_le_inf; left; apply of_int_nonneg; lia].
  assert (nonneg (of_int k)) as Hk0 by (apply of_int_nonneg; lia).
  apply (rounds_ge _ _ _ (fadd_rounds s r Hs Hr)); [apply of_int_nonneg; lia|].
  apply (fle_fval _ _ Hk0 Hs) in Hks. apply (fle_fval _ _ fone_nonneg Hr) in H1r.
  rewrite of_int_exact in * by lia. rewrite fval_one in H1r. rewrite inj_succ. lra.
Qed.

(** ** Averages *)

Definition float_sum (l : list float64) : float64 := foldl fadd fzero l.
Definition average (l : list float64) : float64 := fdiv (float_sum l) (of_int (Z.of_nat (length l))).

Lemma sum_below s l k :
  nonneg s → fval s < inject_Z k → (1 ≤ k)%Z → (k + Z.of_nat (length l) < 2 ^ 53)%Z → Forall below_one l →
  nonneg (foldl fadd s l) ∧ fval (foldl fadd s l) < inject_Z (k + Z.of_nat (length l)).
Proof.
  intros Hs Hsk Hk Hl Hf. revert s k Hs Hsk Hk Hl. induction Hf as [|r l Hr Hf IH]; intros s k Hs Hsk Hk Hl; simpl length in *; simpl foldl.
  - by rewrite Z.add_0_r.
  - apply below_one_fval in Hr as [Hr Hr1]. destruct (fadd_below s r k) as [Hn Hlt]; try done; [lia|].
    destruct (IH (fadd s r) (k + 1)%Z) as [Hn' Hlt']; try done; [lia..|]. split; [done|].
    by replace (k + Z.of_nat (S (length l)))%Z with (k + 1 + Z.of_nat (length l))%Z by lia.
Qed.

Lemma average_below l :
  l ≠ [] → (Z.of_nat (length l) < 2 ^ 53)%Z → Forall below_one l → below_one (average l).
Proof.
  intros Hne Hlen Hf. destruct Hf as [|r l Hr Hf]; [done|]. apply below_one_fval in Hr as [Hr Hr1].
  unfold average, float_sum. simpl foldl.
  pose proof (fadd_rounds fzero r fzero_nonneg Hr) as Hrd.
  assert (nonneg (fadd fzero r)) as Hn by (eapply (rounds_nonneg _ _ r Hrd Hr); simpl; lra).
  assert (fval (fadd fzero r) < inject_Z 1).
  { eapply Qle_lt_trans; [apply (rounds_fval _ _ r Hrd Hn Hr)|exact Hr1]. simpl. lra. }
  simpl length in *. destruct (sum_below (fadd fzero r) l 1) as [Hns Hs]; try done; [lia..|].
  apply below_one_fval, fdiv_below; [done|apply of_int_positive; lia|]. rewrite of_int_exact by lia.
  by replace (Z.of_nat (S (length l))) with (1 + Z.of_nat (length l))%Z by lia.
Qed.

Lemma sum_above s l k :
  nonneg_inf s → fle (of_int k) s = true → (0 ≤ k)%Z → (k + Z.of_nat (length l) < 2 ^ 53)%Z →
  Forall (λ r, nonneg_inf r ∧ fle fone r = true) l →
  nonneg_inf (foldl fadd s l) ∧ fle (of_int (k + Z.of_nat (length l))) (foldl fadd s l) = true.
Proof.
  intros Hs Hsk Hk Hl Hf. revert s k Hs Hsk Hk Hl. induction Hf as [|r l [Hr Hr1] Hf IH]; intros s k Hs Hsk Hk Hl; simpl length in *; simpl foldl.
  - by rewrite Z.add_0_r.
  - destruct (IH (fadd s r) (k + 1)%Z) as [Hn' Hlt']; [by apply fadd_inf_nonneg|apply fadd_above; (done || lia)|lia..|].
    split; [done|]. by replace (k + Z.of_nat (S (length l)))%Z with (k + 1 + Z.of_nat (length l))%Z by lia.
Qed.

Lemma average_above l :
  l ≠ [] → (Z.of_nat (length l) < 2 ^ 53)%Z → Forall (λ r, nonneg_inf r ∧ fle fone r = true) l →
  fle fone (average l) = true.
Proof.
  intros Hne Hlen Hf. destruct (sum_above fzero l 0) as [Hs Hle]; [by left|done|done|lia|done|].
  apply fdiv_above; [done| |done]. apply of_int_positive. destruct l; [done|simpl length in *; lia].
Qed.
