(* ===== verification/FlowTypes.v ===== *)
(** * Shared data of the flow-control layer

    The value types that the components of [pkg/epp/flowcontrol] exchange: Go
    errors with wrapping ([errors.Is]), queue outcomes, flow keys, requests and
    queue items, and the store of queue-item handles.

    A queue item is an immutable record with a pointer identity; its mutable
    [handle] field and the handle objects themselves live in a [store], because
    items, queues and the processor all hold references to the same handle. *)

From stdpp Require Import prelude gmap strings list.
From S2P Require Import Prelude.

#[export] Set Warnings "-register-all".

Create HintDb store.

(** ** Errors *)

(** The sentinel errors of [types/errors.go], [contracts/errors.go],
    [interface/flowcontrol/plugins.go], [controller/internal/processor.go],
    [controller/controller.go] and the two of package [context]. *)
Inductive Sentinel :=
  | ErrRejected | ErrEvicted | ErrQueueAtCapacity | ErrTTLExpired | ErrContextCancelled
  | ErrFlowControllerNotRunning
  | ErrFlowInstanceNotFound | ErrFlowIDEmpty | ErrPriorityBandNotFound
  | ErrPolicyQueueIncompatible | ErrInvalidShardCount | ErrShardDraining
  | ErrInvalidQueueItemHandle | ErrQueueItemNotFound
  | ErrIncompatiblePriorityType | ErrProcessorBusy | errNoShards
  | ContextCanceled | ContextDeadlineExceeded.

#[export] Instance sentinel_eq_dec : EqDecision Sentinel.
Proof. solve_decision. Defined.

(** An error value: a sentinel, an [errors.New] created on the spot, or an
    [fmt.Errorf] that wraps the operands of its [%w] verbs. *)
Inductive GoError :=
  | ESentinel (s : Sentinel)
  | ENew (msg : string)
  | EWrap (wrapped : list GoError).

(** [errors.Is(err, target)] for a sentinel target: a pre-order walk of the
    tree of wrapped errors. *)
Fixpoint errors_Is (err : GoError) (target : Sentinel) : bool :=
  match err with
  | ESentinel s => bool_decide (s = target)
  | ENew _ => false
  | EWrap es =>
      (fix any (l : list GoError) : bool :=
         match l with [] => false | e :: l' => errors_Is e target || any l' end) es
  end.

(** Sequencing of calls that return a value and an error. *)
Definition ebind {A B} (c : A + GoError) (k : A → B + GoError) : B + GoError :=
  match c with inl a => k a | inr err => inr err end.

Notation "x ←? c ; k" := (ebind c (λ x, k))
  (at level 20, c at level 100, k at level 200, right associativity) : go_scope.

Lemma ebind_inl {A B} (c : A + GoError) (k : A → B + GoError) b :
  ebind c k = inl b → ∃ a, c = inl a ∧ k a = inl b.
Proof. destruct c; simpl; eauto. discriminate. Qed.

Lemma errors_Is_wrap2 a b t :
  errors_Is (EWrap [a; b]) t = errors_Is a t || errors_Is b t.
Proof. simpl. by rewrite orb_false_r. Qed.

(** ** Outcomes: [types/outcomes.go] *)

Inductive QueueOutcome :=
  | QueueOutcomeNotYetFinalized
  | QueueOutcomeDispatched
  | QueueOutcomeRejectedCapacity
  | QueueOutcomeRejectedOther
  | QueueOutcomeEvictedTTL
  | QueueOutcomeEvictedContextCancelled
  | QueueOutcomeEvictedOther.

#[export] Instance outcome_eq_dec : EqDecision QueueOutcome.
Proof. solve_decision. Defined.

(** ** Flow keys: [interface/flowcontrol/flow.go] *)

Record FlowKey := mkFlowKey { fk_ID : string; fk_Priority : Z }.

#[export] Instance flowkey_eq_dec : EqDecision FlowKey.
Proof. solve_decision. Defined.

#[export] Instance flowkey_countable : Countable FlowKey.
Proof.
  refine (inj_countable' (λ k, (fk_ID k, fk_Priority k)) (λ p, mkFlowKey p.1 p.2) _).
  by intros [].
Defined.

(** [strings.Compare], the lexicographic order on bytes. *)
Definition strings_Compare (a b : string) : Z :=
  match String.compare a b with Lt => -1 | Eq => 0 | Gt => 1 end.

(** [FlowKey.Compare]. *)
Definition FlowKey_Compare (k other : FlowKey) : Z :=
  if bool_decide (fk_Priority k > fk_Priority other)%Z then -1
  else if bool_decide (fk_Priority k < fk_Priority other)%Z then 1
  else strings_Compare (fk_ID k) (fk_ID other).

(** ** Requests and queue items: [interface/flowcontrol/request.go] *)

(** [InferenceRequest().Headers], as the association list in the order the
    runtime iterates the map; [None] is a nil request or a nil map. *)
Abbreviation Headers := (option (list (string * string))).

Record FlowControlRequest := mkRequest {
  fr_FlowKey : FlowKey;
  fr_ByteSize : Z;                (* uint64 *)
  fr_Headers : Headers;
  fr_ReceivedTimestamp : Z;       (* nanoseconds since the epoch *)
  fr_InitialEffectiveTTL : Z;     (* time.Duration, int64 nanoseconds *)
  fr_ID : string
}.

#[export] Instance request_eq_dec : EqDecision FlowControlRequest.
Proof. solve_decision. Defined.

(** The immutable part of a [FlowItem] ([controller/internal/item.go]) behind
    the interface [QueueItemAccessor]; [qi_ptr] is the pointer's identity. *)
Record QueueItem := mkItem {
  qi_ptr : positive;
  qi_EnqueueTime : Z;
  qi_EffectiveTTL : Z;
  qi_OriginalRequest : FlowControlRequest
}.

#[export] Instance item_eq_dec : EqDecision QueueItem.
Proof. solve_decision. Defined.

Definition qi_ByteSize (it : QueueItem) : Z := fr_ByteSize (qi_OriginalRequest it).
Definition qi_FlowKey (it : QueueItem) : FlowKey := fr_FlowKey (qi_OriginalRequest it).

(** Byte sizes are [uint64]. *)
Definition item_ok (it : QueueItem) : Prop := (0 ≤ qi_ByteSize it < Int.two64)%Z.

Definition ptrs (its : list QueueItem) : list positive := qi_ptr <$> its.

Fixpoint total_bytes (its : list QueueItem) : Z :=
  match its with [] => 0 | it :: its' => qi_ByteSize it + total_bytes its' end.

Lemma total_bytes_app l k : total_bytes (l ++ k) = (total_bytes l + total_bytes k)%Z.
Proof. induction l; simpl; lia. Qed.

#[export] Instance total_bytes_Permutation : Proper ((≡ₚ) ==> (=)) total_bytes.
Proof. induction 1; simpl; lia. Qed.

Lemma total_bytes_nonneg l : Forall item_ok l → (0 ≤ total_bytes l)%Z.
Proof. induction 1 as [|it l Hit ? IH]; simpl; [lia|]. unfold item_ok in Hit. lia. Qed.

Lemma total_bytes_filter_split (p : QueueItem → bool) l :
  total_bytes l =
  (total_bytes (List.filter p l) + total_bytes (List.filter (λ x, negb (p x)) l))%Z.
Proof. induction l as [|x l IH]; simpl; [done|]. destruct (p x); simpl; lia. Qed.

(** ** Handles

    [listItemHandle] of [listqueue.go] and [heapItem] of [maxminheap.go], the
    two implementations of [QueueItemHandle]. *)
Inductive handleObj :=
  | listItemHandle (element : positive) (value : QueueItem) (owner : positive)
                   (isInvalidated : bool)
  | heapItem (item : QueueItem) (index : nat) (isInvalidated : bool).

Definition IsInvalidated (h : handleObj) : bool :=
  match h with listItemHandle _ _ _ b => b | heapItem _ _ b => b end.

Definition Invalidate (h : handleObj) : handleObj :=
  match h with
  | listItemHandle e v o _ => listItemHandle e v o true
  | heapItem it i _ => heapItem it i true
  end.

(** The store: the next free address, each item's [handle] field (absent: nil)
    and the handle objects. *)
Record store := mkStore {
  st_next : positive;
  st_handleOf : gmap positive positive;
  st_handles : gmap positive handleObj
}.

Definition store_empty : store := mkStore 1 ∅ ∅.

(** [item.Handle()]. *)
Definition Handle (st : store) (it : QueueItem) : option positive :=
  st_handleOf st !! qi_ptr it.

(** [item.SetHandle(h)]. *)
Definition SetHandle (it : QueueItem) (h : positive) (st : store) : store :=
  mkStore (st_next st) (<[qi_ptr it := h]> (st_handleOf st)) (st_handles st).

(** [&handle{...}]: allocation of a handle object. *)
Definition alloc_handle (h : handleObj) (st : store) : positive * store :=
  (st_next st,
   mkStore (Pos.succ (st_next st)) (st_handleOf st) (<[st_next st := h]> (st_handles st))).

(** Allocation of an object that carries no state of its own (a list element). *)
Definition alloc_opaque (st : store) : positive * store :=
  (st_next st, mkStore (Pos.succ (st_next st)) (st_handleOf st) (st_handles st)).

Definition update_handle (f : handleObj → handleObj) (h : positive) (st : store) : store :=
  mkStore (st_next st) (st_handleOf st) (alter f h (st_handles st)).

(** [if h := item.Handle(); h != nil { h.Invalidate() }]. *)
Definition invalidate_item (it : QueueItem) (st : store) : store :=
  match Handle st it with
  | Some h => update_handle Invalidate h st
  | None => st
  end.

(** ** Well-formed stores, and what an operation on one queue may touch *)

Record store_wf (st : store) : Prop := {
  swf_handles : ∀ h o, st_handles st !! h = Some o → (h < st_next st)%positive;
  swf_handleOf : ∀ p h, st_handleOf st !! p = Some h → (h < st_next st)%positive;
  swf_inj : ∀ p p' h, st_handleOf st !! p = Some h → st_handleOf st !! p' = Some h → p = p'
}.

(** The store [st'] differs from [st] only on the handle fields of the items
    [its], on the handle objects of those items and on fresh addresses. *)
Record store_local (its : list QueueItem) (st st' : store) : Prop := {
  sl_next : (st_next st ≤ st_next st')%positive;
  sl_handleOf : ∀ p, p ∉ ptrs its → st_handleOf st' !! p = st_handleOf st !! p;
  sl_handles : ∀ h, (h < st_next st)%positive →
    (∀ it, it ∈ its → Handle st it ≠ Some h) →
    st_handles st' !! h = st_handles st !! h;
  sl_fresh : ∀ it h, it ∈ its → Handle st' it = Some h →
    Handle st it = Some h ∨ (st_next st ≤ h)%positive
}.

(** [st'] agrees with [st] on everything that concerns the items [its]. *)
Definition store_agree (its : list QueueItem) (st st' : store) : Prop :=
  ∀ it, it ∈ its →
    Handle st' it = Handle st it ∧
    ∀ h, Handle st it = Some h → st_handles st' !! h = st_handles st !! h.

Lemma store_wf_empty : store_wf store_empty.
Proof. split; simpl; intros *; by rewrite ?lookup_empty. Qed.

Lemma elem_of_ptrs it its : it ∈ its → qi_ptr it ∈ ptrs its.
Proof. intros H. unfold ptrs. rewrite list_elem_of_fmap. eauto. Qed.

Lemma store_local_refl its st : store_local its st st.
Proof. split; auto. lia. Qed.

Lemma store_local_trans its st st' st'' :
  store_local its st st' → store_local its st' st'' → store_local its st st''.
Proof.
  intros [Hn Hf Hh Hr] [Hn' Hf' Hh' Hr']. split; [lia| | |].
  - intros p Hp. by rewrite Hf', Hf.
  - intros h Hlt Hno. rewrite Hh', Hh; [done..|lia|].
    intros it Hit Heq. destruct (Hr _ _ Hit Heq) as [|Hge]; [by eapply Hno|lia].
  - intros it h Hit Heq. destruct (Hr' _ _ Hit Heq) as [Heq'|Hge]; [by apply Hr|].
    right. lia.
Qed.

Lemma store_local_agree its its' st st' :
  store_wf st → store_local its st st' →
  (∀ it, it ∈ its' → qi_ptr it ∉ ptrs its) →
  store_agree its' st st'.
Proof.
  intros Hwf Hloc Hdisj it Hit. split.
  - unfold Handle. by rewrite (sl_handleOf _ _ _ Hloc) by auto.
  - intros h Hh. apply (sl_handles _ _ _ Hloc).
    + eapply swf_handleOf; eauto.
    + intros it2 Hit2 Hh2. apply (Hdisj it Hit).
      rewrite (swf_inj _ Hwf _ _ _ Hh Hh2). by apply elem_of_ptrs.
Qed.

Lemma store_local_weaken its its' st st' :
  (∀ it, it ∈ its → it ∈ its') → store_local its st st' → store_local its' st st'.
Proof.
  intros Hsub [Hn Hf Hh Hr]. split; [done| | |].
  - intros p Hp. apply Hf. intros Hin. apply Hp.
    unfold ptrs in *. rewrite list_elem_of_fmap in Hin |- *.
    destruct Hin as (it & -> & Hit). eauto.
  - intros h Hlt Hno. apply Hh; eauto.
  - intros it h Hit Heq. destruct (decide (qi_ptr it ∈ ptrs its)) as [Hin|Hout].
    + unfold ptrs in Hin. rewrite list_elem_of_fmap in Hin. destruct Hin as (it' & Hp & Hit').
      unfold Handle in *. rewrite Hp in *. by apply (Hr it').
    + left. unfold Handle in *. by rewrite <- Hf.
Qed.

(** ** Effect of the primitive store updates *)

Lemma Handle_SetHandle it h st it' :
  Handle (SetHandle it h st) it' = if decide (qi_ptr it = qi_ptr it') then Some h else Handle st it'.
Proof. unfold Handle. simpl. by rewrite lookup_insert. Qed.

Lemma Handle_update f h st it : Handle (update_handle f h st) it = Handle st it.
Proof. done. Qed.

Lemma Handle_invalidate it st it' : Handle (invalidate_item it st) it' = Handle st it'.
Proof. unfold invalidate_item. by destruct (Handle st it). Qed.

Lemma handles_update f h st h' :
  st_handles (update_handle f h st) !! h' =
  if decide (h = h') then f <$> st_handles st !! h' else st_handles st !! h'.
Proof. simpl. rewrite lookup_alter. by case_decide; subst. Qed.

Lemma handles_invalidate it st h :
  st_handles (invalidate_item it st) !! h =
  if decide (Handle st it = Some h) then Invalidate <$> st_handles st !! h
  else st_handles st !! h.
Proof.
  unfold invalidate_item. destruct (Handle st it) as [h0|] eqn:Hh.
  - rewrite handles_update. repeat case_decide; try done; congruence.
  - by rewrite decide_False by done.
Qed.

Lemma store_wf_update f h st : store_wf st → store_wf (update_handle f h st).
Proof.
  intros [H1 H2 H3]. split; simpl; [|done..].
  intros h' o. rewrite lookup_alter. case_decide; [subst|by apply H1].
  intros Ho. destruct (st_handles st !! h') eqn:E; [|done]. by eapply H1.
Qed.

Lemma store_wf_invalidate it st : store_wf st → store_wf (invalidate_item it st).
Proof. intros. unfold invalidate_item. destruct (Handle st it); [by apply store_wf_update|done]. Qed.

Lemma store_local_update its f h st :
  (∃ it, it ∈ its ∧ Handle st it = Some h) → store_local its st (update_handle f h st).
Proof.
  intros (it & Hit & Hh). split; simpl; [lia|done| |auto].
  intros h' _ Hno. rewrite lookup_alter_ne; [done|]. intros ->. by eapply Hno.
Qed.

Lemma store_local_invalidate its it st : it ∈ its → store_local its st (invalidate_item it st).
Proof.
  intros Hit. unfold invalidate_item.
  destruct (Handle st it) eqn:E; [|apply store_local_refl]. apply store_local_update; eauto.
Qed.

(** The allocation and publication of a new handle for [it]. *)
Definition publish (it : QueueItem) (o : handleObj) (st : store) : store :=
  let '(h, st') := alloc_handle o st in SetHandle it h st'.

Lemma store_wf_opaque st : store_wf st → store_wf (alloc_opaque st).2.
Proof.
  intros [H1 H2 H3]. split; simpl; eauto.
  - intros h o Ho. apply H1 in Ho. lia.
  - intros p h Hp. apply H2 in Hp. lia.
Qed.

Lemma store_wf_publish it o st : store_wf st → store_wf (publish it o st).
Proof.
  intros [H1 H2 H3]. split; simpl.
  - intros h o'. rewrite lookup_insert. case_decide; [lia|]. intros Ho%H1. lia.
  - intros p h. rewrite lookup_insert. case_decide; [intros [= <-]; lia|]. intros Hp%H2. lia.
  - intros p p' h. rewrite !lookup_insert. repeat case_decide; subst; try done.
    + intros [= <-] Hp%H2. lia.
    + intros Hp%H2 [= <-]. lia.
    + apply H3.
Qed.

Lemma store_local_publish its it o st : it ∈ its → store_local its st (publish it o st).
Proof.
  intros Hit. split; simpl.
  - lia.
  - intros p Hp. rewrite lookup_insert_ne; [done|]. intros <-. by apply Hp, elem_of_ptrs.
  - intros h Hlt _. rewrite lookup_insert_ne; [done|lia].
  - intros it' h _. unfold Handle. simpl. rewrite lookup_insert.
    case_decide; [intros [= <-]; right; lia|by left].
Qed.

Lemma store_local_opaque its st : store_local its st (alloc_opaque st).2.
Proof. split; simpl; auto. lia. Qed.

(** Invalidation of the handles of several items, in order. *)
Definition invalidate_items (its : list QueueItem) (st : store) : store :=
  foldl (λ st it, invalidate_item it st) st its.

Lemma invalidate_items_snoc its it st :
  invalidate_items (its ++ [it]) st = invalidate_item it (invalidate_items its st).
Proof. unfold invalidate_items. by rewrite foldl_app. Qed.

Lemma invalidate_items_next its st : st_next (invalidate_items its st) = st_next st.
Proof.
  revert st. induction its as [|it its IH]; intros st; simpl; [done|].
  rewrite IH. unfold invalidate_item. by destruct (Handle st it).
Qed.

Lemma Handle_invalidate_items its st it : Handle (invalidate_items its st) it = Handle st it.
Proof.
  revert st. induction its as [|it' its IH]; intros st; simpl; [done|].
  by rewrite IH, Handle_invalidate.
Qed.

(** A handle that none of the items carries is left alone. *)
Lemma handles_invalidate_items_other its st h :
  (∀ it, it ∈ its → Handle st it ≠ Some h) →
  st_handles (invalidate_items its st) !! h = st_handles st !! h.
Proof.
  revert st. induction its as [|it' its IH]; intros st Hno; simpl; [done|].
  rewrite IH.
  - rewrite handles_invalidate. rewrite decide_False; [done|]. apply Hno. set_solver.
  - intros it Hit. rewrite Handle_invalidate. apply Hno. set_solver.
Qed.

(** The handle that one of the items carries ends up invalidated. *)
Lemma handles_invalidate_items_in its st it h o :
  it ∈ its → Handle st it = Some h → st_handles st !! h = Some o →
  ∃ o', st_handles (invalidate_items its st) !! h = Some o' ∧ IsInvalidated o' = true.
Proof.
  revert st o.
  assert (∀ its st h o, st_handles st !! h = Some o → IsInvalidated o = true →
    ∃ o', st_handles (invalidate_items its st) !! h = Some o' ∧ IsInvalidated o' = true) as Hkeep.
  { clear. intros its. induction its as [|it its IH]; intros st h o Ho Hinv; simpl; [eauto|].
    destruct (decide (Handle st it = Some h)) as [E|E].
    - apply (IH _ _ (Invalidate o)); [|by destruct o].
      by rewrite handles_invalidate, decide_True, Ho.
    - apply (IH _ _ o); [|done]. by rewrite handles_invalidate, decide_False. }
  induction its as [|it' its IH]; intros st o Hit Hh Ho; simpl; [set_solver|].
  apply elem_of_cons in Hit as [<-|Hit].
  - apply (Hkeep _ _ _ (Invalidate o)); [|by destruct o].
    by rewrite handles_invalidate, decide_True, Ho.
  - destruct (decide (Handle st it' = Some h)) as [E|E].
    + apply (Hkeep _ _ _ (Invalidate o)); [|by destruct o].
      by rewrite handles_invalidate, decide_True, Ho.
    + apply (IH _ o); [done|by rewrite Handle_invalidate|].
      by rewrite handles_invalidate, decide_False.
Qed.

Lemma store_wf_invalidate_items its st : store_wf st → store_wf (invalidate_items its st).
Proof.
  revert st. induction its as [|it its IH]; intros st H; simpl; [done|].
  by apply IH, store_wf_invalidate.
Qed.

Lemma store_local_invalidate_items its its' st :
  (∀ it, it ∈ its' → it ∈ its) → store_local its st (invalidate_items its' st).
Proof.
  revert st. induction its' as [|it its' IH]; intros st Hsub; simpl; [apply store_local_refl|].
  eapply store_local_trans; [apply store_local_invalidate|apply IH]; set_solver.
Qed.

#[export] Hint Resolve store_wf_invalidate_items store_local_invalidate_items : store.
#[export] Hint Resolve store_wf_update store_wf_invalidate store_wf_opaque store_wf_publish
  store_local_refl store_local_update store_local_invalidate store_local_publish
  store_local_opaque : store.
