(* ===== verification/Ordering.v ===== *)
(** * Ordering policies

    [framework/plugins/flowcontrol/ordering]: FCFS, EDF and SLO-deadline. A
    policy is its [Less] comparison, its type name and the queue capabilities it
    requires. Instants are nanoseconds since the epoch on one clock; durations
    are [int64] nanoseconds and are kept at that width. Header names and values
    are taken to be ASCII. *)

From stdpp Require Import prelude gmap strings list.
From Stdlib Require Import Ascii.
From S2P Require Import Prelude FlowTypes.

Inductive QueueCapability := CapabilityFIFO | CapabilityPriorityConfigurable.

#[export] Instance capability_eq_dec : EqDecision QueueCapability.
Proof. solve_decision. Defined.

(** The interface [OrderingPolicy]; nil items are [None]. *)
Record OrderingPolicy := mkOrderingPolicy {
  op_Type : string;
  op_Less : option QueueItem → option QueueItem → bool;
  op_RequiredQueueCapabilities : list QueueCapability
}.

(** The comparison of two queued (non-nil) items. *)
Definition less (p : OrderingPolicy) (a b : QueueItem) : bool := op_Less p (Some a) (Some b).

(** ** What a comparison must satisfy

    [Less] orders requests by strict priority: a strict weak order. A queue
    whose items have pairwise distinct priorities sees a total order. *)
Class StrictWeakOrder {A} (lt : A → A → bool) : Prop := {
  swo_irrefl : ∀ a, lt a a = false;
  swo_trans : ∀ a b c, lt a b = true → lt b c = true → lt a c = true;
  swo_split : ∀ a b c, lt a c = true → lt a b = true ∨ lt b c = true
}.

Section swo.
Context {A} (lt : A → A → bool) `{!StrictWeakOrder lt}.

(** [ge a b]: [a] is dispatched no later than [b]. *)
Definition ge (a b : A) : Prop := lt b a = false.

Lemma ge_refl a : ge a a.
Proof. apply swo_irrefl. Qed.

Lemma ge_trans a b c : ge a b → ge b c → ge a c.
Proof.
  unfold ge. intros Hab Hbc. destruct (lt c a) eqn:Hca; [|done].
  destruct (swo_split c b a Hca); congruence.
Qed.

Lemma lt_ge a b : lt a b = true → ge a b.
Proof.
  intros Hab. unfold ge. destruct (lt b a) eqn:Hba; [|done].
  pose proof (swo_trans _ _ _ Hab Hba) as Haa. by rewrite swo_irrefl in Haa.
Qed.

Lemma ge_total a b : ge a b ∨ ge b a.
Proof. unfold ge. destruct (lt b a) eqn:Hba; [|by left]. right. by apply lt_ge. Qed.

Lemma lt_ge_trans a b c : lt a b = true → ge b c → lt a c = true.
Proof. intros Hab Hbc. destruct (swo_split a c b Hab); [done|]. unfold ge in Hbc. congruence. Qed.
End swo.

(** Reversing a strict weak order gives one: the two halves of the max-min heap
    are mirror images of each other. *)
#[export] Instance swo_flip {A} (lt : A → A → bool) :
  StrictWeakOrder lt → StrictWeakOrder (λ a b, lt b a).
Proof.
  intros [Hi Ht Hs]. split; [done| |].
  - intros a b c Hab Hbc. by apply (Ht c b a).
  - intros a b c Hca. destruct (Hs c b a Hca); auto.
Qed.

(** Comparing by a sequence of integer keys. *)
Definition lex_lt (a b : Z * Z) : bool :=
  if bool_decide (a.1 = b.1) then bool_decide (a.2 < b.2)%Z else bool_decide (a.1 < b.1)%Z.

Lemma lex_lt_spec a b :
  lex_lt a b = true ↔ (a.1 < b.1)%Z ∨ (a.1 = b.1 ∧ (a.2 < b.2)%Z).
Proof.
  unfold lex_lt. case_bool_decide; rewrite bool_decide_eq_true; naive_solver lia.
Qed.

Lemma lex_lt_swo {A} (key : A → Z * Z) : StrictWeakOrder (λ a b, lex_lt (key a) (key b)).
Proof.
  split.
  - intros a. apply not_true_iff_false. rewrite lex_lt_spec. lia.
  - intros a b c. rewrite !lex_lt_spec. lia.
  - intros a b c. rewrite !lex_lt_spec. lia.
Qed.

(** The nil checks that all three policies start with: a nil item has the
    lowest priority. *)
Definition less_nil (lt : QueueItem → QueueItem → bool) (a b : option QueueItem) : bool :=
  match a, b with
  | None, _ => false
  | Some _, None => true
  | Some a, Some b => lt a b
  end.

Lemma less_nil_swo lt : StrictWeakOrder lt → StrictWeakOrder (less_nil lt).
Proof.
  intros [Hi Ht Hs]. split.
  - intros [a|]; simpl; auto.
  - intros [a|] [b|] [c|]; simpl; eauto; done.
  - intros [a|] [b|] [c|]; simpl; eauto; done.
Qed.

(** ** First come, first served: [ordering/fcfs/fcfs.go] *)
Module fcfs.

Definition Less (a b : option QueueItem) : bool :=
  less_nil (λ a b, bool_decide (qi_EnqueueTime a < qi_EnqueueTime b)%Z) a b.

Definition policy : OrderingPolicy :=
  mkOrderingPolicy "fcfs-ordering-policy" Less [].

End fcfs.

(** ** Earliest deadline first: [ordering/edf/edf.go] *)
Module edf.

(** [time.Unix(0, 1<<63-1)]. *)
Definition maxDeadlineTime : Z := 2 ^ 63 - 1.

Definition calculateDeadline (item : QueueItem) : Z :=
  let ttl := qi_EffectiveTTL item in
  if bool_decide (ttl ≤ 0)%Z then maxDeadlineTime
  else (qi_EnqueueTime item + ttl)%Z.

Definition Less (a b : option QueueItem) : bool :=
  less_nil (λ a b,
    let deadlineA := calculateDeadline a in
    let deadlineB := calculateDeadline b in
    if bool_decide (deadlineA ≠ deadlineB) then bool_decide (deadlineA < deadlineB)%Z
    else bool_decide (qi_EnqueueTime a < qi_EnqueueTime b)%Z) a b.

Definition policy : OrderingPolicy :=
  mkOrderingPolicy "edf-ordering-policy" Less [CapabilityPriorityConfigurable].

End edf.

(** ** SLO deadline: [ordering/slodeadline/slo_deadline.go] *)
Module slodeadline.

Definition sloMaxDeadlineTime : Z := 2 ^ 63 - 1.
Definition sloTtftHeader : string := "x-slo-ttft-ms".
Definition Millisecond : Z := 1000000.

(** [strings.ToLower] on ASCII. *)
Definition lower_ascii (c : ascii) : ascii :=
  let n := nat_of_ascii c in
  if bool_decide (65 ≤ n ≤ 90)%nat then ascii_of_nat (n + 32) else c.

Fixpoint ToLower (s : string) : string :=
  match s with EmptyString => EmptyString | String c s' => String (lower_ascii c) (ToLower s') end.

(** [request.GetHeader]: exact match first, then the first key, in iteration
    order, that matches case-insensitively; the empty string when there is none. *)
Definition GetHeader (headers : list (string * string)) (key : string) : string :=
  match list_find (λ kv, kv.1 = key) headers with
  | Some (_, kv) => kv.2
  | None =>
      let lower := ToLower key in
      match list_find (λ kv, ToLower kv.1 = lower) headers with
      | Some (_, kv) => kv.2
      | None => EmptyString
      end
  end.

(** [strings.TrimSpace] on ASCII. *)
Definition is_space (c : ascii) : bool :=
  let n := nat_of_ascii c in bool_decide (n = 32 ∨ 9 ≤ n ≤ 13)%nat.

Fixpoint drop_spaces (l : list ascii) : list ascii :=
  match l with c :: l' => if is_space c then drop_spaces l' else l | [] => [] end.

Definition TrimSpace (s : string) : list ascii :=
  rev (drop_spaces (rev (drop_spaces (String.list_ascii_of_string s)))).

Definition digit (c : ascii) : option Z :=
  let n := nat_of_ascii c in
  if bool_decide (48 ≤ n ≤ 57)%nat then Some (Z.of_nat (n - 48)) else None.

Fixpoint parse_digits (acc : Z) (l : list ascii) : option Z :=
  match l with
  | [] => Some acc
  | c :: l' => d ← digit c; parse_digits (10 * acc + d) l'
  end.

(** [strconv.ParseInt(s, 10, 64)]; [None] is a non-nil error. *)
Definition ParseInt (l : list ascii) : option Z :=
  let '(neg, ds) :=
    match l with
    | c :: l' => if bool_decide (c = "+"%char) then (false, l')
                 else if bool_decide (c = "-"%char) then (true, l') else (false, l)
    | [] => (false, [])
    end in
  match ds with
  | [] => None
  | _ =>
      un ← parse_digits 0 ds;
      if neg then (if bool_decide (un ≤ Int.two63)%Z then Some (- un)%Z else None)
      else (if bool_decide (un < Int.two63)%Z then Some un else None)
  end.

Definition calculateSLODeadline (item : QueueItem) : Z :=
  let req := qi_OriginalRequest item in
  match fr_Headers req with
  | None => sloMaxDeadlineTime
  | Some hs =>
      let sloTtft := GetHeader hs sloTtftHeader in
      if bool_decide (sloTtft = EmptyString) then sloMaxDeadlineTime
      else
        match ParseInt (TrimSpace sloTtft) with
        | None => sloMaxDeadlineTime
        | Some ms =>
            if bool_decide (ms < 0)%Z then sloMaxDeadlineTime
            else (fr_ReceivedTimestamp req + Int.i64 (ms * Millisecond))%Z
        end
  end.

Definition Less (a b : option QueueItem) : bool :=
  less_nil (λ a b,
    let deadlineA := calculateSLODeadline a in
    let deadlineB := calculateSLODeadline b in
    if bool_decide (deadlineA ≠ deadlineB) then bool_decide (deadlineA < deadlineB)%Z
    else bool_decide (fr_ReceivedTimestamp (qi_OriginalRequest a)
                      < fr_ReceivedTimestamp (qi_OriginalRequest b))%Z) a b.

Definition policy : OrderingPolicy :=
  mkOrderingPolicy "slo-deadline-ordering-policy" Less [CapabilityPriorityConfigurable].

End slodeadline.

(** ** The policies are strict weak orders *)

Lemma less_nil_ext lt lt' : (∀ a b, lt a b = lt' a b) → ∀ a b, less_nil lt a b = less_nil lt' a b.
Proof. intros H [a|] [b|]; simpl; auto. Qed.

Lemma swo_ext {A} (lt lt' : A → A → bool) :
  (∀ a b, lt a b = lt' a b) → StrictWeakOrder lt → StrictWeakOrder lt'.
Proof. intros He [Hi Ht Hs]. split; setoid_rewrite <- He; eauto. Qed.

(** The priority key of each policy. *)
Definition fcfs_key (it : QueueItem) : Z * Z := (qi_EnqueueTime it, 0%Z).
Definition edf_key (it : QueueItem) : Z * Z := (edf.calculateDeadline it, qi_EnqueueTime it).
Definition slo_key (it : QueueItem) : Z * Z :=
  (slodeadline.calculateSLODeadline it, fr_ReceivedTimestamp (qi_OriginalRequest it)).

Ltac solve_key :=
  intros; apply less_nil_ext; intros; unfold lex_lt; simpl;
  repeat case_bool_decide; try done; lia.

Lemma fcfs_less_key a b : fcfs.Less a b = less_nil (λ a b, lex_lt (fcfs_key a) (fcfs_key b)) a b.
Proof. solve_key. Qed.

Lemma edf_less_key a b : edf.Less a b = less_nil (λ a b, lex_lt (edf_key a) (edf_key b)) a b.
Proof. solve_key. Qed.

Lemma slo_less_key a b : slodeadline.Less a b = less_nil (λ a b, lex_lt (slo_key a) (slo_key b)) a b.
Proof. solve_key. Qed.

Inductive builtin_policy : OrderingPolicy → Prop :=
  | builtin_fcfs : builtin_policy fcfs.policy
  | builtin_edf : builtin_policy edf.policy
  | builtin_slo : builtin_policy slodeadline.policy.

Lemma builtin_policy_swo p : builtin_policy p → StrictWeakOrder (op_Less p).
Proof.
  destruct 1; simpl.
  - eapply swo_ext; [intros; symmetry; apply fcfs_less_key|]. apply less_nil_swo, lex_lt_swo.
  - eapply swo_ext; [intros; symmetry; apply edf_less_key|]. apply less_nil_swo, lex_lt_swo.
  - eapply swo_ext; [intros; symmetry; apply slo_less_key|]. apply less_nil_swo, lex_lt_swo.
Qed.

Lemma policy_less_swo p : StrictWeakOrder (op_Less p) → StrictWeakOrder (less p).
Proof. intros [Hi Ht Hs]. split; unfold less; eauto. Qed.

Lemma key_less (key : QueueItem → Z * Z) a b :
  less_nil (λ a b, lex_lt (key a) (key b)) (Some a) (Some b) = true ↔
  ((key a).1 < (key b).1 ∨ (key a).1 = (key b).1 ∧ (key a).2 < (key b).2)%Z.
Proof. simpl. apply lex_lt_spec. Qed.

(** The built-in ordering policies are strict weak orders, also on nil items, and
    order requests as documented: first come first served by enqueue time, earliest
    deadline first by deadline and then enqueue time, the SLO policy by SLO deadline
    and then time of receipt. *)
Theorem builtin_policies_order :
  (∀ p, builtin_policy p → StrictWeakOrder (op_Less p)) ∧
  ∀ a b,
    (less fcfs.policy a b = true ↔ qi_EnqueueTime a < qi_EnqueueTime b)%Z ∧
    (less edf.policy a b = true ↔
       edf.calculateDeadline a < edf.calculateDeadline b ∨
       edf.calculateDeadline a = edf.calculateDeadline b ∧ qi_EnqueueTime a < qi_EnqueueTime b)%Z ∧
    (less slodeadline.policy a b = true ↔
       slodeadline.calculateSLODeadline a < slodeadline.calculateSLODeadline b ∨
       slodeadline.calculateSLODeadline a = slodeadline.calculateSLODeadline b ∧
       fr_ReceivedTimestamp (qi_OriginalRequest a) < fr_ReceivedTimestamp (qi_OriginalRequest b))%Z.
Proof.
  split; [apply builtin_policy_swo|]. intros a b. unfold less. split_and!.
  - change (op_Less fcfs.policy) with fcfs.Less. rewrite fcfs_less_key, key_less. simpl. lia.
  - change (op_Less edf.policy) with edf.Less. by rewrite edf_less_key, key_less.
  - change (op_Less slodeadline.policy) with slodeadline.Less. by rewrite slo_less_key, key_less.
Qed.

(** The SLO deadline of a request with a very large time-to-first-token header
    overflows: the largest value that the header parser accepts, meant as
    practically no deadline, gives a deadline one millisecond before the request was
    received, ahead of every request with a real objective. *)
Theorem slo_deadline_overflows (received : Z) (ptr : positive) (key : FlowKey) (size : Z) (id : string) :
  slodeadline.calculateSLODeadline (mkItem ptr 0 0
    (mkRequest key size (Some [("x-slo-ttft-ms"%string, "9223372036854775807"%string)]) received 0 id))
  = (received - 1000000)%Z.
Proof. reflexivity. Qed.
