(* ===== verification/Fairness.v ===== *)
(** * Fairness policies: which flow of a priority band is served next

    [framework/plugins/flowcontrol/fairness]: the greedy policy [globalStrict] and
    the round-robin policy. A policy sees a band through the interface
    [PriorityBandAccessor]; the order in which the accessor enumerates queues and
    keys is Go's map order, so it is part of the value here and every theorem holds
    for every order. *)

From stdpp Require Import prelude gmap strings list sorting.
From Stdlib Require Import Lia.
From S2P Require Import Prelude FlowTypes Ordering.

(** ** The interfaces: [interface/flowcontrol/queue.go], [priority_band.go] *)

Record FlowQueueAccessor := mkFlowQueueAccessor {
  fqa_Name : string;
  fqa_Capabilities : list QueueCapability;
  fqa_PeekHead : option QueueItem;
  fqa_PeekTail : option QueueItem;
  fqa_Len : Z;
  fqa_ByteSize : Z;
  fqa_OrderingPolicy : OrderingPolicy;
  fqa_FlowKey : FlowKey
}.

(** The state objects that the policies keep per band. *)
Inductive PolicyState :=
  | NoState
  | roundRobinCursor (lastSelected : option FlowKey).

Record PriorityBandAccessor := mkPriorityBandAccessor {
  pba_Priority : Z;
  pba_PolicyState : PolicyState;
  pba_FlowKeys : list FlowKey;
  pba_Queue : string → option FlowQueueAccessor;
  pba_IterateQueues : list FlowQueueAccessor
}.

(** The outcome of [Pick]: a queue, nil, or an error; and the state it leaves. *)
Abbreviation PickResult := ((option FlowQueueAccessor + GoError) * PolicyState)%type.

Record FairnessPolicy := mkFairnessPolicy {
  fp_Type : string;
  fp_NewState : PolicyState;
  fp_Pick : PriorityBandAccessor → PickResult
}.

(** ** Greedy across flows: [globalstrict/global_strict.go] *)
Module globalstrict.

(** The iteration over the queues; [best] is [bestQueue] with [bestItem]. *)
Fixpoint iterate (queues : list FlowQueueAccessor) (best : option (FlowQueueAccessor * QueueItem))
    : option FlowQueueAccessor + GoError :=
  match queues with
  | [] => inl (fst <$> best)
  | queue :: rest =>
      if bool_decide (fqa_Len queue = 0)%Z then iterate rest best
      else
        match fqa_PeekHead queue with
        | None => iterate rest best
        | Some item =>
            match best with
            | None => iterate rest (Some (queue, item))
            | Some (bestQueue, bestItem) =>
                if bool_decide (op_Type (fqa_OrderingPolicy queue)
                                ≠ op_Type (fqa_OrderingPolicy bestQueue))
                then inr (EWrap [ESentinel ErrIncompatiblePriorityType])
                else if less (fqa_OrderingPolicy bestQueue) item bestItem
                then iterate rest (Some (queue, item))
                else iterate rest best
            end
        end
  end.

Definition Pick (flowGroup : PriorityBandAccessor) : PickResult :=
  (iterate (pba_IterateQueues flowGroup) None, pba_PolicyState flowGroup).

Definition policy : FairnessPolicy :=
  mkFairnessPolicy "global-strict-fairness-policy" NoState Pick.

End globalstrict.

(** ** Round robin: [roundrobin/roundrobin.go] *)
Module roundrobin.

(** [slices.SortFunc(keys, FlowKey.Compare)]. *)
Definition key_le (a b : FlowKey) : Prop := (FlowKey_Compare a b ≤ 0)%Z.

#[export] Instance key_le_dec a b : Decision (key_le a b).
Proof. unfold key_le. apply _. Defined.

Definition sort_keys (keys : list FlowKey) : list FlowKey := merge_sort key_le keys.

(** [slices.Index]; [None] is [-1]. *)
Definition index_of (keys : list FlowKey) (k : FlowKey) : option nat :=
  fst <$> list_find (λ x, x = k) keys.

Definition startIndex (keys : list FlowKey) (lastSelected : option FlowKey) : nat :=
  match lastSelected with
  | None => 0
  | Some k =>
      match index_of keys k with
      | Some idx => (idx + 1) `mod` length keys
      | None => 0
      end
  end.

(** The loop over [range numFlows]; [i] counts up to [numFlows]. *)
Fixpoint scan_flows (flowGroup : PriorityBandAccessor) (keys : list FlowKey) (start n i : nat)
    : option (FlowKey * FlowQueueAccessor) :=
  match n with
  | O => None
  | S n' =>
      match keys !! ((start + i) `mod` length keys) with
      | None => None
      | Some currentKey =>
          match pba_Queue flowGroup (fk_ID currentKey) with
          | Some queue =>
              if bool_decide (0 < fqa_Len queue)%Z then Some (currentKey, queue)
              else scan_flows flowGroup keys start n' (S i)
          | None => scan_flows flowGroup keys start n' (S i)
          end
      end
  end.

Definition Pick (flowGroup : PriorityBandAccessor) : PickResult :=
  match pba_PolicyState flowGroup with
  | NoState => (inr (ENew "invalid state type for RoundRobin policy"), NoState)
  | roundRobinCursor lastSelected =>
      if bool_decide (length (pba_FlowKeys flowGroup) = 0)
      then (inl None, roundRobinCursor None)
      else
        let keys := sort_keys (pba_FlowKeys flowGroup) in
        let start := startIndex keys lastSelected in
        match scan_flows flowGroup keys start (length keys) 0 with
        | Some (currentKey, queue) => (inl (Some queue), roundRobinCursor (Some currentKey))
        | None => (inl None, roundRobinCursor None)
        end
  end.

Definition policy : FairnessPolicy :=
  mkFairnessPolicy "round-robin-fairness-policy" (roundRobinCursor None) Pick.

End roundrobin.

(** ** [globalStrict] picks the queue with the best head *)

(** A queue that takes part in the comparison: it reports a length and a head. *)
Definition candidate (q : FlowQueueAccessor) (it : QueueItem) : Prop :=
  fqa_Len q ≠ 0%Z ∧ fqa_PeekHead q = Some it.

Section global_strict.
Context (pol : OrderingPolicy) `{Hswo : !StrictWeakOrder (less pol)}.

(** [best] is a candidate of [qs] that no candidate of [qs] beats; with no [best],
    [qs] has no candidate. *)
Definition best_of (qs : list FlowQueueAccessor) (best : option (FlowQueueAccessor * QueueItem)) : Prop :=
  match best with
  | None => ∀ q it, q ∈ qs → ¬ candidate q it
  | Some (bq, bit) => bq ∈ qs ∧ candidate bq bit ∧
      ∀ q it, q ∈ qs → candidate q it → less pol it bit = false
  end.

Lemma best_of_skip qs best q :
  best_of qs best → (∀ it, ¬ candidate q it) → best_of (qs ++ [q]) best.
Proof using Hswo.
  intros Hb Hq. destruct best as [[bq bit]|]; simpl in *.
  - destruct Hb as (Hin & Hc & Hmax). split_and!; [set_solver|done|].
    intros q' it [?| ->%list_elem_of_singleton]%elem_of_app Hc'; [eauto|by edestruct Hq].
  - intros q' it [?| ->%list_elem_of_singleton]%elem_of_app; [by apply Hb|apply Hq].
Qed.

Lemma best_of_step qs best q it :
  best_of qs best → candidate q it →
  best_of (qs ++ [q]) (match best with
    | Some (bq, bit) => if less pol it bit then Some (q, it) else best
    | None => Some (q, it) end).
Proof using Hswo.
  intros Hb Hc. assert (∀ it', candidate q it' → it' = it) as Huniq
    by (intros it' [_ H']; destruct Hc as [_ H]; congruence).
  destruct best as [[bq bit]|]; simpl in *.
  2:{ split_and!; [set_solver|done|].
      intros q' it' [Hq'| ->%list_elem_of_singleton]%elem_of_app Hc'; [by destruct (Hb q' it')|].
      rewrite (Huniq it' Hc'). apply swo_irrefl. }
  destruct Hb as (Hin & Hcb & Hmax). destruct (less pol it bit) eqn:Hlt.
  - split_and!; [set_solver|done|].
    intros q' it' [Hq'| ->%list_elem_of_singleton]%elem_of_app Hc'.
    + apply not_true_iff_false. intros Hlt'. specialize (Hmax q' it' Hq' Hc').
      by rewrite (swo_trans it' it bit Hlt' Hlt) in Hmax.
    + rewrite (Huniq it' Hc'). apply swo_irrefl.
  - split_and!; [set_solver|done|].
    intros q' it' [Hq'| ->%list_elem_of_singleton]%elem_of_app Hc'; [by apply (Hmax q')|].
    by rewrite (Huniq it' Hc').
Qed.

Lemma iterate_spec qs : ∀ pre best,
  (∀ q, q ∈ pre ++ qs → fqa_OrderingPolicy q = pol) → best_of pre best →
  ∃ r, globalstrict.iterate qs best = inl (fst <$> r) ∧ best_of (pre ++ qs) r.
Proof using Hswo.
  induction qs as [|q qs IH]; intros pre best Hpol Hb; simpl.
  { exists best. by rewrite app_nil_r. }
  assert (fqa_OrderingPolicy q = pol) as Hq by (apply Hpol; set_solver).
  assert (∀ best', best_of (pre ++ [q]) best' →
    ∃ r, globalstrict.iterate qs best' = inl (fst <$> r) ∧ best_of (pre ++ q :: qs) r) as Hnext.
  { intros best' Hb'. destruct (IH (pre ++ [q]) best') as (r & Hr & Hbr).
    - intros q' Hq'. apply Hpol. by rewrite <- (assoc_L (++)) in Hq'.
    - done.
    - exists r. split; [done|]. by rewrite <- (assoc_L (++)) in Hbr. }
  case_bool_decide as Hlen; [apply Hnext, best_of_skip; [done|by intros it [? _]]|].
  destruct (fqa_PeekHead q) as [it|] eqn:Hhead;
    [|apply Hnext, best_of_skip; [done|intros it [_ ?]; congruence]].
  assert (candidate q it) as Hc by done. pose proof (best_of_step pre best q it Hb Hc) as Hstep.
  destruct best as [[bq bit]|]; [|by apply Hnext].
  assert (fqa_OrderingPolicy bq = pol) as Hbq by (apply Hpol; destruct Hb; set_solver).
  rewrite Hq, Hbq, bool_decide_eq_false_2 by auto.
  destruct (less pol it bit); by apply Hnext.
Qed.
End global_strict.

(** When all flows of a band use one ordering policy that is a strict weak order,
    the global strict policy never fails; it picks a non-empty queue whose head no
    head of another non-empty queue beats, and picks nothing only when every queue is
    empty, in whatever order the queues are enumerated. *)
Theorem globalStrict_picks_best (pol : OrderingPolicy) (b : PriorityBandAccessor)
    (Hpol : StrictWeakOrder (less pol))
    (Hsame : ∀ q, q ∈ pba_IterateQueues b → fqa_OrderingPolicy q = pol) :
  match (globalstrict.Pick b).1 with
  | inl (Some q) => q ∈ pba_IterateQueues b ∧ ∃ it, candidate q it ∧
      ∀ q' it', q' ∈ pba_IterateQueues b → candidate q' it' → less pol it' it = false
  | inl None => ∀ q it, q ∈ pba_IterateQueues b → ¬ candidate q it
  | inr _ => False
  end.
Proof.
  destruct (iterate_spec pol (pba_IterateQueues b) [] None) as (r & Hr & Hb);
    [done|by intros ?? []%elem_of_nil|].
  cbn. rewrite Hr. destruct r as [[q it]|]; simpl in *; [|done].
  destruct Hb as (Hin & Hc & Hmax). eauto.
Qed.

(** ** Round robin *)

Lemma string_le_spec a b : (a ≤ b)%string ↔ (strings_Compare a b ≤ 0)%Z.
Proof.
  unfold String.le, String.leb, strings_Compare. destruct (String.compare a b); simpl; naive_solver lia.
Qed.

Lemma key_le_spec a b :
  roundrobin.key_le a b ↔
  (fk_Priority b < fk_Priority a)%Z ∨
  (fk_Priority a = fk_Priority b ∧ (fk_ID a ≤ fk_ID b)%string).
Proof.
  unfold roundrobin.key_le, FlowKey_Compare.
  case_bool_decide; [naive_solver lia|]. case_bool_decide; [naive_solver lia|].
  rewrite string_le_spec. naive_solver lia.
Qed.

#[export] Instance key_le_trans : Transitive roundrobin.key_le.
Proof.
  intros a b c. rewrite !key_le_spec. intros [?|[? Hab]] [?|[? Hbc]]; [left; lia..|].
  right. split; [lia|]. by etransitivity.
Qed.

#[export] Instance key_le_total : Total roundrobin.key_le.
Proof.
  intros a b. rewrite !key_le_spec. pose proof (total String.le (fk_ID a) (fk_ID b)).
  destruct (Z.lt_total (fk_Priority a) (fk_Priority b)) as [|[|]]; naive_solver.
Qed.

#[export] Instance key_le_antisymm : AntiSymm (=) roundrobin.key_le.
Proof.
  intros [i p] [i' p']. rewrite !key_le_spec. simpl. intros [?|[E H1]] [?|[E2 H2]]; [lia..|]. subst p.
  f_equal. by apply (anti_symm String.le).
Qed.

Lemma sort_keys_Permutation keys : roundrobin.sort_keys keys ≡ₚ keys.
Proof. apply merge_sort_Permutation. Qed.

(** The order in which the accessor lists the keys does not matter. *)
Lemma sort_keys_unique keys keys' :
  keys ≡ₚ keys' → roundrobin.sort_keys keys = roundrobin.sort_keys keys'.
Proof.
  intros HP. apply (StronglySorted_unique roundrobin.key_le).
  - apply StronglySorted_merge_sort; apply _.
  - apply StronglySorted_merge_sort; apply _.
  - by rewrite !sort_keys_Permutation.
Qed.

(** The flow can be served: its queue exists and reports items. *)
Definition serviceable (b : PriorityBandAccessor) (k : FlowKey) : Prop :=
  ∃ q, pba_Queue b (fk_ID k) = Some q ∧ (0 < fqa_Len q)%Z.

Definition with_state (b : PriorityBandAccessor) (s : PolicyState) : PriorityBandAccessor :=
  mkPriorityBandAccessor (pba_Priority b) s (pba_FlowKeys b) (pba_Queue b) (pba_IterateQueues b).

(** Successive picks on successive snapshots of a band; the state object is shared. *)
Fixpoint pick_run (s : PolicyState) (bands : list PriorityBandAccessor) : list PickResult :=
  match bands with
  | [] => []
  | b :: bands' => let r := roundrobin.Pick (with_state b s) in r :: pick_run r.2 bands'
  end.

Section round_robin.
Context (b : PriorityBandAccessor) (keys : list FlowKey).

Lemma scan_flows_spec start n : ∀ i,
  0 < length keys →
  match roundrobin.scan_flows b keys start n i with
  | Some (k, q) => ∃ j, i ≤ j < i + n ∧ keys !! ((start + j) `mod` length keys) = Some k ∧
      pba_Queue b (fk_ID k) = Some q ∧ (0 < fqa_Len q)%Z ∧
      ∀ j' k', i ≤ j' < j → keys !! ((start + j') `mod` length keys) = Some k' → ¬ serviceable b k'
  | None => ∀ j k', i ≤ j < i + n → keys !! ((start + j) `mod` length keys) = Some k' →
      ¬ serviceable b k'
  end.
Proof using Type.
  induction n as [|n IH]; intros i Hlen; simpl; [intros; lia|].
  destruct (lookup_lt_is_Some_2 keys ((start + i) `mod` length keys)) as [k Hk];
    [apply Nat.mod_upper_bound; lia|].
  rewrite Hk. specialize (IH (S i) Hlen).
  assert (¬ serviceable b k →
    match roundrobin.scan_flows b keys start n (S i) with
    | Some (k, q) => ∃ j, i ≤ j < i + S n ∧ keys !! ((start + j) `mod` length keys) = Some k ∧
        pba_Queue b (fk_ID k) = Some q ∧ (0 < fqa_Len q)%Z ∧
        ∀ j' k', i ≤ j' < j → keys !! ((start + j') `mod` length keys) = Some k' → ¬ serviceable b k'
    | None => ∀ j k', i ≤ j < i + S n → keys !! ((start + j) `mod` length keys) = Some k' →
        ¬ serviceable b k'
    end) as Hskip.
  { intros Hno. destruct (roundrobin.scan_flows b keys start n (S i)) as [[k' q]|].
    - destruct IH as (j & Hj & Hkj & Hq & Hl & Hbef). exists j. split_and!; auto; [lia..|].
      intros j' k'' Hj' Hk''. destruct (decide (j' = i)) as [->|]; [|apply (Hbef j'); auto; lia].
      congruence.
    - intros j k' Hj Hk'. destruct (decide (j = i)) as [->|]; [|apply (IH j); auto; lia].
      congruence. }
  destruct (pba_Queue b (fk_ID k)) as [q|] eqn:Hq;
    [|apply Hskip; intros (q & ? & ?); congruence].
  case_bool_decide as Hl; [|apply Hskip; intros (q' & ? & ?); simplify_eq; lia].
  exists i. split_and!; auto; [lia..|]. intros; lia.
Qed.

(** Every key is at some distance from every position. *)
Lemma rotation_offset k start :
  k ∈ keys → start < length keys →
  ∃ d, d < length keys ∧ keys !! ((start + d) `mod` length keys) = Some k.
Proof using Type.
  intros [x Hx]%list_elem_of_lookup Hs. pose proof (lookup_lt_Some _ _ _ Hx) as Hlt.
  destruct (decide (start ≤ x)).
  - exists (x - start). split; [lia|]. rewrite Nat.mod_small by lia. by replace (start + (x - start)) with x by lia.
  - exists (x + length keys - start). split; [lia|].
    replace (start + (x + length keys - start)) with (x + 1 * length keys) by lia.
    rewrite Nat.Div0.mod_add, Nat.mod_small by lia. done.
Qed.

Lemma startIndex_next k x :
  NoDup keys → keys !! x = Some k →
  roundrobin.startIndex keys (Some k) = (x + 1) `mod` length keys.
Proof using Type.
  intros Hnd Hx. simpl. unfold roundrobin.index_of.
  destruct (list_find_elem_of (λ y, y = k) keys k) as [[y z] Hf];
    [by eapply list_elem_of_lookup_2|done|].
  rewrite Hf. simpl. apply list_find_Some in Hf as (Hy & -> & _).
  by rewrite (NoDup_lookup keys x y k).
Qed.

Lemma startIndex_lt last : 0 < length keys → roundrobin.startIndex keys last < length keys.
Proof using Type.
  intros. unfold roundrobin.startIndex. destruct last as [k|]; [|done].
  destruct (roundrobin.index_of keys k); [|done]. apply Nat.mod_upper_bound. lia.
Qed.
End round_robin.

Lemma scan_flows_state b s keys start n : ∀ i,
  roundrobin.scan_flows (with_state b s) keys start n i = roundrobin.scan_flows b keys start n i.
Proof. induction n as [|n IH]; intros i; simpl; [done|]. by rewrite !IH. Qed.

(** One pick, when [k] is at distance [d] from the cursor and can be served: either
    [k] is picked, or its distance decreases. *)
Lemma rr_pick_progress b keys last k d :
  NoDup keys → pba_FlowKeys b ≡ₚ keys → serviceable b k →
  d < length keys →
  roundrobin.sort_keys keys !! ((roundrobin.startIndex (roundrobin.sort_keys keys) last + d)
    `mod` length keys) = Some k →
  (∃ q, pba_Queue b (fk_ID k) = Some q ∧
     roundrobin.Pick (with_state b (roundRobinCursor last)) =
     (inl (Some q), roundRobinCursor (Some k))) ∨
  (∃ q k' d', roundrobin.Pick (with_state b (roundRobinCursor last)) =
     (inl (Some q), roundRobinCursor (Some k')) ∧ d' < d ∧
     roundrobin.sort_keys keys !! ((roundrobin.startIndex (roundrobin.sort_keys keys) (Some k') + d')
       `mod` length keys) = Some k).
Proof.
  intros Hnd HP Hserv Hd Hk. unfold roundrobin.Pick. cbn [pba_PolicyState with_state pba_FlowKeys].
  pose proof (Permutation_length HP) as Hlen.
  rewrite bool_decide_eq_false_2 by lia. rewrite (sort_keys_unique _ _ HP).
  set (sk := roundrobin.sort_keys keys) in *. set (start := roundrobin.startIndex sk last) in *.
  assert (sk ≡ₚ keys) as HPs by apply sort_keys_Permutation.
  pose proof (Permutation_length HPs) as Hls. rewrite <- Hls in *.
  assert (NoDup sk) as Hnds by by rewrite HPs.
  pose proof (scan_flows_spec b sk start (length sk) 0 ltac:(lia)) as Hscan.
  rewrite scan_flows_state.
  destruct (roundrobin.scan_flows b sk start (length sk) 0) as [[k' q]|].
  2:{ exfalso. by apply (Hscan d k); [lia|..]. }
  destruct Hscan as (j & Hj & Hkj & Hq & Hl & Hbef).
  assert (j ≤ d) as Hjd.
  { destruct (decide (j ≤ d)); [done|]. exfalso. by apply (Hbef d k); [lia|..]. }
  destruct (decide (j = d)) as [->|Hne]; [left; exists q; by simplify_eq|].
  right. exists q, k', (d - j - 1). split_and!; [done|lia|].
  rewrite (startIndex_next sk k' ((start + j) `mod` length sk)) by done.
  rewrite Nat.Div0.add_mod_idemp_l, <- Nat.add_assoc, Nat.Div0.add_mod_idemp_l.
  by replace (start + j + (1 + (d - j - 1))) with (start + d) by lia.
Qed.

Lemma rr_serves_within d : ∀ keys last k bands,
  NoDup keys → d < length bands → d < length keys →
  (∀ b, b ∈ bands → pba_FlowKeys b ≡ₚ keys ∧ serviceable b k) →
  roundrobin.sort_keys keys !! ((roundrobin.startIndex (roundrobin.sort_keys keys) last + d)
    `mod` length keys) = Some k →
  ∃ i b q, bands !! i = Some b ∧ pba_Queue b (fk_ID k) = Some q ∧
    pick_run (roundRobinCursor last) bands !! i = Some (inl (Some q), roundRobinCursor (Some k)).
Proof.
  induction d as [d IH] using lt_wf_ind. intros keys last k bands Hnd Hdb Hdk Hb Hk.
  destruct bands as [|b bands]; [simpl in Hdb; lia|]. simpl in Hdb.
  destruct (Hb b) as [HP Hserv]; [set_solver|].
  destruct (rr_pick_progress b keys last k d Hnd HP Hserv Hdk Hk)
    as [(q & Hq & Hpick)|(q & k' & d' & Hpick & Hd' & Hk')].
  - exists 0, b, q. cbn [pick_run lookup list_lookup]. rewrite Hpick. done.
  - destruct (IH d' Hd' keys (Some k') k bands) as (i & b' & q' & Hi & Hq' & Hr);
      [done|lia|lia|set_solver|done|].
    exists (S i), b', q'. split_and!; [done..|]. cbn [pick_run]. rewrite Hpick. exact Hr.
Qed.

(** Round robin does not starve a flow: over as many consecutive picks as the
    band has flows, a flow whose queue stays non-empty is picked at least once,
    whatever the cursor, the other queues and the enumeration order do meanwhile. *)
Theorem roundRobin_no_starvation (keys : list FlowKey) (last : option FlowKey) (k : FlowKey)
    (bands : list PriorityBandAccessor)
    (Hnd : NoDup keys) (Hk : k ∈ keys) (Hlen : length keys ≤ length bands)
    (Hbands : ∀ b, b ∈ bands → pba_FlowKeys b ≡ₚ keys ∧ serviceable b k) :
  ∃ i b q, bands !! i = Some b ∧ pba_Queue b (fk_ID k) = Some q ∧
    pick_run (roundRobinCursor last) bands !! i = Some (inl (Some q), roundRobinCursor (Some k)).
Proof.
  assert (length (roundrobin.sort_keys keys) = length keys) as Hls
    by (apply Permutation_length, sort_keys_Permutation).
  assert (0 < length keys) by (destruct keys; [by apply elem_of_nil in Hk|simpl; lia]).
  destruct (rotation_offset (roundrobin.sort_keys keys) k
    (roundrobin.startIndex (roundrobin.sort_keys keys) last)) as (d & Hd & Hdk).
  - by rewrite sort_keys_Permutation.
  - apply startIndex_lt. lia.
  - rewrite Hls in Hd, Hdk. by apply (rr_serves_within d keys); [done|lia|..].
Qed.

(** A round-robin pick selects nothing exactly when no flow can be served; a selected
    queue is non-empty and belongs to a flow of the band. *)
Lemma roundRobin_pick_complete (b : PriorityBandAccessor) (last : option FlowKey) :
  pba_PolicyState b = roundRobinCursor last →
  match roundrobin.Pick b with
  | (inl (Some q), roundRobinCursor (Some k)) =>
      k ∈ pba_FlowKeys b ∧ pba_Queue b (fk_ID k) = Some q ∧ (0 < fqa_Len q)%Z
  | (inl None, roundRobinCursor None) => ∀ k, k ∈ pba_FlowKeys b → ¬ serviceable b k
  | _ => False
  end.
Proof.
  intros Hstate. unfold roundrobin.Pick. rewrite Hstate. case_bool_decide as H0.
  { apply length_zero_iff_nil in H0. rewrite H0. by intros k ?%elem_of_nil. }
  set (sk := roundrobin.sort_keys (pba_FlowKeys b)).
  assert (sk ≡ₚ pba_FlowKeys b) as HPs by apply sort_keys_Permutation.
  pose proof (Permutation_length HPs) as Hls.
  pose proof (scan_flows_spec b sk (roundrobin.startIndex sk last) (length sk) 0 ltac:(lia)) as Hscan.
  destruct (roundrobin.scan_flows b sk _ (length sk) 0) as [[k q]|].
  - destruct Hscan as (j & _ & Hk & Hq & Hl & _). split_and!; [|done..].
    rewrite <- HPs. by eapply list_elem_of_lookup_2.
  - intros k Hk. rewrite <- HPs in Hk.
    destruct (rotation_offset sk k (roundrobin.startIndex sk last)) as (d & Hd & Hdk);
      [done|apply startIndex_lt; lia|]. apply (Hscan d k); [lia|done].
Qed.

(** ** A concrete band *)

Definition sample_queue (id : string) (n t : Z) : FlowQueueAccessor :=
  let it := mkItem 1 t 0 (mkRequest (mkFlowKey id 0) 1 None 0 0 "req") in
  mkFlowQueueAccessor "ListQueue" [CapabilityFIFO]
    (if bool_decide (n = 0)%Z then None else Some it) None n 1 fcfs.policy (mkFlowKey id 0).

Definition sample_band (s : PolicyState) : PriorityBandAccessor :=
  let qs := [sample_queue "b" 2 7; sample_queue "a" 1 5; sample_queue "c" 0 0] in
  mkPriorityBandAccessor 0 s (fqa_FlowKey <$> qs)
    (λ id, list_find (λ q, fk_ID (fqa_FlowKey q) = id) qs ≫= λ x, Some x.2) qs.

Lemma globalStrict_picks_best_witness :
  match (globalstrict.Pick (sample_band NoState)).1 with
  | inl (Some q) => fqa_FlowKey q = mkFlowKey "a" 0
  | _ => False
  end ∧
  match (globalstrict.Pick (sample_band NoState)).1 with
  | inl (Some q) => q ∈ pba_IterateQueues (sample_band NoState) ∧ ∃ it, candidate q it ∧
      ∀ q' it', q' ∈ pba_IterateQueues (sample_band NoState) → candidate q' it' →
        less fcfs.policy it' it = false
  | inl None => ∀ q it, q ∈ pba_IterateQueues (sample_band NoState) → ¬ candidate q it
  | inr _ => False
  end.
Proof.
  split; [vm_compute; reflexivity|].
  apply (globalStrict_picks_best fcfs.policy (sample_band NoState)).
  - apply policy_less_swo, builtin_policy_swo. constructor.
  - intros q Hq. repeat (apply elem_of_cons in Hq as [->|Hq]; [reflexivity|]). by apply elem_of_nil in Hq.
Defined.

Lemma roundRobin_no_starvation_witness :
  ∃ i b q, replicate 3 (sample_band NoState) !! i = Some b ∧ pba_Queue b "a" = Some q ∧
    pick_run (roundRobinCursor None) (replicate 3 (sample_band NoState)) !! i
    = Some (inl (Some q), roundRobinCursor (Some (mkFlowKey "a" 0))).
Proof.
  apply (roundRobin_no_starvation [mkFlowKey "b" 0; mkFlowKey "a" 0; mkFlowKey "c" 0] None
    (mkFlowKey "a" 0)).
  - apply (bool_decide_unpack _). vm_compute. exact I.
  - apply (bool_decide_unpack _). vm_compute. exact I.
  - simpl. lia.
  - intros b Hb. apply elem_of_replicate in Hb as [-> _]. split; [reflexivity|].
    eexists. split; [reflexivity|]. simpl. lia.
Defined.

