(* ===== verification/SafeQueue.v ===== *)
(** * The queue contract: [contracts/queue.go]

    [SafeQueue] is the interface of the operations; [SafeQueueSpec] is what every
    implementation promises its clients: the queue holds a multiset of items, the
    operations act on that multiset, statistics agree with it, and an operation
    touches the handles of its own items only. [managedQueue], the shard and the
    processor are verified against this contract. *)

From stdpp Require Import prelude gmap strings list.
From S2P Require Import Prelude FlowTypes Ordering.

(** The result of [Remove]: an item or an error. *)
Abbreviation RemoveResult := (QueueItem + GoError)%type.

Class SafeQueue (Q : Type) := {
  sq_Name : Q → string;
  sq_Capabilities : Q → list QueueCapability;
  sq_Len : Q → nat;
  sq_ByteSize : Q → Z;
  sq_PeekHead : Q → option QueueItem;
  sq_PeekTail : Q → option QueueItem;
  sq_Add : QueueItem → GoM (Q * store) unit;
  sq_Remove : option positive → GoM (Q * store) RemoveResult;
  sq_Cleanup : (QueueItem → bool) → GoM (Q * store) (list QueueItem);
  sq_Drain : GoM (Q * store) (list QueueItem)
}.

#[export] Hint Mode SafeQueue ! : typeclass_instances.

(** A valid, live handle of [it] in [st]. *)
Definition live_handle (st : store) (it : QueueItem) (h : positive) : Prop :=
  Handle st it = Some h ∧ ∃ o, st_handles st !! h = Some o ∧ IsInvalidated o = false.

(** The handle that [it] carries is invalidated. *)
Definition dead_handle (st : store) (it : QueueItem) : Prop :=
  ∀ h, Handle st it = Some h → ∃ o, st_handles st !! h = Some o ∧ IsInvalidated o = true.

Class SafeQueueSpec (Q : Type) `{!SafeQueue Q} := {
  sq_contents : Q → list QueueItem;
  sq_wf : Q → store → Prop;

  sqs_frame : ∀ q st st', sq_wf q st → (st_next st ≤ st_next st')%positive →
    store_agree (sq_contents q) st st' → sq_wf q st';
  sqs_items_ok : ∀ q st, sq_wf q st → Forall item_ok (sq_contents q);
  sqs_nodup : ∀ q st, sq_wf q st → NoDup (ptrs (sq_contents q));
  sqs_live : ∀ q st it, sq_wf q st → it ∈ sq_contents q → ∃ h, live_handle st it h;

  sqs_len : ∀ q st, sq_wf q st → sq_Len q = length (sq_contents q);
  sqs_bytes : ∀ q st, sq_wf q st → sq_ByteSize q = Int.u64 (total_bytes (sq_contents q));
  sqs_head_empty : ∀ q st, sq_wf q st → sq_PeekHead q = None ↔ sq_contents q = [];
  sqs_head_in : ∀ q st it, sq_wf q st → sq_PeekHead q = Some it → it ∈ sq_contents q;
  sqs_tail_empty : ∀ q st, sq_wf q st → sq_PeekTail q = None ↔ sq_contents q = [];
  sqs_tail_in : ∀ q st it, sq_wf q st → sq_PeekTail q = Some it → it ∈ sq_contents q;

  sqs_add : ∀ q st it, sq_wf q st → store_wf st → item_ok it →
    qi_ptr it ∉ ptrs (sq_contents q) →
    wp (sq_Add it) (λ _ '(q', st'),
      sq_wf q' st' ∧ store_wf st' ∧ sq_contents q' ≡ₚ it :: sq_contents q ∧
      store_local (it :: sq_contents q) st st') (q, st);

  sqs_remove : ∀ q st it h, sq_wf q st → store_wf st →
    it ∈ sq_contents q → Handle st it = Some h →
    wp (sq_Remove (Some h)) (λ r '(q', st'),
      r = inl it ∧ sq_wf q' st' ∧ store_wf st' ∧ sq_contents q ≡ₚ it :: sq_contents q' ∧
      dead_handle st' it ∧ store_local (sq_contents q) st st') (q, st);

  sqs_remove_invalid : ∀ (q : Q) st oh,
    (∀ h, oh = Some h → ∃ o, st_handles st !! h = Some o ∧ IsInvalidated o = true) →
    sq_Remove oh (q, st) = Some (inr (ESentinel ErrInvalidQueueItemHandle), (q, st));

  sqs_cleanup : ∀ q st p, sq_wf q st → store_wf st →
    wp (sq_Cleanup p) (λ removed '(q', st'),
      sq_wf q' st' ∧ store_wf st' ∧
      removed = List.filter p (sq_contents q) ∧
      sq_contents q' ≡ₚ List.filter (λ it, negb (p it)) (sq_contents q) ∧
      Forall (dead_handle st') removed ∧
      store_local (sq_contents q) st st') (q, st);

  sqs_drain : ∀ q st, sq_wf q st → store_wf st →
    wp (sq_Drain) (λ removed '(q', st'),
      sq_wf q' st' ∧ store_wf st' ∧
      removed = sq_contents q ∧ sq_contents q' = [] ∧
      Forall (dead_handle st') removed ∧
      store_local (sq_contents q) st st') (q, st)
}.

#[export] Hint Mode SafeQueueSpec ! - : typeclass_instances.
