(* ===== verification/ListQueue.v ===== *)
(** * The list queue: [framework/plugins/queue/listqueue.go]

    A FIFO over [container/list]. The list is the sequence of its elements, each
    an address and the item stored in it; [list.PushBack], [list.Remove] and
    [list.Init] act on that sequence as their documentation says. The mutex makes
    each operation atomic. *)

From stdpp Require Import prelude gmap strings list.
From S2P Require Import Prelude FlowTypes Ordering SafeQueue.

Record listQueue := mkListQueue {
  lq_self : positive;                              (* the address of the queue *)
  lq_requests : list (positive * QueueItem);       (* container/list *)
  lq_byteSize : Z                                  (* atomic.Uint64 *)
}.

Definition newListQueue (self : positive) : listQueue := mkListQueue self [] 0.

Section ops.
Abbreviation LM := (GoM (listQueue * store)).

Definition on_queue (f : listQueue → listQueue) : LM unit := modify (λ '(q, st), (f q, st)).
Definition on_store (f : store → store) : LM unit := modify (λ '(q, st), (q, f st)).

Definition PushBack (item : QueueItem) : LM positive :=
  λ '(q, st), let '(e, st') := alloc_opaque st in
    Some (e, (mkListQueue (lq_self q) (lq_requests q ++ [(e, item)]) (lq_byteSize q), st')).

(** [list.Remove(e)]: removes [e] if it is an element of the list. *)
Definition list_Remove (e : positive) (l : list (positive * QueueItem)) :=
  List.filter (λ x, negb (bool_decide (x.1 = e))) l.

Definition sub_bytes (item : QueueItem) (q : listQueue) : listQueue :=
  mkListQueue (lq_self q) (lq_requests q) (Int.u64_atomic_sub (lq_byteSize q) (qi_ByteSize item)).

Definition remove_element (e : positive) (q : listQueue) : listQueue :=
  mkListQueue (lq_self q) (list_Remove e (lq_requests q)) (lq_byteSize q).

Definition Add (item : QueueItem) : LM unit :=
  element ← PushBack item;
  _ ← on_queue (λ q, mkListQueue (lq_self q) (lq_requests q)
                        (Int.u64 (lq_byteSize q + qi_ByteSize item)));
  modify (λ '(q, st),
    let '(h, st') := alloc_handle (listItemHandle element item (lq_self q) false) st in
    (q, SetHandle item h st')).

Definition Remove (handle : option positive) : LM RemoveResult :=
  match handle with
  | None => mret (inr (ESentinel ErrInvalidQueueItemHandle))
  | Some h =>
      o ← getsome (λ '(q, st), st_handles st !! h);
      if IsInvalidated o then mret (inr (ESentinel ErrInvalidQueueItemHandle))
      else
        match o with
        | heapItem _ _ _ => mret (inr (ESentinel ErrInvalidQueueItemHandle))
        | listItemHandle element item owner _ =>
            self ← gets (λ '(q, st), lq_self q);
            if bool_decide (owner ≠ self) then mret (inr (ESentinel ErrQueueItemNotFound))
            else
              _ ← on_queue (remove_element element);
              _ ← on_queue (sub_bytes item);
              _ ← on_store (update_handle Invalidate h);
              mret (inl item)
        end
  end.

(** The loop of [Cleanup]; [next] is read before the body runs, so the loop
    visits the elements that were in the list when it started. *)
Fixpoint cleanup_loop (predicate : QueueItem → bool) (es : list (positive * QueueItem))
    (removedItems : list QueueItem) : LM (list QueueItem) :=
  match es with
  | [] => mret removedItems
  | (e, item) :: next =>
      if predicate item then
        _ ← on_queue (remove_element e);
        _ ← on_queue (sub_bytes item);
        _ ← on_store (invalidate_item item);
        cleanup_loop predicate next (removedItems ++ [item])
      else cleanup_loop predicate next removedItems
  end.

Definition Cleanup (predicate : QueueItem → bool) : LM (list QueueItem) :=
  es ← gets (λ '(q, st), lq_requests q);
  cleanup_loop predicate es [].

Fixpoint drain_loop (es : list (positive * QueueItem)) (removedItems : list QueueItem)
    : LM (list QueueItem) :=
  match es with
  | [] => mret removedItems
  | (_, item) :: next =>
      _ ← on_store (invalidate_item item);
      drain_loop next (removedItems ++ [item])
  end.

Definition Drain : LM (list QueueItem) :=
  es ← gets (λ '(q, st), lq_requests q);
  removedItems ← drain_loop es [];
  _ ← on_queue (λ q, mkListQueue (lq_self q) [] 0);
  mret removedItems.

Definition Len (q : listQueue) : nat := length (lq_requests q).
Definition ByteSize (q : listQueue) : Z := lq_byteSize q.
Definition PeekHead (q : listQueue) : option QueueItem := snd <$> head (lq_requests q).
Definition PeekTail (q : listQueue) : option QueueItem := snd <$> last (lq_requests q).
Definition Name (q : listQueue) : string := "ListQueue".
Definition Capabilities (q : listQueue) : list QueueCapability := [CapabilityFIFO].
End ops.

#[export] Instance listQueue_SafeQueue : SafeQueue listQueue := {|
  sq_Name := Name;
  sq_Capabilities := Capabilities;
  sq_Len := Len;
  sq_ByteSize := ByteSize;
  sq_PeekHead := PeekHead;
  sq_PeekTail := PeekTail;
  sq_Add := Add;
  sq_Remove := Remove;
  sq_Cleanup := Cleanup;
  sq_Drain := Drain
|}.

(** ** Invariant

    Each element's item carries a live handle that points back to the element
    and to this queue; element addresses and items are distinct; the byte counter
    is the sum of the items' sizes modulo [2^64]. *)

Definition lq_contents (q : listQueue) : list QueueItem := (lq_requests q).*2.

Record lq_wf (q : listQueue) (st : store) : Prop := {
  lqw_ok : Forall item_ok (lq_contents q);
  lqw_nodup : NoDup (ptrs (lq_contents q));
  lqw_elems : NoDup (lq_requests q).*1;
  lqw_fresh : ∀ e it, (e, it) ∈ lq_requests q → (e < st_next st)%positive;
  lqw_handle : ∀ e it, (e, it) ∈ lq_requests q → ∃ h,
    Handle st it = Some h ∧
    st_handles st !! h = Some (listItemHandle e it (lq_self q) false);
  lqw_bytes : lq_byteSize q = Int.u64 (total_bytes (lq_contents q))
}.

(** ** Effect of each operation *)

Lemma list_Remove_app (l1 l2 : list (positive * QueueItem)) e it :
  NoDup (l1 ++ (e, it) :: l2).*1 → list_Remove e (l1 ++ (e, it) :: l2) = l1 ++ l2.
Proof.
  unfold list_Remove. rewrite fmap_app, fmap_cons, NoDup_app. simpl.
  intros (_ & H1 & H2). apply NoDup_cons in H2 as [H2 _].
  assert (∀ l, e ∉ l.*1 → List.filter (λ x : positive * QueueItem, negb (bool_decide (x.1 = e))) l = l)
    as Hid.
  { clear. intros l. induction l as [|[e' x] l IH]; intros Hno; simpl; [done|].
    rewrite bool_decide_eq_false_2 by set_solver. simpl. rewrite IH by set_solver. done. }
  rewrite List.filter_app. simpl. rewrite bool_decide_eq_true_2 by done. simpl.
  rewrite !Hid; [done|done|]. intros Hin. apply (H1 e Hin). set_solver.
Qed.

Lemma Add_run it q st :
  Add it (q, st) =
  Some (tt, (mkListQueue (lq_self q) (lq_requests q ++ [(st_next st, it)])
               (Int.u64 (lq_byteSize q + qi_ByteSize it)),
             publish it (listItemHandle (st_next st) it (lq_self q) false) (alloc_opaque st).2)).
Proof. done. Qed.

Lemma Remove_run q st e it h :
  st_handles st !! h = Some (listItemHandle e it (lq_self q) false) →
  Remove (Some h) (q, st) =
  Some (inl it, (sub_bytes it (remove_element e q), update_handle Invalidate h st)).
Proof.
  intros Hh. unfold Remove, mbind, gom_bind, getsome. rewrite Hh. simpl.
  unfold gets. by rewrite bool_decide_eq_false_2 by (intros []; done).
Qed.

(** The queue after the items satisfying [p] have been unlinked. *)
Lemma cleanup_loop_run p es : ∀ pre acc q st,
  lq_requests q = pre ++ es → NoDup (lq_requests q).*1 →
  Forall item_ok es.*2 → Int.u64 (lq_byteSize q) = lq_byteSize q →
  cleanup_loop p es acc (q, st) =
  Some (acc ++ List.filter p es.*2,
        (mkListQueue (lq_self q) (pre ++ List.filter (λ x, negb (p x.2)) es)
           (Int.u64 (lq_byteSize q - total_bytes (List.filter p es.*2))),
         invalidate_items (List.filter p es.*2) st)).
Proof.
  induction es as [|[e it] es IH]; intros pre acc q st Hq Hnd Hok Hb.
  - simpl. rewrite Z.sub_0_r, Hb, !app_nil_r in *. destruct q; simpl in *; by subst.
  - rewrite fmap_cons in *. apply Forall_cons in Hok as [Hit Hok]. csimpl in *.
    destruct (p it) eqn:Hp.
    + unfold mbind, gom_bind, on_queue, on_store, modify. cbv beta iota.
      assert (list_Remove e (lq_requests q) = pre ++ es) as Hrem
        by (rewrite Hq; apply list_Remove_app; by rewrite <- Hq).
      rewrite (IH pre); csimpl; [|done| |done|apply Int.u64_u64].
      * rewrite <- (assoc_L (++)). do 4 f_equal.
        rewrite Int.u64_atomic_sub_eq by done. unfold Z.sub. rewrite Int.u64_add_l.
        f_equal. lia.
      * rewrite Hrem, fmap_app. rewrite Hq, fmap_app, fmap_cons in Hnd.
        apply NoDup_app in Hnd as (H1 & H2 & H3). apply NoDup_cons in H3 as [_ H3].
        apply NoDup_app. split_and!; [done| |done]. set_solver.
    + rewrite (IH (pre ++ [(e, it)])); [|by rewrite Hq, <- (assoc_L (++))|done..].
      by rewrite <- (assoc_L (++)).
Qed.

Lemma drain_loop_run es : ∀ acc q st,
  drain_loop es acc (q, st) = Some (acc ++ es.*2, (q, invalidate_items es.*2 st)).
Proof.
  induction es as [|[e it] es IH]; intros acc q st; simpl; [by rewrite app_nil_r|].
  unfold mbind, gom_bind, on_store, modify. rewrite IH. by rewrite <- (assoc_L (++)).
Qed.

Lemma Drain_run q st :
  Drain (q, st) = Some (lq_contents q, (mkListQueue (lq_self q) [] 0,
                                        invalidate_items (lq_contents q) st)).
Proof. unfold Drain, mbind, gom_bind, gets. rewrite drain_loop_run. done. Qed.

(** ** The list queue meets the queue contract *)

Lemma lq_elem_contents q it : it ∈ lq_contents q ↔ ∃ e, (e, it) ∈ lq_requests q.
Proof.
  unfold lq_contents. rewrite list_elem_of_fmap. split.
  - intros ([e x] & -> & Hin). eauto.
  - intros [e Hin]. by exists (e, it).
Qed.

Lemma lq_wf_frame q st st' :
  lq_wf q st → (st_next st ≤ st_next st')%positive →
  store_agree (lq_contents q) st st' → lq_wf q st'.
Proof.
  intros [Hok Hnd Hel Hfr Hh Hb] Hle Hag. split; try done.
  - intros e it Hin. specialize (Hfr e it Hin). lia.
  - intros e it Hin. destruct (Hh e it Hin) as (h & Hh1 & Hh2). exists h.
    destruct (Hag it) as [H1 H2]; [apply lq_elem_contents; eauto|].
    by rewrite H1, H2.
Qed.

Lemma lq_add_spec q st it :
  lq_wf q st → store_wf st → item_ok it → qi_ptr it ∉ ptrs (lq_contents q) →
  wp (Add it) (λ _ '(q', st'),
    lq_wf q' st' ∧ store_wf st' ∧ lq_contents q' = lq_contents q ++ [it] ∧
    store_local (it :: lq_contents q) st st') (q, st).
Proof.
  intros Hwf Hst Hit Hnew. unfold wp. rewrite Add_run.
  assert (store_local (it :: lq_contents q) st
    (publish it (listItemHandle (st_next st) it (lq_self q) false) (alloc_opaque st).2)) as Hloc.
  { eapply store_local_trans; [apply store_local_opaque|apply store_local_publish; set_solver]. }
  assert (lq_contents (mkListQueue (lq_self q) (lq_requests q ++ [(st_next st, it)])
           (Int.u64 (lq_byteSize q + qi_ByteSize it))) = lq_contents q ++ [it]) as Hc
    by (unfold lq_contents; simpl; by rewrite fmap_app).
  destruct Hwf as [Hok Hnd Hel Hfr Hh Hb].
  split_and!; [split| |done|done]; rewrite ?Hc; simpl; auto with store.
  - apply Forall_app; auto.
  - unfold ptrs in *. rewrite fmap_app, NoDup_app. simpl. set_solver by apply NoDup_singleton.
  - rewrite fmap_app, NoDup_app. simpl. split_and!; [done| |apply NoDup_singleton].
    intros e Hin%list_elem_of_fmap. destruct Hin as ([e' x] & -> & Hin).
    apply Hfr in Hin. rewrite list_elem_of_singleton. simpl. lia.
  - intros e x. rewrite elem_of_app, list_elem_of_singleton. intros [Hin|[= -> ->]]; [|lia].
    apply Hfr in Hin. lia.
  - intros e x. rewrite elem_of_app, list_elem_of_singleton. intros [Hin|[= -> ->]].
    + destruct (Hh e x Hin) as (h & Hh1 & Hh2). exists h. unfold Handle in *. simpl.
      assert (qi_ptr it ≠ qi_ptr x).
      { intros E. apply Hnew. rewrite E. apply elem_of_ptrs, lq_elem_contents. eauto. }
      pose proof (swf_handleOf _ Hst _ _ Hh1).
      rewrite !lookup_insert_ne by (done || lia). done.
    + exists (Pos.succ (st_next st)). unfold Handle. simpl. by rewrite !lookup_insert_eq.
  - rewrite total_bytes_app, Hb, Int.u64_add_l. simpl. f_equal. lia.
  - by apply store_wf_publish, (store_wf_opaque st).
Qed.

(** Unlinking one element keeps the rest of the queue well formed. *)
Lemma lq_unlink_wf q st e it h l1 l2 :
  lq_wf q st → lq_requests q = l1 ++ (e, it) :: l2 →
  Handle st it = Some h → store_wf st →
  lq_wf (sub_bytes it (remove_element e q)) (update_handle Invalidate h st) ∧
  lq_requests (sub_bytes it (remove_element e q)) = l1 ++ l2.
Proof.
  intros [Hok Hnd Hel Hfr Hh Hb] Hq Hhit Hst.
  assert (list_Remove e (lq_requests q) = l1 ++ l2) as Hrem
    by (rewrite Hq; apply list_Remove_app; by rewrite <- Hq).
  split; [|done].
  assert (lq_contents q ≡ₚ it :: (l1 ++ l2).*2) as Hp.
  { unfold lq_contents. rewrite Hq, !fmap_app, fmap_cons. simpl. by rewrite <- Permutation_middle. }
  assert (lq_contents (sub_bytes it (remove_element e q)) = (l1 ++ l2).*2) as Hc
    by (unfold lq_contents; simpl; by rewrite Hrem).
  unfold ptrs in *. rewrite Hp in Hok, Hnd.
  apply Forall_cons in Hok as [Hit Hok]. rewrite fmap_cons in Hnd. apply NoDup_cons in Hnd as [Hn Hnd].
  split; rewrite ?Hc; simpl; rewrite ?Hrem; try done.
  - rewrite Hq in Hel. rewrite fmap_app, fmap_cons in Hel. rewrite fmap_app.
    apply NoDup_app in Hel as (H1 & H2 & H3). apply NoDup_cons in H3 as [_ H3].
    apply NoDup_app. split_and!; [done|set_solver|done].
  - intros e' x Hin. apply (Hfr e' x). rewrite Hq. set_solver.
  - intros e' x Hin. destruct (Hh e' x) as (h' & Hh1 & Hh2); [rewrite Hq; set_solver|].
    exists h'. split; [done|]. rewrite lookup_alter_ne; [done|]. intros <-.
    pose proof (swf_inj _ Hst _ _ _ Hhit Hh1) as E. apply Hn.
    rewrite list_elem_of_fmap. exists x. split; [done|]. rewrite list_elem_of_fmap. by exists (e', x).
  - rewrite Int.u64_atomic_sub_eq by done. rewrite Hb, Hp. simpl. unfold Z.sub.
    rewrite Int.u64_add_l. f_equal. lia.
Qed.

Lemma lq_remove_spec q st it h :
  lq_wf q st → store_wf st → it ∈ lq_contents q → Handle st it = Some h →
  wp (Remove (Some h)) (λ r '(q', st'),
    r = inl it ∧ lq_wf q' st' ∧ store_wf st' ∧
    (∃ l1 l2, lq_contents q = l1 ++ it :: l2 ∧ lq_contents q' = l1 ++ l2) ∧
    dead_handle st' it ∧ store_local (lq_contents q) st st') (q, st).
Proof.
  intros Hwf Hst Hin Hhit. pose proof Hin as [e Hein]%lq_elem_contents.
  destruct (lqw_handle _ _ Hwf _ _ Hein) as (h' & Hh1 & Hh2). simplify_eq.
  apply list_elem_of_split in Hein as (l1 & l2 & Hq).
  destruct (lq_unlink_wf _ _ _ _ _ _ _ Hwf Hq Hhit Hst) as [Hwf' Hq'].
  unfold wp. erewrite Remove_run by done. split_and!; auto with store.
  - exists l1.*2, l2.*2. unfold lq_contents. by rewrite Hq, Hq', !fmap_app, fmap_cons.
  - intros h' Hh'. rewrite Handle_update in Hh'. simplify_eq.
    rewrite handles_update, decide_True, Hh2 by done. simpl. eauto.
  - apply store_local_update. eauto.
Qed.

Lemma lq_requests_filter (p : QueueItem → bool) (l : list (positive * QueueItem)) :
  (List.filter (λ x, p x.2) l).*2 = List.filter p l.*2.
Proof.
  induction l as [|[e it] l IH]; [done|]. csimpl. destruct (p it); csimpl; by rewrite IH.
Qed.

Lemma ptr_inj q st it it' :
  lq_wf q st → it ∈ lq_contents q → it' ∈ lq_contents q → qi_ptr it = qi_ptr it' → it = it'.
Proof.
  intros Hwf Hin Hin' Hp. pose proof (lqw_nodup _ _ Hwf) as Hnd.
  apply list_elem_of_lookup in Hin as [i Hi]. apply list_elem_of_lookup in Hin' as [j Hj].
  assert (i = j) as ->; [|congruence].
  apply (NoDup_lookup (ptrs (lq_contents q)) i j (qi_ptr it)); [done| |];
    unfold ptrs; rewrite list_lookup_fmap; [by rewrite Hi|rewrite Hj, Hp; done].
Qed.

Lemma lq_cleanup_spec q st p :
  lq_wf q st → store_wf st →
  wp (Cleanup p) (λ removed '(q', st'),
    lq_wf q' st' ∧ store_wf st' ∧ removed = List.filter p (lq_contents q) ∧
    lq_contents q' = List.filter (λ it, negb (p it)) (lq_contents q) ∧
    Forall (dead_handle st') removed ∧ store_local (lq_contents q) st st') (q, st).
Proof.
  intros Hwf Hst. pose proof Hwf as [Hok Hnd Hel Hfr Hh Hb].
  unfold wp, Cleanup, mbind, gom_bind, gets.
  rewrite (cleanup_loop_run p (lq_requests q) []); [|done..|by rewrite Hb, Int.u64_u64].
  fold (lq_contents q). csimpl. set (rem := List.filter p (lq_contents q)).
  assert (∀ it, it ∈ rem → it ∈ lq_contents q) as Hsub
    by (intros it [? _]%filter_In_elem; done).
  assert (lq_contents (mkListQueue (lq_self q) (List.filter (λ x, negb (p x.2)) (lq_requests q))
      (Int.u64 (lq_byteSize q - total_bytes rem))) =
    List.filter (λ it, negb (p it)) (lq_contents q)) as Hc
    by (unfold lq_contents; simpl; apply (lq_requests_filter (λ it, negb (p it)))).
  split_and!; [split| |done|done| |]; rewrite ?Hc; csimpl; auto with store.
  - by apply Forall_filter_list.
  - by apply NoDup_filter_fmap.
  - by apply NoDup_filter_fmap.
  - intros e it [Hin _]%filter_In_elem. rewrite invalidate_items_next. eauto.
  - intros e it [Hin Hp]%filter_In_elem. destruct (Hh e it Hin) as (h & Hh1 & Hh2).
    exists h. rewrite Handle_invalidate_items. split; [done|].
    rewrite handles_invalidate_items_other; [done|].
    intros it' [Hin' Hp']%filter_In_elem Hh'. simpl in Hp.
    assert (it' = it) as ->; [|by rewrite Hp' in Hp].
    eapply (ptr_inj q st); [done|done| |by eapply swf_inj]. apply lq_elem_contents. eauto.
  - rewrite Hb. unfold Z.sub. rewrite Int.u64_add_l. f_equal.
    rewrite (total_bytes_filter_split p (lq_contents q)). unfold rem. lia.
  - apply Forall_forall. intros it Hin h. rewrite Handle_invalidate_items. intros Hhit.
    pose proof (Hsub it Hin) as [e He]%lq_elem_contents.
    destruct (Hh e it He) as (h' & Hh1 & Hh2). simplify_eq.
    by eapply handles_invalidate_items_in.
Qed.

Lemma lq_drain_spec q st :
  lq_wf q st → store_wf st →
  wp Drain (λ removed '(q', st'),
    lq_wf q' st' ∧ store_wf st' ∧ removed = lq_contents q ∧ lq_contents q' = [] ∧
    Forall (dead_handle st') removed ∧ store_local (lq_contents q) st st') (q, st).
Proof.
  intros Hwf Hst. pose proof Hwf as [Hok Hnd Hel Hfr Hh Hb].
  unfold wp. rewrite Drain_run. split_and!; [split| |done|done| |]; simpl; auto with store.
  - apply NoDup_nil_2.
  - apply NoDup_nil_2.
  - intros ?? []%elem_of_nil.
  - intros ?? []%elem_of_nil.
  - apply Forall_forall. intros it Hin h. rewrite Handle_invalidate_items.
    intros Hhit. pose proof Hin as [e He]%lq_elem_contents.
    destruct (Hh e it He) as (h' & Hh1 & Hh2). simplify_eq.
    by eapply handles_invalidate_items_in.
Qed.

Lemma lq_new_wf self st : lq_wf (newListQueue self) st.
Proof. split; simpl; try apply NoDup_nil_2; try done; by intros ?? []%elem_of_nil. Qed.

#[export] Program Instance listQueue_Spec : SafeQueueSpec listQueue := {|
  sq_contents := lq_contents;
  sq_wf := lq_wf
|}.
Next Obligation. intros. by eapply lq_wf_frame. Qed.
Next Obligation. intros q st Hwf. apply (lqw_ok _ _ Hwf). Qed.
Next Obligation. intros q st Hwf. apply (lqw_nodup _ _ Hwf). Qed.
Next Obligation.
  intros q st it Hwf [e He]%lq_elem_contents.
  destruct (lqw_handle _ _ Hwf _ _ He) as (h & ? & ?). exists h. split; eauto.
Qed.
Next Obligation. intros q st Hwf. unfold lq_contents. simpl. by rewrite length_fmap. Qed.
Next Obligation. intros q st Hwf. apply (lqw_bytes _ _ Hwf). Qed.
Next Obligation.
  intros q st Hwf. unfold lq_contents. simpl. unfold PeekHead.
  by destruct (lq_requests q) as [|[]].
Qed.
Next Obligation.
  intros q st it Hwf. unfold lq_contents. simpl. unfold PeekHead.
  destruct (lq_requests q) as [|[]]; simpl; [done|]. intros [= ->]. set_solver.
Qed.
Next Obligation.
  intros q st Hwf. unfold lq_contents. simpl. unfold PeekTail.
  destruct (lq_requests q) as [|x l] using rev_ind; [done|].
  rewrite last_snoc, fmap_app. simpl. split; [done|]. by destruct (snd <$> l).
Qed.
Next Obligation.
  intros q st it Hwf. unfold lq_contents. simpl. unfold PeekTail.
  destruct (lq_requests q) as [|x l] using rev_ind; [done|].
  rewrite last_snoc, fmap_app. simpl. intros [= <-]. set_solver.
Qed.
Next Obligation.
  intros q st it Hwf Hst Hit Hnew. eapply wp_mono; [by apply lq_add_spec|].
  intros [] [q' st'] (? & ? & Hc & ?). rewrite Hc. split_and!; try done.
  by rewrite Permutation_app_comm.
Qed.
Next Obligation.
  intros q st it h Hwf Hst Hit Hh. eapply wp_mono; [by apply lq_remove_spec|].
  intros r [q' st'] (-> & ? & ? & (l1 & l2 & Hc & Hc') & ? & ?). split_and!; try done.
  rewrite Hc, Hc'. by rewrite <- Permutation_middle.
Qed.
Next Obligation.
  intros q st [h|] Hinv; simpl; [|done].
  destruct (Hinv h eq_refl) as (o & Ho & Hi).
  unfold Remove, mbind, gom_bind, getsome. by rewrite Ho, Hi.
Qed.
Next Obligation.
  intros q st p Hwf Hst. eapply wp_mono; [by apply lq_cleanup_spec|].
  intros r [q' st'] (? & ? & ? & Hc & ? & ?). by rewrite Hc.
Qed.
Next Obligation. intros q st Hwf Hst. by apply lq_drain_spec. Qed.

(** ** First in, first out *)

(** Taking the head until the queue is empty, as the dispatcher does. *)
Fixpoint lq_pop_all (n : nat) : GoM (listQueue * store) (list QueueItem) :=
  match n with
  | O => mret []
  | S n' =>
      head ← gets (λ '(q, st), PeekHead q);
      match head with
      | None => mret []
      | Some it =>
          handle ← gets (λ '(q, st), Handle st it);
          _ ← Remove handle;
          rest ← lq_pop_all n';
          mret (it :: rest)
      end
  end.

Lemma lq_add_all its : ∀ q st,
  lq_wf q st → store_wf st → Forall item_ok its → NoDup (ptrs (lq_contents q ++ its)) →
  wp (for_each its Add) (λ _ '(q', st'),
    lq_wf q' st' ∧ store_wf st' ∧ lq_contents q' = lq_contents q ++ its) (q, st).
Proof.
  induction its as [|it its IH]; intros q st Hwf Hst Hok Hnd; simpl.
  { apply wp_ret. by rewrite app_nil_r. }
  inversion Hok; subst. apply wp_bind. eapply wp_mono.
  { apply lq_add_spec; try done. unfold ptrs in *. rewrite fmap_app, fmap_cons, NoDup_app in Hnd.
    destruct Hnd as (_ & Hd & _). intros Hin. apply (Hd _ Hin). set_solver. }
  intros [] [q1 st1] (Hwf1 & Hst1 & Hc1 & _). eapply wp_mono.
  { apply IH; [done..|]. by rewrite Hc1, <- (assoc_L (++)). }
  intros [] [q2 st2] (Hwf2 & Hst2 & Hc2). split_and!; try done. by rewrite Hc2, Hc1, <- (assoc_L (++)).
Qed.

Lemma lq_pop_all_spec n : ∀ q st,
  lq_wf q st → store_wf st → length (lq_contents q) = n →
  wp (lq_pop_all n) (λ out '(q', st'), out = lq_contents q ∧ lq_contents q' = []) (q, st).
Proof.
  induction n as [|n IH]; intros q st Hwf Hst Hn; simpl.
  { apply wp_ret. by apply length_zero_iff_nil in Hn as ->. }
  destruct (lq_requests q) as [|[e it] es] eqn:Hr.
  { unfold lq_contents in Hn. by rewrite Hr in Hn. }
  apply wp_bind, wp_gets. assert (PeekHead q = Some it) as -> by (unfold PeekHead; by rewrite Hr).
  assert (lq_contents q = it :: es.*2) as Hc by (unfold lq_contents; by rewrite Hr).
  destruct (lqw_handle _ _ Hwf e it) as (h & Hh & _); [rewrite Hr; set_solver|].
  apply wp_bind, wp_gets. rewrite Hh. apply wp_bind.
  eapply wp_mono; [apply (lq_remove_spec q st it h); [done..|rewrite Hc; set_solver|done]|].
  intros r [q1 st1] (_ & Hwf1 & Hst1 & (l1 & l2 & E1 & E2) & _ & _).
  assert (lq_contents q1 = es.*2) as Hc1.
  { pose proof (lqw_nodup _ _ Hwf) as Hnd. rewrite Hc in E1, Hnd. rewrite E2. destruct l1 as [|x l1].
    - by injection E1 as <-.
    - exfalso. injection E1 as <- E1. unfold ptrs in Hnd. rewrite fmap_cons in Hnd.
      apply NoDup_cons in Hnd as [Hnd _]. apply Hnd. rewrite E1, fmap_app, fmap_cons. set_solver. }
  apply wp_bind. eapply wp_mono; [apply (IH q1 st1); [done..|]|].
  { rewrite Hc1. rewrite Hc in Hn. simpl in Hn. lia. }
  intros out [q2 st2] [-> He]. apply wp_ret. split; [|done]. by rewrite Hc1, Hc.
Qed.

(** The list queue is first in, first out: requests added to a new queue leave it,
    when its head is taken repeatedly, in the order in which they were added. *)
Theorem listqueue_fifo (its : list QueueItem) (self : positive) (st : store)
    (Hst : store_wf st) (Hok : Forall item_ok its) (Hnd : NoDup (ptrs its)) :
  wp (_ ← for_each its Add; lq_pop_all (length its))
    (λ out '(q', st'), out = its ∧ lq_contents q' = []) (newListQueue self, st).
Proof.
  apply wp_bind. eapply wp_mono; [apply lq_add_all; [apply lq_new_wf|done..]|].
  intros [] [q1 st1] (Hwf1 & Hst1 & Hc1). simpl in Hc1.
  eapply wp_mono; [apply lq_pop_all_spec; [done..|by rewrite Hc1]|].
  intros out [q2 st2] [-> He]. by rewrite Hc1.
Qed.

Lemma listqueue_fifo_witness :
  let it := λ p, mkItem p 0 0 (mkRequest (mkFlowKey "flow" 0) 1 None 0 0 "req") in
  wp (_ ← for_each [it 3%positive; it 1%positive; it 2%positive] Add; lq_pop_all 3)
    (λ out '(q', st'), out = [it 3%positive; it 1%positive; it 2%positive] ∧ lq_contents q' = [])
    (newListQueue 1, store_empty).
Proof.
  intros it. apply (listqueue_fifo [it 3%positive; it 1%positive; it 2%positive] 1 store_empty).
  - apply store_wf_empty.
  - repeat constructor; vm_compute; congruence.
  - apply (bool_decide_unpack _). vm_compute. exact I.
Defined.
