(* ===== verification/ArrayHeap.v ===== *)
(** * Max-min heaps in an array

    The index arithmetic and the sift loops of
    [framework/plugins/queue/maxminheap.go] as pure functions on a list, and the
    proof that they restore the heap order. [MaxMinHeap.v] shows that the code,
    which also maintains the handle of every item it moves, computes exactly these
    functions.

    The two kinds of level are mirror images: the loops for min levels are the
    loops for max levels with the arguments of [Less] exchanged. The functions
    below therefore take the comparison [lt] as an argument, where [lt x y] reads
    "on a level of this kind, [y] belongs above [x]"; [upMin] and [downMin] are the
    instances at [less], [upMax] and [downMax] those at its converse. *)

From stdpp Require Import prelude list.
From Stdlib Require Import Lia.
From S2P Require Import Prelude Ordering.

(** ** Index arithmetic *)

(** [(i - 1) / 2]; Go's division truncates, so index 0 is its own parent. *)
Definition parent (i : nat) : nat := (i - 1) `div` 2.

(** [isMinLevel]. The code takes [int(math.Log2(float64(i + 1)))], which is the
    integer logarithm for every index below [2^47]. *)
Definition isMinLevel (i : nat) : bool := Nat.odd (Nat.log2 (i + 1)).

Section algorithm.
Context {A : Type}.
Implicit Types (lt : A → A → bool) (l : list A) (i j : nat).

(** [lt l[i] l[j]]; false when an index is out of range. *)
Definition ltAt lt l i j : bool :=
  match l !! i, l !! j with Some a, Some b => lt a b | _, _ => false end.

Definition swapl i j l : list A :=
  match l !! i, l !! j with
  | Some a, Some b => <[j := a]> (<[i := b]> l)
  | _, _ => l
  end.

(** [upMin] ([lt := less]) and [upMax] ([lt := flip less]). *)
Fixpoint bubble_up lt (fuel : nat) i l : list A :=
  match fuel with
  | O => l
  | S fuel' =>
      let parentIndex := parent i in
      if bool_decide (parentIndex = 0) then l
      else
        let grandparentIndex := parent parentIndex in
        if ltAt lt l grandparentIndex i
        then bubble_up lt fuel' grandparentIndex (swapl i grandparentIndex l)
        else l
  end.

(** [up], for a node on a level of the kind of [lt]. *)
Definition up_level lt i l : list A :=
  let parentIndex := parent i in
  if ltAt lt l i parentIndex
  then bubble_up (flip lt) (S parentIndex) parentIndex (swapl i parentIndex l)
  else bubble_up lt (S i) i l.

Definition up (less : A → A → bool) i l : list A :=
  if bool_decide (i = 0) then l
  else if isMinLevel i then up_level less i l else up_level (flip less) i l.

(** The scan of the grandchildren. *)
Fixpoint scan lt l (n j m : nat) : nat :=
  match n with
  | O => m
  | S n' =>
      if bool_decide (j < length l)
      then scan lt l n' (S j) (if ltAt lt l m j then j else m)
      else m
  end.

(** [findSmallestChildOrGrandchild] ([lt := less]) and
    [findLargestChildOrGrandchild] ([lt := flip less]); [None] is [-1]. *)
Definition find_top lt l i : option nat :=
  let leftChild := 2 * i + 1 in
  if bool_decide (length l ≤ leftChild) then None
  else
    let rightChild := 2 * i + 2 in
    let m := if bool_decide (rightChild < length l) && ltAt lt l leftChild rightChild
             then rightChild else leftChild in
    Some (scan lt l 4 (2 * leftChild + 1) m).

(** [downMin] ([lt := less]) and [downMax] ([lt := flip less]). *)
Fixpoint trickle_down lt (fuel : nat) i l : list A :=
  match fuel with
  | O => l
  | S fuel' =>
      match find_top lt l i with
      | None => l
      | Some m =>
          if ltAt lt l i m then
            let l1 := swapl i m l in
            let parentOfM := parent m in
            let l2 := if bool_decide (parentOfM ≠ i) && ltAt lt l1 m parentOfM
                      then swapl m parentOfM l1 else l1 in
            trickle_down lt fuel' m l2
          else l
      end
  end.

Definition down (less : A → A → bool) i l : list A :=
  if isMinLevel i then trickle_down less (length l) i l
  else trickle_down (flip less) (length l) i l.

(** The loop of [Cleanup] that re-establishes the heap order, from the last
    non-leaf to the root. *)
Fixpoint heapify_from less (n : nat) l : list A :=
  match n with O => l | S i => heapify_from less i (down less i l) end.

Definition heapify less l : list A := heapify_from less (length l `div` 2) l.
End algorithm.

(** ** Ancestors *)

Inductive anc : nat → nat → Prop :=
  | anc_parent j : 0 < j → anc (parent j) j
  | anc_step a j : 0 < j → anc a (parent j) → anc a j.

Lemma parent_lt j : 0 < j → parent j < j.
Proof. intros. unfold parent. apply Nat.Div0.div_lt_upper_bound. lia. Qed.

Lemma parent_spec j : 0 < j → j = 2 * parent j + 1 ∨ j = 2 * parent j + 2.
Proof. intros. unfold parent. pose proof (Nat.div_mod_eq (j - 1) 2).
  pose proof (Nat.mod_upper_bound (j - 1) 2). lia. Qed.

Lemma parent_left i : parent (2 * i + 1) = i.
Proof. destruct (parent_spec (2 * i + 1)); lia. Qed.

Lemma parent_right i : parent (2 * i + 2) = i.
Proof. destruct (parent_spec (2 * i + 2)); lia. Qed.

Lemma anc_lt a j : anc a j → a < j.
Proof. induction 1 as [j ?|a j ? ? IH]; pose proof (parent_lt j); lia. Qed.

Lemma anc_inv a j : anc a j → 0 < j ∧ (a = parent j ∨ anc a (parent j)).
Proof. destruct 1; auto. Qed.

Lemma anc_trans a b c : anc a b → anc b c → anc a c.
Proof. intros Hab. induction 1; constructor; auto. Qed.

Lemma anc_linear a b j : anc a j → anc b j → a = b ∨ anc a b ∨ anc b a.
Proof.
  induction 1 as [j Hj|a j Hj Ha IH]; intros [_ [->|Hb]]%anc_inv; auto.
Qed.

Lemma anc_root j : 0 < j → anc 0 j.
Proof.
  induction j as [j IH] using lt_wf_ind. intros Hj.
  destruct (decide (parent j = 0)) as [E|E].
  - rewrite <- E. by constructor.
  - apply anc_step; [done|]. apply IH; [by apply parent_lt|lia].
Qed.

Lemma anc_not_self a : ¬ anc a a.
Proof. intros ?%anc_lt. lia. Qed.

(** A descendant is a child, a grandchild or lies below a grandchild. *)
Lemma anc_cases i j :
  anc i j → (0 < j ∧ parent j = i) ∨
            (∃ g, 0 < g ∧ 0 < parent g ∧ parent (parent g) = i ∧ (g = j ∨ anc g j)).
Proof.
  induction 1 as [j Hj|a j Hj Ha IH]; [auto|]. right.
  destruct IH as [[Hp Hpp]|(g & Hg & Hgp & Hgg & [->|Hanc])].
  - exists j. auto.
  - exists (parent j). split_and!; auto. right. by constructor.
  - exists g. split_and!; auto. right. by apply anc_step.
Qed.

Lemma isMinLevel_parent j : 0 < j → isMinLevel j = negb (isMinLevel (parent j)).
Proof.
  intros Hj. unfold isMinLevel.
  assert (Nat.log2 (j + 1) = S (Nat.log2 (parent j + 1))) as ->.
  { destruct (parent_spec j Hj) as [E|E]; rewrite E at 1.
    - replace (2 * parent j + 1 + 1) with (2 * (parent j + 1)) by lia.
      apply Nat.log2_double. lia.
    - replace (2 * parent j + 2 + 1) with (2 * (parent j + 1) + 1) by lia.
      apply Nat.log2_succ_double. lia. }
  by rewrite Nat.odd_succ, <- Nat.negb_odd.
Qed.

Lemma isMinLevel_grandparent j : 0 < parent j → isMinLevel (parent (parent j)) = isMinLevel j.
Proof.
  intros Hj. assert (0 < j). { destruct j; [unfold parent in Hj; simpl in Hj; lia|lia]. }
  by rewrite (isMinLevel_parent j), (isMinLevel_parent (parent j)), negb_involutive by done.
Qed.

(** ** Transpositions *)

Definition tr (i j k : nat) : nat :=
  if decide (k = i) then j else if decide (k = j) then i else k.

Lemma tr_l i j : tr i j i = j.
Proof. unfold tr. by rewrite decide_True. Qed.

Lemma tr_r i j : tr i j j = i.
Proof. unfold tr. case_decide; [done|]. by rewrite decide_True. Qed.

Lemma tr_other i j k : k ≠ i → k ≠ j → tr i j k = k.
Proof. intros. unfold tr. by rewrite !decide_False. Qed.

(** Evaluate transpositions by linear arithmetic on the indices. *)
Ltac simpl_tr :=
  repeat match goal with
  | |- context [tr ?i ?j ?k] =>
      first [ rewrite (tr_other i j k) by lia
            | replace (tr i j k) with j by (replace k with i by lia; by rewrite tr_l)
            | replace (tr i j k) with i by (replace k with j by lia; by rewrite tr_r) ]
  end.

Section lists.
Context {A : Type}.
Implicit Types (lt : A → A → bool) (l : list A) (i j : nat).

Lemma length_swapl i j l : length (swapl i j l) = length l.
Proof. unfold swapl. repeat case_match; by rewrite ?length_insert. Qed.

Lemma swapl_lookup i j l k :
  i < length l → j < length l → swapl i j l !! k = l !! tr i j k.
Proof.
  intros Hi Hj. unfold swapl, tr.
  destruct (lookup_lt_is_Some_2 l i Hi) as [a Ha].
  destruct (lookup_lt_is_Some_2 l j Hj) as [b Hb]. rewrite Ha, Hb.
  rewrite list_lookup_insert. repeat case_decide; subst; rewrite ?length_insert in *;
    try naive_solver lia.
  - destruct_and?. subst. rewrite list_lookup_insert_eq by lia. done.
  - rewrite list_lookup_insert_ne by naive_solver. done.
Qed.

Lemma swapl_Permutation i j l : swapl i j l ≡ₚ l.
Proof.
  unfold swapl. destruct (l !! i) as [a|] eqn:Ha; [|done].
  destruct (l !! j) as [b|] eqn:Hb; [|done]. by apply Permutation_insert_swap.
Qed.

Lemma swapl_comm i j l : i < length l → j < length l → swapl i j l = swapl j i l.
Proof.
  intros Hi Hj. apply list_eq. intros k. rewrite !swapl_lookup by done.
  unfold tr. repeat case_decide; congruence.
Qed.

Lemma ltAt_swapl lt i j l x y :
  i < length l → j < length l →
  ltAt lt (swapl i j l) x y = ltAt lt l (tr i j x) (tr i j y).
Proof. intros Hi Hj. unfold ltAt. by rewrite !swapl_lookup by done. Qed.

Lemma ltAt_range lt l i j : ltAt lt l i j = true → i < length l ∧ j < length l.
Proof.
  unfold ltAt. repeat case_match; try done.
  intros _. split; by eapply lookup_lt_Some.
Qed.

Lemma ltAt_flip lt l i j : ltAt (flip lt) l i j = ltAt lt l j i.
Proof. unfold ltAt. by repeat case_match. Qed.

Lemma bubble_up_Permutation lt fuel : ∀ i l, bubble_up lt fuel i l ≡ₚ l.
Proof.
  induction fuel as [|fuel IH]; intros i l; simpl; [done|].
  repeat case_match; try done. by rewrite IH, swapl_Permutation.
Qed.

Lemma trickle_down_Permutation lt fuel : ∀ i l, trickle_down lt fuel i l ≡ₚ l.
Proof.
  induction fuel as [|fuel IH]; intros i l; simpl; [done|].
  destruct (find_top lt l i); [|done]. destruct (ltAt lt l i n); [|done].
  rewrite IH. case_match; by rewrite !swapl_Permutation.
Qed.

Lemma up_Permutation less i l : up less i l ≡ₚ l.
Proof.
  unfold up, up_level. repeat case_match; try done;
    by rewrite bubble_up_Permutation, ?swapl_Permutation.
Qed.

Lemma down_Permutation less i l : down less i l ≡ₚ l.
Proof. unfold down. case_match; apply trickle_down_Permutation. Qed.

Lemma heapify_from_Permutation less n : ∀ l, heapify_from less n l ≡ₚ l.
Proof. induction n as [|n IH]; intros l; simpl; [done|]. by rewrite IH, down_Permutation. Qed.
End lists.

Lemma negb_absurd (x y : bool) : x = negb y → x = y → False.
Proof. by destruct x, y. Qed.

(** ** Heap order

    [heap_rel b lt l a j]: the pair of an ancestor [a] and a descendant [j] is in
    order. On levels of kind [b] no descendant belongs above its ancestor in the
    sense of [lt]; on the other levels the converse. *)
Section order.
Context {A : Type} (lt : A → A → bool) (b : bool) `{Hswo : !StrictWeakOrder lt}.
Implicit Types (l : list A) (i j a : nat).

Definition heap_rel l a j : Prop :=
  if Bool.eqb (isMinLevel a) b then ltAt lt l a j = false else ltAt lt l j a = false.

(** All pairs are in order except those that [skip] names. *)
Definition ordered_except (skip : nat → nat → Prop) l : Prop :=
  ∀ a j, anc a j → j < length l → ¬ skip a j → heap_rel l a j.

Definition ordered l : Prop := ordered_except (λ _ _, False) l.

Lemma ltAt_trans_false l x y z :
  y < length l → ltAt lt l x y = false → ltAt lt l y z = false → ltAt lt l x z = false.
Proof using Hswo.
  intros [v Hv]%lookup_lt_is_Some_2. unfold ltAt. rewrite Hv.
  destruct (l !! x) as [vx|], (l !! z) as [vz|]; try done.
  intros Hxy Hyz. by apply (ge_trans lt vz v vx).
Qed.

Lemma ltAt_asym l x y : ltAt lt l x y = true → ltAt lt l y x = false.
Proof using Hswo.
  unfold ltAt. destruct (l !! x) as [vx|], (l !! y) as [vy|]; try done.
  intros H. by apply (lt_ge lt vx vy).
Qed.

Lemma heap_rel_same l a j :
  isMinLevel a = b → heap_rel l a j ↔ ltAt lt l a j = false.
Proof using Type. intros E. unfold heap_rel. by rewrite E, eqb_reflx. Qed.

Lemma heap_rel_other l a j :
  isMinLevel a = negb b → heap_rel l a j ↔ ltAt lt l j a = false.
Proof using Type. intros E. unfold heap_rel. rewrite E. by destruct b. Qed.

Lemma heap_rel_sym l a j : isMinLevel a = negb (isMinLevel j) → heap_rel l a j → heap_rel l j a.
Proof using Type. unfold heap_rel. intros ->. by destruct (isMinLevel j), b. Qed.

Lemma level_cases a : isMinLevel a = b ∨ isMinLevel a = negb b.
Proof using Type. destruct (isMinLevel a), b; auto. Qed.

(** An ancestor of [i] is its parent, its grandparent or above the latter. *)
Lemma anc_above a i :
  anc a i → a = parent i ∨ a = parent (parent i) ∨ anc a (parent (parent i)).
Proof using Type.
  intros [_ [?|Ha]]%anc_inv; [auto|]. apply anc_inv in Ha as [_ [?|?]]; auto.
Qed.

(** Exchanging two nodes on levels of the same kind. *)
Lemma heap_rel_swap l i g a j :
  i < length l → g < length l → isMinLevel i = isMinLevel g →
  heap_rel (swapl i g l) a j ↔ heap_rel l (tr i g a) (tr i g j).
Proof using Type.
  intros Hi Hg E. unfold heap_rel. rewrite !ltAt_swapl by done.
  assert (isMinLevel (tr i g a) = isMinLevel a) as ->; [|done].
  unfold tr. repeat case_decide; subst; congruence.
Qed.

(** One step of [bubble_up]: exchanging a node with a grandparent that it
    belongs above moves the only possible violations two levels up. *)
Definition up_skip (i a j : nat) : Prop := j = i ∧ isMinLevel a = b.

Lemma bubble_step i l (g := parent (parent i)) :
  0 < parent i → i < length l → isMinLevel i = b →
  ordered_except (up_skip i) l → ltAt lt l g i = true →
  ordered_except (up_skip g) (swapl i g l).
Proof using Hswo.
  intros Hp Hi Hlvl Hord Hlt.
  assert (0 < i) as Hi0 by (destruct i; [unfold parent in Hp; simpl in Hp; lia|lia]).
  assert (isMinLevel g = b) as Hg by (unfold g; by rewrite isMinLevel_grandparent).
  assert (anc g (parent i)) as Hgp by by constructor.
  assert (anc g i) as Hgi by by apply anc_step.
  pose proof (anc_lt _ _ Hgi) as Hgi'. assert (g < length l) as Hgl by lia.
  assert (heap_rel l i g) as Hig by (apply heap_rel_same; [done|]; by apply ltAt_asym).
  intros a j Haj Hj Hskip. rewrite length_swapl in Hj.
  apply heap_rel_swap; [done..|congruence|]. unfold tr.
  destruct (decide (j = i)) as [->|Hji].
  - pose proof (anc_lt _ _ Haj). rewrite decide_False by lia.
    destruct (anc_above _ _ Haj) as [->|[->|Hag]].
    + rewrite decide_False by (apply anc_lt in Hgp; lia).
      apply heap_rel_sym; [by rewrite (isMinLevel_parent (parent i)), negb_involutive|].
      apply Hord; [done|by apply parent_lt in Hi0; lia|]. intros [? _]. apply parent_lt in Hi0; lia.
    + by rewrite decide_True by done.
    + rewrite decide_False by (apply anc_lt in Hag; lia).
      apply Hord; [done|done|]. intros [? _]. lia.
  - destruct (decide (j = g)) as [->|Hjg].
    + pose proof (anc_lt _ _ Haj). rewrite !decide_False by lia.
      apply Hord; [by eapply anc_trans|done|]. intros [_ ?]. by apply Hskip.
    + assert (∀ a, anc a j → heap_rel l a j) as Hold
        by (intros a' Ha'; apply Hord; [done|done|by intros [? _]]).
      destruct (decide (a = i)) as [->|Hai]; [by eapply Hold, anc_trans|].
      destruct (decide (a = g)) as [->|Hag]; [|by apply Hold].
      apply heap_rel_same; [done|]. apply (ltAt_trans_false _ _ g); [done|..];
        apply heap_rel_same; auto.
Qed.

(** [bubble_up] restores the order. The fuel [S i] is enough: the index
    decreases at every step. *)
Lemma bubble_up_ordered fuel : ∀ i l,
  i < fuel → i < length l → isMinLevel i = b →
  ordered_except (up_skip i) l → ordered (bubble_up lt fuel i l).
Proof using Hswo.
  induction fuel as [|fuel IH]; intros i l Hf Hi Hlvl Hord; [lia|]. simpl.
  case_bool_decide as Hp0.
  - intros a j Haj Hj _. apply Hord; [done|done|]. intros [-> Ha].
    destruct (anc_inv _ _ Haj) as [Hi0 [->|Hbad]].
    + rewrite isMinLevel_parent in Hlvl by done. rewrite Ha in Hlvl. by destruct b.
    + rewrite Hp0 in Hbad. apply anc_lt in Hbad. lia.
  - assert (0 < i) as Hi0 by (destruct i; [done|lia]).
    pose proof (parent_lt i Hi0). pose proof (parent_lt (parent i)).
    destruct (ltAt lt l (parent (parent i)) i) eqn:Hlt.
    + apply IH; [lia|rewrite length_swapl; lia|rewrite isMinLevel_grandparent by lia; done|].
      apply bubble_step; [lia|done..].
    + intros a j Haj Hj _. destruct (level_cases a) as [Ha|Ha].
      2:{ apply Hord; [done|done|]. intros [_ ?]. by eapply negb_absurd. }
      destruct (decide (j = i)) as [->|Hji].
      2:{ apply Hord; [done|done|]. by intros [? _]. }
      apply heap_rel_same; [done|]. destruct (anc_above _ _ Haj) as [->|[->|Hag]]; [|done|].
      * rewrite isMinLevel_parent in Hlvl by done. rewrite Ha in Hlvl. by destruct b.
      * apply (ltAt_trans_false _ _ (parent (parent i))); [lia| |done].
        apply heap_rel_same; [done|]. apply Hord; [done|lia|]. intros [? _]. lia.
Qed.
End order.

(** Exchanging the comparison and the kinds of level gives the same order. *)
Lemma heap_rel_flip {A} (lt : A → A → bool) b l a j :
  heap_rel (flip lt) (negb b) l a j ↔ heap_rel lt b l a j.
Proof. unfold heap_rel. rewrite !ltAt_flip. by destruct (isMinLevel a), b. Qed.

Lemma ordered_except_flip {A} (lt : A → A → bool) b skip l :
  ordered_except (flip lt) (negb b) skip l ↔ ordered_except lt b skip l.
Proof. unfold ordered_except. by setoid_rewrite heap_rel_flip. Qed.

#[export] Instance swo_flip' {A} (lt : A → A → bool) :
  StrictWeakOrder lt → StrictWeakOrder (flip lt).
Proof. apply swo_flip. Qed.

Section push.
Context {A : Type} (lt : A → A → bool) (b : bool) `{Hswo : !StrictWeakOrder lt}.
Implicit Types (l : list A) (i j a : nat).

(** Exchanging a new leaf with a parent that it must not stay below. *)
Lemma leaf_swap i l :
  0 < i → length l = S i → isMinLevel i = b →
  ordered_except lt b (λ _ j, j = i) l → ltAt lt l i (parent i) = true →
  ordered_except (flip lt) (negb b) (up_skip (negb b) (parent i)) (swapl i (parent i) l).
Proof using Hswo.
  intros Hi Hlen Hlvl Hord Hlt.
  assert (isMinLevel (parent i) = negb b) as Hp
    by (rewrite <- Hlvl, (isMinLevel_parent i), negb_involutive; done).
  pose proof (parent_lt i Hi) as Hpi.
  pose proof (ltAt_asym lt _ _ _ Hlt) as Hlt'.
  apply ordered_except_flip. intros a j Haj Hj Hskip. rewrite length_swapl in Hj.
  pose proof (anc_lt _ _ Haj) as Hlt_aj.
  assert (∀ a, anc a (parent i) → heap_rel lt b l a (parent i)) as Hap
    by (intros; apply Hord; [done|lia|simpl; lia]).
  destruct (decide (j = i)) as [->|Hji].
  - destruct (anc_inv _ _ Haj) as [_ [->|Hap']].
    + apply heap_rel_other; [done|]. rewrite ltAt_swapl by lia. simpl_tr. done.
    + pose proof (anc_lt _ _ Hap'). unfold heap_rel. rewrite !ltAt_swapl by lia. simpl_tr. by apply Hap.
  - destruct (decide (j = parent i)) as [->|Hjp].
    + assert (isMinLevel a = b) as Ha.
      { destruct (level_cases b a) as [|Ha]; [done|]. destruct Hskip. by split. }
      apply heap_rel_same; [done|]. rewrite ltAt_swapl by lia. simpl_tr.
      apply (ltAt_trans_false lt _ _ (parent i)); [lia| |done]. apply heap_rel_same with b; auto.
    + assert (heap_rel lt b l a j) as Hold by (apply Hord; [done|lia|done]).
      destruct (decide (a = parent i)) as [->|Hap'].
      * apply heap_rel_other; [done|]. apply heap_rel_other in Hold; [|done].
        rewrite ltAt_swapl by lia. simpl_tr.
        by apply (ltAt_trans_false lt _ _ (parent i)); [lia|..].
      * unfold heap_rel. rewrite !ltAt_swapl by lia. simpl_tr. done.
Qed.

Lemma leaf_keep i l :
  0 < i → length l = S i → isMinLevel i = b →
  ordered_except lt b (λ _ j, j = i) l → ltAt lt l i (parent i) = false →
  ordered_except lt b (up_skip b i) l.
Proof using Hswo.
  intros Hi Hlen Hlvl Hord Hlt a j Haj Hj Hskip.
  destruct (decide (j = i)) as [->|Hji]; [|by apply Hord].
  destruct (level_cases b a) as [|Ha]; [by destruct Hskip|].
  apply heap_rel_other; [done|]. destruct (anc_inv _ _ Haj) as [_ [->|Hap]]; [done|].
  pose proof (parent_lt i Hi).
  apply (ltAt_trans_false lt _ _ (parent i)); [lia|done|].
  apply heap_rel_other with b; [done|]. apply Hord; [done|lia|simpl; lia].
Qed.

Lemma up_level_ordered i l :
  0 < i → length l = S i → isMinLevel i = b →
  ordered_except lt b (λ _ j, j = i) l → ordered lt b (up_level lt i l).
Proof using Hswo.
  intros Hi Hlen Hlvl Hord. unfold up_level. pose proof (parent_lt i Hi).
  destruct (ltAt lt l i (parent i)) eqn:Hlt.
  - apply ordered_except_flip, bubble_up_ordered; [apply _|lia|rewrite length_swapl; lia| |].
    + by rewrite <- Hlvl, (isMinLevel_parent i), negb_involutive.
    + by apply leaf_swap.
  - apply bubble_up_ordered; [apply _|lia|lia|done|]. by apply leaf_keep.
Qed.
End push.

(** ** The heap order of the queue

    [heap_ordered less l]: on max levels no descendant has a higher priority than
    its ancestor, on min levels none has a lower one. *)
Definition heap_ordered {A} (less : A → A → bool) (l : list A) : Prop := ordered less true l.

Section heap.
Context {A : Type} (less : A → A → bool) `{Hswo : !StrictWeakOrder less}.
Implicit Types (l : list A) (i j a : nat).

Lemma ltAt_app_l lt l x i j :
  i < length l → j < length l → ltAt lt (l ++ [x]) i j = ltAt lt (A := A) l i j.
Proof using Type. intros. unfold ltAt. by rewrite !lookup_app_l by done. Qed.

(** Adding an item: append it and sift it up. *)
Lemma push_ordered l x :
  heap_ordered less l → heap_ordered less (up less (length l) (l ++ [x])).
Proof using Hswo.
  intros Hord. unfold up. case_bool_decide as Hl.
  { destruct l; [|done]. intros a j Haj Hj. simpl in Hj. apply anc_lt in Haj. lia. }
  assert (ordered_except less true (λ _ j, j = length l) (l ++ [x])) as Hex.
  { intros a j Haj Hj Hne. rewrite length_app in Hj. simpl in Hj.
    pose proof (anc_lt _ _ Haj). unfold heap_rel. rewrite !ltAt_app_l by lia.
    apply Hord; [done|lia|auto]. }
  assert (length (l ++ [x]) = S (length l)) by (rewrite length_app; simpl; lia).
  destruct (isMinLevel (length l)) eqn:Hlvl.
  - apply up_level_ordered; [apply _|lia|done..].
  - apply (ordered_except_flip less true). apply up_level_ordered; [apply _|lia|done|done|].
    by apply (ordered_except_flip less true).
Qed.

(** The root has the highest priority. *)
Lemma ordered_root l x y j :
  heap_ordered less l → l !! 0 = Some x → l !! j = Some y → less y x = false.
Proof using Hswo.
  intros Hord Hx Hy. destruct (decide (j = 0)) as [->|Hj].
  { simplify_eq. apply swo_irrefl. }
  assert (heap_rel less true l 0 j) as Hr.
  { apply Hord; [apply anc_root; lia|by eapply lookup_lt_Some|auto]. }
  unfold heap_rel, ltAt in Hr. simpl in Hr. by rewrite Hx, Hy in Hr.
Qed.
End heap.

(** ** Sifting down

    The source continues its loop at a child after exchanging a node with that
    child; this is harmless because such a child is a leaf, provided that no two
    items have equal priority ([no_ties]). *)

Definition no_ties {A} (lt : A → A → bool) (l : list A) : Prop :=
  ∀ i j, i ≠ j → i < length l → j < length l → ltAt lt l i j = true ∨ ltAt lt l j i = true.

Lemma no_ties_swapl {A} (lt : A → A → bool) l i j :
  i < length l → j < length l → no_ties lt l → no_ties lt (swapl i j l).
Proof.
  intros Hi Hj Hnt x y Hxy. rewrite length_swapl. intros Hx Hy. rewrite !ltAt_swapl by done.
  apply Hnt; unfold tr; repeat case_decide; congruence || lia.
Qed.

Lemma no_ties_flip {A} (lt : A → A → bool) l : no_ties (flip lt) l ↔ no_ties lt l.
Proof.
  unfold no_ties. split; intros H i j Hij Hi Hj; destruct (H i j Hij Hi Hj); 
    rewrite ?ltAt_flip in *; auto.
Qed.

(** [k] is a child or a grandchild of [i]. *)
Definition near (i k : nat) : Prop :=
  (0 < k ∧ parent k = i) ∨ (0 < k ∧ 0 < parent k ∧ parent (parent k) = i).

Lemma near_index i k :
  near i k ↔ k = 2 * i + 1 ∨ k = 2 * i + 2 ∨ 4 * i + 3 ≤ k < 4 * i + 7.
Proof.
  unfold near. split.
  - intros [[Hk <-]|(Hk & Hp & <-)].
    + destruct (parent_spec k Hk); lia.
    + destruct (parent_spec k Hk), (parent_spec _ Hp); lia.
  - intros Hk. assert (0 < k) as Hk0 by lia.
    destruct (decide (k < 4 * i + 3)).
    + left. split; [done|]. destruct (parent_spec k Hk0); lia.
    + right. destruct (parent_spec k Hk0); (assert (0 < parent k) as Hp by lia);
        destruct (parent_spec _ Hp); lia.
Qed.

Section find.
Context {A : Type} (lt : A → A → bool) `{Hswo : !StrictWeakOrder lt}.
Implicit Types (l : list A) (i j m : nat).

Lemma scan_spec l n : ∀ j m (r := scan lt l n j m),
  m < length l →
  (r = m ∨ j ≤ r < j + n) ∧ r < length l ∧
  (∀ k, ltAt lt l m k = false → ltAt lt l r k = false) ∧
  (∀ k, j ≤ k < j + n → ltAt lt l r k = false).
Proof using Hswo.
  induction n as [|n IH]; intros j m r Hm; subst r; simpl; [split_and!; auto; lia|].
  case_bool_decide as Hj.
  - destruct (ltAt lt l m j) eqn:Hlt.
    + destruct (IH (S j) j Hj) as (H1 & H2 & H3 & H4).
      assert (∀ k, ltAt lt l m k = false → ltAt lt l (scan lt l n (S j) j) k = false) as Hm'.
      { intros k Hk. apply H3. apply (ltAt_trans_false lt _ _ m); [done| |done].
        by apply ltAt_asym. }
      split_and!; [lia|done|done|]. intros k Hk. destruct (decide (k = j)) as [->|]; [|apply H4; lia].
      apply H3. unfold ltAt. destruct (l !! j); [apply swo_irrefl|done].
    + destruct (IH (S j) m Hm) as (H1 & H2 & H3 & H4). split_and!; [lia|done|done|].
      intros k Hk. destruct (decide (k = j)) as [->|]; [by apply H3|apply H4; lia].
  - split_and!; [by left|done|done|]. intros k Hk. unfold ltAt.
    rewrite (lookup_ge_None_2 l k) by lia. by destruct (l !! m).
Qed.

Lemma find_top_Some l i m :
  find_top lt l i = Some m →
  near i m ∧ m < length l ∧ ∀ k, near i k → ltAt lt l m k = false.
Proof using Hswo.
  unfold find_top. remember (2 * i + 1) as lc eqn:Hlc. remember (2 * i + 2) as rc eqn:Hrc.
  case_bool_decide as Hlen; [done|]. intros <-%(inj Some).
  assert (∀ k, ltAt lt l k k = false) as Hirr
    by (intros k; unfold ltAt; destruct (l !! k); [apply swo_irrefl|done]).
  set (m0 := if bool_decide _ && _ then _ else _).
  assert (m0 < length l ∧ (m0 = lc ∨ m0 = rc) ∧
    ltAt lt l m0 lc = false ∧ ltAt lt l m0 rc = false) as (Hm & Hm0 & Hl & Hr).
  { subst m0. case_bool_decide as Hr; cbn [andb].
    - destruct (ltAt lt l lc rc) eqn:E; split_and!; auto; [by apply ltAt_asym|lia].
    - split_and!; auto; [lia|]. unfold ltAt. rewrite (lookup_ge_None_2 l rc) by lia.
      by destruct (l !! lc). }
  destruct (scan_spec l 4 (2 * lc + 1) m0 Hm) as (H1 & H2 & H3 & H4).
  split_and!; [apply near_index; lia|done|].
  intros k [->|[->|Hk]]%near_index; [rewrite <- Hlc; by apply H3|rewrite <- Hrc; by apply H3|].
  apply H4. lia.
Qed.

(** Whatever the comparison, the result is a child or a grandchild in range. *)
Lemma scan_range l n : ∀ j m (r := scan lt l n j m),
  m < length l → (r = m ∨ j ≤ r < j + n) ∧ r < length l.
Proof using Type.
  induction n as [|n IH]; intros j m r Hm; subst r; simpl; [auto|].
  case_bool_decide as Hj; [|auto].
  destruct (ltAt lt l m j); [destruct (IH (S j) j Hj)|destruct (IH (S j) m Hm)]; lia.
Qed.

Lemma find_top_range l i m : find_top lt l i = Some m → near i m ∧ m < length l.
Proof using Type.
  unfold find_top. remember (2 * i + 1) as lc eqn:Hlc. remember (2 * i + 2) as rc eqn:Hrc.
  case_bool_decide as Hlen; [done|]. intros <-%(inj Some).
  set (m0 := if bool_decide _ && _ then _ else _).
  assert (m0 < length l ∧ (m0 = lc ∨ m0 = rc)) as [Hm Hm0].
  { subst m0. case_bool_decide; cbn [andb]; [destruct (ltAt lt l lc rc)|]; lia. }
  destruct (scan_range l 4 (2 * lc + 1) m0 Hm). split; [apply near_index|]; lia.
Qed.

Lemma find_top_None l i j : find_top lt l i = None → anc i j → length l ≤ j.
Proof using Type.
  unfold find_top. case_bool_decide as Hlen; [|done]. intros _ Hij.
  assert (∀ k, 0 < k → parent k = i → length l ≤ k) as Hc
    by (intros k Hk <-; destruct (parent_spec k Hk); lia).
  destruct (anc_cases _ _ Hij) as [[Hj Hp]|(g & Hg & Hgp & Hgg & Hgj)]; [by apply Hc|].
  pose proof (Hc _ Hgp Hgg). pose proof (parent_lt g Hg).
  destruct Hgj as [->|Hgj%anc_lt]; lia.
Qed.
End find.

Section trickle.
Context {A : Type} (lt : A → A → bool) (b : bool) `{Hswo : !StrictWeakOrder lt}.
Implicit Types (l : list A) (i j m a lo : nat).

(** Order among the pairs whose ancestor is at [lo] or later, except those with
    ancestor [i]. *)
Definition down_skip lo i : nat → nat → Prop := λ a _, a < lo ∨ a = i.

(** No descendant of [i] belongs above the top of its children and grandchildren. *)
Lemma top_dominates lo i m l j :
  isMinLevel i = b → lo ≤ i → ordered_except lt b (down_skip lo i) l →
  (∀ k, near i k → ltAt lt l m k = false) →
  anc i j → j < length l → ltAt lt l m j = false.
Proof using Hswo.
  intros Hlvl Hlo Hord Htop Hij Hj.
  destruct (anc_cases _ _ Hij) as [Hc|(g & Hg & Hgp & Hgg & [->|Hgj])].
  - apply Htop. by left.
  - apply Htop. right. auto.
  - assert (anc i g) as Hig by (apply anc_step; [done|]; rewrite <- Hgg; by constructor).
    pose proof (anc_lt _ _ Hig). pose proof (anc_lt _ _ Hgj).
    apply (ltAt_trans_false lt _ _ g); [lia|apply Htop; right; auto|].
    apply heap_rel_same with b; [rewrite <- Hlvl, <- Hgg; symmetry; by apply isMinLevel_grandparent|].
    apply Hord; [done|done|]. unfold down_skip. lia.
Qed.

(** Nothing belongs above [i]: the loop stops. *)
Lemma trickle_stop lo i l :
  isMinLevel i = b → lo ≤ i → ordered_except lt b (down_skip lo i) l →
  (∀ j, anc i j → j < length l → ltAt lt l i j = false) →
  ordered_except lt b (λ a _, a < lo) l.
Proof using Type.
  intros Hlvl Hlo Hord Hi a j Haj Hj Ha. destruct (decide (a = i)) as [->|Hai].
  - apply heap_rel_same; auto.
  - apply Hord; [done|done|]. unfold down_skip. lia.
Qed.

(** Ancestors outside the subtree that is rearranged see only items that were
    below them before. *)
Lemma outer_rel lo i l σ a j (l' : list A) :
  ordered_except lt b (down_skip lo i) l → ¬ a < lo → a ≠ i →
  (∀ x y, ltAt lt l' x y = ltAt lt l (σ x) (σ y)) → σ a = a →
  anc a (σ j) → σ j < length l → heap_rel lt b l' a j.
Proof using Type.
  intros Hord Ha Hai Hσ Hσa Hanc Hj. unfold heap_rel. rewrite !Hσ, Hσa.
  apply Hord; [done|done|]. unfold down_skip. lia.
Qed.

(** Exchange of [i] with the top [m], a child of [i]. *)
Lemma swap_child lo i m l :
  isMinLevel i = b → lo ≤ i → ordered_except lt b (down_skip lo i) l →
  m < length l → 0 < m → parent m = i →
  (∀ j, anc i j → j < length l → ltAt lt l m j = false) →
  ltAt lt l i m = true →
  ordered_except lt b (down_skip lo m) (swapl i m l).
Proof using Hswo.
  intros Hlvl Hlo Hord Hm Hm0 Hpm Htop Hlt a j Haj Hj Hskip. rewrite length_swapl in Hj.
  assert (anc i m) as Him by (rewrite <- Hpm; by constructor).
  pose proof (anc_lt _ _ Him). pose proof (anc_lt _ _ Haj).
  destruct (decide (a = i)) as [->|Hai].
  - apply heap_rel_same; [done|]. rewrite ltAt_swapl by lia.
    destruct (decide (j = m)) as [->|Hjm]; simpl_tr; [by apply ltAt_asym|by apply Htop].
  - unfold down_skip in Hskip.
    eapply (outer_rel lo i l (tr i m)); [done|lia|done| |simpl_tr; lia| |].
    + intros x y. apply ltAt_swapl; lia.
    + destruct (decide (j = i)) as [->|Hji]; [simpl_tr; by eapply anc_trans|].
      destruct (decide (j = m)) as [->|Hjm]; simpl_tr; [|done].
      destruct (anc_inv _ _ Haj) as [_ [->|Hap]]; [done|by rewrite <- Hpm].
    + unfold tr. repeat case_decide; lia.
Qed.

(** Exchange of [i] with the top [m], a grandchild of [i], when the item that
    came down fits below the parent of [m]. *)
Lemma swap_grandchild_keep lo i m l :
  isMinLevel i = b → lo ≤ i → ordered_except lt b (down_skip lo i) l →
  m < length l → 0 < m → 0 < parent m → parent (parent m) = i →
  (∀ j, anc i j → j < length l → ltAt lt l m j = false) →
  ltAt lt l i m = true → ltAt lt l i (parent m) = false →
  ordered_except lt b (down_skip lo m) (swapl i m l).
Proof using Hswo.
  intros Hlvl Hlo Hord Hm Hm0 Hp0 Hpp Htop Hlt Hfit a j Haj Hj Hskip. rewrite length_swapl in Hj.
  assert (anc i (parent m)) as Hip by (rewrite <- Hpp; by constructor).
  assert (anc (parent m) m) as Hpm by by constructor.
  pose proof (anc_lt _ _ Hip). pose proof (anc_lt _ _ Hpm). pose proof (anc_lt _ _ Haj).
  assert (isMinLevel (parent m) = negb b) as Hlp
    by (rewrite <- Hlvl, <- Hpp; by apply isMinLevel_parent).
  unfold down_skip in Hskip.
  destruct (decide (a = i)) as [->|Hai].
  { apply heap_rel_same; [done|]. rewrite ltAt_swapl by lia.
    destruct (decide (j = m)) as [->|Hjm]; simpl_tr; [by apply ltAt_asym|by apply Htop]. }
  destruct (decide (a = parent m)) as [->|Hap].
  { apply heap_rel_other; [done|]. rewrite ltAt_swapl by lia.
    destruct (decide (j = m)) as [->|Hjm]; simpl_tr; [done|].
    apply heap_rel_other with b; [done|]. apply Hord; [done|done|]. unfold down_skip. lia. }
  eapply (outer_rel lo i l (tr i m)); [done|lia|done| |simpl_tr; lia| |].
  - intros x y. apply ltAt_swapl; lia.
  - destruct (decide (j = i)) as [->|Hji]; [simpl_tr; eauto using anc_trans|].
    destruct (decide (j = m)) as [->|Hjm]; simpl_tr; [|done].
    destruct (anc_above _ _ Haj) as [->|[->|?]]; [done|done|by rewrite <- Hpp].
  - unfold tr. repeat case_decide; lia.
Qed.

(** The same exchange followed by that of [m] with its parent. *)
Lemma swap_grandchild_fix lo i m l :
  isMinLevel i = b → lo ≤ i → ordered_except lt b (down_skip lo i) l →
  m < length l → 0 < m → 0 < parent m → parent (parent m) = i →
  (∀ j, anc i j → j < length l → ltAt lt l m j = false) →
  ltAt lt l i m = true → ltAt lt l i (parent m) = true →
  ordered_except lt b (down_skip lo m) (swapl m (parent m) (swapl i m l)).
Proof using Hswo.
  intros Hlvl Hlo Hord Hm Hm0 Hp0 Hpp Htop Hlt Hfit a j Haj Hj Hskip. rewrite !length_swapl in Hj.
  assert (anc i (parent m)) as Hip by (rewrite <- Hpp; by constructor).
  assert (anc (parent m) m) as Hpm by by constructor.
  pose proof (anc_lt _ _ Hip). pose proof (anc_lt _ _ Hpm). pose proof (anc_lt _ _ Haj).
  assert (isMinLevel (parent m) = negb b) as Hlp
    by (rewrite <- Hlvl, <- Hpp; by apply isMinLevel_parent).
  assert (∀ x y, ltAt lt (swapl m (parent m) (swapl i m l)) x y =
    ltAt lt l (tr i m (tr m (parent m) x)) (tr i m (tr m (parent m) y))) as Hσ.
  { intros x y. rewrite !ltAt_swapl by (rewrite ?length_swapl; lia). done. }
  unfold down_skip in Hskip. 
  destruct (decide (a = i)) as [->|Hai].
  { apply heap_rel_same; [done|]. rewrite Hσ.
    destruct (decide (j = m)) as [->|Hjm]; [simpl_tr; apply Htop; [done|lia]|].
    destruct (decide (j = parent m)) as [->|Hjp]; [simpl_tr; by apply ltAt_asym|].
    simpl_tr. by apply Htop. }
  destruct (decide (a = parent m)) as [->|Hap].
  { apply heap_rel_other; [done|]. rewrite Hσ.
    destruct (decide (j = m)) as [->|Hjm]; simpl_tr; [by apply ltAt_asym|].
    apply (ltAt_trans_false lt _ _ (parent m)); [lia| |by apply ltAt_asym].
    apply heap_rel_other with b; [done|]. apply Hord; [done|done|]. unfold down_skip. lia. }
  eapply (outer_rel lo i l (λ x, tr i m (tr m (parent m) x)));
    [done|lia|done|apply Hσ|cbv beta; simpl_tr; lia|cbv beta|cbv beta].
  - destruct (decide (j = i)) as [->|Hji]; [simpl_tr; eauto using anc_trans|].
    destruct (decide (j = m)) as [->|Hjm].
    + simpl_tr. destruct (anc_inv _ _ Haj) as [_ [->|?]]; [done|done].
    + destruct (decide (j = parent m)) as [->|Hjp]; simpl_tr; [|done].
      destruct (anc_inv _ _ Haj) as [_ [->|?]]; [by rewrite Hpp in Hai|by rewrite <- Hpp].
  - unfold tr. repeat case_decide; lia.
Qed.
End trickle.

Section trickle_loop.
Context {A : Type} (lt : A → A → bool) (b : bool) `{Hswo : !StrictWeakOrder lt}.
Implicit Types (l : list A) (i j m a lo : nat).

(** Without ties, a child that is the top of all children and grandchildren is a
    leaf. *)
Lemma top_child_leaf lo i m l :
  isMinLevel i = b → lo ≤ i → ordered_except lt b (down_skip lo i) l → no_ties lt l →
  m < length l → 0 < m → parent m = i → (∀ k, near i k → ltAt lt l m k = false) →
  find_top lt l m = None.
Proof using Hswo.
  intros Hlvl Hlo Hord Hnt Hm Hm0 Hpm Htop.
  destruct (find_top lt l m) as [c|] eqn:Hc; [|done]. exfalso.
  assert (2 * m + 1 < length l) as Hlen by (unfold find_top in Hc; by case_bool_decide; [|lia]).
  set (k := 2 * m + 1). assert (anc m k) as Hmk.
  { pose proof (anc_parent k ltac:(lia)) as Ha. unfold k in Ha at 1. by rewrite parent_left in Ha. }
  pose proof (anc_lt _ _ Hmk). pose proof (parent_lt m Hm0).
  assert (heap_rel lt b l m k) as Hr by (apply Hord; [done|done|unfold down_skip; lia]).
  apply heap_rel_other in Hr; [|rewrite isMinLevel_parent, Hpm, Hlvl; done].
  assert (ltAt lt l m k = false).
  { apply Htop. right. unfold k. rewrite parent_left. auto with lia. }
  destruct (Hnt m k); [lia|done|done|congruence|congruence].
Qed.

Lemma find_top_swapl_None i m l : find_top lt l m = None → find_top lt (swapl i m l) m = None.
Proof using Type. unfold find_top. rewrite length_swapl. by case_bool_decide. Qed.

(** [trickle_down] restores the order. The fuel [length l] is enough: the index
    increases at every step and stays in range. *)
Lemma trickle_down_ordered fuel : ∀ lo i l,
  length l ≤ fuel + i → isMinLevel i = b → lo ≤ i → no_ties lt l →
  ordered_except lt b (down_skip lo i) l →
  ordered_except lt b (λ a _, a < lo) (trickle_down lt fuel i l).
Proof using Hswo.
  induction fuel as [|fuel IH]; intros lo i l Hf Hlvl Hlo Hnt Hord; simpl.
  { apply (trickle_stop lt b lo i); [done..|]. intros j Hij%anc_lt Hj. lia. }
  destruct (find_top lt l i) as [m|] eqn:Hfind.
  2:{ apply (trickle_stop lt b lo i); [done..|]. intros j Hij Hj.
      pose proof (find_top_None lt l i j Hfind Hij). lia. }
  destruct (find_top_Some lt l i m Hfind) as (Hnear & Hm & Htop).
  assert (∀ j, anc i j → j < length l → ltAt lt l m j = false) as Hdom
    by (intros; by eapply (top_dominates lt b lo i)).
  destruct (ltAt lt l i m) eqn:Hlt.
  2:{ apply (trickle_stop lt b lo i); [done..|]. intros j Hij Hj.
      apply (ltAt_trans_false lt _ _ m); auto. }
  destruct (ltAt_range _ _ _ _ Hlt) as [Hi _].
  destruct Hnear as [[Hm0 Hpm]|(Hm0 & Hp0 & Hpp)].
  - rewrite bool_decide_eq_false_2 by auto. cbn [andb].
    assert (ordered_except lt b (down_skip lo m) (swapl i m l)) as Hord'
      by (by apply (swap_child lt b)).
    pose proof (find_top_swapl_None i m l (top_child_leaf lo i m l Hlvl Hlo Hord Hnt Hm Hm0 Hpm Htop))
      as Hleaf.
    assert (trickle_down lt fuel m (swapl i m l) = swapl i m l) as ->
      by (destruct fuel; simpl; [done|by rewrite Hleaf]).
    intros a j Haj Hj Ha. apply Hord'; [done|done|]. intros [Hlt2| ->]; [done|].
    pose proof (find_top_None lt _ _ _ Hleaf Haj). lia.
  - pose proof (parent_lt m Hm0). pose proof (parent_lt _ Hp0).
    rewrite bool_decide_eq_true_2 by lia. cbn [andb].
    assert (isMinLevel m = b) as Hlm
      by (rewrite <- (isMinLevel_grandparent m), Hpp by done; done).
    rewrite ltAt_swapl by lia. rewrite tr_r, tr_other by lia.
    destruct (ltAt lt l i (parent m)) eqn:Hfit; apply IH; rewrite ?length_swapl; try done; try lia;
      repeat (apply no_ties_swapl; rewrite ?length_swapl; [lia..|]); try done.
    + by apply swap_grandchild_fix.
    + by apply swap_grandchild_keep.
Qed.
End trickle_loop.

Section heap_down.
Context {A : Type} (less : A → A → bool) `{Hswo : !StrictWeakOrder less}.
Implicit Types (l : list A) (i j a : nat).

Lemma down_ordered lo i l :
  lo ≤ i → no_ties less l →
  ordered_except less true (down_skip lo i) l →
  ordered_except less true (λ a _, a < lo) (down less i l).
Proof using Hswo.
  intros Hlo Hnt Hord. unfold down. destruct (isMinLevel i) eqn:Hlvl.
  - apply trickle_down_ordered; [apply _|lia|done..].
  - apply (ordered_except_flip less true), trickle_down_ordered; [apply _|lia|done|done| |].
    + by apply no_ties_flip.
    + by apply (ordered_except_flip less true).
Qed.

Lemma no_ties_Permutation l k : l ≡ₚ k → no_ties less l → no_ties less k.
Proof using Type.
  intros HP Hnt i j Hij Hi Hj. symmetry in HP. apply Permutation_inj in HP as [Hlen (f & Hf & Hkl)].
  assert (∀ x, x < length k → f x < length l) as Hr.
  { intros x [v Hv]%lookup_lt_is_Some_2. rewrite Hkl in Hv. by eapply lookup_lt_Some. }
  unfold ltAt. rewrite !Hkl. apply Hnt; auto.
Qed.

Lemma heapify_from_ordered n : ∀ l,
  no_ties less l → ordered_except less true (λ a _, a < n) l →
  heap_ordered less (heapify_from less n l).
Proof using Hswo.
  induction n as [|n IH]; intros l Hnt Hord; simpl.
  - intros a j Haj Hj _. apply Hord; [done|done|lia].
  - apply IH.
    + eapply no_ties_Permutation; [symmetry; apply down_Permutation|done].
    + apply down_ordered; [lia|done|]. intros a j Haj Hj Hskip. apply Hord; [done|done|].
      unfold down_skip in Hskip. lia.
Qed.

(** Floyd's construction, as [Cleanup] runs it. *)
Lemma heapify_ordered l : no_ties less l → heap_ordered less (heapify less l).
Proof using Hswo.
  intros Hnt. apply heapify_from_ordered; [done|]. intros a j Haj Hj Ha. exfalso. apply Ha.
  assert (2 * a + 1 ≤ j) as H2.
  { destruct (anc_cases _ _ Haj) as [[Hj0 <-]|(g & Hg & Hgp & Hgg & Hgj)].
    - destruct (parent_spec j Hj0); lia.
    - assert (g ≤ j) by (destruct Hgj as [->|?%anc_lt]; lia).
      destruct (parent_spec g Hg), (parent_spec _ Hgp); lia. }
  apply Nat.div_le_lower_bound; lia.
Qed.

(** Removing the root: the last item takes its place and is sifted down. *)
Lemma remove_root_ordered l n :
  length l = S n → 0 < n → no_ties less l → heap_ordered less l →
  heap_ordered less (down less 0 (take n (swapl 0 n l))).
Proof using Hswo.
  intros Hlen Hn Hnt Hord.
  assert (∀ x y, x < n → y < n → ltAt less (take n (swapl 0 n l)) x y
    = ltAt less l (tr 0 n x) (tr 0 n y)) as Hlt.
  { intros x y Hx Hy. unfold ltAt. rewrite !lookup_take_lt, !swapl_lookup by lia. done. }
  assert (length (take n (swapl 0 n l)) = n) as Hlen' by (rewrite length_take, length_swapl; lia).
  assert (ordered_except less true (λ a _, a < 0) (down less 0 (take n (swapl 0 n l)))) as H;
    [|intros a j Haj Hj _; apply H; [done|done|lia]].
  apply down_ordered; [lia| |].
  - intros i j Hij. rewrite Hlen'. intros Hi Hj. rewrite !Hlt by done.
    apply Hnt; unfold tr; repeat case_decide; lia.
  - intros a j Haj. rewrite Hlen'. intros Hj Hskip. unfold down_skip in Hskip.
    pose proof (anc_lt _ _ Haj). unfold heap_rel. rewrite !Hlt by lia. simpl_tr.
    apply Hord; [done|lia|auto].
Qed.

(** The item of lowest priority is one of the root's children. *)
Lemma ordered_tail l t j y x :
  heap_ordered less l → 3 ≤ length l →
  t = (if ltAt less l 1 2 then 2 else 1) → l !! t = Some x → l !! j = Some y →
  less x y = false.
Proof using Hswo.
  intros Hord Hlen Ht Hx Hy.
  assert (j < length l) as Hj by by eapply lookup_lt_Some.
  assert (ltAt less l t j = false) as H; [|unfold ltAt in H; by rewrite Hx, Hy in H].
  assert (t < length l) by (subst t; destruct (ltAt less l 1 2); lia).
  assert (ltAt less l t 1 = false ∧ ltAt less l t 2 = false) as [H1 H2].
  { subst t. assert (∀ k, ltAt less l k k = false) as Hirr
      by (intros k; unfold ltAt; destruct (l !! k); [apply swo_irrefl|done]).
    destruct (ltAt less l 1 2) eqn:E; auto using ltAt_asym. }
  destruct (decide (j = 0)) as [->|Hj0].
  { apply (ltAt_trans_false less _ _ 1); [lia|done|].
    assert (heap_rel less true l 0 1) as Hr by (apply Hord; [apply anc_root|..]; auto; lia).
    exact Hr. }
  destruct (decide (j = 1)) as [->|Hj1]; [done|].
  destruct (decide (j = 2)) as [->|Hj2]; [done|].
  assert (anc 1 j ∨ anc 2 j) as Hanc.
  { clear -Hj0 Hj1 Hj2. induction j as [j IH] using lt_wf_ind.
    pose proof (parent_lt j ltac:(lia)). pose proof (parent_spec j ltac:(lia)) as Hp.
    destruct (decide (parent j = 1)) as [E|]; [left; rewrite <- E; constructor; lia|].
    destruct (decide (parent j = 2)) as [E|]; [right; rewrite <- E; constructor; lia|].
    destruct (IH (parent j)); [lia..| |]; [left|right]; apply anc_step; auto with lia. }
  destruct Hanc as [Ha|Ha]; pose proof (anc_lt _ _ Ha).
  - apply (ltAt_trans_false less _ _ 1); [lia|done|].
    assert (heap_rel less true l 1 j) as Hr by (apply Hord; auto). exact Hr.
  - apply (ltAt_trans_false less _ _ 2); [lia|done|].
    assert (heap_rel less true l 2 j) as Hr by (apply Hord; auto). exact Hr.
Qed.
End heap_down.
