(* ===== verification/MaxMinHeap.v ===== *)
(** * The max-min heap queue: [framework/plugins/queue/maxminheap.go]

    A priority queue with the item of highest priority at index 0. The slice
    [items] is a list; every item carries a handle, a [heapItem] in the shared
    store that records the item's current index, and [handles] is the set of the
    handles of this heap. [swap] keeps the indices in the handles up to date.

    An index out of range or a handle missing from the map is a panic. The loops
    of the code have no bound; here they run on fuel, and running out of fuel is a
    panic as well, so that the theorems below also say that the loops end. The
    min-level and the max-level variant of a loop differ in the order of the
    arguments of [Less] only; [above] stands for that comparison. *)

From stdpp Require Import prelude gmap strings list.
From Stdlib Require Import Lia.
From S2P Require Import Prelude FlowTypes Ordering SafeQueue ArrayHeap.

Record maxMinHeap := mkHeap {
  mh_items : list QueueItem;
  mh_handles : gmap positive positive;       (* QueueItemHandle -> *heapItem *)
  mh_byteSize : Z;                           (* atomic.Uint64 *)
  mh_policy : OrderingPolicy
}.

Definition newMaxMinHeap (policy : OrderingPolicy) : maxMinHeap := mkHeap [] ∅ 0 policy.

Abbreviation HM := (GoM (maxMinHeap * store)).

Definition with_items (l : list QueueItem) (h : maxMinHeap) : maxMinHeap :=
  mkHeap l (mh_handles h) (mh_byteSize h) (mh_policy h).

Definition with_handles (m : gmap positive positive) (h : maxMinHeap) : maxMinHeap :=
  mkHeap (mh_items h) m (mh_byteSize h) (mh_policy h).

Definition with_byteSize (n : Z) (h : maxMinHeap) : maxMinHeap :=
  mkHeap (mh_items h) (mh_handles h) n (mh_policy h).

Definition on_heap (f : maxMinHeap → maxMinHeap) : HM unit := modify (λ '(h, st), (f h, st)).
Definition on_hstore (f : store → store) : HM unit := modify (λ '(h, st), (h, f st)).

(** [h.items[i]]. *)
Definition item_at (i : nat) : HM QueueItem := getsome (λ '(h, st), mh_items h !! i).

(** [h.policy.Less(h.items[i], h.items[j])]. *)
Definition lessAt (i j : nat) : HM bool :=
  a ← item_at i; b ← item_at j; gets (λ '(h, st), less (mh_policy h) a b).

Definition with_index (i : nat) (o : handleObj) : handleObj :=
  match o with heapItem it _ b => heapItem it i b | _ => o end.

(** [h.handles[item.Handle()].index = i]. *)
Definition set_index (item : QueueItem) (i : nat) : HM unit :=
  p ← getsome (λ '(h, st), hd ← Handle st item; mh_handles h !! hd);
  on_hstore (update_handle (with_index i) p).

Definition swap (i j : nat) : HM unit :=
  a ← item_at i;
  b ← item_at j;
  _ ← on_heap (λ h, with_items (<[j := a]> (<[i := b]> (mh_items h))) h);
  x ← item_at i;
  _ ← set_index x i;
  y ← item_at j;
  set_index y j.

(** ** Sifting up *)

Fixpoint up_loop (above : nat → nat → HM bool) (fuel i : nat) : HM unit :=
  match fuel with
  | O => panic
  | S fuel' =>
      let parentIndex := parent i in
      if bool_decide (parentIndex = 0) then mret tt
      else
        let grandparentIndex := parent parentIndex in
        b ← above grandparentIndex i;
        if b : bool then
          _ ← swap i grandparentIndex;
          up_loop above fuel' grandparentIndex
        else mret tt
  end.

Definition upMin (i : nat) : HM unit := up_loop lessAt (S i) i.
Definition upMax (i : nat) : HM unit := up_loop (flip lessAt) (S i) i.

Definition heap_up (i : nat) : HM unit :=
  if bool_decide (i = 0) then mret tt
  else
    let parentIndex := parent i in
    if isMinLevel i then
      b ← lessAt i parentIndex;
      if b : bool then _ ← swap i parentIndex; upMax parentIndex else upMin i
    else
      b ← lessAt parentIndex i;
      if b : bool then _ ← swap i parentIndex; upMin parentIndex else upMax i.

(** ** Sifting down *)

Fixpoint grandchildren_loop (above : nat → nat → HM bool) (n j m : nat) : HM nat :=
  match n with
  | O => mret m
  | S n' =>
      len ← gets (λ '(h, st), length (mh_items h));
      if bool_decide (j < len) then
        b ← above m j;
        grandchildren_loop above n' (S j) (if b : bool then j else m)
      else mret m
  end.

(** The index, or [None] for [-1]. *)
Definition find_child (above : nat → nat → HM bool) (i : nat) : HM (option nat) :=
  let leftChild := 2 * i + 1 in
  len ← gets (λ '(h, st), length (mh_items h));
  if bool_decide (len ≤ leftChild) then mret None
  else
    let rightChild := 2 * i + 2 in
    b ← (if bool_decide (rightChild < len) then above leftChild rightChild else mret false);
    let m := if b : bool then rightChild else leftChild in
    m' ← grandchildren_loop above 4 (2 * leftChild + 1) m;
    mret (Some m').

Definition findSmallestChildOrGrandchild : nat → HM (option nat) := find_child lessAt.
Definition findLargestChildOrGrandchild : nat → HM (option nat) := find_child (flip lessAt).

Fixpoint down_loop (above : nat → nat → HM bool) (fuel i : nat) : HM unit :=
  match fuel with
  | O => panic
  | S fuel' =>
      om ← find_child above i;
      match om with
      | None => mret tt
      | Some m =>
          b ← above i m;
          if b : bool then
            _ ← swap i m;
            let parentOfM := parent m in
            _ ← (if bool_decide (parentOfM ≠ i) then
                   c ← above m parentOfM;
                   if c : bool then swap m parentOfM else mret tt
                 else mret tt);
            down_loop above fuel' m
          else mret tt
      end
  end.

Definition downMin (i : nat) : HM unit :=
  fuel ← gets (λ '(h, st), length (mh_items h)); down_loop lessAt fuel i.

Definition downMax (i : nat) : HM unit :=
  fuel ← gets (λ '(h, st), length (mh_items h)); down_loop (flip lessAt) fuel i.

Definition heap_down (i : nat) : HM unit :=
  if isMinLevel i then downMin i else downMax i.

(** ** The operations of [SafeQueue] *)

Definition push (item : QueueItem) : HM unit :=
  n ← gets (λ '(h, st), length (mh_items h));
  hi ← (λ '(h, st), let '(hi, st') := alloc_handle (heapItem item n false) st in
                    Some (hi, (h, st')));
  _ ← on_heap (λ h, with_items (mh_items h ++ [item]) h);
  _ ← on_hstore (SetHandle item hi);
  k ← getsome (λ '(h, st), Handle st item);
  _ ← on_heap (λ h, with_handles (<[k := hi]> (mh_handles h)) h);
  len ← gets (λ '(h, st), length (mh_items h));
  heap_up (len - 1).

Definition sub_size (item : QueueItem) (h : maxMinHeap) : maxMinHeap :=
  with_byteSize (Int.u64_atomic_sub (mh_byteSize h) (qi_ByteSize item)) h.

Definition Add (item : QueueItem) : HM unit :=
  _ ← push item;
  on_heap (λ h, with_byteSize (Int.u64 (mh_byteSize h + qi_ByteSize item)) h).

Definition Remove (handle : option positive) : HM RemoveResult :=
  match handle with
  | None => mret (inr (ESentinel ErrInvalidQueueItemHandle))
  | Some hd =>
      o ← getsome (λ '(h, st), st_handles st !! hd);
      if IsInvalidated o then mret (inr (ESentinel ErrInvalidQueueItemHandle))
      else
        match o with
        | listItemHandle _ _ _ _ => mret (inr (ESentinel ErrInvalidQueueItemHandle))
        | heapItem _ i _ =>
            ok ← gets (λ '(h, st), bool_decide (is_Some (mh_handles h !! hd)));
            if negb ok then mret (inr (ESentinel ErrQueueItemNotFound))
            else
              item ← item_at i;
              n ← gets (λ '(h, st), length (mh_items h) - 1);
              _ ← (if bool_decide (i < n) then
                     _ ← swap i n;
                     _ ← on_heap (λ h, with_items (take n (mh_items h)) h);
                     _ ← on_heap (λ h, with_handles (delete hd (mh_handles h)) h);
                     _ ← on_heap (sub_size item);
                     heap_down i
                   else
                     _ ← on_heap (λ h, with_items (take n (mh_items h)) h);
                     _ ← on_heap (λ h, with_handles (delete hd (mh_handles h)) h);
                     on_heap (sub_size item));
              _ ← on_hstore (update_handle Invalidate hd);
              mret (inl item)
        end
  end.

(** The first loop of [Cleanup]: the items removed and the items kept. *)
Fixpoint partition_loop (predicate : QueueItem → bool) (l removedItems itemsToKeep : list QueueItem)
    : HM (list QueueItem * list QueueItem) :=
  match l with
  | [] => mret (removedItems, itemsToKeep)
  | item :: l' =>
      if predicate item then
        handle ← gets (λ '(h, st), Handle st item);
        _ ← (match handle with
             | None => mret tt
             | Some hd =>
                 _ ← on_hstore (update_handle Invalidate hd);
                 on_heap (λ h, with_handles (delete hd (mh_handles h)) h)
             end);
        _ ← on_heap (sub_size item);
        partition_loop predicate l' (removedItems ++ [item]) itemsToKeep
      else partition_loop predicate l' removedItems (itemsToKeep ++ [item])
  end.

(** [for i, item := range h.items { h.handles[item.Handle()].index = i }]. *)
Fixpoint reindex_loop (i : nat) (l : list QueueItem) : HM unit :=
  match l with
  | [] => mret tt
  | item :: l' => _ ← set_index item i; reindex_loop (S i) l'
  end.

(** [for i := n - 1; i >= 0; i-- { h.down(i) }]. *)
Fixpoint heapify_loop (n : nat) : HM unit :=
  match n with O => mret tt | S i => _ ← heap_down i; heapify_loop i end.

Definition Cleanup (predicate : QueueItem → bool) : HM (list QueueItem) :=
  l ← gets (λ '(h, st), mh_items h);
  '(removedItems, itemsToKeep) ← partition_loop predicate l [] [];
  _ ← (if bool_decide (0 < length removedItems) then
         _ ← on_heap (with_items itemsToKeep);
         l' ← gets (λ '(h, st), mh_items h);
         _ ← reindex_loop 0 l';
         heapify_loop (length l' `div` 2)
       else mret tt);
  mret removedItems.

Fixpoint invalidate_loop (l : list QueueItem) : HM unit :=
  match l with
  | [] => mret tt
  | item :: l' => _ ← on_hstore (invalidate_item item); invalidate_loop l'
  end.

Definition Drain : HM (list QueueItem) :=
  drainedItems ← gets (λ '(h, st), mh_items h);
  _ ← invalidate_loop drainedItems;
  _ ← on_heap (λ h, with_byteSize 0 (with_handles ∅ (with_items [] h)));
  mret drainedItems.

Definition Name (h : maxMinHeap) : string := "MaxMinHeap".
Definition Capabilities (h : maxMinHeap) : list QueueCapability := [CapabilityPriorityConfigurable].
Definition Len (h : maxMinHeap) : nat := length (mh_items h).
Definition ByteSize (h : maxMinHeap) : Z := mh_byteSize h.

Definition PeekHead (h : maxMinHeap) : option QueueItem :=
  match mh_items h with [] => None | x :: _ => Some x end.

Definition PeekTail (h : maxMinHeap) : option QueueItem :=
  match mh_items h with
  | [] => None
  | [x] => Some x
  | [_; y] => Some y
  | _ :: y :: z :: _ => if less (mh_policy h) y z then Some z else Some y
  end.

#[export] Instance maxMinHeap_SafeQueue : SafeQueue maxMinHeap := {|
  sq_Name := Name;
  sq_Capabilities := Capabilities;
  sq_Len := Len;
  sq_ByteSize := ByteSize;
  sq_PeekHead := PeekHead;
  sq_PeekTail := PeekTail;
  sq_Add := Add;
  sq_Remove := Remove;
  sq_Cleanup := Cleanup;
  sq_Drain := Drain
|}.

(** ** Invariant

    [owned]: every item of [l] carries a valid handle of this heap that points
    back to the item. [indexOf]: the index recorded in an item's handle. In a
    well-formed heap the recorded index is the item's position, the map holds the
    handles of the items and nothing else, and the byte counter is the sum of the
    items' sizes modulo [2^64]. *)

Definition owned (l : list QueueItem) (hs : gmap positive positive) (st : store) : Prop :=
  ∀ it, it ∈ l → ∃ hd k,
    Handle st it = Some hd ∧ hs !! hd = Some hd ∧ st_handles st !! hd = Some (heapItem it k false).

Definition indexOf (st : store) (it : QueueItem) : option nat :=
  hd ← Handle st it; o ← st_handles st !! hd;
  match o with heapItem _ k _ => Some k | _ => None end.

Definition indexed (l : list QueueItem) (st : store) : Prop :=
  ∀ i it, l !! i = Some it → indexOf st it = Some i.

Record heap_wf (h : maxMinHeap) (st : store) : Prop := {
  mhw_ok : Forall item_ok (mh_items h);
  mhw_nodup : NoDup (ptrs (mh_items h));
  mhw_owned : owned (mh_items h) (mh_handles h) st;
  mhw_index : indexed (mh_items h) st;
  mhw_dom : ∀ hd p, mh_handles h !! hd = Some p →
    p = hd ∧ ∃ it, it ∈ mh_items h ∧ Handle st it = Some hd
}.

(** [push] leaves the byte counter to [Add]: it is a condition of its own. *)
Definition mh_wf (h : maxMinHeap) (st : store) : Prop :=
  heap_wf h st ∧ mh_byteSize h = Int.u64 (total_bytes (mh_items h)).

Lemma ptrs_lookup_inj l i j it it' :
  NoDup (ptrs l) → l !! i = Some it → l !! j = Some it' → qi_ptr it = qi_ptr it' → i = j.
Proof.
  intros Hnd Hi Hj Hp. apply (NoDup_lookup (ptrs l) i j (qi_ptr it)); [done|..];
    unfold ptrs; rewrite list_lookup_fmap; [by rewrite Hi|by rewrite Hj, Hp].
Qed.

Lemma ptrs_elem_inj l it it' :
  NoDup (ptrs l) → it ∈ l → it' ∈ l → qi_ptr it = qi_ptr it' → it = it'.
Proof.
  intros Hnd [i Hi]%list_elem_of_lookup [j Hj]%list_elem_of_lookup Hp.
  assert (i = j) as -> by eauto using ptrs_lookup_inj. congruence.
Qed.

Lemma owned_sub l l' hs st : (∀ it, it ∈ l' → it ∈ l) → owned l hs st → owned l' hs st.
Proof. intros Hsub Ho it Hit. auto. Qed.

(** ** Handles follow the items *)

(** What is preserved while the indices are being rewritten. *)
Record moved (l : list QueueItem) (hs : gmap positive positive) (st st' : store) : Prop := {
  mv_owned : owned l hs st';
  mv_wf : store_wf st';
  mv_local : store_local l st st';
  mv_handle : ∀ it, Handle st' it = Handle st it
}.

Lemma moved_refl l hs st : owned l hs st → store_wf st → moved l hs st st.
Proof. split; auto with store. Qed.

Lemma moved_trans l hs st st' st'' :
  moved l hs st st' → moved l hs st' st'' → moved l hs st st''.
Proof.
  intros [Ho Hw Hl Hh] [Ho' Hw' Hl' Hh']. split; try done.
  - by eapply store_local_trans.
  - intros it. by rewrite Hh', Hh.
Qed.

Lemma set_index_spec l h st it i :
  it ∈ l → owned l (mh_handles h) st → store_wf st →
  wp (set_index it i) (λ _ '(h', st'), h' = h ∧ moved l (mh_handles h) st st' ∧
    indexOf st' it = Some i ∧
    ∀ it', qi_ptr it' ≠ qi_ptr it → indexOf st' it' = indexOf st it') (h, st).
Proof.
  intros Hit Hown Hst. destruct (Hown it Hit) as (hd & k & H1 & H2 & H3).
  unfold set_index. apply wp_bind. eapply wp_getsome; [cbn; rewrite H1; exact H2|].
  apply wp_modify. split_and!; [done|split| |].
  - intros it' Hit'. destruct (Hown it' Hit') as (hd' & k' & H1' & H2' & H3').
    exists hd', (if decide (hd = hd') then i else k').
    rewrite Handle_update, handles_update. split_and!; [done..|].
    case_decide; [by rewrite H3'|done].
  - auto with store.
  - apply store_local_update. eauto.
  - intros it'. apply Handle_update.
  - unfold indexOf. rewrite Handle_update, H1. cbn -[update_handle].
    by rewrite handles_update, decide_True, H3.
  - intros it' Hne. unfold indexOf. rewrite Handle_update.
    destruct (Handle st it') as [hd'|] eqn:E; [|done]. cbn -[update_handle].
    rewrite handles_update, decide_False; [done|]. intros <-.
    apply Hne. by eapply swf_inj.
Qed.

(** [reordered h st l' h' st']: the items of [h] have been rearranged to [l']. *)
Record reordered (h : maxMinHeap) (st : store) (l' : list QueueItem) (h' : maxMinHeap)
    (st' : store) : Prop := {
  ro_heap : h' = with_items l' h;
  ro_wf : heap_wf h' st';
  ro_store : store_wf st';
  ro_perm : l' ≡ₚ mh_items h;
  ro_local : store_local (mh_items h) st st';
  ro_handle : ∀ it, Handle st' it = Handle st it
}.

Lemma reordered_refl h st : heap_wf h st → store_wf st → reordered h st (mh_items h) h st.
Proof. split; auto with store. by destruct h. Qed.

Lemma reordered_trans h st l1 h1 st1 l2 h2 st2 :
  reordered h st l1 h1 st1 → reordered h1 st1 l2 h2 st2 → reordered h st l2 h2 st2.
Proof.
  intros [-> Hw1 Hs1 Hp1 Hl1 Hh1] [-> Hw2 Hs2 Hp2 Hl2 Hh2]. simpl in *. split; try done.
  - by rewrite Hp2.
  - eapply store_local_trans; [done|]. eapply store_local_weaken; [|done]. intros it. by rewrite Hp1.
  - intros it. by rewrite Hh2, Hh1.
Qed.

(** Writing a permutation of the items back and refreshing the indices gives a
    well-formed heap. *)
Lemma moved_reordered h st l' st' :
  heap_wf h st → l' ≡ₚ mh_items h → moved (mh_items h) (mh_handles h) st st' →
  indexed l' st' → reordered h st l' (with_items l' h) st'.
Proof.
  intros [Hok Hnd Hown Hidx Hdom] HP [Ho Hw Hl Hh] Hidx'. split; try done.
  split; simpl; try done.
  - by rewrite HP.
  - unfold ptrs. by rewrite HP.
  - eapply owned_sub; [|done]. intros it. by rewrite HP.
  - intros hd p [-> (it & Hit & Hhd)]%Hdom. split; [done|]. exists it.
    rewrite HP, Hh. auto.
Qed.

Lemma swap_spec h st i j :
  heap_wf h st → store_wf st → i < length (mh_items h) → j < length (mh_items h) →
  wp (swap i j) (λ _ '(h', st'), reordered h st (swapl i j (mh_items h)) h' st') (h, st).
Proof.
  intros Hwf Hst Hi Hj. pose proof (swapl_Permutation i j (mh_items h)) as HP.
  destruct (lookup_lt_is_Some_2 _ _ Hi) as [a Ha]. destruct (lookup_lt_is_Some_2 _ _ Hj) as [b Hb].
  assert (swapl i j (mh_items h) = <[j := a]> (<[i := b]> (mh_items h))) as Hsw
    by (unfold swapl; by rewrite Ha, Hb).
  assert (NoDup (ptrs (swapl i j (mh_items h)))) as Hnd
    by (unfold ptrs; rewrite HP; apply (mhw_nodup _ _ Hwf)).
  assert (∀ k x, swapl i j (mh_items h) !! k = Some x → x ∈ mh_items h) as Hin.
  { intros k x Hx. rewrite <- HP. by eapply list_elem_of_lookup_2. }
  destruct (lookup_lt_is_Some_2 (swapl i j (mh_items h)) i) as [x Hx]; [by rewrite length_swapl|].
  destruct (lookup_lt_is_Some_2 (swapl i j (mh_items h)) j) as [y Hy]; [by rewrite length_swapl|].
  unfold swap. apply wp_bind, (wp_getsome _ _ _ a); [done|].
  apply wp_bind, (wp_getsome _ _ _ b); [done|]. apply wp_bind, wp_modify. rewrite <- Hsw.
  apply wp_bind, (wp_getsome _ _ _ x); [done|]. apply wp_bind.
  eapply wp_mono; [apply (set_index_spec (mh_items h)); [by eapply Hin|apply Hwf|done]|].
  intros [] [h1 st1] (-> & Hm1 & Hx1 & Ho1).
  apply wp_bind, (wp_getsome _ _ _ y); [done|].
  eapply wp_mono; [apply (set_index_spec (mh_items h)); [by eapply Hin|apply Hm1..]|].
  intros [] [h2 st2] (-> & Hm2 & Hy2 & Ho2). simpl in Hm1, Hm2.
  apply moved_reordered; [done|done|by eapply moved_trans|].
  intros k z Hz. destruct (decide (k = j)) as [->|Hkj]; [congruence|].
  rewrite Ho2 by (intros E; apply Hkj; by eapply ptrs_lookup_inj).
  destruct (decide (k = i)) as [->|Hki]; [congruence|].
  rewrite Ho1 by (intros E; apply Hki; by eapply ptrs_lookup_inj).
  apply (mhw_index _ _ Hwf). rewrite swapl_lookup, tr_other in Hz by done. done.
Qed.

(** ** The loops compute the functions of [ArrayHeap]

    [sorts h st f c]: from [h], [c] runs to the end and rearranges the items by [f]. *)

Definition sorts (h : maxMinHeap) (st : store) (f : list QueueItem → list QueueItem)
    (c : HM unit) : Prop :=
  wp c (λ _ '(h', st'), reordered h st (f (mh_items h)) h' st') (h, st).

Lemma sorts_ret h st : heap_wf h st → store_wf st → sorts h st (λ l, l) (mret tt).
Proof. intros. apply wp_ret. by apply reordered_refl. Qed.

Lemma sorts_bind h st f g (c d : HM unit) :
  sorts h st f c →
  (∀ h' st', reordered h st (f (mh_items h)) h' st' → sorts h' st' g d) →
  sorts h st (λ l, g (f l)) (_ ← c; d).
Proof.
  intros Hc Hd. apply wp_bind. eapply wp_mono; [exact Hc|]. intros [] [h1 st1] Hr1.
  eapply wp_mono; [by eapply Hd|]. intros [] [h2 st2] Hr2.
  eapply reordered_trans; [exact Hr1|]. by rewrite (ro_heap _ _ _ _ _ Hr1) in Hr2 |- *.
Qed.

Lemma sorts_ext h st f g c : f (mh_items h) = g (mh_items h) → sorts h st f c → sorts h st g c.
Proof. unfold sorts. by intros ->. Qed.

Lemma reordered_length h st l h' st' :
  reordered h st l h' st' → length (mh_items h') = length (mh_items h).
Proof. intros [-> _ _ HP _ _]. simpl. by rewrite HP. Qed.

Lemma reordered_policy h st l h' st' : reordered h st l h' st' → mh_policy h' = mh_policy h.
Proof. by intros [-> _ _ _ _ _]. Qed.

Lemma lessAt_run h st i j :
  i < length (mh_items h) → j < length (mh_items h) →
  lessAt i j (h, st) = Some (ltAt (less (mh_policy h)) (mh_items h) i j, (h, st)).
Proof.
  intros [a Ha]%lookup_lt_is_Some_2 [b Hb]%lookup_lt_is_Some_2.
  unfold lessAt, mbind, gom_bind, item_at, getsome, gets, ltAt. by rewrite Ha, Hb.
Qed.

Section loops.
Context (pol : OrderingPolicy) (above : nat → nat → HM bool) (lt : QueueItem → QueueItem → bool).
Hypothesis Habove : ∀ h st i j, mh_policy h = pol →
  i < length (mh_items h) → j < length (mh_items h) →
  above i j (h, st) = Some (ltAt lt (mh_items h) i j, (h, st)).

Lemma wp_above h st i j (Q : bool → maxMinHeap * store → Prop) :
  mh_policy h = pol → i < length (mh_items h) → j < length (mh_items h) →
  Q (ltAt lt (mh_items h) i j) (h, st) → wp (above i j) Q (h, st).
Proof using Habove. intros. unfold wp. by rewrite Habove. Qed.

Lemma up_loop_spec fuel : ∀ i h st,
  mh_policy h = pol → heap_wf h st → store_wf st → i < length (mh_items h) → i < fuel →
  sorts h st (bubble_up lt fuel i) (up_loop above fuel i).
Proof using Habove.
  induction fuel as [|fuel IH]; intros i h st Hpol Hwf Hst Hi Hf; [lia|].
  unfold sorts. cbn [up_loop bubble_up].
  case_bool_decide as Hp; [by apply (sorts_ret h st)|].
  assert (0 < i) as Hi0 by (destruct i; [done|lia]).
  pose proof (parent_lt i Hi0). pose proof (parent_lt (parent i) ltac:(lia)).
  apply wp_bind, wp_above; [done|lia|done|].
  destruct (ltAt lt (mh_items h) (parent (parent i)) i) eqn:E; [|by apply (sorts_ret h st)].
  apply (sorts_bind h st (swapl i (parent (parent i))) (bubble_up lt fuel (parent (parent i))));
    [apply swap_spec; auto with lia|].
  intros h' st' Hr. pose proof (reordered_length _ _ _ _ _ Hr). pose proof (reordered_policy _ _ _ _ _ Hr).
  apply IH; [congruence|apply Hr|apply Hr|lia|lia].
Qed.

Lemma grandchildren_run n : ∀ h st j m,
  mh_policy h = pol → m < length (mh_items h) →
  grandchildren_loop above n j m (h, st) = Some (scan lt (mh_items h) n j m, (h, st)).
Proof using Habove.
  induction n as [|n IH]; intros h st j m Hpol Hm; [done|]. cbn.
  unfold mbind, gom_bind, gets. case_bool_decide as Hj; [|done].
  rewrite Habove by done. apply IH; [done|]. by destruct (ltAt lt (mh_items h) m j).
Qed.

Lemma find_child_run h st i :
  mh_policy h = pol →
  find_child above i (h, st) = Some (find_top lt (mh_items h) i, (h, st)).
Proof using Habove.
  intros Hpol. unfold find_child, find_top, mbind, gom_bind, gets.
  case_bool_decide as Hl; [done|]. case_bool_decide as Hr; cbn [andb].
  - rewrite Habove by (done || lia). rewrite grandchildren_run; [done|done|].
    destruct (ltAt lt (mh_items h) (2 * i + 1) (2 * i + 2)); lia.
  - unfold mret at 1, gom_ret at 1. cbv beta iota. rewrite grandchildren_run; [done|done|lia].
Qed.

Lemma down_loop_spec fuel : ∀ i h st,
  mh_policy h = pol → heap_wf h st → store_wf st → i < length (mh_items h) →
  length (mh_items h) ≤ fuel + i →
  sorts h st (trickle_down lt fuel i) (down_loop above fuel i).
Proof using Habove.
  induction fuel as [|fuel IH]; intros i h st Hpol Hwf Hst Hi Hf; [lia|]. cbn [down_loop].
  unfold sorts. apply wp_bind. unfold wp at 1. rewrite find_child_run by done. cbv beta iota.
  cbn [trickle_down]. destruct (find_top lt (mh_items h) i) as [m|] eqn:Htop.
  2:{ by apply (sorts_ret h st). }
  destruct (find_top_range lt _ _ _ Htop) as [Hnear%near_index Hm].
  assert (parent m < m) by (apply parent_lt; lia).
  apply wp_bind, wp_above; [done..|].
  destruct (ltAt lt (mh_items h) i m) eqn:E; [|by apply (sorts_ret h st)].
  apply (sorts_bind h st (swapl i m) (λ l, trickle_down lt fuel m
    (if bool_decide (parent m ≠ i) && ltAt lt l m (parent m) then swapl m (parent m) l else l)));
    [by apply swap_spec|].
  intros h1 st1 Hr1. pose proof (reordered_length _ _ _ _ _ Hr1). pose proof (reordered_policy _ _ _ _ _ Hr1).
  apply (sorts_bind h1 st1 (λ l, if bool_decide (parent m ≠ i) && ltAt lt l m (parent m)
    then swapl m (parent m) l else l)).
  - destruct Hr1 as [_ Hwf1 Hst1 _ _ _]. case_bool_decide; cbn [andb]; [|by apply sorts_ret].
    apply wp_bind, wp_above; [congruence|lia|lia|].
    destruct (ltAt lt (mh_items h1) m (parent m)); [apply swap_spec; auto with lia|].
    by apply (sorts_ret h1 st1).
  - intros h2 st2 Hr2. pose proof (reordered_length _ _ _ _ _ Hr2). pose proof (reordered_policy _ _ _ _ _ Hr2).
    apply IH; [congruence|apply Hr2|apply Hr2|lia|lia].
Qed.
End loops.

Lemma lessAt_above h st i j pol :
  mh_policy h = pol → i < length (mh_items h) → j < length (mh_items h) →
  lessAt i j (h, st) = Some (ltAt (less pol) (mh_items h) i j, (h, st)).
Proof. intros <-. apply lessAt_run. Qed.

Lemma flip_lessAt_above h st i j pol :
  mh_policy h = pol → i < length (mh_items h) → j < length (mh_items h) →
  flip lessAt i j (h, st) = Some (ltAt (flip (less pol)) (mh_items h) i j, (h, st)).
Proof. intros <- Hi Hj. rewrite ltAt_flip. by apply lessAt_run. Qed.

Lemma up_loops_spec h st i :
  heap_wf h st → store_wf st → i < length (mh_items h) →
  sorts h st (bubble_up (less (mh_policy h)) (S i) i) (upMin i) ∧
  sorts h st (bubble_up (flip (less (mh_policy h))) (S i) i) (upMax i).
Proof.
  intros. split; eapply up_loop_spec; eauto using lessAt_above, flip_lessAt_above with lia.
Qed.

Lemma heap_up_spec h st i :
  heap_wf h st → store_wf st → i < length (mh_items h) →
  sorts h st (up (less (mh_policy h)) i) (heap_up i).
Proof.
  intros Hwf Hst Hi. unfold sorts, heap_up, up.
  case_bool_decide as Hi0; [by apply (sorts_ret h st)|].
  pose proof (parent_lt i ltac:(lia)). unfold up_level. rewrite ltAt_flip.
  assert (sorts h st (swapl i (parent i)) (swap i (parent i))) as Hswap by (apply swap_spec; auto with lia).
  destruct (isMinLevel i); apply wp_bind; unfold wp at 1; rewrite lessAt_run by lia; cbv beta iota.
  - destruct (ltAt _ _ i (parent i)); [|by apply (up_loops_spec h st)].
    apply (sorts_bind h st (swapl i (parent i))); [done|]. intros h' st' Hr.
    pose proof (reordered_length _ _ _ _ _ Hr). rewrite <- (reordered_policy _ _ _ _ _ Hr).
    apply up_loops_spec; [apply Hr..|lia].
  - destruct (ltAt _ _ (parent i) i); [|by apply (up_loops_spec h st)].
    apply (sorts_bind h st (swapl i (parent i))); [done|]. intros h' st' Hr.
    pose proof (reordered_length _ _ _ _ _ Hr). rewrite <- (reordered_policy _ _ _ _ _ Hr).
    apply up_loops_spec; [apply Hr..|lia].
Qed.

Lemma heap_down_spec h st i :
  heap_wf h st → store_wf st → i < length (mh_items h) →
  sorts h st (down (less (mh_policy h)) i) (heap_down i).
Proof.
  intros Hwf Hst Hi. unfold sorts, heap_down, down, downMin, downMax.
  destruct (isMinLevel i); apply wp_bind, wp_gets; (eapply down_loop_spec;
    eauto using lessAt_above, flip_lessAt_above with lia).
Qed.

Lemma heapify_loop_spec n : ∀ h st,
  heap_wf h st → store_wf st → n ≤ length (mh_items h) →
  sorts h st (heapify_from (less (mh_policy h)) n) (heapify_loop n).
Proof.
  induction n as [|n IH]; intros h st Hwf Hst Hn; [by apply (sorts_ret h st)|].
  apply (sorts_bind h st (down (less (mh_policy h)) n)); [apply heap_down_spec; auto with lia|].
  intros h' st' Hr. pose proof (reordered_length _ _ _ _ _ Hr).
  rewrite <- (reordered_policy _ _ _ _ _ Hr). apply IH; [apply Hr..|lia].
Qed.

(** ** Effect of the operations *)

Lemma ptrs_notin l it it' : qi_ptr it ∉ ptrs l → it' ∈ l → qi_ptr it ≠ qi_ptr it'.
Proof. intros Hno Hit E. apply Hno. rewrite E. by apply elem_of_ptrs. Qed.

(** An item that does not carry [it]'s identity keeps its handle and its index when
    a handle for [it] is published. *)
Lemma publish_other it o st it' hd k :
  store_wf st → qi_ptr it ≠ qi_ptr it' →
  Handle st it' = Some hd → st_handles st !! hd = Some (heapItem it' k false) →
  hd ≠ st_next st ∧
  Handle (publish it o st) it' = Some hd ∧
  st_handles (publish it o st) !! hd = Some (heapItem it' k false).
Proof.
  intros Hst Hne Hh Ho. assert (hd ≠ st_next st) as Hfr
    by (pose proof (swf_handles _ Hst _ _ Ho); lia).
  split_and!; [done|..].
  - unfold Handle. simpl. by rewrite lookup_insert_ne.
  - simpl. by rewrite lookup_insert_ne by congruence.
Qed.

Lemma publish_self it o st :
  Handle (publish it o st) it = Some (st_next st) ∧
  st_handles (publish it o st) !! st_next st = Some o.
Proof. unfold Handle. simpl. by rewrite !lookup_insert_eq. Qed.

(** The heap just before [push] sifts the new item up. *)
Definition appended (it : QueueItem) (hi : positive) (h : maxMinHeap) : maxMinHeap :=
  with_handles (<[hi := hi]> (mh_handles h)) (with_items (mh_items h ++ [it]) h).

Lemma appended_wf h st it :
  heap_wf h st → store_wf st → item_ok it → qi_ptr it ∉ ptrs (mh_items h) →
  heap_wf (appended it (st_next st) h) (publish it (heapItem it (length (mh_items h)) false) st).
Proof.
  intros [Hok Hnd Hown Hidx Hdom] Hst Hit Hno. set (o := heapItem _ _ _).
  destruct (publish_self it o st) as [Hs1 Hs2].
  split; simpl.
  - apply Forall_app; auto.
  - unfold ptrs in *. rewrite fmap_app, NoDup_app. simpl. set_solver by apply NoDup_singleton.
  - intros it' [Hit'| ->%list_elem_of_singleton]%elem_of_app.
    + destruct (Hown it' Hit') as (hd & k & H1 & H2 & H3). exists hd, k.
      destruct (publish_other it o st it' hd k) as (Hfr & H1' & H3'); eauto using ptrs_notin.
      split_and!; [done| |done]. by rewrite lookup_insert_ne by congruence.
    + exists (st_next st), (length (mh_items h)). split_and!; [done|by rewrite lookup_insert_eq|done].
  - intros i it' [Hi|[Hlen Hi]]%lookup_app_Some.
    + assert (it' ∈ mh_items h) as Hit' by by eapply list_elem_of_lookup_2.
      destruct (Hown it' Hit') as (hd & k & H1 & H2 & H3).
      destruct (publish_other it o st it' hd k) as (Hfr & H1' & H3'); eauto using ptrs_notin.
      rewrite <- (Hidx i it' Hi). unfold indexOf. rewrite H1, H1'. cbn -[publish]. by rewrite H3, H3'.
    + apply list_lookup_singleton_Some in Hi as [Hi ->]. unfold indexOf. rewrite Hs1. cbn -[publish].
      rewrite Hs2. simpl. f_equal. lia.
  - intros hd p. rewrite lookup_insert. case_decide as E.
    + intros [= <-]. split; [done|]. exists it. subst hd. split; [set_solver|done].
    + intros [-> (it' & Hit' & Hh)]%Hdom. split; [done|]. exists it'. split; [set_solver|].
      destruct (Hown it' Hit') as (hd' & k & H1 & H2 & H3). simplify_eq.
      by destruct (publish_other it o st it' hd k) as (Hfr & H1' & H3'); eauto using ptrs_notin.
Qed.

Lemma push_run it h st :
  push it (h, st) = heap_up (length (mh_items h))
    (appended it (st_next st) h, publish it (heapItem it (length (mh_items h)) false) st).
Proof.
  unfold push, mbind, gom_bind, gets, getsome, on_heap, on_hstore, modify, alloc_handle. cbv beta iota.
  rewrite Handle_SetHandle, decide_True by done. cbv beta iota.
  cbn [mh_items with_handles with_items]. rewrite length_app. cbn [length].
  by rewrite Nat.add_sub.
Qed.

Lemma Add_spec h st it :
  mh_wf h st → store_wf st → item_ok it → qi_ptr it ∉ ptrs (mh_items h) →
  wp (Add it) (λ _ '(h', st'),
    mh_wf h' st' ∧ store_wf st' ∧ mh_policy h' = mh_policy h ∧
    mh_items h' = up (less (mh_policy h)) (length (mh_items h)) (mh_items h ++ [it]) ∧
    store_local (it :: mh_items h) st st') (h, st).
Proof.
  intros [Hwf Hb] Hst Hit Hno. unfold Add. apply wp_bind. unfold wp at 1. rewrite push_run.
  pose proof (appended_wf h st it Hwf Hst Hit Hno) as Hwf1.
  eapply wp_mono; [apply heap_up_spec; [done|by apply store_wf_publish|simpl; rewrite length_app; simpl; lia]|].
  intros [] [h1 st1] [-> Hw1 Hs1 HP Hl1 _]. apply wp_modify. simpl in HP, Hl1. split_and!; try done.
  - split; [by destruct Hw1; split|]. simpl. rewrite Hb, HP, total_bytes_app, Int.u64_add_l.
    simpl. f_equal. lia.
  - eapply store_local_trans; [apply (store_local_publish _ it); set_solver|].
    eapply store_local_weaken; [|done]. set_solver.
Qed.

(** The heap after [Remove] has dropped the last item [it]. *)
Definition dropped (it : QueueItem) (hd : positive) (n : nat) (h : maxMinHeap) : maxMinHeap :=
  sub_size it (with_handles (delete hd (mh_handles h)) (with_items (take n (mh_items h)) h)).

Lemma dropped_wf h st it hd l :
  heap_wf h st → store_wf st → mh_items h = l ++ [it] → Handle st it = Some hd →
  heap_wf (dropped it hd (length l) h) st.
Proof.
  intros [Hok Hnd Hown Hidx Hdom] Hst Hl Hhd.
  assert (∀ x, x ∈ l → x ∈ mh_items h) as Hsub by (rewrite Hl; set_solver).
  assert (∀ x, x ∈ l → Handle st x ≠ Some hd) as Hne.
  { intros x Hx E. rewrite Hl in Hnd. unfold ptrs in Hnd. rewrite fmap_app in Hnd.
    apply NoDup_app in Hnd as (_ & Hd & _). apply (Hd (qi_ptr x)); [by apply elem_of_ptrs|].
    rewrite (swf_inj _ Hst _ _ _ E Hhd). simpl. set_solver. }
  split; simpl; rewrite ?Hl, ?take_app_length.
  - rewrite Hl in Hok. by apply Forall_app in Hok as [].
  - rewrite Hl in Hnd. unfold ptrs in *. rewrite fmap_app in Hnd. by apply NoDup_app in Hnd as [].
  - intros x Hx. destruct (Hown x (Hsub x Hx)) as (hd' & k & H1 & H2 & H3). exists hd', k.
    split_and!; [done| |done]. rewrite lookup_delete_ne; [done|]. intros <-. by apply (Hne x).
  - intros i x Hx. apply Hidx. rewrite Hl. by apply lookup_app_l_Some.
  - intros hd' p [Hne' Hp]%lookup_delete_Some. destruct (Hdom _ _ Hp) as [-> (x & Hx & Hhx)].
    split; [done|]. exists x. split; [|done]. rewrite Hl in Hx.
    apply elem_of_app in Hx as [Hx|Hx%list_elem_of_singleton]; [done|congruence].
Qed.

(** The items after the removal of index [i]. *)
Definition remove_index (lt : QueueItem → QueueItem → bool) (i : nat) (l : list QueueItem)
    : list QueueItem :=
  let n := length l - 1 in
  if bool_decide (i < n) then down lt i (take n (swapl i n l)) else take n l.

Lemma swap_last {A} (l : list A) i x :
  l !! i = Some x → ∃ k, swapl i (length l - 1) l = k ++ [x] ∧ length k = length l - 1.
Proof.
  intros Hx. pose proof (lookup_lt_Some _ _ _ Hx) as Hi.
  exists (take (length l - 1) (swapl i (length l - 1) l)).
  rewrite length_take, length_swapl. split; [|lia].
  rewrite <- (take_drop (length l - 1) (swapl i (length l - 1) l)) at 1. f_equal.
  assert (swapl i (length l - 1) l !! (length l - 1) = Some x) as Hl
    by (rewrite swapl_lookup, tr_r by lia; done).
  rewrite (drop_S _ _ _ Hl). f_equal. apply drop_ge. rewrite length_swapl. lia.
Qed.

(** Both branches of [Remove]: the removed item goes to the last position, is
    dropped, and (when it was not last) the item that took its place moves down. *)
Lemma drop_spec h st it hd i n :
  heap_wf h st → store_wf st → Handle st it = Some hd → mh_items h !! i = Some it →
  n = length (mh_items h) - 1 →
  wp (if bool_decide (i < n) then
        _ ← swap i n;
        _ ← on_heap (λ h, with_items (take n (mh_items h)) h);
        _ ← on_heap (λ h, with_handles (delete hd (mh_handles h)) h);
        _ ← on_heap (sub_size it);
        heap_down i
      else
        _ ← on_heap (λ h, with_items (take n (mh_items h)) h);
        _ ← on_heap (λ h, with_handles (delete hd (mh_handles h)) h);
        on_heap (sub_size it))
    (λ _ '(h', st'),
      heap_wf h' st' ∧ store_wf st' ∧ mh_items h ≡ₚ it :: mh_items h' ∧
      mh_items h' = remove_index (less (mh_policy h)) i (mh_items h) ∧
      h' = with_items (mh_items h') (dropped it hd n h) ∧
      store_local (mh_items h) st st' ∧ (∀ x, Handle st' x = Handle st x) ∧
      is_Some (st_handles st' !! hd)) (h, st).
Proof.
  intros Hwf Hst Hhd Hi Hn. pose proof (lookup_lt_Some _ _ _ Hi) as Hlt.
  destruct (swap_last _ _ _ Hi) as (k & Hk & Hkl). rewrite <- Hn in Hk, Hkl.
  pose proof (swapl_Permutation i n (mh_items h)) as HP.
  unfold remove_index. rewrite <- Hn. case_bool_decide as Hin.
  - apply wp_bind. eapply wp_mono; [apply swap_spec; auto with lia|].
    intros [] [h1 st1] [-> Hw1 Hs1 _ Hl1 Hh1]. do 3 apply wp_bind, wp_modify.
    change (sub_size it _) with (dropped it hd n (with_items (swapl i n (mh_items h)) h)).
    assert (heap_wf (dropped it hd n (with_items (swapl i n (mh_items h)) h)) st1) as Hw2.
    { pose proof (dropped_wf (with_items (swapl i n (mh_items h)) h) st1 it hd k) as Hd.
      rewrite Hkl in Hd. apply Hd; [done|done|done|by rewrite Hh1]. }
    assert (mh_items (dropped it hd n (with_items (swapl i n (mh_items h)) h)) = k) as Hitems
      by (simpl; by rewrite Hk, take_app_length').
    eapply wp_mono; [apply heap_down_spec; [done|done|by rewrite Hitems, Hkl]|].
    intros [] [h2 st2] [-> Hw3 Hs3 HP3 Hl3 Hh3]. rewrite Hitems in HP3, Hl3. simpl in HP3.
    split_and!; try done; simpl.
    + transitivity (it :: k);
        [|apply perm_skip; symmetry; etransitivity; [apply down_Permutation|by rewrite <- Hitems]].
      transitivity (k ++ [it]); [by rewrite <- Hk|apply Permutation_app_comm].
    + eapply store_local_trans; [done|]. eapply store_local_weaken; [|done].
      intros x Hx. rewrite <- HP, Hk. set_solver.
    + intros x. by rewrite Hh3, Hh1.
    + assert (it ∈ swapl i n (mh_items h)) as Hit by (rewrite Hk; set_solver).
      destruct (mhw_owned _ _ Hw1 it Hit) as (hd' & j & H1 & H2 & H3).
      rewrite Hh1, Hhd in H1. injection H1 as <-.
      rewrite (sl_handles _ _ _ Hl3); [eauto|by eapply swf_handles|].
      intros x Hx. destruct (mhw_owned _ _ Hw2 x) as (hd2 & j2 & H4 & H5 & _); [by rewrite Hitems|].
      rewrite H4. intros [= ->]. simpl in H5. by rewrite lookup_delete_eq in H5.
  - do 2 apply wp_bind, wp_modify. apply wp_modify.
    assert (i = n) as -> by lia.
    assert (mh_items h = k ++ [it]) as Hk'.
    { rewrite <- Hk. unfold swapl. rewrite Hi. by rewrite !(list_insert_id _ _ _ Hi). }
    change (sub_size it _) with (dropped it hd n h).
    assert (mh_items (dropped it hd n h) = k) as Hitems by (simpl; by rewrite Hk', take_app_length').
    split_and!; auto with store.
    + pose proof (dropped_wf h st it hd k) as Hd. rewrite Hkl in Hd. auto.
    + rewrite Hitems, Hk'. apply Permutation_app_comm.
    + destruct (mhw_owned _ _ Hwf it) as (hd' & j & H1 & H2 & H3);
        [by eapply list_elem_of_lookup_2|]. rewrite Hhd in H1. simplify_eq. eauto.
Qed.

Lemma heap_wf_frame h st st' : heap_wf h st → store_agree (mh_items h) st st' → heap_wf h st'.
Proof.
  intros [Hok Hnd Hown Hidx Hdom] Hag. split; try done.
  - intros it Hit. destruct (Hown it Hit) as (hd & k & H1 & H2 & H3). exists hd, k.
    destruct (Hag it Hit) as [E1 E2]. by rewrite E1, E2.
  - intros i it Hi. rewrite <- (Hidx i it Hi). unfold indexOf.
    destruct (Hag it) as [E1 E2]; [by eapply list_elem_of_lookup_2|]. rewrite E1.
    destruct (Handle st it) as [hd|] eqn:E; [|done]. cbn. by rewrite E2.
  - intros hd p [-> (it & Hit & Hhd)]%Hdom. split; [done|]. exists it. by destruct (Hag it Hit) as [-> _].
Qed.

Lemma Remove_spec h st it hd :
  mh_wf h st → store_wf st → it ∈ mh_items h → Handle st it = Some hd →
  wp (Remove (Some hd)) (λ r '(h', st'),
    r = inl it ∧ mh_wf h' st' ∧ store_wf st' ∧ mh_policy h' = mh_policy h ∧
    mh_items h ≡ₚ it :: mh_items h' ∧
    (∃ i, mh_items h !! i = Some it ∧ mh_items h' = remove_index (less (mh_policy h)) i (mh_items h)) ∧
    dead_handle st' it ∧ store_local (mh_items h) st st') (h, st).
Proof.
  intros [Hwf Hb] Hst Hit Hhd. pose proof Hwf as [Hok Hnd Hown Hidx Hdom].
  pose proof Hit as [i Hi]%list_elem_of_lookup.
  destruct (Hown it Hit) as (hd' & k & H1 & H2 & H3). assert (hd' = hd) as -> by congruence.
  assert (k = i) as ->.
  { pose proof (Hidx i it Hi) as E. unfold indexOf in E. rewrite H1 in E. cbn in E.
    rewrite H3 in E. by simplify_eq/=. }
  unfold Remove. apply wp_bind. eapply wp_getsome; [exact H3|]. cbn [IsInvalidated].
  apply wp_bind, wp_gets. rewrite bool_decide_eq_true_2 by eauto. cbn [negb].
  apply wp_bind. eapply wp_getsome; [exact Hi|]. apply wp_bind, wp_gets. apply wp_bind.
  eapply wp_mono; [by eapply drop_spec|].
  intros [] [h' st'] (Hw' & Hs' & HP & Hitems & Hh' & Hloc & Hhandle & [o Ho]).
  apply wp_bind, wp_modify, wp_ret.
  assert (∀ x, x ∈ mh_items h' → Handle st x ≠ Some hd) as Hne.
  { intros x Hx E. unfold ptrs in Hnd. rewrite HP in Hnd. apply NoDup_cons in Hnd as [Hn _].
    apply Hn. rewrite (swf_inj _ Hst _ _ _ H1 E). by apply elem_of_ptrs. }
  assert (store_agree (mh_items h') st' (update_handle Invalidate hd st')) as Hag.
  { intros x Hx. rewrite Handle_update. split; [done|]. intros hx Hhx.
    rewrite handles_update, decide_False; [done|]. intros <-. rewrite Hhandle in Hhx. by eapply Hne. }
  split_and!; auto with store.
  - split; [by eapply heap_wf_frame|]. rewrite Hh'. simpl.
    rewrite Int.u64_atomic_sub_eq, Hb, HP by (by eapply Forall_forall in Hok). simpl.
    unfold Z.sub. rewrite Int.u64_add_l. f_equal. lia.
  - by rewrite Hh'.
  - eauto.
  - intros hx Hhx. rewrite Handle_update, Hhandle, H1 in Hhx. simplify_eq.
    rewrite handles_update, decide_True, Ho by done. simpl. eexists. split; [done|]. by destruct o.
  - eapply store_local_trans; [done|]. apply store_local_update. exists it. by rewrite Hhandle.
Qed.

(** *** Cleanup *)

(** The deletions from the handle map made by [Cleanup]. *)
Definition unmap (its : list QueueItem) (st : store) (hs : gmap positive positive)
    : gmap positive positive :=
  foldl (λ hs it, match Handle st it with Some hd => delete hd hs | None => hs end) hs its.

Lemma unmap_lookup its st hs hd p :
  unmap its st hs !! hd = Some p ↔
  hs !! hd = Some p ∧ ∀ it, it ∈ its → Handle st it ≠ Some hd.
Proof.
  unfold unmap. revert hs. induction its as [|x its IH]; intros hs; simpl.
  - split; [|by intros []]. intros. split; [done|]. by intros ? ?%elem_of_nil.
  - rewrite IH. destruct (Handle st x) as [hx|] eqn:Hx.
    + rewrite lookup_delete_Some. split.
      * intros [[Hne Hp] Hno]. split; [done|]. intros it [->|?]%elem_of_cons; [congruence|auto].
      * intros [Hp Hno]. split_and!; [|done|]; [|set_solver]. intros ->. apply (Hno x); set_solver.
    + split; intros [Hp Hno]; (split; [done|]); [|set_solver].
      intros it [->|?]%elem_of_cons; [congruence|auto].
Qed.

Lemma unmap_store its st st' hs :
  (∀ it, Handle st' it = Handle st it) → unmap its st' hs = unmap its st hs.
Proof.
  intros Hh. unfold unmap. revert hs. induction its as [|x its IH]; intros hs; simpl; [done|].
  by rewrite IH, Hh.
Qed.

Lemma partition_loop_run p l : ∀ rem keep h st,
  Forall item_ok l → Int.u64 (mh_byteSize h) = mh_byteSize h →
  partition_loop p l rem keep (h, st) =
  Some ((rem ++ List.filter p l, keep ++ List.filter (λ x, negb (p x)) l),
        (mkHeap (mh_items h) (unmap (List.filter p l) st (mh_handles h))
           (Int.u64 (mh_byteSize h - total_bytes (List.filter p l))) (mh_policy h),
         invalidate_items (List.filter p l) st)).
Proof.
  induction l as [|x l IH]; intros rem keep h st Hok Hb.
  - simpl. rewrite !app_nil_r, Z.sub_0_r, Hb. by destruct h.
  - apply Forall_cons in Hok as [Hx Hok]. cbn [partition_loop List.filter].
    destruct (p x) eqn:Hp; cbn [negb].
    + unfold mbind, gom_bind, gets, on_heap, on_hstore, modify. cbv beta iota.
      assert (Int.u64 (Int.u64_atomic_sub (mh_byteSize h) (qi_ByteSize x) - total_bytes (List.filter p l))
        = Int.u64 (mh_byteSize h - total_bytes (x :: List.filter p l))) as Hsz.
      { rewrite Int.u64_atomic_sub_eq by done. unfold Z.sub. rewrite Int.u64_add_l. f_equal. simpl. lia. }
      assert (∀ x y, Int.u64 (Int.u64_atomic_sub x y) = Int.u64_atomic_sub x y) as Hu
        by (intros; apply Int.u64_u64).
      unfold unmap, invalidate_items. cbn [foldl]. unfold invalidate_item at 2.
      destruct (Handle st x) as [hd|] eqn:Hh; cbv beta iota;
        (unfold mret, gom_ret; cbv beta iota); (rewrite IH; [|done|apply Hu]);
        cbn [mh_items mh_handles mh_byteSize mh_policy sub_size with_byteSize with_handles];
        rewrite Hsz, <- (assoc_L (++)); [|done].
      by rewrite (unmap_store _ st (update_handle Invalidate hd st)) by (intros; apply Handle_update).
    + rewrite IH by done. by rewrite <- (assoc_L (++)).
Qed.

Lemma reindex_loop_spec (l0 l : list QueueItem) : ∀ n h st,
  (∀ it, it ∈ l → it ∈ l0) → NoDup (ptrs l) → owned l0 (mh_handles h) st → store_wf st →
  wp (reindex_loop n l) (λ _ '(h', st'), h' = h ∧ moved l0 (mh_handles h) st st' ∧
    (∀ i it, l !! i = Some it → indexOf st' it = Some (n + i)) ∧
    (∀ it, qi_ptr it ∉ ptrs l → indexOf st' it = indexOf st it)) (h, st).
Proof.
  induction l as [|x l IH]; intros n h st Hsub Hnd Hown Hst; cbn [reindex_loop].
  { apply wp_ret. split_and!; auto using moved_refl. by intros i it. }
  unfold ptrs in Hnd. rewrite fmap_cons in Hnd. apply NoDup_cons in Hnd as [Hx Hnd]. fold (ptrs l) in *.
  apply wp_bind. eapply wp_mono; [apply (set_index_spec l0); [set_solver|done..]|].
  intros [] [h1 st1] (-> & Hm1 & Hi1 & Ho1).
  eapply wp_mono; [apply IH; [set_solver|done|apply Hm1..]|].
  intros [] [h2 st2] (-> & Hm2 & Hi2 & Ho2). split_and!; [done|by eapply moved_trans|..].
  - intros [|i] it; simpl.
    + intros [= <-]. rewrite Ho2 by done. rewrite Hi1. f_equal. lia.
    + intros Hit. rewrite (Hi2 i it Hit). f_equal. lia.
  - intros it Hno. unfold ptrs in Hno. rewrite fmap_cons in Hno. apply not_elem_of_cons in Hno as [H1 H2].
    rewrite Ho2 by done. by apply Ho1.
Qed.

(** The items after [Cleanup]. *)
Definition cleaned (lt : QueueItem → QueueItem → bool) (p : QueueItem → bool) (l : list QueueItem)
    : list QueueItem :=
  if bool_decide (0 < length (List.filter p l)) then heapify lt (List.filter (λ x, negb (p x)) l)
  else l.

Lemma filter_nil_negb {A} (p : A → bool) l :
  List.filter p l = [] → List.filter (λ x, negb (p x)) l = l.
Proof.
  induction l as [|x l IH]; simpl; [done|]. destruct (p x); [done|]. intros. simpl. by rewrite IH.
Qed.

Lemma heapify_Permutation {A} (lt : A → A → bool) l : heapify lt l ≡ₚ l.
Proof. apply heapify_from_Permutation. Qed.

(** What [Cleanup] has established once the predicate has been applied to every
    item: the kept items still own their handles. *)
Lemma kept_owned h st p (rem := List.filter p (mh_items h))
    (keep := List.filter (λ x, negb (p x)) (mh_items h)) :
  heap_wf h st → store_wf st →
  owned keep (unmap rem st (mh_handles h)) (invalidate_items rem st) ∧
  (∀ x y, x ∈ rem → y ∈ keep → qi_ptr x ≠ qi_ptr y).
Proof.
  intros Hwf Hst.
  assert (∀ x y, x ∈ rem → y ∈ keep → qi_ptr x ≠ qi_ptr y) as Hdis.
  { intros x y [Hx Hpx]%filter_In_elem [Hy Hpy]%filter_In_elem E.
    rewrite (ptrs_elem_inj _ _ _ (mhw_nodup _ _ Hwf) Hx Hy E) in Hpx. by rewrite Hpx in Hpy. }
  split; [|done]. intros y Hy. pose proof Hy as [Hy' _]%filter_In_elem.
  destruct (mhw_owned _ _ Hwf y Hy') as (hd & k & H1 & H2 & H3). exists hd, k.
  assert (∀ x, x ∈ rem → Handle st x ≠ Some hd) as Hno.
  { intros x Hx E. apply (Hdis x y Hx Hy). by eapply swf_inj. }
  rewrite Handle_invalidate_items, handles_invalidate_items_other by done. split_and!; [done| |done].
  by apply unmap_lookup.
Qed.

(** Re-indexing and re-building the heap from the kept items. *)
Lemma rebuild_spec h st l n :
  Forall item_ok l → NoDup (ptrs l) → owned l (mh_handles h) st → store_wf st →
  (∀ hd p, mh_handles h !! hd = Some p → p = hd ∧ ∃ it, it ∈ l ∧ Handle st it = Some hd) →
  mh_items h = l → n = length l `div` 2 →
  wp (_ ← reindex_loop 0 l; heapify_loop n)
    (λ _ '(h', st'), h' = with_items (heapify (less (mh_policy h)) l) h ∧ heap_wf h' st' ∧
      store_wf st' ∧ store_local l st st' ∧ ∀ it, Handle st' it = Handle st it) (h, st).
Proof.
  intros Hok Hnd Hown Hst Hdom Hl ->. apply wp_bind.
  eapply wp_mono; [by apply (reindex_loop_spec l l)|].
  intros [] [h1 st1] (-> & [Ho1 Hw1 Hl1 Hh1] & Hidx & _).
  assert (heap_wf h st1) as Hwf1.
  { split; rewrite ?Hl; try done. intros hd p [-> (it & Hit & Hhd)]%Hdom.
    split; [done|]. exists it. by rewrite Hh1. }
  eapply wp_mono; [apply (heapify_loop_spec _ h st1); [done|done|]|].
  { rewrite Hl. apply Nat.Div0.div_le_upper_bound; lia. }
  intros [] [h2 st2] [-> Hw2 Hs2 _ Hl2 Hh2]. rewrite Hl in *. split_and!; try done.
  - by eapply store_local_trans.
  - intros it. by rewrite Hh2, Hh1.
Qed.

Lemma dead_handle_kept h st p l st' (rem := List.filter p (mh_items h)) :
  heap_wf h st → store_wf st → store_local l (invalidate_items rem st) st' →
  (∀ x y, x ∈ rem → y ∈ l → qi_ptr x ≠ qi_ptr y) →
  (∀ it, Handle st' it = Handle st it) → Forall (dead_handle st') rem.
Proof.
  intros Hwf Hst Hloc Hdis Hh. apply Forall_forall. intros x Hx hd. rewrite Hh. intros Hhd.
  pose proof Hx as [Hx' _]%filter_In_elem.
  destruct (mhw_owned _ _ Hwf x Hx') as (hd' & k & H1 & H2 & H3).
  rewrite (sl_handles _ _ _ Hloc).
  - rewrite H1 in Hhd. injection Hhd as <-. by eapply handles_invalidate_items_in.
  - rewrite invalidate_items_next. by eapply swf_handleOf.
  - intros y Hy E. rewrite Handle_invalidate_items in E. apply (Hdis x y Hx Hy).
    exact (swf_inj _ Hst _ _ _ Hhd E).
Qed.

Lemma Cleanup_spec h st p :
  mh_wf h st → store_wf st →
  wp (Cleanup p) (λ removed '(h', st'),
    mh_wf h' st' ∧ store_wf st' ∧ mh_policy h' = mh_policy h ∧
    removed = List.filter p (mh_items h) ∧
    mh_items h' = cleaned (less (mh_policy h)) p (mh_items h) ∧
    Forall (dead_handle st') removed ∧ store_local (mh_items h) st st') (h, st).
Proof.
  intros [Hwf Hb] Hst. destruct (kept_owned h st p Hwf Hst) as [Hown Hdis].
  pose proof Hwf as [Hok Hnd _ _ Hdom].
  unfold Cleanup. apply wp_bind, wp_gets, wp_bind. unfold wp at 1.
  rewrite partition_loop_run by (done || by rewrite Hb, Int.u64_u64). cbn [app]. unfold cleaned.
  set (rem := List.filter p (mh_items h)) in *.
  set (keep := List.filter (λ x, negb (p x)) (mh_items h)) in *.
  assert (∀ x, x ∈ rem → x ∈ mh_items h) as Hsub by (intros x [? _]%filter_In_elem; done).
  assert (∀ x, x ∈ keep → x ∈ mh_items h) as Hsub' by (intros x [? _]%filter_In_elem; done).
  assert (Int.u64 (mh_byteSize h - total_bytes rem) = Int.u64 (total_bytes keep)) as Hbytes.
  { rewrite Hb. unfold Z.sub. rewrite Int.u64_add_l. f_equal.
    rewrite (total_bytes_filter_split p (mh_items h)). fold rem keep. lia. }
  case_bool_decide as Hrem.
  - apply wp_bind, wp_bind, wp_modify. cbn [with_items mh_handles mh_byteSize mh_policy].
    apply wp_bind, wp_gets. cbn [mh_items].
    eapply wp_mono; [apply (rebuild_spec _ _ keep); cbn [mh_handles mh_items]; auto with store|].
    + by apply Forall_filter_list.
    + by apply NoDup_filter_fmap.
    + intros hd q [Hq Hno]%unmap_lookup. destruct (Hdom _ _ Hq) as [-> (it & Hit & Hhd)].
      split; [done|]. exists it. rewrite Handle_invalidate_items. split; [|done].
      apply filter_In_elem. split; [done|]. destruct (p it) eqn:Hp; [|done].
      exfalso. apply (Hno it); [by apply filter_In_elem|done].
    + intros [] [h' st'] (-> & Hw & Hs & Hloc & Hh). apply wp_ret. cbn [mh_policy] in *.
      split_and!; try done.
      * split; [done|]. cbn [mh_byteSize mh_items with_items]. rewrite heapify_Permutation. done.
      * eapply (dead_handle_kept h st p keep); [done..|]. intros it. by rewrite Hh, Handle_invalidate_items.
      * eapply store_local_trans; [by apply (store_local_invalidate_items _ rem)|].
        eapply store_local_weaken; [exact Hsub'|done].
  - assert (rem = []) as Hnil by (destruct rem; [done|simpl in Hrem; lia]).
    rewrite Hnil in *. apply wp_bind, wp_ret, wp_ret. cbn [unmap invalidate_items foldl].
    split_and!; auto with store.
    split; [by destruct Hwf; split|]. cbn [mh_byteSize mh_items]. rewrite Hbytes. unfold keep. by rewrite filter_nil_negb.
Qed.

Lemma invalidate_loop_run l : ∀ h st,
  invalidate_loop l (h, st) = Some (tt, (h, invalidate_items l st)).
Proof.
  induction l as [|x l IH]; intros h st; simpl; [done|].
  unfold mbind, gom_bind, on_hstore, modify. by rewrite IH.
Qed.

Lemma new_wf pol st : mh_wf (newMaxMinHeap pol) st.
Proof.
  split; [|done]. split; simpl; [done|apply NoDup_nil_2|by intros ? ?%elem_of_nil|by intros ??|].
  intros hd p. by rewrite lookup_empty.
Qed.

Lemma Drain_spec h st :
  mh_wf h st → store_wf st →
  wp Drain (λ removed '(h', st'),
    mh_wf h' st' ∧ store_wf st' ∧ removed = mh_items h ∧ h' = newMaxMinHeap (mh_policy h) ∧
    Forall (dead_handle st') removed ∧ store_local (mh_items h) st st') (h, st).
Proof.
  intros [Hwf Hb] Hst. unfold Drain. apply wp_bind, wp_gets, wp_bind. unfold wp at 1.
  rewrite invalidate_loop_run. apply wp_bind, wp_modify, wp_ret.
  split_and!; auto with store; [apply new_wf|].
  apply Forall_forall. intros it Hit hd. rewrite Handle_invalidate_items. intros Hhd.
  destruct (mhw_owned _ _ Hwf it Hit) as (hd' & k & H1 & H2 & H3).
  rewrite H1 in Hhd. injection Hhd as <-. by eapply handles_invalidate_items_in.
Qed.

(** ** The heap meets the queue contract, for every ordering policy *)

Lemma cleaned_Permutation lt p l : cleaned lt p l ≡ₚ List.filter (λ x, negb (p x)) l.
Proof.
  unfold cleaned. case_bool_decide as Hr; [apply heapify_Permutation|].
  rewrite filter_nil_negb; [done|]. destruct (List.filter p l); [done|simpl in Hr; lia].
Qed.

#[export] Program Instance maxMinHeap_Spec : SafeQueueSpec maxMinHeap := {|
  sq_contents := mh_items;
  sq_wf := mh_wf
|}.
Next Obligation. intros h st st' [Hwf Hb] _ Hag. split; [by eapply heap_wf_frame|done]. Qed.
Next Obligation. intros h st [Hwf _]. apply (mhw_ok _ _ Hwf). Qed.
Next Obligation. intros h st [Hwf _]. apply (mhw_nodup _ _ Hwf). Qed.
Next Obligation.
  intros h st it [Hwf _] Hit. destruct (mhw_owned _ _ Hwf it Hit) as (hd & k & ? & ? & ?).
  exists hd. split; eauto.
Qed.
Next Obligation. done. Qed.
Next Obligation. intros h st [_ Hb]. exact Hb. Qed.
Next Obligation. intros h st _. simpl. unfold PeekHead. by destruct (mh_items h). Qed.
Next Obligation.
  intros h st it _. simpl. unfold PeekHead. destruct (mh_items h); [done|]. intros [= ->]. set_solver.
Qed.
Next Obligation.
  intros h st _. simpl. unfold PeekTail. destruct (mh_items h) as [|x [|y [|z l]]]; try done.
  by destruct (less (mh_policy h) y z).
Qed.
Next Obligation.
  intros h st it _. simpl. unfold PeekTail. destruct (mh_items h) as [|x [|y [|z l]]]; try done;
    [intros [= ->]; set_solver..|].
  destruct (less (mh_policy h) y z); intros [= ->]; set_solver.
Qed.
Next Obligation.
  intros h st it Hwf Hst Hit Hno. eapply wp_mono; [by apply Add_spec|].
  intros [] [h' st'] (? & ? & _ & Hitems & ?). split_and!; try done.
  rewrite Hitems, up_Permutation. apply Permutation_app_comm.
Qed.
Next Obligation.
  intros h st it hd Hwf Hst Hit Hhd. eapply wp_mono; [by eapply Remove_spec|].
  intros r [h' st'] (? & ? & ? & ? & ? & ? & ? & ?). split_and!; done.
Qed.
Next Obligation.
  intros h st [hd|] Hinv; simpl; [|done]. destruct (Hinv hd eq_refl) as (o & Ho & Hi).
  unfold Remove, mbind, gom_bind, getsome. by rewrite Ho, Hi.
Qed.
Next Obligation.
  intros h st p Hwf Hst. eapply wp_mono; [by apply Cleanup_spec|].
  intros r [h' st'] (? & ? & ? & ? & Hitems & ? & ?). split_and!; try done.
  rewrite Hitems. apply cleaned_Permutation.
Qed.
Next Obligation.
  intros h st Hwf Hst. eapply wp_mono; [by apply Drain_spec|].
  by intros r [h' st'] (? & ? & ? & -> & ? & ?).
Qed.
