(* ===== verification/HeapOrder.v ===== *)
(** * The max-min heap as a priority queue

    [MaxMinHeap.v] shows that [maxminheap.go] holds the right multiset of items
    and keeps their handles right, for every policy. This file is about the order:
    for a policy that is a strict weak order, which operations keep the item of
    highest priority at the head and the item of lowest priority at the tail.

    [Add] keeps the order, ties included. Removing the head and [Cleanup] keep it
    when no two items of the heap have equal priority. Two closed examples show
    that the remaining cases do not: [Remove] with the handle of an item inside the
    heap, and [Remove] of the head in the presence of ties. *)

From stdpp Require Import prelude gmap strings list sorting.
From Stdlib Require Import Lia Sorted.
From S2P Require Import Prelude FlowTypes Ordering SafeQueue ArrayHeap MaxMinHeap.

(** ** Definitions *)

Definition ordered_heap (h : maxMinHeap) : Prop :=
  heap_ordered (less (mh_policy h)) (mh_items h).

(** No two items of the heap have the same priority. *)
Definition distinct_priorities (h : maxMinHeap) : Prop :=
  no_ties (less (mh_policy h)) (mh_items h).

(** The uses of the heap that keep it ordered. *)
Inductive heap_step : maxMinHeap * store → maxMinHeap * store → Prop :=
  | hs_add h st it s' :
      item_ok it → qi_ptr it ∉ ptrs (mh_items h) →
      Add it (h, st) = Some (tt, s') → heap_step (h, st) s'
  | hs_pop h st it r s' :
      distinct_priorities h →
      PeekHead h = Some it → Remove (Handle st it) (h, st) = Some (r, s') → heap_step (h, st) s'
  | hs_cleanup h st p r s' :
      distinct_priorities h →
      Cleanup p (h, st) = Some (r, s') → heap_step (h, st) s'
  | hs_drain h st r s' :
      Drain (h, st) = Some (r, s') → heap_step (h, st) s'.

(** Taking the head until the heap is empty, as the dispatcher does. *)
Fixpoint pop_all (n : nat) : HM (list QueueItem) :=
  match n with
  | O => mret []
  | S n' =>
      head ← gets (λ '(h, st), PeekHead h);
      match head with
      | None => mret []
      | Some it =>
          handle ← gets (λ '(h, st), Handle st it);
          _ ← Remove handle;
          rest ← pop_all n';
          mret (it :: rest)
      end
  end.

(** ** Head and tail *)

Section order.
Context (h : maxMinHeap) `{Hswo : !StrictWeakOrder (less (mh_policy h))}.

Lemma ordered_head it :
  ordered_heap h → PeekHead h = Some it → ∀ y, y ∈ mh_items h → less (mh_policy h) y it = false.
Proof using Hswo.
  intros Hord Hit y [j Hy]%list_elem_of_lookup. eapply (ordered_root _ (mh_items h)); [done| |done].
  unfold PeekHead in Hit. by destruct (mh_items h).
Qed.

Lemma ordered_last it :
  ordered_heap h → PeekTail h = Some it → ∀ y, y ∈ mh_items h → less (mh_policy h) it y = false.
Proof using Hswo.
  unfold ordered_heap, PeekTail. intros Hord Hit y [j Hy]%list_elem_of_lookup.
  destruct (mh_items h) as [|a [|b [|c l]]] eqn:Hl; [done|..].
  - simplify_eq. destruct j; [|done]. simplify_eq/=. apply swo_irrefl.
  - simplify_eq. destruct j as [|[|]]; simplify_eq/=; [|apply swo_irrefl].
    assert (heap_rel (less (mh_policy h)) true [y; it] 0 1) as Hr
      by (apply Hord; [apply anc_root; lia|simpl; lia|auto]). exact Hr.
  - eapply (ordered_tail _ (a :: b :: c :: l) (if less (mh_policy h) b c then 2 else 1) j);
      [done|simpl; lia|done| |done]. destruct (less (mh_policy h) b c); by simplify_eq/=.
Qed.

Lemma remove_index_head it i :
  ordered_heap h → distinct_priorities h → NoDup (ptrs (mh_items h)) →
  PeekHead h = Some it → mh_items h !! i = Some it →
  heap_ordered (less (mh_policy h)) (remove_index (less (mh_policy h)) i (mh_items h)).
Proof using Hswo.
  intros Hord Hnt Hnd Hit Hi. assert (mh_items h !! 0 = Some it) as H0
    by (unfold PeekHead in Hit; by destruct (mh_items h)).
  assert (i = 0) as -> by by eapply ptrs_lookup_inj.
  unfold remove_index. case_bool_decide.
  - apply remove_root_ordered; [done|lia..|done|done].
  - intros a j Haj%anc_lt Hj. rewrite length_take in Hj. lia.
Qed.
End order.

Lemma no_ties_sublist {A} (lt : A → A → bool) l k : sublist k l → no_ties lt l → no_ties lt k.
Proof.
  intros Hs Hnt i j Hij Hi Hj.
  destruct (lookup_lt_is_Some_2 _ _ Hi) as [x Hx]. destruct (lookup_lt_is_Some_2 _ _ Hj) as [y Hy].
  assert (∃ f, (∀ a b, a < b → f a < f b) ∧ ∀ a z, k !! a = Some z → l !! f a = Some z)
    as (f & Hinc & Hf).
  { clear -Hs. induction Hs as [|z l k Hs (f & Hinc & Hf)|z l k Hs (f & Hinc & Hf)].
    - by exists (λ a, a).
    - exists (λ a, match a with O => O | S a => S (f a) end). split.
      + intros [|a] [|b] ?; try lia. specialize (Hinc a b). lia.
      + intros [|a]; [done|]. apply Hf.
    - exists (λ a, S (f a)). split; [intros a b ?; specialize (Hinc a b); lia|]. intros a. apply Hf. }
  assert (f i ≠ f j) by (destruct (Nat.lt_total i j) as [E|[E|E]]; [apply Hinc in E|done|apply Hinc in E]; lia).
  unfold no_ties, ltAt in *. rewrite Hx, Hy. specialize (Hnt (f i) (f j)).
  rewrite (Hf i x), (Hf j y) in Hnt by done.
  apply Hnt; [done|by eapply lookup_lt_Some, Hf..].
Qed.

Lemma filter_sublist {A} (p : A → bool) l : sublist (List.filter p l) l.
Proof. induction l as [|x l IH]; simpl; [constructor|]. destruct (p x); by constructor. Qed.

(** ** Operations that keep the order *)

Record good (pol : OrderingPolicy) (h : maxMinHeap) (st : store) : Prop := {
  good_wf : mh_wf h st;
  good_store : store_wf st;
  good_policy : mh_policy h = pol;
  good_order : ordered_heap h
}.

Lemma wp_exec {S A} (c : GoM S A) (Q : A → S → Prop) s a s' :
  wp c Q s → c s = Some (a, s') → Q a s'.
Proof. unfold wp. intros HQ E. by rewrite E in HQ. Qed.

Lemma ordered_nil {A} (lt : A → A → bool) : heap_ordered lt [].
Proof. intros a j _ Hj. simpl in Hj. lia. Qed.

Lemma new_good pol st : store_wf st → good pol (newMaxMinHeap pol) st.
Proof. split; [apply new_wf|done|done|apply ordered_nil]. Qed.

Lemma PeekHead_elem h it : PeekHead h = Some it → it ∈ mh_items h.
Proof. unfold PeekHead. destruct (mh_items h); [done|]. intros [= ->]. set_solver. Qed.

Lemma pop_spec pol h st it hd `{!StrictWeakOrder (less pol)} :
  good pol h st → distinct_priorities h → PeekHead h = Some it → Handle st it = Some hd →
  wp (Remove (Some hd)) (λ r '(h', st'), r = inl it ∧ good pol h' st' ∧
    mh_items h ≡ₚ it :: mh_items h' ∧ dead_handle st' it ∧
    store_local (mh_items h) st st') (h, st).
Proof.
  intros [Hwf Hst <- Hord] Hnt Hit Hhd.
  pose proof (PeekHead_elem h it Hit) as Hin.
  eapply wp_mono; [by eapply Remove_spec|].
  intros r [h' st'] (-> & Hwf' & Hst' & Hpol & HP & (i & Hi & Hitems) & Hdead & Hloc).
  split_and!; [done| |done..]. split; [done..|]. unfold ordered_heap. rewrite Hitems, Hpol.
  eapply remove_index_head; eauto. apply Hwf.
Qed.

Lemma head_handle h st it : mh_wf h st → PeekHead h = Some it → ∃ hd, Handle st it = Some hd.
Proof.
  intros [Hwf _] Hit.
  destruct (mhw_owned _ _ Hwf it (PeekHead_elem h it Hit)) as (hd & k & Hhd & _). eauto.
Qed.

Lemma heap_step_good pol h st h' st' `{!StrictWeakOrder (less pol)} :
  heap_step (h, st) (h', st') → good pol h st → good pol h' st'.
Proof.
  intros Hstep Hg. pose proof Hg as [Hwf Hst Hpol Hord]. inversion Hstep as
    [? ? it ? Hok Hno Hrun|? ? it r ? Hnt Hit Hrun|? ? p r ? Hnt Hrun|? ? r ? Hrun]; subst; clear Hstep.
  - pose proof (wp_exec _ _ _ _ _ (Add_spec h st it Hwf Hst Hok Hno) Hrun)
      as (Hwf' & Hst' & Hp' & Hitems & _).
    split; [done..|]. unfold ordered_heap. rewrite Hitems, Hp'. by apply push_ordered.
  - destruct (head_handle h st it) as [hd Hhd]; [done..|]. rewrite Hhd in *.
    eapply wp_exec in Hrun; [|by eapply pop_spec]. by destruct Hrun as (_ & ? & _).
  - pose proof (wp_exec _ _ _ _ _ (Cleanup_spec h st p Hwf Hst) Hrun)
      as (Hwf' & Hst' & Hp' & _ & Hitems & _).
    split; [done..|]. unfold ordered_heap. rewrite Hitems, Hp'. unfold cleaned.
    case_bool_decide; [|done]. apply heapify_ordered; [done|].
    by eapply no_ties_sublist, Hnt; apply filter_sublist.
  - pose proof (wp_exec _ _ _ _ _ (Drain_spec h st Hwf Hst) Hrun)
      as (Hwf' & Hst' & _ & -> & _).
    split; [done..|apply ordered_nil].
Qed.

Lemma heap_reach_good pol s s' `{!StrictWeakOrder (less pol)} :
  rtc heap_step s s' → good pol s.1 s.2 → good pol s'.1 s'.2.
Proof.
  induction 1 as [|[h1 st1] [h2 st2] s3 Hstep _ IH]; [done|].
  intros Hg. apply IH. by eapply heap_step_good.
Qed.

(** Every heap reachable from an empty one by adding items, removing the head,
    cleaning up and draining (the last three on heaps without equal priorities) is
    well formed, its [PeekHead] is an item that no other item beats and its
    [PeekTail] an item that beats no other, for every policy that is a strict weak
    order. *)
Theorem heap_reachable_head_tail (pol : OrderingPolicy) (st0 : store) (h : maxMinHeap) (st : store)
    (Hpol : StrictWeakOrder (less pol)) (Hst0 : store_wf st0)
    (Hreach : rtc heap_step (newMaxMinHeap pol, st0) (h, st)) :
  mh_wf h st ∧ store_wf st ∧
  (∀ it, PeekHead h = Some it → ∀ y, y ∈ mh_items h → less pol y it = false) ∧
  (∀ it, PeekTail h = Some it → ∀ y, y ∈ mh_items h → less pol it y = false).
Proof.
  apply (heap_reach_good pol) in Hreach as [Hwf Hst <- Hord]; [|done|by apply new_good]. simpl in *.
  split_and!; [done|done|intros it Hit; by apply (ordered_head h)|intros it Hit; by apply (ordered_last h)].
Qed.

Lemma distinct_perm h h' it :
  mh_policy h' = mh_policy h → mh_items h ≡ₚ it :: mh_items h' →
  distinct_priorities h → distinct_priorities h'.
Proof.
  unfold distinct_priorities. intros -> HP Hnt.
  apply (no_ties_Permutation _ _ _ HP) in Hnt. eapply no_ties_sublist, Hnt. by constructor.
Qed.

(** Heap sort: taking the head of an ordered heap without equal priorities until
    it is empty returns all of its items, each exactly once, in priority order,
    and leaves the heap empty. *)
Lemma pop_all_sorted (pol : OrderingPolicy) (h : maxMinHeap) (st : store)
    (Hpol : StrictWeakOrder (less pol)) (Hgood : good pol h st) (Hnt : distinct_priorities h) :
  wp (pop_all (length (mh_items h))) (λ out '(h', st'),
    out ≡ₚ mh_items h ∧ StronglySorted (λ a b, less pol b a = false) out ∧
    mh_items h' = [] ∧ mh_wf h' st') (h, st).
Proof.
  remember (length (mh_items h)) as n eqn:Hn. revert h st Hn Hgood Hnt.
  induction n as [|n IH]; intros h st Hn Hg Hnt; simpl.
  { apply wp_ret. destruct (mh_items h) eqn:E; [|done]. split_and!; [done|constructor|done|apply Hg]. }
  apply wp_bind, wp_gets. destruct (PeekHead h) as [it|] eqn:Hit.
  2:{ unfold PeekHead in Hit. by destruct (mh_items h). }
  destruct (head_handle h st it) as [hd Hhd]; [apply Hg|done|].
  apply wp_bind, wp_gets. rewrite Hhd. apply wp_bind. eapply wp_mono; [by eapply pop_spec|].
  intros r [h1 st1] (_ & Hg1 & HP & _ & _). apply wp_bind.
  pose proof (Permutation_length HP) as Hlen. simpl in Hlen.
  eapply wp_mono; [apply IH; [lia|done|]|].
  { eapply distinct_perm; [|done|done]. by rewrite (good_policy _ _ _ Hg), (good_policy _ _ _ Hg1). }
  intros out [h2 st2] (HPo & Hs & He & Hw). apply wp_ret. split_and!; [by rewrite HPo, HP| |done..].
  constructor; [done|]. apply Forall_forall. intros y Hy.
  destruct Hg as [Hwf Hst <- Hord]. apply (ordered_head h it); [done..|].
  rewrite HP, <- HPo. by right.
Qed.

#[export] Instance ge_dec {A} (lt : A → A → bool) a b : Decision (ge lt a b).
Proof. unfold ge. apply _. Defined.

(** Without equal priorities two items that are both before each other are one. *)
Lemma no_ties_antisym (lt : QueueItem → QueueItem → bool) l a b : no_ties lt l → a ∈ l → b ∈ l → lt a b = false → lt b a = false → a = b.
Proof.
  intros Hnt [i Hi]%list_elem_of_lookup [j Hj]%list_elem_of_lookup Hab Hba. destruct (decide (i = j)) as [->|Hij]; [congruence|].
  pose proof (lookup_lt_Some _ _ _ Hi). pose proof (lookup_lt_Some _ _ _ Hj).
  destruct (Hnt i j) as [Hl|Hl]; [done..| |]; unfold ltAt in Hl; rewrite Hi, Hj in Hl; congruence.
Qed.


(** ** Concrete heaps *)

(** An item enqueued at time [t]. *)
Definition sample_item (p : positive) (t : Z) : QueueItem :=
  mkItem p t 0 (mkRequest (mkFlowKey "flow" 0) 1 None 0 0 "req").

Fixpoint sample_items (p : positive) (ts : list Z) : list QueueItem :=
  match ts with [] => [] | t :: ts' => sample_item p t :: sample_items (Pos.succ p) ts' end.

(** The FCFS heap to which items with the given enqueue times have been added. *)
Definition sample_heap (ts : list Z) : option (maxMinHeap * store) :=
  snd <$> for_each (sample_items 1 ts) Add (newMaxMinHeap fcfs.policy, store_empty).

(** The enqueue times of the items, in the order of the slice. *)
Definition times (h : maxMinHeap) : list Z := qi_EnqueueTime <$> mh_items h.

(** [Remove] with the handle of the item at index [i]. *)
Definition remove_at (i : nat) (s : maxMinHeap * store) : option (maxMinHeap * store) :=
  it ← mh_items s.1 !! i; snd <$> Remove (Handle s.2 it) s.

Definition no_tiesb (h : maxMinHeap) : bool :=
  let n := length (mh_items h) in
  forallb (λ i, forallb (λ j, bool_decide (i = j) || ltAt (less (mh_policy h)) (mh_items h) i j
    || ltAt (less (mh_policy h)) (mh_items h) j i) (seq 0 n)) (seq 0 n).

Lemma no_tiesb_sound h : no_tiesb h = true → distinct_priorities h.
Proof.
  intros Hb i j Hij Hi Hj. unfold no_tiesb in Hb. rewrite forallb_forall in Hb.
  specialize (Hb i). rewrite forallb_forall in Hb.
  assert (∀ k, k < length (mh_items h) → In k (seq 0 (length (mh_items h)))) as Hin
    by (intros; apply in_seq; lia).
  specialize (Hb (Hin i Hi) j (Hin j Hj)). rewrite bool_decide_eq_false_2 in Hb by done.
  apply orb_true_iff in Hb. exact Hb.
Qed.

Lemma adds_reach its : ∀ h st s',
  Forall item_ok its → NoDup (ptrs its) → Forall (λ it, qi_ptr it ∉ ptrs (mh_items h)) its →
  mh_wf h st → store_wf st →
  for_each its Add (h, st) = Some (tt, s') → rtc heap_step (h, st) s'.
Proof.
  induction its as [|it its IH]; intros h st s' Hok Hnd Hno Hwf Hst; cbn [for_each].
  { intros [= <-]. apply rtc_refl. }
  apply Forall_cons in Hok as [Hit Hok]. apply Forall_cons in Hno as [Hitno Hno].
  unfold ptrs in Hnd. rewrite fmap_cons in Hnd. apply NoDup_cons in Hnd as [Hx Hnd].
  unfold mbind, gom_bind. destruct (Add it (h, st)) as [[[] [h1 st1]]|] eqn:Hadd; [|done].
  pose proof (wp_exec _ _ _ _ _ (Add_spec h st it Hwf Hst Hit Hitno) Hadd)
    as (Hwf' & Hst' & _ & Hitems & _).
  intros Hrun. eapply rtc_l; [by eapply hs_add|]. apply IH; try done.
  apply Forall_forall. intros x Hxin. rewrite Forall_forall in Hno. specialize (Hno x Hxin).
  unfold ptrs. rewrite Hitems, up_Permutation, fmap_app. intros [Hc|Hc]%elem_of_app; [done|].
  simpl in Hc. apply list_elem_of_singleton in Hc. apply Hx. rewrite <- Hc. by apply elem_of_ptrs.
Qed.

Lemma sample_reach ts s :
  NoDup (ptrs (sample_items 1 ts)) → sample_heap ts = Some s →
  rtc heap_step (newMaxMinHeap fcfs.policy, store_empty) s.
Proof.
  unfold sample_heap. intros Hnd Hs.
  destruct (for_each _ _ _) as [[[] s']|] eqn:E; [|done]. simplify_eq/=.
  eapply adds_reach; [..|exact E]; try done; auto using new_wf, store_wf_empty.
  - clear. generalize 1%positive. induction ts as [|t ts IH]; intros p; constructor; auto. done.
  - apply Forall_forall. intros x _ []%elem_of_nil.
Qed.

#[export] Instance fcfs_swo : StrictWeakOrder (less fcfs.policy).
Proof. apply policy_less_swo, builtin_policy_swo. constructor. Qed.

Definition sample7 : maxMinHeap * store :=
  default (newMaxMinHeap fcfs.policy, store_empty) (sample_heap [70; 10; 60; 20; 50; 30; 40]%Z).

Lemma heap_reachable_head_tail_witness :
  times sample7.1 ≠ [] ∧
  (∀ it, PeekHead sample7.1 = Some it → ∀ y, y ∈ mh_items sample7.1 → less fcfs.policy y it = false).
Proof.
  split; [vm_compute; discriminate|].
  apply (heap_reachable_head_tail fcfs.policy store_empty sample7.1 sample7.2 fcfs_swo store_wf_empty).
  apply (sample_reach [70; 10; 60; 20; 50; 30; 40]%Z);
    [apply (bool_decide_unpack _); vm_compute; exact I|vm_compute; reflexivity].
Defined.


(** ** Where the order is lost *)

(** Add an item enqueued at the given time, or take the head. *)
Fixpoint sample_run (p : positive) (ops : list (option Z)) : HM unit :=
  match ops with
  | [] => mret tt
  | Some t :: ops' => _ ← Add (sample_item p t); sample_run (Pos.succ p) ops'
  | None :: ops' => _ ← pop_all 1; sample_run p ops'
  end.

(** Build a heap, remove the item at index [i] by its handle, and dispatch the rest. *)
Definition dispatch_after_remove (ts : list Z) (i : nat) : option (list Z) :=
  match sample_heap ts with
  | Some s =>
      match remove_at i s with
      | Some s' =>
          match pop_all (length ts) s' with
          | Some (out, _) => Some (qi_EnqueueTime <$> out)
          | None => None
          end
      | None => None
      end
  | None => None
  end.

(** The operations of the example with equal priorities, and the heap they leave. *)
Definition tie_ops : list (option Z) :=
  [Some 1; Some 2; Some 3; Some 2; Some 2; Some 4; Some 3; None;
   Some 4; Some 3; Some 4; Some 3; None; None]%Z.

Definition tie_heap : maxMinHeap :=
  match sample_run 1 tie_ops (newMaxMinHeap fcfs.policy, store_empty) with
  | Some (_, (h, _)) => h
  | None => newMaxMinHeap fcfs.policy
  end.

(** Eleven FCFS requests with distinct enqueue times, in an ordered heap; one of
    them is removed by its handle (a request whose context ended). [Remove] sifts the
    item that replaces it down only, and the requests that remain are then dispatched
    out of order: the one enqueued at 4 before the one enqueued at 3. *)
Theorem remove_inner_breaks_order :
  dispatch_after_remove [7; 1; 5; 10; 3; 11; 8; 9; 6; 4; 2]%Z 7
  = Some [1; 2; 4; 3; 5; 6; 7; 8; 10; 11]%Z.
Proof. vm_compute. reflexivity. Qed.

(** With equal priorities, adding items and taking the head is enough to lose the
    order: after fourteen such operations under FCFS an item is waiting that beats the
    item at the head. *)
Theorem ties_break_head :
  ∃ it y, PeekHead tie_heap = Some it ∧ y ∈ mh_items tie_heap ∧
    less (mh_policy tie_heap) y it = true.
Proof.
  eexists _, (sample_item 4 2). split_and!; [vm_compute; reflexivity| |vm_compute; reflexivity].
  apply (bool_decide_unpack _). vm_compute. exact I.
Qed.
