(* ===== verification/QueueFactory.v ===== *)
(** * Queue implementations by name: [framework/plugins/queue/factory.go]

    The registry of queue constructors, and the type of the queues they build: a
    value of the interface [SafeQueue] is a [listQueue] or a [maxMinHeap], and a
    method call dispatches on which. Any two implementations of the queue contract
    make one of their sum. *)

From stdpp Require Import prelude gmap strings list.
From S2P Require Import Prelude FlowTypes Ordering SafeQueue ListQueue MaxMinHeap.

(** ** Dynamic dispatch *)

Section dispatch.
Context {Q1 Q2 : Type}.

(** Run [c1] or [c2] on whichever implementation the interface value holds. *)
Definition dispatch {A} (c1 : GoM (Q1 * store) A) (c2 : GoM (Q2 * store) A)
    : GoM ((Q1 + Q2) * store) A :=
  λ '(q, st),
    match q with
    | inl q1 => '(a, (q1', st')) ← c1 (q1, st); Some (a, (inl q1', st'))
    | inr q2 => '(a, (q2', st')) ← c2 (q2, st); Some (a, (inr q2', st'))
    end.

Definition on_either {A} (f : Q1 → A) (g : Q2 → A) (q : Q1 + Q2) : A :=
  match q with inl q1 => f q1 | inr q2 => g q2 end.

Lemma wp_dispatch_l {A} (c1 : GoM (Q1 * store) A) (c2 : GoM (Q2 * store) A) Q q st :
  wp c1 (λ a '(q', st'), Q a (inl q', st')) (q, st) → wp (dispatch c1 c2) Q (inl q, st).
Proof. unfold wp, dispatch. by destruct (c1 (q, st)) as [[a [q' st']]|]. Qed.

Lemma wp_dispatch_r {A} (c1 : GoM (Q1 * store) A) (c2 : GoM (Q2 * store) A) Q q st :
  wp c2 (λ a '(q', st'), Q a (inr q', st')) (q, st) → wp (dispatch c1 c2) Q (inr q, st).
Proof. unfold wp, dispatch. by destruct (c2 (q, st)) as [[a [q' st']]|]. Qed.
End dispatch.

#[export] Instance sum_SafeQueue (Q1 Q2 : Type) `{!SafeQueue Q1} `{!SafeQueue Q2}
    : SafeQueue (Q1 + Q2) := {|
  sq_Name := on_either sq_Name sq_Name;
  sq_Capabilities := on_either sq_Capabilities sq_Capabilities;
  sq_Len := on_either sq_Len sq_Len;
  sq_ByteSize := on_either sq_ByteSize sq_ByteSize;
  sq_PeekHead := on_either sq_PeekHead sq_PeekHead;
  sq_PeekTail := on_either sq_PeekTail sq_PeekTail;
  sq_Add it := dispatch (sq_Add it) (sq_Add it);
  sq_Remove h := dispatch (sq_Remove h) (sq_Remove h);
  sq_Cleanup p := dispatch (sq_Cleanup p) (sq_Cleanup p);
  sq_Drain := dispatch sq_Drain sq_Drain
|}.

#[export] Program Instance sum_SafeQueueSpec (Q1 Q2 : Type)
    `{!SafeQueue Q1} `{!SafeQueue Q2} `{!SafeQueueSpec Q1} `{!SafeQueueSpec Q2}
    : SafeQueueSpec (Q1 + Q2) := {|
  sq_contents := on_either sq_contents sq_contents;
  sq_wf := on_either sq_wf sq_wf
|}.
Next Obligation. intros ?????? [q|q] ??; simpl; apply sqs_frame. Qed.
Next Obligation. intros ?????? [q|q] ?; simpl; apply sqs_items_ok. Qed.
Next Obligation. intros ?????? [q|q] ?; simpl; apply sqs_nodup. Qed.
Next Obligation. intros ?????? [q|q] ??; simpl; apply sqs_live. Qed.
Next Obligation. intros ?????? [q|q] ?; simpl; apply sqs_len. Qed.
Next Obligation. intros ?????? [q|q] ?; simpl; apply sqs_bytes. Qed.
Next Obligation. intros ?????? [q|q] ?; simpl; apply sqs_head_empty. Qed.
Next Obligation. intros ?????? [q|q] ??; simpl; apply sqs_head_in. Qed.
Next Obligation. intros ?????? [q|q] ?; simpl; apply sqs_tail_empty. Qed.
Next Obligation. intros ?????? [q|q] ??; simpl; apply sqs_tail_in. Qed.
Next Obligation.
  intros ?????? [q|q] st it ????; [apply wp_dispatch_l|apply wp_dispatch_r]; by apply (sqs_add q).
Qed.
Next Obligation.
  intros ?????? [q|q] st it h ????; [apply wp_dispatch_l|apply wp_dispatch_r]; by apply (sqs_remove q).
Qed.
Next Obligation.
  intros ?????? [q|q] st oh Hinv; simpl; unfold dispatch; by rewrite sqs_remove_invalid.
Qed.
Next Obligation.
  intros ?????? [q|q] st p ??; [apply wp_dispatch_l|apply wp_dispatch_r]; by apply (sqs_cleanup q).
Qed.
Next Obligation.
  intros ?????? [q|q] st ??; [apply wp_dispatch_l|apply wp_dispatch_r]; by apply (sqs_drain q).
Qed.

#[export] Existing Instances listQueue_SafeQueue maxMinHeap_SafeQueue listQueue_Spec maxMinHeap_Spec.

(** The queues of the program. *)
Abbreviation AnyQueue := (listQueue + maxMinHeap)%type.

(** ** Registration

    A constructor takes the policy and runs in the store, where the new queue gets
    its address. *)
Abbreviation QueueConstructor := (OrderingPolicy → store → (AnyQueue * store) + GoError).
Abbreviation QueueRegistry := (gmap string QueueConstructor).

(** Registering a name twice panics. *)
Definition MustRegisterQueue (name : string) (constructor : QueueConstructor)
    : GoM QueueRegistry unit :=
  λ m, match m !! name with
       | Some _ => None
       | None => Some (tt, <[name := constructor]> m)
       end.

(** The constructors registered by the [init] functions of the two queues. *)
Definition new_list : QueueConstructor :=
  λ _ st, let '(self, st') := alloc_opaque st in inl (inl (newListQueue self), st').

Definition new_heap : QueueConstructor :=
  λ policy st, inl (inr (newMaxMinHeap policy), st).

Definition init_queues : GoM QueueRegistry unit :=
  _ ← MustRegisterQueue "ListQueue" new_list;
  MustRegisterQueue "MaxMinHeap" new_heap.

Definition RegisteredQueues : QueueRegistry :=
  match init_queues ∅ with Some (_, m) => m | None => ∅ end.

Definition NewQueueFromName (name : string) (policy : OrderingPolicy) (st : store)
    : (AnyQueue * store) + GoError :=
  match RegisteredQueues !! name with
  | None => inr (ENew "no SafeQueue registered")
  | Some constructor => constructor policy st
  end.

(** ** Properties *)

Lemma RegisteredQueues_lookup name :
  RegisteredQueues !! name =
  if bool_decide (name = "MaxMinHeap"%string) then Some new_heap
  else if bool_decide (name = "ListQueue"%string) then Some new_list else None.
Proof.
  change RegisteredQueues with
    (<["MaxMinHeap"%string := new_heap]> (<["ListQueue"%string := new_list]> (∅ : QueueRegistry))).
  rewrite !lookup_insert. repeat (case_decide || case_bool_decide); try done; congruence.
Qed.

Lemma new_queue_spec name policy st q st' :
  store_wf st → NewQueueFromName name policy st = inl (q, st') →
  sq_wf q st' ∧ store_wf st' ∧ sq_contents q = [] ∧ sq_Name q = name ∧ store_local [] st st'.
Proof.
  intros Hst. unfold NewQueueFromName. rewrite RegisteredQueues_lookup.
  repeat case_bool_decide; subst; [..|done]; intros [= <- <-].
  - split_and!; auto with store. apply new_wf.
  - split_and!; [apply lq_new_wf|by apply store_wf_opaque|done..|by apply (store_local_opaque [] st)].
Qed.
