(* ===== verification/QueueContract.v ===== *)
(** * The queues refine a multiset

    What [contracts/queue.go] promises of every registered queue type, as a refinement:
    a run of operations on a concrete queue (list or heap, with handles, indices and
    byte counters) gives the results of the same operations on a plain multiset of
    requests. *)

From stdpp Require Import prelude gmap strings list.
From Stdlib Require Import Lia.
From S2P Require Import Prelude FlowTypes Ordering SafeQueue QueueFactory.

(** ** Operations *)

Inductive qop :=
  | QAdd (it : QueueItem)
  | QRemove (it : QueueItem)                       (* by the handle that [it] carries *)
  | QCleanup (p : QueueItem → bool)
  | QDrain.

(** The concrete operation; the result is the list of requests it returns. *)
Definition run_qop (op : qop) : GoM (AnyQueue * store) (list QueueItem) :=
  match op with
  | QAdd it => _ ← sq_Add it; mret []
  | QRemove it =>
      h ← gets (λ '(_, st), Handle st it);
      r ← sq_Remove h;
      match r with inl x => mret [x] | inr _ => mret [] end
  | QCleanup p => sq_Cleanup p
  | QDrain => sq_Drain
  end.

Fixpoint run_qops (ops : list qop) : GoM (AnyQueue * store) (list (list QueueItem)) :=
  match ops with
  | [] => mret []
  | op :: ops' => out ← run_qop op; outs ← run_qops ops'; mret (out :: outs)
  end.

(** The operation on a multiset: what is returned and what remains. *)
Definition abs_qop (op : qop) (l : list QueueItem) : list QueueItem * list QueueItem :=
  match op with
  | QAdd it => ([], it :: l)
  | QRemove it => ([it], list_difference l [it])
  | QCleanup p => (List.filter p l, List.filter (λ x, negb (p x)) l)
  | QDrain => (l, [])
  end.

Fixpoint abs_qops (ops : list qop) (l : list QueueItem) : list (list QueueItem) * list QueueItem :=
  match ops with
  | [] => ([], l)
  | op :: ops' =>
      let '(out, l1) := abs_qop op l in
      let '(outs, l2) := abs_qops ops' l1 in (out :: outs, l2)
  end.

(** Requests are added once at a time and removed while they are in the queue. *)
Definition qop_ok (op : qop) (l : list QueueItem) : Prop :=
  match op with
  | QAdd it => item_ok it ∧ qi_ptr it ∉ ptrs l
  | QRemove it => it ∈ l
  | _ => True
  end.

Fixpoint qops_ok (ops : list qop) (l : list QueueItem) : Prop :=
  match ops with
  | [] => True
  | op :: ops' => qop_ok op l ∧ qops_ok ops' (abs_qop op l).2
  end.

(** ** Refinement *)

(** The queue holds the multiset [l]. *)
Record holds (q : AnyQueue) (st : store) (l : list QueueItem) : Prop := {
  ho_wf : sq_wf q st;
  ho_store : store_wf st;
  ho_contents : sq_contents q ≡ₚ l
}.

Lemma filter_Permutation {A} (p : A → bool) l k : l ≡ₚ k → List.filter p l ≡ₚ List.filter p k.
Proof.
  induction 1 as [|x l k _ IH|x y l|l1 l2 l3 _ IH1 _ IH2]; simpl; [done|..].
  - destruct (p x); by rewrite IH.
  - destruct (p x), (p y); try done. constructor.
  - by etrans.
Qed.

Lemma list_difference_single l (it : QueueItem) k :
  NoDup (ptrs l) → l ≡ₚ it :: k → list_difference l [it] ≡ₚ k.
Proof.
  intros Hnd HP. apply NoDup_Permutation.
  - apply NoDup_list_difference. by apply (NoDup_fmap_1 qi_ptr).
  - apply (NoDup_fmap_1 qi_ptr). unfold ptrs in Hnd. rewrite HP, fmap_cons in Hnd. by apply NoDup_cons in Hnd as [_ Hnd].
  - intros x. rewrite list_elem_of_difference, HP, elem_of_cons, list_elem_of_singleton.
    split; [naive_solver|]. intros Hx. split; [by right|]. intros ->.
    unfold ptrs in Hnd. rewrite HP, fmap_cons in Hnd. apply NoDup_cons in Hnd as [Hn _].
    apply Hn. by apply list_elem_of_fmap_2.
Qed.

Lemma run_qop_spec op q st l :
  holds q st l → qop_ok op l →
  wp (run_qop op) (λ out '(q', st'), out ≡ₚ (abs_qop op l).1 ∧ holds q' st' (abs_qop op l).2) (q, st).
Proof.
  intros [Hwf Hst HP] Hok. destruct op as [it|it|p|]; cbn [run_qop abs_qop fst snd].
  - destruct Hok as [Hit Hno]. apply wp_bind. eapply wp_mono.
    { apply (sqs_add q st it); try done. intros Hin. apply Hno. unfold ptrs in *. by rewrite <- HP. }
    intros [] [q' st'] (H1 & H2 & H3 & _). apply wp_ret. split; [done|]. split; try done. by rewrite H3, HP.
  - simpl in Hok. rewrite <- HP in Hok. destruct (sqs_live q st it Hwf Hok) as (h & Hh & _).
    apply wp_bind, wp_gets. rewrite Hh. apply wp_bind. eapply wp_mono; [by apply (sqs_remove q st it h)|].
    intros r [q' st'] (-> & H1 & H2 & H3 & _). apply wp_ret. split; [done|]. split; try done.
    symmetry. apply list_difference_single; [|by rewrite <- HP].
    pose proof (sqs_nodup q st Hwf) as Hnd. unfold ptrs in *. by rewrite <- HP.
  - eapply wp_mono; [by apply (sqs_cleanup q st p)|].
    intros out [q' st'] (H1 & H2 & -> & H3 & _). split; [by apply filter_Permutation|]. split; try done.
    rewrite H3. by apply filter_Permutation.
  - eapply wp_mono; [by apply (sqs_drain q st)|].
    intros out [q' st'] (H1 & H2 & -> & H3 & _). split; [done|]. split; try done. by rewrite H3.
Qed.

Lemma run_qops_spec ops : ∀ q st l,
  holds q st l → qops_ok ops l →
  wp (run_qops ops) (λ outs '(q', st'),
    Forall2 Permutation outs (abs_qops ops l).1 ∧ holds q' st' (abs_qops ops l).2) (q, st).
Proof.
  induction ops as [|op ops IH]; intros q st l Hh Hok; simpl.
  { apply wp_ret. split; [constructor|done]. }
  destruct Hok as [Hop Hok]. apply wp_bind. eapply wp_mono; [by apply run_qop_spec|].
  intros out [q1 st1] [Ho Hh1]. destruct (abs_qop op l) as [aout l1]. simpl in *.
  apply wp_bind. eapply wp_mono; [by apply (IH q1 st1 l1)|].
  intros outs [q2 st2] [Hos Hh2]. apply wp_ret. destruct (abs_qops ops l1) as [aouts l2]. simpl in *.
  split; [by constructor|done].
Qed.


Definition contract_item (p : positive) (t : Z) : QueueItem :=
  mkItem p t 0 (mkRequest (mkFlowKey "flow" 0) 7 None 0 0 "req").

Definition contract_ops : list qop :=
  [QAdd (contract_item 1 30); QAdd (contract_item 2 10); QAdd (contract_item 3 20);
   QRemove (contract_item 2 10); QCleanup (λ it, bool_decide (qi_ptr it = 1%positive))].

