(* ===== verification/ManagedQueue.v ===== *)
(** * The statistics decorator: [registry/managedqueue.go]

    A [managedQueue] wraps a queue, refuses new items while its shard drains, and
    keeps its own item and byte counters, which it also propagates to the shard
    through a callback. Everything here is proved against the queue contract of
    [SafeQueue.v], for any implementation.

    The environment [E] is the state that the two callbacks [onStatsDelta] and
    [isDraining] act on (the shard and the registry). The mutex makes each operation
    atomic. *)

From stdpp Require Import prelude gmap strings list.
From Stdlib Require Import Lia.
From S2P Require Import Prelude FlowTypes Ordering Fairness SafeQueue.

Record managedQueue (Q : Type) := mkManagedQueue {
  mq_key : FlowKey;
  mq_policy : OrderingPolicy;
  mq_queue : Q;
  mq_byteSize : Z;      (* atomic.Int64 *)
  mq_len : Z            (* atomic.Int64 *)
}.
Arguments mkManagedQueue {Q}.
Arguments mq_key {Q}.
Arguments mq_policy {Q}.
Arguments mq_queue {Q}.
Arguments mq_byteSize {Q}.
Arguments mq_len {Q}.

Section managed.
Context {Q : Type} `{!SafeQueue Q} {E : Type}.
Context (onStatsDelta : Z → Z → Z → GoM E unit) (isDraining : E → bool).

Abbreviation MQM := (GoM (managedQueue Q * store * E)).

Definition newManagedQueue (queue : Q) (policy : OrderingPolicy) (key : FlowKey) : managedQueue Q :=
  mkManagedQueue key policy queue 0 0.

(** [mq.queue.Op(...)]. *)
Definition on_inner {A} (c : GoM (Q * store) A) : MQM A :=
  λ '(mq, st, e),
    match c (mq_queue mq, st) with
    | Some (a, (q', st')) =>
        Some (a, (mkManagedQueue (mq_key mq) (mq_policy mq) q' (mq_byteSize mq) (mq_len mq), st', e))
    | None => None
    end.

(** [mq.len.Add(d)], which returns the new value. *)
Definition add_len (d : Z) : MQM Z :=
  λ '(mq, st, e),
    let n := Int.i64 (mq_len mq + d) in
    Some (n, (mkManagedQueue (mq_key mq) (mq_policy mq) (mq_queue mq) (mq_byteSize mq) n, st, e)).

(** [mq.byteSize.Add(d)]. *)
Definition add_bytes (d : Z) : MQM unit :=
  λ '(mq, st, e),
    Some (tt, (mkManagedQueue (mq_key mq) (mq_policy mq) (mq_queue mq)
                 (Int.i64 (mq_byteSize mq + d)) (mq_len mq), st, e)).

Definition on_env {A} (c : GoM E A) : MQM A :=
  λ '(mq, st, e), match c e with Some (a, e') => Some (a, (mq, st, e')) | None => None end.

Definition propagateStatsDeltaLocked (lenDelta byteSizeDelta : Z) : MQM unit :=
  newLen ← add_len lenDelta;
  if bool_decide (newLen < 0)%Z then panic
  else
    _ ← add_bytes byteSizeDelta;
    key ← gets (λ '(mq, st, e), mq_key mq);
    on_env (onStatsDelta (fk_Priority key) lenDelta byteSizeDelta).

(** The deltas that the loop over the removed items accumulates. *)
Fixpoint removed_deltas (items : list QueueItem) (lenDelta byteSizeDelta : Z) : Z * Z :=
  match items with
  | [] => (lenDelta, byteSizeDelta)
  | item :: items' =>
      removed_deltas items' (Int.i64 (lenDelta - 1))
        (Int.i64 (byteSizeDelta - Int.i64 (qi_ByteSize item)))
  end.

Definition propagateStatsDeltaForRemovedItemsLocked (items : list QueueItem) : MQM unit :=
  let '(lenDelta, byteSizeDelta) := removed_deltas items 0 0 in
  propagateStatsDeltaLocked lenDelta byteSizeDelta.

(** [None] is a nil error. *)
Definition mq_Add (item : QueueItem) : MQM (option GoError) :=
  draining ← gets (λ '(mq, st, e), isDraining e);
  if draining : bool then mret (Some (ESentinel ErrShardDraining))
  else
    _ ← on_inner (sq_Add item);
    _ ← propagateStatsDeltaLocked 1 (Int.i64 (qi_ByteSize item));
    mret None.

Definition mq_Remove (handle : option positive) : MQM RemoveResult :=
  r ← on_inner (sq_Remove handle);
  match r with
  | inr err => mret (inr err)
  | inl removedItem =>
      _ ← propagateStatsDeltaLocked (-1) (Int.i64 (- Int.i64 (qi_ByteSize removedItem)));
      mret (inl removedItem)
  end.

Definition mq_Cleanup (predicate : QueueItem → bool) : MQM (list QueueItem) :=
  cleanedItems ← on_inner (sq_Cleanup predicate);
  if bool_decide (length cleanedItems = 0) then mret []
  else
    _ ← propagateStatsDeltaForRemovedItemsLocked cleanedItems;
    mret cleanedItems.

Definition mq_Drain : MQM (list QueueItem) :=
  drainedItems ← on_inner sq_Drain;
  if bool_decide (length drainedItems = 0) then mret []
  else
    _ ← propagateStatsDeltaForRemovedItemsLocked drainedItems;
    mret drainedItems.

Definition mq_Len (mq : managedQueue Q) : Z := mq_len mq.
Definition mq_ByteSize (mq : managedQueue Q) : Z := Int.u64 (mq_byteSize mq).

(** *** The read-only view, [flowQueueAccessor] *)

Definition flowQueueAccessor (mq : managedQueue Q) : FlowQueueAccessor := {|
  fqa_Name := sq_Name (mq_queue mq);
  fqa_Capabilities := sq_Capabilities (mq_queue mq);
  fqa_PeekHead := sq_PeekHead (mq_queue mq);
  fqa_PeekTail := sq_PeekTail (mq_queue mq);
  fqa_Len := mq_Len mq;
  fqa_ByteSize := mq_ByteSize mq;
  fqa_OrderingPolicy := mq_policy mq;
  fqa_FlowKey := mq_key mq
|}.

(** ** Invariant: the counters agree with the queue *)

Context `{Hspec : !SafeQueueSpec Q}.

Definition mq_contents (mq : managedQueue Q) : list QueueItem := sq_contents (mq_queue mq).

Record mq_wf (mq : managedQueue Q) (st : store) : Prop := {
  mqw_queue : sq_wf (mq_queue mq) st;
  mqw_len : mq_len mq = Z.of_nat (length (mq_contents mq));
  mqw_bound : (Z.of_nat (length (mq_contents mq)) < Int.two63)%Z;
  mqw_bytes : mq_byteSize mq = Int.i64 (total_bytes (mq_contents mq))
}.

(** The identity of a managed queue does not change. *)
Definition same_queue (mq mq' : managedQueue Q) : Prop :=
  mq_key mq' = mq_key mq ∧ mq_policy mq' = mq_policy mq.

Lemma wp_on_inner {A} (c : GoM (Q * store) A) P mq st e :
  wp c (λ a '(q', st'),
    P a (mkManagedQueue (mq_key mq) (mq_policy mq) q' (mq_byteSize mq) (mq_len mq), st', e))
    (mq_queue mq, st) →
  wp (on_inner c) P (mq, st, e).
Proof using Type. unfold wp, on_inner. by destruct (c (mq_queue mq, st)) as [[a [q' st']]|]. Qed.

Lemma propagate_run dl db mq st e e' :
  (0 ≤ Int.i64 (mq_len mq + dl))%Z →
  onStatsDelta (fk_Priority (mq_key mq)) dl db e = Some (tt, e') →
  propagateStatsDeltaLocked dl db (mq, st, e) =
  Some (tt, (mkManagedQueue (mq_key mq) (mq_policy mq) (mq_queue mq)
               (Int.i64 (mq_byteSize mq + db)) (Int.i64 (mq_len mq + dl)), st, e')).
Proof using Type.
  intros Hlen Hcb. unfold propagateStatsDeltaLocked, mbind, gom_bind, add_len.
  rewrite bool_decide_eq_false_2 by lia. unfold add_bytes, gets, on_env. cbn. by rewrite Hcb.
Qed.

Lemma i64_sub_l a b : Int.i64 (Int.i64 a - b) = Int.i64 (a - b).
Proof using Type. unfold Z.sub. apply Int.i64_add_l. Qed.

Lemma i64_sub_r a b : Int.i64 (a - Int.i64 b) = Int.i64 (a - b).
Proof using Type.
  unfold Z.sub. rewrite <- (Int.i64_add_r a (- Int.i64 b)), Int.i64_opp_i64, Int.i64_add_r. done.
Qed.

Lemma removed_deltas_eq its : ∀ dl db,
  Int.i64 dl = dl → Int.i64 db = db →
  removed_deltas its dl db =
  (Int.i64 (dl - Z.of_nat (length its)), Int.i64 (db - total_bytes its)).
Proof using Type.
  induction its as [|it its IH]; intros dl db Hdl Hdb; cbn [removed_deltas total_bytes length].
  - by rewrite Z.sub_0_r, Z.sub_0_r, Hdl, Hdb.
  - rewrite IH by (unfold Int.i64; rewrite Z.sub_add, Zmod_mod; done).
    rewrite i64_sub_r, !i64_sub_l. f_equal; f_equal; lia.
Qed.

(** ** Effect of the operations *)

Lemma mq_len_i64 mq st d :
  mq_wf mq st → (- Int.two63 ≤ mq_len mq + d < Int.two63)%Z →
  Int.i64 (mq_len mq + d) = (mq_len mq + d)%Z.
Proof using Type. intros _ Hr. by apply Int.i64_small. Qed.

(** *** Add *)

Lemma mq_add_draining it mq st e :
  isDraining e = true →
  mq_Add it (mq, st, e) = Some (Some (ESentinel ErrShardDraining), (mq, st, e)).
Proof using Type. intros Hd. unfold mq_Add, mbind, gom_bind, gets. by rewrite Hd. Qed.

Lemma mq_add_spec it mq st e e' :
  isDraining e = false → mq_wf mq st → store_wf st → item_ok it →
  qi_ptr it ∉ ptrs (mq_contents mq) →
  (Z.of_nat (length (mq_contents mq)) + 1 < Int.two63)%Z →
  onStatsDelta (fk_Priority (mq_key mq)) 1 (Int.i64 (qi_ByteSize it)) e = Some (tt, e') →
  wp (mq_Add it) (λ r '(mq', st', e1),
    r = None ∧ e1 = e' ∧ mq_wf mq' st' ∧ store_wf st' ∧ same_queue mq mq' ∧
    mq_contents mq' ≡ₚ it :: mq_contents mq ∧
    store_local (it :: mq_contents mq) st st') (mq, st, e).
Proof using Type.
  intros Hd [Hq Hlen Hbd Hby] Hst Hit Hno Hroom Hcb. unfold mq_Add.
  apply wp_bind, wp_gets. rewrite Hd. apply wp_bind, wp_on_inner.
  eapply wp_mono; [by apply sqs_add|]. intros [] [q' st'] (Hq' & Hst' & HP & Hloc).
  pose proof (Permutation_length HP) as HPlen. simpl in HPlen.
  assert (mq_len mq + 1 = Z.of_nat (length (sq_contents q')))%Z as Hnew
    by (rewrite Hlen, HPlen; unfold mq_contents; lia).
  assert (Int.i64 (mq_len mq + 1) = Z.of_nat (length (sq_contents q'))) as Hnew'.
  { rewrite Int.i64_small; [done|]. unfold mq_contents in *. unfold Int.two63 in *. lia. }
  apply wp_bind. unfold wp at 1. rewrite (propagate_run _ _ _ _ e e'); [|cbn; lia|done]. cbn.
  split_and!; try done. split; cbn; [done|done|unfold mq_contents in *; cbn in *; lia|].
  rewrite Hby, HP, Int.i64_add_l, Int.i64_add_r. f_equal. simpl. unfold mq_contents. lia.
Qed.

(** *** Removal of items *)

(** The counters after the items [its] have left a queue whose rest is [rest]. *)
Lemma removed_wf mq st (q' : Q) st' its rest e e' :
  mq_wf mq st → sq_wf q' st' → sq_contents q' ≡ₚ rest → mq_contents mq ≡ₚ its ++ rest →
  onStatsDelta (fk_Priority (mq_key mq)) (- Z.of_nat (length its))%Z
    (Int.i64 (- total_bytes its)) e = Some (tt, e') →
  ∃ mq', propagateStatsDeltaLocked (- Z.of_nat (length its))%Z (Int.i64 (- total_bytes its))
      (mkManagedQueue (mq_key mq) (mq_policy mq) q' (mq_byteSize mq) (mq_len mq), st', e)
      = Some (tt, (mq', st', e')) ∧
    mq_wf mq' st' ∧ mq_contents mq' = sq_contents q' ∧ same_queue mq mq'.
Proof using Type.
  intros [Hq Hlen Hbd Hby] Hq' Hrest HP Hcb.
  pose proof (Permutation_length HP) as HPl. rewrite length_app in HPl.
  pose proof (Permutation_length Hrest) as HRl.
  assert (Int.i64 (mq_len mq + - Z.of_nat (length its)) = Z.of_nat (length (sq_contents q'))) as Hnew.
  { rewrite Hlen, Int.i64_small; unfold Int.two63 in *; lia. }
  eexists. rewrite (propagate_run _ _ _ _ e e'); [|cbn; lia|done]. split_and!; [done| |done|done].
  split; cbn; [done|done|unfold mq_contents in *; cbn in *; lia|].
  rewrite Hby, Int.i64_add_r, Int.i64_add_l. unfold mq_contents in *. cbn.
  rewrite HP, Hrest, total_bytes_app. f_equal. lia.
Qed.

Lemma mq_remove_spec it h mq st e e' :
  mq_wf mq st → store_wf st → it ∈ mq_contents mq → Handle st it = Some h →
  onStatsDelta (fk_Priority (mq_key mq)) (-1) (Int.i64 (- qi_ByteSize it)) e = Some (tt, e') →
  wp (mq_Remove (Some h)) (λ r '(mq', st', e1),
    r = inl it ∧ e1 = e' ∧ mq_wf mq' st' ∧ store_wf st' ∧ same_queue mq mq' ∧
    mq_contents mq ≡ₚ it :: mq_contents mq' ∧ dead_handle st' it ∧
    store_local (mq_contents mq) st st') (mq, st, e).
Proof using Type.
  intros Hwf Hst Hin Hh Hcb. unfold mq_Remove. apply wp_bind, wp_on_inner.
  eapply wp_mono; [eapply sqs_remove; [apply Hwf|done..]|].
  intros r [q' st'] (-> & Hq' & Hst' & HP & Hdead & Hloc).
  destruct (removed_wf mq st q' st' [it] (sq_contents q') e e') as (mq' & Hrun & Hwf' & Hc & Hs);
    [done..|cbn [length total_bytes]; by rewrite Z.add_0_r|].
  cbn [length total_bytes] in Hrun. rewrite Z.add_0_r in Hrun. change (- Z.of_nat 1)%Z with (-1)%Z in Hrun.
  rewrite Int.i64_opp_i64. apply wp_bind. unfold wp at 1. rewrite Hrun. apply wp_ret.
  split_and!; try done. by rewrite Hc.
Qed.

Lemma mq_remove_error h mq st e :
  (∀ hd, h = Some hd → ∃ o, st_handles st !! hd = Some o ∧ IsInvalidated o = true) →
  mq_Remove h (mq, st, e) = Some (inr (ESentinel ErrInvalidQueueItemHandle), (mq, st, e)).
Proof using Hspec.
  intros Hinv. unfold mq_Remove, mbind, gom_bind, on_inner. rewrite sqs_remove_invalid by done.
  by destruct mq.
Qed.

(** The common tail of [Cleanup] and [Drain]: [its] have left the queue. *)
Lemma removed_tail_spec mq st (q' : Q) st' its e e' (P : list QueueItem → _ → Prop) :
  mq_wf mq st → sq_wf q' st' → mq_contents mq ≡ₚ its ++ sq_contents q' →
  (its ≠ [] → onStatsDelta (fk_Priority (mq_key mq)) (- Z.of_nat (length its))%Z
    (Int.i64 (- total_bytes its)) e = Some (tt, e')) →
  (its = [] → e' = e) →
  (∀ mq', mq_wf mq' st' → mq_contents mq' = sq_contents q' → same_queue mq mq' →
    P its (mq', st', e')) →
  wp (if bool_decide (length its = 0) then mret []
      else _ ← propagateStatsDeltaForRemovedItemsLocked its; mret its) P
    (mkManagedQueue (mq_key mq) (mq_policy mq) q' (mq_byteSize mq) (mq_len mq), st', e).
Proof using Type.
  intros Hwf Hq' HP Hcb Hnil HQ. case_bool_decide as Hlen.
  - apply length_zero_iff_nil in Hlen as ->. rewrite Hnil in HQ by done. apply wp_ret, HQ; try done.
    destruct Hwf as [Hq Hl Hbd Hby]. unfold mq_contents in *. cbn in *.
    pose proof (Permutation_length HP) as HPl. cbn in HPl.
    split; unfold mq_contents; cbn; [done|lia|lia|]. by rewrite Hby, HP.
  - assert (its ≠ []) as Hne by (intros ->; done).
    destruct (removed_wf mq st q' st' its (sq_contents q') e e') as (mq' & Hrun & Hwf' & Hc & Hs); auto.
    unfold propagateStatsDeltaForRemovedItemsLocked. rewrite removed_deltas_eq by done.
    assert (Int.i64 (0 - Z.of_nat (length its)) = (- Z.of_nat (length its))%Z) as ->.
    { rewrite Int.i64_small; [lia|]. pose proof (Permutation_length HP) as HPl. rewrite length_app in HPl.
      pose proof (mqw_bound _ _ Hwf). unfold Int.two63 in *. lia. }
    apply wp_bind. unfold wp at 1. change (0 - total_bytes its)%Z with (- total_bytes its)%Z. rewrite Hrun. apply wp_ret. by apply HQ.
Qed.

Lemma filter_split_Permutation {A} (p : A → bool) l :
  l ≡ₚ List.filter p l ++ List.filter (λ x, negb (p x)) l.
Proof using Type.
  induction l as [|x l IH]; simpl; [done|]. destruct (p x); simpl; rewrite IH at 1; [done|].
  apply Permutation_middle.
Qed.

Lemma mq_cleanup_spec p mq st e e' (its := List.filter p (mq_contents mq)) :
  mq_wf mq st → store_wf st →
  (its ≠ [] → onStatsDelta (fk_Priority (mq_key mq)) (- Z.of_nat (length its))%Z
    (Int.i64 (- total_bytes its)) e = Some (tt, e')) →
  (its = [] → e' = e) →
  wp (mq_Cleanup p) (λ r '(mq', st', e1),
    r = its ∧ e1 = e' ∧ mq_wf mq' st' ∧ store_wf st' ∧ same_queue mq mq' ∧
    mq_contents mq' ≡ₚ List.filter (λ x, negb (p x)) (mq_contents mq) ∧
    Forall (dead_handle st') r ∧ store_local (mq_contents mq) st st') (mq, st, e).
Proof using Type.
  intros Hwf Hst Hcb Hnil. unfold mq_Cleanup. apply wp_bind, wp_on_inner.
  eapply wp_mono; [apply sqs_cleanup; [apply Hwf|done]|].
  intros r [q' st'] (Hq' & Hst' & -> & HP & Hdead & Hloc).
  eapply (removed_tail_spec mq st); try done.
  - rewrite HP. apply filter_split_Permutation.
  - intros mq' Hwf' Hc Hs. split_and!; try done. by rewrite Hc.
Qed.

Lemma mq_drain_spec mq st e e' (its := mq_contents mq) :
  mq_wf mq st → store_wf st →
  (its ≠ [] → onStatsDelta (fk_Priority (mq_key mq)) (- Z.of_nat (length its))%Z
    (Int.i64 (- total_bytes its)) e = Some (tt, e')) →
  (its = [] → e' = e) →
  wp mq_Drain (λ r '(mq', st', e1),
    r = its ∧ e1 = e' ∧ mq_wf mq' st' ∧ store_wf st' ∧ same_queue mq mq' ∧
    mq_contents mq' = [] ∧ Forall (dead_handle st') r ∧
    store_local (mq_contents mq) st st') (mq, st, e).
Proof using Type.
  intros Hwf Hst Hcb Hnil. unfold mq_Drain. apply wp_bind, wp_on_inner.
  eapply wp_mono; [apply sqs_drain; [apply Hwf|done]|].
  intros r [q' st'] (Hq' & Hst' & -> & Hc' & Hdead & Hloc).
  eapply (removed_tail_spec mq st); try done.
  - by rewrite Hc', app_nil_r.
  - intros mq' Hwf' Hc Hs. split_and!; try done. by rewrite Hc.
Qed.

Lemma mq_new_wf queue policy key st :
  sq_wf queue st → sq_contents queue = [] → mq_wf (newManagedQueue queue policy key) st.
Proof using Type. intros Hq Hc. split; unfold mq_contents; cbn; rewrite ?Hc; done. Qed.

Lemma mq_wf_frame mq st st' :
  mq_wf mq st → (st_next st ≤ st_next st')%positive →
  store_agree (mq_contents mq) st st' → mq_wf mq st'.
Proof using Type. intros [Hq ? ? ?] Hn Ha. split; try done. by eapply sqs_frame. Qed.

(** The two accessors report what the queue itself reports. *)
Lemma mq_stats_agree mq st :
  mq_wf mq st → mq_Len mq = Z.of_nat (sq_Len (mq_queue mq)) ∧ mq_ByteSize mq = sq_ByteSize (mq_queue mq).
Proof using Type.
  intros [Hq Hlen Hbd Hby]. unfold mq_Len, mq_ByteSize.
  rewrite Hlen, Hby, Int.u64_i64, (sqs_len _ _ Hq), (sqs_bytes _ _ Hq). done.
Qed.
End managed.
