(* ===== verification/RegistryConfig.v ===== *)
(** * Registry configuration: [registry/config.go]

    The configuration of the flow registry: priority bands, their policies and
    queues, capacity limits, defaults, validation, and the partition of capacities
    over shards.

    A plugin handle is a map from names to plugins. A [resource.Quantity] enters
    through its [Value()], an [int64]. Maps are iterated in an arbitrary order; where
    a loop stops at the first error, which of several errors it reports depends on
    that order, and no theorem below does. *)

From stdpp Require Import prelude gmap strings list.
From Stdlib Require Import Lia.
From S2P Require Import Prelude FlowTypes Ordering Fairness SafeQueue QueueFactory.

Open Scope go_scope.

(** ** Plugins *)

Inductive Plugin :=
  | POrdering (p : OrderingPolicy)
  | PFairness (p : FairnessPolicy)
  | POther.

Abbreviation PluginHandle := (gmap string Plugin).

Definition orderingPolicy (ref : string) (handle : PluginHandle) : OrderingPolicy + GoError :=
  match handle !! ref with
  | None => inr (ENew "no ordering policy registered")
  | Some (POrdering policy) => inl policy
  | Some _ => inr (ENew "plugin is not a flowcontrol.OrderingPolicy")
  end.

Definition fairnessPolicy (ref : string) (handle : PluginHandle) : FairnessPolicy + GoError :=
  match handle !! ref with
  | None => inr (ENew "no fairness policy registered")
  | Some (PFairness policy) => inl policy
  | Some _ => inr (ENew "plugin is not a flowcontrol.FairnessPolicy")
  end.

(** ** Defaults *)

Definition Minute : Z := 60000000000.
Definition DefaultOrderingPolicyRef : string := "fcfs-ordering-policy".
Definition DefaultFairnessPolicyRef : string := "global-strict-fairness-policy".
Definition defaultPriorityBandMaxBytes : Z := 1000000000.
Definition defaultQueue : string := "ListQueue".
Definition defaultInitialShardCount : Z := 1.
Definition defaultFlowGCTimeout : Z := 5 * Minute.
Definition defaultPriorityBandGCTimeout : Z := 2 * defaultFlowGCTimeout.

(** ** Types *)

Record PriorityBandConfig := mkPriorityBandConfig {
  pbc_Priority : Z;
  pbc_OrderingPolicy : option OrderingPolicy;
  pbc_FairnessPolicy : option FairnessPolicy;
  pbc_Queue : string;
  pbc_MaxBytes : Z;
  pbc_MaxRequests : Z
}.

Record Config := mkConfig {
  cfg_MaxBytes : Z;
  cfg_MaxRequests : Z;
  cfg_PriorityBands : gmap Z PriorityBandConfig;
  cfg_DefaultPriorityBand : option PriorityBandConfig;
  cfg_InitialShardCount : Z;
  cfg_FlowGCTimeout : Z;
  cfg_PriorityBandGCTimeout : Z
}.

Record ShardConfig := mkShardConfig {
  sc_MaxBytes : Z;
  sc_MaxRequests : Z;
  sc_PriorityBands : gmap Z PriorityBandConfig
}.

(** ** Compatibility of a policy with a queue *)

(** The nil policy passed when only the capabilities of a queue are inspected; no
    constructor calls it. *)
Definition nil_policy : OrderingPolicy := mkOrderingPolicy "" (λ _ _, false) [].

Definition CheckCompatibility (p : OrderingPolicy) (q : string) : option GoError :=
  let requiredCapabilities := op_RequiredQueueCapabilities p in
  match NewQueueFromName q nil_policy store_empty with
  | inr err => Some (EWrap [err])
  | inl (tempQueue, _) =>
      if bool_decide (length requiredCapabilities = 0) then None
      else if forallb (λ req, bool_decide (req ∈ sq_Capabilities tempQueue)) requiredCapabilities
      then None
      else Some (EWrap [ESentinel ErrPolicyQueueIncompatible])
  end.

(** ** Options of a band *)

Abbreviation PriorityBandConfigOption := (PriorityBandConfig → PriorityBandConfig + GoError).

Definition WithOrderingPolicy (ref : string) (handle : PluginHandle) : PriorityBandConfigOption :=
  λ p,
    policy ←? orderingPolicy ref handle;
    inl (mkPriorityBandConfig (pbc_Priority p) (Some policy) (pbc_FairnessPolicy p)
           (pbc_Queue p) (pbc_MaxBytes p) (pbc_MaxRequests p)).

Definition WithFairnessPolicy (ref : string) (handle : PluginHandle) : PriorityBandConfigOption :=
  λ p,
    policy ←? fairnessPolicy ref handle;
    inl (mkPriorityBandConfig (pbc_Priority p) (pbc_OrderingPolicy p) (Some policy)
           (pbc_Queue p) (pbc_MaxBytes p) (pbc_MaxRequests p)).

Definition WithQueue (name : string) : PriorityBandConfigOption :=
  λ p,
    if bool_decide (name = EmptyString) then inr (ENew "Queue cannot be empty")
    else inl (mkPriorityBandConfig (pbc_Priority p) (pbc_OrderingPolicy p) (pbc_FairnessPolicy p)
                name (pbc_MaxBytes p) (pbc_MaxRequests p)).

Definition WithBandMaxBytes (maxBytes : Z) : PriorityBandConfigOption :=
  λ p, inl (mkPriorityBandConfig (pbc_Priority p) (pbc_OrderingPolicy p) (pbc_FairnessPolicy p)
              (pbc_Queue p) maxBytes (pbc_MaxRequests p)).

Definition WithBandMaxRequests (maxRequests : Z) : PriorityBandConfigOption :=
  λ p, inl (mkPriorityBandConfig (pbc_Priority p) (pbc_OrderingPolicy p) (pbc_FairnessPolicy p)
              (pbc_Queue p) (pbc_MaxBytes p) maxRequests).

(** Apply options in order, stopping at the first error. *)
Fixpoint apply_opts {A} (opts : list (A → A + GoError)) (a : A) : A + GoError :=
  match opts with
  | [] => inl a
  | opt :: opts' => a' ←? opt a; apply_opts opts' a'
  end.

Definition band_applyDefaults (handle : PluginHandle) (p : PriorityBandConfig)
    : PriorityBandConfig + GoError :=
  ordering ←? (match pbc_OrderingPolicy p with
               | Some o => inl o
               | None => orderingPolicy DefaultOrderingPolicyRef handle
               end);
  let queue :=
    if bool_decide (pbc_Queue p = EmptyString) then
      if bool_decide (CapabilityPriorityConfigurable ∈ op_RequiredQueueCapabilities ordering)
      then "MaxMinHeap"%string else defaultQueue
    else pbc_Queue p in
  let maxBytes :=
    if bool_decide (pbc_MaxBytes p = 0)%Z then defaultPriorityBandMaxBytes else pbc_MaxBytes p in
  fairness ←? (match pbc_FairnessPolicy p with
               | Some f => inl f
               | None => fairnessPolicy DefaultFairnessPolicyRef handle
               end);
  inl (mkPriorityBandConfig (pbc_Priority p) (Some ordering) (Some fairness) queue maxBytes
         (pbc_MaxRequests p)).

Definition NewPriorityBandConfig (handle : PluginHandle) (priority : Z)
    (opts : list PriorityBandConfigOption) : PriorityBandConfig + GoError :=
  pb ←? apply_opts opts (mkPriorityBandConfig priority None None EmptyString 0 0);
  band_applyDefaults handle pb.

Definition band_validate (p : PriorityBandConfig) : option GoError :=
  match pbc_OrderingPolicy p with
  | None => Some (ENew "OrderingPolicy instance is missing")
  | Some ordering =>
      match pbc_FairnessPolicy p with
      | None => Some (ENew "FairnessPolicy instance is missing")
      | Some _ =>
          if bool_decide (pbc_Queue p = EmptyString) then Some (ENew "Queue required")
          else match CheckCompatibility ordering (pbc_Queue p) with
               | Some err => Some (EWrap [err])
               | None => None
               end
      end
  end.

(** ** Options of the registry *)

Abbreviation ConfigOption := (Config → Config + GoError).

Definition with_bands (bands : gmap Z PriorityBandConfig) (c : Config) : Config :=
  mkConfig (cfg_MaxBytes c) (cfg_MaxRequests c) bands (cfg_DefaultPriorityBand c)
    (cfg_InitialShardCount c) (cfg_FlowGCTimeout c) (cfg_PriorityBandGCTimeout c).

Definition with_default (band : option PriorityBandConfig) (c : Config) : Config :=
  mkConfig (cfg_MaxBytes c) (cfg_MaxRequests c) (cfg_PriorityBands c) band
    (cfg_InitialShardCount c) (cfg_FlowGCTimeout c) (cfg_PriorityBandGCTimeout c).

Definition WithMaxBytes (maxBytes : Z) : ConfigOption :=
  λ c, inl (mkConfig maxBytes (cfg_MaxRequests c) (cfg_PriorityBands c) (cfg_DefaultPriorityBand c)
              (cfg_InitialShardCount c) (cfg_FlowGCTimeout c) (cfg_PriorityBandGCTimeout c)).

Definition WithMaxRequests (maxRequests : Z) : ConfigOption :=
  λ c, inl (mkConfig (cfg_MaxBytes c) maxRequests (cfg_PriorityBands c) (cfg_DefaultPriorityBand c)
              (cfg_InitialShardCount c) (cfg_FlowGCTimeout c) (cfg_PriorityBandGCTimeout c)).

Definition WithInitialShardCount (count : Z) : ConfigOption :=
  λ c,
    if bool_decide (count ≤ 0)%Z then inr (ENew "initialShardCount must be greater than 0")
    else inl (mkConfig (cfg_MaxBytes c) (cfg_MaxRequests c) (cfg_PriorityBands c)
                (cfg_DefaultPriorityBand c) count (cfg_FlowGCTimeout c) (cfg_PriorityBandGCTimeout c)).

Definition WithFlowGCTimeout (d : Z) : ConfigOption :=
  λ c,
    if bool_decide (d ≤ 0)%Z then inr (ENew "flowGCTimeout must be positive")
    else inl (mkConfig (cfg_MaxBytes c) (cfg_MaxRequests c) (cfg_PriorityBands c)
                (cfg_DefaultPriorityBand c) (cfg_InitialShardCount c) d (cfg_PriorityBandGCTimeout c)).

Definition WithPriorityBandGCTimeout (d : Z) : ConfigOption :=
  λ c,
    if bool_decide (d ≤ 0)%Z then inr (ENew "priorityBandGCTimeout must be positive")
    else if bool_decide (cfg_FlowGCTimeout c > 0 ∧ d < cfg_FlowGCTimeout c)%Z
    then inr (ENew "priorityBandGCTimeout must be >= flowGCTimeout")
    else inl (mkConfig (cfg_MaxBytes c) (cfg_MaxRequests c) (cfg_PriorityBands c)
                (cfg_DefaultPriorityBand c) (cfg_InitialShardCount c) (cfg_FlowGCTimeout c) d).

Definition WithPriorityBand (band : option PriorityBandConfig) : ConfigOption :=
  λ c,
    match band with
    | None => inr (ENew "cannot add nil PriorityBandConfig")
    | Some b =>
        match cfg_PriorityBands c !! pbc_Priority b with
        | Some _ => inr (ENew "duplicate priority level")
        | None => inl (with_bands (<[pbc_Priority b := b]> (cfg_PriorityBands c)) c)
        end
    end.

Definition WithDefaultPriorityBand (band : option PriorityBandConfig) : ConfigOption :=
  λ c, inl (with_default band c).

(** The loop over the configured bands that applies their defaults. *)
Fixpoint apply_defaults_loop (handle : PluginHandle) (l : list (Z * PriorityBandConfig))
    (bands : gmap Z PriorityBandConfig) : gmap Z PriorityBandConfig + GoError :=
  match l with
  | [] => inl bands
  | (prio, band) :: l' =>
      match band_applyDefaults handle band with
      | inr err => inr (EWrap [err])
      | inl band' => apply_defaults_loop handle l' (<[prio := band']> bands)
      end
  end.

(** The loop over the configured bands that validates them. *)
Fixpoint validate_loop (l : list (Z * PriorityBandConfig)) : option GoError :=
  match l with
  | [] => None
  | (_, band) :: l' =>
      match band_validate band with Some err => Some err | None => validate_loop l' end
  end.

(** A nil [DefaultPriorityBand] is dereferenced by [validate]; [NewConfig] has set it
    by then. *)
Definition config_validate (c : Config) : option GoError :=
  if bool_decide (cfg_InitialShardCount c ≤ 0)%Z
  then Some (ENew "initialShardCount must be greater than 0")
  else if bool_decide (cfg_FlowGCTimeout c ≤ 0)%Z
  then Some (ENew "flowGCTimeout must be positive")
  else if bool_decide (cfg_PriorityBandGCTimeout c ≤ 0)%Z
  then Some (ENew "priorityBandGCTimeout must be positive")
  else if bool_decide (cfg_PriorityBandGCTimeout c < cfg_FlowGCTimeout c)%Z
  then Some (ENew "priorityBandGCTimeout must be >= flowGCTimeout")
  else
    match cfg_DefaultPriorityBand c with
    | None => Some (ENew "nil pointer dereference")
    | Some d =>
        let templateValidationCopy :=
          mkPriorityBandConfig 0 (pbc_OrderingPolicy d) (pbc_FairnessPolicy d) (pbc_Queue d)
            (pbc_MaxBytes d) (pbc_MaxRequests d) in
        match band_validate templateValidationCopy with
        | Some err => Some (EWrap [err])
        | None => validate_loop (map_to_list (cfg_PriorityBands c))
        end
    end.

Definition NewConfig (handle : PluginHandle) (opts : list ConfigOption) : Config + GoError :=
  c ←? apply_opts opts
    (mkConfig 0 0 ∅ None defaultInitialShardCount defaultFlowGCTimeout defaultPriorityBandGCTimeout);
  template ←? (match cfg_DefaultPriorityBand c with
               | None => NewPriorityBandConfig handle 0 []
               | Some d => band_applyDefaults handle d
               end);
  bands ←? apply_defaults_loop handle (map_to_list (cfg_PriorityBands c)) (cfg_PriorityBands c);
  let c' := with_bands bands (with_default (Some template) c) in
  match config_validate c' with
  | Some err => inr (EWrap [err])
  | None => inl c'
  end.

(** ** From the API types *)

Record APIBand := mkAPIBand {
  ab_Priority : Z;
  ab_MaxBytes : option Z;
  ab_MaxRequests : option Z;
  ab_FairnessPolicyRef : string;
  ab_OrderingPolicyRef : string
}.

Record APIConfig := mkAPIConfig {
  ac_MaxBytes : option Z;
  ac_MaxRequests : option Z;
  ac_DefaultPriorityBand : option APIBand;
  ac_PriorityBands : list APIBand
}.

Definition resolveQuantity (q : option Z) : Z + GoError :=
  match q with
  | None => inl 0%Z
  | Some v => if bool_decide (v < 0)%Z then inr (ENew "must be non-negative") else inl (Int.u64 v)
  end.

(** The options of a band, in the order in which both builders append them. *)
Definition band_opts (handle : PluginHandle) (b : APIBand)
    : list PriorityBandConfigOption + GoError :=
  maxBytes ←? resolveQuantity (ab_MaxBytes b);
  maxRequests ←? resolveQuantity (ab_MaxRequests b);
  inl ((if bool_decide (maxBytes > 0)%Z then [WithBandMaxBytes maxBytes] else []) ++
       (if bool_decide (maxRequests > 0)%Z then [WithBandMaxRequests maxRequests] else []) ++
       (if bool_decide (ab_OrderingPolicyRef b ≠ EmptyString)
        then [WithOrderingPolicy (ab_OrderingPolicyRef b) handle] else []) ++
       (if bool_decide (ab_FairnessPolicyRef b ≠ EmptyString)
        then [WithFairnessPolicy (ab_FairnessPolicyRef b) handle] else [])).

Definition wrap_err {A} (r : A + GoError) : A + GoError :=
  match r with inl a => inl a | inr err => inr (EWrap [err]) end.

Definition buildDefaultPriorityBandTemplate (handle : PluginHandle) (apiBand : APIBand)
    : PriorityBandConfig + GoError :=
  opts ←? band_opts handle apiBand;
  wrap_err (NewPriorityBandConfig handle 0 opts).

Definition buildPriorityBand (handle : PluginHandle) (band : APIBand)
    : PriorityBandConfig + GoError :=
  opts ←? band_opts handle band;
  wrap_err (NewPriorityBandConfig handle (ab_Priority band) opts).

Fixpoint api_bands (handle : PluginHandle) (bands : list APIBand) : list ConfigOption + GoError :=
  match bands with
  | [] => inl []
  | b :: bands' =>
      pb ←? buildPriorityBand handle b;
      opts ←? api_bands handle bands';
      inl (WithPriorityBand (Some pb) :: opts)
  end.

Definition NewConfigFromAPI (apiConfig : option APIConfig) (handle : PluginHandle)
    : Config + GoError :=
  match apiConfig with
  | None => NewConfig handle []
  | Some a =>
      maxBytes ←? resolveQuantity (ac_MaxBytes a);
      maxRequests ←? resolveQuantity (ac_MaxRequests a);
      template ←? (match ac_DefaultPriorityBand a with
                   | None => inl []
                   | Some d =>
                       t ←? buildDefaultPriorityBandTemplate handle d;
                       inl [WithDefaultPriorityBand (Some t)]
                   end);
      bands ←? api_bands handle (ac_PriorityBands a);
      NewConfig handle
        ((if bool_decide (maxBytes > 0)%Z then [WithMaxBytes maxBytes] else []) ++
         (if bool_decide (maxRequests > 0)%Z then [WithMaxRequests maxRequests] else []) ++
         template ++ bands)
  end.

(** ** Partition over shards *)

Definition partitionUint64 (total partitionIndex totalPartitions : Z) : Z :=
  if bool_decide (total = 0)%Z then 0%Z
  else
    let t := Int.u64 totalPartitions in
    let base := (total `div` t)%Z in
    let remainder := (total `mod` t)%Z in
    if bool_decide (Int.u64 partitionIndex < remainder)%Z then Int.u64 (base + 1) else base.

Definition partition_band (shardIndex totalShards : Z) (template : PriorityBandConfig)
    : PriorityBandConfig :=
  mkPriorityBandConfig (pbc_Priority template) (pbc_OrderingPolicy template)
    (pbc_FairnessPolicy template) (pbc_Queue template)
    (partitionUint64 (pbc_MaxBytes template) shardIndex totalShards)
    (partitionUint64 (pbc_MaxRequests template) shardIndex totalShards).

(** The new map is keyed by the [Priority] field of each band. *)
Definition partition (shardIndex totalShards : Z) (c : Config) : ShardConfig :=
  mkShardConfig
    (partitionUint64 (cfg_MaxBytes c) shardIndex totalShards)
    (partitionUint64 (cfg_MaxRequests c) shardIndex totalShards)
    (foldr (λ kv m, let shardBand := partition_band shardIndex totalShards kv.2 in
                    <[pbc_Priority shardBand := shardBand]> m)
       ∅ (map_to_list (cfg_PriorityBands c))).

(** A deep copy; values are immutable here, so it is the identity. *)
Definition Clone (c : Config) : Config := c.

(** ** Partitioning is exact and even *)

Lemma partitionUint64_eq total i n :
  (0 ≤ total < Int.two64)%Z → (0 ≤ i < n)%Z → (n < Int.two63)%Z →
  partitionUint64 total i n =
  (total `div` n + if bool_decide (i < total `mod` n)%Z then 1 else 0)%Z.
Proof.
  intros Ht Hi Hn. unfold partitionUint64.
  rewrite !Int.u64_small by (unfold Int.two63, Int.two64 in *; lia).
  case_bool_decide as H0.
  - subst. rewrite Z.div_0_l, Z.mod_0_l by lia. rewrite bool_decide_eq_false_2 by lia. done.
  - case_bool_decide as Hr; [|lia]. rewrite Int.u64_small; [done|].
    assert (1 < n)%Z by (pose proof (Z.mod_pos_bound total n); lia).
    assert (total `div` n < total)%Z by (apply Z.div_lt; lia).
    pose proof (Z.div_pos total n). lia.
Qed.

Definition sum_Z (l : list Z) : Z := foldr Z.add 0%Z l.

Lemma sum_Z_app l k : sum_Z (l ++ k) = (sum_Z l + sum_Z k)%Z.
Proof. induction l; simpl; lia. Qed.

Lemma sum_shares base r n :
  sum_Z ((λ i : nat, base + if bool_decide (Z.of_nat i < r)%Z then 1 else 0)%Z <$> seq 0 n)
  = (Z.of_nat n * base + Z.max 0 (Z.min r (Z.of_nat n)))%Z.
Proof.
  induction n as [|n IH]; [simpl; lia|]. rewrite seq_S, fmap_app, sum_Z_app, IH. simpl.
  case_bool_decide; lia.
Qed.

Lemma partition_shares total n :
  (0 ≤ total < Int.two64)%Z → (0 < Z.of_nat n < Int.two63)%Z →
  sum_Z ((λ i : nat, partitionUint64 total (Z.of_nat i) (Z.of_nat n)) <$> seq 0 n) = total.
Proof.
  intros Ht Hn.
  rewrite (list_fmap_ext _ (λ i : nat, total `div` Z.of_nat n +
    if bool_decide (Z.of_nat i < total `mod` Z.of_nat n)%Z then 1 else 0)%Z).
  - rewrite sum_shares. pose proof (Z.mod_pos_bound total (Z.of_nat n) ltac:(lia)).
    rewrite Z.min_l, Z.max_r by lia. pose proof (Z.div_mod total (Z.of_nat n)). lia.
  - intros k i Hk. apply lookup_seq in Hk as [-> Hk]. apply partitionUint64_eq; [done|lia|lia].
Qed.

(** Capacity partitioning is exact and even: over [n] shards the shares add up
    to the total, and no two shares differ by more than one. *)
Theorem partition_exact_and_even (total : Z) (n : nat)
    (Htotal : (0 ≤ total < Int.two64)%Z) (Hn : (0 < Z.of_nat n < Int.two63)%Z) :
  sum_Z ((λ i : nat, partitionUint64 total (Z.of_nat i) (Z.of_nat n)) <$> seq 0 n) = total ∧
  ∀ i j, i < n → j < n →
    (partitionUint64 total (Z.of_nat i) (Z.of_nat n)
     ≤ partitionUint64 total (Z.of_nat j) (Z.of_nat n) + 1)%Z.
Proof.
  split; [by apply partition_shares|]. intros i j Hi Hj.
  rewrite !partitionUint64_eq by lia. repeat case_bool_decide; lia.
Qed.

Lemma partition_exact_and_even_witness :
  sum_Z ((λ i : nat, partitionUint64 10 (Z.of_nat i) (Z.of_nat 3)) <$> seq 0 3) = 10%Z ∧
  ∀ i j, i < 3 → j < 3 →
    (partitionUint64 10 (Z.of_nat i) (Z.of_nat 3) ≤ partitionUint64 10 (Z.of_nat j) (Z.of_nat 3) + 1)%Z.
Proof. apply (partition_exact_and_even 10 3); unfold Int.two64, Int.two63; simpl; lia. Defined.

(** One shard gets everything: the registry's own use of [partition]. *)
Lemma partitionUint64_one total :
  (0 ≤ total < Int.two64)%Z → partitionUint64 total 0 1 = total.
Proof.
  intros Ht. rewrite partitionUint64_eq by (unfold Int.two63; lia).
  rewrite Z.div_1_r, Z.mod_1_r, bool_decide_eq_false_2 by lia. lia.
Qed.

(** Bands are keyed by their own priority, and their limits are [uint64]. *)
Definition bands_ok (bands : gmap Z PriorityBandConfig) : Prop :=
  ∀ p b, bands !! p = Some b → pbc_Priority b = p ∧
    (0 ≤ pbc_MaxBytes b < Int.two64)%Z ∧ (0 ≤ pbc_MaxRequests b < Int.two64)%Z.

Lemma partition_bands_lookup i n c p :
  bands_ok (cfg_PriorityBands c) →
  sc_PriorityBands (partition i n c) !! p = partition_band i n <$> cfg_PriorityBands c !! p.
Proof.
  intros Hok. cbn [partition sc_PriorityBands].
  assert (∀ l : list (Z * PriorityBandConfig), NoDup l.*1 →
    (∀ q b, (q, b) ∈ l → pbc_Priority b = q) →
    foldr (λ kv m, <[pbc_Priority kv.2 := partition_band i n kv.2]> m) ∅ l
    = partition_band i n <$> (list_to_map l : gmap Z PriorityBandConfig)) as Hl.
  { induction l as [|[q b] l IH]; intros Hnd Hq; cbn [foldr list_to_map fmap list_fmap fst snd] in *; [by rewrite fmap_empty|].
    apply NoDup_cons in Hnd as [_ Hnd]. rewrite IH; [|done|set_solver].
    rewrite fmap_insert. f_equal. apply Hq. set_solver. }
  rewrite <- lookup_fmap. f_equal.
  transitivity (partition_band i n <$> (list_to_map (map_to_list (cfg_PriorityBands c)) : gmap Z _));
    [|by rewrite list_to_map_to_list].
  apply Hl; [apply NoDup_fst_map_to_list|]. intros q b Hin%elem_of_map_to_list. by apply Hok.
Qed.

Lemma partition_band_one b :
  (0 ≤ pbc_MaxBytes b < Int.two64)%Z → (0 ≤ pbc_MaxRequests b < Int.two64)%Z →
  partition_band 0 1 b = b.
Proof.
  intros H1 H2. unfold partition_band. rewrite !partitionUint64_one by done. by destruct b.
Qed.

Lemma partition_one_bands c :
  bands_ok (cfg_PriorityBands c) → sc_PriorityBands (partition 0 1 c) = cfg_PriorityBands c.
Proof.
  intros Hok. apply map_eq. intros p. rewrite partition_bands_lookup by done.
  destruct (cfg_PriorityBands c !! p) as [b|] eqn:E; simpl; [|done].
  destruct (Hok p b E) as (_ & H1 & H2). by rewrite partition_band_one.
Qed.

(** ** Validated configurations *)

(** The queue type exists and has every capability that the ordering policy needs. *)
Definition compatible (o : OrderingPolicy) (q : string) : Prop :=
  (q = "MaxMinHeap"%string ∧
     ∀ c, c ∈ op_RequiredQueueCapabilities o → c = CapabilityPriorityConfigurable) ∨
  (q = "ListQueue"%string ∧ ∀ c, c ∈ op_RequiredQueueCapabilities o → c = CapabilityFIFO).

Lemma CheckCompatibility_spec o q : CheckCompatibility o q = None ↔ compatible o q.
Proof.
  unfold CheckCompatibility, compatible, NewQueueFromName. rewrite RegisteredQueues_lookup.
  assert (∀ cap : QueueCapability,
    ((if bool_decide (length (op_RequiredQueueCapabilities o) = 0) then None
      else if forallb (λ req, bool_decide (req ∈ [cap])) (op_RequiredQueueCapabilities o)
      then None else Some (EWrap [ESentinel ErrPolicyQueueIncompatible])) = None)
    ↔ ∀ c, c ∈ op_RequiredQueueCapabilities o → c = cap) as Hcap.
  { intros cap. case_bool_decide as Hlen.
    - apply length_zero_iff_nil in Hlen as ->. split; [|done]. by intros _ c ?%elem_of_nil.
    - destruct (forallb _ _) eqn:E.
      + split; [|done]. intros _ c Hc. rewrite forallb_forall in E.
        specialize (E c (proj1 (list_elem_of_In _ _) Hc)). apply bool_decide_eq_true in E. set_solver.
      + split; [done|]. intros H. apply not_true_iff_false in E. exfalso. apply E.
        apply forallb_forall. intros c Hc%list_elem_of_In. apply bool_decide_eq_true. set_solver. }
  repeat case_bool_decide; subst; simpl; rewrite ?Hcap; naive_solver.
Qed.

Definition band_ready (b : PriorityBandConfig) : Prop :=
  ∃ o f, pbc_OrderingPolicy b = Some o ∧ pbc_FairnessPolicy b = Some f ∧ compatible o (pbc_Queue b).

Lemma compatible_nonempty o q : compatible o q → q ≠ EmptyString.
Proof. by intros [[-> _]|[-> _]]. Qed.

Lemma band_validate_spec b : band_validate b = None ↔ band_ready b.
Proof.
  unfold band_validate, band_ready. destruct (pbc_OrderingPolicy b) as [o|]; [|naive_solver].
  destruct (pbc_FairnessPolicy b) as [f|]; [|naive_solver].
  destruct (CheckCompatibility o (pbc_Queue b)) eqn:E.
  - case_bool_decide; (split; [done|]); intros (o' & f' & [= <-] & _ & Hc%CheckCompatibility_spec);
      congruence.
  - apply CheckCompatibility_spec in E. rewrite bool_decide_eq_false_2 by by eapply compatible_nonempty.
    naive_solver.
Qed.

Lemma band_applyDefaults_spec h b b' :
  band_applyDefaults h b = inl b' →
  ∃ o f, pbc_OrderingPolicy b' = Some o ∧ pbc_FairnessPolicy b' = Some f ∧
    pbc_Priority b' = pbc_Priority b ∧ pbc_MaxRequests b' = pbc_MaxRequests b ∧
    pbc_MaxBytes b' = (if bool_decide (pbc_MaxBytes b = 0)%Z
                       then defaultPriorityBandMaxBytes else pbc_MaxBytes b) ∧
    (∀ o', pbc_OrderingPolicy b = Some o' → o = o') ∧
    (pbc_OrderingPolicy b = None → h !! DefaultOrderingPolicyRef = Some (POrdering o)) ∧
    (∀ f', pbc_FairnessPolicy b = Some f' → f = f') ∧
    (pbc_FairnessPolicy b = None → h !! DefaultFairnessPolicyRef = Some (PFairness f)) ∧
    pbc_Queue b' = (if bool_decide (pbc_Queue b = EmptyString) then
      if bool_decide (CapabilityPriorityConfigurable ∈ op_RequiredQueueCapabilities o)
      then "MaxMinHeap"%string else defaultQueue else pbc_Queue b).
Proof.
  unfold band_applyDefaults. intros (o & Ho & Hb')%ebind_inl.
  apply ebind_inl in Hb' as (f & Hf & [= <-]). exists o, f. simpl. split_and!; try done.
  - intros o' E. rewrite E in Ho. congruence.
  - intros E. rewrite E in Ho. unfold orderingPolicy in Ho.
    destruct (h !! DefaultOrderingPolicyRef) as [[]|]; simplify_eq; done.
  - intros f' E. rewrite E in Hf. congruence.
  - intros E. rewrite E in Hf. unfold fairnessPolicy in Hf.
    destruct (h !! DefaultFairnessPolicyRef) as [[]|]; simplify_eq; done.
Qed.

(** A band whose queue type is left open gets one that its ordering policy can
    use, for each of the built-in ordering policies: the default passes validation. *)
Theorem default_queue_compatible (h : PluginHandle) (b b' : PriorityBandConfig) (o : OrderingPolicy)
    (Hopen : pbc_Queue b = EmptyString) (Hdef : band_applyDefaults h b = inl b')
    (Ho : pbc_OrderingPolicy b' = Some o) (Hbuiltin : builtin_policy o) :
  band_validate b' = None.
Proof.
  apply band_applyDefaults_spec in Hdef as (o' & f & Ho' & Hf & _ & _ & _ & _ & _ & _ & _ & Hq).
  rewrite Ho in Ho'. injection Ho' as <-. apply band_validate_spec. exists o, f. split_and!; [done..|].
  rewrite Hq, bool_decide_eq_true_2 by done. unfold compatible, defaultQueue.
  destruct Hbuiltin; simpl; case_bool_decide as Hc; set_solver.
Qed.

(** A handle with the built-in policies. *)
Definition sample_handle : PluginHandle :=
  <["fcfs-ordering-policy"%string := POrdering fcfs.policy]>
  (<["edf-ordering-policy"%string := POrdering edf.policy]>
  (<["slo-deadline-ordering-policy"%string := POrdering slodeadline.policy]>
  (<["round-robin-fairness-policy"%string := PFairness roundrobin.policy]>
  (<["global-strict-fairness-policy"%string := PFairness globalstrict.policy]> ∅)))).

Lemma default_queue_compatible_witness :
  band_validate (mkPriorityBandConfig 1 (Some edf.policy) (Some globalstrict.policy) "MaxMinHeap"
    1000000000 0) = None.
Proof.
  apply (default_queue_compatible sample_handle
    (mkPriorityBandConfig 1 (Some edf.policy) None EmptyString 0 0) _ edf.policy);
    [reflexivity|reflexivity|reflexivity|constructor].
Defined.

(** The options that the package offers. *)
Inductive config_option : ConfigOption → Prop :=
  | co_bytes n : config_option (WithMaxBytes n)
  | co_requests n : config_option (WithMaxRequests n)
  | co_shards n : config_option (WithInitialShardCount n)
  | co_flow_gc d : config_option (WithFlowGCTimeout d)
  | co_band_gc d : config_option (WithPriorityBandGCTimeout d)
  | co_band b : config_option (WithPriorityBand b)
  | co_default b : config_option (WithDefaultPriorityBand b).

Definition keyed (bands : gmap Z PriorityBandConfig) : Prop :=
  ∀ p b, bands !! p = Some b → pbc_Priority b = p.

Lemma config_option_keyed opt c c' :
  config_option opt → opt c = inl c' → keyed (cfg_PriorityBands c) → keyed (cfg_PriorityBands c').
Proof.
  destruct 1 as [n|n|n|d|d|[b|]|b]; unfold WithMaxBytes, WithMaxRequests, WithInitialShardCount,
    WithFlowGCTimeout, WithPriorityBandGCTimeout, WithPriorityBand, WithDefaultPriorityBand;
    repeat case_bool_decide; try (by intros [= <-]); try done.
  destruct (cfg_PriorityBands c !! pbc_Priority b) eqn:E; [done|]. intros [= <-] Hk p b'. simpl.
  rewrite lookup_insert. case_decide; [congruence|apply Hk].
Qed.

Lemma apply_opts_keyed opts : ∀ c c',
  Forall config_option opts → apply_opts opts c = inl c' →
  keyed (cfg_PriorityBands c) → keyed (cfg_PriorityBands c').
Proof.
  induction opts as [|opt opts IH]; intros c c' Hopts; simpl; [by intros [= <-]|].
  apply Forall_cons in Hopts as [Ho Hos]. intros (c1 & H1 & H2)%ebind_inl Hk.
  eapply IH; [done..|]. by eapply config_option_keyed.
Qed.

(** The loop replaces each band by itself with defaults applied. *)
Lemma apply_defaults_loop_spec h l : ∀ bands bands',
  NoDup l.*1 → (∀ p b, (p, b) ∈ l → bands !! p = Some b) →
  apply_defaults_loop h l bands = inl bands' →
  ∀ p, (∀ b, (p, b) ∈ l → ∃ b', bands' !! p = Some b' ∧ band_applyDefaults h b = inl b') ∧
       (p ∉ l.*1 → bands' !! p = bands !! p).
Proof.
  induction l as [|[q b] l IH]; intros bands bands' Hnd Hin; simpl.
  { intros [= <-] p. split; [by intros b ?%elem_of_nil|done]. }
  rewrite fmap_cons in Hnd. apply NoDup_cons in Hnd as [Hq Hnd]. simpl in Hq.
  destruct (band_applyDefaults h b) as [b1|] eqn:Hb; [|done]. intros Hloop p.
  assert (∀ p b, (p, b) ∈ l → <[q:=b1]> bands !! p = Some b) as Hin'.
  { intros p0 b0 Hp. rewrite lookup_insert_ne; [apply Hin; set_solver|].
    intros ->. apply Hq. rewrite list_elem_of_fmap. by exists (p0, b0). }
  destruct (IH _ _ Hnd Hin' Hloop p) as [H1 H2]. split.
  - intros b0 [[= -> ->]|Hp]%elem_of_cons; [|by apply H1]. exists b1. split; [|done].
    rewrite H2 by done. apply lookup_insert_eq.
  - intros Hp. apply not_elem_of_cons in Hp as [Hp1 Hp2]. rewrite H2 by done. by apply lookup_insert_ne.
Qed.

Lemma validate_loop_None l : validate_loop l = None ↔ Forall (λ x, band_ready x.2) l.
Proof.
  induction l as [|[p b] l IH]; simpl; [by rewrite Forall_nil|]. rewrite Forall_cons, <- IH. simpl.
  rewrite <- band_validate_spec. destruct (band_validate b); naive_solver.
Qed.

(** What [NewConfig] did to the bands that the options configured. *)
Lemma NewConfig_inv h opts c :
  NewConfig h opts = inl c →
  ∃ c0 template, apply_opts opts (mkConfig 0 0 ∅ None defaultInitialShardCount defaultFlowGCTimeout
      defaultPriorityBandGCTimeout) = inl c0 ∧
    c = with_bands (cfg_PriorityBands c) (with_default (Some template) c0) ∧
    config_validate c = None ∧
    (∀ p, cfg_PriorityBands c0 !! p = None → cfg_PriorityBands c !! p = None) ∧
    (∀ p b, cfg_PriorityBands c0 !! p = Some b →
       ∃ b', cfg_PriorityBands c !! p = Some b' ∧ band_applyDefaults h b = inl b').
Proof.
  unfold NewConfig. intros (c0 & Hc0 & H)%ebind_inl.
  apply ebind_inl in H as (template & _ & H). apply ebind_inl in H as (bands & Hb & H).
  destruct (config_validate _) eqn:Hv; [done|]. injection H as <-. exists c0, template.
  pose proof (apply_defaults_loop_spec h _ _ _ (NoDup_fst_map_to_list _)
    (λ p b Hin, proj1 (elem_of_map_to_list _ _ _) Hin) Hb) as Hspec.
  split_and!; try done.
  - intros p Hp. simpl. rewrite (proj2 (Hspec p)); [done|].
    intros ([p' b] & -> & Hin%elem_of_map_to_list)%list_elem_of_fmap. simpl in Hp. congruence.
  - intros p b Hp. simpl. by apply (proj1 (Hspec p)), elem_of_map_to_list.
Qed.

Lemma config_validate_spec c :
  config_validate c = None →
  (0 < cfg_InitialShardCount c)%Z ∧ (0 < cfg_FlowGCTimeout c ≤ cfg_PriorityBandGCTimeout c)%Z ∧
  (∃ d, cfg_DefaultPriorityBand c = Some d ∧ band_ready d) ∧
  ∀ p b, cfg_PriorityBands c !! p = Some b → band_ready b.
Proof.
  unfold config_validate. repeat (case_bool_decide; [done|]).
  destruct (cfg_DefaultPriorityBand c) as [d|]; [|done].
  destruct (band_validate _) eqn:Hd; [done|]. intros Hl%validate_loop_None.
  split_and!; [lia..| |].
  - exists d. split; [done|]. by apply band_validate_spec in Hd.
  - intros p b Hb. rewrite Forall_forall in Hl. apply (Hl (p, b)). by apply elem_of_map_to_list.
Qed.

(** A configuration that [NewConfig] returns is usable: shards and garbage
    collection timeouts are positive and ordered, every band and the template for new
    bands have both policies and a registered queue type with the capabilities the
    ordering policy needs, and bands are keyed by their own priority. *)
Theorem NewConfig_sound (h : PluginHandle) (opts : list ConfigOption) (c : Config)
    (Hopts : Forall config_option opts) (Hc : NewConfig h opts = inl c) :
  (0 < cfg_InitialShardCount c)%Z ∧ (0 < cfg_FlowGCTimeout c ≤ cfg_PriorityBandGCTimeout c)%Z ∧
  (∃ d, cfg_DefaultPriorityBand c = Some d ∧ band_ready d) ∧
  ∀ p b, cfg_PriorityBands c !! p = Some b → pbc_Priority b = p ∧ band_ready b.
Proof.
  apply NewConfig_inv in Hc as (c0 & template & Hc0 & _ & Hv & Hnone & Hsome).
  destruct (config_validate_spec c Hv) as (H1 & H2 & H3 & H4). split_and!; try done; [lia..|].
  intros p b Hb. split; [|by eapply H4].
  destruct (cfg_PriorityBands c0 !! p) as [b0|] eqn:E; [|rewrite Hnone in Hb by done; done].
  destruct (Hsome p b0 E) as (b' & Hb' & Hdef). rewrite Hb in Hb'. injection Hb' as <-.
  apply band_applyDefaults_spec in Hdef as (o & f & _ & _ & -> & _).
  eapply apply_opts_keyed; [exact Hopts|exact Hc0| |exact E]. intros q b1 Hq. cbn [cfg_PriorityBands] in Hq. by rewrite lookup_empty in Hq.
Qed.

Definition sample_config : Config :=
  match NewConfig sample_handle [WithMaxBytes 5000;
          WithPriorityBand (Some (mkPriorityBandConfig 10 (Some edf.policy) None EmptyString 0 100))] with
  | inl c => c
  | inr _ => mkConfig 0 0 ∅ None 0 0 0
  end.

Lemma NewConfig_sound_witness :
  (0 < cfg_FlowGCTimeout sample_config ≤ cfg_PriorityBandGCTimeout sample_config)%Z ∧
  ∀ p b, cfg_PriorityBands sample_config !! p = Some b → pbc_Priority b = p ∧ band_ready b.
Proof.
  destruct (NewConfig_sound sample_handle [WithMaxBytes 5000;
    WithPriorityBand (Some (mkPriorityBandConfig 10 (Some edf.policy) None EmptyString 0 100))]
    sample_config) as (_ & H1 & _ & H2).
  - repeat constructor.
  - reflexivity.
  - split; [exact H1|exact H2].
Defined.

(** *** Translation of the API configuration *)

(** Quantities are [int64]. *)
Definition quantity_ok (q : option Z) : Prop := ∀ v, q = Some v → (v < Int.two63)%Z.

Definition api_band_ok (b : APIBand) : Prop := quantity_ok (ab_MaxBytes b) ∧ quantity_ok (ab_MaxRequests b).

Lemma resolveQuantity_spec q n :
  quantity_ok q → resolveQuantity q = inl n →
  n = default 0%Z q ∧ (0 ≤ n < Int.two63)%Z.
Proof.
  intros Hq. unfold resolveQuantity. destruct q as [v|]; [|by intros [= <-]].
  specialize (Hq v eq_refl). case_bool_decide; [done|]. intros [= <-].
  rewrite Int.u64_small by (unfold Int.two63, Int.two64 in *; lia). simpl. lia.
Qed.

(** The band of the registry that an API band describes. *)
Definition band_of_api (h : PluginHandle) (b : APIBand) (pb : PriorityBandConfig) : Prop :=
  pbc_MaxBytes pb = (if bool_decide (default 0 (ab_MaxBytes b) = 0)%Z
                     then defaultPriorityBandMaxBytes else default 0%Z (ab_MaxBytes b)) ∧
  pbc_MaxRequests pb = default 0%Z (ab_MaxRequests b) ∧
  (∃ o, pbc_OrderingPolicy pb = Some o ∧
     h !! (if bool_decide (ab_OrderingPolicyRef b = EmptyString)
           then DefaultOrderingPolicyRef else ab_OrderingPolicyRef b) = Some (POrdering o)) ∧
  (∃ f, pbc_FairnessPolicy pb = Some f ∧
     h !! (if bool_decide (ab_FairnessPolicyRef b = EmptyString)
           then DefaultFairnessPolicyRef else ab_FairnessPolicyRef b) = Some (PFairness f)).

Lemma orderingPolicy_inl ref h o : orderingPolicy ref h = inl o → h !! ref = Some (POrdering o).
Proof. unfold orderingPolicy. destruct (h !! ref) as [[]|]; intros [= <-]; done. Qed.

Lemma fairnessPolicy_inl ref h f : fairnessPolicy ref h = inl f → h !! ref = Some (PFairness f).
Proof. unfold fairnessPolicy. destruct (h !! ref) as [[]|]; intros [= <-]; done. Qed.

Lemma apply_opts_app {A} (o1 o2 : list (A → A + GoError)) a b :
  apply_opts (o1 ++ o2) a = inl b → ∃ m, apply_opts o1 a = inl m ∧ apply_opts o2 m = inl b.
Proof.
  revert a. induction o1 as [|f o1 IH]; intros a; simpl; [eauto|].
  intros (a' & Hf & H)%ebind_inl. rewrite Hf. simpl. by apply IH.
Qed.

(** The effect of the four optional settings, in order. *)
Lemma apply_band_opts h b opts prio pb :
  api_band_ok b → band_opts h b = inl opts →
  apply_opts opts (mkPriorityBandConfig prio None None EmptyString 0 0) = inl pb →
  pbc_Priority pb = prio ∧ pbc_Queue pb = EmptyString ∧
  pbc_MaxBytes pb = default 0%Z (ab_MaxBytes b) ∧ pbc_MaxRequests pb = default 0%Z (ab_MaxRequests b) ∧
  (if bool_decide (ab_OrderingPolicyRef b = EmptyString) then pbc_OrderingPolicy pb = None
   else ∃ o, pbc_OrderingPolicy pb = Some o ∧ h !! ab_OrderingPolicyRef b = Some (POrdering o)) ∧
  (if bool_decide (ab_FairnessPolicyRef b = EmptyString) then pbc_FairnessPolicy pb = None
   else ∃ f, pbc_FairnessPolicy pb = Some f ∧ h !! ab_FairnessPolicyRef b = Some (PFairness f)).
Proof.
  intros [Hq1 Hq2]. unfold band_opts. intros (n1 & Hn1 & H)%ebind_inl.
  apply ebind_inl in H as (n2 & Hn2 & [= <-]).
  apply resolveQuantity_spec in Hn1 as [-> Hn1]; [|done].
  apply resolveQuantity_spec in Hn2 as [-> Hn2]; [|done].
  intros (p1 & H1 & H)%apply_opts_app. apply apply_opts_app in H as (p2 & H2 & H).
  apply apply_opts_app in H as (p3 & H3 & H4).
  assert (p1 = mkPriorityBandConfig prio None None EmptyString (default 0%Z (ab_MaxBytes b)) 0) as ->.
  { clear H2 H3 H4. case_bool_decide; simpl in H1; injection H1 as <-; [done|]. f_equal. lia. }
  assert (p2 = mkPriorityBandConfig prio None None EmptyString (default 0%Z (ab_MaxBytes b))
    (default 0%Z (ab_MaxRequests b))) as ->.
  { clear H1 H3 H4. case_bool_decide; simpl in H2; injection H2 as <-; [done|]. f_equal. lia. }
  assert (∃ oo, p3 = mkPriorityBandConfig prio oo None EmptyString (default 0%Z (ab_MaxBytes b))
    (default 0%Z (ab_MaxRequests b)) ∧
    (if bool_decide (ab_OrderingPolicyRef b = EmptyString) then oo = None
     else ∃ o, oo = Some o ∧ h !! ab_OrderingPolicyRef b = Some (POrdering o))) as (oo & -> & Hoo).
  { clear H1 H2 H4. rewrite bool_decide_not in H3. case_bool_decide; simpl in H3; [injection H3 as <-; eauto|].
    apply ebind_inl in H3 as (p3' & H3 & E3). simpl in E3. injection E3 as <-.
    apply ebind_inl in H3 as (o & Ho & E3). injection E3 as <-.
    apply orderingPolicy_inl in Ho. eauto. }
  clear H1 H2 H3. rewrite bool_decide_not in H4.
  destruct (bool_decide (ab_FairnessPolicyRef b = EmptyString)); simpl in H4; [by injection H4 as <-|].
  apply ebind_inl in H4 as (p4 & H4 & E4). simpl in E4. injection E4 as <-.
  apply ebind_inl in H4 as (f & Hf & E4). injection E4 as <-.
  apply fairnessPolicy_inl in Hf. split_and!; eauto.
Qed.

Lemma NewPriorityBandConfig_api h b opts prio pb :
  api_band_ok b → band_opts h b = inl opts → NewPriorityBandConfig h prio opts = inl pb →
  pbc_Priority pb = prio ∧ band_of_api h b pb.
Proof.
  intros Hok Hopts. unfold NewPriorityBandConfig. intros (p0 & Hp0 & Hdef)%ebind_inl.
  destruct (apply_band_opts h b opts prio p0 Hok Hopts Hp0) as (<- & Hq & Hmb & Hmr & Ho & Hf).
  apply band_applyDefaults_spec in Hdef
    as (o & f & Hbo & Hbf & -> & Hr & Hb & Ho1 & Ho2 & Hf1 & Hf2 & _).
  split; [done|]. unfold band_of_api. rewrite Hb, Hr, Hmb, Hmr. split_and!; [done..| |].
  - exists o. split; [done|]. clear Hf. case_bool_decide; [by apply Ho2|].
    destruct Ho as (o' & Ho' & Hh). by rewrite (Ho1 o' Ho').
  - exists f. split; [done|]. clear Ho. case_bool_decide; [by apply Hf2|].
    destruct Hf as (f' & Hf' & Hh). by rewrite (Hf1 f' Hf').
Qed.

Lemma wrap_err_inl {A} (r : A + GoError) a : wrap_err r = inl a → r = inl a.
Proof. destruct r; simpl; congruence. Qed.

(** Applying the defaults once more changes none of the settings. *)
Lemma band_of_api_defaults h b pb pb' :
  band_applyDefaults h pb = inl pb' → band_of_api h b pb → band_of_api h b pb'.
Proof.
  intros (o & f & Ho & Hf & _ & Hr & Hb & Ho1 & _ & Hf1 & _ & _)%band_applyDefaults_spec.
  intros (H1 & H2 & (o' & Ho' & Hho) & (f' & Hf' & Hhf)). unfold band_of_api.
  rewrite Hr, H2, Hb, H1. split_and!; [|done|exists o'|exists f'].
  - repeat case_bool_decide; unfold defaultPriorityBandMaxBytes in *; lia.
  - by rewrite Ho, (Ho1 o' Ho').
  - by rewrite Hf, (Hf1 f' Hf').
Qed.

(** The band options, applied to a configuration without the bands. *)
Lemma api_bands_spec h bs : ∀ opts c0 c,
  Forall api_band_ok bs → api_bands h bs = inl opts → apply_opts opts c0 = inl c →
  cfg_MaxBytes c = cfg_MaxBytes c0 ∧ cfg_MaxRequests c = cfg_MaxRequests c0 ∧
  cfg_DefaultPriorityBand c = cfg_DefaultPriorityBand c0 ∧
  NoDup (ab_Priority <$> bs) ∧
  (∀ b, b ∈ bs → cfg_PriorityBands c0 !! ab_Priority b = None ∧
     ∃ pb, cfg_PriorityBands c !! ab_Priority b = Some pb ∧ band_of_api h b pb) ∧
  (∀ p, p ∉ ab_Priority <$> bs → cfg_PriorityBands c !! p = cfg_PriorityBands c0 !! p).
Proof.
  induction bs as [|b bs IH]; intros opts c0 c Hok; cbn [api_bands].
  { intros [= <-] [= <-]. split_and!; try done; [apply NoDup_nil_2|]. by intros ? ?%elem_of_nil. }
  apply Forall_cons in Hok as [Hb Hok].
  intros (pb & Hpb & H)%ebind_inl. apply ebind_inl in H as (opts' & Hopts' & [= <-]).
  unfold buildPriorityBand in Hpb. apply ebind_inl in Hpb as (bopts & Hbo & Hpb%wrap_err_inl).
  destruct (NewPriorityBandConfig_api h b bopts _ pb Hb Hbo Hpb) as [Hprio Hapi].
  cbn [apply_opts]. intros (c1 & Hc1 & Hrest)%ebind_inl. unfold WithPriorityBand in Hc1.
  rewrite Hprio in Hc1. destruct (cfg_PriorityBands c0 !! ab_Priority b) eqn:E0; [done|].
  injection Hc1 as <-.
  destruct (IH _ _ _ Hok Hopts' Hrest) as (H1 & H2 & H3 & Hnd & Hin & Hout).
  cbn [with_bands cfg_MaxBytes cfg_MaxRequests cfg_DefaultPriorityBand cfg_PriorityBands] in *.
  assert (ab_Priority b ∉ ab_Priority <$> bs) as Hnew.
  { intros (b' & Hp & Hb')%list_elem_of_fmap. destruct (Hin b' Hb') as [Hn _].
    rewrite <- Hp, lookup_insert_eq in Hn. done. }
  split_and!; try done.
  - rewrite fmap_cons. by constructor.
  - intros b' [->|Hb']%elem_of_cons.
    + split; [done|]. exists pb. by rewrite Hout, lookup_insert_eq.
    + destruct (Hin b' Hb') as [Hn Hsome]. split; [|done].
      rewrite lookup_insert_ne in Hn; [done|]. intros E. apply Hnew. rewrite E.
      apply list_elem_of_fmap. eauto.
  - intros p Hp. rewrite fmap_cons in Hp. apply not_elem_of_cons in Hp as [Hp1 Hp2].
    rewrite Hout by done. by apply lookup_insert_ne.
Qed.

(** [NewConfigFromAPI] translates faithfully: global limits are the given
    quantities (none means no limit), no two bands share a priority, every band of the
    API gets its limits (1 GB of bytes when none is given) and the policies it names
    (or the defaults), the template likewise, and there are no other bands. *)
Theorem NewConfigFromAPI_faithful (h : PluginHandle) (a : APIConfig) (c : Config)
    (Hq1 : quantity_ok (ac_MaxBytes a)) (Hq2 : quantity_ok (ac_MaxRequests a))
    (Hqd : ∀ d, ac_DefaultPriorityBand a = Some d → api_band_ok d)
    (Hqb : Forall api_band_ok (ac_PriorityBands a))
    (Hc : NewConfigFromAPI (Some a) h = inl c) :
  cfg_MaxBytes c = default 0%Z (ac_MaxBytes a) ∧
  cfg_MaxRequests c = default 0%Z (ac_MaxRequests a) ∧
  NoDup (ab_Priority <$> ac_PriorityBands a) ∧
  (∀ b, b ∈ ac_PriorityBands a →
     ∃ pb, cfg_PriorityBands c !! ab_Priority b = Some pb ∧ band_of_api h b pb) ∧
  (∀ p, p ∉ ab_Priority <$> ac_PriorityBands a → cfg_PriorityBands c !! p = None).
Proof.
  unfold NewConfigFromAPI in Hc. apply ebind_inl in Hc as (n1 & Hn1 & Hc).
  apply ebind_inl in Hc as (n2 & Hn2 & Hc). apply ebind_inl in Hc as (tmpl & Htmpl & Hc).
  apply ebind_inl in Hc as (bopts & Hbopts & Hc).
  apply resolveQuantity_spec in Hn1 as [-> Hn1]; [|done].
  apply resolveQuantity_spec in Hn2 as [-> Hn2]; [|done].
  apply NewConfig_inv in Hc as (c0 & template & Hc0 & Hceq & _ & Hnone & Hsome).
  apply apply_opts_app in Hc0 as (c1 & Hc1 & Hc0). apply apply_opts_app in Hc0 as (c2 & Hc2 & Hc0).
  apply apply_opts_app in Hc0 as (c3 & Hc3 & Hc0).
  assert (cfg_MaxBytes c1 = default 0%Z (ac_MaxBytes a) ∧ cfg_MaxRequests c1 = 0%Z ∧
    cfg_PriorityBands c1 = ∅) as (E1 & E2 & E3).
  { clear -Hc1 Hn1. case_bool_decide; simpl in Hc1; injection Hc1 as <-; simpl; split_and!; try done. lia. }
  assert (cfg_MaxBytes c2 = default 0%Z (ac_MaxBytes a) ∧
    cfg_MaxRequests c2 = default 0%Z (ac_MaxRequests a) ∧ cfg_PriorityBands c2 = ∅) as (F1 & F2 & F3).
  { clear -Hc2 Hn2 E1 E2 E3.
    case_bool_decide; simpl in Hc2; injection Hc2 as <-; simpl; split_and!; try done. lia. }
  assert (cfg_MaxBytes c3 = cfg_MaxBytes c2 ∧ cfg_MaxRequests c3 = cfg_MaxRequests c2 ∧
    cfg_PriorityBands c3 = cfg_PriorityBands c2) as (G1 & G2 & G3).
  { clear -Htmpl Hc3. destruct (ac_DefaultPriorityBand a) as [d|].
    - apply ebind_inl in Htmpl as (t & _ & [= <-]). simpl in Hc3. by injection Hc3 as <-.
    - injection Htmpl as <-. simpl in Hc3. by injection Hc3 as <-. }
  destruct (api_bands_spec h _ _ _ _ Hqb Hbopts Hc0) as (A1 & A2 & _ & Hnd & Hin & Hout).
  rewrite Hceq. simpl. split_and!; [congruence|congruence|done| |].
  - intros b Hb. destruct (Hin b Hb) as (_ & pb & Hpb & Hapi).
    destruct (Hsome _ _ Hpb) as (pb' & Hpb' & Hdef). exists pb'. split; [done|].
    by eapply band_of_api_defaults.
  - intros p Hp. apply Hnone. rewrite Hout by done. by rewrite G3, F3, lookup_empty.
Qed.

Definition sample_api : APIConfig :=
  mkAPIConfig (Some 4096%Z) None None
    [mkAPIBand 5 None (Some 10%Z) "round-robin-fairness-policy" "edf-ordering-policy";
     mkAPIBand 0 (Some 77%Z) None EmptyString EmptyString].

Definition sample_api_config : Config :=
  match NewConfigFromAPI (Some sample_api) sample_handle with
  | inl c => c
  | inr _ => mkConfig 0 0 ∅ None 0 0 0
  end.

Lemma NewConfigFromAPI_faithful_witness :
  cfg_MaxBytes sample_api_config = 4096%Z ∧
  ∃ pb, cfg_PriorityBands sample_api_config !! 5%Z = Some pb ∧
    band_of_api sample_handle
      (mkAPIBand 5 None (Some 10%Z) "round-robin-fairness-policy" "edf-ordering-policy") pb.
Proof.
  destruct (NewConfigFromAPI_faithful sample_handle sample_api sample_api_config)
    as (H1 & _ & _ & H2 & _).
  - intros v [= <-]. reflexivity.
  - intros v [=].
  - intros d [=].
  - repeat constructor; intros v [= <-]; reflexivity.
  - reflexivity.
  - split; [exact H1|]. apply (H2 (mkAPIBand 5 None (Some 10%Z) "round-robin-fairness-policy" "edf-ordering-policy")).
    left.
Defined.
