(* ===== verification/Leasing.v ===== *)
(** * Reference-counted leases: [registry/leasing.go]

    [leasedState] is the lifecycle record of a flow or a priority band: a lease
    count, the time since when it is idle (none: active) and the mark that the
    garbage collector sets before it deletes the resource.

    The second half models the protocol that [pinLeasedResource] and
    [collectLeasedResources] run against each other without a common lock: any
    number of goroutines that pin and release, and one collector, interleaved at
    the granularity of the operations that are atomic in the code (an operation on
    the [sync.Map], or a critical section of the resource's mutex). *)

From stdpp Require Import prelude gmap list.
From Stdlib Require Import Lia.
From S2P Require Import Prelude.

(** ** The lifecycle record *)

Record leasedState := mkLeasedState {
  ls_leaseCount : Z;
  ls_becameIdleAt : option Z;       (* None: the zero time *)
  ls_markedForDeletion : bool
}.

#[export] Instance leasedState_eq_dec : EqDecision leasedState.
Proof. solve_decision. Defined.

Definition newLeasedState : leasedState := mkLeasedState 0 None false.

(** [None]: the resource is marked, and [tryPin] returns false. *)
Definition tryPin (ls : leasedState) : option leasedState :=
  if ls_markedForDeletion ls then None
  else Some (mkLeasedState (ls_leaseCount ls + 1) None (ls_markedForDeletion ls)).

Definition unpin (now : Z) (ls : leasedState) : leasedState :=
  let n := (ls_leaseCount ls - 1)%Z in
  mkLeasedState n (if bool_decide (n = 0)%Z then Some now else ls_becameIdleAt ls)
    (ls_markedForDeletion ls).

Definition isActive (ls : leasedState) : bool := bool_decide (ls_leaseCount ls > 0)%Z.

Definition checkAndMarkForDeletion (timeout now : Z) (ls : leasedState) : bool * leasedState :=
  if bool_decide (ls_leaseCount ls > 0)%Z then
    (false, mkLeasedState (ls_leaseCount ls) None (ls_markedForDeletion ls))
  else
    match ls_becameIdleAt ls with
    | None => (false, mkLeasedState (ls_leaseCount ls) (Some now) (ls_markedForDeletion ls))
    | Some t =>
        if bool_decide (now - t < timeout)%Z then (false, ls)
        else (true, mkLeasedState (ls_leaseCount ls) (Some t) true)
    end.

(** ** The protocol *)

(** A goroutine in [pinLeasedResource] (one constructor per program point), or
    holding the lease it obtained. *)
Inductive thread (K : Type) :=
  | TIdle
  | TLoad (k : K)                                   (* about to [m.Load(key)] *)
  | TStore (k : K)                                  (* about to [m.LoadOrStore(key, createFn())] *)
  | TTry (k : K) (l : positive) (isNew : bool)      (* about to [state.tryPin()] *)
  | TCheck (k : K) (l : positive) (isNew : bool)    (* about to re-check the map *)
  | TRetry (k : K) (l : positive)                   (* about to [state.unpin(clock.Now())] *)
  | THold (k : K) (l : positive) (isNew : bool).    (* returned, lease held *)
Arguments TIdle {K}.
Arguments TLoad {K}.
Arguments TStore {K}.
Arguments TTry {K}.
Arguments TCheck {K}.
Arguments TRetry {K}.
Arguments THold {K}.

(** The collector in [collectLeasedResources]. *)
Inductive collector (K : Type) :=
  | GIdle
  | GRange (now : Z)                                (* between two callbacks of [m.Range] *)
  | GVisit (now : Z) (k : K) (l : positive)         (* about to check [value] *)
  | GDelete (now : Z) (k : K) (l : positive).       (* marked, about to [m.LoadAndDelete(k)] *)
Arguments GIdle {K}.
Arguments GRange {K}.
Arguments GVisit {K}.
Arguments GDelete {K}.

Section protocol.
Context {K : Type} `{!EqDecision K} `{!Countable K} (timeout : Z).

(** Resources live at addresses, tagged with the key they were created for. *)
Record system := mkSystem {
  sys_next : positive;
  sys_objs : gmap positive (K * leasedState);
  sys_map : gmap K positive;                        (* the sync.Map *)
  sys_threads : list (thread K);
  sys_gc : collector K
}.

Definition with_thread (i : nat) (t : thread K) (s : system) : system :=
  mkSystem (sys_next s) (sys_objs s) (sys_map s) (<[i := t]> (sys_threads s)) (sys_gc s).

Definition with_obj (l : positive) (x : K * leasedState) (s : system) : system :=
  mkSystem (sys_next s) (<[l := x]> (sys_objs s)) (sys_map s) (sys_threads s) (sys_gc s).

Definition with_map (m : gmap K positive) (s : system) : system :=
  mkSystem (sys_next s) (sys_objs s) m (sys_threads s) (sys_gc s).

Definition with_gc (g : collector K) (s : system) : system :=
  mkSystem (sys_next s) (sys_objs s) (sys_map s) (sys_threads s) g.

(** [createFn()] and the store of the new resource. *)
Definition store_new (k : K) (s : system) : system :=
  mkSystem (Pos.succ (sys_next s)) (<[sys_next s := (k, newLeasedState)]> (sys_objs s))
    (<[k := sys_next s]> (sys_map s)) (sys_threads s) (sys_gc s).

Inductive step : system → system → Prop :=
  | st_start s i k :
      sys_threads s !! i = Some TIdle → step s (with_thread i (TLoad k) s)
  | st_load_hit s i k l :
      sys_threads s !! i = Some (TLoad k) → sys_map s !! k = Some l →
      step s (with_thread i (TTry k l false) s)
  | st_load_miss s i k :
      sys_threads s !! i = Some (TLoad k) → sys_map s !! k = None →
      step s (with_thread i (TStore k) s)
  | st_store_new s i k :
      sys_threads s !! i = Some (TStore k) → sys_map s !! k = None →
      step s (with_thread i (TTry k (sys_next s) true) (store_new k s))
  | st_store_loaded s i k l :
      sys_threads s !! i = Some (TStore k) → sys_map s !! k = Some l →
      step s (with_thread i (TTry k l false) s)
  | st_try_ok s i k l n k' o o' :
      sys_threads s !! i = Some (TTry k l n) → sys_objs s !! l = Some (k', o) → tryPin o = Some o' →
      step s (with_thread i (TCheck k l n) (with_obj l (k', o') s))
  | st_try_fail s i k l n k' o :
      sys_threads s !! i = Some (TTry k l n) → sys_objs s !! l = Some (k', o) → tryPin o = None →
      step s (with_thread i (TLoad k) s)
  | st_check_ok s i k l n :
      sys_threads s !! i = Some (TCheck k l n) → sys_map s !! k = Some l →
      step s (with_thread i (THold k l n) s)
  | st_check_stale s i k l n :
      sys_threads s !! i = Some (TCheck k l n) → sys_map s !! k ≠ Some l →
      step s (with_thread i (TRetry k l) s)
  | st_retry s i k l k' o now :
      sys_threads s !! i = Some (TRetry k l) → sys_objs s !! l = Some (k', o) →
      step s (with_thread i (TLoad k) (with_obj l (k', unpin now o) s))
  | st_release s i k l n k' o now :
      sys_threads s !! i = Some (THold k l n) → sys_objs s !! l = Some (k', o) →
      step s (with_thread i TIdle (with_obj l (k', unpin now o) s))
  | st_gc_start s now :
      sys_gc s = GIdle → step s (with_gc (GRange now) s)
  | st_gc_visit s now k l :
      sys_gc s = GRange now → sys_map s !! k = Some l → step s (with_gc (GVisit now k l) s)
  | st_gc_keep s now k l k' o o' :
      sys_gc s = GVisit now k l → sys_objs s !! l = Some (k', o) →
      checkAndMarkForDeletion timeout now o = (false, o') →
      step s (with_gc (GRange now) (with_obj l (k', o') s))
  | st_gc_mark s now k l k' o o' :
      sys_gc s = GVisit now k l → sys_objs s !! l = Some (k', o) →
      checkAndMarkForDeletion timeout now o = (true, o') →
      step s (with_gc (GDelete now k l) (with_obj l (k', o') s))
  | st_gc_delete s now k l :
      sys_gc s = GDelete now k l →
      step s (with_gc (GRange now) (with_map (delete k (sys_map s)) s))
  | st_gc_end s now :
      sys_gc s = GRange now → step s (with_gc GIdle s).

(** [n] goroutines, no resource yet. *)
Definition initial (n : nat) : system := mkSystem 1 ∅ ∅ (replicate n TIdle) GIdle.

(** ** Invariant *)

(** The goroutine's own lease on [l] is part of the count. *)
Definition holds (l : positive) (t : thread K) : bool :=
  match t with
  | TCheck _ l' _ | TRetry _ l' | THold _ l' _ => bool_decide (l' = l)
  | _ => false
  end.

Definition refers (t : thread K) : option (K * positive) :=
  match t with
  | TTry k l _ | TCheck k l _ | TRetry k l | THold k l _ => Some (k, l)
  | _ => None
  end.

Fixpoint holders (l : positive) (ts : list (thread K)) : Z :=
  match ts with
  | [] => 0
  | t :: ts' => (if holds l t then 1 else 0) + holders l ts'
  end.

Record inv (s : system) : Prop := {
  inv_fresh : ∀ l x, sys_objs s !! l = Some x → (l < sys_next s)%positive;
  inv_count : ∀ l k o, sys_objs s !! l = Some (k, o) → ls_leaseCount o = holders l (sys_threads s);
  inv_marked : ∀ l k o, sys_objs s !! l = Some (k, o) →
    ls_markedForDeletion o = true → ls_leaseCount o = 0%Z;
  inv_live : ∀ l k o, sys_objs s !! l = Some (k, o) →
    ls_markedForDeletion o = false → sys_map s !! k = Some l;
  inv_map : ∀ k l, sys_map s !! k = Some l → ∃ o, sys_objs s !! l = Some (k, o);
  inv_thread : ∀ i t k l, sys_threads s !! i = Some t → refers t = Some (k, l) →
    ∃ o, sys_objs s !! l = Some (k, o);
  inv_gc :
    match sys_gc s with
    | GVisit _ k l => sys_map s !! k = Some l
    | GDelete _ k l => sys_map s !! k = Some l ∧
        ∃ o, sys_objs s !! l = Some (k, o) ∧ ls_markedForDeletion o = true
    | _ => True
    end
}.

Lemma holders_insert l ts i t t' :
  ts !! i = Some t →
  holders l (<[i := t']> ts) =
  (holders l ts - (if holds l t then 1 else 0) + (if holds l t' then 1 else 0))%Z.
Proof using Type.
  revert i. induction ts as [|t0 ts IH]; intros [|i] Ht; simplify_eq/=; [lia|]. rewrite (IH i) by done. lia.
Qed.

Lemma holders_nonneg l ts : (0 ≤ holders l ts)%Z.
Proof using Type. induction ts as [|t ts IH]; simpl; [done|]. destruct (holds l t); lia. Qed.

Lemma holders_pos l ts i t : ts !! i = Some t → holds l t = true → (0 < holders l ts)%Z.
Proof using Type.
  revert i. induction ts as [|t0 ts IH]; intros [|i] Ht Hh; simplify_eq/=.
  - rewrite Hh. pose proof (holders_nonneg l ts). lia.
  - pose proof (IH i Ht Hh). destruct (holds l t0); lia.
Qed.

Lemma holders_fresh l ts :
  (∀ i t k l', ts !! i = Some t → refers t = Some (k, l') → l' ≠ l) → holders l ts = 0%Z.
Proof using Type.
  induction ts as [|t ts IH]; intros Hno; simpl; [done|].
  rewrite IH by (intros i t' k l'; apply (Hno (S i))).
  destruct (holds l t) eqn:Hh; [|done]. exfalso. specialize (Hno 0 t).
  destruct t; simpl in *; try done; apply bool_decide_eq_true in Hh; naive_solver.
Qed.

(** A goroutine that moves on without touching its lease count. *)
Lemma inv_with_thread s i t t' :
  inv s → sys_threads s !! i = Some t → (∀ l, holds l t' = holds l t) →
  (∀ k l, refers t' = Some (k, l) → ∃ o, sys_objs s !! l = Some (k, o)) →
  inv (with_thread i t' s).
Proof using Type.
  intros [H1 H2 H3 H4 H5 H6 H7] Ht Hh Hr. split; simpl; try done.
  - intros l k o Ho. rewrite (H2 l k o Ho), (holders_insert l _ i t) by done. rewrite Hh. lia.
  - intros j t0 k l. rewrite list_lookup_insert. case_decide as E; [|apply H6].
    destruct E as [<- _]. intros [= <-]. apply Hr.
Qed.

(** The count of one resource changes together with the goroutine's lease. *)
Lemma inv_pin s i t t' l k o o' :
  inv s → sys_threads s !! i = Some t → sys_objs s !! l = Some (k, o) →
  (∀ l', l' ≠ l → holds l' t' = holds l' t) →
  (ls_leaseCount o' = ls_leaseCount o - (if holds l t then 1 else 0) + (if holds l t' then 1 else 0))%Z →
  ls_markedForDeletion o' = ls_markedForDeletion o →
  (ls_markedForDeletion o = true → ls_leaseCount o' = 0)%Z →
  (∀ k' l', refers t' = Some (k', l') → refers t = Some (k', l')) →
  inv (with_thread i t' (with_obj l (k, o') s)).
Proof using Type.
  intros [H1 H2 H3 H4 H5 H6 H7] Ht Ho Hh Hc Hm Hz Hr. split; simpl.
  - intros l' x. rewrite lookup_insert. case_decide; [subst; intros _; by eapply H1|apply H1].
  - intros l' k' o0. rewrite lookup_insert, (holders_insert l' _ i t) by done. case_decide as E.
    + subst l'. intros [= <- <-]. rewrite Hc, (H2 l k o Ho). lia.
    + intros Ho'. rewrite (H2 _ _ _ Ho'), Hh by done. lia.
  - intros l' k' o0. rewrite lookup_insert. case_decide; [|apply H3].
    intros [= <- <-] Hmk. apply Hz. congruence.
  - intros l' k' o0. rewrite lookup_insert. case_decide; [|apply H4].
    intros [= <- <-] Hmk. subst l'. apply (H4 l k o Ho). congruence.
  - intros k' l' Hl'. destruct (H5 k' l' Hl') as [o0 Ho0]. rewrite lookup_insert.
    case_decide; [subst; simplify_eq; eauto|eauto].
  - intros j t0 k' l'. rewrite list_lookup_insert.
    assert (∀ t1, sys_threads s !! j = Some t1 → refers t1 = Some (k', l') →
      ∃ o0, <[l:=(k, o')]> (sys_objs s) !! l' = Some (k', o0)) as Hold.
    { intros t1 Ht1 Hr1. destruct (H6 j t1 k' l' Ht1 Hr1) as [o0 Ho0]. rewrite lookup_insert.
      case_decide; [subst; simplify_eq; eauto|eauto]. }
    case_decide as E; [|by apply Hold]. destruct E as [<- _]. intros [= <-] Hr1.
    apply (Hold t); [done|]. by apply Hr.
  - destruct (sys_gc s) as [| |now k' l'|now k' l']; try done. destruct H7 as (Hm' & o0 & Ho0 & Hmk).
    split; [done|]. rewrite lookup_insert. case_decide as E; [|eauto]. subst l'. simplify_eq.
    exists o'. by rewrite Hm.
Qed.

(** The collector's check of one resource. *)
Lemma inv_check s l k o o' g :
  inv s → sys_objs s !! l = Some (k, o) → ls_leaseCount o' = ls_leaseCount o →
  (ls_markedForDeletion o' = true → ls_leaseCount o = 0)%Z →
  (ls_markedForDeletion o = true → ls_markedForDeletion o' = true) →
  match g with
  | GVisit _ _ _ => False
  | GDelete _ k' l' => k' = k ∧ l' = l ∧ sys_map s !! k = Some l ∧ ls_markedForDeletion o' = true
  | _ => True
  end →
  inv (with_gc g (with_obj l (k, o') s)).
Proof using Type.
  intros [H1 H2 H3 H4 H5 H6 H7] Ho Hc Hz Hm Hg. split; simpl.
  - intros l' x. rewrite lookup_insert. case_decide; [subst; intros _; by eapply H1|apply H1].
  - intros l' k' o0. rewrite lookup_insert. case_decide; [|apply H2].
    intros [= <- <-]. subst l'. rewrite Hc. by eapply H2.
  - intros l' k' o0. rewrite lookup_insert. case_decide; [|apply H3].
    intros [= <- <-] Hmk. rewrite Hc. auto.
  - intros l' k' o0. rewrite lookup_insert. case_decide; [|apply H4].
    intros [= <- <-] Hmk. subst l'. apply (H4 l k o Ho).
    destruct (ls_markedForDeletion o) eqn:E; [|done]. rewrite Hm in Hmk; done.
  - intros k' l' Hl'. destruct (H5 k' l' Hl') as [o0 Ho0]. rewrite lookup_insert.
    case_decide; [subst; simplify_eq; eauto|eauto].
  - intros j t k' l' Ht Hr. destruct (H6 j t k' l' Ht Hr) as [o0 Ho0]. rewrite lookup_insert.
    case_decide; [subst; simplify_eq; eauto|eauto].
  - destruct g as [| |now k' l'|now k' l']; try done. destruct Hg as (-> & -> & Hmap & Hmk).
    split; [done|]. exists o'. by rewrite lookup_insert_eq.
Qed.

Lemma inv_store_new s i k :
  inv s → sys_threads s !! i = Some (TStore k) → sys_map s !! k = None →
  inv (with_thread i (TTry k (sys_next s) true) (store_new k s)).
Proof using Type.
  intros [H1 H2 H3 H4 H5 H6 H7] Ht Hk.
  assert (sys_objs s !! sys_next s = None) as Hnew.
  { destruct (sys_objs s !! sys_next s) eqn:E; [|done]. apply H1 in E. lia. }
  split; simpl.
  - intros l x. rewrite lookup_insert. case_decide; [subst; lia|]. intros Hl%H1. lia.
  - intros l k' o. rewrite lookup_insert, (holders_insert l _ i (TStore k)) by done. simpl.
    case_decide as E.
    + intros [= <- <-]. subst l. rewrite holders_fresh; [done|].
      intros j t k' l' Htj Hr ->. destruct (H6 j t k' _ Htj Hr). congruence.
    + intros Ho. rewrite (H2 _ _ _ Ho). lia.
  - intros l k' o. rewrite lookup_insert. case_decide; [by intros [= <- <-]|apply H3].
  - intros l k' o. rewrite !lookup_insert. case_decide as E.
    + intros [= <- <-] _. by rewrite decide_True, E by done.
    + intros Ho Hm. case_decide as E'; [|by eapply H4]. subst k'. rewrite (H4 l k o Ho Hm) in Hk. done.
  - intros k' l. rewrite !lookup_insert. case_decide as E.
    + intros [= <-]. subst k'. rewrite decide_True by done. eauto.
    + intros Hl. destruct (H5 k' l Hl) as [o Ho]. rewrite decide_False; [eauto|]. intros <-. congruence.
  - intros j t k' l. rewrite list_lookup_insert. case_decide as E.
    + intros [= <-] [= <- <-]. rewrite lookup_insert_eq. eauto.
    + intros Htj Hr. destruct (H6 j t k' l Htj Hr) as [o Ho]. rewrite lookup_insert_ne; [eauto|].
      intros <-. congruence.
  - destruct (sys_gc s) as [| |now k' l|now k' l]; try done.
    + rewrite lookup_insert_ne; [done|]. intros <-. congruence.
    + destruct H7 as (Hm & o & Ho & Hmk). rewrite !lookup_insert_ne; [eauto|..]; intros <-; congruence.
Qed.

Lemma inv_gc_delete s now k l :
  inv s → sys_gc s = GDelete now k l →
  inv (with_gc (GRange now) (with_map (delete k (sys_map s)) s)).
Proof using Type.
  intros [H1 H2 H3 H4 H5 H6 H7] Hgc. rewrite Hgc in H7. destruct H7 as (Hm & o & Ho & Hmk).
  split; simpl; try done.
  - intros l' k' o' Ho' Hmk'. rewrite lookup_delete_ne; [by eapply H4|]. intros <-.
    rewrite (H4 l' k o' Ho' Hmk') in Hm. injection Hm as ->. congruence.
  - intros k' l' [_ Hl']%lookup_delete_Some. by apply H5.
Qed.

(** What the collector's check does to a resource. *)
Lemma check_spec now o r o' :
  checkAndMarkForDeletion timeout now o = (r, o') →
  ls_leaseCount o' = ls_leaseCount o ∧
  (r = true → ls_markedForDeletion o' = true ∧ (ls_leaseCount o ≤ 0)%Z) ∧
  (r = false → ls_markedForDeletion o' = ls_markedForDeletion o).
Proof using Type.
  unfold checkAndMarkForDeletion. repeat case_bool_decide; [by intros [= <- <-]|].
  destruct (ls_becameIdleAt o) as [t|]; [case_bool_decide|]; intros [= <- <-]; simpl; naive_solver lia.
Qed.

Lemma inv_step s s' : step s s' → inv s → inv s'.
Proof using Type.
  intros Hstep Hinv. pose proof Hinv as [H1 H2 H3 H4 H5 H6 H7].
  destruct Hstep as [s i k Ht|s i k l Ht Hm|s i k Ht Hm|s i k Ht Hm|s i k l Ht Hm
    |s i k l n k' o o' Ht Ho Hp|s i k l n k' o Ht Ho Hp|s i k l n Ht Hm|s i k l n Ht Hm
    |s i k l k' o now Ht Ho|s i k l n k' o now Ht Ho|s now Hg|s now k l Hg Hm
    |s now k l k' o o' Hg Ho Hc|s now k l k' o o' Hg Ho Hc|s now k l Hg|s now Hg].
  - by apply (inv_with_thread s i TIdle).
  - apply (inv_with_thread s i (TLoad k)); [done..|]. intros k0 l0 [= <- <-]. by apply H5.
  - by apply (inv_with_thread s i (TLoad k)).
  - by apply inv_store_new.
  - apply (inv_with_thread s i (TStore k)); [done..|]. intros k0 l0 [= <- <-]. by apply H5.
  - unfold tryPin in Hp. destruct (ls_markedForDeletion o) eqn:Hmk; [done|]. injection Hp as <-.
    apply (inv_pin s i (TTry k l n) _ l k' o); try done; simpl.
    + intros l' Hne. by rewrite bool_decide_eq_false_2.
    + rewrite bool_decide_eq_true_2 by done. lia.
    + congruence.
  - by apply (inv_with_thread s i (TTry k l n)).
  - apply (inv_with_thread s i (TCheck k l n)); [done..|]. intros k0 l0. exact (H6 i _ k0 l0 Ht).
  - apply (inv_with_thread s i (TCheck k l n)); [done..|]. intros k0 l0. exact (H6 i _ k0 l0 Ht).
  - assert (0 < ls_leaseCount o)%Z.
    { rewrite (H2 _ _ _ Ho). eapply holders_pos; [done|]. simpl. by rewrite bool_decide_eq_true_2. }
    apply (inv_pin s i (TRetry k l) _ l k' o); try done; simpl.
    + intros l' Hne. by rewrite bool_decide_eq_false_2.
    + rewrite bool_decide_eq_true_2 by done. lia.
    + intros Hmk. rewrite (H3 _ _ _ Ho Hmk) in *. lia.
  - assert (0 < ls_leaseCount o)%Z.
    { rewrite (H2 _ _ _ Ho). eapply holders_pos; [done|]. simpl. by rewrite bool_decide_eq_true_2. }
    apply (inv_pin s i (THold k l n) _ l k' o); try done; simpl.
    + intros l' Hne. by rewrite bool_decide_eq_false_2.
    + rewrite bool_decide_eq_true_2 by done. lia.
    + intros Hmk. rewrite (H3 _ _ _ Ho Hmk) in *. lia.
  - split; done.
  - split; done.
  - apply check_spec in Hc as (Hc1 & _ & Hc2). specialize (Hc2 eq_refl).
    apply (inv_check s l k' o); try done; rewrite Hc2; [|done]. by eapply H3.
  - apply check_spec in Hc as (Hc1 & Hc2 & _). destruct (Hc2 eq_refl) as [Hmk Hle].
    rewrite Hg in H7. destruct (H5 k l H7) as [o0 Ho0]. rewrite Ho in Ho0. injection Ho0 as -> ->.
    apply (inv_check s l k o0); try done.
    intros _. rewrite (H2 _ _ _ Ho) in *. pose proof (holders_nonneg l (sys_threads s)). lia.
  - by eapply inv_gc_delete.
  - split; done.
Qed.

Lemma inv_initial n : inv (initial n).
Proof using Type.
  split; simpl; try done; try (intros *; by rewrite lookup_empty).
  intros i t k l Hi Hr. by apply lookup_replicate in Hi as [-> _].
Qed.

Lemma inv_reachable n s : rtc step (initial n) s → inv s.
Proof using Type.
  intros Hr. assert (inv (initial n)) as Hi by apply inv_initial. revert Hi.
  induction Hr as [|s1 s2 s3 Hs _ IH]; [done|]. intros Hi. apply IH. by eapply inv_step.
Qed.
End protocol.

(** A lease protects its resource: in every interleaving of any number of
    goroutines that pin and release with the garbage collector, a goroutine that
    [pinLeasedResource] has returned to finds its resource in the map under its key,
    unmarked, until it releases the lease. *)
Theorem lease_protects {K : Type} `{!EqDecision K} `{!Countable K} (timeout : Z) (n : nat)
    (s : system (K := K)) (i : nat) (k : K) (l : positive) (isNew : bool)
    (Hreach : rtc (step timeout) (initial n) s)
    (Hheld : sys_threads s !! i = Some (THold k l isNew)) :
  sys_map s !! k = Some l ∧
  ∃ o, sys_objs s !! l = Some (k, o) ∧ ls_markedForDeletion o = false ∧ (0 < ls_leaseCount o)%Z.
Proof.
  pose proof (inv_reachable timeout n s Hreach) as [H1 H2 H3 H4 H5 H6 H7].
  destruct (H6 i _ k l Hheld eq_refl) as [o Ho].
  assert (0 < ls_leaseCount o)%Z as Hpos.
  { rewrite (H2 _ _ _ Ho). eapply holders_pos; [done|]. simpl. by rewrite bool_decide_eq_true_2. }
  assert (ls_markedForDeletion o = false) as Hm.
  { destruct (ls_markedForDeletion o) eqn:E; [|done]. rewrite (H3 _ _ _ Ho E) in Hpos. lia. }
  split; [by eapply H4|eauto].
Qed.

Lemma lease_protects_witness :
  ∃ s : system (K := nat), sys_map s !! 7 = Some 1%positive ∧
    sys_threads s !! 0 = Some (THold 7 1%positive true).
Proof.
  set (s1 := with_thread 0 (TLoad 7) (initial 1)).
  set (s2 := with_thread 0 (TStore 7) s1).
  set (s3 := with_thread 0 (TTry 7 1%positive true) (store_new 7 s2)).
  set (s4 := with_thread 0 (TCheck 7 1%positive true) (with_obj 1%positive (7, mkLeasedState 1 None false) s3)).
  set (s5 := with_thread 0 (THold 7 1%positive true) s4).
  exists s5. split; [|reflexivity].
  apply (lease_protects 60 1 s5 0 7 1%positive true); [|reflexivity].
  eapply rtc_l; [apply (st_start 60 (initial 1) 0 7); reflexivity|].
  eapply rtc_l; [apply (st_load_miss 60 s1 0 7); reflexivity|].
  eapply rtc_l; [apply (st_store_new 60 s2 0 7); reflexivity|].
  eapply rtc_l; [apply (st_try_ok 60 s3 0 7 1%positive true 7 newLeasedState (mkLeasedState 1 None false)); reflexivity|].
  eapply rtc_l; [apply (st_check_ok 60 s4 0 7 1%positive true); reflexivity|].
  apply rtc_refl.
Defined.

(** The lease count of a resource is the number of goroutines that have pinned it
    and not yet released it; it is never negative, and a resource that the collector
    has marked is held by no one. *)
Theorem lease_count_exact {K : Type} `{!EqDecision K} `{!Countable K} (timeout : Z) (n : nat)
    (s : system (K := K)) (k : K) (l : positive) (o : leasedState)
    (Hreach : rtc (step timeout) (initial n) s)
    (Hobj : sys_objs s !! l = Some (k, o)) :
  ls_leaseCount o = holders l (sys_threads s) ∧ (0 ≤ ls_leaseCount o)%Z ∧
  (ls_markedForDeletion o = true → holders l (sys_threads s) = 0%Z).
Proof.
  pose proof (inv_reachable timeout n s Hreach) as [H1 H2 H3 H4 H5 H6 H7].
  rewrite (H2 _ _ _ Hobj). split_and!; [done|apply holders_nonneg|].
  intros Hm. by rewrite <- (H2 _ _ _ Hobj), (H3 _ _ _ Hobj Hm).
Qed.

Lemma lease_count_exact_witness :
  ∃ (s : system (K := nat)) o, sys_objs s !! 1%positive = Some (7, o) ∧
    ls_leaseCount o = holders 1%positive (sys_threads s).
Proof.
  set (s1 := with_thread 0 (TLoad 7) (initial 1)).
  set (s2 := with_thread 0 (TStore 7) s1).
  set (s3 := with_thread 0 (TTry 7 1%positive true) (store_new 7 s2)).
  exists s3, newLeasedState. split; [reflexivity|].
  apply (lease_count_exact 60 1 s3 7); [|reflexivity].
  eapply rtc_l; [apply (st_start 60 (initial 1) 0 7); reflexivity|].
  eapply rtc_l; [apply (st_load_miss 60 s1 0 7); reflexivity|].
  eapply rtc_l; [apply (st_store_new 60 s2 0 7); reflexivity|].
  apply rtc_refl.
Defined.
