(* ===== verification/Shard.v ===== *)
(** * The registry shard: [registry/shard.go]

    A shard holds the priority bands; a band holds one managed queue per flow, the
    fairness policy with its state, and statistics. Statistics changes travel from a
    queue to its band and shard and on to the registry, whose callback and state are
    the parameters [R] and [onStatsDelta].

    Maps are [gmap]s; where the code ranges over a map the order is that of
    [map_to_list], and the theorems about the fairness policies hold for every
    order. The locks make each method atomic. *)

From stdpp Require Import prelude gmap strings list sorting.
From Stdlib Require Import Lia.
From S2P Require Import Prelude FlowTypes Ordering Fairness SafeQueue QueueFactory ManagedQueue.
From S2P Require Import RegistryConfig.

(** ** State *)

Abbreviation MQ := (managedQueue AnyQueue).

Record priorityBand := mkPriorityBand {
  pb_fairnessPolicy : FairnessPolicy;
  pb_policyState : PolicyState;
  pb_config : PriorityBandConfig;
  pb_queues : gmap string MQ;
  pb_byteSize : Z;             (* atomic.Int64 *)
  pb_len : Z                   (* atomic.Int64 *)
}.

Record registryShard := mkShard {
  sh_id : string;
  sh_config : ShardConfig;
  sh_orderedPriorityLevels : list Z;
  sh_priorityBands : gmap Z priorityBand;
  sh_isDraining : bool;
  sh_totalByteSize : Z;        (* atomic.Int64 *)
  sh_totalLen : Z              (* atomic.Int64 *)
}.

Definition with_pbands (bands : gmap Z priorityBand) (s : registryShard) : registryShard :=
  mkShard (sh_id s) (sh_config s) (sh_orderedPriorityLevels s) bands (sh_isDraining s)
    (sh_totalByteSize s) (sh_totalLen s).

Definition with_levels (levels : list Z) (s : registryShard) : registryShard :=
  mkShard (sh_id s) (sh_config s) levels (sh_priorityBands s) (sh_isDraining s)
    (sh_totalByteSize s) (sh_totalLen s).

Definition with_config (c : ShardConfig) (s : registryShard) : registryShard :=
  mkShard (sh_id s) c (sh_orderedPriorityLevels s) (sh_priorityBands s) (sh_isDraining s)
    (sh_totalByteSize s) (sh_totalLen s).

Definition with_queues (qs : gmap string MQ) (b : priorityBand) : priorityBand :=
  mkPriorityBand (pb_fairnessPolicy b) (pb_policyState b) (pb_config b) qs (pb_byteSize b) (pb_len b).

Definition with_bconfig (c : PriorityBandConfig) (b : priorityBand) : priorityBand :=
  mkPriorityBand (pb_fairnessPolicy b) (pb_policyState b) c (pb_queues b) (pb_byteSize b) (pb_len b).

Definition with_pstate (ps : PolicyState) (b : priorityBand) : priorityBand :=
  mkPriorityBand (pb_fairnessPolicy b) ps (pb_config b) (pb_queues b) (pb_byteSize b) (pb_len b).

(** ** Bands *)

(** [sort.Slice] with the comparison [>]. *)
Definition level_le (a b : Z) : Prop := (b ≤ a)%Z.

#[export] Instance level_le_dec a b : Decision (level_le a b).
Proof. unfold level_le. apply _. Defined.

Definition sort_levels (l : list Z) : list Z := merge_sort level_le l.

(** A nil [FairnessPolicy] is a panic. *)
Definition initPriorityBand (bandConfig : PriorityBandConfig) : GoM registryShard unit :=
  fairness ← getsome (λ _, pbc_FairnessPolicy bandConfig);
  let band := mkPriorityBand fairness (fp_NewState fairness) bandConfig ∅ 0 0 in
  modify (λ s,
    with_levels (sort_levels (sh_orderedPriorityLevels s ++ [pbc_Priority bandConfig]))
      (with_pbands (<[pbc_Priority bandConfig := band]> (sh_priorityBands s)) s)).

Definition newShard (id : string) (config : ShardConfig) : option registryShard :=
  match for_each (map_to_list (sc_PriorityBands config)).*2 initPriorityBand
          (mkShard id config [] ∅ false 0 0) with
  | Some (_, s) => Some s
  | None => None
  end.

Definition addPriorityBand (priority : Z) : GoM registryShard unit :=
  existing ← gets (λ s, sh_priorityBands s !! priority);
  match existing with
  | Some _ => mret tt
  | None =>
      bandConfig ← getsome (λ s, sc_PriorityBands (sh_config s) !! priority);
      initPriorityBand bandConfig
  end.

(** The loop that drops the first occurrence. *)
Fixpoint remove_level (priority : Z) (l : list Z) : list Z :=
  match l with
  | [] => []
  | p :: l' => if bool_decide (p = priority) then l' else p :: remove_level priority l'
  end.

Definition deletePriorityBand (priority : Z) (s : registryShard) : registryShard :=
  with_levels (remove_level priority (sh_orderedPriorityLevels s))
    (with_config
       (mkShardConfig (sc_MaxBytes (sh_config s)) (sc_MaxRequests (sh_config s))
          (delete priority (sc_PriorityBands (sh_config s))))
       (with_pbands (delete priority (sh_priorityBands s)) s)).

(** The loop of [updateConfig] over the bands; a band without a new configuration is
    a nil dereference. *)
Fixpoint update_bands (newBands : gmap Z PriorityBandConfig) (l : list (Z * priorityBand))
    (bands : gmap Z priorityBand) : option (gmap Z priorityBand) :=
  match l with
  | [] => Some bands
  | (priority, band) :: l' =>
      match newBands !! priority with
      | None => None
      | Some c => update_bands newBands l' (<[priority := with_bconfig c band]> bands)
      end
  end.

Definition updateConfig (newConfig : ShardConfig) : GoM registryShard unit :=
  λ s,
    match update_bands (sc_PriorityBands newConfig) (map_to_list (sh_priorityBands s))
            (sh_priorityBands s) with
    | None => None
    | Some bands => Some (tt, with_pbands bands (with_config newConfig s))
    end.

(** ** Lookups *)

Definition ID (s : registryShard) : string := sh_id s.
Definition IsActive (s : registryShard) : bool := negb (sh_isDraining s).

Definition ManagedQueue (key : FlowKey) (s : registryShard) : MQ + GoError :=
  match sh_priorityBands s !! fk_Priority key with
  | None => inr (EWrap [ESentinel ErrPriorityBandNotFound])
  | Some band =>
      match pb_queues band !! fk_ID key with
      | None => inr (EWrap [ESentinel ErrFlowInstanceNotFound])
      | Some mq => inl mq
      end
  end.

Definition FairnessPolicyOf (priority : Z) (s : registryShard) : FairnessPolicy + GoError :=
  match sh_priorityBands s !! priority with
  | None => inr (EWrap [ESentinel ErrPriorityBandNotFound])
  | Some band => inl (pb_fairnessPolicy band)
  end.

(** [priorityBandAccessor] and its methods. *)
Definition priorityBandAccessor (band : priorityBand) : PriorityBandAccessor := {|
  pba_Priority := pbc_Priority (pb_config band);
  pba_PolicyState := pb_policyState band;
  pba_FlowKeys := (λ kv : string * MQ, mkFlowKey kv.1 (pbc_Priority (pb_config band))) <$> map_to_list (pb_queues band);
  pba_Queue := λ id, flowQueueAccessor <$> pb_queues band !! id;
  pba_IterateQueues := (λ kv : string * MQ, flowQueueAccessor kv.2) <$> map_to_list (pb_queues band)
|}.

Definition PriorityBandAccessorOf (priority : Z) (s : registryShard)
    : PriorityBandAccessor + GoError :=
  match sh_priorityBands s !! priority with
  | None => inr (EWrap [ESentinel ErrPriorityBandNotFound])
  | Some band => inl (priorityBandAccessor band)
  end.

Definition AllOrderedPriorityLevels (s : registryShard) : list Z := sh_orderedPriorityLevels s.

(** ** Statistics: [contracts/registry.go] *)

Record PriorityBandStats := mkPriorityBandStats {
  pbs_Priority : Z;
  pbs_CapacityBytes : Z;
  pbs_CapacityRequests : Z;
  pbs_ByteSize : Z;
  pbs_Len : Z
}.

Record ShardStats := mkShardStats {
  ss_ID : string;
  ss_IsActive : bool;
  ss_TotalCapacityBytes : Z;
  ss_TotalCapacityRequests : Z;
  ss_TotalByteSize : Z;
  ss_TotalLen : Z;
  ss_PerPriorityBandStats : gmap Z PriorityBandStats
}.

Definition band_stats (priority : Z) (band : priorityBand) : PriorityBandStats :=
  mkPriorityBandStats priority (pbc_MaxBytes (pb_config band)) (pbc_MaxRequests (pb_config band))
    (Int.u64 (pb_byteSize band)) (Int.u64 (pb_len band)).

Definition Stats (s : registryShard) : ShardStats :=
  mkShardStats (sh_id s) (IsActive s) (sc_MaxBytes (sh_config s)) (sc_MaxRequests (sh_config s))
    (Int.u64 (sh_totalByteSize s)) (Int.u64 (sh_totalLen s))
    (map_imap (λ p b, Some (band_stats p b)) (sh_priorityBands s)).

(** ** Flows *)

(** A missing band is a failed type assertion. *)
Definition synchronizeFlow (key : FlowKey) (policy : OrderingPolicy) (q : AnyQueue)
    : GoM registryShard unit :=
  band ← getsome (λ s, sh_priorityBands s !! fk_Priority key);
  match pb_queues band !! fk_ID key with
  | Some _ => mret tt
  | None =>
      let mq := newManagedQueue q policy key in
      modify (λ s, with_pbands
        (<[fk_Priority key := with_queues (<[fk_ID key := mq]> (pb_queues band)) band]>
           (sh_priorityBands s)) s)
  end.

Definition deleteFlow (key : FlowKey) (s : registryShard) : registryShard :=
  match sh_priorityBands s !! fk_Priority key with
  | None => s
  | Some band =>
      with_pbands (<[fk_Priority key := with_queues (delete (fk_ID key) (pb_queues band)) band]>
                     (sh_priorityBands s)) s
  end.

Definition markAsDraining (s : registryShard) : registryShard :=
  mkShard (sh_id s) (sh_config s) (sh_orderedPriorityLevels s) (sh_priorityBands s) true
    (sh_totalByteSize s) (sh_totalLen s).

(** ** Statistics propagation and queue operations *)

Section propagation.
Context {R : Type} (onStatsDelta : Z → Z → Z → GoM R unit).

(** The counters of the band and the shard. *)
Definition add_stats (priority lenDelta byteSizeDelta : Z) (band : priorityBand) (s : registryShard)
    : registryShard :=
  mkShard (sh_id s) (sh_config s) (sh_orderedPriorityLevels s)
    (<[priority := mkPriorityBand (pb_fairnessPolicy band) (pb_policyState band) (pb_config band)
         (pb_queues band) (Int.i64 (pb_byteSize band + byteSizeDelta))
         (Int.i64 (pb_len band + lenDelta))]> (sh_priorityBands s))
    (sh_isDraining s) (Int.i64 (sh_totalByteSize s + byteSizeDelta))
    (Int.i64 (sh_totalLen s + lenDelta)).

(** A missing band is a failed type assertion. *)
Definition propagateStatsDelta (priority lenDelta byteSizeDelta : Z) : GoM (registryShard * R) unit :=
  λ '(s, r),
    match sh_priorityBands s !! priority with
    | None => None
    | Some band =>
        match onStatsDelta priority lenDelta byteSizeDelta r with
        | Some (_, r') => Some (tt, (add_stats priority lenDelta byteSizeDelta band s, r'))
        | None => None
        end
    end.

Abbreviation SM := (GoM (registryShard * store * R)).

Definition put_queue (key : FlowKey) (mq : MQ) (s : registryShard) : registryShard :=
  match sh_priorityBands s !! fk_Priority key with
  | None => s
  | Some band =>
      with_pbands (<[fk_Priority key := with_queues (<[fk_ID key := mq]> (pb_queues band)) band]>
                     (sh_priorityBands s)) s
  end.

(** An operation of the managed queue of [key]; the queue's callbacks act on the
    shard and the registry. *)
Definition on_managed {A} (key : FlowKey) (c : GoM (MQ * store * (registryShard * R)) A) : SM A :=
  λ '(s, st, r),
    match ManagedQueue key s with
    | inr _ => None
    | inl mq =>
        match c (mq, st, (s, r)) with
        | Some (a, (mq', st', (s', r'))) => Some (a, (put_queue key mq' s', st', r'))
        | None => None
        end
    end.

Definition draining (e : registryShard * R) : bool := sh_isDraining e.1.

Definition shard_Add (key : FlowKey) (item : QueueItem) : SM (option GoError) :=
  on_managed key (mq_Add propagateStatsDelta draining item).

Definition shard_Remove (key : FlowKey) (handle : option positive) : SM RemoveResult :=
  on_managed key (mq_Remove propagateStatsDelta handle).

Definition shard_Cleanup (key : FlowKey) (p : QueueItem → bool) : SM (list QueueItem) :=
  on_managed key (mq_Cleanup propagateStatsDelta p).

Definition shard_Drain (key : FlowKey) : SM (list QueueItem) :=
  on_managed key (mq_Drain propagateStatsDelta).
End propagation.

(** ** Invariant *)

Definition queue_len (mq : MQ) : Z := Z.of_nat (length (mq_contents mq)).
Definition queue_bytes (mq : MQ) : Z := total_bytes (mq_contents mq).
Definition band_len_sum (b : priorityBand) : Z := sum_map queue_len (pb_queues b).
Definition band_bytes_sum (b : priorityBand) : Z := sum_map queue_bytes (pb_queues b).

(** The managed queue of a flow. *)
Definition queue_at (s : registryShard) (key : FlowKey) (mq : MQ) : Prop :=
  ∃ b, sh_priorityBands s !! fk_Priority key = Some b ∧ pb_queues b !! fk_ID key = Some mq.

(** Every queue is well formed and belongs to its key; no two queues share an item;
    the statistics of band and shard are the sums over their queues; the list of
    levels is the strictly descending list of the bands. *)
Record shard_wf (s : registryShard) (st : store) : Prop := {
  sw_band : ∀ p b, sh_priorityBands s !! p = Some b → pbc_Priority (pb_config b) = p;
  sw_queue : ∀ key mq, queue_at s key mq → mq_wf mq st ∧ mq_key mq = key;
  sw_disjoint : ∀ key mq key' mq' it it', queue_at s key mq → queue_at s key' mq' →
    it ∈ mq_contents mq → it' ∈ mq_contents mq' → qi_ptr it = qi_ptr it' → key = key';
  sw_band_stats : ∀ p b, sh_priorityBands s !! p = Some b →
    pb_len b = Int.i64 (band_len_sum b) ∧ pb_byteSize b = Int.i64 (band_bytes_sum b);
  sw_total_len : sh_totalLen s = Int.i64 (sum_map band_len_sum (sh_priorityBands s));
  sw_total_bytes : sh_totalByteSize s = Int.i64 (sum_map band_bytes_sum (sh_priorityBands s));
  sw_sorted : StronglySorted (λ a b, b < a)%Z (sh_orderedPriorityLevels s);
  sw_levels : ∀ p, p ∈ sh_orderedPriorityLevels s ↔ is_Some (sh_priorityBands s !! p)
}.

Lemma ManagedQueue_inl key s mq : ManagedQueue key s = inl mq ↔ queue_at s key mq.
Proof.
  unfold ManagedQueue, queue_at. destruct (sh_priorityBands s !! fk_Priority key) as [b|]; [|naive_solver].
  destruct (pb_queues b !! fk_ID key) as [mq'|] eqn:E; naive_solver.
Qed.

Lemma queue_at_fun s key mq mq' : queue_at s key mq → queue_at s key mq' → mq = mq'.
Proof. rewrite <- !ManagedQueue_inl. congruence. Qed.

(** [p] is the identity of no item outside the queue of [key]. *)
Definition foreign_free (s : registryShard) (key : FlowKey) (p : positive) : Prop :=
  ∀ key' mq' it, queue_at s key' mq' → key' ≠ key → it ∈ mq_contents mq' → qi_ptr it ≠ p.

Lemma own_foreign_free s st key mq it :
  shard_wf s st → queue_at s key mq → it ∈ mq_contents mq → foreign_free s key (qi_ptr it).
Proof.
  intros Hwf Hq Hit key' mq' it' Hq' Hne Hit' E. apply Hne. by eapply (sw_disjoint _ _ Hwf key' mq' key mq).
Qed.

(** [s'] is [s] with the queue of [key] replaced by [mq'] and the statistics
    adjusted. *)
Record updated (s s' : registryShard) (key : FlowKey) (mq mq' : MQ) : Prop := {
  up_band : ∃ b b', sh_priorityBands s !! fk_Priority key = Some b ∧
    pb_queues b !! fk_ID key = Some mq ∧
    sh_priorityBands s' = <[fk_Priority key := b']> (sh_priorityBands s) ∧
    pb_queues b' = <[fk_ID key := mq']> (pb_queues b) ∧
    pb_config b' = pb_config b ∧ pb_fairnessPolicy b' = pb_fairnessPolicy b ∧
    pb_policyState b' = pb_policyState b ∧
    pb_len b' = Int.i64 (pb_len b + (queue_len mq' - queue_len mq)) ∧
    pb_byteSize b' = Int.i64 (pb_byteSize b + (queue_bytes mq' - queue_bytes mq));
  up_total_len : sh_totalLen s' = Int.i64 (sh_totalLen s + (queue_len mq' - queue_len mq));
  up_total_bytes : sh_totalByteSize s' = Int.i64 (sh_totalByteSize s + (queue_bytes mq' - queue_bytes mq));
  up_levels : sh_orderedPriorityLevels s' = sh_orderedPriorityLevels s;
  up_config : sh_config s' = sh_config s;
  up_draining : sh_isDraining s' = sh_isDraining s;
  up_id : sh_id s' = sh_id s
}.

Lemma updated_queue_at s s' key mq mq' key' mq0 :
  updated s s' key mq mq' →
  queue_at s' key' mq0 ↔ (key' = key ∧ mq0 = mq') ∨ (key' ≠ key ∧ queue_at s key' mq0).
Proof.
  intros [(b & b' & Hb & Hmq & Hbands & Hqs & _) _ _ _ _ _ _]. unfold queue_at. rewrite Hbands.
  destruct (decide (fk_Priority key' = fk_Priority key)) as [Ep|Ep].
  - rewrite Ep, lookup_insert_eq. destruct (decide (fk_ID key' = fk_ID key)) as [Ei|Ei].
    + assert (key' = key) as -> by (destruct key, key'; simpl in *; congruence).
      rewrite Hb. split.
      * intros (b0 & [= <-] & H). rewrite Hqs, lookup_insert_eq in H. naive_solver.
      * intros [[_ ->]|[? _]]; [|done]. exists b'. by rewrite Hqs, lookup_insert_eq.
    + assert (key' ≠ key) as Hne by congruence. rewrite Hb. split.
      * intros (b0 & [= <-] & H). rewrite Hqs, lookup_insert_ne in H by done. naive_solver.
      * intros [[? _]|(_ & b0 & [= <-] & H)]; [done|]. exists b'. by rewrite Hqs, lookup_insert_ne.
  - assert (key' ≠ key) as Hne by congruence. rewrite lookup_insert_ne by done. naive_solver.
Qed.

Lemma updated_sums s s' key mq mq' :
  updated s s' key mq mq' →
  ∃ b b', sh_priorityBands s !! fk_Priority key = Some b ∧
    sh_priorityBands s' = <[fk_Priority key := b']> (sh_priorityBands s) ∧
    band_len_sum b' = (band_len_sum b + (queue_len mq' - queue_len mq))%Z ∧
    band_bytes_sum b' = (band_bytes_sum b + (queue_bytes mq' - queue_bytes mq))%Z ∧
    sum_map band_len_sum (sh_priorityBands s') =
      (sum_map band_len_sum (sh_priorityBands s) + (queue_len mq' - queue_len mq))%Z ∧
    sum_map band_bytes_sum (sh_priorityBands s') =
      (sum_map band_bytes_sum (sh_priorityBands s) + (queue_bytes mq' - queue_bytes mq))%Z.
Proof.
  intros [(b & b' & Hb & Hmq & Hbands & Hqs & _) _ _ _ _ _ _]. exists b, b'. split_and!; [done|done| | |..].
  3,4: rewrite Hbands, (sum_map_update _ _ _ _ b) by done.
  all: unfold band_len_sum, band_bytes_sum; rewrite Hqs, (sum_map_update _ (pb_queues b) _ _ mq) by done; lia.
Qed.

(** Replacing one queue keeps the shard well formed. *)
Lemma updated_wf s s' st st' its key mq mq' :
  updated s s' key mq mq' → shard_wf s st → store_wf st →
  mq_wf mq' st' → mq_key mq' = mq_key mq →
  store_local its st st' →
  (∀ it, it ∈ its → foreign_free s key (qi_ptr it)) →
  (∀ it, it ∈ mq_contents mq' → foreign_free s key (qi_ptr it)) →
  shard_wf s' st'.
Proof.
  intros Hup Hwf Hst Hmq' Hkey Hloc Hits Hown.
  pose proof Hup as [(b & b' & Hb & Hmq & Hbands & Hqs & Hcfg & _ & _ & Hlen & Hbytes) Htl Htb Hlv _ _ _].
  pose proof (updated_sums _ _ _ _ _ Hup) as (b0 & b0' & Hb0 & Hbands0 & S1 & S2 & S3 & S4).
  assert (b0 = b) as -> by congruence.
  assert (b0' = b') as ->.
  { rewrite Hbands in Hbands0.
    assert (<[fk_Priority key:=b']> (sh_priorityBands s) !! fk_Priority key
      = <[fk_Priority key:=b0']> (sh_priorityBands s) !! fk_Priority key) as E by by rewrite Hbands0.
    rewrite !lookup_insert_eq in E. congruence. }
  destruct Hwf as [W1 W2 W3 W4 W5 W6 W7 W8]. destruct (W4 _ _ Hb) as [B1 B2].
  split.
  - intros p b1. rewrite Hbands, lookup_insert. case_decide as E; [|apply W1].
    intros [= <-]. rewrite Hcfg. subst p. by apply W1.
  - intros key' mq0. rewrite (updated_queue_at _ _ _ _ _ _ _ Hup). intros [[-> ->]|[Hne Hq]].
    + split; [done|]. rewrite Hkey. apply (W2 key). by exists b.
    + destruct (W2 key' mq0 Hq) as [Hw Hk]. split; [|done].
      eapply mq_wf_frame; [done|apply Hloc|]. eapply store_local_agree; [done..|].
      intros it Hit Hin. unfold ptrs in Hin. apply list_elem_of_fmap in Hin as (x & Hp & Hx).
      by apply (Hits x Hx key' mq0 it).
  - intros k1 q1 k2 q2 i1 i2. rewrite !(updated_queue_at _ _ _ _ _ _ _ Hup).
    intros [[-> ->]|[Hn1 Hq1]] [[-> ->]|[Hn2 Hq2]] H1 H2 E; [done|..].
    + exfalso. by apply (Hown i1 H1 k2 q2 i2).
    + exfalso. by apply (Hown i2 H2 k1 q1 i1).
    + by eapply (W3 k1 q1 k2 q2).
  - intros p b1. rewrite Hbands, lookup_insert. case_decide as E; [|apply W4].
    intros [= <-]. rewrite Hlen, Hbytes, S1, S2, B1, B2, !Int.i64_add_l. done.
  - by rewrite Htl, S3, W5, Int.i64_add_l.
  - by rewrite Htb, S4, W6, Int.i64_add_l.
  - by rewrite Hlv.
  - intros p. rewrite Hlv, W8, Hbands, lookup_insert. case_decide; [subst; rewrite Hb|]; naive_solver.
Qed.

(** ** Effect of the queue operations on the shard *)

Section operations.
Context {R : Type} (onStatsDelta : Z → Z → Z → GoM R unit).
Implicit Types (s : registryShard) (r : R).

Lemma propagate_ok s r r' p dl db b :
  sh_priorityBands s !! p = Some b → onStatsDelta p dl db r = Some (tt, r') →
  propagateStatsDelta onStatsDelta p dl db (s, r) = Some (tt, (add_stats p dl db b s, r')).
Proof using Type. intros Hb Hcb. unfold propagateStatsDelta. by rewrite Hb, Hcb. Qed.

Lemma put_updated s key b mq mq' dl db :
  sh_priorityBands s !! fk_Priority key = Some b → pb_queues b !! fk_ID key = Some mq →
  dl = (queue_len mq' - queue_len mq)%Z → db = Int.i64 (queue_bytes mq' - queue_bytes mq) →
  updated s (put_queue key mq' (add_stats (fk_Priority key) dl db b s)) key mq mq'.
Proof using Type.
  intros Hb Hmq -> ->. unfold put_queue, add_stats. simpl. rewrite lookup_insert_eq. simpl.
  split; simpl; rewrite ?Int.i64_add_r; try done.
  eexists b, _. split_and!; [done|done|by rewrite insert_insert_eq|..]; simpl; try done.
Qed.

(** A queue operation that changed neither the number of items nor their sizes. *)
Lemma put_unchanged s st key b mq mq' :
  shard_wf s st →
  sh_priorityBands s !! fk_Priority key = Some b → pb_queues b !! fk_ID key = Some mq →
  queue_len mq' = queue_len mq → queue_bytes mq' = queue_bytes mq →
  updated s (put_queue key mq' s) key mq mq'.
Proof using Type.
  intros Hwf Hb Hmq Hl Hbt. unfold put_queue. rewrite Hb.
  assert (∀ z, Int.i64 (Int.i64 z + 0) = Int.i64 z) as Hid by (intros; by rewrite Int.i64_add_l, Z.add_0_r).
  destruct (sw_band_stats _ _ Hwf _ _ Hb) as [E1 E2].
  split; simpl; rewrite ?Hl, ?Hbt, ?Z.sub_diag; try done.
  - eexists b, _. split_and!; [done|done|done|..]; simpl; rewrite ?Hl, ?Hbt, ?Z.sub_diag; try done.
    + by rewrite E1, Hid.
    + by rewrite E2, Hid.
  - by rewrite (sw_total_len _ _ Hwf), Hid.
  - by rewrite (sw_total_bytes _ _ Hwf), Hid.
Qed.

Lemma wp_on_managed {A} key (c : GoM (MQ * store * (registryShard * R)) A) P s st r mq :
  queue_at s key mq →
  wp c (λ a '(mq', st', (s', r')), P a (put_queue key mq' s', st', r')) (mq, st, (s, r)) →
  wp (on_managed key c) P (s, st, r).
Proof using Type.
  intros Hq%ManagedQueue_inl Hwp. unfold wp, on_managed in *. rewrite Hq.
  by destruct (c (mq, st, (s, r))) as [[a [[mq' st'] [s' r']]]|].
Qed.

(** The identity of no queued item. *)
Definition fresh_item s (it : QueueItem) : Prop :=
  ∀ key mq it', queue_at s key mq → it' ∈ mq_contents mq → qi_ptr it' ≠ qi_ptr it.

Lemma fresh_not_in s it key mq : fresh_item s it → queue_at s key mq → qi_ptr it ∉ ptrs (mq_contents mq).
Proof using Type.
  intros Hf Hq Hin. unfold ptrs in Hin. apply list_elem_of_fmap in Hin as (x & Hp & Hx).
  by apply (Hf key mq x).
Qed.

Lemma shard_add_draining s st r key mq it :
  queue_at s key mq → sh_isDraining s = true → 
  wp (shard_Add onStatsDelta key it) (λ err '(s', st', r1),
    err = Some (ESentinel ErrShardDraining) ∧ st' = st ∧ r1 = r ∧ s' = put_queue key mq s) (s, st, r).
Proof using Type.
  intros Hq Hd. eapply wp_on_managed; [done|]. unfold wp. rewrite mq_add_draining; [done|done].
Qed.

Lemma shard_add_spec s st r r' key mq it :
  shard_wf s st → store_wf st → queue_at s key mq → sh_isDraining s = false →
  item_ok it → fresh_item s it → (queue_len mq + 1 < Int.two63)%Z →
  onStatsDelta (fk_Priority key) 1 (Int.i64 (qi_ByteSize it)) r = Some (tt, r') →
  wp (shard_Add onStatsDelta key it) (λ err '(s', st', r1),
    err = None ∧ r1 = r' ∧ shard_wf s' st' ∧ store_wf st' ∧
    ∃ mq', updated s s' key mq mq' ∧ mq_contents mq' ≡ₚ it :: mq_contents mq ∧
      store_local (it :: mq_contents mq) st st') (s, st, r).
Proof using Type.
  intros Hwf Hst Hq Hd Hit Hfr Hroom Hcb. pose proof Hq as (b & Hb & Hmq).
  destruct (sw_queue _ _ Hwf key mq Hq) as [Hmqw Hkey].
  eapply wp_on_managed; [done|]. eapply wp_mono.
  { eapply (mq_add_spec _ _ it mq st (s, r)); try done.
    - by eapply fresh_not_in.
    - rewrite Hkey. by apply propagate_ok. }
  intros err [[mq' st'] [s' r1]] (-> & [= -> ->] & Hw' & Hst' & [Hk' _] & HP & Hloc).
  assert (updated s (put_queue key mq' (add_stats (fk_Priority key) 1 (Int.i64 (qi_ByteSize it)) b s))
    key mq mq') as Hup.
  { apply put_updated; try done.
    - unfold queue_len. rewrite HP. simpl. lia.
    - unfold queue_bytes. rewrite HP. simpl. f_equal. lia. }
  assert (∀ x, x ∈ it :: mq_contents mq → foreign_free s key (qi_ptr x)) as Hff.
  { intros x [->|Hx]%elem_of_cons; [|by eapply own_foreign_free].
    intros key' q' y Hq' _ Hy. by apply (Hfr key' q'). }
  split_and!; try done; [|eauto].
  eapply (updated_wf s _ st st' (it :: mq_contents mq)); try done. intros x. rewrite HP. apply Hff.
Qed.

(** The items that left the queue are those of [its]. *)
Lemma removed_updated s key b mq mq' its :
  sh_priorityBands s !! fk_Priority key = Some b → pb_queues b !! fk_ID key = Some mq →
  mq_contents mq ≡ₚ its ++ mq_contents mq' →
  updated s (put_queue key mq' (add_stats (fk_Priority key) (- Z.of_nat (length its))
    (Int.i64 (- total_bytes its)) b s)) key mq mq'.
Proof using Type.
  intros Hb Hmq HP. apply put_updated; try done.
  - unfold queue_len. rewrite HP, length_app. lia.
  - unfold queue_bytes. rewrite HP, total_bytes_app. f_equal. lia.
Qed.

Lemma shard_remove_spec s st r r' key mq it h :
  shard_wf s st → store_wf st → queue_at s key mq → it ∈ mq_contents mq → Handle st it = Some h →
  onStatsDelta (fk_Priority key) (-1) (Int.i64 (- qi_ByteSize it)) r = Some (tt, r') →
  wp (shard_Remove onStatsDelta key (Some h)) (λ res '(s', st', r1),
    res = inl it ∧ r1 = r' ∧ shard_wf s' st' ∧ store_wf st' ∧ dead_handle st' it ∧
    ∃ mq', updated s s' key mq mq' ∧ mq_contents mq ≡ₚ it :: mq_contents mq' ∧
      store_local (mq_contents mq) st st') (s, st, r).
Proof using Type.
  intros Hwf Hst Hq Hit Hh Hcb. pose proof Hq as (b & Hb & Hmq).
  destruct (sw_queue _ _ Hwf key mq Hq) as [Hmqw Hkey].
  eapply wp_on_managed; [done|]. eapply wp_mono.
  { eapply (mq_remove_spec _ it h mq st (s, r)); try done. rewrite Hkey. by apply propagate_ok. }
  intros res [[mq' st'] [s' r1]] (-> & [= -> ->] & Hw' & Hst' & [Hk' _] & HP & Hdead & Hloc).
  assert (updated s (put_queue key mq' (add_stats (fk_Priority key) (-1) (Int.i64 (- qi_ByteSize it)) b s))
    key mq mq') as Hup.
  { pose proof (removed_updated s key b mq mq' [it] Hb Hmq HP) as Hup.
    cbn [length total_bytes] in Hup. by rewrite Z.add_0_r in Hup. }
  split_and!; try done; [|eauto].
  eapply (updated_wf s _ st st' (mq_contents mq)); try done.
  - intros x Hx. by eapply own_foreign_free.
  - intros x Hx. eapply own_foreign_free; [done..|]. rewrite HP. by right.
Qed.

(** The common part of [Cleanup] and [Drain]. *)
Lemma removed_all_spec s st st' r r' key b mq mq' its s1 r1 :
  shard_wf s st → store_wf st → queue_at s key mq → sh_priorityBands s !! fk_Priority key = Some b →
  mq_contents mq ≡ₚ its ++ mq_contents mq' → mq_wf mq' st' → mq_key mq' = mq_key mq →
  store_local (mq_contents mq) st st' →
  (its ≠ [] → (s1, r1) = (add_stats (fk_Priority key) (- Z.of_nat (length its))
    (Int.i64 (- total_bytes its)) b s, r')) →
  (its = [] → (s1, r1) = (s, r)) →
  updated s (put_queue key mq' s1) key mq mq' ∧ shard_wf (put_queue key mq' s1) st'.
Proof using Type.
  intros Hwf Hst Hq Hb HP Hw' Hk' Hloc Hcb Hnil.
  assert (pb_queues b !! fk_ID key = Some mq) as Hmq.
  { destruct Hq as (b0 & Hb0 & Hmq). congruence. }
  assert (updated s (put_queue key mq' s1) key mq mq') as Hup.
  { destruct (decide (its = [])) as [->|Hne].
    - specialize (Hnil eq_refl). simplify_eq. simpl in HP.
      eapply put_unchanged; [done..| |]; unfold queue_len, queue_bytes; by rewrite HP.
    - specialize (Hcb Hne). simplify_eq. by apply removed_updated. }
  split; [done|]. eapply (updated_wf s _ st st' (mq_contents mq)); try done.
  - intros x Hx. by eapply own_foreign_free.
  - intros x Hx. eapply own_foreign_free; [done..|]. rewrite HP. set_solver.
Qed.

Lemma shard_cleanup_spec s st r r' key mq p (its := List.filter p (mq_contents mq)) :
  shard_wf s st → store_wf st → queue_at s key mq →
  (its ≠ [] → onStatsDelta (fk_Priority key) (- Z.of_nat (length its))%Z
    (Int.i64 (- total_bytes its)) r = Some (tt, r')) →
  (its = [] → r' = r) →
  wp (shard_Cleanup onStatsDelta key p) (λ res '(s', st', r1),
    res = its ∧ r1 = r' ∧ shard_wf s' st' ∧ store_wf st' ∧ Forall (dead_handle st') res ∧
    ∃ mq', updated s s' key mq mq' ∧
      mq_contents mq' ≡ₚ List.filter (λ x, negb (p x)) (mq_contents mq) ∧
      store_local (mq_contents mq) st st') (s, st, r).
Proof using Type.
  intros Hwf Hst Hq Hcb Hnil. pose proof Hq as (b & Hb & Hmq).
  destruct (sw_queue _ _ Hwf key mq Hq) as [Hmqw Hkey].
  set (s1 := if decide (its = []) then s else add_stats (fk_Priority key) (- Z.of_nat (length its))
    (Int.i64 (- total_bytes its)) b s).
  eapply wp_on_managed; [done|]. eapply wp_mono.
  { eapply (mq_cleanup_spec _ p mq st (s, r) (s1, r')); try done; fold its; subst s1.
    - intros Hne. rewrite decide_False by done. rewrite Hkey. apply propagate_ok; auto.
    - intros E. rewrite decide_True by done. by rewrite Hnil. }
  intros res [[mq' st'] e] (-> & -> & Hw' & Hst' & [Hk' _] & HP & Hdead & Hloc). fold its.
  destruct (removed_all_spec s st st' r r' key b mq mq' its s1 r') as [Hup Hwf'];
    [done..| |done|done|done| | |].
  - rewrite HP. apply filter_split_Permutation.
  - intros Hne. subst s1. by rewrite decide_False.
  - intros E. subst s1. rewrite decide_True by done. by rewrite Hnil.
  - split_and!; try done. eauto.
Qed.

Lemma shard_drain_spec s st r r' key mq (its := mq_contents mq) :
  shard_wf s st → store_wf st → queue_at s key mq →
  (its ≠ [] → onStatsDelta (fk_Priority key) (- Z.of_nat (length its))%Z
    (Int.i64 (- total_bytes its)) r = Some (tt, r')) →
  (its = [] → r' = r) →
  wp (shard_Drain onStatsDelta key) (λ res '(s', st', r1),
    res = its ∧ r1 = r' ∧ shard_wf s' st' ∧ store_wf st' ∧ Forall (dead_handle st') res ∧
    ∃ mq', updated s s' key mq mq' ∧ mq_contents mq' = [] ∧
      store_local (mq_contents mq) st st') (s, st, r).
Proof using Type.
  intros Hwf Hst Hq Hcb Hnil. pose proof Hq as (b & Hb & Hmq).
  destruct (sw_queue _ _ Hwf key mq Hq) as [Hmqw Hkey].
  set (s1 := if decide (its = []) then s else add_stats (fk_Priority key) (- Z.of_nat (length its))
    (Int.i64 (- total_bytes its)) b s).
  eapply wp_on_managed; [done|]. eapply wp_mono.
  { eapply (mq_drain_spec _ mq st (s, r) (s1, r')); try done; fold its; subst s1.
    - intros Hne. rewrite decide_False by done. rewrite Hkey. apply propagate_ok; auto.
    - intros E. rewrite decide_True by done. by rewrite Hnil. }
  intros res [[mq' st'] e] (-> & -> & Hw' & Hst' & [Hk' _] & HP & Hdead & Hloc). fold its.
  destruct (removed_all_spec s st st' r r' key b mq mq' its s1 r') as [Hup Hwf'];
    [done..| |done|done|done| | |].
  - by rewrite HP, app_nil_r.
  - intros Hne. subst s1. by rewrite decide_False.
  - intros E. subst s1. rewrite decide_True by done. by rewrite Hnil.
  - split_and!; try done. eauto.
Qed.
End operations.

(** ** Administrative operations *)

#[export] Instance level_le_trans : Transitive level_le.
Proof. intros a b c. unfold level_le. lia. Qed.

#[export] Instance level_le_total : Total level_le.
Proof. intros a b. unfold level_le. lia. Qed.

Lemma sort_levels_Permutation l : sort_levels l ≡ₚ l.
Proof. apply merge_sort_Permutation. Qed.

Lemma StronglySorted_strict l :
  NoDup l → StronglySorted level_le l → StronglySorted (λ a b, b < a)%Z l.
Proof.
  induction l as [|x l IH]; intros Hnd Hs; [constructor|].
  apply NoDup_cons in Hnd as [Hx Hnd]. inversion Hs as [|? ? Hs' Hf]; subst. constructor; [auto|].
  rewrite Forall_forall in Hf |- *. intros y Hy. specialize (Hf y Hy). unfold level_le in Hf.
  assert (x ≠ y) by (intros ->; done). lia.
Qed.

Lemma strict_NoDup l : StronglySorted (λ a b, b < a)%Z l → NoDup l.
Proof.
  induction 1 as [|x l _ IH Hf]; [apply NoDup_nil_2|]. constructor; [|done].
  intros Hx. rewrite Forall_forall in Hf. specialize (Hf x Hx). lia.
Qed.

Lemma sort_levels_strict l p :
  StronglySorted (λ a b, b < a)%Z l → p ∉ l →
  StronglySorted (λ a b, b < a)%Z (sort_levels (l ++ [p])).
Proof.
  intros Hs Hp. apply StronglySorted_strict.
  - rewrite sort_levels_Permutation. apply NoDup_app. split_and!; [by apply strict_NoDup| |apply NoDup_singleton].
    intros x Hx ->%list_elem_of_singleton. done.
  - apply StronglySorted_merge_sort; apply _.
Qed.

Lemma initPriorityBand_spec s st c f :
  shard_wf s st → pbc_FairnessPolicy c = Some f → sh_priorityBands s !! pbc_Priority c = None →
  wp (initPriorityBand c) (λ _ s',
    s' = with_levels (sort_levels (sh_orderedPriorityLevels s ++ [pbc_Priority c]))
           (with_pbands (<[pbc_Priority c := mkPriorityBand f (fp_NewState f) c ∅ 0 0]>
              (sh_priorityBands s)) s) ∧
    shard_wf s' st) s.
Proof.
  intros [W1 W2 W3 W4 W5 W6 W7 W8] Hf Hp. apply wp_bind, (wp_getsome _ _ _ f); [done|]. apply wp_modify.
  split; [done|]. set (b0 := mkPriorityBand _ _ _ _ _ _).
  assert (∀ key mq, queue_at (with_levels (sort_levels (sh_orderedPriorityLevels s ++ [pbc_Priority c]))
    (with_pbands (<[pbc_Priority c := b0]> (sh_priorityBands s)) s)) key mq → queue_at s key mq) as Hq.
  { intros key mq (b & Hb & Hmq). simpl in Hb. rewrite lookup_insert in Hb. case_decide; [|by exists b].
    injection Hb as <-. simpl in Hmq. by rewrite lookup_empty in Hmq. }
  assert (pbc_Priority c ∉ sh_orderedPriorityLevels s) as Hnew.
  { rewrite W8, Hp. by intros [? ?]. }
  split; simpl.
  - intros p b. rewrite lookup_insert. case_decide; [by intros [= <-]|apply W1].
  - intros key mq Hk. apply W2. by apply Hq.
  - intros k1 q1 k2 q2 i1 i2 H1%Hq H2%Hq. by eapply W3.
  - intros p b. rewrite lookup_insert. case_decide; [by intros [= <-]|apply W4].
  - rewrite sum_map_insert by done. unfold band_len_sum at 1. simpl. rewrite sum_map_empty. by rewrite W5.
  - rewrite sum_map_insert by done. unfold band_bytes_sum at 1. simpl. rewrite sum_map_empty. by rewrite W6.
  - by apply sort_levels_strict.
  - intros p. rewrite sort_levels_Permutation, elem_of_app, list_elem_of_singleton, W8, lookup_insert.
    case_decide; naive_solver.
Qed.

Lemma shard_empty_wf id config st : shard_wf (mkShard id config [] ∅ false 0 0) st.
Proof.
  split; simpl; try (intros *; rewrite lookup_empty; done).
  - by intros key mq (b & Hb & _).
  - by intros key mq ? ? ? ? (b & Hb & _).
  - by rewrite sum_map_empty.
  - by rewrite sum_map_empty.
  - constructor.
  - intros p. rewrite lookup_empty, elem_of_nil. naive_solver.
Qed.

(** Every band of the configuration is keyed by its priority and has its fairness
    policy. *)
Definition shard_config_ok (c : ShardConfig) : Prop :=
  ∀ p b, sc_PriorityBands c !! p = Some b →
    pbc_Priority b = p ∧ is_Some (pbc_FairnessPolicy b).

Lemma band_configs_elem config c :
  shard_config_ok config →
  c ∈ (map_to_list (sc_PriorityBands config)).*2 ↔ sc_PriorityBands config !! pbc_Priority c = Some c.
Proof.
  intros Hok. rewrite list_elem_of_fmap. split.
  - intros ([p c'] & -> & Hin%elem_of_map_to_list). simpl. by destruct (Hok p c' Hin) as [-> _].
  - intros Hc. exists (pbc_Priority c, c). split; [done|]. by apply elem_of_map_to_list.
Qed.

Lemma band_configs_NoDup config :
  shard_config_ok config → NoDup (pbc_Priority <$> (map_to_list (sc_PriorityBands config)).*2).
Proof.
  intros Hok.
  assert (pbc_Priority <$> (map_to_list (sc_PriorityBands config)).*2
    = (map_to_list (sc_PriorityBands config)).*1) as ->; [|apply NoDup_fst_map_to_list].
  rewrite <- list_fmap_compose. apply list_fmap_ext. intros i [p c] Hi. simpl.
  destruct (Hok p c) as [-> _]; [|done]. by apply elem_of_map_to_list, (list_elem_of_lookup_2 _ i).
Qed.

(** The state of [newShard] after the band configurations [processed]. *)
Record building (config : ShardConfig) (st : store) (processed : list PriorityBandConfig)
    (s : registryShard) : Prop := {
  bl_wf : shard_wf s st;
  bl_config : sh_config s = config;
  bl_active : sh_isDraining s = false;
  bl_len : sh_totalLen s = 0%Z;
  bl_bytes : sh_totalByteSize s = 0%Z;
  bl_dom : ∀ p, is_Some (sh_priorityBands s !! p) ↔ p ∈ pbc_Priority <$> processed;
  bl_bands : ∀ p b, sh_priorityBands s !! p = Some b →
    pb_queues b = ∅ ∧ pb_len b = 0%Z ∧ pb_byteSize b = 0%Z ∧ pb_config b ∈ processed
}.

Lemma building_step config st pre c s f :
  building config st pre s → pbc_Priority c ∉ pbc_Priority <$> pre → pbc_FairnessPolicy c = Some f →
  wp (initPriorityBand c) (λ _ s', building config st (pre ++ [c]) s') s.
Proof.
  intros [Hwf Hcfg Hdr Htl Htb Hdom Hbs] Hnew Hf.
  assert (sh_priorityBands s !! pbc_Priority c = None) as Hnone.
  { apply eq_None_not_Some. by rewrite Hdom. }
  eapply wp_mono; [by apply (initPriorityBand_spec s st c f)|]. intros [] s' [-> Hwf'].
  split; try done; simpl.
  - intros p. rewrite fmap_app, elem_of_app, <- Hdom, lookup_insert. simpl.
    rewrite list_elem_of_singleton. case_decide; naive_solver.
  - intros p b. rewrite lookup_insert. case_decide.
    + intros [= <-]. simpl. split_and!; [done..|set_solver].
    + intros Hb. destruct (Hbs p b Hb) as (? & ? & ? & ?). split_and!; [done..|set_solver].
Qed.

Lemma newShard_spec id config st :
  shard_config_ok config →
  ∃ s, newShard id config = Some s ∧ shard_wf s st ∧ sh_config s = config ∧ sh_isDraining s = false ∧
    sh_totalLen s = 0%Z ∧ sh_totalByteSize s = 0%Z ∧
    (∀ p, sh_priorityBands s !! p = None ↔ sc_PriorityBands config !! p = None) ∧
    (∀ p b, sh_priorityBands s !! p = Some b → pb_queues b = ∅ ∧ pb_len b = 0%Z ∧ pb_byteSize b = 0%Z ∧
       sc_PriorityBands config !! p = Some (pb_config b)).
Proof.
  intros Hok. set (l := (map_to_list (sc_PriorityBands config)).*2).
  pose proof (band_configs_NoDup config Hok) as Hnd. fold l in Hnd.
  assert (wp (for_each l initPriorityBand) (λ _ s, building config st l s)
    (mkShard id config [] ∅ false 0 0)) as Hwp.
  { eapply wp_for_each with (I := building config st).
    - split; try done; [apply shard_empty_wf|..]; simpl; intros p; rewrite lookup_empty.
      rewrite elem_of_nil. by split; [intros []|].
    - intros pre c post s Heq Hb. assert (c ∈ l) as Hc by (rewrite Heq; set_solver).
      apply band_configs_elem in Hc; [|done]. destruct (Hok _ _ Hc) as [_ [f Hf]].
      apply (building_step _ _ _ _ _ f); [done| |done].
      rewrite Heq, fmap_app, fmap_cons, NoDup_app in Hnd. destruct Hnd as (_ & Hd & _).
      intros Hin. apply (Hd _ Hin). set_solver.
    - done. }
  unfold newShard. fold l. unfold wp in Hwp.
  destruct (for_each l initPriorityBand _) as [[[] s]|]; [|done].
  destruct Hwp as [Hwf Hcfg Hdr Htl Htb Hdom Hbs]. exists s. split_and!; try done.
  - intros p. rewrite !eq_None_not_Some, Hdom. f_equiv. rewrite list_elem_of_fmap. split.
    + intros (c & -> & Hc%band_configs_elem); [|done]. eauto.
    + intros [c Hc]. destruct (Hok _ _ Hc) as [<- _]. exists c. split; [done|].
      by apply band_configs_elem.
  - intros p b Hb. destruct (Hbs p b Hb) as (Hq & Hl & Hby & Hin%band_configs_elem); [|done].
    split_and!; try done. by rewrite (sw_band _ _ Hwf p b Hb) in Hin.
Qed.

Lemma remove_level_spec p l :
  StronglySorted (λ a b, b < a)%Z l →
  StronglySorted (λ a b, b < a)%Z (remove_level p l) ∧ ∀ q, q ∈ remove_level p l ↔ q ∈ l ∧ q ≠ p.
Proof.
  induction 1 as [|x l Hs [IH1 IH2] Hf]; simpl; [split; [constructor|set_solver]|].
  rewrite Forall_forall in Hf. case_bool_decide as E.
  - subst x. split; [done|]. intros q. rewrite elem_of_cons. split; [|naive_solver].
    intros Hq. split; [by right|]. intros ->. specialize (Hf p Hq). lia.
  - split.
    + constructor; [done|]. apply Forall_forall. intros y [Hy _]%IH2. by apply Hf.
    + intros q. rewrite !elem_of_cons, IH2. naive_solver.
Qed.

(** A band without queued items can be deleted. *)
Definition band_empty (b : priorityBand) : Prop :=
  ∀ id mq, pb_queues b !! id = Some mq → mq_contents mq = [].

Lemma band_empty_sums b : band_empty b → band_len_sum b = 0%Z ∧ band_bytes_sum b = 0%Z.
Proof.
  intros He. split; apply sum_map_zero; intros id mq Hq;
    unfold queue_len, queue_bytes; by rewrite (He id mq Hq).
Qed.

Lemma deletePriorityBand_wf s st p :
  shard_wf s st → (∀ b, sh_priorityBands s !! p = Some b → band_empty b) →
  shard_wf (deletePriorityBand p s) st.
Proof.
  intros [W1 W2 W3 W4 W5 W6 W7 W8] He.
  assert (∀ key mq, queue_at (deletePriorityBand p s) key mq → queue_at s key mq) as Hq.
  { intros key mq (b & Hb & Hmq). simpl in Hb. apply lookup_delete_Some in Hb as [_ Hb]. by exists b. }
  destruct (remove_level_spec p _ W7) as [Hs Hin].
  split; simpl.
  - intros q b [_ Hb]%lookup_delete_Some. by apply W1.
  - intros key mq Hk. by apply W2, Hq.
  - intros k1 q1 k2 q2 i1 i2 H1%Hq H2%Hq. by eapply W3.
  - intros q b [_ Hb]%lookup_delete_Some. by eapply W4.
  - rewrite W5. destruct (sh_priorityBands s !! p) as [b|] eqn:Hb; [|by rewrite delete_id].
    rewrite (sum_map_delete _ _ p b Hb). by rewrite (proj1 (band_empty_sums b (He b eq_refl))).
  - rewrite W6. destruct (sh_priorityBands s !! p) as [b|] eqn:Hb; [|by rewrite delete_id].
    rewrite (sum_map_delete _ _ p b Hb). by rewrite (proj2 (band_empty_sums b (He b eq_refl))).
  - done.
  - intros q. rewrite Hin, W8. destruct (decide (q = p)) as [->|Hne].
    + rewrite lookup_delete_eq. by split; [intros []|intros []].
    + rewrite lookup_delete_ne by done. naive_solver.
Qed.

(** Changing one band's queues, without touching its statistics. *)
Lemma band_queues_wf s st p b qs :
  shard_wf s st → sh_priorityBands s !! p = Some b →
  (∀ id mq, qs !! id = Some mq → pb_queues b !! id = Some mq ∨
     (mq_wf mq st ∧ mq_key mq = mkFlowKey id p ∧ mq_contents mq = [])) →
  sum_map queue_len qs = band_len_sum b → sum_map queue_bytes qs = band_bytes_sum b →
  shard_wf (with_pbands (<[p := with_queues qs b]> (sh_priorityBands s)) s) st.
Proof.
  intros [W1 W2 W3 W4 W5 W6 W7 W8] Hb Hqs Hl Hby.
  assert (∀ key mq, queue_at (with_pbands (<[p := with_queues qs b]> (sh_priorityBands s)) s) key mq →
    queue_at s key mq ∨ (mq_wf mq st ∧ mq_key mq = key ∧ mq_contents mq = [])) as Hq.
  { intros key mq (b' & Hb' & Hmq). simpl in Hb'. rewrite lookup_insert in Hb'.
    case_decide as E; [|left; by exists b']. injection Hb' as <-. simpl in Hmq.
    destruct (Hqs _ _ Hmq) as [Hold|(H1 & H2 & H3)].
    - left. exists b. by rewrite <- E.
    - right. rewrite H2, E. by destruct key. }
  split; cbn [sh_priorityBands with_pbands sh_totalLen sh_totalByteSize sh_orderedPriorityLevels].
  - intros q b'. rewrite lookup_insert. case_decide; [subst q; intros [= <-]; exact (W1 p b Hb)|apply W1].
  - intros key mq [Hk|(? & ? & _)]%Hq; [by apply W2|done].
  - intros k1 q1 k2 q2 i1 i2 [H1|(_ & _ & E1)]%Hq [H2|(_ & _ & E2)]%Hq Hi1 Hi2.
    + by eapply W3.
    + rewrite E2 in Hi2. by apply elem_of_nil in Hi2.
    + rewrite E1 in Hi1. by apply elem_of_nil in Hi1.
    + rewrite E1 in Hi1. by apply elem_of_nil in Hi1.
  - intros q b'. rewrite lookup_insert. case_decide; [|apply W4]. intros [= <-].
    unfold band_len_sum, band_bytes_sum in *. simpl. rewrite Hl, Hby. by apply (W4 p).
  - rewrite W5, (sum_map_update _ _ _ _ b) by done. unfold band_len_sum at 3 4. simpl.
    fold (band_len_sum b). rewrite Hl. f_equal. lia.
  - rewrite W6, (sum_map_update _ _ _ _ b) by done. unfold band_bytes_sum at 3 4. simpl.
    fold (band_bytes_sum b). rewrite Hby. f_equal. lia.
  - done.
  - intros q. rewrite W8, lookup_insert. case_decide; [subst; rewrite Hb|]; naive_solver.
Qed.

Lemma synchronizeFlow_spec s st key policy q :
  shard_wf s st → is_Some (sh_priorityBands s !! fk_Priority key) →
  sq_wf q st → sq_contents q = [] →
  wp (synchronizeFlow key policy q) (λ _ s',
    shard_wf s' st ∧ is_Some (sh_priorityBands s' !! fk_Priority key) ∧
    (∃ mq, queue_at s' key mq ∧
       (queue_at s key mq ∨ mq = newManagedQueue q policy key)) ∧
    sh_orderedPriorityLevels s' = sh_orderedPriorityLevels s) s.
Proof.
  intros Hwf [b Hb] Hq Hc. apply wp_bind, (wp_getsome _ _ _ b); [done|].
  destruct (pb_queues b !! fk_ID key) as [mq|] eqn:Hmq.
  - apply wp_ret. split_and!; [done|by rewrite Hb|..|done]. exists mq. split; [|left]; by exists b.
  - apply wp_modify. set (mq := newManagedQueue q policy key).
    assert (mq_contents mq = []) as Hmc by done.
    split_and!.
    + apply band_queues_wf; [done|done| |..].
      * intros id mq'. rewrite lookup_insert. case_decide; [|auto]. intros [= <-]. right.
        split_and!; [by apply mq_new_wf|subst id; by destruct key|done].
      * rewrite sum_map_insert by done. unfold queue_len at 1. by rewrite Hmc.
      * rewrite sum_map_insert by done. unfold queue_bytes at 1. by rewrite Hmc.
    + simpl. rewrite lookup_insert_eq. eauto.
    + exists mq. split; [|by right]. eexists. simpl. rewrite lookup_insert_eq. split; [done|].
      simpl. by rewrite lookup_insert_eq.
    + done.
Qed.

Lemma deleteFlow_wf s st key :
  shard_wf s st → (∀ mq, queue_at s key mq → mq_contents mq = []) → shard_wf (deleteFlow key s) st.
Proof.
  intros Hwf He. unfold deleteFlow. destruct (sh_priorityBands s !! fk_Priority key) as [b|] eqn:Hb; [|done].
  apply band_queues_wf; [done|done|..].
  - intros id mq [_ Hmq]%lookup_delete_Some. by left.
  - unfold band_len_sum. destruct (pb_queues b !! fk_ID key) as [mq|] eqn:Hmq; [|by rewrite delete_id].
    rewrite (sum_map_delete _ (pb_queues b) _ mq) by done. unfold queue_len at 2.
    rewrite (He mq); [done|by exists b].
  - unfold band_bytes_sum. destruct (pb_queues b !! fk_ID key) as [mq|] eqn:Hmq; [|by rewrite delete_id].
    rewrite (sum_map_delete _ (pb_queues b) _ mq) by done. unfold queue_bytes at 2.
    rewrite (He mq); [done|by exists b].
Qed.

Lemma markAsDraining_wf s st : shard_wf s st → shard_wf (markAsDraining s) st.
Proof. by intros [W1 W2 W3 W4 W5 W6 W7 W8]; split. Qed.

(** What the shard reports is what its queues hold. *)
Lemma Stats_agree s st :
  shard_wf s st →
  ss_TotalLen (Stats s) = Int.u64 (sum_map band_len_sum (sh_priorityBands s)) ∧
  ss_TotalByteSize (Stats s) = Int.u64 (sum_map band_bytes_sum (sh_priorityBands s)) ∧
  ∀ p, ss_PerPriorityBandStats (Stats s) !! p =
    (λ b, mkPriorityBandStats p (pbc_MaxBytes (pb_config b)) (pbc_MaxRequests (pb_config b))
       (Int.u64 (band_bytes_sum b)) (Int.u64 (band_len_sum b))) <$> sh_priorityBands s !! p.
Proof.
  intros [W1 W2 W3 W4 W5 W6 W7 W8]. unfold Stats. simpl. rewrite W5, W6, !Int.u64_i64.
  split_and!; [done..|]. intros p. rewrite map_lookup_imap.
  destruct (sh_priorityBands s !! p) as [b|] eqn:Hb; simpl; [|done].
  unfold band_stats. destruct (W4 p b Hb) as [-> ->]. by rewrite !Int.u64_i64.
Qed.

Lemma update_bands_spec newBands l : ∀ bands,
  NoDup l.*1 → (∀ p b, (p, b) ∈ l → bands !! p = Some b ∧ is_Some (newBands !! p)) →
  ∃ bands', update_bands newBands l bands = Some bands' ∧
    (∀ p b, (p, b) ∈ l → ∃ c, newBands !! p = Some c ∧ bands' !! p = Some (with_bconfig c b)) ∧
    (∀ p, p ∉ l.*1 → bands' !! p = bands !! p).
Proof.
  induction l as [|[q b] l IH]; intros bands Hnd Hin; simpl.
  { exists bands. split_and!; [done|by intros ?? ?%elem_of_nil|done]. }
  rewrite fmap_cons in Hnd. apply NoDup_cons in Hnd as [Hq Hnd]. simpl in Hq.
  destruct (Hin q b) as [_ [c Hc]]; [set_solver|]. rewrite Hc.
  destruct (IH (<[q := with_bconfig c b]> bands) Hnd) as (bands' & Hrun & H1 & H2).
  { intros p b' Hp. rewrite lookup_insert_ne; [apply Hin; set_solver|].
    intros ->. apply Hq. apply list_elem_of_fmap. by exists (p, b'). }
  exists bands'. split_and!; [done|..].
  - intros p b' [[= -> ->]|Hp]%elem_of_cons; [|by apply H1]. exists c. split; [done|].
    rewrite H2 by done. apply lookup_insert_eq.
  - intros p Hp. apply not_elem_of_cons in Hp as [Hp1 Hp2]. rewrite H2 by done. by apply lookup_insert_ne.
Qed.

(** The bands of [m] with the configurations of [cs]. *)
Definition rebanded (cs : gmap Z PriorityBandConfig) (m m' : gmap Z priorityBand) : Prop :=
  ∀ p, m' !! p = (b ← m !! p; cfg ← cs !! p; Some (with_bconfig cfg b)).

Lemma rebanded_inv cs m m' p b' :
  rebanded cs m m' → m' !! p = Some b' →
  ∃ b cfg, m !! p = Some b ∧ cs !! p = Some cfg ∧ b' = with_bconfig cfg b.
Proof.
  intros Hr E. rewrite Hr in E. destruct (m !! p) as [b|]; [|done].
  simpl in E. destruct (cs !! p) as [cfg|]; [|done]. simpl in E. simplify_eq. eauto.
Qed.

Lemma rebanded_is_Some cs m m' p :
  rebanded cs m m' → (∀ q, is_Some (m !! q) → is_Some (cs !! q)) →
  is_Some (m' !! p) ↔ is_Some (m !! p).
Proof.
  intros Hr Hdom. rewrite Hr. destruct (m !! p) as [b|] eqn:Hb; simpl; [|done].
  destruct (Hdom p) as [cfg ->]; [by rewrite Hb|]. simpl. by split; eauto.
Qed.

Lemma rebanded_sum cs m m' f :
  rebanded cs m m' → (∀ q, is_Some (m !! q) → is_Some (cs !! q)) →
  (∀ cfg b, f (with_bconfig cfg b) = f b) → sum_map f m' = sum_map f m.
Proof.
  intros Hr Hdom Hf.
  assert (m' = map_imap (λ p b, Some (with_bconfig (default (pb_config b) (cs !! p)) b)) m) as ->.
  { apply map_eq. intros p. rewrite Hr, map_lookup_imap.
    destruct (m !! p) as [b|] eqn:Hb; simpl; [|done].
    destruct (Hdom p) as [cfg ->]; [by rewrite Hb|]. done. }
  clear -Hf. induction m as [|p b m Hm IH] using map_ind; [done|].
  rewrite map_imap_insert_Some with (y := with_bconfig (default (pb_config b) (cs !! p)) b) by done.
  rewrite !sum_map_insert; [|done|by rewrite map_lookup_imap, Hm]. by rewrite Hf, IH.
Qed.

Lemma updateConfig_spec s st c :
  shard_wf s st → shard_config_ok c →
  (∀ p, is_Some (sh_priorityBands s !! p) → is_Some (sc_PriorityBands c !! p)) →
  wp (updateConfig c) (λ _ s', shard_wf s' st ∧
    ∃ bands', s' = with_pbands bands' (with_config c s) ∧
      rebanded (sc_PriorityBands c) (sh_priorityBands s) bands') s.
Proof.
  intros [W1 W2 W3 W4 W5 W6 W7 W8] Hok Hdom.
  destruct (update_bands_spec (sc_PriorityBands c) (map_to_list (sh_priorityBands s)) (sh_priorityBands s))
    as (bands' & Hrun & H1 & H2).
  { apply NoDup_fst_map_to_list. }
  { intros p b Hin%elem_of_map_to_list. split; [done|]. apply Hdom. eauto. }
  assert (rebanded (sc_PriorityBands c) (sh_priorityBands s) bands') as Hr.
  { intros p. destruct (sh_priorityBands s !! p) as [b|] eqn:Hb; simpl.
    - destruct (H1 p b) as (cfg & Hc & ->); [by apply elem_of_map_to_list|]. by rewrite Hc.
    - rewrite H2; [done|]. intros ([p' b] & -> & Hin%elem_of_map_to_list)%list_elem_of_fmap.
      simpl in Hb. congruence. }
  assert (∀ key mq, queue_at (with_pbands bands' (with_config c s)) key mq → queue_at s key mq) as Hq.
  { intros key mq (b' & E & Hmq). destruct (rebanded_inv _ _ _ _ _ Hr E) as (b & cfg & Hb & _ & ->).
    by exists b. }
  unfold wp, updateConfig. rewrite Hrun. split; [|by eauto].
  split; cbn [sh_priorityBands with_pbands with_config sh_totalLen sh_totalByteSize sh_orderedPriorityLevels];
    try done.
  - intros p b' E. destruct (rebanded_inv _ _ _ _ _ Hr E) as (b & cfg & Hb & Hc & ->).
    by apply (Hok p).
  - intros key mq Hk. by apply W2, Hq.
  - intros k1 q1 k2 q2 i1 i2 E1%Hq E2%Hq. by eapply W3.
  - intros p b' E. destruct (rebanded_inv _ _ _ _ _ Hr E) as (b & cfg & Hb & Hc & ->).
    exact (W4 p b Hb).
  - by rewrite (rebanded_sum _ _ _ _ Hr Hdom).
  - by rewrite (rebanded_sum _ _ _ _ Hr Hdom).
  - intros p. by rewrite W8, (rebanded_is_Some _ _ _ _ Hr Hdom).
Qed.

Lemma addPriorityBand_spec s st p c f :
  shard_wf s st → sc_PriorityBands (sh_config s) !! p = Some c → pbc_Priority c = p →
  pbc_FairnessPolicy c = Some f →
  wp (addPriorityBand p) (λ _ s', shard_wf s' st ∧
    (is_Some (sh_priorityBands s !! p) ∧ s' = s ∨
     sh_priorityBands s !! p = None ∧
     s' = with_levels (sort_levels (sh_orderedPriorityLevels s ++ [p]))
            (with_pbands (<[p := mkPriorityBand f (fp_NewState f) c ∅ 0 0]> (sh_priorityBands s)) s))) s.
Proof.
  intros Hwf Hc <- Hf. apply wp_bind, wp_gets.
  destruct (sh_priorityBands s !! pbc_Priority c) as [b|] eqn:Hb.
  - apply wp_ret. split; [done|]. left. eauto.
  - apply wp_bind, (wp_getsome _ _ _ c); [done|].
    eapply wp_mono; [by apply (initPriorityBand_spec s st c f)|]. intros [] s' [-> Hwf']. eauto.
Qed.
