(* ===== verification/Item.v ===== *)
(** * The lifecycle of a request: [controller/internal/item.go]

    The mutable part of a [FlowItem]: the final state, the buffered channel that
    announces it and the [sync.Once] that guards them. Finalization may be attempted
    any number of times, by the controller (context expiry) and by the processor
    (dispatch, rejection, shutdown); the first attempt decides. The immutable part of
    the item is [QueueItem]; its handle lives in the store. *)

From stdpp Require Import prelude gmap list.
From S2P Require Import Prelude FlowTypes.

Open Scope go_scope.

Record FinalState := mkFinalState { fs_Outcome : QueueOutcome; fs_Err : option GoError }.

(** [is_done] is the content of the channel of capacity one. *)
Record ItemState := mkItemState {
  is_finalState : option FinalState;
  is_done : list FinalState;
  is_doneClosed : bool;
  is_onceFinalize : bool
}.

(** [NewItem]. *)
Definition newItemState : ItemState := mkItemState None [] false false.

(** A send on a closed channel panics; a send on a full one would block for ever,
    which is [None] as well. *)
Definition finalizeInternal (outcome : QueueOutcome) (err : option GoError) (s : ItemState)
    : option ItemState :=
  let finalState := mkFinalState outcome err in
  if is_doneClosed s then None
  else
    match is_done s with
    | [] => Some (mkItemState (Some finalState) [finalState] true (is_onceFinalize s))
    | _ => None
    end.

Definition once (s : ItemState) (body : ItemState → option ItemState) : option ItemState :=
  if is_onceFinalize s then Some s
  else
    match body s with
    | Some s' => Some (mkItemState (is_finalState s') (is_done s') (is_doneClosed s') true)
    | None => None
    end.

Definition inferOutcome (cause : GoError) (isQueued : bool) : QueueOutcome * GoError :=
  let '(specificErr, outcomeIfEvicted) :=
    if errors_Is cause ErrTTLExpired || errors_Is cause ContextDeadlineExceeded then
      (ESentinel ErrTTLExpired, QueueOutcomeEvictedTTL)
    else if errors_Is cause ContextCanceled then
      (EWrap [ESentinel ErrContextCancelled; cause], QueueOutcomeEvictedContextCancelled)
    else (cause, QueueOutcomeEvictedOther) in
  if isQueued then (outcomeIfEvicted, EWrap [ESentinel ErrEvicted; specificErr])
  else (QueueOutcomeRejectedOther, EWrap [ESentinel ErrRejected; specificErr]).

(** [isQueued] is [fi.Handle() != nil]. *)
Definition Finalize (cause : GoError) (isQueued : bool) (s : ItemState) : option ItemState :=
  once s (λ s, let '(outcome, finalErr) := inferOutcome cause isQueued in
               finalizeInternal outcome (Some finalErr) s).

Definition FinalizeWithOutcome (outcome : QueueOutcome) (err : option GoError) (s : ItemState)
    : option ItemState :=
  once s (finalizeInternal outcome err).

(** ** Properties *)

(** The channel holds the final state until it is received; it is closed with it. *)
Definition item_wf (s : ItemState) : Prop :=
  match is_finalState s with
  | None => is_done s = [] ∧ is_doneClosed s = false ∧ is_onceFinalize s = false
  | Some f => (is_done s = [f] ∨ is_done s = []) ∧ is_doneClosed s = true ∧ is_onceFinalize s = true
  end.

Lemma newItemState_wf : item_wf newItemState.
Proof. done. Qed.

Definition finalized (f : FinalState) : ItemState := mkItemState (Some f) [f] true true.

Lemma FinalizeWithOutcome_spec s o e :
  item_wf s →
  FinalizeWithOutcome o e s =
    Some (match is_finalState s with Some _ => s | None => finalized (mkFinalState o e) end).
Proof.
  unfold item_wf, FinalizeWithOutcome, once, finalizeInternal. destruct s as [[f|] d c b]; simpl.
  - by intros (_ & -> & ->).
  - by intros (-> & -> & ->).
Qed.

Lemma Finalize_spec s cause q :
  item_wf s →
  Finalize cause q s =
    Some (match is_finalState s with
          | Some _ => s
          | None => finalized (mkFinalState (inferOutcome cause q).1 (Some (inferOutcome cause q).2))
          end).
Proof.
  intros Hwf. rewrite <- (FinalizeWithOutcome_spec s) by done. unfold Finalize, FinalizeWithOutcome, once.
  by destruct (inferOutcome cause q).
Qed.

Lemma finalized_wf f : item_wf (finalized f).
Proof. split; [by left|done]. Qed.

(** An attempt to finalize an item. *)
Inductive finalize_call :=
  | CallFinalize (cause : GoError) (isQueued : bool)
  | CallWithOutcome (outcome : QueueOutcome) (err : option GoError).

Definition call_state (c : finalize_call) : FinalState :=
  match c with
  | CallFinalize cause q => mkFinalState (inferOutcome cause q).1 (Some (inferOutcome cause q).2)
  | CallWithOutcome o e => mkFinalState o e
  end.

Fixpoint run_calls (cs : list finalize_call) (s : ItemState) : option ItemState :=
  match cs with
  | [] => Some s
  | c :: cs' =>
      match (match c with
             | CallFinalize cause q => Finalize cause q s
             | CallWithOutcome o e => FinalizeWithOutcome o e s
             end) with
      | Some s' => run_calls cs' s'
      | None => None
      end
  end.

Lemma run_calls_final cs : ∀ s f,
  item_wf s → is_finalState s = Some f → run_calls cs s = Some s.
Proof.
  induction cs as [|c cs IH]; intros s f Hwf Hf; simpl; [done|].
  destruct c; rewrite ?Finalize_spec, ?FinalizeWithOutcome_spec by done; rewrite Hf; by eapply IH.
Qed.

(** A request is finalized exactly once. However many attempts controller and
    processor make, in whatever order, none of them panics or blocks; the first one
    determines the final state, the channel announces that state once, and later
    attempts change nothing. *)
Theorem finalized_once (c : finalize_call) (cs : list finalize_call) :
  run_calls (c :: cs) newItemState = Some (finalized (call_state c)).
Proof.
  cbn [run_calls].
  destruct c; rewrite ?Finalize_spec, ?FinalizeWithOutcome_spec by done; cbn [is_finalState newItemState];
    (eapply run_calls_final; [apply finalized_wf|done]).
Qed.

(** The outcome that a context expiry is given: a request that has reached a queue
    is evicted, with the reason in the outcome, and its error wraps [ErrEvicted]; one
    that has not is rejected, and its error wraps [ErrRejected]. An expired deadline
    is reported as an expired TTL, a cancellation as [ErrContextCancelled], and any
    other cause is kept in the error. *)
Theorem inferOutcome_classifies (cause : GoError) (isQueued : bool)
    (res := inferOutcome cause isQueued) :
  errors_Is res.2 (if isQueued then ErrEvicted else ErrRejected) = true ∧
  (isQueued = false → res.1 = QueueOutcomeRejectedOther) ∧
  (isQueued = true →
     res.1 = if errors_Is cause ErrTTLExpired || errors_Is cause ContextDeadlineExceeded
             then QueueOutcomeEvictedTTL
             else if errors_Is cause ContextCanceled then QueueOutcomeEvictedContextCancelled
             else QueueOutcomeEvictedOther) ∧
  (errors_Is cause ErrTTLExpired || errors_Is cause ContextDeadlineExceeded = true →
     errors_Is res.2 ErrTTLExpired = true) ∧
  (errors_Is cause ErrTTLExpired || errors_Is cause ContextDeadlineExceeded = false →
     (errors_Is cause ContextCanceled = true → errors_Is res.2 ErrContextCancelled = true) ∧
     ∀ s, errors_Is cause s = true → errors_Is res.2 s = true).
Proof.
  unfold res, inferOutcome.
  destruct (errors_Is cause ErrTTLExpired || errors_Is cause ContextDeadlineExceeded) eqn:E1;
    [|destruct (errors_Is cause ContextCanceled) eqn:E2]; destruct isQueued; cbn [fst snd];
    rewrite ?errors_Is_wrap2; split_and!; try done; intros _; (split; [try done|]); intros; 
    rewrite ?errors_Is_wrap2; try done; repeat (apply orb_true_iff; right); try done.
Qed.
