(* ===== verification/Registry.v ===== *)
(** * The flow registry: [registry/registry.go], [registry/connection.go]

    The registry owns the flows, the priority bands and the shard: it provisions a
    flow (and its band) on the first connection, keeps both alive by leases, and
    collects idle flows and bands periodically.

    Here an operation of the registry (entering or leaving [WithConnection], a queue
    operation, a garbage collection cycle) is one step, and connections stay open
    across steps; the races inside [pinLeasedResource] and [collectLeasedResources]
    are the subject of [Leasing]. Time is a number of nanoseconds; one operation
    reads the clock once. A result [None] is a panic, or the spinning of
    [pinLeasedResource] on a resource that stays marked; no reachable state has
    one. *)

From stdpp Require Import prelude gmap strings list.
From Stdlib Require Import Lia.
From S2P Require Import Prelude FlowTypes Ordering Fairness SafeQueue QueueFactory ManagedQueue.
From S2P Require Import RegistryConfig Leasing Shard.

Open Scope go_scope.

(** ** Leased resources: the interface [leasable] *)

Class Leasable (V : Type) := {
  lease : V → leasedState;
  set_lease : leasedState → V → V
}.

Section leased.
Context {K V : Type} `{!EqDecision K} `{!Countable K} `{!Leasable V}.

(** [pinLeasedResource] when no other goroutine interferes. *)
Definition pinLeasedResource (createFn : V) (key : K) (m : gmap K V) : option (V * bool * gmap K V) :=
  let '(state, isNew) := match m !! key with Some v => (v, false) | None => (createFn, true) end in
  match tryPin (lease state) with
  | None => None
  | Some ls => Some (set_lease ls state, isNew, <[key := set_lease ls state]> m)
  end.

(** The callback of [Range] on each entry, in turn. *)
Fixpoint collect_loop (timeout now : Z) (l : list (K * V)) (m : gmap K V) : list V * gmap K V :=
  match l with
  | [] => ([], m)
  | (k, v) :: l' =>
      let '(expired, ls) := checkAndMarkForDeletion timeout now (lease v) in
      let v' := set_lease ls v in
      if expired then
        let '(vs, m') := collect_loop timeout now l' (delete k m) in (v' :: vs, m')
      else collect_loop timeout now l' (<[k := v']> m)
  end.

Definition collectLeasedResources (timeout now : Z) (m : gmap K V) : list V * gmap K V :=
  collect_loop timeout now (map_to_list m) m.
End leased.

(** ** State *)

Record bandStats := mkBandStats { bs_byteSize : Z; bs_len : Z }.

(** [fs_ptr] is the identity of the object; [fs_init] is [None] before the
    [sync.Once] ran, and [Some initErr] after. *)
Record flowState := mkFlowState {
  fs_ptr : positive;
  fs_lease : leasedState;
  fs_key : FlowKey;
  fs_init : option (option GoError)
}.

Record priorityBandState := mkBandState { ps_lease : leasedState; ps_priority : Z }.

#[export] Instance flowState_leasable : Leasable flowState := {|
  lease := fs_lease;
  set_lease := λ ls fs, mkFlowState (fs_ptr fs) ls (fs_key fs) (fs_init fs)
|}.

#[export] Instance priorityBandState_leasable : Leasable priorityBandState := {|
  lease := ps_lease;
  set_lease := λ ls bs, mkBandState ls (ps_priority bs)
|}.

(** The counters of the registry. *)
Record registryStats := mkRegistryStats {
  rs_totalByteSize : Z;
  rs_totalLen : Z;
  rs_perPriorityBandStats : gmap Z bandStats
}.

Record FlowRegistry := mkFlowRegistry {
  fr_config : Config;
  fr_nextPtr : positive;                       (* the next flow state's identity *)
  fr_flowStates : gmap FlowKey flowState;
  fr_priorityBandStates : gmap Z priorityBandState;
  fr_stats : registryStats;
  fr_shard : registryShard
}.

Definition fr_with_flows (m : gmap FlowKey flowState) (fr : FlowRegistry) : FlowRegistry :=
  mkFlowRegistry (fr_config fr) (fr_nextPtr fr) m (fr_priorityBandStates fr) (fr_stats fr) (fr_shard fr).

Definition fr_with_bands (m : gmap Z priorityBandState) (fr : FlowRegistry) : FlowRegistry :=
  mkFlowRegistry (fr_config fr) (fr_nextPtr fr) (fr_flowStates fr) m (fr_stats fr) (fr_shard fr).

Definition fr_with_config (c : Config) (fr : FlowRegistry) : FlowRegistry :=
  mkFlowRegistry c (fr_nextPtr fr) (fr_flowStates fr) (fr_priorityBandStates fr) (fr_stats fr) (fr_shard fr).

Definition fr_with_stats (rs : registryStats) (fr : FlowRegistry) : FlowRegistry :=
  mkFlowRegistry (fr_config fr) (fr_nextPtr fr) (fr_flowStates fr) (fr_priorityBandStates fr) rs (fr_shard fr).

Definition fr_with_shard (s : registryShard) (fr : FlowRegistry) : FlowRegistry :=
  mkFlowRegistry (fr_config fr) (fr_nextPtr fr) (fr_flowStates fr) (fr_priorityBandStates fr) (fr_stats fr) s.

Definition rs_with_bands (m : gmap Z bandStats) (rs : registryStats) : registryStats :=
  mkRegistryStats (rs_totalByteSize rs) (rs_totalLen rs) m.

Abbreviation RM := (GoM (FlowRegistry * store)).

Definition on_registry {A} (c : GoM FlowRegistry A) : RM A :=
  λ '(fr, st), match c fr with Some (a, fr') => Some (a, (fr', st)) | None => None end.

Definition on_shard {A} (c : GoM registryShard A) : GoM FlowRegistry A :=
  λ fr, match c (fr_shard fr) with Some (a, s) => Some (a, fr_with_shard s fr) | None => None end.

(** ** Construction *)

(** [buildFlowComponents] for one instance. A nil ordering policy is passed on to
    the queue; bands that passed validation have one. *)
Definition buildFlowComponents (config : Config) (key : FlowKey) (st : store)
    : (OrderingPolicy * AnyQueue * store) + GoError :=
  match cfg_PriorityBands config !! fk_Priority key with
  | None => inr (EWrap [ESentinel ErrPriorityBandNotFound])
  | Some bandConfig =>
      let policy := default nil_policy (pbc_OrderingPolicy bandConfig) in
      match NewQueueFromName (pbc_Queue bandConfig) policy st with
      | inr err => inr (EWrap [err])
      | inl (q, st') => inl (policy, q, st')
      end
  end.

(** The preparation loop of [createShard]: it stops at the first error. *)
Fixpoint prepare_flows (config : Config) (keys : list FlowKey) (st : store)
    : list (FlowKey * OrderingPolicy * AnyQueue) * store + GoError :=
  match keys with
  | [] => inl ([], st)
  | key :: keys' =>
      match buildFlowComponents config key st with
      | inr err => inr (EWrap [err])
      | inl (policy, q, st') =>
          match prepare_flows config keys' st' with
          | inr err => inr err
          | inl (cs, st'') => inl ((key, policy, q) :: cs, st'')
          end
      end
  end.

(** The shard that [createShard] builds for the flows [keys] and installs. *)
Definition createShard (config : Config) (keys : list FlowKey) : GoM store (registryShard + GoError) :=
  shard ← getsome (λ _, newShard "shard-0" (partition 0 1 config));
  prepared ← gets (prepare_flows config keys);
  match prepared with
  | inr err => mret (inr err)
  | inl (components, st') =>
      _ ← modify (λ _, st');
      shard' ← getsome (λ _,
        match (_ ← for_each components (λ '(key, policy, q), synchronizeFlow key policy q);
               updateConfig (partition 0 1 config)) shard with
        | Some (_, s) => Some s
        | None => None
        end);
      mret (inl shard')
  end.

Definition NewFlowRegistry (config : Config) : GoM store (FlowRegistry + GoError) :=
  let cfg := Clone config in
  let stats := mkRegistryStats 0 0 ((λ _, mkBandStats 0 0) <$> cfg_PriorityBands cfg) in
  r ← createShard cfg [];
  match r with
  | inr err => mret (inr (EWrap [err]))
  | inl shard => mret (inl (mkFlowRegistry cfg 1 ∅ ∅ stats shard))
  end.

(** ** Provisioning *)

Definition repartitionShardConfigsLocked : GoM FlowRegistry unit :=
  config ← gets fr_config;
  on_shard (updateConfig (partition 0 1 config)).

Definition with_priority (priority : Z) (b : PriorityBandConfig) : PriorityBandConfig :=
  mkPriorityBandConfig priority (pbc_OrderingPolicy b) (pbc_FairnessPolicy b) (pbc_Queue b)
    (pbc_MaxBytes b) (pbc_MaxRequests b).

(** [sync.Map.LoadOrStore], keeping the map only. *)
Definition load_or_store {K V} `{!EqDecision K} `{!Countable K} (k : K) (v : V) (m : gmap K V)
    : gmap K V :=
  match m !! k with Some _ => m | None => <[k := v]> m end.

Definition ensurePriorityBand (priority : Z) : GoM FlowRegistry unit :=
  config ← gets fr_config;
  match cfg_PriorityBands config !! priority with
  | Some _ => mret tt
  | None =>
      template ← getsome (λ _, cfg_DefaultPriorityBand config);
      let newBand := with_priority priority template in
      _ ← modify (fr_with_config (with_bands (<[priority := newBand]> (cfg_PriorityBands config)) config));
      _ ← modify (λ fr, fr_with_stats (rs_with_bands
            (load_or_store priority (mkBandStats 0 0) (rs_perPriorityBandStats (fr_stats fr)))
            (fr_stats fr)) fr);
      _ ← modify (λ fr, fr_with_bands
            (load_or_store priority (mkBandState newLeasedState priority) (fr_priorityBandStates fr)) fr);
      _ ← repartitionShardConfigsLocked;
      on_shard (addPriorityBand priority)
  end.

Definition ensureFlowInfrastructure (key : FlowKey) : RM (option GoError) :=
  existing ← gets (λ '(fr, _), cfg_PriorityBands (fr_config fr) !! fk_Priority key);
  _ ← (match existing with
       | Some _ => mret tt
       | None => on_registry (ensurePriorityBand (fk_Priority key))
       end);
  components ← gets (λ '(fr, st), buildFlowComponents (fr_config fr) key st);
  match components with
  | inr err => mret (Some err)
  | inl (policy, q, st') =>
      _ ← modify (λ '(fr, _), (fr, st'));
      _ ← on_registry (on_shard (synchronizeFlow key policy q));
      mret None
  end.

(** ** Connections *)

(** An open connection: the flow, its state object and the time that the deferred
    [unpin] was given, which is evaluated when the connection is entered. *)
Record connection := mkConnection {
  conn_key : FlowKey;
  conn_state : positive;
  conn_now : Z
}.

(** [createFn] of a flow: a fresh object. *)
Definition pin_flow (key : FlowKey) : GoM FlowRegistry (flowState * bool) :=
  λ fr,
    match pinLeasedResource (mkFlowState (fr_nextPtr fr) newLeasedState key None) key (fr_flowStates fr) with
    | None => None
    | Some (state, isNew, m) =>
        Some (state, isNew, mkFlowRegistry (fr_config fr)
          (if isNew then Pos.succ (fr_nextPtr fr) else fr_nextPtr fr) m
          (fr_priorityBandStates fr) (fr_stats fr) (fr_shard fr))
    end.

Definition pin_band (priority : Z) : GoM FlowRegistry unit :=
  λ fr,
    match pinLeasedResource (mkBandState newLeasedState priority) priority (fr_priorityBandStates fr) with
    | None => None
    | Some (_, _, m) => Some (tt, fr_with_bands m fr)
    end.

(** Release a band's lease, if the band is tracked. *)
Definition unpin_band (priority now : Z) (fr : FlowRegistry) : FlowRegistry :=
  match fr_priorityBandStates fr !! priority with
  | None => fr
  | Some bs => fr_with_bands (<[priority := set_lease (unpin now (lease bs)) bs]> (fr_priorityBandStates fr)) fr
  end.

Definition set_init (e : option GoError) (fs : flowState) : flowState :=
  mkFlowState (fs_ptr fs) (fs_lease fs) (fs_key fs) (Some e).

(** [WithConnection] up to the call of [fn]. After a failed initialisation the
    deferred [unpin] acts on an object that is no longer in the map. *)
Definition enter (key : FlowKey) (now : Z) : RM (connection + GoError) :=
  if bool_decide (fk_ID key = EmptyString) then mret (inr (ESentinel ErrFlowIDEmpty))
  else
    pinned ← on_registry (pin_flow key);
    let '(state, isNewFlow) := pinned : flowState * bool in
    _ ← (if isNewFlow then on_registry (pin_band (fk_Priority key)) else mret tt);
    initErr ← (match fs_init state with
               | Some e => mret e
               | None =>
                   e ← ensureFlowInfrastructure key;
                   _ ← on_registry (modify (λ fr, fr_with_flows
                         (<[key := set_init e state]> (fr_flowStates fr)) fr));
                   mret e
               end);
    match initErr with
    | Some err =>
        _ ← on_registry (modify (λ fr, fr_with_flows (delete key (fr_flowStates fr)) fr));
        _ ← (if isNewFlow then on_registry (modify (unpin_band (fk_Priority key) now)) else mret tt);
        mret (inr (EWrap [err]))
    | None => mret (inl (mkConnection key (fs_ptr state) now))
    end.

(** The deferred [state.unpin]; a state object that left the map is unreachable. *)
Definition leave (c : connection) (fr : FlowRegistry) : FlowRegistry :=
  match fr_flowStates fr !! conn_key c with
  | None => fr
  | Some fs =>
      if bool_decide (fs_ptr fs = conn_state c) then
        fr_with_flows (<[conn_key c := set_lease (unpin (conn_now c) (lease fs)) fs]> (fr_flowStates fr)) fr
      else fr
  end.

Definition WithConnection {A} (key : FlowKey) (now : Z) (fn : connection → RM (A + GoError))
    : RM (A + GoError) :=
  entered ← enter key now;
  match entered with
  | inr err => mret (inr err)
  | inl conn =>
      r ← fn conn;
      _ ← on_registry (modify (leave conn));
      mret r
  end.

(** ** Garbage collection *)

Definition cleanup_flow (key : FlowKey) (fr : FlowRegistry) : FlowRegistry :=
  match fr_flowStates fr !! key with
  | Some _ => fr
  | None => fr_with_shard (deleteFlow key (fr_shard fr)) fr
  end.

Definition cleanupFlowResources (keys : list FlowKey) (fr : FlowRegistry) : FlowRegistry :=
  foldl (λ fr key, cleanup_flow key fr) fr keys.

Definition gcFlows (now : Z) (fr : FlowRegistry) : FlowRegistry :=
  let '(deletedFlows, m) := collectLeasedResources (cfg_FlowGCTimeout (fr_config fr)) now (fr_flowStates fr) in
  let fr1 := fr_with_flows m fr in
  if bool_decide (0 < length deletedFlows) then
    let fr2 := foldl (λ fr v, unpin_band (fk_Priority (fs_key v)) now fr) fr1 deletedFlows in
    cleanupFlowResources (fs_key <$> deletedFlows) fr2
  else fr1.

Definition cleanup_band (priority : Z) (fr : FlowRegistry) : FlowRegistry :=
  match fr_priorityBandStates fr !! priority with
  | Some _ => fr
  | None =>
      mkFlowRegistry
        (with_bands (delete priority (cfg_PriorityBands (fr_config fr))) (fr_config fr))
        (fr_nextPtr fr) (fr_flowStates fr) (fr_priorityBandStates fr)
        (rs_with_bands (delete priority (rs_perPriorityBandStats (fr_stats fr))) (fr_stats fr))
        (Shard.deletePriorityBand priority (fr_shard fr))
  end.

Definition cleanupPriorityBandResources (priorities : list Z) (fr : FlowRegistry) : FlowRegistry :=
  foldl (λ fr p, cleanup_band p fr) fr priorities.

Definition gcPriorityBands (now : Z) (fr : FlowRegistry) : FlowRegistry :=
  let '(deletedBands, m) :=
    collectLeasedResources (cfg_PriorityBandGCTimeout (fr_config fr)) now (fr_priorityBandStates fr) in
  let fr1 := fr_with_bands m fr in
  if bool_decide (0 < length deletedBands) then
    cleanupPriorityBandResources (ps_priority <$> deletedBands) fr1
  else fr1.

Definition executeGCCycle (now : Z) (fr : FlowRegistry) : FlowRegistry :=
  gcPriorityBands now (gcFlows now fr).

Definition fr_deletePriorityBand (priority : Z) (fr : FlowRegistry) : FlowRegistry :=
  cleanupPriorityBandResources [priority]
    (fr_with_bands (delete priority (fr_priorityBandStates fr)) fr).

(** ** Statistics *)

(** A missing band is a failed type assertion. *)
Definition fr_propagateStatsDelta (priority lenDelta byteSizeDelta : Z) : GoM registryStats unit :=
  stats ← getsome (λ rs, rs_perPriorityBandStats rs !! priority);
  modify (λ rs, mkRegistryStats
    (Int.i64 (rs_totalByteSize rs + byteSizeDelta)) (Int.i64 (rs_totalLen rs + lenDelta))
    (<[priority := mkBandStats (Int.i64 (bs_byteSize stats + byteSizeDelta))
                     (Int.i64 (bs_len stats + lenDelta))]> (rs_perPriorityBandStats rs))).

Record AggregateStats := mkAggregateStats {
  as_TotalCapacityBytes : Z;
  as_TotalCapacityRequests : Z;
  as_TotalByteSize : Z;
  as_TotalLen : Z;
  as_PerPriorityBandStats : gmap Z PriorityBandStats
}.

(** The callback of [Range]; a band without configuration is a nil dereference. *)
Fixpoint aggregate_bands (config : Config) (l : list (Z * bandStats)) (m : gmap Z PriorityBandStats)
    : option (gmap Z PriorityBandStats) :=
  match l with
  | [] => Some m
  | (priority, bs) :: l' =>
      match cfg_PriorityBands config !! priority with
      | None => None
      | Some bandCfg =>
          aggregate_bands config l'
            (<[priority := mkPriorityBandStats priority (pbc_MaxBytes bandCfg) (pbc_MaxRequests bandCfg)
                 (Int.u64 (bs_byteSize bs)) (Int.u64 (bs_len bs))]> m)
      end
  end.

Definition fr_Stats (fr : FlowRegistry) : option AggregateStats :=
  match aggregate_bands (fr_config fr) (map_to_list (rs_perPriorityBandStats (fr_stats fr))) ∅ with
  | None => None
  | Some bands =>
      Some (mkAggregateStats (cfg_MaxBytes (fr_config fr)) (cfg_MaxRequests (fr_config fr))
        (Int.u64 (rs_totalByteSize (fr_stats fr))) (Int.u64 (rs_totalLen (fr_stats fr))) bands)
  end.

Definition fr_ShardStats (fr : FlowRegistry) : list ShardStats := [Stats (fr_shard fr)].

(** [connection.ActiveShards] and [connection.FlowKey]. *)
Definition ActiveShards (fr : FlowRegistry) : list registryShard := [fr_shard fr].
Definition conn_FlowKey (c : connection) : FlowKey := conn_key c.

(** ** Queue operations through the registry

    The shard's statistics callback is [fr_propagateStatsDelta]. *)
Definition on_queues {A} (c : GoM (registryShard * store * registryStats) A) : RM A :=
  λ '(fr, st),
    match c (fr_shard fr, st, fr_stats fr) with
    | Some (a, (s, st', rs)) => Some (a, (fr_with_stats rs (fr_with_shard s fr), st'))
    | None => None
    end.

Definition fr_Add (key : FlowKey) (item : QueueItem) : RM (option GoError) :=
  on_queues (shard_Add fr_propagateStatsDelta key item).

Definition fr_Remove (key : FlowKey) (handle : option positive) : RM RemoveResult :=
  on_queues (shard_Remove fr_propagateStatsDelta key handle).

Definition fr_Cleanup (key : FlowKey) (p : QueueItem → bool) : RM (list QueueItem) :=
  on_queues (shard_Cleanup fr_propagateStatsDelta key p).

Definition fr_Drain (key : FlowKey) : RM (list QueueItem) :=
  on_queues (shard_Drain fr_propagateStatsDelta key).
