(* ===== verification/RegistryInv.v ===== *)
(** * Invariants of the flow registry

    The topology invariant relates configuration, statistics and shard; the lease
    invariant relates flows, bands and open connections. Together they are preserved
    by every operation, and give: a connection always succeeds and its flow keeps its
    queue until it is left; the count of a band is the number of its flows; the
    statistics agree; and nothing panics. The end of the file shows what garbage
    collection does to bands that were configured and to queues that are not
    empty. *)

From stdpp Require Import prelude gmap strings list.
From Stdlib Require Import Lia.
From S2P Require Import Prelude FlowTypes Ordering Fairness SafeQueue QueueFactory ManagedQueue.
From S2P Require Import RegistryConfig Leasing Shard Registry.

Open Scope go_scope.

(** ** Topology *)

Definition in_u64 (z : Z) : Prop := (0 ≤ z < Int.two64)%Z.

Record config_ok (c : Config) : Prop := {
  co_bands : bands_ok (cfg_PriorityBands c);
  co_ready : ∀ p b, cfg_PriorityBands c !! p = Some b → band_ready b;
  co_default : ∃ d, cfg_DefaultPriorityBand c = Some d ∧ band_ready d ∧
    in_u64 (pbc_MaxBytes d) ∧ in_u64 (pbc_MaxRequests d);
  co_bytes : in_u64 (cfg_MaxBytes c);
  co_requests : in_u64 (cfg_MaxRequests c)
}.

Definition stats_of_band (b : priorityBand) : bandStats := mkBandStats (pb_byteSize b) (pb_len b).

Record topology (c : Config) (rs : registryStats) (s : registryShard) (st : store) : Prop := {
  tp_store : store_wf st;
  tp_shard : shard_wf s st;
  tp_config : config_ok c;
  tp_shard_bands : sc_PriorityBands (sh_config s) = cfg_PriorityBands c;
  tp_shard_bytes : sc_MaxBytes (sh_config s) = cfg_MaxBytes c;
  tp_shard_requests : sc_MaxRequests (sh_config s) = cfg_MaxRequests c;
  tp_bands : ∀ p, cfg_PriorityBands c !! p = pb_config <$> sh_priorityBands s !! p;
  tp_len : rs_totalLen rs = sh_totalLen s;
  tp_bytes : rs_totalByteSize rs = sh_totalByteSize s;
  tp_stats : ∀ p, rs_perPriorityBandStats rs !! p = stats_of_band <$> sh_priorityBands s !! p;
  tp_active : sh_isDraining s = false
}.

Lemma partition_ok c :
  config_ok c →
  sc_PriorityBands (partition 0 1 c) = cfg_PriorityBands c ∧
  sc_MaxBytes (partition 0 1 c) = cfg_MaxBytes c ∧ sc_MaxRequests (partition 0 1 c) = cfg_MaxRequests c ∧
  shard_config_ok (partition 0 1 c).
Proof.
  intros [H1 H2 H3 H4 H5]. pose proof (partition_one_bands c H1) as E.
  split_and!; [done|by apply partitionUint64_one..|].
  intros p b. rewrite E. intros Hb. split; [by apply H1|].
  destruct (H2 p b Hb) as (o & f & _ & Hf & _). eauto.
Qed.

Lemma config_ok_insert c p d :
  config_ok c → cfg_DefaultPriorityBand c = Some d →
  config_ok (with_bands (<[p := with_priority p d]> (cfg_PriorityBands c)) c).
Proof.
  intros [H1 H2 (d' & Hd & Hr & Hb1 & Hb2) H4 H5] Hd'. assert (d' = d) as -> by congruence.
  split; simpl; try done.
  - intros q b. rewrite lookup_insert. case_decide; [|apply H1]. subst. by intros [= <-].
  - intros q b. rewrite lookup_insert. case_decide; [|apply H2]. by intros [= <-].
  - exists d. split_and!; try done; apply Hb1 || apply Hb2.
Qed.

Lemma config_ok_delete c p :
  config_ok c → config_ok (with_bands (delete p (cfg_PriorityBands c)) c).
Proof.
  intros [H1 H2 H3 H4 H5]. split; simpl; try done.
  - intros q b [_ Hb]%lookup_delete_Some. by apply H1.
  - intros q b [_ Hb]%lookup_delete_Some. by eapply H2.
Qed.

(** A ready band has its queue constructor. *)
Lemma compatible_new o q policy st : compatible o q → ∃ aq st', NewQueueFromName q policy st = inl (aq, st').
Proof.
  intros Hc. unfold NewQueueFromName. rewrite RegisteredQueues_lookup.
  destruct Hc as [[-> _]|[-> _]]; simpl; [eauto|]. unfold new_list.
  destruct (alloc_opaque st). eauto.
Qed.

Lemma buildFlowComponents_ok c key st :
  config_ok c → store_wf st → is_Some (cfg_PriorityBands c !! fk_Priority key) →
  ∃ policy q st', buildFlowComponents c key st = inl (policy, q, st') ∧
    sq_wf q st' ∧ store_wf st' ∧ sq_contents q = [] ∧ store_local [] st st'.
Proof.
  intros Hc Hst [b Hb]. unfold buildFlowComponents. rewrite Hb.
  destruct (co_ready _ Hc _ _ Hb) as (o & f & Ho & _ & Hcomp). rewrite Ho.
  destruct (compatible_new o (pbc_Queue b) o st Hcomp) as (q & st' & Hq). cbn [default from_option id].
  rewrite Hq. destruct (new_queue_spec _ _ _ _ _ Hst Hq) as (H1 & H2 & H3 & _ & H5).
  exists o, q, st'. by split_and!.
Qed.

Lemma shard_wf_frame s st st' :
  shard_wf s st → store_wf st → store_local [] st st' → shard_wf s st'.
Proof.
  intros [W1 W2 W3 W4 W5 W6 W7 W8] Hst Hloc. split; try done.
  intros key mq Hq. destruct (W2 key mq Hq) as [Hw Hk]. split; [|done].
  eapply mq_wf_frame; [done|apply Hloc|]. eapply store_local_agree; [done..|].
  intros it Hit Hin. by apply elem_of_nil in Hin.
Qed.

(** Shards that differ in empty queues only. *)
Definition same_items (s s' : registryShard) : Prop :=
  (∀ key mq, queue_at s key mq → queue_at s' key mq ∨ mq_contents mq = []) ∧
  (∀ key mq, queue_at s' key mq → queue_at s key mq ∨ mq_contents mq = []).

Lemma same_items_iff s s' : (∀ key mq, queue_at s' key mq ↔ queue_at s key mq) → same_items s s'.
Proof. intros H. split; intros key mq Hq; left; by apply H. Qed.

Lemma same_items_trans s1 s2 s3 : same_items s1 s2 → same_items s2 s3 → same_items s1 s3.
Proof.
  intros [A1 A2] [B1 B2]. split; intros key mq Hq.
  - destruct (A1 _ _ Hq) as [Hq'|?]; [by apply B1|by right].
  - destruct (B2 _ _ Hq) as [Hq'|?]; [by apply A2|by right].
Qed.

(** Reconfiguring a shard to configurations its bands already have. *)
Lemma rebanded_same cs m m' :
  rebanded cs m m' → (∀ p b, m !! p = Some b → cs !! p = Some (pb_config b)) → m' = m.
Proof.
  intros Hr Hcs. apply map_eq. intros p. rewrite Hr. destruct (m !! p) as [b|] eqn:Hb; simpl; [|done].
  rewrite (Hcs p b Hb). simpl. by destruct b.
Qed.

(** Adding a priority band from the template. *)
Lemma topology_new_band c rs s st p d
    (c' := with_bands (<[p := with_priority p d]> (cfg_PriorityBands c)) c)
    (rs' := rs_with_bands (<[p := mkBandStats 0 0]> (rs_perPriorityBandStats rs)) rs) :
  topology c rs s st → cfg_PriorityBands c !! p = None → cfg_DefaultPriorityBand c = Some d →
  wp (updateConfig (partition 0 1 c'))
    (λ _ s1, wp (addPriorityBand p) (λ _ s2,
       topology c' rs' s2 st ∧ ∀ key mq, queue_at s2 key mq ↔ queue_at s key mq) s1) s.
Proof.
  intros [T1 T2 T3 T4 T5 T6 T7 T8 T9 T10 T11] Hp Hd.
  pose proof (config_ok_insert c p d T3 Hd) as Hc'. fold c' in Hc'.
  destruct (partition_ok c' Hc') as (P1 & P2 & P3 & P4).
  assert (sh_priorityBands s !! p = None) as Hsp.
  { rewrite T7 in Hp. by destruct (sh_priorityBands s !! p). }
  assert (∀ q b, sh_priorityBands s !! q = Some b → cfg_PriorityBands c' !! q = Some (pb_config b)) as Hcs.
  { intros q b Hb. simpl. rewrite lookup_insert_ne by congruence. by rewrite T7, Hb. }
  eapply wp_mono; [apply (updateConfig_spec s st (partition 0 1 c')); [done..|]|].
  { intros q [b Hb]. rewrite P1, (Hcs q b Hb). eauto. }
  intros [] s1 (Hwf1 & bands1 & -> & Hr). rewrite P1 in Hr. rewrite (rebanded_same _ _ _ Hr Hcs) in *.
  destruct (co_ready _ Hc' p (with_priority p d)) as (o & f & _ & Hf & _).
  { simpl. by rewrite lookup_insert_eq. }
  eapply wp_mono; [apply (addPriorityBand_spec _ st p (with_priority p d) f); [done|..|done|done]|].
  { cbn [with_pbands with_config sh_config]. rewrite P1. simpl. by rewrite lookup_insert_eq. }
  intros [] s2 (Hwf2 & [[Hs _]|[_ ->]]). { simpl in Hs. rewrite Hsp in Hs. by destruct Hs. }
  split.
  - split; try done; simpl; intros q; rewrite !lookup_insert; case_decide; by subst.
  - intros key mq. unfold queue_at. simpl. split.
    + intros (b & Hb & Hmq). rewrite lookup_insert in Hb. case_decide; [|by exists b].
      injection Hb as <-. simpl in Hmq. by rewrite lookup_empty in Hmq.
    + intros (b & Hb & Hmq). exists b. rewrite lookup_insert_ne; [done|congruence].
Qed.

Lemma wp_on_registry {A} (c : GoM FlowRegistry A) Q fr st :
  wp c (λ a fr', Q a (fr', st)) fr → wp (on_registry c) Q (fr, st).
Proof. unfold wp, on_registry. by destruct (c fr) as [[a fr']|]. Qed.

Lemma wp_on_shard {A} (c : GoM registryShard A) Q fr :
  wp c (λ a s, Q a (fr_with_shard s fr)) (fr_shard fr) → wp (on_shard c) Q fr.
Proof. unfold wp, on_shard. by destruct (c (fr_shard fr)) as [[a s]|]. Qed.

Definition fr_topology (fr : FlowRegistry) (st : store) : Prop :=
  topology (fr_config fr) (fr_stats fr) (fr_shard fr) st.

(** What provisioning leaves alone. *)
Record same_leases (fr fr' : FlowRegistry) : Prop := {
  sl_flows : fr_flowStates fr' = fr_flowStates fr;
  sl_bands : fr_priorityBandStates fr' = fr_priorityBandStates fr;
  sl_next : fr_nextPtr fr' = fr_nextPtr fr
}.

Lemma same_leases_trans fr1 fr2 fr3 : same_leases fr1 fr2 → same_leases fr2 fr3 → same_leases fr1 fr3.
Proof. intros [] []. split; congruence. Qed.

Lemma load_or_store_id {K V} `{!EqDecision K} `{!Countable K} k v (m : gmap K V) :
  is_Some (m !! k) → load_or_store k v m = m.
Proof. intros [x Hx]. unfold load_or_store. by rewrite Hx. Qed.

Lemma load_or_store_new {K V} `{!EqDecision K} `{!Countable K} k v (m : gmap K V) :
  m !! k = None → load_or_store k v m = <[k := v]> m.
Proof. intros Hx. unfold load_or_store. by rewrite Hx. Qed.

Lemma ensurePriorityBand_spec fr st p :
  fr_topology fr st → is_Some (fr_priorityBandStates fr !! p) →
  wp (ensurePriorityBand p) (λ _ fr', fr_topology fr' st ∧ same_leases fr fr' ∧
    is_Some (cfg_PriorityBands (fr_config fr') !! p) ∧
    (∀ q, is_Some (cfg_PriorityBands (fr_config fr) !! q) → is_Some (cfg_PriorityBands (fr_config fr') !! q)) ∧
    ∀ key mq, queue_at (fr_shard fr') key mq ↔ queue_at (fr_shard fr) key mq) fr.
Proof.
  intros Ht Hbs. apply wp_bind, wp_gets.
  destruct (cfg_PriorityBands (fr_config fr) !! p) as [b|] eqn:Hp.
  { apply wp_ret. split_and!; try done. }
  destruct (co_default _ (tp_config _ _ _ _ Ht)) as (d & Hd & _).
  apply wp_bind, (wp_getsome _ _ _ d); [done|]. do 3 apply wp_bind, wp_modify.
  cbn [fr_with_config fr_with_stats fr_with_bands fr_stats fr_priorityBandStates rs_perPriorityBandStats
    fr_config fr_flowStates fr_shard fr_nextPtr].
  rewrite (load_or_store_id p _ (fr_priorityBandStates fr)) by done.
  rewrite load_or_store_new.
  2:{ rewrite (tp_stats _ _ _ _ Ht). rewrite (tp_bands _ _ _ _ Ht) in Hp.
      by destruct (sh_priorityBands (fr_shard fr) !! p). }
  apply wp_bind. unfold repartitionShardConfigsLocked. apply wp_bind, wp_gets, wp_on_shard.
  eapply wp_mono; [by apply (topology_new_band _ _ _ _ p d Ht)|].
  intros [] s1 H. apply wp_on_shard. eapply wp_mono; [exact H|].
  intros [] s2 [Ht' Hq]. split_and!; try done.
  - simpl. rewrite lookup_insert_eq. eauto.
  - intros q Hs. simpl. rewrite lookup_insert. case_decide; eauto.
Qed.

Lemma topology_sync c rs s st key policy q st' :
  topology c rs s st → sq_wf q st' → store_wf st' → sq_contents q = [] → store_local [] st st' →
  is_Some (cfg_PriorityBands c !! fk_Priority key) →
  wp (synchronizeFlow key policy q) (λ _ s', topology c rs s' st' ∧ same_items s s' ∧
    ∀ key', (∃ mq, queue_at s' key' mq) ↔ key' = key ∨ ∃ mq, queue_at s key' mq) s.
Proof.
  intros [T1 T2 T3 T4 T5 T6 T7 T8 T9 T10 T11] Hq Hst' Hc Hloc Hp.
  rewrite T7 in Hp. apply fmap_is_Some in Hp. pose proof Hp as [b Hb].
  pose proof (shard_wf_frame _ _ _ T2 T1 Hloc) as T2'.
  pose proof (synchronizeFlow_spec s st' key policy q T2' Hp Hq Hc) as Hspec.
  revert Hspec. unfold wp, synchronizeFlow, mbind, gom_bind, getsome. rewrite Hb.
  destruct (pb_queues b !! fk_ID key) as [mq|] eqn:Hmq.
  - intros _. simpl. split; [by split|]. split; [by apply same_items_iff|]. intros key'. split; [eauto|]. intros [->|?]; [|done].
    exists mq. by exists b.
  - cbn [modify]. intros (Hwf' & _ & _ & _). split; [|split].
    + split; try done; simpl; intros p'; rewrite lookup_insert; case_decide; try done; subst p'.
      * by rewrite T7, Hb.
      * by rewrite T10, Hb.
    + set (mq := newManagedQueue q policy key).
      split; intros key' mq' (b' & Hb' & Hmq'); cbn [with_pbands sh_priorityBands] in *.
      * left. unfold queue_at. cbn [with_pbands sh_priorityBands]. rewrite lookup_insert.
        case_decide as E; [|by exists b']. exists (with_queues (<[fk_ID key := mq]> (pb_queues b)) b).
        split; [done|]. assert (b' = b) as -> by congruence. simpl. rewrite lookup_insert_ne; congruence.
      * rewrite lookup_insert in Hb'. case_decide as E; [|left; by exists b']. injection Hb' as <-.
        simpl in Hmq'. rewrite lookup_insert in Hmq'. case_decide; [right; injection Hmq' as <-; exact Hc|].
        left. exists b. by rewrite <- E.
    + intros key'. unfold queue_at. simpl. setoid_rewrite lookup_insert.
      destruct (decide (fk_Priority key = fk_Priority key')) as [E|E].
      * split.
        { intros (mq & b' & [= <-] & Hmq'). simpl in Hmq'. rewrite lookup_insert in Hmq'.
          case_decide as E2; [left; destruct key, key'; simpl in *; congruence|].
          right. exists mq, b. by rewrite <- E. }
        { intros [->|(mq & b' & Hb' & Hmq')].
          - eexists _, _. split; [done|]. simpl. by rewrite lookup_insert_eq.
          - rewrite <- E, Hb in Hb'. injection Hb' as <-.
            destruct (decide (fk_ID key = fk_ID key')) as [E2|E2]; [congruence|].
            exists mq. eexists. split; [done|]. simpl. by rewrite lookup_insert_ne. }
      * split; [naive_solver|]. intros [->|?]; done.
Qed.

(** Provisioning a flow whose band is tracked succeeds. *)
Lemma ensureFlowInfrastructure_spec fr st key :
  fr_topology fr st → is_Some (fr_priorityBandStates fr !! fk_Priority key) →
  wp (ensureFlowInfrastructure key) (λ err '(fr', st'), err = None ∧ fr_topology fr' st' ∧
    same_leases fr fr' ∧ is_Some (cfg_PriorityBands (fr_config fr') !! fk_Priority key) ∧
    (∀ q, is_Some (cfg_PriorityBands (fr_config fr) !! q) → is_Some (cfg_PriorityBands (fr_config fr') !! q)) ∧
    same_items (fr_shard fr) (fr_shard fr') ∧
    ∀ key', (∃ mq, queue_at (fr_shard fr') key' mq) ↔ key' = key ∨ ∃ mq, queue_at (fr_shard fr) key' mq)
    (fr, st).
Proof.
  intros Ht Hbs. apply wp_bind, wp_gets, wp_bind.
  assert (wp (match cfg_PriorityBands (fr_config fr) !! fk_Priority key with
       | Some _ => mret tt
       | None => on_registry (ensurePriorityBand (fk_Priority key)) end)
    (λ _ '(fr1, st1), st1 = st ∧ fr_topology fr1 st ∧ same_leases fr fr1 ∧
      is_Some (cfg_PriorityBands (fr_config fr1) !! fk_Priority key) ∧
      (∀ q, is_Some (cfg_PriorityBands (fr_config fr) !! q) → is_Some (cfg_PriorityBands (fr_config fr1) !! q)) ∧
      ∀ key mq, queue_at (fr_shard fr1) key mq ↔ queue_at (fr_shard fr) key mq) (fr, st)) as H1.
  { destruct (cfg_PriorityBands (fr_config fr) !! fk_Priority key) eqn:E.
    - apply wp_ret. rewrite E. split_and!; try done.
    - apply wp_on_registry. eapply wp_mono; [by apply ensurePriorityBand_spec|]. intros [] fr1 H. by split. }
  eapply wp_mono; [exact H1|]. clear H1. intros [] [fr1 st1] (-> & Ht1 & Hsl & Hp & Hmono & Hq1).
  apply wp_bind, wp_gets.
  destruct (buildFlowComponents_ok (fr_config fr1) key st) as (policy & q & st' & -> & B1 & B2 & B3 & B4);
    [apply Ht1|apply Ht1|done|].
  apply wp_bind, wp_modify, wp_bind, wp_on_registry, wp_on_shard.
  eapply wp_mono; [by eapply (topology_sync _ _ _ st _ policy q st' Ht1)|].
  intros [] s' (Ht' & Hsi & Hq'). apply wp_ret. split_and!; try done.
  - eapply same_leases_trans; [done|]. by split.
  - eapply same_items_trans; [by apply same_items_iff|exact Hsi].
  - intros key'. rewrite Hq'. by setoid_rewrite Hq1.
Qed.

(** ** Leases *)

(** The number of flows of priority [p]. *)
Definition at_priority (p : Z) (fs : flowState) : Z :=
  if bool_decide (fk_Priority (fs_key fs) = p) then 1 else 0.
Definition flows_at (p : Z) (m : gmap FlowKey flowState) : Z := sum_map (at_priority p) m.

(** The number of open connections on a state object. *)
Fixpoint conns (ptr : positive) (open : list connection) : Z :=
  match open with
  | [] => 0
  | c :: open' => (if bool_decide (conn_state c = ptr) then 1 else 0) + conns ptr open'
  end.

Record leases (flows : gmap FlowKey flowState) (bands : gmap Z priorityBandState) (next : positive)
    (open : list connection) : Prop := {
  le_flow : ∀ key fs, flows !! key = Some fs →
    fs_key fs = key ∧ fs_init fs = Some None ∧ ls_markedForDeletion (fs_lease fs) = false ∧
    ls_leaseCount (fs_lease fs) = conns (fs_ptr fs) open ∧ (fs_ptr fs < next)%positive;
  le_inj : ∀ k1 k2 f1 f2, flows !! k1 = Some f1 → flows !! k2 = Some f2 → fs_ptr f1 = fs_ptr f2 → k1 = k2;
  le_open : ∀ c, c ∈ open → ∃ fs, flows !! conn_key c = Some fs ∧ fs_ptr fs = conn_state c;
  le_band : ∀ p bs, bands !! p = Some bs →
    ps_priority bs = p ∧ ls_markedForDeletion (ps_lease bs) = false ∧
    ls_leaseCount (ps_lease bs) = flows_at p flows;
  le_tracked : ∀ key, is_Some (flows !! key) → is_Some (bands !! fk_Priority key)
}.

Record registry_inv (fr : FlowRegistry) (st : store) (open : list connection) : Prop := {
  ri_topology : fr_topology fr st;
  ri_leases : leases (fr_flowStates fr) (fr_priorityBandStates fr) (fr_nextPtr fr) open;
  ri_queues : ∀ key, is_Some (fr_flowStates fr !! key) ↔ ∃ mq, queue_at (fr_shard fr) key mq;
  ri_bands : ∀ p, is_Some (fr_priorityBandStates fr !! p) → is_Some (cfg_PriorityBands (fr_config fr) !! p)
}.

Lemma conns_nonneg ptr open : (0 ≤ conns ptr open)%Z.
Proof. induction open as [|c open IH]; simpl; [done|]. case_bool_decide; lia. Qed.

Lemma conns_in c open : c ∈ open → (0 < conns (conn_state c) open)%Z.
Proof.
  induction open as [|c' open IH]; [by intros ?%elem_of_nil|].
  intros [->|H]%elem_of_cons; simpl.
  - rewrite bool_decide_eq_true_2 by done. pose proof (conns_nonneg (conn_state c') open). lia.
  - specialize (IH H). case_bool_decide; lia.
Qed.

Lemma conns_none ptr open : (∀ c, c ∈ open → conn_state c ≠ ptr) → conns ptr open = 0%Z.
Proof.
  induction open as [|c open IH]; intros H; simpl; [done|].
  rewrite bool_decide_eq_false_2 by (apply H; set_solver). rewrite IH; [done|]. set_solver.
Qed.

Lemma conns_Permutation ptr o1 o2 : o1 ≡ₚ o2 → conns ptr o1 = conns ptr o2.
Proof. induction 1; simpl; lia. Qed.

Lemma at_priority_nonneg p fs : (0 ≤ at_priority p fs)%Z.
Proof. unfold at_priority. case_bool_decide; lia. Qed.

Lemma flows_at_pos key fs flows :
  flows !! key = Some fs → fs_key fs = key → (0 < flows_at (fk_Priority key) flows)%Z.
Proof.
  intros Hfs Hk. unfold flows_at. rewrite (sum_map_delete _ _ key fs) by done.
  pose proof (sum_map_nonneg (at_priority (fk_Priority key)) (delete key flows) (at_priority_nonneg _)).
  unfold at_priority at 1. rewrite bool_decide_eq_true_2 by by rewrite Hk. lia.
Qed.

Section pin.
Context {K V : Type} `{!EqDecision K} `{!Countable K} `{!Leasable V}.

Lemma pin_hit createFn k (m : gmap K V) v :
  m !! k = Some v → ls_markedForDeletion (lease v) = false →
  let v' := set_lease (mkLeasedState (ls_leaseCount (lease v) + 1) None false) v in
  pinLeasedResource createFn k m = Some (v', false, <[k := v']> m).
Proof using Type. intros Hv Hm. unfold pinLeasedResource, tryPin. by rewrite Hv, Hm. Qed.

Lemma pin_miss createFn k (m : gmap K V) :
  m !! k = None → lease createFn = newLeasedState →
  let v' := set_lease (mkLeasedState 1 None false) createFn in
  pinLeasedResource createFn k m = Some (v', true, <[k := v']> m).
Proof using Type. intros Hv Hm. unfold pinLeasedResource, tryPin. by rewrite Hv, Hm. Qed.
End pin.

(** Entering an existing flow. *)
Lemma leases_enter flows bands next open key fs now
    (fs' := set_lease (mkLeasedState (ls_leaseCount (fs_lease fs) + 1) None false) fs) :
  leases flows bands next open → flows !! key = Some fs →
  leases (<[key := fs']> flows) bands next (mkConnection key (fs_ptr fs) now :: open).
Proof.
  intros [L1 L2 L3 L4 L5] Hfs. destruct (L1 key fs Hfs) as (F1 & F2 & F3 & F4 & F5).
  split.
  - intros k f. rewrite lookup_insert. case_decide as E.
    + intros [= <-]. subst k. simpl. rewrite bool_decide_eq_true_2 by done. split_and!; try done. lia.
    + intros Hf. destruct (L1 k f Hf) as (? & ? & ? & Hc & ?). split_and!; try done. simpl.
      rewrite bool_decide_eq_false_2; [lia|]. intros Hp. apply E. by eapply L2.
  - intros k1 k2 f1 f2. rewrite !lookup_insert. case_decide; case_decide; [congruence|..].
    + intros [= <-] H2. simpl. intros E. apply (L2 k1 k2 fs f2); congruence.
    + intros H1 [= <-]. simpl. intros E. apply (L2 k1 k2 f1 fs); congruence.
    + apply L2.
  - intros c [->|Hc]%elem_of_cons; simpl.
    + rewrite lookup_insert_eq. eauto.
    + destruct (L3 c Hc) as (f & Hf & Hp). rewrite lookup_insert. case_decide as E; [|eauto].
      eexists. split; [done|]. simpl. congruence.
  - intros p bs Hb. destruct (L4 p bs Hb) as (? & ? & Hc). split_and!; try done. rewrite Hc.
    unfold flows_at. rewrite (sum_map_update _ _ _ _ fs) by done.
    change (at_priority p fs') with (at_priority p fs). lia.
  - intros k. rewrite lookup_insert. case_decide; [|apply L5]. subst. intros _. apply L5. eauto.
Qed.

(** Entering a new flow, whose state object is [next]. *)
Lemma leases_enter_new flows bands next open key now bs'
    (fs := mkFlowState next (mkLeasedState 1 None false) key (Some None)) :
  leases flows bands next open → flows !! key = None →
  ps_priority bs' = fk_Priority key → ls_markedForDeletion (ps_lease bs') = false →
  ls_leaseCount (ps_lease bs') = (flows_at (fk_Priority key) flows + 1)%Z →
  leases (<[key := fs]> flows) (<[fk_Priority key := bs']> bands) (Pos.succ next)
    (mkConnection key next now :: open).
Proof.
  intros [L1 L2 L3 L4 L5] Hnew B1 B2 B3.
  assert (∀ k f, flows !! k = Some f → fs_ptr f ≠ next) as Hfresh.
  { intros k f Hf E. destruct (L1 k f Hf) as (_ & _ & _ & _ & H). rewrite E in H. by apply Pos.lt_irrefl in H. }
  assert (∀ c, c ∈ open → conn_state c ≠ next) as Hopen.
  { intros c Hc E. destruct (L3 c Hc) as (f & Hf & Hp). apply (Hfresh _ _ Hf). congruence. }
  assert (∀ p, flows_at p (<[key := fs]> flows)
    = (flows_at p flows + if bool_decide (fk_Priority key = p) then 1 else 0)%Z) as Hat.
  { intros p. unfold flows_at. rewrite sum_map_insert by done. unfold at_priority at 1. simpl. lia. }
  split.
  - intros k f. rewrite lookup_insert. case_decide as E.
    + intros [= <-]. simpl. rewrite bool_decide_eq_true_2, conns_none by done. split_and!; try done. lia.
    + intros Hf. destruct (L1 k f Hf) as (? & ? & ? & Hc & ?). split_and!; try done; [|lia]. simpl.
      rewrite bool_decide_eq_false_2; [lia|]. intros Hp. by apply (Hfresh k f).
  - intros k1 k2 f1 f2. rewrite !lookup_insert. case_decide; case_decide; [congruence|..].
    + intros [= <-] H2 E. simpl in E. exfalso. by apply (Hfresh k2 f2).
    + intros H1 [= <-] E. simpl in E. exfalso. by apply (Hfresh k1 f1).
    + apply L2.
  - intros c [->|Hc]%elem_of_cons; simpl.
    + rewrite lookup_insert_eq. eauto.
    + destruct (L3 c Hc) as (f & Hf & Hp). rewrite lookup_insert_ne; [eauto|congruence].
  - intros p bs. rewrite lookup_insert, Hat. case_decide as E.
    + intros [= <-]. rewrite bool_decide_eq_true_2 by done. subst p. done.
    + intros Hb. rewrite bool_decide_eq_false_2 by done. destruct (L4 p bs Hb) as (? & ? & ->).
      split_and!; try done. lia.
  - intros k Hk. rewrite lookup_insert. case_decide as E; [done|]. apply L5.
    rewrite lookup_insert_ne in Hk; [done|congruence].
Qed.

(** Pinning the band of a new flow. *)
Lemma pin_band_spec flows next open p fr :
  leases flows (fr_priorityBandStates fr) next open →
  (∀ k, is_Some (flows !! k) → fk_Priority k = p → is_Some (fr_priorityBandStates fr !! p)) →
  wp (pin_band p) (λ _ fr', ∃ bs', fr' = fr_with_bands (<[p := bs']> (fr_priorityBandStates fr)) fr ∧
    ps_priority bs' = p ∧ ls_markedForDeletion (ps_lease bs') = false ∧
    ls_leaseCount (ps_lease bs') = (flows_at p flows + 1)%Z) fr.
Proof.
  intros [L1 _ _ L4 _] Htr. unfold wp, pin_band. destruct (fr_priorityBandStates fr !! p) as [bs|] eqn:E.
  - destruct (L4 p bs E) as (H1 & H2 & H3). rewrite (pin_hit _ _ _ bs) by done.
    eexists. split_and!; try done. simpl. lia.
  - rewrite pin_miss by done. eexists. split_and!; try done. simpl.
    assert (flows_at p flows = 0)%Z as ->; [|done].
    apply sum_map_zero. intros k f Hf. unfold at_priority. rewrite bool_decide_eq_false_2; [done|].
    destruct (L1 k f Hf) as (-> & _). intros Hp. destruct (Htr k) as [? ?]; [eauto|done|congruence].
Qed.

(** ** Connections *)

Lemma enter_existing fr st open key fs now :
  registry_inv fr st open → fk_ID key ≠ EmptyString → fr_flowStates fr !! key = Some fs →
  wp (enter key now) (λ r '(fr', st'), r = inl (mkConnection key (fs_ptr fs) now) ∧ st' = st ∧
    registry_inv fr' st' (mkConnection key (fs_ptr fs) now :: open) ∧ fr_shard fr' = fr_shard fr) (fr, st).
Proof.
  intros [Ht Hl Hq Hb] Hid Hfs. destruct (le_flow _ _ _ _ Hl key fs Hfs) as (F1 & F2 & F3 & F4 & F5).
  unfold enter. rewrite bool_decide_eq_false_2 by done.
  apply wp_bind, wp_on_registry. unfold wp at 1, pin_flow. rewrite (pin_hit _ _ _ fs) by done.
  apply wp_bind, wp_ret, wp_bind. cbn [set_lease flowState_leasable fs_init fs_ptr]. rewrite F2.
  apply wp_ret, wp_ret. split_and!; try done. split; try done.
  - pose proof (leases_enter _ _ _ _ key fs now Hl Hfs) as H.
    cbn [set_lease flowState_leasable] in H. by rewrite F2 in H.
  - intros k. rewrite <- Hq. simpl. rewrite lookup_insert. case_decide; [subst; rewrite Hfs|]; naive_solver.
Qed.

Lemma enter_new fr st open key now (conn := mkConnection key (fr_nextPtr fr) now) :
  registry_inv fr st open → fk_ID key ≠ EmptyString → fr_flowStates fr !! key = None →
  wp (enter key now) (λ r '(fr', st'), r = inl conn ∧ registry_inv fr' st' (conn :: open) ∧
    same_items (fr_shard fr) (fr_shard fr')) (fr, st).
Proof.
  intros [Ht Hl Hq Hb] Hid Hfs. unfold enter. rewrite bool_decide_eq_false_2 by done.
  apply wp_bind, wp_on_registry. unfold wp at 1, pin_flow. rewrite pin_miss by done.
  apply wp_bind, wp_on_registry. set (fr1 := mkFlowRegistry _ _ _ _ _ _).
  eapply wp_mono.
  { apply (pin_band_spec (fr_flowStates fr) (fr_nextPtr fr) open); [exact Hl|].
    intros k Hk <-. by apply (le_tracked _ _ _ _ Hl). }
  intros [] fr2 (bs' & -> & B1 & B2 & B3).
  set (fr2 := fr_with_bands (<[fk_Priority key := bs']> (fr_priorityBandStates fr1)) fr1).
  apply wp_bind. cbn [set_lease flowState_leasable fs_init fs_ptr]. apply wp_bind.
  eapply wp_mono.
  { apply (ensureFlowInfrastructure_spec fr2 st key); [exact Ht|]. simpl. rewrite lookup_insert_eq. eauto. }
  intros err [fr3 st3] (-> & Ht3 & [S1 S2 S3] & Hp & Hmono & Hsi & Hq3).
  apply wp_bind, wp_on_registry, wp_modify, wp_ret, wp_ret. split; [done|]. split; [|exact Hsi].
  split; [exact Ht3|..]; simpl; rewrite ?S1, ?S2, ?S3; simpl.
  - rewrite insert_insert_eq. by apply leases_enter_new.
  - intros k. rewrite Hq3, insert_insert_eq, lookup_insert. simpl. rewrite <- Hq.
    case_decide; naive_solver.
  - intros p. rewrite lookup_insert. case_decide; [by subst|]. intros Hs. by apply Hmono, Hb.
Qed.

Lemma enter_spec fr st open key now :
  registry_inv fr st open → fk_ID key ≠ EmptyString →
  wp (enter key now) (λ r '(fr', st'), ∃ conn, r = inl conn ∧ conn_key conn = key ∧ conn_now conn = now ∧
    registry_inv fr' st' (conn :: open) ∧ same_items (fr_shard fr) (fr_shard fr')) (fr, st).
Proof.
  intros Hinv Hid. destruct (fr_flowStates fr !! key) as [fs|] eqn:Hfs.
  - eapply wp_mono; [by eapply enter_existing|]. intros r [fr' st'] (-> & -> & H & E).
    eexists. split_and!; try done. by rewrite E; apply same_items_iff.
  - eapply wp_mono; [by eapply enter_new|]. intros r [fr' st'] (-> & H & E). by eexists.
Qed.

Lemma leases_leave flows bands next open c fs now :
  leases flows bands next (c :: open) → flows !! conn_key c = Some fs → fs_ptr fs = conn_state c →
  leases (<[conn_key c := set_lease (unpin now (fs_lease fs)) fs]> flows) bands next open.
Proof.
  intros [L1 L2 L3 L4 L5] Hfs Hp. split.
  - intros k f. rewrite lookup_insert. case_decide as E.
    + intros [= <-]. subst k. destruct (L1 _ _ Hfs) as (F1 & F2 & F3 & F4 & F5). simpl in *.
      rewrite bool_decide_eq_true_2 in F4 by done. split_and!; try done. lia.
    + intros Hf. destruct (L1 k f Hf) as (? & ? & ? & Hc & ?). split_and!; try done. simpl in Hc.
      rewrite bool_decide_eq_false_2 in Hc; [done|]. intros Hp'. apply E. eapply (L2 _ _ fs f); congruence.
  - intros k1 k2 f1 f2. rewrite !lookup_insert. case_decide; case_decide; [congruence|..].
    + intros [= <-] H2. simpl. intros E. apply (L2 k1 k2 fs f2); congruence.
    + intros H1 [= <-]. simpl. intros E. apply (L2 k1 k2 f1 fs); congruence.
    + apply L2.
  - intros c' Hc. destruct (L3 c') as (f & Hf & Hpf); [set_solver|]. rewrite lookup_insert.
    case_decide as E; [|eauto]. eexists. split; [done|]. simpl. congruence.
  - intros p bs Hb. destruct (L4 p bs Hb) as (? & ? & Hc). split_and!; try done. rewrite Hc.
    unfold flows_at. rewrite (sum_map_update _ _ _ _ fs) by done.
    change (at_priority p (set_lease _ fs)) with (at_priority p fs). lia.
  - intros k. rewrite lookup_insert. case_decide; [|apply L5]. subst. intros _. apply L5. eauto.
Qed.

Lemma leases_Permutation flows bands next o1 o2 :
  o1 ≡ₚ o2 → leases flows bands next o1 → leases flows bands next o2.
Proof.
  intros HP [L1 L2 L3 L4 L5]. split; try done.
  - intros k f Hf. rewrite <- (conns_Permutation _ _ _ HP). by apply L1.
  - intros c. rewrite <- HP. apply L3.
Qed.

Lemma registry_inv_Permutation fr st o1 o2 : o1 ≡ₚ o2 → registry_inv fr st o1 → registry_inv fr st o2.
Proof. intros HP [H1 H2 H3 H4]. split; try done. by eapply leases_Permutation. Qed.

Lemma leave_spec fr st open c :
  registry_inv fr st (c :: open) → registry_inv (leave c fr) st open.
Proof.
  intros [Ht Hl Hq Hb]. destruct (le_open _ _ _ _ Hl c) as (fs & Hfs & Hp); [set_solver|].
  unfold leave. rewrite Hfs, bool_decide_eq_true_2 by done. split; try done.
  - by apply leases_leave.
  - intros k. rewrite <- Hq. simpl. rewrite lookup_insert. case_decide; [subst; rewrite Hfs|]; naive_solver.
Qed.

(** ** Garbage collection *)

Section collect.
Context {K V : Type} `{!EqDecision K} `{!Countable K} `{!Leasable V} (timeout now : Z).

Definition expired (v : V) : bool := (checkAndMarkForDeletion timeout now (lease v)).1.
Definition checked (v : V) : V := set_lease (checkAndMarkForDeletion timeout now (lease v)).2 v.

Lemma collect_loop_unfold k v (l : list (K * V)) m :
  collect_loop timeout now ((k, v) :: l) m =
  if expired v then
    (checked v :: (collect_loop timeout now l (delete k m)).1, (collect_loop timeout now l (delete k m)).2)
  else collect_loop timeout now l (<[k := checked v]> m).
Proof using Type.
  unfold expired, checked. simpl. destruct (checkAndMarkForDeletion timeout now (lease v)) as [[] ls]; [|done].
  simpl. by destruct (collect_loop timeout now l (delete k m)).
Qed.

Lemma collect_loop_deleted (l : list (K * V)) : ∀ m,
  (collect_loop timeout now l m).1 = checked <$> List.filter expired l.*2.
Proof using Type.
  induction l as [|[k v] l IH]; intros m; [done|]. rewrite collect_loop_unfold. simpl.
  destruct (expired v); simpl; by rewrite IH.
Qed.

Lemma collect_loop_lookup (l : list (K * V)) : ∀ m k,
  NoDup l.*1 → (∀ k v, (k, v) ∈ l → m !! k = Some v) →
  (collect_loop timeout now l m).2 !! k =
  if bool_decide (k ∈ l.*1) then
    v ← m !! k; if expired v then None else Some (checked v)
  else m !! k.
Proof using Type.
  induction l as [|[k0 v0] l IH]; intros m k Hnd Hin; [done|].
  rewrite fmap_cons in *. apply NoDup_cons in Hnd as [Hk0 Hnd]. simpl in Hk0.
  assert (m !! k0 = Some v0) as Hv0 by (apply Hin; set_solver).
  assert (∀ m' : gmap K V, (∀ k', k' ≠ k0 → m' !! k' = m !! k') → ∀ k' v', (k', v') ∈ l → m' !! k' = Some v') as Hin'.
  { intros m' Hm' k' v' Hkv. rewrite Hm'; [apply Hin; set_solver|]. intros ->. apply Hk0.
    apply list_elem_of_fmap. by exists (k0, v'). }
  rewrite collect_loop_unfold. destruct (expired v0) eqn:E; simpl.
  - rewrite IH; [|done|apply Hin'; intros; by apply lookup_delete_ne].
    destruct (decide (k = k0)) as [->|Hne].
    + rewrite bool_decide_eq_false_2, (bool_decide_eq_true_2 (_ ∈ _ :: _)) by set_solver.
      rewrite lookup_delete_eq, Hv0. simpl. by rewrite E.
    + rewrite lookup_delete_ne by done.
      by rewrite (bool_decide_ext (k ∈ k0 :: l.*1) (k ∈ l.*1)) by set_solver.
  - rewrite IH; [|done|apply Hin'; intros; by apply lookup_insert_ne].
    destruct (decide (k = k0)) as [->|Hne].
    + rewrite bool_decide_eq_false_2, (bool_decide_eq_true_2 (_ ∈ _ :: _)) by set_solver.
      rewrite lookup_insert_eq, Hv0. simpl. by rewrite E.
    + rewrite lookup_insert_ne by done.
      by rewrite (bool_decide_ext (k ∈ k0 :: l.*1) (k ∈ l.*1)) by set_solver.
Qed.

(** What stays in the map. *)
Lemma collect_lookup (m : gmap K V) k :
  (collectLeasedResources timeout now m).2 !! k =
  v ← m !! k; if expired v then None else Some (checked v).
Proof using Type.
  unfold collectLeasedResources. rewrite collect_loop_lookup; [|apply NoDup_fst_map_to_list|].
  - destruct (m !! k) as [v|] eqn:E; [|by case_bool_decide]. rewrite bool_decide_eq_true_2; [done|].
    apply list_elem_of_fmap. exists (k, v). split; [done|]. by apply elem_of_map_to_list.
  - by intros k' v Hin%elem_of_map_to_list.
Qed.

(** What is returned for cleanup. *)
Lemma collect_deleted (m : gmap K V) v' :
  v' ∈ (collectLeasedResources timeout now m).1 ↔
  ∃ k v, m !! k = Some v ∧ expired v = true ∧ v' = checked v.
Proof using Type.
  unfold collectLeasedResources. rewrite collect_loop_deleted, list_elem_of_fmap. split.
  - intros (v & -> & Hv). apply list_elem_of_In, filter_In in Hv as [Hv He].
    apply list_elem_of_In, list_elem_of_fmap in Hv as ([k v0] & -> & Hin%elem_of_map_to_list). eauto.
  - intros (k & v & Hk & He & ->). exists v. split; [done|]. apply list_elem_of_In, filter_In. split; [|done].
    apply list_elem_of_In, list_elem_of_fmap. exists (k, v). split; [done|]. by apply elem_of_map_to_list.
Qed.

Lemma collect_sum (f : V → Z) (m : gmap K V) :
  (∀ ls v, f (set_lease ls v) = f v) →
  sum_map f m = (sum_map f (collectLeasedResources timeout now m).2 +
    foldr (λ v n, f v + n) 0 (collectLeasedResources timeout now m).1)%Z.
Proof using Type.
  intros Hf. unfold collectLeasedResources.
  assert (∀ (l : list (K * V)) (m : gmap K V), NoDup l.*1 → (∀ k v, (k, v) ∈ l → m !! k = Some v) →
    sum_map f m = (sum_map f (collect_loop timeout now l m).2 +
      foldr (λ v n, f v + n) 0 (collect_loop timeout now l m).1)%Z) as H.
  { clear m. induction l as [|[k v] l IH]; intros m Hnd Hin; [simpl; lia|].
    rewrite fmap_cons in Hnd. apply NoDup_cons in Hnd as [Hk Hnd]. simpl in Hk.
    assert (m !! k = Some v) as Hv by (apply Hin; set_solver).
    assert (∀ k' v', (k', v') ∈ l → k ≠ k') as Hne.
    { intros k' v' Hkv ->. apply Hk. apply list_elem_of_fmap. by exists (k', v'). }
    assert (f (checked v) = f v) as Ec by apply Hf.
    rewrite collect_loop_unfold. destruct (expired v).
    - simpl. rewrite (sum_map_delete _ _ k v) by done. rewrite (IH (delete k m)); [|done|].
      + rewrite Ec. lia.
      + intros k' v' Hkv. rewrite lookup_delete_ne by by eapply Hne. apply Hin. set_solver.
    - rewrite <- (IH (<[k := checked v]> m)); [|done|].
      + rewrite (sum_map_update _ _ _ _ v), Ec by done. lia.
      + intros k' v' Hkv. rewrite lookup_insert_ne by by eapply Hne. apply Hin. set_solver. }
  apply H; [apply NoDup_fst_map_to_list|]. by intros k v Hin%elem_of_map_to_list.
Qed.
End collect.

Lemma check_expired timeout now ls :
  (checkAndMarkForDeletion timeout now ls).1 = true ↔
  (ls_leaseCount ls ≤ 0)%Z ∧ ∃ t, ls_becameIdleAt ls = Some t ∧ (timeout ≤ now - t)%Z.
Proof.
  unfold checkAndMarkForDeletion. case_bool_decide; simpl.
  - split; [done|]. intros [? _]. lia.
  - destruct (ls_becameIdleAt ls) as [t|]; simpl.
    + case_bool_decide; simpl; split; try done; [intros (_ & ? & [= <-] & ?); lia|].
      intros _. split; [lia|]. exists t. split; [done|lia].
    + split; [done|]. by intros (_ & t & ? & _).
Qed.

Lemma check_kept timeout now ls :
  (checkAndMarkForDeletion timeout now ls).1 = false →
  ls_leaseCount (checkAndMarkForDeletion timeout now ls).2 = ls_leaseCount ls ∧
  ls_markedForDeletion (checkAndMarkForDeletion timeout now ls).2 = ls_markedForDeletion ls.
Proof.
  unfold checkAndMarkForDeletion. case_bool_decide; [done|]. destruct (ls_becameIdleAt ls); [|done].
  by case_bool_decide.
Qed.

(** Releasing the bands of the collected flows. *)
Definition unpin_flow_bands (now : Z) (vs : list flowState) (fr : FlowRegistry) : FlowRegistry :=
  foldl (λ fr v, unpin_band (fk_Priority (fs_key v)) now fr) fr vs.

Lemma unpin_flow_bands_spec now vs : ∀ fr,
  ∃ bands', unpin_flow_bands now vs fr = fr_with_bands bands' fr ∧
  ∀ p, match fr_priorityBandStates fr !! p, bands' !! p with
       | None, None => True
       | Some bs, Some bs' => ps_priority bs' = ps_priority bs ∧
           ls_markedForDeletion (ps_lease bs') = ls_markedForDeletion (ps_lease bs) ∧
           ls_leaseCount (ps_lease bs') =
             (ls_leaseCount (ps_lease bs) - foldr (λ v n, at_priority p v + n) 0 vs)%Z
       | _, _ => False
       end.
Proof.
  induction vs as [|v vs IH]; intros fr; cbn [foldr].
  - exists (fr_priorityBandStates fr). split; [by destruct fr|]. intros p.
    destruct (fr_priorityBandStates fr !! p); [|done]. split_and!; [done..|lia].
  - set (q := fk_Priority (fs_key v)).
    change (unpin_flow_bands now (v :: vs) fr) with (unpin_flow_bands now vs (unpin_band q now fr)).
    unfold unpin_band.
    destruct (fr_priorityBandStates fr !! q) as [b|] eqn:Hq.
    + set (fr1 := fr_with_bands _ fr). destruct (IH fr1) as (bands' & E & Hp).
      exists bands'. split; [exact E|]. intros p. specialize (Hp p). simpl in Hp.
      rewrite lookup_insert in Hp. unfold at_priority at 1. case_decide as Ep.
      * subst p. rewrite Hq. destruct (bands' !! q); [|done]. simpl in Hp. destruct Hp as (? & ? & ?).
        rewrite bool_decide_eq_true_2 by done. split_and!; [done..|lia].
      * rewrite bool_decide_eq_false_2 by done. done.
    + destruct (IH fr) as (bands' & E & Hp). exists bands'. split; [exact E|]. intros p. specialize (Hp p).
      unfold at_priority at 1. case_bool_decide as Ep; [|done]. fold q in Ep. subst p. by rewrite Hq in *.
Qed.

Lemma topology_deleteFlow c rs s st key :
  topology c rs s st → (∀ mq, queue_at s key mq → mq_contents mq = []) →
  topology c rs (deleteFlow key s) st ∧
  ∀ key' mq, queue_at (deleteFlow key s) key' mq ↔ key' ≠ key ∧ queue_at s key' mq.
Proof.
  intros [T1 T2 T3 T4 T5 T6 T7 T8 T9 T10 T11] He. pose proof (deleteFlow_wf s st key T2 He) as Hwf.
  unfold deleteFlow in *. destruct (sh_priorityBands s !! fk_Priority key) as [b|] eqn:Hb.
  2:{ split; [done|]. intros key' mq. split; [|naive_solver]. intros Hq. split; [|done].
      intros ->. destruct Hq as (b & Hb' & _). congruence. }
  split.
  - split; try done; simpl; intros p; rewrite lookup_insert; case_decide; try done; subst p.
    + by rewrite T7, Hb.
    + by rewrite T10, Hb.
  - intros key' mq. unfold queue_at. simpl. setoid_rewrite lookup_insert.
    destruct (decide (fk_Priority key = fk_Priority key')) as [E|E]; [|naive_solver].
    split.
    + intros (b' & [= <-] & Hmq). simpl in Hmq. apply lookup_delete_Some in Hmq as [Hne Hmq].
      split; [congruence|]. exists b. by rewrite <- E.
    + intros (Hne & b' & Hb' & Hmq). rewrite <- E, Hb in Hb'. injection Hb' as <-. eexists. split; [done|].
      simpl. rewrite lookup_delete_ne; [done|]. intros E2. apply Hne. destruct key, key'; simpl in *; congruence.
Qed.

Lemma cleanupFlowResources_spec keys : ∀ fr st,
  fr_topology fr st → (∀ k mq, k ∈ keys → queue_at (fr_shard fr) k mq → mq_contents mq = []) →
  (∀ k, k ∈ keys → fr_flowStates fr !! k = None) →
  fr_topology (cleanupFlowResources keys fr) st ∧ same_leases fr (cleanupFlowResources keys fr) ∧
  fr_config (cleanupFlowResources keys fr) = fr_config fr ∧
  ∀ k mq, queue_at (fr_shard (cleanupFlowResources keys fr)) k mq ↔ (k ∉ keys) ∧ queue_at (fr_shard fr) k mq.
Proof.
  induction keys as [|key keys IH]; intros fr st Ht He Hgone.
  { split_and!; [done|by split|done|]. intros k mq. simpl. rewrite elem_of_nil. naive_solver. }
  change (cleanupFlowResources (key :: keys) fr) with (cleanupFlowResources keys (cleanup_flow key fr)).
  unfold cleanup_flow. rewrite (Hgone key) by set_solver.
  destruct (topology_deleteFlow _ _ _ _ key Ht) as [Ht1 Hq1]; [intros mq; apply He; set_solver|].
  destruct (IH (fr_with_shard (deleteFlow key (fr_shard fr)) fr) st) as (Ht2 & [S1 S2 S3] & Hc & Hq2).
  - exact Ht1.
  - intros k mq Hk [_ Hq]%Hq1. apply (He k); [set_solver|done].
  - intros k Hk. apply Hgone. set_solver.
  - split_and!; [exact Ht2|by split|exact Hc|]. intros k mq. rewrite Hq2. cbn [fr_with_shard fr_shard].
    rewrite Hq1, not_elem_of_cons. naive_solver.
Qed.

(** No flow that is due for collection has queued items. *)
Definition gc_quiet (now : Z) (fr : FlowRegistry) : Prop :=
  ∀ key fs mq, fr_flowStates fr !! key = Some fs →
    expired (cfg_FlowGCTimeout (fr_config fr)) now fs = true →
    queue_at (fr_shard fr) key mq → mq_contents mq = [].

Lemma gcFlows_eq now fr
    (collected := collectLeasedResources (cfg_FlowGCTimeout (fr_config fr)) now (fr_flowStates fr)) :
  gcFlows now fr = cleanupFlowResources (fs_key <$> collected.1)
    (unpin_flow_bands now collected.1 (fr_with_flows collected.2 fr)).
Proof. unfold gcFlows. fold collected. destruct collected as [[|v vs] m]; done. Qed.

Lemma leases_collect timeout now flows bands next open bands'
    (collected := collectLeasedResources timeout now flows) :
  leases flows bands next open →
  (∀ p, match bands !! p, bands' !! p with
        | None, None => True
        | Some bs, Some bs' => ps_priority bs' = ps_priority bs ∧
            ls_markedForDeletion (ps_lease bs') = ls_markedForDeletion (ps_lease bs) ∧
            ls_leaseCount (ps_lease bs') =
              (ls_leaseCount (ps_lease bs) - foldr (λ v n, at_priority p v + n) 0 collected.1)%Z
        | _, _ => False
        end) →
  leases collected.2 bands' next open.
Proof.
  intros [L1 L2 L3 L4 L5] Hb.
  assert (∀ k f', collected.2 !! k = Some f' → ∃ f, flows !! k = Some f ∧ expired timeout now f = false ∧
    f' = checked timeout now f) as Hinv.
  { intros k f'. unfold collected. rewrite collect_lookup. destruct (flows !! k) as [f|]; [|done]. simpl.
    destruct (expired timeout now f) eqn:E; [done|]. intros [= <-]. eauto. }
  split.
  - intros k f' (f & Hf & He & ->)%Hinv. destruct (L1 k f Hf) as (F1 & F2 & F3 & F4 & F5).
    destruct (check_kept _ _ _ He) as [E1 E2]. unfold checked. simpl in *. by rewrite E1, E2.
  - intros k1 k2 f1 f2 (g1 & H1 & _ & ->)%Hinv (g2 & H2 & _ & ->)%Hinv. intros E. exact (L2 k1 k2 g1 g2 H1 H2 E).
  - intros c Hc. destruct (L3 c Hc) as (f & Hf & Hp). destruct (L1 _ f Hf) as (_ & _ & _ & Hcnt & _).
    exists (checked timeout now f). split; [|done]. unfold collected. rewrite collect_lookup, Hf. simpl.
    destruct (expired timeout now f) eqn:E; [|done]. apply check_expired in E as [Hle _]. simpl in Hle.
    pose proof (conns_in c open Hc) as Hpos. rewrite <- Hp in Hpos. lia.
  - intros p bs' Hbs'. specialize (Hb p). rewrite Hbs' in Hb.
    destruct (bands !! p) as [bs|] eqn:Hbs; [|done]. destruct Hb as (B1 & B2 & B3).
    destruct (L4 p bs Hbs) as (? & ? & Hc). split_and!; [congruence..|].
    rewrite B3, Hc. unfold flows_at. rewrite (collect_sum timeout now (at_priority p) flows) by done.
    fold collected. lia.
  - intros k [f' (f & Hf & _)%Hinv]. destruct (L5 k) as [bs Hbs]; [eauto|].
    specialize (Hb (fk_Priority k)). rewrite Hbs in Hb. by destruct (bands' !! fk_Priority k).
Qed.

Lemma gcFlows_spec now fr st open :
  registry_inv fr st open → gc_quiet now fr →
  registry_inv (gcFlows now fr) st open ∧ same_items (fr_shard fr) (fr_shard (gcFlows now fr)) ∧
  fr_config (gcFlows now fr) = fr_config fr ∧
  ∀ k, fr_flowStates (gcFlows now fr) !! k =
    v ← fr_flowStates fr !! k;
    if expired (cfg_FlowGCTimeout (fr_config fr)) now v then None
    else Some (checked (cfg_FlowGCTimeout (fr_config fr)) now v).
Proof.
  intros [Ht Hl Hq Hb] Hquiet. rewrite gcFlows_eq. set (timeout := cfg_FlowGCTimeout (fr_config fr)).
  set (collected := collectLeasedResources timeout now (fr_flowStates fr)).
  destruct (unpin_flow_bands_spec now collected.1 (fr_with_flows collected.2 fr)) as (bands' & -> & Hbands).
  assert (∀ k, k ∈ fs_key <$> collected.1 ↔ ∃ f, fr_flowStates fr !! k = Some f ∧ expired timeout now f = true)
    as Hkeys.
  { intros k. rewrite list_elem_of_fmap. unfold collected. setoid_rewrite collect_deleted. split.
    - intros (f' & -> & k' & f & Hf & He & ->). exists f. split; [|done]. simpl.
      by destruct (le_flow _ _ _ _ Hl k' f Hf) as (-> & _).
    - intros (f & Hf & He). exists (checked timeout now f). split; [|eauto]. simpl.
      by destruct (le_flow _ _ _ _ Hl k f Hf) as (-> & _). }
  destruct (cleanupFlowResources_spec (fs_key <$> collected.1)
    (fr_with_bands bands' (fr_with_flows collected.2 fr)) st) as (Ht' & [S1 S2 S3] & Hc & Hq').
  - exact Ht.
  - intros k mq (f & Hf & He)%Hkeys Hmq. by apply (Hquiet k f).
  - intros k (f & Hf & He)%Hkeys. simpl. unfold collected. rewrite collect_lookup, Hf. simpl. by rewrite He.
  - simpl in S1, S2, S3. split; [split|split; [|split]]; [exact Ht'| | | | |exact Hc|].
    + rewrite S1, S2, S3. by eapply leases_collect.
    + intros k. rewrite S1. unfold collected. rewrite collect_lookup. specialize (Hq k).
      destruct (fr_flowStates fr !! k) as [f|] eqn:Hk; simpl.
      * destruct Hq as [[mq Hmq] _]; [eauto|]. destruct (expired timeout now f) eqn:E.
        { split; [by intros []|]. intros (mq' & [Hn _]%Hq'). exfalso. apply Hn, Hkeys. eauto. }
        split; [|eauto]. intros _. exists mq. apply Hq'. split; [|exact Hmq].
        intros (f' & Hf' & He)%Hkeys. congruence.
      * split; [by intros []|]. intros (mq & [_ Hmq]%Hq'). destruct Hq as [_ Hq]. apply Hq. by exists mq.
    + intros p. rewrite S2, Hc. simpl. intros [bs Hbs]. specialize (Hbands p). rewrite Hbs in Hbands.
      simpl in Hbands. apply Hb. by destruct (fr_priorityBandStates fr !! p).
    + split; intros k mq Hmq.
      * destruct (decide (k ∈ fs_key <$> collected.1)) as [Hin|Hin]; [right|left; by apply Hq'].
        apply Hkeys in Hin as (f & Hf & He). by apply (Hquiet k f).
      * left. by apply Hq' in Hmq as [_ Hmq].
    + intros k. rewrite S1. apply collect_lookup.
Qed.

(** Deleting a band without flows. *)
Lemma topology_delete_band c rs s st p
    (c' := with_bands (delete p (cfg_PriorityBands c)) c)
    (rs' := rs_with_bands (delete p (rs_perPriorityBandStats rs)) rs) :
  topology c rs s st → (∀ key mq, queue_at s key mq → fk_Priority key ≠ p) →
  topology c' rs' (Shard.deletePriorityBand p s) st ∧
  ∀ key mq, queue_at (Shard.deletePriorityBand p s) key mq ↔ queue_at s key mq.
Proof.
  intros [T1 T2 T3 T4 T5 T6 T7 T8 T9 T10 T11] Hno.
  assert (∀ key mq, queue_at (Shard.deletePriorityBand p s) key mq ↔ queue_at s key mq) as Hq.
  { intros key mq. split.
    - intros (b & Hb & Hmq). simpl in Hb. apply lookup_delete_Some in Hb as [_ Hb]. by exists b.
    - intros Hq. pose proof (Hno _ _ Hq) as Hp. destruct Hq as (b & Hb & Hmq). exists b. simpl.
      rewrite lookup_delete_ne; [done|congruence]. }
  split; [|done]. split; try done; simpl.
  - apply deletePriorityBand_wf; [done|]. intros b Hb id mq Hmq. exfalso.
    apply (Hno (mkFlowKey id p) mq); [by exists b|done].
  - by apply config_ok_delete.
  - by rewrite T4.
  - intros q. rewrite !lookup_delete. case_decide; [done|apply T7].
  - intros q. rewrite !lookup_delete. case_decide; [done|apply T10].
Qed.

Lemma cleanupPriorityBandResources_spec ps : ∀ fr st,
  fr_topology fr st → (∀ key mq, queue_at (fr_shard fr) key mq → fk_Priority key ∉ ps) →
  (∀ p, p ∈ ps → fr_priorityBandStates fr !! p = None) →
  fr_topology (cleanupPriorityBandResources ps fr) st ∧
  same_leases fr (cleanupPriorityBandResources ps fr) ∧
  (∀ p, cfg_PriorityBands (fr_config (cleanupPriorityBandResources ps fr)) !! p =
    if bool_decide (p ∈ ps) then None else cfg_PriorityBands (fr_config fr) !! p) ∧
  ∀ k mq, queue_at (fr_shard (cleanupPriorityBandResources ps fr)) k mq ↔ queue_at (fr_shard fr) k mq.
Proof.
  induction ps as [|p ps IH]; intros fr st Ht Hno Hgone.
  { split_and!; [done|by split|done|done]. }
  change (cleanupPriorityBandResources (p :: ps) fr) with (cleanupPriorityBandResources ps (cleanup_band p fr)).
  unfold cleanup_band. rewrite (Hgone p) by set_solver.
  destruct (topology_delete_band _ _ _ _ p Ht) as [Ht1 Hq1].
  { intros key mq Hq E. apply (Hno _ _ Hq). rewrite E. set_solver. }
  set (fr1 := mkFlowRegistry _ _ _ _ _ _).
  destruct (IH fr1 st) as (Ht2 & [S1 S2 S3] & Hc & Hq2).
  - exact Ht1.
  - intros k mq Hq%Hq1 Hin. apply (Hno _ _ Hq). set_solver.
  - intros q Hq. apply Hgone. set_solver.
  - split_and!; [exact Ht2|by split| |].
    + intros q. rewrite Hc. simpl. destruct (decide (q = p)) as [->|Hne].
      * rewrite lookup_delete_eq, (bool_decide_eq_true_2 (p ∈ p :: ps)) by set_solver. by case_bool_decide.
      * rewrite lookup_delete_ne by done.
        by rewrite (bool_decide_ext (q ∈ p :: ps) (q ∈ ps)) by set_solver.
    + intros k mq. rewrite Hq2. apply Hq1.
Qed.

Lemma gcPriorityBands_eq now fr
    (collected := collectLeasedResources (cfg_PriorityBandGCTimeout (fr_config fr)) now
       (fr_priorityBandStates fr)) :
  gcPriorityBands now fr =
  cleanupPriorityBandResources (ps_priority <$> collected.1) (fr_with_bands collected.2 fr).
Proof. unfold gcPriorityBands. fold collected. destruct collected as [[|v vs] m]; done. Qed.

Lemma leases_collect_bands timeout now flows bands next open :
  leases flows bands next open →
  leases flows (collectLeasedResources timeout now bands).2 next open.
Proof.
  intros [L1 L2 L3 L4 L5]. split; try done.
  - intros p bs'. rewrite collect_lookup. destruct (bands !! p) as [bs|] eqn:Hbs; [|done]. simpl.
    destruct (expired timeout now bs) eqn:E; [done|]. intros [= <-].
    destruct (check_kept _ _ _ E) as [E1 E2]. simpl in *. rewrite E1, E2. by apply L4.
  - intros k [f Hf]. rewrite collect_lookup. destruct (L5 k) as [bs Hbs]; [eauto|]. rewrite Hbs. simpl.
    destruct (expired timeout now bs) eqn:E; [|eauto]. apply check_expired in E as [Hle _]. simpl in Hle.
    destruct (L4 _ _ Hbs) as (_ & _ & Hc). destruct (L1 k f Hf) as (Hk & _).
    pose proof (flows_at_pos k f flows Hf Hk). lia.
Qed.

Lemma gcPriorityBands_spec now fr st open :
  registry_inv fr st open →
  registry_inv (gcPriorityBands now fr) st open ∧
  same_items (fr_shard fr) (fr_shard (gcPriorityBands now fr)) ∧
  fr_flowStates (gcPriorityBands now fr) = fr_flowStates fr ∧
  ∀ p, cfg_PriorityBands (fr_config (gcPriorityBands now fr)) !! p =
    match fr_priorityBandStates fr !! p with
    | Some bs => if expired (cfg_PriorityBandGCTimeout (fr_config fr)) now bs then None
                 else cfg_PriorityBands (fr_config fr) !! p
    | None => cfg_PriorityBands (fr_config fr) !! p
    end.
Proof.
  intros [Ht Hl Hq Hb]. rewrite gcPriorityBands_eq. set (timeout := cfg_PriorityBandGCTimeout (fr_config fr)).
  set (collected := collectLeasedResources timeout now (fr_priorityBandStates fr)).
  assert (∀ p, p ∈ ps_priority <$> collected.1 ↔
    ∃ bs, fr_priorityBandStates fr !! p = Some bs ∧ expired timeout now bs = true) as Hkeys.
  { intros p. rewrite list_elem_of_fmap. unfold collected. setoid_rewrite collect_deleted. split.
    - intros (bs' & -> & p' & bs & Hbs & He & ->). exists bs. split; [|done]. simpl.
      by destruct (le_band _ _ _ _ Hl p' bs Hbs) as (-> & _).
    - intros (bs & Hbs & He). exists (checked timeout now bs). split; [|eauto]. simpl.
      by destruct (le_band _ _ _ _ Hl p bs Hbs) as (-> & _). }
  assert (∀ p, p ∈ ps_priority <$> collected.1 → collected.2 !! p = None) as Hgone.
  { intros p (bs & Hbs & He)%Hkeys. unfold collected. rewrite collect_lookup, Hbs. simpl. by rewrite He. }
  pose proof (leases_collect_bands timeout now _ _ _ _ Hl) as Hl'.
  destruct (cleanupPriorityBandResources_spec (ps_priority <$> collected.1) (fr_with_bands collected.2 fr) st)
    as (Ht' & [S1 S2 S3] & Hc & Hq').
  - exact Ht.
  - intros k mq Hmq Hin%Hgone. assert (is_Some (fr_flowStates fr !! k)) as Hk by (apply Hq; by exists mq).
    apply (le_tracked _ _ _ _ Hl') in Hk. fold collected in Hk. rewrite Hin in Hk. by destruct Hk.
  - exact Hgone.
  - simpl in S1, S2, S3. split; [split|split; [by apply same_items_iff|split]]; [exact Ht'| | | |exact S1|].
    + by rewrite S1, S2, S3.
    + intros k. rewrite S1. setoid_rewrite Hq'. apply Hq.
    + intros p. rewrite S2, Hc. intros [bs' Hbs']. rewrite bool_decide_eq_false_2.
      * apply Hb. unfold collected in Hbs'. rewrite collect_lookup in Hbs'.
        by destruct (fr_priorityBandStates fr !! p).
      * intros Hin%Hgone. congruence.
    + intros p. rewrite Hc. specialize (Hkeys p). destruct (fr_priorityBandStates fr !! p) as [bs|].
      * destruct (expired timeout now bs) eqn:E.
        { rewrite bool_decide_eq_true_2; [done|]. apply Hkeys. eauto. }
        { rewrite bool_decide_eq_false_2; [done|]. intros (bs' & [= <-] & He)%Hkeys. congruence. }
      * rewrite bool_decide_eq_false_2; [done|]. by intros (bs' & ? & _)%Hkeys.
Qed.

Lemma executeGCCycle_spec now fr st open :
  registry_inv fr st open → gc_quiet now fr →
  registry_inv (executeGCCycle now fr) st open ∧ same_items (fr_shard fr) (fr_shard (executeGCCycle now fr)).
Proof.
  intros Hinv Hq. destruct (gcFlows_spec now fr st open Hinv Hq) as (H1 & H2 & _).
  destruct (gcPriorityBands_spec now _ st open H1) as (H3 & H4 & _). split; [done|].
  by eapply same_items_trans.
Qed.

(** ** Queue operations *)

(** The counters after a change of a band's statistics. *)
Definition bump (p dl db : Z) (b : priorityBand) (rs : registryStats) : registryStats :=
  mkRegistryStats (Int.i64 (rs_totalByteSize rs + db)) (Int.i64 (rs_totalLen rs + dl))
    (<[p := mkBandStats (Int.i64 (pb_byteSize b + db)) (Int.i64 (pb_len b + dl))]>
       (rs_perPriorityBandStats rs)).

Lemma fr_propagate_run c rs s st p b dl db :
  topology c rs s st → sh_priorityBands s !! p = Some b →
  fr_propagateStatsDelta p dl db rs = Some (tt, bump p dl db b rs).
Proof.
  intros Ht Hb. unfold fr_propagateStatsDelta, mbind, gom_bind, getsome.
  by rewrite (tp_stats _ _ _ _ Ht), Hb.
Qed.

Lemma topology_updated c rs s st s' st' key mq mq' b dl db :
  topology c rs s st → updated s s' key mq mq' → shard_wf s' st' → store_wf st' →
  sh_priorityBands s !! fk_Priority key = Some b →
  dl = (queue_len mq' - queue_len mq)%Z → Int.i64 db = Int.i64 (queue_bytes mq' - queue_bytes mq) →
  topology c (bump (fk_Priority key) dl db b rs) s' st'.
Proof.
  intros [T1 T2 T3 T4 T5 T6 T7 T8 T9 T10 T11]
    [(b0 & b' & Hb & Hmq & Hbands & _ & Hcfg & _ & _ & Hl & Hby) U2 U3 U4 U5 U6 U7] Hwf Hst Hb0 -> Hdb.
  assert (b0 = b) as -> by congruence.
  assert (∀ z, Int.i64 (z + db) = Int.i64 (z + (queue_bytes mq' - queue_bytes mq))) as Hi.
  { intros z. by rewrite <- Int.i64_add_r, Hdb, Int.i64_add_r. }
  split; cbn [bump rs_totalLen rs_totalByteSize rs_perPriorityBandStats]; try done.
  - by rewrite U5.
  - by rewrite U5.
  - by rewrite U5.
  - intros p. rewrite Hbands, lookup_insert, T7. case_decide; [|done]. subst p. rewrite Hb. simpl. by rewrite Hcfg.
  - by rewrite U2, T8.
  - by rewrite U3, T9.
  - intros p. rewrite Hbands, !lookup_insert, T10. case_decide; [|done]. simpl. unfold stats_of_band.
    by rewrite Hl, Hby, Hi.
  - by rewrite U6.
Qed.

Lemma topology_unchanged c rs s st s' st' key mq mq' :
  topology c rs s st → updated s s' key mq mq' → shard_wf s' st' → store_wf st' →
  queue_len mq' = queue_len mq → queue_bytes mq' = queue_bytes mq →
  topology c rs s' st'.
Proof.
  intros Ht Hup Hwf Hst Hql Hqb. pose proof Hup as [(b & _ & Hb & _) _ _ _ _ _ _].
  pose proof (topology_updated _ _ _ _ _ _ _ _ _ b 0 0 Ht Hup Hwf Hst Hb) as H.
  rewrite Hql, Hqb, !Z.sub_diag in H. specialize (H eq_refl eq_refl).
  destruct Ht as [T1 T2 T3 T4 T5 T6 T7 T8 T9 T10 T11].
  destruct (sw_band_stats _ _ T2 _ _ Hb) as [B1 B2].
  assert (bump (fk_Priority key) 0 0 b rs = rs) as E; [|by rewrite E in H].
  unfold bump. rewrite B1, B2, T8, T9, (sw_total_len _ _ T2), (sw_total_bytes _ _ T2).
  rewrite !Z.add_0_r, !Int.i64_i64, <- B1, <- B2, <- (sw_total_len _ _ T2), <- (sw_total_bytes _ _ T2).
  rewrite insert_id by (by rewrite T10, Hb). destruct rs; simpl in *. by subst.
Qed.

Lemma updated_domain s s' key mq mq' k :
  updated s s' key mq mq' → (∃ q, queue_at s' k q) ↔ ∃ q, queue_at s k q.
Proof.
  intros Hup. pose proof Hup as [(b & _ & Hb & Hmq & _) _ _ _ _ _ _].
  setoid_rewrite (updated_queue_at _ _ _ _ _ _ _ Hup). destruct (decide (k = key)) as [->|Hne].
  - split; [|eauto]. intros _. exists mq. by exists b.
  - split; [intros (q & [[? _]|[_ ?]]); [done|eauto]|]. intros (q & Hq). eauto.
Qed.

Lemma wp_on_queues {A} (c : GoM (registryShard * store * registryStats) A) Q fr st :
  wp c (λ a '(s, st', rs), Q a (fr_with_stats rs (fr_with_shard s fr), st')) (fr_shard fr, st, fr_stats fr) →
  wp (on_queues c) Q (fr, st).
Proof. unfold wp, on_queues. by destruct (c (fr_shard fr, st, fr_stats fr)) as [[a [[s st'] rs]]|]. Qed.

(** Changing a queue and the statistics keeps the leases. *)
Lemma registry_inv_updated fr st open s' st' rs' key mq mq' :
  registry_inv fr st open → updated (fr_shard fr) s' key mq mq' →
  topology (fr_config fr) rs' s' st' →
  registry_inv (fr_with_stats rs' (fr_with_shard s' fr)) st' open.
Proof.
  intros [Ht Hl Hq Hb] Hup Ht'. split; try done. intros k. rewrite Hq.
  symmetry. by eapply updated_domain.
Qed.

Lemma fr_add_spec fr st open key mq it :
  registry_inv fr st open → queue_at (fr_shard fr) key mq → item_ok it → fresh_item (fr_shard fr) it →
  (queue_len mq + 1 < Int.two63)%Z →
  wp (fr_Add key it) (λ err '(fr', st'), err = None ∧ registry_inv fr' st' open ∧
    ∃ mq', updated (fr_shard fr) (fr_shard fr') key mq mq' ∧ mq_contents mq' ≡ₚ it :: mq_contents mq) (fr, st).
Proof.
  intros Hinv Hq Hok Hfr Hroom. pose proof (ri_topology _ _ _ Hinv) as Ht. pose proof Hq as (b & Hb & Hmq).
  apply wp_on_queues. eapply wp_mono.
  { apply shard_add_spec; try done; [apply Ht..|]. by eapply fr_propagate_run. }
  intros err [[s' st'] rs'] (-> & -> & Hwf & Hst & mq' & Hup & HP & _). split_and!; try done.
  - eapply registry_inv_updated; [done..|]. eapply topology_updated; try done.
    + unfold queue_len. rewrite HP. simpl. lia.
    + unfold queue_bytes. rewrite HP. simpl. rewrite Int.i64_i64. f_equal. lia.
  - by exists mq'.
Qed.

Lemma fr_remove_spec fr st open key mq it h :
  registry_inv fr st open → queue_at (fr_shard fr) key mq → it ∈ mq_contents mq → Handle st it = Some h →
  wp (fr_Remove key (Some h)) (λ r '(fr', st'), r = inl it ∧ registry_inv fr' st' open ∧
    ∃ mq', updated (fr_shard fr) (fr_shard fr') key mq mq' ∧ mq_contents mq ≡ₚ it :: mq_contents mq') (fr, st).
Proof.
  intros Hinv Hq Hit Hh. pose proof (ri_topology _ _ _ Hinv) as Ht. pose proof Hq as (b & Hb & Hmq).
  apply wp_on_queues. eapply wp_mono.
  { eapply (shard_remove_spec _ _ _ _ _ key mq it h); try done; [apply Ht..|]. by eapply fr_propagate_run. }
  intros r [[s' st'] rs'] (-> & -> & Hwf & Hst & _ & mq' & Hup & HP & _). split_and!; try done.
  - eapply registry_inv_updated; [done..|]. eapply topology_updated; try done.
    + unfold queue_len. rewrite HP. simpl. lia.
    + unfold queue_bytes. rewrite HP. simpl. rewrite Int.i64_i64. f_equal. lia.
  - by exists mq'.
Qed.

(** The statistics after the items [its] left a queue. *)
Definition bump_removed (p : Z) (its : list QueueItem) (b : priorityBand) (rs : registryStats) : registryStats :=
  match its with
  | [] => rs
  | _ => bump p (- Z.of_nat (length its)) (Int.i64 (- total_bytes its)) b rs
  end.

Lemma bump_removed_run c rs s st p b its :
  topology c rs s st → sh_priorityBands s !! p = Some b →
  (its ≠ [] → fr_propagateStatsDelta p (- Z.of_nat (length its)) (Int.i64 (- total_bytes its)) rs
     = Some (tt, bump_removed p its b rs)) ∧
  (its = [] → bump_removed p its b rs = rs).
Proof.
  intros Ht Hb. split; [|by intros ->]. intros Hne. destruct its as [|it its]; [done|].
  by eapply fr_propagate_run.
Qed.

Lemma topology_removed c rs s st s' st' key mq mq' b its :
  topology c rs s st → updated s s' key mq mq' → shard_wf s' st' → store_wf st' →
  sh_priorityBands s !! fk_Priority key = Some b → mq_contents mq ≡ₚ its ++ mq_contents mq' →
  topology c (bump_removed (fk_Priority key) its b rs) s' st'.
Proof.
  intros Ht Hup Hwf Hst Hb HP. destruct its as [|it its].
  - eapply topology_unchanged; try done; unfold queue_len, queue_bytes; by rewrite HP.
  - eapply topology_updated; try done.
    + unfold queue_len. rewrite HP, length_app. lia.
    + unfold queue_bytes. rewrite HP, total_bytes_app, Int.i64_i64. f_equal. lia.
Qed.

Lemma fr_cleanup_spec fr st open key mq p :
  registry_inv fr st open → queue_at (fr_shard fr) key mq →
  wp (fr_Cleanup key p) (λ r '(fr', st'), r = List.filter p (mq_contents mq) ∧ registry_inv fr' st' open ∧
    ∃ mq', updated (fr_shard fr) (fr_shard fr') key mq mq' ∧
      mq_contents mq' ≡ₚ List.filter (λ x, negb (p x)) (mq_contents mq)) (fr, st).
Proof.
  intros Hinv Hq. pose proof (ri_topology _ _ _ Hinv) as Ht. pose proof Hq as (b & Hb & Hmq).
  destruct (bump_removed_run _ _ _ _ _ b (List.filter p (mq_contents mq)) Ht Hb) as [R1 R2].
  apply wp_on_queues. eapply wp_mono.
  { eapply (shard_cleanup_spec _ _ _ _ _ key mq p); [apply Ht|apply Ht|done|exact R1|exact R2]. }
  intros r [[s' st'] rs'] (-> & -> & Hwf & Hst & _ & mq' & Hup & HP & _). split_and!; try done.
  - eapply registry_inv_updated; [done..|]. eapply topology_removed; try done.
    rewrite HP. apply filter_split_Permutation.
  - by exists mq'.
Qed.

Lemma fr_drain_spec fr st open key mq :
  registry_inv fr st open → queue_at (fr_shard fr) key mq →
  wp (fr_Drain key) (λ r '(fr', st'), r = mq_contents mq ∧ registry_inv fr' st' open ∧
    ∃ mq', updated (fr_shard fr) (fr_shard fr') key mq mq' ∧ mq_contents mq' = []) (fr, st).
Proof.
  intros Hinv Hq. pose proof (ri_topology _ _ _ Hinv) as Ht. pose proof Hq as (b & Hb & Hmq).
  destruct (bump_removed_run _ _ _ _ _ b (mq_contents mq) Ht Hb) as [R1 R2].
  apply wp_on_queues. eapply wp_mono.
  { eapply (shard_drain_spec _ _ _ _ _ key mq); [apply Ht|apply Ht|done|exact R1|exact R2]. }
  intros r [[s' st'] rs'] (-> & -> & Hwf & Hst & _ & mq' & Hup & HP & _). split_and!; try done.
  - eapply registry_inv_updated; [done..|]. eapply topology_removed; try done.
    by rewrite HP, app_nil_r.
  - by exists mq'.
Qed.

(** ** Creation *)

Lemma NewFlowRegistry_spec c st :
  config_ok c → store_wf st →
  wp (NewFlowRegistry c) (λ r st', st' = st ∧ ∃ fr, r = inl fr ∧ registry_inv fr st [] ∧
    fr_config fr = c ∧ fr_flowStates fr = ∅ ∧ fr_priorityBandStates fr = ∅) st.
Proof.
  intros Hc Hst. destruct (partition_ok c Hc) as (P1 & P2 & P3 & P4).
  destruct (newShard_spec "shard-0" (partition 0 1 c) st P4)
    as (s & Hs & Hwf & Hcfg & Hact & Hl & Hby & Hdom & Hbands).
  assert (∀ p b, sh_priorityBands s !! p = Some b → cfg_PriorityBands c !! p = Some (pb_config b)) as Hcs.
  { intros p b Hb. rewrite <- P1. by apply Hbands. }
  pose proof (updateConfig_spec s st (partition 0 1 c) Hwf P4) as Hup.
  unfold NewFlowRegistry, Clone. apply wp_bind, wp_bind, (wp_getsome _ _ _ s); [done|]. apply wp_bind, wp_gets, wp_bind, wp_modify.
  apply wp_run in Hup as ([] & s' & Hrun & Hwf' & bands' & -> & Hr).
  2:{ intros p [b Hb]. rewrite P1, (Hcs p b Hb). eauto. }
  rewrite P1 in Hr. rewrite (rebanded_same _ _ _ Hr Hcs) in *.
  eapply wp_bind, wp_getsome; [|apply wp_ret, wp_ret].
  { unfold mbind, gom_bind, for_each, mret, gom_ret. by rewrite Hrun. }
  split; [done|]. eexists. split; [done|]. split_and!; try done. split; try done; simpl.
  - split; simpl; try done.
    + intros p. destruct (sh_priorityBands s !! p) as [b|] eqn:Hb; simpl; [by apply Hcs|].
      rewrite <- P1. by apply Hdom.
    + intros p. rewrite lookup_fmap. destruct (sh_priorityBands s !! p) as [b|] eqn:Hb; simpl.
      * rewrite (Hcs p b Hb). simpl. unfold stats_of_band. by destruct (Hbands p b Hb) as (_ & -> & -> & _).
      * apply Hdom in Hb. rewrite P1 in Hb. unfold Clone. by rewrite Hb.
  - split; simpl; try done.
    + intros c' Hc'%elem_of_nil. done.
    + intros k. rewrite lookup_empty. by intros [].
  - intros k. split; [by rewrite lookup_empty; intros []|]. intros (mq & b & Hb & Hmq). simpl in Hb.
    destruct (Hbands _ _ Hb) as (E & _). rewrite E in Hmq. by rewrite lookup_empty in Hmq.
  - intros p. rewrite lookup_empty. by intros [].
Qed.

(** ** Runs of the registry *)

Abbreviation reg_state := (FlowRegistry * store * list connection)%type.

(** Connections are entered and left in any order; queue operations act on queues of
    the shard; a collection cycle runs when no flow due for collection has queued
    items. *)
Inductive reg_step : reg_state → reg_state → Prop :=
  | rg_enter fr st open key now c fr' st' :
      enter key now (fr, st) = Some (inl c, (fr', st')) → reg_step (fr, st, open) (fr', st', c :: open)
  | rg_reject fr st open key now e fr' st' :
      enter key now (fr, st) = Some (inr e, (fr', st')) → reg_step (fr, st, open) (fr', st', open)
  | rg_leave fr st open1 c open2 :
      reg_step (fr, st, open1 ++ c :: open2) (leave c fr, st, open1 ++ open2)
  | rg_add fr st open key mq it r fr' st' :
      queue_at (fr_shard fr) key mq → item_ok it → fresh_item (fr_shard fr) it →
      (queue_len mq + 1 < Int.two63)%Z →
      fr_Add key it (fr, st) = Some (r, (fr', st')) → reg_step (fr, st, open) (fr', st', open)
  | rg_remove fr st open key mq it h r fr' st' :
      queue_at (fr_shard fr) key mq → it ∈ mq_contents mq → Handle st it = Some h →
      fr_Remove key (Some h) (fr, st) = Some (r, (fr', st')) → reg_step (fr, st, open) (fr', st', open)
  | rg_cleanup fr st open key mq p r fr' st' :
      queue_at (fr_shard fr) key mq →
      fr_Cleanup key p (fr, st) = Some (r, (fr', st')) → reg_step (fr, st, open) (fr', st', open)
  | rg_drain fr st open key mq r fr' st' :
      queue_at (fr_shard fr) key mq →
      fr_Drain key (fr, st) = Some (r, (fr', st')) → reg_step (fr, st, open) (fr', st', open)
  | rg_gc fr st open now :
      gc_quiet now fr → reg_step (fr, st, open) (executeGCCycle now fr, st, open).

Definition state_inv (s : reg_state) : Prop := registry_inv s.1.1 s.1.2 s.2.

Lemma state_inv_parts fr st open : state_inv (fr, st, open) → registry_inv fr st open.
Proof. done. Qed.

Lemma wp_at {S A} (c : GoM S A) Q s a s' : wp c Q s → c s = Some (a, s') → Q a s'.
Proof. unfold wp. intros H E. by rewrite E in H. Qed.

Lemma reg_step_inv s s' : reg_step s s' → state_inv s → state_inv s'.
Proof.
  destruct 1 as [fr st open key now c fr' st' E|fr st open key now e fr' st' E|fr st o1 c o2
    |fr st open key mq it r fr' st' Hq Hok Hf Hr E|fr st open key mq it h r fr' st' Hq Hi Hh E
    |fr st open key mq p r fr' st' Hq E|fr st open key mq r fr' st' Hq E|fr st open now Hg];
    unfold state_inv; cbn [fst snd]; intros Hinv.
  - destruct (decide (fk_ID key = EmptyString)) as [Hid|Hid].
    { unfold enter in E. rewrite bool_decide_eq_true_2 in E by done. discriminate. }
    destruct (wp_at _ _ _ _ _ (enter_spec fr st open key now Hinv Hid) E) as (c' & [= <-] & _ & _ & H & _). done.
  - destruct (decide (fk_ID key = EmptyString)) as [Hid|Hid].
    { unfold enter in E. rewrite bool_decide_eq_true_2 in E by done. by injection E as _ <- <-. }
    by destruct (wp_at _ _ _ _ _ (enter_spec fr st open key now Hinv Hid) E) as (c' & [=] & _).
  - apply leave_spec. eapply registry_inv_Permutation; [|exact Hinv]. symmetry. apply Permutation_middle.
  - by destruct (wp_at _ _ _ _ _ (fr_add_spec fr st open key mq it Hinv Hq Hok Hf Hr) E) as (_ & H & _).
  - by destruct (wp_at _ _ _ _ _ (fr_remove_spec fr st open key mq it h Hinv Hq Hi Hh) E) as (_ & H & _).
  - by destruct (wp_at _ _ _ _ _ (fr_cleanup_spec fr st open key mq p Hinv Hq) E) as (_ & H & _).
  - by destruct (wp_at _ _ _ _ _ (fr_drain_spec fr st open key mq Hinv Hq) E) as (_ & H & _).
  - by apply executeGCCycle_spec.
Qed.

(** A state reached from a new registry. *)
Definition reachable (c : Config) (s : reg_state) : Prop :=
  ∃ st0 fr0 st1, store_wf st0 ∧ NewFlowRegistry c st0 = Some (inl fr0, st1) ∧
    rtc reg_step (fr0, st1, []) s.

Lemma reachable_inv c s : config_ok c → reachable c s → state_inv s.
Proof.
  intros Hc (st0 & fr0 & st1 & Hst & Hnew & Hrun).
  destruct (wp_at _ _ _ _ _ (NewFlowRegistry_spec c st0 Hc Hst) Hnew) as (-> & fr & [= <-] & Hinv & _).
  assert (state_inv (fr0, st0, [])) as H0 by exact Hinv. clear -Hrun H0.
  revert H0. induction Hrun as [|x y z Hxy _ IH]; [done|]. intros H0. by apply IH, (reg_step_inv x).
Qed.

(** *** Statistics *)

Lemma aggregate_bands_spec c l : ∀ m,
  NoDup l.*1 → (∀ p bs, (p, bs) ∈ l → is_Some (cfg_PriorityBands c !! p)) →
  ∃ m', aggregate_bands c l m = Some m' ∧
    (∀ p bs b, (p, bs) ∈ l → cfg_PriorityBands c !! p = Some b →
       m' !! p = Some (mkPriorityBandStats p (pbc_MaxBytes b) (pbc_MaxRequests b)
                         (Int.u64 (bs_byteSize bs)) (Int.u64 (bs_len bs)))) ∧
    ∀ p, p ∉ l.*1 → m' !! p = m !! p.
Proof.
  induction l as [|[q bs] l IH]; intros m Hnd Hin; simpl.
  { exists m. split_and!; [done|by intros ??? ?%elem_of_nil|done]. }
  rewrite fmap_cons in Hnd. apply NoDup_cons in Hnd as [Hq Hnd]. simpl in Hq.
  destruct (Hin q bs) as [b Hb]; [set_solver|]. rewrite Hb. set (m1 := <[q := _]> m).
  destruct (IH m1 Hnd) as (m' & -> & H1 & H2). { intros p bs' Hp. apply (Hin p bs'). set_solver. }
  exists m'. split_and!; [done|..].
  - intros p bs' b' [[= -> ->]|Hp]%elem_of_cons Hb'; [|by apply H1].
    rewrite H2 by done. unfold m1. rewrite lookup_insert_eq. congruence.
  - intros p [Hp1 Hp2]%not_elem_of_cons. rewrite H2 by done. unfold m1. by rewrite lookup_insert_ne.
Qed.

(** The registry's statistics are those of its shard. *)
Lemma fr_Stats_shard fr st :
  fr_topology fr st →
  fr_Stats fr = Some (mkAggregateStats (ss_TotalCapacityBytes (Stats (fr_shard fr)))
    (ss_TotalCapacityRequests (Stats (fr_shard fr))) (ss_TotalByteSize (Stats (fr_shard fr)))
    (ss_TotalLen (Stats (fr_shard fr))) (ss_PerPriorityBandStats (Stats (fr_shard fr)))).
Proof.
  intros [T1 T2 T3 T4 T5 T6 T7 T8 T9 T10 T11]. unfold fr_Stats.
  destruct (aggregate_bands_spec (fr_config fr) (map_to_list (rs_perPriorityBandStats (fr_stats fr))) ∅)
    as (m' & -> & H1 & H2).
  { apply NoDup_fst_map_to_list. }
  { intros p bs Hin%elem_of_map_to_list. rewrite T10 in Hin. rewrite T7.
    destruct (sh_priorityBands (fr_shard fr) !! p); [|done]. simpl. eauto. }
  f_equal. unfold Stats. cbn [ss_TotalCapacityBytes ss_TotalCapacityRequests ss_TotalByteSize ss_TotalLen
    ss_PerPriorityBandStats]. rewrite T5, T6, T8, T9. f_equal. apply map_eq. intros p.
  rewrite map_lookup_imap. destruct (sh_priorityBands (fr_shard fr) !! p) as [b|] eqn:Hb; simpl.
  - rewrite (H1 p (stats_of_band b) (pb_config b)); [done|..].
    + apply elem_of_map_to_list. by rewrite T10, Hb.
    + by rewrite T7, Hb.
  - rewrite H2; [apply lookup_empty|].
    intros ([p' bs] & -> & Hin%elem_of_map_to_list)%list_elem_of_fmap. simpl in Hb.
    by rewrite T10, Hb in Hin.
Qed.
