(* ===== verification/RegistryProps.v ===== *)
(** * Properties of the flow registry

    What the registry promises its users, for every reachable state, and what its
    garbage collection does at the edges: configured bands are collected like
    provisioned ones, idle time counts from the start of a connection, and a flow
    collected with items in its queue leaves its statistics behind. *)

From stdpp Require Import prelude gmap strings list.
From Stdlib Require Import Lia.
From S2P Require Import Prelude FlowTypes Ordering Fairness SafeQueue QueueFactory ManagedQueue.
From S2P Require Import RegistryConfig Leasing Shard Registry RegistryInv.

Open Scope go_scope.

(** ** A sample configuration and runs of it *)

Lemma sample_config_ok : config_ok sample_config.
Proof.
  destruct (config_validate_spec sample_config eq_refl) as (_ & _ & (d & Hd & Hdr) & Hready).
  split.
  - intros p b. change (cfg_PriorityBands sample_config) with
      ({[10%Z := default (mkPriorityBandConfig 0 None None EmptyString 0 0)
           (cfg_PriorityBands sample_config !! 10%Z)]} : gmap Z PriorityBandConfig).
    intros [<- <-]%lookup_singleton_Some. vm_compute. intuition congruence.
  - done.
  - exists d. split_and!; [done|done|..]; injection Hd as <-; vm_compute; intuition congruence.
  - vm_compute. intuition congruence.
  - vm_compute. intuition congruence.
Qed.

Definition no_registry : FlowRegistry :=
  mkFlowRegistry sample_config 1 ∅ ∅ (mkRegistryStats 0 0 ∅)
    (mkShard EmptyString (partition 0 1 sample_config) [] ∅ false 0 0).

Definition sample_registry : FlowRegistry :=
  match NewFlowRegistry sample_config store_empty with
  | Some (inl fr, _) => fr
  | _ => no_registry
  end.

(** The state after entering [key] at time [now]. *)
Definition entered (key : FlowKey) (now : Z) (s : FlowRegistry * store) : FlowRegistry * store :=
  match enter key now s with Some (_, s') => s' | None => s end.

Definition sample_key : FlowKey := mkFlowKey "tenant-a" 10.
Definition sample_conn : connection := mkConnection sample_key 1 0.
Definition sample_state : FlowRegistry * store := entered sample_key 0 (sample_registry, store_empty).

Lemma sample_reachable : reachable sample_config (sample_state.1, sample_state.2, [sample_conn]).
Proof.
  exists store_empty, sample_registry, store_empty. split_and!; [apply store_wf_empty|reflexivity|].
  apply rtc_once. apply (rg_enter _ _ _ sample_key 0). vm_compute. reflexivity.
Qed.

(** ** Guarantees *)



(** Connecting never fails: with a validated configuration, entering a connection
    for any flow with a non-empty id succeeds in every reachable state (it neither
    panics nor spins nor returns an error), whether the flow and its priority band
    exist already or are provisioned on the way. *)
Theorem enter_total (c : Config) (fr : FlowRegistry) (st : store) (open : list connection)
    (key : FlowKey) (now : Z)
    (Hc : config_ok c) (Hreach : reachable c (fr, st, open)) (Hid : fk_ID key ≠ EmptyString) :
  ∃ conn fr' st', enter key now (fr, st) = Some (inl conn, (fr', st')) ∧ conn_key conn = key ∧
    reachable c (fr', st', conn :: open).
Proof.
  pose proof (reachable_inv c _ Hc Hreach) as Hinv.
  pose proof (enter_spec fr st open key now Hinv Hid) as (r & [fr' st'] & E & conn & -> & Hk & _)%wp_run.
  exists conn, fr', st'. split_and!; [done..|]. destruct Hreach as (st0 & fr0 & st1 & H1 & H2 & H3).
  exists st0, fr0, st1. split_and!; [done..|]. eapply rtc_r; [exact H3|]. by eapply rg_enter.
Qed.

Lemma enter_total_witness :
  ∃ conn fr' st', enter (mkFlowKey "tenant-b" (-3)) 7 (sample_state.1, sample_state.2) = Some (inl conn, (fr', st')) ∧
    conn_key conn = mkFlowKey "tenant-b" (-3) ∧ reachable sample_config (fr', st', [conn; sample_conn]).
Proof.
  apply (enter_total sample_config sample_state.1 sample_state.2 [sample_conn] (mkFlowKey "tenant-b" (-3)) 7
    sample_config_ok sample_reachable). discriminate.
Defined.

(** The lease counts are exact: the count of a flow is the number of its open
    connections, the count of a priority band is the number of flows at that
    priority, and nothing in the maps is marked for deletion. *)
Theorem lease_counts (c : Config) (fr : FlowRegistry) (st : store) (open : list connection)
    (Hc : config_ok c) (Hreach : reachable c (fr, st, open)) :
  (∀ key fs, fr_flowStates fr !! key = Some fs →
     ls_leaseCount (fs_lease fs) = conns (fs_ptr fs) open ∧ ls_markedForDeletion (fs_lease fs) = false) ∧
  (∀ p bs, fr_priorityBandStates fr !! p = Some bs →
     ls_leaseCount (ps_lease bs) = flows_at p (fr_flowStates fr) ∧
     ls_markedForDeletion (ps_lease bs) = false).
Proof.
  apply (reachable_inv c) in Hreach as [Ht Hl Hq Hb]; [|done]. simpl in *. split.
  - intros key fs Hfs. by destruct (le_flow _ _ _ _ Hl key fs Hfs) as (_ & _ & ? & ? & _).
  - intros p bs Hbs. by destruct (le_band _ _ _ _ Hl p bs Hbs) as (_ & ? & ?).
Qed.

Lemma lease_counts_witness :
  (∀ key fs, fr_flowStates sample_state.1 !! key = Some fs →
     ls_leaseCount (fs_lease fs) = conns (fs_ptr fs) [sample_conn] ∧
     ls_markedForDeletion (fs_lease fs) = false) ∧
  (∀ p bs, fr_priorityBandStates sample_state.1 !! p = Some bs →
     ls_leaseCount (ps_lease bs) = flows_at p (fr_flowStates sample_state.1) ∧
     ls_markedForDeletion (ps_lease bs) = false).
Proof.
  exact (lease_counts sample_config sample_state.1 sample_state.2 [sample_conn]
    sample_config_ok sample_reachable).
Defined.

(** Statistics are exact: in every reachable state [Stats] does not panic, the
    registry and its shard report the same numbers, and these are the number of
    queued items and the sum of their sizes, in total and per priority band. *)
Theorem registry_stats_exact (c : Config) (fr : FlowRegistry) (st : store) (open : list connection)
    (Hc : config_ok c) (Hreach : reachable c (fr, st, open)) (s := fr_shard fr) :
  ∃ stats, fr_Stats fr = Some stats ∧
    as_TotalLen stats = Int.u64 (sum_map band_len_sum (sh_priorityBands s)) ∧
    as_TotalByteSize stats = Int.u64 (sum_map band_bytes_sum (sh_priorityBands s)) ∧
    as_TotalCapacityBytes stats = cfg_MaxBytes (fr_config fr) ∧
    as_TotalCapacityRequests stats = cfg_MaxRequests (fr_config fr) ∧
    (∀ p, as_PerPriorityBandStats stats !! p =
       (λ b, mkPriorityBandStats p (pbc_MaxBytes (pb_config b)) (pbc_MaxRequests (pb_config b))
          (Int.u64 (band_bytes_sum b)) (Int.u64 (band_len_sum b))) <$> sh_priorityBands s !! p) ∧
    ss_TotalLen (Stats s) = as_TotalLen stats ∧ ss_TotalByteSize (Stats s) = as_TotalByteSize stats.
Proof.
  apply (reachable_inv c) in Hreach as [Ht _ _ _]; [|done]. simpl in Ht.
  eexists. split; [by eapply fr_Stats_shard|]. cbn [as_TotalLen as_TotalByteSize as_TotalCapacityBytes
    as_TotalCapacityRequests as_PerPriorityBandStats].
  destruct (Stats_agree _ _ (tp_shard _ _ _ _ Ht)) as (H1 & H2 & H3). split_and!; try done; apply Ht.
Qed.

Lemma registry_stats_exact_witness :
  ∃ stats, fr_Stats sample_state.1 = Some stats ∧
    as_TotalLen stats = Int.u64 (sum_map band_len_sum (sh_priorityBands (fr_shard sample_state.1))).
Proof.
  destruct (registry_stats_exact sample_config sample_state.1 sample_state.2 [sample_conn]
    sample_config_ok sample_reachable) as (stats & H1 & H2 & _).
  exists stats. split; [exact H1|exact H2].
Defined.

(** A collection cycle removes exactly the flows that have no lease and have been
    idle for at least the configured timeout. *)
Theorem gc_collects_idle (c : Config) (fr : FlowRegistry) (st : store) (open : list connection)
    (now : Z) (key : FlowKey)
    (Hc : config_ok c) (Hreach : reachable c (fr, st, open)) (Hquiet : gc_quiet now fr) :
  fr_flowStates (executeGCCycle now fr) !! key = None ↔
  ∀ fs, fr_flowStates fr !! key = Some fs →
    conns (fs_ptr fs) open = 0%Z ∧
    ∃ t, ls_becameIdleAt (fs_lease fs) = Some t ∧ (cfg_FlowGCTimeout (fr_config fr) ≤ now - t)%Z.
Proof.
  pose proof (reachable_inv c _ Hc Hreach) as Hinv. unfold state_inv in Hinv. simpl in Hinv.
  destruct (gcFlows_spec now fr st open Hinv Hquiet) as (Hinv1 & _ & _ & Hlk).
  destruct (gcPriorityBands_spec now _ st open Hinv1) as (_ & _ & E & _).
  unfold executeGCCycle. rewrite E, Hlk.
  destruct (fr_flowStates fr !! key) as [fs|] eqn:Hfs; simpl; [|naive_solver].
  destruct (le_flow _ _ _ _ (ri_leases _ _ _ Hinv) key fs Hfs) as (_ & _ & _ & Hcnt & _).
  pose proof (conns_nonneg (fs_ptr fs) open).
  destruct (expired (cfg_FlowGCTimeout (fr_config fr)) now fs) eqn:He.
  - apply check_expired in He as [Hle Hidle]. split; [|done]. intros _ fs' [= <-]. simpl in *.
    split; [lia|done].
  - split; [done|]. intros Hall. destruct (Hall fs eq_refl) as [H0 Hidle]. exfalso.
    apply not_true_iff_false in He. apply He, check_expired. simpl. split; [lia|done].
Qed.

Lemma gc_collects_idle_witness :
  fr_flowStates (executeGCCycle 1000000000000 sample_state.1) !! sample_key = None ↔
  ∀ fs, fr_flowStates sample_state.1 !! sample_key = Some fs →
    conns (fs_ptr fs) [sample_conn] = 0%Z ∧
    ∃ t, ls_becameIdleAt (fs_lease fs) = Some t ∧
      (cfg_FlowGCTimeout (fr_config sample_state.1) ≤ 1000000000000 - t)%Z.
Proof.
  apply (gc_collects_idle sample_config sample_state.1 sample_state.2 [sample_conn] 1000000000000 sample_key
    sample_config_ok sample_reachable).
  intros key fs mq Hfs He _. exfalso.
  change (fr_flowStates sample_state.1) with
    ({[sample_key := mkFlowState 1 (mkLeasedState 1 None false) sample_key (Some None)]}
      : gmap FlowKey flowState) in Hfs.
  apply lookup_singleton_Some in Hfs as [_ <-]. vm_compute in He. discriminate.
Defined.

(** ** Garbage collection at the edges *)

(** The limit and the ordering policy of a band of the registry's configuration. *)
Definition band_view (p : Z) (fr : FlowRegistry) : option (Z * option string) :=
  (λ b, (pbc_MaxRequests b, op_Type <$> pbc_OrderingPolicy b)) <$> cfg_PriorityBands (fr_config fr) !! p.

(** A priority band of the configuration is collected like a provisioned one. The
    configured band 10 (at most 100 requests, earliest deadline first) is used once
    and then idle for the two timeouts: the band is gone, and the next request at
    that priority gets a band made from the default template, with another limit and
    another ordering policy. *)
Theorem configured_band_is_collected :
  let fr1 := executeGCCycle (5 * Minute) (leave sample_conn sample_state.1) in
  let fr2 := executeGCCycle (15 * Minute) fr1 in
  let fr3 := (entered sample_key (16 * Minute) (fr2, sample_state.2)).1 in
  band_view 10 sample_registry = Some (100%Z, Some "edf-ordering-policy"%string) ∧
  band_view 10 fr1 = Some (100%Z, Some "edf-ordering-policy"%string) ∧
  band_view 10 fr2 = None ∧
  band_view 10 fr3 = Some (0%Z, Some "fcfs-ordering-policy"%string).
Proof. vm_compute. split_and!; reflexivity. Qed.

(** The idle time of a flow counts from the start of its last connection, not
    from its end: a connection that is open for ten minutes keeps its flow through a
    collection cycle just before it is left, and the next cycle, one nanosecond
    later, collects the flow although the timeout is five minutes. *)
Theorem idle_counts_from_entry :
  let fr1 := executeGCCycle (10 * Minute - 1) sample_state.1 in
  let fr2 := executeGCCycle (10 * Minute) (leave sample_conn fr1) in
  cfg_FlowGCTimeout (fr_config fr1) = (5 * Minute)%Z ∧
  is_Some (fr_flowStates fr1 !! sample_key) ∧
  fr_flowStates fr2 !! sample_key = None.
Proof. vm_compute. split_and!; [reflexivity|by eexists|reflexivity]. Qed.

(** An item of 500 bytes for [sample_key]. *)
Definition leaked_item : QueueItem := mkItem 9 0 0 (mkRequest sample_key 500 None 0 0 "req").

Definition added (it : QueueItem) (s : FlowRegistry * store) : FlowRegistry * store :=
  match fr_Add (fr_FlowKey (qi_OriginalRequest it)) it s with Some (_, s') => s' | None => s end.

(** Collecting a flow whose queue still holds an item (a request that gave up and
    has not been swept yet) drops the queue and keeps its statistics: the shard finds
    no queue for the flow any more, and the item still counts against the
    capacity. *)
Theorem gc_leaks_statistics :
  let s1 := added leaked_item sample_state in
  let fr2 := executeGCCycle (10 * Minute) (leave sample_conn s1.1) in
  ManagedQueue sample_key (fr_shard fr2) = inr (EWrap [ESentinel ErrFlowInstanceNotFound]) ∧
  (λ s, (as_TotalLen s, as_TotalByteSize s)) <$> fr_Stats fr2 = Some (1%Z, 500%Z).
Proof. vm_compute. split; reflexivity. Qed.
