(* ===== verification/Processor.v ===== *)
(** * The shard processor: [controller/internal/processor.go]

    The worker of a shard. It takes requests from a buffered channel, admits them to
    the queues of the shard within the capacity limits, dispatches them in the order
    that priorities, fairness and ordering policies choose while the pool is not
    saturated, sweeps requests that were finalized elsewhere, and finalizes everything
    on shutdown.

    The saturation of the pool and the usage limits come from plugins: a dispatch
    cycle takes the saturation it was given and the function [ComputeLimit]. Both are
    [float64] values, compared as such. The methods of the processor run one after
    the other (the run loop is a single goroutine); the workers of
    [processAllQueuesConcurrently] act on distinct queues and run in sequence here.
    Metrics and logging are not modelled. *)

From stdpp Require Import prelude gmap strings list.
From Stdlib Require Import Lia Floats.SpecFloat.
From S2P Require Import Prelude FlowTypes Ordering Fairness SafeQueue QueueFactory ManagedQueue.
From S2P Require Import RegistryConfig Leasing Shard Item Registry RegistryInv.

Open Scope go_scope.

(** ** State *)

(** The shard lives in the registry, to which its statistics propagate; the mutable
    parts of the requests are keyed by pointer. *)
Record ShardProcessor := mkProcessor {
  sp_registry : FlowRegistry;
  sp_store : store;
  sp_items : gmap positive ItemState;
  sp_enqueueChan : list (option QueueItem);
  sp_bufferSize : nat;
  sp_isShuttingDown : bool;
  sp_shutdownOnce : bool
}.

Abbreviation PM := (GoM ShardProcessor).

Definition sp_shard (sp : ShardProcessor) : registryShard := fr_shard (sp_registry sp).

Definition sp_with_registry (fr : FlowRegistry) (st : store) (sp : ShardProcessor) : ShardProcessor :=
  mkProcessor fr st (sp_items sp) (sp_enqueueChan sp) (sp_bufferSize sp) (sp_isShuttingDown sp)
    (sp_shutdownOnce sp).

Definition sp_with_items (m : gmap positive ItemState) (sp : ShardProcessor) : ShardProcessor :=
  mkProcessor (sp_registry sp) (sp_store sp) m (sp_enqueueChan sp) (sp_bufferSize sp)
    (sp_isShuttingDown sp) (sp_shutdownOnce sp).

Definition sp_with_chan (c : list (option QueueItem)) (sp : ShardProcessor) : ShardProcessor :=
  mkProcessor (sp_registry sp) (sp_store sp) (sp_items sp) c (sp_bufferSize sp)
    (sp_isShuttingDown sp) (sp_shutdownOnce sp).

Definition sp_with_shutdown (sp : ShardProcessor) : ShardProcessor :=
  mkProcessor (sp_registry sp) (sp_store sp) (sp_items sp) (sp_enqueueChan sp) (sp_bufferSize sp)
    true true.

Definition on_queue {A} (c : RM A) : PM A :=
  λ sp, match c (sp_registry sp, sp_store sp) with
        | Some (a, (fr, st)) => Some (a, sp_with_registry fr st sp)
        | None => None
        end.

(** A method of an item that changes it; a panic inside is a panic. *)
Definition on_item (it : QueueItem) (f : ItemState → option ItemState) : PM unit :=
  λ sp, match sp_items sp !! qi_ptr it with
        | None => None
        | Some s =>
            match f s with
            | Some s' => Some (tt, sp_with_items (<[qi_ptr it := s']> (sp_items sp)) sp)
            | None => None
            end
        end.

Definition item_FinalState (it : QueueItem) (sp : ShardProcessor) : option FinalState :=
  sp_items sp !! qi_ptr it ≫= is_finalState.

Definition finalize_with (outcome : QueueOutcome) (err : option GoError) (it : QueueItem) : PM unit :=
  on_item it (FinalizeWithOutcome outcome err).

(** ** Handing over a request *)

(** [Submit] reads the flag first and then selects among the cases that are ready;
    the choice is the runtime's. [ctxDone]: the processor's context is cancelled. *)
Inductive submit_select (ctxDone : bool) (item : QueueItem)
    : ShardProcessor → option GoError → ShardProcessor → Prop :=
  | select_send sp :
      length (sp_enqueueChan sp) < sp_bufferSize sp →
      submit_select ctxDone item sp None (sp_with_chan (sp_enqueueChan sp ++ [Some item]) sp)
  | select_done sp :
      ctxDone = true → submit_select ctxDone item sp (Some (ESentinel ErrFlowControllerNotRunning)) sp
  | select_default sp :
      sp_bufferSize sp ≤ length (sp_enqueueChan sp) → ctxDone = false →
      submit_select ctxDone item sp (Some (ESentinel ErrProcessorBusy)) sp.

(** [Submit] without interference between the two. *)
Inductive Submit (ctxDone : bool) (item : QueueItem)
    : ShardProcessor → option GoError → ShardProcessor → Prop :=
  | Submit_down sp :
      sp_isShuttingDown sp = true →
      Submit ctxDone item sp (Some (ESentinel ErrFlowControllerNotRunning)) sp
  | Submit_select sp r sp' :
      sp_isShuttingDown sp = false → submit_select ctxDone item sp r sp' →
      Submit ctxDone item sp r sp'.

(** [SubmitOrBlock]: the outcomes of the select; [callerErr] is [ctx.Err()] of the
    caller's context once that is done. *)
Inductive SubmitOrBlock (ctxDone : bool) (callerErr : option GoError) (item : QueueItem)
    : ShardProcessor → option GoError → ShardProcessor → Prop :=
  | SOB_down sp :
      sp_isShuttingDown sp = true →
      SubmitOrBlock ctxDone callerErr item sp (Some (ESentinel ErrFlowControllerNotRunning)) sp
  | SOB_send sp :
      sp_isShuttingDown sp = false → length (sp_enqueueChan sp) < sp_bufferSize sp →
      SubmitOrBlock ctxDone callerErr item sp None
        (sp_with_chan (sp_enqueueChan sp ++ [Some item]) sp)
  | SOB_caller sp err :
      sp_isShuttingDown sp = false → callerErr = Some err →
      SubmitOrBlock ctxDone callerErr item sp (Some err) sp
  | SOB_done sp :
      sp_isShuttingDown sp = false → ctxDone = true →
      SubmitOrBlock ctxDone callerErr item sp (Some (ESentinel ErrFlowControllerNotRunning)) sp.

(** ** Admission *)

Definition exceeds (capacity used more : Z) : bool :=
  bool_decide (0 < capacity)%Z && bool_decide (capacity < Int.u64 (used + more))%Z.

Definition hasCapacity (priority itemByteSize : Z) (s : registryShard) : bool :=
  let stats := Stats s in
  if exceeds (ss_TotalCapacityBytes stats) (ss_TotalByteSize stats) itemByteSize then false
  else if exceeds (ss_TotalCapacityRequests stats) (ss_TotalLen stats) 1 then false
  else
    match ss_PerPriorityBandStats stats !! priority with
    | None => false
    | Some bandStats =>
        if exceeds (pbs_CapacityBytes bandStats) (pbs_ByteSize bandStats) itemByteSize then false
        else if exceeds (pbs_CapacityRequests bandStats) (pbs_Len bandStats) 1 then false
        else true
    end.

Definition rejected (err : GoError) : option GoError := Some (EWrap [ESentinel ErrRejected; err]).

Definition enqueue (item : QueueItem) : PM unit :=
  let key := qi_FlowKey item in
  outcome ← gets (item_FinalState item);
  match outcome with
  | Some _ => mret tt
  | None =>
      shard ← gets sp_shard;
      match ManagedQueue key shard with
      | inr err => finalize_with QueueOutcomeRejectedOther (rejected (EWrap [err])) item
      | inl _ =>
          match PriorityBandAccessorOf (fk_Priority key) shard with
          | inr err => finalize_with QueueOutcomeRejectedOther (rejected (EWrap [err])) item
          | inl _ =>
              if hasCapacity (fk_Priority key) (qi_ByteSize item) shard then
                err ← on_queue (fr_Add key item);
                match err with
                | Some e => finalize_with QueueOutcomeRejectedOther (rejected (EWrap [e])) item
                | None => mret tt
                end
              else finalize_with QueueOutcomeRejectedCapacity (rejected (ESentinel ErrQueueAtCapacity)) item
          end
      end
  end.

(** ** Dispatch *)

(** The state object of a policy belongs to the band. *)
Definition set_policyState (priority : Z) (ps : PolicyState) (sp : ShardProcessor) : ShardProcessor :=
  match sh_priorityBands (sp_shard sp) !! priority with
  | None => sp
  | Some b =>
      sp_with_registry
        (fr_with_shard (with_pbands (<[priority := with_pstate ps b]> (sh_priorityBands (sp_shard sp)))
           (sp_shard sp)) (sp_registry sp)) (sp_store sp) sp
  end.

Definition selectItem (flowGroup : PriorityBandAccessor) : PM (option QueueItem + GoError) :=
  shard ← gets sp_shard;
  match FairnessPolicyOf (pba_Priority flowGroup) shard with
  | inr err => mret (inr (EWrap [err]))
  | inl fairnessP =>
      let '(picked, ps) := fp_Pick fairnessP flowGroup in
      _ ← modify (set_policyState (pba_Priority flowGroup) ps);
      mret match picked with
           | inr err => inr (EWrap [err])
           | inl None => inl None
           | inl (Some queue) => inl (fqa_PeekHead queue)
           end
  end.

Definition dispatchItem (itemAcc : QueueItem) : PM (option GoError) :=
  let key := qi_FlowKey itemAcc in
  shard ← gets sp_shard;
  match ManagedQueue key shard with
  | inr err => mret (Some (EWrap [err]))
  | inl _ =>
      handle ← gets (λ sp, Handle (sp_store sp) itemAcc);
      removed ← on_queue (fr_Remove key handle);
      match removed with
      | inr _ => mret None
      | inl removedItem =>
          _ ← finalize_with QueueOutcomeDispatched None removedItem;
          mret None
      end
  end.

(** The loop over the priority levels; [ceilings[i]] out of range panics. *)
Fixpoint dispatch_loop (saturation : spec_float) (priorities : list Z) (ceilings : list spec_float)
    : PM bool :=
  match priorities with
  | [] => mret false
  | priority :: priorities' =>
      match ceilings with
      | [] => panic
      | usageLimit :: ceilings' =>
          if SFleb usageLimit saturation then mret false
          else
            shard ← gets sp_shard;
            match PriorityBandAccessorOf priority shard with
            | inr _ => dispatch_loop saturation priorities' ceilings'
            | inl originalBand =>
                selected ← selectItem originalBand;
                match selected with
                | inr _ => dispatch_loop saturation priorities' ceilings'
                | inl None => dispatch_loop saturation priorities' ceilings'
                | inl (Some item) =>
                    err ← dispatchItem item;
                    match err with
                    | Some _ => dispatch_loop saturation priorities' ceilings'
                    | None => mret true
                    end
                end
            end
      end
  end.

Definition dispatchCycle (saturation : spec_float) (ComputeLimit : spec_float → list Z → list spec_float)
    : PM bool :=
  priorities ← gets (λ sp, AllOrderedPriorityLevels (sp_shard sp));
  dispatch_loop saturation priorities (ComputeLimit saturation priorities).

(** ** Sweep and shutdown *)

(** Phase 1 of [processAllQueuesConcurrently]. *)
Fixpoint collect_queues (priorities : list Z) (s : registryShard) : list FlowKey :=
  match priorities with
  | [] => []
  | priority :: priorities' =>
      match PriorityBandAccessorOf priority s with
      | inr _ => collect_queues priorities' s
      | inl band => (fqa_FlowKey <$> pba_IterateQueues band) ++ collect_queues priorities' s
      end
  end.

Definition processAllQueuesConcurrently (processFn : FlowKey → PM unit) : PM unit :=
  keys ← gets (λ sp, collect_queues (AllOrderedPriorityLevels (sp_shard sp)) (sp_shard sp));
  for_each keys (λ key,
    shard ← gets sp_shard;
    match ManagedQueue key shard with
    | inr _ => mret tt
    | inl _ => processFn key
    end).

Definition sweep_queue (key : FlowKey) : PM unit :=
  finals ← gets (λ sp it, bool_decide (is_Some (item_FinalState it sp)));
  _ ← on_queue (fr_Cleanup key finals);
  mret tt.

Definition sweepFinalizedItems : PM unit := processAllQueuesConcurrently sweep_queue.

Definition errShutdown : option GoError :=
  Some (EWrap [ESentinel ErrEvicted; ESentinel ErrFlowControllerNotRunning]).

Definition evict_queue (key : FlowKey) : PM unit :=
  removedItems ← on_queue (fr_Drain key);
  for_each removedItems (finalize_with QueueOutcomeEvictedOther errShutdown).

Definition evictAll : PM unit := processAllQueuesConcurrently evict_queue.

(** The drain of the channel: nil items are skipped. *)
Definition reject_buffered (item : option QueueItem) : PM unit :=
  match item with
  | None => mret tt
  | Some it => finalize_with QueueOutcomeRejectedOther (rejected (ESentinel ErrFlowControllerNotRunning)) it
  end.

Definition shutdown : PM unit :=
  ran ← gets sp_shutdownOnce;
  if (ran : bool) then mret tt
  else
    _ ← modify sp_with_shutdown;
    buffered ← gets sp_enqueueChan;
    _ ← modify (sp_with_chan []);
    _ ← for_each buffered reject_buffered;
    evictAll.

(** ** The run loop *)

(** One iteration: an item is received (and a dispatch follows), a tick of the
    dispatch ticker, or the context is done. *)
Inductive event :=
  | EvItem
  | EvTick
  | EvDone.

(** The boolean result: the loop goes on. *)
Definition run_iteration (saturation : spec_float)
    (ComputeLimit : spec_float → list Z → list spec_float) (e : event) : PM bool :=
  match e with
  | EvDone => _ ← shutdown; mret false
  | EvTick => _ ← dispatchCycle saturation ComputeLimit; mret true
  | EvItem =>
      chan ← gets sp_enqueueChan;
      match chan with
      | [] => mret true                                      (* the case is not ready *)
      | None :: rest => _ ← modify (sp_with_chan rest); mret true
      | Some item :: rest =>
          _ ← modify (sp_with_chan rest);
          _ ← enqueue item;
          _ ← dispatchCycle saturation ComputeLimit;
          mret true
      end
  end.
