(* ===== verification/ProcessorInv.v ===== *)
(** * Properties of the shard processor

    No request is lost: one that was handed over is in the channel, in a queue, or
    finalized. Admission respects the capacity limits, dispatch respects priorities
    and saturation, the sweep removes the finalized requests and nothing else, and
    shutdown finalizes everything. *)

From stdpp Require Import prelude gmap strings list.
From Stdlib Require Import Lia Floats.SpecFloat.
From S2P Require Import Prelude FlowTypes Ordering Fairness SafeQueue QueueFactory ManagedQueue.
From S2P Require Import RegistryConfig Leasing Shard Item Registry RegistryInv Processor.

Open Scope go_scope.

(** ** Invariant *)

(** An item in one of the queues. *)
Definition queued (s : registryShard) (it : QueueItem) : Prop :=
  ∃ key mq, queue_at s key mq ∧ it ∈ mq_contents mq.

(** [pending]: the items handed over and not yet admitted, in particular those of the
    channel. *)
Record pinv (sp : ShardProcessor) (open : list connection) (pending : list (option QueueItem)) : Prop := {
  pv_registry : registry_inv (sp_registry sp) (sp_store sp) open;
  pv_wf : ∀ ptr s, sp_items sp !! ptr = Some s → item_wf s;
  pv_queued : ∀ key mq it, queue_at (sp_shard sp) key mq → it ∈ mq_contents mq →
    qi_FlowKey it = key ∧ is_Some (sp_items sp !! qi_ptr it);
  pv_pending : ∀ it, Some it ∈ pending →
    is_Some (sp_items sp !! qi_ptr it) ∧ item_ok it ∧ fresh_item (sp_shard sp) it;
  pv_nodup : NoDup (omap (fmap qi_ptr) pending);
  pv_kept : ∀ ptr s, sp_items sp !! ptr = Some s → is_finalState s = None →
    (∃ it, Some it ∈ pending ∧ qi_ptr it = ptr) ∨ (∃ it, queued (sp_shard sp) it ∧ qi_ptr it = ptr)
}.

Definition proc_inv (sp : ShardProcessor) (open : list connection) : Prop :=
  pinv sp open (sp_enqueueChan sp).

(** ** Finalization *)

(** The items after [it] has been given [f], if it had no final state. *)
Definition finalize_in (it : QueueItem) (f : FinalState) (m : gmap positive ItemState) :
    gmap positive ItemState :=
  match m !! qi_ptr it with
  | Some s => match is_finalState s with
              | Some _ => <[qi_ptr it := s]> m
              | None => <[qi_ptr it := finalized f]> m
              end
  | None => m
  end.

Lemma finalize_with_spec sp o e it s :
  sp_items sp !! qi_ptr it = Some s → item_wf s →
  finalize_with o e it sp =
    Some (tt, sp_with_items (finalize_in it (mkFinalState o e) (sp_items sp)) sp).
Proof.
  intros Hs Hwf. unfold finalize_with, on_item, finalize_in. rewrite Hs, FinalizeWithOutcome_spec by done.
  by destruct (is_finalState s).
Qed.

Lemma finalize_in_lookup it f m ptr :
  finalize_in it f m !! ptr =
  s ← m !! ptr; Some (if bool_decide (ptr = qi_ptr it) then
                        match is_finalState s with Some _ => s | None => finalized f end
                      else s).
Proof.
  unfold finalize_in. destruct (m !! qi_ptr it) as [s|] eqn:Hs.
  - destruct (is_finalState s) eqn:E; rewrite lookup_insert; case_decide as Ep; subst;
      rewrite ?Hs; simpl; rewrite ?E, ?bool_decide_eq_true_2 by done; try done;
      rewrite bool_decide_eq_false_2 by done; by destruct (m !! ptr).
  - case_bool_decide as Ep; [subst; by rewrite Hs|]. by destruct (m !! ptr).
Qed.

Lemma finalize_in_inv it f m ptr s' :
  finalize_in it f m !! ptr = Some s' →
  ∃ s, m !! ptr = Some s ∧ (s' = s ∨ (ptr = qi_ptr it ∧ s' = finalized f ∧ is_finalState s = None)).
Proof.
  rewrite finalize_in_lookup. destruct (m !! ptr) as [s|]; [|done]. simpl. intros [= <-].
  exists s. split; [done|]. case_bool_decide; [|by left]. destruct (is_finalState s); [by left|by right].
Qed.

Lemma finalize_in_is_Some it f m ptr : is_Some (finalize_in it f m !! ptr) ↔ is_Some (m !! ptr).
Proof.
  rewrite finalize_in_lookup. destruct (m !! ptr); simpl; [|done]. split; intros _; eauto.
Qed.

Lemma pinv_finalize sp open pending it f :
  pinv sp open pending → pinv (sp_with_items (finalize_in it f (sp_items sp)) sp) open pending.
Proof.
  intros [V1 V2 V3 V4 V5 V6]. split; simpl; try done.
  - intros ptr s (s0 & Hs0 & [->|(_ & -> & _)])%finalize_in_inv; [by eapply V2|apply finalized_wf].
  - intros key mq i Hq Hi. rewrite finalize_in_is_Some. by apply (V3 key mq).
  - intros i Hi. rewrite finalize_in_is_Some. by apply V4.
  - intros ptr s (s0 & Hs0 & [->|(_ & -> & _)])%finalize_in_inv Hf; [by eapply V6|done].
Qed.

(** A finalized item need not be tracked further. *)
Lemma pinv_drop sp open pending it :
  pinv sp open (Some it :: pending) → is_Some (item_FinalState it sp) → pinv sp open pending.
Proof.
  intros [V1 V2 V3 V4 V5 V6] [f Hf]. split; try done.
  - intros i Hi. apply V4. by right.
  - simpl in V5. by apply NoDup_cons in V5 as [_ V5].
  - intros ptr s Hs Hn. destruct (V6 ptr s Hs Hn) as [(i & Hi & <-)|?]; [|by right].
    apply elem_of_cons in Hi as [[= ->]|Hi]; [|left; eauto].
    unfold item_FinalState in Hf. rewrite Hs in Hf. simpl in Hf. congruence.
Qed.

Lemma finalize_in_FinalState sp it f :
  is_Some (sp_items sp !! qi_ptr it) →
  is_Some (item_FinalState it (sp_with_items (finalize_in it f (sp_items sp)) sp)).
Proof.
  intros [s Hs]. unfold item_FinalState. simpl. rewrite finalize_in_lookup, Hs. simpl.
  rewrite bool_decide_eq_true_2 by done. destruct (is_finalState s) eqn:E; simpl; eauto.
Qed.

(** Finalizing the item at hand. *)
Lemma finalize_head_spec sp open pending it o e :
  pinv sp open (Some it :: pending) →
  wp (finalize_with o e it) (λ _ sp', pinv sp' open pending ∧ is_Some (item_FinalState it sp') ∧
    sp' = sp_with_items (finalize_in it (mkFinalState o e) (sp_items sp)) sp) sp.
Proof.
  intros Hv. destruct (pv_pending _ _ _ Hv it) as ([s Hs] & _ & _); [set_solver|].
  unfold wp. rewrite (finalize_with_spec _ _ _ _ s) by (done || by eapply pv_wf).
  assert (is_Some (item_FinalState it (sp_with_items (finalize_in it (mkFinalState o e) (sp_items sp)) sp)))
    by (apply finalize_in_FinalState; eauto).
  split_and!; [|done|done]. eapply pinv_drop; [|done]. by apply pinv_finalize.
Qed.

(** ** Queue operations *)

Lemma wp_on_queue {A} (c : RM A) Q sp :
  wp c (λ a '(fr, st), Q a (sp_with_registry fr st sp)) (sp_registry sp, sp_store sp) → wp (on_queue c) Q sp.
Proof. unfold wp, on_queue. by destruct (c (sp_registry sp, sp_store sp)) as [[a [fr st]]|]. Qed.

Lemma fresh_item_spec s it : fresh_item s it ↔ ∀ i, queued s i → qi_ptr i ≠ qi_ptr it.
Proof. unfold fresh_item, queued. naive_solver. Qed.

Lemma updated_old s s' key mq mq' : updated s s' key mq mq' → queue_at s key mq.
Proof. intros [(b & _ & Hb & Hmq & _) _ _ _ _ _ _]. by exists b. Qed.

Lemma updated_queued s s' key mq mq' i :
  updated s s' key mq mq' →
  queued s' i ↔ i ∈ mq_contents mq' ∨ ∃ k q, k ≠ key ∧ queue_at s k q ∧ i ∈ mq_contents q.
Proof.
  intros Hup. unfold queued. setoid_rewrite (updated_queue_at _ _ _ _ _ _ _ Hup). naive_solver.
Qed.

Lemma updated_queued_old s s' key mq mq' i :
  updated s s' key mq mq' →
  queued s i ↔ i ∈ mq_contents mq ∨ ∃ k q, k ≠ key ∧ queue_at s k q ∧ i ∈ mq_contents q.
Proof.
  intros Hup. pose proof (updated_old _ _ _ _ _ Hup) as Hq. split.
  - intros (k & q & Hk & Hi). destruct (decide (k = key)) as [->|Hne]; [|right; eauto].
    left. by rewrite (queue_at_fun _ _ _ _ Hq Hk).
  - intros [Hi|(k & q & _ & Hk & Hi)]; eexists _, _; eauto.
Qed.

(** Admitting the item at hand. *)
Lemma pinv_added sp open pending it mq mq' fr st :
  pinv sp open (Some it :: pending) → registry_inv fr st open →
  updated (sp_shard sp) (fr_shard fr) (qi_FlowKey it) mq mq' → mq_contents mq' ≡ₚ it :: mq_contents mq →
  pinv (sp_with_registry fr st sp) open pending.
Proof.
  intros [V1 V2 V3 V4 V5 V6] Hreg Hup HP. pose proof (updated_old _ _ _ _ _ Hup) as Hq.
  simpl in V5. apply NoDup_cons in V5 as [Hnew V5].
  destruct (V4 it) as (Hit & Hok & Hfr); [set_solver|].
  assert (∀ i, queued (fr_shard fr) i ↔ i = it ∨ queued (sp_shard sp) i) as Hqd.
  { intros i. rewrite (updated_queued _ _ _ _ _ _ Hup), (updated_queued_old _ _ _ _ _ _ Hup), HP. set_solver. }
  split; simpl; try done.
  - intros key mq0 i. unfold sp_shard at 1. simpl. rewrite (updated_queue_at _ _ _ _ _ _ _ Hup).
    intros [[-> ->]|[Hne Hq0]] Hi; [|by apply (V3 key mq0)].
    rewrite HP in Hi. apply elem_of_cons in Hi as [->|Hi]; [done|]. by apply (V3 _ mq).
  - intros i Hi. destruct (V4 i) as (H1 & H2 & H3); [by right|]. split_and!; try done.
    apply fresh_item_spec. intros j [->|Hj]%Hqd; [|rewrite fresh_item_spec in H3; by apply H3].
    intros E. apply Hnew. apply list_elem_of_omap. exists (Some i). split; [done|]. simpl. by rewrite E.
  - intros ptr s Hs Hf. destruct (V6 ptr s Hs Hf) as [(i & Hi & <-)|(i & Hi & <-)].
    + apply elem_of_cons in Hi as [[= ->]|Hi]; [|left; eauto]. right. exists it. split; [|done].
      apply Hqd. by left.
    + right. exists i. split; [|done]. apply Hqd. by right.
Qed.

Lemma omap_Some_ptrs (l : list QueueItem) : omap (fmap qi_ptr) (Some <$> l) = ptrs l.
Proof. induction l as [|x l IH]; csimpl; [done|]. by rewrite IH. Qed.

(** Items taken out of a queue are at hand. *)
Lemma pinv_removed sp open pending key mq mq' rem fr st :
  pinv sp open pending → registry_inv fr st open →
  updated (sp_shard sp) (fr_shard fr) key mq mq' → mq_contents mq ≡ₚ rem ++ mq_contents mq' →
  pinv (sp_with_registry fr st sp) open ((Some <$> rem) ++ pending).
Proof.
  intros [V1 V2 V3 V4 V5 V6] Hreg Hup HP. pose proof (updated_old _ _ _ _ _ Hup) as Hq.
  pose proof (tp_shard _ _ _ _ (ri_topology _ _ _ V1)) as Hwf. fold (sp_shard sp) in Hwf.
  destruct (sw_queue _ _ Hwf _ _ Hq) as [Hmw _].
  pose proof (sqs_nodup _ _ (mqw_queue _ _ Hmw)) as Hnd. fold (mq_contents mq) in Hnd.
  pose proof (sqs_items_ok _ _ (mqw_queue _ _ Hmw)) as Hok. fold (mq_contents mq) in Hok.
  assert (∀ i, i ∈ rem → i ∈ mq_contents mq) as Hrem by (intros i Hi; rewrite HP; set_solver).
  assert (∀ i, queued (fr_shard fr) i → queued (sp_shard sp) i) as Hsub.
  { intros i. rewrite (updated_queued _ _ _ _ _ _ Hup), (updated_queued_old _ _ _ _ _ _ Hup), HP. set_solver. }
  assert (NoDup (ptrs rem ++ ptrs (mq_contents mq'))) as Hnd2.
  { unfold ptrs in *. by rewrite <- fmap_app, <- HP. }
  apply NoDup_app in Hnd2 as (Hn1 & Hn2 & _).
  split; simpl; try done.
  - intros k q i Hk Hi. unfold sp_shard in Hk. simpl in Hk.
    apply (updated_queue_at _ _ _ _ _ _ _ Hup) in Hk as [[-> ->]|[_ Hk]]; [|by apply (V3 k q)].
    apply (V3 key mq); [done|]. rewrite HP. set_solver.
  - intros i [Hi|Hi]%elem_of_app.
    + apply list_elem_of_fmap in Hi as (i' & [= <-] & Hi). split_and!.
      * by apply (V3 key mq), Hrem.
      * rewrite Forall_forall in Hok. by apply Hok, Hrem.
      * apply fresh_item_spec. intros j Hj E. unfold sp_shard in Hj. simpl in Hj.
        apply (updated_queued _ _ _ _ _ _ Hup) in Hj as [Hj|(k & q & Hne & Hk & Hj)].
        { apply (Hn2 (qi_ptr i)); [|rewrite <- E]; by apply list_elem_of_fmap_2. }
        { apply Hne. by eapply (sw_disjoint _ _ Hwf k q key mq j i Hk Hq Hj (Hrem i Hi)). }
    + destruct (V4 i Hi) as (H1 & H2 & H3). split_and!; try done. apply fresh_item_spec.
      intros j Hj%Hsub. rewrite fresh_item_spec in H3; by apply H3.
  - rewrite omap_app, omap_Some_ptrs. apply NoDup_app. split_and!; [done| |done].
    intros p Hp Hp2. apply list_elem_of_fmap in Hp as (i & -> & Hi).
    apply list_elem_of_omap in Hp2 as ([j|] & Hj & E); [|done]. injection E as E.
    destruct (V4 j Hj) as (_ & _ & H3). apply (H3 key mq i Hq (Hrem i Hi)). done.
  - intros ptr s Hs Hf. destruct (V6 ptr s Hs Hf) as [(i & Hi & <-)|(i & Hi & <-)].
    + left. exists i. split; [|done]. set_solver.
    + rewrite (updated_queued_old _ _ _ _ _ _ Hup) in Hi. unfold sp_shard at 1. simpl.
      setoid_rewrite (updated_queued _ _ _ _ _ _ Hup). destruct Hi as [Hi|Hi]; [|right; eauto].
      rewrite HP in Hi. apply elem_of_app in Hi as [Hi|Hi]; [|right; eauto].
      left. exists i. split; [|done]. apply elem_of_app. left. by apply list_elem_of_fmap_2.
Qed.

(** ** Admission *)

(** What [enqueue] does with a request. *)
Inductive enqueue_result (sp : ShardProcessor) (it : QueueItem) : ShardProcessor → Prop :=
  | ER_finalized :
      is_Some (item_FinalState it sp) → enqueue_result sp it sp
  | ER_no_queue err :
      item_FinalState it sp = None → ManagedQueue (qi_FlowKey it) (sp_shard sp) = inr err →
      enqueue_result sp it (sp_with_items
        (finalize_in it (mkFinalState QueueOutcomeRejectedOther (rejected (EWrap [err]))) (sp_items sp)) sp)
  | ER_capacity mq :
      item_FinalState it sp = None → queue_at (sp_shard sp) (qi_FlowKey it) mq →
      hasCapacity (fk_Priority (qi_FlowKey it)) (qi_ByteSize it) (sp_shard sp) = false →
      enqueue_result sp it (sp_with_items
        (finalize_in it (mkFinalState QueueOutcomeRejectedCapacity
           (rejected (ESentinel ErrQueueAtCapacity))) (sp_items sp)) sp)
  | ER_admitted mq mq' fr st :
      item_FinalState it sp = None →
      hasCapacity (fk_Priority (qi_FlowKey it)) (qi_ByteSize it) (sp_shard sp) = true →
      updated (sp_shard sp) (fr_shard fr) (qi_FlowKey it) mq mq' →
      mq_contents mq' ≡ₚ it :: mq_contents mq →
      enqueue_result sp it (sp_with_registry fr st sp).

(** No queue is near [2^63] items. *)
Definition room (s : registryShard) : Prop :=
  ∀ key mq, queue_at s key mq → (queue_len mq + 1 < Int.two63)%Z.

Lemma queue_band s key mq :
  queue_at s key mq → ∃ b, PriorityBandAccessorOf (fk_Priority key) s = inl (priorityBandAccessor b) ∧
    sh_priorityBands s !! fk_Priority key = Some b.
Proof. intros (b & Hb & _). exists b. unfold PriorityBandAccessorOf. by rewrite Hb. Qed.

Lemma enqueue_spec sp open pending it :
  pinv sp open (Some it :: pending) → room (sp_shard sp) →
  wp (enqueue it) (λ _ sp', pinv sp' open pending ∧ enqueue_result sp it sp' ∧
    sp_enqueueChan sp' = sp_enqueueChan sp) sp.
Proof.
  intros Hv Hroom. apply wp_bind, wp_gets. destruct (item_FinalState it sp) as [f|] eqn:Hf.
  { apply wp_ret. split_and!; [|constructor; rewrite Hf; eauto|done]. eapply pinv_drop; [done|]. rewrite Hf. eauto. }
  apply wp_bind, wp_gets. destruct (ManagedQueue (qi_FlowKey it) (sp_shard sp)) as [mq|err] eqn:Hq.
  2:{ eapply wp_mono; [by eapply finalize_head_spec|]. intros [] sp' (Hv' & _ & ->).
      split_and!; [done|by constructor|done]. }
  apply ManagedQueue_inl in Hq. destruct (queue_band _ _ _ Hq) as (b & Hb & _). rewrite Hb.
  destruct (hasCapacity (fk_Priority (qi_FlowKey it)) (qi_ByteSize it) (sp_shard sp)) eqn:Hcap.
  2:{ eapply wp_mono; [by eapply finalize_head_spec|]. intros [] sp' (Hv' & _ & ->).
      split_and!; [done|by econstructor|done]. }
  destruct (pv_pending _ _ _ Hv it) as (_ & Hok & Hfr); [set_solver|].
  apply wp_bind, wp_on_queue.
  eapply wp_mono; [apply (fr_add_spec _ _ open _ mq); [apply Hv|done..|by eapply Hroom]|].
  intros err [fr st] (-> & Hreg & mq' & Hup & HP). apply wp_ret.
  split_and!; [by eapply pinv_added|by econstructor|done].
Qed.

(** A limit of zero is no limit. *)
Definition within (capacity used : Z) : Prop := capacity = 0%Z ∨ (used ≤ capacity)%Z.

Record within_limits (s : registryShard) : Prop := {
  wl_bytes : within (sc_MaxBytes (sh_config s)) (sum_map band_bytes_sum (sh_priorityBands s));
  wl_len : within (sc_MaxRequests (sh_config s)) (sum_map band_len_sum (sh_priorityBands s));
  wl_bands : ∀ p b, sh_priorityBands s !! p = Some b →
    within (pbc_MaxBytes (pb_config b)) (band_bytes_sum b) ∧
    within (pbc_MaxRequests (pb_config b)) (band_len_sum b)
}.

Lemma exceeds_within capacity used more :
  (0 ≤ capacity)%Z → (0 ≤ used + more < Int.two64)%Z →
  exceeds capacity used more = false ↔ within capacity (used + more).
Proof.
  intros Hc Hr. unfold exceeds, within. rewrite Int.u64_small by done.
  rewrite andb_false_iff, !bool_decide_eq_false. lia.
Qed.

(** The sums with one more item stay below [2^64]. *)
Definition sizes_fit (s : registryShard) (more : Z) : Prop :=
  (sum_map band_bytes_sum (sh_priorityBands s) + more < Int.two64)%Z ∧
  (sum_map band_len_sum (sh_priorityBands s) + 1 < Int.two64)%Z.

Lemma sum_map_nonneg_in {K A} `{!EqDecision K} `{!Countable K} (f : A → Z) (m : gmap K A) :
  (∀ k x, m !! k = Some x → 0 ≤ f x)%Z → (0 ≤ sum_map f m)%Z.
Proof.
  induction m as [|k x m Hk IH] using map_ind; intros Hf; [by rewrite sum_map_empty|].
  rewrite sum_map_insert by done. pose proof (Hf k x (lookup_insert_eq _ _ _)).
  assert (0 ≤ sum_map f m)%Z; [|lia]. apply IH. intros k' x' Hk'. apply (Hf k').
  rewrite lookup_insert_ne; [done|congruence].
Qed.

Lemma sum_map_member {K A} `{!EqDecision K} `{!Countable K} (f : A → Z) (m : gmap K A) k x :
  (∀ k x, m !! k = Some x → 0 ≤ f x)%Z → m !! k = Some x → (f x ≤ sum_map f m)%Z.
Proof.
  intros Hf Hx. rewrite (sum_map_delete f m k x) by done.
  assert (0 ≤ sum_map f (delete k m))%Z; [|lia].
  apply sum_map_nonneg_in. intros k' x' [_ Hk']%lookup_delete_Some. by apply (Hf k').
Qed.

Lemma band_sums_nonneg s st p b :
  shard_wf s st → sh_priorityBands s !! p = Some b → (0 ≤ band_bytes_sum b ∧ 0 ≤ band_len_sum b)%Z.
Proof.
  intros Hwf Hb. split; apply sum_map_nonneg_in; intros id mq Hmq.
  - destruct (sw_queue _ _ Hwf (mkFlowKey id p) mq) as [Hm _]; [by exists b|].
    apply total_bytes_nonneg, (sqs_items_ok _ _ (mqw_queue _ _ Hm)).
  - unfold queue_len. lia.
Qed.

(** The check of [enqueue] in terms of what the queues hold. *)
Lemma hasCapacity_spec s st c rs p size b :
  topology c rs s st → sizes_fit s size → (0 ≤ size)%Z → sh_priorityBands s !! p = Some b →
  hasCapacity p size s = true ↔
    within (sc_MaxBytes (sh_config s)) (sum_map band_bytes_sum (sh_priorityBands s) + size) ∧
    within (sc_MaxRequests (sh_config s)) (sum_map band_len_sum (sh_priorityBands s) + 1) ∧
    within (pbc_MaxBytes (pb_config b)) (band_bytes_sum b + size) ∧
    within (pbc_MaxRequests (pb_config b)) (band_len_sum b + 1).
Proof.
  intros Ht [F1 F2] Hsz Hb. pose proof (tp_shard _ _ _ _ Ht) as Hwf.
  destruct (Stats_agree s st Hwf) as (S1 & S2 & S3).
  assert (∀ q b, sh_priorityBands s !! q = Some b → 0 ≤ band_bytes_sum b)%Z as N1
    by (intros; by eapply band_sums_nonneg).
  assert (∀ q b, sh_priorityBands s !! q = Some b → 0 ≤ band_len_sum b)%Z as N2
    by (intros; by eapply band_sums_nonneg).
  pose proof (sum_map_member _ _ _ _ N1 Hb). pose proof (sum_map_member _ _ _ _ N2 Hb).
  pose proof (N1 _ _ Hb). pose proof (N2 _ _ Hb).
  assert (cfg_PriorityBands c !! p = Some (pb_config b)) as Hcfg by by rewrite (tp_bands _ _ _ _ Ht), Hb.
  destruct (co_bands _ (tp_config _ _ _ _ Ht) _ _ Hcfg) as (_ & [? _] & [? _]).
  destruct (co_bytes _ (tp_config _ _ _ _ Ht)) as [? _].
  destruct (co_requests _ (tp_config _ _ _ _ Ht)) as [? _].
  rewrite <- (tp_shard_bytes _ _ _ _ Ht), <- (tp_shard_requests _ _ _ _ Ht) in *.
  unfold hasCapacity. rewrite S1, S2, S3, Hb. simpl. rewrite !Int.u64_small by lia.
  rewrite <- !exceeds_within by lia.
  repeat (destruct (exceeds _ _ _)); naive_solver.
Qed.

(** The request fits the limits of shard and band. *)
Definition fits (s : registryShard) (it : QueueItem) : Prop :=
  within (sc_MaxBytes (sh_config s)) (sum_map band_bytes_sum (sh_priorityBands s) + qi_ByteSize it) ∧
  within (sc_MaxRequests (sh_config s)) (sum_map band_len_sum (sh_priorityBands s) + 1) ∧
  ∀ b, sh_priorityBands s !! fk_Priority (qi_FlowKey it) = Some b →
    within (pbc_MaxBytes (pb_config b)) (band_bytes_sum b + qi_ByteSize it) ∧
    within (pbc_MaxRequests (pb_config b)) (band_len_sum b + 1).

Lemma updated_within s s' it mq mq' :
  updated s s' (qi_FlowKey it) mq mq' → mq_contents mq' ≡ₚ it :: mq_contents mq →
  within_limits s → fits s it → within_limits s'.
Proof.
  intros Hup HP [W1 W2 W3] (F1 & F2 & F3).
  destruct (updated_sums _ _ _ _ _ Hup) as (b & b' & Hb & Hbands & S1 & S2 & S3 & S4).
  assert (queue_len mq' - queue_len mq = 1)%Z as El by (unfold queue_len; rewrite HP; simpl; lia).
  assert (queue_bytes mq' - queue_bytes mq = qi_ByteSize it)%Z as Eb
    by (unfold queue_bytes; rewrite HP; simpl; lia).
  rewrite El in S1, S3. rewrite Eb in S2, S4. destruct (F3 b Hb) as [F4 F5].
  split; rewrite ?(up_config _ _ _ _ _ Hup), ?S3, ?S4; try done.
  intros p b0. rewrite Hbands, lookup_insert. case_decide as E; [|apply W3]. intros [= <-].
  assert (pb_config b' = pb_config b) as ->; [|by rewrite S1, S2].
  destruct (up_band _ _ _ _ _ Hup) as (b1 & b1' & Hb1 & _ & Hbands1 & _ & Hc & _).
  assert (b1 = b) as -> by congruence. rewrite <- Hc. f_equal.
  assert (sh_priorityBands s' !! fk_Priority (qi_FlowKey it) = Some b') as E1
    by (rewrite Hbands; apply lookup_insert_eq).
  rewrite Hbands1, lookup_insert_eq in E1. congruence.
Qed.

Lemma hasCapacity_fits sp open pending it mq :
  pinv sp open (Some it :: pending) → sizes_fit (sp_shard sp) (qi_ByteSize it) →
  queue_at (sp_shard sp) (qi_FlowKey it) mq →
  hasCapacity (fk_Priority (qi_FlowKey it)) (qi_ByteSize it) (sp_shard sp) = true ↔ fits (sp_shard sp) it.
Proof.
  intros Hv Hf (b & Hb & _). destruct (pv_pending _ _ _ Hv it) as (_ & [Hsz _] & _); [set_solver|].
  pose proof (ri_topology _ _ _ (pv_registry _ _ _ Hv)) as Ht.
  rewrite (hasCapacity_spec _ _ _ _ _ _ _ Ht Hf Hsz Hb). unfold fits. fold (sp_shard sp). rewrite Hb.
  naive_solver.
Qed.

Lemma finalize_in_lookup_eq it f m s :
  m !! qi_ptr it = Some s → is_finalState s = None → finalize_in it f m !! qi_ptr it = Some (finalized f).
Proof.
  intros Hs Hf. rewrite finalize_in_lookup, Hs. simpl. by rewrite bool_decide_eq_true_2, Hf.
Qed.

(** C39. Admission control. For a live request whose queue exists, [enqueue] admits it to
    its queue exactly if it fits the remaining capacity of the shard and of its
    priority band, in bytes and in requests, where a limit of zero means unlimited;
    otherwise the request is finalized as rejected for capacity with an error that
    wraps [ErrRejected] and [ErrQueueAtCapacity]. Limits that are respected stay
    respected. *)
Theorem enqueue_respects_capacity (sp : ShardProcessor) (open : list connection)
    (pending : list (option QueueItem)) (it : QueueItem) (mq : MQ)
    (Hinv : pinv sp open (Some it :: pending)) (Hroom : room (sp_shard sp))
    (Hsizes : sizes_fit (sp_shard sp) (qi_ByteSize it)) (Hlive : item_FinalState it sp = None)
    (Hqueue : queue_at (sp_shard sp) (qi_FlowKey it) mq) (Hlim : within_limits (sp_shard sp)) :
  ∃ sp', enqueue it sp = Some (tt, sp') ∧ within_limits (sp_shard sp') ∧
    (fits (sp_shard sp) it → queued (sp_shard sp') it ∧ item_FinalState it sp' = None) ∧
    (¬ fits (sp_shard sp) it → sp_shard sp' = sp_shard sp ∧
       item_FinalState it sp' = Some (mkFinalState QueueOutcomeRejectedCapacity
         (Some (EWrap [ESentinel ErrRejected; ESentinel ErrQueueAtCapacity])))).
Proof.
  pose proof (hasCapacity_fits _ _ _ _ _ Hinv Hsizes Hqueue) as Hcap.
  pose proof (enqueue_spec _ _ _ _ Hinv Hroom) as ([] & sp' & Hrun & _ & Hres & _)%wp_run.
  exists sp'. split; [done|]. destruct Hres as [Hf|err _ Hq|mq0 _ _ Hc|mq0 mq' fr st _ Hc Hup HP].
  - destruct Hf. congruence.
  - apply ManagedQueue_inl in Hqueue. congruence.
  - split_and!; [done| |].
    + intros Hfit%Hcap. congruence.
    + intros _. split; [done|]. destruct (pv_pending _ _ _ Hinv it) as ([s Hs] & _); [set_solver|].
      unfold item_FinalState in *. rewrite Hs in Hlive. simpl in *.
      by rewrite (finalize_in_lookup_eq _ _ _ s).
  - apply Hcap in Hc as Hfit. split_and!.
    + by eapply updated_within.
    + intros _. split; [|done]. apply (updated_queued _ _ _ _ _ _ Hup). left. rewrite HP. set_solver.
    + intros Hn. by destruct Hn.
Qed.

(** ** Dispatch *)

(** The state of a policy does not matter to the shard. *)
Lemma with_pstate_wf s st p b ps :
  shard_wf s st → sh_priorityBands s !! p = Some b →
  shard_wf (with_pbands (<[p := with_pstate ps b]> (sh_priorityBands s)) s) st ∧
  ∀ key mq, queue_at (with_pbands (<[p := with_pstate ps b]> (sh_priorityBands s)) s) key mq ↔ queue_at s key mq.
Proof.
  intros [W1 W2 W3 W4 W5 W6 W7 W8] Hb.
  assert (∀ key mq, queue_at (with_pbands (<[p := with_pstate ps b]> (sh_priorityBands s)) s) key mq
    ↔ queue_at s key mq) as Hq.
  { intros key mq. unfold queue_at. simpl. setoid_rewrite lookup_insert. case_decide as E; [|done].
    rewrite <- E. split; [intros (b' & [= <-] & ?)|intros (b' & Hb' & ?)]; eexists; split; try done.
    simpl. congruence. }
  split; [|done]. split; cbn [sh_priorityBands with_pbands sh_totalLen sh_totalByteSize sh_orderedPriorityLevels].
  - intros q b'. rewrite lookup_insert. case_decide; [subst; intros [= <-]; exact (W1 _ _ Hb)|apply W1].
  - intros key mq Hk%Hq. by apply W2.
  - intros k1 q1 k2 q2 i1 i2 H1%Hq H2%Hq. by eapply W3.
  - intros q b'. rewrite lookup_insert. case_decide; [subst; intros [= <-]; exact (W4 _ _ Hb)|apply W4].
  - rewrite W5, (sum_map_update _ _ _ _ b) by done.
    change (band_len_sum (with_pstate ps b)) with (band_len_sum b). f_equal. lia.
  - rewrite W6, (sum_map_update _ _ _ _ b) by done.
    change (band_bytes_sum (with_pstate ps b)) with (band_bytes_sum b). f_equal. lia.
  - done.
  - intros q. rewrite W8, lookup_insert. case_decide; [subst; rewrite Hb|]; naive_solver.
Qed.

(** Two processors with the same queues and requests. *)
Record same_queues (sp sp' : ShardProcessor) : Prop := {
  sq_same : ∀ key mq, queue_at (sp_shard sp') key mq ↔ queue_at (sp_shard sp) key mq;
  sq_items : sp_items sp' = sp_items sp;
  sq_store : sp_store sp' = sp_store sp;
  sq_chan : sp_enqueueChan sp' = sp_enqueueChan sp;
  sq_levels : sh_orderedPriorityLevels (sp_shard sp') = sh_orderedPriorityLevels (sp_shard sp)
}.

Lemma same_queues_refl sp : same_queues sp sp.
Proof. by split. Qed.

Lemma same_queues_trans sp1 sp2 sp3 : same_queues sp1 sp2 → same_queues sp2 sp3 → same_queues sp1 sp3.
Proof.
  intros [A1 A2 A3 A4 A5] [B1 B2 B3 B4 B5]. split; try congruence. intros key mq. by rewrite B1, A1.
Qed.

Lemma pinv_same sp sp' open pending :
  pinv sp open pending → same_queues sp sp' → registry_inv (sp_registry sp') (sp_store sp') open →
  pinv sp' open pending.
Proof.
  intros [V1 V2 V3 V4 V5 V6] [S1 S2 S3 S4 S5] Hreg.
  assert (∀ i, queued (sp_shard sp') i ↔ queued (sp_shard sp) i) as Hqd.
  { intros i. unfold queued. by setoid_rewrite S1. }
  split; rewrite ?S2; try done.
  - intros key mq it Hq%S1. by apply V3.
  - intros it Hit. destruct (V4 it Hit) as (H1 & H2 & H3). split_and!; try done.
    rewrite fresh_item_spec in *. intros i Hi%Hqd. by apply H3.
  - intros ptr s Hs Hf. destruct (V6 ptr s Hs Hf) as [?|(i & Hi & <-)]; [by left|].
    right. exists i. by rewrite Hqd.
Qed.

Lemma set_policyState_spec sp open pending p ps b :
  pinv sp open pending → sh_priorityBands (sp_shard sp) !! p = Some b →
  pinv (set_policyState p ps sp) open pending ∧ same_queues sp (set_policyState p ps sp) ∧
  ∀ q, q ≠ p → sh_priorityBands (sp_shard (set_policyState p ps sp)) !! q = sh_priorityBands (sp_shard sp) !! q.
Proof.
  intros Hv Hb. pose proof (pv_registry _ _ _ Hv) as [Ht Hl Hqs Hbs].
  destruct (with_pstate_wf _ _ p b ps (tp_shard _ _ _ _ Ht) Hb) as [Hwf Hq].
  unfold set_policyState. rewrite Hb. set (sp' := sp_with_registry _ _ sp).
  assert (same_queues sp sp') as Hsame by (split; [exact Hq|done..]).
  split_and!; [|done|intros q Hne; unfold sp', sp_shard; simpl; by rewrite lookup_insert_ne].
  eapply pinv_same; [done|done|]. destruct Ht as [T1 T2 T3 T4 T5 T6 T7 T8 T9 T10 T11].
  split; simpl; try done.
  - split; try done; intros q; simpl; rewrite lookup_insert; case_decide; try done; subst q.
    + by rewrite T7; unfold sp_shard in Hb; rewrite Hb.
    + by rewrite T10; unfold sp_shard in Hb; rewrite Hb.
  - intros k. rewrite Hqs. by setoid_rewrite Hq.
Qed.

(** What dispatch relies on of a band's fairness policy: it picks a queue of the band
    that has items, and none only if there is none. *)
Definition pick_ok (b : priorityBand) : Prop :=
  match fp_Pick (pb_fairnessPolicy b) (priorityBandAccessor b) with
  | (inl (Some q), _) => ∃ id mq, pb_queues b !! id = Some mq ∧ q = flowQueueAccessor mq ∧ mq_contents mq ≠ []
  | (inl None, _) => ∀ id mq, pb_queues b !! id = Some mq → mq_contents mq = []
  | (inr _, _) => False
  end.

Lemma selectItem_spec sp open pending p b :
  pinv sp open pending → sh_priorityBands (sp_shard sp) !! p = Some b → pick_ok b →
  wp (selectItem (priorityBandAccessor b)) (λ r sp', pinv sp' open pending ∧ same_queues sp sp' ∧
    (∀ q, q ≠ p → sh_priorityBands (sp_shard sp') !! q = sh_priorityBands (sp_shard sp) !! q) ∧
    match r with
    | inl (Some it) => ∃ id mq, queue_at (sp_shard sp) (mkFlowKey id p) mq ∧ sq_PeekHead (mq_queue mq) = Some it
    | inl None => ∀ id mq, pb_queues b !! id = Some mq → mq_contents mq = []
    | inr _ => False
    end) sp.
Proof.
  intros Hv Hb Hok. pose proof (tp_shard _ _ _ _ (ri_topology _ _ _ (pv_registry _ _ _ Hv))) as Hwf.
  fold (sp_shard sp) in Hwf. assert (pba_Priority (priorityBandAccessor b) = p) as Hp by by apply (sw_band _ _ Hwf).
  apply wp_bind, wp_gets. unfold FairnessPolicyOf. rewrite Hp, Hb. unfold pick_ok in Hok.
  destruct (fp_Pick (pb_fairnessPolicy b) (priorityBandAccessor b)) as [picked ps].
  apply wp_bind, wp_modify, wp_ret. destruct (set_policyState_spec sp open pending p ps b Hv Hb) as (H1 & H2 & H3).
  split_and!; try done. destruct picked as [[q|]|]; [|done|done].
  destruct Hok as (id & mq & Hmq & -> & Hne). cbn [flowQueueAccessor fqa_PeekHead].
  assert (queue_at (sp_shard sp) (mkFlowKey id p) mq) as Hq by by exists b.
  destruct (sq_PeekHead (mq_queue mq)) as [it|] eqn:Hh; [by exists id, mq|].
  exfalso. apply Hne. destruct (sw_queue _ _ Hwf _ _ Hq) as [Hmw _].
  by apply (sqs_head_empty _ _ (mqw_queue _ _ Hmw)).
Qed.

(** [it] left the queue of [key] and is dispatched, unless it had been finalized. *)
Record taken (sp sp' : ShardProcessor) (key : FlowKey) (mq mq' : MQ) (it : QueueItem) : Prop := {
  tk_queue : updated (sp_shard sp) (sp_shard sp') key mq mq';
  tk_contents : mq_contents mq ≡ₚ it :: mq_contents mq';
  tk_items : sp_items sp' = finalize_in it (mkFinalState QueueOutcomeDispatched None) (sp_items sp);
  tk_chan : sp_enqueueChan sp' = sp_enqueueChan sp
}.

Lemma dispatchItem_spec sp open pending key mq it :
  pinv sp open pending → queue_at (sp_shard sp) key mq → it ∈ mq_contents mq →
  wp (dispatchItem it) (λ r sp', r = None ∧ pinv sp' open pending ∧ ∃ mq', taken sp sp' key mq mq' it) sp.
Proof.
  intros Hv Hq Hit. destruct (pv_queued _ _ _ Hv key mq it Hq Hit) as [Hkey _].
  pose proof (tp_shard _ _ _ _ (ri_topology _ _ _ (pv_registry _ _ _ Hv))) as Hwf. fold (sp_shard sp) in Hwf.
  destruct (sw_queue _ _ Hwf key mq Hq) as [Hmw _].
  destruct (sqs_live _ _ it (mqw_queue _ _ Hmw) Hit) as (h & Hh & _).
  unfold dispatchItem. rewrite Hkey. apply wp_bind, wp_gets. rewrite (proj2 (ManagedQueue_inl _ _ _) Hq).
  apply wp_bind, wp_gets, wp_bind, wp_on_queue. rewrite Hh.
  eapply wp_mono; [by apply (fr_remove_spec _ _ open key mq it h); [apply Hv|..]|].
  intros r [fr st] (-> & Hreg & mq' & Hup & HP). apply wp_bind.
  eapply wp_mono; [eapply (finalize_head_spec _ open pending)|].
  { change (Some it :: pending) with ((Some <$> [it]) ++ pending). by eapply pinv_removed. }
  intros [] sp' (Hv' & _ & ->). apply wp_ret. split_and!; try done. by exists mq'.
Qed.

(** No queue of the band of priority [p] has an item. *)
Definition band_idle (s : registryShard) (p : Z) : Prop :=
  ∀ key mq, queue_at s key mq → fk_Priority key = p → mq_contents mq = [].

(** What a dispatch cycle over [ps] does: it passes over the first [i] bands, which
    are not saturated and idle, and takes the head of a queue of the next one, or
    stops because that one is saturated or there is none. *)
Definition cycle_outcome (sat : spec_float) (ps : list Z) (cs : list spec_float)
    (sp : ShardProcessor) (r : bool) (sp' : ShardProcessor) : Prop :=
  ∃ i, (∀ j p c, j < i → ps !! j = Some p → cs !! j = Some c →
          SFleb c sat = false ∧ band_idle (sp_shard sp) p) ∧
    if r then ∃ p c id mq it, ps !! i = Some p ∧ cs !! i = Some c ∧ SFleb c sat = false ∧
      queue_at (sp_shard sp) (mkFlowKey id p) mq ∧ sq_PeekHead (mq_queue mq) = Some it ∧
      ∃ sp1 mq', same_queues sp sp1 ∧ taken sp1 sp' (mkFlowKey id p) mq mq' it
    else same_queues sp sp' ∧ (ps !! i = None ∨ ∃ c, cs !! i = Some c ∧ SFleb c sat = true).

Lemma band_idle_same sp sp' p : same_queues sp sp' → band_idle (sp_shard sp') p → band_idle (sp_shard sp) p.
Proof. intros Hs Hi key mq Hq. apply Hi. by apply (sq_same _ _ Hs). Qed.

Lemma cycle_skip sat p ps c cs sp sp1 r sp' :
  SFleb c sat = false → band_idle (sp_shard sp) p → same_queues sp sp1 →
  cycle_outcome sat ps cs sp1 r sp' → cycle_outcome sat (p :: ps) (c :: cs) sp r sp'.
Proof.
  intros Hc Hidle Hs (i & Hpre & Hr). exists (S i). split.
  - intros [|j] p' c' Hj Hp' Hc'; simplify_eq/=; [done|].
    destruct (Hpre j p' c') as [H1 H2]; [lia|done|done|]. split; [done|]. by eapply band_idle_same.
  - destruct r; simpl.
    + destruct Hr as (p' & c' & id & mq & it & H1 & H2 & H3 & H4 & H5 & sp2 & mq' & H6 & H7).
      exists p', c', id, mq, it. split_and!; try done; [by apply (sq_same _ _ Hs)|].
      exists sp2, mq'. split; [|done]. by eapply same_queues_trans.
    + destruct Hr as [H1 H2]. split; [|done]. by eapply same_queues_trans.
Qed.

Lemma dispatch_loop_spec sat open pending ps : ∀ cs sp,
  pinv sp open pending → length ps ≤ length cs → NoDup ps →
  (∀ p, p ∈ ps → ∃ b, sh_priorityBands (sp_shard sp) !! p = Some b ∧ pick_ok b) →
  wp (dispatch_loop sat ps cs) (λ r sp', pinv sp' open pending ∧ cycle_outcome sat ps cs sp r sp') sp.
Proof.
  induction ps as [|p ps IH]; intros cs sp Hv Hlen Hnd Hok.
  { apply wp_ret. split; [done|]. exists 0. split; [intros; lia|]. split; [apply same_queues_refl|by left]. }
  destruct cs as [|c cs]; [simpl in Hlen; lia|]. simpl. apply NoDup_cons in Hnd as [Hp Hnd].
  destruct (SFleb c sat) eqn:Hc.
  { apply wp_ret. split; [done|]. exists 0. split; [intros; lia|]. split; [apply same_queues_refl|].
    right. by exists c. }
  destruct (Hok p) as (b & Hb & Hpick); [set_solver|]. apply wp_bind, wp_gets.
  unfold PriorityBandAccessorOf. rewrite Hb. apply wp_bind.
  eapply wp_mono; [by apply (selectItem_spec sp open pending p b)|].
  intros r sp1 (Hv1 & Hs & Hother & Hr). destruct r as [[it|]|]; [|clear Hpick|done].
  - destruct Hr as (id & mq & Hq & Hh). apply wp_bind.
    assert (it ∈ mq_contents mq) as Hit.
    { pose proof (tp_shard _ _ _ _ (ri_topology _ _ _ (pv_registry _ _ _ Hv))) as Hwf.
      destruct (sw_queue _ _ Hwf (mkFlowKey id p) mq Hq) as [Hmw _].
      by apply (sqs_head_in _ _ _ (mqw_queue _ _ Hmw)). }
    eapply wp_mono; [apply (dispatchItem_spec sp1 open pending (mkFlowKey id p) mq it); [done| |done]|].
    { by apply (sq_same _ _ Hs). }
    intros e sp' (-> & Hv' & mq' & Htk). apply wp_ret. split; [done|]. exists 0. split; [intros; lia|].
    exists p, c, id, mq, it. split_and!; try done. by exists sp1, mq'.
  - eapply wp_mono; [apply (IH cs sp1); [done|simpl in Hlen; lia|done|]|].
    + intros q Hq. rewrite Hother; [apply Hok; set_solver|]. intros ->. done.
    + intros r sp' (Hv' & Hout). split; [done|]. eapply cycle_skip; [done| |done|done].
      intros key mq (b' & Hb' & Hmq) E. rewrite E, Hb in Hb'. injection Hb' as <-. by eapply Hr.
Qed.

Lemma dispatchCycle_spec sat CL sp open :
  proc_inv sp open →
  length (sh_orderedPriorityLevels (sp_shard sp)) ≤ length (CL sat (sh_orderedPriorityLevels (sp_shard sp))) →
  (∀ p b, sh_priorityBands (sp_shard sp) !! p = Some b → pick_ok b) →
  wp (dispatchCycle sat CL) (λ r sp', proc_inv sp' open ∧
    cycle_outcome sat (sh_orderedPriorityLevels (sp_shard sp))
      (CL sat (sh_orderedPriorityLevels (sp_shard sp))) sp r sp') sp.
Proof.
  intros Hv Hlen Hpick. apply wp_bind, wp_gets.
  pose proof (tp_shard _ _ _ _ (ri_topology _ _ _ (pv_registry _ _ _ Hv))) as Hwf. fold (sp_shard sp) in Hwf.
  eapply wp_mono; [apply (dispatch_loop_spec _ open (sp_enqueueChan sp)); [done|done|..]|].
  - apply strict_NoDup, Hwf.
  - intros p Hp. apply (sw_levels _ _ Hwf) in Hp as [b Hb]. exists b. split; [done|]. by eapply Hpick.
  - intros r sp' [Hv' Hout]. split; [|done]. unfold proc_inv.
    assert (sp_enqueueChan sp' = sp_enqueueChan sp) as ->; [|done]. destruct Hout as (i & _ & Hr). destruct r.
    + destruct Hr as (? & ? & ? & ? & ? & _ & _ & _ & _ & _ & sp1 & ? & Hs & Htk).
      by rewrite (tk_chan _ _ _ _ _ _ Htk), (sq_chan _ _ Hs).
    + apply Hr.
Qed.

(** *** The built-in fairness policies *)

Lemma accessor_len mq st : mq_wf mq st → fqa_Len (flowQueueAccessor mq) = queue_len mq.
Proof. intros Hw. cbn [flowQueueAccessor fqa_Len]. unfold mq_Len, queue_len. apply Hw. Qed.

Lemma accessor_candidate (mq : MQ) st it :
  mq_wf mq st → fqa_PeekHead (flowQueueAccessor mq) = Some it →
  it ∈ mq_contents mq ∧ candidate (flowQueueAccessor mq) it.
Proof.
  intros Hw Hh. assert (it ∈ mq_contents mq) as Hit by (by eapply sqs_head_in; [apply Hw|]).
  split; [done|]. split; [|done]. rewrite (accessor_len _ st) by done. unfold queue_len.
  destruct (mq_contents mq); [by apply elem_of_nil in Hit|simpl; lia].
Qed.

Lemma accessor_head (mq : MQ) st :
  mq_wf mq st → mq_contents mq ≠ [] → ∃ it, fqa_PeekHead (flowQueueAccessor mq) = Some it.
Proof.
  intros Hw Hne. destruct (fqa_PeekHead (flowQueueAccessor mq)) as [it|] eqn:E; [eauto|].
  exfalso. apply Hne. by eapply (sqs_head_empty (mq_queue mq) st); [apply Hw|].
Qed.

Lemma accessor_elem b q :
  q ∈ pba_IterateQueues (priorityBandAccessor b) ↔ ∃ id mq, pb_queues b !! id = Some mq ∧ q = flowQueueAccessor mq.
Proof.
  cbn [priorityBandAccessor pba_IterateQueues]. rewrite list_elem_of_fmap. split.
  - intros ([id mq] & -> & Hin%elem_of_map_to_list). eauto.
  - intros (id & mq & Hmq & ->). exists (id, mq). split; [done|]. by apply elem_of_map_to_list.
Qed.

Lemma globalstrict_pick_ok b st pol :
  pb_fairnessPolicy b = globalstrict.policy → StrictWeakOrder (less pol) →
  (∀ id mq, pb_queues b !! id = Some mq → mq_wf mq st ∧ mq_policy mq = pol) → pick_ok b.
Proof.
  intros Hf Hpol Hqs. unfold pick_ok. rewrite Hf. cbn [globalstrict.policy fp_Pick].
  unfold globalstrict.Pick.
  destruct (iterate_spec pol (pba_IterateQueues (priorityBandAccessor b)) [] None) as (r & -> & Hb).
  - intros q (id & mq & Hmq & ->)%accessor_elem. by apply (Hqs id mq).
  - by intros ? ? []%elem_of_nil.
  - destruct r as [[q it]|]; cbn [best_of app] in Hb; cbn [fmap option_fmap option_map fst].
    + destruct Hb as (Hin & [Hc1 Hc2] & _). apply accessor_elem in Hin as (id & mq & Hmq & ->).
      exists id, mq. split_and!; try done. destruct (Hqs id mq Hmq) as [Hw _].
      destruct (accessor_candidate mq st it Hw Hc2) as [Hit _]. intros E. rewrite E in Hit.
      by apply elem_of_nil in Hit.
    + intros id mq Hmq. destruct (Hqs id mq Hmq) as [Hw _]. destruct (mq_contents mq) eqn:E; [done|].
      destruct (accessor_head mq st) as [it Hit]; [done|by rewrite E|].
      destruct (accessor_candidate mq st it Hw Hit) as [_ Hcand]. exfalso.
      apply (Hb (flowQueueAccessor mq) it); [|done]. apply accessor_elem. eauto.
Qed.

Lemma roundrobin_pick_ok b st last :
  pb_fairnessPolicy b = roundrobin.policy → pb_policyState b = roundRobinCursor last →
  (∀ id mq, pb_queues b !! id = Some mq → mq_wf mq st) → pick_ok b.
Proof.
  intros Hf Hs Hqs. unfold pick_ok. rewrite Hf. cbn [roundrobin.policy fp_Pick].
  pose proof (roundRobin_pick_complete (priorityBandAccessor b) last Hs) as Hrr.
  destruct (roundrobin.Pick (priorityBandAccessor b)) as [[[q|]|e] [|[k|]]]; try done.
  - destruct Hrr as (_ & Hq & Hl). cbn [priorityBandAccessor pba_Queue] in Hq.
    destruct (pb_queues b !! fk_ID k) as [mq|] eqn:Hmq; [|done]. injection Hq as <-. exists (fk_ID k), mq.
    split_and!; try done. rewrite (accessor_len mq st) in Hl by by eapply Hqs. intros E.
    unfold queue_len in Hl. rewrite E in Hl. simpl in Hl. lia.
  - intros id mq Hmq. destruct (mq_contents mq) as [|x l] eqn:E; [done|]. exfalso.
    apply (Hrr (mkFlowKey id (pbc_Priority (pb_config b)))).
    + cbn [priorityBandAccessor pba_FlowKeys]. apply list_elem_of_fmap. exists (id, mq). split; [done|].
      by apply elem_of_map_to_list.
    + exists (flowQueueAccessor mq). cbn [priorityBandAccessor pba_Queue fk_ID]. rewrite Hmq. split; [done|].
      rewrite (accessor_len mq st) by by eapply Hqs. unfold queue_len. rewrite E. simpl. lia.
Qed.

(** ** Sweep and shutdown *)

Lemma collect_queues_spec s st key :
  shard_wf s st →
  key ∈ collect_queues (sh_orderedPriorityLevels s) s ↔ ∃ mq, queue_at s key mq.
Proof.
  intros Hwf.
  assert (∀ ps, key ∈ collect_queues ps s ↔ fk_Priority key ∈ ps ∧ ∃ mq, queue_at s key mq) as H.
  { induction ps as [|p ps IH]; simpl; [set_solver|]. rewrite elem_of_cons.
    unfold PriorityBandAccessorOf. destruct (sh_priorityBands s !! p) as [b|] eqn:Hb.
    - rewrite elem_of_app, IH, list_elem_of_fmap. split.
      + intros [(q & -> & (id & mq & Hmq & ->)%accessor_elem)|[? ?]]; [|naive_solver].
        assert (queue_at s (mkFlowKey id p) mq) as Hq by by exists b.
        destruct (sw_queue _ _ Hwf _ _ Hq) as [_ Hk]. cbn [flowQueueAccessor fqa_FlowKey]. rewrite Hk. eauto.
      + intros [[Hp|Hp] (mq & Hq)]; [left|right; eauto].
        destruct (sw_queue _ _ Hwf _ _ Hq) as [_ Hk]. exists (flowQueueAccessor mq).
        split; [by symmetry|]. apply accessor_elem. destruct Hq as (b' & Hb' & Hmq). exists (fk_ID key), mq.
        split; [|done]. congruence.
    - rewrite IH. split; [naive_solver|]. intros [[Hp|Hp] (mq & b & Hb' & Hmq)]; [congruence|].
      split; [done|]. exists mq. by exists b. }
  rewrite H. split; [naive_solver|]. intros (mq & Hq). split; [|eauto].
  apply (sw_levels _ _ Hwf). destruct Hq as (b & Hb & _). eauto.
Qed.

Lemma pinv_drop_list sp open rem : ∀ pending,
  pinv sp open ((Some <$> rem) ++ pending) → (∀ it, it ∈ rem → is_Some (item_FinalState it sp)) →
  pinv sp open pending.
Proof.
  induction rem as [|it rem IH]; intros pending Hv Hf; [done|].
  apply IH; [|set_solver]. eapply pinv_drop; [exact Hv|]. apply Hf. set_solver.
Qed.

(** The live items of a list, as the sweep sees them. *)
Definition live (sp : ShardProcessor) (l : list QueueItem) : list QueueItem :=
  List.filter (λ it, negb (bool_decide (is_Some (item_FinalState it sp)))) l.

Lemma sweep_queue_spec sp open pending key mq :
  pinv sp open pending → queue_at (sp_shard sp) key mq →
  wp (sweep_queue key) (λ _ sp', pinv sp' open pending ∧ sp_items sp' = sp_items sp ∧
    sp_enqueueChan sp' = sp_enqueueChan sp ∧
    ∃ mq', updated (sp_shard sp) (sp_shard sp') key mq mq' ∧ mq_contents mq' ≡ₚ live sp (mq_contents mq)) sp.
Proof.
  intros Hv Hq. apply wp_bind, wp_gets, wp_bind, wp_on_queue.
  eapply wp_mono; [by apply (fr_cleanup_spec _ _ open key mq); [apply Hv|]|].
  intros r [fr st] (-> & Hreg & mq' & Hup & HP). apply wp_ret. split_and!; try done; [|by exists mq'].
  eapply (pinv_drop_list _ _ (List.filter (λ it, bool_decide (is_Some (item_FinalState it sp))) (mq_contents mq))).
  - eapply pinv_removed; [done|done|exact Hup|]. rewrite HP. apply filter_split_Permutation.
  - intros it Hit. apply list_elem_of_In, filter_In in Hit as [_ Hf]. by apply bool_decide_eq_true in Hf.
Qed.

Lemma live_idem sp l : live sp (live sp l) = live sp l.
Proof.
  unfold live. induction l as [|x l IH]; simpl; [done|].
  destruct (negb (bool_decide (is_Some (item_FinalState x sp)))) eqn:E; simpl; rewrite ?E, IH; done.
Qed.

Lemma live_Permutation sp l k : l ≡ₚ k → live sp l ≡ₚ live sp k.
Proof.
  unfold live. induction 1 as [|x l k _ IH|x y l|l1 l2 l3 _ IH1 _ IH2]; simpl; [done|..].
  - destruct (negb _); by rewrite IH.
  - repeat destruct (negb _); try done. constructor.
  - by etrans.
Qed.

Lemma live_ext sp sp' l : sp_items sp' = sp_items sp → live sp' l = live sp l.
Proof. intros E. unfold live, item_FinalState. by rewrite E. Qed.


(** The sweep: every queue keeps exactly its live items. *)
Record swept (visited : list FlowKey) (sp sp' : ShardProcessor) : Prop := {
  sw_items : sp_items sp' = sp_items sp;
  sw_chan : sp_enqueueChan sp' = sp_enqueueChan sp;
  sw_domain : ∀ key, (∃ mq, queue_at (sp_shard sp') key mq) ↔ ∃ mq, queue_at (sp_shard sp) key mq;
  sw_contents : ∀ key mq mq', queue_at (sp_shard sp) key mq → queue_at (sp_shard sp') key mq' →
    mq_contents mq' ≡ₚ if bool_decide (key ∈ visited) then live sp (mq_contents mq) else mq_contents mq
}.

Lemma swept_step visited sp sp1 sp2 key mq1 mq2 :
  swept visited sp sp1 → sp_items sp2 = sp_items sp1 → sp_enqueueChan sp2 = sp_enqueueChan sp1 →
  updated (sp_shard sp1) (sp_shard sp2) key mq1 mq2 → mq_contents mq2 ≡ₚ live sp1 (mq_contents mq1) →
  swept (visited ++ [key]) sp sp2.
Proof.
  intros [S1 S2 S3 S4] Hi Hc Hup HP. split; [congruence..| |].
  - intros k. by rewrite (updated_domain _ _ _ _ _ k Hup), S3.
  - intros k mq mq' Hq Hq'. apply (updated_queue_at _ _ _ _ _ _ _ Hup) in Hq' as [[-> ->]|[Hne Hq']].
    + rewrite bool_decide_eq_true_2 by set_solver. rewrite HP, (live_ext sp sp1) by done.
      rewrite (live_Permutation _ _ _ (S4 key mq mq1 Hq (updated_old _ _ _ _ _ Hup))).
      case_bool_decide; [by rewrite live_idem|done].
    + rewrite (S4 k mq mq' Hq Hq').
      by rewrite (bool_decide_ext (k ∈ visited ++ [key]) (k ∈ visited)) by set_solver.
Qed.

Lemma swept_skip visited sp sp1 key err :
  swept visited sp sp1 → ManagedQueue key (sp_shard sp1) = inr err → swept (visited ++ [key]) sp sp1.
Proof.
  intros [S1 S2 S3 S4] Hno. split; try done. intros k mq mq' Hq Hq'. rewrite (S4 k mq mq') by done.
  rewrite (bool_decide_ext (k ∈ visited ++ [key]) (k ∈ visited)); [done|].
  rewrite elem_of_app, list_elem_of_singleton. split; [|by left]. intros [?| ->]; [done|].
  apply ManagedQueue_inl in Hq'. congruence.
Qed.

Lemma sweepFinalizedItems_spec sp open :
  proc_inv sp open →
  wp sweepFinalizedItems (λ _ sp', proc_inv sp' open ∧
    sp_items sp' = sp_items sp ∧ sp_enqueueChan sp' = sp_enqueueChan sp ∧
    (∀ key, (∃ mq, queue_at (sp_shard sp') key mq) ↔ ∃ mq, queue_at (sp_shard sp) key mq) ∧
    ∀ key mq mq', queue_at (sp_shard sp) key mq → queue_at (sp_shard sp') key mq' →
      mq_contents mq' ≡ₚ live sp (mq_contents mq)) sp.
Proof.
  intros Hv. pose proof (tp_shard _ _ _ _ (ri_topology _ _ _ (pv_registry _ _ _ Hv))) as Hwf.
  fold (sp_shard sp) in Hwf. apply wp_bind, wp_gets. eapply wp_for_each with
    (I := λ visited sp', pinv sp' open (sp_enqueueChan sp) ∧ swept visited sp sp').
  - split; [done|]. split; try done. intros key mq mq' Hq Hq'.
    by rewrite (queue_at_fun _ _ _ _ Hq Hq').
  - intros visited key post sp1 _ [Hv1 Hs1]. apply wp_bind, wp_gets.
    destruct (ManagedQueue key (sp_shard sp1)) as [mq1|err] eqn:Hq1.
    + apply ManagedQueue_inl in Hq1. eapply wp_mono; [by apply (sweep_queue_spec sp1 open _ key mq1 Hv1)|].
      intros [] sp2 (Hv2 & Hi & Hc & mq2 & Hup & HP). split; [done|]. by eapply swept_step.
    + apply wp_ret. split; [done|]. by eapply swept_skip.
  - intros sp' [Hv' [S1 S2 S3 S4]]. split_and!; try done; [by unfold proc_inv; rewrite S2|].
    intros key mq mq' Hq Hq'. rewrite (S4 key mq mq' Hq Hq').
    rewrite bool_decide_eq_true_2; [done|]. apply (collect_queues_spec _ _ _ Hwf). eauto.
Qed.

(** Requests keep the final state they have, and none disappears. *)
Definition more_final (m m' : gmap positive ItemState) : Prop :=
  (∀ ptr, is_Some (m' !! ptr) ↔ is_Some (m !! ptr)) ∧
  ∀ ptr s, m !! ptr = Some s → is_Some (is_finalState s) → m' !! ptr = Some s.

Lemma more_final_refl m : more_final m m.
Proof. by split. Qed.

Lemma more_final_trans m1 m2 m3 : more_final m1 m2 → more_final m2 m3 → more_final m1 m3.
Proof. intros [A1 A2] [B1 B2]. split; [intros ptr; by rewrite B1|]. intros ptr s Hs Hf. auto. Qed.

Lemma finalize_in_more_final it f m : more_final m (finalize_in it f m).
Proof.
  split; [apply finalize_in_is_Some|]. intros ptr s Hs [f0 Hf]. rewrite finalize_in_lookup, Hs. simpl.
  rewrite Hf. by case_bool_decide.
Qed.

Lemma finalize_all_spec open o e its : ∀ sp pending,
  pinv sp open ((Some <$> its) ++ pending) →
  wp (for_each its (finalize_with o e)) (λ _ sp', pinv sp' open pending ∧
    ∃ m, sp' = sp_with_items m sp ∧ more_final (sp_items sp) m) sp.
Proof.
  induction its as [|it its IH]; intros sp pending Hv; simpl.
  { apply wp_ret. split; [done|]. exists (sp_items sp). split; [by destruct sp|apply more_final_refl]. }
  apply wp_bind. eapply wp_mono; [apply finalize_head_spec; exact Hv|]. intros [] sp1 (Hv1 & _ & E1).
  eapply wp_mono; [by apply IH|]. intros [] sp2 (Hv2 & m & E2 & Hm). split; [done|].
  exists m. split; [by subst|]. eapply more_final_trans; [|exact Hm]. subst. apply finalize_in_more_final.
Qed.

Lemma reject_buffered_all open buffered : ∀ sp,
  pinv sp open buffered →
  wp (for_each buffered reject_buffered) (λ _ sp', pinv sp' open [] ∧
    ∃ m, sp' = sp_with_items m sp ∧ more_final (sp_items sp) m) sp.
Proof.
  induction buffered as [|[it|] buffered IH]; intros sp Hv; simpl.
  - apply wp_ret. split; [done|]. exists (sp_items sp). split; [by destruct sp|apply more_final_refl].
  - apply wp_bind. eapply wp_mono; [by eapply finalize_head_spec|]. intros [] sp1 (Hv1 & _ & E1).
    eapply wp_mono; [by apply IH|]. intros [] sp2 (Hv2 & m & E2 & Hm). split; [done|].
    exists m. split; [by subst|]. eapply more_final_trans; [|exact Hm]. subst. apply finalize_in_more_final.
  - apply wp_bind, wp_ret, IH. destruct Hv as [V1 V2 V3 V4 V5 V6]. split; try done.
    + intros it Hit. apply V4. by right.
    + intros ptr s Hs Hf. destruct (V6 ptr s Hs Hf) as [(it & Hit & <-)|?]; [|by right].
      apply elem_of_cons in Hit as [?|?]; [done|]. left. eauto.
Qed.

Lemma evict_queue_spec sp open key mq :
  pinv sp open [] → queue_at (sp_shard sp) key mq →
  wp (evict_queue key) (λ _ sp', pinv sp' open [] ∧ more_final (sp_items sp) (sp_items sp') ∧
    sp_enqueueChan sp' = sp_enqueueChan sp ∧ sp_isShuttingDown sp' = sp_isShuttingDown sp ∧
    ∃ mq', updated (sp_shard sp) (sp_shard sp') key mq mq' ∧ mq_contents mq' = []) sp.
Proof.
  intros Hv Hq. apply wp_bind, wp_on_queue.
  eapply wp_mono; [by apply (fr_drain_spec _ _ open key mq); [apply Hv|]|].
  intros r [fr st] (-> & Hreg & mq' & Hup & He).
  eapply wp_mono; [apply (finalize_all_spec open _ _ _ _ [])|].
  - eapply pinv_removed; [done|done|exact Hup|]. by rewrite He, app_nil_r.
  - intros [] sp' (Hv' & m & -> & Hm). split_and!; try done. by exists mq'.
Qed.

(** Eviction: the visited queues are empty. *)
Record evicted (visited : list FlowKey) (sp sp' : ShardProcessor) : Prop := {
  ev_final : more_final (sp_items sp) (sp_items sp');
  ev_chan : sp_enqueueChan sp' = sp_enqueueChan sp;
  ev_down : sp_isShuttingDown sp' = sp_isShuttingDown sp;
  ev_domain : ∀ key, (∃ mq, queue_at (sp_shard sp') key mq) → ∃ mq, queue_at (sp_shard sp) key mq;
  ev_empty : ∀ key mq, queue_at (sp_shard sp') key mq → key ∈ visited → mq_contents mq = []
}.

Lemma evictAll_spec sp open :
  pinv sp open [] →
  wp evictAll (λ _ sp', pinv sp' open [] ∧ more_final (sp_items sp) (sp_items sp') ∧
    sp_enqueueChan sp' = sp_enqueueChan sp ∧ sp_isShuttingDown sp' = sp_isShuttingDown sp ∧
    ∀ key mq, queue_at (sp_shard sp') key mq → mq_contents mq = []) sp.
Proof.
  intros Hv. pose proof (tp_shard _ _ _ _ (ri_topology _ _ _ (pv_registry _ _ _ Hv))) as Hwf.
  fold (sp_shard sp) in Hwf. apply wp_bind, wp_gets. eapply wp_for_each with
    (I := λ visited sp', pinv sp' open [] ∧ evicted visited sp sp').
  - split; [done|]. split; try done; apply more_final_refl || (by intros key mq _ ?%elem_of_nil).
  - intros visited key post sp1 _ [Hv1 [E1 E2 E3 E4 E5]]. apply wp_bind, wp_gets.
    destruct (ManagedQueue key (sp_shard sp1)) as [mq1|err] eqn:Hq1.
    + apply ManagedQueue_inl in Hq1. eapply wp_mono; [by apply (evict_queue_spec sp1 open key mq1 Hv1)|].
      intros [] sp2 (Hv2 & Hm & Hc & Hd & mq2 & Hup & He). split; [done|]. split; [|congruence..| |].
      * by eapply more_final_trans.
      * intros k. rewrite (updated_domain _ _ _ _ _ k Hup). apply E4.
      * intros k mq Hq Hin. apply (updated_queue_at _ _ _ _ _ _ _ Hup) in Hq as [[-> ->]|[Hne Hq]]; [done|].
        apply (E5 k mq Hq). set_solver.
    + apply wp_ret. split; [done|]. split; try done. intros k mq Hq [Hin|Hin]%elem_of_app; [by eapply E5|].
      apply list_elem_of_singleton in Hin as ->. apply ManagedQueue_inl in Hq. congruence.
  - intros sp' [Hv' [E1 E2 E3 E4 E5]]. split_and!; try done. intros key mq Hq. apply (E5 key mq Hq).
    apply (collect_queues_spec _ _ _ Hwf), E4. eauto.
Qed.

Lemma shutdown_spec sp open :
  proc_inv sp open → sp_shutdownOnce sp = false →
  wp shutdown (λ _ sp', proc_inv sp' open ∧ more_final (sp_items sp) (sp_items sp') ∧
    sp_isShuttingDown sp' = true ∧ sp_enqueueChan sp' = [] ∧
    (∀ key mq, queue_at (sp_shard sp') key mq → mq_contents mq = []) ∧
    ∀ ptr s, sp_items sp' !! ptr = Some s → is_Some (is_finalState s)) sp.
Proof.
  intros Hv Honce. apply wp_bind, wp_gets. rewrite Honce.
  apply wp_bind, wp_modify, wp_bind, wp_gets, wp_bind, wp_modify, wp_bind.
  eapply wp_mono; [apply (reject_buffered_all open (sp_enqueueChan sp))|].
  { by destruct Hv as [V1 V2 V3 V4 V5 V6]; split. }
  intros [] sp1 (Hv1 & m & -> & Hm).
  eapply wp_mono; [by apply (evictAll_spec _ open)|].
  intros [] sp' (Hv' & Hm' & Hc & Hd & He). simpl in Hc, Hd. split_and!; try done.
  - unfold proc_inv. by rewrite Hc.
  - by eapply more_final_trans.
  - intros ptr s Hs. destruct (is_finalState s) as [f|] eqn:E; [eauto|]. exfalso.
    destruct (pv_kept _ _ _ Hv' ptr s Hs E) as [(it & Hit & _)|(it & (key & mq & Hq & Hit) & _)].
    + by apply elem_of_nil in Hit.
    + rewrite (He key mq Hq) in Hit. by apply elem_of_nil in Hit.
Qed.
