(* ===== verification/ProcessorProps.v ===== *)
(** * What the shard processor guarantees

    The properties of [ProcessorInv], as statements about whole operations and runs of
    the processor, with a concrete processor to which they apply. *)

From stdpp Require Import prelude gmap strings list sorting.
From Stdlib Require Import Lia Floats.SpecFloat.
From S2P Require Import Prelude FlowTypes Ordering Fairness SafeQueue QueueFactory ManagedQueue.
From S2P Require Import RegistryConfig Leasing Shard Item Registry RegistryInv RegistryProps.
From S2P Require Import Processor ProcessorInv.

Open Scope go_scope.

(** ** Runs *)

Definition picks_ok (s : registryShard) : Prop :=
  ∀ p b, sh_priorityBands s !! p = Some b → pick_ok b.

Definition limits_ok (CL : spec_float → list Z → list spec_float) : Prop :=
  ∀ sat ps, length ps ≤ length (CL sat ps).

(** A new request is handed over, the next buffered one is processed, a dispatch
    cycle or a sweep runs, the controller finalizes a request whose context expired,
    or the processor shuts down. *)
Inductive proc_step : ShardProcessor → ShardProcessor → Prop :=
  | ps_submit sp it ctxDone sp' :
      sp_items sp !! qi_ptr it = None → item_ok it → fresh_item (sp_shard sp) it →
      Submit ctxDone it (sp_with_items (<[qi_ptr it := newItemState]> (sp_items sp)) sp) None sp' →
      proc_step sp sp'
  | ps_receive sp it rest sp' :
      sp_enqueueChan sp = Some it :: rest → room (sp_shard sp) →
      enqueue it (sp_with_chan rest sp) = Some (tt, sp') → proc_step sp sp'
  | ps_dispatch sp sat CL r sp' :
      picks_ok (sp_shard sp) → limits_ok CL →
      dispatchCycle sat CL sp = Some (r, sp') → proc_step sp sp'
  | ps_sweep sp sp' :
      sweepFinalizedItems sp = Some (tt, sp') → proc_step sp sp'
  | ps_expire sp it cause sp' :
      on_item it (Finalize cause (bool_decide (is_Some (Handle (sp_store sp) it)))) sp = Some (tt, sp') →
      proc_step sp sp'
  | ps_shutdown sp sp' :
      sp_shutdownOnce sp = false → shutdown sp = Some (tt, sp') → proc_step sp sp'.

Lemma wp_run_at {S A} (c : GoM S A) Q s a s' : wp c Q s → c s = Some (a, s') → Q a s'.
Proof. unfold wp. intros H E. by rewrite E in H. Qed.

Lemma submit_inv sp open it ctxDone sp' :
  proc_inv sp open → sp_items sp !! qi_ptr it = None → item_ok it → fresh_item (sp_shard sp) it →
  Submit ctxDone it (sp_with_items (<[qi_ptr it := newItemState]> (sp_items sp)) sp) None sp' →
  proc_inv sp' open.
Proof.
  intros [V1 V2 V3 V4 V5 V6] Hnew Hok Hfr Hsub.
  inversion Hsub as [|? ? ? _ Hsel]; subst. inversion Hsel; subst. clear Hsub Hsel.
  assert (∀ i, Some i ∈ sp_enqueueChan sp → qi_ptr i ≠ qi_ptr it) as Hch.
  { intros i Hi E. destruct (V4 i Hi) as ([s Hs] & _). congruence. }
  split; simpl; try done.
  - intros ptr s. rewrite lookup_insert. case_decide; [intros [= <-]; apply newItemState_wf|apply V2].
  - intros key mq i Hq Hi. destruct (V3 key mq i Hq Hi) as [Hk Hs]. split; [done|].
    rewrite lookup_insert. case_decide; eauto.
  - intros i [Hi|Hi]%elem_of_app.
    + destruct (V4 i Hi) as (Hs & Ho & Hf). split_and!; try done. rewrite lookup_insert. case_decide; eauto.
    + apply list_elem_of_singleton in Hi as [= ->]. rewrite lookup_insert_eq. eauto.
  - rewrite omap_app. simpl. apply NoDup_app. split_and!; [done| |apply NoDup_singleton].
    intros p ([i|] & Hi & [= <-])%list_elem_of_omap Hp. apply list_elem_of_singleton in Hp.
    by apply (Hch i Hi).
  - intros ptr s. rewrite lookup_insert. case_decide as E.
    + intros _ _. left. exists it. split; [set_solver|done].
    + intros Hs Hf. destruct (V6 ptr s Hs Hf) as [(i & Hi & <-)|?]; [|by right]. left. exists i.
      split; [set_solver|done].
Qed.

Lemma expire_inv sp open it cause q sp' :
  proc_inv sp open → on_item it (Finalize cause q) sp = Some (tt, sp') → proc_inv sp' open.
Proof.
  intros Hv. unfold on_item. destruct (sp_items sp !! qi_ptr it) as [s|] eqn:Hs; [|done].
  rewrite Finalize_spec by (by eapply pv_wf). intros [= <-].
  pose proof (pinv_finalize sp open (sp_enqueueChan sp) it
    (mkFinalState (inferOutcome cause q).1 (Some (inferOutcome cause q).2)) Hv) as H.
  unfold finalize_in in H. rewrite Hs in H. by destruct (is_finalState s).
Qed.

Lemma proc_step_inv sp sp' open : proc_step sp sp' → proc_inv sp open → proc_inv sp' open.
Proof.
  destruct 1 as [sp it cd sp' H1 H2 H3 H4|sp it rest sp' H1 H2 H3|sp sat CL r sp' H1 H2 H3|sp sp' H1
    |sp it cause sp' H1|sp sp' H1 H2]; intros Hv.
  - by eapply submit_inv.
  - unfold proc_inv in Hv. rewrite H1 in Hv.
    assert (pinv (sp_with_chan rest sp) open (Some it :: rest)) as Hv'
      by (by destruct Hv as [V1 V2 V3 V4 V5 V6]; split).
    destruct (wp_run_at _ _ _ _ _ (enqueue_spec _ _ _ _ Hv' H2) H3) as (Hv2 & _ & Hc).
    unfold proc_inv. by rewrite Hc.
  - by destruct (wp_run_at _ _ _ _ _ (dispatchCycle_spec sat CL sp open Hv (H2 _ _) H1) H3).
  - by destruct (wp_run_at _ _ _ _ _ (sweepFinalizedItems_spec sp open Hv) H1).
  - by eapply expire_inv.
  - by destruct (wp_run_at _ _ _ _ _ (shutdown_spec sp open Hv H1) H2).
Qed.

(** A new processor on a shard with empty queues. *)
Definition new_processor (fr : FlowRegistry) (st : store) (bufferSize : nat) : ShardProcessor :=
  mkProcessor fr st ∅ [] bufferSize false false.

Lemma new_processor_inv fr st open n :
  registry_inv fr st open → (∀ key mq, queue_at (fr_shard fr) key mq → mq_contents mq = []) →
  proc_inv (new_processor fr st n) open.
Proof.
  intros Hreg He. split; try done.
  - intros key mq it Hq Hit. rewrite (He key mq Hq) in Hit. by apply elem_of_nil in Hit.
  - intros it Hit. by apply elem_of_nil in Hit.
  - constructor.
Qed.

Lemma run_inv sp sp' open : rtc proc_step sp sp' → proc_inv sp open → proc_inv sp' open.
Proof. induction 1 as [|x y z Hxy _ IH]; [done|]. intros Hv. by eapply IH, proc_step_inv. Qed.

(** ** A sample processor *)

Definition queues_empty (s : registryShard) : Prop :=
  map_Forall (λ _ b, map_Forall (λ _ mq, mq_contents mq = []) (pb_queues b)) (sh_priorityBands s).

Lemma queues_empty_at s key mq : queues_empty s → queue_at s key mq → mq_contents mq = [].
Proof. intros He (b & Hb & Hmq). exact (He _ _ Hb _ _ Hmq). Qed.

Lemma sample_queues_empty : queues_empty (fr_shard sample_state.1).
Proof. apply (bool_decide_unpack _). vm_compute. exact I. Qed.

Lemma sample_inv : registry_inv sample_state.1 sample_state.2 [sample_conn].
Proof. apply state_inv_parts, (reachable_inv sample_config); [exact sample_config_ok|exact sample_reachable]. Qed.

Definition sample_processor : ShardProcessor := new_processor sample_state.1 sample_state.2 8.

Lemma sample_processor_inv : proc_inv sample_processor [sample_conn].
Proof.
  apply new_processor_inv; [exact sample_inv|]. intros key mq. apply queues_empty_at, sample_queues_empty.
Qed.

(** A request of 500 bytes for the sample flow. *)
Definition request_item : QueueItem := mkItem 5 0 0 (mkRequest sample_key 500 None 0 0 "req").

Lemma request_fresh : fresh_item (fr_shard sample_state.1) request_item.
Proof.
  intros key mq it Hq Hit. rewrite (queues_empty_at _ _ _ sample_queues_empty Hq) in Hit.
  by apply elem_of_nil in Hit.
Qed.

Lemma request_ok : item_ok request_item.
Proof. vm_compute. intuition congruence. Qed.

(** The processor with the request in its channel. *)
Definition sample_submitted : ShardProcessor :=
  sp_with_chan [Some request_item]
    (sp_with_items {[5%positive := newItemState]} sample_processor).

Lemma sample_submit : proc_step sample_processor sample_submitted.
Proof.
  apply (ps_submit _ request_item false); [reflexivity|exact request_ok|exact request_fresh|].
  apply Submit_select; [reflexivity|].
  apply (select_send false request_item
    (sp_with_items (<[qi_ptr request_item := newItemState]> (sp_items sample_processor)) sample_processor)).
  simpl. lia.
Qed.

Lemma sample_run : rtc proc_step sample_processor sample_submitted.
Proof. apply rtc_once, sample_submit. Qed.

Lemma sample_submitted_inv : proc_inv sample_submitted [sample_conn].
Proof. exact (proc_step_inv _ _ _ sample_submit sample_processor_inv). Qed.

(** ** No request is lost *)

(** C1. A request that was handed to the processor and has no final state yet is waiting
    in the channel, or in the queue of its own flow. This holds in every state that
    hand-overs, admissions, dispatches, sweeps, expiries and shutdown can reach. *)
Theorem no_request_lost (c : Config) (fr : FlowRegistry) (st : store) (open : list connection) (n : nat)
    (sp : ShardProcessor) (ptr : positive) (s : ItemState)
    (Hc : config_ok c) (Hreach : reachable c (fr, st, open)) (Hempty : queues_empty (fr_shard fr))
    (Hrun : rtc proc_step (new_processor fr st n) sp)
    (Hs : sp_items sp !! ptr = Some s) (Hlive : is_finalState s = None) :
  (∃ it, Some it ∈ sp_enqueueChan sp ∧ qi_ptr it = ptr) ∨
  (∃ it mq, queue_at (sp_shard sp) (qi_FlowKey it) mq ∧ it ∈ mq_contents mq ∧ qi_ptr it = ptr).
Proof.
  apply (reachable_inv c) in Hreach; [|done].
  assert (proc_inv sp open) as Hv.
  { eapply run_inv; [done|]. apply new_processor_inv; [done|]. intros key mq. by apply queues_empty_at. }
  destruct (pv_kept _ _ _ Hv ptr s Hs Hlive) as [?|(it & (key & mq & Hq & Hit) & Hp)]; [by left|right].
  exists it, mq. destruct (pv_queued _ _ _ Hv key mq it Hq Hit) as [-> _]. done.
Qed.

Lemma no_request_lost_witness :
  (∃ it, Some it ∈ sp_enqueueChan sample_submitted ∧ qi_ptr it = 5%positive) ∨
  (∃ it mq, queue_at (sp_shard sample_submitted) (qi_FlowKey it) mq ∧ it ∈ mq_contents mq ∧
     qi_ptr it = 5%positive).
Proof.
  exact (no_request_lost sample_config sample_state.1 sample_state.2 [sample_conn] 8 sample_submitted 5
    newItemState sample_config_ok sample_reachable sample_queues_empty sample_run eq_refl eq_refl).
Defined.

(** C40. Shutdown finalizes everything. From every reachable state of the processor it
    completes without a panic; afterwards the channel and all queues are empty, every
    request that was handed over has a final state (the one it had before, if any),
    and further requests are turned away. *)
Theorem shutdown_finalizes_all (c : Config) (fr : FlowRegistry) (st : store) (open : list connection)
    (n : nat) (sp : ShardProcessor)
    (Hc : config_ok c) (Hreach : reachable c (fr, st, open)) (Hempty : queues_empty (fr_shard fr))
    (Hrun : rtc proc_step (new_processor fr st n) sp) (Honce : sp_shutdownOnce sp = false) :
  ∃ sp', shutdown sp = Some (tt, sp') ∧ sp_enqueueChan sp' = [] ∧
    (∀ key mq, queue_at (sp_shard sp') key mq → mq_contents mq = []) ∧
    (∀ ptr s, sp_items sp !! ptr = Some s → ∃ s' f, sp_items sp' !! ptr = Some s' ∧
       is_finalState s' = Some f ∧ (is_finalState s = Some f ∨ is_finalState s = None)) ∧
    ∀ ctxDone it r sp'', Submit ctxDone it sp' r sp'' →
      r = Some (ESentinel ErrFlowControllerNotRunning) ∧ sp'' = sp'.
Proof.
  apply (reachable_inv c) in Hreach; [|done].
  assert (proc_inv sp open) as Hv.
  { eapply run_inv; [done|]. apply new_processor_inv; [done|]. intros key mq. by apply queues_empty_at. }
  pose proof (shutdown_spec sp open Hv Honce) as ([] & sp' & E & _ & [M1 M2] & Hd & Hch & Hq & Hf)%wp_run.
  exists sp'. split_and!; try done.
  - intros ptr s Hs. destruct (proj2 (M1 ptr)) as [s' Hs']; [eauto|]. destruct (Hf ptr s' Hs') as [f Hf'].
    exists s', f. split_and!; try done. destruct (is_finalState s) eqn:Es; [|by right]. left.
    rewrite (M2 ptr s Hs) in Hs' by (rewrite Es; eauto). congruence.
  - intros cd it r sp'' Hsub. destruct Hsub as [|? ? ? Hdn]; [done|congruence].
Qed.

Lemma shutdown_finalizes_all_witness :
  ∃ sp', shutdown sample_submitted = Some (tt, sp') ∧ sp_enqueueChan sp' = [].
Proof.
  destruct (shutdown_finalizes_all sample_config sample_state.1 sample_state.2 [sample_conn] 8 sample_submitted
    sample_config_ok sample_reachable sample_queues_empty sample_run eq_refl) as (sp' & H1 & H2 & _).
  exists sp'. split; [exact H1|exact H2].
Defined.

(** The sweep is exact: it removes from every queue the requests that have a final
    state, keeps all others, and changes no request. *)
Theorem sweep_removes_finalized (c : Config) (fr : FlowRegistry) (st : store) (open : list connection)
    (n : nat) (sp : ShardProcessor)
    (Hc : config_ok c) (Hreach : reachable c (fr, st, open)) (Hempty : queues_empty (fr_shard fr))
    (Hrun : rtc proc_step (new_processor fr st n) sp) :
  ∃ sp', sweepFinalizedItems sp = Some (tt, sp') ∧ sp_items sp' = sp_items sp ∧
    ∀ key mq, queue_at (sp_shard sp) key mq → ∃ mq', queue_at (sp_shard sp') key mq' ∧
      ∀ it, it ∈ mq_contents mq' ↔ it ∈ mq_contents mq ∧ item_FinalState it sp = None.
Proof.
  apply (reachable_inv c) in Hreach; [|done].
  assert (proc_inv sp open) as Hv.
  { eapply run_inv; [done|]. apply new_processor_inv; [done|]. intros key mq. by apply queues_empty_at. }
  pose proof (sweepFinalizedItems_spec sp open Hv) as ([] & sp' & E & _ & Hi & _ & Hdom & Hcont)%wp_run.
  exists sp'. split_and!; try done. intros key mq Hq.
  destruct (proj2 (Hdom key)) as [mq' Hq']; [eauto|]. exists mq'. split; [done|]. intros it.
  rewrite (Hcont key mq mq' Hq Hq'). unfold live. rewrite filter_In_elem, negb_true_iff, bool_decide_eq_false.
  by rewrite <- eq_None_not_Some.
Qed.

Lemma sweep_removes_finalized_witness :
  ∃ sp', sweepFinalizedItems sample_submitted = Some (tt, sp') ∧ sp_items sp' = sp_items sample_submitted.
Proof.
  destruct (sweep_removes_finalized sample_config sample_state.1 sample_state.2 [sample_conn] 8 sample_submitted
    sample_config_ok sample_reachable sample_queues_empty sample_run) as (sp' & H1 & H2 & _).
  exists sp'. split; [exact H1|exact H2].
Defined.

(** ** Dispatch *)

(** C3. Dispatch goes by priority and stops at saturation. A dispatch cycle visits the
    bands from the highest priority down. If it dispatches, it takes the head of one
    queue of one band, where no band down to this one is saturated and every higher
    band is without requests; the request gets the outcome dispatched (unless it had
    been finalized), and no other queue changes. If it does not, the queues are
    unchanged, and the bands are without requests, up to the first saturated one. *)
Theorem dispatch_by_priority (c : Config) (fr : FlowRegistry) (st : store) (open : list connection)
    (n : nat) (sp : ShardProcessor) (sat : spec_float) (CL : spec_float → list Z → list spec_float)
    (Hc : config_ok c) (Hreach : reachable c (fr, st, open)) (Hempty : queues_empty (fr_shard fr))
    (Hrun : rtc proc_step (new_processor fr st n) sp)
    (Hpicks : picks_ok (sp_shard sp)) (HCL : limits_ok CL)
    (levels := sh_orderedPriorityLevels (sp_shard sp)) :
  StronglySorted (λ a b, b < a)%Z levels ∧
  ∃ r sp' i, dispatchCycle sat CL sp = Some (r, sp') ∧
    (∀ j p, j < i → levels !! j = Some p → ∃ limit, CL sat levels !! j = Some limit ∧
       SFleb limit sat = false ∧ band_idle (sp_shard sp) p) ∧
    if r then
      ∃ p limit id mq mq' it, levels !! i = Some p ∧ CL sat levels !! i = Some limit ∧
        SFleb limit sat = false ∧
        queue_at (sp_shard sp) (mkFlowKey id p) mq ∧ sq_PeekHead (mq_queue mq) = Some it ∧
        queue_at (sp_shard sp') (mkFlowKey id p) mq' ∧ mq_contents mq ≡ₚ it :: mq_contents mq' ∧
        (item_FinalState it sp = None →
           item_FinalState it sp' = Some (mkFinalState QueueOutcomeDispatched None)) ∧
        ∀ key mq0, key ≠ mkFlowKey id p →
          queue_at (sp_shard sp') key mq0 ↔ queue_at (sp_shard sp) key mq0
    else
      (∀ key mq, queue_at (sp_shard sp') key mq ↔ queue_at (sp_shard sp) key mq) ∧
      sp_items sp' = sp_items sp ∧
      (levels !! i = None ∨ ∃ limit, CL sat levels !! i = Some limit ∧ SFleb limit sat = true).
Proof.
  apply (reachable_inv c) in Hreach; [|done].
  assert (proc_inv sp open) as Hv.
  { eapply run_inv; [done|]. apply new_processor_inv; [done|]. intros key mq. by apply queues_empty_at. }
  pose proof (tp_shard _ _ _ _ (ri_topology _ _ _ (pv_registry _ _ _ Hv))) as Hwf. split; [apply Hwf|].
  pose proof (dispatchCycle_spec sat CL sp open Hv (HCL _ _) Hpicks) as (r & sp' & E & _ & i & Hpre & Hr)%wp_run.
  exists r, sp', i. split_and!; [done| |].
  - intros j p Hj Hp. destruct (CL sat levels !! j) as [limit|] eqn:Hl; [exists limit; split; [done|by eapply Hpre]|].
    apply lookup_ge_None in Hl. apply lookup_lt_Some in Hp. pose proof (HCL sat levels). lia.
  - destruct r; [|by destruct Hr as [[S1 S2 _ _ _] ?]].
    destruct Hr as (p & limit & id & mq & it & H1 & H2 & H3 & H4 & H5 & sp1 & mq' & [S1 S2 _ _ _] & [K1 K2 K3 _]).
    exists p, limit, id, mq, mq', it. split_and!; try done.
    + by apply (updated_queue_at _ _ _ _ _ _ _ K1); left.
    + unfold item_FinalState. rewrite K3, S2. intros Hf. rewrite finalize_in_lookup.
      destruct (sp_items sp !! qi_ptr it) as [s|] eqn:Hs; simpl in *.
      * by rewrite bool_decide_eq_true_2, Hf.
      * exfalso. assert (it ∈ mq_contents mq) as Hit by (rewrite K2; set_solver).
        destruct (pv_queued _ _ _ Hv _ mq it H4 Hit) as [_ [? ?]]. congruence.
    + intros key mq0 Hne. rewrite (updated_queue_at _ _ _ _ _ _ _ K1), S1. naive_solver.
Qed.

(** A saturation of one half, and a limit of one for every band. *)
Definition half : spec_float := S754_finite false 1 (-1).
Definition one_limit : spec_float → list Z → list spec_float :=
  λ _ ps, replicate (length ps) (S754_finite false 1 0).

Lemma one_limit_ok : limits_ok one_limit.
Proof. intros sat ps. unfold one_limit. by rewrite length_replicate. Qed.

(** The built-in fairness policies meet what dispatch relies on: in a well-formed
    shard, the global strict policy over queues with a common ordering policy that is
    a strict weak order, and the round-robin policy with its cursor, pick a queue of
    the band that has requests, and pick none only if the band has none. *)
Theorem builtin_fairness_lawful (s : registryShard) (st : store) (p : Z) (b : priorityBand)
    (Hwf : shard_wf s st) (Hb : sh_priorityBands s !! p = Some b)
    (Hpol : (pb_fairnessPolicy b = globalstrict.policy ∧
             ∃ pol, StrictWeakOrder (less pol) ∧ ∀ id mq, pb_queues b !! id = Some mq → mq_policy mq = pol) ∨
            (pb_fairnessPolicy b = roundrobin.policy ∧ ∃ last, pb_policyState b = roundRobinCursor last)) :
  pick_ok b.
Proof.
  assert (∀ id mq, pb_queues b !! id = Some mq → mq_wf mq st) as Hqs.
  { intros id mq Hmq. apply (sw_queue _ _ Hwf (mkFlowKey id p)). by exists b. }
  destruct Hpol as [(Hf & pol & Hswo & Hsame)|(Hf & last & Hs)].
  - eapply globalstrict_pick_ok; [done|done|]. intros id mq Hmq. split; [by eapply Hqs|by eapply Hsame].
  - by eapply roundrobin_pick_ok.
Qed.

Definition sample_pband : priorityBand :=
  default (mkPriorityBand globalstrict.policy NoState (mkPriorityBandConfig 0 None None EmptyString 0 0) ∅ 0 0)
    (sh_priorityBands (fr_shard sample_state.1) !! 10%Z).

Lemma sample_bands :
  sh_priorityBands (fr_shard sample_state.1) = {[10%Z := sample_pband]}.
Proof. vm_compute. reflexivity. Qed.

Lemma sample_band_policies :
  map_Forall (λ _ mq, mq_policy mq = edf.policy) (pb_queues sample_pband).
Proof.
  assert (pb_queues sample_pband = {["tenant-a"%string := default (newManagedQueue (inr (MaxMinHeap.newMaxMinHeap
    edf.policy)) edf.policy sample_key) (pb_queues sample_pband !! "tenant-a"%string)]}) as ->
    by (vm_compute; reflexivity).
  apply map_Forall_singleton. vm_compute. reflexivity.
Qed.

Lemma builtin_fairness_lawful_witness : pick_ok sample_pband.
Proof.
  apply (builtin_fairness_lawful (fr_shard sample_state.1) sample_state.2 10 sample_pband).
  - exact (tp_shard _ _ _ _ (ri_topology _ _ _ sample_inv)).
  - rewrite sample_bands. apply lookup_singleton_eq.
  - left. split; [vm_compute; reflexivity|]. exists edf.policy. split.
    + apply policy_less_swo, builtin_policy_swo. constructor.
    + exact sample_band_policies.
Defined.

Lemma sample_room : room (sp_shard sample_submitted).
Proof.
  intros key mq Hq. unfold queue_len. rewrite (queues_empty_at _ _ _ sample_queues_empty Hq).
  vm_compute. reflexivity.
Qed.

Definition sample_admitted : ShardProcessor :=
  match enqueue request_item (sp_with_chan [] sample_submitted) with
  | Some (_, sp) => sp
  | None => sample_submitted
  end.

Lemma sample_admit_step : proc_step sample_submitted sample_admitted.
Proof.
  apply (ps_receive _ request_item []); [reflexivity|exact sample_room|]. vm_compute. reflexivity.
Qed.

Lemma sample_admitted_run : rtc proc_step sample_processor sample_admitted.
Proof. eapply rtc_r; [exact sample_run|exact sample_admit_step]. Qed.

Lemma sample_admitted_inv : proc_inv sample_admitted [sample_conn].
Proof. exact (proc_step_inv _ _ _ sample_admit_step sample_submitted_inv). Qed.

Definition admitted_band : priorityBand :=
  default sample_pband (sh_priorityBands (sp_shard sample_admitted) !! 10%Z).

Lemma admitted_bands : sh_priorityBands (sp_shard sample_admitted) = {[10%Z := admitted_band]}.
Proof. vm_compute. reflexivity. Qed.

Lemma admitted_policies : map_Forall (λ _ mq, mq_policy mq = edf.policy) (pb_queues admitted_band).
Proof.
  assert (pb_queues admitted_band = {["tenant-a"%string := default (newManagedQueue (inr (MaxMinHeap.newMaxMinHeap
    edf.policy)) edf.policy sample_key) (pb_queues admitted_band !! "tenant-a"%string)]}) as ->
    by (vm_compute; reflexivity).
  apply map_Forall_singleton. vm_compute. reflexivity.
Qed.

Lemma admitted_picks : picks_ok (sp_shard sample_admitted).
Proof.
  intros p b Hb. pose proof Hb as Hb'. rewrite admitted_bands in Hb. apply lookup_singleton_Some in Hb as [<- <-].
  pose proof (tp_shard _ _ _ _ (ri_topology _ _ _ (pv_registry _ _ _ sample_admitted_inv))) as Hwf.
  apply (globalstrict_pick_ok _ (sp_store sample_admitted) edf.policy).
  - vm_compute. reflexivity.
  - apply policy_less_swo, builtin_policy_swo. constructor.
  - intros id mq Hmq. split; [|exact (admitted_policies id mq Hmq)].
    apply (sw_queue _ _ Hwf (mkFlowKey id 10)). exists admitted_band. split; [exact Hb'|exact Hmq].
Qed.

Lemma dispatch_by_priority_witness :
  fst <$> dispatchCycle half one_limit sample_admitted = Some true ∧
  ∃ r sp', dispatchCycle half one_limit sample_admitted = Some (r, sp').
Proof.
  destruct (dispatch_by_priority sample_config sample_state.1 sample_state.2 [sample_conn] 8 sample_admitted
    half one_limit sample_config_ok sample_reachable sample_queues_empty sample_admitted_run admitted_picks
    one_limit_ok) as (_ & r & sp' & i & H & _).
  split; [vm_compute; reflexivity|]. exists r, sp'. exact H.
Defined.

#[export] Instance within_dec c u : Decision (within c u).
Proof. unfold within. apply _. Defined.

Lemma sample_limits : within_limits (sp_shard sample_submitted).
Proof.
  split.
  - apply (bool_decide_unpack _). vm_compute. exact I.
  - apply (bool_decide_unpack _). vm_compute. exact I.
  - intros p b Hb. change (sp_shard sample_submitted) with (fr_shard sample_state.1) in Hb.
    rewrite sample_bands in Hb. apply lookup_singleton_Some in Hb as [_ <-].
    split; apply (bool_decide_unpack _); vm_compute; exact I.
Qed.

Lemma sample_sizes : sizes_fit (sp_shard sample_submitted) (qi_ByteSize request_item).
Proof. split; vm_compute; reflexivity. Qed.

Definition sample_mq : MQ :=
  default (newManagedQueue (inr (MaxMinHeap.newMaxMinHeap edf.policy)) edf.policy sample_key)
    (pb_queues sample_pband !! "tenant-a"%string).

Lemma enqueue_respects_capacity_witness :
  ∃ sp', enqueue request_item sample_submitted = Some (tt, sp') ∧ within_limits (sp_shard sp').
Proof.
  destruct (enqueue_respects_capacity sample_submitted [sample_conn] [] request_item sample_mq)
    as (sp' & H1 & H2 & _).
  - exact sample_submitted_inv.
  - exact sample_room.
  - exact sample_sizes.
  - reflexivity.
  - apply ManagedQueue_inl. vm_compute. reflexivity.
  - exact sample_limits.
  - exists sp'. split; [exact H1|exact H2].
Defined.

(** ** Handing over during shutdown *)

Lemma select_send_empty ctxDone it sp :
  sp_enqueueChan sp = [] → 0 < sp_bufferSize sp →
  submit_select ctxDone it sp None (sp_with_chan [Some it] sp).
Proof.
  intros Hc Hn. pose proof (select_send ctxDone it sp) as H. rewrite Hc in H. by apply H.
Qed.

Definition sample_down : ShardProcessor :=
  match shutdown sample_processor with Some (_, sp) => sp | None => sample_processor end.

(** The processor after shutdown, with the new request. *)
Definition sample_late : ShardProcessor :=
  sp_with_items (<[5%positive := newItemState]> (sp_items sample_down)) sample_down.

(** A hand-over that races with shutdown loses its request. [Submit] reads the flag
    before shutdown begins and reaches its select after shutdown has drained the
    channel; the buffered channel still accepts, so [Submit] reports success, but the
    request stays in the channel without a final state, and no later shutdown
    finalizes it. *)
Theorem submit_during_shutdown :
  sp_isShuttingDown sample_processor = false ∧
  shutdown sample_processor = Some (tt, sample_down) ∧
  ∃ sp, submit_select true request_item sample_late None sp ∧
    item_FinalState request_item sp = None ∧ sp_enqueueChan sp = [Some request_item] ∧
    shutdown sp = Some (tt, sp).
Proof.
  split_and!; [reflexivity|vm_compute; reflexivity|]. exists (sp_with_chan [Some request_item] sample_late).
  split_and!; [|reflexivity|reflexivity|vm_compute; reflexivity].
  apply select_send_empty; vm_compute; [reflexivity|lia].
Qed.
