(* ===== verification/Controller.v ===== *)
(** * The flow controller: [controller/controller.go], [controller/config.go]

    [EnqueueAndWait] is the entry point of flow control: it derives the request's
    context, leases the request's flow, hands a fresh item to the processor of a shard
    and waits until the item is finalized by the processor or the context expires.

    A request is a thread that steps together with the processor, the garbage
    collector and other requests. The registry has a single shard, so there is a
    single processor. A failed non-blocking [Submit] has no effect and is followed by
    [SubmitOrBlock]; the two and the creation of the item, which nobody else sees
    before, are one step. Contexts enter through their deadline and the error and
    cause they report once they are done. Metrics and logging are not modelled. *)

From stdpp Require Import prelude gmap strings list sorting.
From Stdlib Require Import Lia Floats.SpecFloat.
From S2P Require Import Prelude FlowTypes Ordering Fairness SafeQueue QueueFactory ManagedQueue.
From S2P Require Import RegistryConfig Leasing Shard Item Registry RegistryInv Processor.

Open Scope go_scope.

(** ** Configuration *)
Module controllerconfig.

Definition Second : Z := 1000000000.
Definition defaultExpiryCleanupInterval : Z := 1 * Second.
Definition defaultProcessorReconciliationInterval : Z := 5 * Second.
Definition defaultEnqueueChannelBufferSize : Z := 100.

Record Config := mkConfig {
  DefaultRequestTTL : Z;
  ExpiryCleanupInterval : Z;
  ProcessorReconciliationInterval : Z;
  EnqueueChannelBufferSize : Z
}.

Abbreviation ConfigOption := (Config → Config).

Definition WithDefaultRequestTTL (d : Z) : ConfigOption :=
  λ c, mkConfig d (ExpiryCleanupInterval c) (ProcessorReconciliationInterval c) (EnqueueChannelBufferSize c).
Definition WithExpiryCleanupInterval (d : Z) : ConfigOption :=
  λ c, mkConfig (DefaultRequestTTL c) d (ProcessorReconciliationInterval c) (EnqueueChannelBufferSize c).
Definition WithProcessorReconciliationInterval (d : Z) : ConfigOption :=
  λ c, mkConfig (DefaultRequestTTL c) (ExpiryCleanupInterval c) d (EnqueueChannelBufferSize c).
Definition WithEnqueueChannelBufferSize (size : Z) : ConfigOption :=
  λ c, mkConfig (DefaultRequestTTL c) (ExpiryCleanupInterval c) (ProcessorReconciliationInterval c) size.

Definition validate (c : Config) : option GoError :=
  if bool_decide (DefaultRequestTTL c < 0)%Z then Some (ENew "DefaultRequestTTL cannot be negative")
  else if bool_decide (ExpiryCleanupInterval c ≤ 0)%Z then Some (ENew "ExpiryCleanupInterval must be positive")
  else if bool_decide (ProcessorReconciliationInterval c ≤ 0)%Z
  then Some (ENew "ProcessorReconciliationInterval must be positive")
  else if bool_decide (EnqueueChannelBufferSize c < 0)%Z
  then Some (ENew "EnqueueChannelBufferSize cannot be negative")
  else None.

Definition NewConfig (opts : list ConfigOption) : Config + GoError :=
  let c := foldl (λ c opt, opt c)
    (mkConfig 0 defaultExpiryCleanupInterval defaultProcessorReconciliationInterval
       defaultEnqueueChannelBufferSize) opts in
  match validate c with
  | Some err => inr err
  | None => inl c
  end.

(** [None]: a nil configuration; the field is a nil duration. *)
Definition NewConfigFromAPI (apiConfig : option (option Z)) : Config + GoError :=
  let opts :=
    match apiConfig with
    | Some (Some ttl) => [WithDefaultRequestTTL ttl]
    | _ => []
    end in
  NewConfig opts.

End controllerconfig.

(** ** The request's context *)

(** The deadline of the derived context; [parentDeadline] is the caller's. *)
Definition createRequestContext (config : controllerconfig.Config) (now : Z) (parentDeadline : option Z)
    (req : FlowControlRequest) : option Z * Z :=
  let enqueueTime := now in
  let effectiveTTL :=
    if bool_decide (fr_InitialEffectiveTTL req ≤ 0)%Z
    then controllerconfig.DefaultRequestTTL config else fr_InitialEffectiveTTL req in
  if bool_decide (0 < effectiveTTL)%Z then
    let d := (enqueueTime + effectiveTTL)%Z in
    (Some match parentDeadline with Some pd => Z.min pd d | None => d end, enqueueTime)
  else (parentDeadline, enqueueTime).

(** The TTL that [tryDistribution] gives the item. *)
Definition itemTTL (config : controllerconfig.Config) (deadline : option Z) (enqueueTime : Z) : Z :=
  match deadline with
  | Some d => if bool_decide (0 < d - enqueueTime)%Z then (d - enqueueTime)%Z
              else controllerconfig.DefaultRequestTTL config
  | None => controllerconfig.DefaultRequestTTL config
  end.

(** ** Candidates *)

Record candidate := mkCandidate { cd_shardID : string; cd_byteSize : Z }.

(** [slices.SortFunc] by byte size. *)
Definition candidate_le (a b : candidate) : Prop := (cd_byteSize a ≤ cd_byteSize b)%Z.

#[export] Instance candidate_le_dec a b : Decision (candidate_le a b).
Proof. unfold candidate_le. apply _. Defined.

Fixpoint collect_candidates (key : FlowKey) (shards : list registryShard) : list candidate :=
  match shards with
  | [] => []
  | shard :: shards' =>
      match ManagedQueue key shard with
      | inr _ => collect_candidates key shards'
      | inl mq => mkCandidate (ID shard) (fqa_ByteSize (flowQueueAccessor mq)) :: collect_candidates key shards'
      end
  end.

Definition selectDistributionCandidates (key : FlowKey) (shards : list registryShard)
    : list candidate + GoError :=
  if bool_decide (length shards = 0) then inr (EWrap [ESentinel errNoShards])
  else
    let candidates := collect_candidates key shards in
    if bool_decide (length candidates = 0) then inr (EWrap [ESentinel errNoShards])
    else inl (merge_sort candidate_le candidates).

(** ** Workers *)

Record managedWorker := mkWorker { mw_processor : positive; mw_cancelled : bool }.

(** The map of workers, and the processors that were started. *)
Record workerPool := mkPool {
  wp_workers : gmap string managedWorker;
  wp_started : list positive;
  wp_next : positive
}.

(** Without interference [LoadOrStore] stores whenever [Load] found nothing. *)
Definition getOrStartWorker (shardID : string) (p : workerPool) : managedWorker * workerPool :=
  match wp_workers p !! shardID with
  | Some w => (w, p)
  | None =>
      let newWorker := mkWorker (wp_next p) false in
      (newWorker, mkPool (<[shardID := newWorker]> (wp_workers p)) (wp_started p ++ [wp_next p])
                    (Pos.succ (wp_next p)))
  end.

(** Workers of shards that are gone are cancelled and dropped. *)
Definition reconcileProcessors (stats : list ShardStats) (p : workerPool) : workerPool :=
  mkPool (filter (λ kv, kv.1 ∈ ss_ID <$> stats) (wp_workers p)) (wp_started p) (wp_next p).

(** ** A request in [EnqueueAndWait] *)

Record rq := mkRq { rq_request : FlowControlRequest; rq_deadline : option Z; rq_enqueueTime : Z }.

Inductive request_thread :=
  | RqStart (req : FlowControlRequest) (parentDeadline : option Z)
  | RqLoop (r : rq) (conn : connection)                    (* at the top of the loop *)
  | RqAwait (r : rq) (conn : connection) (item : QueueItem)
  | RqDone (outcome : QueueOutcome) (err : option GoError).

(** Controller, processor and requests; [sy_done]: [parentCtx] is done, from which the
    processor's context derives. *)
Record system := mkSystem {
  sy_config : controllerconfig.Config;
  sy_proc : ShardProcessor;
  sy_open : list connection;
  sy_nextItem : positive;
  sy_threads : list request_thread;
  sy_done : bool
}.

Definition sy_set (i : nat) (t : request_thread) (sp : ShardProcessor) (open : list connection)
    (next : positive) (s : system) : system :=
  mkSystem (sy_config s) sp open next (<[i := t]> (sy_threads s)) (sy_done s).

(** The result of [EnqueueAndWait] for the final outcome and error of the closure. *)
Definition enqueueResult (finalOutcome : QueueOutcome) (err : option GoError) : request_thread :=
  match err with
  | Some e =>
      if bool_decide (finalOutcome = QueueOutcomeNotYetFinalized)
      then RqDone QueueOutcomeRejectedOther (Some (EWrap [ESentinel ErrRejected; e]))
      else RqDone finalOutcome err
  | None => RqDone finalOutcome err
  end.

(** Leaving the connection changes the registry. *)
Definition sp_leave (c : connection) (sp : ShardProcessor) : ShardProcessor :=
  sp_with_registry (leave c (sp_registry sp)) (sp_store sp) sp.

Definition new_item (s : system) (r : rq) : QueueItem :=
  mkItem (sy_nextItem s) (rq_enqueueTime r)
    (itemTTL (sy_config s) (rq_deadline r) (rq_enqueueTime r)) (rq_request r).

(** The processor with a fresh item. *)
Definition sp_fresh (it : QueueItem) (sp : ShardProcessor) : ShardProcessor :=
  sp_with_items (<[qi_ptr it := newItemState]> (sp_items sp)) sp.

(** The end of [tryDistribution] for an error of the submission: the item is
    finalized, with the cause of the context if that is what ended the submission. *)
Definition distribution_failed (it : QueueItem) (err cause : GoError) : PM unit :=
  let err' := EWrap [ESentinel ErrRejected; err] in
  if errors_Is err' ContextCanceled || errors_Is err' ContextDeadlineExceeded then
    queued ← gets (λ sp, bool_decide (is_Some (Handle (sp_store sp) it)));
    on_item it (Finalize cause queued)
  else finalize_with QueueOutcomeRejectedOther (Some (EWrap [ESentinel ErrRejected; err'])) it.

(** No candidate: rejected for capacity if there is no shard. *)
Definition distribution_impossible (it : QueueItem) (err : GoError) : PM unit :=
  finalize_with
    (if errors_Is err errNoShards then QueueOutcomeRejectedCapacity else QueueOutcomeRejectedOther)
    (Some (EWrap [ESentinel ErrRejected; err])) it.

(** One step of the thread [i]. *)
Inductive request_step : system → nat → system → Prop :=
  | rs_no_connection s i req pd now err fr st :
      sy_threads s !! i = Some (RqStart req pd) →
      enter (fr_FlowKey req) now (sp_registry (sy_proc s), sp_store (sy_proc s)) = Some (inr err, (fr, st)) →
      request_step s i (sy_set i (enqueueResult QueueOutcomeNotYetFinalized (Some err))
        (sp_with_registry fr st (sy_proc s)) (sy_open s) (sy_nextItem s) s)
  | rs_connect s i req pd now now' conn fr st :
      sy_threads s !! i = Some (RqStart req pd) →
      enter (fr_FlowKey req) now' (sp_registry (sy_proc s), sp_store (sy_proc s)) = Some (inl conn, (fr, st)) →
      request_step s i
        (sy_set i (RqLoop (mkRq req (createRequestContext (sy_config s) now pd req).1
                             (createRequestContext (sy_config s) now pd req).2) conn)
           (sp_with_registry fr st (sy_proc s)) (conn :: sy_open s) (sy_nextItem s) s)
  | rs_not_running s i r conn open1 open2 :
      sy_threads s !! i = Some (RqLoop r conn) → sy_done s = true → sy_open s = open1 ++ conn :: open2 →
      request_step s i
        (sy_set i (enqueueResult QueueOutcomeRejectedOther
                     (Some (EWrap [ESentinel ErrRejected; ESentinel ErrFlowControllerNotRunning])))
           (sp_leave conn (sy_proc s)) (open1 ++ open2) (sy_nextItem s) s)
  | rs_impossible s i r conn open1 open2 err sp f :
      sy_threads s !! i = Some (RqLoop r conn) → sy_done s = false → sy_open s = open1 ++ conn :: open2 →
      selectDistributionCandidates (conn_FlowKey conn) (ActiveShards (sp_registry (sy_proc s))) = inr err →
      distribution_impossible (new_item s r) err (sp_fresh (new_item s r) (sy_proc s)) = Some (tt, sp) →
      item_FinalState (new_item s r) sp = Some f →
      request_step s i
        (sy_set i (enqueueResult (fs_Outcome f) (fs_Err f)) (sp_leave conn sp) (open1 ++ open2)
           (Pos.succ (sy_nextItem s)) s)
  | rs_submit s i r conn cs sp ctxDone callerErr :
      sy_threads s !! i = Some (RqLoop r conn) → sy_done s = false →
      selectDistributionCandidates (conn_FlowKey conn) (ActiveShards (sp_registry (sy_proc s))) = inl cs →
      Submit ctxDone (new_item s r) (sp_fresh (new_item s r) (sy_proc s)) None sp ∨
      SubmitOrBlock ctxDone callerErr (new_item s r) (sp_fresh (new_item s r) (sy_proc s)) None sp →
      request_step s i
        (sy_set i (RqAwait r conn (new_item s r)) sp (sy_open s) (Pos.succ (sy_nextItem s)) s)
  | rs_failed s i r conn open1 open2 cs ctxDone callerErr err cause sp1 sp f :
      sy_threads s !! i = Some (RqLoop r conn) → sy_done s = false → sy_open s = open1 ++ conn :: open2 →
      selectDistributionCandidates (conn_FlowKey conn) (ActiveShards (sp_registry (sy_proc s))) = inl cs →
      SubmitOrBlock ctxDone callerErr (new_item s r) (sp_fresh (new_item s r) (sy_proc s)) (Some err) sp1 →
      distribution_failed (new_item s r) err cause sp1 = Some (tt, sp) →
      item_FinalState (new_item s r) sp = Some f →
      request_step s i
        (sy_set i (enqueueResult (fs_Outcome f) (fs_Err f)) (sp_leave conn sp) (open1 ++ open2)
           (Pos.succ (sy_nextItem s)) s)
  | rs_expire s i r conn it cause sp :
      sy_threads s !! i = Some (RqAwait r conn it) →
      on_item it (Finalize cause (bool_decide (is_Some (Handle (sp_store (sy_proc s)) it)))) (sy_proc s)
        = Some (tt, sp) →
      request_step s i (sy_set i (RqAwait r conn it) sp (sy_open s) (sy_nextItem s) s)
  | rs_retry s i r conn it f e :
      sy_threads s !! i = Some (RqAwait r conn it) → item_FinalState it (sy_proc s) = Some f →
      fs_Err f = Some e → errors_Is e ErrShardDraining = true →
      request_step s i (sy_set i (RqLoop r conn) (sy_proc s) (sy_open s) (sy_nextItem s) s)
  | rs_finished s i r conn it f open1 open2 :
      sy_threads s !! i = Some (RqAwait r conn it) → item_FinalState it (sy_proc s) = Some f →
      (∀ e, fs_Err f = Some e → errors_Is e ErrShardDraining = false) →
      sy_open s = open1 ++ conn :: open2 →
      request_step s i
        (sy_set i (enqueueResult (fs_Outcome f) (fs_Err f)) (sp_leave conn (sy_proc s)) (open1 ++ open2)
           (sy_nextItem s) s).

Definition sy_with_proc (sp : ShardProcessor) (s : system) : system :=
  mkSystem (sy_config s) sp (sy_open s) (sy_nextItem s) (sy_threads s) (sy_done s).

(** A step of the whole: a request, the processor's loop, its sweep, its shutdown, a
    garbage collection cycle, a new request, or the end of the controller's
    context. *)
Inductive system_step : system → system → Prop :=
  | ss_request s i s' : request_step s i s' → system_step s s'
  | ss_receive s it rest sp :
      sp_enqueueChan (sy_proc s) = Some it :: rest →
      enqueue it (sp_with_chan rest (sy_proc s)) = Some (tt, sp) →
      system_step s (sy_with_proc sp s)
  | ss_dispatch s sat CL r sp :
      dispatchCycle sat CL (sy_proc s) = Some (r, sp) → system_step s (sy_with_proc sp s)
  | ss_sweep s sp :
      sweepFinalizedItems (sy_proc s) = Some (tt, sp) → system_step s (sy_with_proc sp s)
  | ss_shutdown s sp :
      sp_shutdownOnce (sy_proc s) = false → shutdown (sy_proc s) = Some (tt, sp) →
      system_step s (sy_with_proc sp s)
  | ss_gc s now :
      system_step s (sy_with_proc (sp_with_registry (executeGCCycle now (sp_registry (sy_proc s)))
        (sp_store (sy_proc s)) (sy_proc s)) s)
  | ss_arrive s req pd :
      system_step s (mkSystem (sy_config s) (sy_proc s) (sy_open s) (sy_nextItem s)
        (sy_threads s ++ [RqStart req pd]) (sy_done s))
  | ss_done s :
      system_step s (mkSystem (sy_config s) (sy_proc s) (sy_open s) (sy_nextItem s) (sy_threads s) true).
