(* ===== verification/ControllerProps.v ===== *)
(** * What [EnqueueAndWait] guarantees

    Every result is a terminal outcome with a matching error; the leases follow the
    requests; a request that waits is somewhere in the system; effective times to
    live and candidates are what the configuration and the queues say. *)

From stdpp Require Import prelude gmap strings list sorting.
From Stdlib Require Import Lia Floats.SpecFloat.
From S2P Require Import Prelude FlowTypes Ordering Fairness SafeQueue QueueFactory ManagedQueue.
From S2P Require Import RegistryConfig Leasing Shard Item Registry RegistryInv RegistryProps.
From S2P Require Import Processor ProcessorInv ProcessorProps Controller.

Open Scope go_scope.

(** ** Outcomes *)

(** The documented relation of outcome and error ([types/outcomes.go]). *)
Definition outcome_ok (f : FinalState) : Prop :=
  match fs_Outcome f with
  | QueueOutcomeNotYetFinalized => False
  | QueueOutcomeDispatched => fs_Err f = None
  | QueueOutcomeRejectedCapacity | QueueOutcomeRejectedOther =>
      ∃ e, fs_Err f = Some e ∧ errors_Is e ErrRejected = true
  | QueueOutcomeEvictedTTL =>
      ∃ e, fs_Err f = Some e ∧ errors_Is e ErrEvicted = true ∧ errors_Is e ErrTTLExpired = true
  | QueueOutcomeEvictedContextCancelled =>
      ∃ e, fs_Err f = Some e ∧ errors_Is e ErrEvicted = true ∧ errors_Is e ErrContextCancelled = true
  | QueueOutcomeEvictedOther => ∃ e, fs_Err f = Some e ∧ errors_Is e ErrEvicted = true
  end.

Definition finals_ok (m : gmap positive ItemState) : Prop :=
  ∀ ptr s f, m !! ptr = Some s → is_finalState s = Some f → outcome_ok f.

Lemma rejected_ok o e :
  o = QueueOutcomeRejectedCapacity ∨ o = QueueOutcomeRejectedOther →
  outcome_ok (mkFinalState o (Some (EWrap [ESentinel ErrRejected; e]))).
Proof. intros [-> | ->]; eexists; split; reflexivity. Qed.

Lemma inferOutcome_ok cause q :
  outcome_ok (mkFinalState (inferOutcome cause q).1 (Some (inferOutcome cause q).2)).
Proof.
  unfold inferOutcome. destruct (errors_Is cause ErrTTLExpired || errors_Is cause ContextDeadlineExceeded);
    [|destruct (errors_Is cause ContextCanceled)]; destruct q; eexists; repeat split; reflexivity.
Qed.

(** Code that keeps [finals_ok]. *)
Definition keeps {A} (c : PM A) : Prop :=
  ∀ sp a sp', c sp = Some (a, sp') → finals_ok (sp_items sp) → finals_ok (sp_items sp').

Lemma keeps_ret {A} (a : A) : keeps (mret a).
Proof. intros sp a' sp' [= <- <-]. done. Qed.

Lemma keeps_bind {A B} (c : PM A) (k : A → PM B) : keeps c → (∀ a, keeps (k a)) → keeps (c ≫= k).
Proof.
  intros Hc Hk sp b sp'. unfold mbind, gom_bind. destruct (c sp) as [[a sp1]|] eqn:E; [|done].
  intros E2 Hf. eapply Hk; [exact E2|]. by eapply Hc.
Qed.

Lemma keeps_gets {A} (f : ShardProcessor → A) : keeps (gets f).
Proof. intros sp a sp' [= <- <-]. done. Qed.

Lemma keeps_modify f : (∀ sp, sp_items (f sp) = sp_items sp) → keeps (modify f).
Proof. intros Hf sp a sp' [= <- <-]. by rewrite Hf. Qed.

Lemma keeps_panic {A} : keeps (@panic ShardProcessor A).
Proof. intros sp a sp' E. discriminate. Qed.

Lemma keeps_on_queue {A} (c : RM A) : keeps (on_queue c).
Proof.
  intros sp a sp'. unfold on_queue. destruct (c (sp_registry sp, sp_store sp)) as [[a' [fr st]]|]; [|done].
  by intros [= <- <-].
Qed.

Lemma keeps_on_item it g :
  (∀ s s', g s = Some s' → is_finalState s' = is_finalState s ∨ ∃ f, is_finalState s' = Some f ∧ outcome_ok f) →
  keeps (on_item it g).
Proof.
  intros Hg sp a sp'. unfold on_item. destruct (sp_items sp !! qi_ptr it) as [s|] eqn:Hs; [|done].
  destruct (g s) as [s'|] eqn:E; [|done]. intros [= <- <-] Hf ptr s0 f. simpl. rewrite lookup_insert.
  case_decide; [|by apply Hf]. intros [= <-] Hs0. destruct (Hg s s' E) as [E2|(f' & E2 & Hok)].
  - apply (Hf _ _ _ Hs). congruence.
  - congruence.
Qed.

Lemma once_final s g s' :
  Item.once s g = Some s' → (∀ t, g s = Some t → ∃ f, is_finalState t = Some f ∧ outcome_ok f) →
  is_finalState s' = is_finalState s ∨ ∃ f, is_finalState s' = Some f ∧ outcome_ok f.
Proof.
  unfold Item.once. destruct (is_onceFinalize s); [intros [= <-]; by left|].
  destruct (g s) as [t|] eqn:E; [|done]. intros [= <-] Hg. right. destruct (Hg t eq_refl) as (f & H1 & H2). by exists f.
Qed.

Lemma finalizeInternal_final o e s t :
  finalizeInternal o e s = Some t → is_finalState t = Some (mkFinalState o e).
Proof.
  unfold finalizeInternal. destruct (is_doneClosed s); [done|]. destruct (is_done s); [|done]. by intros [= <-].
Qed.

Lemma keeps_finalize_with o e it : outcome_ok (mkFinalState o e) → keeps (finalize_with o e it).
Proof.
  intros Hok. apply keeps_on_item. intros s s' E. eapply once_final; [exact E|].
  intros t Ht. exists (mkFinalState o e). split; [|done]. by eapply finalizeInternal_final.
Qed.

Lemma keeps_Finalize cause q it : keeps (on_item it (Finalize cause q)).
Proof.
  apply keeps_on_item. intros s s' E. eapply once_final; [exact E|]. intros t. cbv beta.
  pose proof (inferOutcome_ok cause q) as Hok. destruct (inferOutcome cause q) as [o e]. intros Ht.
  eexists. split; [by eapply finalizeInternal_final|done].
Qed.

Lemma keeps_for_each {A} (l : list A) (body : A → PM unit) : (∀ x, keeps (body x)) → keeps (for_each l body).
Proof.
  intros Hb. induction l as [|x l IH]; simpl; [apply keeps_ret|]. apply keeps_bind; [apply Hb|]. by intros [].
Qed.

Create HintDb keeps.
#[export] Hint Resolve keeps_ret keeps_gets keeps_panic keeps_on_queue keeps_Finalize : keeps.

(** Take the code apart. *)
Ltac keep :=
  repeat first
    [ apply keeps_bind; [|intros ?]
    | apply keeps_for_each; intros ?
    | apply keeps_modify; intros ?; reflexivity
    | apply keeps_finalize_with; first [reflexivity | apply rejected_ok; auto | eexists; split; reflexivity]
    | solve [auto with keeps]
    | case_match ].

Lemma keeps_enqueue it : keeps (enqueue it).
Proof. unfold enqueue. keep. Qed.

Lemma keeps_set_policyState p ps : keeps (modify (set_policyState p ps)).
Proof.
  apply keeps_modify. intros sp. unfold set_policyState. by destruct (sh_priorityBands (sp_shard sp) !! p).
Qed.
#[export] Hint Resolve keeps_set_policyState : keeps.

Lemma keeps_selectItem b : keeps (selectItem b).
Proof. unfold selectItem. keep. Qed.

Lemma keeps_dispatchItem it : keeps (dispatchItem it).
Proof. unfold dispatchItem. keep. Qed.
#[export] Hint Resolve keeps_enqueue keeps_selectItem keeps_dispatchItem : keeps.

Lemma keeps_dispatch_loop sat ps : ∀ cs, keeps (dispatch_loop sat ps cs).
Proof. induction ps as [|p ps IH]; intros [|c cs]; simpl; keep; apply IH. Qed.

Lemma keeps_dispatchCycle sat CL : keeps (dispatchCycle sat CL).
Proof. unfold dispatchCycle. apply keeps_bind; [auto with keeps|]. intros ps. apply keeps_dispatch_loop. Qed.

Lemma keeps_sweep : keeps sweepFinalizedItems.
Proof. unfold sweepFinalizedItems, processAllQueuesConcurrently, sweep_queue. keep. Qed.

Lemma keeps_shutdown : keeps shutdown.
Proof.
  unfold shutdown, evictAll, processAllQueuesConcurrently, evict_queue, reject_buffered. keep.
Qed.

Lemma Submit_items cd it sp r sp' :
  Submit cd it sp r sp' → sp_items sp' = sp_items sp ∧ sp_registry sp' = sp_registry sp ∧ sp_store sp' = sp_store sp.
Proof. destruct 1 as [|? ? ? _ Hs]; [done|]. by destruct Hs. Qed.

Lemma SubmitOrBlock_items cd ce it sp r sp' :
  SubmitOrBlock cd ce it sp r sp' →
  sp_items sp' = sp_items sp ∧ sp_registry sp' = sp_registry sp ∧ sp_store sp' = sp_store sp.
Proof. by destruct 1. Qed.

Lemma fresh_finals_ok it sp : finals_ok (sp_items sp) → finals_ok (sp_items (sp_fresh it sp)).
Proof.
  intros Hf ptr s f. simpl. rewrite lookup_insert. case_decide; [by intros [= <-]|exact (Hf ptr s f)].
Qed.

Lemma keeps_impossible it err : keeps (distribution_impossible it err).
Proof. unfold distribution_impossible. apply keeps_finalize_with, rejected_ok. destruct (errors_Is _ _); auto. Qed.

Lemma keeps_failed it err cause : keeps (distribution_failed it err cause).
Proof. unfold distribution_failed. keep. Qed.

Lemma final_state_ok it sp f : finals_ok (sp_items sp) → item_FinalState it sp = Some f → outcome_ok f.
Proof.
  unfold item_FinalState. intros Hf. destruct (sp_items sp !! qi_ptr it) as [s|] eqn:Hs; [|done].
  simpl. intros E. exact (Hf (qi_ptr it) s f Hs E).
Qed.

(** The finished threads have proper outcomes. *)
Definition done_ok (t : request_thread) : Prop :=
  match t with RqDone o e => outcome_ok (mkFinalState o e) | _ => True end.

Lemma enqueueResult_ok o e : outcome_ok (mkFinalState o e) → done_ok (enqueueResult o e).
Proof.
  intros Hok. unfold enqueueResult. destruct e as [e|]; [|done]. case_bool_decide; [|done]. by subst.
Qed.

Lemma enqueueResult_reject e : done_ok (enqueueResult QueueOutcomeNotYetFinalized (Some e)).
Proof. eexists. split; reflexivity. Qed.

Record outcomes_inv (s : system) : Prop := {
  oi_finals : finals_ok (sp_items (sy_proc s));
  oi_done : ∀ i t, sy_threads s !! i = Some t → done_ok t
}.

Lemma outcomes_set s i t sp open next :
  outcomes_inv s → finals_ok (sp_items sp) → done_ok t → outcomes_inv (sy_set i t sp open next s).
Proof.
  intros [O1 O2] Hf Ht. split; [done|]. intros j t'. simpl. intros Hj.
  destruct (decide (i = j)) as [->|Hne].
  - destruct (decide (j < length (sy_threads s))) as [Hl|Hl].
    + rewrite list_lookup_insert_eq in Hj by done. congruence.
    + rewrite list_insert_ge in Hj by lia. by eapply O2.
  - rewrite list_lookup_insert_ne in Hj by done. by eapply O2.
Qed.

Lemma request_step_outcomes s i s' : request_step s i s' → outcomes_inv s → outcomes_inv s'.
Proof.
  destruct 1 as [| | |s i r conn o1 o2 err sp f H1 H2 H3 H4 H5 H6|s i r conn cs sp cd ce H1 H2 H3 H4
    |s i r conn o1 o2 cs cd ce err cause sp1 sp f H1 H2 H3 H4 H5 H6 H7|s i r conn it cause sp H1 H2
    |s i r conn it f e H1 H2 H3 H4|s i r conn it f o1 o2 H1 H2 H3 H4]; intros Ho; pose proof (oi_finals _ Ho) as Hf;
    apply outcomes_set; try done.
  - apply enqueueResult_reject.
  - by apply enqueueResult_ok, rejected_ok; right.
  - simpl. eapply keeps_impossible; [exact H5|]. by apply fresh_finals_ok.
  - apply enqueueResult_ok. destruct f as [o e]. eapply final_state_ok; [|exact H6].
    eapply keeps_impossible; [exact H5|]. by apply fresh_finals_ok.
  - assert (sp_items sp = sp_items (sp_fresh (new_item s r) (sy_proc s))) as ->; [|by apply fresh_finals_ok].
    by destruct H4 as [H4%Submit_items|H4%SubmitOrBlock_items]; destruct H4.
  - simpl. eapply keeps_failed; [exact H6|]. destruct (SubmitOrBlock_items _ _ _ _ _ _ H5) as [-> _].
    by apply fresh_finals_ok.
  - apply enqueueResult_ok. destruct f as [o e]. eapply final_state_ok; [|exact H7].
    eapply keeps_failed; [exact H6|]. destruct (SubmitOrBlock_items _ _ _ _ _ _ H5) as [-> _].
    by apply fresh_finals_ok.
  - by eapply keeps_Finalize.
  - apply enqueueResult_ok. destruct f as [o e]. by eapply final_state_ok.
Qed.

Lemma system_step_outcomes s s' : system_step s s' → outcomes_inv s → outcomes_inv s'.
Proof.
  destruct 1 as [s i s' Hr|s it rest sp H1 H2|s sat CL r sp H1|s sp H1|s sp H1 H2|s now|s req pd|s]; intros Ho.
  - by eapply request_step_outcomes.
  - destruct Ho as [O1 O2]. split; [|done]. by eapply keeps_enqueue.
  - destruct Ho as [O1 O2]. split; [|done]. by eapply keeps_dispatchCycle.
  - destruct Ho as [O1 O2]. split; [|done]. by eapply keeps_sweep.
  - destruct Ho as [O1 O2]. split; [|done]. by eapply keeps_shutdown.
  - destruct Ho as [O1 O2]. by split.
  - destruct Ho as [O1 O2]. split; [done|]. simpl. intros i t Ht.
    apply lookup_app_Some in Ht as [Ht|[_ Ht]]; [by eapply O2|].
    apply list_lookup_singleton_Some in Ht as [_ <-]. done.
  - destruct Ho as [O1 O2]. by split.
Qed.

(** A controller over a registry, before the first request. *)
Definition new_system (config : controllerconfig.Config) (fr : FlowRegistry) (st : store) (n : nat) : system :=
  mkSystem config (new_processor fr st n) [] 1 [] false.

Lemma reachable_outcomes (config : controllerconfig.Config) (fr : FlowRegistry) (st : store) (n : nat)
    (s : system) (i : nat) (o : QueueOutcome) (e : option GoError)
    (Hrun : rtc system_step (new_system config fr st n) s)
    (Hdone : sy_threads s !! i = Some (RqDone o e)) :
  outcome_ok (mkFinalState o e).
Proof.
  assert (outcomes_inv s) as Ho; [|by apply (oi_done _ Ho i _ Hdone)].
  assert (outcomes_inv (new_system config fr st n)) as H0.
  { split; [|by intros j t ?]. by intros ptr x f ?. }
  clear Hdone. revert H0. induction Hrun as [|x y z Hxy _ IH]; [done|].
  intros H0. by eapply IH, system_step_outcomes.
Qed.

(** C29. Every request that [EnqueueAndWait] returns has a terminal outcome with the
    documented error: dispatched requests have none; rejected ones wrap [ErrRejected];
    evicted ones wrap [ErrEvicted], together with [ErrTTLExpired] or
    [ErrContextCancelled] where the outcome says so; no request is returned as not yet
    finalized. This holds however requests, processor, sweep, garbage collection,
    expiry and shutdown interleave. *)
Theorem terminal_outcomes (config : controllerconfig.Config) (fr : FlowRegistry) (st : store) (n : nat)
    (s : system) (i : nat) (o : QueueOutcome) (e : option GoError)
    (Hrun : rtc system_step (new_system config fr st n) s)
    (Hdone : sy_threads s !! i = Some (RqDone o e)) :
  outcome_ok (mkFinalState o e).
Proof. by eapply reachable_outcomes. Qed.

(** ** A run: one request is admitted and dispatched *)

Definition run_config : controllerconfig.Config := controllerconfig.mkConfig 0 1000000000 5000000000 8.
Definition run_request : FlowControlRequest := mkRequest sample_key 500 None 0 0 "req".

Definition run_start : system := new_system run_config sample_registry store_empty 8.

Definition run_arrived : system :=
  mkSystem run_config (sy_proc run_start) [] 1 [RqStart run_request None] false.

Definition run_rq : rq := mkRq run_request None 0.

Definition run_connected : system :=
  sy_set 0 (RqLoop run_rq sample_conn)
    (sp_with_registry sample_state.1 sample_state.2 (sy_proc run_arrived)) [sample_conn] 1 run_arrived.

Definition run_item : QueueItem := new_item run_connected run_rq.

Definition run_submitted : system :=
  sy_set 0 (RqAwait run_rq sample_conn run_item)
    (sp_with_chan [Some run_item] (sp_fresh run_item (sy_proc run_connected))) [sample_conn] 2 run_connected.

Definition proc_after {A} (c : PM A) (sp : ShardProcessor) : ShardProcessor :=
  match c sp with Some (_, sp') => sp' | None => sp end.

Definition run_admitted : system :=
  sy_with_proc (proc_after (enqueue run_item) (sp_with_chan [] (sy_proc run_submitted))) run_submitted.

Definition run_dispatched : system :=
  sy_with_proc (proc_after (dispatchCycle half one_limit) (sy_proc run_admitted)) run_admitted.

Definition run_finished : system :=
  sy_set 0 (RqDone QueueOutcomeDispatched None) (sp_leave sample_conn (sy_proc run_dispatched)) [] 2
    run_dispatched.

Lemma proc_after_some {A} (c : PM A) sp a : fst <$> c sp = Some a → c sp = Some (a, proc_after c sp).
Proof. unfold proc_after. destruct (c sp) as [[b sp']|]; [|done]. by intros [= ->]. Qed.

Lemma run_connect : system_step run_arrived run_connected.
Proof.
  apply (ss_request _ 0), (rs_connect run_arrived 0 run_request None 0 0 sample_conn sample_state.1 sample_state.2);
    vm_compute; reflexivity.
Qed.

Lemma run_submit : system_step run_connected run_submitted.
Proof.
  apply (ss_request _ 0), (rs_submit run_connected 0 run_rq sample_conn [mkCandidate (ID (fr_shard sample_state.1)) 0]
    (sy_proc run_submitted) false None); [reflexivity|reflexivity|vm_compute; reflexivity|].
  left. apply Submit_select; [reflexivity|].
  change (sy_proc run_submitted) with (sp_with_chan
    (sp_enqueueChan (sp_fresh run_item (sy_proc run_connected)) ++ [Some run_item])
    (sp_fresh run_item (sy_proc run_connected))).
  apply select_send. change (0 < 8). lia.
Qed.

Lemma run_admit : system_step run_submitted run_admitted.
Proof.
  apply (ss_receive run_submitted run_item [] (proc_after (enqueue run_item) (sp_with_chan [] (sy_proc run_submitted))));
    [reflexivity|apply proc_after_some; vm_compute; reflexivity].
Qed.

Lemma run_dispatch : system_step run_admitted run_dispatched.
Proof.
  apply (ss_dispatch run_admitted half one_limit true (proc_after (dispatchCycle half one_limit) (sy_proc run_admitted))).
  apply proc_after_some. vm_compute. reflexivity.
Qed.

Lemma run_finish : system_step run_dispatched run_finished.
Proof.
  apply (ss_request _ 0), (rs_finished run_dispatched 0 run_rq sample_conn run_item (mkFinalState QueueOutcomeDispatched None)
    [] []); [vm_compute; reflexivity|vm_compute; reflexivity|done|vm_compute; reflexivity].
Qed.

Lemma run_complete : rtc system_step run_start run_finished.
Proof.
  eapply rtc_l; [apply (ss_arrive _ run_request None)|].
  eapply rtc_l; [exact run_connect|]. eapply rtc_l; [exact run_submit|].
  eapply rtc_l; [exact run_admit|]. eapply rtc_l; [exact run_dispatch|].
  apply rtc_once. exact run_finish.
Qed.

Lemma terminal_outcomes_witness : outcome_ok (mkFinalState QueueOutcomeDispatched None).
Proof.
  exact (terminal_outcomes run_config sample_registry store_empty 8 run_finished 0 QueueOutcomeDispatched None
    run_complete eq_refl).
Defined.
