(* ===== verification/SchedTypes.v ===== *)
(** * Data of the scheduling layer

    Endpoints with their metadata, metrics and attributes ([interface/datalayer],
    [interface/scheduling/types.go]) and inference requests with their parsed body
    ([interface/requesthandling/types.go]).

    Endpoints are compared by pointer: [ep_ptr] is the identity of the endpoint object
    that the candidates of one scheduling cycle share; a [ScoredEndpoint] stands for
    the endpoint it embeds. *)

From stdpp Require Import prelude gmap strings list.
From Stdlib Require Import Floats.SpecFloat.
From S2P Require Import Prelude Float64.

#[export] Set Warnings "-register-all".

(** ** Endpoints *)

Record NamespacedName := mkNamespacedName { nn_Namespace : string; nn_Name : string }.

#[export] Instance NamespacedName_eq_dec : EqDecision NamespacedName.
Proof. solve_decision. Defined.

#[export] Instance NamespacedName_countable : Countable NamespacedName.
Proof.
  refine (inj_countable' (λ n, (nn_Namespace n, nn_Name n)) (λ p, mkNamespacedName p.1 p.2) _).
  by intros [].
Defined.

Record EndpointMetadata := mkMetadata {
  md_NamespacedName : NamespacedName;
  md_PodName : string;
  md_Address : string;
  md_Port : string;
  md_MetricsHost : string;
  md_Labels : gmap string string
}.

Record Metrics := mkMetrics {
  mt_ActiveModels : gmap string Z;
  mt_WaitingModels : gmap string Z;
  mt_MaxActiveModels : Z;
  mt_RunningRequestsSize : Z;
  mt_WaitingQueueSize : Z;
  mt_KVCacheUsagePercent : float64;
  mt_KvCacheMaxTokenCapacity : Z;
  mt_CacheBlockSize : Z;
  mt_CacheNumBlocks : Z;
  mt_UpdateTime : Z
}.

Definition NewMetrics : Metrics := mkMetrics ∅ ∅ 0 0 0 fzero 0 0 0 0.

(** [attribute/latency], [attribute/prefix], [attribute/concurrency]. *)
Record LatencyPredictionInfo := mkLatency {
  lp_TTFTValid : bool;
  lp_TPOTValid : bool;
  lp_TTFTHeadroom : float64;
  lp_TPOTHeadroom : float64;
  lp_TTFT : float64;
  lp_TPOT : float64;
  lp_DispatchedRequestCount : Z
}.

Record PrefixCacheMatchInfo := mkPrefixInfo {
  pm_MatchBlocks : Z;
  pm_TotalBlocks : Z;
  pm_BlockSizeTokens : Z
}.

Record InFlightLoad := mkInFlightLoad { il_Tokens : Z; il_Requests : Z }.

(** The dynamic types of attribute values. *)
Inductive Cloneable :=
  | ALatency (info : LatencyPredictionInfo)
  | APrefix (info : PrefixCacheMatchInfo)
  | AInFlight (load : InFlightLoad)
  | AOther (type : string).

Definition LatencyPredictionInfoKey : string := "LatencyPredictionInfoKey".
Definition PrefixCacheMatchInfoKey : string := "PrefixCacheMatchInfoKey".
Definition InFlightLoadKey : string := "InFlightLoadKey".

Record Endpoint := mkEndpoint {
  ep_ptr : positive;
  ep_Metadata : EndpointMetadata;
  ep_Metrics : Metrics;
  ep_Attributes : gmap string Cloneable
}.

(** [endpoint.Get(key)]; values are immutable, so the clone is the value. *)
Definition ep_Get (key : string) (ep : Endpoint) : option Cloneable := ep_Attributes ep !! key.

Definition ep_ptrs (eps : list Endpoint) : list positive := ep_ptr <$> eps.

(** ** Requests *)

(** JSON values, for fields of type [any]. Decoding gives numbers as [float64]; an integer is
    in a value only when the code has put it there. *)
Inductive JSON :=
  | JNull
  | JBool (b : bool)
  | JNumber (f : float64)
  | JInt (z : Z)
  | JString (s : string)
  | JArray (l : list JSON)
  | JObject (fields : list (string * JSON)).

(** [Prompt] and [EmbeddingsInput] have the same fields and methods. *)
Record Prompt := mkPrompt { pr_Raw : string; pr_Strings : list string; pr_TokenIDs : list Z }.

(** The blocks of a message: text, or the address or the data of a medium. *)
Record ContentBlock := mkBlock {
  cb_Type : string;
  cb_Text : string;
  cb_ImageURL : string;
  cb_AudioData : string;
  cb_AudioFormat : string;
  cb_VideoURL : string
}.
(** A nil slice of blocks is [None]. *)
Record Content := mkContent { ct_Raw : string; ct_Structured : option (list ContentBlock) }.
Record Message := mkMessage { ms_Role : string; ms_Content : Content }.
Record ConversationItem := mkConversationItem { ci_Type : string; ci_Role : string; ci_Content : JSON }.

Record CompletionsRequest := mkCompletions { cr_Prompt : Prompt; cr_CacheSalt : string }.
Record ChatCompletionsRequest := mkChat {
  cc_Messages : list Message;
  cc_Tools : list JSON;
  cc_Documents : list JSON;
  cc_ChatTemplate : string;
  cc_ReturnAssistantTokensMask : bool;
  cc_ContinueFinalMessage : bool;
  cc_AddGenerationPrompt : bool;
  cc_ChatTemplateKWArgs : list (string * JSON);
  cc_CacheSalt : string
}.
(** A nil [Instructions] or [Tools] is [None]. *)
Record ResponsesRequest := mkResponses {
  rr_Input : JSON;
  rr_Instructions : option JSON;
  rr_Tools : option JSON;
  rr_CacheSalt : string
}.
Record ConversationsRequest := mkConversations {
  cv_Items : list ConversationItem;
  cv_Metadata : list (string * JSON);
  cv_CacheSalt : string
}.
Record EmbeddingsRequest := mkEmbeddings { er_Input : Prompt; er_CacheSalt : string }.

Record MultiModalFeature := mkFeature { mf_Modality : string; mf_Hash : string; mf_Offset : Z; mf_Length : Z }.
Record TokenizedPrompt := mkTokenized { tp_TokenIDs : list Z; tp_MultiModalFeatures : list MultiModalFeature }.

Record InferenceRequestBody := mkBody {
  bd_Completions : option CompletionsRequest;
  bd_ChatCompletions : option ChatCompletionsRequest;
  bd_Responses : option ResponsesRequest;
  bd_Conversations : option ConversationsRequest;
  bd_Embeddings : option EmbeddingsRequest;
  bd_TokenizedPrompt : option TokenizedPrompt;
  bd_Stream : bool
}.

Record InferenceRequest := mkInferenceRequest {
  ir_RequestId : string;
  ir_TargetModel : string;
  ir_Body : option InferenceRequestBody;
  ir_Headers : gmap string string;
  ir_Priority : Z;
  ir_RequestSizeBytes : Z
}.

Definition ir_with_headers (h : gmap string string) (r : InferenceRequest) : InferenceRequest :=
  mkInferenceRequest (ir_RequestId r) (ir_TargetModel r) (ir_Body r) h (ir_Priority r) (ir_RequestSizeBytes r).

(** [strings.Join]. *)
Fixpoint strings_Join (elems : list string) (sep : string) : string :=
  match elems with
  | [] => ""
  | [e] => e
  | e :: elems' => e +:+ sep +:+ strings_Join elems' sep
  end.

Definition Prompt_PlainText (p : Prompt) : string :=
  if bool_decide (pr_Raw p ≠ ""%string) then pr_Raw p else strings_Join (pr_Strings p) " ".

Definition Prompt_TokenCountHint (p : Prompt) : Z :=
  if bool_decide (0 < length (pr_TokenIDs p)) then Z.of_nat (length (pr_TokenIDs p)) else -1.

Definition Prompt_IsEmpty (p : Prompt) : bool :=
  bool_decide (pr_Raw p = ""%string) && bool_decide (length (pr_Strings p) = 0) &&
  bool_decide (length (pr_TokenIDs p) = 0).

Fixpoint blocks_text (blocks : list ContentBlock) : string :=
  match blocks with
  | [] => ""
  | b :: blocks' =>
      (if bool_decide (cb_Type b = "text"%string) then cb_Text b +:+ " " else "") +:+ blocks_text blocks'
  end.

Definition Content_PlainText (c : Content) : string :=
  if bool_decide (ct_Raw c ≠ ""%string) then ct_Raw c else blocks_text (default [] (ct_Structured c)).

Definition InputTokenCountHint (b : InferenceRequestBody) : Z :=
  match bd_Completions b with
  | Some c => Prompt_TokenCountHint (cr_Prompt c)
  | None =>
      match bd_Embeddings b with
      | Some e => Prompt_TokenCountHint (er_Input e)
      | None => -1
      end
  end.

Definition CacheSalt (b : InferenceRequestBody) : string :=
  match bd_Conversations b with
  | Some c => cv_CacheSalt c
  | None =>
  match bd_Responses b with
  | Some r => rr_CacheSalt r
  | None =>
  match bd_ChatCompletions b with
  | Some c => cc_CacheSalt c
  | None =>
  match bd_Completions b with
  | Some c => cr_CacheSalt c
  | None =>
  match bd_Embeddings b with
  | Some e => er_CacheSalt e
  | None => ""
  end end end end end.

Lemma char_free_cons c a s : char_free c (String a s) = true ↔ a ≠ c ∧ char_free c s = true.
Proof. cbn [char_free]. rewrite andb_true_iff, negb_true_iff. f_equiv. rewrite <- not_true_iff_false, Ascii.eqb_eq. done. Qed.
