(* ===== verification/Json.v ===== *)
(** * JSON encoding of requests: [interface/requesthandling/types.go]

    [json.Marshal] for the types that the scheduler encodes itself: strings, the content of
    a message, lists of messages and decoded values, and the text of a prompt. Strings are sequences of bytes; the encoder's
    treatment of invalid UTF-8 and of the two Unicode line separators is left out, so bytes
    above 127 stand for themselves. *)

From stdpp Require Import prelude gmap strings list pretty.
From Stdlib Require Import Lia.
From S2P Require Import Prelude Float64 SchedTypes.

Definition char (n : nat) : string := String (Ascii.ascii_of_nat n) "".
Definition dquote : string := char 34.

Definition hex_digit (n : nat) : string := char (if bool_decide (n < 10) then 48 + n else 87 + n).

(** [appendString] of [encoding/json], with escaped HTML. *)
Definition escape_char (c : Ascii.ascii) : string :=
  let n := Ascii.nat_of_ascii c in
  if bool_decide (n = 34) then "\" +:+ dquote
  else if bool_decide (n = 92) then "\\"
  else if bool_decide (n = 8) then "\b"
  else if bool_decide (n = 12) then "\f"
  else if bool_decide (n = 10) then "\n"
  else if bool_decide (n = 13) then "\r"
  else if bool_decide (n = 9) then "\t"
  else if bool_decide (n < 32 ∨ n = 60 ∨ n = 62 ∨ n = 38) then
    "\u00" +:+ hex_digit (n / 16) +:+ hex_digit (n mod 16)
  else String c "".

Fixpoint escape (s : string) : string :=
  match s with
  | EmptyString => ""
  | String c s' => escape_char c +:+ escape s'
  end.

Definition MarshalString (s : string) : string := dquote +:+ escape s +:+ dquote.

Definition json_array (items : list string) : string := "[" +:+ strings_Join items "," +:+ "]".

(** The fields that are present, in order. *)
Definition json_object (fields : list (option (string * string))) : string :=
  "{" +:+ strings_Join
    ((λ f : string * string, MarshalString f.1 +:+ ":" +:+ f.2) <$> omap (λ f, f) fields) "," +:+ "}".

Definition always (name value : string) : option (string * string) := Some (name, value).
Definition omitempty (name s : string) : option (string * string) :=
  if bool_decide (s = ""%string) then None else Some (name, MarshalString s).

Definition ContentBlock_Marshal (b : ContentBlock) : string :=
  json_object [
    always "type" (MarshalString (cb_Type b));
    omitempty "text" (cb_Text b);
    always "image_url" (json_object [omitempty "url" (cb_ImageURL b)]);
    always "input_audio" (json_object [omitempty "data" (cb_AudioData b); omitempty "format" (cb_AudioFormat b)]);
    always "video_url" (json_object [omitempty "url" (cb_VideoURL b)])
  ].

Definition Content_MarshalJSON (mc : Content) : string :=
  if bool_decide (ct_Raw mc ≠ ""%string) then MarshalString (ct_Raw mc)
  else
    match ct_Structured mc with
    | Some blocks => json_array (ContentBlock_Marshal <$> blocks)
    | None => MarshalString ""
    end.

Definition Message_Marshal (m : Message) : string :=
  json_object [omitempty "role" (ms_Role m); always "content" (Content_MarshalJSON (ms_Content m))].

Definition Messages_Marshal (messages : list Message) : string := json_array (Message_Marshal <$> messages).

(** *** Decoded values *)

Section values.
(** The text of a number, the shortest that decodes to it. *)
Context (FormatFloat : float64 → string).

(** [json.Marshal] of a decoded value; the fields of an object are in the order of their
    names, in which the encoder writes the entries of a map. *)
Fixpoint JSON_Marshal (j : JSON) : string :=
  match j with
  | JNull => "null"
  | JBool true => "true"
  | JBool false => "false"
  | JNumber f => FormatFloat f
  | JInt z => pretty z
  | JString s => MarshalString s
  | JArray l => json_array ((fix go (l : list JSON) := match l with [] => [] | j :: l' => JSON_Marshal j :: go l' end) l)
  | JObject fields =>
      json_object ((fix go (l : list (string * JSON)) :=
                      match l with [] => [] | (k, j) :: l' => always k (JSON_Marshal j) :: go l' end) fields)
  end.

Definition ConversationItem_Marshal (i : ConversationItem) : string :=
  json_object [omitempty "type" (ci_Type i); omitempty "role" (ci_Role i);
               match ci_Content i with JNull => None | j => always "content" (JSON_Marshal j) end].

Fixpoint messages_text (messages : list Message) : string :=
  match messages with
  | [] => ""
  | msg :: messages' =>
      let text := Content_PlainText (ms_Content msg) in
      (if bool_decide (text = ""%string) then "" else text +:+ " ") +:+ messages_text messages'
  end.

Definition PromptText (b : InferenceRequestBody) : string :=
  match bd_Completions b, bd_ChatCompletions b, bd_Responses b, bd_Conversations b, bd_Embeddings b with
  | Some c, _, _, _, _ => Prompt_PlainText (cr_Prompt c)
  | None, Some c, _, _, _ => messages_text (cc_Messages c)
  | None, None, Some r, _, _ => match rr_Input r with JString s => s | j => JSON_Marshal j end
  | None, None, None, Some c, _ => json_array (ConversationItem_Marshal <$> cv_Items c)
  | None, None, None, None, Some e => Prompt_PlainText (er_Input e)
  | None, None, None, None, None => ""
  end.
End values.

(** ** Lengths *)

Lemma length_cat (s t : string) : String.length (s +:+ t) = String.length s + String.length t.
Proof. induction s as [|c s IH]; simpl; [done|]. by rewrite IH. Qed.

Lemma escape_length s : String.length s ≤ String.length (escape s).
Proof.
  induction s as [|c s IH]; simpl; [done|]. rewrite length_cat.
  enough (1 ≤ String.length (escape_char c)) by lia.
  unfold escape_char. repeat case_bool_decide; simpl; lia.
Qed.

Lemma MarshalString_length s : String.length s + 2 ≤ String.length (MarshalString s).
Proof.
  unfold MarshalString, dquote, char. rewrite !length_cat. pose proof (escape_length s). simpl. lia.
Qed.

Lemma strings_Join_length sep l x : x ∈ l → String.length x ≤ String.length (strings_Join l sep).
Proof.
  induction l as [|y l IH]; [set_solver|]. intros [->|Hx]%elem_of_cons; destruct l as [|z l]; simpl; [done| |set_solver|].
  - rewrite length_cat. lia.
  - specialize (IH Hx). rewrite !length_cat. simpl in IH. lia.
Qed.

Lemma json_object_length name value fields :
  Some (name, value) ∈ fields → String.length value ≤ String.length (json_object fields).
Proof.
  intros Hin. unfold json_object. rewrite !length_cat.
  enough (String.length value ≤ String.length (strings_Join
    ((λ f : string * string, MarshalString f.1 +:+ ":" +:+ f.2) <$> omap (λ f, f) fields) ",")) by lia.
  etrans; [|apply (strings_Join_length _ _ (MarshalString name +:+ ":" +:+ value))].
  - rewrite !length_cat. lia.
  - apply list_elem_of_fmap. exists (name, value). split; [done|]. apply list_elem_of_omap. by eexists.
Qed.

(** The encoding of a conversation is at least as long as the text of any of its messages. *)
Lemma Messages_length messages m :
  m ∈ messages → String.length (ct_Raw (ms_Content m)) ≤ String.length (Messages_Marshal messages).
Proof.
  intros Hin. unfold Messages_Marshal, json_array. rewrite !length_cat.
  enough (String.length (ct_Raw (ms_Content m)) ≤ String.length (strings_Join (Message_Marshal <$> messages) ",")) by lia.
  etrans; [|apply (strings_Join_length _ _ (Message_Marshal m)), list_elem_of_fmap; by exists m].
  etrans; [|apply (json_object_length "content" (Content_MarshalJSON (ms_Content m))); set_solver].
  unfold Content_MarshalJSON. case_bool_decide as Hraw.
  - pose proof (MarshalString_length (ct_Raw (ms_Content m))). lia.
  - rewrite Hraw. simpl. lia.
Qed.
