(* ===== verification/Pickers.v ===== *)
(** * Pickers: [plugins/scheduling/picker]

    The last phase of a profile: the max-score, the random and the weighted-random
    picker. Random draws are an argument, so that a theorem about a pick holds for
    every draw: [dr_index i] is the number drawn for position [i] of a shuffle,
    [dr_unit i] the number in [0, 1) drawn for the endpoint at position [i]. *)

From stdpp Require Import prelude gmap strings list sorting.
From Stdlib Require Import Lia Floats.SpecFloat.
From S2P Require Import Prelude Float64 ArrayHeap SchedTypes.

Record ScoredEndpoint := mkScored { se_Endpoint : Endpoint; se_Score : float64 }.

Record Draws := mkDraws { dr_index : nat → nat; dr_unit : nat → float64 }.

(** ** Shuffling and sorting *)

Section reorder.
Context {A : Type}.

(** [rand.Shuffle]: [for i := n - 1; i > 0; i--], with [j] drawn from [0..i]. *)
Fixpoint shuffle_loop (index : nat → nat) (i : nat) (l : list A) : list A :=
  match i with
  | 0 => l
  | S i' => shuffle_loop index i' (swapl i (index i `mod` (i + 1)) l)
  end.

Definition shuffle (index : nat → nat) (l : list A) : list A := shuffle_loop index (length l - 1) l.

(** A stable sort: [before x y] if [x] must precede [y]. *)
Fixpoint insert_by (before : A → A → bool) (x : A) (l : list A) : list A :=
  match l with
  | [] => [x]
  | y :: l' => if before y x then y :: insert_by before x l' else x :: l
  end.

Fixpoint sort_stable (before : A → A → bool) (l : list A) : list A :=
  match l with
  | [] => []
  | x :: l' => insert_by before x (sort_stable before l')
  end.

End reorder.

(** ** The pickers *)

Definition DefaultMaxNumOfEndpoints : Z := 1.

(** [NewMaxScorePicker], [NewRandomPicker], [NewWeightedRandomPicker]: the limit. *)
Definition picker_limit (maxNumOfEndpoints : Z) : Z :=
  if bool_decide (maxNumOfEndpoints ≤ 0)%Z then DefaultMaxNumOfEndpoints else maxNumOfEndpoints.

Definition ShuffleScoredEndpoints (d : Draws) (l : list ScoredEndpoint) : list ScoredEndpoint :=
  shuffle (dr_index d) l.

Definition keep_limit {A} (maxNumOfEndpoints : Z) (l : list A) : list A :=
  if bool_decide (maxNumOfEndpoints < Z.of_nat (length l))%Z then take (Z.to_nat maxNumOfEndpoints) l else l.

Module maxscore.

Definition higher (i j : ScoredEndpoint) : bool := flt (se_Score j) (se_Score i).

Definition Pick (maxNumOfEndpoints : Z) (d : Draws) (scoredEndpoints : list ScoredEndpoint) : list Endpoint :=
  let shuffled := ShuffleScoredEndpoints d scoredEndpoints in
  let sorted := sort_stable higher shuffled in
  se_Endpoint <$> keep_limit maxNumOfEndpoints sorted.

End maxscore.

Module random.

Definition Pick (maxNumOfEndpoints : Z) (d : Draws) (scoredEndpoints : list ScoredEndpoint) : list Endpoint :=
  se_Endpoint <$> keep_limit maxNumOfEndpoints (ShuffleScoredEndpoints d scoredEndpoints).

End random.

Module weightedrandom.
Section Pick.
(** [math.Pow]. *)
Variable Pow : float64 → float64 → float64.

Definition tiny : float64 := fdiv fone (of_int 10000000000).

Definition key (d : Draws) (i : nat) (scoredEndpoint : ScoredEndpoint) : float64 :=
  if fle (se_Score scoredEndpoint) fzero then fzero
  else
    let u := dr_unit d i in
    let u := if feq u fzero then tiny else u in
    Pow u (fdiv fone (se_Score scoredEndpoint)).

Definition weighted (d : Draws) (l : list ScoredEndpoint) : list (ScoredEndpoint * float64) :=
  imap (λ i e, (e, key d i e)) l.

Definition larger (a b : ScoredEndpoint * float64) : bool := flt b.2 a.2.

(** [sort.Slice] is not stable: [ties] gives the order among equal keys. *)
Definition Pick (maxNumOfEndpoints : Z) (ties : nat → nat) (d : Draws) (scoredEndpoints : list ScoredEndpoint)
    : list Endpoint :=
  if existsb (λ e, flt fzero (se_Score e)) scoredEndpoints then
    let weightedEndpoints := sort_stable larger (shuffle ties (weighted d scoredEndpoints)) in
    let selectedCount := Z.min maxNumOfEndpoints (Z.of_nat (length weightedEndpoints)) in
    (λ p, se_Endpoint p.1) <$> take (Z.to_nat selectedCount) weightedEndpoints
  else random.Pick maxNumOfEndpoints d scoredEndpoints.

End Pick.
End weightedrandom.

(** ** Reordering keeps the elements *)

Section reorder_facts.
Context {A : Type}.

Lemma shuffle_perm index (l : list A) : shuffle index l ≡ₚ l.
Proof.
  unfold shuffle. generalize (length l - 1) as i. intros i. revert l.
  induction i as [|i IH]; intros l; [done|]. cbn [shuffle_loop]. by rewrite IH, swapl_Permutation.
Qed.

Lemma insert_by_perm before (x : A) l : insert_by before x l ≡ₚ x :: l.
Proof.
  induction l as [|y l IH]; simpl; [done|]. destruct (before y x); [|done]. rewrite IH. by constructor.
Qed.

Lemma sort_stable_perm before (l : list A) : sort_stable before l ≡ₚ l.
Proof. induction l as [|x l IH]; simpl; [done|]. by rewrite insert_by_perm, IH. Qed.

(** The sorted list, for a comparison that is total and transitive on the elements. *)
Lemma sort_stable_sorted (P : A → Prop) (le : A → A → Prop) before l :
  (∀ x y, P x → P y → before y x = false → le x y) →
  (∀ x y, P x → P y → before x y = true → le x y) →
  (∀ x y z, le x y → le y z → le x z) →
  Forall P l → StronglySorted le (sort_stable before l).
Proof.
  intros H1 H2 Htr. induction 1 as [|x l Hx Hl IH]; simpl; [constructor|].
  assert (Forall P (sort_stable before l)) as Hs by by rewrite sort_stable_perm.
  revert IH Hs. generalize (sort_stable before l) as s. clear l Hl.
  induction s as [|y s IHs]; intros Hsort HP; simpl; [by repeat constructor|].
  apply Forall_cons in HP as [Hy HP]. apply StronglySorted_inv in Hsort as [Hsort Hall].
  destruct (before y x) eqn:Hb.
  - constructor; [by apply IHs|]. rewrite insert_by_perm. constructor; [by apply H2|done].
  - assert (le x y) as Hxy by by apply H1. constructor; [by constructor|]. constructor; [done|].
    eapply Forall_impl; [exact Hall|]. intros z Hz. by eapply Htr.
Qed.
End reorder_facts.

(** ** What the pickers select *)

(** [picked] is a selection of at most [n] of the candidates [l], and of all of them if
    there are no more than [n]. *)
Definition selection {A} (n : Z) (picked l : list A) : Prop :=
  ∃ rest, picked ++ rest ≡ₚ l ∧ Z.of_nat (length picked) = Z.min n (Z.of_nat (length l)).

Lemma keep_limit_selection {A} n (l : list A) :
  (0 < n)%Z → keep_limit n l ++ drop (Z.to_nat n) l = l ∧
  Z.of_nat (length (keep_limit n l)) = Z.min n (Z.of_nat (length l)).
Proof.
  intros Hn. unfold keep_limit. case_bool_decide as H.
  - rewrite take_drop, length_take. split; [done|lia].
  - rewrite drop_ge, app_nil_r by lia. split; [done|lia].
Qed.

Lemma selection_perm {A} n (picked l l' : list A) : l ≡ₚ l' → selection n picked l → selection n picked l'.
Proof. intros Hp (rest & H1 & H2). exists rest. split; [by rewrite H1|]. by rewrite <- Hp. Qed.

Lemma selection_fmap {A B} (f : A → B) n picked l : selection n picked l → selection n (f <$> picked) (f <$> l).
Proof.
  intros (rest & H1 & H2). exists (f <$> rest). split; [by rewrite <- fmap_app, H1|]. by rewrite !length_fmap.
Qed.

Lemma selection_elem {A} n (picked l : list A) x : selection n picked l → x ∈ picked → x ∈ l.
Proof. intros (rest & Hp & _) Hx. rewrite <- Hp, elem_of_app. by left. Qed.

Lemma selection_NoDup {A} n (picked l : list A) : selection n picked l → NoDup l → NoDup picked.
Proof. intros (rest & Hp & _) Hnd. rewrite <- Hp in Hnd. by apply NoDup_app in Hnd as (H & _ & _). Qed.

Lemma selection_nonempty {A} n (picked l : list A) : (0 < n)%Z → selection n picked l → l ≠ [] → picked ≠ [].
Proof. intros Hn (rest & _ & H) Hl ->. destruct l; [done|]. simpl in H. lia. Qed.

Lemma picker_limit_pos n : (0 < picker_limit n)%Z.
Proof. unfold picker_limit, DefaultMaxNumOfEndpoints. case_bool_decide; lia. Qed.

Definition no_nan (l : list ScoredEndpoint) : Prop := Forall (λ e, is_nan (se_Score e) = false) l.

Lemma higher_sorted l :
  no_nan l → StronglySorted (λ x y, fle (se_Score y) (se_Score x) = true) (sort_stable maxscore.higher l).
Proof.
  intros Hl. apply (sort_stable_sorted (λ e, is_nan (se_Score e) = false)); [| | |exact Hl].
  - intros x y Hx Hy Hb. by apply not_flt_fle.
  - intros x y _ _ Hb. by apply flt_fle.
  - intros x y z H1 H2. by eapply fle_trans.
Qed.

Lemma maxscore_selection n d l : (0 < n)%Z → selection n (maxscore.Pick n d l) (se_Endpoint <$> l).
Proof.
  intros Hn. unfold maxscore.Pick. apply selection_fmap.
  destruct (keep_limit_selection n (sort_stable maxscore.higher (ShuffleScoredEndpoints d l)) Hn) as [H1 H2].
  eapply selection_perm; [|eexists; split; [by rewrite H1|exact H2]].
  unfold ShuffleScoredEndpoints. by rewrite sort_stable_perm, shuffle_perm.
Qed.

Lemma random_selection n d l : (0 < n)%Z → selection n (random.Pick n d l) (se_Endpoint <$> l).
Proof.
  intros Hn. unfold random.Pick. apply selection_fmap.
  destruct (keep_limit_selection n (ShuffleScoredEndpoints d l) Hn) as [H1 H2].
  eapply selection_perm; [|eexists; split; [by rewrite H1|exact H2]].
  unfold ShuffleScoredEndpoints. by rewrite shuffle_perm.
Qed.

Lemma weighted_fst Pow d l : (weightedrandom.weighted Pow d l).*1 = l.
Proof.
  unfold weightedrandom.weighted. apply list_eq. intros i.
  rewrite list_lookup_fmap, list_lookup_imap. by destruct (l !! i).
Qed.

Lemma weightedrandom_selection Pow n ties d l :
  (0 < n)%Z → selection n (weightedrandom.Pick Pow n ties d l) (se_Endpoint <$> l).
Proof.
  intros Hn. unfold weightedrandom.Pick. destruct (existsb _ l); [|by apply random_selection].
  set (w := sort_stable _ _).
  assert (w ≡ₚ weightedrandom.weighted Pow d l) as Hw by (unfold w; by rewrite sort_stable_perm, shuffle_perm).
  rewrite <- (weighted_fst Pow d l), <- list_fmap_compose.
  apply (selection_fmap (se_Endpoint ∘ fst)). eapply selection_perm; [exact Hw|].
  exists (drop (Z.to_nat (Z.min n (Z.of_nat (length w)))) w). split; [by rewrite take_drop|].
  rewrite length_take. lia.
Qed.

(** The max-score picker returns the best candidates: for every shuffle, as many as the
    limit and the candidates allow, in descending order of score, and none that was left
    out has a higher score than one that was picked. *)
Lemma maxscore_best (n : Z) (d : Draws) (scored : list ScoredEndpoint) :
  (0 < n)%Z → no_nan scored →
  ∃ picked rest,
    maxscore.Pick n d scored = se_Endpoint <$> picked ∧
    picked ++ rest ≡ₚ scored ∧
    Z.of_nat (length picked) = Z.min n (Z.of_nat (length scored)) ∧
    StronglySorted (λ x y, fle (se_Score y) (se_Score x) = true) picked ∧
    ∀ x y, x ∈ picked → y ∈ rest → fle (se_Score y) (se_Score x) = true.
Proof.
  intros Hn Hnan.
  set (s := sort_stable maxscore.higher (ShuffleScoredEndpoints d scored)).
  assert (s ≡ₚ scored) as Hp.
  { unfold s, ShuffleScoredEndpoints. by rewrite sort_stable_perm, shuffle_perm. }
  destruct (keep_limit_selection n s Hn) as [H1 H2].
  assert (StronglySorted (λ x y, fle (se_Score y) (se_Score x) = true) s) as Hs.
  { apply higher_sorted. unfold no_nan, ShuffleScoredEndpoints. by rewrite shuffle_perm. }
  exists (keep_limit n s), (drop (Z.to_nat n) s). split_and!;
    [done|by rewrite H1|by rewrite H2, Hp| |].
  - rewrite <- H1 in Hs. by apply StronglySorted_app in Hs as (_ & Hs & _).
  - rewrite <- H1 in Hs. intros x y Hx Hy. exact (StronglySorted_app_1_elem_of _ _ _ x y Hs Hx Hy).
Qed.

Definition sample_meta (name : string) : EndpointMetadata :=
  mkMetadata (mkNamespacedName "default" name) name "10.0.0.1" "8000" "10.0.0.1:8000" ∅.
Definition sample_endpoint (ptr : positive) (name : string) : Endpoint :=
  mkEndpoint ptr (sample_meta name) NewMetrics ∅.
Definition sample_draws : Draws := mkDraws (λ _, 0) (λ _, fone).
