(* ===== verification/SchedulerProfile.v ===== *)
(** * Scheduler profiles: [scheduling/scheduler_profile.go], [weighted_scorer.go]

    A profile runs its filters, sums the weighted scores of its scorers and lets its
    picker choose. Plugins are values of record types, one per interface of
    [interface/scheduling/plugins.go]; they may read and write the cycle state and may
    panic. A map of scores is keyed by the endpoint's pointer; [rd_order] is the order in
    which the runtime enumerates the map of weighted scores. *)

From stdpp Require Import prelude gmap strings list sorting.
From Stdlib Require Import Lia Floats.SpecFloat.
From S2P Require Import Prelude FlowTypes Float64 FloatRound FloatOps ArrayHeap SchedTypes Pickers.

#[local] Open Scope go_scope.

(** [CycleState]: what plugins store under their keys. *)
Inductive StateData := SDTokenizedPrompt (tokenIDs : list Z) | SDOther (type : string).
Abbreviation CycleState := (gmap string StateData).
Abbreviation CM := (GoM CycleState).

Definition NewCycleState : CycleState := ∅.

Abbreviation Scores := (gmap positive (Endpoint * float64)).

Record Filter := mkFilter {
  fl_Filter : Draws → InferenceRequest → list Endpoint → CM (list Endpoint)
}.
Record Scorer := mkScorer {
  sc_Score : InferenceRequest → list Endpoint → CM Scores
}.
Record Picker := mkPicker {
  pk_Pick : Draws → list ScoredEndpoint → CM (list Endpoint)
}.

Record WeightedScorer := mkWeightedScorer { ws_Scorer : Scorer; ws_Weight : float64 }.

Record SchedulerProfile := mkProfile {
  pf_filters : list Filter;
  pf_scorers : list WeightedScorer;
  pf_picker : option Picker
}.

Definition NewSchedulerProfile : SchedulerProfile := mkProfile [] [] None.
Definition WithFilters (filters : list Filter) (p : SchedulerProfile) : SchedulerProfile :=
  mkProfile filters (pf_scorers p) (pf_picker p).
Definition WithScorers (scorers : list WeightedScorer) (p : SchedulerProfile) : SchedulerProfile :=
  mkProfile (pf_filters p) scorers (pf_picker p).
Definition WithPicker (picker : Picker) (p : SchedulerProfile) : SchedulerProfile :=
  mkProfile (pf_filters p) (pf_scorers p) (Some picker).

(** ** Registering plugins *)

(** A plugin and the scheduling interfaces that it implements. *)
Record SchedPlugin := mkSchedPlugin {
  spl_filter : option Filter;
  spl_scorer : option Scorer;
  spl_picker : option Picker
}.

(** What [AddPlugins] is given: a scorer with its weight, or a plain plugin. *)
Inductive PluginObject :=
  | PWeighted (scorer : Scorer) (plugin : SchedPlugin) (weight : float64)
  | PPlain (plugin : SchedPlugin).

(** The interfaces after the scorer: filter, then picker. *)
Definition add_unweighted (plugin : SchedPlugin) (p : SchedulerProfile) : SchedulerProfile + GoError :=
  let p := match spl_filter plugin with
           | Some f => WithFilters (pf_filters p ++ [f]) p
           | None => p
           end in
  match spl_picker plugin with
  | Some picker =>
      match pf_picker p with
      | Some _ => inr (ENew "already have a registered picker plugin")
      | None => inl (WithPicker picker p)
      end
  | None => inl p
  end.

Fixpoint AddPlugins (pluginObjects : list PluginObject) (p : SchedulerProfile) : SchedulerProfile + GoError :=
  match pluginObjects with
  | [] => inl p
  | plugin :: pluginObjects' =>
      p' ←? match plugin with
            | PWeighted scorer inner weight =>
                add_unweighted inner (WithScorers (pf_scorers p ++ [mkWeightedScorer scorer weight]) p)
            | PPlain plain =>
                match spl_scorer plain with
                | Some _ => inr (ENew "failed to register scorer without a weight")
                | None => add_unweighted plain p
                end
            end;
      AddPlugins pluginObjects' p'
  end.

(** ** Running a profile *)

(** The random draws of one run: per filter, the enumeration of the score map, and the
    picker's. *)
Record RunDraws := mkRunDraws { rd_filter : nat → Draws; rd_order : nat → nat; rd_pick : Draws }.

Fixpoint filter_loop (filters : list Filter) (k : nat) (rd : RunDraws) (request : InferenceRequest)
    (filteredEndpoints : list Endpoint) : CM (list Endpoint) :=
  match filters with
  | [] => mret filteredEndpoints
  | filter :: filters' =>
      filteredEndpoints ← fl_Filter filter (rd_filter rd k) request filteredEndpoints;
      if bool_decide (length filteredEndpoints = 0) then mret filteredEndpoints
      else filter_loop filters' (S k) rd request filteredEndpoints
  end.

Definition runFilterPlugins (p : SchedulerProfile) (rd : RunDraws) (request : InferenceRequest)
    (endpoints : list Endpoint) : CM (list Endpoint) :=
  filter_loop (pf_filters p) 0 rd request endpoints.

Definition enforceScoreRange (score : float64) : float64 :=
  if flt score fzero then fzero
  else if flt fone score then fone
  else score.

Fixpoint zero_scores (endpoints : list Endpoint) (m : Scores) : Scores :=
  match endpoints with
  | [] => m
  | endpoint :: endpoints' => zero_scores endpoints' (<[ep_ptr endpoint := (endpoint, fzero)]> m)
  end.

(** [weightedScorePerEndpoint[endpoint] += enforceScoreRange(score) * weight]; an absent
    key counts as zero. *)
Definition add_weighted (weight : float64) (ptr : positive) (scored : Endpoint * float64) (m : Scores) : Scores :=
  <[ptr := (scored.1, fadd (from_option snd fzero (m !! ptr)) (fmul (enforceScoreRange scored.2) weight))]> m.

Fixpoint score_loop (scorers : list WeightedScorer) (request : InferenceRequest) (endpoints : list Endpoint)
    (m : Scores) : CM Scores :=
  match scorers with
  | [] => mret m
  | scorer :: scorers' =>
      scores ← sc_Score (ws_Scorer scorer) request endpoints;
      score_loop scorers' request endpoints (map_fold (add_weighted (ws_Weight scorer)) m scores)
  end.

Definition runScorerPlugins (p : SchedulerProfile) (request : InferenceRequest) (endpoints : list Endpoint)
    : CM Scores :=
  score_loop (pf_scorers p) request endpoints (zero_scores endpoints ∅).

(** The entries of the score map, in the order of the enumeration. *)
Definition scored_list (order : nat → nat) (m : Scores) : list ScoredEndpoint :=
  shuffle order ((λ kv : positive * (Endpoint * float64), mkScored kv.2.1 kv.2.2) <$> map_to_list m).

(** A nil picker is dereferenced. *)
Definition runPickerPlugin (p : SchedulerProfile) (rd : RunDraws) (m : Scores) : CM (list Endpoint) :=
  match pf_picker p with
  | None => panic
  | Some picker => pk_Pick picker (rd_pick rd) (scored_list (rd_order rd) m)
  end.

Definition errNoEndpoints : GoError := ENew "no endpoints available for the given request".

(** The result is the list of target endpoints. *)
Definition Run (p : SchedulerProfile) (rd : RunDraws) (request : InferenceRequest)
    (candidateEndpoints : list Endpoint) : CM (list Endpoint + GoError) :=
  endpoints ← runFilterPlugins p rd request candidateEndpoints;
  if bool_decide (length endpoints = 0) then mret (inr errNoEndpoints)
  else
    weightedScorePerEndpoint ← runScorerPlugins p request endpoints;
    result ← runPickerPlugin p rd weightedScorePerEndpoint;
    mret (inl result).

(** ** What the profile relies on *)

(** What the data layer promises about an endpoint: sizes that are [int] and not negative,
    a usage between zero and one, and attributes of the type their key stands for, with
    numbers in range. *)
Definition finite (x : float64) : Prop := valid x ∧ match x with S754_zero _ | S754_finite _ _ _ => True | _ => False end.

Record endpoint_ok (ep : Endpoint) : Prop := mkEndpointOk {
  ok_waiting : (0 ≤ mt_WaitingQueueSize (ep_Metrics ep) < Int.two63)%Z;
  ok_running : (0 ≤ mt_RunningRequestsSize (ep_Metrics ep) < Int.two63)%Z;
  ok_usage : unit_range (mt_KVCacheUsagePercent (ep_Metrics ep));
  ok_latency : ∀ v, ep_Get LatencyPredictionInfoKey ep = Some v → ∃ i, v = ALatency i ∧
    finite (lp_TTFTHeadroom i) ∧ finite (lp_TPOTHeadroom i) ∧ finite (lp_TTFT i) ∧ finite (lp_TPOT i);
  ok_prefix : ∀ v, ep_Get PrefixCacheMatchInfoKey ep = Some v → ∃ i, v = APrefix i ∧
    (0 ≤ pm_MatchBlocks i ≤ pm_TotalBlocks i)%Z ∧ (pm_TotalBlocks i < Int.two63)%Z;
  ok_inflight : ∀ v, ep_Get InFlightLoadKey ep = Some v → ∃ l, v = AInFlight l ∧
    (- Int.two63 ≤ il_Tokens l < Int.two63)%Z ∧ (- Int.two63 ≤ il_Requests l < Int.two63)%Z
}.

(** A filter keeps some of the endpoints it is given. *)
Class LawfulFilter (f : Filter) : Prop :=
  filter_subset : ∀ d r eps cs, Forall endpoint_ok eps → wp (fl_Filter f d r eps) (λ out _, out ⊆+ eps) cs.

(** Scores of the given endpoints only, and never NaN. *)
Definition scores_ok (eps : list Endpoint) (m : Scores) : Prop :=
  ∀ ptr ep v, m !! ptr = Some (ep, v) → ep ∈ eps ∧ ep_ptr ep = ptr ∧ valid v ∧ is_nan v = false.

Class LawfulScorer (s : Scorer) : Prop :=
  scorer_scores : ∀ r eps cs, Forall endpoint_ok eps → wp (sc_Score s r eps) (λ m _, scores_ok eps m) cs.

(** A picker selects [n] of the candidates, or all if there are fewer. *)
Class LawfulPicker (n : Z) (p : Picker) : Prop := {
  picker_positive : (0 < n)%Z;
  picker_selects : ∀ d l cs, wp (pk_Pick p d l) (λ out _, selection n out (se_Endpoint <$> l)) cs
}.

Definition MaxScorePicker (maxNumOfEndpoints : Z) : Picker :=
  mkPicker (λ d l, mret (maxscore.Pick (picker_limit maxNumOfEndpoints) d l)).
Definition RandomPicker (maxNumOfEndpoints : Z) : Picker :=
  mkPicker (λ d l, mret (random.Pick (picker_limit maxNumOfEndpoints) d l)).
Definition WeightedRandomPicker (Pow : float64 → float64 → float64) (maxNumOfEndpoints : Z) (ties : nat → nat)
    : Picker :=
  mkPicker (λ d l, mret (weightedrandom.Pick Pow (picker_limit maxNumOfEndpoints) ties d l)).

#[export] Instance MaxScorePicker_lawful n : LawfulPicker (picker_limit n) (MaxScorePicker n).
Proof.
  split; [apply picker_limit_pos|]. intros d l cs. apply wp_ret, maxscore_selection, picker_limit_pos.
Qed.

#[export] Instance RandomPicker_lawful n : LawfulPicker (picker_limit n) (RandomPicker n).
Proof.
  split; [apply picker_limit_pos|]. intros d l cs. apply wp_ret, random_selection, picker_limit_pos.
Qed.

#[export] Instance WeightedRandomPicker_lawful Pow n ties :
  LawfulPicker (picker_limit n) (WeightedRandomPicker Pow n ties).
Proof.
  split; [apply picker_limit_pos|]. intros d l cs. apply wp_ret, weightedrandom_selection, picker_limit_pos.
Qed.

(** ** Filters *)

Lemma submseteq_Forall {A} (P : A → Prop) l l' : Forall P l → l' ⊆+ l → Forall P l'.
Proof. rewrite !Forall_forall. intros HP Hs x Hx. by apply HP, (elem_of_submseteq _ _ _ Hx Hs). Qed.

Lemma filter_loop_spec filters k rd r : ∀ eps cs,
  Forall LawfulFilter filters → Forall endpoint_ok eps →
  wp (filter_loop filters k rd r eps) (λ out _, out ⊆+ eps) cs.
Proof.
  revert k. induction filters as [|f filters IH]; intros k eps cs Hf Hok; simpl; [by apply wp_ret|].
  apply Forall_cons in Hf as [Hf Hfs]. apply wp_bind. eapply wp_mono; [by apply Hf|].
  intros eps' cs' Hsub. simpl. case_bool_decide; [by apply wp_ret|].
  eapply wp_mono; [by apply IH; [|eapply submseteq_Forall]|]. intros out cs2 Hout. by trans eps'.
Qed.

(** ** Scores *)

(** What the scorers return, in order. *)
Fixpoint scorer_outputs (scorers : list WeightedScorer) (request : InferenceRequest) (endpoints : list Endpoint)
    : CM (list Scores) :=
  match scorers with
  | [] => mret []
  | scorer :: scorers' =>
      scores ← sc_Score (ws_Scorer scorer) request endpoints;
      rest ← scorer_outputs scorers' request endpoints;
      mret (scores :: rest)
  end.

(** The total of an endpoint, by scorer. *)
Fixpoint weighted_total (weights : list float64) (outs : list Scores) (ptr : positive) (acc : float64) : float64 :=
  match weights, outs with
  | w :: weights', scores :: outs' =>
      weighted_total weights' outs' ptr
        (match scores !! ptr with
         | Some (_, v) => fadd acc (fmul (enforceScoreRange v) w)
         | None => acc
         end)
  | _, _ => acc
  end.

Definition total_score (p : SchedulerProfile) (outs : list Scores) (ep : Endpoint) : float64 :=
  weighted_total (ws_Weight <$> pf_scorers p) outs (ep_ptr ep) fzero.

Lemma fold_weighted w m scores k :
  map_fold (add_weighted w) m scores !! k =
  match scores !! k with
  | Some (ep, v) => Some (ep, fadd (from_option snd fzero (m !! k)) (fmul (enforceScoreRange v) w))
  | None => m !! k
  end.
Proof.
  induction scores as [|i [ep v] scores Hi Hfold IH] using map_first_key_ind.
  - by rewrite map_fold_empty, lookup_empty.
  - rewrite map_fold_insert_first_key by done. unfold add_weighted at 1.
    destruct (decide (i = k)) as [->|Hne].
    + rewrite lookup_insert_eq, IH, Hi, lookup_insert_eq. done.
    + by rewrite lookup_insert_ne, IH, lookup_insert_ne by done.
Qed.

(** Every endpoint has an entry, and no one else. *)
Definition keyed (eps : list Endpoint) (m : Scores) : Prop :=
  (∀ ep, ep ∈ eps → ∃ v, m !! ep_ptr ep = Some (ep, v)) ∧
  (∀ k ep v, m !! k = Some (ep, v) → ep ∈ eps ∧ ep_ptr ep = k).

Lemma zero_scores_lookup eps : ∀ m k,
  NoDup (ep_ptrs eps) →
  zero_scores eps m !! k = match list_find (λ ep, ep_ptr ep = k) eps with
                           | Some (_, ep) => Some (ep, fzero)
                           | None => m !! k
                           end.
Proof.
  induction eps as [|ep eps IH]; intros m k Hnd; simpl; [done|].
  apply NoDup_cons in Hnd as [Hni Hnd]. rewrite IH by done.
  destruct (decide (ep_ptr ep = k)) as [<-|Hne].
  - assert (list_find (λ ep', ep_ptr ep' = ep_ptr ep) eps = None) as ->; [|by rewrite lookup_insert_eq].
    rewrite list_find_None, Forall_forall. intros x Hx Heq. apply Hni. rewrite <- Heq.
    by apply list_elem_of_fmap_2.
  - rewrite lookup_insert_ne by done. by destruct (list_find _ eps) as [[]|].
Qed.

Lemma zero_scores_keyed eps : NoDup (ep_ptrs eps) → keyed eps (zero_scores eps ∅).
Proof.
  intros Hnd. split.
  - intros ep Hep. exists fzero. rewrite zero_scores_lookup by done.
    destruct (list_find _ eps) as [[i ep']|] eqn:Hf.
    + apply list_find_Some in Hf as (Hi & Heq & _). f_equal. f_equal.
      apply list_elem_of_lookup in Hep as [j Hj].
      assert (ep_ptrs eps !! i = Some (ep_ptr ep)) as H1 by (unfold ep_ptrs; by rewrite list_lookup_fmap, Hi, <- Heq).
      assert (ep_ptrs eps !! j = Some (ep_ptr ep)) as H2 by (unfold ep_ptrs; by rewrite list_lookup_fmap, Hj).
      pose proof (NoDup_lookup _ _ _ _ Hnd H1 H2). subst. congruence.
    + rewrite list_find_None, Forall_forall in Hf. by destruct (Hf ep Hep).
  - intros k ep v. rewrite zero_scores_lookup by done.
    destruct (list_find _ eps) as [[i ep']|] eqn:Hf; [|by rewrite lookup_empty].
    intros [= <- <-]. apply list_find_Some in Hf as (Hi & Heq & _). split; [|done].
    by eapply list_elem_of_lookup_2.
Qed.

(** Accumulating the totals of the scorers that remain. *)
Definition accumulated (weights : list float64) (outs : list Scores) (m m' : Scores) : Prop :=
  ∀ k, m' !! k = (λ p : Endpoint * float64, (p.1, weighted_total weights outs k p.2)) <$> m !! k.

Lemma fold_weighted_step eps w m scores k :
  keyed eps m → scores_ok eps scores →
  map_fold (add_weighted w) m scores !! k =
  (λ p : Endpoint * float64,
     (p.1, match scores !! k with
           | Some (_, v) => fadd p.2 (fmul (enforceScoreRange v) w)
           | None => p.2
           end)) <$> m !! k.
Proof.
  intros [Hk1 Hk2] Hs. rewrite fold_weighted. destruct (scores !! k) as [[ep v]|] eqn:E.
  - destruct (Hs _ _ _ E) as (Hep & <- & _). destruct (Hk1 _ Hep) as [acc Hacc]. by rewrite Hacc.
  - by destruct (m !! k) as [[]|].
Qed.

Lemma keyed_step eps m (f : positive → Endpoint * float64 → float64) m' :
  keyed eps m → (∀ k, m' !! k = (λ p, (p.1, f k p)) <$> m !! k) → keyed eps m'.
Proof.
  intros [Hk1 Hk2] Hm'. split.
  - intros ep Hep. destruct (Hk1 ep Hep) as [v Hv]. rewrite Hm', Hv. simpl. eauto.
  - intros k ep v. rewrite Hm'. destruct (m !! k) as [[ep' v']|] eqn:E; [|done]. intros [= <- _]. by eapply Hk2.
Qed.

Lemma score_loop_spec scorers r eps : ∀ m cs,
  Forall (LawfulScorer ∘ ws_Scorer) scorers → Forall endpoint_ok eps → keyed eps m →
  wp (score_loop scorers r eps m) (λ m' cs', ∃ outs,
    scorer_outputs scorers r eps cs = Some (outs, cs') ∧ Forall (scores_ok eps) outs ∧
    length outs = length scorers ∧ accumulated (ws_Weight <$> scorers) outs m m') cs.
Proof.
  induction scorers as [|s scorers IH]; intros m cs Hs Heps Hk.
  - apply wp_ret. exists []. split_and!; [done..|]. intros k. simpl. by destruct (m !! k) as [[]|].
  - apply Forall_cons in Hs as [Hs Hss]. cbn [score_loop]. apply wp_bind.
    pose proof (Hs r eps cs Heps) as Hw. apply wp_run in Hw as (scores & cs1 & Hrun & Hok).
    apply wp_run. exists scores, cs1. split; [exact Hrun|].
    pose proof (λ k, fold_weighted_step eps (ws_Weight s) m scores k Hk Hok) as Hstep.
    eapply wp_mono; [apply IH; [done..|]|].
    + eapply (keyed_step eps m (λ k p, _)); [exact Hk|exact Hstep].
    + intros m' cs' (outs & H1 & H2 & H3 & H4). exists (scores :: outs). split_and!.
      * cbn [scorer_outputs]. unfold mbind, gom_bind. by rewrite Hrun, H1.
      * by constructor.
      * simpl. by rewrite H3.
      * intros k. rewrite H4, Hstep. by destruct (m !! k) as [[]|].
Qed.

Lemma enforceScoreRange_unit v : valid v → is_nan v = false → unit_range (enforceScoreRange v).
Proof.
  intros Hv Hn. unfold enforceScoreRange. destruct (flt v fzero) eqn:H0; [apply unit_zero|].
  destruct (flt fone v) eqn:H1; [apply unit_one|]. by apply valid_unit.
Qed.

Lemma weighted_total_nonneg eps weights outs k : ∀ acc,
  Forall nonneg weights → Forall (scores_ok eps) outs → nonneg_inf acc →
  nonneg_inf (weighted_total weights outs k acc).
Proof.
  revert outs. induction weights as [|w weights IH]; intros [|scores outs] acc Hw Ho Hacc; simpl; try done.
  apply Forall_cons in Hw as [Hw Hws]. apply Forall_cons in Ho as [Ho Hos]. apply IH; [done..|].
  destruct (scores !! k) as [[ep v]|] eqn:E; [|done]. destruct (Ho _ _ _ E) as (_ & _ & Hv & Hn).
  apply fadd_nonneg_inf; [done|]. apply fmul_weight; [by apply enforceScoreRange_unit|done].
Qed.

Lemma enforceScoreRange_mono x y :
  valid x → valid y → fle x y = true → fle (enforceScoreRange x) (enforceScoreRange y) = true.
Proof.
  intros Hx Hy Hxy. destruct (fle_nan _ _ Hxy) as [Hnx Hny].
  pose proof (enforceScoreRange_unit x Hx Hnx) as Hux. pose proof (enforceScoreRange_unit y Hy Hny) as Huy.
  pose proof (unit_range_le _ Hux) as [_ Hx1]. pose proof (unit_range_le _ Huy) as [Hy0 _].
  unfold enforceScoreRange in *.
  destruct (flt x fzero) eqn:Ex; [done|]. destruct (flt fone y) eqn:Ey.
  { destruct (flt y fzero) eqn:Ey0; [|done]. exfalso.
    assert (fle x fzero = true) by (eapply fle_trans; [exact Hxy|by apply flt_fle]).
    apply flt_fle in Ey, Ey0. by pose proof (fle_trans _ _ _ Ey Ey0). }
  destruct (flt y fzero) eqn:Ey0.
  - rewrite flt_not_fle in Ex by done. apply negb_false_iff in Ex.
    destruct (flt fone x) eqn:Ex1; [|exact (fle_trans _ _ _ Hxy (flt_fle _ _ Ey0))].
    by pose proof (fle_trans _ _ _ (flt_fle _ _ Ex1) (fle_trans _ _ _ Hxy (flt_fle _ _ Ey0))).
  - destruct (flt fone x) eqn:Ex1; [|done]. by eapply fle_trans; [apply flt_fle|].
Qed.

(** [a] is scored at least as high as [b]. *)
Definition scored_above (a b : Endpoint) (scores : Scores) : Prop :=
  ∀ vb, scores !! ep_ptr b = Some (b, vb) → ∃ va, scores !! ep_ptr a = Some (a, va) ∧ fle vb va = true.

Lemma weighted_total_mono eps a b weights outs : ∀ acc_b acc_a,
  Forall nonneg weights → Forall (scores_ok eps) outs → Forall (scored_above a b) outs →
  (∀ ep, ep ∈ eps → ep_ptr ep = ep_ptr b → ep = b) →
  nonneg_inf acc_b → nonneg_inf acc_a → fle acc_b acc_a = true →
  fle (weighted_total weights outs (ep_ptr b) acc_b) (weighted_total weights outs (ep_ptr a) acc_a) = true.
Proof.
  revert outs. induction weights as [|w weights IH]; intros [|scores outs] acc_b acc_a Hw Ho Hd Hinj Hb Ha Hle; simpl; try done.
  apply Forall_cons in Hw as [Hw Hws]. apply Forall_cons in Ho as [Ho Hos]. apply Forall_cons in Hd as [Hd Hds].
  assert (∀ k ep v, scores !! k = Some (ep, v) → nonneg (fmul (enforceScoreRange v) w)) as Hterm.
  { intros k ep v Hv. destruct (Ho _ _ _ Hv) as (_ & _ & Hvv & Hvn). apply fmul_weight; [|done]. by apply enforceScoreRange_unit. }
  destruct (scores !! ep_ptr b) as [[eb vb]|] eqn:Eb.
  - destruct (Ho _ _ _ Eb) as (Heb & Hpb & Hvb & Hnb). assert (eb = b) as -> by by apply Hinj.
    destruct (Hd _ Eb) as (va & Ea & Hv). rewrite Ea. destruct (Ho _ _ _ Ea) as (_ & _ & Hva & Hna).
    apply IH; [done..|by eapply fadd_nonneg_inf, Hterm|by eapply fadd_nonneg_inf, Hterm|].
    apply fadd_mono; [done..|by eapply Hterm|by eapply Hterm|done|].
    apply fmul_mono_l; [by apply enforceScoreRange_unit..|done|by apply enforceScoreRange_mono].
  - destruct (scores !! ep_ptr a) as [[ea va]|] eqn:Ea; [|by apply IH].
    apply IH; [done..|by eapply fadd_nonneg_inf, Hterm|]. apply fadd_grows; [done..|by eapply Hterm|done].
Qed.

(** The candidates of the picker are the endpoints with their totals. *)
Lemma scored_list_perm order eps m (total : Endpoint → float64) :
  NoDup (ep_ptrs eps) → keyed eps m → (∀ ep, ep ∈ eps → m !! ep_ptr ep = Some (ep, total ep)) →
  scored_list order m ≡ₚ (λ ep, mkScored ep (total ep)) <$> eps.
Proof.
  intros Hnd [Hk1 Hk2] Ht. unfold scored_list. rewrite shuffle_perm.
  apply NoDup_Permutation.
  - apply NoDup_fmap_2_strong; [|apply NoDup_map_to_list].
    intros [k [ep v]] [k' [ep' v']] H1%elem_of_map_to_list H2%elem_of_map_to_list [= -> ->].
    destruct (Hk2 _ _ _ H1) as [_ <-], (Hk2 _ _ _ H2) as [_ <-]. done.
  - apply NoDup_fmap_2_strong; [by intros ? ? _ _ [= ]|]. by apply NoDup_fmap_1 in Hnd.
  - intros [ep v]. rewrite !list_elem_of_fmap. split.
    + intros ([k [ep' v']] & [= -> ->] & Hin%elem_of_map_to_list).
      destruct (Hk2 _ _ _ Hin) as [Hep <-]. rewrite Ht in Hin by done. injection Hin as <-. by exists ep'.
    + intros (ep' & [= -> ->] & Hep). exists (ep_ptr ep', (ep', total ep')). split; [done|].
      by apply elem_of_map_to_list, Ht.
Qed.

Lemma submseteq_NoDup_ptrs eps eps' : eps' ⊆+ eps → NoDup (ep_ptrs eps) → NoDup (ep_ptrs eps').
Proof.
  intros (k & Hk)%submseteq_Permutation Hnd. unfold ep_ptrs in *. rewrite Hk, fmap_app in Hnd.
  by apply NoDup_app in Hnd as (H & _ & _).
Qed.

(** ** A run *)

(** Everything before the picker. *)
Lemma run_spec p n picker rd r candidates cs :
  Forall LawfulFilter (pf_filters p) → Forall (LawfulScorer ∘ ws_Scorer) (pf_scorers p) →
  pf_picker p = Some picker → LawfulPicker n picker → Forall endpoint_ok candidates →
  NoDup (ep_ptrs candidates) →
  wp (Run p rd r candidates) (λ res cs', ∃ eps cs1,
    runFilterPlugins p rd r candidates cs = Some (eps, cs1) ∧ eps ⊆+ candidates ∧
    match res with
    | inr err => eps = [] ∧ err = errNoEndpoints
    | inl targets => eps ≠ [] ∧ ∃ outs scored cs2,
        scorer_outputs (pf_scorers p) r eps cs1 = Some (outs, cs2) ∧ Forall (scores_ok eps) outs ∧
        scored ≡ₚ (λ ep, mkScored ep (total_score p outs ep)) <$> eps ∧
        pk_Pick picker (rd_pick rd) scored cs2 = Some (targets, cs') ∧ selection n targets eps
    end) cs.
Proof.
  intros Hf Hs Hp Hl Hok0 Hnd. unfold Run. apply wp_bind.
  pose proof (filter_loop_spec (pf_filters p) 0 rd r candidates cs Hf Hok0) as Hfl.
  apply wp_run in Hfl as (eps & cs1 & Hrun & Hsub). apply wp_run. exists eps, cs1. split; [exact Hrun|].
  case_bool_decide as Hlen.
  - apply wp_ret. exists eps, cs1. split_and!; [done..| |done]. by apply nil_length_inv.
  - apply wp_bind. pose proof (submseteq_NoDup_ptrs _ _ Hsub Hnd) as Hnd'.
    pose proof (zero_scores_keyed eps Hnd') as Hk.
    pose proof (score_loop_spec (pf_scorers p) r eps _ cs1 Hs (submseteq_Forall _ _ _ Hok0 Hsub) Hk) as Hsc.
    apply wp_run in Hsc as (m & cs2 & Hm & outs & Ho & Hok & _ & Hacc).
    apply wp_run. exists m, cs2. split; [exact Hm|]. apply wp_bind.
    unfold runPickerPlugin. rewrite Hp. set (scored := scored_list (rd_order rd) m).
    assert (scored ≡ₚ (λ ep, mkScored ep (total_score p outs ep)) <$> eps) as Hperm.
    { apply scored_list_perm; [done|by eapply (keyed_step eps _ (λ k q, weighted_total _ outs k q.2))|].
      intros ep Hep. rewrite Hacc. destruct (proj1 Hk ep Hep) as [v Hv].
      rewrite Hv. simpl. do 2 f_equal. rewrite zero_scores_lookup in Hv by done.
      destruct (list_find _ eps) as [[]|]; [|by rewrite lookup_empty in Hv]. by injection Hv as _ <-. }
    pose proof (picker_selects (rd_pick rd) scored cs2) as Hpk.
    apply wp_run in Hpk as (targets & cs3 & Hpick & Hsel). apply wp_run. exists targets, cs3. split; [exact Hpick|].
    apply wp_ret. exists eps, cs1. split_and!; [done..| |exists outs, scored, cs2; split_and!; try done].
    + by intros ->.
    + eapply selection_perm; [|exact Hsel]. rewrite Hperm, <- list_fmap_compose.
      by erewrite list_fmap_id.
Qed.

(** C4. A profile with the max-score picker routes to the best endpoints. Whatever lawful
    filters and scorers it has, with non-negative weights, and whatever the random
    draws, a run over distinct, well-formed endpoints does not panic. It fails exactly if the filters leave no endpoint.
    Otherwise its targets are distinct endpoints that passed every filter, as many as the
    picker's limit allows and at least one, and no endpoint that was passed over has a
    higher weighted total (the scores, forced into the unit interval, times the weights,
    summed in [float64]) than a target. *)
Theorem run_picks_best (p : SchedulerProfile) (maxNumOfEndpoints : Z) (rd : RunDraws)
    (request : InferenceRequest) (candidates : list Endpoint) (cs : CycleState)
    (Hf : Forall LawfulFilter (pf_filters p))
    (Hs : Forall (LawfulScorer ∘ ws_Scorer) (pf_scorers p))
    (Hw : Forall (nonneg ∘ ws_Weight) (pf_scorers p))
    (Hp : pf_picker p = Some (MaxScorePicker maxNumOfEndpoints))
    (Hok : Forall endpoint_ok candidates) (Hnd : NoDup (ep_ptrs candidates)) :
  ∃ res cs' eps cs1,
    Run p rd request candidates cs = Some (res, cs') ∧
    runFilterPlugins p rd request candidates cs = Some (eps, cs1) ∧ eps ⊆+ candidates ∧
    match res with
    | inr err => eps = [] ∧ err = errNoEndpoints
    | inl targets => ∃ outs cs2,
        scorer_outputs (pf_scorers p) request eps cs1 = Some (outs, cs2) ∧
        targets ≠ [] ∧ NoDup (ep_ptrs targets) ∧ (∀ t, t ∈ targets → t ∈ eps) ∧
        Z.of_nat (length targets) = Z.min (picker_limit maxNumOfEndpoints) (Z.of_nat (length eps)) ∧
        ∀ t e, t ∈ targets → e ∈ eps → e ∉ targets →
          fle (total_score p outs e) (total_score p outs t) = true
    end.
Proof.
  pose proof (run_spec p _ _ rd request candidates cs Hf Hs Hp (MaxScorePicker_lawful maxNumOfEndpoints) Hok Hnd) as Hrun.
  apply wp_run in Hrun as (res & cs' & Hrun & eps & cs1 & Hfl & Hsub & Hres).
  exists res, cs', eps, cs1. split_and!; [done..|]. destruct res as [targets|err]; [|done].
  destruct Hres as (Hne & outs & scored & cs2 & Ho & Hoks & Hperm & Hpick & Hsel).
  pose proof (picker_limit_pos maxNumOfEndpoints) as Hn. exists outs, cs2. split_and!; [done| | | | |].
  - by eapply selection_nonempty.
  - eapply (selection_NoDup _ (ep_ptr <$> targets)); [by apply selection_fmap|].
    by eapply submseteq_NoDup_ptrs.
  - intros t. by eapply selection_elem.
  - by destruct Hsel as (_ & _ & Hlen).
  - assert (no_nan scored) as Hnan.
    { unfold no_nan. rewrite Hperm, Forall_fmap. apply Forall_forall. intros ep _. simpl.
      apply nonneg_inf_not_nan, (weighted_total_nonneg eps); [by rewrite Forall_fmap|done|by left]. }
    destruct (maxscore_best _ (rd_pick rd) scored Hn Hnan) as (picked & rest & H1 & H2 & _ & _ & H5).
    injection Hpick as <- _. rewrite H1. intros t e Ht He Hne'.
    apply list_elem_of_fmap in Ht as (x & -> & Hx).
    assert (mkScored e (total_score p outs e) ∈ picked ++ rest) as Hin.
    { rewrite H2, Hperm. by apply (list_elem_of_fmap_2 (λ ep, mkScored ep (total_score p outs ep))). }
    assert (x ∈ picked ++ rest) as Hx' by (rewrite elem_of_app; by left).
    rewrite H2, Hperm in Hx'. apply list_elem_of_fmap in Hx' as (t & -> & _).
    apply elem_of_app in Hin as [Hin|Hin]; [|by apply (H5 _ _ Hx Hin)].
    destruct Hne'. by apply (list_elem_of_fmap_2 se_Endpoint) in Hin.
Qed.

(** A profile whose scorer prefers the first endpoint it is given. *)
Fixpoint first_scores (v : float64) (eps : list Endpoint) (m : Scores) : Scores :=
  match eps with
  | [] => m
  | ep :: eps' => <[ep_ptr ep := (ep, v)]> (first_scores fzero eps' m)
  end.
Definition FirstScorer : Scorer := mkScorer (λ _ eps, mret (first_scores fone eps ∅)).

#[export] Instance FirstScorer_lawful : LawfulScorer FirstScorer.
Proof.
  intros r eps cs _. apply wp_ret.
  cut (∀ v, v = fone ∨ v = fzero → scores_ok eps (first_scores v eps ∅)); [intros H; apply H; by left|].
  induction eps as [|ep eps IH]; intros v Hv ptr ep' w; simpl; [by rewrite lookup_empty|].
  rewrite lookup_insert_Some. intros [[<- [= <- <-]]|[_ Hin]].
  - split_and!; [set_solver|done| |]; by destruct Hv as [-> | ->]; vm_compute.
  - destruct (IH fzero (or_intror eq_refl) _ _ _ Hin) as (? & ? & ?). split_and!; [set_solver|naive_solver..].
Qed.

Definition sample_profile : SchedulerProfile :=
  mkProfile [] [mkWeightedScorer FirstScorer (of_int 2)] (Some (MaxScorePicker 1)).
Definition sample_request : InferenceRequest := mkInferenceRequest "r1" "llama" None ∅ 0 0.
Definition sample_run_draws : RunDraws := mkRunDraws (λ _, sample_draws) (λ _, 0) sample_draws.

Lemma sample_endpoint_ok ptr name : endpoint_ok (sample_endpoint ptr name).
Proof. split; try done; try (by intros ? [=]). Qed.

Lemma run_picks_best_witness :
  ∃ targets cs',
    Run sample_profile sample_run_draws sample_request [sample_endpoint 1 "a"; sample_endpoint 2 "b"] ∅
      = Some (inl targets, cs') ∧
    ep_ptrs targets = [1%positive].
Proof.
  destruct (run_picks_best sample_profile 1 sample_run_draws sample_request
    [sample_endpoint 1 "a"; sample_endpoint 2 "b"] ∅) as (res & cs' & eps & cs1 & Hrun & Hfl & _ & Hres).
  - constructor.
  - constructor; [apply FirstScorer_lawful|constructor].
  - constructor; [by vm_compute|constructor].
  - reflexivity.
  - repeat constructor; apply sample_endpoint_ok.
  - simpl. repeat constructor; set_solver.
  - vm_compute in Hrun. injection Hrun as <- <-. eexists _, _. split; vm_compute; reflexivity.
Defined.
