(* ===== verification/Filters.v ===== *)
(** * Filters: [scheduling/filter]

    The filters of the repository: by label values, with the three role filters; by a
    label selector, whose matching is a function of the labels given by the Kubernetes
    library; by affinity to a cached prefix; and by predicted latency headroom. Each is
    an instance of [LawfulFilter]. *)

From stdpp Require Import prelude gmap strings list sorting.
From Stdlib Require Import Lia Floats.SpecFloat.
From S2P Require Import Prelude FlowTypes Float64 FloatRound FloatOps SchedTypes Pickers SchedulerProfile.

#[local] Open Scope go_scope.

(** ** Labels: [filter/bylabel] *)

Module bylabel.

Record ByLabel := mkByLabel {
  bl_labelName : string;
  bl_validValues : gset string;
  bl_allowsNoLabel : bool
}.

Definition NewByLabel (labelName : string) (allowsNoLabel : bool) (validValues : list string) : ByLabel :=
  mkByLabel labelName (list_to_set validValues) allowsNoLabel.

(** [Factory] after decoding its parameters. *)
Definition Factory (name label : string) (validValues : list string) (allowsNoLabel : bool) : ByLabel + GoError :=
  if bool_decide (name = ""%string) then inr (ENew "name cannot be empty")
  else if bool_decide (label = ""%string) then inr (ENew "'label' must be specified")
  else if bool_decide (length validValues = 0) && negb allowsNoLabel
  then inr (ENew "either 'validValues' must be non-empty or 'allowsNoLabel' must be true")
  else inl (NewByLabel label allowsNoLabel validValues).

(** The value of a missing label is the empty string. *)
Definition keeps (f : ByLabel) (endpoint : Endpoint) : bool :=
  let label := md_Labels (ep_Metadata endpoint) !! bl_labelName f in
  (bool_decide (label = None) && bl_allowsNoLabel f) || bool_decide (default ""%string label ∈ bl_validValues f).

Definition Filter (f : ByLabel) (_ : Draws) (_ : InferenceRequest) (endpoints : list Endpoint)
    : CM (list Endpoint) :=
  mret (base.filter (λ ep, keeps f ep = true) endpoints).

Definition RoleLabel : string := "llm-d.ai/role".
Definition RoleDecode : string := "decode".
Definition RolePrefill : string := "prefill".
Definition RoleEncode : string := "encode".
Definition RolePrefillDecode : string := "prefill-decode".
Definition RoleEncodePrefill : string := "encode-prefill".
Definition RoleEncodePrefillDecode : string := "encode-prefill-decode".
Definition RoleBoth : string := "both".

Definition NewDecodeRole : ByLabel :=
  NewByLabel RoleLabel true [RoleDecode; RolePrefillDecode; RoleBoth; RoleEncodePrefillDecode].
Definition NewPrefillRole : ByLabel :=
  NewByLabel RoleLabel false [RolePrefill; RoleEncodePrefill; RolePrefillDecode; RoleBoth; RoleEncodePrefillDecode].
Definition NewEncodeRole : ByLabel :=
  NewByLabel RoleLabel false [RoleEncode; RoleEncodePrefill; RoleEncodePrefillDecode].

End bylabel.

(** [Matches] of a compiled label selector. *)
Module selector.

Definition Filter (Matches : gmap string string → bool) (_ : Draws) (_ : InferenceRequest) (endpoints : list Endpoint)
    : CM (list Endpoint) :=
  mret (base.filter (λ ep, Matches (md_Labels (ep_Metadata ep)) = true) endpoints).

End selector.

(** ** Affinity to a cached prefix: [filter/prefixcacheaffinity] *)

(** [raw.(T)]: another dynamic type panics. *)
Definition prefixCacheScore (ep : Endpoint) : CM float64 :=
  match ep_Get PrefixCacheMatchInfoKey ep with
  | None => mret fzero
  | Some (APrefix info) =>
      if bool_decide (0 < pm_TotalBlocks info)%Z then
        let score := fdiv (of_int (pm_MatchBlocks info)) (of_int (pm_TotalBlocks info)) in
        if is_nan score then mret fzero else mret score
      else mret fzero
  | Some _ => panic
  end.

Module prefixcacheaffinity.

Record Config := mkConfig {
  c_AffinityThreshold : float64;
  c_ExplorationProbability : float64;
  c_MaxTTFTPenaltyMs : float64
}.

Definition DefaultConfig : Config :=
  mkConfig (fdiv (of_int 4) (of_int 5)) (fdiv (of_int 1) (of_int 100)) (of_int 5000).

Definition validate (c : Config) : option GoError :=
  if flt fone (c_AffinityThreshold c) then Some (ENew "affinityThreshold must be <= 1.0")
  else if flt (c_ExplorationProbability c) fzero || flt fone (c_ExplorationProbability c)
  then Some (ENew "explorationProbability must be in [0, 1]")
  else if flt (c_MaxTTFTPenaltyMs c) fzero then Some (ENew "maxTTFTPenaltyMs must be >= 0")
  else None.

(** [math.MaxFloat64]. *)
Definition MaxFloat64 : float64 := S754_finite false 9007199254740991 971.

Fixpoint bestTTFT (best : float64) (endpoints : list Endpoint) : CM float64 :=
  match endpoints with
  | [] => mret best
  | ep :: endpoints' =>
      match ep_Get LatencyPredictionInfoKey ep with
      | None => bestTTFT best endpoints'
      | Some (ALatency info) => bestTTFT (if flt (lp_TTFT info) best then lp_TTFT info else best) endpoints'
      | Some _ => panic
      end
  end.

(** The sticky endpoints and the others. *)
Fixpoint split (threshold : float64) (endpoints : list Endpoint) : CM (list Endpoint * list Endpoint) :=
  match endpoints with
  | [] => mret ([], [])
  | ep :: endpoints' =>
      score ← prefixCacheScore ep;
      rest ← split threshold endpoints';
      mret (if fle threshold score then (ep :: rest.1, rest.2) else (rest.1, ep :: rest.2))
  end.

Definition Filter (c : Config) (d : Draws) (_ : InferenceRequest) (endpoints : list Endpoint) : CM (list Endpoint) :=
  if bool_decide (length endpoints ≤ 1) || fle (c_AffinityThreshold c) fzero then mret endpoints
  else if flt (dr_unit d 0) (c_ExplorationProbability c) then mret endpoints
  else
    halves ← split (c_AffinityThreshold c) endpoints;
    let sticky := halves.1 in
    let nonSticky := halves.2 in
    if bool_decide (length sticky = 0) then mret endpoints
    else if flt fzero (c_MaxTTFTPenaltyMs c) && bool_decide (0 < length nonSticky) then
      bestStickyTTFT ← bestTTFT MaxFloat64 sticky;
      bestNonStickyTTFT ← bestTTFT MaxFloat64 nonSticky;
      if flt (c_MaxTTFTPenaltyMs c) (fsub bestStickyTTFT bestNonStickyTTFT) then mret endpoints else mret sticky
    else mret sticky.

End prefixcacheaffinity.

(** ** Latency headroom: [filter/sloheadroomtier] *)

Module sloheadroomtier.

Definition validate (epsilonExploreNeg : float64) : option GoError :=
  if flt epsilonExploreNeg fzero || flt fone epsilonExploreNeg
  then Some (ENew "epsilonExploreNeg must be in [0, 1]") else None.

Record Tiers := mkTiers { tr_positive : list Endpoint; tr_negative : list Endpoint; tr_noPrediction : list Endpoint }.

Fixpoint classify (endpoints : list Endpoint) : CM Tiers :=
  match endpoints with
  | [] => mret (mkTiers [] [] [])
  | ep :: endpoints' =>
      match ep_Get LatencyPredictionInfoKey ep with
      | None =>
          rest ← classify endpoints';
          mret (mkTiers (tr_positive rest) (tr_negative rest) (ep :: tr_noPrediction rest))
      | Some (ALatency info) =>
          rest ← classify endpoints';
          mret (if fle fzero (lp_TTFTHeadroom info) && fle fzero (lp_TPOTHeadroom info)
                then mkTiers (ep :: tr_positive rest) (tr_negative rest) (tr_noPrediction rest)
                else mkTiers (tr_positive rest) (ep :: tr_negative rest) (tr_noPrediction rest))
      | Some _ => panic
      end
  end.

Definition Filter (epsilonExploreNeg : float64) (d : Draws) (_ : InferenceRequest) (endpoints : list Endpoint)
    : CM (list Endpoint) :=
  if bool_decide (length endpoints ≤ 1) then mret endpoints
  else
    tiers ← classify endpoints;
    if bool_decide (length (tr_positive tiers) = 0) && bool_decide (length (tr_negative tiers) = 0)
    then mret endpoints
    else
      let positive := tr_positive tiers in
      let negative := tr_negative tiers ++ tr_noPrediction tiers in
      if bool_decide (0 < length positive) && bool_decide (0 < length negative) then
        if flt (dr_unit d 0) epsilonExploreNeg then mret negative else mret positive
      else if bool_decide (0 < length positive) then mret positive
      else mret negative.

End sloheadroomtier.

(** ** What the filters keep *)

Lemma filter_submseteq {A} (P : A → Prop) `{∀ x, Decision (P x)} l : base.filter P l ⊆+ l.
Proof. apply sublist_submseteq, sublist_filter. Qed.

#[export] Instance bylabel_lawful f : LawfulFilter (mkFilter (bylabel.Filter f)).
Proof. intros d r eps cs _. apply wp_ret, filter_submseteq. Qed.

#[export] Instance selector_lawful Matches : LawfulFilter (mkFilter (selector.Filter Matches)).
Proof. intros d r eps cs _. apply wp_ret, filter_submseteq. Qed.

(** The share of the prompt that an endpoint has cached. *)
Definition cached_ratio (ep : Endpoint) : float64 :=
  match ep_Get PrefixCacheMatchInfoKey ep with
  | Some (APrefix info) =>
      if bool_decide (0 < pm_TotalBlocks info)%Z
      then fdiv (of_int (pm_MatchBlocks info)) (of_int (pm_TotalBlocks info)) else fzero
  | _ => fzero
  end.

Lemma cached_ratio_unit ep : endpoint_ok ep → unit_range (cached_ratio ep).
Proof.
  intros Hok. unfold cached_ratio. destruct (ep_Get PrefixCacheMatchInfoKey ep) as [v|] eqn:E; [|apply unit_zero].
  destruct (ok_prefix _ Hok _ E) as (i & -> & Hm & Ht). case_bool_decide; [|apply unit_zero].
  unfold Int.two63 in Ht. apply ratio_unit; lia.
Qed.

Lemma prefixCacheScore_ratio ep cs : endpoint_ok ep → prefixCacheScore ep cs = Some (cached_ratio ep, cs).
Proof.
  intros Hok. pose proof (cached_ratio_unit ep Hok) as [Hu _]. unfold prefixCacheScore, cached_ratio in *.
  destruct (ep_Get PrefixCacheMatchInfoKey ep) as [v|] eqn:E; [|done].
  destruct (ok_prefix _ Hok _ E) as (i & -> & _). case_bool_decide; [|done]. by rewrite (nonneg_not_nan _ Hu).
Qed.

Definition sticky (threshold : float64) (ep : Endpoint) : Prop := fle threshold (cached_ratio ep) = true.
#[export] Instance sticky_dec threshold ep : Decision (sticky threshold ep).
Proof. unfold sticky. apply _. Defined.

Lemma split_spec threshold eps cs :
  Forall endpoint_ok eps →
  prefixcacheaffinity.split threshold eps cs =
    Some ((base.filter (sticky threshold) eps, base.filter (λ ep, ¬ sticky threshold ep) eps), cs).
Proof.
  induction 1 as [|ep eps Hok Heps IH]; [done|]. cbn [prefixcacheaffinity.split].
  unfold mbind, gom_bind. rewrite prefixCacheScore_ratio, IH by done.
  rewrite !filter_cons. destruct (decide (sticky threshold ep)) as [Hs|Hs].
  - rewrite (decide_False (P:=¬ sticky threshold ep)) by tauto. unfold sticky in Hs. by rewrite Hs.
  - rewrite (decide_True (P:=¬ sticky threshold ep)) by done. apply not_true_is_false in Hs. by rewrite Hs.
Qed.

Lemma bestTTFT_total eps cs : ∀ best, Forall endpoint_ok eps →
  ∃ v, prefixcacheaffinity.bestTTFT best eps cs = Some (v, cs).
Proof.
  induction eps as [|ep eps IH]; intros best Hok; simpl; [by eexists|].
  apply Forall_cons in Hok as [Hok Heps].
  destruct (ep_Get LatencyPredictionInfoKey ep) as [v|] eqn:E; [|by apply IH].
  destruct (ok_latency _ Hok _ E) as (i & -> & _). by apply IH.
Qed.

(** The affinity filter keeps everything or exactly the sticky endpoints. *)
Lemma affinity_spec c d r eps cs :
  Forall endpoint_ok eps → ∃ out, prefixcacheaffinity.Filter c d r eps cs = Some (out, cs) ∧
    (out = eps ∨ out = base.filter (sticky (prefixcacheaffinity.c_AffinityThreshold c)) eps ∧ out ≠ []).
Proof.
  intros Hok. unfold prefixcacheaffinity.Filter.
  destruct (_ || _); [by exists eps; auto|]. destruct (flt _ _); [by exists eps; auto|].
  unfold mbind, gom_bind. rewrite split_spec by done. cbn [fst snd].
  set (st := base.filter (sticky _) eps). case_bool_decide as Hlen; [by exists eps; auto|].
  assert (st ≠ []) as Hne by by intros ->.
  destruct (flt fzero _ && _); [|by exists st; auto].
  destruct (bestTTFT_total st cs prefixcacheaffinity.MaxFloat64) as [v1 ->].
  { by eapply submseteq_Forall, filter_submseteq. }
  destruct (bestTTFT_total (base.filter (λ ep, ¬ sticky (prefixcacheaffinity.c_AffinityThreshold c) ep) eps) cs prefixcacheaffinity.MaxFloat64) as [v2 ->].
  { by eapply submseteq_Forall, filter_submseteq. }
  destruct (flt _ _); [exists eps|exists st]; auto.
Qed.

#[export] Instance affinity_lawful c : LawfulFilter (mkFilter (prefixcacheaffinity.Filter c)).
Proof.
  intros d r eps cs Hok. apply wp_run. destruct (affinity_spec c d r eps cs Hok) as (out & Hrun & Hout).
  exists out, cs. split; [exact Hrun|]. destruct Hout as [-> | [-> _]]; [done|apply filter_submseteq].
Qed.

(** Predicted to meet both objectives, to miss one, or not predicted. *)
Definition meets_slo (ep : Endpoint) : Prop :=
  match ep_Get LatencyPredictionInfoKey ep with
  | Some (ALatency info) => fle fzero (lp_TTFTHeadroom info) = true ∧ fle fzero (lp_TPOTHeadroom info) = true
  | _ => False
  end.
#[export] Instance meets_slo_dec ep : Decision (meets_slo ep).
Proof. unfold meets_slo. destruct (ep_Get LatencyPredictionInfoKey ep) as [[]|]; apply _. Defined.

Definition no_prediction (ep : Endpoint) : Prop := ep_Get LatencyPredictionInfoKey ep = None.
#[export] Instance no_prediction_dec ep : Decision (no_prediction ep).
Proof. unfold no_prediction. destruct (ep_Get LatencyPredictionInfoKey ep); [by right|by left]. Defined.

Lemma classify_spec eps cs :
  Forall endpoint_ok eps → sloheadroomtier.classify eps cs =
    Some (sloheadroomtier.mkTiers (base.filter meets_slo eps)
      (base.filter (λ ep, ¬ meets_slo ep ∧ ¬ no_prediction ep) eps) (base.filter no_prediction eps), cs).
Proof.
  induction 1 as [|ep eps Hok Heps IH]; [done|]. cbn [sloheadroomtier.classify]. rewrite !filter_cons.
  destruct (ep_Get LatencyPredictionInfoKey ep) as [v|] eqn:E; unfold mbind, gom_bind; rewrite ?IH.
  - destruct (ok_latency _ Hok _ E) as (i & -> & _). rewrite IH.
    assert (¬ no_prediction ep) as Hnp by (unfold no_prediction; by rewrite E).
    assert (meets_slo ep ↔ fle fzero (lp_TTFTHeadroom i) = true ∧ fle fzero (lp_TPOTHeadroom i) = true) as Hm
      by (unfold meets_slo; by rewrite E).
    rewrite (decide_False (P:=no_prediction ep)) by done.
    destruct (fle fzero (lp_TTFTHeadroom i) && fle fzero (lp_TPOTHeadroom i)) eqn:Hb.
    + apply andb_true_iff, Hm in Hb. by rewrite decide_True, decide_False by tauto.
    + assert (¬ meets_slo ep) as Hnm by (rewrite Hm, <- andb_true_iff, Hb; done).
      by rewrite decide_False, decide_True by tauto.
  - assert (¬ meets_slo ep) as Hnm by (unfold meets_slo; rewrite E; tauto).
    assert (no_prediction ep) as Hnp by done.
    by rewrite decide_False, decide_False, decide_True by tauto.
Qed.

(** The tier filter keeps everything, the endpoints that meet the objectives, or those that
    do not. *)
Lemma tier_spec e d r eps cs :
  Forall endpoint_ok eps → ∃ out, sloheadroomtier.Filter e d r eps cs = Some (out, cs) ∧
    out ⊆+ eps ∧ (eps ≠ [] → out ≠ []) ∧
    (2 ≤ length eps → base.filter meets_slo eps ≠ [] → flt (dr_unit d 0) e = false →
      out = base.filter meets_slo eps).
Proof.
  intros Hok. unfold sloheadroomtier.Filter.
  case_bool_decide as Hlen; [exists eps; split_and!; [done..|lia]|].
  unfold mbind, gom_bind. rewrite classify_spec by done. cbn [sloheadroomtier.tr_positive
    sloheadroomtier.tr_negative sloheadroomtier.tr_noPrediction].
  set (pos := base.filter meets_slo eps). set (neg := base.filter (λ ep, ¬ meets_slo ep ∧ ¬ no_prediction ep) eps).
  set (nop := base.filter no_prediction eps).
  assert (neg ++ nop ≡ₚ base.filter (λ ep, ¬ meets_slo ep) eps) as Hneg.
  { rewrite (Permutation_app_comm neg nop), <- (filter_app_complement no_prediction (base.filter (λ ep, ¬ meets_slo ep) eps)).
    rewrite !list_filter_filter. apply Permutation_app; apply reflexive_eq, list_filter_iff; intros ep; [|tauto].
    unfold meets_slo, no_prediction. destruct (ep_Get LatencyPredictionInfoKey ep); naive_solver. }
  assert (neg ++ nop ⊆+ eps) as Hsub by (rewrite Hneg; apply filter_submseteq).
  assert (pos ⊆+ eps) as Hsub' by apply filter_submseteq.
  assert (pos ≠ [] ∨ neg ++ nop ≠ [] ∨ eps = []) as Hsome.
  { destruct pos eqn:Hpos, (neg ++ nop) eqn:Hng; auto. right; right. apply Permutation_nil_r.
    rewrite <- (filter_app_complement meets_slo eps), <- Hneg. unfold pos in Hpos. by rewrite Hpos. }
  destruct (bool_decide (length pos = 0) && bool_decide (length neg = 0)) eqn:Hb.
  { exists eps. split_and!; [done..|]. intros _ Hp. by apply andb_true_iff in Hb as [->%bool_decide_eq_true%nil_length_inv _]. }
  destruct (decide (pos = [])) as [Hp|Hp].
  - rewrite !(bool_decide_eq_false_2 (0 < length pos)) by (rewrite Hp; simpl; lia). simpl.
    exists (neg ++ nop). split_and!; [done..| |done]. naive_solver.
  - assert (0 < length pos) by (destruct pos; simpl; [done|lia]). rewrite !(bool_decide_eq_true_2 (0 < length pos)) by done.
    simpl. clear Hb. case_bool_decide as Hn; [|exists pos; split_and!; [reflexivity|exact Hsub'|by intros _|by intros]].
    destruct (flt (dr_unit d 0) e); [|exists pos; split_and!; [reflexivity|exact Hsub'|by intros _|by intros]]. exists (neg ++ nop). split_and!; [done..| |done].
    intros _ Hnil. rewrite Hnil in Hn. simpl in Hn. lia.
Qed.

#[export] Instance tier_lawful e : LawfulFilter (mkFilter (sloheadroomtier.Filter e)).
Proof.
  intros d r eps cs Hok. apply wp_run. destruct (tier_spec e d r eps cs Hok) as (out & Hrun & Hout & _).
  exists out, cs. by split; [exact Hrun|].
Qed.

(** The adaptive filters never leave a request without a candidate. For well-formed
    endpoints, of which there is at least one, the prefix-cache affinity filter returns all
    endpoints or exactly those whose cached share of the prompt reaches the threshold, and
    at least one; the headroom tier filter returns some of the endpoints, at least one,
    and, unless the draw asks for exploration, exactly the endpoints that are predicted to
    meet both objectives whenever there are any and there is a choice. *)
Theorem adaptive_filters_keep_candidates (c : prefixcacheaffinity.Config) (e : float64) (d : Draws)
    (request : InferenceRequest) (endpoints : list Endpoint) (cs : CycleState)
    (Hok : Forall endpoint_ok endpoints) (Hne : endpoints ≠ []) :
  (∃ out, prefixcacheaffinity.Filter c d request endpoints cs = Some (out, cs) ∧ out ≠ [] ∧
    (out = endpoints ∨ out = base.filter (sticky (prefixcacheaffinity.c_AffinityThreshold c)) endpoints)) ∧
  (∃ out, sloheadroomtier.Filter e d request endpoints cs = Some (out, cs) ∧ out ≠ [] ∧ out ⊆+ endpoints ∧
    (2 ≤ length endpoints → base.filter meets_slo endpoints ≠ [] → flt (dr_unit d 0) e = false →
      out = base.filter meets_slo endpoints)).
Proof.
  split.
  - destruct (affinity_spec c d request endpoints cs Hok) as (out & Hrun & Hout). exists out.
    split_and!; [done| |]; destruct Hout as [-> | [-> ?]]; auto.
  - destruct (tier_spec e d request endpoints cs Hok) as (out & Hrun & Hsub & Hn & Hpos). exists out. auto.
Qed.

Lemma adaptive_filters_keep_candidates_witness :
  ∃ out, prefixcacheaffinity.Filter prefixcacheaffinity.DefaultConfig sample_draws sample_request
      [sample_endpoint 1 "a"; sample_endpoint 2 "b"] ∅ = Some (out, ∅) ∧ out ≠ [].
Proof.
  destruct (adaptive_filters_keep_candidates prefixcacheaffinity.DefaultConfig fzero sample_draws sample_request
    [sample_endpoint 1 "a"; sample_endpoint 2 "b"] ∅) as [(out & Hrun & Hne & _) _].
  - constructor; [apply sample_endpoint_ok|]. constructor; [apply sample_endpoint_ok|constructor].
  - discriminate.
  - exists out. split; [exact Hrun|exact Hne].
Defined.
