(* ===== verification/Scorers.v ===== *)
(** * Stateless scorers: [scheduling/scorer]

    The scorers that read the metrics and attributes of the endpoints: queue depth, running
    requests, KV-cache utilisation, load awareness, token load, LoRA affinity and prefix
    cache. [LoadScorer] states what a load scorer promises: scores between zero and one,
    and never a higher score for a more loaded endpoint, in [float64] arithmetic. *)

From stdpp Require Import prelude gmap strings list sorting.
From Stdlib Require Import Lia Floats.SpecFloat.
From S2P Require Import Prelude FlowTypes Float64 FloatRound FloatOps SchedTypes Pickers SchedulerProfile Filters.

#[local] Open Scope go_scope.

(** [scores[endpoint] = f(endpoint)] for every endpoint, in order. *)
Fixpoint score_into (f : Endpoint → float64) (endpoints : list Endpoint) (scores : Scores) : Scores :=
  match endpoints with
  | [] => scores
  | endpoint :: endpoints' => score_into f endpoints' (<[ep_ptr endpoint := (endpoint, f endpoint)]> scores)
  end.
Definition scores_of (f : Endpoint → float64) (endpoints : list Endpoint) : Scores := score_into f endpoints ∅.

(** ** Queue depth and running requests *)

Definition MaxInt : Z := Int.two63 - 1.
Definition MinInt : Z := - Int.two63.

(** The smallest and the largest value of a metric. *)
Fixpoint min_max (metric : Metrics → Z) (endpoints : list Endpoint) (mn mx : Z) : Z * Z :=
  match endpoints with
  | [] => (mn, mx)
  | endpoint :: endpoints' =>
      let queueSize := metric (ep_Metrics endpoint) in
      min_max metric endpoints' (if bool_decide (queueSize < mn)%Z then queueSize else mn)
        (if bool_decide (mx < queueSize)%Z then queueSize else mx)
  end.

(** [endpointScoreFunc]. *)
Definition relative_score (metric : Metrics → Z) (bounds : Z * Z) (endpoint : Endpoint) : float64 :=
  let (minQueueSize, maxQueueSize) := bounds in
  if bool_decide (maxQueueSize = minQueueSize) then fone
  else fdiv (of_int (Int.i64 (maxQueueSize - metric (ep_Metrics endpoint))))
            (of_int (Int.i64 (maxQueueSize - minQueueSize))).

Definition QueueScorer_Score (_ : InferenceRequest) (endpoints : list Endpoint) : CM Scores :=
  mret (scores_of (relative_score mt_WaitingQueueSize (min_max mt_WaitingQueueSize endpoints MaxInt MinInt)) endpoints).
Definition QueueScorer : Scorer := mkScorer QueueScorer_Score.

Definition RunningRequestsSizeScorer_Score (_ : InferenceRequest) (endpoints : list Endpoint) : CM Scores :=
  mret (scores_of (relative_score mt_RunningRequestsSize (min_max mt_RunningRequestsSize endpoints MaxInt MinInt))
          endpoints).
Definition RunningRequestsSizeScorer : Scorer := mkScorer RunningRequestsSizeScorer_Score.

(** ** KV-cache utilisation *)

Definition KVCacheUtilizationScorer_Score (_ : InferenceRequest) (endpoints : list Endpoint) : CM Scores :=
  mret (scores_of (λ endpoint, fsub fone (mt_KVCacheUsagePercent (ep_Metrics endpoint))) endpoints).
Definition KVCacheUtilizationScorer : Scorer := mkScorer KVCacheUtilizationScorer_Score.

(** ** Load awareness *)

Definition half : float64 := fdiv (of_int 1) (of_int 2).

Definition QueueThresholdDefault : Z := 128.
Definition NewLoadAware (queueThreshold : Z) : float64 :=
  of_int (if bool_decide (queueThreshold ≤ 0)%Z then QueueThresholdDefault else queueThreshold).

Definition load_aware_score (queueThreshold : float64) (endpoint : Endpoint) : float64 :=
  let waitingRequests := of_int (mt_WaitingQueueSize (ep_Metrics endpoint)) in
  if feq waitingRequests fzero then half
  else
    let waitingRequests := if flt queueThreshold waitingRequests then queueThreshold else waitingRequests in
    fmul half (fsub fone (fdiv waitingRequests queueThreshold)).

Definition LoadAware_Score (queueThreshold : float64) (_ : InferenceRequest) (endpoints : list Endpoint) : CM Scores :=
  mret (scores_of (load_aware_score queueThreshold) endpoints).
Definition LoadAware (queueThreshold : Z) : Scorer := mkScorer (LoadAware_Score (NewLoadAware queueThreshold)).

(** ** Token load *)

Definition tokenQueueThresholdDefault : Z := 4194304.
Definition TokenLoadScorerFactory (queueThresholdTokens : Z) : float64 :=
  of_int (if bool_decide (queueThresholdTokens ≤ 0)%Z then tokenQueueThresholdDefault else queueThresholdTokens).

(** An attribute of another type counts as no load. *)
Definition token_load_score (queueThresholdTokens : float64) (endpoint : Endpoint) : float64 :=
  let tokenLoad := match ep_Get InFlightLoadKey endpoint with
                   | Some (AInFlight load) => of_int (il_Tokens load)
                   | _ => fzero
                   end in
  if fle tokenLoad fzero then fone
  else
    let tokenLoad := if flt queueThresholdTokens tokenLoad then queueThresholdTokens else tokenLoad in
    fsub fone (fdiv tokenLoad queueThresholdTokens).

Definition TokenLoadScorer_Score (queueThresholdTokens : float64) (_ : InferenceRequest) (endpoints : list Endpoint)
    : CM Scores :=
  mret (scores_of (token_load_score queueThresholdTokens) endpoints).
Definition TokenLoadScorer (queueThresholdTokens : Z) : Scorer :=
  mkScorer (TokenLoadScorer_Score (TokenLoadScorerFactory queueThresholdTokens)).

(** ** LoRA affinity *)

Definition lora_score (request : InferenceRequest) (endpoint : Endpoint) : float64 :=
  let m := ep_Metrics endpoint in
  let active := bool_decide (is_Some (mt_ActiveModels m !! ir_TargetModel request)) in
  let waiting := bool_decide (is_Some (mt_WaitingModels m !! ir_TargetModel request)) in
  if active then fone
  else if bool_decide (Z.of_nat (size (mt_ActiveModels m)) + Z.of_nat (size (mt_WaitingModels m))
                       < mt_MaxActiveModels m)%Z
  then fdiv (of_int 4) (of_int 5)
  else if waiting then fdiv (of_int 3) (of_int 5)
  else fzero.

Definition LoraAffinityScorer_Score (request : InferenceRequest) (endpoints : list Endpoint) : CM Scores :=
  mret (scores_of (lora_score request) endpoints).
Definition LoraAffinityScorer : Scorer := mkScorer LoraAffinityScorer_Score.

(** ** Prefix cache *)

Definition prefix_score (endpoint : Endpoint) : float64 :=
  match ep_Get PrefixCacheMatchInfoKey endpoint with
  | Some (APrefix info) =>
      if bool_decide (pm_TotalBlocks info ≠ 0)%Z
      then fdiv (of_int (pm_MatchBlocks info)) (of_int (pm_TotalBlocks info)) else fzero
  | _ => fzero
  end.

Definition PrefixScorer_Score (_ : InferenceRequest) (endpoints : list Endpoint) : CM Scores :=
  mret (scores_of prefix_score endpoints).
Definition PrefixScorer : Scorer := mkScorer PrefixScorer_Score.

(** ** Maps of scores *)

Lemma score_into_lookup f eps : ∀ m k,
  score_into f eps m !! k =
    match list_find (λ ep, ep_ptr ep = k) (reverse eps) with
    | Some (_, ep) => Some (ep, f ep)
    | None => m !! k
    end.
Proof.
  induction eps as [|ep eps IH]; intros m k; simpl; [done|]. rewrite IH, reverse_cons.
  destruct (list_find _ (reverse eps)) as [[i e]|] eqn:E.
  - by rewrite (list_find_app_l _ _ _ i e).
  - rewrite list_find_app_r by done. simpl. destruct (decide (ep_ptr ep = k)) as [<-|Hne].
    + by rewrite lookup_insert_eq.
    + by rewrite lookup_insert_ne.
Qed.

Lemma scores_of_some f eps k ep v :
  scores_of f eps !! k = Some (ep, v) → ep ∈ eps ∧ ep_ptr ep = k ∧ v = f ep.
Proof.
  unfold scores_of. rewrite score_into_lookup, lookup_empty.
  destruct (list_find _ _) as [[i e]|] eqn:E; [|done]. intros [= -> <-].
  apply list_find_Some in E as (Hl%list_elem_of_lookup_2 & Hk & _). by rewrite elem_of_reverse in Hl.
Qed.

Lemma ep_ptrs_inj eps a b :
  NoDup (ep_ptrs eps) → a ∈ eps → b ∈ eps → ep_ptr a = ep_ptr b → a = b.
Proof.
  intros Hnd [i Hi]%list_elem_of_lookup [j Hj]%list_elem_of_lookup Heq.
  assert (i = j) as ->; [|congruence]. unfold ep_ptrs in Hnd.
  eapply NoDup_lookup; [exact Hnd|..]; rewrite list_lookup_fmap; [by rewrite Hi|by rewrite Hj, Heq].
Qed.

Lemma scores_of_lookup f eps ep :
  NoDup (ep_ptrs eps) → ep ∈ eps → scores_of f eps !! ep_ptr ep = Some (ep, f ep).
Proof.
  intros Hnd Hep. unfold scores_of. rewrite score_into_lookup.
  destruct (list_find _ _) as [[i e]|] eqn:E.
  - apply list_find_Some in E as (Hl%list_elem_of_lookup_2 & Hk & _). rewrite elem_of_reverse in Hl.
    by rewrite (ep_ptrs_inj eps e ep).
  - apply list_find_None in E. rewrite Forall_forall in E. destruct (E ep); [by rewrite elem_of_reverse|done].
Qed.

Lemma scores_of_ok f eps : (∀ ep, ep ∈ eps → unit_range (f ep)) → scores_ok eps (scores_of f eps).
Proof.
  intros Hf k ep v (Hep & Hk & ->)%scores_of_some. split_and!; [done..| |]; by apply unit_valid, Hf.
Qed.

(** ** Load scorers *)

(** What a load scorer promises about the endpoints that it is given. *)
Class LoadScorer (s : Scorer) (less_loaded : Endpoint → Endpoint → Prop) : Prop :=
  load_scores : ∀ r eps cs, Forall endpoint_ok eps → ∃ f,
    sc_Score s r eps cs = Some (scores_of f eps, cs) ∧ (∀ ep, ep ∈ eps → unit_range (f ep)) ∧
    ∀ a b, a ∈ eps → b ∈ eps → less_loaded a b → fle (f b) (f a) = true.

#[export] Instance LoadScorer_lawful s less : LoadScorer s less → LawfulScorer s.
Proof.
  intros Hs r eps cs Hok. destruct (Hs r eps cs Hok) as (f & Hrun & Hf & _). apply wp_run.
  eexists _, _. split; [exact Hrun|by apply scores_of_ok].
Qed.

Lemma min_max_spec metric eps : ∀ mn mx mn' mx',
  min_max metric eps mn mx = (mn', mx') →
  (mn' ≤ mn)%Z ∧ (mx ≤ mx')%Z ∧ (∀ ep, ep ∈ eps → (mn' ≤ metric (ep_Metrics ep) ≤ mx')%Z) ∧
  (∀ lo hi, (∀ ep, ep ∈ eps → (lo ≤ metric (ep_Metrics ep) ≤ hi)%Z) → (lo ≤ mn)%Z → (mx ≤ hi)%Z → (lo ≤ mn')%Z ∧ (mx' ≤ hi)%Z).
Proof.
  induction eps as [|ep eps IH]; intros mn mx mn' mx'; simpl.
  - intros [= <- <-]. split_and!; [lia..|set_solver|lia].
  - intros (H1 & H2 & H3 & H4)%IH. split_and!.
    + case_bool_decide; lia.
    + repeat case_bool_decide; lia.
    + intros e [->|He]%elem_of_cons; [|by apply H3]. repeat case_bool_decide; lia.
    + intros lo hi Hb Hlo Hhi. pose proof (Hb ep ltac:(set_solver)). apply H4; [set_solver|repeat case_bool_decide; lia..].
Qed.

Lemma relative_score_spec metric eps :
  (∀ ep, ep ∈ eps → (0 ≤ metric (ep_Metrics ep) < Int.two63)%Z) →
  let f := relative_score metric (min_max metric eps MaxInt MinInt) in
  (∀ ep, ep ∈ eps → unit_range (f ep)) ∧
  ∀ a b, a ∈ eps → b ∈ eps → (metric (ep_Metrics a) ≤ metric (ep_Metrics b))%Z → fle (f b) (f a) = true.
Proof.
  intros Hr f. unfold f. destruct (min_max metric eps MaxInt MinInt) as [mn mx] eqn:E.
  destruct (min_max_spec _ _ _ _ _ _ E) as (_ & _ & Hin & Hb).
  unfold MaxInt, MinInt, Int.two63 in *. destruct (Hb 0%Z (2 ^ 63 - 1)%Z) as [H0 H1]; [|lia..|].
  { intros ep Hep. specialize (Hr ep Hep). lia. }
  unfold relative_score. case_bool_decide as Hne.
  { split; [intros; apply unit_one|]. intros. by apply fle_refl, nonneg_not_nan, fone_nonneg. }
  assert (∀ ep, ep ∈ eps → Int.i64 (mx - metric (ep_Metrics ep)) = mx - metric (ep_Metrics ep))%Z as Hi.
  { intros ep Hep. specialize (Hr ep Hep). specialize (Hin ep Hep). apply Int.i64_small. unfold Int.two63. lia. }
  split.
  - intros ep Hep. specialize (Hin ep Hep). rewrite Hi by done.
    rewrite (Int.i64_small (mx - mn)) by (unfold Int.two63; lia). apply ratio_unit; lia.
  - intros a b Ha Hb' Hab. pose proof (Hin a Ha). pose proof (Hin b Hb'). rewrite !Hi by done.
    rewrite (Int.i64_small (mx - mn)) by (unfold Int.two63; lia). apply ratio_mono; lia.
Qed.

Lemma forall_in {A} (P : A → Prop) l x : Forall P l → x ∈ l → P x.
Proof. rewrite Forall_forall. auto. Qed.

#[export] Instance QueueScorer_load :
  LoadScorer QueueScorer (λ a b, (mt_WaitingQueueSize (ep_Metrics a) ≤ mt_WaitingQueueSize (ep_Metrics b))%Z).
Proof.
  intros r eps cs Hok. eexists. split; [done|]. apply relative_score_spec.
  intros ep Hep. by apply ok_waiting, (forall_in _ _ _ Hok).
Qed.

#[export] Instance RunningRequestsSizeScorer_load :
  LoadScorer RunningRequestsSizeScorer
    (λ a b, (mt_RunningRequestsSize (ep_Metrics a) ≤ mt_RunningRequestsSize (ep_Metrics b))%Z).
Proof.
  intros r eps cs Hok. eexists. split; [done|]. apply relative_score_spec.
  intros ep Hep. by apply ok_running, (forall_in _ _ _ Hok).
Qed.

#[export] Instance KVCacheUtilizationScorer_load :
  LoadScorer KVCacheUtilizationScorer
    (λ a b, fle (mt_KVCacheUsagePercent (ep_Metrics a)) (mt_KVCacheUsagePercent (ep_Metrics b)) = true).
Proof.
  intros r eps cs Hok. eexists. split; [done|]. split.
  - intros ep Hep. by apply fsub_one_unit, ok_usage, (forall_in _ _ _ Hok).
  - intros a b Ha Hb Hab. pose proof (ok_usage _ (forall_in _ _ _ Hok Ha)) as Hua.
    pose proof (ok_usage _ (forall_in _ _ _ Hok Hb)) as Hub. apply fsub_one_anti; [done..|].
    apply fle_fval; [apply Hua|apply Hub|done].
Qed.

Lemma threshold_positive t d :
  (t < Int.two63)%Z → (0 < d < Int.two63)%Z → positive_float (of_int (if bool_decide (t ≤ 0)%Z then d else t)).
Proof. unfold Int.two63. intros Ht Hd. apply of_int_positive. case_bool_decide; lia. Qed.

Lemma unit_half : unit_range half.
Proof. apply ratio_unit; lia. Qed.

Lemma load_aware_unit th ep :
  positive_float th → endpoint_ok ep → unit_range (load_aware_score th ep).
Proof.
  intros Hth Hok. unfold load_aware_score. destruct (feq _ _); [apply unit_half|].
  apply fmul_unit; [apply unit_half|]. apply fsub_one_unit, (load_share_unit th); [done|].
  apply of_int_nonneg. pose proof (ok_waiting _ Hok). unfold Int.two63 in *. lia.
Qed.

Lemma load_aware_anti th a b :
  positive_float th → endpoint_ok a → endpoint_ok b →
  (mt_WaitingQueueSize (ep_Metrics a) ≤ mt_WaitingQueueSize (ep_Metrics b))%Z →
  fle (load_aware_score th b) (load_aware_score th a) = true.
Proof.
  intros Hth Ha%ok_waiting Hb%ok_waiting Hab. unfold load_aware_score. unfold Int.two63 in *.
  set (x := mt_WaitingQueueSize (ep_Metrics a)) in *. set (y := mt_WaitingQueueSize (ep_Metrics b)) in *.
  assert (nonneg half) as Hh by apply unit_half.
  assert (nonneg (of_int x)) as Hx by (apply of_int_nonneg; lia).
  assert (nonneg (of_int y)) as Hy by (apply of_int_nonneg; lia).
  destruct (decide (y = 0)%Z) as [Hy0|Hy0].
  { assert (x = 0)%Z as -> by lia. rewrite Hy0. by apply fle_refl, nonneg_not_nan. }
  rewrite (positive_not_eq (of_int y)) by (apply of_int_positive; lia).
  pose proof (fsub_one_unit _ (load_share_unit th _ Hth Hy)) as Huy.
  pose proof (fsub_one_unit _ (load_share_unit th _ Hth Hx)) as Hux.
  destruct (feq (of_int x) fzero); [by apply fmul_unit_le|].
  apply fmul_mono_r; [done|apply Huy|apply Hux|]. apply fle_fval; [apply Huy|apply Hux|].
  apply load_share_anti; [done..|]. apply of_int_fval; lia.
Qed.

#[export] Instance LoadAware_load t :
  (t < Int.two63)%Z →
  LoadScorer (LoadAware t) (λ a b, (mt_WaitingQueueSize (ep_Metrics a) ≤ mt_WaitingQueueSize (ep_Metrics b))%Z).
Proof.
  intros Ht r eps cs Hok. eexists. split; [done|].
  assert (positive_float (NewLoadAware t)) as Hth by by apply threshold_positive. split.
  - intros ep Hep. by apply load_aware_unit, (forall_in _ _ _ Hok).
  - intros a b Ha Hb. apply load_aware_anti; [done|by eapply forall_in..].
Qed.

(** The tokens in flight on an endpoint. *)
Definition tokens_in_flight (ep : Endpoint) : Z :=
  match ep_Get InFlightLoadKey ep with Some (AInFlight load) => il_Tokens load | _ => 0 end.

Lemma token_load_score_tokens th ep :
  token_load_score th ep =
    if bool_decide (tokens_in_flight ep ≤ 0)%Z then fone
    else if fle (of_int (tokens_in_flight ep)) fzero then fone
    else fsub fone (fdiv (capped th (of_int (tokens_in_flight ep))) th).
Proof.
  unfold token_load_score, tokens_in_flight, capped.
  destruct (ep_Get InFlightLoadKey ep) as [[| |load|]|]; try done.
  case_bool_decide as Hz; [by rewrite of_int_nonpos|done].
Qed.

Lemma token_load_unit th ep : positive_float th → endpoint_ok ep → unit_range (token_load_score th ep).
Proof.
  intros Hth Hok. rewrite token_load_score_tokens. case_bool_decide as Hz; [apply unit_one|].
  destruct (fle _ _); [apply unit_one|]. apply fsub_one_unit, load_share_unit; [done|]. apply of_int_nonneg.
  unfold tokens_in_flight in *. destruct (ep_Get InFlightLoadKey ep) as [v|] eqn:E; [|lia].
  destruct (ok_inflight _ Hok _ E) as (l & -> & Hl & _). unfold Int.two63 in *. lia.
Qed.

Lemma tokens_bound ep : endpoint_ok ep → (tokens_in_flight ep < 2 ^ 63)%Z.
Proof.
  intros Hok. unfold tokens_in_flight. destruct (ep_Get InFlightLoadKey ep) as [v|] eqn:E; [|lia].
  destruct (ok_inflight _ Hok _ E) as (l & -> & Hl & _). unfold Int.two63 in *. lia.
Qed.

#[export] Instance TokenLoadScorer_load t :
  (t < Int.two63)%Z → LoadScorer (TokenLoadScorer t) (λ a b, (tokens_in_flight a ≤ tokens_in_flight b)%Z).
Proof.
  intros Ht r eps cs Hok. eexists. split; [done|].
  assert (positive_float (TokenLoadScorerFactory t)) as Hth by by apply threshold_positive. split.
  - intros ep Hep. by apply token_load_unit, (forall_in _ _ _ Hok).
  - intros a b Ha Hb Hab. pose proof (forall_in _ _ _ Hok Ha) as Hoa. pose proof (forall_in _ _ _ Hok Hb) as Hob.
    pose proof (token_load_unit _ b Hth Hob) as Hub. pose proof (tokens_bound b Hob).
    rewrite (token_load_score_tokens _ a). case_bool_decide as Hza; [by apply unit_range_le|].
    rewrite positive_not_le by (apply of_int_positive; lia).
    rewrite token_load_score_tokens, bool_decide_eq_false_2 by lia.
    rewrite positive_not_le by (apply of_int_positive; lia).
    apply load_share_anti; [done|apply of_int_nonneg; lia..|apply of_int_fval; lia].
Qed.

(** ** Affinity scorers *)

Lemma lora_unit r ep : unit_range (lora_score r ep).
Proof.
  unfold lora_score. repeat case_match; (apply unit_one || apply unit_zero || (apply ratio_unit; lia)).
Qed.

#[export] Instance LoraAffinityScorer_lawful : LawfulScorer LoraAffinityScorer.
Proof. intros r eps cs _. apply wp_ret, scores_of_ok. intros ep _. apply lora_unit. Qed.

Lemma prefix_score_ratio ep : endpoint_ok ep → prefix_score ep = cached_ratio ep.
Proof.
  intros Hok. unfold prefix_score, cached_ratio.
  destruct (ep_Get PrefixCacheMatchInfoKey ep) as [v|] eqn:E; [|done].
  destruct (ok_prefix _ Hok _ E) as (i & -> & Hm & _). repeat case_bool_decide; (done || lia).
Qed.

#[export] Instance PrefixScorer_lawful : LawfulScorer PrefixScorer.
Proof.
  intros r eps cs Hok. apply wp_ret, scores_of_ok. intros ep Hep. pose proof (forall_in _ _ _ Hok Hep) as He.
  rewrite prefix_score_ratio by done. by apply cached_ratio_unit.
Qed.

(** ** Ranking by load *)

Lemma load_outputs r eps scorers : ∀ less cs,
  Forall2 (λ ws le, LoadScorer (ws_Scorer ws) le) scorers less → Forall endpoint_ok eps → NoDup (ep_ptrs eps) →
  ∃ outs, scorer_outputs scorers r eps cs = Some (outs, cs) ∧ Forall (scores_ok eps) outs ∧
    ∀ a b, a ∈ eps → b ∈ eps → Forall (λ le : Endpoint → Endpoint → Prop, le a b) less → Forall (scored_above a b) outs.
Proof.
  induction scorers as [|ws scorers IH]; intros less cs Hs Hok Hnd.
  - exists []. split_and!; [done|constructor|]. intros. constructor.
  - apply Forall2_cons_inv_l in Hs as (le & less' & Hl & Hls & ->).
    destruct (Hl r eps cs Hok) as (f & Hrun & Hf & Hmono).
    destruct (IH less' cs Hls Hok Hnd) as (outs & Ho & Hoks & Ha).
    exists (scores_of f eps :: outs). split_and!.
    + cbn [scorer_outputs]. unfold mbind, gom_bind. by rewrite Hrun, Ho.
    + constructor; [by apply scores_of_ok|done].
    + intros a b Hain Hbin [Hle Hles]%Forall_cons. constructor; [|by apply Ha].
      intros vb (_ & _ & ->)%scores_of_some. exists (f a). split; [by apply scores_of_lookup|by apply Hmono].
Qed.


Definition loaded_endpoint (ptr : positive) (waiting running : Z) (usage : float64) (tokens : Z) : Endpoint :=
  mkEndpoint ptr (sample_meta "pod") (mkMetrics ∅ ∅ 0 running waiting usage 0 0 0 0)
    {[ InFlightLoadKey := AInFlight (mkInFlightLoad tokens running) ]}.

Definition load_profile : SchedulerProfile :=
  mkProfile [] [mkWeightedScorer QueueScorer (of_int 2); mkWeightedScorer RunningRequestsSizeScorer fone;
                mkWeightedScorer KVCacheUtilizationScorer (of_int 2); mkWeightedScorer (LoadAware 128) fone;
                mkWeightedScorer (TokenLoadScorer 0) half] (Some (MaxScorePicker 1)).

Lemma loaded_endpoint_ok ptr waiting running usage tokens :
  (0 ≤ waiting < Int.two63)%Z → (0 ≤ running < Int.two63)%Z → unit_range usage → (0 ≤ tokens < Int.two63)%Z →
  endpoint_ok (loaded_endpoint ptr waiting running usage tokens).
Proof.
  intros Hw Hr Hu Ht. split; try done; unfold ep_Get; simpl.
  intros v [_ <-]%lookup_singleton_Some. eexists. split; [done|]. unfold Int.two63 in *. simpl. lia.
Qed.

