(* ===== verification/SessionAffinity.v ===== *)
(** * Session affinity: [scorer/sessionaffinity]

    The scorer sends a session back to the pod that served it: at the end of a response it
    puts the pod's name, in base64, into a header, and scores the pod that the header of a
    request names. [encoding/base64] with its standard alphabet is modelled on bytes. *)

From stdpp Require Import prelude gmap strings list sorting.
From Stdlib Require Import Lia NArith.
From S2P Require Import Prelude FlowTypes Float64 FloatRound FloatOps SchedTypes Pickers SchedulerProfile Filters Scorers.

#[local] Open Scope go_scope.

(** ** [base64.StdEncoding] *)

Module base64.

Definition byte_of (n : Z) : Ascii.ascii := Ascii.ascii_of_N (Z.to_N n).
Definition code (c : Ascii.ascii) : Z := Z.of_N (Ascii.N_of_ascii c).

Definition encode_digit (n : Z) : Ascii.ascii :=
  byte_of (if bool_decide (n < 26)%Z then 65 + n
           else if bool_decide (n < 52)%Z then 71 + n
           else if bool_decide (n < 62)%Z then n - 4
           else if bool_decide (n = 62)%Z then 43 else 47)%Z.

Definition decode_digit (c : Ascii.ascii) : option Z :=
  let n := code c in
  if bool_decide (65 ≤ n ≤ 90)%Z then Some (n - 65)%Z
  else if bool_decide (97 ≤ n ≤ 122)%Z then Some (n - 71)%Z
  else if bool_decide (48 ≤ n ≤ 57)%Z then Some (n + 4)%Z
  else if bool_decide (n = 43)%Z then Some 62%Z
  else if bool_decide (n = 47)%Z then Some 63%Z
  else None.

Definition padding : Ascii.ascii := byte_of 61.

(** The four digits of three bytes. *)
Definition digit (k : Z) (val : Z) : Z := (val / 64 ^ k) mod 64.

Fixpoint encode (src : list Ascii.ascii) : list Ascii.ascii :=
  match src with
  | a :: b :: c :: src' =>
      let val := (code a * 65536 + code b * 256 + code c)%Z in
      encode_digit (digit 3 val) :: encode_digit (digit 2 val) :: encode_digit (digit 1 val) ::
        encode_digit (digit 0 val) :: encode src'
  | [a; b] =>
      let val := (code a * 65536 + code b * 256)%Z in
      [encode_digit (digit 3 val); encode_digit (digit 2 val); encode_digit (digit 1 val); padding]
  | [a] =>
      let val := (code a * 65536)%Z in
      [encode_digit (digit 3 val); encode_digit (digit 2 val); padding; padding]
  | [] => []
  end.

Definition quantum (d0 d1 d2 d3 : Z) : Z := (d0 * 262144 + d1 * 4096 + d2 * 64 + d3)%Z.
Definition nth_byte (k : Z) (val : Z) : Ascii.ascii := byte_of ((val / 256 ^ k) mod 256).

(** Digits in groups of four; only the last group may be padded. *)
Fixpoint decode (src : list Ascii.ascii) : option (list Ascii.ascii) :=
  match src with
  | [] => Some []
  | c0 :: c1 :: c2 :: c3 :: src' =>
      match decode_digit c0, decode_digit c1, decode_digit c2, decode_digit c3 with
      | Some d0, Some d1, Some d2, Some d3 =>
          let val := quantum d0 d1 d2 d3 in
          rest ← decode src'; Some (nth_byte 2 val :: nth_byte 1 val :: nth_byte 0 val :: rest)
      | Some d0, Some d1, Some d2, None =>
          let val := quantum d0 d1 d2 0 in
          if bool_decide (c3 = padding ∧ src' = []) then Some [nth_byte 2 val; nth_byte 1 val] else None
      | Some d0, Some d1, None, _ =>
          let val := quantum d0 d1 0 0 in
          if bool_decide (c2 = padding ∧ c3 = padding ∧ src' = []) then Some [nth_byte 2 val] else None
      | _, _, _, _ => None
      end
  | _ => None
  end.

Definition is_newline (c : Ascii.ascii) : bool := bool_decide (code c = 10%Z ∨ code c = 13%Z).

Definition EncodeToString (src : string) : string :=
  String.string_of_list_ascii (encode (String.list_ascii_of_string src)).

(** Newlines are skipped. *)
Definition DecodeString (s : string) : option string :=
  String.string_of_list_ascii <$>
    decode (base.filter (λ c, is_newline c = false) (String.list_ascii_of_string s)).

(** ** Round trip *)

Lemma code_range c : (0 ≤ code c < 256)%Z.
Proof. unfold code. pose proof (Ascii.N_ascii_bounded c). lia. Qed.

Lemma byte_of_code c : byte_of (code c) = c.
Proof. unfold byte_of, code. by rewrite N2Z.id, Ascii.ascii_N_embedding. Qed.

Lemma digit_range k val : (0 ≤ digit k val < 64)%Z.
Proof. apply Z.mod_pos_bound. lia. Qed.

(** Finitely many digits: checked one by one. *)
Lemma decode_encode_digit n :
  (0 ≤ n < 64)%Z → decode_digit (encode_digit n) = Some n ∧ is_newline (encode_digit n) = false ∧
    encode_digit n ≠ padding.
Proof.
  intros Hn. assert (∀ m, m < 64 → decode_digit (encode_digit (Z.of_nat m)) = Some (Z.of_nat m) ∧
    is_newline (encode_digit (Z.of_nat m)) = false ∧ encode_digit (Z.of_nat m) ≠ padding) as H.
  { intros m Hm. do 64 (destruct m as [|m]; [by vm_compute|]). lia. }
  specialize (H (Z.to_nat n)). rewrite Z2Nat.id in H by lia. apply H. lia.
Qed.

Lemma padding_not_digit : decode_digit padding = None ∧ is_newline padding = false.
Proof. by vm_compute. Qed.

Ltac div_mod := Z.to_euclidean_division_equations; lia.

Lemma quantum_digits val :
  (0 ≤ val < 16777216)%Z → quantum (digit 3 val) (digit 2 val) (digit 1 val) (digit 0 val) = val.
Proof.
  intros Hv. unfold quantum, digit. change (64 ^ 3)%Z with 262144%Z. change (64 ^ 2)%Z with 4096%Z.
  change (64 ^ 1)%Z with 64%Z. change (64 ^ 0)%Z with 1%Z. div_mod.
Qed.

Lemma low_digits a b :
  (0 ≤ a < 256)%Z → (0 ≤ b < 256)%Z →
  digit 0 (a * 65536 + b * 256) = 0%Z ∧ digit 0 (a * 65536) = 0%Z ∧ digit 1 (a * 65536) = 0%Z.
Proof.
  intros Ha Hb. unfold digit. change (64 ^ 1)%Z with 64%Z. change (64 ^ 0)%Z with 1%Z. split_and!; div_mod.
Qed.

Lemma nth_bytes a b c :
  let val := (code a * 65536 + code b * 256 + code c)%Z in
  nth_byte 2 val = a ∧ nth_byte 1 val = b ∧ nth_byte 0 val = c.
Proof.
  pose proof (code_range a). pose proof (code_range b). pose proof (code_range c). simpl. unfold nth_byte.
  change (256 ^ 2)%Z with 65536%Z. change (256 ^ 1)%Z with 256%Z. change (256 ^ 0)%Z with 1%Z.
  split_and!; (etrans; [|apply byte_of_code]); f_equal; div_mod.
Qed.

Definition zero_byte : Ascii.ascii := byte_of 0.

Lemma triple_ind (P : list Ascii.ascii → Prop) :
  P [] → (∀ a, P [a]) → (∀ a b, P [a; b]) → (∀ a b c l, P l → P (a :: b :: c :: l)) → ∀ l, P l.
Proof.
  intros H0 H1 H2 H3 l. enough (P l ∧ (∀ a, P (a :: l)) ∧ (∀ a b, P (a :: b :: l))) by tauto.
  induction l as [|x l (IH0 & IH1 & IH2)]; split_and!; eauto.
Qed.

Lemma decode_encode l : decode (encode l) = Some l.
Proof.
  induction l as [|a|a b|a b c l IH] using triple_ind; [done|..]; cbn [encode decode].
  - set (val := (code a * 65536)%Z). pose proof (code_range a).
    rewrite !(proj1 (decode_encode_digit _ (digit_range _ _))), (proj1 padding_not_digit).
    rewrite bool_decide_eq_true_2 by done.
    destruct (low_digits (code a) 0) as (_ & E0 & E1); [done|lia|]. fold val in E0, E1.
    rewrite <- E0 at 2. rewrite <- E1 at 1. rewrite quantum_digits by (unfold val; lia).
    destruct (nth_bytes a zero_byte zero_byte) as (N1 & _). unfold val.
    do 2 f_equal. rewrite <- N1 at 2. f_equal. change (code zero_byte) with 0%Z. lia.
  - set (val := (code a * 65536 + code b * 256)%Z). pose proof (code_range a). pose proof (code_range b).
    rewrite !(proj1 (decode_encode_digit _ (digit_range _ _))), (proj1 padding_not_digit).
    rewrite bool_decide_eq_true_2 by done.
    destruct (low_digits (code a) (code b)) as (E0 & _); [done..|]. fold val in E0.
    rewrite <- E0. rewrite quantum_digits by (unfold val; lia).
    destruct (nth_bytes a b zero_byte) as (N1 & N2 & _). unfold val.
    change (code zero_byte) with 0%Z in *. rewrite Z.add_0_r in N1, N2. by rewrite N1, N2.
  - set (val := (code a * 65536 + code b * 256 + code c)%Z).
    pose proof (code_range a). pose proof (code_range b). pose proof (code_range c).
    rewrite !(proj1 (decode_encode_digit _ (digit_range _ _))). rewrite quantum_digits by (unfold val; lia).
    destruct (nth_bytes a b c) as (N1 & N2 & N3). fold val in N1, N2, N3. by rewrite IH, N1, N2, N3.
Qed.

Lemma encode_no_newline l : Forall (λ c, is_newline c = false) (encode l).
Proof.
  induction l as [|a|a b|a b c l IH] using triple_ind; cbn [encode]; repeat constructor; try done;
    apply decode_encode_digit, digit_range.
Qed.

Lemma filter_Forall_id {A} (P : A → Prop) `{∀ x, Decision (P x)} l : Forall P l → base.filter P l = l.
Proof. induction 1 as [|x l Hx _ IH]; [done|]. by rewrite filter_cons_True, IH. Qed.

Lemma DecodeString_EncodeToString s : DecodeString (EncodeToString s) = Some s.
Proof.
  unfold DecodeString, EncodeToString. rewrite String.list_ascii_of_string_of_list_ascii.
  rewrite filter_Forall_id by apply encode_no_newline.
  rewrite decode_encode. simpl. by rewrite String.string_of_list_ascii_of_string.
Qed.

End base64.

(** ** The scorer *)

Definition sessionTokenHeader : string := "x-session-token".

(** [NamespacedName.String()]. *)
Definition nn_String (n : NamespacedName) : string := nn_Namespace n +:+ "/" +:+ nn_Name n.

(** The pod that the request's session token names; a token that cannot be decoded names
    none. *)
Definition session_pod (request : InferenceRequest) : string :=
  let sessionToken := default ""%string (ir_Headers request !! sessionTokenHeader) in
  if bool_decide (sessionToken ≠ ""%string) then default ""%string (base64.DecodeString sessionToken) else "".

Definition session_score (podName : string) (endpoint : Endpoint) : float64 :=
  if bool_decide (nn_String (md_NamespacedName (ep_Metadata endpoint)) = podName) then fone else fzero.

Definition SessionAffinity_Score (request : InferenceRequest) (endpoints : list Endpoint) : CM Scores :=
  mret (scores_of (session_score (session_pod request)) endpoints).
Definition SessionAffinity : Scorer := mkScorer SessionAffinity_Score.

(** [requestcontrol.Response]: whether the stream ends, and its headers; a nil map of
    headers is empty. *)
Record Response := mkResponse { rs_EndOfStream : bool; rs_Headers : gmap string string }.

(** The end of the stream is read before the response is compared with nil. *)
Definition ResponseBody (response : option Response) (targetPod : option EndpointMetadata)
    : option (option Response) :=
  match response with
  | None => None
  | Some resp =>
      if negb (rs_EndOfStream resp) then Some response
      else
        match targetPod with
        | None => Some response
        | Some pod =>
            Some (Some (mkResponse (rs_EndOfStream resp)
              (<[sessionTokenHeader := base64.EncodeToString (nn_String (md_NamespacedName pod))]> (rs_Headers resp))))
        end
  end.

#[export] Instance SessionAffinity_lawful : LawfulScorer SessionAffinity.
Proof.
  intros r eps cs _. apply wp_ret, scores_of_ok. intros ep _. unfold session_score.
  case_bool_decide; [apply unit_one|apply unit_zero].
Qed.

Lemma encode_nonempty s : s ≠ ""%string → base64.EncodeToString s ≠ ""%string.
Proof.
  destruct s as [|a s]; [done|]. unfold base64.EncodeToString. simpl.
  by destruct (String.list_ascii_of_string s) as [|b [|c l]].
Qed.

Lemma nn_String_nonempty n : nn_String n ≠ ""%string.
Proof. unfold nn_String. by destruct (nn_Namespace n). Qed.

(** Session affinity is a round trip. If the last chunk of a response from a pod passes
    through the plugin, and a later request carries the session token of that response,
    then the scorer gives one to the endpoints of that pod and zero to all others, for any
    pod name and whatever other headers there are. *)
Theorem session_returns (resp resp' : Response) (pod : EndpointMetadata) (request : InferenceRequest)
    (endpoints : list Endpoint) (cs : CycleState)
    (Hend : rs_EndOfStream resp = true) (Hresp : ResponseBody (Some resp) (Some pod) = Some (Some resp'))
    (Htoken : ir_Headers request !! sessionTokenHeader = rs_Headers resp' !! sessionTokenHeader)
    (Hnd : NoDup (ep_ptrs endpoints)) :
  ∃ scores, sc_Score SessionAffinity request endpoints cs = Some (scores, cs) ∧
    ∀ ep, ep ∈ endpoints → scores !! ep_ptr ep =
      Some (ep, if bool_decide (nn_String (md_NamespacedName (ep_Metadata ep)) = nn_String (md_NamespacedName pod))
                then fone else fzero).
Proof.
  unfold ResponseBody in Hresp. rewrite Hend in Hresp. simpl in Hresp. injection Hresp as <-. simpl in Htoken.
  rewrite lookup_insert_eq in Htoken. eexists. split; [done|]. intros ep Hep.
  rewrite scores_of_lookup by done. unfold session_score, session_pod. rewrite Htoken. simpl.
  rewrite (bool_decide_eq_true_2 (base64.EncodeToString _ ≠ _)) by apply encode_nonempty, nn_String_nonempty.
  by rewrite base64.DecodeString_EncodeToString.
Qed.

Lemma session_returns_witness :
  ∃ scores, sc_Score SessionAffinity
      (ir_with_headers {[ sessionTokenHeader := base64.EncodeToString "default/b" ]} sample_request)
      [sample_endpoint 1 "a"; sample_endpoint 2 "b"] ∅ = Some (scores, ∅) ∧
    scores !! 1%positive = Some (sample_endpoint 1 "a", fzero) ∧
    scores !! 2%positive = Some (sample_endpoint 2 "b", fone).
Proof.
  destruct (session_returns (mkResponse true ∅)
    (mkResponse true {[ sessionTokenHeader := base64.EncodeToString "default/b" ]}) (sample_meta "b")
    (ir_with_headers {[ sessionTokenHeader := base64.EncodeToString "default/b" ]} sample_request)
    [sample_endpoint 1 "a"; sample_endpoint 2 "b"] ∅) as (scores & Hrun & Hs).
  - reflexivity.
  - vm_compute. reflexivity.
  - reflexivity.
  - simpl. repeat constructor; set_solver.
  - exists scores. split; [exact Hrun|]. split.
    + apply (Hs (sample_endpoint 1 "a")). apply list_elem_of_here.
    + apply (Hs (sample_endpoint 2 "b")). apply list_elem_of_further, list_elem_of_here.
Defined.

(** A nil response is dereferenced although the code means to skip it. *)
Lemma nil_response_panics targetPod : ResponseBody None targetPod = None.
Proof. done. Qed.
