(* ===== verification/ContextLength.v ===== *)
(** * Context length: [scorer/contextlengthaware]

    A filter and scorer for pods that are labelled with a range of context lengths. The
    length of a request's context is the number of its tokens if a tokenizer has written
    them to the cycle state, and otherwise an estimate from the number of characters. *)

From stdpp Require Import prelude gmap strings list sorting.
From Stdlib Require Import Lia Floats.SpecFloat Strings.Ascii.
From S2P Require Import Prelude FlowTypes Ordering Float64 FloatRound FloatOps SchedTypes Pickers SchedulerProfile Filters Scorers.

#[local] Open Scope go_scope.

Definition DefaultContextLengthLabel : string := "llm-d.ai/context-length-range".
Definition TokenizedPromptStateKey : string := "tokenizer.TokenizedPrompt".

Record contextRange := mkRange { cr_min : Z; cr_max : Z }.

(** [strings.Split(s, "-")], on lists of characters. *)
Fixpoint split_dash (s : list Ascii.ascii) : list (list Ascii.ascii) :=
  match s with
  | [] => [[]]
  | c :: s' =>
      match split_dash s' with
      | [] => [[c]]
      | part :: parts => if bool_decide (Ascii.nat_of_ascii c = 45) then [] :: part :: parts else (c :: part) :: parts
      end
  end.

(** [strconv.Atoi(strings.TrimSpace(s))]. *)
Definition Atoi (s : list Ascii.ascii) : option Z :=
  slodeadline.ParseInt (slodeadline.TrimSpace (String.string_of_list_ascii s)).

Definition parseContextRange (rangeStr : string) : contextRange + GoError :=
  if bool_decide (rangeStr = ""%string) then inr (ENew "empty range string")
  else
    match split_dash (String.list_ascii_of_string rangeStr) with
    | [b0; b1] =>
        match Atoi b0 with
        | None => inr (ENew "invalid min value")
        | Some minVal =>
            match Atoi b1 with
            | None => inr (ENew "invalid max value")
            | Some maxVal =>
                if bool_decide (maxVal < minVal)%Z then inr (ENew "min cannot be greater than max")
                else inl (mkRange minVal maxVal)
            end
        end
    | _ => inr (ENew "invalid range format")
    end.

(** ** Length of the context *)

Definition quarter : float64 := fdiv (of_int 1) (of_int 4).

Fixpoint raw_lengths (messages : list Message) : Z :=
  match messages with
  | [] => 0
  | m :: messages' => Z.of_nat (String.length (ct_Raw (ms_Content m))) + raw_lengths messages'
  end.

Definition estimateContextLength (request : InferenceRequest) : Z :=
  match ir_Body request with
  | None => 0
  | Some body =>
      let totalChars := match bd_ChatCompletions body with
                        | Some chat => raw_lengths (cc_Messages chat)
                        | None => 0%Z
                        end in
      let totalChars := match bd_Completions body with
                        | Some c => (totalChars + Z.of_nat (String.length (pr_Raw (cr_Prompt c))))%Z
                        | None => totalChars
                        end in
      to_int (fmul (of_int totalChars) quarter)
  end.

Definition getContextLength (cycleState : CycleState) (request : InferenceRequest) : Z :=
  match ir_Body request with
  | None => 0
  | Some _ =>
      match cycleState !! TokenizedPromptStateKey with
      | Some (SDTokenizedPrompt (t :: ts)) => Z.of_nat (length (t :: ts))
      | _ => estimateContextLength request
      end
  end.

(** ** Scores *)

Definition maxFallbackScore : float64 := fdiv (of_int 3) (of_int 10).
Definition seven_tenths : float64 := fdiv (of_int 7) (of_int 10).

Definition in_range (contextLength : Z) (r : contextRange) : Prop := (cr_min r ≤ contextLength ≤ cr_max r)%Z.
#[export] Instance in_range_dec n r : Decision (in_range n r).
Proof. unfold in_range. apply _. Defined.

Definition calculateRangeScore (contextLength : Z) (r : contextRange) : float64 :=
  if decide (in_range contextLength r) then
    let rangeWidth := Int.i64 (cr_max r - cr_min r) in
    if bool_decide (rangeWidth = 0)%Z then fone
    else
      let widthScore := fdiv fone (fadd fone (fdiv (of_int rangeWidth) (of_int 10000))) in
      let headroom := of_int (Int.i64 (cr_max r - contextLength)) in
      let positionScore := fdiv headroom (of_int rangeWidth) in
      let rawScore := fadd (fmul seven_tenths widthScore) (fmul maxFallbackScore positionScore) in
      fadd maxFallbackScore (fmul rawScore seven_tenths)
  else
    let distance := if bool_decide (cr_max r < contextLength)%Z then Int.i64 (contextLength - cr_max r)
                    else Int.i64 (cr_min r - contextLength) in
    fdiv maxFallbackScore (fadd fone (fdiv (of_int distance) (of_int 1000))).

(** ** The plugin *)

Section plugin.
Context (labelName : string) (enableFiltering : bool).

Definition context_keeps (contextLength : Z) (endpoint : Endpoint) : bool :=
  match md_Labels (ep_Metadata endpoint) !! labelName with
  | None => true
  | Some rangeStr =>
      match parseContextRange rangeStr with
      | inr _ => false
      | inl r => bool_decide (in_range contextLength r)
      end
  end.

Definition ContextLengthAware_Filter (_ : Draws) (request : InferenceRequest) (endpoints : list Endpoint)
    : CM (list Endpoint) :=
  if negb enableFiltering then mret endpoints
  else
    contextLength ← gets (λ cs, getContextLength cs request);
    mret (base.filter (λ ep, context_keeps contextLength ep = true) endpoints).

Definition context_score (contextLength : Z) (endpoint : Endpoint) : float64 :=
  match md_Labels (ep_Metadata endpoint) !! labelName with
  | None => half
  | Some rangeStr =>
      match parseContextRange rangeStr with
      | inr _ => fzero
      | inl r => calculateRangeScore contextLength r
      end
  end.

Definition ContextLengthAware_Score (request : InferenceRequest) (endpoints : list Endpoint) : CM Scores :=
  contextLength ← gets (λ cs, getContextLength cs request);
  mret (scores_of (context_score contextLength) endpoints).

Definition ContextLengthAware : SchedPlugin :=
  mkSchedPlugin (Some (mkFilter ContextLengthAware_Filter)) (Some (mkScorer ContextLengthAware_Score)) None.
End plugin.

(** ** The two tiers of scores *)

Lemma unit_fallback : unit_range maxFallbackScore.
Proof. apply ratio_unit; lia. Qed.
Lemma unit_seven : unit_range seven_tenths.
Proof. apply ratio_unit; lia. Qed.

(** A blend of two numbers of the unit interval. *)
Lemma blend_unit a b x y :
  unit_range a → unit_range b → unit_range x → unit_range y → fle (fadd a b) fone = true →
  unit_range (fadd (fmul a x) (fmul b y)).
Proof.
  intros Ha Hb Hx Hy Hab.
  pose proof (fmul_unit a x Ha Hx) as Hax. pose proof (fmul_unit b y Hb Hy) as Hby.
  apply nonneg_inf_unit; [apply fadd_nonneg_inf; [left; apply Hax|apply Hby]|].
  eapply fle_trans; [|exact Hab].
  apply fadd_mono; [left; apply Hax|left; apply Ha|apply Hby|apply Hb|by apply fmul_unit_le; [apply Ha|]|
    by apply fmul_unit_le; [apply Hb|]].
Qed.

Lemma in_range_score n r :
  (0 ≤ cr_min r)%Z → (cr_max r < Int.two63)%Z → in_range n r →
  unit_range (calculateRangeScore n r) ∧ fle maxFallbackScore (calculateRangeScore n r) = true.
Proof.
  intros H0 H1 Hin. unfold calculateRangeScore. rewrite decide_True by done. unfold in_range, Int.two63 in *.
  rewrite !Int.i64_small by (unfold Int.two63; lia). case_bool_decide as Hw; [split; [apply unit_one|by vm_compute]|].
  destruct (one_plus_positive (cr_max r - cr_min r) 10000) as [Hp Hge]; [lia..|].
  destruct (fdiv_large fone _ unit_one Hp Hge) as [Hws _]. fold (one_plus (cr_max r - cr_min r) 10000).
  set (ws := fdiv fone (one_plus _ _)) in *.
  assert (unit_range (fdiv (of_int (cr_max r - n)) (of_int (cr_max r - cr_min r)))) as Hps by (apply ratio_unit; lia).
  set (ps := fdiv (of_int (cr_max r - n)) _) in *.
  pose proof (blend_unit seven_tenths maxFallbackScore ws ps unit_seven unit_fallback Hws Hps ltac:(by vm_compute)) as Hraw.
  set (raw := fadd (fmul _ ws) _) in *. pose proof (fmul_unit raw seven_tenths Hraw unit_seven) as Hm. split.
  - apply nonneg_inf_unit; [apply fadd_nonneg_inf; [left; apply unit_fallback|apply Hm]|].
    eapply (fle_trans _ (fadd maxFallbackScore seven_tenths)); [|by vm_compute].
    apply fadd_mono; [left; apply unit_fallback|left; apply unit_fallback|apply Hm|apply unit_seven|by vm_compute|].
    eapply (fle_trans _ (fmul fone seven_tenths)); [|by vm_compute].
    apply fmul_mono_l; [apply Hraw|apply unit_one|apply unit_seven|by apply unit_range_le].
  - apply fadd_grows; [left; apply unit_fallback|left; apply unit_fallback|apply Hm|by vm_compute].
Qed.

Lemma out_of_range_score n r :
  (0 ≤ n < Int.two63)%Z → (0 ≤ cr_min r ≤ cr_max r)%Z → (cr_max r < Int.two63)%Z → ¬ in_range n r →
  unit_range (calculateRangeScore n r) ∧ flt (calculateRangeScore n r) maxFallbackScore = true.
Proof.
  intros Hn H0 H1 Hout. unfold calculateRangeScore. rewrite decide_False by done. unfold in_range, Int.two63 in *.
  set (d := if bool_decide _ then _ else _).
  assert (1 ≤ d < 2 ^ 63)%Z as Hd.
  { unfold d. case_bool_decide; rewrite Int.i64_small by (unfold Int.two63; lia); lia. }
  fold (one_plus d 1000). destruct (one_plus_positive d 1000) as [Hp Hge]; [lia..|].
  destruct (fdiv_large maxFallbackScore _ unit_fallback Hp Hge) as [Hu _]. split; [done|].
  eapply (flt_le_trans _ (fdiv maxFallbackScore (one_plus 1 1000))); [|by vm_compute].
  apply fdiv_anti_le; [apply unit_fallback|apply one_plus_positive; lia|done|apply one_plus_mono; lia].
Qed.

(** ** Labels *)

Definition no_dash (s : list Ascii.ascii) : Prop := Forall (λ c, Ascii.nat_of_ascii c ≠ 45) s.

Lemma split_dash_nonempty s : split_dash s ≠ [].
Proof. destruct s as [|c s]; simpl; [done|]. destruct (split_dash s); [done|]. by case_bool_decide. Qed.

Lemma split_dash_parts s : Forall no_dash (split_dash s).
Proof.
  induction s as [|c s IH]; simpl; [repeat constructor|]. pose proof (split_dash_nonempty s) as Hne.
  destruct (split_dash s) as [|part parts]; [done|]. case_bool_decide as Hc; [by constructor; [constructor|]|].
  apply Forall_cons in IH as [Hp Hps]. constructor; [by constructor|done].
Qed.

Lemma drop_spaces_Forall (P : Ascii.ascii → Prop) s : Forall P s → Forall P (slodeadline.drop_spaces s).
Proof. induction 1 as [|c s Hc Hs IH]; simpl; [done|]. destruct (slodeadline.is_space c); [done|by constructor]. Qed.

Lemma TrimSpace_no_dash s : no_dash s → no_dash (slodeadline.TrimSpace (String.string_of_list_ascii s)).
Proof.
  intros Hs. unfold slodeadline.TrimSpace. rewrite String.list_ascii_of_string_of_list_ascii.
  apply Forall_rev, drop_spaces_Forall, Forall_rev, drop_spaces_Forall, Hs.
Qed.

Lemma parse_digits_nonneg s : ∀ acc z,
  (0 ≤ acc)%Z → slodeadline.parse_digits acc s = Some z → (0 ≤ z)%Z.
Proof.
  induction s as [|c s IH]; intros acc z Hacc; simpl; [by intros [= <-]|].
  destruct (slodeadline.digit c) as [d|] eqn:E; [|done]. simpl. apply IH.
  unfold slodeadline.digit in E. case_bool_decide; [|done]. injection E as <-. lia.
Qed.

Lemma unsigned_range s z :
  slodeadline.parse_digits 0 s ≫= (λ un, if bool_decide (un < Int.two63)%Z then Some un else None) = Some z →
  (0 ≤ z < Int.two63)%Z.
Proof.
  destruct (slodeadline.parse_digits 0 s) as [un|] eqn:E; [|done]. simpl.
  apply parse_digits_nonneg in E; [|done]. case_bool_decide; [|done]. intros [= <-]. lia.
Qed.

Lemma ParseInt_nonneg s z : no_dash s → slodeadline.ParseInt s = Some z → (0 ≤ z < Int.two63)%Z.
Proof.
  intros Hs. unfold slodeadline.ParseInt.
  destruct s as [|c s]; [done|]. apply Forall_cons in Hs as [Hc _].
  assert (c ≠ "-"%char) as Hne by (intros ->; by vm_compute in Hc).
  rewrite (bool_decide_eq_false_2 (c = "-"%char)) by done.
  case_bool_decide; [destruct s as [|c' s]; [done|]|]; apply unsigned_range.
Qed.

(** A label that is accepted is a range of non-negative numbers. *)
Lemma parsed_range s r :
  parseContextRange s = inl r → (0 ≤ cr_min r ≤ cr_max r)%Z ∧ (cr_max r < Int.two63)%Z.
Proof.
  unfold parseContextRange. case_bool_decide; [done|].
  pose proof (split_dash_parts (String.list_ascii_of_string s)) as Hd.
  destruct (split_dash _) as [|b0 [|b1 [|]]]; try done.
  apply Forall_cons in Hd as [H0 Hd]. apply Forall_cons in Hd as [H1 _].
  destruct (Atoi b0) as [mn|] eqn:E0; [|done]. destruct (Atoi b1) as [mx|] eqn:E1; [|done].
  apply ParseInt_nonneg in E0; [|by apply TrimSpace_no_dash]. apply ParseInt_nonneg in E1; [|by apply TrimSpace_no_dash].
  case_bool_decide; [done|]. intros [= <-]. simpl. lia.
Qed.

(** ** Laws *)

#[export] Instance ContextLengthAware_filter_lawful labelName b :
  LawfulFilter (mkFilter (ContextLengthAware_Filter labelName b)).
Proof.
  intros d r eps cs _. simpl. unfold ContextLengthAware_Filter. destruct b; simpl; [|by apply wp_ret].
  apply wp_bind, wp_gets, wp_ret, filter_submseteq.
Qed.

Lemma context_score_unit labelName n ep :
  (0 ≤ n < Int.two63)%Z → unit_range (context_score labelName n ep).
Proof.
  intros Hn. unfold context_score. destruct (md_Labels (ep_Metadata ep) !! labelName) as [s|]; [|apply unit_half].
  destruct (parseContextRange s) as [r|] eqn:E; [|apply unit_zero]. apply parsed_range in E as [H1 H2].
  destruct (decide (in_range n r)); [by apply in_range_score; [lia|..]|by apply out_of_range_score].
Qed.

(** A pod that is labelled for the request's context length always outscores one that
    is labelled for another. Whatever the two ranges are, however wide the matching one
    and however close the other, the scores are between zero and one and the matching
    pod's is strictly higher, in [float64] arithmetic. With filtering enabled only pods
    whose range matches, or that have no label, are kept. *)
Theorem matching_range_wins (labelName : string) (request : InferenceRequest) (endpoints : list Endpoint)
    (cs : CycleState) (a b : Endpoint) (la lb : string) (ra rb : contextRange) (d : Draws)
    (Hn : (0 ≤ getContextLength cs request < Int.two63)%Z) (Hnd : NoDup (ep_ptrs endpoints))
    (Ha : a ∈ endpoints) (Hb : b ∈ endpoints)
    (Hla : md_Labels (ep_Metadata a) !! labelName = Some la) (Hra : parseContextRange la = inl ra)
    (Hlb : md_Labels (ep_Metadata b) !! labelName = Some lb) (Hrb : parseContextRange lb = inl rb)
    (Hin : in_range (getContextLength cs request) ra) (Hout : ¬ in_range (getContextLength cs request) rb) :
  (∃ scores va vb, ContextLengthAware_Score labelName request endpoints cs = Some (scores, cs) ∧
    scores !! ep_ptr a = Some (a, va) ∧ scores !! ep_ptr b = Some (b, vb) ∧
    unit_range va ∧ unit_range vb ∧ flt vb va = true) ∧
  ∃ out, ContextLengthAware_Filter labelName true d request endpoints cs = Some (out, cs) ∧ a ∈ out ∧ b ∉ out.
Proof.
  destruct (parsed_range _ _ Hra) as [Ra1 Ra2]. destruct (parsed_range _ _ Hrb) as [Rb1 Rb2].
  set (n := getContextLength cs request) in *.
  destruct (in_range_score n ra) as [Ua Fa]; [lia|done..|].
  destruct (out_of_range_score n rb) as [Ub Fb]; [done..|]. split.
  - eexists _, (calculateRangeScore n ra), (calculateRangeScore n rb). split; [done|].
    rewrite !scores_of_lookup by done. unfold context_score. rewrite Hla, Hra, Hlb, Hrb.
    split_and!; [done..|]. by eapply flt_fle_trans.
  - eexists. split; [done|]. fold n. rewrite !list_elem_of_filter. unfold context_keeps.
    rewrite Hla, Hra, Hlb, Hrb, bool_decide_eq_true_2, bool_decide_eq_false_2 by done. split; [done|]. by intros [? _].
Qed.

Definition labelled_endpoint (ptr : positive) (range : string) : Endpoint :=
  mkEndpoint ptr (mkMetadata (mkNamespacedName "default" range) range "10.0.0.1" "8000" ""
    {[ DefaultContextLengthLabel := range ]}) NewMetrics ∅.

Definition chat_request (text : string) : InferenceRequest :=
  mkInferenceRequest "r1" "llama"
    (Some (mkBody None (Some (mkChat [mkMessage "user" (mkContent text None)] [] [] "" false false false [] "")) None None None None false)) ∅ 0 0.

Lemma matching_range_wins_witness :
  ∃ scores va vb, ContextLengthAware_Score DefaultContextLengthLabel (chat_request "a prompt of some length")
      [labelled_endpoint 1 "5-32768"; labelled_endpoint 2 "0-4"] ∅ = Some (scores, ∅) ∧
    scores !! 1%positive = Some (labelled_endpoint 1 "5-32768", va) ∧
    scores !! 2%positive = Some (labelled_endpoint 2 "0-4", vb) ∧ flt vb va = true.
Proof.
  destruct (matching_range_wins DefaultContextLengthLabel (chat_request "a prompt of some length")
    [labelled_endpoint 1 "5-32768"; labelled_endpoint 2 "0-4"] ∅ (labelled_endpoint 1 "5-32768")
    (labelled_endpoint 2 "0-4") "5-32768" "0-4" (mkRange 5 32768) (mkRange 0 4) sample_draws)
    as [(scores & va & vb & H1 & H2 & H3 & _ & _ & H4) _].
  - vm_compute. split; [discriminate|reflexivity].
  - simpl. repeat constructor; set_solver.
  - apply list_elem_of_here.
  - apply list_elem_of_further, list_elem_of_here.
  - reflexivity.
  - vm_compute. reflexivity.
  - reflexivity.
  - vm_compute. reflexivity.
  - vm_compute. split; discriminate.
  - vm_compute. intros [_ H]. by destruct H.
  - exists scores, va, vb. split; [exact H1|]. split; [exact H2|]. split; [exact H3|exact H4].
Defined.

(** A chat request whose messages are lists of blocks counts as empty. *)
Lemma structured_content_not_counted blocks role :
  estimateContextLength (mkInferenceRequest "r1" "llama"
    (Some (mkBody None (Some (mkChat [mkMessage role (mkContent "" (Some blocks))] [] [] "" false false false [] "")) None None None None false)) ∅ 0 0) = 0%Z.
Proof. done. Qed.
