(* ===== verification/Scheduler.v ===== *)
(** * The scheduler: [scheduling/scheduler.go], [scheduler_config.go]

    A scheduling cycle lets its profile handler pick profiles, runs them, and repeats until
    the handler picks none; then the handler turns the results into a decision. The map of
    results is shared with the handler, which may add entries to it, so [ph_Pick] returns
    it. A profile of the picked map may be nil. [Schedule] takes a bound on the number of
    rounds; [LawfulHandler] states what a handler has to promise for the number of
    profiles to be such a bound. *)

From stdpp Require Import prelude gmap strings list sorting.
From Stdlib Require Import Lia.
From S2P Require Import Prelude FlowTypes Float64 FloatRound FloatOps ArrayHeap SchedTypes Pickers SchedulerProfile.

#[local] Open Scope go_scope.

(** A failed run has a nil result; otherwise the result is its target endpoints. *)
Abbreviation ProfileRunResult := (option (list Endpoint)).
Abbreviation Results := (gmap string ProfileRunResult).
Abbreviation Profiles := (gmap string SchedulerProfile).

Record SchedulingResult := mkSchedulingResult {
  sr_ProfileResults : Results;
  sr_PrimaryProfileName : string
}.

(** [ProcessResults] may set request headers and may allocate endpoints; the addresses of
    new endpoints are an argument. *)
Record ProfileHandler := mkProfileHandler {
  ph_Pick : InferenceRequest → Profiles → Results → CM (gmap string (option SchedulerProfile) * Results);
  ph_ProcessResults : (nat → positive) → InferenceRequest → Results →
    CM ((SchedulingResult + GoError) * InferenceRequest)
}.

Record Scheduler := mkScheduler { sd_profileHandler : ProfileHandler; sd_profiles : Profiles }.

(** What the runtime chooses: the enumeration of the picked map and the draws of each run,
    per round, and the addresses of new objects. *)
Record CycleDraws := mkCycleDraws {
  cd_order : nat → nat → nat;
  cd_run : nat → string → RunDraws;
  cd_alloc : nat → positive
}.

Fixpoint run_profiles (profiles : list (string * option SchedulerProfile)) (draws : string → RunDraws)
    (request : InferenceRequest) (candidateEndpoints : list Endpoint) (profileRunResults : Results)
    : CM Results :=
  match profiles with
  | [] => mret profileRunResults
  | (name, profile) :: profiles' =>
      match profile with
      | None => panic
      | Some profile =>
          res ← Run profile (draws name) request candidateEndpoints;
          run_profiles profiles' draws request candidateEndpoints
            (<[name := match res with inl targets => Some targets | inr _ => None end]> profileRunResults)
      end
  end.

(** [None] if the rounds do not suffice. *)
Fixpoint schedule_loop (fuel : nat) (round : nat) (cd : CycleDraws) (s : Scheduler) (request : InferenceRequest)
    (candidateEndpoints : list Endpoint) (profileRunResults : Results) : CM (option Results) :=
  match fuel with
  | 0 => mret None
  | S fuel' =>
      picked ← ph_Pick (sd_profileHandler s) request (sd_profiles s) profileRunResults;
      if bool_decide (size picked.1 = 0) then mret (Some picked.2)
      else
        profileRunResults ← run_profiles (shuffle (cd_order cd round) (map_to_list picked.1)) (cd_run cd round)
          request candidateEndpoints picked.2;
        schedule_loop fuel' (S round) cd s request candidateEndpoints profileRunResults
  end.

Definition errNoProfile : GoError := ENew "failed to run any scheduler profile".

Definition schedule_cycle (fuel : nat) (cd : CycleDraws) (s : Scheduler) (request : InferenceRequest)
    (candidateEndpoints : list Endpoint) : CM (option ((SchedulingResult + GoError) * InferenceRequest)) :=
  results ← schedule_loop fuel 0 cd s request candidateEndpoints ∅;
  match results with
  | None => mret None
  | Some profileRunResults =>
      if bool_decide (size profileRunResults = 0) then mret (Some (inr errNoProfile, request))
      else
        decision ← ph_ProcessResults (sd_profileHandler s) (cd_alloc cd) request profileRunResults;
        mret (Some decision)
  end.

(** The decision and the request with its headers; every cycle has a cycle state of its
    own. The outer [None] is a panic, the inner one a lack of rounds. *)
Definition Schedule (fuel : nat) (cd : CycleDraws) (s : Scheduler) (request : InferenceRequest)
    (candidateEndpoints : list Endpoint) : option (option ((SchedulingResult + GoError) * InferenceRequest)) :=
  fst <$> schedule_cycle fuel cd s request candidateEndpoints NewCycleState.

(** ** What the scheduler relies on *)

Definition lawful_profile (p : SchedulerProfile) : Prop :=
  Forall LawfulFilter (pf_filters p) ∧ Forall (LawfulScorer ∘ ws_Scorer) (pf_scorers p) ∧
  ∃ n picker, pf_picker p = Some picker ∧ LawfulPicker n picker.

(** Results of successful runs have targets. *)
Definition results_served (results : Results) : Prop :=
  ∀ name targets, results !! name = Some (Some targets) → targets ≠ [].

(** The same pod, perhaps with another port. *)
Definition same_pod (a b : Endpoint) : Prop :=
  md_NamespacedName (ep_Metadata a) = md_NamespacedName (ep_Metadata b) ∧
  md_Address (ep_Metadata a) = md_Address (ep_Metadata b) ∧
  md_Labels (ep_Metadata a) = md_Labels (ep_Metadata b).

(** A handler picks configured profiles, each time one that has no result yet, keeps the
    results that it is given, and decides for targets of successful runs. *)
Record pick_ok (profiles : Profiles) (results : Results) (picked : gmap string (option SchedulerProfile))
    (results' : Results) : Prop := mkPickOk {
  pk_configured : ∀ name p, picked !! name = Some p → ∃ q, p = Some q ∧ profiles !! name = Some q;
  pk_keeps : dom results ⊆ dom results';
  pk_within : dom results' ⊆ dom profiles;
  pk_targets : ∀ name targets, results' !! name = Some (Some targets) → results !! name = Some (Some targets);
  pk_progress : picked ≠ ∅ → ∃ name, name ∈ dom picked ∧ name ∉ dom results'
}.

Record decision_ok (results : Results) (sr : SchedulingResult) : Prop := mkDecisionOk {
  do_primary : ∃ targets, sr_ProfileResults sr !! sr_PrimaryProfileName sr = Some (Some targets);
  do_targets : ∀ name targets, sr_ProfileResults sr !! name = Some (Some targets) →
    targets ≠ [] ∧ ∃ ran, results !! name = Some (Some ran) ∧ Forall2 same_pod targets ran
}.

Class LawfulHandler (profiles : Profiles) (h : ProfileHandler) : Prop := {
  handler_picks : ∀ request results cs, dom results ⊆ dom profiles → results_served results →
    wp (ph_Pick h request profiles results) (λ picked _, pick_ok profiles results picked.1 picked.2) cs;
  handler_decides : ∀ alloc request results cs, dom results ⊆ dom profiles → results_served results → results ≠ ∅ →
    wp (ph_ProcessResults h alloc request results)
      (λ decision _, match decision.1 with inl sr => decision_ok results sr | inr _ => True end) cs
}.

(** ** A cycle *)

(** Results hold distinct candidates. *)
Definition results_from (candidates : list Endpoint) (results : Results) : Prop :=
  ∀ name targets, results !! name = Some (Some targets) → targets ≠ [] ∧ targets ⊆+ candidates.

Lemma results_from_served candidates results : results_from candidates results → results_served results.
Proof. intros H name targets Hn. by apply H in Hn as [? _]. Qed.

Lemma run_ok p rd r candidates cs :
  lawful_profile p → Forall endpoint_ok candidates → NoDup (ep_ptrs candidates) →
  wp (Run p rd r candidates)
    (λ res _, match res with inl targets => targets ≠ [] ∧ targets ⊆+ candidates | inr _ => True end) cs.
Proof.
  intros (Hf & Hs & n & picker & Hp & Hl) Hok Hnd.
  eapply wp_mono; [by eapply run_spec|]. intros [targets|err] cs' (eps & cs1 & _ & Hsub & Hres); [|done].
  destruct Hres as (Hne & outs & scored & cs2 & _ & _ & _ & _ & Hsel).
  split; [by eapply selection_nonempty; [apply picker_positive|..]|].
  destruct Hsel as (rest & Hperm & _). trans eps; [|done]. rewrite <- Hperm. by apply submseteq_inserts_r.
Qed.

Section cycle.
Context (candidates : list Endpoint) (profiles : Profiles).
Hypothesis (Hok : Forall endpoint_ok candidates) (Hnd : NoDup (ep_ptrs candidates)).
Hypothesis (Hp : map_Forall (λ _, lawful_profile) profiles).

Lemma run_profiles_ok draws r l : ∀ results cs,
  (∀ name p, (name, p) ∈ l → ∃ q, p = Some q ∧ profiles !! name = Some q) →
  results_from candidates results →
  wp (run_profiles l draws r candidates results)
    (λ results' _, results_from candidates results' ∧ dom results' = dom results ∪ list_to_set l.*1) cs.
Proof using Hok Hnd Hp.
  induction l as [|[name p] l IH]; intros results cs Hl Hfrom; simpl.
  - apply wp_ret. split; [done|set_solver].
  - destruct (Hl name p) as (q & -> & Hq); [set_solver|]. apply wp_bind.
    eapply wp_mono; [apply run_ok; [by apply (Hp name)|done..]|]. intros res cs' Hres. simpl.
    eapply wp_mono; [apply IH|].
    + intros name' p' Hin. apply Hl. set_solver.
    + intros name' targets [[<- Hin]|[_ Hin]]%lookup_insert_Some; [|by apply Hfrom in Hin].
      destruct res; [by injection Hin as <-|done].
    + intros results' cs2 [H1 H2]. split; [done|]. rewrite H2, dom_insert_L. set_solver.
Qed.

Lemma picked_list_dom (order : nat → nat) (picked : gmap string (option SchedulerProfile)) :
  list_to_set (shuffle order (map_to_list picked)).*1 = dom picked.
Proof using Type.
  apply set_eq. intros name. rewrite elem_of_list_to_set, shuffle_perm, elem_of_dom, list_elem_of_fmap. split.
  - intros ([name' p] & -> & Hin%elem_of_map_to_list). by exists p.
  - intros [p Hin%elem_of_map_to_list]. by exists (name, p).
Qed.

Lemma schedule_loop_ok h cd r fuel : ∀ round results cs,
  LawfulHandler profiles h → dom results ⊆ dom profiles → results_from candidates results →
  size (dom profiles ∖ dom results) < fuel →
  wp (schedule_loop fuel round cd (mkScheduler h profiles) r candidates results)
    (λ res _, ∃ results', res = Some results' ∧ dom results' ⊆ dom profiles ∧
      results_from candidates results') cs.
Proof using Hok Hnd Hp.
  induction fuel as [|fuel IH]; intros round results cs Hh Hdom Hfrom Hfuel; [lia|]. cbn [schedule_loop].
  apply wp_bind. eapply wp_mono; [apply (handler_picks r results cs Hdom), (results_from_served _ _ Hfrom)|].
  intros [picked results'] cs' [Hconf Hkeep Hin Htg Hprog]. cbn [fst snd] in *.
  assert (results_from candidates results') as Hfrom' by (intros name targets Hn; exact (Hfrom _ _ (Htg _ _ Hn))).
  case_bool_decide as Hsz; [apply wp_ret; by exists results'|]. apply wp_bind.
  eapply wp_mono; [apply run_profiles_ok; [|done]|].
  { intros name p Hpl. rewrite shuffle_perm in Hpl. by apply Hconf, elem_of_map_to_list. }
  intros results2 cs2 [Hfrom2 Hdom2]. rewrite picked_list_dom in Hdom2.
  assert (dom picked ⊆ dom profiles) as Hpd.
  { intros name [p Hpn]%elem_of_dom. destruct (Hconf _ _ Hpn) as (q & _ & Hq). by apply elem_of_dom_2 in Hq. }
  apply IH; [done| |done|].
  - rewrite Hdom2. set_solver.
  - destruct Hprog as (name & H1 & H2); [by intros ->|].
    enough (size (dom profiles ∖ dom results2) < size (dom profiles ∖ dom results)) by lia.
    apply subset_size. rewrite Hdom2. set_solver.
Qed.
End cycle.

(** What a successful cycle decides, in terms of the candidates. *)
Record routed (candidates : list Endpoint) (sr : SchedulingResult) : Prop := mkRouted {
  rt_primary : ∃ targets, sr_ProfileResults sr !! sr_PrimaryProfileName sr = Some (Some targets);
  rt_targets : ∀ name targets, sr_ProfileResults sr !! name = Some (Some targets) →
    targets ≠ [] ∧ ∃ ran, ran ⊆+ candidates ∧ Forall2 same_pod targets ran
}.

Lemma schedule_routes (fuel : nat) (cd : CycleDraws) (h : ProfileHandler) (profiles : Profiles)
    (request : InferenceRequest) (candidates : list Endpoint)
    (Hh : LawfulHandler profiles h) (Hp : map_Forall (λ _, lawful_profile) profiles)
    (Hok : Forall endpoint_ok candidates) (Hnd : NoDup (ep_ptrs candidates)) (Hfuel : size profiles < fuel) :
  ∃ decision request',
    Schedule fuel cd (mkScheduler h profiles) request candidates = Some (Some (decision, request')) ∧
    match decision with inl sr => routed candidates sr | inr _ => True end.
Proof.
  assert (wp (schedule_cycle fuel cd (mkScheduler h profiles) request candidates)
    (λ res _, ∃ decision, res = Some decision ∧
      match decision.1 with inl sr => routed candidates sr | inr _ => True end) NewCycleState) as Hw.
  { unfold schedule_cycle. apply wp_bind. eapply wp_mono; [apply (schedule_loop_ok candidates profiles); try done|].
    { rewrite dom_empty_L, difference_empty_L, size_dom. done. }
    intros res cs (results & -> & Hdom & Hfrom). case_bool_decide as Hsz; [by apply wp_ret; eexists|].
    apply wp_bind. eapply wp_mono; [apply handler_decides; [done|by eapply results_from_served|by intros ->]|].
    intros [decision request'] cs' Hd. apply wp_ret. eexists. split; [done|]. simpl in *.
    destruct decision as [sr|]; [|done]. destruct Hd as [H1 H2]. split; [done|].
    intros name targets Hn. destruct (H2 _ _ Hn) as (Hne & ran & Hran & Hsame). split; [done|].
    exists ran. by apply Hfrom in Hran as [_ ?]. }
  apply wp_run in Hw as (res & cs & Hrun & [decision request'] & -> & Hd).
  exists decision, request'. split; [|done]. unfold Schedule. by rewrite Hrun.
Qed.

(** C15. A scheduling cycle terminates and routes to candidates. With a lawful handler,
    lawful profiles and distinct, well-formed candidates, and whatever the random draws,
    [Schedule] does not panic and needs at most one round more than there are profiles.
    It returns an error, or a decision whose primary profile has targets and in which
    every profile that has a result has at least one target, the targets being distinct
    candidates (up to a rewritten port). *)
Theorem schedule_terminates (fuel : nat) (cd : CycleDraws) (h : ProfileHandler) (profiles : Profiles)
    (request : InferenceRequest) (candidates : list Endpoint)
    (Hh : LawfulHandler profiles h) (Hp : map_Forall (λ _, lawful_profile) profiles)
    (Hok : Forall endpoint_ok candidates) (Hnd : NoDup (ep_ptrs candidates)) (Hfuel : size profiles < fuel) :
  ∃ decision request',
    Schedule fuel cd (mkScheduler h profiles) request candidates = Some (Some (decision, request')) ∧
    match decision with inl sr => routed candidates sr | inr _ => True end.
Proof. by apply schedule_routes. Qed.
