(* ===== verification/ActiveRequest.v ===== *)
(** * Active requests: [scorer/activerequest]

    The scorer counts, per pod, the requests that it sent there and that have not ended.
    The entry of a request lives in a cache with expiry, a third-party library, which is a
    parameter here with the behaviour that its documentation promises ([TtlCache]). An
    expired entry is handed to a callback that the library runs on its own, so the
    decrements of an eviction are separate steps. *)

From stdpp Require Import prelude gmap strings list sorting.
From Stdlib Require Import Lia Floats.SpecFloat.
From S2P Require Import Prelude FlowTypes Float64 FloatRound FloatOps SchedTypes Pickers SchedulerProfile Filters Scorers.
From S2P Require Import SessionAffinity Scheduler.

#[local] Open Scope go_scope.

(** ** The cache *)

(** The operations of [ttlcache] that the scorer uses, at a point in time, and the entries
    that a cache holds, expired ones that were not yet removed included. *)
Class TtlCache (C : Type) := {
  tc_items : C → gmap string (list string);
  tc_New : C;
  tc_Set : Z → string → list string → C → C;
  tc_GetAndDelete : Z → string → C → option (list string) * C;
  tc_DeleteExpired : Z → C → list (string * list string) * C
}.

Class TtlCacheLaws (C : Type) `{TtlCache C} : Prop := {
  (** A new cache is empty. *)
  tc_new : tc_items tc_New = ∅;
  (** [Set] adds the entry or replaces it. *)
  tc_set : ∀ now k v c, tc_items (tc_Set now k v c) = <[k := v]> (tc_items c);
  (** [GetAndDelete] removes the entry that it returns; it does not return expired ones. *)
  tc_get : ∀ now k c v c', tc_GetAndDelete now k c = (Some v, c') →
    tc_items c !! k = Some v ∧ tc_items c' = delete k (tc_items c);
  tc_get_none : ∀ now k c c', tc_GetAndDelete now k c = (None, c') → tc_items c' = tc_items c;
  (** [DeleteExpired] removes the expired entries and reports each of them. *)
  tc_expire : ∀ now c evicted c', tc_DeleteExpired now c = (evicted, c') →
    NoDup evicted.*1 ∧ (∀ k v, (k, v) ∈ evicted → tc_items c !! k = Some v) ∧
    tc_items c' = base.filter (λ kv, kv.1 ∉ evicted.*1) (tc_items c)
}.

(** ** The scorer's state *)

Record Parameters := mkParameters { pa_IdleThreshold : Z; pa_MaxBusyScore : float64 }.

Record Config := mkConfig { ac_idleThreshold : Z; ac_maxBusyScore : float64 }.

(** [NewActiveRequest]; nil parameters are [None]. *)
Definition NewActiveRequest (params : option Parameters) : Config :=
  mkConfig
    (match params with
     | Some p => if bool_decide (0 ≤ pa_IdleThreshold p)%Z then pa_IdleThreshold p else 0%Z
     | None => 0%Z
     end)
    (match params with
     | Some p => if fle fzero (pa_MaxBusyScore p) && fle (pa_MaxBusyScore p) fone then pa_MaxBusyScore p else fone
     | None => fone
     end).

(** [Factory] decodes into the zero value, so that absent fields are zero. *)
Definition Factory (rawParameters : option (option Z * option float64)) : Config :=
  match rawParameters with
  | None => NewActiveRequest (Some (mkParameters 0 fzero))
  | Some (idle, busy) => NewActiveRequest (Some (mkParameters (default 0%Z idle) (default fzero busy)))
  end.

Section active.
Context {C : Type} `{TtlCache C}.

(** The cache, the counts, and the pod names of evicted entries whose callback has not
    run. *)
Record State := mkState {
  ar_requestCache : C;
  ar_endpointCounts : gmap string Z;
  ar_evicted : list string
}.

Definition incrementPodCount (endpointName : string) (counts : gmap string Z) : gmap string Z :=
  <[endpointName := (default 0 (counts !! endpointName) + 1)%Z]> counts.

Definition decrementPodCount (endpointName : string) (counts : gmap string Z) : gmap string Z :=
  match counts !! endpointName with
  | Some count =>
      if bool_decide (count ≤ 1)%Z then delete endpointName counts
      else <[endpointName := (count - 1)%Z]> counts
  | None => counts
  end.

Definition pod_name (endpoint : Endpoint) : string := nn_String (md_NamespacedName (ep_Metadata endpoint)).

(** The first target of every profile that has one, in the order of the enumeration. *)
Definition target_names (order : nat → nat) (results : Results) : list string :=
  omap (λ kv : string * ProfileRunResult,
          match kv.2 with Some (target :: _) => Some (pod_name target) | _ => None end)
    (shuffle order (map_to_list results)).

Definition PreRequest (now : Z) (order : nat → nat) (request : InferenceRequest) (result : SchedulingResult)
    (s : State) : State :=
  let endpointNames := target_names order (sr_ProfileResults result) in
  mkState (tc_Set now (ir_RequestId request) endpointNames (ar_requestCache s))
    (foldl (λ counts name, incrementPodCount name counts) (ar_endpointCounts s) endpointNames) (ar_evicted s).

(** [resp.EndOfStream], and whether there is a target pod. *)
Definition ResponseBody (now : Z) (request : InferenceRequest) (endOfStream hasTarget : bool) (s : State) : State :=
  if negb endOfStream || negb hasTarget then s
  else
    match tc_GetAndDelete now (ir_RequestId request) (ar_requestCache s) with
    | (Some names, cache) =>
        mkState cache (foldl (λ counts name, decrementPodCount name counts) (ar_endpointCounts s) names) (ar_evicted s)
    | (None, cache) => mkState cache (ar_endpointCounts s) (ar_evicted s)
    end.

(** A tick of [cleanCachePeriodically]: the callbacks of the evicted entries are due. *)
Definition clean (now : Z) (s : State) : State :=
  let (evicted, cache) := tc_DeleteExpired now (ar_requestCache s) in
  mkState cache (ar_endpointCounts s) (ar_evicted s ++ concat evicted.*2).

(** One decrement of an eviction callback. *)
Definition callback (i : nat) (s : State) : State :=
  match ar_evicted s !! i with
  | Some name => mkState (ar_requestCache s) (decrementPodCount name (ar_endpointCounts s)) (delete i (ar_evicted s))
  | None => s
  end.

(** ** Scores *)

Definition max_count (counts : gmap string Z) : Z :=
  map_fold (λ _ count mx, if bool_decide (mx ≤ count)%Z then count else mx) 0%Z counts.

Definition active_score (c : Config) (counts : gmap string Z) (endpoint : Endpoint) : float64 :=
  match counts !! pod_name endpoint with
  | None => fone
  | Some count =>
      if bool_decide (count ≤ ac_idleThreshold c)%Z then fone
      else fmul (fdiv (of_int (Int.i64 (max_count counts - count))) (of_int (max_count counts))) (ac_maxBusyScore c)
  end.

Definition ActiveRequest_Score (c : Config) (s : State) (_ : InferenceRequest) (endpoints : list Endpoint)
    : CM Scores :=
  mret (scores_of (active_score c (ar_endpointCounts s)) endpoints).
Definition ActiveRequest (c : Config) (s : State) : Scorer := mkScorer (ActiveRequest_Score c s).

(** ** Runs *)

(** What happens to the scorer: requests start with an identifier that is not in use, end,
    expire, and callbacks run. *)
Inductive active_step : State → State → Prop :=
  | as_start now order request result s :
      ir_RequestId request ∉ dom (tc_items (ar_requestCache s)) →
      active_step s (PreRequest now order request result s)
  | as_chunk now request endOfStream hasTarget s :
      active_step s (ResponseBody now request endOfStream hasTarget s)
  | as_clean now s : active_step s (clean now s)
  | as_callback i s : active_step s (callback i s).

Definition initial : State := mkState tc_New ∅ [].
End active.
Arguments State C : clear implicits.

(** ** Counting *)

Definition occurrences (name : string) (names : list string) : Z :=
  Z.of_nat (length (base.filter (λ n, n = name) names)).

Definition count (name : string) (counts : gmap string Z) : Z := default 0%Z (counts !! name).

Definition positive_counts (counts : gmap string Z) : Prop := map_Forall (λ _ c, (0 < c)%Z) counts.

Lemma occurrences_nonneg name names : (0 ≤ occurrences name names)%Z.
Proof. unfold occurrences. lia. Qed.

Lemma occurrences_cons name n names :
  occurrences name (n :: names) = ((if decide (n = name) then 1 else 0) + occurrences name names)%Z.
Proof. unfold occurrences. rewrite filter_cons. destruct (decide (n = name)); simpl; lia. Qed.

Lemma occurrences_app name l k : occurrences name (l ++ k) = (occurrences name l + occurrences name k)%Z.
Proof. unfold occurrences. rewrite filter_app, length_app. lia. Qed.

Lemma occurrences_delete name names i n :
  names !! i = Some n →
  occurrences name names = ((if decide (n = name) then 1 else 0) + occurrences name (delete i names))%Z.
Proof.
  intros Hi. rewrite (delete_take_drop names i), occurrences_app.
  rewrite <- (take_drop_middle names i n Hi) at 1. rewrite occurrences_app, occurrences_cons. lia.
Qed.

Lemma increment_count n name counts :
  count name (incrementPodCount n counts) = (count name counts + if decide (n = name) then 1 else 0)%Z.
Proof.
  unfold count, incrementPodCount. destruct (decide (n = name)) as [->|Hne].
  - by rewrite lookup_insert_eq.
  - rewrite lookup_insert_ne by done. lia.
Qed.

Lemma increment_positive n counts : positive_counts counts → positive_counts (incrementPodCount n counts).
Proof.
  intros Hp. apply map_Forall_insert_2; [|done]. destruct (counts !! n) as [c|] eqn:E; simpl; [|lia].
  pose proof (Hp _ _ E). simpl in *. lia.
Qed.

Lemma increments_count names : ∀ counts,
  positive_counts counts →
  let counts' := foldl (λ counts name, incrementPodCount name counts) counts names in
  positive_counts counts' ∧ ∀ name, count name counts' = (count name counts + occurrences name names)%Z.
Proof.
  induction names as [|n names IH]; intros counts Hp; simpl.
  - split; [done|]. intros name. unfold occurrences. simpl. lia.
  - destruct (IH _ (increment_positive n _ Hp)) as [H1 H2]. split; [done|]. intros name.
    rewrite H2, increment_count, occurrences_cons. destruct (decide (n = name)); lia.
Qed.

Lemma decrement_count n name counts :
  positive_counts counts → (0 < count n counts)%Z →
  count name (decrementPodCount n counts) = (count name counts - if decide (n = name) then 1 else 0)%Z.
Proof.
  intros Hp Hn. unfold count, decrementPodCount in *. destruct (counts !! n) as [c|] eqn:E; simpl in Hn; [|lia].
  case_bool_decide; destruct (decide (n = name)) as [->|Hne].
  - rewrite lookup_delete_eq, E. simpl. lia.
  - rewrite lookup_delete_ne by done. lia.
  - rewrite lookup_insert_eq, E. simpl. lia.
  - rewrite lookup_insert_ne by done. lia.
Qed.

Lemma decrement_positive n counts : positive_counts counts → positive_counts (decrementPodCount n counts).
Proof.
  intros Hp. unfold decrementPodCount. destruct (counts !! n) as [c|] eqn:E; [|done].
  case_bool_decide; [by apply map_Forall_delete|]. apply map_Forall_insert_2; [lia|done].
Qed.

Lemma decrements_count names : ∀ counts,
  positive_counts counts → (∀ name, (occurrences name names ≤ count name counts)%Z) →
  let counts' := foldl (λ counts name, decrementPodCount name counts) counts names in
  positive_counts counts' ∧ ∀ name, count name counts' = (count name counts - occurrences name names)%Z.
Proof.
  induction names as [|n names IH]; intros counts Hp Hle; simpl.
  - split; [done|]. intros name. unfold occurrences. simpl. lia.
  - assert (0 < count n counts)%Z as Hn.
    { specialize (Hle n). rewrite occurrences_cons, decide_True in Hle by done.
      pose proof (occurrences_nonneg n names). lia. }
    destruct (IH _ (decrement_positive n _ Hp)) as [H1 H2].
    + intros name. specialize (Hle name). rewrite decrement_count by done. rewrite occurrences_cons in Hle.
      destruct (decide (n = name)); lia.
    + split; [done|]. intros name. rewrite H2, decrement_count, occurrences_cons by done.
      destruct (decide (n = name)); lia.
Qed.

(** ** The counts are exact *)

Section counts.
Context {C : Type} `{TtlCacheLaws C}.

(** Requests to the pod that the cache holds. *)
Definition in_flight (name : string) (c : C) : Z := sum_map (occurrences name) (tc_items c).

Definition counts_exact (s : State C) : Prop :=
  positive_counts (ar_endpointCounts s) ∧
  ∀ name, count name (ar_endpointCounts s) =
    (in_flight name (ar_requestCache s) + occurrences name (ar_evicted s))%Z.

Lemma in_flight_nonneg name c : (0 ≤ in_flight name c)%Z.
Proof.
  unfold in_flight, sum_map. apply (map_fold_weak_ind (λ z _, (0 ≤ z)%Z)); [done|].
  intros k x m r _ Hr. pose proof (occurrences_nonneg name x). lia.
Qed.

Lemma sum_filter (f : list string → Z) evicted : ∀ m : gmap string (list string),
  NoDup evicted.*1 → (∀ k v, (k, v) ∈ evicted → m !! k = Some v) →
  sum_map f m =
    (sum_map f (base.filter (λ kv, kv.1 ∉ evicted.*1) m) + foldr (λ kv acc, f kv.2 + acc) 0 evicted)%Z.
Proof.
  induction evicted as [|[k v] evicted IH]; intros m Hnd Hin; simpl.
  - rewrite map_filter_id; [lia|]. intros. simpl. set_solver.
  - apply NoDup_cons in Hnd as [Hk Hnd]. rewrite (sum_map_delete f m k v) by (apply Hin; set_solver).
    rewrite (IH (delete k m) Hnd).
    + match goal with |- (_ + (sum_map f ?X + _) = sum_map f ?Y + _)%Z => enough (X = Y) as -> by lia end.
      apply map_eq. intros i. apply option_eq. intros x. rewrite !map_lookup_filter_Some, lookup_delete_Some. simpl.
      set_solver.
    + intros k' v' Hkv. rewrite lookup_delete_ne; [apply Hin; set_solver|].
      intros <-. apply Hk. apply list_elem_of_fmap. by exists (k, v').
Qed.

Lemma occurrences_concat name (evicted : list (string * list string)) :
  occurrences name (concat evicted.*2) = foldr (λ kv acc, occurrences name kv.2 + acc)%Z 0%Z evicted.
Proof.
  induction evicted as [|[k v] evicted IH]; [done|]. rewrite fmap_cons. cbn [concat foldr snd].
  by rewrite occurrences_app, IH.
Qed.

Lemma active_step_exact s s' : counts_exact s → active_step s s' → counts_exact s'.
Proof using All.
  intros [Hp He] Hstep.
  destruct Hstep as [now order r result s Hfresh|now r eos tgt s|now s|i s].
  - destruct (increments_count (target_names order (sr_ProfileResults result)) _ Hp) as [H1 H2]. split; [done|].
    intros name. simpl. rewrite H2, He. unfold in_flight. rewrite tc_set, sum_map_insert by by apply not_elem_of_dom. lia.
  - unfold ResponseBody. destruct (negb eos || negb tgt); [done|].
    destruct (tc_GetAndDelete now (ir_RequestId r) (ar_requestCache s)) as [[names|] cache] eqn:E.
    + apply tc_get in E as [Hn Hd].
      assert (∀ name, in_flight name (ar_requestCache s) = occurrences name names + in_flight name cache)%Z as Hin.
      { intros name. unfold in_flight. rewrite Hd. by apply sum_map_delete. }
      destruct (decrements_count names _ Hp) as [H1 H2].
      { intros name. rewrite He, Hin. pose proof (in_flight_nonneg name cache).
        pose proof (occurrences_nonneg name (ar_evicted s)). lia. }
      split; [done|]. intros name. simpl. rewrite H2, He, Hin. lia.
    + apply tc_get_none in E. split; [done|]. intros name. simpl. rewrite He. unfold in_flight. by rewrite E.
  - unfold clean. destruct (tc_DeleteExpired now (ar_requestCache s)) as [evicted cache] eqn:E.
    apply tc_expire in E as (Hnd & Hin & Hc). split; [done|]. intros name. simpl. rewrite He.
    unfold in_flight. rewrite (sum_filter _ evicted _ Hnd Hin), Hc, occurrences_app, occurrences_concat. lia.
  - unfold callback. destruct (ar_evicted s !! i) as [n|] eqn:E; [|done]. split; [by apply decrement_positive|].
    intros name. simpl. assert (0 < count n (ar_endpointCounts s))%Z as Hn.
    { rewrite He, (occurrences_delete n _ _ _ E), decide_True by done.
      pose proof (in_flight_nonneg n (ar_requestCache s)). pose proof (occurrences_nonneg n (delete i (ar_evicted s))). lia. }
    rewrite decrement_count, He, (occurrences_delete name _ _ _ E) by done. destruct (decide (n = name)); lia.
Qed.
End counts.

(** ** Scores *)

Definition bounded_counts (counts : gmap string Z) : Prop := map_Forall (λ _ c, (0 < c < Int.two63)%Z) counts.

Lemma max_count_spec counts :
  bounded_counts counts → (0 ≤ max_count counts < Int.two63)%Z ∧ map_Forall (λ _ c, (c ≤ max_count counts)%Z) counts.
Proof.
  unfold max_count. apply (map_fold_weak_ind (λ mx m, bounded_counts m → (0 ≤ mx < Int.two63)%Z ∧ map_Forall (λ _ c, (c ≤ mx)%Z) m)).
  - intros _. split; [done|apply map_Forall_empty].
  - intros k c m mx Hk IH [Hc Hm]%map_Forall_insert; [|done]. destruct (IH Hm) as [H1 H2].
    case_bool_decide; (split; [lia|]); (apply map_Forall_insert; [done|]); (split; [lia|]); [|done].
    eapply map_Forall_impl; [exact H2|]. simpl. lia.
Qed.

Definition valid_config (c : Config) : Prop := (0 ≤ ac_idleThreshold c)%Z ∧ unit_range (ac_maxBusyScore c).

Lemma NewActiveRequest_valid params :
  (∀ p, params = Some p → valid (pa_MaxBusyScore p)) → valid_config (NewActiveRequest params).
Proof.
  intros Hv. split; destruct params as [p|]; simpl; try done.
  - case_bool_decide; lia.
  - destruct (fle fzero _ && fle _ fone) eqn:E; [|apply unit_one]. apply andb_true_iff in E as [E0 E1].
    destruct (fle_nan _ _ E1) as [Hn _]. apply valid_unit; [by apply Hv|done| |].
    + by rewrite flt_not_fle, E0.
    + by rewrite flt_not_fle, E1.
Qed.

Lemma active_score_cases c counts ep :
  valid_config c → bounded_counts counts →
  active_score c counts ep = fone ∧ (count (pod_name ep) counts ≤ ac_idleThreshold c)%Z ∨
  (ac_idleThreshold c < count (pod_name ep) counts ≤ max_count counts)%Z ∧
  active_score c counts ep =
    fmul (fdiv (of_int (max_count counts - count (pod_name ep) counts)) (of_int (max_count counts))) (ac_maxBusyScore c).
Proof.
  intros [Hi _] Hb. destruct (max_count_spec _ Hb) as [Hmx Hle]. unfold active_score, count.
  destruct (counts !! pod_name ep) as [n|] eqn:E; simpl; [|left; split; [done|lia]].
  pose proof (Hle _ _ E) as Hn. pose proof (Hb _ _ E) as Hn'. simpl in Hn, Hn'.
  case_bool_decide; [by left|right]. split; [lia|]. rewrite Int.i64_small; [done|]. unfold Int.two63 in *. lia.
Qed.

Lemma busy_unit c counts x :
  valid_config c → bounded_counts counts → (0 < x ≤ max_count counts)%Z →
  unit_range (fmul (fdiv (of_int (max_count counts - x)) (of_int (max_count counts))) (ac_maxBusyScore c)).
Proof.
  intros [Hi Hu] Hb Hx. destruct (max_count_spec _ Hb) as [Hmx _]. unfold Int.two63 in *.
  apply fmul_unit; [|done]. apply ratio_unit; lia.
Qed.

#[export] Instance ActiveRequest_load {C} `{TtlCache C} c (s : State C) :
  valid_config c → bounded_counts (ar_endpointCounts s) →
  LoadScorer (ActiveRequest c s)
    (λ a b, (count (pod_name a) (ar_endpointCounts s) ≤ count (pod_name b) (ar_endpointCounts s))%Z).
Proof.
  intros Hc Hb r eps cs _. eexists. split; [done|]. pose proof Hc as [Hi Hu]. split.
  - intros ep _. destruct (active_score_cases c _ ep Hc Hb) as [[-> _]|[Hx ->]]; [apply unit_one|].
    apply busy_unit; [done..|lia].
  - intros a b _ _ Hab. destruct (active_score_cases c _ a Hc Hb) as [[-> Ha]|[Hxa ->]].
    + destruct (active_score_cases c _ b Hc Hb) as [[-> _]|[Hxb ->]]; [by vm_compute|].
      apply unit_range_le, busy_unit; [done..|lia].
    + destruct (active_score_cases c _ b Hc Hb) as [[_ Hb']|[Hxb ->]]; [lia|].
      destruct (max_count_spec _ Hb) as [Hmx _]. unfold Int.two63 in *.
      apply fmul_mono_l; [apply ratio_unit; lia..|apply Hu|]. apply ratio_mono; lia.
Qed.

(** Without parameters every busy pod scores zero, although the default of the largest
    busy score is documented as one. *)
Lemma default_busy_score_zero counts ep n :
  bounded_counts counts → counts !! pod_name ep = Some n →
  feq (active_score (Factory None) counts ep) fzero = true.
Proof.
  intros Hb Hn. assert (valid_config (Factory None)) as Hc.
  { apply NewActiveRequest_valid. by intros p [= <-]. }
  pose proof (Hb _ _ Hn) as Hpos. simpl in Hpos.
  destruct (active_score_cases _ _ ep Hc Hb) as [[_ Hle]|[Hx ->]].
  { unfold count in Hle. rewrite Hn in Hle. simpl in Hle. lia. }
  destruct (max_count_spec _ Hb) as [Hmx _]. unfold Int.two63 in *.
  assert (unit_range (fdiv (of_int (max_count counts - count (pod_name ep) counts)) (of_int (max_count counts)))) as [Hu _]
    by (apply ratio_unit; unfold count in *; rewrite Hn in *; simpl in *; lia).
  change (ac_maxBusyScore (Factory None)) with fzero.
  by destruct (fdiv _ _) as [| | |[]].
Qed.

(** ** A cache that keeps its entries with their expiry *)

Abbreviation SimpleCache := (gmap string (list string * Z)).

Definition live (now : Z) (kv : string * (list string * Z)) : Prop := (now < kv.2.2)%Z.
#[export] Instance live_dec now kv : Decision (live now kv).
Proof. unfold live. apply _. Defined.

#[export] Instance SimpleCache_ops : TtlCache SimpleCache := {
  tc_items := λ c, fst <$> c;
  tc_New := ∅;
  tc_Set := λ now k v c, <[k := (v, (now + 120)%Z)]> c;
  tc_GetAndDelete := λ now k c,
    match c !! k with
    | Some (v, e) => if bool_decide (now < e)%Z then (Some v, delete k c) else (None, c)
    | None => (None, c)
    end;
  tc_DeleteExpired := λ now c,
    ((λ kv : string * (list string * Z), (kv.1, kv.2.1)) <$> map_to_list (base.filter (λ kv, ¬ live now kv) c),
     base.filter (live now) c)
}.

#[export] Instance SimpleCache_laws : TtlCacheLaws SimpleCache.
Proof.
  split; simpl.
  - apply fmap_empty.
  - intros. apply fmap_insert.
  - intros now k c v c'. destruct (c !! k) as [[w e]|] eqn:E; [|done]. case_bool_decide; [|done].
    intros [= <- <-]. by rewrite lookup_fmap, E, fmap_delete.
  - intros now k c c'. destruct (c !! k) as [[w e]|]; [case_bool_decide|]; by intros [= <-].
  - intros now c evicted c' [= <- <-].
    assert ((((λ kv : string * (list string * Z), (kv.1, kv.2.1)) <$> map_to_list (base.filter (λ kv, ¬ live now kv) c))).*1
      = (map_to_list (base.filter (λ kv, ¬ live now kv) c)).*1) as Hkeys by by rewrite <- list_fmap_compose.
    split_and!.
    + rewrite Hkeys. apply NoDup_fst_map_to_list.
    + intros k v ([k' [w e]] & [= -> ->] & Hin)%list_elem_of_fmap. apply elem_of_map_to_list in Hin.
      apply map_lookup_filter_Some in Hin as [Hin _]. by rewrite lookup_fmap, Hin.
    + apply map_eq. intros k. apply option_eq. intros v. rewrite Hkeys.
      rewrite lookup_fmap_Some, map_lookup_filter_Some, lookup_fmap_Some. simpl. split.
      * intros ([w e] & <- & Hl%map_lookup_filter_Some). destruct Hl as [Hl Hlive]. split; [by exists (w, e)|].
        intros ([k' x] & -> & Hin)%list_elem_of_fmap. apply elem_of_map_to_list, map_lookup_filter_Some in Hin as [Hin Hd].
        simpl in *. rewrite Hl in Hin. injection Hin as <-. by apply Hd.
      * intros [([w e] & <- & Hl) Hnin]. exists (w, e). split; [done|]. apply map_lookup_filter_Some. split; [done|].
        destruct (decide (live now (k, (w, e)))); [done|]. exfalso. apply Hnin. apply list_elem_of_fmap.
        exists (k, (w, e)). split; [done|]. apply elem_of_map_to_list, map_lookup_filter_Some. done.
Qed.

(** C21. The counts of active requests are exact. For every cache with the documented
    behaviour and every sequence of steps from the start (requests that begin with a fresh
    identifier, response chunks, expiry, and the callbacks of evictions in any order), the
    count of a pod is the number of requests to it that the cache holds plus the evicted
    ones whose callback has not run, and only positive counts are kept. In particular
    nothing is counted twice, no decrement is lost, and no count goes below zero. *)
Theorem active_counts_exact {C : Type} (ops : TtlCache C) (laws : TtlCacheLaws C) (s : State C)
    (Hrun : rtc active_step (initial (C:=C)) s) :
  positive_counts (ar_endpointCounts s) ∧
  ∀ name, count name (ar_endpointCounts s) =
    (in_flight name (ar_requestCache s) + occurrences name (ar_evicted s))%Z.
Proof.
  assert (counts_exact (initial (C:=C))) as H0.
  { split; [apply map_Forall_empty|]. intros name. unfold in_flight. simpl. by rewrite tc_new, sum_map_empty. }
  clear -H0 Hrun laws. revert H0. induction Hrun as [|s1 s2 s3 Hs _ IH]; intros H0; [exact H0|].
  apply IH. by eapply active_step_exact.
Qed.

Definition served (name : string) : SchedulingResult :=
  mkSchedulingResult {[ "default"%string := Some [sample_endpoint 1 name] ]} "default".

Lemma active_counts_exact_witness :
  count "default/a" (ar_endpointCounts (PreRequest (C:=SimpleCache) 0 (λ _, 0) sample_request (served "a") initial)) = 1%Z.
Proof.
  destruct (active_counts_exact SimpleCache_ops SimpleCache_laws
    (PreRequest 0 (λ _, 0) sample_request (served "a") initial)) as [_ Hc].
  - eapply rtc_l; [|apply rtc_refl]. apply as_start. set_solver.
  - rewrite Hc. vm_compute. reflexivity.
Defined.

(** If a second request has the identifier of one that is in flight, the first one's pod is
    never decremented: with no request left, it still counts one. *)
Lemma reused_identifier_leaks :
  let s1 := PreRequest (C:=SimpleCache) 0 (λ _, 0) sample_request (served "a") initial in
  let s2 := PreRequest 0 (λ _, 0) sample_request (served "b") s1 in
  let s3 := ResponseBody 1 sample_request true true s2 in
  let s4 := ResponseBody 2 sample_request true true s3 in
  tc_items (ar_requestCache s4) = ∅ ∧ ar_evicted s4 = [] ∧ count "default/a" (ar_endpointCounts s4) = 1%Z.
Proof. vm_compute. done. Qed.
