(* ===== verification/ProfileHandlers.v ===== *)
(** * Profile handlers: [scheduling/profile], [profilehandler/dataparallel],
    [profilehandler/disagg]

    The handlers that drive a scheduling cycle: the single-profile and the data-parallel
    handler; the disaggregation handler, which schedules a decode worker and, if its
    deciders say so, an encode and a prefill worker; the deprecated prefill/decode handler;
    the deciders; and the pre-request plugin that tells the decode worker about the others
    by headers. Requests are not nil and have a header map. *)

From stdpp Require Import prelude gmap strings list pretty sorting.
From Stdlib Require Import Lia.
From S2P Require Import Prelude FlowTypes Float64 FloatRound FloatOps SchedTypes Json Pickers SchedulerProfile Scheduler.

#[local] Open Scope go_scope.

(** ** Addresses: [net.JoinHostPort], [common/routing] *)

Fixpoint has_colon (s : string) : bool :=
  match s with
  | EmptyString => false
  | String c s' => bool_decide (Ascii.nat_of_ascii c = 58) || has_colon s'
  end.

Definition JoinHostPort (host port : string) : string :=
  if has_colon host then "[" +:+ host +:+ "]:" +:+ port else host +:+ ":" +:+ port.

Definition PrefillEndpointHeader : string := "x-prefiller-host-port".
Definition EncoderEndpointsHeader : string := "x-encoder-hosts-ports".
Definition DataParallelEndpointHeader : string := "x-data-parallel-host-port".

Definition host_port (ep : Endpoint) : string :=
  JoinHostPort (md_Address (ep_Metadata ep)) (md_Port (ep_Metadata ep)).

Definition set_header (name value : string) (r : InferenceRequest) : InferenceRequest :=
  ir_with_headers (<[name := value]> (ir_Headers r)) r.
Definition delete_header (name : string) (r : InferenceRequest) : InferenceRequest :=
  ir_with_headers (delete name (ir_Headers r)) r.

(** A new endpoint with the same metadata and metrics but another port, and without
    attributes. *)
Definition with_port (ptr : positive) (port : string) (ep : Endpoint) : Endpoint :=
  let md := ep_Metadata ep in
  mkEndpoint ptr
    (mkMetadata (md_NamespacedName md) (md_PodName md) (md_Address md) port (md_MetricsHost md) (md_Labels md))
    (ep_Metrics ep) ∅.

Definition rewrite_ports (alloc : nat → positive) (port : string) (eps : list Endpoint) : list Endpoint :=
  imap (λ i ep, with_port (alloc i) port ep) eps.

(** ** The single-profile handler *)

Module single.

(** The handler returns the map of profiles itself. *)
Definition Pick (_ : InferenceRequest) (profiles : Profiles) (profileResults : Results)
    : CM (gmap string (option SchedulerProfile) * Results) :=
  if bool_decide (size profiles = size profileResults) then mret (∅, profileResults)
  else mret (Some <$> profiles, profileResults).

Definition ProcessResults (_ : nat → positive) (request : InferenceRequest) (profileResults : Results)
    : CM ((SchedulingResult + GoError) * InferenceRequest) :=
  match map_to_list profileResults with
  | [(singleProfileName, Some _)] => mret (inl (mkSchedulingResult profileResults singleProfileName), request)
  | [(_, None)] => mret (inr (ENew "failed to run scheduler profile"), request)
  | _ => mret (inr (ENew "single profile handler is intended to be used with a single profile"), request)
  end.

Definition SingleProfileHandler : ProfileHandler := mkProfileHandler Pick ProcessResults.

End single.

(** ** The data-parallel handler *)

Module dataparallel.

(** [ProfileHandlerFactory] after decoding: the port is checked unless it is zero. *)
Definition Factory (primaryPort : Z) : string + GoError :=
  if bool_decide (primaryPort ≠ 0%Z) && bool_decide (primaryPort < 1 ∨ 65535 < primaryPort)%Z
  then inr (ENew "invalid primaryPort: must be between 1 and 65535")
  else inl (pretty primaryPort).

Section handler.
Context (primaryPort : string).

Definition Pick (_ : InferenceRequest) (profiles : Profiles) (profileResults : Results)
    : CM (gmap string (option SchedulerProfile) * Results) :=
  if bool_decide (size profiles = size profileResults) then mret (∅, profileResults)
  else if bool_decide (size profiles ≠ 1) then mret (∅, profileResults)
  else mret (Some <$> profiles, profileResults).

Definition ProcessResults (alloc : nat → positive) (request : InferenceRequest) (profileResults : Results)
    : CM ((SchedulingResult + GoError) * InferenceRequest) :=
  match map_to_list profileResults with
  | [(_, None)] => mret (inr (ENew "failed to run scheduler profile"), request)
  | [(_, Some [])] => panic
  | [(singleProfileName, Some (target :: targets))] =>
      mret (inl (mkSchedulingResult
                   {[ singleProfileName := Some (rewrite_ports alloc primaryPort (target :: targets)) ]}
                   singleProfileName),
            set_header DataParallelEndpointHeader (host_port target) request)
  | _ => mret (inr (ENew "data parallel profile handler is intended to be used with a single profile"), request)
  end.

Definition DataParallelHandler : ProfileHandler := mkProfileHandler Pick ProcessResults.
End handler.

End dataparallel.

(** ** Deciders *)

(** [deciderPlugin]; a nil endpoint is [None]. *)
Record Decider := mkDecider { dc_disaggregate : InferenceRequest → option Endpoint → bool }.

Definition AlwaysDisaggPDDecider : Decider := mkDecider (λ _ _, true).

Definition is_medium (block : ContentBlock) : bool :=
  bool_decide (cb_Type block = "image_url"%string) || bool_decide (cb_Type block = "video_url"%string) ||
  bool_decide (cb_Type block = "input_audio"%string).

Definition hasMultimodalContent (request : InferenceRequest) : bool :=
  match ir_Body request with
  | Some body =>
      match bd_ChatCompletions body with
      | Some chat =>
          existsb (λ msg, existsb is_medium (default [] (ct_Structured (ms_Content msg)))) (cc_Messages chat)
      | None => false
      end
  | None => false
  end.

Definition AlwaysDisaggMultimodalDecider : Decider := mkDecider (λ request _, hasMultimodalContent request).

Definition AverageCharactersPerToken : Z := 4.

Definition getUserInputLenInTokens (request : InferenceRequest) : Z + GoError :=
  match ir_Body request with
  | None => inr (ENew "request or request body is nil")
  | Some body =>
      match bd_Completions body with
      | Some c => inl (Z.of_nat (String.length (pr_Raw (cr_Prompt c))) `quot` AverageCharactersPerToken)%Z
      | None =>
          match bd_ChatCompletions body with
          | None => inr (ENew "request has neither completions nor chat completions body")
          | Some chat =>
              inl (Z.of_nat (String.length (Messages_Marshal (cc_Messages chat))) `quot` AverageCharactersPerToken)%Z
          end
      end
  end.

(** [NewPrefixBasedPDDecider]. *)
Definition validate_decider (nonCachedTokens : Z) : option GoError :=
  if bool_decide (nonCachedTokens < 0)%Z
  then Some (ENew "nonCachedTokens parameter of prefix disaggregation decider cannot be negative")
  else None.

Definition prefix_disaggregate (nonCachedTokens : Z) (request : InferenceRequest) (endpoint : option Endpoint) : bool :=
  if bool_decide (nonCachedTokens = 0)%Z then false
  else
    match endpoint, getUserInputLenInTokens request with
    | None, _ | _, inr _ => false
    | Some endpoint, inl inputTokens =>
        if bool_decide (inputTokens < nonCachedTokens)%Z then false
        else
          match ep_Get PrefixCacheMatchInfoKey endpoint with
          | Some (APrefix info) =>
              let hitPrefixTokens := Int.i64 (pm_MatchBlocks info * pm_BlockSizeTokens info) in
              let nonCached := Int.i64 (inputTokens - hitPrefixTokens) in
              bool_decide (nonCachedTokens ≤ nonCached)%Z
          | _ => false
          end
    end.

Definition PrefixBasedPDDecider (nonCachedTokens : Z) : Decider := mkDecider (prefix_disaggregate nonCachedTokens).

(** A prompt that is not a plain string counts as empty, however long it is. *)
Lemma array_prompt_not_disaggregated (n : Z) (request : InferenceRequest) (body : InferenceRequestBody)
    (c : CompletionsRequest) (endpoint : option Endpoint) :
  ir_Body request = Some body → bd_Completions body = Some c → pr_Raw (cr_Prompt c) = ""%string → (0 ≤ n)%Z →
  prefix_disaggregate n request endpoint = false.
Proof.
  intros Hb Hc Hr Hn. unfold prefix_disaggregate, getUserInputLenInTokens. rewrite Hb, Hc, Hr. simpl.
  destruct endpoint; [|by destruct (bool_decide _)]. destruct (decide (n = 0%Z)); [by rewrite bool_decide_eq_true_2|].
  rewrite bool_decide_eq_false_2 by done. rewrite bool_decide_eq_true_2; [done|].
  change (Z.of_nat 0 `quot` AverageCharactersPerToken)%Z with 0%Z. lia.
Qed.

(** A long enough prompt whose cached prefix leaves enough tokens is disaggregated. *)
Lemma long_prompt_disaggregated (n : Z) (request : InferenceRequest) (body : InferenceRequestBody)
    (c : CompletionsRequest) (endpoint : Endpoint) (info : PrefixCacheMatchInfo) :
  ir_Body request = Some body → bd_Completions body = Some c →
  ep_Get PrefixCacheMatchInfoKey endpoint = Some (APrefix info) →
  (0 < n)%Z → (0 ≤ pm_MatchBlocks info * pm_BlockSizeTokens info)%Z →
  (4 * (n + pm_MatchBlocks info * pm_BlockSizeTokens info) ≤ Z.of_nat (String.length (pr_Raw (cr_Prompt c))) < Int.two63)%Z →
  prefix_disaggregate n request (Some endpoint) = true.
Proof.
  intros Hb Hc He Hn Hm Hl. unfold prefix_disaggregate, getUserInputLenInTokens, AverageCharactersPerToken.
  rewrite Hb, Hc, He. set (len := Z.of_nat (String.length (pr_Raw (cr_Prompt c)))) in *.
  set (hit := (pm_MatchBlocks info * pm_BlockSizeTokens info)%Z) in *.
  rewrite Z.quot_div_nonneg by lia. assert (n + hit ≤ len / 4)%Z by (apply Z.div_le_lower_bound; lia).
  assert (len / 4 ≤ len)%Z by (apply Z.div_le_upper_bound; lia).
  do 2 rewrite bool_decide_eq_false_2 by lia. unfold Int.two63 in *.
  rewrite (Int.i64_small hit), Int.i64_small by (unfold Int.two63; lia).
  apply bool_decide_eq_true_2. lia.
Qed.

(** ** The disaggregation handler *)

Module disagg.

Definition defaultDecodeProfile : string := "decode".
Definition defaultPrefillProfile : string := "prefill".
Definition defaultEncodeProfile : string := "encode".

Record disaggProfilesParameters := mkProfilesParameters { dp_Decode : string; dp_Prefill : string; dp_Encode : string }.
Record disaggDecidersParameters := mkDecidersParameters { dd_Prefill : string; dd_Encode : string }.

Record disaggProfileHandlerParameters := mkDisaggParameters {
  hp_Profiles : disaggProfilesParameters;
  hp_Deciders : disaggDecidersParameters
}.

Record legacyDisaggProfileHandlerParameters := mkLegacyParameters {
  lg_DecodeProfile : string;
  lg_PrefillProfile : string;
  lg_EncodeProfile : string;
  lg_PrefillDeciderPluginName : string;
  lg_EncodeDeciderPluginName : string;
  lg_DeciderPluginName : string
}.

#[export] Instance disaggProfilesParameters_eq_dec : EqDecision disaggProfilesParameters.
Proof. solve_decision. Defined.
#[export] Instance disaggDecidersParameters_eq_dec : EqDecision disaggDecidersParameters.
Proof. solve_decision. Defined.
#[export] Instance legacyParameters_eq_dec : EqDecision legacyDisaggProfileHandlerParameters.
Proof. solve_decision. Defined.

Definition no_profiles : disaggProfilesParameters := mkProfilesParameters "" "" "".
Definition no_deciders : disaggDecidersParameters := mkDecidersParameters "" "".
Definition no_legacy : legacyDisaggProfileHandlerParameters := mkLegacyParameters "" "" "" "" "" "".

Definition toDisaggParams (l : legacyDisaggProfileHandlerParameters) : disaggProfileHandlerParameters :=
  mkDisaggParameters
    (mkProfilesParameters (lg_DecodeProfile l) (lg_PrefillProfile l) (lg_EncodeProfile l))
    (mkDecidersParameters
       (if bool_decide (lg_DeciderPluginName l ≠ ""%string) && bool_decide (lg_PrefillDeciderPluginName l = ""%string)
        then lg_DeciderPluginName l else lg_PrefillDeciderPluginName l)
       (lg_EncodeDeciderPluginName l)).

Definition or_default (d s : string) : string := if bool_decide (s = ""%string) then d else s.

Record Handler := mkHandler {
  h_decodeProfile : string;
  h_prefillProfile : string;
  h_encodeProfile : string;
  h_pdDecider : option Decider;
  h_encodeDecider : option Decider
}.

(** [handle.Plugin(name)], and whether the plugin is a decider. *)
Definition Handle := (gmap string (option Decider)).

Definition resolve_decider (handle : Handle) (name : string) : option Decider + GoError :=
  if bool_decide (name = ""%string) then inl None
  else
    match handle !! name with
    | None => inr (ENew "decider plugin not found")
    | Some None => inr (ENew "plugin does not implement the decider interface")
    | Some (Some d) => inl (Some d)
    end.

(** [HandlerFactory], from the decoded nested and flat parameters, if there are any. *)
Definition HandlerFactory
    (rawParameters : option (disaggProfileHandlerParameters * legacyDisaggProfileHandlerParameters))
    (handle : Handle) : Handler + GoError :=
  parameters ←? match rawParameters with
                | None => inl (mkDisaggParameters no_profiles no_deciders)
                | Some (parameters, legacy) =>
                    if bool_decide (hp_Profiles parameters ≠ no_profiles) ||
                       bool_decide (hp_Deciders parameters ≠ no_deciders) then
                      if bool_decide (legacy ≠ no_legacy)
                      then inr (ENew "cannot mix deprecated flat parameters with nested parameters")
                      else inl parameters
                    else inl (toDisaggParams legacy)
                end;
  pdDecider ←? resolve_decider handle (dd_Prefill (hp_Deciders parameters));
  encodeDecider ←? resolve_decider handle (dd_Encode (hp_Deciders parameters));
  inl (mkHandler
         (or_default defaultDecodeProfile (dp_Decode (hp_Profiles parameters)))
         (or_default defaultPrefillProfile (dp_Prefill (hp_Profiles parameters)))
         (or_default defaultEncodeProfile (dp_Encode (hp_Profiles parameters)))
         pdDecider encodeDecider).

Section handler.
Context (h : Handler).

Definition says_yes (decider : option Decider) (request : InferenceRequest) (target : Endpoint) : bool :=
  match decider with Some d => dc_disaggregate d request (Some target) | None => false end.

(** One optional stage: run its profile, or note that its decider was asked and go on. *)
Definition stage (name : string) (decider : option Decider) (request : InferenceRequest) (target : Endpoint)
    (profiles : Profiles) (profileResults : Results) : option SchedulerProfile * Results :=
  match profiles !! name, profileResults !! name with
  | Some profile, None =>
      if says_yes decider request target then (Some profile, profileResults)
      else (None, <[name := None]> profileResults)
  | _, _ => (None, profileResults)
  end.

Definition Pick (request : InferenceRequest) (profiles : Profiles) (profileResults : Results)
    : CM (gmap string (option SchedulerProfile) * Results) :=
  match profileResults !! h_decodeProfile h with
  | None =>
      match profiles !! h_decodeProfile h with
      | None => mret (∅, profileResults)
      | Some decodeProfile => mret ({[ h_decodeProfile h := Some decodeProfile ]}, profileResults)
      end
  | Some None | Some (Some []) => mret (∅, profileResults)
  | Some (Some (target :: _)) =>
      match stage (h_encodeProfile h) (h_encodeDecider h) request target profiles profileResults with
      | (Some profile, profileResults) => mret ({[ h_encodeProfile h := Some profile ]}, profileResults)
      | (None, profileResults) =>
          match stage (h_prefillProfile h) (h_pdDecider h) request target profiles profileResults with
          | (Some profile, profileResults) => mret ({[ h_prefillProfile h := Some profile ]}, profileResults)
          | (None, profileResults) => mret (∅, profileResults)
          end
      end
  end.

(** [updatedResults[name] = profileResults[name]] for a stage that ran successfully. *)
Definition add_stage (name : string) (profileResults updatedResults : Results) : Results :=
  match profileResults !! name with
  | Some (Some targets) => <[name := Some targets]> updatedResults
  | _ => updatedResults
  end.

Definition ProcessResults (_ : nat → positive) (request : InferenceRequest) (profileResults : Results)
    : CM ((SchedulingResult + GoError) * InferenceRequest) :=
  match profileResults !! h_decodeProfile h with
  | Some (Some (target :: targets)) =>
      let updatedResults := {[ h_decodeProfile h := Some (target :: targets) ]} in
      let updatedResults := add_stage (h_prefillProfile h) profileResults updatedResults in
      let updatedResults := add_stage (h_encodeProfile h) profileResults updatedResults in
      mret (inl (mkSchedulingResult updatedResults (h_decodeProfile h)), request)
  | _ => mret (inr (ENew "failed to find available decode workers"), request)
  end.

Definition DisaggProfileHandler : ProfileHandler := mkProfileHandler Pick ProcessResults.
End handler.

End disagg.

(** ** The deprecated prefill/decode handler *)

Module pd.

Record PdProfileHandler := mkPdHandler {
  pd_decodeProfile : string;
  pd_prefillProfile : string;
  pd_primaryPort : string;
  pd_decider : option Decider
}.

(** [PdProfileHandlerFactory] and [NewPdProfileHandler] after decoding. *)
Definition Factory (decodeProfile prefillProfile : string) (primaryPort : Z) (deciderPluginName : string)
    (handle : disagg.Handle) : PdProfileHandler + GoError :=
  if bool_decide (primaryPort ≠ 0%Z) && bool_decide (primaryPort < 1 ∨ 65535 < primaryPort)%Z
  then inr (ENew "invalid primaryPort: must be between 1 and 65535")
  else if bool_decide (deciderPluginName = ""%string) then inr (ENew "decider plugin name is not defined")
  else
    match handle !! deciderPluginName with
    | None => inr (ENew "invalid decider plugin type")
    | Some None => inr (ENew "decider plugin does not implement pdDeciderPlugin")
    | Some (Some decider) =>
        inl (mkPdHandler decodeProfile prefillProfile
               (if bool_decide (primaryPort ≠ 0%Z) then pretty primaryPort else "") (Some decider))
    end.

Section handler.
Context (h : PdProfileHandler).

(** A profile that is not configured is a nil profile of the returned map. *)
Definition Pick (request : InferenceRequest) (profiles : Profiles) (profileResults : Results)
    : CM (gmap string (option SchedulerProfile) * Results) :=
  match profileResults !! pd_decodeProfile h with
  | None => mret ({[ pd_decodeProfile h := profiles !! pd_decodeProfile h ]}, profileResults)
  | Some decode =>
      if bool_decide (size profiles = size profileResults) || bool_decide (decode = None) then mret (∅, profileResults)
      else
        disaggregate ← match pd_decider h, decode with
                       | None, _ => mret false
                       | Some decider, Some (target :: _) => mret (dc_disaggregate decider request (Some target))
                       | Some _, _ => panic
                       end;
        if disaggregate : bool
        then mret ({[ pd_prefillProfile h := profiles !! pd_prefillProfile h ]}, profileResults)
        else mret (∅, profileResults)
  end.

Definition ProcessResults (alloc : nat → positive) (request : InferenceRequest) (profileResults : Results)
    : CM ((SchedulingResult + GoError) * InferenceRequest) :=
  match profileResults !! pd_decodeProfile h with
  | Some (Some targets) =>
      decode ← (if bool_decide (pd_primaryPort h ≠ ""%string) then
                  match targets with
                  | [] => panic
                  | target :: _ =>
                      mret (rewrite_ports alloc (pd_primaryPort h) targets,
                            set_header DataParallelEndpointHeader (host_port target) request)
                  end
                else mret (targets, request));
      let updatedResults := {[ pd_decodeProfile h := Some decode.1 ]} in
      let updatedResults := disagg.add_stage (pd_prefillProfile h) profileResults updatedResults in
      mret (inl (mkSchedulingResult updatedResults (pd_decodeProfile h)), decode.2)
  | _ => mret (inr (ENew "failed to find available decode workers"), request)
  end.

Definition PdHandler : ProfileHandler := mkProfileHandler Pick ProcessResults.
End handler.

End pd.

(** ** Headers for the decode worker: [disagg_headers_handler.go] *)

Module headers.

Section handler.
Context (prefillProfile encodeProfile : string).

Definition PreRequest (request : InferenceRequest) (schedulingResult : option SchedulingResult) : InferenceRequest :=
  match schedulingResult with
  | None => request
  | Some sr =>
      let request := delete_header PrefillEndpointHeader request in
      let request := match sr_ProfileResults sr !! prefillProfile with
                     | Some (Some (target :: _)) => set_header PrefillEndpointHeader (host_port target) request
                     | _ => request
                     end in
      let request := delete_header EncoderEndpointsHeader request in
      match sr_ProfileResults sr !! encodeProfile with
      | Some (Some (target :: targets)) =>
          set_header EncoderEndpointsHeader (strings_Join (host_port <$> (target :: targets)) ",") request
      | _ => request
      end
  end.
End handler.

End headers.

(** ** Lawfulness *)

Lemma same_pod_refl ep : same_pod ep ep.
Proof. done. Qed.

Lemma same_pods_refl eps : Forall2 same_pod eps eps.
Proof. apply Forall_Forall2_diag, Forall_forall. intros ep _. apply same_pod_refl. Qed.

Lemma rewrite_ports_same port eps : ∀ alloc, Forall2 same_pod (rewrite_ports alloc port eps) eps.
Proof.
  unfold rewrite_ports. induction eps as [|ep eps IH]; intros alloc; simpl; constructor; [done|].
  apply (IH (alloc ∘ S)).
Qed.

(** A decision that copies results. *)
Lemma decision_copies results sr :
  results_served results → (∃ targets, sr_ProfileResults sr !! sr_PrimaryProfileName sr = Some (Some targets)) →
  (∀ name targets, sr_ProfileResults sr !! name = Some (Some targets) → results !! name = Some (Some targets)) →
  decision_ok results sr.
Proof.
  intros Hs Hp Hc. split; [done|]. intros name targets Hn. split; [by eapply Hs, Hc|].
  exists targets. split; [by apply Hc|apply same_pods_refl].
Qed.

(** Nothing is picked and the results are kept, or one profile without a result is picked. *)
Lemma pick_none profiles results : dom results ⊆ dom profiles → pick_ok profiles results ∅ results.
Proof. intros Hd. split; try done. Qed.

Lemma pick_one profiles results name p :
  dom results ⊆ dom profiles → profiles !! name = Some p → name ∉ dom results →
  pick_ok profiles results {[ name := Some p ]} results.
Proof.
  intros Hd Hp Hn. split; try done.
  - intros name' p' [<- <-]%lookup_singleton_Some. by exists p.
  - intros _. exists name. rewrite dom_singleton_L. set_solver.
Qed.

(** All profiles, if one is missing from the results. *)
Lemma pick_all profiles results :
  dom results ⊆ dom profiles → size profiles ≠ size results → pick_ok profiles results (Some <$> profiles) results.
Proof.
  intros Hd Hsz. split; try done.
  - intros name p (q & <- & Hq)%lookup_fmap_Some. by exists q.
  - intros _. rewrite dom_fmap_L.
    destruct (decide (dom profiles ∖ dom results = ∅)) as [He|[name Hname]%set_choose_L].
    + destruct Hsz. rewrite <- (size_dom profiles), <- (size_dom results).
      replace (dom profiles) with (dom results); [done|]. apply (anti_symm (⊆)); [done|].
      intros x Hx. destruct (decide (x ∈ dom results)); [done|]. exfalso.
      by apply (not_elem_of_empty (C:=gset string) x); rewrite <- He; apply elem_of_difference.
    + exists name. set_solver.
Qed.

#[export] Instance single_lawful profiles : LawfulHandler profiles single.SingleProfileHandler.
Proof.
  split; simpl.
  - intros r results cs Hd Hs. unfold single.Pick. case_bool_decide; apply wp_ret; [by apply pick_none|by apply pick_all].
  - intros alloc r results cs Hd Hs Hne. unfold single.ProcessResults.
    destruct (map_to_list results) as [|[name [targets|]] [|]] eqn:Hl; apply wp_ret; try done.
    apply decision_copies; [done| |done]. exists targets. simpl. apply elem_of_map_to_list. rewrite Hl. set_solver.
Qed.

#[export] Instance dataparallel_lawful profiles port : LawfulHandler profiles (dataparallel.DataParallelHandler port).
Proof.
  split; simpl.
  - intros r results cs Hd Hs. unfold dataparallel.Pick.
    repeat case_bool_decide; apply wp_ret; (by apply pick_none) || by apply pick_all.
  - intros alloc r results cs Hd Hs Hne. unfold dataparallel.ProcessResults.
    destruct (map_to_list results) as [|[name [targets|]] [|]] eqn:Hl; try (by apply wp_ret).
    { assert (results !! name = Some (Some targets)) as Hn by (apply elem_of_map_to_list; rewrite Hl; set_solver).
      destruct targets as [|target targets]; [by destruct (Hs _ _ Hn)|]. apply wp_ret. split; simpl.
      - rewrite lookup_singleton_eq. by eexists.
      - intros name' targets' [<- [= <-]]%lookup_singleton_Some. split; [done|].
        exists (target :: targets). split; [done|apply rewrite_ports_same]. }
    all: by destruct targets as [|? ?].
Qed.

Lemma add_stage_spec name results updated :
  (∀ n t, updated !! n = Some (Some t) → results !! n = Some (Some t)) →
  ∀ n t, disagg.add_stage name results updated !! n = Some (Some t) → results !! n = Some (Some t).
Proof.
  intros Hu n t. unfold disagg.add_stage. destruct (results !! name) as [[targets|]|] eqn:Hn; [|by apply Hu..].
  intros [[<- <-]|[_ H]]%lookup_insert_Some; [done|by apply Hu].
Qed.

(** An entry of the updated results stays an entry with the same or the stage's targets. *)
Lemma add_stage_keeps name results updated n t :
  updated !! n = Some (Some t) → ∃ t', disagg.add_stage name results updated !! n = Some (Some t').
Proof.
  intros Hn. unfold disagg.add_stage. destruct (results !! name) as [[targets|]|]; [|by eexists..].
  destruct (decide (name = n)) as [->|]; [rewrite lookup_insert_eq|rewrite lookup_insert_ne by done]; by eexists.
Qed.

(** A stage picks its profile only if it has no result, and otherwise adds at most a nil
    result. *)
Lemma stage_ok name decider r target profiles results p results' :
  disagg.stage name decider r target profiles results = (p, results') → dom results ⊆ dom profiles →
  match p with
  | Some p => results' = results ∧ profiles !! name = Some p ∧ name ∉ dom results
  | None => pick_ok profiles results ∅ results'
  end.
Proof.
  unfold disagg.stage. intros Hst Hd.
  destruct (profiles !! name) as [profile|] eqn:Hp; [|by injection Hst as <- <-; apply pick_none].
  destruct (results !! name) as [res|] eqn:Hr; [by injection Hst as <- <-; apply pick_none|].
  destruct (disagg.says_yes decider r target); injection Hst as <- <-.
  - split_and!; [done..|]. by apply not_elem_of_dom.
  - split; [done|set_solver| | |done].
    + rewrite dom_insert_L. apply elem_of_dom_2 in Hp. set_solver.
    + by intros n t [[_ [=]]|[_ H]]%lookup_insert_Some.
Qed.

Lemma pick_ok_trans profiles results results1 picked results2 :
  pick_ok profiles results ∅ results1 → pick_ok profiles results1 picked results2 →
  pick_ok profiles results picked results2.
Proof.
  intros [_ K1 _ T1 _] [C2 K2 W2 T2 P2]. split; [done|by trans (dom results1)|done| |done]. eauto.
Qed.

#[export] Instance disagg_lawful profiles h : LawfulHandler profiles (disagg.DisaggProfileHandler h).
Proof.
  split; simpl.
  - intros r results cs Hd Hs. unfold disagg.Pick.
    destruct (results !! disagg.h_decodeProfile h) as [[[|target targets]|]|] eqn:Hdec; try (by apply wp_ret, pick_none).
    + destruct (disagg.stage (disagg.h_encodeProfile h) _ _ _ _ _) as [p1 results1] eqn:H1.
      pose proof (stage_ok _ _ _ _ _ _ _ _ H1 Hd) as Hst1. destruct p1 as [p1|].
      { destruct Hst1 as (-> & Hp & Hn). by apply wp_ret, pick_one. }
      destruct (disagg.stage (disagg.h_prefillProfile h) _ _ _ _ _) as [p2 results2] eqn:H2.
      pose proof (stage_ok _ _ _ _ _ _ _ _ H2 (pk_within _ _ _ _ Hst1)) as Hst2.
      destruct p2 as [p2|]; apply wp_ret; (eapply pick_ok_trans; [exact Hst1|]); [|exact Hst2].
      destruct Hst2 as (-> & Hp & Hn). apply pick_one; [apply Hst1|done..].
    + destruct (profiles !! disagg.h_decodeProfile h) as [p|] eqn:Hp; apply wp_ret; [|by apply pick_none].
      apply pick_one; [done..|]. by apply not_elem_of_dom.
  - intros alloc r results cs Hd Hs Hne. unfold disagg.ProcessResults.
    destruct (results !! disagg.h_decodeProfile h) as [[[|target targets]|]|] eqn:Hdec; try (by apply wp_ret).
    apply wp_ret. apply decision_copies; [done| |]; simpl.
    + edestruct add_stage_keeps as [t1 H1]; [by apply lookup_singleton_Some|].
      by edestruct add_stage_keeps as [t2 H2]; [exact H1|exists t2].
    + do 2 apply add_stage_spec. by intros n t [<- [= <-]]%lookup_singleton_Some.
Qed.

(** The deprecated handler is lawful if no other profile is configured. *)
Lemma pd_lawful profiles h :
  pd.pd_decodeProfile h ∈ dom profiles → dom profiles ⊆ {[ pd.pd_decodeProfile h; pd.pd_prefillProfile h ]} →
  LawfulHandler profiles (pd.PdHandler h).
Proof.
  intros Hdp Hdom. split; simpl.
  - intros r results cs Hd Hs. unfold pd.Pick.
    destruct (results !! pd.pd_decodeProfile h) as [decode|] eqn:Hdec; cycle 1.
    { apply elem_of_dom in Hdp as [p Hp]. rewrite Hp. apply wp_ret, pick_one; [done..|]. by apply not_elem_of_dom. }
    destruct (bool_decide _ || bool_decide _) eqn:Hb; [by apply wp_ret, pick_none|].
    apply orb_false_iff in Hb as [Hsz%bool_decide_eq_false Hnone%bool_decide_eq_false].
    destruct decode as [targets|]; [|done]. destruct targets as [|target targets]; [by destruct (Hs _ _ Hdec)|].
    apply wp_bind. eapply (wp_mono _ (λ _ _, True)); [by destruct (pd.pd_decider h)|].
    intros [] cs' _; [|by apply wp_ret, pick_none]. apply wp_ret. simpl.
    destruct (pk_progress _ _ _ _ (pick_all profiles results Hd Hsz)) as (name & Hin & Hnin).
    { intros He%fmap_empty_inv. subst. by rewrite dom_empty_L in Hdp. }
    rewrite dom_fmap_L in Hin. apply elem_of_dom_2 in Hdec.
    assert (name = pd.pd_prefillProfile h) as -> by set_solver. apply elem_of_dom in Hin as [p Hp].
    rewrite Hp. by apply pick_one.
  - intros alloc r results cs Hd Hs Hne. unfold pd.ProcessResults.
    destruct (results !! pd.pd_decodeProfile h) as [[targets|]|] eqn:Hdec; try (by apply wp_ret).
    apply wp_bind. eapply (wp_mono _ (λ decode _, Forall2 same_pod decode.1 targets)).
    { case_bool_decide; [|by apply wp_ret, same_pods_refl].
      destruct targets as [|target targets]; [by destruct (Hs _ _ Hdec)|]. apply wp_ret, rewrite_ports_same. }
    intros [decode r'] cs' Hsame. apply wp_ret. simpl in *. split; simpl.
    + by edestruct add_stage_keeps as [t H]; [by apply lookup_singleton_Some|exists t].
    + unfold disagg.add_stage. assert (∀ name t, ({[pd.pd_decodeProfile h := Some decode]} : Results) !! name = Some (Some t) →
        t ≠ [] ∧ ∃ ran, results !! name = Some (Some ran) ∧ Forall2 same_pod t ran) as Hbase.
      { intros name t [<- [= <-]]%lookup_singleton_Some. split; [|by exists targets].
        intros ->. apply Forall2_nil_inv_l in Hsame as ->. by destruct (Hs _ _ Hdec). }
      destruct (results !! pd.pd_prefillProfile h) as [[t|]|] eqn:Hpre; [|done..].
      intros name t' [[<- [= <-]]|[_ H]]%lookup_insert_Some; [|by apply Hbase].
      split; [by eapply Hs|]. exists t. split; [done|apply same_pods_refl].
Qed.

(** ** The deprecated handler with a third profile *)

Section three_profiles.
Context (h : pd.PdProfileHandler) (profiles : Profiles) (candidates : list Endpoint).
Context (decider : Decider).
Hypothesis (Hok : Forall endpoint_ok candidates) (Hnd : NoDup (ep_ptrs candidates)).
Hypothesis (Hp : map_Forall (λ _, lawful_profile) profiles).
Hypothesis (Hthree : 2 < size profiles) (Hprefill : pd.pd_prefillProfile h ∈ dom profiles).
Hypothesis (Hne : pd.pd_decodeProfile h ≠ pd.pd_prefillProfile h).
Hypothesis (Hdecider : pd.pd_decider h = Some decider).

Lemma pd_loops fuel : ∀ round cd r results target targets cs,
  (∀ ep, dc_disaggregate decider r ep = true) →
  results !! pd.pd_decodeProfile h = Some (Some (target :: targets)) → results_from candidates results →
  dom results ⊆ {[ pd.pd_decodeProfile h; pd.pd_prefillProfile h ]} →
  wp (schedule_loop fuel round cd (mkScheduler (pd.PdHandler h) profiles) r candidates results)
    (λ res _, res = None) cs.
Proof using Hok Hnd Hp Hthree Hprefill Hne Hdecider.
  induction fuel as [|fuel IH]; intros round cd r results target targets cs Hyes Hdec Hfrom Hdom; [done|].
  cbn [schedule_loop]. apply wp_bind. simpl. unfold pd.Pick. rewrite Hdec, Hdecider, bool_decide_eq_false_2; cycle 1.
  { rewrite <- (size_dom results). apply subseteq_size in Hdom.
    assert (size ({[pd.pd_decodeProfile h; pd.pd_prefillProfile h]} : gset string) ≤ 2) as H2.
    { rewrite size_union, !size_singleton; [done|set_solver]. }
    lia. }
  rewrite bool_decide_eq_false_2 by done. simpl. apply wp_bind, wp_ret. rewrite Hyes. apply wp_ret. simpl.
  rewrite bool_decide_eq_false_2 by by rewrite map_size_singleton.
  apply elem_of_dom in Hprefill as [p Hpre]. rewrite Hpre, map_to_list_singleton. simpl.
  apply wp_bind, wp_bind. eapply wp_mono; [by apply (run_ok p _ r candidates cs); [apply (Hp (pd.pd_prefillProfile h))|..]|].
  intros res cs' Hres. apply wp_ret. eapply (IH _ _ _ _ target targets); [done| | |].
  - by rewrite lookup_insert_ne.
  - intros name ts [[<- Hin]|[_ Hin]]%lookup_insert_Some; [|by apply Hfrom in Hin].
    destruct res; [by injection Hin as <-|done].
  - rewrite dom_insert_L. set_solver.
Qed.
End three_profiles.

(** The deprecated prefill/decode handler never finishes when a third profile is
    configured. If its decider keeps asking for prefill and the decode profile finds a
    target, then no number of rounds is enough: the handler stops when there are as many
    results as profiles, but only ever runs two of them. *)
Theorem pd_three_profiles_diverge (h : pd.PdProfileHandler) (profiles : Profiles) (candidates : list Endpoint)
    (decider : Decider) (cd : CycleDraws) (request : InferenceRequest) (p : SchedulerProfile)
    (targets : list Endpoint) (cs : CycleState)
    (Hok : Forall endpoint_ok candidates) (Hnd : NoDup (ep_ptrs candidates))
    (Hp : map_Forall (λ _, lawful_profile) profiles)
    (Hthree : 2 < size profiles) (Hprefill : pd.pd_prefillProfile h ∈ dom profiles)
    (Hne : pd.pd_decodeProfile h ≠ pd.pd_prefillProfile h)
    (Hdecider : pd.pd_decider h = Some decider) (Hyes : ∀ ep, dc_disaggregate decider request ep = true)
    (Hdecode : profiles !! pd.pd_decodeProfile h = Some p)
    (Hrun : Run p (cd_run cd 0 (pd.pd_decodeProfile h)) request candidates NewCycleState = Some (inl targets, cs)) :
  ∀ fuel, Schedule fuel cd (mkScheduler (pd.PdHandler h) profiles) request candidates = Some None.
Proof.
  intros fuel. enough (wp (schedule_loop fuel 0 cd (mkScheduler (pd.PdHandler h) profiles) request candidates ∅)
    (λ res _, res = None) NewCycleState) as Hw.
  { apply wp_run in Hw as (res & cs' & Hw & ->). unfold Schedule, schedule_cycle, mbind, gom_bind. by rewrite Hw. }
  pose proof (run_ok p (cd_run cd 0 (pd.pd_decodeProfile h)) request candidates NewCycleState (Hp _ _ Hdecode) Hok Hnd) as Hro.
  apply wp_run in Hro as (res & cs' & Hrun' & Hres). rewrite Hrun in Hrun'. injection Hrun' as <- <-.
  destruct Hres as [Htne Hsub], targets as [|target targets]; [done|].
  destruct fuel as [|fuel]; [done|]. cbn [schedule_loop]. apply wp_bind. simpl. unfold pd.Pick.
  rewrite lookup_empty, Hdecode. apply wp_ret. simpl.
  rewrite bool_decide_eq_false_2 by by rewrite map_size_singleton. rewrite map_to_list_singleton. simpl.
  apply wp_bind, wp_bind, wp_run. eexists _, _. split; [exact Hrun|]. apply wp_ret.
  eapply (pd_loops h profiles candidates decider); try done.
  - by rewrite lookup_insert_eq.
  - by intros name ts [[<- [= <-]]|[_ H]]%lookup_insert_Some; [|rewrite lookup_empty in H].
  - rewrite dom_insert_L, dom_empty_L. set_solver.
Qed.

Definition three_profiles : Profiles :=
  {[ "decode" := sample_profile; "prefill" := sample_profile; "encode" := sample_profile ]}.
Definition sample_pd : pd.PdProfileHandler := pd.mkPdHandler "decode" "prefill" "" (Some AlwaysDisaggPDDecider).
Definition sample_cycle_draws : CycleDraws := mkCycleDraws (λ _ _, 0) (λ _ _, sample_run_draws) Pos.of_nat.

Lemma sample_profile_lawful : lawful_profile sample_profile.
Proof.
  split_and!; [constructor|constructor; [apply FirstScorer_lawful|constructor]|].
  eexists _, _. split; [reflexivity|apply MaxScorePicker_lawful].
Qed.

Lemma three_profiles_lawful : map_Forall (λ _, lawful_profile) three_profiles.
Proof.
  intros name p Hp. assert (p = sample_profile) as ->; [|apply sample_profile_lawful].
  unfold three_profiles in Hp. by repeat apply lookup_insert_Some in Hp as [[_ <-]|[_ Hp]];
    [..|apply lookup_singleton_Some in Hp as [_ <-]].
Qed.

Lemma pd_three_profiles_diverge_witness :
  Schedule 1000 sample_cycle_draws (mkScheduler (pd.PdHandler sample_pd) three_profiles) sample_request
    [sample_endpoint 1 "a"] = Some None.
Proof.
  eapply (pd_three_profiles_diverge sample_pd three_profiles [sample_endpoint 1 "a"] AlwaysDisaggPDDecider
    sample_cycle_draws sample_request sample_profile [sample_endpoint 1 "a"] ∅).
  - constructor; [apply sample_endpoint_ok|constructor].
  - apply NoDup_singleton.
  - apply three_profiles_lawful.
  - vm_compute. lia.
  - apply elem_of_dom. vm_compute. eexists. reflexivity.
  - discriminate.
  - reflexivity.
  - reflexivity.
  - vm_compute. reflexivity.
  - vm_compute. reflexivity.
Defined.

(** ** What the disaggregation handler decides *)

(** The profile of this name ran, and found these targets, or none. *)
Definition ran (profiles : Profiles) (request : InferenceRequest) (candidates : list Endpoint) (name : string)
    (res : ProfileRunResult) : Prop :=
  ∃ p rd cs cs' out, profiles !! name = Some p ∧ Run p rd request candidates cs = Some (out, cs') ∧
    res = match out with inl targets => Some targets | inr _ => None end.

(** An optional stage, given the decode target: it is left out because it is not
    configured, its decider said no, or its run failed; otherwise its decider said yes and
    its run succeeded. *)
Definition stage_decided (profiles : Profiles) (request : InferenceRequest) (candidates : list Endpoint)
    (target : Endpoint) (name : string) (decider : option Decider) (res : option ProfileRunResult) : Prop :=
  match res with
  | None => profiles !! name = None ∨ disagg.says_yes decider request target = false ∨
            ran profiles request candidates name None
  | Some None => False
  | Some (Some targets) => disagg.says_yes decider request target = true ∧
            ran profiles request candidates name (Some targets)
  end.

(** The same for a result that may be a nil entry. *)
Definition stage_entry (profiles : Profiles) (request : InferenceRequest) (candidates : list Endpoint)
    (target : Endpoint) (name : string) (decider : option Decider) (results : Results) : Prop :=
  ∀ res, results !! name = Some res → stage_decided profiles request candidates target name decider (Some <$> res).

Lemma loop_stop fuel round cd h profiles r candidates results results' cs :
  ph_Pick h r profiles results cs = Some ((∅, results'), cs) →
  schedule_loop (S fuel) round cd (mkScheduler h profiles) r candidates results cs = Some (Some results', cs).
Proof. intros Hp. cbn [schedule_loop]. unfold mbind, gom_bind. simpl. by rewrite Hp. Qed.

(** A round that runs one profile. *)
Lemma loop_run fuel round cd h profiles r candidates results results' name p cs Q :
  ph_Pick h r profiles results cs = Some (({[ name := Some p ]}, results'), cs) →
  wp (Run p (cd_run cd round name) r candidates) (λ res cs',
    wp (schedule_loop fuel (S round) cd (mkScheduler h profiles) r candidates
      (<[name := match res with inl targets => Some targets | inr _ => None end]> results')) Q cs') cs →
  wp (schedule_loop (S fuel) round cd (mkScheduler h profiles) r candidates results) Q cs.
Proof.
  intros Hp Hw. cbn [schedule_loop]. apply wp_bind, wp_run. eexists _, _. split; [exact Hp|]. simpl.
  rewrite bool_decide_eq_false_2 by by rewrite map_size_singleton. rewrite map_to_list_singleton. simpl.
  apply wp_bind, wp_bind. eapply wp_mono; [exact Hw|]. intros res cs' Hl. by apply wp_ret.
Qed.

Section stage_lemmas.
Context (profiles : Profiles) (request : InferenceRequest) (candidates : list Endpoint).

Lemma stage_cases name decider target results q results' :
  disagg.stage name decider request target profiles results = (q, results') →
  stage_entry profiles request candidates target name decider results →
  match q with
  | Some p => results' = results ∧ profiles !! name = Some p ∧ results !! name = None ∧
      disagg.says_yes decider request target = true
  | None => stage_entry profiles request candidates target name decider results' ∧
      (name ∈ dom profiles → name ∈ dom results') ∧ (∀ n, n ≠ name → results' !! n = results !! n) ∧
      dom results ⊆ dom results'
  end.
Proof.
  unfold disagg.stage. intros Hst He.
  destruct (profiles !! name) as [p|] eqn:Hn; cycle 1.
  { injection Hst as <- <-. split_and!; try done. by intros [? ?]%elem_of_dom; simplify_eq. }
  destruct (results !! name) as [res|] eqn:Hr.
  { injection Hst as <- <-. split_and!; try done. by apply elem_of_dom_2 in Hr. }
  destruct (disagg.says_yes decider request target) eqn:Hy; injection Hst as <- <-; [done|]. split_and!.
  - intros res. rewrite lookup_insert_eq. intros [= <-]. right. by left.
  - intros _. rewrite dom_insert_L. set_solver.
  - intros n Hne. by rewrite lookup_insert_ne.
  - rewrite dom_insert_L. set_solver.
Qed.

Lemma stage_entry_insert target name decider results n res :
  stage_entry profiles request candidates target name decider results → n ≠ name →
  stage_entry profiles request candidates target name decider (<[n := res]> results).
Proof. intros He Hne res'. rewrite lookup_insert_ne by done. apply He. Qed.

Lemma stage_entry_new target name decider results res :
  stage_decided profiles request candidates target name decider (Some <$> res) →
  stage_entry profiles request candidates target name decider (<[name := res]> results).
Proof. intros Hs res'. rewrite lookup_insert_eq. by intros [= <-]. Qed.

Lemma stage_entry_same target name decider results results' :
  stage_entry profiles request candidates target name decider results → results' !! name = results !! name →
  stage_entry profiles request candidates target name decider results'.
Proof. intros He Heq res. rewrite Heq. apply He. Qed.

End stage_lemmas.

Section disagg_cycle.
Context (h : disagg.Handler) (profiles : Profiles) (candidates : list Endpoint) (cd : CycleDraws).
Context (request : InferenceRequest).
Hypothesis (Hok : Forall endpoint_ok candidates) (Hnd : NoDup (ep_ptrs candidates)).
Hypothesis (Hp : map_Forall (λ _, lawful_profile) profiles).
Hypothesis (Hde : disagg.h_decodeProfile h ≠ disagg.h_encodeProfile h).
Hypothesis (Hdp : disagg.h_decodeProfile h ≠ disagg.h_prefillProfile h).
Hypothesis (Hep : disagg.h_encodeProfile h ≠ disagg.h_prefillProfile h).

Let sched := mkScheduler (disagg.DisaggProfileHandler h) profiles.
Let entries target results :=
  stage_entry profiles request candidates target (disagg.h_encodeProfile h) (disagg.h_encodeDecider h) results ∧
  stage_entry profiles request candidates target (disagg.h_prefillProfile h) (disagg.h_pdDecider h) results.

(** The run of one stage's profile, with the entry that it leaves. *)
Lemma stage_run round name p cs results results' decider target (Q : option Results → CycleState → Prop) fuel :
  profiles !! name = Some p → disagg.says_yes decider request target = true →
  (∀ res cs', stage_decided profiles request candidates target name decider (Some <$> res) →
    wp (schedule_loop fuel (S round) cd sched request candidates (<[name := res]> results')) Q cs') →
  ph_Pick (disagg.DisaggProfileHandler h) request profiles results cs = Some (({[ name := Some p ]}, results'), cs) →
  wp (schedule_loop (S fuel) round cd sched request candidates results) Q cs.
Proof using Hok Hnd Hp.
  intros Hn Hy Hk Hpick. eapply loop_run; [exact Hpick|]. clear Hpick.
  pose proof (run_ok p (cd_run cd round name) request candidates cs (Hp _ _ Hn) Hok Hnd) as Hw.
  apply wp_run in Hw as (out & cs' & Hrun & _). apply wp_run. exists out, cs'. split; [exact Hrun|]. apply Hk.
  destruct out as [targets|err]; simpl; [split; [done|]|do 2 right]; by eexists p, _, cs, cs', _.
Qed.

Let pending (results : Results) :=
  size (({[ disagg.h_encodeProfile h; disagg.h_prefillProfile h ]} : gset string) ∖ dom results).

Lemma pending_insert (results results' : Results) name (res : ProfileRunResult) fuel :
  pending results < S fuel → dom results ⊆ dom results' → name ∉ dom results →
  name = disagg.h_encodeProfile h ∨ name = disagg.h_prefillProfile h → pending (<[name := res]> results') < fuel.
Proof using Type.
  intros Hf Hd Hn Hname. enough (pending (<[name := res]> results') < pending results) by lia.
  unfold pending. apply subset_size. rewrite dom_insert_L. clear -Hd Hn Hname. split; [set_solver|].
  intros Hsub. specialize (Hsub name). set_solver.
Qed.

Lemma stages_loop fuel : ∀ round results target targets cs,
  results !! disagg.h_decodeProfile h = Some (Some (target :: targets)) → entries target results →
  pending results < fuel →
  wp (schedule_loop fuel round cd sched request candidates results) (λ res _, ∃ results',
    res = Some results' ∧ results' !! disagg.h_decodeProfile h = Some (Some (target :: targets)) ∧
    entries target results' ∧
    (disagg.h_encodeProfile h ∈ dom profiles → disagg.h_encodeProfile h ∈ dom results') ∧
    (disagg.h_prefillProfile h ∈ dom profiles → disagg.h_prefillProfile h ∈ dom results')) cs.
Proof using Hok Hnd Hp Hde Hdp Hep.
  induction fuel as [|fuel IH]; intros round results target targets cs Hdec [He1 He2] Hf; [lia|].
  destruct (disagg.stage (disagg.h_encodeProfile h) (disagg.h_encodeDecider h) request target profiles results)
    as [q1 results1] eqn:Hs1. pose proof (stage_cases _ _ _ _ _ _ _ _ _ Hs1 He1) as H1.
  destruct q1 as [p1|].
  { destruct H1 as (-> & Hp1 & Hr1 & Hy1). eapply (stage_run _ _ p1 _ _ results _ target); [done|exact Hy1| |].
    - intros res cs' Hres. apply IH.
      + by rewrite lookup_insert_ne.
      + split; [by apply stage_entry_new|by apply stage_entry_insert].
      + eapply pending_insert; [done|done|by apply not_elem_of_dom|by left].
    - simpl. unfold disagg.Pick. by rewrite Hdec, Hs1. }
  destruct H1 as (He1' & Hd1 & Hsame1 & Hsub1).
  assert (stage_entry profiles request candidates target (disagg.h_prefillProfile h) (disagg.h_pdDecider h) results1)
    as He2' by (eapply stage_entry_same; [exact He2|by apply Hsame1]).
  destruct (disagg.stage (disagg.h_prefillProfile h) (disagg.h_pdDecider h) request target profiles results1)
    as [q2 results2] eqn:Hs2. pose proof (stage_cases _ _ _ _ _ _ _ _ _ Hs2 He2') as H2.
  destruct q2 as [p2|].
  { destruct H2 as (-> & Hp2 & Hr2 & Hy2). eapply (stage_run _ _ p2 _ _ results1 _ target); [done|exact Hy2| |].
    - intros res cs' Hres. apply IH.
      + rewrite lookup_insert_ne by done. by rewrite Hsame1.
      + split; [by apply stage_entry_insert|by apply stage_entry_new].
      + eapply pending_insert; [done|done| |by right]. apply not_elem_of_dom. by rewrite <- Hsame1.
    - simpl. unfold disagg.Pick. by rewrite Hdec, Hs1, Hs2. }
  destruct H2 as (He2'' & Hd2 & Hsame2 & Hsub2). apply wp_run. exists (Some results2), cs. split.
  - apply loop_stop. simpl. unfold disagg.Pick. by rewrite Hdec, Hs1, Hs2.
  - exists results2. split_and!; [done| | | |done].
    + rewrite Hsame2, Hsame1 by done. done.
    + split; [|done]. eapply stage_entry_same; [exact He1'|by apply Hsame2].
    + intros Hin. by apply Hsub2, Hd1.
Qed.
End disagg_cycle.

Definition first_host_port (res : option ProfileRunResult) : option string :=
  match res with Some (Some (target :: _)) => Some (host_port target) | _ => None end.
Definition all_host_ports (res : option ProfileRunResult) : option string :=
  match res with
  | Some (Some (target :: targets)) => Some (strings_Join (host_port <$> (target :: targets)) ",")
  | _ => None
  end.

(** The headers that the decode worker sees: those of the decision, never those that the
    client sent. *)
Definition headers_announce (prefillProfile encodeProfile : string) (sr : SchedulingResult)
    (request request' : InferenceRequest) : Prop :=
  ir_Headers request' !! PrefillEndpointHeader = first_host_port (sr_ProfileResults sr !! prefillProfile) ∧
  ir_Headers request' !! EncoderEndpointsHeader = all_host_ports (sr_ProfileResults sr !! encodeProfile) ∧
  ∀ name, name ≠ PrefillEndpointHeader → name ≠ EncoderEndpointsHeader →
    ir_Headers request' !! name = ir_Headers request !! name.

Lemma PreRequest_announces prefillProfile encodeProfile sr request :
  headers_announce prefillProfile encodeProfile sr request
    (headers.PreRequest prefillProfile encodeProfile request (Some sr)).
Proof.
  unfold headers_announce, headers.PreRequest, first_host_port, all_host_ports.
  assert (PrefillEndpointHeader ≠ EncoderEndpointsHeader) as Hne by done.
  destruct (sr_ProfileResults sr !! prefillProfile) as [[[|t ts]|]|];
  destruct (sr_ProfileResults sr !! encodeProfile) as [[[|t' ts']|]|]; simpl; split_and!; intros; by simplify_map_eq.
Qed.

Lemma add_stage_lookup name results updated n :
  disagg.add_stage name results updated !! n =
    if decide (n = name) then match results !! name with Some (Some t) => Some (Some t) | _ => updated !! n end
    else updated !! n.
Proof.
  unfold disagg.add_stage. destruct (results !! name) as [[t|]|]; case_decide; simplify_map_eq; done.
Qed.

Lemma stage_entry_decided profiles request candidates target name decider results :
  stage_entry profiles request candidates target name decider results →
  (name ∈ dom profiles → name ∈ dom results) →
  stage_decided profiles request candidates target name decider
    (match results !! name with Some (Some t) => Some (Some t) | _ => None end).
Proof.
  intros He Hd. destruct (results !! name) as [res|] eqn:Hr; [specialize (He _ Hr); by destruct res|].
  left. apply not_elem_of_dom. intros Hin%Hd%elem_of_dom. rewrite Hr in Hin. by destruct Hin.
Qed.

(** A decision for the configured profiles: it fails if decode is not configured or finds
    no worker; otherwise decode is primary and has targets, and prefill and encode are as
    decided by the deciders, given the first decode target. *)
Definition disagg_decision (h : disagg.Handler) (profiles : Profiles) (request : InferenceRequest)
    (candidates : list Endpoint) (decision : SchedulingResult + GoError) : Prop :=
  match decision with
  | inr _ => profiles !! disagg.h_decodeProfile h = None ∨
             ran profiles request candidates (disagg.h_decodeProfile h) None
  | inl sr => sr_PrimaryProfileName sr = disagg.h_decodeProfile h ∧ ∃ target targets,
      sr_ProfileResults sr !! disagg.h_decodeProfile h = Some (Some (target :: targets)) ∧
      ran profiles request candidates (disagg.h_decodeProfile h) (Some (target :: targets)) ∧
      stage_decided profiles request candidates target (disagg.h_prefillProfile h) (disagg.h_pdDecider h)
        (sr_ProfileResults sr !! disagg.h_prefillProfile h) ∧
      stage_decided profiles request candidates target (disagg.h_encodeProfile h) (disagg.h_encodeDecider h)
        (sr_ProfileResults sr !! disagg.h_encodeProfile h) ∧
      headers_announce (disagg.h_prefillProfile h) (disagg.h_encodeProfile h) sr request
        (headers.PreRequest (disagg.h_prefillProfile h) (disagg.h_encodeProfile h) request (Some sr))
  end.

Lemma schedule_wp fuel cd s request candidates (P : SchedulingResult + GoError → Prop) :
  wp (schedule_cycle fuel cd s request candidates)
    (λ res _, ∃ decision, res = Some (decision, request) ∧ P decision) NewCycleState →
  ∃ decision, Schedule fuel cd s request candidates = Some (Some (decision, request)) ∧ P decision.
Proof.
  intros (res & cs & Hrun & decision & -> & Hd)%wp_run. exists decision.
  split; [unfold Schedule; by rewrite Hrun|exact Hd].
Qed.

(** What [ProcessResults] makes of the results of a cycle. *)
Lemma disagg_process h profiles request candidates results target targets alloc cs :
  disagg.h_decodeProfile h ≠ disagg.h_encodeProfile h → disagg.h_decodeProfile h ≠ disagg.h_prefillProfile h →
  disagg.h_encodeProfile h ≠ disagg.h_prefillProfile h →
  results !! disagg.h_decodeProfile h = Some (Some (target :: targets)) →
  ran profiles request candidates (disagg.h_decodeProfile h) (Some (target :: targets)) →
  stage_entry profiles request candidates target (disagg.h_encodeProfile h) (disagg.h_encodeDecider h) results →
  stage_entry profiles request candidates target (disagg.h_prefillProfile h) (disagg.h_pdDecider h) results →
  (disagg.h_encodeProfile h ∈ dom profiles → disagg.h_encodeProfile h ∈ dom results) →
  (disagg.h_prefillProfile h ∈ dom profiles → disagg.h_prefillProfile h ∈ dom results) →
  wp (disagg.ProcessResults h alloc request results)
    (λ d _, d.2 = request ∧ disagg_decision h profiles request candidates d.1) cs.
Proof.
  intros Hde Hdp Hep Hr Hran He1 He2 Hd1 Hd2. unfold disagg.ProcessResults. rewrite Hr. apply wp_ret.
  unfold disagg_decision. cbn [fst snd sr_PrimaryProfileName sr_ProfileResults]. split; [done|].
  split; [done|]. exists target, targets. rewrite !add_stage_lookup.
  rewrite !(decide_False (P:=disagg.h_decodeProfile h = _)) by done.
  rewrite (decide_False (P:=disagg.h_prefillProfile h = disagg.h_encodeProfile h)) by done.
  rewrite !decide_True by done. rewrite (decide_False (P:=disagg.h_encodeProfile h = disagg.h_prefillProfile h)) by done.
  rewrite lookup_singleton_eq, !lookup_singleton_ne by done.
  split_and!; [done|done|by apply stage_entry_decided..|apply PreRequest_announces].
Qed.

(** C18. What the disaggregation handler decides. With lawful profiles, distinct,
    well-formed candidates and distinct profile names, a cycle finishes within four
    rounds. It fails exactly if the decode profile is not configured or finds no worker.
    Otherwise decode is the primary profile and has a target; a prefill (encode) worker is
    part of the decision only if its decider asked for it given the first decode target
    and its profile ran and found one, and it is left out only if it is not configured, its
    decider said no, or its run failed. After the pre-request plugin, the request's
    headers name exactly the prefill worker and the encode workers of the decision,
    whatever the client sent in them, and all other headers are unchanged. *)
Theorem disagg_decides (fuel : nat) (cd : CycleDraws) (h : disagg.Handler) (profiles : Profiles)
    (request : InferenceRequest) (candidates : list Endpoint)
    (Hp : map_Forall (λ _, lawful_profile) profiles)
    (Hok : Forall endpoint_ok candidates) (Hnd : NoDup (ep_ptrs candidates))
    (Hde : disagg.h_decodeProfile h ≠ disagg.h_encodeProfile h)
    (Hdp : disagg.h_decodeProfile h ≠ disagg.h_prefillProfile h)
    (Hep : disagg.h_encodeProfile h ≠ disagg.h_prefillProfile h) (Hfuel : 3 < fuel) :
  ∃ decision,
    Schedule fuel cd (mkScheduler (disagg.DisaggProfileHandler h) profiles) request candidates
      = Some (Some (decision, request)) ∧
    disagg_decision h profiles request candidates decision.
Proof.
  apply schedule_wp. unfold schedule_cycle. apply wp_bind. destruct fuel as [|fuel]; [lia|].
  destruct (profiles !! disagg.h_decodeProfile h) as [p|] eqn:Hdec; cycle 1.
  { apply wp_run. eexists _, _. split; [apply loop_stop; simpl; unfold disagg.Pick; by rewrite lookup_empty, Hdec|].
    apply wp_ret. eexists. split; [done|]. by left. }
  eapply loop_run; [simpl; unfold disagg.Pick; by rewrite lookup_empty, Hdec|].
  pose proof (run_ok p (cd_run cd 0 (disagg.h_decodeProfile h)) request candidates NewCycleState (Hp _ _ Hdec) Hok Hnd) as Hw.
  apply wp_run in Hw as (out & cs & Hrun & Hout). apply wp_run. exists out, cs. split; [exact Hrun|].
  assert (ran profiles request candidates (disagg.h_decodeProfile h)
    (match out with inl targets => Some targets | inr _ => None end)) as Hran by by eexists p, _, _, _, out.
  destruct out as [[|target targets]|err]; [by destruct Hout| |].
  - eapply wp_mono; [apply (stages_loop h profiles candidates cd request Hok Hnd Hp Hde Hdp Hep fuel)|].
    + by rewrite lookup_insert_eq.
    + split; intros res; rewrite lookup_insert_ne by done; by rewrite lookup_empty.
    + rewrite dom_insert_L, dom_empty_L.
      apply (Nat.le_lt_trans _ (size ({[disagg.h_encodeProfile h; disagg.h_prefillProfile h]} : gset string))).
      * apply subseteq_size. set_solver.
      * rewrite size_union, !size_singleton by set_solver. lia.
    + intros res cs' (results & -> & Hr & [He1 He2] & Hd1 & Hd2). cbn beta iota.
      rewrite bool_decide_eq_false_2 by (intros ->%map_size_empty_inv; by rewrite lookup_empty in Hr).
      apply wp_bind. eapply wp_mono; [by eapply disagg_process|].
      intros [decision r'] cs2 [<- Hd]. apply wp_ret. by eexists.
  - apply wp_run. destruct fuel as [|fuel]; [lia|]. eexists _, _.
    split; [apply loop_stop; simpl; unfold disagg.Pick; by rewrite lookup_insert_eq|].
    cbn beta iota. rewrite bool_decide_eq_false_2 by by rewrite map_size_insert_None.
    apply wp_bind. simpl. unfold disagg.ProcessResults. rewrite lookup_insert_eq. apply wp_ret, wp_ret.
    eexists. split; [done|]. by right.
Qed.

(** A cycle with a decode worker, a prefill worker and a client that sends a forged header. *)
Definition sample_handler : disagg.Handler :=
  disagg.mkHandler "decode" "prefill" "encode" (Some AlwaysDisaggPDDecider) None.
Definition forged_request : InferenceRequest :=
  set_header PrefillEndpointHeader "evil:1" (set_header "x-user" "u" sample_request).

Lemma disagg_decides_witness :
  ∃ sr, Schedule 4 sample_cycle_draws (mkScheduler (disagg.DisaggProfileHandler sample_handler) three_profiles)
      forged_request [sample_endpoint 1 "a"; sample_endpoint 2 "b"] = Some (Some (inl sr, forged_request)) ∧
    headers_announce "prefill" "encode" sr forged_request
      (headers.PreRequest "prefill" "encode" forged_request (Some sr)) ∧
    first_host_port (sr_ProfileResults sr !! "prefill"%string) = Some "10.0.0.1:8000"%string.
Proof.
  destruct (disagg_decides 4 sample_cycle_draws sample_handler three_profiles forged_request
    [sample_endpoint 1 "a"; sample_endpoint 2 "b"]) as (decision & Hs & Hd).
  - apply three_profiles_lawful.
  - constructor; [apply sample_endpoint_ok|]. constructor; [apply sample_endpoint_ok|constructor].
  - simpl. repeat constructor; set_solver.
  - discriminate.
  - discriminate.
  - discriminate.
  - lia.
  - destruct decision as [sr|err].
    + exists sr. split; [exact Hs|]. destruct Hd as (_ & target & targets & _ & _ & _ & _ & Hh).
      split; [exact Hh|]. vm_compute in Hs. injection Hs as <-. vm_compute. reflexivity.
    + exfalso. vm_compute in Hs. discriminate.
Defined.

(** A cycle of the single-profile handler. *)
Lemma schedule_terminates_witness :
  ∃ decision request', Schedule 2 sample_cycle_draws
    (mkScheduler single.SingleProfileHandler {[ "default"%string := sample_profile ]}) sample_request
    [sample_endpoint 1 "a"; sample_endpoint 2 "b"] = Some (Some (decision, request')).
Proof.
  destruct (schedule_terminates 2 sample_cycle_draws single.SingleProfileHandler
    {[ "default"%string := sample_profile ]} sample_request [sample_endpoint 1 "a"; sample_endpoint 2 "b"])
    as (decision & request' & Hs & _).
  - apply single_lawful.
  - intros name p [_ <-]%lookup_singleton_Some. apply sample_profile_lawful.
  - constructor; [apply sample_endpoint_ok|]. constructor; [apply sample_endpoint_ok|constructor].
  - simpl. repeat constructor; set_solver.
  - rewrite map_size_singleton. lia.
  - exists decision, request'. exact Hs.
Defined.
