(* ===== verification/Saturation.v ===== *)
(** * Saturation of the pool and usage limits: [flowcontrol/saturationdetector],
    [flowcontrol/usagelimits]

    The utilization detector judges each endpoint by the metrics it reports, the
    concurrency detector by the requests or tokens that were sent to it. Both give the pool
    a saturation, which gates the dispatch cycle of the processor, and filter the endpoints
    of a scheduling cycle. [SaturationDetector] is the contract of
    [interface/flowcontrol/plugins.go]: at least one if the pool is full, below one if it
    has room, in [float64] arithmetic. Endpoints have metadata and metrics, as
    [datalayer.NewEndpoint] makes them. *)

From stdpp Require Import prelude gmap strings list.
From Stdlib Require Import ZArith Lia Floats.SpecFloat.
From S2P Require Import Prelude Float64 FloatRound FloatOps FloatSum FlowTypes Ordering SafeQueue QueueFactory ManagedQueue RegistryConfig Shard Item Registry RegistryInv RegistryProps Processor ProcessorInv ProcessorProps SchedTypes Pickers SchedulerProfile Filters Scorers.

Open Scope go_scope.

(** [errors.Join]. *)
Definition errors_Join (errs : list GoError) : option GoError :=
  match errs with [] => None | _ => Some (EWrap errs) end.

(** The built-in [max] on floating-point numbers. *)
Definition fmax (x y : float64) : float64 :=
  if is_nan x then x else if is_nan y then y
  else if flt x y then y
  else if flt y x then x
  else match x with S754_zero true => y | _ => x end.

(** [time.Since(t)] at the instant [now]: the difference saturates. *)
Definition time_Since (now t : Z) : Z := Z.max (- Int.two63) (Z.min (Int.two63 - 1) (now - t)).

Definition errs_if (b : bool) (msg : string) : list GoError := if b then [ENew msg] else [].

(** [o != nil && p( *o )]. *)
Definition when {A} (o : option A) (p : A → bool) : bool := match o with Some x => p x | None => false end.

(** ** The utilization detector *)

Module utilization.

Definition DefaultQueueDepthThreshold : Z := 5.
Definition DefaultKVCacheUtilThreshold : float64 := fdiv (of_int 8) (of_int 10).
Definition DefaultMetricsStalenessThreshold : Z := 200 * 1000000.
Definition defaultHeadroom : float64 := fzero.

Record apiConfig := mkApiConfig {
  api_QueueDepthThreshold : option Z;
  api_KVCacheUtilThreshold : option float64;
  api_MetricsStalenessThreshold : option Z;
  api_Headroom : option float64
}.

Record Config := mkConfig {
  QueueDepthThreshold : Z;
  KVCacheUtilThreshold : float64;
  MetricsStalenessThreshold : Z;
  Headroom : float64
}.

Definition applyDefaults (cfg : apiConfig) : apiConfig :=
  mkApiConfig
    (Some (default DefaultQueueDepthThreshold (api_QueueDepthThreshold cfg)))
    (Some (default DefaultKVCacheUtilThreshold (api_KVCacheUtilThreshold cfg)))
    (Some (default DefaultMetricsStalenessThreshold (api_MetricsStalenessThreshold cfg)))
    (Some (default defaultHeadroom (api_Headroom cfg))).

Definition validateConfig (cfg : apiConfig) : option GoError :=
  errors_Join
    (errs_if (when (api_QueueDepthThreshold cfg) (λ t, bool_decide (t ≤ 0)%Z))
       "queueDepthThreshold must be strictly positive" ++
     errs_if (when (api_KVCacheUtilThreshold cfg) (λ t, fle t fzero || flt fone t))
       "kvCacheUtilThreshold must be in (0.0, 1.0]" ++
     errs_if (when (api_MetricsStalenessThreshold cfg) (λ t, bool_decide (t ≤ 0)%Z))
       "metricsStalenessThreshold must be strictly positive" ++
     errs_if (when (api_Headroom cfg) (λ h, flt h fzero)) "headroom must be a non-negative value").

(** The dereferenced fields are set after the defaults have been applied. *)
Definition buildConfig (apiCfg : option apiConfig) : Config + GoError :=
  let safeCfg := applyDefaults (default (mkApiConfig None None None None) apiCfg) in
  match validateConfig safeCfg with
  | Some err => inr (EWrap [err])
  | None =>
      inl (mkConfig (default 0%Z (api_QueueDepthThreshold safeCfg))
             (default fzero (api_KVCacheUtilThreshold safeCfg))
             (default 0%Z (api_MetricsStalenessThreshold safeCfg))
             (default fzero (api_Headroom safeCfg)))
  end.

Section detector.
Context (c : Config) (now : Z).

Definition is_stale (metrics : Metrics) : bool :=
  bool_decide (MetricsStalenessThreshold c < time_Since now (mt_UpdateTime metrics))%Z.

Definition pod_score (e : Endpoint) : float64 :=
  let metrics := ep_Metrics e in
  if is_stale metrics then fone
  else
    let qRatio := fdiv (of_int (mt_WaitingQueueSize metrics)) (of_int (QueueDepthThreshold c)) in
    let kvRatio := fdiv (mt_KVCacheUsagePercent metrics) (KVCacheUtilThreshold c) in
    fmax qRatio kvRatio.

Fixpoint total_score (totalScore : float64) (candidates : list Endpoint) : float64 :=
  match candidates with
  | [] => totalScore
  | e :: candidates' => total_score (fadd totalScore (pod_score e)) candidates'
  end.

Definition Saturation (candidates : list Endpoint) : float64 :=
  if bool_decide (length candidates = 0) then fone
  else fdiv (total_score fzero candidates) (of_int (Z.of_nat (length candidates))).

Definition under_limits (qLimit kvLimit : float64) (e : Endpoint) : bool :=
  negb (is_stale (ep_Metrics e)) &&
  flt (of_int (mt_WaitingQueueSize (ep_Metrics e))) qLimit && flt (mt_KVCacheUsagePercent (ep_Metrics e)) kvLimit.

Definition Filter (_ : Draws) (_ : InferenceRequest) (endpoints : list Endpoint) : CM (list Endpoint) :=
  let qLimit := fmul (of_int (QueueDepthThreshold c)) (fadd fone (Headroom c)) in
  let kvLimit := fmul (KVCacheUtilThreshold c) (fadd fone (Headroom c)) in
  let filtered := base.filter (λ e, under_limits qLimit kvLimit e = true) endpoints in
  mret (if bool_decide (length filtered = 0) then endpoints else filtered).
End detector.

End utilization.

(** ** The concurrency detector *)

Module concurrency.

Inductive concurrencyMode := modeRequests | modeTokens | modeOther (name : string).

#[export] Instance concurrencyMode_eq_dec : EqDecision concurrencyMode.
Proof. solve_decision. Defined.

Definition defaultMaxConcurrency : Z := 100.
Definition defaultHeadroom : float64 := fzero.
Definition defaultConcurrencyMode : concurrencyMode := modeRequests.
Definition defaultMaxTokenConcurrency : Z := 1000000.

Record apiConfig := mkApiConfig {
  api_MaxConcurrency : option Z;
  api_Headroom : option float64;
  api_ConcurrencyMode : option concurrencyMode;
  api_MaxTokenConcurrency : option Z
}.

Record config := mkConfig {
  maxConcurrency : Z;
  headroom : float64;
  mode : concurrencyMode;
  maxTokenConcurrency : Z
}.

Definition applyDefaults (cfg : apiConfig) : apiConfig :=
  mkApiConfig
    (Some (default defaultMaxConcurrency (api_MaxConcurrency cfg)))
    (Some (default defaultHeadroom (api_Headroom cfg)))
    (Some (default defaultConcurrencyMode (api_ConcurrencyMode cfg)))
    (Some (default defaultMaxTokenConcurrency (api_MaxTokenConcurrency cfg))).

Definition validateConfig (cfg : apiConfig) : option GoError :=
  errors_Join
    (errs_if (when (api_MaxConcurrency cfg) (λ m, bool_decide (m ≤ 0)%Z))
       "maxConcurrency must be strictly positive" ++
     errs_if (when (api_Headroom cfg) (λ h, flt h fzero)) "headroom must be a non-negative value" ++
     errs_if (when (api_MaxTokenConcurrency cfg) (λ m, bool_decide (m ≤ 0)%Z))
       "maxTokenConcurrency must be strictly positive" ++
     errs_if (when (api_ConcurrencyMode cfg)
                (λ m, match m with modeRequests | modeTokens => false | modeOther _ => true end))
       "unsupported concurrencyMode").

Definition buildConfig (apiCfg : option apiConfig) : config + GoError :=
  let safeCfg := applyDefaults (default (mkApiConfig None None None None) apiCfg) in
  match validateConfig safeCfg with
  | Some err => inr (EWrap [err])
  | None =>
      inl (mkConfig (default 0%Z (api_MaxConcurrency safeCfg)) (default fzero (api_Headroom safeCfg))
             (default modeRequests (api_ConcurrencyMode safeCfg))
             (default 0%Z (api_MaxTokenConcurrency safeCfg)))
  end.

Definition getLoad (e : Endpoint) : InFlightLoad :=
  match ep_Get InFlightLoadKey e with
  | Some (AInFlight load) => load
  | _ => mkInFlightLoad 0 0
  end.

Section detector.
Context (c : config).

Definition tokens_mode : bool := bool_decide (mode c = modeTokens).
Definition load_of (e : Endpoint) : Z := if tokens_mode then il_Tokens (getLoad e) else il_Requests (getLoad e).
Definition capacity : Z := if tokens_mode then maxTokenConcurrency c else maxConcurrency c.

Fixpoint totals (totalInflight totalCapacity : Z) (endpoints : list Endpoint) : Z * Z :=
  match endpoints with
  | [] => (totalInflight, totalCapacity)
  | e :: endpoints' =>
      totals (Int.i64 (totalInflight + load_of e)) (Int.i64 (totalCapacity + capacity)) endpoints'
  end.

Definition Saturation (endpoints : list Endpoint) : float64 :=
  let (totalInflight, totalCapacity) := totals 0 0 endpoints in
  if bool_decide (totalCapacity = 0%Z) then fone else fdiv (of_int totalInflight) (of_int totalCapacity).

Definition limit : Z := to_int (fmul (of_int capacity) (fadd fone (headroom c))).

Definition Filter (_ : Draws) (_ : InferenceRequest) (endpoints : list Endpoint) : CM (list Endpoint) :=
  mret (base.filter (λ e, (load_of e < limit)%Z) endpoints).
End detector.

End concurrency.

(** ** Usage limits *)

Module usagelimits.

Definition UsageLimitPolicy := (float64 → list Z → list float64).

Definition NewConstPolicy (threshold : float64) : UsageLimitPolicy :=
  λ _ priorities, replicate (length priorities) threshold.

Definition DefaultPolicy : UsageLimitPolicy := NewConstPolicy fone.

(** [StaticPolicyFactory], from the decoded parameters, if there are any. *)
Definition StaticPolicyFactory (rawConfig : option (option float64)) : UsageLimitPolicy :=
  NewConstPolicy (match rawConfig with Some (Some threshold) => threshold | _ => fone end).

End usagelimits.

(** ** The contract of a detector *)

(** The saturation of a pool is at least one if the pool is full and below one if it has
    room; which pools are full and which have room is up to the detector. *)
Class SaturationDetector (Saturation : list Endpoint → float64) (full spare : list Endpoint → Prop) : Prop := {
  saturation_full : ∀ eps, Forall endpoint_ok eps → full eps → fle fone (Saturation eps) = true;
  saturation_spare : ∀ eps, Forall endpoint_ok eps → spare eps → flt (Saturation eps) fone = true
}.

Lemma fmax_cases x y : is_nan x = false → is_nan y = false →
  (fmax x y = x ∨ fmax x y = y) ∧ fle x (fmax x y) = true ∧ fle y (fmax x y) = true.
Proof.
  intros Hx Hy. unfold fmax. rewrite Hx, Hy.
  destruct (flt x y) eqn:H1; [split_and!; [by right|by apply flt_fle|by apply fle_refl]|].
  destruct (flt y x) eqn:H2; [split_and!; [by left|by apply fle_refl|by apply flt_fle]|].
  apply not_flt_fle in H1, H2; [|done..]. destruct x as [[]| | |]; split_and!; auto using fle_refl.
Qed.

Lemma fmax_nonneg_inf x y : nonneg_inf x → nonneg_inf y → nonneg_inf (fmax x y).
Proof. intros Hx Hy. destruct (fmax_cases x y) as [[-> | ->] _]; auto using nonneg_inf_not_nan. Qed.

Lemma fmax_below_one x y : below_one x → below_one y → below_one (fmax x y).
Proof.
  intros Hx Hy. destruct (fmax_cases x y) as [[-> | ->] _]; auto; apply nonneg_not_nan; [apply Hx|apply Hy].
Qed.

Lemma fmax_above x y :
  nonneg_inf x → nonneg_inf y → fle fone x = true ∨ fle fone y = true → fle fone (fmax x y) = true.
Proof.
  intros Hx%nonneg_inf_not_nan Hy%nonneg_inf_not_nan H. destruct (fmax_cases x y Hx Hy) as (_ & H1 & H2).
  destruct H; by eapply fle_trans.
Qed.

Lemma fdiv_nonneg_inf x y : nonneg x → positive_float y → nonneg_inf (fdiv x y).
Proof. intros Hx Hy. eapply rounds_nonneg_inf. by apply fdiv_rounds. Qed.

(** *** Utilization *)

Section utilization.
Import utilization.
Context (c : Config) (now : Z).

(** What [buildConfig] guarantees. *)
Record utilization_ok : Prop := mkUtilizationOk {
  uo_queue : (0 < QueueDepthThreshold c < Int.two63)%Z;
  uo_cache : positive_float (KVCacheUtilThreshold c) ∧ fle (KVCacheUtilThreshold c) fone = true;
  uo_staleness : (0 < MetricsStalenessThreshold c)%Z
}.

(** An endpoint whose metrics are stale, or whose queue or cache has reached its
    threshold. *)
Definition overloaded (e : Endpoint) : Prop :=
  is_stale c now (ep_Metrics e) = true ∨ (QueueDepthThreshold c ≤ mt_WaitingQueueSize (ep_Metrics e))%Z ∨
  fle (KVCacheUtilThreshold c) (mt_KVCacheUsagePercent (ep_Metrics e)) = true.

(** An endpoint with recent metrics, and queue and cache below their thresholds. *)
Definition has_room (e : Endpoint) : Prop :=
  is_stale c now (ep_Metrics e) = false ∧ (mt_WaitingQueueSize (ep_Metrics e) < QueueDepthThreshold c < 2 ^ 53)%Z ∧
  flt (mt_KVCacheUsagePercent (ep_Metrics e)) (KVCacheUtilThreshold c) = true.

Lemma total_score_sum s eps : total_score c now s eps = foldl fadd s (pod_score c now <$> eps).
Proof. revert s. induction eps as [|e eps IH]; intros s; [done|]. apply IH. Qed.

Lemma Saturation_average eps : eps ≠ [] → Saturation c now eps = average (pod_score c now <$> eps).
Proof.
  intros Hne. unfold Saturation, average, float_sum. rewrite bool_decide_eq_false_2 by by destruct eps.
  by rewrite total_score_sum, length_fmap.
Qed.

Context (Hc : utilization_ok).

Lemma ratios_nonneg e : endpoint_ok e →
  nonneg_inf (fdiv (of_int (mt_WaitingQueueSize (ep_Metrics e))) (of_int (QueueDepthThreshold c))) ∧
  nonneg_inf (fdiv (mt_KVCacheUsagePercent (ep_Metrics e)) (KVCacheUtilThreshold c)).
Proof.
  intros He. pose proof (ok_waiting _ He). pose proof (uo_queue Hc). unfold Int.two63 in *.
  split; apply fdiv_nonneg_inf; [apply of_int_nonneg; lia|apply of_int_positive; lia|apply He|apply Hc].
Qed.

Lemma overloaded_score e : endpoint_ok e → overloaded e →
  nonneg_inf (pod_score c now e) ∧ fle fone (pod_score c now e) = true.
Proof.
  intros He Ho. destruct (ratios_nonneg e He) as [Hq Hk]. unfold pod_score.
  destruct (is_stale c now (ep_Metrics e)) eqn:Hs; [split; [left; apply fone_nonneg|done]|].
  split; [by apply fmax_nonneg_inf|]. apply fmax_above; [done..|].
  pose proof (ok_waiting _ He). pose proof (uo_queue Hc). unfold Int.two63 in *.
  destruct Ho as [Ho|[Ho|Ho]]; [congruence|left|right]; apply fdiv_above; try done.
  - left. apply of_int_nonneg. lia.
  - apply of_int_positive. lia.
  - apply of_int_le; lia.
  - left. apply He.
  - apply Hc.
Qed.

Lemma has_room_score e : endpoint_ok e → has_room e → below_one (pod_score c now e).
Proof.
  intros He (Hs & Hq & Hk). unfold pod_score. rewrite Hs. pose proof (ok_waiting _ He).
  apply fmax_below_one; [apply ratio_below_one; lia|]. apply fdiv_below_one; [apply He|apply Hc|done].
Qed.

Lemma utilization_detector : SaturationDetector (Saturation c now)
  (λ eps, Forall overloaded eps ∧ (Z.of_nat (length eps) < 2 ^ 53)%Z)
  (λ eps, eps ≠ [] ∧ Forall has_room eps ∧ (Z.of_nat (length eps) < 2 ^ 53)%Z).
Proof.
  split.
  - intros eps Hok [Hf Hlen]. destruct (decide (eps = [])) as [->|Hne]; [done|].
    rewrite Saturation_average by done. apply average_above; [by intros ?%fmap_nil_inv|by rewrite length_fmap|].
    apply Forall_fmap. rewrite Forall_forall in *. intros e He. apply overloaded_score; auto.
  - intros eps Hok (Hne & Hf & Hlen). rewrite Saturation_average by done.
    apply average_below; [by intros ?%fmap_nil_inv|by rewrite length_fmap|].
    apply Forall_fmap. rewrite Forall_forall in *. intros e He. apply has_room_score; auto.
Qed.
End utilization.

(** *** Concurrency *)

Section concurrency.
Import concurrency.
Context (c : config).

Definition pool_load (eps : list Endpoint) : Z := foldr (λ e n, load_of c e + n)%Z 0%Z eps.
Definition pool_capacity (eps : list Endpoint) : Z := (Z.of_nat (length eps) * capacity c)%Z.

Lemma pool_load_nonneg eps : Forall (λ e, 0 ≤ load_of c e)%Z eps → (0 ≤ pool_load eps)%Z.
Proof. induction 1; simpl; lia. Qed.

Context (Hc : (0 < capacity c)%Z).

Lemma totals_exact a b eps :
  Forall (λ e, 0 ≤ load_of c e)%Z eps → (0 ≤ a)%Z → (0 ≤ b)%Z →
  (a + pool_load eps < Int.two63)%Z → (b + pool_capacity eps < Int.two63)%Z →
  totals c a b eps = (a + pool_load eps, b + pool_capacity eps)%Z.
Proof.
  intros Hf. revert a b. unfold pool_capacity. induction Hf as [|e eps He Hf IH]; intros a b Ha Hb Hla Hlb.
  - simpl. f_equal; lia.
  - pose proof (pool_load_nonneg eps Hf). simpl length in *. simpl pool_load in *. cbn [totals].
    rewrite !Int.i64_small by lia. rewrite IH by lia. f_equal; lia.
Qed.

(** Loads that are counted without overflow, and fill the capacity of the pool. *)
Definition pool_full (eps : list Endpoint) : Prop :=
  Forall (λ e, 0 ≤ load_of c e)%Z eps ∧ (pool_capacity eps ≤ pool_load eps < Int.two63)%Z.

Definition pool_spare (eps : list Endpoint) : Prop :=
  Forall (λ e, 0 ≤ load_of c e)%Z eps ∧ (pool_load eps < pool_capacity eps < 2 ^ 53)%Z.

Lemma concurrency_detector : SaturationDetector (Saturation c) pool_full pool_spare.
Proof.
  split.
  - intros eps _ [Hf Hle]. unfold Saturation. assert (0 ≤ pool_capacity eps)%Z by (unfold pool_capacity; lia).
    rewrite totals_exact by (done || lia). simpl. case_bool_decide; [done|]. unfold Int.two63 in *.
    apply fdiv_above; [left; apply of_int_nonneg; lia|apply of_int_positive; lia|apply of_int_le; lia].
  - intros eps _ [Hf Hlt]. unfold Saturation. pose proof (pool_load_nonneg eps Hf).
    rewrite totals_exact by (done || unfold Int.two63; lia). simpl. rewrite bool_decide_eq_false_2 by lia.
    apply ratio_below_one; lia.
Qed.
End concurrency.

(** ** The detectors as filters *)

#[export] Instance utilization_lawful c now : LawfulFilter (mkFilter (utilization.Filter c now)).
Proof. intros d r eps cs _. apply wp_ret. case_bool_decide; [done|apply filter_submseteq]. Qed.

#[export] Instance concurrency_lawful c : LawfulFilter (mkFilter (concurrency.Filter c)).
Proof. intros d r eps cs _. apply wp_ret, filter_submseteq. Qed.

(** The concurrency filter may leave nothing, where the utilization filter gives all
    endpoints back. *)
Lemma utilization_filter_nonempty c now d r eps cs out :
  utilization.Filter c now d r eps cs = Some (out, cs) → eps ≠ [] → out ≠ [].
Proof.
  unfold utilization.Filter. intros [= <-] Hne. case_bool_decide as H; [done|]. intros E. by rewrite E in H.
Qed.

(** ** Configurations *)

Lemma errors_Join_None errs : errors_Join errs = None → errs = [].
Proof. by destruct errs. Qed.

Lemma errs_if_nil b msg : errs_if b msg = [] → b = false.
Proof. by destruct b. Qed.

Ltac validated H :=
  apply errors_Join_None in H; repeat (apply app_nil in H as [?%errs_if_nil H]); apply errs_if_nil in H; simpl in *;
  repeat match goal with H : bool_decide _ = false |- _ => apply bool_decide_eq_false in H end.

Lemma unit_threshold t :
  finite t → fle t fzero || flt fone t = false → positive_float t ∧ fle t fone = true.
Proof.
  intros [Hv Hf] [H0 H1]%orb_false_iff. assert (positive_float t) as Hp by by destruct t as [| | |[] m e].
  split; [done|]. apply not_flt_fle; [by destruct t|done..].
Qed.

Lemma utilization_config_ok (api : option utilization.apiConfig) (c : utilization.Config)
    (a := default (utilization.mkApiConfig None None None None) api) :
  utilization.buildConfig api = inl c →
  (∀ t, utilization.api_QueueDepthThreshold a = Some t → (t < Int.two63)%Z) →
  (∀ t, utilization.api_KVCacheUtilThreshold a = Some t → finite t) →
  utilization_ok c.
Proof.
  unfold utilization.buildConfig. fold a. destruct (utilization.validateConfig _) eqn:Hv; [done|].
  intros [= <-] Hq Hk. unfold utilization.validateConfig in Hv. validated Hv.
  split; simpl; [|apply unit_threshold; [|done]|lia].
  - destruct (utilization.api_QueueDepthThreshold a) eqn:E; simpl in *; [|done].
    specialize (Hq _ eq_refl). lia.
  - destruct (utilization.api_KVCacheUtilThreshold a) eqn:E; simpl; [by apply Hk|].
    split; [|vm_compute; exact I]. vm_compute. by split.
Qed.

Lemma concurrency_config_ok (api : option concurrency.apiConfig) (c : concurrency.config) :
  concurrency.buildConfig api = inl c → (0 < concurrency.capacity c)%Z.
Proof.
  unfold concurrency.buildConfig. destruct (concurrency.validateConfig _) eqn:Hv; [done|].
  intros [= <-]. unfold concurrency.validateConfig in Hv. validated Hv. unfold concurrency.capacity. simpl.
  destruct (concurrency.tokens_mode _); lia.
Qed.

(** ** The gate of the dispatch cycle *)

Lemma default_limit sat (levels : list Z) j limit :
  usagelimits.DefaultPolicy sat levels !! j = Some limit → limit = fone.
Proof. by intros [-> _]%lookup_replicate_1. Qed.

Lemma full_gate sat sp :
  fle fone sat = true → dispatchCycle sat usagelimits.DefaultPolicy sp = Some (false, sp).
Proof.
  intros Hsat. unfold dispatchCycle, usagelimits.DefaultPolicy, usagelimits.NewConstPolicy.
  unfold mbind, gom_bind, gets. destruct (AllOrderedPriorityLevels (sp_shard sp)) as [|p ps]; [done|].
  simpl. unfold fle in Hsat. by rewrite Hsat.
Qed.

Lemma spare_gate sat sp open key mq :
  flt sat fone = true → proc_inv sp open →
  (∀ p b, sh_priorityBands (sp_shard sp) !! p = Some b → pick_ok b) →
  queue_at (sp_shard sp) key mq → mq_contents mq ≠ [] →
  ∃ sp', dispatchCycle sat usagelimits.DefaultPolicy sp = Some (true, sp').
Proof.
  intros Hsat Hv Hpick Hq Hne.
  assert (SFleb fone sat = false) as Hlt.
  { destruct (flt_nan _ _ Hsat) as [H1 H2]. rewrite flt_not_fle in Hsat by done. by apply negb_true_iff in Hsat. }
  pose proof (dispatchCycle_spec sat usagelimits.DefaultPolicy sp open Hv
    ltac:(by unfold usagelimits.DefaultPolicy, usagelimits.NewConstPolicy; rewrite length_replicate) Hpick)
    as ([] & sp' & Hrun & _ & i & Hpre & Hr)%wp_run; [by exists sp'|exfalso].
  destruct Hr as [_ [Hr|(limit & Hl%default_limit & Hle)]]; [|subst; unfold fle in *; congruence].
  pose proof (tp_shard _ _ _ _ (ri_topology _ _ _ (pv_registry _ _ _ Hv))) as Hwf.
  assert (fk_Priority key ∈ sh_orderedPriorityLevels (sp_shard sp)) as [j Hj]%list_elem_of_lookup.
  { apply (sw_levels _ _ Hwf). destruct Hq as (b & Hb & _). by exists b. }
  assert (j < i) as Hji by (apply lookup_ge_None in Hr; apply lookup_lt_Some in Hj; lia).
  destruct (Hpre j (fk_Priority key) fone Hji Hj) as [_ Hidle].
  - apply lookup_replicate. split; [done|]. by eapply lookup_lt_Some.
  - by apply Hne, (Hidle key).
Qed.

(** A cycle with this saturation and the default limits does nothing if the pool is full,
    and dispatches a request if the pool has room and there is one. *)
Definition gates (sp : ShardProcessor) (sat : float64) (full spare : Prop) : Prop :=
  (full → dispatchCycle sat usagelimits.DefaultPolicy sp = Some (false, sp)) ∧
  (spare → (∃ key mq, queue_at (sp_shard sp) key mq ∧ mq_contents mq ≠ []) →
     ∃ sp', dispatchCycle sat usagelimits.DefaultPolicy sp = Some (true, sp')).

Lemma detector_gates sp open Saturation full spare eps :
  SaturationDetector Saturation full spare → Forall endpoint_ok eps → proc_inv sp open → picks_ok (sp_shard sp) →
  gates sp (Saturation eps) (full eps) (spare eps).
Proof.
  intros Hd Hok Hv Hpick. split.
  - intros Hf. apply full_gate. by apply Hd.
  - intros Hs (key & mq & Hq & Hne). eapply spare_gate; try done. by apply Hd.
Qed.


