(* ===== verification/InFlight.v ===== *)
(** * In-flight load: [requestcontrol/dataproducer/inflightload]

    The producer counts, per endpoint, the requests and the estimated tokens that were sent
    there and have not been served: it adds them before a request is sent and takes them
    back with the response, those of the prefill worker with the first chunk already. The
    counters feed the concurrency detector and the token load scorer through an attribute
    of the endpoint. A counter is an atomic [int64]; an operation on a tracker is one
    step. *)

From stdpp Require Import prelude gmap strings list.
From Stdlib Require Import ZArith Lia Floats.SpecFloat.
From S2P Require Import Prelude Float64 SchedTypes Json Pickers SchedulerProfile SessionAffinity Scheduler ActiveRequest.

(** ** Trackers *)

Abbreviation concurrencyTracker := (gmap string Z).

Definition tracker_get (endpointID : string) (ct : concurrencyTracker) : Z := default 0%Z (ct !! endpointID).

Definition tracker_add (endpointID : string) (delta : Z) (ct : concurrencyTracker) : concurrencyTracker :=
  match ct !! endpointID with
  | Some counter => <[endpointID := Int.i64 (counter + delta)]> ct
  | None => <[endpointID := delta]> ct
  end.

Definition tracker_inc (endpointID : string) : concurrencyTracker → concurrencyTracker := tracker_add endpointID 1.
Definition tracker_dec (endpointID : string) : concurrencyTracker → concurrencyTracker := tracker_add endpointID (-1).
Definition tracker_delete (endpointID : string) (ct : concurrencyTracker) : concurrencyTracker := delete endpointID ct.

(** ** The token estimate: [token_estimator.go] *)

(** [int64(math.Round(x))]: half away from zero, for numbers in range. *)
Definition round_int (x : float64) : Z :=
  match x with
  | S754_finite s m e =>
      let n := if (0 <=? e)%Z then (Z.pos m * 2 ^ e)%Z
               else ((Z.pos m + 2 ^ (- e - 1)) / 2 ^ (- e))%Z in
      if s then (- n)%Z else n
  | _ => 0%Z
  end.

Record SimpleTokenEstimator := mkEstimator { CharactersPerToken : float64; OutputRatio : float64 }.

Definition NewSimpleTokenEstimator : SimpleTokenEstimator :=
  mkEstimator (of_int 4) (fdiv (of_int 3) (of_int 2)).

Section producer.
Context (FormatFloat : float64 → string).

Definition input_tokens (e : SimpleTokenEstimator) (request : InferenceRequest) : option Z :=
  if bool_decide (0 < ir_RequestSizeBytes request)%Z then Some (Z.max (ir_RequestSizeBytes request / 4) 1)
  else
    match ir_Body request with
    | Some body =>
        let hint := InputTokenCountHint body in
        if bool_decide (0 ≤ hint)%Z then Some hint
        else
          let chars := Z.of_nat (String.length (PromptText FormatFloat body)) in
          Some (Z.max 1 (round_int (fdiv (of_int chars) (CharactersPerToken e))))
    | None => None
    end.

Definition Estimate (e : SimpleTokenEstimator) (request : InferenceRequest) : Z :=
  match input_tokens e request with
  | None => 0
  | Some inputTokens =>
      let outputTokens := round_int (fmul (of_int inputTokens) (OutputRatio e)) in
      Int.i64 (inputTokens + outputTokens)
  end.

(** ** The producer *)

Record InFlightLoadProducer := mkProducer {
  requestTracker : concurrencyTracker;
  tokenTracker : concurrencyTracker;
  tokenEstimator : SimpleTokenEstimator
}.

Definition InFlightLoadProducerFactory : InFlightLoadProducer := mkProducer ∅ ∅ NewSimpleTokenEstimator.

Definition profilePrefill : string := "prefill".

(** One endpoint more, with the tokens of the request. *)
Definition track (request : InferenceRequest) (p : InFlightLoadProducer) (eid : string) : InFlightLoadProducer :=
  mkProducer (tracker_inc eid (requestTracker p))
    (tracker_add eid (Estimate (tokenEstimator p) request) (tokenTracker p)) (tokenEstimator p).

Definition release (request : InferenceRequest) (p : InFlightLoadProducer) (eid : string) : InFlightLoadProducer :=
  mkProducer (tracker_dec eid (requestTracker p))
    (tracker_add eid (Int.i64 (- Estimate (tokenEstimator p) request)) (tokenTracker p)) (tokenEstimator p).

(** The targets are visited in the order of the enumeration of the results. *)
Definition PreRequest (order : nat → nat) (request : InferenceRequest) (result : option SchedulingResult)
    (p : InFlightLoadProducer) : InFlightLoadProducer :=
  match result with
  | None => p
  | Some result => foldl (track request) p (target_names order (sr_ProfileResults result))
  end.

(** The first target of the prefill profile, on the first chunk. A nil result of that
    profile is dereferenced. *)
Definition release_prefill (request : InferenceRequest) (result : SchedulingResult) (p : InFlightLoadProducer)
    : option InFlightLoadProducer :=
  match sr_ProfileResults result !! profilePrefill with
  | None => Some p
  | Some None => None
  | Some (Some []) => Some p
  | Some (Some (target :: _)) => Some (release request p (pod_name target))
  end.

Definition ResponseBody (order : nat → nat) (request : InferenceRequest) (result : option SchedulingResult)
    (startOfStream endOfStream : bool) (p : InFlightLoadProducer) : option InFlightLoadProducer :=
  match result with
  | None => Some p
  | Some result =>
      p ← (if startOfStream then release_prefill request result p else Some p);
      Some (if endOfStream
            then foldl (release request) p (target_names order (delete profilePrefill (sr_ProfileResults result)))
            else p)
  end.

Definition DeleteEndpoint (endpointID : string) (p : InFlightLoadProducer) : InFlightLoadProducer :=
  mkProducer (tracker_delete endpointID (requestTracker p)) (tracker_delete endpointID (tokenTracker p))
    (tokenEstimator p).

(** [e.Put(InFlightLoadKey, ...)] for every endpoint. *)
Definition with_load (p : InFlightLoadProducer) (e : Endpoint) : Endpoint :=
  mkEndpoint (ep_ptr e) (ep_Metadata e) (ep_Metrics e)
    (<[InFlightLoadKey := AInFlight (mkInFlightLoad (tracker_get (pod_name e) (tokenTracker p))
                                       (tracker_get (pod_name e) (requestTracker p)))]> (ep_Attributes e)).

Definition PrepareRequestData (p : InFlightLoadProducer) (endpoints : list Endpoint) : list Endpoint :=
  with_load p <$> endpoints.
End producer.

(** ** Requests in flight *)

(** A request that was sent and whose response has not ended; whether its first chunk has
    been seen. *)
Record flight := mkFlight {
  fl_request : InferenceRequest;
  fl_result : SchedulingResult;
  fl_started : bool
}.

(** The enumeration of a map as it is. *)
Definition in_order (_ : nat) : nat := 0.

Definition first_chunk (fl : flight) : flight := mkFlight (fl_request fl) (fl_result fl) true.

(** The endpoints that still work on the request: the first targets of all profiles,
    without that of the prefill profile once the first chunk has been seen. *)
Definition outstanding (fl : flight) : list string :=
  target_names in_order
    (if fl_started fl then delete profilePrefill (sr_ProfileResults (fl_result fl)) else sr_ProfileResults (fl_result fl)).

(** A request is sent, or a chunk of its response arrives; the first chunk is the one that
    starts the stream, and the last one ends the flight. *)
Inductive flight_step (FormatFloat : float64 → string)
    : InFlightLoadProducer * list flight → InFlightLoadProducer * list flight → Prop :=
  | fs_send order request result p flights :
      flight_step FormatFloat (p, flights)
        (PreRequest FormatFloat order request (Some result) p, mkFlight request result false :: flights)
  | fs_chunk order i fl endOfStream p p' flights :
      flights !! i = Some fl →
      ResponseBody FormatFloat order (fl_request fl) (Some (fl_result fl)) (negb (fl_started fl)) endOfStream p = Some p' →
      flight_step FormatFloat (p, flights)
        (p', if endOfStream then delete i flights else <[i := first_chunk fl]> flights).

Section counts.
Context (FormatFloat : float64 → string).

Definition sum_flights (f : flight → Z) (flights : list flight) : Z := foldr (λ fl n, f fl + n)%Z 0%Z flights.

Definition requests_at (name : string) (flights : list flight) : Z :=
  sum_flights (λ fl, occurrences name (outstanding fl)) flights.
Definition tokens_at (e : SimpleTokenEstimator) (name : string) (flights : list flight) : Z :=
  sum_flights (λ fl, Estimate FormatFloat e (fl_request fl) * occurrences name (outstanding fl))%Z flights.

(** *** Trackers *)

Definition tracker_ok (ct : concurrencyTracker) : Prop := map_Forall (λ _ v, Int.i64 v = v) ct.

Lemma tracker_add_ok n d ct : tracker_ok ct → Int.i64 d = d → tracker_ok (tracker_add n d ct).
Proof.
  intros Hok Hd. unfold tracker_add. destruct (ct !! n); apply map_Forall_insert_2; auto. apply Int.i64_i64.
Qed.

Lemma tracker_get_add n d name ct :
  tracker_ok ct → Int.i64 d = d →
  tracker_get name (tracker_add n d ct) = Int.i64 (tracker_get name ct + if decide (n = name) then d else 0).
Proof.
  intros Hok Hd. unfold tracker_get, tracker_add. destruct (decide (n = name)) as [->|Hne].
  - destruct (ct !! name) as [v|] eqn:E; rewrite lookup_insert_eq; [done|]. change (d = Int.i64 (0 + d)). by rewrite Z.add_0_l.
  - assert (Int.i64 (default 0%Z (ct !! name)) = default 0%Z (ct !! name)) as Hv.
    { destruct (ct !! name) as [v|] eqn:E; [|done]. by apply (Hok name v). }
    rewrite Z.add_0_r, Hv. by destruct (ct !! n); rewrite lookup_insert_ne.
Qed.

Lemma tracker_fold d names : ∀ ct,
  tracker_ok ct → Int.i64 d = d →
  let ct' := foldl (λ ct n, tracker_add n d ct) ct names in
  tracker_ok ct' ∧ ∀ name, tracker_get name ct' = Int.i64 (tracker_get name ct + d * occurrences name names).
Proof.
  induction names as [|n names IH]; intros ct Hok Hd; simpl.
  - split; [done|]. intros name. unfold occurrences. simpl. rewrite Z.mul_0_r, Z.add_0_r.
    unfold tracker_get. destruct (ct !! name) as [v|] eqn:E; [|done]. symmetry. by apply (Hok name v).
  - destruct (IH _ (tracker_add_ok n d ct Hok Hd) Hd) as [H1 H2]. split; [done|]. intros name.
    rewrite H2, tracker_get_add, Int.i64_add_l, occurrences_cons by done. f_equal. destruct (decide (n = name)); lia.
Qed.

(** *** The producer against the flights *)

Definition rt_fold (d : Z) (ct : concurrencyTracker) (names : list string) : concurrencyTracker :=
  foldl (λ ct n, tracker_add n d ct) ct names.

Lemma track_fold request names : ∀ p,
  foldl (track FormatFloat request) p names =
  mkProducer (rt_fold 1 (requestTracker p) names)
    (rt_fold (Estimate FormatFloat (tokenEstimator p) request) (tokenTracker p) names) (tokenEstimator p).
Proof. induction names as [|n names IH]; intros p; simpl; [by destruct p|]. by rewrite IH. Qed.

Lemma release_fold request names : ∀ p,
  foldl (release FormatFloat request) p names =
  mkProducer (rt_fold (-1) (requestTracker p) names)
    (rt_fold (Int.i64 (- Estimate FormatFloat (tokenEstimator p) request)) (tokenTracker p) names) (tokenEstimator p).
Proof. induction names as [|n names IH]; intros p; simpl; [by destruct p|]. by rewrite IH. Qed.

Lemma Estimate_range e request : Int.i64 (Estimate FormatFloat e request) = Estimate FormatFloat e request.
Proof. unfold Estimate. destruct (input_tokens _ _ _); [apply Int.i64_i64|done]. Qed.

Lemma occurrences_perm name l k : l ≡ₚ k → occurrences name l = occurrences name k.
Proof. intros H. unfold occurrences. by rewrite H. Qed.

Lemma target_names_order name order order' m :
  occurrences name (target_names order m) = occurrences name (target_names order' m).
Proof. apply occurrences_perm. unfold target_names. by rewrite !shuffle_perm. Qed.

(** The prefill target and the others. *)
Lemma target_names_prefill name order (m : Results) target targets :
  m !! profilePrefill = Some (Some (target :: targets)) →
  occurrences name (target_names order m) =
  ((if decide (pod_name target = name) then 1 else 0) + occurrences name (target_names order (delete profilePrefill m)))%Z.
Proof.
  intros Hm. rewrite <- occurrences_cons. apply occurrences_perm. unfold target_names. rewrite !shuffle_perm.
  rewrite <- (insert_delete_id m profilePrefill (Some (target :: targets)) Hm) at 1.
  by rewrite map_to_list_insert by apply lookup_delete_eq.
Qed.

Lemma target_names_no_prefill name order (m : Results) :
  m !! profilePrefill = None ∨ m !! profilePrefill = Some (Some []) →
  occurrences name (target_names order m) = occurrences name (target_names order (delete profilePrefill m)).
Proof.
  intros [Hm|Hm]; [by rewrite delete_id|]. apply occurrences_perm. unfold target_names. rewrite !shuffle_perm.
  rewrite <- (insert_delete_id m profilePrefill (Some []) Hm) at 1.
  by rewrite map_to_list_insert by apply lookup_delete_eq.
Qed.

Lemma sum_flights_delete f flights i fl :
  flights !! i = Some fl → sum_flights f flights = (f fl + sum_flights f (delete i flights))%Z.
Proof.
  revert i. induction flights as [|g flights IH]; intros [|i] Hi; simplify_eq/=; [done|]. rewrite (IH i Hi). lia.
Qed.

Lemma sum_flights_insert f flights i fl fl' :
  flights !! i = Some fl → sum_flights f (<[i := fl']> flights) = (sum_flights f flights - f fl + f fl')%Z.
Proof.
  revert i. induction flights as [|g flights IH]; intros [|i] Hi; simplify_eq/=; [lia|]. rewrite (IH i Hi). lia.
Qed.

(** *** What a chunk releases *)

Definition released (order : nat → nat) (result : SchedulingResult) (startOfStream endOfStream : bool) : list string :=
  (if startOfStream then
     match sr_ProfileResults result !! profilePrefill with Some (Some (target :: _)) => [pod_name target] | _ => [] end
   else []) ++
  (if endOfStream then target_names order (delete profilePrefill (sr_ProfileResults result)) else []).

Lemma ResponseBody_released order request result startOfStream endOfStream p p' :
  ResponseBody FormatFloat order request (Some result) startOfStream endOfStream p = Some p' →
  p' = foldl (release FormatFloat request) p (released order result startOfStream endOfStream) ∧
  (startOfStream = true → sr_ProfileResults result !! profilePrefill ≠ Some None).
Proof.
  unfold ResponseBody, released, release_prefill. rewrite foldl_app.
  destruct startOfStream; [destruct (sr_ProfileResults result !! profilePrefill) as [[[|target targets]|]|]|];
    simpl; destruct endOfStream; by intros [= <-].
Qed.

Lemma released_outstanding order fl endOfStream name :
  (negb (fl_started fl) = true → sr_ProfileResults (fl_result fl) !! profilePrefill ≠ Some None) →
  occurrences name (released order (fl_result fl) (negb (fl_started fl)) endOfStream) =
  (occurrences name (outstanding fl) - if endOfStream then 0 else occurrences name (outstanding (first_chunk fl)))%Z.
Proof.
  intros Hnil. unfold released, outstanding. simpl. rewrite occurrences_app.
  assert (occurrences name (if endOfStream then target_names order (delete profilePrefill (sr_ProfileResults (fl_result fl))) else []) =
    if endOfStream then occurrences name (target_names in_order (delete profilePrefill (sr_ProfileResults (fl_result fl)))) else 0)%Z as ->
    by (destruct endOfStream; [apply target_names_order|done]).
  destruct (fl_started fl) eqn:Hst; simpl.
  - change (occurrences name []) with 0%Z. destruct endOfStream; lia.
  - specialize (Hnil eq_refl).
    destruct (sr_ProfileResults (fl_result fl) !! profilePrefill) as [[[|target targets]|]|] eqn:E; [| |done|].
    + rewrite (target_names_no_prefill name in_order (sr_ProfileResults (fl_result fl))) by auto.
      change (occurrences name []) with 0%Z. destruct endOfStream; lia.
    + rewrite (target_names_prefill name in_order _ _ _ E), occurrences_cons.
      change (occurrences name []) with 0%Z. destruct endOfStream; lia.
    + rewrite (target_names_no_prefill name in_order (sr_ProfileResults (fl_result fl))) by auto.
      change (occurrences name []) with 0%Z. destruct endOfStream; lia.
Qed.

(** *** The invariant *)

Record flights_inv (s : InFlightLoadProducer * list flight) : Prop := mkFlightsInv {
  fi_requests_ok : tracker_ok (requestTracker s.1);
  fi_tokens_ok : tracker_ok (tokenTracker s.1);
  fi_requests : ∀ name, tracker_get name (requestTracker s.1) = Int.i64 (requests_at name s.2);
  fi_tokens : ∀ name, tracker_get name (tokenTracker s.1) = Int.i64 (tokens_at (tokenEstimator s.1) name s.2)
}.

(** A tracker whose counts change with the sums over the flights. *)
Lemma fold_exact d d' names ct (old new : string → Z) :
  Int.i64 d = d → Int.i64 d = Int.i64 d' → tracker_ok ct → (∀ name, tracker_get name ct = Int.i64 (old name)) →
  (∀ name, new name = old name + d' * occurrences name names)%Z →
  tracker_ok (rt_fold d ct names) ∧ ∀ name, tracker_get name (rt_fold d ct names) = Int.i64 (new name).
Proof.
  intros Hd Hd' Hok Hold Hnew. destruct (tracker_fold d names ct Hok Hd) as [H1 H2]. split; [done|].
  intros name. unfold rt_fold. rewrite H2, Hold, Int.i64_add_l, Hnew. rewrite <- Int.i64_add_r.
  rewrite <- (Int.i64_add_r (old name) (d' * _)). do 2 f_equal. by apply Int.i64_mul_l.
Qed.

Lemma send_inv order request result p flights :
  flights_inv (p, flights) →
  flights_inv (PreRequest FormatFloat order request (Some result) p, mkFlight request result false :: flights).
Proof.
  intros [H1 H2 H3 H4]. simpl in *. pose proof (Estimate_range (tokenEstimator p) request) as He.
  unfold PreRequest. rewrite track_fold. set (names := target_names order (sr_ProfileResults result)).
  assert (∀ name, occurrences name (outstanding (mkFlight request result false)) = occurrences name names) as Hocc
    by (intros name; apply target_names_order).
  destruct (fold_exact 1 1 names (requestTracker p) (λ name, requests_at name flights)
    (λ name, requests_at name (mkFlight request result false :: flights))) as [R1 R2]; try done.
  { intros name. unfold requests_at. simpl sum_flights. rewrite Hocc. lia. }
  destruct (fold_exact (Estimate FormatFloat (tokenEstimator p) request) (Estimate FormatFloat (tokenEstimator p) request)
    names (tokenTracker p) (λ name, tokens_at (tokenEstimator p) name flights)
    (λ name, tokens_at (tokenEstimator p) name (mkFlight request result false :: flights))) as [T1 T2]; try done.
  intros name. unfold tokens_at. simpl sum_flights. rewrite Hocc. lia.
Qed.

Lemma chunk_inv order i fl endOfStream p p' flights :
  flights_inv (p, flights) → flights !! i = Some fl →
  ResponseBody FormatFloat order (fl_request fl) (Some (fl_result fl)) (negb (fl_started fl)) endOfStream p = Some p' →
  flights_inv (p', if endOfStream then delete i flights else <[i := first_chunk fl]> flights).
Proof.
  intros [H1 H2 H3 H4] Hi [-> Hnil]%ResponseBody_released. simpl in *. rewrite release_fold.
  set (names := released _ _ _ _). set (flights' := if endOfStream then _ else _).
  assert (∀ (w : InferenceRequest → Z) name,
    sum_flights (λ fl, w (fl_request fl) * occurrences name (outstanding fl))%Z flights' =
    sum_flights (λ fl, w (fl_request fl) * occurrences name (outstanding fl)) flights +
      - w (fl_request fl) * occurrences name names)%Z as Hsum.
  { intros w name. unfold names. rewrite (released_outstanding _ _ _ name Hnil). unfold flights'. destruct endOfStream.
    - rewrite (sum_flights_delete _ flights i fl Hi). lia.
    - rewrite (sum_flights_insert _ flights i fl _ Hi). simpl fl_request. lia. }
  destruct (fold_exact (-1) (-1) names (requestTracker p) (λ name, requests_at name flights)
    (λ name, requests_at name flights')) as [R1 R2]; try done.
  { intros name. specialize (Hsum (λ _, 1%Z) name). unfold requests_at.
    assert (∀ l, sum_flights (λ fl, 1 * occurrences name (outstanding fl))%Z l =
      sum_flights (λ fl, occurrences name (outstanding fl)) l) as E
      by (intros l; induction l as [|g l IH]; simpl sum_flights; lia). rewrite !E in Hsum. lia. }
  destruct (fold_exact (Int.i64 (- Estimate FormatFloat (tokenEstimator p) (fl_request fl)))
    (- Estimate FormatFloat (tokenEstimator p) (fl_request fl)) names (tokenTracker p)
    (λ name, tokens_at (tokenEstimator p) name flights) (λ name, tokens_at (tokenEstimator p) name flights'))
    as [T1 T2]; try done; [apply Int.i64_i64..|].
  intros name. exact (Hsum (Estimate FormatFloat (tokenEstimator p)) name).
Qed.

Lemma flights_run_inv s :
  rtc (flight_step FormatFloat) (InFlightLoadProducerFactory, []) s → flights_inv s.
Proof.
  intros H. apply (rtc_ind_r flights_inv (InFlightLoadProducerFactory, [])) in H; [done| |].
  - split; simpl; done.
  - intros t u _ Hs Ht. destruct Hs; [by apply send_inv|by eapply chunk_inv].
Qed.

Lemma requests_at_nonneg name flights : (0 ≤ requests_at name flights)%Z.
Proof.
  unfold requests_at. induction flights as [|fl flights IH]; simpl sum_flights; [done|].
  pose proof (occurrences_nonneg name (outstanding fl)). lia.
Qed.

(** C24. The in-flight load is exact. In every state that sending requests and receiving the
    chunks of their responses can reach, the counters of an endpoint are the number of
    requests that it still works on and the sum of their token estimates, as [int64]
    numbers: the prefill worker is released with the first chunk, the other workers with
    the last one. They are what the scheduler sees as the load of the endpoint, and once
    every response has ended they are all zero. A chunk never panics unless the result of
    the prefill profile is nil. *)
Theorem in_flight_exact (p : InFlightLoadProducer) (flights : list flight)
    (Hrun : rtc (flight_step FormatFloat) (InFlightLoadProducerFactory, []) (p, flights)) :
  (∀ name, tracker_get name (requestTracker p) = Int.i64 (requests_at name flights) ∧
           tracker_get name (tokenTracker p) = Int.i64 (tokens_at (tokenEstimator p) name flights)) ∧
  (∀ eps ep, ep ∈ PrepareRequestData p eps → ep_Get InFlightLoadKey ep =
     Some (AInFlight (mkInFlightLoad (Int.i64 (tokens_at (tokenEstimator p) (pod_name ep) flights))
                                     (Int.i64 (requests_at (pod_name ep) flights))))) ∧
  (flights = [] → ∀ name, tracker_get name (requestTracker p) = 0%Z ∧ tracker_get name (tokenTracker p) = 0%Z) ∧
  (∀ order request result startOfStream endOfStream,
     sr_ProfileResults result !! profilePrefill ≠ Some None →
     is_Some (ResponseBody FormatFloat order request (Some result) startOfStream endOfStream p)).
Proof.
  pose proof (flights_run_inv _ Hrun) as [_ _ H3 H4]. simpl in *. split_and!.
  - intros name. by rewrite H3, H4.
  - intros eps ep (e & -> & _)%list_elem_of_fmap. unfold ep_Get, with_load. simpl. rewrite lookup_insert_eq.
    unfold pod_name. simpl. by rewrite <- H3, <- H4.
  - intros -> name. by rewrite H3, H4.
  - intros order request result start eos Hnil. unfold ResponseBody, release_prefill.
    destruct start; [|by eexists].
    destruct (sr_ProfileResults result !! profilePrefill) as [[[|]|]|]; [by eexists..|done|by eexists].
Qed.
End counts.

Lemma in_flight_exact_witness :
  ∃ p, rtc (flight_step (λ _, "0"%string)) (InFlightLoadProducerFactory, []) (p, []) ∧
    tracker_get "ns/pod" (requestTracker p) = 0%Z.
Proof.
  set (result := mkSchedulingResult {[ "decode"%string := Some [sample_endpoint 1 "pod"];
                                       profilePrefill := Some [sample_endpoint 2 "other"] ]} "decode").
  set (p1 := PreRequest (λ _, "0"%string) in_order sample_request (Some result) InFlightLoadProducerFactory).
  set (p2 := default p1 (ResponseBody (λ _, "0"%string) in_order sample_request (Some result) true true p1)).
  assert (rtc (flight_step (λ _, "0"%string)) (InFlightLoadProducerFactory, []) (p2, [])) as Hrun.
  { eapply rtc_l; [apply (fs_send _ in_order sample_request result)|]. apply rtc_once.
    apply (fs_chunk _ in_order 0 (mkFlight sample_request result false) true p1 p2 [mkFlight sample_request result false]).
    - reflexivity.
    - vm_compute. reflexivity. }
  exists p2. split; [exact Hrun|].
  destruct (in_flight_exact (λ _, "0"%string) p2 [] Hrun) as (_ & _ & Hz & _). exact (proj1 (Hz eq_refl "ns/pod"%string)).
Defined.

(** An endpoint that is deleted while it serves a request, and comes back, has a negative
    load: the counter is deleted, and the response then takes the request from zero. *)
Lemma deleted_endpoint_goes_negative :
  let result := mkSchedulingResult {[ "decode"%string := Some [sample_endpoint 1 "pod"] ]} "decode" in
  let name := pod_name (sample_endpoint 1 "pod") in
  let p := PreRequest (λ _, "0"%string) in_order sample_request (Some result) InFlightLoadProducerFactory in
  (λ q, tracker_get name (requestTracker q)) <$>
    ResponseBody (λ _, "0"%string) in_order sample_request (Some result) true true (DeleteEndpoint name p) = Some (-1)%Z.
Proof. vm_compute. reflexivity. Qed.
