(* ===== verification/Candidates.v ===== *)
(** * Endpoint candidates: [requestcontrol/candidates.go]

    Which endpoints of the pool a request may go to: all of them, or the subset that the
    proxy names in the metadata of the request. [CachedEndpointCandidates] remembers the
    answers for a short time under a key made from that subset. The metadata are decoded
    JSON; the datastore enumerates its pods in some order, which is that of the list. An
    operation reads the clock once. *)

From stdpp Require Import prelude gmap strings list sorting.
From Stdlib Require Import ZArith Lia.
From S2P Require Import Prelude SchedTypes Pickers SchedulerProfile.

Abbreviation Metadata := (list (string * JSON)).

Definition SubsetFilterNamespace : string := "envoy.lb.subset_hint".
Definition SubsetFilterKey : string := "x-gateway-destination-endpoint-subset".

(** The value of a key of a decoded object. *)
Definition json_field (name : string) (fields : Metadata) : option JSON :=
  snd ∘ snd <$> list_find (λ kv, kv.1 = name) fields.

(** The subset of the request, if its metadata have one of the right type. *)
Definition subset_list (requestMetadata : option Metadata) : option (list JSON) :=
  match requestMetadata with
  | None => None
  | Some md =>
      match json_field SubsetFilterNamespace md with
      | Some (JObject subsetMap) =>
          match json_field SubsetFilterKey subsetMap with
          | Some (JArray endpointSubsetList) => Some endpointSubsetList
          | _ => None
          end
      | _ => None
      end
  end.

Definition as_string (j : JSON) : option string := match j with JString s => Some s | _ => None end.

(** What is before the last colon, if there is one. *)
Fixpoint before_last_colon (s : string) : option string :=
  match s with
  | EmptyString => None
  | String c s' =>
      match before_last_colon s' with
      | Some p => Some (String c p)
      | None => if bool_decide (Ascii.nat_of_ascii c = 58) then Some EmptyString else None
      end
  end.

Definition endpoint_address (epStr : string) : string := default epStr (before_last_colon epStr).

(** ** The delegate *)

Section locate.
(** [DisableEndpointSubsetFilter]. *)
Context (disabled : bool).

Definition Locate (pods : list Endpoint) (requestMetadata : option Metadata) : list Endpoint :=
  if disabled then pods
  else
    match subset_list requestMetadata with
    | None => pods
    | Some [] => []
    | Some endpointSubsetList =>
        let endpoints : gset string := list_to_set (endpoint_address <$> omap as_string endpointSubsetList) in
        base.filter (λ pm, md_Address (ep_Metadata pm) ∈ endpoints) pods
    end.

(** ** The cache *)

Definition defaultCacheKey : string := "__default__".
Definition emptySubsetCacheKey : string := "__explicit_empty__".
Definition defaultCacheTTL : Z := 50 * 1000000.

Record cacheEntry := mkCacheEntry { ce_pods : list Endpoint; ce_expiry : Z }.

Definition cache_ttl (ttl : Z) : Z := if bool_decide (ttl ≤ 0)%Z then defaultCacheTTL else ttl.

Definition generateCacheKey (reqMetadata : option Metadata) : string :=
  match subset_list reqMetadata with
  | None => defaultCacheKey
  | Some [] => emptySubsetCacheKey
  | Some [ep] => match as_string ep with Some s => s | None => defaultCacheKey end
  | Some endpointSubsetList => strings_Join (merge_sort String.le (omap as_string endpointSubsetList)) "|"
  end.

Definition CachedLocate (ttl now : Z) (pods : list Endpoint) (requestMetadata : option Metadata)
    (cache : gmap string cacheEntry) : list Endpoint * gmap string cacheEntry :=
  let key := generateCacheKey requestMetadata in
  let fetch := let freshPods := Locate pods requestMetadata in
               (freshPods, <[key := mkCacheEntry freshPods (now + ttl)]> cache) in
  match cache !! key with
  | Some entry => if bool_decide (now < ce_expiry entry)%Z then (ce_pods entry, cache) else fetch
  | None => fetch
  end.

Definition cleanup (now : Z) (cache : gmap string cacheEntry) : gmap string cacheEntry :=
  base.filter (λ kv, ¬ (ce_expiry kv.2 < now)%Z) cache.
End locate.

Lemma Locate_subset disabled pods md e : e ∈ Locate disabled pods md → e ∈ pods.
Proof.
  unfold Locate. destruct disabled; [done|]. destruct (subset_list md) as [[|j l]|]; [by intros ?%elem_of_nil| |done].
  by intros [_ ?]%list_elem_of_filter.
Qed.

(** ** Keys and subsets *)

Definition strings_of (l : list JSON) : list string := omap as_string l.

Fixpoint no_bar (s : string) : Prop :=
  match s with EmptyString => True | String c s' => Ascii.nat_of_ascii c ≠ 124 ∧ no_bar s' end.

(** An element of a subset as the proxy writes it. *)
Definition subset_element (s : string) : Prop :=
  no_bar s ∧ s ≠ defaultCacheKey ∧ s ≠ emptySubsetCacheKey.

(** Metadata without a subset, with an empty one, or with a list that names an endpoint. *)
Definition metadata_ok (md : option Metadata) : Prop :=
  match subset_list md with
  | None | Some [] => True
  | Some l => strings_of l ≠ [] ∧ Forall subset_element (strings_of l)
  end.

(** [strings.Split(s, "|")]. *)
Fixpoint split_bar (s : string) : list string :=
  match s with
  | EmptyString => [EmptyString]
  | String c s' =>
      match split_bar s' with
      | [] => []
      | part :: parts =>
          if bool_decide (Ascii.nat_of_ascii c = 124) then EmptyString :: part :: parts else String c part :: parts
      end
  end.

Lemma split_bar_cons s : ∃ p ps, split_bar s = p :: ps.
Proof.
  induction s as [|c s (p & ps & IH)]; simpl; [eauto|]. rewrite IH. case_bool_decide; eauto.
Qed.

Lemma split_bar_none s : no_bar s → split_bar s = [s].
Proof.
  induction s as [|c s IH]; [done|]. intros [Hc Hs]. simpl. rewrite IH by done. by rewrite bool_decide_eq_false_2.
Qed.

Lemma split_bar_app s t : no_bar s → split_bar (s +:+ "|" +:+ t) = s :: split_bar t.
Proof.
  induction s as [|c s IH]; intros Hs; simpl.
  - change (EmptyString +:+ t) with t. by destruct (split_bar_cons t) as (p & ps & ->).
  - destruct Hs as [Hc Hs]. specialize (IH Hs). rewrite IH. by rewrite bool_decide_eq_false_2.
Qed.

Lemma split_join l : l ≠ [] → Forall no_bar l → split_bar (strings_Join l "|") = l.
Proof.
  intros Hne Hf. induction Hf as [|s l Hs Hf IH]; [done|]. destruct l as [|t l]; [by apply split_bar_none|].
  change (strings_Join (s :: t :: l) "|") with (s +:+ "|" +:+ strings_Join (t :: l) "|").
  rewrite split_bar_app by done. by rewrite IH.
Qed.

(** The key of a subset that names an endpoint is the sorted list of its elements. *)
Lemma generateCacheKey_list md l :
  subset_list md = Some l → strings_of l ≠ [] →
  generateCacheKey md = strings_Join (merge_sort String.le (strings_of l)) "|".
Proof.
  intros Hl Hne. unfold generateCacheKey. rewrite Hl. destruct l as [|j [|j' l]]; [done| |done].
  unfold strings_of in *. simpl in *. by destruct (as_string j).
Qed.

Lemma sorted_elements l :
  strings_of l ≠ [] → Forall subset_element (strings_of l) →
  split_bar (strings_Join (merge_sort String.le (strings_of l)) "|") = merge_sort String.le (strings_of l).
Proof.
  intros Hne Hf. apply split_join.
  - intros E. apply Hne, Permutation_nil_r. rewrite <- (merge_sort_Permutation String.le), E. done.
  - rewrite merge_sort_Permutation. eapply Forall_impl; [exact Hf|]. by intros s [Hs _].
Qed.

(** The reserved keys are not keys of subsets. *)
Lemma key_not_reserved md l :
  subset_list md = Some l → strings_of l ≠ [] → Forall subset_element (strings_of l) →
  generateCacheKey md ≠ defaultCacheKey ∧ generateCacheKey md ≠ emptySubsetCacheKey.
Proof.
  intros Hl Hne Hf. rewrite (generateCacheKey_list md l Hl Hne).
  pose proof (sorted_elements l Hne Hf) as Hs.
  assert (∀ k, no_bar k → (∀ s, subset_element s → s ≠ k) →
    strings_Join (merge_sort String.le (strings_of l)) "|" ≠ k) as Hk.
  { intros k Hk Hno E. rewrite E, split_bar_none in Hs by done.
    rewrite <- (merge_sort_Permutation String.le (strings_of l)), <- Hs in Hf. rewrite Forall_singleton in Hf. exact (Hno k Hf eq_refl). }
  split; apply Hk; try (by intros s (_ & ? & ?)); vm_compute; repeat split; discriminate.
Qed.

(** Requests with the same key select the same endpoints. *)
Lemma same_key_same_endpoints disabled md md' pods :
  metadata_ok md → metadata_ok md' → generateCacheKey md = generateCacheKey md' →
  Locate disabled pods md = Locate disabled pods md'.
Proof.
  unfold metadata_ok, Locate. intros Hok Hok' Hkey. destruct disabled; [done|].
  destruct (subset_list md) as [[|j l]|] eqn:Hl, (subset_list md') as [[|j' l']|] eqn:Hl'; try done.
  - destruct (key_not_reserved md' _ Hl' (proj1 Hok') (proj2 Hok')) as [_ H]. rewrite <- Hkey in H.
    unfold generateCacheKey in H. by rewrite Hl in H.
  - unfold generateCacheKey in Hkey. by rewrite Hl, Hl' in Hkey.
  - destruct (key_not_reserved md _ Hl (proj1 Hok) (proj2 Hok)) as [_ H]. rewrite Hkey in H.
    unfold generateCacheKey in H. by rewrite Hl' in H.
  - destruct Hok as [Hne Hf], Hok' as [Hne' Hf'].
    rewrite (generateCacheKey_list md _ Hl Hne), (generateCacheKey_list md' _ Hl' Hne') in Hkey.
    apply (f_equal split_bar) in Hkey. rewrite !sorted_elements in Hkey by done.
    assert (strings_of (j :: l) ≡ₚ strings_of (j' :: l')) as Hperm.
    { by rewrite <- (merge_sort_Permutation String.le (strings_of (j :: l))), Hkey, merge_sort_Permutation. }
    apply list_filter_iff. intros ep. fold (strings_of (j :: l)) (strings_of (j' :: l')).
    rewrite !elem_of_list_to_set. by rewrite Hperm.
  - destruct (key_not_reserved md _ Hl (proj1 Hok) (proj2 Hok)) as [H _]. rewrite Hkey in H.
    unfold generateCacheKey in H. by rewrite Hl' in H.
  - unfold generateCacheKey in Hkey. by rewrite Hl, Hl' in Hkey.
  - destruct (key_not_reserved md' _ Hl' (proj1 Hok') (proj2 Hok')) as [H _]. rewrite <- Hkey in H.
    unfold generateCacheKey in H. by rewrite Hl in H.
Qed.

(** ** Freshness *)

(** The cache, the pods of the datastore, the time, and which pods the datastore has had at
    which times. *)
Record CacheState := mkCacheState {
  ca_cache : gmap string cacheEntry;
  ca_pods : list Endpoint;
  ca_now : Z;
  ca_history : list (Z * list Endpoint)
}.

Section fresh.
Context (disabled : bool) (ttl : Z).

(** Time passes and the pods change, a request is located, or the cache is cleaned up. *)
Inductive cache_step : CacheState → CacheState → Prop :=
  | cs_advance s d pods :
      (0 ≤ d)%Z →
      cache_step s (mkCacheState (ca_cache s) pods (ca_now s + d) ((ca_now s + d, pods)%Z :: ca_history s))
  | cs_locate s md :
      metadata_ok md →
      cache_step s (mkCacheState (CachedLocate disabled ttl (ca_now s) (ca_pods s) md (ca_cache s)).2
                      (ca_pods s) (ca_now s) (ca_history s))
  | cs_cleanup s :
      cache_step s (mkCacheState (cleanup (ca_now s) (ca_cache s)) (ca_pods s) (ca_now s) (ca_history s)).

Definition cache_init (pods : list Endpoint) (now : Z) : CacheState := mkCacheState ∅ pods now [(now, pods)].

(** An entry is what the delegate selected when it was fetched. *)
Definition entry_ok (history : list (Z * list Endpoint)) (key : string) (entry : cacheEntry) : Prop :=
  ∃ md t pods, metadata_ok md ∧ key = generateCacheKey md ∧ (t, pods) ∈ history ∧
    ce_pods entry = Locate disabled pods md ∧ ce_expiry entry = (t + ttl)%Z.

Record cache_inv (s : CacheState) : Prop := mkCacheInv {
  cv_present : (ca_now s, ca_pods s) ∈ ca_history s;
  cv_past : ∀ t pods, (t, pods) ∈ ca_history s → (t ≤ ca_now s)%Z;
  cv_entry : map_Forall (entry_ok (ca_history s)) (ca_cache s)
}.

Lemma cache_step_inv s s' : cache_inv s → cache_step s s' → cache_inv s'.
Proof.
  intros [H1 H2 H3] Hs. destruct Hs as [s d pods Hd|s md Hok|s].
  - split; simpl; [by left| |].
    + intros t ps [[= -> ->]|Ht]%elem_of_cons; [lia|]. specialize (H2 _ _ Ht). lia.
    + intros key e He. destruct (H3 _ _ He) as (md & t & ps & ? & ? & ? & ? & ?). exists md, t, ps.
      split_and!; try done. by right.
  - split; simpl; [done..|]. unfold CachedLocate.
    assert (map_Forall (entry_ok (ca_history s)) (<[generateCacheKey md := mkCacheEntry
      (Locate disabled (ca_pods s) md) (ca_now s + ttl)]> (ca_cache s))) as Hins.
    { apply map_Forall_insert_2; [|done]. by exists md, (ca_now s), (ca_pods s). }
    destruct (ca_cache s !! generateCacheKey md); [case_bool_decide|]; done.
  - split; simpl; [done..|]. intros key e [He _]%map_lookup_filter_Some. by apply (H3 key e).
Qed.

Lemma cache_run_inv pods now s : rtc cache_step (cache_init pods now) s → cache_inv s.
Proof.
  intros H. apply (rtc_ind_r cache_inv (cache_init pods now)) in H; [done| |by intros; eapply cache_step_inv].
  split; simpl; [by left|by intros t ps [[= -> ->]|[]%elem_of_nil]%elem_of_cons|done].
Qed.
End fresh.

(** C28. Cached candidates are recent and belong to the request. Whatever requests were
    located before, however the pods have changed and whenever the cache was cleaned up,
    the cache answers a request with the endpoints that the datastore selects for this
    very request, from the pods it has, or had less than one time-to-live ago. This is for
    subsets whose elements name endpoints, without a vertical bar, and differ from the
    reserved keys. *)
Theorem cached_candidates_fresh (disabled : bool) (ttl : Z) (pods : list Endpoint) (now : Z) (s : CacheState)
    (md : option Metadata) (Httl : (0 < ttl)%Z)
    (Hrun : rtc (cache_step disabled ttl) (cache_init pods now) s) (Hmd : metadata_ok md) :
  ∃ t ps, (t, ps) ∈ ca_history s ∧ (ca_now s - ttl < t ≤ ca_now s)%Z ∧
    (CachedLocate disabled ttl (ca_now s) (ca_pods s) md (ca_cache s)).1 = Locate disabled ps md.
Proof.
  destruct (cache_run_inv _ _ _ _ _ Hrun) as [H1 H2 H3]. unfold CachedLocate.
  destruct (ca_cache s !! generateCacheKey md) as [e|] eqn:E; [case_bool_decide as Hlt|].
  - destruct (H3 _ _ E) as (md' & t & ps & Hok & Hkey & Ht & Hpods & Hexp). exists t, ps.
    pose proof (H2 _ _ Ht). split_and!; [done|lia|done|]. simpl. rewrite Hpods.
    by apply same_key_same_endpoints.
  - exists (ca_now s), (ca_pods s). split_and!; [done|lia|lia|done].
  - exists (ca_now s), (ca_pods s). split_and!; [done|lia|lia|done].
Qed.

Definition subset_metadata (l : list JSON) : option Metadata :=
  Some [(SubsetFilterNamespace, JObject [(SubsetFilterKey, JArray l)])].

Lemma cached_candidates_fresh_witness :
  ∃ t ps, (t, ps) ∈ [(0%Z, [sample_endpoint 1 "a"])] ∧ (0 - 50 < t ≤ 0)%Z ∧
    (CachedLocate false 50 0 [sample_endpoint 1 "a"] (subset_metadata [JString "10.0.0.1:8000"]) ∅).1 =
    Locate false ps (subset_metadata [JString "10.0.0.1:8000"]).
Proof.
  apply (cached_candidates_fresh false 50 [sample_endpoint 1 "a"] 0 (cache_init [sample_endpoint 1 "a"] 0)).
  - reflexivity.
  - apply rtc_refl.
  - vm_compute. split; [discriminate|]. constructor; [|constructor]. split; [repeat split; discriminate|].
    split; discriminate.
Defined.

(** A subset with a single element that is not a string shares the key of requests without
    a subset: after such a request, they find no endpoint at all. *)
Lemma malformed_subset_poisons_default :
  let pods := [sample_endpoint 1 "a"] in
  let cache := (CachedLocate false 50 0 pods (subset_metadata [JNull]) ∅).2 in
  Locate false pods None = pods ∧ (CachedLocate false 50 10 pods None cache).1 = [].
Proof. by split. Qed.
