(* ===== verification/ModelRewrite.v ===== *)
(** * Model rewrites: [datastore/modelrewritestore.go], [selectWeightedModel] of
    [requestcontrol/director.go]

    A rewrite is an API object with a creation time and a list of rules; a rule names the
    models that it matches (none: all of them) and the weighted models to send requests to.
    The store keeps the rules by model name, ordered by age. The store is shown to return a
    rule of highest precedence after any sequence of updates, and the random choice to send
    to each target the share of requests that its weight says. *)

From stdpp Require Import prelude gmap strings list sorting.
From Stdlib Require Import Lia.
From S2P Require Import Prelude Pickers.

(** ** The API objects *)

Record TargetModel := mkTargetModel { tm_Weight : Z; tm_ModelRewrite : string }.

(** A match without a model is [None]. *)
Record InferenceModelRewriteRule := mkRule { rl_Matches : list (option string); rl_Targets : list TargetModel }.

Record InferenceModelRewrite := mkRewrite {
  rw_Name : string;
  rw_CreationTimestamp : Z;
  rw_Rules : list InferenceModelRewriteRule
}.

(** ** The store *)

Record rewriteRuleWithMetadata := mkRuleWithMetadata {
  rr_rule : InferenceModelRewriteRule;
  rr_createTimestamp : Z;
  rr_parentRewriteName : string
}.

Definition isGeneric (rr : rewriteRuleWithMetadata) : bool := bool_decide (length (rl_Matches (rr_rule rr)) = 0).

Definition exactModels (rr : rewriteRuleWithMetadata) : gset string :=
  list_to_set (omap id (rl_Matches (rr_rule rr))).

Record modelRewriteStore := mkRewriteStore {
  genericRules : list rewriteRuleWithMetadata;
  rulesByExactModelMatch : gmap string (list rewriteRuleWithMetadata);
  allReWrites : gmap string InferenceModelRewrite
}.

Definition newModelRewriteStore : modelRewriteStore := mkRewriteStore [] ∅ ∅.

Definition not_from (n : string) (rr : rewriteRuleWithMetadata) : Prop := rr_parentRewriteName rr ≠ n.
#[local] Instance not_from_dec n rr : Decision (not_from n rr).
Proof. unfold not_from. apply _. Defined.

Definition deleteInternal (n : string) (ms : modelRewriteStore) : modelRewriteStore :=
  match allReWrites ms !! n with
  | None => ms
  | Some _ =>
      mkRewriteStore (base.filter (not_from n) (genericRules ms))
        (omap (λ rulesWithMd,
                 let newRules := base.filter (not_from n) rulesWithMd in
                 if bool_decide (length newRules = 0) then None else Some newRules)
           (rulesByExactModelMatch ms))
        (delete n (allReWrites ms))
  end.

Definition append_rule (rr : rewriteRuleWithMetadata) (model : string)
    (rules : gmap string (list rewriteRuleWithMetadata)) : gmap string (list rewriteRuleWithMetadata) :=
  <[model := default [] (rules !! model) ++ [rr]]> rules.

Definition add_rule (ms : modelRewriteStore) (ruleWithMetadata : rewriteRuleWithMetadata) : modelRewriteStore :=
  if isGeneric ruleWithMetadata then
    mkRewriteStore (genericRules ms ++ [ruleWithMetadata]) (rulesByExactModelMatch ms) (allReWrites ms)
  else
    mkRewriteStore (genericRules ms)
      (foldr (append_rule ruleWithMetadata) (rulesByExactModelMatch ms) (elements (exactModels ruleWithMetadata)))
      (allReWrites ms).

Definition older (a b : rewriteRuleWithMetadata) : bool :=
  bool_decide (rr_createTimestamp a < rr_createTimestamp b)%Z.

(** [sort.Slice] is not stable: [ties] gives the order among rules of the same age. *)
Definition sort_by_age (ties : nat → nat) (l : list rewriteRuleWithMetadata) : list rewriteRuleWithMetadata :=
  sort_stable older (shuffle ties l).

Definition sort_rules (ties : option string → nat → nat) (ms : modelRewriteStore) : modelRewriteStore :=
  mkRewriteStore (sort_by_age (ties None) (genericRules ms))
    (map_imap (λ model l, Some (sort_by_age (ties (Some model)) l)) (rulesByExactModelMatch ms))
    (allReWrites ms).

Definition with_metadata (rw : InferenceModelRewrite) (rule : InferenceModelRewriteRule) : rewriteRuleWithMetadata :=
  mkRuleWithMetadata rule (rw_CreationTimestamp rw) (rw_Name rw).

Definition set_rewrite (ties : option string → nat → nat) (infModelRewrite : InferenceModelRewrite)
    (ms : modelRewriteStore) : modelRewriteStore :=
  let name := rw_Name infModelRewrite in
  let ms := match allReWrites ms !! name with Some _ => deleteInternal name ms | None => ms end in
  let ms := mkRewriteStore (genericRules ms) (rulesByExactModelMatch ms)
              (<[name := infModelRewrite]> (allReWrites ms)) in
  sort_rules ties (foldl add_rule ms (with_metadata infModelRewrite <$> rw_Rules infModelRewrite)).

Definition getRule (modelName : string) (ms : modelRewriteStore) : option (InferenceModelRewriteRule * string) :=
  match rulesByExactModelMatch ms !! modelName with
  | Some (rr :: _) => Some (rr_rule rr, rr_parentRewriteName rr)
  | _ =>
      match genericRules ms with
      | rr :: _ => Some (rr_rule rr, rr_parentRewriteName rr)
      | [] => None
      end
  end.

(** ** The weighted choice *)

Definition i32 (n : Z) : Z := (n + 2 ^ 31) `mod` 2 ^ 32 - 2 ^ 31.

Definition total_weight (models : list TargetModel) : Z :=
  foldl (λ totalWeight model, i32 (totalWeight + tm_Weight model)) 0%Z models.

Fixpoint weight_loop (randomNum currentWeight : Z) (models : list TargetModel) : option string :=
  match models with
  | [] => None
  | model :: models' =>
      let currentWeight := i32 (currentWeight + tm_Weight model) in
      if bool_decide (randomNum < currentWeight)%Z then Some (tm_ModelRewrite model)
      else weight_loop randomNum currentWeight models'
  end.

(** [Intn n] is the draw of [rand.Intn]; [None] is its panic for [n <= 0]. *)
Definition selectWeightedModel (Intn : Z → Z) (models : list TargetModel) : option string :=
  match last models with
  | None => Some ""
  | Some lastModel =>
      let totalWeight := total_weight models in
      if bool_decide (totalWeight = 0)%Z then
        tm_ModelRewrite <$> models !! Z.to_nat (Intn (Z.of_nat (length models)))
      else if bool_decide (totalWeight < 0)%Z then None
      else Some (default (tm_ModelRewrite lastModel) (weight_loop (Intn totalWeight) 0 models))
  end.

(** ** Precedence *)

Section precedence.
(** The rewrites that exist, by name. *)
Context (all : gmap string InferenceModelRewrite).

Definition rule_of (rr : rewriteRuleWithMetadata) : Prop :=
  ∃ rw rule, all !! rw_Name rw = Some rw ∧ rule ∈ rw_Rules rw ∧ rr = with_metadata rw rule.

Definition matches (model : string) (rr : rewriteRuleWithMetadata) : Prop :=
  rule_of rr ∧ Some model ∈ rl_Matches (rr_rule rr).

Definition catches_all (rr : rewriteRuleWithMetadata) : Prop := rule_of rr ∧ rl_Matches (rr_rule rr) = [].

Definition oldest (P : rewriteRuleWithMetadata → Prop) (rr : rewriteRuleWithMetadata) : Prop :=
  P rr ∧ ∀ rr', P rr' → (rr_createTimestamp rr ≤ rr_createTimestamp rr')%Z.

(** The oldest rule that names the model; without any, the oldest that matches every model. *)
Definition precedence (model : string) (answer : option (InferenceModelRewriteRule * string)) : Prop :=
  match answer with
  | Some (rule, name) =>
      ∃ rr, rule = rr_rule rr ∧ name = rr_parentRewriteName rr ∧
        (oldest (matches model) rr ∨ (∀ rr', ¬ matches model rr') ∧ oldest catches_all rr)
  | None => ∀ rr, ¬ matches model rr ∧ ¬ catches_all rr
  end.
End precedence.

(** ** The store's invariant *)

Abbreviation le_age := (λ a b, rr_createTimestamp a ≤ rr_createTimestamp b)%Z.

(** The rules of the store are those of the rewrites; [sorted] once they have been sorted. *)
Record rules_inv (ms : modelRewriteStore) (P : rewriteRuleWithMetadata → Prop) : Prop := mkRulesInv {
  ri_generic : ∀ rr, rr ∈ genericRules ms ↔ P rr ∧ rl_Matches (rr_rule rr) = [];
  ri_exact : ∀ model rr,
    rr ∈ default [] (rulesByExactModelMatch ms !! model) ↔ P rr ∧ Some model ∈ rl_Matches (rr_rule rr)
}.

Record store_inv (ms : modelRewriteStore) : Prop := mkStoreInv {
  st_rules : rules_inv ms (rule_of (allReWrites ms));
  st_names : map_Forall (λ name rw, rw_Name rw = name) (allReWrites ms);
  st_generic_sorted : StronglySorted le_age (genericRules ms);
  st_exact_sorted : map_Forall (λ _, StronglySorted le_age) (rulesByExactModelMatch ms)
}.

Lemma isGeneric_spec rr : isGeneric rr = true ↔ rl_Matches (rr_rule rr) = [].
Proof. unfold isGeneric. by rewrite bool_decide_eq_true, length_zero_iff_nil. Qed.

Lemma elem_of_exactModels model rr : model ∈ exactModels rr ↔ Some model ∈ rl_Matches (rr_rule rr).
Proof.
  unfold exactModels. rewrite elem_of_list_to_set, list_elem_of_omap. split; [|by intros H; exists (Some model)].
  intros ([x|] & Hx & [= ->]). done.
Qed.

Lemma sort_by_age_perm ties l : sort_by_age ties l ≡ₚ l.
Proof. unfold sort_by_age. by rewrite sort_stable_perm, shuffle_perm. Qed.

Lemma sort_by_age_sorted ties l : StronglySorted le_age (sort_by_age ties l).
Proof.
  apply (sort_stable_sorted (λ _, True)); unfold older.
  - intros x y _ _ H%bool_decide_eq_false. lia.
  - intros x y _ _ H%bool_decide_eq_true. lia.
  - intros x y z. lia.
  - by apply Forall_true.
Qed.

Lemma append_rules_lookup rr models rules model : NoDup models →
  default [] (foldr (append_rule rr) rules models !! model) =
  default [] (rules !! model) ++ (if bool_decide (model ∈ models) then [rr] else []).
Proof.
  induction 1 as [|k models Hk Hnd IH]; simpl; [by rewrite app_nil_r|]. unfold append_rule at 1.
  destruct (decide (k = model)) as [->|Hne].
  - rewrite lookup_insert_eq. simpl. rewrite IH, bool_decide_false by done.
    rewrite bool_decide_true by left. by rewrite app_nil_r.
  - rewrite lookup_insert_ne, IH by done. f_equal.
    rewrite (bool_decide_ext (model ∈ k :: models) (model ∈ models)); [done|set_solver].
Qed.

Lemma add_rule_inv ms P rr : rules_inv ms P → rules_inv (add_rule ms rr) (λ x, P x ∨ x = rr).
Proof.
  intros [Hg He]. unfold add_rule. destruct (isGeneric rr) eqn:Hgen.
  - rewrite isGeneric_spec in Hgen. split; simpl; intros.
    + rewrite elem_of_app, Hg, list_elem_of_singleton. naive_solver.
    + rewrite He. split; [naive_solver|]. intros [[?| ->] Hm]; [done|]. rewrite Hgen in Hm. by apply elem_of_nil in Hm.
  - assert (rl_Matches (rr_rule rr) ≠ []) as Hne by (intros ?%isGeneric_spec; congruence).
    split; simpl; intros.
    + rewrite Hg. naive_solver.
    + rewrite append_rules_lookup by apply NoDup_elements. rewrite elem_of_app, He.
      pose proof (elem_of_exactModels model rr) as Hm. rewrite <- elem_of_elements in Hm.
      case_bool_decide; rewrite ?list_elem_of_singleton, ?elem_of_nil; naive_solver.
Qed.

Lemma add_rules_inv l : ∀ ms P, rules_inv ms P →
  rules_inv (foldl add_rule ms l) (λ x, P x ∨ x ∈ l) ∧ allReWrites (foldl add_rule ms l) = allReWrites ms.
Proof.
  induction l as [|rr l IH]; intros ms P Hi; simpl.
  - split; [|done]. destruct Hi as [Hg He]. split; intros; rewrite ?Hg, ?He, elem_of_nil; naive_solver.
  - destruct (IH _ _ (add_rule_inv ms P rr Hi)) as [[Hg He] Hall]. split.
    + split; intros; rewrite ?Hg, ?He, elem_of_cons; naive_solver.
    + rewrite Hall. unfold add_rule. by destruct (isGeneric rr).
Qed.

Lemma sort_rules_inv ties ms P : rules_inv ms P →
  rules_inv (sort_rules ties ms) P ∧ StronglySorted le_age (genericRules (sort_rules ties ms)) ∧
  map_Forall (λ _, StronglySorted le_age) (rulesByExactModelMatch (sort_rules ties ms)).
Proof.
  intros [Hg He]. split; [split|split]; simpl.
  - intros rr. by rewrite sort_by_age_perm.
  - intros model rr. rewrite map_lookup_imap, <- He.
    destruct (rulesByExactModelMatch ms !! model) as [l|]; simpl; [|done]. by rewrite sort_by_age_perm.
  - apply sort_by_age_sorted.
  - intros model l. rewrite map_lookup_imap. destruct (_ !! model) as [l'|]; intros [= <-]. apply sort_by_age_sorted.
Qed.

Lemma filter_sorted {A} (R : A → A → Prop) (P : A → Prop) `{∀ x, Decision (P x)} l :
  StronglySorted R l → StronglySorted R (base.filter P l).
Proof.
  induction 1 as [|x l Hs IH Hx]; [constructor|]. rewrite filter_cons. case_decide; [|done].
  constructor; [done|]. rewrite Forall_forall in *. intros y [_ Hy]%list_elem_of_filter. by apply Hx.
Qed.

Lemma rule_of_delete all n rr : map_Forall (λ name rw, rw_Name rw = name) all →
  rule_of (delete n all) rr ↔ rule_of all rr ∧ not_from n rr.
Proof.
  intros Hn. unfold rule_of, not_from. split.
  - intros (rw & rule & [Hne Hl]%lookup_delete_Some & Hin & ->). eauto 7.
  - intros [(rw & rule & Hl & Hin & ->) Hne]. exists rw, rule. by rewrite lookup_delete_ne by done.
Qed.

Lemma deleteInternal_all n ms : allReWrites (deleteInternal n ms) = delete n (allReWrites ms).
Proof. unfold deleteInternal. destruct (allReWrites ms !! n) eqn:Hn; [done|]. by rewrite delete_id. Qed.

Lemma deleteInternal_inv n ms : store_inv ms → store_inv (deleteInternal n ms).
Proof.
  intros Hi. pose proof Hi as [[Hg He] Hn Hsg Hse]. unfold deleteInternal.
  destruct (allReWrites ms !! n) as [rw|]; [|done]. split; [split|..]; simpl.
  - intros rr. rewrite list_elem_of_filter, rule_of_delete, Hg by done. tauto.
  - intros model rr. rewrite rule_of_delete by done. rewrite lookup_omap.
    trans (not_from n rr ∧ rr ∈ default [] (rulesByExactModelMatch ms !! model)); [|rewrite He; tauto].
    destruct (rulesByExactModelMatch ms !! model) as [l|]; simpl; [|by rewrite elem_of_nil; tauto].
    rewrite <- list_elem_of_filter. case_bool_decide as Hl; [|done]. by rewrite (nil_length_inv _ Hl).
  - intros name rw' [_ Hl]%lookup_delete_Some. by apply Hn.
  - by apply filter_sorted.
  - intros model l. rewrite lookup_omap. destruct (_ !! model) as [l'|] eqn:Hl; [|done]. simpl.
    case_bool_decide; intros [= <-]. apply filter_sorted. by eapply Hse.
Qed.

Lemma rule_of_insert all rw rr : all !! rw_Name rw = None →
  rule_of (<[rw_Name rw := rw]> all) rr ↔ rule_of all rr ∨ rr ∈ with_metadata rw <$> rw_Rules rw.
Proof.
  intros Hnone. unfold rule_of. rewrite list_elem_of_fmap. split.
  - intros (rw' & rule & [[Heq <-]|[Hne Hl]]%lookup_insert_Some & Hin & ->); [right|left]; eauto 6.
  - intros [(rw' & rule & Hl & Hin & ->)|(rule & -> & Hin)].
    + exists rw', rule. rewrite lookup_insert_ne by congruence. done.
    + exists rw, rule. by rewrite lookup_insert_eq.
Qed.

Lemma set_rewrite_inv ties rw ms : store_inv ms →
  store_inv (set_rewrite ties rw ms) ∧ allReWrites (set_rewrite ties rw ms) = <[rw_Name rw := rw]> (allReWrites ms).
Proof.
  intros Hi. unfold set_rewrite.
  set (ms1 := match allReWrites ms !! rw_Name rw with Some _ => deleteInternal (rw_Name rw) ms | None => ms end).
  assert (store_inv ms1 ∧ allReWrites ms1 = delete (rw_Name rw) (allReWrites ms)) as [[Hr Hn _ _] Ha].
  { subst ms1. destruct (_ !! rw_Name rw) eqn:Hl; [|by rewrite delete_id].
    split; [by apply deleteInternal_inv|apply deleteInternal_all]. }
  set (ms2 := mkRewriteStore _ _ _).
  assert (rules_inv ms2 (rule_of (allReWrites ms1))) as Hr2 by by destruct Hr.
  destruct (add_rules_inv (with_metadata rw <$> rw_Rules rw) _ _ Hr2) as [Hr3 Ha3].
  assert (rule_of_new : ∀ rr, rule_of (allReWrites ms2) rr ↔
    rule_of (allReWrites ms1) rr ∨ rr ∈ with_metadata rw <$> rw_Rules rw).
  { intros rr. subst ms2. simpl. apply rule_of_insert. rewrite Ha. apply lookup_delete_eq. }
  destruct (sort_rules_inv ties _ _ Hr3) as ([Hg He] & Hsg & Hse). split.
  - split; [split|..]; try done.
    + intros rr. cbn [sort_rules allReWrites]. rewrite Hg, Ha3, rule_of_new. done.
    + intros model rr. cbn [sort_rules allReWrites]. rewrite He, Ha3, rule_of_new. done.
    + cbn [sort_rules allReWrites]. rewrite Ha3. subst ms2. simpl. by apply map_Forall_insert_2.
  - cbn [sort_rules allReWrites]. rewrite Ha3. subst ms2. simpl. by rewrite Ha, insert_delete_eq.
Qed.

(** ** Updates of the store *)

Inductive rewrite_op := OpSet (ties : option string → nat → nat) (rw : InferenceModelRewrite) | OpDelete (name : string).

Definition apply_op (ms : modelRewriteStore) (op : rewrite_op) : modelRewriteStore :=
  match op with OpSet ties rw => set_rewrite ties rw ms | OpDelete name => deleteInternal name ms end.

(** What the updates mean for the set of rewrites. *)
Definition rewrites_after (all : gmap string InferenceModelRewrite) (op : rewrite_op) : gmap string InferenceModelRewrite :=
  match op with OpSet _ rw => <[rw_Name rw := rw]> all | OpDelete name => delete name all end.

Lemma apply_ops_inv ops : ∀ ms, store_inv ms →
  store_inv (foldl apply_op ms ops) ∧
  allReWrites (foldl apply_op ms ops) = foldl rewrites_after (allReWrites ms) ops.
Proof.
  induction ops as [|op ops IH]; intros ms Hi; [done|]. simpl. destruct op as [ties rw|name]; simpl.
  - destruct (set_rewrite_inv ties rw ms Hi) as [H1 H2]. rewrite <- H2. by apply IH.
  - rewrite <- deleteInternal_all. by apply IH, deleteInternal_inv.
Qed.

Lemma new_store_inv : store_inv newModelRewriteStore.
Proof.
  assert (∀ rr, ¬ rule_of ∅ rr) as Hno by by intros rr (rw & rule & Hl & _).
  split; [split|apply map_Forall_empty|constructor|apply map_Forall_empty]; simpl.
  - intros rr. rewrite elem_of_nil. naive_solver.
  - intros model rr. rewrite lookup_empty. simpl. rewrite elem_of_nil. naive_solver.
Qed.

Lemma sorted_head_oldest rr l (P : rewriteRuleWithMetadata → Prop) :
  StronglySorted le_age (rr :: l) → (∀ x, x ∈ rr :: l ↔ P x) → oldest P rr.
Proof.
  intros [_ Hall]%StronglySorted_inv Hin. split; [apply Hin; left|].
  intros rr' [->|Hl]%Hin%elem_of_cons; [done|]. rewrite Forall_forall in Hall. by apply Hall.
Qed.

Lemma getRule_precedence ms model : store_inv ms → precedence (allReWrites ms) model (getRule model ms).
Proof.
  intros [[Hg He] _ Hsg Hse]. unfold getRule. specialize (He model).
  destruct (rulesByExactModelMatch ms !! model) as [[|rr l]|] eqn:Hl; simpl in He.
  2: { exists rr. do 2 (split; [done|]). left. eapply sorted_head_oldest; [by eapply Hse|exact He]. }
  all: assert (∀ rr, ¬ matches (allReWrites ms) model rr) as Hno
    by (intros rr Hm; apply He in Hm; by apply elem_of_nil in Hm).
  all: destruct (genericRules ms) as [|g gs].
  1,3: intros rr; split; [done|]; intros Hc; apply Hg in Hc; by apply elem_of_nil in Hc.
  all: exists g; do 2 (split; [done|]); right; split; [done|]; by eapply sorted_head_oldest.
Qed.

(** C35. The store of model rewrites implements precedence. After any sequence of updates and
    deletions of rewrites, and however the sort orders rules of the same age, [getRule]
    returns a rule of a rewrite that exists now, with the name of that rewrite: an oldest
    one among the rules that name the model and, if no rule names it, an oldest one among
    those that match every model. It returns none only if there is neither. *)
Theorem rewrite_store_refines (ops : list rewrite_op) (model : string) :
  precedence (foldl rewrites_after ∅ ops) model (getRule model (foldl apply_op newModelRewriteStore ops)).
Proof.
  destruct (apply_ops_inv ops _ new_store_inv) as [Hi Ha]. simpl in Ha. rewrite <- Ha. by apply getRule_precedence.
Qed.

(** ** The share of a target *)

Definition weight_of (name : string) (models : list TargetModel) : Z :=
  foldr (λ m n, (if bool_decide (tm_ModelRewrite m = name) then tm_Weight m else 0) + n)%Z 0%Z models.

Definition weight_sum (models : list TargetModel) : Z := foldr (λ m n, tm_Weight m + n)%Z 0%Z models.

Lemma i32_id n : (- 2 ^ 31 ≤ n < 2 ^ 31)%Z → i32 n = n.
Proof. intros H. unfold i32. rewrite Z.mod_small; lia. Qed.

Definition weights_ok (models : list TargetModel) : Prop :=
  Forall (λ m, 0 ≤ tm_Weight m)%Z models ∧ (weight_sum models < 2 ^ 31)%Z.

Lemma weight_sum_nonneg models : Forall (λ m, 0 ≤ tm_Weight m)%Z models → (0 ≤ weight_sum models)%Z.
Proof. induction 1; simpl; lia. Qed.

Lemma total_weight_sum models : ∀ acc, Forall (λ m, 0 ≤ tm_Weight m)%Z models → (0 ≤ acc)%Z →
  (acc + weight_sum models < 2 ^ 31)%Z →
  foldl (λ totalWeight model, i32 (totalWeight + tm_Weight model)) acc models = (acc + weight_sum models)%Z.
Proof.
  induction models as [|m models IH]; intros acc Hw H0 Hs; simpl in *; [lia|].
  apply Forall_cons in Hw as [Hm Hw]. pose proof (weight_sum_nonneg _ Hw).
  rewrite i32_id by lia. rewrite IH by (done || lia). lia.
Qed.

(** The number of draws for which [p] holds. *)
Definition draws_with (p : Z → bool) (lo n : Z) : Z := Z.of_nat (length (base.filter (λ r, p r = true) (seqZ lo n))).

Lemma draws_with_add p lo n m : (0 ≤ n)%Z → (0 ≤ m)%Z →
  draws_with p lo (n + m) = (draws_with p lo n + draws_with p (lo + n) m)%Z.
Proof. intros. unfold draws_with. rewrite seqZ_app by done. rewrite filter_app, length_app. lia. Qed.

Lemma filter_const (p : Z → bool) b l : Forall (λ r, p r = b) l →
  length (base.filter (λ r, p r = true) l) = if b then length l else 0.
Proof.
  induction 1 as [|r l Hr _ IH]; [by destruct b|]. rewrite filter_cons, Hr.
  destruct b; case_decide; simpl; congruence.
Qed.

Lemma draws_with_const p lo n b : (0 ≤ n)%Z → (∀ r, lo ≤ r < lo + n → p r = b)%Z →
  draws_with p lo n = (if b then n else 0)%Z.
Proof.
  intros Hn Hp. unfold draws_with. rewrite (filter_const p b).
  - rewrite length_seqZ. destruct b; lia.
  - rewrite Forall_forall. intros r Hr%elem_of_seqZ. apply Hp. lia.
Qed.

Lemma filter_agree (p q : Z → bool) l : Forall (λ r, p r = q r) l →
  base.filter (λ r, p r = true) l = base.filter (λ r, q r = true) l.
Proof. induction 1 as [|r l Hr _ IH]; [done|]. rewrite !filter_cons, Hr, IH. done. Qed.

Lemma draws_with_ext p q lo n : (∀ r, lo ≤ r < lo + n → p r = q r)%Z → draws_with p lo n = draws_with q lo n.
Proof.
  intros H. unfold draws_with. do 2 f_equal. apply filter_agree. rewrite Forall_forall.
  intros r Hr%elem_of_seqZ. apply H. lia.
Qed.

Lemma weight_loop_share name models : ∀ acc, Forall (λ m, 0 ≤ tm_Weight m)%Z models → (0 ≤ acc)%Z →
  (acc + weight_sum models < 2 ^ 31)%Z →
  draws_with (λ r, bool_decide (weight_loop r acc models = Some name)) acc (weight_sum models) = weight_of name models.
Proof.
  induction models as [|m models IH]; intros acc Hw H0 Hs; [done|]. simpl in *.
  apply Forall_cons in Hw as [Hm Hw]. pose proof (weight_sum_nonneg _ Hw). rewrite i32_id by lia.
  rewrite draws_with_add by done. rewrite <- (IH (acc + tm_Weight m)%Z) by (done || lia). f_equal.
  - erewrite (draws_with_const _ _ _ (bool_decide (tm_ModelRewrite m = name))); [|done|].
    + by case_bool_decide.
    + intros r Hr. simpl. rewrite (bool_decide_true (r < _)%Z) by lia. apply bool_decide_ext. naive_solver.
  - apply draws_with_ext. intros r Hr. by rewrite (bool_decide_false (r < _)%Z) by lia.
Qed.

Lemma weight_loop_some models : ∀ r acc, Forall (λ m, 0 ≤ tm_Weight m)%Z models → (0 ≤ acc)%Z →
  (acc + weight_sum models < 2 ^ 31)%Z → (acc ≤ r < acc + weight_sum models)%Z →
  ∃ m, weight_loop r acc models = Some (tm_ModelRewrite m) ∧ m ∈ models ∧ (0 < tm_Weight m)%Z.
Proof.
  induction models as [|m models IH]; intros r acc Hw H0 Hs Hr; simpl in *; [lia|].
  apply Forall_cons in Hw as [Hm Hw]. pose proof (weight_sum_nonneg _ Hw). rewrite i32_id by lia.
  case_bool_decide.
  - exists m. split; [done|]. split; [left|lia].
  - destruct (IH r (acc + tm_Weight m)%Z) as (m' & E1 & E2 & E3); [done|lia..|]. exists m'. split; [done|]. split; [by right|done].
Qed.

Lemma selectWeightedModel_loop Intn models : weights_ok models → (0 < weight_sum models)%Z →
  (0 ≤ Intn (weight_sum models) < weight_sum models)%Z →
  selectWeightedModel Intn models = weight_loop (Intn (weight_sum models)) 0 models.
Proof.
  intros [Hw Hs] Hpos Hr. unfold selectWeightedModel. destruct (last models) as [lm|] eqn:Hlast.
  2: { apply last_None in Hlast as ->. simpl in Hpos. lia. }
  assert (total_weight models = weight_sum models) as ->.
  { unfold total_weight. by rewrite total_weight_sum by (done || lia). }
  rewrite !bool_decide_false by lia.
  destruct (weight_loop_some models (Intn (weight_sum models)) 0 Hw) as (m & -> & _); [lia..|done].
Qed.

(** A rewrite splits traffic by weight. For targets with weights that are not negative, not
    all zero and whose sum is an int32, every draw selects a target, and out of the draws
    [0 .. total-1], which are equally likely, exactly as many select the model [name] as
    the targets of that name weigh together. *)
Theorem weighted_share (models : list TargetModel) (name : string)
    (Hok : weights_ok models) (Hpos : (0 < weight_sum models)%Z) :
  draws_with (λ r, bool_decide (selectWeightedModel (λ _, r) models = Some name)) 0 (weight_sum models) =
    weight_of name models ∧
  ∀ r, (0 ≤ r < weight_sum models)%Z → ∃ m, selectWeightedModel (λ _, r) models = Some (tm_ModelRewrite m) ∧
    m ∈ models ∧ (0 < tm_Weight m)%Z.
Proof.
  pose proof Hok as [Hw Hs]. split.
  - rewrite <- (weight_loop_share name models 0) by (done || lia). apply draws_with_ext. intros r Hr.
    by rewrite selectWeightedModel_loop by (done || lia).
  - intros r Hr. rewrite selectWeightedModel_loop by (done || lia). apply weight_loop_some; (done || lia).
Qed.

Definition canary : list TargetModel := [mkTargetModel 90 "base"; mkTargetModel 10 "canary"].

Lemma weighted_share_witness :
  draws_with (λ r, bool_decide (selectWeightedModel (λ _, r) canary = Some "canary")) 0 100 = 10%Z.
Proof.
  destruct (weighted_share canary "canary") as [H _]; [split; [repeat constructor; simpl; lia|simpl; lia]|simpl; lia|].
  exact H.
Defined.

(** The weights are added as int32: an overflow makes [rand.Intn] panic. *)
Lemma weight_overflow_panics :
  selectWeightedModel (λ _, 0%Z) [mkTargetModel (2 ^ 30) "a"; mkTargetModel (2 ^ 30) "b"] = None.
Proof. reflexivity. Qed.

(** A rule whose matches all lack a model is never found: it neither names a model nor
    counts as matching every model. *)
Lemma modelless_match_unreachable (rw : InferenceModelRewrite) ties model :
  Forall (λ rule, rl_Matches rule = [None]) (rw_Rules rw) →
  getRule model (set_rewrite ties rw newModelRewriteStore) = None.
Proof.
  intros Hall. destruct (set_rewrite_inv ties rw _ new_store_inv) as [Hi Ha].
  pose proof (getRule_precedence _ model Hi) as Hp. rewrite Ha in Hp. simpl in Hp.
  assert (∀ rr, rule_of (<[rw_Name rw := rw]> ∅) rr → rl_Matches (rr_rule rr) = [None]) as Hrr.
  { intros rr [(rw' & rule & Hl & _)|Hin]%rule_of_insert; [done| |done].
    apply list_elem_of_fmap in Hin as (rule & -> & Hin). rewrite Forall_forall in Hall. by apply Hall. }
  destruct (getRule _ _) as [[rule name]|]; [|done]. destruct Hp as (rr & -> & -> & [[[H1 H2] _]|[_ [[H1 H2] _]]]).
  - rewrite (Hrr _ H1) in H2. by apply list_elem_of_singleton in H2.
  - by rewrite (Hrr _ H1) in H2.
Qed.
