(* ===== verification/RequestControl.v ===== *)
(** * Request control: errors, the request context and admission
    ([common/error], [handlers/server.go], [requestcontrol/admission.go],
    [util/request/sheddable.go])

    The request context is what the server keeps of a request while it is handled. An
    admission controller either lets a request pass or returns an error, which the server
    turns into an HTTP status. The legacy controller sheds requests of negative priority
    while the pool is saturated; the other one leaves the decision to flow control. *)

From stdpp Require Import prelude gmap strings list.
From Stdlib Require Import ZArith Lia Floats.SpecFloat.
From S2P Require Import Prelude FlowTypes Float64 FloatRound FloatOps FloatSum SchedTypes Pickers SchedulerProfile Scheduler Leasing Shard Item Registry RegistryInv RegistryProps Processor ProcessorProps Controller ControllerProps Scorers Saturation Candidates.

(** ** Errors *)

Definition Unknown : string := "Unknown".
Definition BadRequest : string := "BadRequest".
Definition Unauthorized : string := "Unauthorized".
Definition Forbidden : string := "Forbidden".
Definition NotFound : string := "NotFound".
Definition Internal : string := "Internal".
Definition ServiceUnavailable : string := "ServiceUnavailable".
Definition ModelServerError : string := "ModelServerError".
Definition ResourceExhausted : string := "ResourceExhausted".

Record Error := mkError { e_Code : string; e_Msg : string }.

Definition Error_Error (e : Error) : string := "inference error: " +:+ e_Code e +:+ " - " +:+ e_Msg e.

(** An error is one of this package or another one. *)
Definition CanonicalCode (err : Error + GoError) : string :=
  match err with inl e => e_Code e | inr _ => Unknown end.

(** The status and the body of an immediate response; [None] is an error of the stream. *)
Definition BuildErrResponse (err : Error + GoError) (text : string) : option (Z * string) :=
  let code := CanonicalCode err in
  httpCode ← (if bool_decide (code = BadRequest) then Some 400%Z
              else if bool_decide (code = Unauthorized) then Some 401%Z
              else if bool_decide (code = Forbidden) then Some 403%Z
              else if bool_decide (code = NotFound) then Some 404%Z
              else if bool_decide (code = ResourceExhausted) then Some 429%Z
              else if bool_decide (code = Internal) then Some 500%Z
              else if bool_decide (code = ServiceUnavailable) then Some 503%Z
              else None);
  Some (httpCode, text).

(** ** The request context *)

Definition RequestIdHeaderKey : string := "x-request-id".

Record RequestContext := mkRequestContext {
  rc_TargetPod : option EndpointMetadata;
  rc_TargetEndpoint : string;
  rc_IncomingModelName : string;
  rc_TargetModelName : string;
  rc_FairnessID : string;
  rc_ObjectiveKey : string;
  rc_Priority : Z;
  rc_RequestReceivedTimestamp : Z;
  rc_RequestSize : Z;
  rc_Headers : gmap string string;
  rc_RawBody : string;
  rc_Metadata : option Metadata;
  rc_SchedulingRequest : option InferenceRequest;
  rc_SchedulingResult : option SchedulingResult
}.

(** ** Admission *)

Definition IsSheddable (priority : Z) : bool := bool_decide (priority < 0)%Z.

Section legacy.
Context (Saturation : list Endpoint → float64) (Locate : option Metadata → list Endpoint).

Definition rejectIfSheddableAndSaturated (reqCtx : RequestContext) (priority : Z) : option Error :=
  if IsSheddable priority then
    if fle fone (Saturation (Locate (rc_Metadata reqCtx)))
    then Some (mkError ResourceExhausted "system saturated, sheddable request dropped")
    else None
  else None.

Definition LegacyAdmit (reqCtx : RequestContext) (priority : Z) : option Error :=
  match rejectIfSheddableAndSaturated reqCtx priority with
  | Some err => Some err
  | None => None
  end.
End legacy.

Section flow_control.
(** [err.Error()]: the model of errors does not keep all of their text. *)
Context (Error_text : GoError → string).

Definition translateFlowControlOutcome (outcome : QueueOutcome) (err : option GoError) : option Error :=
  let msg := match err with Some e => Error_text e | None => "request rejected by flow control" end in
  match outcome with
  | QueueOutcomeDispatched => None
  | QueueOutcomeRejectedCapacity => Some (mkError ResourceExhausted msg)
  | QueueOutcomeEvictedTTL => Some (mkError ServiceUnavailable ("request timed out in queue: " +:+ msg))
  | QueueOutcomeEvictedContextCancelled => Some (mkError ServiceUnavailable ("client disconnected: " +:+ msg))
  | QueueOutcomeRejectedOther | QueueOutcomeEvictedOther =>
      Some (mkError Internal ("internal flow control error: " +:+ msg))
  | QueueOutcomeNotYetFinalized => Some (mkError Internal ("unhandled flow control outcome: " +:+ msg))
  end.

(** The adapter; [uint64] of the size, and no TTL of its own. *)
Definition flowControlRequest (order : nat → nat) (reqCtx : RequestContext) (priority : Z) : FlowControlRequest :=
  mkRequest (mkFlowKey (rc_FairnessID reqCtx) priority) (rc_RequestSize reqCtx `mod` 2 ^ 64)
    ((λ request, shuffle order (map_to_list (ir_Headers request))) <$> rc_SchedulingRequest reqCtx)
    (rc_RequestReceivedTimestamp reqCtx) 0
    (match rc_SchedulingRequest reqCtx with Some request => ir_RequestId request | None => "" end).

(** [EnqueueAndWait] is what the flow controller answers. *)
Definition FlowControlAdmit (EnqueueAndWait : FlowControlRequest → QueueOutcome * option GoError)
    (order : nat → nat) (reqCtx : RequestContext) (priority : Z) : option Error :=
  let answer := EnqueueAndWait (flowControlRequest order reqCtx priority) in
  translateFlowControlOutcome answer.1 answer.2.
End flow_control.

(** ** What a caller sees *)

(** The status of the immediate response to a refused request. *)
Definition http_status (err : Error) : option Z := fst <$> BuildErrResponse (inl err) (Error_Error err).

(** The status that flow control's documentation promises for an outcome. *)
Definition outcome_status (outcome : QueueOutcome) : option Z :=
  match outcome with
  | QueueOutcomeDispatched => None
  | QueueOutcomeRejectedCapacity => Some 429%Z
  | QueueOutcomeEvictedTTL | QueueOutcomeEvictedContextCancelled => Some 503%Z
  | _ => Some 500%Z
  end.

Lemma translate_status text outcome err :
  match translateFlowControlOutcome text outcome err with
  | None => outcome = QueueOutcomeDispatched
  | Some e => outcome ≠ QueueOutcomeDispatched ∧ http_status e = outcome_status outcome
  end.
Proof. by destruct outcome. Qed.


(** A pool of one endpoint that has as many tokens in flight as it may have. *)
Definition full_pool : list Endpoint := [loaded_endpoint 1 0 0 fzero 1000].
Definition token_limits : concurrency.config := concurrency.mkConfig 100 fzero concurrency.modeTokens 1000.

Definition batch_request : RequestContext :=
  mkRequestContext None "" "" "" "batch" "" 0 0 12 ∅ "" None None None.

