(* ===== verification/Director.v ===== *)
(** * The director: [requestcontrol/director.go], [plugin_executor.go]

    The director takes a request from its parsed body to a routing decision: it rewrites
    the model, looks up the priority, asks for admission, locates the candidates, lets the
    data producers and the admission plugins run, schedules, and runs the hooks of the
    plugins before the request is sent. Its collaborators are the fields of [Director];
    the state of the plugins is one value [S]. The headers of the scheduling request are
    the map of the request context itself, so a header that a plugin sets is set in both. *)

From stdpp Require Import prelude gmap strings list sorting.
From Stdlib Require Import ZArith Lia.
From S2P Require Import Prelude FlowTypes Float64 SchedTypes Json Pickers SchedulerProfile Scheduler ProfileHandlers Saturation InFlight Candidates ModelRewrite RequestControl.

Declare Scope director_scope.
#[local] Open Scope go_scope.

(** ** The context's updates *)

Definition with_models (incoming target : string) (c : RequestContext) : RequestContext :=
  mkRequestContext (rc_TargetPod c) (rc_TargetEndpoint c) incoming target (rc_FairnessID c) (rc_ObjectiveKey c)
    (rc_Priority c) (rc_RequestReceivedTimestamp c) (rc_RequestSize c) (rc_Headers c) (rc_RawBody c) (rc_Metadata c)
    (rc_SchedulingRequest c) (rc_SchedulingResult c).

Definition with_priority (priority : Z) (c : RequestContext) : RequestContext :=
  mkRequestContext (rc_TargetPod c) (rc_TargetEndpoint c) (rc_IncomingModelName c) (rc_TargetModelName c)
    (rc_FairnessID c) (rc_ObjectiveKey c) priority (rc_RequestReceivedTimestamp c) (rc_RequestSize c) (rc_Headers c)
    (rc_RawBody c) (rc_Metadata c) (rc_SchedulingRequest c) (rc_SchedulingResult c).

(** The request and the context share the map of the headers. *)
Definition with_request (r : InferenceRequest) (c : RequestContext) : RequestContext :=
  mkRequestContext (rc_TargetPod c) (rc_TargetEndpoint c) (rc_IncomingModelName c) (rc_TargetModelName c)
    (rc_FairnessID c) (rc_ObjectiveKey c) (rc_Priority c) (rc_RequestReceivedTimestamp c) (rc_RequestSize c)
    (ir_Headers r) (rc_RawBody c) (rc_Metadata c) (Some r) (rc_SchedulingResult c).

Definition with_result (result : SchedulingResult) (c : RequestContext) : RequestContext :=
  mkRequestContext (rc_TargetPod c) (rc_TargetEndpoint c) (rc_IncomingModelName c) (rc_TargetModelName c)
    (rc_FairnessID c) (rc_ObjectiveKey c) (rc_Priority c) (rc_RequestReceivedTimestamp c) (rc_RequestSize c)
    (rc_Headers c) (rc_RawBody c) (rc_Metadata c) (rc_SchedulingRequest c) (Some result).

Definition with_target (pod : EndpointMetadata) (endpoint : string) (c : RequestContext) : RequestContext :=
  mkRequestContext (Some pod) endpoint (rc_IncomingModelName c) (rc_TargetModelName c)
    (rc_FairnessID c) (rc_ObjectiveKey c) (rc_Priority c) (rc_RequestReceivedTimestamp c) (rc_RequestSize c)
    (rc_Headers c) (rc_RawBody c) (rc_Metadata c) (rc_SchedulingRequest c) (rc_SchedulingResult c).

Definition with_body (body : string) (c : RequestContext) : RequestContext :=
  mkRequestContext (rc_TargetPod c) (rc_TargetEndpoint c) (rc_IncomingModelName c) (rc_TargetModelName c)
    (rc_FairnessID c) (rc_ObjectiveKey c) (rc_Priority c) (rc_RequestReceivedTimestamp c)
    (Z.of_nat (String.length body)) (rc_Headers c) body (rc_Metadata c) (rc_SchedulingRequest c)
    (rc_SchedulingResult c).

(** ** State and errors *)

(** [InferenceRequestBody.Payload]. *)
Inductive Payload := PayloadMap (fields : gmap string JSON) | PayloadProto | RawPayload | OtherPayload.

Record DState (S : Type) := mkDState { ds_ctx : RequestContext; ds_payload : Payload; ds_plugins : S }.
Arguments mkDState {S}.
Arguments ds_ctx {S}.
Arguments ds_payload {S}.
Arguments ds_plugins {S}.

(** A step that may return an error: the rest is skipped. *)
Definition ebindM {S E A B} (m : GoM S (A + E)) (k : A → GoM S (B + E)) : GoM S (B + E) :=
  r ← m; match r with inl a => k a | inr e => mret (inr e) end.

Notation "x '←?' m ; k" := (ebindM m (λ x, k)) (at level 20, m at level 100, k at level 200, right associativity)
  : director_scope.
#[local] Open Scope director_scope.

Lemma wp_ebindM {S E A B} (m : GoM S (A + E)) (k : A → GoM S (B + E)) Q s :
  wp m (λ r s', match r with inl a => wp (k a) Q s' | inr e => Q (inr e) s' end) s → wp (ebindM m k) Q s.
Proof.
  intros H. apply wp_bind. eapply wp_mono; [exact H|]. intros [a|e] s' Hs; [done|]. by apply wp_ret.
Qed.

(** ** The collaborators *)

(** [PrepareRequestData] may change the request and the attributes of the endpoints. *)
Record DataProducer (S : Type) := mkDataProducer {
  dp_PrepareRequestData : InferenceRequest → list Endpoint → S → InferenceRequest * list Endpoint * S * option GoError
}.
Arguments mkDataProducer {S}.
Arguments dp_PrepareRequestData {S}.

Record PreRequestPlugin (S : Type) := mkPreRequestPlugin {
  pp_PreRequest : InferenceRequest → SchedulingResult → S → InferenceRequest * S
}.
Arguments mkPreRequestPlugin {S}.
Arguments pp_PreRequest {S}.

Record Director (S : Type) := mkDirector {
  d_ObjectiveGet : string → option (option Z);
  d_ModelRewriteGet : string → option (InferenceModelRewriteRule * string);
  d_Admit : RequestContext → Z → option Error;
  d_Locate : option Metadata → list Endpoint;
  d_Schedule : InferenceRequest → list Endpoint → option ((SchedulingResult + GoError) * InferenceRequest);
  d_prepareDataPlugins : list (DataProducer S);
  d_admissionPlugins : list (InferenceRequest → list Endpoint → option GoError);
  d_preRequestPlugins : list (PreRequestPlugin S)
}.
Arguments mkDirector {S}.
Arguments d_ObjectiveGet {S}.
Arguments d_ModelRewriteGet {S}.
Arguments d_Admit {S}.
Arguments d_Locate {S}.
Arguments d_Schedule {S}.
Arguments d_prepareDataPlugins {S}.
Arguments d_admissionPlugins {S}.
Arguments d_preRequestPlugins {S}.

(** What the runtime chooses: random draws, addresses of new objects, and the number of
    data producers that have run when their time is over, if it ends too early. *)
Record DirectorDraws := mkDirectorDraws {
  dd_Intn : Z → Z;
  dd_alloc : nat → positive;
  dd_timeout : option nat
}.

Section director.
Context {S : Type} (d : Director S) (dd : DirectorDraws).
Context (FormatFloat : float64 → string) (Error_text : GoError → string).

(** ** Model and priority *)

Definition defaultPriority : Z := 0.

Definition getInferenceObjective (reqCtx : RequestContext) : Z :=
  match d_ObjectiveGet d (rc_ObjectiveKey reqCtx) with
  | Some (Some priority) => priority
  | _ => defaultPriority
  end.

(** [None] if the choice of the model panics. *)
Definition applyWeightedModelRewrite (reqCtx : RequestContext) : option RequestContext :=
  match d_ModelRewriteGet d (rc_IncomingModelName reqCtx) with
  | None => Some reqCtx
  | Some (rewriteRule, _) =>
      target ← selectWeightedModel (dd_Intn dd) (rl_Targets rewriteRule);
      Some (with_models (rc_IncomingModelName reqCtx) target reqCtx)
  end.

Definition mutateModel (bodyMap : gmap string JSON) : GoM (DState S) (unit + Error) := λ s,
  match bodyMap !! "model" with
  | Some (JString incoming) =>
      let c := ds_ctx s in
      let target := if bool_decide (rc_TargetModelName c = "") then incoming else rc_TargetModelName c in
      match applyWeightedModelRewrite (with_models incoming target c) with
      | None => None
      | Some c =>
          Some (inl tt, mkDState c (PayloadMap (<["model" := JString (rc_TargetModelName c)]> bodyMap)) (ds_plugins s))
      end
  | _ =>
      Some (inr (mkError BadRequest "model not found in request body"),
            mkDState (with_models "" (rc_TargetModelName (ds_ctx s)) (ds_ctx s)) (ds_payload s) (ds_plugins s))
  end.

Definition modelRewriteIfNeeded : GoM (DState S) (unit + Error) :=
  payload ← gets ds_payload;
  match payload with PayloadMap v => mutateModel v | _ => mret (inl tt) end.

(** ** Plugins *)

(** The producers in order; the first error ends the run. *)
Fixpoint executePluginsAsDAG (plugins : list (DataProducer S)) (request : InferenceRequest) (endpoints : list Endpoint)
    (s : S) : InferenceRequest * list Endpoint * S * option GoError :=
  match plugins with
  | [] => (request, endpoints, s, None)
  | plugin :: plugins' =>
      match dp_PrepareRequestData plugin request endpoints s with
      | (request, endpoints, s, Some err) => (request, endpoints, s, Some err)
      | (request, endpoints, s, None) => executePluginsAsDAG plugins' request endpoints s
      end
  end.

(** Whatever the error, the request goes on with what the producers have prepared. *)
Definition runPrepareDataPlugins (request : InferenceRequest) (endpoints : list Endpoint) (s : S)
    : InferenceRequest * list Endpoint * S :=
  let plugins := match dd_timeout dd with
                 | Some n => take n (d_prepareDataPlugins d)
                 | None => d_prepareDataPlugins d
                 end in
  (executePluginsAsDAG plugins request endpoints s).1.

Definition runAdmissionPlugins (request : InferenceRequest) (endpoints : list Endpoint) : bool :=
  forallb (λ plugin, match plugin request endpoints with Some _ => false | None => true end) (d_admissionPlugins d).

Definition runPreRequestPlugins (request : InferenceRequest) (schedulingResult : SchedulingResult) (s : S)
    : InferenceRequest * S :=
  foldl (λ acc plugin, pp_PreRequest plugin acc.1 schedulingResult acc.2) (request, s) (d_preRequestPlugins d).

(** ** The request *)

(** [NewEndpoint] clones what it is given. *)
Definition toSchedulerEndpoints (endpoints : list Endpoint) : list Endpoint :=
  imap (λ i e, mkEndpoint (dd_alloc dd i) (ep_Metadata e) (ep_Metrics e) (ep_Attributes e)) endpoints.

Definition on_ctx (f : RequestContext → RequestContext) : GoM (DState S) unit :=
  modify (λ s, mkDState (f (ds_ctx s)) (ds_payload s) (ds_plugins s)).

Definition prepareRequest (request : InferenceRequest) (result : SchedulingResult) : GoM (DState S) (unit + Error) :=
  if bool_decide (size (sr_ProfileResults result) = 0) then
    mret (inr (mkError Internal "results must be greater than zero"))
  else
    match sr_ProfileResults result !! sr_PrimaryProfileName result with
    | Some (Some (pod :: pods)) =>
        let multiEndpointString := strings_Join (host_port <$> pod :: pods) "," in
        modify (λ s,
          let hooks := runPreRequestPlugins request result (ds_plugins s) in
          mkDState (with_request hooks.1 (with_target (ep_Metadata pod) multiEndpointString (ds_ctx s)))
            (ds_payload s) hooks.2) ;;
        mret (inl tt)
    | _ => panic
    end.

(** [json.Marshal] of the map writes the fields in the order of their names. *)
Definition marshal_payload (fields : gmap string JSON) : string :=
  JSON_Marshal FormatFloat (JObject (merge_sort (λ a b, String.le a.1 b.1) (map_to_list fields))).

Definition repackage : GoM (DState S) (unit + Error) :=
  payload ← gets ds_payload;
  match payload with
  | PayloadMap v => on_ctx (with_body (marshal_payload v)) ;; mret (inl tt)
  | PayloadProto | RawPayload => on_ctx (λ c, with_body (rc_RawBody c) c) ;; mret (inl tt)
  | OtherPayload => mret (inr (mkError BadRequest "Unsupported llmRequest parsedBody"))
  end.

Definition new_request (body : InferenceRequestBody) (priority : Z) (c : RequestContext) : InferenceRequest :=
  mkInferenceRequest (default "" (rc_Headers c !! RequestIdHeaderKey)) (rc_TargetModelName c) (Some body) (rc_Headers c)
    priority (rc_RequestSize c).

Definition HandleRequest (inferenceRequestBody : InferenceRequestBody) : GoM (DState S) (unit + Error) :=
  _ ←? modelRewriteIfNeeded;
  priority ← gets (λ s, getInferenceObjective (ds_ctx s));
  on_ctx (λ c, with_request (new_request inferenceRequestBody priority c) (with_priority priority c)) ;;
  reqCtx ← gets ds_ctx;
  match d_Admit d reqCtx priority with
  | Some err => mret (inr err)
  | None =>
      let endpointCandidates := d_Locate d (rc_Metadata reqCtx) in
      if bool_decide (length endpointCandidates = 0) then
        mret (inr (mkError ServiceUnavailable "failed to find endpoint candidates for serving the request"))
      else
        s ← gets ds_plugins;
        request ← getsome (λ s, rc_SchedulingRequest (ds_ctx s));
        let '(request, snapshotOfCandidatePods, s) :=
          runPrepareDataPlugins request (toSchedulerEndpoints endpointCandidates) s in
        modify (λ st, mkDState (with_request request (ds_ctx st)) (ds_payload st) s) ;;
        if negb (runAdmissionPlugins request snapshotOfCandidatePods) then
          mret (inr (mkError Internal "request cannot be admitted"))
        else
          match d_Schedule d request snapshotOfCandidatePods with
          | None => panic
          | Some (decision, request) =>
              on_ctx (with_request request) ;;
              match decision with
              | inr err => mret (inr (mkError ResourceExhausted ("failed to find target endpoint: " +:+ Error_text err)))
              | inl result =>
                  on_ctx (with_result result) ;;
                  _ ←? prepareRequest request result;
                  repackage
              end
          end
  end.
End director.

(** ** What the director relies on *)

(** The same endpoint, perhaps with other attributes. *)
Definition same_endpoint (a b : Endpoint) : Prop := ep_ptr a = ep_ptr b ∧ ep_Metadata a = ep_Metadata b.

#[local] Instance same_endpoint_preorder : PreOrder same_endpoint.
Proof. split; [by split|]. intros a b c [??] [??]. split; congruence. Qed.

(** A producer keeps the endpoints and leaves them well formed, while the state of the
    plugins satisfies [I], which it keeps. *)
Class LawfulProducer {S} (I : S → Prop) (p : DataProducer S) : Prop := {
  producer_keeps : ∀ request eps s, I s → Forall endpoint_ok eps →
    let '(_, eps', s', _) := dp_PrepareRequestData p request eps s in
    I s' ∧ Forall endpoint_ok eps' ∧ Forall2 same_endpoint eps eps'
}.

(** A scheduler answers, and a decision routes to the endpoints that it was given. *)
Class LawfulScheduler
    (Schedule : InferenceRequest → list Endpoint → option ((SchedulingResult + GoError) * InferenceRequest)) : Prop := {
  scheduler_answers : ∀ request eps, Forall endpoint_ok eps → NoDup (ep_ptrs eps) →
    ∃ decision request', Schedule request eps = Some (decision, request') ∧
      match decision with inl sr => routed eps sr | inr _ => True end
}.

(** The scheduler of [Scheduler], with as many rounds as it needs. *)
Definition schedule_with (cd : CycleDraws) (h : ProfileHandler) (profiles : Profiles) (request : InferenceRequest)
    (eps : list Endpoint) : option ((SchedulingResult + GoError) * InferenceRequest) :=
  mjoin (Schedule (1 + size profiles) cd (mkScheduler h profiles) request eps).

#[export] Instance schedule_with_lawful cd h profiles :
  LawfulHandler profiles h → map_Forall (λ _, lawful_profile) profiles → LawfulScheduler (schedule_with cd h profiles).
Proof.
  intros Hh Hp. split. intros request eps Hok Hnd.
  destruct (schedule_routes (1 + size profiles) cd h profiles request eps) as (decision & request' & Hs & Hr);
    [done..|lia|]. exists decision, request'. split; [|done]. unfold schedule_with. by rewrite Hs.
Qed.

(** ** What is handled *)

Section handled.
Context {S : Type} (d : Director S) (I : S → Prop).

(** The plugins' state after some of the producers have run. *)
Definition prepared (s s' : S) : Prop :=
  s' = s ∨ ∃ n request eps, s' = (executePluginsAsDAG (take n (d_prepareDataPlugins d)) request eps s).1.2.

(** The model a request asks for, and the one it is sent to. *)
Definition model_sent (reqCtx : RequestContext) (incoming target : string) : Prop :=
  match d_ModelRewriteGet d incoming with
  | None => target = if bool_decide (rc_TargetModelName reqCtx = "") then incoming else rc_TargetModelName reqCtx
  | Some (rule, _) =>
      rl_Targets rule = [] ∧ target = ""%string ∨ ∃ m, m ∈ rl_Targets rule ∧ target = tm_ModelRewrite m
  end.

Definition payload_sent (s s' : DState S) : Prop :=
  match ds_payload s with
  | PayloadMap fields =>
      ∃ incoming target, fields !! "model" = Some (JString incoming) ∧ model_sent (ds_ctx s) incoming target ∧
        rc_TargetModelName (ds_ctx s') = target ∧ ds_payload s' = PayloadMap (<["model" := JString target]> fields)
  | p => ds_payload s' = p
  end.

(** The request goes to the targets of the primary profile, all of them candidates. *)
Definition served (s s' : DState S) : Prop :=
  payload_sent s s' ∧
  ∃ pod pods, rc_TargetPod (ds_ctx s') = Some (ep_Metadata pod) ∧
    rc_TargetEndpoint (ds_ctx s') = strings_Join (host_port <$> pod :: pods) "," ∧
    Forall (λ t, ∃ e, e ∈ d_Locate d (rc_Metadata (ds_ctx s)) ∧ same_pod t e) (pod :: pods).

(** The reasons for an error. *)
Inductive refused (s : DState S) : Error → Prop :=
  | refused_model err fields : ds_payload s = PayloadMap fields → (∀ m, fields !! "model" ≠ Some (JString m)) →
      e_Code err = BadRequest → refused s err
  | refused_payload err : ds_payload s = OtherPayload → e_Code err = BadRequest → refused s err
  | refused_admission err reqCtx : rc_Metadata reqCtx = rc_Metadata (ds_ctx s) →
      d_Admit d reqCtx (getInferenceObjective d (ds_ctx s)) = Some err → refused s err
  | refused_candidates err : d_Locate d (rc_Metadata (ds_ctx s)) = [] → e_Code err = ServiceUnavailable → refused s err
  | refused_plugin err plugin request eps reason : plugin ∈ d_admissionPlugins d → plugin request eps = Some reason →
      e_Code err = Internal → refused s err
  | refused_schedule err request eps reason request' : d_Schedule d request eps = Some (inr reason, request') →
      e_Code err = ResourceExhausted → refused s err.

(** The hooks have run exactly for the requests that have a target. *)
Definition hooks (s s' : DState S) : Prop :=
  match rc_TargetPod (ds_ctx s') with
  | None => prepared (ds_plugins s) (ds_plugins s')
  | Some _ => ∃ request0 eps request result plugins, prepared (ds_plugins s) plugins ∧
      d_Schedule d request0 eps = Some (inl result, request) ∧
      rc_SchedulingResult (ds_ctx s') = Some result ∧
      (rc_SchedulingRequest (ds_ctx s'), ds_plugins s') =
        (Some (runPreRequestPlugins d request result plugins).1, (runPreRequestPlugins d request result plugins).2)
  end.

Definition handled (s : DState S) (r : unit + Error) (s' : DState S) : Prop :=
  hooks s s' ∧ match r with inl _ => served s s' | inr err => refused s err end.
End handled.

(** ** The stages *)

Section stages.
Context {S : Type} (d : Director S) (dd : DirectorDraws) (I : S → Prop).
Context (FormatFloat : float64 → string) (Error_text : GoError → string).

Hypothesis (HIntn : ∀ n, (0 < n)%Z → (0 ≤ dd_Intn dd n < n)%Z).
Hypothesis (Hrules : ∀ model rule name, d_ModelRewriteGet d model = Some (rule, name) → weights_ok (rl_Targets rule)).

Lemma select_total models : weights_ok models →
  ∃ target, selectWeightedModel (dd_Intn dd) models = Some target ∧
    (models = [] ∧ target = ""%string ∨ ∃ m, m ∈ models ∧ target = tm_ModelRewrite m).
Proof using HIntn.
  intros Hok. pose proof Hok as [Hw Hs]. destruct models as [|m0 models']; [eexists; split; [done|by left]|].
  set (models := m0 :: models') in *. pose proof (weight_sum_nonneg _ Hw) as H0.
  destruct (decide (weight_sum models = 0)%Z) as [Hz|Hz].
  - assert (total_weight models = 0%Z) as Ht by (unfold total_weight; rewrite total_weight_sum by (done || lia); lia).
    unfold selectWeightedModel. destruct (last models) as [lm|] eqn:Hl; [|by apply last_None in Hl].
    rewrite Ht, bool_decide_true by done. pose proof (HIntn (Z.of_nat (length models))) as Hi.
    destruct (lookup_lt_is_Some_2 models (Z.to_nat (dd_Intn dd (Z.of_nat (length models))))) as [m Hm].
    { subst models. simpl length in *. lia. }
    exists (tm_ModelRewrite m). rewrite Hm. split; [done|]. right. exists m. split; [by eapply list_elem_of_lookup_2|done].
  - pose proof (HIntn (weight_sum models) ltac:(lia)) as Hi.
    destruct (weight_loop_some models (dd_Intn dd (weight_sum models)) 0 Hw) as (m & E & Hin & _); [lia..|].
    exists (tm_ModelRewrite m). rewrite selectWeightedModel_loop by (done || lia). split; [done|]. right. by exists m.
Qed.

(** What the later stages do not touch. *)
Definition same_request (s s' : DState S) : Prop :=
  rc_Metadata (ds_ctx s') = rc_Metadata (ds_ctx s) ∧ rc_ObjectiveKey (ds_ctx s') = rc_ObjectiveKey (ds_ctx s) ∧
  rc_TargetPod (ds_ctx s') = rc_TargetPod (ds_ctx s).

Lemma rewrite_ok s :
  wp (modelRewriteIfNeeded d dd) (λ r s', same_request s s' ∧ ds_plugins s' = ds_plugins s ∧
    match r with inl _ => payload_sent d s s' | inr err => refused d s err end) s.
Proof using HIntn Hrules.
  unfold modelRewriteIfNeeded. apply wp_bind, wp_gets.
  destruct (ds_payload s) as [fields| | |] eqn:Hp; [|apply wp_ret; unfold payload_sent; rewrite Hp; by repeat split..].
  unfold mutateModel, wp. destruct (fields !! "model") as [j|] eqn:Hj.
  2: { split; [by split|]. split; [done|]. eapply refused_model; [done| |done]. intros m. by rewrite Hj. }
  destruct j as [| | | |incoming| |] eqn:Ej;
    try (split; [by split|]; split; [done|]; eapply refused_model; [done| |done]; intros m; by rewrite Hj).
  unfold applyWeightedModelRewrite. simpl. destruct (d_ModelRewriteGet d incoming) as [[rule name]|] eqn:Hr.
  - destruct (select_total _ (Hrules _ _ _ Hr)) as (target & -> & Ht). simpl. split; [by split|]. split; [done|].
    unfold payload_sent. rewrite Hp. exists incoming, target. split; [done|]. split; [|done]. unfold model_sent. by rewrite Hr.
  - split; [by split|]. split; [done|]. unfold payload_sent. rewrite Hp. do 2 eexists. split; [done|].
    split; [|by split]. unfold model_sent. by rewrite Hr.
Qed.

Lemma execute_ok plugins : Forall (LawfulProducer I) plugins → ∀ request eps s, I s → Forall endpoint_ok eps →
  let '(_, eps', _, _) := executePluginsAsDAG plugins request eps s in
  Forall endpoint_ok eps' ∧ Forall2 same_endpoint eps eps'.
Proof using Type.
  induction 1 as [|p plugins Hp _ IH]; intros request eps s HI Hok; simpl.
  - by split.
  - pose proof (producer_keeps request eps s HI Hok) as Hk.
    destruct (dp_PrepareRequestData p request eps s) as [[[request1 eps1] s1] [err|]]; destruct Hk as (H1 & H2 & H3); [done|].
    specialize (IH request1 eps1 s1 H1 H2). destruct (executePluginsAsDAG plugins request1 eps1 s1) as [[[? eps2] ?] ?].
    destruct IH as [Hok2 Hs2]. split; [done|]. by trans eps1.
Qed.

Lemma take_Forall {A} (P : A → Prop) n l : Forall P l → Forall P (take n l).
Proof using Type. intros H. by apply Forall_take. Qed.

Lemma prepare_ok request eps s : Forall (LawfulProducer I) (d_prepareDataPlugins d) → I s → Forall endpoint_ok eps →
  let '(_, eps', s') := runPrepareDataPlugins d dd request eps s in
  Forall endpoint_ok eps' ∧ Forall2 same_endpoint eps eps' ∧ prepared d s s'.
Proof using Type.
  intros Hl HI Hok. unfold runPrepareDataPlugins.
  set (n := match dd_timeout dd with Some n => n | None => length (d_prepareDataPlugins d) end).
  assert (match dd_timeout dd with Some n => take n (d_prepareDataPlugins d) | None => d_prepareDataPlugins d end =
          take n (d_prepareDataPlugins d)) as ->.
  { subst n. destruct (dd_timeout dd); [done|]. by rewrite take_ge. }
  pose proof (execute_ok _ (take_Forall _ n _ Hl) request eps s HI Hok) as H.
  assert (prepared d s (executePluginsAsDAG (take n (d_prepareDataPlugins d)) request eps s).1.2) as Hpr
    by (right; by do 3 eexists).
  destruct (executePluginsAsDAG _ request eps s) as [[[request' eps'] s'] err]. simpl in *. by destruct H.
Qed.

Context (Halloc : Inj (=) (=) (dd_alloc dd)).

Lemma snapshot_ok eps : Forall endpoint_ok eps →
  Forall endpoint_ok (toSchedulerEndpoints dd eps) ∧ NoDup (ep_ptrs (toSchedulerEndpoints dd eps)) ∧
  ∀ e, e ∈ toSchedulerEndpoints dd eps → ∃ e', e' ∈ eps ∧ ep_Metadata e = ep_Metadata e'.
Proof using Halloc.
  intros Hok. unfold toSchedulerEndpoints. split_and!.
  - rewrite Forall_forall in *. intros e (i & e' & -> & Hi)%elem_of_lookup_imap_1.
    apply list_elem_of_lookup_2, Hok in Hi. by destruct Hi.
  - unfold ep_ptrs. rewrite fmap_imap. apply NoDup_alt. intros i j p Hi Hj.
    rewrite list_lookup_imap in Hi, Hj.
    destruct (eps !! i); [|done]. destruct (eps !! j); [|done]. simpl in *. apply (inj (dd_alloc dd)). congruence.
  - intros e (i & e' & -> & Hi)%elem_of_lookup_imap_1. exists e'. split; [by eapply list_elem_of_lookup_2|done].
Qed.

Lemma same_endpoints_ptrs eps eps' : Forall2 same_endpoint eps eps' → ep_ptrs eps' = ep_ptrs eps.
Proof using Type.
  unfold ep_ptrs. induction 1 as [|a b eps eps' [Hp _] _ IH]; [done|]. rewrite !fmap_cons, IH, Hp. done.
Qed.

Lemma admission_plugins_deny request eps : runAdmissionPlugins d request eps = false →
  ∃ plugin reason, plugin ∈ d_admissionPlugins d ∧ plugin request eps = Some reason.
Proof using Type.
  unfold runAdmissionPlugins. induction (d_admissionPlugins d) as [|plugin plugins IH]; simpl; [done|].
  destruct (plugin request eps) as [reason|] eqn:Hp; simpl.
  - intros _. exists plugin, reason. split; [left|done].
  - intros H. destruct (IH H) as (p & reason' & Hin & Hr). exists p, reason'. split; [by right|done].
Qed.

(** The last two stages, for a decision that routes to [eps]. *)
Lemma finish_ok s0 s1 request0 request result eps :
  d_Schedule d request0 eps = Some (inl result, request) → routed eps result → rc_SchedulingResult (ds_ctx s1) = Some result → prepared d (ds_plugins s0) (ds_plugins s1) →
  wp (_ ←? prepareRequest d request result; repackage FormatFloat)
    (λ r s', hooks d s0 s' ∧
       (∃ pod pods, rc_TargetPod (ds_ctx s') = Some (ep_Metadata pod) ∧
          rc_TargetEndpoint (ds_ctx s') = strings_Join (host_port <$> pod :: pods) "," ∧
          Forall (λ t, ∃ e, e ∈ eps ∧ same_pod t e) (pod :: pods)) ∧
       ds_payload s' = ds_payload s1 ∧ rc_TargetModelName (ds_ctx s') = rc_TargetModelName (ds_ctx s1) ∧
       match r with inl _ => True | inr err => ds_payload s1 = OtherPayload ∧ e_Code err = BadRequest end) s1.
Proof using Type.
  intros Hsched [[targets Hprim] Htg] Hres Hprep. destruct (Htg _ _ Hprim) as (Hne & ran & Hran & Hsame).
  destruct targets as [|pod pods]; [done|].
  apply wp_ebindM. unfold prepareRequest. rewrite bool_decide_false, Hprim.
  2: { intros Hz%map_size_empty_iff. by rewrite Hz in Hprim. }
  apply wp_bind, wp_modify, wp_ret.
  assert (Forall (λ t, ∃ e, e ∈ eps ∧ same_pod t e) (pod :: pods)) as Hpods.
  { rewrite Forall_forall. intros t [i Hi]%list_elem_of_lookup.
    destruct (Forall2_lookup_l _ _ _ _ _ Hsame Hi) as (e & He & Hst). exists e. split; [|done].
    eapply elem_of_submseteq; [|done]. by eapply list_elem_of_lookup_2. }
  set (s2 := mkDState _ _ _).
  assert (∀ body, hooks d s0 (mkDState (with_body body (ds_ctx s2)) (ds_payload s2) (ds_plugins s2))) as Hh.
  { intros body. unfold hooks. simpl. exists request0, eps, request, result, (ds_plugins s1). done. }
  unfold repackage. apply wp_bind, wp_gets. simpl ds_payload.
  destruct (ds_payload s1) eqn:Hp; [apply wp_bind, wp_modify, wp_ret..|apply wp_ret].
  4: { split_and!; [exact (Hh (rc_RawBody (ds_ctx s2)))|by exists pod, pods|done..]. }
  all: split_and!; [apply Hh|by exists pod, pods|done..].
Qed.
End stages.

Section handle.
Context {S : Type} (d : Director S) (dd : DirectorDraws) (I : S → Prop).
Context (FormatFloat : float64 → string) (Error_text : GoError → string).
Context (HIntn : ∀ n, (0 < n)%Z → (0 ≤ dd_Intn dd n < n)%Z) (Halloc : Inj (=) (=) (dd_alloc dd)).
Context (Hrules : ∀ model rule name, d_ModelRewriteGet d model = Some (rule, name) → weights_ok (rl_Targets rule)).
Context (Hpool : ∀ md, Forall endpoint_ok (d_Locate d md)).
Context (Hprod : Forall (LawfulProducer I) (d_prepareDataPlugins d)) (Hsched : LawfulScheduler (d_Schedule d)).

(** The snapshot that is scheduled, after the producers have run. *)
Lemma prepared_snapshot request md s : I s →
  let '(_, eps, s') := runPrepareDataPlugins d dd request (toSchedulerEndpoints dd (d_Locate d md)) s in
  Forall endpoint_ok eps ∧ NoDup (ep_ptrs eps) ∧ prepared d s s' ∧
  ∀ e t, e ∈ eps → same_pod t e → ∃ e', e' ∈ d_Locate d md ∧ same_pod t e'.
Proof using Halloc Hpool Hprod.
  intros HI. destruct (snapshot_ok dd Halloc _ (Hpool md)) as (Hok & Hnd & Hfrom).
  pose proof (prepare_ok d dd I request _ s Hprod HI Hok) as H.
  destruct (runPrepareDataPlugins _ _ _ _ _) as [[request' eps] s']. destruct H as (Hok' & Hsame & Hprep).
  split_and!; [done|by rewrite (same_endpoints_ptrs _ _ Hsame)|done|].
  intros e t [i Hi]%list_elem_of_lookup (H1 & H2 & H3). destruct (Forall2_lookup_r _ _ _ _ _ Hsame Hi) as (e0 & He0 & [_ Hmd]).
  destruct (Hfrom e0) as (e1 & Hin & Hmd1); [by eapply list_elem_of_lookup_2|]. exists e1. split; [done|].
  unfold same_pod. rewrite <- Hmd1, Hmd. done.
Qed.

Lemma refused_early s s' err : rc_TargetPod (ds_ctx s') = None → prepared d (ds_plugins s) (ds_plugins s') →
  refused d s err → handled d s (inr err) s'.
Proof using Type. intros Ht Hp Hr. split; [|done]. unfold hooks. by rewrite Ht. Qed.

Lemma handle_request_ok body s : I (ds_plugins s) → rc_TargetPod (ds_ctx s) = None →
  wp (HandleRequest d dd FormatFloat Error_text body) (handled d s) s.
Proof using All.
  intros HI Hnone. apply wp_ebindM. eapply wp_mono; [by apply rewrite_ok|].
  intros [[]|err] s1 ((Hmd & Hobj & Hpod) & Hpl & Hr).
  2: { apply refused_early; [congruence|left; congruence|done]. }
  apply wp_bind, wp_gets. set (priority := getInferenceObjective d (ds_ctx s1)).
  assert (getInferenceObjective d (ds_ctx s) = priority) as Hprio.
  { unfold priority, getInferenceObjective. by rewrite Hobj. }
  apply wp_bind, wp_modify, wp_bind, wp_gets. simpl ds_ctx. simpl rc_Metadata. rewrite Hmd.
  destruct (d_Admit d _ priority) as [err|] eqn:Hadm.
  { apply wp_ret, refused_early; [simpl; congruence|left; simpl; congruence|]. eapply refused_admission; [|by rewrite Hprio]. done. }
  cbv zeta. case_bool_decide as Hlen.
  { apply wp_ret, refused_early; [simpl; congruence|left; simpl; congruence|].
    apply refused_candidates; [by apply length_zero_iff_nil|done]. }
  apply wp_bind, wp_gets, wp_bind. eapply wp_getsome; [reflexivity|]. simpl ds_plugins. rewrite Hpl.
  pose proof (prepared_snapshot (new_request body priority (ds_ctx s1)) (rc_Metadata (ds_ctx s)) (ds_plugins s) HI) as Hsnap.
  destruct (runPrepareDataPlugins _ _ _ _ _) as [[request eps] s2]. destruct Hsnap as (Hok & Hnd & Hprep & Hfrom).
  apply wp_bind, wp_modify. destruct (runAdmissionPlugins d request eps) eqn:Hplug; simpl negb.
  2: { apply wp_ret, refused_early; [simpl; congruence|done|].
       destruct (admission_plugins_deny _ _ _ Hplug) as (plugin & reason & Hin & Hd). by eapply refused_plugin. }
  destruct (scheduler_answers request eps Hok Hnd) as (decision & request' & Hs & Hroute). rewrite Hs.
  apply wp_bind, wp_modify. destruct decision as [result|reason].
  2: { apply wp_ret, refused_early; [simpl; congruence|done|]. by eapply refused_schedule. }
  apply wp_bind, wp_modify. eapply wp_mono; [by apply (finish_ok d FormatFloat s _ request)|].
  intros r s' (Hh & (pod & pods & Ht & He & Hall) & Hp & Hm & Hlast). split; [done|]. simpl in Hp, Hm.
  destruct r as [[]|err].
  - split.
    + unfold payload_sent in *. rewrite Hp, Hm. done.
    + exists pod, pods. split; [done|]. split; [done|]. eapply Forall_impl; [exact Hall|]. intros t (e & Hin & Hsp). by eapply Hfrom.
  - destruct Hlast as [Hother Hcode]. simpl in Hother. apply refused_payload; [|done].
    unfold payload_sent in Hr. destruct (ds_payload s); [by destruct Hr as (? & ? & _ & _ & _ & ?); congruence|congruence..].
Qed.
End handle.


(** ** The in-flight load producer as a plugin *)

Definition in_flight_producer : DataProducer InFlightLoadProducer :=
  mkDataProducer (λ request eps p, (request, InFlight.PrepareRequestData p eps, p, None)).

Definition in_flight_hook (FormatFloat : float64 → string) (order : nat → nat) : PreRequestPlugin InFlightLoadProducer :=
  mkPreRequestPlugin (λ request result p, (request, InFlight.PreRequest FormatFloat order request (Some result) p)).

Definition trackers_ok (p : InFlightLoadProducer) : Prop := tracker_ok (requestTracker p) ∧ tracker_ok (tokenTracker p).

Lemma tracker_get_range ct name : tracker_ok ct → (- Int.two63 ≤ tracker_get name ct < Int.two63)%Z.
Proof.
  intros Hok. unfold tracker_get. destruct (ct !! name) as [v|] eqn:Hv; [|done]. simpl.
  rewrite <- (Hok _ _ Hv). apply Int.i64_range.
Qed.

Lemma with_load_ok p e : trackers_ok p → endpoint_ok e → endpoint_ok (with_load p e).
Proof.
  intros [Hr Ht] [H1 H2 H3 H4 H5 H6]. split; [exact H1|exact H2|exact H3| | |].
  - intros v. unfold with_load, ep_Get. simpl. rewrite lookup_insert_ne by done. apply H4.
  - intros v. unfold with_load, ep_Get. simpl. rewrite lookup_insert_ne by done. apply H5.
  - intros v. unfold with_load, ep_Get. simpl. rewrite lookup_insert_eq. intros [= <-].
    eexists. split; [done|]. split; by apply tracker_get_range.
Qed.

#[export] Instance in_flight_producer_lawful : LawfulProducer trackers_ok in_flight_producer.
Proof.
  split. intros request eps p Hp Hok. simpl. split; [done|]. unfold InFlight.PrepareRequestData. split.
  - rewrite Forall_fmap. eapply Forall_impl; [exact Hok|]. intros e. by apply with_load_ok.
  - apply Forall2_fmap_r, Forall_Forall2_diag, Forall_true. by intros e.
Qed.

(** ** A request *)

Definition sample_rewrite : InferenceModelRewrite := mkRewrite "canary" 0 [mkRule [Some "llama"] canary].
Definition sample_pool : list Endpoint := [sample_endpoint 1 "a"; sample_endpoint 2 "b"].

Definition sample_director : Director InFlightLoadProducer :=
  mkDirector (λ _, Some (Some 5%Z)) (λ m, getRule m (set_rewrite (λ _, id) sample_rewrite newModelRewriteStore))
    (LegacyAdmit (concurrency.Saturation token_limits) (Locate false sample_pool)) (Locate false sample_pool)
    (schedule_with sample_cycle_draws single.SingleProfileHandler {[ "default"%string := sample_profile ]})
    [in_flight_producer] [] [in_flight_hook (λ _, ""%string) id].

Definition sample_director_draws : DirectorDraws := mkDirectorDraws (λ n, n - 1)%Z Pos.of_succ_nat None.

Definition sample_body : InferenceRequestBody := mkBody None None None None None None false.

Definition arrived : DState InFlightLoadProducer :=
  mkDState (mkRequestContext None "" "" "" "f" "o" 0 0 100 {[ RequestIdHeaderKey := "r1"%string ]} "" None None None)
    (PayloadMap {[ "model"%string := JString "llama" ]}) InFlightLoadProducerFactory.

