(* ===== verification/Envoy.v ===== *)
(** * Messages to and from the proxy: [common/envoy], [handlers/request.go],
    [handlers/response.go], [util/request/headers.go]

    The proxy streams a request and its response to the server and is told which headers to
    set and which bodies to send on. Bodies go out in chunks below the proxy's limit;
    headers that steer the server, and those that it sets itself, are not echoed. *)

From stdpp Require Import prelude gmap strings list.
From Stdlib Require Import ZArith Lia.
From S2P Require Import Prelude Ordering SchedTypes Pickers Candidates.

Abbreviation ToLower := slodeadline.ToLower.

(** ** Chunks: [chunking.go] *)

Definition BodyByteLimit : Z := 62000.

Section chunks.
Context {A : Type}.

(** A [StreamedBodyResponse]: the body and [EndOfStream]. *)
Fixpoint chunk_loop (fuel : nat) (bodyBytes : list A) (setEos : bool) (startingIndex : Z) : list (list A * bool) :=
  match fuel with
  | 0 => []
  | S fuel' =>
      let bodyLen := Z.of_nat (length bodyBytes) in
      if bool_decide (startingIndex < bodyLen)%Z then
        let len := Z.min (bodyLen - startingIndex) BodyByteLimit in
        let chunk := take (Z.to_nat len) (drop (Z.to_nat startingIndex) bodyBytes) in
        let eos := setEos && bool_decide (bodyLen ≤ len + startingIndex)%Z in
        (chunk, eos) :: chunk_loop fuel' bodyBytes setEos (startingIndex + len)
      else []
  end.

(** Every round takes at least one byte. *)
Definition BuildChunkedBodyResponses (bodyBytes : list A) (setEos : bool) : list (list A * bool) :=
  if bool_decide (length bodyBytes = 0) then [(bodyBytes, setEos)]
  else chunk_loop (length bodyBytes) bodyBytes setEos 0.
End chunks.

(** ** Headers *)

(** A header of the proxy, with both encodings of its value. *)
Record HeaderValue := mkHeaderValue { hv_Key : string; hv_Value : string; hv_RawValue : string }.

Definition GetHeaderValue (header : HeaderValue) : string :=
  if bool_decide (0 < String.length (hv_RawValue header)) then hv_RawValue header else hv_Value header.

Definition ExtractHeaderValue (headers : list HeaderValue) (headerKey : string) : string :=
  match list_find (λ header, ToLower (hv_Key header) = ToLower headerKey) headers with
  | Some (_, header) => GetHeaderValue header
  | None => ""
  end.

Definition DestinationEndpointKey : string := "x-gateway-destination-endpoint".
Definition DestinationEndpointServedKey : string := "x-gateway-destination-endpoint-served".
Definition FlowFairnessIDKey : string := "x-gateway-inference-fairness-id".
Definition ObjectiveKey : string := "x-gateway-inference-objective".
Definition ModelNameRewriteKey : string := "x-gateway-model-name-rewrite".
Definition DefaultFairnessID : string := "default-flow".

Definition InputControlHeaders : gset string :=
  {[ ToLower FlowFairnessIDKey; ToLower ObjectiveKey; ToLower ModelNameRewriteKey; ToLower SubsetFilterKey ]}.
Definition OutputInjectionHeaders : gset string :=
  {[ ToLower DestinationEndpointKey; ToLower DestinationEndpointServedKey ]}.
Definition ProtocolHeaders : gset string := {[ "content-length"%string ]}.

Definition IsSystemOwnedHeader (key : string) : bool :=
  let k := ToLower key in
  bool_decide (k ∈ InputControlHeaders) || bool_decide (k ∈ OutputInjectionHeaders) ||
  bool_decide (k ∈ ProtocolHeaders).

Abbreviation SetHeaders := (list (string * string)).

(** The headers of the request that are passed on, in the order of the map. *)
Definition echoed (order : nat → nat) (headers : gmap string string) : SetHeaders :=
  base.filter (λ kv, IsSystemOwnedHeader kv.1 = false) (shuffle order (map_to_list headers)).

(** [Itoa] prints a number; the tracing library adds headers of its own. *)
Definition generateHeaders (Itoa : Z → string) (traceHeaders : SetHeaders) (order : nat → nat)
    (targetEndpoint : string) (requestSize : Z) (headers : gmap string string) : SetHeaders :=
  (DestinationEndpointKey, targetEndpoint) ::
  (if bool_decide (0 < requestSize)%Z then [("Content-Length"%string, Itoa requestSize)] else []) ++
  traceHeaders ++ echoed order headers.

Definition generateResponseHeaders (order : nat → nat) (headers : gmap string string) : SetHeaders :=
  ("x-went-into-resp-headers"%string, "true"%string) :: echoed order headers.

(** ** Chunks carry the body *)

Section chunks.
Context {A : Type}.

(** The end of the stream is announced with the last message only. *)
Definition announced (setEos : bool) (l : list (list A * bool)) : Prop :=
  l.*2 = replicate (length l - 1) false ++ [setEos].

Lemma chunk_loop_ok bodyBytes setEos fuel : ∀ start, (0 ≤ start < Z.of_nat (length bodyBytes))%Z →
  (Z.of_nat (length bodyBytes) - start ≤ Z.of_nat fuel)%Z →
  let l := chunk_loop fuel bodyBytes setEos start in
  concat l.*1 = drop (Z.to_nat start) bodyBytes ∧ l ≠ [] ∧ announced setEos l ∧
  Forall (λ c, 0 < Z.of_nat (length c.1) ≤ BodyByteLimit)%Z l.
Proof.
  induction fuel as [|fuel IH]; intros start Hs Hf; [lia|]. cbn [chunk_loop].
  rewrite (bool_decide_true (start < _)%Z) by lia.
  set (len := Z.min (Z.of_nat (length bodyBytes) - start) BodyByteLimit).
  assert (0 < len ≤ BodyByteLimit ∧ start + len ≤ Z.of_nat (length bodyBytes))%Z as [Hlen Hle].
  { unfold len, BodyByteLimit. lia. }
  set (chunk := take (Z.to_nat len) (drop (Z.to_nat start) bodyBytes)).
  assert (Z.of_nat (length chunk) = len) as Hc by (unfold chunk; rewrite length_take, length_drop; lia).
  assert (concat' : chunk ++ drop (Z.to_nat (start + len)) bodyBytes = drop (Z.to_nat start) bodyBytes).
  { unfold chunk. rewrite Z2Nat.inj_add by lia. rewrite <- drop_drop. apply take_drop. }
  destruct (decide (start + len < Z.of_nat (length bodyBytes))%Z) as [Hlt|Hge].
  - destruct (IH (start + len)%Z) as (IH1 & IH2 & IH3 & IH4); [lia..|]. rewrite bool_decide_false by lia.
    rewrite andb_false_r. set (rest := chunk_loop fuel bodyBytes setEos (start + len)) in *. cbv zeta.
    rewrite fmap_cons. cbn [concat fst]. rewrite IH1. split_and!; [done|done| |].
    + unfold announced in *. rewrite fmap_cons, IH3. cbn [length snd]. rewrite Nat.sub_succ, Nat.sub_0_r. destruct rest as [|x rest]; [done|]. simpl. by rewrite Nat.sub_0_r.
    + constructor; [simpl; lia|done].
  - assert (chunk_loop fuel bodyBytes setEos (start + len) = []) as ->.
    { destruct fuel; [done|]. cbn [chunk_loop]. by rewrite bool_decide_false by lia. }
    rewrite bool_decide_true by lia. rewrite andb_true_r, <- concat'. cbv zeta.
    rewrite (drop_ge _ (Z.to_nat (start + len))) by lia. split_and!; [done|done|done|].
    constructor; [simpl; lia|constructor].
Qed.

(** Chunking loses nothing. For every body, the streamed messages, in order, carry exactly
    its bytes; there is at least one message, none is above the proxy's limit, and the end
    of the stream, if it is to be announced at all, is announced with the last message and
    with no other. *)
Theorem chunks_carry_body (bodyBytes : list A) (setEos : bool) :
  let l := BuildChunkedBodyResponses bodyBytes setEos in
  concat l.*1 = bodyBytes ∧ l ≠ [] ∧ announced setEos l ∧
  Forall (λ c, Z.of_nat (length c.1) ≤ BodyByteLimit)%Z l.
Proof.
  simpl. unfold BuildChunkedBodyResponses. case_bool_decide as Hl.
  - simpl. rewrite app_nil_r. split_and!; [done|done|done|]. constructor; [|constructor].
    simpl. rewrite Hl. unfold BodyByteLimit. lia.
  - destruct (chunk_loop_ok bodyBytes setEos (length bodyBytes) 0) as (H1 & H2 & H3 & H4); [lia..|].
    rewrite drop_0 in H1. split_and!; [done..|]. eapply Forall_impl; [exact H4|]. simpl. lia.
Qed.
End chunks.

(** ** Headers that are set *)

Lemma echoed_spec order headers k v :
  (k, v) ∈ echoed order headers ↔ headers !! k = Some v ∧ IsSystemOwnedHeader k = false.
Proof.
  unfold echoed. rewrite list_elem_of_filter, shuffle_perm, elem_of_map_to_list. simpl. tauto.
Qed.

(** The request goes to the endpoint that was chosen, whatever headers the client sent. If
    the tracing library sets no header of the system, the mutation sets the destination
    once, to the target endpoint; it sets the content length only to the size of the body
    that is sent; it sets none of the headers that steer the server; and every other
    header of the request context, those that plugins have added included, is set to its
    value. *)
Theorem headers_set (Itoa : Z → string) (traceHeaders : SetHeaders) (order : nat → nat) (targetEndpoint : string)
    (requestSize : Z) (headers : gmap string string)
    (Htrace : Forall (λ kv, IsSystemOwnedHeader kv.1 = false) traceHeaders) :
  let l := generateHeaders Itoa traceHeaders order targetEndpoint requestSize headers in
  (∀ k v, (k, v) ∈ l → ToLower k = ToLower DestinationEndpointKey → v = targetEndpoint) ∧
  (∀ k v, (k, v) ∈ l → ToLower k = "content-length"%string → v = Itoa requestSize ∧ (0 < requestSize)%Z) ∧
  (∀ k v, (k, v) ∈ l → ToLower k ∉ InputControlHeaders) ∧
  (∀ k v, headers !! k = Some v → IsSystemOwnedHeader k = false → (k, v) ∈ l).
Proof.
  simpl. assert (owned : ∀ k v, (k, v) ∈ traceHeaders ++ echoed order headers → IsSystemOwnedHeader k = false).
  { intros k v [Hin|[_ Hs]%echoed_spec]%elem_of_app; [|done]. rewrite Forall_forall in Htrace. apply (Htrace _ Hin). }
  assert (split_l : ∀ k v, (k, v) ∈ generateHeaders Itoa traceHeaders order targetEndpoint requestSize headers →
    (k = DestinationEndpointKey ∧ v = targetEndpoint) ∨
    (k = "Content-Length"%string ∧ v = Itoa requestSize ∧ (0 < requestSize)%Z) ∨ IsSystemOwnedHeader k = false).
  { intros k v [[= -> ->]|[Hin|Hin]%elem_of_app]%elem_of_cons; [by left| |right; right; by eapply owned].
    case_bool_decide; [|by apply elem_of_nil in Hin]. apply list_elem_of_singleton in Hin as [= -> ->]. by right; left. }
  assert (not_owned : ∀ k, ToLower k ∈ InputControlHeaders ∪ OutputInjectionHeaders ∪ ProtocolHeaders →
    IsSystemOwnedHeader k = false → False).
  { intros k Hk [[H1%bool_decide_eq_false H2%bool_decide_eq_false]%orb_false_iff H3%bool_decide_eq_false]%orb_false_iff.
    set_solver. }
  split_and!.
  - intros k v [[_ ->]|[[-> _]|Hs]]%split_l Hk; [done|by vm_compute in Hk|]. exfalso. eapply not_owned; [|exact Hs].
    rewrite Hk. unfold OutputInjectionHeaders. set_solver.
  - intros k v [[-> _]|[[_ H]|Hs]]%split_l Hk; [by vm_compute in Hk|done|]. exfalso. eapply not_owned; [|exact Hs].
    rewrite Hk. unfold ProtocolHeaders. set_solver.
  - intros k v [[-> _]|[[-> _]|Hs]]%split_l Hk; [by vm_compute in Hk..|].
    eapply not_owned; [|exact Hs]. apply elem_of_union_l, elem_of_union_l, Hk.
  - intros k v Hk Hs. right. apply elem_of_app. right. apply elem_of_app. right. apply echoed_spec. split; [exact Hk|exact Hs].
Qed.

Lemma headers_set_witness :
  Forall (λ kv, ToLower kv.1 = DestinationEndpointKey → kv.2 = "10.0.0.1:8000"%string)
    (generateHeaders (λ _, "9"%string) [("traceparent", "00")%string] id "10.0.0.1:8000" 9
       {[ DestinationEndpointKey := "evil:1"%string ]}).
Proof.
  destruct (headers_set (λ _, "9"%string) [("traceparent", "00")%string] id "10.0.0.1:8000" 9
    {[ DestinationEndpointKey := "evil:1"%string ]}) as [H _]; [repeat constructor|].
  apply Forall_forall. intros [k v] Hv Hk. exact (H k v Hv Hk).
Defined.
