(* ===== verification/ExtProc.v ===== *)
(** * The stream of a request: [handlers/server.go], [handlers/request.go],
    [handlers/response.go]

    For every request the proxy opens a stream, on which it sends the headers and the body
    of the request and of the response as they come, and expects answers in a fixed order.
    [Process] reads the stream until it ends: it hands the request to the director, the
    response to the plugins, and sends what it owes to the proxy. Its inputs are the
    messages, the end of the stream and the signals it selects on; a send may fail. At the
    end it makes sure that the plugins learn about the end of every request that has been
    sent to an endpoint. *)

From stdpp Require Import prelude gmap strings list sorting.
From Stdlib Require Import ZArith Lia.
From S2P Require Import Prelude FlowTypes SchedTypes Json Pickers SchedulerProfile Scheduler Candidates ModelRewrite RequestControl Director Envoy.

#[local] Open Scope go_scope.
#[local] Open Scope director_scope.

Abbreviation bytes := (list Ascii.ascii).

(** ** Messages *)

Inductive StreamRequestState :=
  | RequestReceived
  | HeaderRequestResponseComplete
  | BodyRequestResponsesComplete
  | TrailerRequestResponsesComplete
  | ResponseReceived
  | HeaderResponseResponseComplete
  | BodyResponseResponsesComplete
  | TrailerResponseResponsesComplete
  | RequestEvicted.

#[export] Instance stream_state_eq_dec : EqDecision StreamRequestState.
Proof. solve_decision. Defined.

Inductive ProcessingResponse :=
  | RequestHeadersResponse (set : SetHeaders) (destination : string)
  | RequestBodyResponse (body : bytes) (eos : bool)
  | ResponseHeadersResponse (set : SetHeaders)
  | ResponseBodyResponse (body : bytes) (eos : bool)
  | ResponseTrailersResponse
  | ImmediateResponse (status : Z) (body : string).

Inductive Message :=
  | RequestHeaders (headers : list HeaderValue) (eos : bool)
  | RequestBody (body : bytes) (eos : bool)
  | RequestTrailers
  | ResponseHeaders (headers : list HeaderValue)
  | ResponseBody (body : bytes) (eos : bool)
  | ResponseTrailers.

(** What the loop selects on. *)
Inductive Input :=
  | Recv (metadata : Metadata) (m : Message)
  | RecvEnd
  | RecvError
  | EvictSignal
  | ContextDone.

Inductive StreamError := SendFailed | RecvFailed | Cancelled | NotHandled.

(** ** What is owed to the proxy: [updateStateAndSendIfNeeded] *)

Record Outbox := mkOutbox {
  ob_RequestState : StreamRequestState;
  ob_reqHeaderResp : option ProcessingResponse;
  ob_reqBodyResp : list ProcessingResponse;
  ob_respHeaderResp : option ProcessingResponse;
  ob_respBodyResp : list ProcessingResponse;
  ob_respTrailerResp : option ProcessingResponse;
  ob_ResponseComplete : bool;
  ob_sent : list ProcessingResponse
}.

Definition ob_set_state (st : StreamRequestState) (o : Outbox) : Outbox :=
  mkOutbox st (ob_reqHeaderResp o) (ob_reqBodyResp o) (ob_respHeaderResp o) (ob_respBodyResp o) (ob_respTrailerResp o)
    (ob_ResponseComplete o) (ob_sent o).
Definition ob_set_request (h : option ProcessingResponse) (b : list ProcessingResponse) (o : Outbox) : Outbox :=
  mkOutbox (ob_RequestState o) h b (ob_respHeaderResp o) (ob_respBodyResp o) (ob_respTrailerResp o)
    (ob_ResponseComplete o) (ob_sent o).
Definition ob_set_respHeader (h : option ProcessingResponse) (o : Outbox) : Outbox :=
  mkOutbox (ob_RequestState o) (ob_reqHeaderResp o) (ob_reqBodyResp o) h (ob_respBodyResp o) (ob_respTrailerResp o)
    (ob_ResponseComplete o) (ob_sent o).
Definition ob_set_respBody (b : list ProcessingResponse) (o : Outbox) : Outbox :=
  mkOutbox (ob_RequestState o) (ob_reqHeaderResp o) (ob_reqBodyResp o) (ob_respHeaderResp o) b (ob_respTrailerResp o)
    (ob_ResponseComplete o) (ob_sent o).
Definition ob_set_trailer (t : option ProcessingResponse) (o : Outbox) : Outbox :=
  mkOutbox (ob_RequestState o) (ob_reqHeaderResp o) (ob_reqBodyResp o) (ob_respHeaderResp o) (ob_respBodyResp o) t
    (ob_ResponseComplete o) (ob_sent o).
Definition ob_complete (o : Outbox) : Outbox :=
  mkOutbox (ob_RequestState o) (ob_reqHeaderResp o) (ob_reqBodyResp o) (ob_respHeaderResp o) (ob_respBodyResp o)
    (ob_respTrailerResp o) true (ob_sent o).
Definition ob_push (r : ProcessingResponse) (o : Outbox) : Outbox :=
  mkOutbox (ob_RequestState o) (ob_reqHeaderResp o) (ob_reqBodyResp o) (ob_respHeaderResp o) (ob_respBodyResp o)
    (ob_respTrailerResp o) (ob_ResponseComplete o) (ob_sent o ++ [r]).

Section outbox.
(** Whether the next send succeeds, after those that have. *)
Context (Send : list ProcessingResponse → bool).

Definition send (r : ProcessingResponse) : GoM Outbox (unit + StreamError) := λ o,
  if Send (ob_sent o) then Some (inl tt, ob_push r o) else Some (inr SendFailed, o).

Fixpoint send_all (rs : list ProcessingResponse) : GoM Outbox (unit + StreamError) :=
  match rs with
  | [] => mret (inl tt)
  | r :: rs' => _ ←? send r; send_all rs'
  end.

Definition ok : GoM Outbox (unit + StreamError) := mret (inl tt).
Definition becomes (f : Outbox → Outbox) : GoM Outbox (unit + StreamError) := modify f ;; ok.

Definition send_request_header : GoM Outbox (unit + StreamError) :=
  o ← gets id;
  match ob_RequestState o, ob_reqHeaderResp o with
  | RequestReceived, Some r => _ ←? send r; becomes (ob_set_state HeaderRequestResponseComplete)
  | _, _ => ok
  end.

Definition send_request_body : GoM Outbox (unit + StreamError) :=
  o ← gets id;
  match ob_RequestState o, ob_reqBodyResp o with
  | HeaderRequestResponseComplete, r :: rs =>
      _ ←? send_all (r :: rs);
      becomes (λ o, ob_set_request (ob_reqHeaderResp o) [] (ob_set_state BodyRequestResponsesComplete o))
  | _, _ => ok
  end.

Definition send_response_header : GoM Outbox (unit + StreamError) :=
  o ← gets id;
  match ob_RequestState o, ob_respHeaderResp o with
  | ResponseReceived, Some r => _ ←? send r; becomes (ob_set_state HeaderResponseResponseComplete)
  | _, _ => ok
  end.

Definition send_response_body : GoM Outbox (unit + StreamError) :=
  o ← gets id;
  match ob_RequestState o with
  | HeaderResponseResponseComplete =>
      _ ←? send_all (ob_respBodyResp o);
      becomes (λ o, ob_set_respBody []
                 (if ob_ResponseComplete o then ob_set_state BodyResponseResponsesComplete o else o))
  | _ => ok
  end.

Definition send_response_trailer : GoM Outbox (unit + StreamError) :=
  o ← gets id;
  match ob_RequestState o, ob_respTrailerResp o with
  | BodyResponseResponsesComplete, Some r => send r
  | _, _ => ok
  end.

(** There are never trailers of a request to send. *)
Definition updateStateAndSendIfNeeded : GoM Outbox (unit + StreamError) :=
  o ← gets id;
  if bool_decide (ob_RequestState o = RequestEvicted) then
    send (ImmediateResponse 429 "request evicted by flow control")
  else
    _ ←? send_request_header;
    _ ←? send_request_body;
    _ ←? send_response_header;
    _ ←? send_response_body;
    send_response_trailer.
End outbox.

(** ** Rewriting the model's name *)

Fixpoint starts_with (p s : bytes) : bool :=
  match p, s with
  | [], _ => true
  | a :: p', b :: s' => bool_decide (a = b) && starts_with p' s'
  | _ :: _, [] => false
  end.

(** [bytes.ReplaceAll]: from left to right, without overlaps; as many rounds as bytes. *)
Fixpoint replace_all (fuel : nat) (old new s : bytes) : bytes :=
  match fuel, s with
  | S fuel', c :: s' =>
      if starts_with old s then new ++ replace_all fuel' old new (drop (length old) s)
      else c :: replace_all fuel' old new s'
  | _, _ => s
  end.

Definition ReplaceAll (s old new : bytes) : bytes := replace_all (length s) old new s.

Definition quote : string := String (Ascii.ascii_of_nat 34) "".
Definition model_field (separator model : string) : bytes :=
  String.list_ascii_of_string (quote +:+ "model" +:+ quote +:+ separator +:+ quote +:+ model +:+ quote).

Definition rewriteModelName (body : bytes) (targetModel incomingModel : string) : bytes :=
  if bool_decide (targetModel = "") || bool_decide (incomingModel = "") || bool_decide (targetModel = incomingModel)
  then body
  else
    let result := ReplaceAll body (model_field ":" targetModel) (model_field ":" incomingModel) in
    if bool_decide (result ≠ body) then result
    else ReplaceAll body (model_field ": " targetModel) (model_field ": " incomingModel).

(** ** The loop *)

Record Stream (S : Type) := mkStream {
  sm_d : DState S;
  sm_out : Outbox;
  sm_modelServerStreaming : bool;
  sm_responseHeaders : gmap string string;
  sm_body : bytes;
  sm_evictCh : bool;
  sm_ResponseBodyStarted : bool;
  sm_calls : list (bool * bool)
}.
Arguments mkStream {S}.
Arguments sm_d {S}.
Arguments sm_out {S}.
Arguments sm_modelServerStreaming {S}.
Arguments sm_responseHeaders {S}.
Arguments sm_body {S}.
Arguments sm_evictCh {S}.
Arguments sm_ResponseBodyStarted {S}.
Arguments sm_calls {S}.

Definition with_headers (h : gmap string string) (c : RequestContext) : RequestContext :=
  mkRequestContext (rc_TargetPod c) (rc_TargetEndpoint c) (rc_IncomingModelName c) (rc_TargetModelName c)
    (rc_FairnessID c) (rc_ObjectiveKey c) (rc_Priority c) (rc_RequestReceivedTimestamp c) (rc_RequestSize c) h
    (rc_RawBody c) (rc_Metadata c) (rc_SchedulingRequest c) (rc_SchedulingResult c).

Definition with_metadata_values (md : Metadata) (c : RequestContext) : RequestContext :=
  mkRequestContext (rc_TargetPod c) (rc_TargetEndpoint c) (rc_IncomingModelName c) (rc_TargetModelName c)
    (rc_FairnessID c) (rc_ObjectiveKey c) (rc_Priority c) (rc_RequestReceivedTimestamp c) (rc_RequestSize c)
    (rc_Headers c) (rc_RawBody c) (Some md) (rc_SchedulingRequest c) (rc_SchedulingResult c).

(** The arrival: the time, and the destination of a request without a body. *)
Definition with_arrival (now : Z) (destination : option string) (c : RequestContext) : RequestContext :=
  mkRequestContext (rc_TargetPod c) (default (rc_TargetEndpoint c) destination) (rc_IncomingModelName c)
    (rc_TargetModelName c) (rc_FairnessID c) (rc_ObjectiveKey c) (rc_Priority c) now
    (match destination with Some _ => 0 | None => rc_RequestSize c end) (rc_Headers c) (rc_RawBody c) (rc_Metadata c)
    (rc_SchedulingRequest c) (rc_SchedulingResult c).

(** What the headers of a request say about its handling. *)
Definition with_control (fairness objective target : string) (c : RequestContext) : RequestContext :=
  mkRequestContext (rc_TargetPod c) (rc_TargetEndpoint c) (rc_IncomingModelName c) target fairness objective
    (rc_Priority c) (rc_RequestReceivedTimestamp c) (rc_RequestSize c) (rc_Headers c) (rc_RawBody c) (rc_Metadata c)
    (rc_SchedulingRequest c) (rc_SchedulingResult c).

Definition read_header (c : RequestContext) (header : HeaderValue) : RequestContext :=
  let value := GetHeaderValue header in
  let c := with_headers (<[hv_Key header := value]> (rc_Headers c)) c in
  if bool_decide (hv_Key header = FlowFairnessIDKey) then with_control value (rc_ObjectiveKey c) (rc_TargetModelName c) c
  else if bool_decide (hv_Key header = ObjectiveKey) then with_control (rc_FairnessID c) value (rc_TargetModelName c) c
  else if bool_decide (hv_Key header = ModelNameRewriteKey) then with_control (rc_FairnessID c) (rc_ObjectiveKey c) value c
  else c.

Fixpoint contains (p s : bytes) : bool :=
  starts_with p s || match s with [] => false | _ :: s' => contains p s' end.

Section server.
Context {S : Type}.
(** The director, the parser, the lookup of eviction channels, the random endpoint. *)
Context (HandleRequest : InferenceRequestBody → GoM (DState S) (unit + Error)).
Context (ResponsePlugins : option (option InferenceRequest → option SchedulingResult → option EndpointMetadata →
  bool → bool → S → S)).
(** The plugins that see the headers of a response, and may change them. *)
Context (HeaderPlugins : RequestContext → gmap string string → S → S * gmap string string).
Context (ParseRequest : bytes → gmap string string → (InferenceRequestBody * Payload) + string).
Context (evictionLookup : option (string → bool)).
Context (GetRandomEndpoint : option EndpointMetadata).
(** The proxy, the clock, the tracing library and the runtime. *)
Context (Send : list ProcessingResponse → bool) (now : Z) (newUUID : string) (Itoa : Z → string).
Context (traceHeaders : SetHeaders) (order : nat → nat).

Abbreviation SM := (GoM (Stream S)).

Definition on_d (f : DState S → DState S) : SM unit :=
  modify (λ s, mkStream (f (sm_d s)) (sm_out s) (sm_modelServerStreaming s) (sm_responseHeaders s) (sm_body s)
                 (sm_evictCh s) (sm_ResponseBodyStarted s) (sm_calls s)).
Definition on_context (f : RequestContext → RequestContext) : SM unit :=
  on_d (λ d, mkDState (f (ds_ctx d)) (ds_payload d) (ds_plugins d)).
Definition on_out (f : Outbox → Outbox) : SM unit :=
  modify (λ s, mkStream (sm_d s) (f (sm_out s)) (sm_modelServerStreaming s) (sm_responseHeaders s) (sm_body s)
                 (sm_evictCh s) (sm_ResponseBodyStarted s) (sm_calls s)).
Definition set_streaming (b : bool) : SM unit :=
  modify (λ s, mkStream (sm_d s) (sm_out s) b (sm_responseHeaders s) (sm_body s)
                 (sm_evictCh s) (sm_ResponseBodyStarted s) (sm_calls s)).
Definition set_responseHeaders (h : gmap string string) : SM unit :=
  modify (λ s, mkStream (sm_d s) (sm_out s) (sm_modelServerStreaming s) h (sm_body s)
                 (sm_evictCh s) (sm_ResponseBodyStarted s) (sm_calls s)).
Definition set_body (b : bytes) : SM unit :=
  modify (λ s, mkStream (sm_d s) (sm_out s) (sm_modelServerStreaming s) (sm_responseHeaders s) b
                 (sm_evictCh s) (sm_ResponseBodyStarted s) (sm_calls s)).
Definition set_evictCh (b : bool) : SM unit :=
  modify (λ s, mkStream (sm_d s) (sm_out s) (sm_modelServerStreaming s) (sm_responseHeaders s) (sm_body s)
                 b (sm_ResponseBodyStarted s) (sm_calls s)).

(** Code of the director and of the outbox, on the stream. *)
Definition lift_d {A} (c : GoM (DState S) A) : SM A := λ s,
  match c (sm_d s) with
  | None => None
  | Some (a, d) => Some (a, mkStream d (sm_out s) (sm_modelServerStreaming s) (sm_responseHeaders s) (sm_body s)
                              (sm_evictCh s) (sm_ResponseBodyStarted s) (sm_calls s))
  end.
Definition lift_out {A} (c : GoM Outbox A) : SM A := λ s,
  match c (sm_out s) with
  | None => None
  | Some (a, o) => Some (a, mkStream (sm_d s) o (sm_modelServerStreaming s) (sm_responseHeaders s) (sm_body s)
                              (sm_evictCh s) (sm_ResponseBodyStarted s) (sm_calls s))
  end.

(** *** The request *)

Definition generateRequestHeaderResponse (c : RequestContext) : ProcessingResponse :=
  RequestHeadersResponse (generateHeaders Itoa traceHeaders order (rc_TargetEndpoint c) (rc_RequestSize c) (rc_Headers c))
    (rc_TargetEndpoint c).

Definition HandleRequestHeaders (headers : list HeaderValue) (eos : bool) : SM (unit + Error) :=
  on_context (with_arrival now None) ;;
  if eos then
    match GetRandomEndpoint with
    | None => mret (inr (mkError Internal "no pods available in datastore"))
    | Some endpoint =>
        on_context (with_arrival now (Some (md_Address endpoint +:+ ":" +:+ md_Port endpoint))) ;;
        c ← gets (λ s, ds_ctx (sm_d s));
        on_out (λ o, ob_set_request (Some (generateRequestHeaderResponse c)) (ob_reqBodyResp o) o) ;;
        mret (inl tt)
    end
  else
    on_context (λ c,
      let c := foldl read_header c headers in
      if bool_decide (rc_FairnessID c = "") then with_control DefaultFairnessID (rc_ObjectiveKey c) (rc_TargetModelName c) c
      else c) ;;
    mret (inl tt).

Definition on_request_headers (headers : list HeaderValue) (eos : bool) : SM (unit + Error) :=
  (if bool_decide (String.length (ExtractHeaderValue headers RequestIdHeaderKey) = 0)
   then on_context (λ c, with_headers (<[RequestIdHeaderKey := newUUID]> (rc_Headers c)) c)
   else mret tt) ;;
  HandleRequestHeaders headers eos.

Definition GenerateRequestBodyResponses (requestBodyBytes : bytes) : list ProcessingResponse :=
  (λ c, RequestBodyResponse c.1 c.2) <$> BuildChunkedBodyResponses requestBodyBytes true.

Definition on_request_body (chunk : bytes) (eos : bool) : SM (unit + Error) :=
  body ← gets sm_body;
  let body := body ++ chunk in
  if negb eos then set_body body ;; mret (inl tt)
  else
    on_context (with_body (String.string_of_list_ascii body)) ;;
    set_body [] ;;
    c ← gets (λ s, ds_ctx (sm_d s));
    match ParseRequest body (rc_Headers c) with
    | inr msg => mret (inr (mkError BadRequest msg))
    | inl (inferenceRequestBody, payload) =>
        on_d (λ d, mkDState (ds_ctx d) payload (ds_plugins d)) ;;
        _ ←? lift_d (HandleRequest inferenceRequestBody);
        c ← gets (λ s, ds_ctx (sm_d s));
        match evictionLookup with
        | Some Get => set_evictCh (Get (default "" (rc_Headers c !! RequestIdHeaderKey)))
        | None => mret tt
        end ;;
        match rc_SchedulingRequest c ≫= ir_Body with
        | Some b => set_streaming (bd_Stream b)
        | None => mret tt
        end ;;
        on_out (ob_set_request (Some (generateRequestHeaderResponse c))
                  (GenerateRequestBodyResponses (String.list_ascii_of_string (rc_RawBody c)))) ;;
        mret (inl tt)
    end.

(** *** The response *)

(** [Director.HandleResponseBody], as the plugins see it; the calls are recorded. *)
Definition HandleResponseBody (endOfStream : bool) : SM unit :=
  match ResponsePlugins with
  | None => mret tt
  | Some plugins =>
      modify (λ s,
        let startOfStream := negb (sm_ResponseBodyStarted s) in
        mkStream (mkDState (ds_ctx (sm_d s)) (ds_payload (sm_d s))
                    (plugins (rc_SchedulingRequest (ds_ctx (sm_d s))) (rc_SchedulingResult (ds_ctx (sm_d s)))
                       (rc_TargetPod (ds_ctx (sm_d s))) startOfStream endOfStream (ds_plugins (sm_d s))))
          (sm_out s) (sm_modelServerStreaming s) (sm_responseHeaders s) (sm_body s) (sm_evictCh s) true
          (sm_calls s ++ [(startOfStream, endOfStream)]))
  end.

Definition generateResponseBodyResponses (responseBodyBytes : bytes) (setEoS : bool) : list ProcessingResponse :=
  (λ c, ResponseBodyResponse c.1 c.2) <$> BuildChunkedBodyResponses responseBodyBytes setEoS.

(** The body goes back under the name of the model that the client has asked for. *)
Definition owe_body (body : bytes) (eos : bool) : SM unit :=
  c ← gets (λ s, ds_ctx (sm_d s));
  on_out (ob_set_respBody
    (generateResponseBodyResponses (rewriteModelName body (rc_TargetModelName c) (rc_IncomingModelName c)) eos)).

Definition finishResponse (body : bytes) (modelStreaming setEos : bool) : SM unit :=
  complete ← gets (λ s, ob_ResponseComplete (sm_out s));
  if (complete : bool) then mret tt
  else
    on_out ob_complete ;;
    HandleResponseBody true ;;
    if modelStreaming then mret tt else owe_body body setEos.

(** Only the raw value of a header tells whether the model server streams. *)
Definition event_stream (headers : list HeaderValue) : bool :=
  existsb (λ h, bool_decide (hv_Key h = "content-type") &&
                contains (String.list_ascii_of_string "text/event-stream") (String.list_ascii_of_string (hv_RawValue h)))
    headers.

(** [Director.HandleResponseHeader]. *)
Definition HandleResponseHeader : SM unit :=
  s ← gets id;
  let '(plugins, h) := HeaderPlugins (ds_ctx (sm_d s)) (sm_responseHeaders s) (ds_plugins (sm_d s)) in
  on_d (λ d, mkDState (ds_ctx d) (ds_payload d) plugins) ;;
  set_responseHeaders h.

Definition HandleResponseHeaders (headers : list HeaderValue) : SM unit :=
  h ← gets sm_responseHeaders;
  set_responseHeaders (foldl (λ m header, <[hv_Key header := GetHeaderValue header]> m) h headers) ;;
  HandleResponseHeader.

Definition generateResponseHeaderResponse (h : gmap string string) : ProcessingResponse :=
  ResponseHeadersResponse (generateResponseHeaders order h).

Definition on_response_headers (headers : list HeaderValue) : SM unit :=
  (if event_stream headers then set_streaming true else mret tt) ;;
  on_out (ob_set_state ResponseReceived) ;;
  HandleResponseHeaders headers ;;
  h ← gets sm_responseHeaders;
  on_out (ob_set_respHeader (Some (generateResponseHeaderResponse h))).

Definition on_response_body (chunk : bytes) (endOfStream : bool) : SM unit :=
  streaming ← gets sm_modelServerStreaming;
  if (streaming : bool) then
    (if endOfStream then on_out ob_complete else mret tt) ;;
    HandleResponseBody endOfStream ;;
    owe_body chunk endOfStream
  else
    body ← gets sm_body;
    set_body (body ++ chunk) ;;
    if endOfStream then finishResponse (body ++ chunk) false true else mret tt.

Definition on_response_trailers : SM unit :=
  body ← gets sm_body;
  streaming ← gets sm_modelServerStreaming;
  finishResponse body streaming false ;;
  on_out (ob_set_trailer (Some ResponseTrailersResponse)).

(** *** The loop *)

Definition process_message (m : Message) : SM (unit + Error) :=
  match m with
  | RequestHeaders headers eos => on_request_headers headers eos
  | RequestBody chunk eos => on_request_body chunk eos
  | RequestTrailers => mret (inl tt)
  | ResponseHeaders headers => on_response_headers headers ;; mret (inl tt)
  | ResponseBody chunk eos => on_response_body chunk eos ;; mret (inl tt)
  | ResponseTrailers => on_response_trailers ;; mret (inl tt)
  end.

(** [None]: the loop goes on; otherwise its result. *)
Definition exit_if (r : unit + StreamError) : option (unit + StreamError) :=
  match r with inl _ => None | inr e => Some (inr e) end.

Definition process_input (i : Input) : SM (option (unit + StreamError)) :=
  match i with
  | RecvEnd => mret (Some (inl tt))
  | RecvError => mret (Some (inr RecvFailed))
  | ContextDone => mret (Some (inr Cancelled))
  | EvictSignal =>
      s ← gets id;
      if negb (sm_evictCh s) then mret None
      else if ob_ResponseComplete (sm_out s) then set_evictCh false ;; mret None
      else
        on_out (ob_set_state RequestEvicted) ;;
        r ← lift_out (updateStateAndSendIfNeeded Send);
        mret (Some r)
  | Recv metadata m =>
      on_context (with_metadata_values metadata) ;;
      err ← process_message m;
      match err with
      | inl _ => r ← lift_out (updateStateAndSendIfNeeded Send); mret (exit_if r)
      | inr err =>
          match BuildErrResponse (inl err) (Error_Error err) with
          | None => mret (Some (inr NotHandled))
          | Some (status, body) => r ← lift_out (send Send (ImmediateResponse status body)); mret (Some r)
          end
      end
  end.

(** The deferred function: requests with a target end, in whatever way. *)
Definition cleanup_stream : SM unit :=
  s ← gets id;
  match rc_TargetPod (ds_ctx (sm_d s)) with
  | Some _ => if ob_ResponseComplete (sm_out s) then mret tt else HandleResponseBody true
  | None => mret tt
  end.

(** [None] while the stream is open. *)
Fixpoint process_loop (inputs : list Input) : SM (option (unit + StreamError)) :=
  match inputs with
  | [] => mret None
  | i :: inputs' =>
      r ← process_input i;
      match r with
      | Some exit => cleanup_stream ;; mret (Some exit)
      | None => process_loop inputs'
      end
  end.
End server.

Definition new_context : RequestContext := mkRequestContext None "" "" "" "" "" 0 0 0 ∅ "" (Some []) None None.

Definition new_stream {S} (plugins : S) : Stream S :=
  mkStream (mkDState new_context OtherPayload plugins)
    (mkOutbox RequestReceived None [] None [] None false []) false ∅ [] false false [].

(** ** The proxy's side *)

(** How far a stream has come, and which messages the proxy may send then. *)
Inductive Phase := PRequest | PWait | PResponse | PEnd | PDone.

Definition next_phase (p : Phase) (m : Message) : option Phase :=
  match p, m with
  | PRequest, (RequestHeaders _ _ | RequestTrailers) => Some PRequest
  | PRequest, RequestBody _ eos => Some (if eos then PWait else PRequest)
  | PWait, RequestTrailers => Some PWait
  | (PRequest | PWait), ResponseHeaders _ => Some PResponse
  | PResponse, ResponseBody _ eos => Some (if eos then PEnd else PResponse)
  | (PResponse | PEnd), ResponseTrailers => Some PDone
  | _, _ => None
  end.

(** The messages come in the order of HTTP; the other inputs may come at any time. *)
Fixpoint conforming (p : Phase) (inputs : list Input) : Prop :=
  match inputs with
  | [] => True
  | Recv _ m :: inputs' => match next_phase p m with Some p' => conforming p' inputs' | None => False end
  | _ :: inputs' => conforming p inputs'
  end.

(** The director answers requests that have no target yet. *)
Class LawfulDirector {S} (I : S → Prop) (HandleRequest : InferenceRequestBody → GoM (DState S) (unit + Error)) : Prop := {
  director_answers : ∀ body d, I (ds_plugins d) → rc_TargetPod (ds_ctx d) = None →
    wp (HandleRequest body) (λ _ _, True) d
}.

(** ** The order of the answers *)

Definition rank (r : ProcessingResponse) : nat :=
  match r with
  | RequestHeadersResponse _ _ => 0
  | RequestBodyResponse _ _ => 1
  | ResponseHeadersResponse _ => 2
  | ResponseBodyResponse _ _ => 3
  | ResponseTrailersResponse => 4
  | ImmediateResponse _ _ => 5
  end.

(** Bodies may take several messages; all other answers are given once. *)
Definition before (a b : ProcessingResponse) : Prop :=
  rank a < rank b ∨ rank a = rank b ∧ (rank a = 1 ∨ rank a = 3).

Definition in_turn (l : list ProcessingResponse) : Prop := StronglySorted before l.

(** What has been sent in a state is of lower rank. *)
Definition bound (st : StreamRequestState) : nat :=
  match st with
  | RequestReceived => 0
  | HeaderRequestResponseComplete => 1
  | BodyRequestResponsesComplete | TrailerRequestResponsesComplete | ResponseReceived => 2
  | HeaderResponseResponseComplete | BodyResponseResponsesComplete => 4
  | TrailerResponseResponsesComplete | RequestEvicted => 5
  end.

Definition phase_states (p : Phase) : list StreamRequestState :=
  match p with
  | PRequest | PWait => [RequestReceived; HeaderRequestResponseComplete; BodyRequestResponsesComplete]
  | _ => [ResponseReceived; HeaderResponseResponseComplete; BodyResponseResponsesComplete]
  end.

Definition phase_complete (p : Phase) : bool := match p with PEnd | PDone => true | _ => false end.

(** The outbox before its answers are sent. *)
Record owes (p : Phase) (o : Outbox) : Prop := mkOwes {
  ow_reqHeader : ∀ r, ob_reqHeaderResp o = Some r → rank r = 0;
  ow_reqBody : Forall (λ r, rank r = 1) (ob_reqBodyResp o);
  ow_respHeader : ∀ r, ob_respHeaderResp o = Some r → rank r = 2;
  ow_respBody : Forall (λ r, rank r = 3) (ob_respBodyResp o);
  ow_trailer : ∀ r, ob_respTrailerResp o = Some r → rank r = 4 ∧ p = PDone;
  ow_order : in_turn (ob_sent o);
  ow_bound : Forall (λ r, rank r < bound (ob_RequestState o)) (ob_sent o);
  ow_state : ob_RequestState o ∈ phase_states p;
  ow_complete : ob_ResponseComplete o = phase_complete p
}.

(** What has been sent, in any case. *)
Record sent_ok (p : Phase) (o : Outbox) : Prop := mkSentOk {
  se_order : in_turn (ob_sent o);
  se_open : Forall (λ r, rank r < 5) (ob_sent o);
  se_complete : ob_ResponseComplete o = phase_complete p
}.

(** The outbox between two inputs. *)
Record out_inv (p : Phase) (o : Outbox) : Prop := mkOutInv {
  oi_sent : sent_ok p o;
  oi_owes : p ≠ PDone → owes p o
}.

Lemma owes_sent p o : owes p o → sent_ok p o.
Proof.
  intros [_ _ _ _ _ Ho Hb Hs Hc]. split; [done| |done]. eapply Forall_impl; [exact Hb|]. intros r Hr. simpl in Hr.
  eapply Nat.lt_le_trans; [exact Hr|]. destruct (ob_RequestState o); simpl; lia.
Qed.

Lemma sent_phase p p' o : phase_complete p = phase_complete p' → sent_ok p o → sent_ok p' o.
Proof. intros Hp [? ? Hc]. split; [done|done|congruence]. Qed.

Lemma in_turn_snoc l r : in_turn l → Forall (λ x, before x r) l → in_turn (l ++ [r]).
Proof.
  unfold in_turn. induction 1 as [|x l Hs IH Hx]; intros Hall; simpl; [repeat constructor|].
  apply Forall_cons in Hall as [Hxr Hall]. constructor; [by apply IH|]. apply Forall_app. split; [done|by constructor].
Qed.

Section order.
Context (Send : list ProcessingResponse → bool).

Lemma wp_send r (Q : unit + StreamError → Outbox → Prop) o :
  Q (inl tt) (ob_push r o) → Q (inr SendFailed) o → wp (send Send r) Q o.
Proof. intros H1 H2. unfold send, wp. by destruct (Send (ob_sent o)). Qed.

(** Answers of one rank, after lower ones. *)
Lemma send_all_order k rs : ∀ o, Forall (λ r, rank r = k) rs → (k = 1 ∨ k = 3) →
  in_turn (ob_sent o) → Forall (λ r, rank r ≤ k) (ob_sent o) →
  wp (send_all Send rs) (λ _ o', ∃ sent, o' = foldl (λ o r, ob_push r o) o sent ∧
    in_turn (ob_sent o') ∧ Forall (λ r, rank r ≤ k) (ob_sent o')) o.
Proof.
  induction rs as [|r rs IH]; intros o Hrs Hk Hord Hle; cbn [send_all]; [apply wp_ret; by exists []|].
  apply Forall_cons in Hrs as [Hr Hrs]. apply wp_ebindM, wp_send; [|by exists []].
  assert (Forall (λ x, before x r) (ob_sent o)) as Hb.
  { eapply Forall_impl; [exact Hle|]. intros x Hx. unfold before. simpl in Hx. lia. }
  eapply wp_mono; [apply IH; [done|done| |]|].
  - by apply in_turn_snoc.
  - simpl. apply Forall_app. split; [done|]. constructor; [lia|constructor].
  - intros a o' (sent & Ho & H1 & H2). by exists (r :: sent).
Qed.

Lemma push_all_same l : ∀ o, foldl (λ o r, ob_push r o) o l =
  mkOutbox (ob_RequestState o) (ob_reqHeaderResp o) (ob_reqBodyResp o) (ob_respHeaderResp o) (ob_respBodyResp o)
    (ob_respTrailerResp o) (ob_ResponseComplete o) (ob_sent o ++ l).
Proof.
  induction l as [|r l IH]; intros o; simpl; [by rewrite app_nil_r; destruct o|]. rewrite IH. simpl. by rewrite <- (assoc_L (++)).
Qed.

Definition stage_ok (p : Phase) (c : GoM Outbox (unit + StreamError)) : Prop :=
  ∀ o, owes p o → wp c (λ r o', match r with inl _ => owes p o' | inr _ => sent_ok p o' end) o.

Lemma stage_seq p c1 c2 : stage_ok p c1 → stage_ok p c2 → stage_ok p (_ ←? c1; c2).
Proof.
  intros H1 H2 o Ho. apply wp_ebindM. eapply wp_mono; [by apply H1|]. intros [[]|e] o' Ho'; [by apply H2|done].
Qed.

(** The first stage that applies, if any. *)
Lemma stage_skip p (c : GoM Outbox (unit + StreamError)) o : owes p o → c o = Some (inl tt, o) →
  wp c (λ r o', match r with inl _ => owes p o' | inr _ => sent_ok p o' end) o.
Proof. intros Ho Hc. unfold wp. by rewrite Hc. Qed.

Lemma request_header_stage p : stage_ok p (send_request_header Send).
Proof.
  intros o Ho. pose proof Ho as [H1 H2 H3 H4 H5 H6 H7 H8 H9]. unfold send_request_header. apply wp_bind, wp_gets. simpl.
  destruct (ob_RequestState o) eqn:Hst; try by apply stage_skip.
  destruct (ob_reqHeaderResp o) as [r|] eqn:Hr; [|by apply stage_skip].
  apply wp_ebindM, wp_send; [|by eapply owes_sent].
  assert (ob_sent o = []) as Hnil by (destruct (ob_sent o) as [|x l]; [done|apply Forall_cons in H7 as [? _]; simpl in *; lia]).
  split; simpl; try done; rewrite ?Hr, ?Hnil; simpl; try done.
  - by repeat constructor.
  - constructor; [rewrite (H1 r) by done; lia|constructor].
  - destruct p; simpl in *; set_solver.
Qed.

Lemma request_body_stage p : stage_ok p (send_request_body Send).
Proof.
  intros o Ho. pose proof Ho as [H1 H2 H3 H4 H5 H6 H7 H8 H9]. unfold send_request_body. apply wp_bind, wp_gets. simpl.
  destruct (ob_RequestState o) eqn:Hst; try by apply stage_skip.
  destruct (ob_reqBodyResp o) as [|r rs] eqn:Hr; [by apply stage_skip|].
  apply wp_ebindM. eapply wp_mono; [apply (send_all_order 1 (r :: rs)); [done|by left|done|]|].
  { eapply Forall_impl; [exact H7|]. simpl. lia. }
  intros [[]|e] o' (sent & Ho' & Hord & Hle); rewrite push_all_same in Ho'; subst o'; simpl in *.
  - split; simpl; try done.
    + eapply Forall_impl; [exact Hle|]. simpl. lia.
    + destruct p; simpl in *; set_solver.
  - split; [done| |done]. eapply Forall_impl; [exact Hle|]. simpl. lia.
Qed.

Lemma response_header_stage p : stage_ok p (send_response_header Send).
Proof.
  intros o Ho. pose proof Ho as [H1 H2 H3 H4 H5 H6 H7 H8 H9]. unfold send_response_header. apply wp_bind, wp_gets. simpl.
  destruct (ob_RequestState o) eqn:Hst; try by apply stage_skip.
  destruct (ob_respHeaderResp o) as [r|] eqn:Hr; [|by apply stage_skip].
  apply wp_ebindM, wp_send; [|by eapply owes_sent].
  pose proof (H3 r eq_refl) as Hrank. split; simpl; rewrite ?Hr; try done.
  - apply in_turn_snoc; [done|]. eapply Forall_impl; [exact H7|]. intros x Hx. left. simpl in Hx. lia.
  - apply Forall_app. split; [eapply Forall_impl; [exact H7|]; simpl; lia|]. constructor; [lia|constructor].
  - destruct p; simpl in *; set_solver.
Qed.

Lemma response_body_stage p : stage_ok p (send_response_body Send).
Proof.
  intros o Ho. pose proof Ho as [H1 H2 H3 H4 H5 H6 H7 H8 H9]. unfold send_response_body. apply wp_bind, wp_gets. simpl.
  destruct (ob_RequestState o) eqn:Hst; try by apply stage_skip.
  apply wp_ebindM. eapply wp_mono; [apply (send_all_order 3); [done|by right|done|]|].
  { eapply Forall_impl; [exact H7|]. simpl. lia. }
  intros [[]|e] o' (sent & Ho' & Hord & Hle); rewrite push_all_same in Ho'; subst o'; simpl in *.
  - destruct (ob_ResponseComplete o) eqn:Hc; split; simpl; try done; rewrite ?Hst; simpl.
    + eapply Forall_impl; [exact Hle|]. simpl. lia.
    + destruct p; simpl in *; set_solver.
    + eapply Forall_impl; [exact Hle|]. simpl. lia.
    + done.
  - split; [done| |done]. eapply Forall_impl; [exact Hle|]. simpl. lia.
Qed.

Lemma owes_inv p o : owes p o → out_inv p o.
Proof. intros Ho. split; [by eapply owes_sent|done]. Qed.

Lemma update_ok p o : owes p o →
  wp (updateStateAndSendIfNeeded Send) (λ r o', match r with inl _ => out_inv p o' | inr _ => sent_ok p o' end) o.
Proof.
  intros Ho. unfold updateStateAndSendIfNeeded. apply wp_bind, wp_gets. rewrite bool_decide_false.
  2: { simpl. intros Hst. pose proof (ow_state _ _ Ho) as Hin. rewrite Hst in Hin. destruct p; simpl in Hin; set_solver. }
  apply wp_ebindM. eapply wp_mono; [by apply request_header_stage|]. intros [[]|e] o1 H1; [|done].
  apply wp_ebindM. eapply wp_mono; [by apply request_body_stage|]. intros [[]|e] o2 H2; [|done].
  apply wp_ebindM. eapply wp_mono; [by apply response_header_stage|]. intros [[]|e] o3 H3; [|done].
  apply wp_ebindM. eapply wp_mono; [by apply response_body_stage|]. intros [[]|e] o4 H4; [|done].
  unfold send_response_trailer. apply wp_bind, wp_gets. simpl.
  destruct (ob_RequestState o4) eqn:Hst; try by apply wp_ret, owes_inv.
  destruct (ob_respTrailerResp o4) as [r|] eqn:Hr; [|by apply wp_ret, owes_inv].
  apply wp_send; [|by eapply owes_sent]. destruct (ow_trailer _ _ H4 r Hr) as [Hrank ->].
  pose proof (ow_bound _ _ H4) as Hb. rewrite Hst in Hb. split; [split|done]; simpl; [..|apply H4].
  - apply in_turn_snoc; [apply H4|]. eapply Forall_impl; [exact Hb|]. intros x Hx. left. simpl in Hx. lia.
  - apply Forall_app. split; [eapply Forall_impl; [exact Hb|]; simpl; lia|]. constructor; [lia|constructor].
Qed.
End order.

(** ** The life of a request *)

(** The calls of the plugins for the chunks of a response, before its end. *)
Definition open_calls (n : nat) : list (bool * bool) :=
  match n with 0 => [] | S m => (true, false) :: replicate m (false, false) end.

(** With the end: the first call starts the stream and the last one ends it. *)
Definition chunk_calls (n : nat) : list (bool * bool) := open_calls n ++ [(bool_decide (n = 0), true)].

Section life.
Context {S : Type} (I : S → Prop).
Context (HandleRequest : InferenceRequestBody → GoM (DState S) (unit + Error)) (Hdir : LawfulDirector I HandleRequest).
Context (plugins : option InferenceRequest → option SchedulingResult → option EndpointMetadata → bool → bool → S → S).
Context (HeaderPlugins : RequestContext → gmap string string → S → S * gmap string string).
Context (ParseRequest : bytes → gmap string string → (InferenceRequestBody * Payload) + string).
Context (evictionLookup : option (string → bool)) (GetRandomEndpoint : option EndpointMetadata).
Context (Send : list ProcessingResponse → bool) (now : Z) (newUUID : string) (Itoa : Z → string).
Context (traceHeaders : SetHeaders) (order : nat → nat).
(** The state of the plugins when the stream is opened. *)
Context (p0 : S) (HI : I p0).

(** The director has got the request when the stream had no target, and left [d]. *)
Definition directed (d : DState S) : Prop :=
  ∃ body d0 r, ds_plugins d0 = p0 ∧ rc_TargetPod (ds_ctx d0) = None ∧ HandleRequest body d0 = Some (r, d).

(** What the plugins are called with is what the director has left. *)
Record as_directed (d : DState S) (s : Stream S) : Prop := mkAsDirected {
  ad_directed : directed d;
  ad_request : rc_SchedulingRequest (ds_ctx (sm_d s)) = rc_SchedulingRequest (ds_ctx d);
  ad_result : rc_SchedulingResult (ds_ctx (sm_d s)) = rc_SchedulingResult (ds_ctx d);
  ad_pod : rc_TargetPod (ds_ctx (sm_d s)) = rc_TargetPod (ds_ctx d)
}.

(** The plugins may have seen the headers of the response. *)
Definition headers_seen (p p' : S) : Prop := p' = p ∨ ∃ c h, p' = (HeaderPlugins c h p).1.

(** The request was handed to the director, and the calls were made with its result. *)
Definition handled_by (s : Stream S) : Prop :=
  ∃ d p, as_directed d s ∧ headers_seen (ds_plugins d) p ∧
    ds_plugins (sm_d s) =
      foldl (λ p c, plugins (rc_SchedulingRequest (ds_ctx d)) (rc_SchedulingResult (ds_ctx d)) (rc_TargetPod (ds_ctx d))
                      c.1 c.2 p) p (sm_calls s).

(** The plugins have not been called since. *)
Definition untouched (s : Stream S) : Prop :=
  sm_calls s = [] ∧ (rc_TargetPod (ds_ctx (sm_d s)) = None ∨ ∃ d, as_directed d s ∧ ds_plugins (sm_d s) = ds_plugins d).

Record calls_ok (calls : list (bool * bool)) (s : Stream S) : Prop := mkCallsOk {
  ca_calls : sm_calls s = calls;
  ca_started : sm_ResponseBodyStarted s = bool_decide (sm_calls s ≠ []);
  ca_handled : rc_TargetPod (ds_ctx (sm_d s)) = None ∨ handled_by s
}.

Definition open_life (s : Stream S) : Prop := ∃ n, calls_ok (open_calls n) s.
Definition closed_life (s : Stream S) : Prop := ∃ n, calls_ok (chunk_calls n) s.

Definition life (s : Stream S) : Prop := if ob_ResponseComplete (sm_out s) then closed_life s else open_life s.

Definition life_at (p : Phase) (s : Stream S) : Prop :=
  life s ∧ (p = PRequest → rc_TargetPod (ds_ctx (sm_d s)) = None ∧ ds_plugins (sm_d s) = p0 ∧ sm_calls s = []) ∧
  (p = PRequest ∨ p = PWait → untouched s).

Abbreviation hrb := (HandleResponseBody (Some plugins)).

(** A call of the plugins. *)
Lemma response_body_call e s : open_life s →
  wp (hrb e) (λ _ s', sm_out s' = sm_out s ∧ ds_ctx (sm_d s') = ds_ctx (sm_d s) ∧
    if e then closed_life s' else open_life s') s.
Proof using Type.
  intros (n & [Hc Hs Hh]). apply wp_modify. split; [done|]. split; [done|].
  assert (negb (sm_ResponseBodyStarted s) = bool_decide (n = 0)) as Hstart.
  { rewrite Hs, Hc. by destruct n. }
  match goal with |- if e then closed_life ?s' else open_life ?s' => set (s2 := s') end.
  assert (rc_TargetPod (ds_ctx (sm_d s2)) = None ∨ handled_by s2) as Hh2.
  { destruct Hh as [Hn|(d & p & [Hd H4 H5 H6] & Hp & H7)]; [by left|right].
    exists d, p. subst s2. split; [by split|]. split; [done|]. simpl. rewrite foldl_app. simpl.
    by rewrite <- H7, H4, H5, H6. }
  assert (sm_ResponseBodyStarted s2 = bool_decide (sm_calls s2 ≠ [])) as Hs2.
  { subst s2. simpl. symmetry. apply bool_decide_eq_true. by destruct (sm_calls s). }
  destruct e.
  - exists n. split; [|done|done]. subst s2. simpl. by rewrite Hstart, Hc.
  - exists (Datatypes.S n). split; [|done|done]. subst s2. simpl. rewrite Hstart, Hc. destruct n as [|n]; [done|].
    simpl. by rewrite <- replicate_S_end.
Qed.

(** Steps that the plugins do not see. *)
Record unseen (s s' : Stream S) : Prop := mkUnseen {
  un_calls : sm_calls s' = sm_calls s;
  un_started : sm_ResponseBodyStarted s' = sm_ResponseBodyStarted s;
  un_plugins : ds_plugins (sm_d s') = ds_plugins (sm_d s);
  un_request : rc_SchedulingRequest (ds_ctx (sm_d s')) = rc_SchedulingRequest (ds_ctx (sm_d s));
  un_result : rc_SchedulingResult (ds_ctx (sm_d s')) = rc_SchedulingResult (ds_ctx (sm_d s));
  un_pod : rc_TargetPod (ds_ctx (sm_d s')) = rc_TargetPod (ds_ctx (sm_d s))
}.

Lemma unseen_calls s s' calls : unseen s s' → calls_ok calls s → calls_ok calls s'.
Proof using Type.
  intros [U1 U2 U3 U4 U5 U6] [H1 H2 H3]. split; [congruence|by rewrite U1, U2|].
  destruct H3 as [H3|(d & p & [Hd E4 E5 E6] & Hp & E7)]; [left; congruence|right].
  exists d, p. split; [split; congruence|]. split; [done|congruence].
Qed.

Lemma unseen_untouched s s' : unseen s s' → untouched s → untouched s'.
Proof using Type.
  intros [U1 U2 U3 U4 U5 U6] [H1 H2]. split; [congruence|].
  destruct H2 as [H2|(d & [Hd E4 E5 E6] & E7)]; [left; congruence|right].
  exists d. split; [split; congruence|congruence].
Qed.

Lemma unseen_open s s' : unseen s s' → open_life s → open_life s'.
Proof using Type. intros Hu [n Hn]. exists n. by eapply unseen_calls. Qed.

Lemma unseen_life s s' : unseen s s' → ob_ResponseComplete (sm_out s') = ob_ResponseComplete (sm_out s) →
  life s → life s'.
Proof using Type.
  intros Hu Hc. unfold life. rewrite Hc. destruct (ob_ResponseComplete (sm_out s)); [|by apply unseen_open].
  intros [n Hn]. exists n. by eapply unseen_calls.
Qed.

Lemma unseen_at p s s' : unseen s s' → ob_ResponseComplete (sm_out s') = ob_ResponseComplete (sm_out s) →
  life_at p s → life_at p s'.
Proof using Type.
  intros Hu Hc (Hl & Hp & Hw). split; [by eapply unseen_life|]. split.
  - intros ->. destruct (Hp eq_refl) as (H1 & H2 & H3). destruct Hu. split_and!; congruence.
  - intros Hpw. by eapply unseen_untouched, Hw.
Qed.

Lemma life_later p s : p ≠ PRequest → p ≠ PWait → life s → life_at p s.
Proof using Type. intros H1 H2 Hl. split; [done|]. split; [done|]. by intros [?|?]. Qed.

(** What a message leaves for the outbox. *)
Definition message_post (p : Phase) (r : unit + Error) (s : Stream S) : Prop :=
  match r with
  | inl _ => owes p (sm_out s) ∧ life_at p s
  | inr _ => sent_ok p (sm_out s) ∧ life s
  end.

Lemma owes_request p o h b : owes p o → (∀ r, h = Some r → rank r = 0) → Forall (λ r, rank r = 1) b →
  owes p (ob_set_request h b o).
Proof using Type. by intros []; split. Qed.

Lemma owes_respBody p o b : owes p o → Forall (λ r, rank r = 3) b → owes p (ob_set_respBody b o).
Proof using Type. by intros []; split. Qed.

Lemma read_headers_same headers : ∀ c, let c' := foldl read_header c headers in
  rc_SchedulingRequest c' = rc_SchedulingRequest c ∧ rc_SchedulingResult c' = rc_SchedulingResult c ∧
  rc_TargetPod c' = rc_TargetPod c.
Proof using Type.
  induction headers as [|h headers IH]; intros c; [done|]. simpl. destruct (IH (read_header c h)) as (-> & -> & ->).
  unfold read_header. by repeat case_bool_decide.
Qed.

Lemma request_headers_ok s headers eos : owes PRequest (sm_out s) → life_at PRequest s →
  wp (on_request_headers GetRandomEndpoint now newUUID Itoa traceHeaders order headers eos) (message_post PRequest) s.
Proof using Type.
  intros Ho Hl. unfold on_request_headers. apply wp_bind.
  assert (∀ s1, unseen s s1 → sm_out s1 = sm_out s →
    wp (HandleRequestHeaders GetRandomEndpoint now Itoa traceHeaders order headers eos) (message_post PRequest) s1) as Hrest.
  2: { case_bool_decide; [apply wp_modify, Hrest|apply wp_ret, Hrest]; by repeat split. }
  intros s1 Hu Hout. assert (life_at PRequest s1) as Hl1 by (eapply unseen_at; [exact Hu|by rewrite Hout|done]).
  rewrite <- Hout in Ho. clear Hu Hout Hl. unfold HandleRequestHeaders. apply wp_bind, wp_modify. destruct eos.
  - destruct GetRandomEndpoint as [endpoint|].
    + apply wp_bind, wp_modify, wp_bind, wp_gets, wp_bind, wp_modify, wp_ret. split.
      * apply owes_request; [done|by intros r [= <-]|apply Ho].
      * eapply (unseen_at _ s1); [|done|exact Hl1]. by split.
    + apply wp_ret. split; [by eapply owes_sent|]. eapply (unseen_life s1); [|done|apply Hl1]. by split.
  - apply wp_bind, wp_modify, wp_ret. split; [done|]. eapply (unseen_at _ s1); [|done|exact Hl1]. simpl.
    destruct (read_headers_same headers (with_arrival now None (ds_ctx (sm_d s1)))) as (H1 & H2 & H3).
    split; simpl; try done; case_bool_decide; simpl; rewrite ?H1, ?H2, ?H3; done.
Qed.

Lemma request_body_responses_rank body : Forall (λ r, rank r = 1) (GenerateRequestBodyResponses body).
Proof using Type. unfold GenerateRequestBodyResponses. apply Forall_fmap, Forall_true. done. Qed.

Lemma request_body_ok s chunk eos : owes PRequest (sm_out s) → life_at PRequest s →
  wp (on_request_body HandleRequest ParseRequest evictionLookup Itoa traceHeaders order chunk eos)
    (message_post (if eos then PWait else PRequest)) s.
Proof using Hdir HI.
  intros Ho Hl. unfold on_request_body. apply wp_bind, wp_gets. destruct eos; simpl negb; cbv iota.
  2: { apply wp_bind, wp_modify, wp_ret. split; [done|]. eapply (unseen_at _ s); [by split|done|done]. }
  apply wp_bind, wp_modify, wp_bind, wp_modify, wp_bind, wp_gets. destruct Hl as (Hlife & Hfresh & _).
  destruct (Hfresh eq_refl) as (Hpod & Hplug & Hcalls).
  destruct (ParseRequest _ _) as [[body payload]|msg].
  2: { apply wp_ret. split; [by apply (sent_phase PRequest), owes_sent|]. eapply (unseen_life s); [by split|done|done]. }
  apply wp_bind, wp_modify, wp_ebindM. unfold lift_d, wp at 1. simpl sm_d.
  match goal with |- context [HandleRequest body ?x] => set (d0 := x) end.
  pose proof (director_answers body d0 ltac:(simpl; by rewrite Hplug) Hpod) as (r & d & Hrun & _)%wp_run. rewrite Hrun.
  set (s1 := mkStream d _ _ _ _ _ _ _).
  assert (as_directed d s1) as Had by (split; [by exists body, d0, r|done..]).
  assert (untouched s1) as Hun by (split; [done|right; by exists d]).
  assert (life s1) as Hlife1.
  { assert (ob_ResponseComplete (sm_out s1) = false) as Hc by (simpl; apply (ow_complete _ _ Ho)).
    unfold life in *. rewrite Hc. replace (ob_ResponseComplete (sm_out s)) with false in Hlife by done.
    exists 0. destruct Hlife as (n & [_ Hst _]). split; [done|done|right].
    exists d, (ds_plugins d). split; [done|]. split; [by left|]. simpl. by rewrite Hcalls. }
  destruct r as [[]|err].
  2: { split; [by apply (sent_phase PRequest), owes_sent|done]. }
  apply wp_bind, wp_gets, wp_bind.
  assert (∀ s2, unseen s1 s2 → sm_out s2 = sm_out s →
    wp (match rc_SchedulingRequest (ds_ctx (sm_d s1)) ≫= ir_Body with Some b => set_streaming (bd_Stream b) | None => mret tt end ;;
        on_out (ob_set_request (Some (generateRequestHeaderResponse Itoa traceHeaders order (ds_ctx (sm_d s1))))
                  (GenerateRequestBodyResponses (String.list_ascii_of_string (rc_RawBody (ds_ctx (sm_d s1)))))) ;;
        mret (inl tt)) (message_post PWait) s2) as Hrest.
  2: { destruct evictionLookup; [apply wp_modify, Hrest|apply wp_ret, Hrest]; by repeat split. }
  intros s2 Hu Hout. apply wp_bind.
  assert (∀ s3, unseen s1 s3 → sm_out s3 = sm_out s →
    wp (on_out (ob_set_request (Some (generateRequestHeaderResponse Itoa traceHeaders order (ds_ctx (sm_d s1))))
                  (GenerateRequestBodyResponses (String.list_ascii_of_string (rc_RawBody (ds_ctx (sm_d s1)))))) ;;
        mret (inl tt)) (message_post PWait) s3) as Hlast.
  2: { destruct (_ ≫= ir_Body); [apply wp_modify, Hlast|apply wp_ret, Hlast]; try done; destruct Hu; by split. }
  intros s3 Hu3 Hout3. apply wp_bind, wp_modify, wp_ret. split.
  - simpl. rewrite Hout3. apply owes_request; [|by intros r [= <-]|apply request_body_responses_rank].
    destruct Ho as [? ? ? ? Ht]. split; try done. intros r Hr. by destruct (Ht r Hr).
  - split; [eapply (unseen_life s1); [destruct Hu3; by split|simpl; by rewrite Hout3|done]|]. split; [done|]. intros _.
    eapply (unseen_untouched s1); [destruct Hu3; by split|done].
Qed.

(** The state of the outbox when the response begins. *)
Lemma owes_response p o h : p = PRequest ∨ p = PWait → owes p o →
  owes PResponse (ob_set_respHeader (Some (generateResponseHeaderResponse order h)) (ob_set_state ResponseReceived o)).
Proof using Type.
  intros Hp [H1 H2 H3 H4 H5 H6 H7 H8 H9]. split; simpl; try done.
  - by intros r [= <-].
  - intros r Hr. destruct (H5 r Hr) as [_ ->]. by destruct Hp.
  - eapply Forall_impl; [exact H7|]. intros r Hr. simpl in Hr. eapply Nat.lt_le_trans; [exact Hr|].
    destruct Hp as [-> | ->]; simpl in H8; repeat (apply elem_of_cons in H8 as [->|H8]; [clear; simpl; lia|]); by apply elem_of_nil in H8.
  - apply elem_of_cons. by left.
  - rewrite H9. by destruct Hp as [-> | ->].
Qed.

(** The plugins see the headers of the response. *)
Lemma response_header_call s : open_life s → untouched s →
  wp (HandleResponseHeader HeaderPlugins) (λ _ s', sm_out s' = sm_out s ∧ open_life s') s.
Proof using Type.
  intros [n [_ Hs _]] [Hcalls Hh]. unfold HandleResponseHeader. apply wp_bind, wp_gets.
  destruct (HeaderPlugins _ _ _) as [p h] eqn:Hp. apply wp_bind, wp_modify, wp_modify. split; [done|].
  exists 0. split; [done|done|].
  destruct Hh as [Hn|(d & [Hd E1 E2 E3] & E4)]; [by left|right]. exists d, p. split; [by split|]. split.
  - right. do 2 eexists. simpl in Hp. rewrite <- E4. by erewrite Hp.
  - simpl. by rewrite Hcalls.
Qed.

Lemma response_headers_ok p s headers : p = PRequest ∨ p = PWait → owes p (sm_out s) → life_at p s →
  wp (on_response_headers HeaderPlugins order headers) (λ _ s', owes PResponse (sm_out s') ∧ life_at PResponse s') s.
Proof using All.
  intros Hp Ho Hl. unfold on_response_headers. apply wp_bind.
  assert (∀ s1, unseen s s1 → sm_out s1 = sm_out s →
    wp (on_out (ob_set_state ResponseReceived) ;;
        HandleResponseHeaders HeaderPlugins headers ;;
        h ← gets sm_responseHeaders;
        on_out (ob_set_respHeader (Some (generateResponseHeaderResponse order h))))
      (λ _ s', owes PResponse (sm_out s') ∧ life_at PResponse s') s1) as Hrest.
  2: { destruct (event_stream headers); [apply wp_modify, Hrest|apply wp_ret, Hrest]; by repeat split. }
  intros s1 Hu Hout. apply wp_bind, wp_modify, wp_bind, wp_bind, wp_gets, wp_bind, wp_modify.
  pose proof (ow_complete _ _ Ho) as Hc.
  assert (phase_complete p = false) as Hf by (by destruct Hp as [-> | ->]).
  eapply wp_mono; [apply response_header_call|].
  { destruct Hl as [Hl _]. unfold life in Hl. rewrite Hc, Hf in Hl. eapply (unseen_open s); [|done]. destruct Hu. by split. }
  { eapply unseen_untouched; [|by apply Hl]. destruct Hu. by split. }
  intros [] s2 [Hout2 Hop]. apply wp_bind, wp_gets, wp_modify. simpl in Hout2. split.
  - simpl. rewrite Hout2, Hout. by apply (owes_response p).
  - apply life_later; [done..|]. unfold life. simpl. rewrite Hout2. simpl. rewrite Hout, Hc, Hf.
    eapply (unseen_open s2); [by split|done].
Qed.

Lemma owe_body_ok p s body eos : owes p (sm_out s) → life_at p s →
  wp (owe_body body eos) (λ _ s', owes p (sm_out s') ∧ life_at p s') s.
Proof using Type.
  intros Ho Hl. unfold owe_body. apply wp_bind, wp_gets, wp_modify. split.
  - apply owes_respBody; [done|]. unfold generateResponseBodyResponses. by apply Forall_fmap, Forall_true.
  - eapply (unseen_at p s); [by split|done|done].
Qed.

Lemma owes_complete p p' o : owes p o → phase_states p' = phase_states p → phase_complete p' = true →
  (∀ r, ob_respTrailerResp o = Some r → rank r = 4 ∧ p' = PDone) → owes p' (ob_complete o).
Proof using Type. intros [] Hs Hc Ht. split; simpl; try done. by rewrite Hs. Qed.

(** The end of a response. *)
Lemma complete_ok p' s (c : GoM (Stream S) unit) : p' = PEnd ∨ p' = PDone →
  owes PResponse (sm_out s) → life s →
  (∀ s1, owes p' (sm_out s1) → life_at p' s1 → wp c (λ _ s', owes p' (sm_out s') ∧ life_at p' s') s1) →
  wp (on_out ob_complete ;; hrb true ;; c) (λ _ s', owes p' (sm_out s') ∧ life_at p' s') s.
Proof using All.
  intros Hp Ho Hl Hc. apply wp_bind, wp_modify, wp_bind. unfold life in Hl. rewrite (ow_complete _ _ Ho) in Hl.
  eapply wp_mono; [apply response_body_call; eapply (unseen_open s); [by split|exact Hl]|].
  intros [] s1 (Hout & _ & Hcl). simpl in Hout. apply Hc; rewrite ?Hout.
  - apply (owes_complete PResponse); [done|by destruct Hp as [-> | ->]..|].
    intros r Hr. by destruct (ow_trailer _ _ Ho r Hr).
  - apply life_later; [by destruct Hp as [-> | ->]..|]. unfold life. by rewrite Hout.
Qed.

Lemma response_body_ok s chunk eos : owes PResponse (sm_out s) → life_at PResponse s →
  wp (on_response_body (Some plugins) chunk eos)
    (λ _ s', owes (if eos then PEnd else PResponse) (sm_out s') ∧ life_at (if eos then PEnd else PResponse) s') s.
Proof using All.
  intros Ho Hl. pose proof (ow_complete _ _ Ho) as Hc. unfold on_response_body. apply wp_bind, wp_gets.
  destruct (sm_modelServerStreaming s).
  - destruct eos.
    + apply complete_ok; [by left|done|apply Hl|]. intros s1. apply owe_body_ok.
    + apply wp_bind, wp_ret, wp_bind. destruct Hl as [Hl _]. unfold life in Hl. rewrite Hc in Hl.
      eapply wp_mono; [by apply response_body_call|]. intros [] s1 (Hout & _ & Ho1). apply owe_body_ok.
      * by rewrite Hout.
      * apply life_later; [done..|]. unfold life. by rewrite Hout, Hc.
  - apply wp_bind, wp_gets, wp_bind, wp_modify. destruct eos.
    + unfold finishResponse. apply wp_bind, wp_gets. simpl sm_out. rewrite Hc.
      apply complete_ok; [by left|done| |intros s1; apply owe_body_ok].
      eapply (unseen_life s); [by split|done|apply Hl].
    + apply wp_ret. split; [done|]. eapply (unseen_at _ s); [by split|done|done].
Qed.

Lemma trailer_ok s : owes PDone (sm_out s) → life_at PDone s →
  wp (on_out (ob_set_trailer (Some ResponseTrailersResponse))) (λ _ s', owes PDone (sm_out s') ∧ life_at PDone s') s.
Proof using Type.
  intros Ho Hl. apply wp_modify. split; [|eapply (unseen_at _ s); [by split|done|done]].
  destruct Ho. split; try done. by intros r [= <-].
Qed.

Lemma response_trailers_ok p s : p = PResponse ∨ p = PEnd → owes p (sm_out s) → life_at p s →
  wp (on_response_trailers (Some plugins)) (λ _ s', owes PDone (sm_out s') ∧ life_at PDone s') s.
Proof using All.
  intros Hp Ho Hl. unfold on_response_trailers. apply wp_bind, wp_gets, wp_bind, wp_gets, wp_bind.
  unfold finishResponse. apply wp_bind, wp_gets. rewrite (ow_complete _ _ Ho). destruct Hp as [-> | ->]; simpl.
  - eapply wp_mono; [apply (complete_ok PDone); [by right|done|apply Hl|]|intros [] s1 [H1 H2]; by apply trailer_ok].
    intros s1 H1 H2. destruct (sm_modelServerStreaming s); [by apply wp_ret|by apply owe_body_ok].
  - apply wp_ret, trailer_ok; [|by apply life_later, Hl]. destruct Ho as [? ? ? ? Ht]. split; try done.
    intros r Hr. by destruct (Ht r Hr).
Qed.

Abbreviation message := (process_message HandleRequest (Some plugins) HeaderPlugins ParseRequest evictionLookup GetRandomEndpoint
  now newUUID Itoa traceHeaders order).

Lemma message_ok p p' m s : next_phase p m = Some p' → owes p (sm_out s) → life_at p s →
  wp (message m) (message_post p') s.
Proof using All.
  intros Hn Ho Hl.
  assert (∀ c : GoM (Stream S) unit, wp c (λ _ s', owes p' (sm_out s') ∧ life_at p' s') s →
    wp (c ;; mret (inl tt)) (message_post p') s) as Hunit.
  { intros c Hc. apply wp_bind. eapply wp_mono; [exact Hc|]. intros [] s' H. by apply wp_ret. }
  destruct m as [headers eos|chunk eos| |headers|chunk eos|]; destruct p; simpl in Hn; try discriminate; injection Hn as <-.
  - by apply request_headers_ok.
  - by apply request_body_ok.
  - by apply wp_ret.
  - by apply wp_ret.
  - apply Hunit. eapply response_headers_ok; [by left|done..].
  - apply Hunit. eapply response_headers_ok; [by right|done..].
  - apply Hunit. by apply response_body_ok.
  - apply Hunit. eapply response_trailers_ok; [by left|done..].
  - apply Hunit. eapply response_trailers_ok; [by right|done..].
Qed.

Abbreviation input := (process_input HandleRequest (Some plugins) HeaderPlugins ParseRequest evictionLookup GetRandomEndpoint
  Send now newUUID Itoa traceHeaders order).
Abbreviation loop := (process_loop HandleRequest (Some plugins) HeaderPlugins ParseRequest evictionLookup GetRandomEndpoint
  Send now newUUID Itoa traceHeaders order).

Definition input_phase (p : Phase) (i : Input) : option Phase :=
  match i with Recv _ m => next_phase p m | _ => Some p end.

Definition input_post (p : Phase) (r : option (unit + StreamError)) (s : Stream S) : Prop :=
  life s ∧ in_turn (ob_sent (sm_out s)) ∧ (r = None → out_inv p (sm_out s) ∧ life_at p s).

Lemma out_unseen s o : ob_ResponseComplete o = ob_ResponseComplete (sm_out s) → life s →
  life (mkStream (sm_d s) o (sm_modelServerStreaming s) (sm_responseHeaders s) (sm_body s) (sm_evictCh s)
          (sm_ResponseBodyStarted s) (sm_calls s)).
Proof using Type. intros Hc Hl. eapply (unseen_life s); [by split|done|done]. Qed.

Lemma send_immediate p s st body : sent_ok p (sm_out s) → life s →
  wp (r ← lift_out (send Send (ImmediateResponse st body)); mret (Some r)) (input_post p) s.
Proof using All.
  intros [Hord Hlt _] Hl. apply wp_bind. unfold lift_out, send, wp at 1. destruct (Send (ob_sent (sm_out s))).
  - apply wp_ret. split; [by apply out_unseen|]. split; [|done]. simpl. apply in_turn_snoc; [done|].
    eapply Forall_impl; [exact Hlt|]. intros x Hx. left. exact Hx.
  - apply wp_ret. split; [by apply out_unseen|]. by split.
Qed.

Lemma input_ok p p' i s : input_phase p i = Some p' → out_inv p (sm_out s) → life_at p s →
  wp (input i) (input_post p') s.
Proof using All.
  intros Hp Ho Hl. assert (in_turn (ob_sent (sm_out s))) as Hord by apply (se_order _ _ (oi_sent _ _ Ho)).
  destruct i as [metadata m| | | |]; simpl in Hp; try (injection Hp as <-).
  2,3,5: apply wp_ret; split; [apply Hl|by split].
  - assert (p ≠ PDone) as Hne by (intros ->; by destruct m). pose proof (oi_owes _ _ Ho Hne) as How.
    unfold process_input. apply wp_bind, wp_modify, wp_bind. eapply wp_mono.
    { apply (message_ok p p'); [done|done|]. eapply (unseen_at p s); [by split|done|done]. }
    intros [[]|err] s1 [H1 H2].
    + apply wp_bind. unfold lift_out, wp at 1.
      pose proof (update_ok Send p' (sm_out s1) H1) as (r & o & -> & Hr)%wp_run. apply wp_ret.
      destruct H2 as [H2 H3]. destruct r as [[]|e].
      * pose proof (oi_sent _ _ Hr) as [Ho1 _ Hc]. rewrite <- (ow_complete _ _ H1) in Hc.
        split; [by apply out_unseen|]. split; [done|]. intros _. split; [done|]. eapply (unseen_at _ s1); [by split|done|by split].
      * destruct Hr as [Ho1 _ Hc]. rewrite <- (ow_complete _ _ H1) in Hc. split; [by apply out_unseen|]. by split.
    + destruct (BuildErrResponse (inl err) (Error_Error err)) as [[st body]|].
      * by apply send_immediate.
      * apply wp_ret. split; [done|]. split; [|done]. apply (se_order _ _ H1).
  - unfold process_input. apply wp_bind, wp_gets. destruct (sm_evictCh (id s)); simpl.
    2: { apply wp_ret. split; [apply Hl|]. by split. }
    destruct (ob_ResponseComplete (sm_out s)) eqn:Hc.
    + apply wp_bind, wp_modify, wp_ret.
      assert (life_at p (mkStream (sm_d s) (sm_out s) (sm_modelServerStreaming s) (sm_responseHeaders s) (sm_body s) false
        (sm_ResponseBodyStarted s) (sm_calls s))) as Hl' by (eapply (unseen_at _ s); [by split|done|done]).
      split; [apply Hl'|]. by split.
    + apply wp_bind, wp_modify. unfold updateStateAndSendIfNeeded.
      apply (send_immediate p); [by destruct (oi_sent _ _ Ho)|]. eapply (unseen_life s); [by split|done|apply Hl].
Qed.

Definition finished (s : Stream S) : Prop :=
  rc_TargetPod (ds_ctx (sm_d s)) = None ∨ handled_by s ∧ ∃ n, sm_calls s = chunk_calls n.

Lemma cleanup_ok s : life s → wp (cleanup_stream (Some plugins)) (λ _ s', finished s' ∧ sm_out s' = sm_out s) s.
Proof using All.
  intros Hl. unfold cleanup_stream. apply wp_bind, wp_gets. simpl.
  destruct (rc_TargetPod (ds_ctx (sm_d s))) as [pod|] eqn:Hpod; [|apply wp_ret; split; [by left|done]].
  unfold life in Hl. destruct (ob_ResponseComplete (sm_out s)).
  - apply wp_ret. split; [|done]. right. destruct Hl as [n [Hc _ [Hn|Hh]]]; [congruence|]. split; [done|by exists n].
  - eapply wp_mono; [by apply response_body_call|]. intros [] s' (Hout & Hctx & n & [Hc _ [Hn|Hh]]).
    + rewrite Hctx in Hn. congruence.
    + split; [|done]. right. split; [done|by exists n].
Qed.

Lemma loop_ok inputs : ∀ p s, conforming p inputs → out_inv p (sm_out s) → life_at p s →
  wp (loop inputs) (λ r s', in_turn (ob_sent (sm_out s')) ∧ (r ≠ None → finished s')) s.
Proof using All.
  induction inputs as [|i inputs IH]; intros p s Hc Ho Hl; cbn [process_loop].
  { apply wp_ret. split; [|done]. apply (se_order _ _ (oi_sent _ _ Ho)). }
  assert (∃ p', input_phase p i = Some p' ∧ conforming p' inputs) as (p' & Hp & Hc').
  { destruct i as [md m| | | |]; simpl in Hc; [|by exists p..]. destruct (next_phase p m) as [p'|] eqn:Hn; [by exists p'|done]. }
  apply wp_bind. eapply wp_mono; [by apply (input_ok p p')|]. intros [exit|] s1 (H1 & H2 & H3).
  - apply wp_bind. eapply wp_mono; [by apply cleanup_ok|]. intros [] s2 [Hf Hout]. apply wp_ret.
    split; [by rewrite Hout|done].
  - destruct (H3 eq_refl) as [Ho1 Hl1]. by apply (IH p').
Qed.

Lemma new_stream_ok : out_inv PRequest (sm_out (new_stream p0)) ∧ life_at PRequest (new_stream p0).
Proof using Type.
  split.
  - apply owes_inv. split; try done; by constructor.
  - split; [exists 0; split; [done|done|by left]|]. split; [done|]. intros _. split; [done|by left].
Qed.

End life.


(** C6. Every request that is sent to an endpoint is ended once, and the plugins learn of it. When
    [Process] returns, for whatever reason (the response is complete, a send or the stream
    fails, the client leaves, the request is evicted, an error follows the scheduling) and
    the request has a target: the request went through the director once, from the state
    in which the stream was opened; after it, the plugins were called for the chunks of
    the response, the first call and no other with the start of the stream, the last one
    and no other with its end; and their state is what these calls made of the one that the
    director left. *)
Theorem request_lifecycle {S : Type} (I : S → Prop)
    (HandleRequest : InferenceRequestBody → GoM (DState S) (unit + Error))
    (plugins : option InferenceRequest → option SchedulingResult → option EndpointMetadata → bool → bool → S → S)
    (HeaderPlugins : RequestContext → gmap string string → S → S * gmap string string)
    (ParseRequest : bytes → gmap string string → (InferenceRequestBody * Payload) + string)
    (evictionLookup : option (string → bool)) (GetRandomEndpoint : option EndpointMetadata)
    (Send : list ProcessingResponse → bool) (now : Z) (newUUID : string) (Itoa : Z → string)
    (traceHeaders : SetHeaders) (order : nat → nat) (p0 : S) (inputs : list Input)
    (Hdir : LawfulDirector I HandleRequest) (HI : I p0) (Hc : conforming PRequest inputs) :
  ∃ r s, process_loop HandleRequest (Some plugins) HeaderPlugins ParseRequest evictionLookup GetRandomEndpoint Send now newUUID Itoa
      traceHeaders order inputs (new_stream p0) = Some (r, s) ∧
    (r ≠ None → rc_TargetPod (ds_ctx (sm_d s)) ≠ None →
     handled_by HandleRequest plugins HeaderPlugins p0 s ∧ ∃ n, sm_calls s = chunk_calls n).
Proof.
  destruct (new_stream_ok HandleRequest plugins HeaderPlugins p0) as [Ho Hl].
  pose proof (loop_ok I HandleRequest Hdir plugins HeaderPlugins ParseRequest evictionLookup GetRandomEndpoint Send now newUUID Itoa
    traceHeaders order p0 HI inputs PRequest _ Hc Ho Hl) as (r & s & Hrun & _ & Hf)%wp_run.
  exists r, s. split; [done|]. intros Hr Hpod. by destruct (Hf Hr).
Qed.
