(* ===== verification/EndToEnd.v ===== *)
(** * A request from end to end

    The stream, the director and the in-flight load producer together: the interface that
    the server relies on is discharged by the director, and the protocol that the producer
    relies on (one [PreRequest], then the chunks of the response, the first and the last of
    them marked) is discharged by the server. *)

From stdpp Require Import prelude gmap strings list.
From Stdlib Require Import ZArith Lia.
From S2P Require Import Prelude FlowTypes Float64 SchedTypes Json Pickers SchedulerProfile Scheduler ProfileHandlers ActiveRequest InFlight Candidates ModelRewrite RequestControl Director Envoy ExtProc.

(** ** The director serves the stream *)

#[export] Instance director_lawful {S} (d : Director S) (dd : DirectorDraws) (I : S → Prop) FormatFloat Error_text :
  (∀ n, (0 < n)%Z → (0 ≤ dd_Intn dd n < n)%Z) → Inj (=) (=) (dd_alloc dd) →
  (∀ model rule name, d_ModelRewriteGet d model = Some (rule, name) → weights_ok (rl_Targets rule)) →
  (∀ md, Forall endpoint_ok (d_Locate d md)) →
  Forall (LawfulProducer I) (d_prepareDataPlugins d) → LawfulScheduler (d_Schedule d) →
  LawfulDirector I (HandleRequest d dd FormatFloat Error_text).
Proof.
  intros HIntn Halloc Hrules Hpool Hprod Hsched. split. intros body s HI Hnone.
  eapply wp_mono; [by eapply handle_request_ok|done].
Qed.

(** ** The load of a stream *)

Definition in_flight_response (FormatFloat : float64 → string) (order : nat → nat) (request : option InferenceRequest)
    (result : option SchedulingResult) (_ : option EndpointMetadata) (startOfStream endOfStream : bool)
    (p : InFlightLoadProducer) : InFlightLoadProducer :=
  match request with
  | Some request => default p (InFlight.ResponseBody FormatFloat order request result startOfStream endOfStream p)
  | None => p
  end.

(** No plugin that waits for the headers of a response. *)
Definition no_header_plugins {S} (_ : RequestContext) (h : gmap string string) (p : S) : S * gmap string string := (p, h).

Section load.
Context (FormatFloat : float64 → string) (order : nat → nat).
Context (request : InferenceRequest) (result : SchedulingResult) (pod : option EndpointMetadata).
Context (Hnil : sr_ProfileResults result !! profilePrefill ≠ Some None).

Abbreviation call := (λ p (c : bool * bool), in_flight_response FormatFloat order (Some request) (Some result) pod c.1 c.2 p).

Lemma response_total start eos p :
  ∃ p', InFlight.ResponseBody FormatFloat order request (Some result) start eos p = Some p' ∧
    in_flight_response FormatFloat order (Some request) (Some result) pod start eos p = p'.
Proof using Hnil.
  unfold in_flight_response. destruct (InFlight.ResponseBody _ _ _ _ _ _ _) as [p'|] eqn:E; [by exists p'|].
  exfalso. revert E. unfold InFlight.ResponseBody, release_prefill. destruct start; [|done].
  by destruct (sr_ProfileResults result !! profilePrefill) as [[[|]|]|].
Qed.

(** A chunk of the flight at the front. *)
Lemma chunk_step started eos p flights :
  flights_inv FormatFloat (p, mkFlight request result started :: flights) →
  flights_inv FormatFloat (call p (negb started, eos), if eos then flights else mkFlight request result true :: flights).
Proof using Hnil.
  intros Hi. cbn [fst snd]. destruct (response_total (negb started) eos p) as (p' & Hr & ->).
  pose proof (chunk_inv FormatFloat order 0 _ eos p p' _ Hi eq_refl Hr) as H. by destruct eos.
Qed.

Lemma inner_chunks m flights : ∀ p, flights_inv FormatFloat (p, mkFlight request result true :: flights) →
  flights_inv FormatFloat (foldl call p (replicate m (false, false)), mkFlight request result true :: flights).
Proof using Hnil.
  induction m as [|m IH]; intros p Hi; [done|]. cbn [replicate foldl]. apply IH. exact (chunk_step true false p flights Hi).
Qed.

Lemma open_chunks n p flights :
  flights_inv FormatFloat (p, mkFlight request result false :: flights) →
  flights_inv FormatFloat (foldl call p (open_calls n), mkFlight request result (bool_decide (n ≠ 0)) :: flights).
Proof using Hnil.
  intros Hi. destruct n as [|m]; [done|]. cbn [open_calls foldl]. rewrite bool_decide_true by done.
  apply inner_chunks. exact (chunk_step false false p flights Hi).
Qed.

Lemma flight_completes n p flights : flights_inv FormatFloat (p, flights) →
  flights_inv FormatFloat
    (foldl call (InFlight.PreRequest FormatFloat order request (Some result) p) (chunk_calls n), flights).
Proof using Hnil.
  intros Hi. unfold chunk_calls. rewrite foldl_app.
  pose proof (open_chunks n _ _ (send_inv FormatFloat order request result p flights Hi)) as H.
  apply (chunk_step _ true) in H. cbn [foldl]. by destruct n.
Qed.
End load.

(** Producers that only read the state of the plugins. *)
Lemma prepared_in_flight (d : Director InFlightLoadProducer) s s' :
  d_prepareDataPlugins d = [in_flight_producer] → prepared d s s' → s' = s.
Proof. intros Hd [->|(n & request & eps & ->)]; [done|]. rewrite Hd. by destruct n as [|[|n]]. Qed.


(** ** A stream that breaks off *)

(** The first candidate serves. *)
Definition first_fit (request : InferenceRequest) (eps : list Endpoint)
    : option ((SchedulingResult + GoError) * InferenceRequest) :=
  match eps with
  | [] => Some (inr errNoProfile, request)
  | e :: _ => Some (inl (mkSchedulingResult {[ "default"%string := Some [e] ]} "default"), request)
  end.

#[local] Instance first_fit_lawful : LawfulScheduler first_fit.
Proof.
  split. intros request [|e eps] Hok Hnd; [by do 2 eexists|]. do 2 eexists. split; [done|]. split; simpl.
  - eexists. apply lookup_singleton_eq.
  - intros name targets [_ [= <-]]%lookup_singleton_Some. split; [done|]. exists [e].
    split; [by apply submseteq_skip, submseteq_nil_l|]. by repeat constructor.
Qed.

Definition demo_director : Director InFlightLoadProducer :=
  mkDirector (λ _, None) (λ _, None) (λ _ _, None) (Locate false sample_pool) first_fit [in_flight_producer] []
    [in_flight_hook (λ _, ""%string) id].

Abbreviation demo_handle := (HandleRequest demo_director sample_director_draws (λ _, ""%string) (λ _, ""%string)).

Definition demo_parse (_ : bytes) (_ : gmap string string) : (InferenceRequestBody * Payload) + string :=
  inl (sample_body, PayloadMap {[ "model"%string := JString "llama" ]}).

(** A streamed response of which the proxy sees two chunks before the client leaves. *)
Definition demo_inputs : list Input :=
  [Recv [] (RequestHeaders [mkHeaderValue RequestIdHeaderKey "r1" ""] false);
   Recv [] (RequestBody (String.list_ascii_of_string "{}") true);
   Recv [] (ResponseHeaders [mkHeaderValue "content-type" "" "text/event-stream"]);
   Recv [] (ResponseBody (String.list_ascii_of_string "one") false);
   Recv [] (ResponseBody (String.list_ascii_of_string "two") false);
   ContextDone].

Abbreviation demo_run := (process_loop demo_handle (Some (in_flight_response (λ _, ""%string) id)) no_header_plugins demo_parse None None
  (λ _, true) 0 "uuid" (λ _, ""%string) [] id demo_inputs (new_stream InFlightLoadProducerFactory)).

#[local] Instance demo_lawful : LawfulDirector trackers_ok demo_handle.
Proof.
  apply director_lawful; [simpl; lia|apply _|done| |constructor; [apply _|constructor]|apply _].
  intros md. apply Forall_forall. intros e He. apply (Locate_subset false sample_pool md) in He.
  apply elem_of_cons in He as [->|[->|[]%elem_of_nil]%elem_of_cons]; apply sample_endpoint_ok.
Qed.

Lemma factory_trackers : trackers_ok InFlightLoadProducerFactory.
Proof. split; apply map_Forall_empty. Qed.


Lemma request_lifecycle_witness :
  ∃ r s, demo_run = Some (r, s) ∧ ∃ n, sm_calls s = chunk_calls n.
Proof.
  destruct (request_lifecycle trackers_ok demo_handle (in_flight_response (λ _, ""%string) id) no_header_plugins demo_parse None None
    (λ _, true) 0 "uuid" (λ _, ""%string) [] id InFlightLoadProducerFactory demo_inputs) as (r & s & Hrun & Hcalls).
  - apply demo_lawful.
  - apply factory_trackers.
  - exact Logic.I.
  - exists r, s. split; [exact Hrun|]. apply Hcalls.
    + assert (fst <$> demo_run = Some (Some (inr Cancelled))) as H by (vm_compute; reflexivity).
      rewrite Hrun in H. injection H as ->. discriminate.
    + assert ((λ x, bool_decide (rc_TargetPod (ds_ctx (sm_d x.2)) = None)) <$> demo_run = Some false) as H
        by (vm_compute; reflexivity).
      rewrite Hrun in H. injection H as H. by apply bool_decide_eq_false in H.
Defined.

