(* ===== verification/ResponseQueue.v ===== *)
(** * The queues of the response plugins: [requestcontrol/director.go]

    [HandleResponseBody] runs the plugins on the chunks of a response off the stream's own
    path: for every request there is a channel and a goroutine that takes the chunks from
    it; at the end of the response the channel is closed, what is left in it is waited for,
    and the last chunk is processed by the stream itself. Streams and goroutines run
    concurrently and share the table of the channels. This file models them at the grain of
    the operations on the table and on the channels, and shows that streams with ids of
    their own see what they would see if the plugins ran at once. *)

From stdpp Require Import prelude gmap strings list.
From Stdlib Require Import Lia.
From S2P Require Import Prelude.

(** ** The state *)

(** A chunk: what the plugins are given, and whether the response ends with it. *)
Record responseBodyWork (W : Type) := mkWork { wk_stream : nat; wk_response : W; wk_endOfStream : bool }.
Arguments mkWork {W}.
Arguments wk_stream {W}.
Arguments wk_response {W}.
Arguments wk_endOfStream {W}.

(** A channel with its goroutine, which may be processing a chunk. *)
Record responseBodyQueue (W : Type) := mkQueue {
  q_ch : list (responseBodyWork W);
  q_closed : bool;
  q_running : option (responseBodyWork W);
  q_done : bool
}.
Arguments mkQueue {W}.
Arguments q_ch {W}.
Arguments q_closed {W}.
Arguments q_running {W}.
Arguments q_done {W}.

Definition queue_capacity : nat := 100.

Definition new_queue {W} : responseBodyQueue W := mkQueue [] false None false.

(** Where a stream is in [HandleResponseBody]. *)
Inductive Position (W : Type) :=
  | Idle
  | Creating (work : responseBodyWork W)
  | Sending (q : nat) (work : responseBodyWork W)
  | Closing (q : nat) (work : responseBodyWork W)
  | Waiting (q : nat) (work : responseBodyWork W)
  | Final (work : responseBodyWork W)
  | Panicked.
Arguments Idle {W}.
Arguments Creating {W}.
Arguments Sending {W}.
Arguments Closing {W}.
Arguments Waiting {W}.
Arguments Final {W}.
Arguments Panicked {W}.

(** A stream: its request id, the calls that have returned and those still to be made. *)
Record Thread (W : Type) := mkThread {
  th_requestId : string;
  th_at : Position W;
  th_made : list (W * bool);
  th_todo : list (W * bool)
}.
Arguments mkThread {W}.
Arguments th_requestId {W}.
Arguments th_at {W}.
Arguments th_made {W}.
Arguments th_todo {W}.

(** The table, the channels, the streams, and the chunks on which the plugins have run. *)
Record Queues (W : Type) := mkQueues {
  qs_table : gmap string nat;
  qs_queues : gmap nat (responseBodyQueue W);
  qs_threads : gmap nat (Thread W);
  qs_log : list (responseBodyWork W)
}.
Arguments mkQueues {W}.
Arguments qs_table {W}.
Arguments qs_queues {W}.
Arguments qs_threads {W}.
Arguments qs_log {W}.

Section queues.
Context {W : Type}.
Implicit Types (s : Queues W) (t : Thread W) (c : responseBodyQueue W) (w : responseBodyWork W).

Definition moved (t : Thread W) (p : Position W) : Thread W := mkThread (th_requestId t) p (th_made t) (th_todo t).

(** The call that is being made returns. *)
Definition returned (t : Thread W) (w : responseBodyWork W) : Thread W :=
  mkThread (th_requestId t) Idle (th_made t ++ [(wk_response w, wk_endOfStream w)]) (th_todo t).

(** *** The stream *)

(** One step of stream [i]; [fresh] is the queue it makes if it makes one. [None]: it waits,
    or has nothing to do. *)
Definition stream_step (i fresh : nat) (t : Thread W) (s : Queues W) : option (Queues W) :=
  let put t' s' := mkQueues (qs_table s') (qs_queues s') (<[i := t']> (qs_threads s')) (qs_log s') in
  match th_at t with
  | Idle =>
      match th_todo t with
      | [] => None
      | (response, endOfStream) :: todo =>
          let work := mkWork i response endOfStream in
          let t := mkThread (th_requestId t) Idle (th_made t) todo in
          if (endOfStream : bool) then
            match qs_table s !! th_requestId t with
            | Some q => Some (put (moved t (Closing q work))
                                (mkQueues (delete (th_requestId t) (qs_table s)) (qs_queues s) (qs_threads s) (qs_log s)))
            | None => Some (put (moved t (Final work)) s)
            end
          else
            match qs_table s !! th_requestId t with
            | Some q => Some (put (moved t (Sending q work)) s)
            | None => Some (put (moved t (Creating work)) s)
            end
      end
  | Creating work =>
      Some (put (moved t (Sending fresh work))
              (mkQueues (<[th_requestId t := fresh]> (qs_table s)) (<[fresh := new_queue]> (qs_queues s)) (qs_threads s) (qs_log s)))
  | Sending q work =>
      c ← qs_queues s !! q;
      if q_closed c then Some (put (moved t Panicked) s)
      else if bool_decide (length (q_ch c) < queue_capacity) then
        Some (put (returned t work)
                (mkQueues (qs_table s) (<[q := mkQueue (q_ch c ++ [work]) false (q_running c) (q_done c)]> (qs_queues s))
                   (qs_threads s) (qs_log s)))
      else None
  | Closing q work =>
      c ← qs_queues s !! q;
      if q_closed c then Some (put (moved t Panicked) s)
      else Some (put (moved t (Waiting q work))
                   (mkQueues (qs_table s) (<[q := mkQueue (q_ch c) true (q_running c) (q_done c)]> (qs_queues s))
                      (qs_threads s) (qs_log s)))
  | Waiting q work =>
      c ← qs_queues s !! q;
      if q_done c then Some (put (moved t (Final work)) s) else None
  | Final work => Some (put (returned t work) (mkQueues (qs_table s) (qs_queues s) (qs_threads s) (qs_log s ++ [work])))
  | Panicked => None
  end.

(** *** The goroutine: [processResponseBodyQueue] *)

Definition worker_step (q : nat) (c : responseBodyQueue W) (s : Queues W) : option (Queues W) :=
  let put c' log := mkQueues (qs_table s) (<[q := c']> (qs_queues s)) (qs_threads s) log in
  if q_done c then None
  else
    match q_running c, q_ch c with
    | Some work, ch => Some (put (mkQueue ch (q_closed c) None false) (qs_log s ++ [work]))
    | None, work :: ch => Some (put (mkQueue ch (q_closed c) (Some work) false) (qs_log s))
    | None, [] => if q_closed c then Some (put (mkQueue [] true None true) (qs_log s)) else None
    end.

Inductive queues_step : Queues W → Queues W → Prop :=
  | by_stream i fresh t s s' :
      qs_threads s !! i = Some t → qs_queues s !! fresh = None → stream_step i fresh t s = Some s' → queues_step s s'
  | by_worker q c s s' :
      qs_queues s !! q = Some c → worker_step q c s = Some s' → queues_step s s'.

(** Streams that are about to make their calls. *)
Definition start_queues (streams : list (string * list (W * bool))) : Queues W :=
  mkQueues ∅ ∅ (map_seq 0 ((λ p, mkThread p.1 Idle [] p.2) <$> streams)) [].

(** What the plugins have seen of a stream. *)
Definition seen (i : nat) (log : list (responseBodyWork W)) : list (W * bool) :=
  (λ w, (wk_response w, wk_endOfStream w)) <$> filter (λ w, wk_stream w = i) log.

Definition as_call (w : responseBodyWork W) : W * bool := (wk_response w, wk_endOfStream w).

(** The call that a stream is making. *)
Definition current (t : Thread W) : list (responseBodyWork W) :=
  match th_at t with
  | Creating w | Sending _ w | Closing _ w | Waiting _ w | Final w => [w]
  | Idle | Panicked => []
  end.

Definition program (t : Thread W) : list (W * bool) := th_made t ++ (as_call <$> current t) ++ th_todo t.

(** ** The invariant *)

(** The chunks that wait in a queue or are being processed. *)
Definition pending (c : responseBodyQueue W) : list (responseBodyWork W) := option_list (q_running c) ++ q_ch c.

(** The queue of a stream. *)
Definition active (s : Queues W) (t : Thread W) : option nat :=
  match th_at t with
  | Idle => qs_table s !! th_requestId t
  | Sending q _ | Closing q _ | Waiting q _ => Some q
  | Creating _ | Final _ | Panicked => None
  end.

(** The calls at the end of a response take another way. *)
Definition at_end (t : Thread W) : bool := match th_at t with Closing _ _ | Waiting _ _ | Final _ => true | _ => false end.

Definition waits (t : Thread W) : bool := match th_at t with Waiting _ _ => true | _ => false end.

(** What the plugins have yet to see of stream [i] is in its queue. *)
Record holds (s : Queues W) (i q : nat) (closed : bool) (made : list (W * bool)) (c : responseBodyQueue W) : Prop := mkHolds {
  ho_queue : qs_queues s !! q = Some c;
  ho_closed : q_closed c = closed;
  ho_done : q_done c = true → closed = true ∧ pending c = [];
  ho_stream : Forall (λ w, wk_stream w = i) (pending c);
  ho_made : seen i (qs_log s) ++ (as_call <$> pending c) = made
}.

Definition table_at (s : Queues W) (t : Thread W) : Prop :=
  match th_at t with
  | Idle => ∀ q, qs_table s !! th_requestId t = Some q → ∃ l r, th_made t = l ++ [(r, false)]
  | Sending q _ => qs_table s !! th_requestId t = Some q
  | _ => qs_table s !! th_requestId t = None
  end.

Record thread_ok (own : gmap nat nat) (s : Queues W) (i : nat) (t : Thread W) : Prop := mkThreadOk {
  to_safe : th_at t ≠ Panicked;
  to_current : Forall (λ w, wk_stream w = i ∧ wk_endOfStream w = at_end t) (current t);
  to_table : table_at s t;
  to_active : match active s t with
              | Some q => own !! q = Some i ∧ ∃ c, holds s i q (waits t) (th_made t) c
              | None => seen i (qs_log s) = th_made t
              end
}.

(** [own]: the stream that has made a queue. *)
Record queues_inv (programs : gmap nat (list (W * bool))) (own : gmap nat nat) (s : Queues W) : Prop := mkQueuesInv {
  qi_ids : ∀ i j t t', qs_threads s !! i = Some t → qs_threads s !! j = Some t' →
    th_requestId t = th_requestId t' → i = j;
  qi_programs : program <$> qs_threads s = programs;
  qi_own : ∀ q i, own !! q = Some i → is_Some (qs_queues s !! q);
  qi_threads : ∀ i t, qs_threads s !! i = Some t → thread_ok own s i t;
  qi_queues : ∀ q c, qs_queues s !! q = Some c → pending c = [] ∨
    ∃ i t, qs_threads s !! i = Some t ∧ active s t = Some q
}.

Lemma seen_app i l l' : seen i (l ++ l') = seen i l ++ seen i l'.
Proof. unfold seen. by rewrite filter_app, fmap_app. Qed.

Lemma seen_all i l : Forall (λ w, wk_stream w = i) l → seen i l = as_call <$> l.
Proof. induction 1 as [|w l Hw _ IH]; [done|]. unfold seen in *. rewrite filter_cons_True by done. cbn. by rewrite IH. Qed.

Lemma seen_none i j l : Forall (λ w, wk_stream w = j) l → j ≠ i → seen i l = [].
Proof.
  induction 1 as [|w l Hw _ IH]; intros Hne; [done|]. unfold seen in *. rewrite filter_cons_False by congruence. by apply IH.
Qed.

(** What other streams and goroutines do does not concern a stream. *)
Lemma thread_frame own own' s s' j t :
  qs_table s' !! th_requestId t = qs_table s !! th_requestId t →
  (∀ q, own !! q = Some j → own' !! q = Some j ∧ qs_queues s' !! q = qs_queues s !! q) →
  seen j (qs_log s') = seen j (qs_log s) →
  thread_ok own s j t → thread_ok own' s' j t ∧ active s' t = active s t.
Proof.
  intros Ht Hq Hl [H1 H2 H3 H4]. assert (active s' t = active s t) as Ha by (unfold active; by destruct (th_at t)).
  split; [|done]. split; [done|done| |].
  - unfold table_at in *. destruct (th_at t); by rewrite Ht.
  - rewrite Ha. destruct (active s t) as [q|]; [|by rewrite Hl]. destruct H4 as (Ho & c & [K1 K2 K3 K4 K5]).
    destruct (Hq q Ho) as [Ho' Hq']. split; [done|]. exists c. split; rewrite ?Hl, ?Hq'; done.
Qed.

(** A step of stream [i]. *)
Lemma inv_stream programs own own' s i t t' table queues log :
  queues_inv programs own s → qs_threads s !! i = Some t →
  let s' := mkQueues table queues (<[i := t']> (qs_threads s)) log in
  th_requestId t' = th_requestId t → program t' = program t →
  (∀ k, k ≠ th_requestId t → table !! k = qs_table s !! k) →
  (∀ q j, own !! q = Some j → own' !! q = Some j) →
  (∀ q j, own !! q = Some j → j ≠ i → queues !! q = qs_queues s !! q) →
  (∀ j, j ≠ i → seen j log = seen j (qs_log s)) →
  (∀ q j, own' !! q = Some j → is_Some (queues !! q)) →
  thread_ok own' s' i t' →
  (∀ q c, queues !! q = Some c → pending c = [] ∨ active s' t' = Some q ∨ qs_queues s !! q = Some c ∧ own !! q ≠ Some i) →
  queues_inv programs own' s'.
Proof.
  intros [I1 I2 I3 I4 I5] Hi s' Hid Hprog Htab Hown Hqus Hlog Hdom Hok Hq.
  assert (∀ j tj, j ≠ i → qs_threads s !! j = Some tj → thread_ok own' s' j tj ∧ active s' tj = active s tj) as Hframe.
  { intros j tj Hne Hj. apply (thread_frame own); [|naive_solver|by apply Hlog|by apply I4].
    apply Htab. intros Heq. by apply Hne, (I1 j i tj t). }
  split.
  - intros j k tj tk Hj Hk. simpl in *. rewrite lookup_insert_Some in Hj, Hk.
    destruct Hj as [[<- <-]|[? Hj]], Hk as [[<- <-]|[? Hk]]; [done| | |by eapply I1]; rewrite Hid; intros E.
    + by apply (I1 i k t tk).
    + by apply (I1 j i tj t).
  - simpl. rewrite fmap_insert, Hprog, I2. apply insert_id. rewrite <- I2, lookup_fmap, Hi. done.
  - done.
  - intros j tj Hj. simpl in Hj. rewrite lookup_insert_Some in Hj. destruct Hj as [[<- <-]|[Hne Hj]]; [done|].
    by apply Hframe.
  - intros q c Hc. destruct (Hq q c Hc) as [?|[?|[Hold Hno]]]; [by left| |].
    { right. exists i, t'. split; [apply lookup_insert_eq|done]. }
    destruct (I5 q c Hold) as [?|(j & tj & Hj & Ha)]; [by left|right].
    assert (j ≠ i) as Hne.
    { intros ->. pose proof (to_active _ _ _ _ (I4 i tj Hj)) as H. rewrite Ha in H. by destruct H. }
    exists j, tj. split; [by apply lookup_insert_Some; right|]. by rewrite (proj2 (Hframe j tj Hne Hj)).
Qed.

Lemma own_queue programs own s i t q c : queues_inv programs own s → qs_threads s !! i = Some t →
  qs_queues s !! q = Some c → own !! q = Some i → pending c = [] ∨ active s t = Some q.
Proof.
  intros Hinv Hi Hc Ho. destruct (qi_queues _ _ _ Hinv q c Hc) as [?|(j & tj & Hj & Hjq)]; [by left|right].
  pose proof (to_active _ _ _ _ (qi_threads _ _ _ Hinv j tj Hj)) as H. rewrite Hjq in H. destruct H as [H _].
  rewrite H in Ho. injection Ho as ->. rewrite Hi in Hj. by injection Hj as <-.
Qed.

(** Steps that leave the queues and the log alone. *)
Lemma inv_moves programs own s i t t' table :
  queues_inv programs own s → qs_threads s !! i = Some t →
  let s' := mkQueues table (qs_queues s) (<[i := t']> (qs_threads s)) (qs_log s) in
  th_requestId t' = th_requestId t → program t' = program t →
  (∀ k, k ≠ th_requestId t → table !! k = qs_table s !! k) →
  thread_ok own s' i t' → (∀ q c, active s t = Some q → qs_queues s !! q = Some c → active s' t' = Some q ∨ pending c = []) →
  queues_inv programs own s'.
Proof.
  intros Hinv Hi s' Hid Hprog Htab Hok Ha. eapply inv_stream; try done.
  - by apply (qi_own _ _ _ Hinv).
  - intros q c Hc. destruct (decide (own !! q = Some i)) as [Ho|]; [|by right; right].
    destruct (own_queue _ _ _ _ _ _ _ Hinv Hi Hc Ho) as [?|Hq]; [by left|].
    destruct (Ha q c Hq Hc); [by right; left|by left].
Qed.

Lemma idle_step programs own s i fresh t s' :
  queues_inv programs own s → qs_threads s !! i = Some t → th_at t = Idle →
  stream_step i fresh t s = Some s' → queues_inv programs own s'.
Proof.
  intros Hinv Hi Hat. pose proof (qi_threads _ _ _ Hinv i t Hi) as [_ _ Htab Hact].
  unfold stream_step, table_at, active, waits in *. rewrite Hat in *.
  destruct (th_todo t) as [|[r e] todo] eqn:Htodo; [done|]. simpl th_requestId.
  destruct e, (qs_table s !! th_requestId t) as [q|] eqn:Hq; intros [= <-].
  all: eapply inv_moves; [exact Hinv|exact Hi|done|unfold program, current; rewrite Hat, Htodo; done| | |].
  all: try done.
  - intros k Hk. apply lookup_delete_ne. congruence.
  - split; [done|by constructor|apply lookup_delete_eq|]. simpl. destruct Hact as (Ho & c & [? ? ? ? ?]). split; [done|].
    exists c. by split.
  - intros q' c Ha _. left. unfold active in Ha. rewrite Hat, Hq in Ha. by injection Ha as <-.
  - split; [done|by constructor|done|done].
  - intros q' c Ha _. unfold active in Ha. rewrite Hat, Hq in Ha. done.
  - split; [done|by constructor|done|]. simpl. destruct Hact as (Ho & c & [? ? ? ? ?]). split; [done|]. exists c. by split.
  - intros q' c Ha _. left. unfold active in Ha. rewrite Hat, Hq in Ha. by injection Ha as <-.
  - split; [done|by constructor|done|done].
  - intros q' c Ha _. unfold active in Ha. rewrite Hat, Hq in Ha. done.
Qed.

Lemma creating_step programs own s i fresh t w s' :
  queues_inv programs own s → qs_threads s !! i = Some t → qs_queues s !! fresh = None → th_at t = Creating w →
  stream_step i fresh t s = Some s' → queues_inv programs (<[fresh := i]> own) s'.
Proof.
  intros Hinv Hi Hfresh Hat. pose proof (qi_threads _ _ _ Hinv i t Hi) as [_ Hcur _ Hact].
  unfold stream_step, active, current, at_end in *. rewrite Hat in *. intros [= <-].
  assert (own !! fresh = None) as Hnone.
  { destruct (own !! fresh) as [j|] eqn:Ho; [|done]. destruct (qi_own _ _ _ Hinv fresh j Ho). congruence. }
  eapply inv_stream; [exact Hinv|exact Hi|done|by unfold program, current; rewrite Hat|..]; simpl.
  - intros k Hk. by apply lookup_insert_ne.
  - intros q j Hq. rewrite lookup_insert_ne; [done|congruence].
  - intros q j Hq _. rewrite lookup_insert_ne; [done|congruence].
  - done.
  - intros q j [[<- <-]|[Hne Hq]]%lookup_insert_Some; [by rewrite lookup_insert_eq|].
    rewrite lookup_insert_ne by done. by eapply (qi_own _ _ _ Hinv).
  - split; [done|done|apply lookup_insert_eq|]. simpl. split; [apply lookup_insert_eq|]. exists new_queue.
    split; [apply lookup_insert_eq|done|done|constructor|]. simpl. by rewrite app_nil_r.
  - intros q c [[<- <-]|[Hne Hq]]%lookup_insert_Some; [by left|].
    destruct (decide (own !! q = Some i)) as [Ho|]; [|by right; right].
    destruct (own_queue _ _ _ _ _ _ _ Hinv Hi Hq Ho) as [?|Ha]; [by left|]. unfold active in Ha. by rewrite Hat in Ha.
Qed.

(** Steps of a stream on its queue. *)
Lemma own_queue_step programs own s i t t' q c c' : queues_inv programs own s → qs_threads s !! i = Some t →
  active s t = Some q → qs_queues s !! q = Some c →
  let s' := mkQueues (qs_table s) (<[q := c']> (qs_queues s)) (<[i := t']> (qs_threads s)) (qs_log s) in
  th_requestId t' = th_requestId t → program t' = program t → active s' t' = Some q →
  thread_ok own s' i t' → queues_inv programs own s'.
Proof.
  intros Hinv Hi Ha Hc s' Hid Hprog Ha' Hok.
  pose proof (to_active _ _ _ _ (qi_threads _ _ _ Hinv i t Hi)) as H. rewrite Ha in H. destruct H as [Hown _].
  eapply inv_stream; [exact Hinv|exact Hi|done..| | | |exact Hok|]; simpl.
  - intros q' j Hq' Hne. apply lookup_insert_ne. congruence.
  - done.
  - intros q' j Hq'. destruct (decide (q' = q)) as [->|]; [by rewrite lookup_insert_eq|].
    rewrite lookup_insert_ne by done. by eapply (qi_own _ _ _ Hinv).
  - intros q' c1 [[<- <-]|[Hne Hq]]%lookup_insert_Some; [by right; left|].
    destruct (decide (own !! q' = Some i)) as [Ho|]; [|by right; right].
    destruct (own_queue _ _ _ _ _ _ _ Hinv Hi Hq Ho); [by left|congruence].
Qed.

Lemma sending_step programs own s i fresh t q w s' :
  queues_inv programs own s → qs_threads s !! i = Some t → th_at t = Sending q w →
  stream_step i fresh t s = Some s' → queues_inv programs own s'.
Proof.
  intros Hinv Hi Hat. pose proof (qi_threads _ _ _ Hinv i t Hi) as [_ Hcur Htab Hact].
  assert (active s t = Some q) as Ha by (unfold active; by rewrite Hat).
  rewrite Ha in Hact. unfold stream_step, current, table_at, waits, at_end in *. rewrite Hat in *.
  destruct Hact as (Ho & c & [Hc Hcl Hd Hst Hm]). rewrite Hc. simpl. rewrite Hcl.
  case_bool_decide as Hlen; [|done]. intros [= <-].
  eapply own_queue_step; [exact Hinv|exact Hi|exact Ha|exact Hc|done| |done|].
  - unfold program, current. rewrite Hat. simpl. by rewrite <- app_assoc.
  - apply Forall_singleton in Hcur as [Hws Hwe]. split; [done|constructor| |].
    + intros q' _. exists (th_made t), (wk_response w). simpl. by rewrite Hwe.
    + unfold active. simpl. rewrite Htab. split; [done|]. eexists. split; [apply lookup_insert_eq|done| | |].
      * intros H. by destruct (Hd H).
      * unfold pending in *. simpl. rewrite app_assoc. apply Forall_app. split; [done|by constructor].
      * unfold pending in *. simpl. by rewrite app_assoc, fmap_app, app_assoc, Hm.
Qed.

Lemma closing_step programs own s i fresh t q w s' :
  queues_inv programs own s → qs_threads s !! i = Some t → th_at t = Closing q w →
  stream_step i fresh t s = Some s' → queues_inv programs own s'.
Proof.
  intros Hinv Hi Hat. pose proof (qi_threads _ _ _ Hinv i t Hi) as [_ Hcur Htab Hact].
  assert (active s t = Some q) as Ha by (unfold active; by rewrite Hat).
  rewrite Ha in Hact. unfold stream_step, current, table_at, waits, at_end in *. rewrite Hat in *.
  destruct Hact as (Ho & c & [Hc Hcl Hd Hst Hm]). rewrite Hc. simpl. rewrite Hcl. intros [= <-].
  eapply own_queue_step; [exact Hinv|exact Hi|exact Ha|exact Hc|done|by unfold program, current; rewrite Hat|done|].
  split; [done|done|done|]. simpl. split; [done|]. eexists. split; [apply lookup_insert_eq|done| |done|done].
  intros H. by destruct (Hd H).
Qed.

Lemma waiting_step programs own s i fresh t q w s' :
  queues_inv programs own s → qs_threads s !! i = Some t → th_at t = Waiting q w →
  stream_step i fresh t s = Some s' → queues_inv programs own s'.
Proof.
  intros Hinv Hi Hat. pose proof (qi_threads _ _ _ Hinv i t Hi) as [_ Hcur Htab Hact].
  assert (active s t = Some q) as Ha by (unfold active; by rewrite Hat).
  rewrite Ha in Hact. unfold stream_step, current, table_at, waits, at_end in *. rewrite Hat in *.
  destruct Hact as (Ho & c & [Hc Hcl Hd Hst Hm]). rewrite Hc. simpl.
  destruct (q_done c) eqn:Hdone; [|done]. intros [= <-]. destruct (Hd eq_refl) as [_ Hp].
  eapply inv_moves; [exact Hinv|exact Hi|done|by unfold program, current; rewrite Hat|done| |].
  - split; [done|done|done|]. simpl. rewrite Hp in Hm. by rewrite app_nil_r in Hm.
  - intros q' c' Hq' Hc'. rewrite Ha in Hq'. injection Hq' as <-. rewrite Hc in Hc'. injection Hc' as <-. by right.
Qed.

Lemma final_step programs own s i fresh t w s' :
  queues_inv programs own s → qs_threads s !! i = Some t → th_at t = Final w →
  stream_step i fresh t s = Some s' → queues_inv programs own s'.
Proof.
  intros Hinv Hi Hat. pose proof (qi_threads _ _ _ Hinv i t Hi) as [_ Hcur Htab Hact].
  assert (active s t = None) as Ha by (unfold active; by rewrite Hat).
  rewrite Ha in Hact. unfold stream_step, current, table_at, at_end in *. rewrite Hat in *. intros [= <-].
  apply Forall_singleton in Hcur as [Hws Hwe].
  eapply inv_stream; [exact Hinv|exact Hi|done| |done..| | | |]; simpl.
  - unfold program, current. rewrite Hat. simpl. by rewrite <- app_assoc.
  - intros j Hj. rewrite seen_app, (seen_none j i [w]), app_nil_r; [done|by constructor|done].
  - by apply (qi_own _ _ _ Hinv).
  - split; [done|constructor| |].
    + intros q. simpl. by rewrite Htab.
    + unfold active. simpl. rewrite Htab. rewrite seen_app, (seen_all i [w]), Hact; [done|by constructor].
  - intros q c Hc. destruct (decide (own !! q = Some i)) as [Ho|]; [|by right; right].
    destruct (own_queue _ _ _ _ _ _ _ Hinv Hi Hc Ho) as [?|?]; [by left|congruence].
Qed.

(** A step of the goroutine of a queue: it runs the plugins on [ran]. *)
Lemma inv_worker programs own s q c c' (ran : list (responseBodyWork W)) :
  queues_inv programs own s → qs_queues s !! q = Some c →
  ran ++ pending c' = pending c → q_closed c' = q_closed c → (q_done c' = true → q_closed c = true ∧ pending c' = []) →
  queues_inv programs own (mkQueues (qs_table s) (<[q := c']> (qs_queues s)) (qs_threads s) (qs_log s ++ ran)).
Proof.
  intros Hinv Hc Hran Hcl Hd. set (s' := mkQueues _ _ _ _). assert (∀ t, active s' t = active s t) as Hact by done.
  assert (∀ i t, qs_threads s !! i = Some t → active s t ≠ Some q → seen i ran = []) as Hother.
  { intros i t Hi Hne. destruct (qi_queues _ _ _ Hinv q c Hc) as [Hp|(j & tj & Hj & Hjq)].
    { rewrite Hp in Hran. by apply app_eq_nil in Hran as [-> _]. }
    pose proof (to_active _ _ _ _ (qi_threads _ _ _ Hinv j tj Hj)) as H. rewrite Hjq in H.
    destruct H as (_ & c1 & [K1 _ _ K4 _]). rewrite Hc in K1. injection K1 as <-.
    rewrite <- Hran in K4. apply Forall_app in K4 as [K4 _]. assert (j ≠ i) as Hij by (intros ->; congruence).
    by apply (seen_none _ j). }
  destruct Hinv as [I1 I2 I3 I4 I5]. split; [done|done| | |].
  - intros q' i Hq'. simpl. destruct (decide (q' = q)) as [->|]; [by rewrite lookup_insert_eq|].
    rewrite lookup_insert_ne by done. by eapply I3.
  - intros i t Hi. destruct (I4 i t Hi) as [H1 H2 H3 H4]. split; [done|done|done|]. rewrite Hact.
    destruct (decide (active s t = Some q)) as [Ha|Ha].
    + rewrite Ha in *. destruct H4 as (Ho & c1 & [K1 K2 K3 K4 K5]). rewrite Hc in K1. injection K1 as <-.
      split; [done|]. exists c'. rewrite <- Hran in K4, K5. apply Forall_app in K4 as [K4 K4'].
      split; [apply lookup_insert_eq|congruence| |done|].
      * intros H. destruct (Hd H). by rewrite <- K2.
      * simpl. rewrite seen_app, <- app_assoc, (seen_all _ ran) by done. by rewrite fmap_app in K5.
    + simpl. pose proof (Hother i t Hi Ha) as Hnone. rewrite seen_app, Hnone, app_nil_r. destruct (active s t) as [q'|]; [|done].
      destruct H4 as (Ho & c1 & [K1 K2 K3 K4 K5]). split; [done|]. exists c1. split; [|done..|].
      * simpl. rewrite lookup_insert_ne; [done|congruence].
      * simpl. by rewrite seen_app, Hnone, app_nil_r.
  - intros q' c1 Hq. subst s'. simpl in Hq. apply lookup_insert_Some in Hq as [[<- <-]|[Hne Hq]]; [|by apply I5].
    destruct (I5 q c Hc) as [Hp|?]; [left|by right]. rewrite Hp in Hran. by apply app_eq_nil in Hran as [_ ->].
Qed.

Lemma worker_inv programs own s q c s' : queues_inv programs own s → qs_queues s !! q = Some c →
  worker_step q c s = Some s' → queues_inv programs own s'.
Proof.
  intros Hinv Hc. unfold worker_step. destruct (q_done c); [done|].
  destruct c as [ch closed [w|] done]; simpl; [|destruct ch as [|w ch]]; [intros [= <-]|destruct closed; [intros [= <-]|by intros]|intros [= <-]].
  - by apply (inv_worker _ _ _ q (mkQueue ch closed (Some w) done) (mkQueue ch closed None false) [w]).
  - rewrite <- (app_nil_r (qs_log s)). by apply (inv_worker _ _ _ q (mkQueue [] true None done) (mkQueue [] true None true) []).
  - rewrite <- (app_nil_r (qs_log s)).
    by apply (inv_worker _ _ _ q (mkQueue (w :: ch) closed None done) (mkQueue ch closed (Some w) false) []).
Qed.

Lemma step_inv programs own s s' : queues_inv programs own s → queues_step s s' → ∃ own', queues_inv programs own' s'.
Proof.
  intros Hinv Hstep. destruct Hstep as [i fresh t s s' Hi Hf Hs|q c s s' Hc Hs]; [|exists own; by eapply worker_inv].
  destruct (th_at t) eqn:Hat.
  - exists own. by eapply idle_step.
  - exists (<[fresh := i]> own). by eapply creating_step.
  - exists own. by eapply sending_step.
  - exists own. by eapply closing_step.
  - exists own. by eapply waiting_step.
  - exists own. by eapply final_step.
  - unfold stream_step in Hs. by rewrite Hat in Hs.
Qed.

Lemma queues_reachable_inv programs own s s' : rtc queues_step s s' → queues_inv programs own s →
  ∃ own', queues_inv programs own' s'.
Proof.
  intros Hr. revert own. induction Hr as [s|s s1 s' Hs _ IH]; intros own Hinv; [by exists own|].
  destruct (step_inv _ _ _ _ Hinv Hs) as [own' Hinv']. by eapply IH.
Qed.

Definition programs_of (streams : list (string * list (W * bool))) : gmap nat (list (W * bool)) := map_seq 0 streams.*2.

Lemma start_inv streams : NoDup streams.*1 → queues_inv (programs_of streams) ∅ (start_queues streams).
Proof.
  intros Hnd. unfold start_queues. split; simpl.
  - intros i j t t' Hi Hj Heq. apply lookup_map_seq_Some in Hi as [_ Hi], Hj as [_ Hj].
    rewrite Nat.sub_0_r in Hi, Hj. rewrite list_lookup_fmap in Hi, Hj.
    destruct (streams !! i) as [p|] eqn:Ep, (streams !! j) as [p'|] eqn:Ep'; try done.
    injection Hi as <-. injection Hj as <-. simpl in Heq.
    apply (NoDup_lookup streams.*1 i j p.1); [done| |]; rewrite list_lookup_fmap, ?Ep, ?Ep'; [done|]. simpl. by rewrite Heq.
  - rewrite fmap_map_seq. unfold programs_of. f_equal. rewrite <- list_fmap_compose. by apply list_fmap_ext.
  - done.
  - intros i t Hi. apply lookup_map_seq_Some in Hi as [_ Hi]. rewrite list_lookup_fmap_Some in Hi.
    destruct Hi as (p & -> & _). by split.
  - done.
Qed.

(** ** No stream waits forever *)

Definition position_rank (p : Position W) : nat :=
  match p with
  | Idle | Panicked => 0
  | Final _ => 1
  | Waiting _ _ => 2
  | Closing _ _ => 3
  | Sending _ _ => 5
  | Creating _ => 9
  end.

Definition thread_work (t : Thread W) : Z := (10 * Z.of_nat (length (th_todo t)) + Z.of_nat (position_rank (th_at t)))%Z.
Definition queue_work (c : responseBodyQueue W) : Z :=
  (2 * Z.of_nat (length (q_ch c)) + (if q_running c is Some _ then 1 else 0) + (if q_done c then 0 else 1))%Z.

(** A bound on the number of steps that are left. *)
Definition work_left (s : Queues W) : Z :=
  (sum_map thread_work (qs_threads s) + sum_map queue_work (qs_queues s))%Z.

Lemma work_left_nonneg s : (0 ≤ work_left s)%Z.
Proof. 
  unfold work_left. apply Z.add_nonneg_nonneg; apply sum_map_nonneg; intros x; unfold thread_work, queue_work; [lia|].
  destruct (q_running x), (q_done x); lia.
Qed.

Lemma worker_decreases q c s s' : qs_queues s !! q = Some c → worker_step q c s = Some s' → (work_left s' < work_left s)%Z.
Proof.
  intros Hc Hs. assert (∃ c', s' = mkQueues (qs_table s) (<[q := c']> (qs_queues s)) (qs_threads s) (qs_log s') ∧
    (queue_work c' < queue_work c)%Z) as (c' & -> & Hlt).
  { unfold worker_step, queue_work in *. destruct (q_done c); [done|].
    destruct (q_running c), (q_ch c), (q_closed c); simplify_eq/=; eexists; (split; [done|simpl; lia]). }
  unfold work_left. simpl. pose proof (sum_map_update queue_work _ _ c' _ Hc). lia.
Qed.

Lemma stream_decreases i fresh t s s' : qs_threads s !! i = Some t → qs_queues s !! fresh = None →
  stream_step i fresh t s = Some s' → (work_left s' < work_left s)%Z.
Proof.
  intros Hi Hf. unfold stream_step.
  assert (∀ t' table log, (thread_work t' < thread_work t)%Z →
    (work_left (mkQueues table (qs_queues s) (<[i := t']> (qs_threads s)) log) < work_left s)%Z) as Hmoves.
  { intros t' table log Hlt. unfold work_left. simpl. pose proof (sum_map_update thread_work _ _ t' _ Hi). lia. }
  assert (∀ t' q c c' table log, qs_queues s !! q = Some c → (thread_work t' + queue_work c' < thread_work t + queue_work c)%Z →
    (work_left (mkQueues table (<[q := c']> (qs_queues s)) (<[i := t']> (qs_threads s)) log) < work_left s)%Z) as Hqueue.
  { intros t' q c c' table log Hc Hlt. unfold work_left. simpl. pose proof (sum_map_update thread_work _ _ t' _ Hi).
    pose proof (sum_map_update queue_work _ _ c' _ Hc). lia. }
  unfold thread_work, queue_work in Hmoves, Hqueue.
  destruct (th_at t) as [|w|q w|q w|q w|w|] eqn:Hat; [| |destruct (qs_queues s !! q) as [c|] eqn:Hc; [|by intros ?]..| |done]; simpl.
  - destruct (th_todo t) as [|[r []] todo] eqn:Htodo; [done| |]; destruct (qs_table s !! th_requestId t);
      intros [= <-]; apply Hmoves; simpl; lia.
  - intros [= <-]. unfold work_left. simpl. rewrite (sum_map_insert queue_work) by done.
    pose proof (sum_map_update thread_work _ _ (moved t (Sending fresh w)) _ Hi) as H.
    assert (thread_work (moved t (Sending fresh w)) + 4 = thread_work t)%Z by (unfold thread_work; rewrite Hat; simpl; lia).
    change (queue_work new_queue) with 1%Z. lia.
  - destruct (q_closed c); [intros [= <-]; apply Hmoves; simpl; lia|]. case_bool_decide; [|done].
    intros [= <-]. apply (Hqueue _ _ c); [done|]. simpl. rewrite length_app. simpl. lia.
  - destruct (q_closed c); intros [= <-]; [apply Hmoves; simpl; lia|]. apply (Hqueue _ _ c); [done|]. simpl. lia.
  - destruct (q_done c); [|done]. intros [= <-]. apply Hmoves. simpl. lia.
  - intros [= <-]. apply Hmoves. simpl. lia.
Qed.

Lemma steps_bounded n s s' : nsteps queues_step n s s' → (Z.of_nat n + work_left s' ≤ work_left s)%Z.
Proof.
  induction 1 as [s|n s s1 s' Hs _ IH]; [lia|].
  enough (work_left s1 < work_left s)%Z by lia.
  destruct Hs; [by eapply stream_decreases|by eapply worker_decreases].
Qed.

(** When nothing moves, every stream has made its calls and its queue is empty. *)
Lemma stuck_complete programs own s : queues_inv programs own s → (∀ s', ¬ queues_step s s') →
  ∀ i t, qs_threads s !! i = Some t → seen i (qs_log s) = program t.
Proof.
  intros Hinv Hstuck i t Hi. destruct (qi_threads _ _ _ Hinv i t Hi) as [Hsafe _ Htab Hact].
  assert (∀ fresh, qs_queues s !! fresh = None → stream_step i fresh t s = None) as Hst.
  { intros fresh Hf. destruct (stream_step i fresh t s) eqn:E; [|done]. exfalso. by eapply Hstuck, by_stream. }
  assert (∀ q c, qs_queues s !! q = Some c → worker_step q c s = None) as Hwk.
  { intros q c Hc. destruct (worker_step q c s) eqn:E; [|done]. exfalso. by eapply Hstuck, by_worker. }
  specialize (Hst (fresh (dom (qs_queues s))) ltac:(apply not_elem_of_dom, is_fresh)).
  assert (∀ q c, qs_queues s !! q = Some c → q_done c = true ∨ pending c = [] ∧ q_closed c = false) as Hidle.
  { intros q c Hc. specialize (Hwk q c Hc). unfold worker_step, pending in *. destruct (q_done c); [by left|right].
    by destruct (q_running c), (q_ch c), (q_closed c). }
  unfold stream_step, active, waits, program, current in *.
  destruct (th_at t) as [|w|q w|q w|q w|w|] eqn:Hat; try done.
  - destruct (th_todo t) as [|[r []] todo] eqn:Htodo; [|simpl in Hst; by destruct (qs_table s !! th_requestId t)..].
    simpl. rewrite app_nil_r. destruct (qs_table s !! th_requestId t) as [q|]; [|done].
    destruct Hact as (_ & c & [Hc Hcl Hd _ <-]).
    destruct (Hidle q c Hc) as [Hdone|[-> _]]; [by destruct (Hd Hdone)|]. by rewrite app_nil_r.
  - destruct Hact as (_ & c & [Hc Hcl Hd _ _]). rewrite Hc in Hst. simpl in Hst. rewrite Hcl in Hst.
    case_bool_decide as Hlen; [done|]. exfalso. apply Hlen. unfold queue_capacity.
    destruct (Hidle q c Hc) as [Hdone|[Hp _]]; [by destruct (Hd Hdone)|].
    unfold pending in Hp. apply app_eq_nil in Hp as [_ ->]. simpl. lia.
  - destruct Hact as (_ & c & [Hc Hcl _ _ _]). rewrite Hc in Hst. simpl in Hst. by rewrite Hcl in Hst.
  - destruct Hact as (_ & c & [Hc Hcl _ _ _]). rewrite Hc in Hst. simpl in Hst.
    destruct (Hidle q c Hc) as [Hdone|[_ Hop]]; [by rewrite Hdone in Hst|congruence].
Qed.
End queues.

Lemma reachable_queues {W} (streams : list (string * list (W * bool))) s :
  NoDup streams.*1 → rtc queues_step (start_queues streams) s → ∃ own, queues_inv (programs_of streams) own s.
Proof. intros Hnd Hr. eapply queues_reachable_inv; [exact Hr|by apply start_inv]. Qed.

Lemma program_of {W} (streams : list (string * list (W * bool))) own s i t :
  queues_inv (programs_of streams) own s → qs_threads s !! i = Some t → streams.*2 !! i = Some (program t).
Proof.
  intros Hinv Hi. assert (programs_of streams !! i = Some (program t)) as H.
  { rewrite <- (qi_programs _ _ _ Hinv), lookup_fmap, Hi. done. }
  apply lookup_map_seq_Some in H as [_ H]. by rewrite Nat.sub_0_r in H.
Qed.

(** What the plugins have seen is what has been put into the queue and left it. *)
Lemma seen_made {W} (own : gmap nat nat) (s : Queues W) i t : thread_ok own s i t →
  seen i (qs_log s) `prefix_of` th_made t ∧ (active s t = None → seen i (qs_log s) = th_made t).
Proof.
  intros [_ _ _ Ha]. destruct (active s t) as [q|]; [|by rewrite Ha].
  destruct Ha as (_ & c & [_ _ _ _ <-]). split; [by eexists|done].
Qed.

(** C13. The response plugins see the chunks of every request in order, and all of them before the
    end of its response is answered. Let any number of streams with request ids of their
    own call [HandleResponseBody] concurrently, and their goroutines and the streams be
    scheduled in any way. No stream panics (on a closed channel); what the plugins have
    seen of a stream is at any time an initial part of its chunks, in their order; and when
    the call for the end of its response has returned, they have seen everything up to it. *)
Theorem chunks_in_order {W : Type} (streams : list (string * list (W * bool))) (s : Queues W) (i : nat) (t : Thread W)
    (Hnd : NoDup streams.*1) (Hr : rtc queues_step (start_queues streams) s) (Hi : qs_threads s !! i = Some t) :
  th_at t ≠ Panicked ∧
  (∃ chunks, streams.*2 !! i = Some chunks ∧ seen i (qs_log s) `prefix_of` chunks) ∧
  (th_at t = Idle → ∀ l r, th_made t = l ++ [(r, true)] → seen i (qs_log s) = th_made t).
Proof.
  destruct (reachable_queues _ _ Hnd Hr) as [own Hinv]. pose proof (qi_threads _ _ _ Hinv i t Hi) as Hok.
  destruct (seen_made _ _ _ _ Hok) as [Hpre Hall]. split; [apply Hok|]. split.
  - exists (program t). split; [by eapply program_of|]. etrans; [exact Hpre|]. by eexists.
  - intros Hat l r Hm. apply Hall. unfold active. rewrite Hat.
    destruct (qs_table s !! th_requestId t) as [q|] eqn:Hq; [|done].
    pose proof (to_table _ _ _ _ Hok) as Htab. unfold table_at in Htab. rewrite Hat in Htab.
    destruct (Htab q Hq) as (l' & r' & Hm'). rewrite Hm in Hm'. by apply app_inj_tail in Hm' as [_ ?].
Qed.

(** The response plugins see every chunk. Under the same conditions there is no endless run
    and no deadlock: the number of steps that can follow a state is bounded, and when no
    step is possible every stream has made its calls, and the plugins have seen all their
    chunks in order, those included that were queued by streams that never ended. *)
Theorem chunks_all_seen {W : Type} (streams : list (string * list (W * bool))) (s : Queues W)
    (Hnd : NoDup streams.*1) (Hr : rtc queues_step (start_queues streams) s) :
  (∃ bound, ∀ n s', nsteps queues_step n s s' → n ≤ bound) ∧
  ((∀ s', ¬ queues_step s s') → ∀ i chunks, streams.*2 !! i = Some chunks → seen i (qs_log s) = chunks).
Proof.
  destruct (reachable_queues _ _ Hnd Hr) as [own Hinv]. split.
  - exists (Z.to_nat (work_left s)). intros n s' Hn. apply steps_bounded in Hn. pose proof (work_left_nonneg s'). lia.
  - intros Hstuck i chunks Hc. assert (programs_of streams !! i = Some chunks) as H.
    { unfold programs_of. apply lookup_map_seq_Some. split; [lia|]. by rewrite Nat.sub_0_r. }
    rewrite <- (qi_programs _ _ _ Hinv), lookup_fmap in H. destruct (qs_threads s !! i) as [t|] eqn:Hi; [|done].
    injection H as <-. by eapply stuck_complete.
Qed.

(** ** Runs *)

(** Who moves: a stream, which may make the given queue, or a goroutine. *)
Definition schedule_step {W} (m : nat * nat + nat) (s : Queues W) : option (Queues W) :=
  match m with
  | inl (i, fresh) => t ← qs_threads s !! i;
                      if qs_queues s !! fresh is Some _ then None else stream_step i fresh t s
  | inr q => c ← qs_queues s !! q; worker_step q c s
  end.

Definition run_queues {W} (moves : list (nat * nat + nat)) (s : Queues W) : option (Queues W) :=
  foldl (λ o m, o ≫= schedule_step m) (Some s) moves.

Lemma schedule_step_sound {W} m (s s' : Queues W) : schedule_step m s = Some s' → queues_step s s'.
Proof.
  destruct m as [[i fresh]|q]; simpl.
  - intros (t & Hi & Hs)%bind_Some. destruct (qs_queues s !! fresh) eqn:Hf; [done|]. by eapply by_stream.
  - intros (c & Hc & Hs)%bind_Some. by eapply by_worker.
Qed.

Lemma run_queues_sound {W} moves : ∀ (s s' : Queues W), run_queues moves s = Some s' → rtc queues_step s s'.
Proof.
  unfold run_queues. induction moves as [|m moves IH] using rev_ind; intros s s'; [by intros [= <-]|].
  rewrite foldl_app. simpl. intros (s1 & Hrun & Hs)%bind_Some. eapply rtc_r; [by apply IH|by eapply schedule_step_sound].
Qed.

(** Two streams; the goroutine of the first takes its chunks only when the channel is closed. *)
Definition two_streams : list (string * list (string * bool)) :=
  [("a"%string, [("a1"%string, false); ("a2"%string, false); ("a3"%string, true)]); ("b"%string, [("b1"%string, true)])].

Definition two_moves : list (nat * nat + nat) :=
  [inl (0, 0); inl (0, 0); inl (0, 1); inl (1, 1); inl (0, 1); inl (0, 1); inl (1, 1); inl (0, 1); inl (0, 1);
   inr 0; inr 0; inr 0; inr 0; inr 0; inl (0, 1); inl (0, 1)].

Definition two_run : Queues string := Eval vm_compute in default (start_queues two_streams) (run_queues two_moves (start_queues two_streams)).

Lemma two_reachable : rtc queues_step (start_queues two_streams) two_run.
Proof. apply (run_queues_sound two_moves). by vm_compute. Qed.

Lemma chunks_in_order_witness :
  qs_log two_run = [mkWork 1 "b1"%string true; mkWork 0 "a1"%string false; mkWork 0 "a2"%string false; mkWork 0 "a3"%string true] ∧
  ∃ t, qs_threads two_run !! 0 = Some t ∧ th_at t ≠ Panicked ∧ seen 0 (qs_log two_run) = th_made t.
Proof.
  split; [reflexivity|]. eexists. split; [reflexivity|].
  assert (NoDup two_streams.*1) as Hnd by (vm_compute; repeat constructor; set_solver).
  destruct (chunks_in_order two_streams two_run 0 _ Hnd two_reachable eq_refl) as (H1 & _ & H3). split; [exact H1|].
  exact (H3 eq_refl [("a1"%string, false); ("a2"%string, false)] "a3"%string eq_refl).
Defined.

Lemma chunks_all_seen_witness :
  ∃ bound, ∀ n s', nsteps queues_step n (start_queues two_streams) s' → n ≤ bound.
Proof.
  assert (NoDup two_streams.*1) as Hnd by (vm_compute; repeat constructor; set_solver).
  exact (proj1 (chunks_all_seen two_streams (start_queues two_streams) Hnd (rtc_refl _ _))).
Defined.

(** The ids of the requests come from their headers: two streams with the same id share a
    queue, and the end of one response closes the channel under the other stream. *)
Lemma shared_id_panics :
  ∃ s t, rtc queues_step (start_queues [("r"%string, [("a1"%string, false); ("a2"%string, false)]); ("r"%string, [("b1"%string, true)])]) s ∧
    qs_threads s !! 0 = Some t ∧ th_at t = Panicked.
Proof.
  do 2 eexists. split; [|split].
  - apply (run_queues_sound [inl (0, 0); inl (0, 0); inl (0, 1); inl (0, 1); inl (1, 1); inl (1, 1); inl (0, 1)]).
    vm_compute. reflexivity.
  - vm_compute. reflexivity.
  - reflexivity.
Qed.
