(* ===== verification/GoHeap.v ===== *)
(** * Heaps: Go's [container/heap]

    The eviction queue ([flowcontrol/eviction/queue.go]) and the queue of the running
    requests of an endpoint ([predictedlatency/running_request_tpot_slo_queue.go]) implement
    [heap.Interface] and use the operations of the standard library on it. [HeapInterface]
    is this interface and [HeapLaws] what its implementations promise: to work like an
    array. The operations are then those of a binary heap: they keep its order, remove the
    item they are asked to, and the root is least. *)

From stdpp Require Import prelude list gmap.
From Stdlib Require Import Lia.
From S2P Require Import Prelude Ordering ArrayHeap.

(** ** On lists *)

Section sift.
Context {A : Type} (less : A → A → bool).
Implicit Types (l : list A) (i j n : nat).

Fixpoint sift_up (fuel j : nat) l : list A :=
  match fuel with
  | O => l
  | S fuel' => let i := parent j in
      if bool_decide (i = j) || negb (ltAt less l j i) then l else sift_up fuel' i (swapl i j l)
  end.

(** The lesser child. *)
Definition least_child n i l : nat :=
  let j1 := 2 * i + 1 in
  if bool_decide (j1 + 1 < n) && ltAt less l (j1 + 1) j1 then j1 + 1 else j1.

(** With the index at which it ends. *)
Fixpoint sift_down (fuel n i : nat) l : nat * list A :=
  match fuel with
  | O => (i, l)
  | S fuel' =>
      if bool_decide (n ≤ 2 * i + 1) then (i, l)
      else
        let j := least_child n i l in
        if ltAt less l j i then sift_down fuel' n j (swapl i j l) else (i, l)
  end.

Definition sift n i l : list A :=
  let '(k, l') := sift_down n n i l in
  if bool_decide (i < k) then l' else sift_up n i l'.

(** The first [n] items are in the order of a heap. *)
Definition ordered_upto n l : Prop := ∀ j, 0 < j < n → ltAt less l j (parent j) = false.

(** In order except around [i]. *)
Definition ordered_around n i l : Prop :=
  (∀ j, 0 < j < n → j ≠ i → parent j ≠ i → ltAt less l j (parent j) = false) ∧
  (∀ j, 0 < j < n → 0 < i → parent j = i → ltAt less l j (parent i) = false).

Definition below_ok n i l : Prop := ∀ j, 0 < j < n → parent j = i → ltAt less l j i = false.

Context `{Hswo : !StrictWeakOrder less}.

Lemma ordered_upto_around n i l : n ≤ length l → ordered_upto n l → ordered_around n i l.
Proof using Hswo.
  intros Hn Ho. split; [intros j Hj _ _; by apply Ho|]. intros j Hj Hi <-.
  pose proof (parent_lt j). apply (ltAt_trans_false less l j (parent j)); [lia|by apply Ho|apply Ho; lia].
Qed.

Lemma ordered_around_upto n i l : ordered_around n i l → below_ok n i l →
  (0 < i < n → ltAt less l i (parent i) = false) → ordered_upto n l.
Proof using Type.
  intros [H1 _] Hb Hi j Hj. destruct (decide (j = i)) as [->|]; [by apply Hi|].
  destruct (decide (parent j = i)) as [<-|]; [by apply Hb|by apply H1].
Qed.

(** The root is least. *)
Lemma ordered_root_least n l j : n ≤ length l → ordered_upto n l → j < n → ltAt less l j 0 = false.
Proof using Hswo.
  intros Hn Ho. induction j as [j IH] using lt_wf_ind. intros Hj. destruct (decide (j = 0)) as [->|].
  - unfold ltAt. destruct (l !! 0); [apply swo_irrefl|done].
  - pose proof (parent_lt j). apply (ltAt_trans_false less l j (parent j)); [lia|apply Ho; lia|apply IH; lia].
Qed.

Lemma ltAt_self l i : ltAt less l i i = false.
Proof using Hswo. unfold ltAt. destruct (l !! i); [apply swo_irrefl|done]. Qed.

Lemma least_child_spec n i l : 2 * i + 1 < n → n ≤ length l → let j := least_child n i l in
  j < n ∧ parent j = i ∧ i < j ∧ ∀ k, 0 < k < n → parent k = i → ltAt less l k j = false.
Proof using Hswo.
  intros Hi Hn. assert (∀ k, 0 < k → parent k = i → k = 2 * i + 1 ∨ k = 2 * i + 2) as Hch.
  { intros k Hk <-. by apply parent_spec. }
  unfold least_child. destruct (bool_decide_reflect (2 * i + 1 + 1 < n)) as [H2|H2]; cbn [andb].
  - destruct (ltAt less l (2 * i + 1 + 1) (2 * i + 1)) eqn:Hlt; cbv zeta.
    + replace (2 * i + 1 + 1) with (2 * i + 2) in * by lia. split_and!; [lia|apply parent_right|lia|].
      intros k [Hk _] Hp. destruct (Hch k Hk Hp) as [-> | ->]; [by apply ltAt_asym|apply ltAt_self].
    + split_and!; [lia|apply parent_left|lia|].
      intros k [Hk _] Hp. destruct (Hch k Hk Hp) as [-> | ->]; [apply ltAt_self|].
      by replace (2 * i + 2) with (2 * i + 1 + 1) by lia.
  - cbv zeta. split_and!; [lia|apply parent_left|lia|].
    intros k Hk Hp. destruct (Hch k) as [-> | ->]; [lia|done|apply ltAt_self|lia].
Qed.

(** Swapping with the lesser child moves the disorder down. *)
Lemma swap_down n i l : 2 * i + 1 < n → n ≤ length l → let j := least_child n i l in
  ltAt less l j i = true → ordered_around n i l →
  let l1 := swapl i j l in
  ordered_around n j l1 ∧ ltAt less l1 j (parent j) = false ∧ (0 < i → ltAt less l1 i (parent i) = false).
Proof using Hswo.
  intros Hi Hn j Hlt [H1 H2]. destruct (least_child_spec n i l Hi Hn) as (Hj & Hp & Hij & Hleast). fold j in Hj, Hp, Hij, Hleast.
  assert (∀ x y, ltAt less (swapl i j l) x y = ltAt less l (tr i j x) (tr i j y)) as Hsw by (intros; apply ltAt_swapl; lia).
  assert (0 < i → ltAt less (swapl i j l) i (parent i) = false) as Hup.
  { intros H. pose proof (parent_lt i H). rewrite Hsw. simpl_tr. apply H2; lia. }
  cbv zeta. split_and!; [split| |done].
  - intros k Hk Hkj Hpk. destruct (decide (k = i)) as [->|Hki]; [apply Hup; lia|]. rewrite Hsw.
    destruct (decide (parent k = i)) as [Hpi|Hpi].
    + rewrite Hpi. simpl_tr. by apply Hleast.
    + rewrite !tr_other by done. by apply H1.
  - intros k Hk _ Hpk. pose proof (parent_lt k). rewrite Hsw, Hp. simpl_tr. rewrite <- Hpk. apply H1; lia.
  - rewrite Hsw, Hp. simpl_tr. by apply ltAt_asym.
Qed.

Lemma sift_down_range n fuel : ∀ i l, i < n → n ≤ length l → let '(k, l') := sift_down fuel n i l in
  i ≤ k < n ∧ length l' = length l ∧ l' ≡ₚ l ∧ ∀ m, n ≤ m → l' !! m = l !! m.
Proof using Hswo.
  induction fuel as [|fuel IH]; intros i l Hi Hn; simpl; [by split_and!|].
  case_bool_decide as Hle; [by split_and!|]. destruct (ltAt less l (least_child n i l) i) eqn:Hlt; [|by split_and!].
  destruct (least_child_spec n i l) as (Hj & Hp & Hij & _); [lia|done|]. set (j := least_child n i l) in *.
  specialize (IH j (swapl i j l) Hj ltac:(by rewrite length_swapl)). destruct (sift_down fuel n j (swapl i j l)) as [k l'].
  destruct IH as (Hk & Hlen & Hperm & Hrest). rewrite length_swapl in Hlen. split_and!; [lia|lia|done| |].
  - etrans; [exact Hperm|apply swapl_Permutation].
  - intros m Hm. rewrite Hrest by done. rewrite swapl_lookup by lia. by simpl_tr.
Qed.

Lemma sift_down_spec n fuel : ∀ i l, n - i ≤ fuel → i < n → n ≤ length l → ordered_around n i l →
  let '(k, l') := sift_down fuel n i l in
  (k = i → l' = l ∧ below_ok n i l) ∧ (i < k ∨ (0 < i → ltAt less l i (parent i) = false) → ordered_upto n l').
Proof using Hswo.
  induction fuel as [|fuel IH]; intros i l Hf Hi Hn Ho; [lia|]. cbn [sift_down].
  assert (below_ok n i l → (i = i → l = l ∧ below_ok n i l) ∧
    (i < i ∨ (0 < i → ltAt less l i (parent i) = false) → ordered_upto n l)) as Hstop.
  { intros Hb. split; [done|]. intros [?|He]; [lia|]. eapply ordered_around_upto; [done|done|]. intros [H _]. by apply He. }
  case_bool_decide as Hle.
  { apply Hstop. intros j Hj Hp. destruct (parent_spec j); lia. }
  destruct (least_child_spec n i l) as (Hj & Hp & Hij & Hleast); [lia|done|].
  destruct (ltAt less l (least_child n i l) i) eqn:Hlt.
  - pose proof (swap_down n i l ltac:(lia) Hn Hlt Ho) as (Ha & He & _). set (j := least_child n i l) in *.
    specialize (IH j (swapl i j l) ltac:(lia) Hj ltac:(by rewrite length_swapl) Ha).
    pose proof (sift_down_range n fuel j (swapl i j l) Hj ltac:(by rewrite length_swapl)) as Hr.
    destruct (sift_down fuel n j (swapl i j l)) as [k l']. destruct IH as [_ IH], Hr as [Hr _].
    split; [lia|]. intros _. apply IH. by right.
  - apply Hstop. intros k Hk Hpk. apply (ltAt_trans_false less l k (least_child n i l)); [lia|by apply Hleast|done].
Qed.

(** Swapping with the parent moves the disorder up. *)
Lemma swap_up n i l : 0 < i < n → n ≤ length l → ltAt less l i (parent i) = true →
  ordered_around n i l → below_ok n i l →
  let l1 := swapl (parent i) i l in ordered_around n (parent i) l1 ∧ below_ok n (parent i) l1.
Proof using Hswo.
  intros Hi Hn Hlt [H1 H2] Hb. pose proof (parent_lt i ltac:(lia)) as Hp. remember (parent i) as p eqn:Ep.
  assert (∀ x y, ltAt less (swapl p i l) x y = ltAt less l (tr p i x) (tr p i y)) as Hsw by (intros; apply ltAt_swapl; lia).
  assert (∀ k, 0 < k < n → k ≠ i → parent k = p → ltAt less l k p = false) as Hsib.
  { intros k Hk Hne Hpk. rewrite <- Hpk. apply H1; [done|done|lia]. }
  assert (0 < p → ltAt less l p (parent p) = false) as Hpp.
  { intros H. pose proof (parent_lt p H). apply H1; lia. }
  cbv zeta. split; [split|].
  - intros k Hk Hkp Hpk. rewrite Hsw. destruct (decide (parent k = i)) as [Hpi|Hpi].
    + pose proof (parent_lt k ltac:(lia)). rewrite Hpi. simpl_tr. by apply H2; [|lia|].
    + rewrite !tr_other by (done || congruence). apply H1; [done|congruence|done].
  - intros k Hk H Hpk. pose proof (parent_lt p H). pose proof (parent_lt k ltac:(lia)). rewrite Hsw.
    destruct (decide (k = i)) as [->|Hki]; simpl_tr; [by apply Hpp|].
    apply (ltAt_trans_false less l k p); [lia|by apply Hsib|by apply Hpp].
  - intros k Hk Hpk. pose proof (parent_lt k ltac:(lia)). rewrite Hsw.
    destruct (decide (k = i)) as [->|Hki]; simpl_tr; [by apply ltAt_asym|].
    apply (ltAt_trans_false less l k p); [lia|by apply Hsib|by apply ltAt_asym].
Qed.

Lemma sift_up_spec n fuel : ∀ i l, i < fuel → i < n → n ≤ length l → ordered_around n i l → below_ok n i l →
  ordered_upto n (sift_up fuel i l).
Proof using Hswo.
  induction fuel as [|fuel IH]; intros i l Hf Hi Hn Ho Hb; [lia|]. simpl.
  destruct (bool_decide_reflect (parent i = i)) as [Hp|Hp]; simpl orb.
  - apply (ordered_around_upto n i); [done|done|]. intros [H _]. pose proof (parent_lt i H). lia.
  - destruct (ltAt less l i (parent i)) eqn:Hlt; simpl negb; cbv iota.
    + assert (0 < i) as H by (destruct i; [done|lia]). pose proof (parent_lt i H).
      destruct (swap_up n i l) as [Ha Hb']; [lia|done..|]. apply IH; [lia|lia|by rewrite length_swapl|done|done].
    + by apply (ordered_around_upto n i).
Qed.

Lemma sift_up_range n fuel : ∀ i l, i < n → n ≤ length l →
  let l' := sift_up fuel i l in length l' = length l ∧ l' ≡ₚ l ∧ ∀ m, n ≤ m → l' !! m = l !! m.
Proof using Type.
  induction fuel as [|fuel IH]; intros i l Hi Hn; simpl; [done|].
  destruct (bool_decide_reflect (parent i = i)) as [Hp|Hp]; simpl; [done|].
  destruct (ltAt less l i (parent i)) eqn:Hlt; simpl; [|done].
  assert (0 < i) as H by (destruct i; [done|lia]). pose proof (parent_lt i H).
  destruct (IH (parent i) (swapl (parent i) i l)) as (H1 & H2 & H3); [lia|by rewrite length_swapl|].
  rewrite length_swapl in H1. split_and!; [done|etrans; [exact H2|apply swapl_Permutation]|].
  intros m Hm. rewrite H3 by done. rewrite swapl_lookup by lia. by simpl_tr.
Qed.

(** The order around an item is restored. *)
Lemma sift_spec n i l : i < n → n ≤ length l → ordered_around n i l →
  let l' := sift n i l in
  ordered_upto n l' ∧ length l' = length l ∧ l' ≡ₚ l ∧ ∀ m, n ≤ m → l' !! m = l !! m.
Proof using Hswo.
  intros Hi Hn Ho. unfold sift. pose proof (sift_down_spec n n i l ltac:(lia) Hi Hn Ho) as Hs.
  pose proof (sift_down_range n n i l Hi Hn) as Hr. destruct (sift_down n n i l) as [k l'].
  destruct Hr as (Hk & Hlen & Hperm & Hrest), Hs as [Hs1 Hs2]. case_bool_decide as Hik.
  - split_and!; [|done..]. apply Hs2. by left.
  - destruct (Hs1 ltac:(lia)) as [-> Hb]. split; [by apply sift_up_spec|by apply sift_up_range].
Qed.
End sift.

(** ** The interface *)

(** [heap.Interface]; [Pop] of an empty heap panics. *)
Class HeapInterface (H X : Type) := {
  hp_Len : H → nat;
  hp_Less : H → nat → nat → bool;
  hp_Swap : nat → nat → H → H;
  hp_Push : X → H → H;
  hp_Pop : H → option (X * H)
}.

Section operations.
Context {H X : Type} `{HeapInterface H X}.

(** The loops, with a bound on their rounds. *)
Fixpoint heap_up (fuel j : nat) (h : H) : H :=
  match fuel with
  | O => h
  | S fuel' => let i := parent j in
      if bool_decide (i = j) || negb (hp_Less h j i) then h else heap_up fuel' i (hp_Swap i j h)
  end.

Fixpoint heap_down (fuel n i : nat) (h : H) : nat * H :=
  match fuel with
  | O => (i, h)
  | S fuel' =>
      if bool_decide (n ≤ 2 * i + 1) then (i, h)
      else
        let j1 := 2 * i + 1 in
        let j := if bool_decide (j1 + 1 < n) && hp_Less h (j1 + 1) j1 then j1 + 1 else j1 in
        if hp_Less h j i then heap_down fuel' n j (hp_Swap i j h) else (i, h)
  end.

Definition heap_sift (n i : nat) (h : H) : H :=
  let '(k, h') := heap_down n n i h in
  if bool_decide (i < k) then h' else heap_up n i h'.

Definition heap_Push (x : X) (h : H) : H :=
  let h := hp_Push x h in heap_up (hp_Len h) (hp_Len h - 1) h.

Definition heap_Pop (h : H) : option (X * H) :=
  if bool_decide (hp_Len h = 0) then None
  else let n := hp_Len h - 1 in hp_Pop (heap_down n n 0 (hp_Swap 0 n h)).2.

Definition heap_Remove (i : nat) (h : H) : option (X * H) :=
  if bool_decide (hp_Len h ≤ i) then None
  else
    let n := hp_Len h - 1 in
    hp_Pop (if bool_decide (n = i) then h else heap_sift n i (hp_Swap i n h)).

Definition heap_Fix (i : nat) (h : H) : H := heap_sift (hp_Len h) i h.
End operations.

(** What implementations promise: to behave like the array [arr], as long as [hp_ok] holds;
    [hp_fits x]: [x] may be pushed. *)
Class HeapLaws {A} (H X : Type) `{HeapInterface H X} (arr : H → list A) (less : A → A → bool) (view : X → A)
    (hp_ok : H → Prop) (hp_fits : X → H → Prop) : Prop := {
  hl_Len : ∀ h, hp_Len h = length (arr h);
  hl_Less : ∀ h i j, hp_Less h i j = ltAt less (arr h) i j;
  hl_Swap : ∀ h i j, hp_ok h → i < length (arr h) → j < length (arr h) →
    hp_ok (hp_Swap i j h) ∧ arr (hp_Swap i j h) = swapl i j (arr h);
  hl_Push : ∀ h x, hp_ok h → hp_fits x h → hp_ok (hp_Push x h) ∧ arr (hp_Push x h) = arr h ++ [view x];
  hl_Pop : ∀ h l a, hp_ok h → arr h = l ++ [a] →
    ∃ x h', hp_Pop h = Some (x, h') ∧ view x = a ∧ hp_ok h' ∧ arr h' = l
}.

Section laws.
Context {A H X : Type} `{HeapInterface H X} (arr : H → list A) (less : A → A → bool) (view : X → A).
Context (hp_ok : H → Prop) (hp_fits : X → H → Prop) `{Hlaws : !HeapLaws H X arr less view hp_ok hp_fits}.
Context `{Hswo : !StrictWeakOrder less}.

Definition heap_order (h : H) : Prop := ordered_upto less (length (arr h)) (arr h).

Lemma heap_up_sift n fuel : ∀ j h, hp_ok h → j < n → n ≤ length (arr h) →
  hp_ok (heap_up fuel j h) ∧ arr (heap_up fuel j h) = sift_up less fuel j (arr h).
Proof using Hlaws.
  induction fuel as [|fuel IH]; intros j h Hok Hj Hn; simpl; [done|]. rewrite hl_Less.
  destruct (bool_decide_reflect (parent j = j)); simpl; [done|]. destruct (ltAt less (arr h) j (parent j)) eqn:Hlt; simpl; [|done].
  assert (0 < j) as Hpos by (destruct j; [done|lia]). pose proof (parent_lt j Hpos).
  destruct (hl_Swap h (parent j) j) as [Hok' Harr]; [done|lia|lia|]. rewrite <- Harr. apply IH; [done|lia|].
  by rewrite Harr, length_swapl.
Qed.

Lemma heap_down_sift n fuel : ∀ i h, hp_ok h → i < n → n ≤ length (arr h) →
  let '(k, h') := heap_down fuel n i h in hp_ok h' ∧ sift_down less fuel n i (arr h) = (k, arr h').
Proof using Hlaws Hswo.
  induction fuel as [|fuel IH]; intros i h Hok Hi Hn; cbn [heap_down sift_down]; [done|].
  case_bool_decide as Hle; [done|]. rewrite !hl_Less. fold (least_child less n i (arr h)).
  destruct (least_child_spec less n i (arr h)) as (Hj & _ & Hij & _); [lia|done|].
  destruct (ltAt less (arr h) (least_child less n i (arr h)) i); [|done].
  destruct (hl_Swap h i (least_child less n i (arr h))) as [Hok' Harr]; [done|lia|lia|]. rewrite <- Harr.
  apply IH; [done|done|]. by rewrite Harr, length_swapl.
Qed.

Lemma heap_sift_spec n i h : hp_ok h → i < n → n ≤ length (arr h) → ordered_around less n i (arr h) →
  let h' := heap_sift n i h in
  hp_ok h' ∧ ordered_upto less n (arr h') ∧ length (arr h') = length (arr h) ∧ arr h' ≡ₚ arr h ∧
  ∀ m, n ≤ m → arr h' !! m = arr h !! m.
Proof using Hlaws Hswo.
  intros Hok Hi Hn Ho. pose proof (sift_spec less n i (arr h) Hi Hn Ho) as Hs.
  assert (hp_ok (heap_sift n i h) ∧ arr (heap_sift n i h) = sift less n i (arr h)) as [H1 H2]; [|by cbv zeta; rewrite H2].
  unfold heap_sift, sift. pose proof (heap_down_sift n n i h Hok Hi Hn) as Hd.
  pose proof (sift_down_range less n n i (arr h) Hi Hn) as Hr.
  destruct (heap_down n n i h) as [k h']. destruct Hd as [Hok' Hd]. rewrite Hd in *. case_bool_decide; [done|].
  apply (heap_up_sift n); [done|done|]. by destruct Hr as (_ & -> & _).
Qed.

Lemma heap_push_spec x h : hp_ok h → hp_fits x h → heap_order h →
  let h' := heap_Push x h in hp_ok h' ∧ heap_order h' ∧ arr h' ≡ₚ view x :: arr h.
Proof using Hlaws Hswo.
  intros Hok Hfits Ho. destruct (hl_Push h x Hok Hfits) as [Hok1 Harr]. unfold heap_Push. set (h1 := hp_Push x h) in *.
  assert (hp_Len h1 = S (length (arr h))) as Hlen by (rewrite hl_Len, Harr, length_app; simpl; lia).
  assert (length (arr h1) = S (length (arr h))) as Hlen' by (by rewrite <- hl_Len).
  rewrite Hlen. replace (S (length (arr h)) - 1) with (length (arr h)) by lia.
  set (n := length (arr h)) in *.
  destruct (heap_up_sift (S n) (S n) n h1) as [Hok2 Hup]; [done|lia|lia|].
  destruct (sift_up_range less (S n) (S n) n (arr h1)) as (H1 & H2 & _); [lia|lia|].
  split; [done|]. split.
  - unfold heap_order. rewrite Hup, H1, Hlen'. apply sift_up_spec; [done|lia|lia|lia| |].
    + split; [|intros j Hj _ Hp; pose proof (parent_lt j ltac:(lia)); lia]. intros j Hj Hne _. pose proof (parent_lt j ltac:(lia)).
      rewrite Harr, ltAt_app_l by (unfold n in *; lia). apply Ho. unfold n in *. lia.
    + intros j Hj Hp. pose proof (parent_lt j ltac:(lia)). lia.
  - rewrite Hup, H2, Harr. by rewrite Permutation_app_comm.
Qed.

(** The last item after a swap with it. *)
Lemma gh_swap_last i l (a : A) : l !! i = Some a →
  swapl i (length l - 1) l = take (length l - 1) (swapl i (length l - 1) l) ++ [a].
Proof using Type.
  intros Ha. pose proof (lookup_lt_Some _ _ _ Ha) as Hi. set (n := length l - 1).
  rewrite <- (take_drop n (swapl i n l)) at 1. f_equal.
  rewrite (drop_S _ a n); [|rewrite swapl_lookup by (unfold n; lia); by rewrite tr_r].
  rewrite drop_ge; [done|]. rewrite length_swapl. unfold n. lia.
Qed.

Lemma ordered_take n l : n ≤ length l → ordered_upto less n l → ordered_upto less (length (take n l)) (take n l).
Proof using Type.
  intros Hn Ho j Hj. rewrite length_take in Hj. pose proof (parent_lt j ltac:(lia)). unfold ltAt.
  rewrite !lookup_take_lt by lia. apply Ho. lia.
Qed.

Lemma take_last n (l : list A) a : length l = S n → l !! n = Some a → l = take n l ++ [a].
Proof using Type.
  intros Hl Ha. rewrite <- (take_drop n l) at 1. f_equal. rewrite (drop_S _ a n) by done. by rewrite drop_ge by lia.
Qed.

Lemma around_swap n i l : length l = S n → i < n → ordered_upto less (S n) l → ordered_around less n i (swapl i n l).
Proof using Hswo.
  intros Hl Hi Ho. destruct (ordered_upto_around less (S n) i l ltac:(lia) Ho) as [H1 H2].
  assert (∀ x y, ltAt less (swapl i n l) x y = ltAt less l (tr i n x) (tr i n y)) as Hsw by (intros; apply ltAt_swapl; lia).
  split.
  - intros j Hj Hne Hp. pose proof (parent_lt j ltac:(lia)). rewrite Hsw, !tr_other by lia. apply H1; [lia|done|done].
  - intros j Hj Hpos Hp. pose proof (parent_lt j ltac:(lia)). pose proof (parent_lt i Hpos).
    rewrite Hsw, !tr_other by lia. apply H2; [lia|done|done].
Qed.

Lemma heap_remove_spec i h a : hp_ok h → heap_order h → arr h !! i = Some a →
  ∃ x h', heap_Remove i h = Some (x, h') ∧ view x = a ∧ hp_ok h' ∧ heap_order h' ∧ arr h ≡ₚ a :: arr h'.
Proof using Hlaws Hswo.
  intros Hok Ho Ha. pose proof (lookup_lt_Some _ _ _ Ha) as Hi. unfold heap_Remove.
  rewrite bool_decide_false by (rewrite hl_Len; lia). set (n := hp_Len h - 1).
  assert (length (arr h) = S n) as Hlen by (unfold n; rewrite hl_Len; lia).
  assert (∃ h1, (if bool_decide (n = i) then h else heap_sift n i (hp_Swap i n h)) = h1 ∧ hp_ok h1 ∧
    ordered_upto less n (arr h1) ∧ length (arr h1) = S n ∧ arr h1 !! n = Some a ∧ arr h1 ≡ₚ arr h) as (h1 & -> & Hok1 & Ho1 & Hl1 & Hla & Hp1).
  { case_bool_decide as Hni.
    - exists h. subst i. split_and!; try done. intros j Hj. apply Ho. lia.
    - destruct (hl_Swap h i n) as [Hok1 Harr]; [done|lia|lia|].
      destruct (heap_sift_spec n i (hp_Swap i n h)) as (H1 & H2 & H3 & H4 & H5); [done|lia|rewrite Harr, length_swapl; lia| |].
      { rewrite Harr. apply around_swap; [done|lia|]. by rewrite <- Hlen. }
      eexists. split; [done|]. split_and!; [done|done|by rewrite H3, Harr, length_swapl| |].
      + rewrite H5 by done. rewrite Harr, swapl_lookup by lia. by rewrite tr_r.
      + rewrite H4, Harr. apply swapl_Permutation. }
  destruct (hl_Pop h1 (take n (arr h1)) a) as (x & h' & -> & Hv & Hok' & Harr'); [done|by apply take_last|].
  exists x, h'. split_and!; try done.
  - unfold heap_order. rewrite Harr'. apply ordered_take; [lia|done].
  - rewrite <- Hp1, Harr'. rewrite (take_last n (arr h1) a) at 1 by done. by rewrite Permutation_app_comm.
Qed.

Lemma heap_pop_spec h a : hp_ok h → heap_order h → arr h !! 0 = Some a →
  ∃ x h', heap_Pop h = Some (x, h') ∧ view x = a ∧ hp_ok h' ∧ heap_order h' ∧ arr h ≡ₚ a :: arr h' ∧
    Forall (λ b, less b a = false) (arr h').
Proof using Hlaws Hswo.
  intros Hok Ho Ha. pose proof (lookup_lt_Some _ _ _ Ha) as Hi. unfold heap_Pop.
  rewrite bool_decide_false by (rewrite hl_Len; lia). set (n := hp_Len h - 1).
  assert (length (arr h) = S n) as Hlen by (unfold n; rewrite hl_Len; lia).
  destruct (hl_Swap h 0 n) as [Hok1 Harr]; [done|lia|lia|]. set (h1 := hp_Swap 0 n h) in *.
  assert (∃ h2, (heap_down n n 0 h1).2 = h2 ∧ hp_ok h2 ∧ ordered_upto less n (arr h2) ∧ length (arr h2) = S n ∧
    arr h2 !! n = Some a ∧ arr h2 ≡ₚ arr h) as (h2 & -> & Hok2 & Ho2 & Hl2 & Hla & Hp2).
  { assert (arr h1 !! n = Some a) as Hn by (rewrite Harr, swapl_lookup by lia; by rewrite tr_r).
    assert (length (arr h1) = S n) as Hl1 by (by rewrite Harr, length_swapl).
    assert (arr h1 ≡ₚ arr h) as Hp1 by (rewrite Harr; apply swapl_Permutation).
    destruct (decide (n = 0)) as [Hz|Hz].
    { exists h1. rewrite Hz in *. split_and!; try done. intros j Hj. lia. }
    pose proof (heap_down_sift n n 0 h1 Hok1 ltac:(lia) ltac:(lia)) as Hd.
    pose proof (sift_down_range less n n 0 (arr h1) ltac:(lia) ltac:(lia)) as Hr.
    pose proof (sift_down_spec less n n 0 (arr h1) ltac:(lia) ltac:(lia) ltac:(lia)) as Hs.
    destruct (heap_down n n 0 h1) as [k h2]. destruct Hd as [Hok2 Hd]. rewrite Hd in *. destruct Hr as (_ & H1 & H2 & H3).
    exists h2. simpl. split_and!; [done|done| |lia|by rewrite H3|by rewrite H2].
    apply Hs; [|right; lia]. rewrite Harr. apply around_swap; [done|lia|]. by rewrite <- Hlen. }
  destruct (hl_Pop h2 (take n (arr h2)) a) as (x & h' & -> & Hv & Hok' & Harr'); [done|by apply take_last|].
  assert (arr h ≡ₚ a :: arr h') as Hperm.
  { rewrite <- Hp2, Harr'. rewrite (take_last n (arr h2) a) at 1 by done. by rewrite Permutation_app_comm. }
  exists x, h'. split_and!; try done.
  - unfold heap_order. rewrite Harr'. apply ordered_take; [lia|done].
  - apply Forall_forall. intros b Hb. assert (b ∈ arr h) as Hbh by (rewrite Hperm; by apply elem_of_cons; right).
    apply list_elem_of_lookup in Hbh as [j Hj]. pose proof (lookup_lt_Some _ _ _ Hj) as Hjl.
    pose proof (ordered_root_least less _ (arr h) j (le_n _) Ho Hjl) as Hr. unfold ltAt in Hr. by rewrite Hj, Ha in Hr.
Qed.
End laws.

(** ** Entries that know their index

    Both implementations keep pointers to entries in a slice, and in every entry the index
    at which it is. *)

Record indexed (A : Type) := mkIndexed { ix_items : list (positive * A); ix_index : gmap positive Z }.
Arguments mkIndexed {A}.
Arguments ix_items {A}.
Arguments ix_index {A}.

Definition empty_indexed {A} : indexed A := mkIndexed [] ∅.

Section indexed.
Context {A : Type} (less : A → A → bool).
Implicit Types (h : indexed A) (i j : nat) (p q : positive).

Definition entry_less (x y : positive * A) : bool := less x.2 y.2.

Definition ix_Swap i j h : indexed A :=
  match ix_items h !! i, ix_items h !! j with
  | Some (p, _), Some (q, _) =>
      mkIndexed (swapl i j (ix_items h)) (<[p := Z.of_nat j]> (<[q := Z.of_nat i]> (ix_index h)))
  | _, _ => h
  end.

Definition ix_Push (x : positive * A) h : indexed A :=
  mkIndexed (ix_items h ++ [x]) (<[x.1 := Z.of_nat (length (ix_items h))]> (ix_index h)).

Definition ix_Pop h : option ((positive * A) * indexed A) :=
  match last (ix_items h) with
  | Some x => Some (x, mkIndexed (take (length (ix_items h) - 1) (ix_items h)) (<[x.1 := (-1)%Z]> (ix_index h)))
  | None => None
  end.

#[local] Instance indexed_heap : HeapInterface (indexed A) (positive * A) := {
  hp_Len h := length (ix_items h);
  hp_Less h i j := ltAt entry_less (ix_items h) i j;
  hp_Swap := ix_Swap;
  hp_Push := ix_Push;
  hp_Pop := ix_Pop
}.

(** Every entry is there once, and has its index. *)
Record indexed_ok h : Prop := mkIndexedOk {
  io_nodup : NoDup (ix_items h).*1;
  io_index : ∀ i p a, ix_items h !! i = Some (p, a) → ix_index h !! p = Some (Z.of_nat i)
}.

Definition entry_fresh (x : positive * A) h : Prop := x.1 ∉ (ix_items h).*1.

Lemma items_lookup_fst h i p a : ix_items h !! i = Some (p, a) → (ix_items h).*1 !! i = Some p.
Proof. intros Hi. by rewrite list_lookup_fmap, Hi. Qed.

#[local] Instance indexed_laws : HeapLaws (indexed A) (positive * A) ix_items entry_less id indexed_ok entry_fresh.
Proof.
  split; [done|done| | |].
  - intros h i j [Hnd Hix] [[p a] Hi]%lookup_lt_is_Some_2 [[q b] Hj]%lookup_lt_is_Some_2.
    simpl. unfold ix_Swap. rewrite Hi, Hj. split; [|done]. split; simpl.
    + by rewrite swapl_Permutation.
    + intros k r c Hk. pose proof (lookup_lt_Some _ _ _ Hi). pose proof (lookup_lt_Some _ _ _ Hj).
      rewrite swapl_lookup in Hk by done. unfold tr in Hk.
      assert (∀ x y, ix_items h !! x = Some y → r = y.1 → ix_items h !! x = Some (r, y.2)) as Hpair by (by intros x [] ? ->).
      destruct (decide (r = p)) as [->|Hp].
      { rewrite lookup_insert_eq. f_equal. f_equal.
        assert (i = (if decide (k = i) then j else if decide (k = j) then i else k)) as E
          by (eapply (NoDup_lookup _ i _ p Hnd); by eapply items_lookup_fst).
        repeat case_decide; subst; congruence. }
      rewrite lookup_insert_ne by done. destruct (decide (r = q)) as [->|Hq].
      { rewrite lookup_insert_eq. f_equal. f_equal.
        assert (j = (if decide (k = i) then j else if decide (k = j) then i else k)) as E
          by (eapply (NoDup_lookup _ j _ q Hnd); by eapply items_lookup_fst).
        repeat case_decide; subst; congruence. }
      rewrite lookup_insert_ne by done. repeat case_decide; subst; [congruence..|by eapply Hix].
  - intros h [p a] [Hnd Hix] Hfresh. simpl. unfold ix_Push. simpl. split; [|done]. split; simpl.
    + rewrite fmap_app. apply NoDup_app. split; [done|]. split; [|apply NoDup_singleton].
      intros q Hq ->%list_elem_of_singleton. done.
    + intros i q b Hi. apply lookup_app_Some in Hi as [Hi|[Hlen Hi]].
      * rewrite lookup_insert_ne; [by eapply Hix|]. intros ->. apply Hfresh. simpl.
        eapply list_elem_of_lookup_2, items_lookup_fst, Hi.
      * apply list_lookup_singleton_Some in Hi as [Hi [= <- <-]]. rewrite lookup_insert_eq. do 2 f_equal. lia.
  - intros h l [p a] [Hnd Hix] Hl. simpl. unfold ix_Pop. rewrite Hl, last_snoc. do 2 eexists. split; [done|]. split; [done|].
    assert (take (length (l ++ [(p, a)]) - 1) (l ++ [(p, a)]) = l) as Htake
      by (rewrite length_app; simpl; replace (length l + 1 - 1) with (length l) by lia; apply take_app_length).
    rewrite Htake. rewrite Hl in Hnd. rewrite fmap_app in Hnd. apply NoDup_app in Hnd as (Hnd & Hdis & _).
    split; [|done]. split; [done|]. intros i q b Hi. simpl in *. rewrite lookup_insert_ne.
    + apply (Hix i q b). rewrite Hl. by apply lookup_app_l_Some.
    + intros ->. apply (Hdis q); [|apply elem_of_cons; by left]. by eapply list_elem_of_lookup_2; rewrite list_lookup_fmap, Hi.
Qed.

#[local] Instance entry_less_swo `{!StrictWeakOrder less} : StrictWeakOrder entry_less.
Proof.
  split; unfold entry_less.
  - intros a. apply swo_irrefl.
  - intros a b c. apply swo_trans.
  - intros a b c. apply swo_split.
Qed.

Lemma empty_indexed_ok : indexed_ok empty_indexed.
Proof. split; [constructor|done]. Qed.

(** The operations of the library on these heaps. *)
Definition ix_heap_Push (x : positive * A) h : indexed A := heap_Push x h.
Definition ix_heap_Pop h : option ((positive * A) * indexed A) := heap_Pop h.
Definition ix_heap_Remove i h : option ((positive * A) * indexed A) := heap_Remove i h.
Definition ix_heap_Fix i h : indexed A := heap_Fix i h.

Definition ix_order h : Prop := heap_order ix_items entry_less h.

Lemma empty_indexed_order : ix_order empty_indexed.
Proof. intros j Hj. simpl in Hj. lia. Qed.

Context `{Hswo : !StrictWeakOrder less}.

Lemma ix_push_spec p a h : indexed_ok h → p ∉ (ix_items h).*1 → ix_order h →
  let h' := ix_heap_Push (p, a) h in indexed_ok h' ∧ ix_order h' ∧ ix_items h' ≡ₚ (p, a) :: ix_items h.
Proof using Hswo. intros Hok Hf Ho. by apply (heap_push_spec ix_items entry_less id indexed_ok entry_fresh (p, a) h). Qed.

Lemma ix_remove_spec i p a h : indexed_ok h → ix_order h → ix_items h !! i = Some (p, a) →
  ∃ h', ix_heap_Remove i h = Some ((p, a), h') ∧ indexed_ok h' ∧ ix_order h' ∧ ix_items h ≡ₚ (p, a) :: ix_items h'.
Proof using Hswo.
  intros Hok Ho Hi.
  destruct (heap_remove_spec ix_items entry_less id indexed_ok entry_fresh i h (p, a) Hok Ho Hi) as (x & h' & Hr & Hx & H1 & H2 & H3).
  simpl in Hx. subst x. by exists h'.
Qed.

Lemma ix_pop_spec p a h : indexed_ok h → ix_order h → ix_items h !! 0 = Some (p, a) →
  ∃ h', ix_heap_Pop h = Some ((p, a), h') ∧ indexed_ok h' ∧ ix_order h' ∧ ix_items h ≡ₚ (p, a) :: ix_items h' ∧
    Forall (λ x, less x.2 a = false) (ix_items h').
Proof using Hswo.
  intros Hok Ho Hi.
  destruct (heap_pop_spec ix_items entry_less id indexed_ok entry_fresh h (p, a) Hok Ho Hi) as (x & h' & Hr & Hx & H1 & H2 & H3 & H4).
  simpl in Hx. subst x. by exists h'.
Qed.

(** The order around an item whose value has changed. *)
Lemma ix_fix_spec i h : indexed_ok h → i < length (ix_items h) →
  ordered_around entry_less (length (ix_items h)) i (ix_items h) →
  let h' := ix_heap_Fix i h in indexed_ok h' ∧ ix_order h' ∧ ix_items h' ≡ₚ ix_items h.
Proof using Hswo.
  intros Hok Hi Ho.
  destruct (heap_sift_spec ix_items entry_less id indexed_ok entry_fresh (length (ix_items h)) i h Hok Hi (le_n _) Ho)
    as (H1 & H2 & H3 & H4 & _).
  split; [done|]. split; [|done]. unfold ix_order, heap_order, ix_heap_Fix, heap_Fix. simpl hp_Len in *. by rewrite H3.
Qed.

(** The root is least. *)
Lemma ix_root_least h p a : ix_order h → ix_items h !! 0 = Some (p, a) → Forall (λ x, less x.2 a = false) (ix_items h).
Proof using Hswo.
  intros Ho H0. apply Forall_forall. intros x [j Hj]%list_elem_of_lookup.
  pose proof (ordered_root_least entry_less _ (ix_items h) j (le_n _) Ho (lookup_lt_Some _ _ _ Hj)) as Hr.
  unfold ltAt in Hr. by rewrite Hj, H0 in Hr.
Qed.
End indexed.
