(* ===== verification/Eviction.v ===== *)
(** * Eviction of requests in flight: [flowcontrol/eviction]

    The request evictor follows the requests that have been sent to a model server. Those
    that a filter accepts can be evicted: they are kept in a heap, in the order in which
    they would be evicted. Evicting a request closes its channel, on which the stream of the
    request waits. Policies are those of [framework/plugins/flowcontrol/eviction]. *)

From stdpp Require Import prelude gmap strings list sorting.
From Stdlib Require Import ZArith Lia.
From S2P Require Import Prelude Ordering ArrayHeap GoHeap SchedTypes Scheduler ProfileHandlers RequestControl.

#[local] Open Scope go_scope.

Record EvictionItem := mkEvictionItem {
  ei_RequestID : string;
  ei_Priority : Z;
  ei_DispatchTime : Z;
  ei_TargetURL : string;
  ei_Request : InferenceRequest;
  ei_TargetEndpoint : EndpointMetadata;
  ei_EvictCh : option positive
}.

(** ** The policies *)

(** [PriorityThenTimeOrdering.Less]. *)
Definition priority_then_time (a b : EvictionItem) : bool :=
  if bool_decide (ei_Priority a ≠ ei_Priority b) then bool_decide (ei_Priority a < ei_Priority b)%Z
  else bool_decide (ei_DispatchTime b < ei_DispatchTime a)%Z.

(** [SheddableFilter.Accept]. *)
Definition sheddable (item : EvictionItem) : bool := bool_decide (ei_Priority item < 0)%Z.

#[export] Instance priority_then_time_swo : StrictWeakOrder priority_then_time.
Proof.
  split; unfold priority_then_time.
  - intros a. rewrite bool_decide_false by (intros ?; congruence). apply bool_decide_false. lia.
  - intros a b c. repeat case_bool_decide; intros ??; try done; lia.
  - intros a b c. repeat case_bool_decide; intros ?; try done; try (by left); try (by right); lia.
Qed.

(** ** The queue: [queue.go] *)

Record EvictionQueue := mkEvictionQueue {
  eq_h : indexed EvictionItem;
  eq_handles : gmap string positive;
  eq_allInFlight : gmap string EvictionItem
}.

Definition NewEvictionQueue : EvictionQueue := mkEvictionQueue empty_indexed ∅ ∅.

Section queue.
Context (Less : EvictionItem → EvictionItem → bool) (Accept : EvictionItem → bool).

(** Take the entry of a request out of the heap. *)
Definition remove_handle (requestID : string) : GoM EvictionQueue unit :=
  handle ← gets (λ q, eq_handles q !! requestID);
  match handle with
  | None => mret tt
  | Some e =>
      index ← getsome (λ q, ix_index (eq_h q) !! e);
      if bool_decide (index < 0)%Z then panic
      else
        r ← getsome (λ q, ix_heap_Remove Less (Z.to_nat index) (eq_h q));
        modify (λ q, mkEvictionQueue r.2 (delete requestID (eq_handles q)) (eq_allInFlight q))
  end.

Definition Track (item : EvictionItem) : GoM EvictionQueue unit :=
  remove_handle (ei_RequestID item) ;;
  modify (λ q, mkEvictionQueue (eq_h q) (eq_handles q) (<[ei_RequestID item := item]> (eq_allInFlight q))) ;;
  if Accept item then
    modify (λ q,
      let e := fresh (dom (ix_index (eq_h q))) in
      mkEvictionQueue (ix_heap_Push Less (e, item) (eq_h q)) (<[ei_RequestID item := e]> (eq_handles q)) (eq_allInFlight q))
  else mret tt.

Definition Untrack (requestID : string) : GoM EvictionQueue unit :=
  remove_handle requestID ;;
  modify (λ q, mkEvictionQueue (eq_h q) (eq_handles q) (delete requestID (eq_allInFlight q))).

Fixpoint PopN (n : nat) : GoM EvictionQueue (list EvictionItem) :=
  match n with
  | O => mret []
  | S n' =>
      len ← gets (λ q, length (ix_items (eq_h q)));
      if bool_decide (len = 0) then mret []
      else
        r ← getsome (λ q, ix_heap_Pop Less (eq_h q));
        let item := r.1.2 in
        modify (λ q, mkEvictionQueue r.2 (delete (ei_RequestID item) (eq_handles q))
                       (delete (ei_RequestID item) (eq_allInFlight q))) ;;
        rest ← PopN n';
        mret (item :: rest)
  end.

Definition Peek (q : EvictionQueue) : option EvictionItem := snd <$> ix_items (eq_h q) !! 0.
Definition EvictableLen (q : EvictionQueue) : nat := length (ix_items (eq_h q)).
Definition InFlightLen (q : EvictionQueue) : nat := size (eq_allInFlight q).
End queue.

(** ** The invariant of the queue *)

Definition values (m : gmap string EvictionItem) : list EvictionItem := (map_to_list m).*2.

Section queue_inv.
Context (Less : EvictionItem → EvictionItem → bool) (Accept : EvictionItem → bool) `{Hswo : !StrictWeakOrder Less}.
Implicit Types (q : EvictionQueue) (item : EvictionItem) (m : gmap string EvictionItem).

(** The requests that can be evicted. *)
Definition evictable m : list EvictionItem := filter (λ item, Accept item = true) (values m).

Definition keyed m : Prop := map_Forall (λ id item, ei_RequestID item = id) m.

Record heap_inv q : Prop := mkHeapInv {
  hi_index : indexed_ok (eq_h q);
  hi_order : ix_order Less (eq_h q);
  hi_ids : NoDup (ei_RequestID <$> (ix_items (eq_h q)).*2);
  hi_handles : ∀ id e, eq_handles q !! id = Some e ↔ ∃ item, (e, item) ∈ ix_items (eq_h q) ∧ ei_RequestID item = id
}.

Record queue_inv q : Prop := mkQueueInv {
  qv_heap : heap_inv q;
  qv_keyed : keyed (eq_allInFlight q);
  qv_items : (ix_items (eq_h q)).*2 ≡ₚ evictable (eq_allInFlight q)
}.

Lemma values_insert m id item : m !! id = None → values (<[id := item]> m) ≡ₚ item :: values m.
Proof using Type. intros Hid. unfold values. by rewrite map_to_list_insert. Qed.

Lemma values_delete m id item : m !! id = Some item → values m ≡ₚ item :: values (delete id m).
Proof using Type.
  intros Hid. rewrite <- (insert_delete_id m id item Hid) at 1. apply values_insert, lookup_delete_eq.
Qed.

Lemma elem_of_values m item : keyed m → item ∈ values m ↔ m !! ei_RequestID item = Some item.
Proof using Type.
  intros Hk. unfold values. rewrite list_elem_of_fmap. split.
  - intros ([id i] & -> & Hi%elem_of_map_to_list). simpl in *. by rewrite (Hk _ _ Hi).
  - intros Hi. exists (ei_RequestID item, item). split; [done|]. by apply elem_of_map_to_list.
Qed.

Lemma values_ids m : keyed m → ei_RequestID <$> values m = (map_to_list m).*1.
Proof using Type.
  intros Hk. unfold values. rewrite <- list_fmap_compose. apply list_fmap_ext. intros i [id item] Hi.
  apply Hk, elem_of_map_to_list. by eapply list_elem_of_lookup_2.
Qed.

Lemma values_NoDup m : keyed m → NoDup (ei_RequestID <$> values m).
Proof using Type. intros Hk. rewrite values_ids by done. apply NoDup_fst_map_to_list. Qed.

(** Without one of the requests. *)
Definition others (id : string) (l : list EvictionItem) : list EvictionItem := filter (λ item, ei_RequestID item ≠ id) l.

#[local] Instance others_proper id : Proper ((≡ₚ) ==> (≡ₚ)) (others id).
Proof using Type. intros l l' Hl. unfold others. by rewrite Hl. Qed.

Lemma others_all id l : id ∉ (ei_RequestID <$> l) → others id l = l.
Proof using Type.
  induction l as [|item l IH]; intros Hid; [done|]. rewrite fmap_cons, elem_of_cons in Hid. unfold others.
  rewrite filter_cons_True by (intros <-; apply Hid; by left). f_equal. apply IH. intros ?. apply Hid. by right.
Qed.

Lemma others_cons item l : NoDup (ei_RequestID <$> item :: l) → others (ei_RequestID item) (item :: l) = l.
Proof using Type.
  rewrite fmap_cons, NoDup_cons. intros [Hid _]. unfold others. rewrite filter_cons_False by (intros H; by apply H). by apply others_all.
Qed.

Lemma others_values m id : keyed m → others id (values m) ≡ₚ values (delete id m).
Proof using Type.
  intros Hk. destruct (m !! id) as [item|] eqn:Hid.
  - pose proof (Hk id item Hid) as <-. pose proof (values_delete m _ item Hid) as Hp.
    assert (NoDup (ei_RequestID <$> item :: values (delete (ei_RequestID item) m))) as Hnd by (rewrite <- Hp; by apply values_NoDup).
    by rewrite Hp, others_cons.
  - rewrite delete_id by done. rewrite others_all; [done|]. rewrite values_ids by done.
    intros ([k item] & -> & Hi%elem_of_map_to_list)%list_elem_of_fmap. simpl in Hid. congruence.
Qed.

Lemma evictable_others m id : keyed m → others id (evictable m) ≡ₚ evictable (delete id m).
Proof using Type.
  intros Hk. unfold evictable. rewrite <- (others_values m id Hk). unfold others.
  rewrite !list_filter_filter. apply Permutation_refl', list_filter_iff. naive_solver.
Qed.

Lemma evictable_delete m item : m !! ei_RequestID item = Some item → Accept item = true →
  evictable m ≡ₚ item :: evictable (delete (ei_RequestID item) m).
Proof using Type. intros Hm Hacc. unfold evictable. rewrite (values_delete m _ item Hm). by rewrite filter_cons_True. Qed.

(** What is left of a heap without one entry. *)
Lemma heap_inv_smaller q h e item inflight : heap_inv q → indexed_ok h → ix_order Less h →
  ix_items (eq_h q) ≡ₚ (e, item) :: ix_items h →
  heap_inv (mkEvictionQueue h (delete (ei_RequestID item) (eq_handles q)) inflight).
Proof using Type.
  intros [Hix Ho Hids Hh] Hix' Ho' Hp. assert (NoDup (ei_RequestID <$> item :: (ix_items h).*2)) as Hnd.
  { pose proof Hids as H. rewrite Hp in H. done. }
  split; [done|done| |].
  - rewrite fmap_cons, NoDup_cons in Hnd. by destruct Hnd.
  - intros id e'. simpl. rewrite fmap_cons, NoDup_cons in Hnd. destruct Hnd as [Hnot _]. split.
    + intros [Hne He]%lookup_delete_Some. apply Hh in He as (item' & Hin & Hid). rewrite Hp, elem_of_cons in Hin.
      destruct Hin as [[= -> ->]|Hin]; [done|by exists item'].
    + intros (item' & Hin & <-). apply lookup_delete_Some. split.
      * intros Heq. apply Hnot. rewrite Heq. apply list_elem_of_fmap. exists item'. split; [done|].
        apply list_elem_of_fmap. by exists (e', item').
      * apply Hh. exists item'. split; [|done]. rewrite Hp. by apply elem_of_cons; right.
Qed.

Lemma remove_handle_spec id q : heap_inv q →
  wp (remove_handle Less id) (λ _ q', heap_inv q' ∧ eq_allInFlight q' = eq_allInFlight q ∧
    (ix_items (eq_h q')).*2 ≡ₚ others id (ix_items (eq_h q)).*2 ∧ eq_handles q' !! id = None) q.
Proof using Hswo.
  intros Hinv. pose proof Hinv as [Hix Ho Hids Hh]. unfold remove_handle. apply wp_bind, wp_gets.
  destruct (eq_handles q !! id) as [e|] eqn:He.
  2: { apply wp_ret. split_and!; try done. rewrite others_all; [done|].
       intros (item & -> & ([e item'] & -> & Hin)%list_elem_of_fmap)%list_elem_of_fmap. simpl in *.
       assert (eq_handles q !! ei_RequestID item' = Some e) by (apply Hh; by exists item'). congruence. }
  pose proof He as (item & [i Hi]%list_elem_of_lookup & <-)%Hh.
  apply wp_bind. eapply wp_getsome; [by eapply io_index|]. rewrite bool_decide_false by lia. rewrite Nat2Z.id.
  destruct (ix_remove_spec Less i e item (eq_h q)) as (h & Hr & Hok & Hord & Hp); [done..|].
  apply wp_bind. eapply wp_getsome; [done|]. apply wp_modify. simpl.
  split; [by eapply heap_inv_smaller|]. split; [done|]. split; [|apply lookup_delete_eq].
  assert (NoDup (ei_RequestID <$> item :: (ix_items h).*2)) as Hnd by (pose proof Hids as H; by rewrite Hp in H).
  assert ((ix_items (eq_h q)).*2 ≡ₚ item :: (ix_items h).*2) as Hp2 by (by rewrite Hp).
  rewrite <- (others_cons item (ix_items h).*2) at 1 by done. by rewrite Hp2.
Qed.

Lemma push_spec item q : heap_inv q → eq_handles q !! ei_RequestID item = None →
  let e := fresh (dom (ix_index (eq_h q))) in
  let q' := mkEvictionQueue (ix_heap_Push Less (e, item) (eq_h q)) (<[ei_RequestID item := e]> (eq_handles q)) (eq_allInFlight q) in
  heap_inv q' ∧ (ix_items (eq_h q')).*2 ≡ₚ item :: (ix_items (eq_h q)).*2.
Proof using Hswo.
  intros [Hix Ho Hids Hh] Hnone e q'.
  assert (e ∉ (ix_items (eq_h q)).*1) as Hf.
  { intros ([e' a] & He & [i Hi]%list_elem_of_lookup)%list_elem_of_fmap. simpl in He. subst e'.
    apply (is_fresh (dom (ix_index (eq_h q)))). fold e. apply elem_of_dom. eexists. by eapply io_index. }
  destruct (ix_push_spec Less e item (eq_h q)) as (Hok & Hord & Hp); [done..|]. split; [|by subst q'; simpl; rewrite Hp]. split; [done|done| |]; subst q'; simpl.
  - rewrite Hp. simpl. apply NoDup_cons. split; [|done].
    intros (item' & Heq & ([e' a] & -> & Hin)%list_elem_of_fmap)%list_elem_of_fmap. simpl in *.
    assert (eq_handles q !! ei_RequestID a = Some e') by (apply Hh; by exists a). congruence.
  - intros id e'. rewrite lookup_insert_Some. setoid_rewrite Hp. setoid_rewrite elem_of_cons. split.
    + intros [[<- <-]|[Hne He]]; [exists item; split; [by left|done]|]. apply Hh in He as (a & Ha & <-).
      exists a. split; [by right|done].
    + intros (a & [[= -> ->]|Ha] & <-); [by left|]. right.
      assert (eq_handles q !! ei_RequestID a = Some e') as He by (apply Hh; by exists a). split; [|done]. intros Heq. congruence.
Qed.

(** ** The queue refines a map of requests *)

Lemma Track_spec item q : queue_inv q →
  wp (Track Less Accept item) (λ _ q', queue_inv q' ∧ eq_allInFlight q' = <[ei_RequestID item := item]> (eq_allInFlight q)) q.
Proof using Hswo.
  intros [Hheap Hk Hitems]. unfold Track. apply wp_bind. eapply wp_mono; [by apply remove_handle_spec|].
  intros [] q1 (Hheap1 & Hfl & Hp & Hnone). apply wp_bind, wp_modify. rewrite Hfl.
  set (m := eq_allInFlight q) in *. set (id := ei_RequestID item) in *.
  assert (keyed (<[id := item]> m)) as Hk' by (by apply map_Forall_insert_2).
  assert (evictable (<[id := item]> m) ≡ₚ (if Accept item then [item] else []) ++ evictable (delete id m)) as Hev.
  { unfold evictable. rewrite <- insert_delete_eq, values_insert by apply lookup_delete_eq. rewrite filter_cons.
    by destruct (Accept item). }
  rewrite Hitems, evictable_others in Hp by done.
  destruct (Accept item) eqn:Hacc.
  - apply wp_modify. set (q2 := mkEvictionQueue (eq_h q1) (eq_handles q1) (<[id:=item]> m)).
    destruct (push_spec item q2) as [Hheap2 Hp2]; [by destruct Hheap1|done|]. split; [|done]. split; [exact Hheap2|done|].
    simpl in Hp2. simpl. by rewrite Hp2, Hp, Hev.
  - apply wp_ret. split; [|done]. split; [by destruct Hheap1|done|]. simpl. by rewrite Hp, Hev.
Qed.

Lemma Untrack_spec id q : queue_inv q →
  wp (Untrack Less id) (λ _ q', queue_inv q' ∧ eq_allInFlight q' = delete id (eq_allInFlight q)) q.
Proof using Hswo.
  intros [Hheap Hk Hitems]. unfold Untrack. apply wp_bind. eapply wp_mono; [by apply remove_handle_spec|].
  intros [] q1 (Hheap1 & Hfl & Hp & Hnone). apply wp_modify. rewrite Hfl. split; [|done].
  split; [by destruct Hheap1|by apply map_Forall_delete|]. simpl. by rewrite Hp, Hitems, evictable_others.
Qed.

(** The request that is evicted first. *)
Lemma evict_pop_spec q n : queue_inv q → EvictableLen q = S n → ∃ x h item,
  ix_heap_Pop Less (eq_h q) = Some (x, h) ∧ x.2 = item ∧ eq_allInFlight q !! ei_RequestID item = Some item ∧ Accept item = true ∧
  let q' := mkEvictionQueue h (delete (ei_RequestID item) (eq_handles q)) (delete (ei_RequestID item) (eq_allInFlight q)) in
  queue_inv q' ∧ EvictableLen q' = n ∧
  evictable (eq_allInFlight q) ≡ₚ item :: evictable (eq_allInFlight q') ∧
  Forall (λ b, Less b item = false) (evictable (eq_allInFlight q')).
Proof using Hswo.
  intros [Hheap Hk Hitems] Hlen. pose proof Hheap as [Hix Ho Hids Hh].
  destruct (ix_items (eq_h q) !! 0) as [[e item]|] eqn:H0.
  2: { apply lookup_ge_None in H0. unfold EvictableLen in Hlen. simpl in Hlen. lia. }
  destruct (ix_pop_spec Less e item (eq_h q)) as (h & Hpop & Hok & Hord & Hp & Hleast); [done..|].
  assert ((ix_items (eq_h q)).*2 ≡ₚ item :: (ix_items h).*2) as Hp2 by (by rewrite Hp).
  assert (item ∈ evictable (eq_allInFlight q)) as [Hacc Hin]%list_elem_of_filter
    by (rewrite <- Hitems, Hp2; apply elem_of_cons; by left).
  rewrite elem_of_values in Hin by done.
  assert ((ix_items h).*2 ≡ₚ evictable (delete (ei_RequestID item) (eq_allInFlight q))) as Hrest.
  { rewrite <- evictable_others, <- Hitems by done. rewrite Hp2.
    assert (NoDup (ei_RequestID <$> item :: (ix_items h).*2)) as Hnd by (pose proof Hids as H; by rewrite Hp in H).
    by rewrite others_cons. }
  exists (e, item), h, item. split_and!; try done. cbv zeta. split_and!.
  - split; [by eapply heap_inv_smaller|by apply map_Forall_delete|exact Hrest].
  - unfold EvictableLen in *. simpl in *. apply (Permutation_length) in Hp. simpl in Hp. lia.
  - simpl. by rewrite <- Hitems, Hp2, Hrest.
  - simpl. rewrite <- Hrest. apply Forall_fmap. eapply Forall_impl; [exact Hleast|]. by intros [].
Qed.

Lemma evictable_len q : queue_inv q → EvictableLen q = length (evictable (eq_allInFlight q)).
Proof using Type. intros [_ _ Hp]. unfold EvictableLen. simpl. rewrite <- Hp. by rewrite length_fmap. Qed.

(** The first [n] in the order of eviction. *)
Record popped (n : nat) (m : gmap string EvictionItem) (l : list EvictionItem) (m' : gmap string EvictionItem) : Prop := mkPopped {
  po_members : Forall (λ item, m !! ei_RequestID item = Some item ∧ Accept item = true) l;
  po_distinct : NoDup (ei_RequestID <$> l);
  po_sorted : StronglySorted (λ a b, Less b a = false) l;
  po_length : length l = n `min` length (evictable m);
  po_least : Forall (λ item, Forall (λ b, Less b item = false) (evictable m')) l;
  po_rest : m' = foldr (λ item m, delete (ei_RequestID item) m) m l
}.

Lemma PopN_spec n : ∀ q, queue_inv q →
  wp (PopN Less n) (λ l q', queue_inv q' ∧ popped n (eq_allInFlight q) l (eq_allInFlight q')) q.
Proof using Hswo.
  induction n as [|n IH]; intros q Hinv; cbn [PopN].
  { apply wp_ret. split; [done|]. split; try constructor. }
  apply wp_bind, wp_gets. fold (EvictableLen q). destruct (EvictableLen q) as [|k] eqn:Hlen.
  { rewrite bool_decide_true by done. apply wp_ret. split; [done|]. rewrite (evictable_len q Hinv) in Hlen.
    split; try constructor. rewrite Hlen. simpl. done. }
  rewrite bool_decide_false by done. destruct (evict_pop_spec q k Hinv Hlen) as (x & h & item & Hpop & <- & Hin & Hacc & Hinv' & Hlen' & Hp & Hleast).
  apply wp_bind. eapply wp_getsome; [done|]. simpl. apply wp_bind, wp_modify, wp_bind.
  eapply wp_mono; [by apply IH|]. intros l q' [Hq' [P1 P2 P3 P4 P5 P6]]. apply wp_ret. split; [done|]. simpl in *.
  assert (∀ a, a ∈ l → a ∈ evictable (delete (ei_RequestID x.2) (eq_allInFlight q))) as Hsub.
  { intros a Ha. rewrite Forall_forall in P1. destruct (P1 a Ha) as [H1 H2]. apply list_elem_of_filter. split; [done|].
    apply elem_of_values; [by apply (qv_keyed _ Hinv')|done]. }
  split.
  - constructor; [done|]. eapply Forall_impl; [exact P1|]. intros a [[_ Ha]%lookup_delete_Some ?]. done.
  - rewrite fmap_cons. apply NoDup_cons. split; [|done]. intros (a & Heq & Ha)%list_elem_of_fmap.
    rewrite Forall_forall in P1. destruct (P1 a Ha) as [[Hne _]%lookup_delete_Some _]. congruence.
  - constructor; [done|]. apply Forall_forall. intros a Ha. rewrite Forall_forall in Hleast. by apply Hleast, Hsub.
  - rewrite Hp. simpl. rewrite P4. done.
  - constructor; [|done]. apply Forall_forall. intros b Hb. rewrite Forall_forall in Hleast. apply Hleast.
    apply list_elem_of_filter in Hb as [Hb1 Hb2]. apply list_elem_of_filter. split; [done|].
    apply elem_of_values; [by apply (qv_keyed _ Hinv')|]. apply elem_of_values in Hb2; [|by apply (qv_keyed _ Hq')].
    rewrite P6 in Hb2. clear -Hb2. induction l as [|a l IHl]; [done|]. simpl in Hb2. apply lookup_delete_Some in Hb2 as [_ Hb2].
    by apply IHl.
  - rewrite P6. clear. induction l as [|a l IHl]; [done|]. simpl. rewrite IHl. apply delete_delete.
Qed.
End queue_inv.

(** ** The registry of channels: [eviction_registry.go] *)

Abbreviation EvictionRegistry := (gmap string positive).

Definition Register (requestID : string) (ch : positive) (r : EvictionRegistry) : EvictionRegistry := <[requestID := ch]> r.
Definition Get (requestID : string) (r : EvictionRegistry) : option positive := r !! requestID.
Definition Deregister (requestID : string) (r : EvictionRegistry) : EvictionRegistry := delete requestID r.

(** ** Evictors: [evictor.go] *)

(** The second one remembers the requests whose channels it has closed. *)
Inductive Evictor := NoOpEvictor | ImmediateResponseEvictor (closeOnce : gset string).

(** ** The request evictor: [plugin.go] *)

(** With the channels that have been made and those that are closed. *)
Record RequestEvictor := mkRequestEvictor {
  re_queue : EvictionQueue;
  re_evictor : Evictor;
  re_evictionRegistry : EvictionRegistry;
  re_made : gset positive;
  re_closed : gset positive
}.

Definition NewRequestEvictor (evictor : Evictor) : RequestEvictor := mkRequestEvictor NewEvictionQueue evictor ∅ ∅ ∅.

Definition on_queue {A} (c : GoM EvictionQueue A) : GoM RequestEvictor A := λ p,
  match c (re_queue p) with
  | None => None
  | Some (a, q) => Some (a, mkRequestEvictor q (re_evictor p) (re_evictionRegistry p) (re_made p) (re_closed p))
  end.

Definition close_channel (ch : positive) : GoM RequestEvictor unit := λ p,
  if bool_decide (ch ∈ re_closed p) then None
  else Some (tt, mkRequestEvictor (re_queue p) (re_evictor p) (re_evictionRegistry p) (re_made p) ({[ch]} ∪ re_closed p)).

Definition set_evictor (e : Evictor) : GoM RequestEvictor unit :=
  modify (λ p, mkRequestEvictor (re_queue p) e (re_evictionRegistry p) (re_made p) (re_closed p)).

Definition errNoEvictionChannel (requestID : string) : string := "eviction item " +:+ requestID +:+ " has no eviction channel".

Definition Evict (item : EvictionItem) : GoM RequestEvictor (option string) :=
  evictor ← gets re_evictor;
  match evictor, ei_EvictCh item with
  | NoOpEvictor, _ => mret None
  | ImmediateResponseEvictor _, None => mret (Some (errNoEvictionChannel (ei_RequestID item)))
  | ImmediateResponseEvictor closeOnce, Some ch =>
      (if bool_decide (ei_RequestID item ∈ closeOnce) then mret tt
       else close_channel ch ;; set_evictor (ImmediateResponseEvictor ({[ei_RequestID item]} ∪ closeOnce))) ;;
      mret None
  end.

Definition Cleanup (requestID : string) (e : Evictor) : Evictor :=
  match e with
  | NoOpEvictor => NoOpEvictor
  | ImmediateResponseEvictor closeOnce => ImmediateResponseEvictor (closeOnce ∖ {[requestID]})
  end.

Section evictor.
Context (Less : EvictionItem → EvictionItem → bool) (Accept : EvictionItem → bool).

Definition register_channel (requestID : string) (ch : positive) : GoM RequestEvictor unit :=
  modify (λ p, mkRequestEvictor (re_queue p) (re_evictor p) (Register requestID ch (re_evictionRegistry p)) (re_made p) (re_closed p)).

Definition make_channel : GoM RequestEvictor positive := λ p,
  let ch := fresh (re_made p) in
  Some (ch, mkRequestEvictor (re_queue p) (re_evictor p) (re_evictionRegistry p) ({[ch]} ∪ re_made p) (re_closed p)).

(** The target of a request that can be followed. *)
Definition eviction_target (result : option SchedulingResult) : option Endpoint :=
  r ← result;
  match sr_ProfileResults r !! sr_PrimaryProfileName r with
  | Some (Some (target :: _)) => Some target
  | _ => None
  end.

Definition eviction_item (requestID : string) (request : InferenceRequest) (target : Endpoint) (ch : positive) (now : Z) : EvictionItem :=
  mkEvictionItem requestID (ir_Priority request) now ("http://" +:+ host_port target) request (ep_Metadata target) (Some ch).

Definition PreRequest (request : option InferenceRequest) (result : option SchedulingResult) (now : Z) : GoM RequestEvictor unit :=
  match request, eviction_target result with
  | Some request, Some target =>
      let requestID := default "" (ir_Headers request !! RequestIdHeaderKey) in
      if bool_decide (requestID = "") then mret tt
      else
        ch ← make_channel;
        on_queue (Track Less Accept (eviction_item requestID request target ch now)) ;;
        register_channel requestID ch
  | _, _ => mret tt
  end.

Definition cleanupRequest (requestID : string) : GoM RequestEvictor unit :=
  on_queue (Untrack Less requestID) ;;
  modify (λ p, mkRequestEvictor (re_queue p) (Cleanup requestID (re_evictor p)) (Deregister requestID (re_evictionRegistry p))
                 (re_made p) (re_closed p)).

Definition ResponseBody (request : option InferenceRequest) (endOfStream : bool) : GoM RequestEvictor unit :=
  match request with
  | Some request =>
      let requestID := default "" (ir_Headers request !! RequestIdHeaderKey) in
      if negb endOfStream || bool_decide (requestID = "") then mret tt else cleanupRequest requestID
  | None => mret tt
  end.

(** The ids of the evicted requests. *)
Fixpoint EvictN (n : nat) : GoM RequestEvictor (list string) :=
  match n with
  | O => mret []
  | S n' =>
      items ← on_queue (PopN Less 1);
      match items with
      | item :: _ =>
          err ← Evict item;
          match err with
          | Some _ => on_queue (Track Less Accept item) ;; EvictN n'
          | None => rest ← EvictN n'; mret (ei_RequestID item :: rest)
          end
      | [] => mret []
      end
  end.

Definition Stats (p : RequestEvictor) : nat * nat := (InFlightLen (re_queue p), EvictableLen (re_queue p)).
End evictor.

(** ** The evictor with immediate responses *)

Section signals.
Context (Less : EvictionItem → EvictionItem → bool) (Accept : EvictionItem → bool) `{Hswo : !StrictWeakOrder Less}.
Implicit Types (p : RequestEvictor) (live : gset string) (item : EvictionItem).

Abbreviation inflight p := (eq_allInFlight (re_queue p)).

(** The channel of a request in flight is open, and known to its stream. *)
Record signallable p (id : string) item (ch : positive) : Prop := mkSignallable {
  si_ch : ei_EvictCh item = Some ch;
  si_made : ch ∈ re_made p;
  si_open : ch ∉ re_closed p;
  si_registered : re_evictionRegistry p !! id = Some ch
}.

(** [live]: the requests that have been sent and not ended. *)
Record evictor_inv p live : Prop := mkEvictorInv {
  vi_queue : queue_inv Less Accept (re_queue p);
  vi_once : ∃ closeOnce, re_evictor p = ImmediateResponseEvictor closeOnce ∧ closeOnce ⊆ live ∧
    ∀ id, id ∈ dom (inflight p) → id ∉ closeOnce;
  vi_live : dom (inflight p) ⊆ live;
  vi_items : ∀ id item, inflight p !! id = Some item → ∃ ch, signallable p id item ch;
  vi_distinct : ∀ id id' item item' ch, inflight p !! id = Some item → inflight p !! id' = Some item' →
    ei_EvictCh item = Some ch → ei_EvictCh item' = Some ch → id = id';
  vi_closed : re_closed p ⊆ re_made p
}.

Lemma wp_on_eviction_queue {A} (c : GoM EvictionQueue A) (Q : A → RequestEvictor → Prop) p :
  wp c (λ a q, Q a (mkRequestEvictor q (re_evictor p) (re_evictionRegistry p) (re_made p) (re_closed p))) (re_queue p) →
  wp (on_queue c) Q p.
Proof using Type. unfold wp, on_queue. by destruct (c (re_queue p)) as [[]|]. Qed.

Lemma new_evictor_inv : evictor_inv (NewRequestEvictor (ImmediateResponseEvictor ∅)) ∅.
Proof using Type.
  split; [|by exists ∅|done|done|done|done]. split; [|apply map_Forall_empty|done].
  split; [apply empty_indexed_ok|apply empty_indexed_order|constructor|].
  intros id e. split; [done|]. by intros (item & ?%elem_of_nil & _).
Qed.

Lemma cleanup_inv id p live : evictor_inv p live →
  wp (cleanupRequest Less id) (λ _ p', evictor_inv p' (live ∖ {[id]})) p.
Proof using Hswo.
  intros [Hq (co & He & Hco & Hdis) Hl Hi Hd Hc]. unfold cleanupRequest. apply wp_bind, wp_on_eviction_queue.
  eapply wp_mono; [by apply Untrack_spec|]. intros [] q' [Hq' Hfl]. apply wp_modify. split; simpl; [done| | | | |done].
  - exists (co ∖ {[id]}). rewrite He. split; [done|]. split; [set_solver|]. intros id'. rewrite Hfl, dom_delete. set_solver.
  - rewrite Hfl, dom_delete. set_solver.
  - rewrite Hfl. intros id' item [Hne Hit]%lookup_delete_Some. destruct (Hi id' item Hit) as (ch & [H1 H2 H3 H4]).
    exists ch. split; [done..|]. simpl. unfold Deregister. by rewrite lookup_delete_ne.
  - rewrite Hfl. intros id1 id2 item1 item2 ch [_ H1]%lookup_delete_Some [_ H2]%lookup_delete_Some. by apply (Hd id1 id2).
Qed.

Lemma pre_request_inv request result target now p live : evictor_inv p live → eviction_target result = Some target →
  let id := default "" (ir_Headers request !! RequestIdHeaderKey) in id ≠ "" → id ∉ live →
  wp (PreRequest Less Accept (Some request) result now) (λ _ p', evictor_inv p' ({[id]} ∪ live) ∧
    ∃ item, inflight p' = <[id := item]> (inflight p) ∧ ei_Priority item = ir_Priority request) p.
Proof using Hswo.
  intros [Hq (co & He & Hco & Hdis) Hl Hi Hd Hc] Ht id Hne Hid. unfold PreRequest. rewrite Ht. fold id.
  rewrite bool_decide_false by done. apply wp_bind. unfold make_channel, wp at 1. set (ch := fresh (re_made p)).
  assert (ch ∉ re_made p) as Hf by apply is_fresh. apply wp_bind, wp_on_eviction_queue.
  eapply wp_mono; [by apply Track_spec|]. intros [] q' [Hq' Hfl]. apply wp_modify. simpl in Hfl.
  set (item := eviction_item id request target ch now) in *. split; [|by exists item]. split; simpl; [done| | | | |set_solver].
  - exists co. split; [done|]. split; [set_solver|]. intros id'. rewrite Hfl, dom_insert. set_solver.
  - rewrite Hfl, dom_insert. set_solver.
  - rewrite Hfl. intros id' item' [[<- <-]|[Hne' Hit]]%lookup_insert_Some.
    + exists ch. split; [done|simpl; set_solver|simpl; set_solver|]. apply lookup_insert_eq.
    + destruct (Hi id' item' Hit) as (ch' & [H1 H2 H3 H4]). exists ch'. split; [done|simpl; set_solver|done|].
      simpl. unfold Register. by rewrite lookup_insert_ne.
  - rewrite Hfl. intros id1 id2 item1 item2 c H1 H2 E1 E2. rewrite lookup_insert_Some in H1, H2.
    destruct H1 as [[<- <-]|[? H1]], H2 as [[<- <-]|[? H2]]; [done| | |by apply (Hd id1 id2 item1 item2 c)]; exfalso.
    + simpl in E1. injection E1 as <-. destruct (Hi id2 item2 H2) as (ch' & [S1 S2 _ _]). rewrite E2 in S1. by injection S1 as <-.
    + simpl in E2. injection E2 as <-. destruct (Hi id1 item1 H1) as (ch' & [S1 S2 _ _]). rewrite E1 in S1. by injection S1 as <-.
Qed.

(** What an eviction of up to [n] requests does. *)
Record evicted (n : nat) p (ids : list string) p' : Prop := mkEvicted {
  ev_length : length ids = n `min` length (evictable Accept (inflight p));
  ev_distinct : NoDup ids;
  ev_signalled : Forall (λ id, ∃ item ch, inflight p !! id = Some item ∧ Accept item = true ∧
    signallable p id item ch ∧ ch ∈ re_closed p') ids;
  ev_only : ∀ ch, ch ∈ re_closed p' → ch ∈ re_closed p ∨ ∃ id item, id ∈ ids ∧ inflight p !! id = Some item ∧ ei_EvictCh item = Some ch;
  ev_order : ∀ id item other o, id ∈ ids → inflight p !! id = Some item → inflight p' !! other = Some o →
    Accept o = true → Less o item = false;
  ev_rest : inflight p' = filter (λ x, x.1 ∉ ids) (inflight p)
}.

(** One request. *)
Lemma evict_one p live item rest : evictor_inv p live → popped Less Accept 1 (inflight p) [item] (eq_allInFlight rest) →
  queue_inv Less Accept rest →
  ∃ ch p', Evict item (mkRequestEvictor rest (re_evictor p) (re_evictionRegistry p) (re_made p) (re_closed p)) = Some (None, p') ∧
    evictor_inv p' live ∧ signallable p (ei_RequestID item) item ch ∧ re_closed p' = {[ch]} ∪ re_closed p ∧
    re_queue p' = rest ∧ re_evictionRegistry p' = re_evictionRegistry p ∧ re_made p' = re_made p.
Proof using Hswo.
  intros [Hq (co & He & Hco & Hdis) Hl Hi Hd Hc] [P1 _ _ _ _ P6] Hrest. simpl in P6.
  apply Forall_singleton in P1 as [Hit Hacc]. destruct (Hi _ _ Hit) as (ch & Hs). pose proof Hs as [S1 S2 S3 S4].
  assert (ei_RequestID item ∉ co) as Hnot by (apply Hdis, elem_of_dom; by eexists).
  unfold Evict, mbind, gom_bind, gets. simpl. rewrite He, S1, bool_decide_false by done. unfold close_channel. simpl.
  rewrite bool_decide_false by done. simpl. do 2 eexists. split; [reflexivity|]. split_and!; try done.
  split; simpl; [done| | | | |set_solver].
  - eexists. split; [done|]. split.
    + assert (ei_RequestID item ∈ live) by (apply Hl, elem_of_dom; by eexists). set_solver.
    + intros id. rewrite P6, dom_delete. set_solver.
  - rewrite P6, dom_delete. set_solver.
  - rewrite P6. intros id' item' [Hne Hit']%lookup_delete_Some. destruct (Hi id' item' Hit') as (ch' & [T1 T2 T3 T4]).
    exists ch'. split; [done|done| |done]. simpl. assert (ch' ≠ ch); [|set_solver]. intros ->.
    apply Hne. by eapply (Hd (ei_RequestID item) id').
  - rewrite P6. intros id1 id2 item1 item2 c [_ H1]%lookup_delete_Some [_ H2]%lookup_delete_Some. by apply (Hd id1 id2).
Qed.

Lemma evict_none p : evictable Accept (inflight p) = [] → ∀ n, evicted n p [] p.
Proof using Type.
  intros Hnil n. split; [|constructor|constructor|..].
  - rewrite Hnil. simpl. lia.
  - by left.
  - by intros id item other o ?%elem_of_nil.
  - symmetry. apply map_filter_id. intros i x _. apply not_elem_of_nil.
Qed.

(** The first one, and those after it. *)
Lemma evicted_cons n p p1 p' item ch ids live : evictor_inv p live → evictor_inv p1 live →
  popped Less Accept 1 (inflight p) [item] (inflight p1) →
  signallable p (ei_RequestID item) item ch → re_closed p1 = {[ch]} ∪ re_closed p →
  re_evictionRegistry p1 = re_evictionRegistry p → re_made p1 = re_made p →
  re_closed p1 ⊆ re_closed p' → evicted n p1 ids p' → evicted (S n) p (ei_RequestID item :: ids) p'.
Proof using Hswo.
  intros Hinv Hinv1 [P1 _ _ P4 P5 P6] Hs Hcl Hreg Hmade Hmono [E1 E2 E3 E4 E5 E6]. simpl in P6.
  apply Forall_singleton in P1 as [Hit Hacc]. apply Forall_cons in P5 as [P5 _].
  pose proof (qv_keyed _ _ _ (vi_queue _ _ Hinv)) as Hk. pose proof (qv_keyed _ _ _ (vi_queue _ _ Hinv1)) as Hk1.
  assert (ei_RequestID item ∉ ids) as Hnot.
  { intros Hin. rewrite Forall_forall in E3. destruct (E3 _ Hin) as (it & c & H & _). rewrite P6 in H.
    by rewrite lookup_delete_eq in H. }
  assert (∀ id it, inflight p1 !! id = Some it → inflight p !! id = Some it) as Hsub.
  { intros id it. rewrite P6. by intros [_ ?]%lookup_delete_Some. }
  split.
  - simpl. rewrite E1. assert (length (evictable Accept (inflight p)) = S (length (evictable Accept (inflight p1)))) as ->; [|done].
    by rewrite P6, (evictable_delete Accept _ item).
  - by constructor.
  - constructor; [|eapply Forall_impl; [exact E3|]].
    + exists item, ch. split_and!; try done. apply Hmono. rewrite Hcl. set_solver.
    + intros id (it & c & H1 & H2 & [S1 S2 S3 S4] & H4). exists it, c. split_and!; [by apply Hsub|done| |done].
      split; [done|by rewrite <- Hmade| |by rewrite <- Hreg]. rewrite Hcl in S3. set_solver.
  - intros c Hc. destruct (E4 c Hc) as [H|(id & it & Hid & H & Hch)].
    + rewrite Hcl in H. apply elem_of_union in H as [->%elem_of_singleton|H]; [|by left]. right.
      exists (ei_RequestID item), item. split; [by apply elem_of_cons; left|]. split; [done|apply Hs].
    + right. exists id, it. split; [by apply elem_of_cons; right|]. split; [by apply Hsub|done].
  - intros id it other o Hid Hin Ho Hacco. apply elem_of_cons in Hid as [->|Hid].
    + rewrite Hit in Hin. injection Hin as <-. rewrite Forall_forall in P5. apply P5. rewrite E6 in Ho.
      apply map_lookup_filter_Some in Ho as [Ho _]. apply list_elem_of_filter. split; [done|].
      apply elem_of_values; [done|]. by rewrite (Hk1 _ _ Ho).
    + apply (E5 id it other o); try done. rewrite P6. apply lookup_delete_Some. split; [|done]. intros <-. done.
  - rewrite E6, P6. apply map_eq. intros id. destruct (decide (id = ei_RequestID item)) as [->|Hne].
    + rewrite !map_lookup_filter_None_2; [done| |].
      * right. intros x _ H. apply H. apply elem_of_cons. by left.
      * left. apply lookup_delete_eq.
    + destruct (inflight p !! id) as [x|] eqn:Hx.
      * destruct (decide (id ∈ ids)) as [Hin|Hin].
        -- rewrite !map_lookup_filter_None_2; [done| |]; right; intros y _ H; apply H; [by apply elem_of_cons; right|done].
        -- rewrite !(map_lookup_filter_Some_2 _ _ id x); [done|done| |by rewrite lookup_delete_ne|done].
           simpl. by intros [?|?]%elem_of_cons.
      * rewrite !map_lookup_filter_None_2; [done|by left|]. left. by rewrite lookup_delete_ne.
Qed.

Lemma evictor_requeue p live rest : evictor_inv p live → queue_inv Less Accept rest → eq_allInFlight rest = inflight p →
  evictor_inv (mkRequestEvictor rest (re_evictor p) (re_evictionRegistry p) (re_made p) (re_closed p)) live.
Proof using Type.
  intros [Hq Ho Hl Hi Hd Hc] Hrest Hm. split; simpl; rewrite ?Hm; try done.
  intros id item Hit. destruct (Hi id item Hit) as (ch & [S1 S2 S3 S4]). exists ch. by split.
Qed.

Lemma EvictN_spec n : ∀ p live, evictor_inv p live →
  wp (EvictN Less Accept n) (λ ids p', evictor_inv p' live ∧ evicted n p ids p' ∧ re_closed p ⊆ re_closed p') p.
Proof using Hswo.
  induction n as [|n IH]; intros p live Hinv; cbn [EvictN].
  { apply wp_ret. split; [done|]. split; [|done].
    split; [done|constructor|constructor|by left|by intros ???? ?%elem_of_nil|].
    symmetry. apply map_filter_id. intros i x _. apply not_elem_of_nil. }
  apply wp_bind, wp_on_eviction_queue. eapply wp_mono; [apply (PopN_spec Less Accept 1), (vi_queue _ _ Hinv)|].
  intros l rest [Hrest Hpop]. pose proof (po_length _ _ _ _ _ _ Hpop) as Hlen. destruct l as [|item [|item' l]]; cbn [length] in Hlen.
  - assert (evictable Accept (inflight p) = []) as Hnil by (apply nil_length_inv; lia).
    apply wp_ret. pose proof (po_rest _ _ _ _ _ _ Hpop) as Hm. simpl in Hm. split; [by apply evictor_requeue|].
    split; [|done]. destruct (evict_none p Hnil (S n)) as [E1 E2 E3 E4 E5 E6]. by split; simpl; rewrite ?Hm.
  - destruct (evict_one p live item rest Hinv Hpop Hrest) as (ch & p1 & Hev & Hinv1 & Hs & Hcl & Hq & Hreg & Hmade).
    apply wp_bind. unfold wp at 1. rewrite Hev. apply wp_bind. eapply wp_mono; [by apply IH|].
    intros ids p' (Hinv' & Hevd & Hmono). apply wp_ret. split; [done|]. split; [|set_solver].
    eapply (evicted_cons n p p1); try done. by rewrite Hq.
  - lia.
Qed.

(** ** Runs *)

(** Requests are sent and end; some are evicted. The id of a request that is sent is not that
    of a live one. A request may be ended more than once, by its response and by its
    context. *)
Inductive evictor_step : RequestEvictor * gset string → RequestEvictor * gset string → Prop :=
  | step_sent request result target now p live p' :
      let id := default "" (ir_Headers request !! RequestIdHeaderKey) in
      eviction_target result = Some target → id ≠ "" → id ∉ live →
      PreRequest Less Accept (Some request) result now p = Some (tt, p') →
      evictor_step (p, live) (p', {[id]} ∪ live)
  | step_ended id p live p' :
      cleanupRequest Less id p = Some (tt, p') → evictor_step (p, live) (p', live ∖ {[id]})
  | step_evict n ids p live p' :
      EvictN Less Accept n p = Some (ids, p') → evictor_step (p, live) (p', live).

Definition start_evictor : RequestEvictor * gset string := (NewRequestEvictor (ImmediateResponseEvictor ∅), ∅).

Lemma evictor_reachable s : rtc evictor_step start_evictor s → evictor_inv s.1 s.2.
Proof using Hswo.
  intros Hr. assert (evictor_inv start_evictor.1 start_evictor.2) as H0 by apply new_evictor_inv.
  revert H0. induction Hr as [|s1 s2 s3 Hs _ IH]; intros H1; [done|]. apply IH. destruct Hs as [request result target now p live p' id Ht Hne Hl Hp|id p live p' Hp|n ids p live p' Hp]; cbn [fst snd] in *.
  - pose proof (pre_request_inv request result target now p live H1 Ht Hne Hl) as H. unfold wp in H. rewrite Hp in H. apply H.
  - pose proof (cleanup_inv id p live H1) as H. unfold wp in H. by rewrite Hp in H.
  - pose proof (EvictN_spec n p live H1) as H. unfold wp in H. rewrite Hp in H. apply H.
Qed.
End signals.

(** ** What the queue promises *)

Inductive QueueOp := OpTrack (item : EvictionItem) | OpUntrack (requestID : string) | OpPopN (n : nat).

Definition queue_op Less Accept (op : QueueOp) : GoM EvictionQueue (list EvictionItem) :=
  match op with
  | OpTrack item => Track Less Accept item ;; mret []
  | OpUntrack requestID => Untrack Less requestID ;; mret []
  | OpPopN n => PopN Less n
  end.

Fixpoint queue_ops Less Accept (ops : list QueueOp) : GoM EvictionQueue (list (list EvictionItem)) :=
  match ops with
  | [] => mret []
  | op :: ops' => out ← queue_op Less Accept op; outs ← queue_ops Less Accept ops'; mret (out :: outs)
  end.

(** The requests in flight as a map; popping takes the first ones in the order of eviction. *)
Inductive spec_op Less Accept (m : gmap string EvictionItem) : QueueOp → list EvictionItem → gmap string EvictionItem → Prop :=
  | spec_track item : spec_op Less Accept m (OpTrack item) [] (<[ei_RequestID item := item]> m)
  | spec_untrack id : spec_op Less Accept m (OpUntrack id) [] (delete id m)
  | spec_popn n l m' : popped Less Accept n m l m' → spec_op Less Accept m (OpPopN n) l m'.

Inductive spec_ops Less Accept : gmap string EvictionItem → list QueueOp → list (list EvictionItem) → gmap string EvictionItem → Prop :=
  | spec_nil m : spec_ops Less Accept m [] [] m
  | spec_cons m op ops out outs m1 m' :
      spec_op Less Accept m op out m1 → spec_ops Less Accept m1 ops outs m' → spec_ops Less Accept m (op :: ops) (out :: outs) m'.

Section refinement.
Context (Less : EvictionItem → EvictionItem → bool) (Accept : EvictionItem → bool) `{Hswo : !StrictWeakOrder Less}.

Lemma queue_op_refines op q : queue_inv Less Accept q →
  wp (queue_op Less Accept op) (λ out q', queue_inv Less Accept q' ∧ spec_op Less Accept (eq_allInFlight q) op out (eq_allInFlight q')) q.
Proof using Hswo.
  intros Hq. destruct op as [item|id|n]; simpl.
  - apply wp_bind. eapply wp_mono; [by apply Track_spec|]. intros [] q' [Hq' Hfl]. apply wp_ret. split; [done|]. rewrite Hfl. constructor.
  - apply wp_bind. eapply wp_mono; [by apply (Untrack_spec Less Accept)|]. intros [] q' [Hq' Hfl]. apply wp_ret. split; [done|]. rewrite Hfl. constructor.
  - eapply wp_mono; [by apply (PopN_spec Less Accept)|]. intros l q' [Hq' Hp]. split; [done|by constructor].
Qed.

Lemma queue_ops_refine ops : ∀ q, queue_inv Less Accept q →
  wp (queue_ops Less Accept ops) (λ outs q', queue_inv Less Accept q' ∧ spec_ops Less Accept (eq_allInFlight q) ops outs (eq_allInFlight q')) q.
Proof using Hswo.
  induction ops as [|op ops IH]; intros q Hq; simpl; [apply wp_ret; split; [done|constructor]|].
  apply wp_bind. eapply wp_mono; [by apply queue_op_refines|]. intros out q1 [Hq1 Hop].
  apply wp_bind. eapply wp_mono; [by apply IH|]. intros outs q2 [Hq2 Hops]. apply wp_ret. split; [done|by econstructor].
Qed.

(** What is looked at first is what is popped first. *)
Lemma Peek_least q item : queue_inv Less Accept q → Peek q = Some item →
  item ∈ evictable Accept (eq_allInFlight q) ∧ Forall (λ b, Less b item = false) (evictable Accept (eq_allInFlight q)).
Proof using Hswo.
  intros [[Hix Ho _ _] _ Hp] Hpeek. unfold Peek in Hpeek.
  destruct (ix_items (eq_h q) !! 0) as [[e item']|] eqn:H0; [|done]. injection Hpeek as <-. split.
  - rewrite <- Hp. apply list_elem_of_fmap. exists (e, item'). split; [done|by eapply list_elem_of_lookup_2].
  - rewrite <- Hp. apply Forall_fmap. by apply (ix_root_least Less (eq_h q) e).
Qed.
End refinement.

(** C36. The eviction queue is the map of the requests in flight, ordered for eviction. From the
    empty queue, any sequence of operations runs without a panic (no index of an entry is
    ever stale): tracking a request adds it or replaces the one with its id, untracking
    removes it, and [PopN n] removes the first [n] of the requests that the filter accepts,
    in the order of eviction and all of them if there are fewer; no request that is left
    comes before one that was popped. The two counts are the number of requests in flight
    and of those that the filter accepts, and [Peek] is the first of them. *)
Theorem eviction_queue_refines (Less : EvictionItem → EvictionItem → bool) (Accept : EvictionItem → bool)
    (ops : list QueueOp) (Hswo : StrictWeakOrder Less) :
  ∃ outs q, queue_ops Less Accept ops NewEvictionQueue = Some (outs, q) ∧
    spec_ops Less Accept ∅ ops outs (eq_allInFlight q) ∧
    InFlightLen q = size (eq_allInFlight q) ∧
    EvictableLen q = length (evictable Accept (eq_allInFlight q)) ∧
    ∀ item, Peek q = Some item → item ∈ evictable Accept (eq_allInFlight q) ∧
      Forall (λ b, Less b item = false) (evictable Accept (eq_allInFlight q)).
Proof.
  pose proof (vi_queue _ _ _ _ (new_evictor_inv Less Accept)) as H0. simpl in H0.
  pose proof (queue_ops_refine Less Accept ops _ H0) as (outs & q & Hrun & Hq & Hspec)%wp_run.
  exists outs, q. split_and!; [done|done|done|by eapply evictable_len|]. intros item. by eapply Peek_least.
Qed.

(** C14. Evicting requests signals exactly the right ones. In every state that is reached by
    sending requests with ids of their own, ending and evicting them: [EvictN n] does not
    panic (no channel is closed twice); it returns the ids of [n] different requests that
    the filter accepts, or of all if there are fewer; the channel of each of them, which
    is the one its stream gets from the registry, was open and is closed; no other channel
    is closed; no request that is left in flight comes before an evicted one in the order
    of eviction; and exactly the evicted requests leave the queue. *)
Theorem eviction_signals (Less : EvictionItem → EvictionItem → bool) (Accept : EvictionItem → bool)
    (p : RequestEvictor) (live : gset string) (n : nat) (Hswo : StrictWeakOrder Less)
    (Hr : rtc (evictor_step Less Accept) start_evictor (p, live)) :
  ∃ ids p', EvictN Less Accept n p = Some (ids, p') ∧ evicted Less Accept n p ids p'.
Proof.
  pose proof (evictor_reachable Less Accept (p, live) Hr) as Hinv. simpl in Hinv.
  pose proof (EvictN_spec Less Accept n p live Hinv) as (ids & p' & Hrun & _ & Hev & _)%wp_run. by exists ids, p'.
Qed.

(** ** Examples *)

Definition evict_request (id : string) (priority : Z) : InferenceRequest :=
  mkInferenceRequest id "llama" None {[ RequestIdHeaderKey := id ]} priority 0.

Definition evict_target : Endpoint :=
  mkEndpoint 1 (mkMetadata (mkNamespacedName "ns" "pod") "pod" "10.0.0.1" "8000" "" ∅) NewMetrics ∅.

Definition evict_item (id : string) (priority now : Z) (ch : positive) : EvictionItem :=
  eviction_item id (evict_request id priority) evict_target ch now.

Lemma eviction_queue_refines_witness :
  ∃ q, queue_ops priority_then_time sheddable
    [OpTrack (evict_item "a" (-1) 1 1); OpTrack (evict_item "b" (-5) 2 2); OpTrack (evict_item "c" 3 3 3);
     OpTrack (evict_item "d" (-1) 4 4); OpTrack (evict_item "e" (-9) 5 5); OpUntrack "e"; OpPopN 2] NewEvictionQueue =
    Some ([[]; []; []; []; []; []; [evict_item "b" (-5) 2 2; evict_item "d" (-1) 4 4]], q) ∧
    EvictableLen q = length (evictable sheddable (eq_allInFlight q)).
Proof.
  destruct (eviction_queue_refines priority_then_time sheddable
    [OpTrack (evict_item "a" (-1) 1 1); OpTrack (evict_item "b" (-5) 2 2); OpTrack (evict_item "c" 3 3 3);
     OpTrack (evict_item "d" (-1) 4 4); OpTrack (evict_item "e" (-9) 5 5); OpUntrack "e"; OpPopN 2] priority_then_time_swo)
    as (outs & q & Hrun & _ & _ & Hlen & _).
  exists q. split; [|exact Hlen]. rewrite Hrun.
  assert (fst <$> queue_ops priority_then_time sheddable
    [OpTrack (evict_item "a" (-1) 1 1); OpTrack (evict_item "b" (-5) 2 2); OpTrack (evict_item "c" 3 3 3);
     OpTrack (evict_item "d" (-1) 4 4); OpTrack (evict_item "e" (-9) 5 5); OpUntrack "e"; OpPopN 2] NewEvictionQueue =
    Some [[]; []; []; []; []; []; [evict_item "b" (-5) 2 2; evict_item "d" (-1) 4 4]]) as H by (vm_compute; reflexivity).
  rewrite Hrun in H. injection H as ->. reflexivity.
Defined.

Definition evict_result : SchedulingResult := mkSchedulingResult {[ "default"%string := Some [evict_target] ]} "default".

(** Two requests of which one can be shed. *)
Definition two_in_flight : RequestEvictor := Eval vm_compute in
  default (NewRequestEvictor NoOpEvictor)
    (snd <$> (PreRequest priority_then_time sheddable (Some (evict_request "a" (-1))) (Some evict_result) 1 ;;
              PreRequest priority_then_time sheddable (Some (evict_request "b" 2)) (Some evict_result) 2) start_evictor.1).

Lemma two_in_flight_reachable : rtc (evictor_step priority_then_time sheddable) start_evictor (two_in_flight, {["b"]} ∪ ({["a"]} ∪ ∅)).
Proof.
  eapply rtc_l; [|eapply rtc_l; [|apply rtc_refl]].
  - eapply (step_sent _ _ (evict_request "a" (-1)) (Some evict_result) evict_target 1); [done..|]. vm_compute. reflexivity.
  - eapply (step_sent _ _ (evict_request "b" 2) (Some evict_result) evict_target 2); [done|done| |vm_compute; reflexivity].
    change ("b"%string ∉ ({["a"%string]} ∪ ∅ : gset string)). apply (bool_decide_unpack _). vm_compute. exact Logic.I.
Qed.

Lemma eviction_signals_witness :
  ∃ p', EvictN priority_then_time sheddable 5 two_in_flight = Some (["a"%string], p') ∧
    evicted priority_then_time sheddable 5 two_in_flight ["a"%string] p'.
Proof.
  destruct (eviction_signals priority_then_time sheddable two_in_flight _ 5 priority_then_time_swo two_in_flight_reachable)
    as (ids & p' & Hrun & Hev).
  assert (fst <$> EvictN priority_then_time sheddable 5 two_in_flight = Some ["a"%string]) as H by (vm_compute; reflexivity).
  rewrite Hrun in H. injection H as ->. exists p'. split; [exact Hrun|exact Hev].
Defined.

(** A request that takes the id of an evicted one, before that has ended, is reported as
    evicted, but its stream gets no signal. *)
Lemma reused_id_not_signalled :
  ∃ p ch, (PreRequest priority_then_time sheddable (Some (evict_request "a" (-1))) (Some evict_result) 1 ;;
           EvictN priority_then_time sheddable 1 ;;
           PreRequest priority_then_time sheddable (Some (evict_request "a" (-1))) (Some evict_result) 2 ;;
           EvictN priority_then_time sheddable 1) start_evictor.1 = Some (["a"%string], p) ∧
    Get "a" (re_evictionRegistry p) = Some ch ∧ ch ∉ re_closed p.
Proof.
  do 2 eexists. split; [vm_compute; reflexivity|]. split; [vm_compute; reflexivity|].
  apply (bool_decide_unpack _). vm_compute. exact Logic.I.
Qed.
