(* ===== verification/DataGraph.v ===== *)
(** * The order of the data producers: [datalayer/data_graph.go]

    Plugins declare which data they produce and which they consume. The graph of these
    dependencies is built and sorted once, when the configuration is loaded; the data
    producers then run in this order for every request ([requestcontrol]). Go enumerates a
    map in any order: [order k] is that of the [k]-th loop over a map. *)

From stdpp Require Import prelude gmap strings list relations sorting.
From Stdlib Require Import ZArith Lia.
From S2P Require Import Prelude Pickers.

Abbreviation Graph := (gmap string (list string)).

(** ** Sorting: [topologicalSort] *)

Abbreviation Degrees := (gmap string Z).

Definition incr_degree (m : Degrees) (v : string) : Degrees := <[v := (default 0 (m !! v) + 1)%Z]> m.

Definition count_edges (m : Degrees) (e : string * list string) : Degrees :=
  foldl incr_degree (if m !! e.1 is Some _ then m else <[e.1 := 0%Z]> m) e.2.

(** One neighbour of the node that was taken from the queue. *)
Definition visit (s : list string * Degrees) (v : string) : list string * Degrees :=
  let d := (default 0 (s.2 !! v) - 1)%Z in
  (if bool_decide (d = 0%Z) then s.1 ++ [v] else s.1, <[v := d]> s.2).

(** The queue is processed; every node enters it at most once. *)
Fixpoint sort_loop (graph : Graph) (fuel : nat) (queue : list string) (inDegree : Degrees) (result : list string) : list string :=
  match fuel, queue with
  | S fuel', u :: queue' =>
      let '(queue, inDegree) := foldl visit (queue', inDegree) (default [] (graph !! u)) in
      sort_loop graph fuel' queue inDegree (result ++ [u])
  | _, _ => result
  end.

Definition errCycle : string := "cycle detected: graph is not a DAG".

Definition topologicalSort (order : nat → nat → nat) (graph : Graph) : list string + string :=
  let inDegree := foldl count_edges ∅ (shuffle (order 0) (map_to_list graph)) in
  let queue := (filter (λ nd, nd.2 = 0%Z) (shuffle (order 1) (map_to_list inDegree))).*1 in
  let result := sort_loop graph (size inDegree) queue inDegree [] in
  if bool_decide (length result ≠ size inDegree) then inr errCycle else inl (reverse result).

(** ** Correctness of the sort *)

(** [u] depends on [v]. *)
Definition edge (graph : Graph) (u v : string) : Prop := ∃ ns, graph !! u = Some ns ∧ v ∈ ns.
Definition node (graph : Graph) (v : string) : Prop := v ∈ dom graph ∨ ∃ u, edge graph u v.

Definition occurs (v : string) (ns : list string) : Z := Z.of_nat (length (filter (.= v) ns)).

(** The edges into [v] from nodes that are not done. *)
Fixpoint degree (es : list (string * list string)) (done : list string) (v : string) : Z :=
  match es with
  | [] => 0
  | e :: es' => ((if decide (e.1 ∈ done) then 0 else occurs v e.2) + degree es' done v)%Z
  end.

Lemma occurs_cons v w ns : occurs v (w :: ns) = ((if decide (w = v) then 1 else 0) + occurs v ns)%Z.
Proof. unfold occurs. rewrite filter_cons. destruct (decide (w = v)); simpl; lia. Qed.

Lemma occurs_nonneg v ns : (0 ≤ occurs v ns)%Z.
Proof. unfold occurs. lia. Qed.

Lemma occurs_elem v ns : (0 < occurs v ns)%Z ↔ v ∈ ns.
Proof.
  induction ns as [|w ns IH]; [split; [unfold occurs; simpl; lia|intros ?%elem_of_nil; done]|].
  rewrite occurs_cons, elem_of_cons. pose proof (occurs_nonneg v ns). case_decide; [naive_solver lia|].
  rewrite Z.add_0_l, IH. naive_solver.
Qed.

Lemma degree_nonneg es done v : (0 ≤ degree es done v)%Z.
Proof. induction es as [|e es IH]; simpl; [done|]. pose proof (occurs_nonneg v e.2). case_decide; lia. Qed.

Lemma degree_pos es done v : (0 < degree es done v)%Z ↔ (∃ e, e ∈ es ∧ (e.1 ∉ done) ∧ v ∈ e.2).
Proof.
  induction es as [|e es IH]; simpl; [split; [lia|intros (? & ?%elem_of_nil & _); done]|].
  pose proof (degree_nonneg es done v). pose proof (occurs_nonneg v e.2). setoid_rewrite elem_of_cons.
  case_decide as Hd.
  - rewrite Z.add_0_l, IH. naive_solver.
  - split.
    + intros Hp. destruct (decide (v ∈ e.2)) as [Ho|Ho]; [by exists e; naive_solver|].
      assert (¬ (0 < occurs v e.2)%Z) by (by rewrite occurs_elem).
      destruct (proj1 IH ltac:(lia)) as (e' & ? & ? & ?). exists e'. naive_solver.
    + intros (e' & [->|He] & Hn & Hv); [apply occurs_elem in Hv; lia|].
      enough (0 < degree es done v)%Z by lia. apply IH. by exists e'.
Qed.

Lemma degree_perm es es' done v : es ≡ₚ es' → degree es done v = degree es' done v.
Proof. induction 1; simpl; lia. Qed.

(** When one more node is done. *)
Lemma degree_step es done u ns v : NoDup es.*1 → (u, ns) ∈ es → u ∉ done →
  degree es done v = (degree es (done ++ [u]) v + occurs v ns)%Z.
Proof.
  induction es as [|[w ws] es IH]; simpl; intros Hnd Hin Hu; [by apply elem_of_nil in Hin|].
  apply NoDup_cons in Hnd as [Hw Hnd]. apply elem_of_cons in Hin as [[= <- <-]|Hin].
  - rewrite (decide_False (P := u ∈ done)) by done. rewrite decide_True by (apply elem_of_app; right; by apply list_elem_of_singleton).
    enough (degree es (done ++ [u]) v = degree es done v) by lia. clear IH Hnd. induction es as [|e es IH]; [done|].
    simpl in *. apply not_elem_of_cons in Hw as [Hne Hw]. rewrite (IH Hw). f_equal.
    assert (e.1 ∈ done ++ [u] ↔ e.1 ∈ done) as Hiff by (rewrite elem_of_app, list_elem_of_singleton; naive_solver).
    by destruct (decide (e.1 ∈ done ++ [u])), (decide (e.1 ∈ done)); naive_solver.
  - rewrite (IH Hnd Hin Hu). assert (w ≠ u) as Hne.
    { intros ->. apply Hw, list_elem_of_fmap. by exists (u, ns). }
    assert (w ∈ done ++ [u] ↔ w ∈ done) as Hiff by (rewrite elem_of_app, list_elem_of_singleton; naive_solver).
    destruct (decide (w ∈ done ++ [u])), (decide (w ∈ done)); first [lia|naive_solver].
Qed.

Lemma degree_skip es done u v : u ∉ es.*1 → degree es (done ++ [u]) v = degree es done v.
Proof.
  induction es as [|e es IH]; simpl; intros Hu; [done|]. apply not_elem_of_cons in Hu as [Hne Hu]. rewrite (IH Hu). f_equal.
  assert (e.1 ∈ done ++ [u] ↔ e.1 ∈ done) as Hiff by (rewrite elem_of_app, list_elem_of_singleton; naive_solver).
  by destruct (decide (e.1 ∈ done ++ [u])), (decide (e.1 ∈ done)); naive_solver.
Qed.

(** What is counted first. *)
Definition listed (es : list (string * list string)) (v : string) : Prop := ∃ e, e ∈ es ∧ (v = e.1 ∨ v ∈ e.2).

Lemma incr_degrees ns : ∀ m v, foldl incr_degree m ns !! v =
  if decide (v ∈ ns) then Some (default 0 (m !! v) + occurs v ns)%Z else m !! v.
Proof.
  induction ns as [|w ns IH]; intros m v; [done|]. cbn [foldl]. rewrite IH. unfold incr_degree. rewrite occurs_cons.
  destruct (decide (w = v)) as [->|Hne].
  - rewrite lookup_insert_eq, (decide_True (P := v ∈ v :: ns)) by (by apply elem_of_cons; left). simpl.
    case_decide as Hin; [f_equal; lia|]. f_equal. assert (¬ (0 < occurs v ns)%Z) by (by rewrite occurs_elem).
    pose proof (occurs_nonneg v ns). lia.
  - rewrite lookup_insert_ne by done. rewrite Z.add_0_l. assert (v ∈ w :: ns ↔ v ∈ ns) as Hiff by (rewrite elem_of_cons; naive_solver).
    by destruct (decide (v ∈ ns)), (decide (v ∈ w :: ns)); naive_solver.
Qed.

Lemma count_edges_spec m e v :
  (is_Some (count_edges m e !! v) ↔ v = e.1 ∨ v ∈ e.2 ∨ is_Some (m !! v)) ∧
  default 0%Z (count_edges m e !! v) = (default 0 (m !! v) + occurs v e.2)%Z.
Proof.
  unfold count_edges. rewrite incr_degrees. set (m1 := if m !! e.1 is Some _ then m else <[e.1 := 0%Z]> m).
  assert ((is_Some (m1 !! v) ↔ v = e.1 ∨ is_Some (m !! v)) ∧ default 0%Z (m1 !! v) = default 0%Z (m !! v)) as [H1 H2].
  { unfold m1. destruct (m !! e.1) as [d|] eqn:He.
    - split; [|done]. split; [by right|]. by intros [->|?].
    - destruct (decide (v = e.1)) as [->|Hne]; [rewrite lookup_insert_eq, He; split; [split; [by left|by eexists]|done]|].
      rewrite lookup_insert_ne by done. split; [|done]. naive_solver. }
  case_decide as Hin; simpl.
  - split; [split; [naive_solver|by eexists]|]. by rewrite H2.
  - rewrite H1, H2. split; [naive_solver|]. assert (¬ (0 < occurs v e.2)%Z) by (by rewrite occurs_elem).
    pose proof (occurs_nonneg v e.2). lia.
Qed.

Lemma initial_degrees es : ∀ m v,
  (is_Some (foldl count_edges m es !! v) ↔ listed es v ∨ is_Some (m !! v)) ∧
  default 0%Z (foldl count_edges m es !! v) = (default 0 (m !! v) + degree es [] v)%Z.
Proof.
  induction es as [|e es IH]; intros m v; cbn [foldl degree].
  - split; [|lia]. split; [by right|]. intros [(e & He & _)|?]; [by apply elem_of_nil in He|done].
  - destruct (IH (count_edges m e) v) as [H1 H2], (count_edges_spec m e v) as [H3 H4]. rewrite H1, H3, H2, H4. split.
    + unfold listed. setoid_rewrite elem_of_cons. split; [naive_solver|]. intros [(e' & [->|He] & Hv)|?]; naive_solver.
    + rewrite decide_False by apply not_elem_of_nil. lia.
Qed.

(** ** The loop *)

Section loop.
Context (graph : Graph) (es : list (string * list string)) (Hes : es ≡ₚ map_to_list graph).

Lemma entries_nodup : NoDup es.*1.
Proof using Hes. rewrite Hes. apply NoDup_fst_map_to_list. Qed.

Lemma entries_lookup u ns : (u, ns) ∈ es ↔ graph !! u = Some ns.
Proof using Hes. rewrite Hes. apply elem_of_map_to_list. Qed.

Lemma listed_node v : listed es v ↔ node graph v.
Proof using Hes.
  unfold listed, node, edge. split.
  - intros ([u ns] & He & Hv). apply entries_lookup in He. simpl in Hv. destruct Hv as [->|Hv].
    + left. by eapply elem_of_dom_2.
    + right. by exists u, ns.
  - intros [[ns Hv]%elem_of_dom|(u & ns & Hu & Hv)].
    + exists (v, ns). split; [by apply entries_lookup|by left].
    + exists (u, ns). split; [by apply entries_lookup|by right].
Qed.

(** While the neighbours [rest] of the last node of [result] are still to be visited. *)
Record sort_inv (result queue : list string) (m : Degrees) (rest : list string) : Prop := mkSortInv {
  so_dom : ∀ v, is_Some (m !! v) ↔ node graph v;
  so_degree : ∀ v d, m !! v = Some d → d = (degree es result v + occurs v rest)%Z;
  so_nodup : NoDup (result ++ queue);
  so_zero : ∀ v, v ∈ result ++ queue ↔ m !! v = Some 0%Z;
  so_order : ∀ i u w, result !! i = Some u → edge graph w u → w ∈ take i result
}.

Lemma visit_inv result queue m v rest : sort_inv result queue m (v :: rest) → node graph v →
  let s := visit (queue, m) v in sort_inv result s.1 s.2 rest.
Proof using Type.
  intros [H1 H2 H3 H4 H5] Hv. apply H1 in Hv as [d Hd]. pose proof (H2 v d Hd) as Hdeg. rewrite occurs_cons, decide_True in Hdeg by done.
  pose proof (degree_nonneg es result v). pose proof (occurs_nonneg v rest).
  unfold visit. cbn [fst snd]. rewrite Hd. cbn [default from_option id fst snd].
  assert (v ∉ result ++ queue) as Hnew by (rewrite H4, Hd; intros [= ->]; lia).
  split; [| | | |done].
  - intros w. destruct (decide (w = v)) as [->|Hne]; [rewrite lookup_insert_eq; split; [intros _; apply H1; by eexists|by eexists]|].
    by rewrite lookup_insert_ne.
  - intros w d' Hw. destruct (decide (w = v)) as [->|Hne].
    + rewrite lookup_insert_eq in Hw. injection Hw as <-. lia.
    + rewrite lookup_insert_ne in Hw by done. rewrite (H2 w d' Hw), occurs_cons, decide_False by done. lia.
  - case_bool_decide; [|done]. rewrite app_assoc. apply NoDup_app. split; [done|]. split; [|apply NoDup_singleton].
    intros x Hx ->%list_elem_of_singleton. done.
  - intros w. destruct (decide (w = v)) as [->|Hne].
    + rewrite lookup_insert_eq. case_bool_decide as Hz.
      * rewrite Hz. split; [done|]. intros _. rewrite app_assoc, elem_of_app, list_elem_of_singleton. by right.
      * split; [done|]. intros [= Hz']. done.
    + rewrite lookup_insert_ne by done. rewrite <- H4. case_bool_decide; [|done].
      rewrite app_assoc, elem_of_app, list_elem_of_singleton. naive_solver.
Qed.

Lemma visit_all result rest : ∀ queue m, sort_inv result queue m rest → Forall (node graph) rest →
  let s := foldl visit (queue, m) rest in sort_inv result s.1 s.2 [].
Proof using Type.
  induction rest as [|v rest IH]; intros queue m Hinv Hall; [done|]. apply Forall_cons in Hall as [Hv Hall].
  cbn [foldl]. pose proof (visit_inv result queue m v rest Hinv Hv) as H. destruct (visit (queue, m) v) as [queue' m'].
  by apply IH.
Qed.

(** A node is taken from the queue. *)
Lemma take_inv result u queue m : sort_inv result (u :: queue) m [] → sort_inv (result ++ [u]) queue m (default [] (graph !! u)).
Proof using Hes.
  intros [H1 H2 H3 H4 H5]. assert (u ∉ result) as Hu.
  { intros Hin. apply NoDup_app in H3 as (_ & H3 & _). apply (H3 u Hin). by apply elem_of_cons; left. }
  assert (m !! u = Some 0%Z) as Hzero by (apply H4, elem_of_app; right; by apply elem_of_cons; left).
  assert (∀ v, degree es result v = (degree es (result ++ [u]) v + occurs v (default [] (graph !! u)))%Z) as Hdeg.
  { intros v. destruct (graph !! u) as [ns|] eqn:Hg; simpl.
    - apply degree_step; [apply entries_nodup|by apply entries_lookup|done].
    - rewrite degree_skip; [unfold occurs; simpl; lia|]. intros ([w ns] & -> & He)%list_elem_of_fmap. simpl in Hg.
      apply entries_lookup in He. congruence. }
  split; [done| | | |].
  - intros v d Hv. rewrite (H2 v d Hv), Hdeg. unfold occurs at 2. simpl. lia.
  - by rewrite <- app_assoc.
  - intros v. by rewrite <- app_assoc.
  - intros i v w Hi Hedge. apply lookup_app_Some in Hi as [Hi|[Hlen Hi]].
    + rewrite take_app_le; [by eapply H5|]. apply lookup_lt_Some in Hi. lia.
    + apply list_lookup_singleton_Some in Hi as [Hi ->]. replace i with (length result) by lia. rewrite take_app_length.
      destruct (decide (w ∈ result)) as [|Hw]; [done|]. exfalso. destruct Hedge as (ns & Hw' & Hin).
      pose proof (H2 v 0%Z Hzero) as Hd. assert (0 < degree es result v)%Z as Hpos.
      { apply degree_pos. exists (w, ns). split; [by apply entries_lookup|done]. }
      unfold occurs in Hd. simpl in Hd. lia.
Qed.

Lemma sort_loop_inv fuel : ∀ queue m result, sort_inv result queue m [] → size m ≤ fuel + length result →
  ∃ m', sort_inv (sort_loop graph fuel queue m result) [] m' [] ∧ size m' = size m.
Proof using Hes.
  induction fuel as [|fuel IH]; intros queue m result Hinv Hf.
  - exists m. split; [|done]. cbn [sort_loop].
    enough (queue = []) as -> by done. destruct queue as [|u queue]; [done|exfalso].
    assert (NoDup (result ++ u :: queue)) as Hnd by apply Hinv.
    assert (result ++ u :: queue ⊆ (map_to_list m).*1) as Hsub.
    { intros v Hv. apply Hinv in Hv. apply list_elem_of_fmap. exists (v, 0%Z). split; [done|by apply elem_of_map_to_list]. }
    pose proof (submseteq_length _ _ (NoDup_submseteq _ _ Hnd Hsub)) as Hlen.
    rewrite length_fmap, length_map_to_list, length_app in Hlen. simpl in *. lia.
  - destruct queue as [|u queue]; [by exists m|]. cbn [sort_loop].
    pose proof (take_inv result u queue m Hinv) as Ht.
    assert (Forall (node graph) (default [] (graph !! u))) as Hall.
    { apply Forall_forall. intros v Hv. right. exists u. destruct (graph !! u) as [ns|] eqn:Hg; [by exists ns|by apply elem_of_nil in Hv]. }
    pose proof (visit_all _ _ queue m Ht Hall) as Hv. destruct (foldl visit (queue, m) (default [] (graph !! u))) as [queue' m'].
    assert (size m' = size m) as Hsize.
    { rewrite <- !size_dom. f_equal. apply set_eq. intros v. rewrite !elem_of_dom. by rewrite (so_dom _ _ _ _ Hv), (so_dom _ _ _ _ Hinv). }
    destruct (IH queue' m' (result ++ [u])) as (m2 & H1 & H2); [done|rewrite length_app; simpl; lia|].
    exists m2. split; [done|congruence].
Qed.
End loop.

(** ** Cycles *)

(** A list in which everything has a predecessor in the list contains a cycle. *)
Section cycles.
Context {A : Type} `{EqDecision A} (R : relation A).

Lemma walk_cycle (p : list A) : StronglySorted (λ x y, tc R y x) p → ¬ NoDup p → ∃ x, tc R x x.
Proof using Type*.
  induction 1 as [|x p Hs IH Hx]; intros Hnd; [by destruct Hnd; constructor|].
  destruct (decide (x ∈ p)) as [Hin|Hin]; [rewrite Forall_forall in Hx; exists x; by apply Hx|].
  apply IH. intros Hp. apply Hnd. by constructor.
Qed.

Lemma predecessor_walk (l : list A) : (∀ v, v ∈ l → ∃ w, w ∈ l ∧ R w v) →
  ∀ n v, v ∈ l → ∃ p, length p = S n ∧ head p = Some v ∧ Forall (.∈ l) p ∧ StronglySorted (λ x y, tc R y x) p.
Proof using Type.
  intros Hl. induction n as [|n IH]; intros v Hv.
  - exists [v]. repeat split; try done; [by apply Forall_singleton|]. constructor; [constructor|constructor].
  - destruct (Hl v Hv) as (w & Hw & Hwv). destruct (IH w Hw) as (p & H1 & H2 & H3 & H4).
    exists (v :: p). split; [by rewrite <- H1|]. split; [done|]. split; [by constructor|]. constructor; [done|].
    destruct p as [|w' p]; [done|]. injection H2 as ->. apply StronglySorted_inv in H4 as [_ H4].
    constructor; [by apply tc_once|]. eapply Forall_impl; [exact H4|]. intros x Hx. eapply tc_transitive; [exact Hx|by apply tc_once].
Qed.

Lemma predecessors_cycle (l : list A) : l ≠ [] → (∀ v, v ∈ l → ∃ w, w ∈ l ∧ R w v) → ∃ v, tc R v v.
Proof using Type*.
  intros Hne Hl. destruct l as [|v l]; [done|]. set (l' := v :: l) in *.
  destruct (predecessor_walk l' Hl (length l') v) as (p & H1 & _ & H3 & H4); [by apply elem_of_cons; left|].
  apply (walk_cycle p H4). intros Hnd. rewrite Forall_forall in H3.
  pose proof (submseteq_length _ _ (NoDup_submseteq _ _ Hnd H3)). lia.
Qed.
End cycles.

Lemma sort_start order graph (es := shuffle (order 0) (map_to_list graph)) (m := foldl count_edges ∅ es) :
  es ≡ₚ map_to_list graph ∧
  sort_inv graph es [] (filter (λ nd, nd.2 = 0%Z) (shuffle (order 1) (map_to_list m))).*1 m [].
Proof.
  assert (es ≡ₚ map_to_list graph) as Hes by apply shuffle_perm. split; [done|].
  pose proof (λ v, initial_degrees es ∅ v) as Hinit. fold m in Hinit.
  split.
  - intros v. destruct (Hinit v) as [-> _]. rewrite (listed_node graph es Hes), lookup_empty.
    split; [|by left]. intros [?|[? ?]]; done.
  - intros v d Hv. destruct (Hinit v) as [_ H]. rewrite Hv, lookup_empty in H. simpl in H. unfold occurs. simpl. lia.
  - simpl. eapply sublist_NoDup; [|apply fmap_sublist, sublist_filter].
    rewrite (shuffle_perm (order 1) (map_to_list m)). apply NoDup_fst_map_to_list.
  - intros v. simpl. rewrite list_elem_of_fmap. split.
    + intros ([w d] & -> & [Hd Hin]%list_elem_of_filter). simpl in *. subst d.
      rewrite (shuffle_perm (order 1) (map_to_list m)) in Hin. by apply elem_of_map_to_list in Hin.
    + intros Hv. exists (v, 0%Z). split; [done|]. apply list_elem_of_filter. split; [done|].
      rewrite (shuffle_perm (order 1) (map_to_list m)). by apply elem_of_map_to_list.
  - done.
Qed.

(** [l] runs every node once, after the nodes it depends on. *)
Record sorted_nodes (graph : Graph) (l : list string) : Prop := mkSortedNodes {
  sn_nodup : NoDup l;
  sn_nodes : ∀ v, v ∈ l ↔ node graph v;
  sn_order : ∀ u v i, edge graph u v → l !! i = Some u → v ∈ take i l
}.

Lemma reverse_before {A} (l : list A) i j k x y : NoDup l → l !! j = Some x → l !! k = Some y → j < k →
  reverse l !! i = Some x → y ∈ take i (reverse l).
Proof.
  intros Hnd Hj Hk Hlt Hi. assert (k < length l) by (by eapply lookup_lt_Some).
  assert (i = length l - S j) as ->.
  { assert (NoDup (reverse l)) as Hr by (by rewrite reverse_Permutation). eapply NoDup_lookup; [exact Hr|exact Hi|]. rewrite reverse_lookup by lia. rewrite <- Hj. f_equal. lia. }
  apply list_elem_of_lookup. exists (length l - S k). rewrite lookup_take_lt by lia. rewrite reverse_lookup by lia. rewrite <- Hk. f_equal. lia.
Qed.

(** The loop ends in a sorted list or leaves nodes that each have a predecessor left. *)
Lemma sorted_reverse graph es m result : sort_inv graph es result [] m [] → length result = size m → sorted_nodes graph (reverse result).
Proof.
  intros [H1 H2 H3 H4 H5] Hlen. rewrite app_nil_r in H3, H4.
  assert (result ⊆ (map_to_list m).*1) as Hsub.
  { intros v Hv. apply H4 in Hv. apply list_elem_of_fmap. exists (v, 0%Z). split; [done|by apply elem_of_map_to_list]. }
  assert (∀ v, node graph v → v ∈ result) as Hall.
  { intros v [d Hd]%H1. pose proof (NoDup_submseteq _ _ H3 Hsub) as Hs.
    rewrite (submseteq_length_Permutation _ _ Hs) by (rewrite length_fmap, length_map_to_list; lia).
    apply list_elem_of_fmap. exists (v, d). split; [done|by apply elem_of_map_to_list]. }
  split; [by rewrite reverse_Permutation| |].
  - intros v. rewrite elem_of_reverse. split; [|by apply Hall]. intros Hv%H4. apply H1. by eexists.
  - intros u v i Hedge Hi. assert (v ∈ result) as [k Hk]%list_elem_of_lookup by (apply Hall; right; by exists u).
    pose proof (H5 k v u Hk Hedge) as [j Hj]%list_elem_of_lookup. apply lookup_take_Some in Hj as [Hj Hlt].
    by eapply reverse_before.
Qed.

Lemma unsorted_cycle graph es m result : es ≡ₚ map_to_list graph → sort_inv graph es result [] m [] → length result ≠ size m →
  ∃ v, tc (edge graph) v v.
Proof.
  intros Hes [H1 H2 H3 H4 H5] Hlen. rewrite app_nil_r in H3, H4.
  assert (∀ v, v ∈ filter (.∉ result) (map_to_list m).*1 ↔ (v ∉ result) ∧ node graph v) as Hleft.
  { intros v. rewrite list_elem_of_filter, <- H1, list_elem_of_fmap. split; intros [Hv Hin]; (split; [done|]).
    - destruct Hin as ([w d] & -> & Hw%elem_of_map_to_list). by eexists.
    - destruct Hin as [d Hd]. exists (v, d). split; [done|by apply elem_of_map_to_list]. }
  apply (predecessors_cycle _ (filter (.∉ result) (map_to_list m).*1)).
  - intros Hnil. apply Hlen. rewrite <- length_map_to_list, <- (length_fmap fst). apply Permutation_length.
    apply NoDup_Permutation; [done|apply NoDup_fst_map_to_list|]. intros v. rewrite H4, list_elem_of_fmap. split.
    + intros Hv. exists (v, 0%Z). split; [done|by apply elem_of_map_to_list].
    + intros ([w d] & -> & Hw%elem_of_map_to_list). simpl. apply H4. destruct (decide (w ∈ result)) as [|Hn]; [done|].
      assert (w ∈ @nil string) as []%elem_of_nil. rewrite <- Hnil. apply Hleft. split; [done|]. apply H1. by eexists.
  - intros v [Hv Hnode]%Hleft. apply H1 in Hnode as [d Hd]. assert (0 < degree es result v)%Z as Hpos.
    { pose proof (degree_nonneg es result v). pose proof (H2 v d Hd) as Hdeg. unfold occurs in Hdeg. simpl in Hdeg.
      destruct (decide (degree es result v = 0%Z)) as [H0|]; [|lia]. exfalso. apply Hv, H4. rewrite Hd. f_equal. lia. }
    apply degree_pos in Hpos as ([w ns] & Hin & Hw & Hvn). exists w. simpl in *.
    assert (graph !! w = Some ns) as Hg by (rewrite Hes in Hin; by apply elem_of_map_to_list).
    split; [apply Hleft; split; [done|]; left; by eapply elem_of_dom_2|]. by exists ns.
Qed.

Lemma topologicalSort_spec order graph :
  match topologicalSort order graph with
  | inl l => sorted_nodes graph l
  | inr e => e = errCycle ∧ ∃ v, tc (edge graph) v v
  end.
Proof.
  unfold topologicalSort. destruct (sort_start order graph) as [Hes Hinv]. cbn zeta.
  destruct (sort_loop_inv graph _ Hes _ _ _ [] Hinv (Nat.le_add_r _ _)) as (m' & Hm' & Hsize).
  case_bool_decide as Hlen.
  - split; [done|]. eapply unsorted_cycle; [exact Hes|exact Hm'|rewrite Hsize; exact Hlen].
  - eapply sorted_reverse; [exact Hm'|]. rewrite Hsize. exact Hlen.
Qed.

Lemma sorted_acyclic graph l : sorted_nodes graph l → ∀ v, ¬ tc (edge graph) v v.
Proof.
  intros [H1 H2 H3] v Hv.
  assert (∀ u w, tc (edge graph) u w → ∀ i, l !! i = Some u → ∃ j, j < i ∧ l !! j = Some w) as Hall.
  { induction 1 as [u w He|u x w He _ IH]; intros i Hi; pose proof (H3 _ _ i He Hi) as [j [Hj Hlt]%lookup_take_Some]%list_elem_of_lookup.
    - by exists j.
    - destruct (IH j Hj) as (k & Hk & Hkw). exists k. split; [lia|done]. }
  assert (node graph v) as Hn.
  { clear -Hv. inversion Hv as [? ? (ns & He & _)|? ? ? (ns & He & _)]; subst; left; by eapply elem_of_dom_2. }
  apply H2 in Hn as [i Hi]%list_elem_of_lookup. destruct (Hall v v Hv i Hi) as (j & Hlt & Hj).
  pose proof (NoDup_lookup _ _ _ _ H1 Hi Hj). lia.
Qed.
