(* ===== verification/DataDependencies.v ===== *)
(** * Data dependencies among plugins: [datalayer/data_graph.go], [requestcontrol/request_control_config.go]

    A plugin may declare the data keys it produces and those it consumes. When the
    configuration is loaded ([cmd/epp/runner]), default producers are created for the keys
    nobody produces, the graph of the dependencies is built and sorted ([DataGraph.v]), and the
    data producers of the request-control configuration are put in this order. *)

From stdpp Require Import prelude gmap strings list relations.
From Stdlib Require Import ZArith Ascii Lia.
From S2P Require Import Prelude Pickers DataGraph.

(** ** Plugins *)

(** The interfaces a Go type assertion can find on a plugin. *)
Inductive Interface :=
  | FairnessPolicy | OrderingPolicy
  | IDataProducer | Admitter | PreRequest | ResponseHeaderProcessor | ResponseBodyProcessor
  | ProfileHandler | Filter | Scorer | Picker.

#[export] Instance Interface_eq_dec : EqDecision Interface.
Proof. solve_decision. Defined.

(** [Produces] is absent when the plugin is not a [ProducerPlugin]; a data type is the tag
    [reflect.TypeOf] compares. A nil map has no keys, as an empty one. *)
Record Plugin := mkPlugin {
  pl_Type : string;
  pl_Name : string;
  Produces : option (gmap string string);
  Consumes : option (gmap string string);
  implements : list Interface
}.

(** [p.(I)] in Go. *)
Definition asserts (i : Interface) (p : Plugin) : bool := bool_decide (i ∈ implements p).

Definition TypedName_String (p : Plugin) : string := (pl_Name p ++ "/" ++ pl_Type p)%string.

(** Go's typing: a [DataProducer] embeds both interfaces. *)
Definition well_typed (p : Plugin) : Prop := asserts IDataProducer p = true → is_Some (Produces p) ∧ is_Some (Consumes p).

Definition produces (p : Plugin) : gmap string string := default ∅ (Produces p).
Definition consumes (p : Plugin) : gmap string string := default ∅ (Consumes p).

Definition FlowControlLayer : Z := 0.
Definition RequestControlLayer : Z := 1.
Definition SchedulingLayer : Z := 2.
Definition DefaultLayer : Z := -1.

Definition pluginToLayerExecutionOrder (p : Plugin) : Z :=
  if asserts FairnessPolicy p || asserts OrderingPolicy p then FlowControlLayer
  else if asserts IDataProducer p || asserts Admitter p || asserts PreRequest p || asserts ResponseHeaderProcessor p then RequestControlLayer
  else if asserts ProfileHandler p || asserts Filter p || asserts Scorer p || asserts Picker p then SchedulingLayer
  else DefaultLayer.

(** ** The graph *)

(** A loop that returns at the first error. *)
Fixpoint fold_err {S A E} (f : S → A → S + E) (s : S) (l : list A) : S + E :=
  match l with
  | [] => inl s
  | x :: l' => match f s x with inl s' => fold_err f s' l' | inr e => inr e end
  end.

(** The order of each loop over a map: over the producers, over the consumers for one
    producer, over the keys for a pair; and those of the sort. *)
Record Orders := mkOrders {
  o_producers : nat → nat;
  o_consumers : string → nat → nat;
  o_keys : string → string → nat → nat;
  o_sort : nat → nat → nat
}.

Definition errMismatch (key : string) : string := ("data type mismatch between produced and consumed data for key: " ++ key)%string.
Definition errLayers (pName cName : string) : string :=
  ("invalid plugin layer execution order: producer " ++ pName ++ " needs to be executed before consumer " ++ cName)%string.

(** The loop over the produced keys, which stops at the first one that is consumed. *)
Fixpoint link_keys (pName : string) (producer : Plugin) (cName : string) (consumer : Plugin)
    (keys : list (string * string)) (dag : Graph) : Graph + string :=
  match keys with
  | [] => inl dag
  | (producedKey, producedData) :: keys' =>
      match consumes consumer !! producedKey with
      | Some consumedData =>
          if bool_decide (producedData ≠ consumedData) then inr (errMismatch producedKey)
          else if (pluginToLayerExecutionOrder consumer <? pluginToLayerExecutionOrder producer)%Z then inr (errLayers pName cName)
          else inl (<[cName := default [] (dag !! cName) ++ [pName]]> dag)
      | None => link_keys pName producer cName consumer keys' dag
      end
  end.

Definition link (o : Orders) (pc : string * Plugin) (dag : Graph) (cc : string * Plugin) : Graph + string :=
  if bool_decide (pc.1 = cc.1) then inl dag
  else link_keys pc.1 pc.2 cc.1 cc.2 (shuffle (o_keys o pc.1 cc.1) (map_to_list (produces pc.2))) dag.

Abbreviation PluginMap := (gmap string Plugin).

Definition no_edges (ps : PluginMap) (dag : Graph) : Graph :=
  map_fold (λ _ p dag, <[TypedName_String p := []]> dag) dag ps.

Definition buildDAG (o : Orders) (producers consumers : PluginMap) : Graph + string :=
  fold_err (λ dag pc, fold_err (link o pc) dag (shuffle (o_consumers o pc.1) (map_to_list consumers)))
    (no_edges consumers (no_edges producers ∅)) (shuffle (o_producers o) (map_to_list producers)).

Definition plugin_map (plugins : list Plugin) : PluginMap := foldl (λ m p, <[TypedName_String p := p]> m) ∅ plugins.

Definition ValidateAndOrderDataDependencies (o : Orders) (plugins : list Plugin) : list string + string :=
  let pluginMap := plugin_map plugins in
  let producers := filter (λ np, is_Some (Produces np.2)) pluginMap in
  let consumers := filter (λ np, is_Some (Consumes np.2)) pluginMap in
  match buildDAG o producers consumers with
  | inl dag => topologicalSort (o_sort o) dag
  | inr e => inr e
  end.

(** ** Default producers *)

Inductive CreateError :=
  | ErrInstantiate (pluginType err : string)
  | ErrNotProduced (pluginType key : string).

(** A factory is given the name of the instance; it has nil parameters here. *)
Abbreviation Factory := (string → Plugin + string).

Definition create (factories : gmap string Factory) (s : list Plugin * gset string) (tk : string * string) :
    list Plugin * gset string + CreateError :=
  match factories !! tk.1 with
  | None => inl s
  | Some factory =>
      match factory tk.1 with
      | inr err => inr (ErrInstantiate tk.1 err)
      | inl candidate =>
          match Produces candidate with
          | None => inl s
          | Some produced =>
              if bool_decide (tk.1 ∈ s.2) then inl s
              else if produced !! tk.2 is Some _ then inl (s.1 ++ [candidate], {[tk.1]} ∪ s.2)
              else inr (ErrNotProduced tk.1 tk.2)
          end
      end
  end.

Definition existing_types (plugins : list Plugin) : gset string := list_to_set (pl_Type <$> plugins).

Definition missing_keys (plugins : list Plugin) : gset string :=
  ⋃ ((λ p, dom (consumes p)) <$> plugins) ∖ ⋃ ((λ p, dom (produces p)) <$> plugins).

Definition need (defaults : gmap string string) (existing : gset string) (m : gmap string string) (key : string) : gmap string string :=
  match defaults !! key with
  | Some pluginType => if bool_decide (pluginType ∈ existing) then m else <[pluginType := key]> m
  | None => m
  end.

Definition CreateMissingDataProducers (okeys otypes : nat → nat) (plugins : list Plugin)
    (defaults : gmap string string) (factories : gmap string Factory) : list Plugin + CreateError :=
  let existingTypes := existing_types plugins in
  let missingKeys := missing_keys plugins in
  if bool_decide (missingKeys = ∅) then inl [] else
  let neededTypes := foldl (need defaults existingTypes) ∅ (shuffle okeys (elements missingKeys)) in
  match fold_err (create factories) ([], existingTypes) (shuffle otypes (map_to_list neededTypes)) with
  | inl (plgns, _) => inl plgns
  | inr e => inr e
  end.

(** ** The request-control configuration *)

Record Config := mkConfig {
  admissionPlugins : list Plugin;
  prepareDataPlugins : list Plugin;
  preRequestPlugins : list Plugin;
  responseReceivedPlugins : list Plugin;
  responseStreamingPlugins : list Plugin
}.

Definition NewConfig : Config := mkConfig [] [] [] [] [].

Definition append_if (i : Interface) (p : Plugin) (l : list Plugin) : list Plugin := if asserts i p then l ++ [p] else l.

Definition AddPlugin (c : Config) (p : Plugin) : Config :=
  mkConfig (append_if Admitter p (admissionPlugins c)) (append_if IDataProducer p (prepareDataPlugins c))
    (append_if PreRequest p (preRequestPlugins c)) (append_if ResponseHeaderProcessor p (responseReceivedPlugins c))
    (append_if ResponseBodyProcessor p (responseStreamingPlugins c)).

Definition AddPlugins (c : Config) (plugins : list Plugin) : Config := foldl AddPlugin c plugins.

Definition OrderPrepareDataPlugins (c : Config) (sortedPluginNames : list string) : Config :=
  let nameToPlugin := plugin_map (prepareDataPlugins c) in
  mkConfig (admissionPlugins c) (omap (λ n, nameToPlugin !! n) sortedPluginNames)
    (preRequestPlugins c) (responseReceivedPlugins c) (responseStreamingPlugins c).

(** ** Loading the configuration *)

(** The instantiated plugins, by name. *)
Definition handle_AddPlugin (h : PluginMap) (p : Plugin) : PluginMap := <[pl_Name p := p]> h.
Definition GetAllPlugins (order : nat → nat) (h : PluginMap) : list Plugin := shuffle order (map_to_list h).*2.

Inductive LoadError :=
  | ErrCreateProducers (e : CreateError)
  | ErrDependencies (e : string).

Record LoadOrders := mkLoadOrders {
  lo_all : nat → nat → nat;
  lo_keys : nat → nat;
  lo_types : nat → nat;
  lo_dag : Orders
}.

Definition configure_data (o : LoadOrders) (defaults : gmap string string) (factories : gmap string Factory)
    (h : PluginMap) (c : Config) : PluginMap * Config + LoadError :=
  let c := AddPlugins c (GetAllPlugins (lo_all o 0) h) in
  match CreateMissingDataProducers (lo_keys o) (lo_types o) (GetAllPlugins (lo_all o 1) h) defaults factories with
  | inr e => inr (ErrCreateProducers e)
  | inl dataProducers =>
      let h := foldl handle_AddPlugin h dataProducers in
      let c := AddPlugins c dataProducers in
      match ValidateAndOrderDataDependencies (lo_dag o) (GetAllPlugins (lo_all o 2) h) with
      | inr e => inr (ErrDependencies e)
      | inl names => inl (h, OrderPrepareDataPlugins c names)
      end
  end.

(** ** What the graph means *)

Definition shares (p c : Plugin) : Prop := ∃ key, is_Some (produces p !! key) ∧ is_Some (consumes c !! key).

Definition compatible (p c : Plugin) : Prop :=
  (∃ key t, produces p !! key = Some t ∧ consumes c !! key = Some t) ∧ (pluginToLayerExecutionOrder p ≤ pluginToLayerExecutionOrder c)%Z.

(** What made the construction fail. *)
Definition rejected (pName : string) (p : Plugin) (cName : string) (c : Plugin) (e : string) : Prop :=
  (∃ key t t', produces p !! key = Some t ∧ consumes c !! key = Some t' ∧ t ≠ t' ∧ e = errMismatch key) ∨
  (shares p c ∧ (pluginToLayerExecutionOrder c < pluginToLayerExecutionOrder p)%Z ∧ e = errLayers pName cName).

Section fold_err.
Context {S A E : Type} (f : S → A → S + E).

Lemma fold_err_inl (I : list A → S → Prop) l :
  (∀ seen x s s', x ∈ l → I seen s → f s x = inl s' → I (seen ++ [x]) s') →
  ∀ s s', I [] s → fold_err f s l = inl s' → I l s'.
Proof using Type.
  intros Hstep s s'. assert (∀ l2 seen s, seen ++ l2 = l → I seen s → fold_err f s l2 = inl s' → I l s') as Hgen.
  { induction l2 as [|x l2 IH]; intros seen t Heq HI Hf; cbn [fold_err] in Hf.
    - injection Hf as <-. by rewrite app_nil_r in Heq; subst.
    - destruct (f t x) as [t'|] eqn:Hx; [|done]. apply (IH (seen ++ [x]) t'); [by rewrite <- app_assoc| |done].
      eapply Hstep; [|done|done]. rewrite <- Heq. apply elem_of_app. right. by apply elem_of_cons; left. }
  intros HI Hf. exact (Hgen l [] s eq_refl HI Hf).
Qed.

Lemma fold_err_inr l e : ∀ s, fold_err f s l = inr e → ∃ s' x, x ∈ l ∧ f s' x = inr e.
Proof using Type.
  induction l as [|x l IH]; intros s Hf; cbn [fold_err] in Hf; [done|]. destruct (f s x) as [s'|e'] eqn:Hx.
  - destruct (IH s' Hf) as (t & y & Hy & ?). exists t, y. split; [by apply elem_of_cons; right|done].
  - injection Hf as ->. exists s, x. split; [by apply elem_of_cons; left|done].
Qed.
End fold_err.

Lemma link_keys_spec pName p cName c keys : (∀ k t, (k, t) ∈ keys → produces p !! k = Some t) → ∀ dag,
  match link_keys pName p cName c keys dag with
  | inl dag' => (dag' = dag ∧ ∀ k t, (k, t) ∈ keys → consumes c !! k = None) ∨
                (dag' = <[cName := default [] (dag !! cName) ++ [pName]]> dag ∧ compatible p c)
  | inr e => rejected pName p cName c e
  end.
Proof.
  induction keys as [|[k t] keys IH]; intros Hk dag; cbn [link_keys].
  - left. split; [done|]. intros k t Hin. by apply elem_of_nil in Hin.
  - assert (produces p !! k = Some t) as Hkt by (apply Hk; by apply elem_of_cons; left).
    destruct (consumes c !! k) as [t'|] eqn:Hc.
    + case_bool_decide as Ht; [left; by exists k, t, t'|]. subst t'. destruct (Z.ltb_spec (pluginToLayerExecutionOrder c) (pluginToLayerExecutionOrder p)) as [Hl|Hl].
      * right. split; [|done]. exists k. rewrite Hkt, Hc. split; by eexists.
      * right. split; [done|]. split; [|done]. by exists k, t.
    + specialize (IH (λ k t H, Hk k t (proj2 (elem_of_cons _ _ _) (or_intror H))) dag).
      destruct (link_keys _ _ _ _ _ _) as [dag'|e]; [|done]. destruct IH as [[-> IH]|IH]; [left|by right].
      split; [done|]. intros k' t' [[= -> ->]|Hin]%elem_of_cons; [done|by eapply IH].
Qed.

Lemma link_spec o pc cc dag :
  match link o pc dag cc with
  | inl dag' => (cc.1 ∈ dom dag → dom dag' = dom dag) ∧
                (∀ u v, edge dag' u v ↔ edge dag u v ∨ (u = cc.1 ∧ v = pc.1 ∧ pc.1 ≠ cc.1 ∧ shares pc.2 cc.2)) ∧
                (pc.1 ≠ cc.1 → shares pc.2 cc.2 → compatible pc.2 cc.2)
  | inr e => pc.1 ≠ cc.1 ∧ rejected pc.1 pc.2 cc.1 cc.2 e
  end.
Proof.
  unfold link. case_bool_decide as Heq; [naive_solver|].
  set (keys := shuffle _ _). assert (∀ k t, (k, t) ∈ keys ↔ produces pc.2 !! k = Some t) as Hkeys.
  { intros k t. unfold keys. rewrite (shuffle_perm _ (map_to_list (produces pc.2))). apply elem_of_map_to_list. }
  pose proof (link_keys_spec pc.1 pc.2 cc.1 cc.2 keys (λ k t, proj1 (Hkeys k t)) dag) as H.
  destruct (link_keys _ _ _ _ _ _) as [dag'|e]; [|done]. destruct H as [[-> Hno]|[-> Hc]].
  - assert (¬ shares pc.2 cc.2) as Hns.
    { intros (k & [t Ht] & Hk). apply Hkeys in Ht. rewrite (Hno k t Ht) in Hk. by destruct Hk. }
    naive_solver.
  - assert (shares pc.2 cc.2) as Hs. { destruct Hc as [(k & t & H1 & H2) _]. exists k. rewrite H1, H2. split; by eexists. }
    split; [intros Hd; rewrite dom_insert_L; set_solver|]. split; [|done]. intros u v. unfold edge. destruct (decide (u = cc.1)) as [->|Hne].
    + rewrite lookup_insert_eq. split.
      * intros (ns & [= <-] & [Hv|Hv%list_elem_of_singleton]%elem_of_app); [|by right].
        destruct (dag !! cc.1) as [ns|]; [left; by exists ns|by apply elem_of_nil in Hv].
      * intros [(ns & Hns & Hv)|(_ & -> & _)]; eexists; (split; [done|]); apply elem_of_app; [left; by rewrite Hns|right; by apply list_elem_of_singleton].
    + rewrite lookup_insert_ne by done. naive_solver.
Qed.

(** The edges and the checks of the pairs seen so far. *)
Record dag_inv (dag0 : Graph) (pairs : (string * Plugin) → (string * Plugin) → Prop) (dag : Graph) : Prop := mkDagInv {
  di_dom : dom dag = dom dag0;
  di_edge : ∀ u v, edge dag u v ↔ edge dag0 u v ∨ ∃ pc cc, pairs pc cc ∧ u = cc.1 ∧ v = pc.1 ∧ pc.1 ≠ cc.1 ∧ shares pc.2 cc.2;
  di_compatible : ∀ pc cc, pairs pc cc → pc.1 ≠ cc.1 → shares pc.2 cc.2 → compatible pc.2 cc.2
}.

Lemma dag_inv_iff dag0 P Q dag : (∀ pc cc, P pc cc ↔ Q pc cc) → dag_inv dag0 P dag → dag_inv dag0 Q dag.
Proof.
  intros Heq [H1 H2 H3]. split; [done| |].
  - intros u v. rewrite H2. setoid_rewrite Heq. done.
  - intros pc cc Hq. apply H3. by apply Heq.
Qed.

Lemma link_inv o dag0 P pc cc dag dag' : cc.1 ∈ dom dag0 → dag_inv dag0 P dag → link o pc dag cc = inl dag' →
  dag_inv dag0 (λ pc' cc', P pc' cc' ∨ (pc' = pc ∧ cc' = cc)) dag'.
Proof.
  intros Hd [H1 H2 H3] Hl. pose proof (link_spec o pc cc dag) as H. rewrite Hl in H. destruct H as (Hdom & Hedge & Hc). split.
  - rewrite Hdom; [done|by rewrite H1].
  - intros u v. rewrite Hedge, H2. split.
    + intros [[?|(pc' & cc' & ? & ?)]|(? & ? & ?)]; [by left|right; exists pc', cc'; auto|right; exists pc, cc; auto].
    + intros [?|(pc' & cc' & [?|[-> ->]] & ?)]; [by left; left|left; right; exists pc', cc'; auto|by right].
  - intros pc' cc' [Hp|[-> ->]]; [by apply H3|done].
Qed.

Lemma build_inv o (producers consumers : list (string * Plugin)) order dag0 dag :
  (∀ pc l, order pc l ≡ₚ l) → (∀ cc, cc ∈ consumers → cc.1 ∈ dom dag0) →
  fold_err (λ dag pc, fold_err (link o pc) dag (order pc consumers)) dag0 producers = inl dag →
  dag_inv dag0 (λ pc cc, pc ∈ producers ∧ cc ∈ consumers) dag.
Proof.
  intros Hord Hdom. apply (fold_err_inl _ (λ seen, dag_inv dag0 (λ pc cc, pc ∈ seen ∧ cc ∈ consumers))).
  2:{ split; [done| |]; intros ? ?; [|intros [[]%elem_of_nil _]]. split; [by left|]. intros [?|(? & ? & [[]%elem_of_nil _] & _)]; done. }
  intros seen pc s s' _ Hs Hf.
  enough (dag_inv dag0 (λ pc' cc', (pc' ∈ seen ∧ cc' ∈ consumers) ∨ (pc' = pc ∧ cc' ∈ order pc consumers)) s') as Hi.
  { eapply dag_inv_iff; [|exact Hi]. intros pc' cc'. simpl. rewrite elem_of_app, list_elem_of_singleton, (Hord pc consumers). naive_solver. }
  revert s s' Hs Hf. intros s s' Hs. apply (fold_err_inl (link o pc) (λ cs, dag_inv dag0 (λ pc' cc', (pc' ∈ seen ∧ cc' ∈ consumers) ∨ (pc' = pc ∧ cc' ∈ cs)))).
  - intros cs cc t t' Hcc Ht Hl. rewrite (Hord pc consumers) in Hcc. pose proof (link_inv o dag0 _ pc cc t t' (Hdom cc Hcc) Ht Hl) as Hi.
    eapply dag_inv_iff; [|exact Hi]. intros pc' cc'. simpl. rewrite elem_of_app, list_elem_of_singleton. naive_solver.
  - eapply dag_inv_iff; [|exact Hs]. intros pc' cc'. simpl. split; [by left|]. intros [?|[_ []%elem_of_nil]]. done.
Qed.

Lemma no_edges_spec (ps : PluginMap) dag : (∀ n p, ps !! n = Some p → TypedName_String p = n) →
  dom (no_edges ps dag) = dom ps ∪ dom dag ∧ ∀ u v, edge (no_edges ps dag) u v → edge dag u v.
Proof.
  unfold no_edges. revert ps. refine (map_fold_weak_ind (λ r ps, (∀ n p, ps !! n = Some p → TypedName_String p = n) →
    dom r = dom ps ∪ dom dag ∧ ∀ u v, edge r u v → edge dag u v) _ _ _ _).
  - intros _. split; [set_solver|done].
  - intros n p ps r Hn IH Hnames. destruct IH as [Hd He].
    { intros n' p' Hp'. apply Hnames. rewrite lookup_insert_ne; [done|]. intros ->. congruence. }
    rewrite (Hnames n p) by apply lookup_insert_eq. split; [rewrite !dom_insert_L, Hd; set_solver|].
    intros u v (ns & Hu & Hv). apply He. destruct (decide (u = n)) as [->|Hne].
    + rewrite lookup_insert_eq in Hu. injection Hu as <-. by apply elem_of_nil in Hv.
    + rewrite lookup_insert_ne in Hu by done. by exists ns.
Qed.

(** ** Ordering *)

Lemma plugin_map_snoc l p : plugin_map (l ++ [p]) = <[TypedName_String p := p]> (plugin_map l).
Proof. unfold plugin_map. by rewrite foldl_app. Qed.

Lemma plugin_map_lookup l : ∀ n p, plugin_map l !! n = Some p → TypedName_String p = n ∧ p ∈ l.
Proof.
  induction l as [|q l IH] using rev_ind; intros n p; [done|]. rewrite plugin_map_snoc. setoid_rewrite elem_of_app.
  destruct (decide (TypedName_String q = n)) as [<-|Hne].
  - rewrite lookup_insert_eq. intros [= ->]. split; [done|]. right. by apply list_elem_of_singleton.
  - rewrite lookup_insert_ne by done. intros [? ?]%IH. split; [done|by left].
Qed.

Lemma plugin_map_elem l : NoDup (TypedName_String <$> l) → ∀ n p, plugin_map l !! n = Some p ↔ TypedName_String p = n ∧ p ∈ l.
Proof.
  intros Hnd n p. split; [apply plugin_map_lookup|]. revert Hnd. induction l as [|q l IH] using rev_ind; intros Hnd [Hn Hin]; [by apply elem_of_nil in Hin|].
  rewrite fmap_app, NoDup_app in Hnd. destruct Hnd as (Hl & Hq & _). rewrite plugin_map_snoc. apply elem_of_app in Hin as [Hin|Hin%list_elem_of_singleton].
  - rewrite lookup_insert_ne; [by apply IH|]. intros Heq. apply (Hq (TypedName_String p)); [apply list_elem_of_fmap; by exists p|].
    apply list_elem_of_singleton. congruence.
  - subst. apply lookup_insert_eq.
Qed.

(** The plugin named [n] consumes what [n'] produces. *)
Definition depends (m : PluginMap) (n n' : string) : Prop :=
  ∃ c p, m !! n = Some c ∧ m !! n' = Some p ∧ n ≠ n' ∧ shares p c.

(** The names are those of the plugins with data, each after what it depends on. *)
Record ordered_names (m : PluginMap) (names : list string) : Prop := mkOrderedNames {
  on_nodup : NoDup names;
  on_names : ∀ n, n ∈ names ↔ ∃ p, m !! n = Some p ∧ (is_Some (Produces p) ∨ is_Some (Consumes p));
  on_order : ∀ n n' i, depends m n n' → names !! i = Some n → n' ∈ take i names
}.

Lemma shares_declared p c : shares p c → is_Some (Produces p) ∧ is_Some (Consumes c).
Proof.
  unfold shares, produces, consumes. intros (k & [t Hp] & [t' Hc]).
  destruct (Produces p), (Consumes c); simpl in *; try (by rewrite lookup_empty in Hp); try (by rewrite lookup_empty in Hc).
  split; by eexists.
Qed.

Lemma buildDAG_spec o (m : PluginMap) : (∀ n p, m !! n = Some p → TypedName_String p = n) →
  match buildDAG o (filter (λ np, is_Some (Produces np.2)) m) (filter (λ np, is_Some (Consumes np.2)) m) with
  | inl dag => (∀ n, n ∈ dom dag ↔ ∃ p, m !! n = Some p ∧ (is_Some (Produces p) ∨ is_Some (Consumes p))) ∧
               (∀ n n', edge dag n n' ↔ depends m n n') ∧
               (∀ n n' c p, m !! n = Some c → m !! n' = Some p → n ≠ n' → shares p c → compatible p c)
  | inr e => ∃ n n' c p, m !! n = Some c ∧ m !! n' = Some p ∧ n ≠ n' ∧ rejected n' p n c e
  end.
Proof.
  intros Hm. set (ps := filter (λ np, is_Some (Produces np.2)) m). set (cs := filter (λ np, is_Some (Consumes np.2)) m).
  assert (∀ n p, ps !! n = Some p ↔ m !! n = Some p ∧ is_Some (Produces p)) as Hps by (intros; apply map_lookup_filter_Some).
  assert (∀ n p, cs !! n = Some p ↔ m !! n = Some p ∧ is_Some (Consumes p)) as Hcs by (intros; apply map_lookup_filter_Some).
  destruct (no_edges_spec ps ∅) as [Hd1 He1]; [intros n p [Hp _]%Hps; by apply Hm|].
  destruct (no_edges_spec cs (no_edges ps ∅)) as [Hd2 He2]; [intros n p [Hp _]%Hcs; by apply Hm|].
  unfold buildDAG. set (dag0 := no_edges cs (no_edges ps ∅)) in *.
  destruct (fold_err _ _ _) as [dag|e] eqn:Hf.
  - apply (build_inv o _ _ (λ pc l, shuffle (o_consumers o pc.1) l)) in Hf; [|intros; apply shuffle_perm|].
    2:{ intros [n c] Hc%elem_of_map_to_list. simpl. rewrite Hd2. apply elem_of_union_l. by eapply elem_of_dom_2. }
    destruct Hf as [H1 H2 H3]. setoid_rewrite (shuffle_perm (o_producers o) (map_to_list ps)) in H2.
    setoid_rewrite (shuffle_perm (o_producers o) (map_to_list ps)) in H3. split; [|split].
    + intros n. rewrite H1, Hd2, Hd1, dom_empty_L, !elem_of_union, !elem_of_dom. unfold is_Some at 1 2. setoid_rewrite Hps. setoid_rewrite Hcs.
      rewrite elem_of_empty. naive_solver.
    + intros n n'. rewrite H2. split.
      * intros [He|([n1 p] & [n2 c] & [Hp%elem_of_map_to_list Hc%elem_of_map_to_list] & ? & ? & Hne & Hs)]; simpl in *; subst.
        -- destruct (He1 n n' (He2 n n' He)) as (? & [=] & _).
        -- exists c, p. apply Hps in Hp as [Hp _]. apply Hcs in Hc as [Hc _]. auto.
      * intros (c & p & Hc & Hp & Hne & Hs). right. exists (n', p), (n, c). destruct (shares_declared p c Hs).
        split; [|auto]. split; apply elem_of_map_to_list; [by apply Hps|by apply Hcs].
    + intros n n' c p Hc Hp Hne Hs. destruct (shares_declared p c Hs). apply (H3 (n', p) (n, c)); [|simpl; congruence|done].
      split; apply elem_of_map_to_list; [by apply Hps|by apply Hcs].
  - apply fold_err_inr in Hf as (s & [n' p] & Hp & Hf). apply fold_err_inr in Hf as (s' & [n c] & Hc & Hl).
    rewrite (shuffle_perm _ (map_to_list ps)) in Hp. rewrite (shuffle_perm _ (map_to_list cs)) in Hc.
    apply elem_of_map_to_list, Hps in Hp as [Hp _]. apply elem_of_map_to_list, Hcs in Hc as [Hc _].
    pose proof (link_spec o (n', p) (n, c) s') as H. rewrite Hl in H. destruct H as [Hne H]. exists n, n', c, p. auto.
Qed.

(** When the order exists it is a valid one; otherwise a dependency is circular or a pair of
    plugins does not fit. *)
Lemma dependencies_spec (o : Orders) (plugins : list Plugin) (m := plugin_map plugins) :
  match ValidateAndOrderDataDependencies o plugins with
  | inl names => ordered_names m names ∧ (∀ n, ¬ tc (depends m) n n) ∧
                 (∀ n n' c p, m !! n = Some c → m !! n' = Some p → n ≠ n' → shares p c → compatible p c)
  | inr e => (e = errCycle ∧ ∃ n, tc (depends m) n n) ∨
             ∃ n n' c p, m !! n = Some c ∧ m !! n' = Some p ∧ n ≠ n' ∧ rejected n' p n c e
  end.
Proof.
  assert (∀ n p, m !! n = Some p → TypedName_String p = n) as Hm by (intros n p [? _]%plugin_map_lookup; done).
  unfold ValidateAndOrderDataDependencies. cbn zeta. fold m. pose proof (buildDAG_spec o m Hm) as Hd.
  destruct (buildDAG _ _ _) as [dag|e]; [|by right]. destruct Hd as (Hdom & Hedge & Hc).
  assert (∀ n, node dag n ↔ ∃ p, m !! n = Some p ∧ (is_Some (Produces p) ∨ is_Some (Consumes p))) as Hnode.
  { intros n. rewrite <- Hdom. split; [|by left]. intros [?|(u & (c & p & Hu & Hp & _ & Hs)%Hedge)]; [done|].
    apply Hdom. exists p. split; [done|]. left. apply (shares_declared p c Hs). }
  assert (∀ n n', tc (edge dag) n n' ↔ tc (depends m) n n') as Htc.
  { intros n n'. split; apply tc_congruence with (f := id); intros; by apply Hedge. }
  pose proof (topologicalSort_spec (o_sort o) dag) as Hs. destruct (topologicalSort _ _) as [names|e].
  - pose proof (sorted_acyclic dag names Hs) as Hac. destruct Hs as [H1 H2 H3]. split; [|split; [|done]].
    + split; [done|intros n; by rewrite H2|]. intros n n' i Hdep. apply H3. by apply Hedge.
    + intros n Hn. apply (Hac n). by apply Htc.
  - destruct Hs as [-> [n Hn]]. left. split; [done|]. exists n. by apply Htc.
Qed.

(** ** The default producers that are created *)

Section creation.
Context (defaults : gmap string string) (factories : gmap string Factory).

(** A plugin of type [t] was made for the missing key [key]. *)
Definition made_for (existing missing : gset string) (t : string) (p : Plugin) : Prop :=
  (t ∉ existing) ∧ ∃ f key, factories !! t = Some f ∧ f t = inl p ∧ defaults !! key = Some t ∧ key ∈ missing ∧ is_Some (produces p !! key).

Lemma needed_types existing keys t key : foldl (need defaults existing) ∅ keys !! t = Some key →
  key ∈ keys ∧ defaults !! key = Some t ∧ t ∉ existing.
Proof using Type.
  induction keys as [|k keys IH] using rev_ind; [done|]. rewrite foldl_app. cbn [foldl]. rewrite elem_of_app. unfold need at 1.
  destruct (defaults !! k) as [t'|] eqn:Hk; [|naive_solver]. case_bool_decide; [naive_solver|].
  destruct (decide (t' = t)) as [->|Hne].
  - rewrite lookup_insert_eq. intros [= ->]. split; [right; by apply list_elem_of_singleton|done].
  - rewrite lookup_insert_ne by done. naive_solver.
Qed.

Lemma needed_types_complete existing keys t key : key ∈ keys → defaults !! key = Some t → t ∉ existing →
  is_Some (foldl (need defaults existing) ∅ keys !! t).
Proof using Type.
  intros Hin Hk Ht. induction keys as [|k keys IH] using rev_ind; [by apply elem_of_nil in Hin|].
  rewrite foldl_app. cbn [foldl]. unfold need at 1. apply elem_of_app in Hin as [Hin|Hin%list_elem_of_singleton].
  - destruct (defaults !! k) as [t'|]; [|by apply IH]. case_bool_decide; [by apply IH|].
    apply lookup_insert_is_Some'. right. by apply IH.
  - subst k. rewrite Hk, bool_decide_eq_false_2 by done. rewrite lookup_insert_eq. by eexists.
Qed.

Lemma create_step existing missing s t key s' :
  t ∉ s.2 → t ∉ existing → defaults !! key = Some t → key ∈ missing → create factories s (t, key) = inl s' →
  (s' = s ∨ ∃ p, made_for existing missing t p ∧ s' = (s.1 ++ [p], {[t]} ∪ s.2)) ∧
  ∀ f, factories !! t = Some f → ∃ p, f t = inl p ∧ (p ∈ s'.1 ∨ Produces p = None).
Proof using Type.
  intros Hs Ht Hk Hm. unfold create. cbn [fst snd]. destruct (factories !! t) as [f|] eqn:Hf; [|intros [= <-]; split; [by left|done]].
  destruct (f t) as [p|err] eqn:Hp; [|done]. destruct (Produces p) as [produced|] eqn:Hpr.
  - rewrite bool_decide_eq_false_2 by done. destruct (produced !! key) as [d|] eqn:Hd; [|done]. intros [= <-]. split.
    + right. exists p. split; [|done]. split; [done|]. exists f, key. unfold produces. rewrite Hpr. simpl. rewrite Hd. eauto 10.
    + intros f' [= <-]. exists p. split; [done|]. left. apply elem_of_app. right. by apply list_elem_of_singleton.
  - intros [= <-]. split; [by left|]. intros f' [= <-]. exists p. auto.
Qed.

Lemma create_all existing missing types :
  NoDup types.*1 → (∀ t key, (t, key) ∈ types → (t ∉ existing) ∧ defaults !! key = Some t ∧ key ∈ missing) →
  ∀ s ts s', (∀ t, t ∈ types.*1 → t ∉ ts) → NoDup ts → Forall2 (made_for existing missing) ts s.1 → s.2 = list_to_set ts ∪ existing →
  fold_err (create factories) s types = inl s' →
  ∃ ts', NoDup ts' ∧ Forall2 (made_for existing missing) ts' s'.1 ∧ s.1 ⊆ s'.1 ∧
         ∀ t f, t ∈ types.*1 → factories !! t = Some f → ∃ p, f t = inl p ∧ (p ∈ s'.1 ∨ Produces p = None).
Proof using Type.
  induction types as [|[t key] types IH]; intros Hnd Htypes s ts s' Hts Hnts Hmade Hs Hf; cbn [fold_err] in Hf.
  - injection Hf as <-. exists ts. split; [done|]. split; [done|]. split; [done|]. intros t f []%elem_of_nil.
  - destruct (create factories s (t, key)) as [s1|] eqn:Hc; [|done]. apply NoDup_cons in Hnd as [Hnew Hnd].
    destruct (Htypes t key) as (Ht & Hk & Hm); [by apply elem_of_cons; left|].
    assert (t ∉ ts) as Htts by (apply Hts; by apply elem_of_cons; left).
    destruct (create_step existing missing s t key s1) as [Hor Hall]; [rewrite Hs; set_solver|done..|].
    assert (∃ ts1, NoDup ts1 ∧ (∀ t', t' ∈ ts1 → t' ∈ ts ∨ t' = t) ∧ Forall2 (made_for existing missing) ts1 s1.1 ∧ s1.2 = list_to_set ts1 ∪ existing ∧ s.1 ⊆ s1.1)
      as (ts1 & H1 & H2 & H3 & H4 & H5).
    { destruct Hor as [->|(p & Hp & ->)]; [exists ts; auto|]. exists (ts ++ [t]). split; [|split; [|split; [|split]]].
      - apply NoDup_app. split; [done|]. split; [|apply NoDup_singleton]. by intros x Hx ->%list_elem_of_singleton.
      - intros x [Hx|Hx%list_elem_of_singleton]%elem_of_app; auto.
      - apply Forall2_app; [done|by constructor].
      - simpl. rewrite Hs. set_solver.
      - intros x Hx. apply elem_of_app. by left. }
    destruct (IH Hnd (λ t' k' H, Htypes t' k' (proj2 (elem_of_cons _ _ _) (or_intror H))) s1 ts1 s') as (ts' & G1 & G2 & G3 & G4); [|done..|].
    { intros x Hx Hin. destruct (H2 x Hin) as [Hin'| ->]; [|by apply Hnew]. apply (Hts x); [by apply elem_of_cons; right|done]. }
    exists ts'. split; [done|]. split; [done|]. split; [set_solver|]. intros x f [->|Hx]%elem_of_cons Hxf; [|by apply G4].
    destruct (Hall f Hxf) as (p & Hp & [Hin|Hn]); exists p; auto.
Qed.

(** The plugins that are created, and what they are created for. *)
Lemma creation_spec okeys otypes plugins created :
  CreateMissingDataProducers okeys otypes plugins defaults factories = inl created →
  (∃ ts, NoDup ts ∧ Forall2 (made_for (existing_types plugins) (missing_keys plugins)) ts created) ∧
  ∀ key t f, key ∈ missing_keys plugins → defaults !! key = Some t → t ∉ existing_types plugins → factories !! t = Some f →
    ∃ p, f t = inl p ∧ (p ∈ created ∨ Produces p = None).
Proof using Type.
  unfold CreateMissingDataProducers. cbn zeta. case_bool_decide as Hempty.
  { intros [= <-]. rewrite Hempty. split; [exists []; split; constructor|]. intros key t f []%elem_of_empty. }
  set (existing := existing_types plugins). set (missing := missing_keys plugins).
  set (needed := foldl (need defaults existing) ∅ _). destruct (fold_err _ _ _) as [s'|] eqn:Hf; [|done].
  destruct s' as [plgns existing']. intros [= <-].
  set (types := shuffle otypes (map_to_list needed)) in *.
  assert (types ≡ₚ map_to_list needed) as Hperm by apply shuffle_perm.
  assert (∀ key, key ∈ shuffle okeys (elements missing) ↔ key ∈ missing) as Hkeys.
  { intros key. rewrite (shuffle_perm okeys (elements missing)). apply elem_of_elements. }
  destruct (create_all existing missing types) with (s := (@nil Plugin, existing)) (ts := @nil string) (s' := (plgns, existing'))
    as (ts & H1 & H2 & _ & H4); [rewrite Hperm; apply NoDup_fst_map_to_list| |intros t _; apply not_elem_of_nil|constructor|constructor|set_solver|done|].
  { intros t key Hin. rewrite Hperm in Hin. apply elem_of_map_to_list in Hin. destruct (needed_types _ _ _ _ Hin) as (Hk & ? & ?).
    apply Hkeys in Hk. auto. }
  split; [by exists ts|]. intros key t f Hk Hd Ht Hf'. apply H4; [|done]. rewrite Hperm.
  destruct (needed_types_complete existing _ t key (proj2 (Hkeys key) Hk) Hd Ht) as [key' Hk'].
  apply list_elem_of_fmap. exists (t, key'). split; [done|by apply elem_of_map_to_list].
Qed.
End creation.

(** ** The data producers of a loaded configuration *)

Abbreviation slash_free := (char_free "/"%char).

Lemma TypedName_String_inj p q : slash_free (pl_Type p) = true → slash_free (pl_Type q) = true →
  TypedName_String p = TypedName_String q → pl_Name p = pl_Name q.
Proof.
  intros Hp Hq Heq. apply (last_sep_inj "/"%char _ (pl_Type p) _ (pl_Type q) Hp Hq Heq).
Qed.

(** An instance carries the name it is given, its type is an identifier, and a plugin named
    after the type of a default producer has this type. *)
Record loadable (defaults : gmap string string) (factories : gmap string Factory) (h : PluginMap) : Prop := mkLoadable {
  lo_named : ∀ k p, h !! k = Some p → pl_Name p = k ∧ slash_free (pl_Type p) = true ∧ well_typed p;
  lo_made : ∀ t f p, factories !! t = Some f → f t = inl p → pl_Name p = t ∧ slash_free (pl_Type p) = true ∧ well_typed p;
  lo_reserved : ∀ key t p, defaults !! key = Some t → h !! t = Some p → pl_Type p = t
}.

(** The data producers [l] of the plugins [h], in an order that respects their dependencies. *)
Record arranged (h : PluginMap) (l : list Plugin) : Prop := mkArranged {
  ar_nodup : NoDup (TypedName_String <$> l);
  ar_all : ∀ p, p ∈ l ↔ asserts IDataProducer p = true ∧ ∃ k, h !! k = Some p;
  ar_order : ∀ i c p, l !! i = Some c → p ∈ l → TypedName_String p ≠ TypedName_String c → shares p c → p ∈ take i l
}.

Lemma GetAllPlugins_elem order h p : p ∈ GetAllPlugins order h ↔ ∃ k, h !! k = Some p.
Proof.
  unfold GetAllPlugins. rewrite (shuffle_perm order (map_to_list h).*2), list_elem_of_fmap. split.
  - intros ([k q] & -> & Hin%elem_of_map_to_list). by exists k.
  - intros [k Hk]. exists (k, p). split; [done|by apply elem_of_map_to_list].
Qed.

Lemma GetAllPlugins_nodup order h : (∀ k p, h !! k = Some p → pl_Name p = k ∧ slash_free (pl_Type p) = true ∧ well_typed p) →
  NoDup (TypedName_String <$> GetAllPlugins order h).
Proof.
  intros Hh. unfold GetAllPlugins. rewrite (shuffle_perm order (map_to_list h).*2). rewrite <- list_fmap_compose.
  apply NoDup_fmap_2_strong; [|apply NoDup_map_to_list]. intros [k p] [k' p'] Hk%elem_of_map_to_list Hk'%elem_of_map_to_list Heq.
  destruct (Hh k p Hk) as (Hn & Hs & _), (Hh k' p' Hk') as (Hn' & Hs' & _). simpl in Heq.
  assert (k = k') as <- by (rewrite <- Hn, <- Hn'; by apply TypedName_String_inj). congruence.
Qed.

Lemma AddPlugins_prepare l : ∀ c, prepareDataPlugins (AddPlugins c l) = prepareDataPlugins c ++ filter (λ p, asserts IDataProducer p = true) l.
Proof.
  unfold AddPlugins. induction l as [|p l IH]; intros c; cbn [foldl]; [by rewrite app_nil_r|]. rewrite IH. unfold AddPlugin, append_if. cbn [prepareDataPlugins].
  rewrite filter_cons. destruct (asserts IDataProducer p); [by rewrite <- app_assoc|done].
Qed.

Lemma handle_added created : NoDup (pl_Name <$> created) → ∀ h k p, (∀ q, q ∈ created → h !! pl_Name q = None) →
  foldl handle_AddPlugin h created !! k = Some p ↔ h !! k = Some p ∨ (p ∈ created ∧ pl_Name p = k).
Proof.
  induction created as [|q created IH]; intros Hnd h k p Hnew; cbn [foldl].
  { split; [by left|]. intros [?|[[]%elem_of_nil _]]; done. }
  apply NoDup_cons in Hnd as [Hq Hnd]. assert (h !! pl_Name q = None) as Hqn by (apply Hnew; by apply elem_of_cons; left).
  rewrite IH; [|done|].
  - unfold handle_AddPlugin. rewrite elem_of_cons. destruct (decide (pl_Name q = k)) as [<-|Hne].
    + rewrite lookup_insert_eq, Hqn. split; [intros [[= ->]|[? ?]]; auto|]. intros [[=]|[[->|?] Hn]]; [by left|right; auto].
    + rewrite lookup_insert_ne by done. naive_solver.
  - intros x Hx. unfold handle_AddPlugin. rewrite lookup_insert_ne; [apply Hnew; by apply elem_of_cons; right|].
    intros Heq. apply Hq. rewrite Heq. apply list_elem_of_fmap. by exists x.
Qed.

(** What comes first among the names comes first among the plugins. *)
Lemma omap_before (m : PluginMap) names i c p : (∀ n q, m !! n = Some q → TypedName_String q = n) → NoDup names →
  omap (λ n, m !! n) names !! i = Some c → m !! TypedName_String p = Some p →
  (∀ j, names !! j = Some (TypedName_String c) → TypedName_String p ∈ take j names) →
  p ∈ take i (omap (λ n, m !! n) names).
Proof.
  intros Hm Hnd Hi Hp Hbefore. assert (c ∈ omap (λ n, m !! n) names) as (n & Hn & Hc)%list_elem_of_omap by (by eapply list_elem_of_lookup_2).
  pose proof (Hm n c Hc) as <-. apply list_elem_of_split in Hn as (l1 & l2 & ->).
  specialize (Hbefore (length l1) (list_lookup_middle _ _ _ _ eq_refl)). rewrite take_app_length in Hbefore.
  apply NoDup_app in Hnd as (Hnd1 & Hd & [Hnd2 _]%NoDup_cons). 
  rewrite omap_app in *. cbn [omap list_omap] in *. rewrite Hc in *.
  assert (i = length (omap (λ n, m !! n) l1)) as ->.
  { apply lookup_app_Some in Hi as [Hi|[Hlen Hi]].
    - exfalso. apply list_elem_of_lookup_2, list_elem_of_omap in Hi as (n' & Hin & Hn'). rewrite <- (Hm _ _ Hn') in Hin.
      apply (Hd _ Hin). by apply elem_of_cons; left.
    - destruct (i - length (omap (λ n, m !! n) l1)) as [|k] eqn:Hk; [lia|]. exfalso. cbn [lookup list_lookup] in Hi.
      apply list_elem_of_lookup_2, list_elem_of_omap in Hi as (n' & Hin & Hn'). rewrite <- (Hm _ _ Hn') in Hin. done. }
  rewrite take_app_length. apply list_elem_of_omap. by exists (TypedName_String p).
Qed.

Section loading.
Context (defaults : gmap string string) (factories : gmap string Factory) (h : PluginMap) (Hload : loadable defaults factories h).

Lemma created_names order missing ts created : Forall2 (made_for defaults factories (existing_types (GetAllPlugins order h)) missing) ts created →
  pl_Name <$> created = ts ∧
  ∀ q, q ∈ created → h !! pl_Name q = None ∧ slash_free (pl_Type q) = true ∧ well_typed q.
Proof using Hload.
  induction 1 as [|t q ts created Hq _ [IH1 IH2]]; [split; [done|intros q []%elem_of_nil]|].
  destruct Hq as (Ht & f & key & Hf & Hfq & Hkey & _). destruct (lo_made _ _ _ Hload t f q Hf Hfq) as (Hn & Hs & Hw).
  split; [cbn; by rewrite Hn, IH1|]. intros x [->|Hx]%elem_of_cons; [|by apply IH2]. split; [|done]. rewrite Hn.
  destruct (h !! t) as [p|] eqn:Hp; [|done]. exfalso. apply Ht. apply elem_of_list_to_set, list_elem_of_fmap.
  exists p. split; [symmetry; by eapply lo_reserved|]. apply GetAllPlugins_elem. by exists t.
Qed.

Lemma arrange o h' l0 names : (∀ k p, h' !! k = Some p → pl_Name p = k ∧ slash_free (pl_Type p) = true ∧ well_typed p) →
  NoDup (TypedName_String <$> l0) → (∀ p, p ∈ l0 ↔ asserts IDataProducer p = true ∧ ∃ k, h' !! k = Some p) →
  ordered_names (plugin_map (GetAllPlugins o h')) names →
  arranged h' (omap (λ n, plugin_map l0 !! n) names).
Proof using Type.
  intros Hh' Hl0 Hall [H1 H2 H3].
  assert (∀ n p, plugin_map (GetAllPlugins o h') !! n = Some p ↔ TypedName_String p = n ∧ ∃ k, h' !! k = Some p) as Hpm.
  { intros n p. rewrite plugin_map_elem by (by apply GetAllPlugins_nodup). by rewrite GetAllPlugins_elem. }
  assert (∀ n p, plugin_map l0 !! n = Some p → TypedName_String p = n) as Hm0 by (intros n p [? _]%plugin_map_lookup; done).
  assert (∀ p, p ∈ omap (λ n, plugin_map l0 !! n) names ↔ p ∈ l0) as Helem.
  { intros p. rewrite list_elem_of_omap. split; [intros (n & _ & [_ ?]%plugin_map_lookup); done|]. intros Hp.
    exists (TypedName_String p). split; [|by apply plugin_map_elem]. apply H2. exists p. apply Hall in Hp as [Hd [k Hk]].
    split; [apply Hpm; eauto|]. destruct (Hh' k p Hk) as (_ & _ & Hw). left. by apply Hw. }
  split.
  - assert (∀ ns, NoDup ns → NoDup (TypedName_String <$> omap (λ n, plugin_map l0 !! n) ns)) as Hgen; [|by apply Hgen].
    induction 1 as [|n ns Hn _ IH]; [constructor|]. cbn [omap list_omap]. destruct (plugin_map l0 !! n) as [p|] eqn:Hp; [|done].
    cbn. constructor; [|done]. rewrite (Hm0 n p Hp). intros (q & Hq & (n' & Hn' & Hq')%list_elem_of_omap)%list_elem_of_fmap.
    rewrite (Hm0 n' q Hq') in Hq. congruence.
  - intros p. by rewrite Helem, Hall.
  - intros i c p Hc Hp Hne Hs. apply omap_before with (c := c); [done|done|done|apply plugin_map_elem; [done|]; split; [done|by apply Helem]|].
    intros j Hj. apply (H3 (TypedName_String c)); [|done]. exists c, p. apply list_elem_of_lookup_2, Helem, Hall in Hc as [_ Hc].
    apply Helem, Hall in Hp as [_ Hp]. rewrite !Hpm. auto.
Qed.

Lemma all_nodup order created : NoDup (pl_Name <$> created) →
  (∀ q, q ∈ created → h !! pl_Name q = None ∧ slash_free (pl_Type q) = true ∧ well_typed q) →
  NoDup (TypedName_String <$> GetAllPlugins order h ++ created).
Proof using Hload.
  intros Hnd Hnew. rewrite fmap_app. apply NoDup_app. split; [apply GetAllPlugins_nodup; intros k p; apply (lo_named _ _ _ Hload)|]. split.
  - intros n (p & -> & [k Hk]%GetAllPlugins_elem)%list_elem_of_fmap (q & Heq & Hq)%list_elem_of_fmap.
    destruct (lo_named _ _ _ Hload k p Hk) as (Hn & Hs & _), (Hnew q Hq) as (Hnone & Hs' & _).
    apply TypedName_String_inj in Heq; [|done..]. congruence.
  - apply NoDup_fmap_2_strong; [|by eapply NoDup_fmap_1]. intros p q Hp Hq Heq.
    apply TypedName_String_inj in Heq; [|by apply Hnew..].
    apply list_elem_of_lookup in Hp as [i Hi]. apply list_elem_of_lookup in Hq as [j Hj].
    assert (i = j) as <-. { eapply NoDup_lookup; [exact Hnd|by rewrite list_lookup_fmap, Hi|by rewrite list_lookup_fmap, Hj; cbn; rewrite Heq]. }
    congruence.
Qed.

End loading.

(** ** Examples *)

Definition in_order : Orders := mkOrders (λ _, 0) (λ _ _, 0) (λ _ _ _, 0) (λ _ _, 0).
Definition load_in_order : LoadOrders := mkLoadOrders (λ _ _, 0) (λ _, 0) (λ _, 0) in_order.

(** A data producer that needs token counts, with a default producer for them. *)
Abbreviation latency_plugin := (mkPlugin "latency" "lat" (Some {["latency" := "Latency"]}) (Some {["tokens" := "Tokens"]}) [IDataProducer]).
Abbreviation tokens_plugin := (mkPlugin "tokenizer" "tokenizer" (Some {["tokens" := "Tokens"]}) (Some ∅) [IDataProducer]).
Abbreviation tokens_default := ({["tokens" := "tokenizer"]} : gmap string string).
Abbreviation tokens_factory := ({["tokenizer" := (λ _ : string, inl tokens_plugin : Plugin + string)]} : gmap string Factory).
Abbreviation latency_handle := ({["lat" := latency_plugin]} : PluginMap).


(** A configured data producer called as the type of a default producer is replaced by it: it
    is no longer run. *)
Lemma reserved_name_lost :
  let p := mkPlugin "latency" "tokenizer" (Some {["latency" := "Latency"]}) (Some {["tokens" := "Tokens"]}) [IDataProducer] in
  match configure_data load_in_order tokens_default tokens_factory {["tokenizer" := p]} NewConfig with
  | inl (_, c) => pl_Type <$> prepareDataPlugins c = ["tokenizer"]
  | inr _ => False
  end.
Proof. vm_compute. reflexivity. Qed.

(** Only the first shared key is checked: whether a second one of another type is noticed
    depends on the order in which Go enumerates the map. *)
Lemma second_key_unchecked :
  let p := mkPlugin "p" "p" (Some {["a" := "Tokens"; "b" := "Tokens"]}) (Some ∅) [IDataProducer] in
  let c := mkPlugin "c" "c" None (Some {["a" := "Tokens"; "b" := "Latency"]}) [Scorer] in
  let key k := mkOrders (λ _, 0) (λ _ _, 0) (λ _ _ _, k) (λ _ _, 0) in
  ∃ k k', ValidateAndOrderDataDependencies (key k) [p; c] = inl ["p/p"; "c/c"] ∧
          ValidateAndOrderDataDependencies (key k') [p; c] = inr (errMismatch "b").
Proof.
  first [exists 0, 1; split; vm_compute; reflexivity | exists 1, 0; split; vm_compute; reflexivity].
Qed.
