(* ===== verification/Datastore.v ===== *)
(** * The datastore: [datastore/datastore.go], [util/pod], [util/pool]

    The datastore caches what the Kubernetes API server knows about one InferencePool: the pool,
    its objectives and model rewrites, and one endpoint for every active port of every ready
    pod. The endpoints are made and retired by the data layer ([datalayer/factory.go], here the
    class [EndpointFactory]). The operations are the steps that its lock and its concurrent map
    make atomic; [Reconcilers.v] composes them. *)

From stdpp Require Import prelude gmap strings list pretty.
From Stdlib Require Import ZArith Ascii Lia.
From S2P Require Import Prelude FlowTypes Ordering SchedTypes Pickers ProfileHandlers ModelRewrite.

(** ** Objects of the API *)

Record Pod := mkPod {
  pod_Name : string;
  pod_Namespace : string;
  pod_Labels : gmap string string;
  pod_Annotations : gmap string string;
  pod_PodIP : string;
  pod_deleting : bool;
  pod_Conditions : list (string * string)
}.

Fixpoint ready_condition (conditions : list (string * string)) : bool :=
  match conditions with
  | [] => false
  | (t, status) :: conditions' => if bool_decide (t = "Ready") then bool_decide (status = "True") else ready_condition conditions'
  end.

Definition IsPodReady (pod : Pod) : bool := negb (pod_deleting pod) && ready_condition (pod_Conditions pod).

Record InferencePool := mkInferencePool {
  ip_Namespace : string;
  ip_Name : string;
  ip_TargetPorts : list Z;
  ip_MatchLabels : gmap string string;
  ip_AppProtocol : string;
  ip_deleting : bool
}.

Record EndpointPool := mkEndpointPool {
  pool_Selector : gmap string string;
  pool_TargetPorts : list Z;
  pool_Namespace : string;
  pool_Name : string;
  pool_AppProtocol : string
}.

Definition InferencePoolToEndpointPool (p : InferencePool) : EndpointPool :=
  mkEndpointPool (ip_MatchLabels p) (ip_TargetPorts p) (ip_Namespace p) (ip_Name p) (ip_AppProtocol p).

(** ** Ports and names *)

Definition activePortsAnnotation : string := "inference.networking.k8s.io/active-ports".

(** [strings.SplitSeq(s, sep)] for one character. *)
Fixpoint split_on (sep : ascii) (s : string) : list string :=
  match s with
  | EmptyString => [EmptyString]
  | String c s' =>
      match split_on sep s' with
      | [] => [String c EmptyString]
      | part :: parts => if bool_decide (c = sep) then EmptyString :: part :: parts else String c part :: parts
      end
  end.

Fixpoint take_digits (l : list ascii) : list ascii :=
  match l with
  | c :: l' => if slodeadline.digit c is Some _ then c :: take_digits l' else []
  | [] => []
  end.

(** [fmt.Sscanf(s, %d)]: a sign, then digits; the rest of the text is not looked at. *)
Definition Sscanf_d (l : list ascii) : option Z :=
  match l with
  | c :: l' => if bool_decide (c = "+"%char ∨ c = "-"%char) then slodeadline.ParseInt (c :: take_digits l')
               else slodeadline.ParseInt (take_digits l)
  | [] => None
  end.

Definition extractActivePorts (pod : Pod) (targetPorts : list Z) : gset Z :=
  let allPorts := list_to_set targetPorts in
  match pod_Annotations pod !! activePortsAnnotation with
  | None => allPorts
  | Some portsAnnotation =>
      foldl (λ activePorts portStr,
               match Sscanf_d (slodeadline.TrimSpace portStr) with
               | Some portNum => if bool_decide (0 < portNum ∧ portNum ∈ allPorts)%Z then {[portNum]} ∪ activePorts else activePorts
               | None => activePorts
               end) ∅ (split_on ","%char portsAnnotation)
  end.

Definition createEndpointNamespacedName (pod : Pod) (idx : nat) : NamespacedName :=
  mkNamespacedName (pod_Namespace pod) (pod_Name pod +:+ "-rank-" +:+ pretty idx).

(** ** Endpoints *)

(** An endpoint object: its address stays when its metadata is replaced. *)
Record StoredEndpoint := mkStored { se_ref : positive; se_Metadata : EndpointMetadata }.

Definition UpdateMetadata (ep : StoredEndpoint) (m : EndpointMetadata) : StoredEndpoint := mkStored (se_ref ep) m.
Definition se_name (ep : StoredEndpoint) : NamespacedName := md_NamespacedName (se_Metadata ep).

(** [datalayer.EndpointFactory], with the state of its implementation. [NewEndpoint] returns
    nil when the endpoint exists already. *)
Class EndpointFactory (F : Type) := {
  NewEndpoint : EndpointMetadata → F → option StoredEndpoint * F;
  ReleaseEndpoint : StoredEndpoint → F → F
}.

(** What the datastore relies on: as long as the factory knows which endpoints are in use, it
    makes those that are not, and forgets those that are released. *)
Class LawfulFactory (F : Type) `{EndpointFactory F} := {
  in_use : F → gset NamespacedName → Prop;
  NewEndpoint_law m f used : in_use f used → md_NamespacedName m ∉ used →
    ∃ ep f', NewEndpoint m f = (Some ep, f') ∧ se_Metadata ep = m ∧ in_use f' ({[md_NamespacedName m]} ∪ used);
  ReleaseEndpoint_law ep f used : in_use f used → in_use (ReleaseEndpoint ep f) (used ∖ {[se_name ep]})
}.

(** ** The store *)

Record InferenceObjective := mkObjective {
  io_Name : string;
  io_Priority : option Z;
  io_PoolRef : string * string;
  io_deleting : bool
}.

Record datastore (F : Type) := mkDatastore {
  ds_pool : option EndpointPool;
  ds_objectives : gmap string InferenceObjective;
  ds_modelRewrites : modelRewriteStore;
  ds_pods : gmap NamespacedName StoredEndpoint;
  ds_modelServerMetricsPort : Z;
  ds_epf : F
}.
Arguments mkDatastore {F}.
Arguments ds_pool {F}.
Arguments ds_objectives {F}.
Arguments ds_modelRewrites {F}.
Arguments ds_pods {F}.
Arguments ds_modelServerMetricsPort {F}.
Arguments ds_epf {F}.

Section store.
Context {F : Type} `{EndpointFactory F}.
(** [labels.SelectorFromSet(selector).Matches(labels)] of the Kubernetes API machinery. *)
Context (Matches : gmap string string → gmap string string → bool).
#[local] Abbreviation datastore := (datastore F).

Definition NewDatastore (epFactory : F) (modelServerMetricsPort : Z) : datastore :=
  mkDatastore None ∅ newModelRewriteStore ∅ modelServerMetricsPort epFactory.

Definition with_pods (pods : gmap NamespacedName StoredEndpoint) (f : F) (ds : datastore) : datastore :=
  mkDatastore (ds_pool ds) (ds_objectives ds) (ds_modelRewrites ds) pods (ds_modelServerMetricsPort ds) f.

Definition with_pool (pool : option EndpointPool) (ds : datastore) : datastore :=
  mkDatastore pool (ds_objectives ds) (ds_modelRewrites ds) (ds_pods ds) (ds_modelServerMetricsPort ds) (ds_epf ds).

Definition with_objectives (objectives : gmap string InferenceObjective) (ds : datastore) : datastore :=
  mkDatastore (ds_pool ds) objectives (ds_modelRewrites ds) (ds_pods ds) (ds_modelServerMetricsPort ds) (ds_epf ds).

Definition with_rewrites (rewrites : modelRewriteStore) (ds : datastore) : datastore :=
  mkDatastore (ds_pool ds) (ds_objectives ds) rewrites (ds_pods ds) (ds_modelServerMetricsPort ds) (ds_epf ds).

(** The entries of the concurrent map, in the order in which it is enumerated. *)
Definition pods_range (order : nat → nat) (ds : datastore) : list (NamespacedName * StoredEndpoint) :=
  shuffle order (map_to_list (ds_pods ds)).

Definition Clear (order : nat → nat) (ds : datastore) : datastore :=
  mkDatastore None ∅ newModelRewriteStore ∅ (ds_modelServerMetricsPort ds)
    (foldl (λ f kv, ReleaseEndpoint kv.2 f) (ds_epf ds) (pods_range order ds)).

(** A loop over the map that deletes and releases the endpoints [p] selects. *)
Definition delete_if (p : StoredEndpoint → bool) (ds : datastore) (kv : NamespacedName * StoredEndpoint) : datastore :=
  if p kv.2 then with_pods (delete kv.1 (ds_pods ds)) (ReleaseEndpoint kv.2 (ds_epf ds)) ds else ds.

Definition PodDelete (order : nat → nat) (podName : string) (ds : datastore) : datastore :=
  foldl (delete_if (λ ep, bool_decide (md_PodName (se_Metadata ep) = podName))) ds (pods_range order ds).

Definition PodList (order : nat → nat) (predicate : StoredEndpoint → bool) (ds : datastore) : list StoredEndpoint :=
  List.filter predicate (pods_range order ds).*2.

(** *** Endpoints of a pod *)

Definition metrics_port (ds : datastore) (pool : EndpointPool) (port : Z) : Z :=
  let p := if bool_decide (length (pool_TargetPorts pool) = 1) then ds_modelServerMetricsPort ds else 0%Z in
  if bool_decide (p = 0%Z) then port else p.

Definition endpoint_metadata (ds : datastore) (pool : EndpointPool) (pod : Pod) (idx : nat) (port : Z) : EndpointMetadata :=
  mkMetadata (createEndpointNamespacedName pod idx) (pod_Name pod) (pod_PodIP pod) (pretty port)
    (JoinHostPort (pod_PodIP pod) (pretty (metrics_port ds pool port))) (pod_Labels pod).

(** The metadata of the endpoints of a pod, from the port with index [idx] on. *)
Fixpoint pod_endpoints (ds : datastore) (pool : EndpointPool) (pod : Pod) (activePorts : gset Z) (idx : nat) (ports : list Z) : list EndpointMetadata :=
  match ports with
  | [] => []
  | port :: ports' =>
      (if bool_decide (port ∈ activePorts) then [endpoint_metadata ds pool pod idx port] else []) ++
      pod_endpoints ds pool pod activePorts (S idx) ports'
  end.

(** Add or update one endpoint. *)
Definition put_endpoint (s : bool * datastore) (m : EndpointMetadata) : bool * datastore :=
  let '(result, ds) := s in
  let name := md_NamespacedName m in
  match ds_pods ds !! name with
  | Some ep => (result, with_pods (<[name := UpdateMetadata ep m]> (ds_pods ds)) (ds_epf ds) ds)
  | None =>
      match NewEndpoint m (ds_epf ds) with
      | (None, f) => (result, with_pods (ds_pods ds) f ds)
      | (Some ep, f) => (false, with_pods (<[name := UpdateMetadata ep m]> (ds_pods ds)) f ds)
      end
  end.

(** Remove the endpoints of the ports that are not active. *)
Fixpoint remove_inactive (pod : Pod) (activePorts : gset Z) (idx : nat) (ports : list Z) (ds : datastore) : datastore :=
  match ports with
  | [] => ds
  | port :: ports' =>
      let name := createEndpointNamespacedName pod idx in
      let ds :=
        if bool_decide (port ∈ activePorts) then ds
        else match ds_pods ds !! name with
             | Some ep => with_pods (delete name (ds_pods ds)) (ReleaseEndpoint ep (ds_epf ds)) ds
             | None => ds
             end in
      remove_inactive pod activePorts (S idx) ports' ds
  end.

Definition podUpdateOrAddIfNotExist (pod : Pod) (pool : option EndpointPool) (ds : datastore) : bool * datastore :=
  match pool with
  | None => (true, ds)
  | Some pool =>
      let activePorts := extractActivePorts pod (pool_TargetPorts pool) in
      let pods := pod_endpoints ds pool pod activePorts 0 (pool_TargetPorts pool) in
      let '(result, ds) := foldl put_endpoint (true, ds) pods in
      (result, remove_inactive pod activePorts 0 (pool_TargetPorts pool) ds)
  end.

Definition PodUpdateOrAddIfNotExist (pod : Pod) (ds : datastore) : bool * datastore :=
  podUpdateOrAddIfNotExist pod (ds_pool ds) ds.

(** *** The pool *)

(** The list of the API reader, or its error. *)
Definition podResyncAll (order : nat → nat) (List : gmap string string → string → list Pod + string) (pool : EndpointPool)
    (ds : datastore) : option string * datastore :=
  match List (pool_Selector pool) (pool_Namespace pool) with
  | inr err => (Some ("failed to list pods - " +:+ err), ds)
  | inl items =>
      let ready := List.filter IsPodReady items in
      let activeEndpoints : gset NamespacedName :=
        list_to_set (pod ← ready; createEndpointNamespacedName pod <$> seq 0 (length (pool_TargetPorts pool))) in
      let ds := foldl (λ ds pod, (podUpdateOrAddIfNotExist pod (Some pool) ds).2) ds ready in
      (None, foldl (delete_if (λ ep, negb (bool_decide (se_name ep ∈ activeEndpoints)))) ds (pods_range order ds))
  end.

Definition PoolSet (order : nat → nat) (List : gmap string string → string → list Pod + string) (endpointPool : option EndpointPool)
    (ds : datastore) : option string * datastore :=
  match endpointPool with
  | None => (None, Clear order ds)
  | Some pool =>
      let oldEndpointPool := ds_pool ds in
      let ds := with_pool (Some pool) ds in
      let selectorChanged := match oldEndpointPool with None => true | Some old => negb (bool_decide (pool_Selector old = pool_Selector pool)) end in
      let targetPortsChanged := match oldEndpointPool with None => false | Some old => negb (bool_decide (pool_TargetPorts old = pool_TargetPorts pool)) end in
      if selectorChanged || targetPortsChanged then
        match podResyncAll order List pool ds with
        | (Some err, ds) => (Some ("failed to update pods according to the pool selector - " +:+ err), ds)
        | (None, ds) => (None, ds)
        end
      else (None, ds)
  end.

Definition PoolGet (ds : datastore) : EndpointPool + GoError :=
  match ds_pool ds with Some pool => inl pool | None => inr (ENew "InferencePool is not initialized in data store") end.

Definition PoolHasSynced (ds : datastore) : bool := if ds_pool ds is Some _ then true else false.

Definition PoolLabelsMatch (podLabels : gmap string string) (ds : datastore) : bool :=
  match ds_pool ds with Some pool => Matches (pool_Selector pool) podLabels | None => false end.

(** *** Objectives and rewrites *)

Definition ObjectiveSet (o : InferenceObjective) (ds : datastore) : datastore := with_objectives (<[io_Name o := o]> (ds_objectives ds)) ds.
Definition ObjectiveGet (objectiveName : string) (ds : datastore) : option InferenceObjective := ds_objectives ds !! objectiveName.
Definition ObjectiveDelete (name : NamespacedName) (ds : datastore) : datastore := with_objectives (delete (nn_Name name) (ds_objectives ds)) ds.
Definition ObjectiveGetAll (order : nat → nat) (ds : datastore) : list InferenceObjective := shuffle order (map_to_list (ds_objectives ds)).*2.

Definition ModelRewriteSet (ties : option string → nat → nat) (r : InferenceModelRewrite) (ds : datastore) : datastore :=
  with_rewrites (set_rewrite ties r (ds_modelRewrites ds)) ds.
Definition ModelRewriteDelete (name : NamespacedName) (ds : datastore) : datastore :=
  with_rewrites (deleteInternal (nn_Name name) (ds_modelRewrites ds)) ds.
Definition ModelRewriteGet (modelName : string) (ds : datastore) : option (InferenceModelRewriteRule * string) :=
  getRule modelName (ds_modelRewrites ds).
End store.

(** ** Names of endpoints *)

Definition rank_name (ns name : string) (idx : nat) : NamespacedName := mkNamespacedName ns (name +:+ "-rank-" +:+ pretty idx).

Lemma split_on_free sep s : char_free sep s = true → split_on sep s = [s].
Proof. induction s as [|c s IH]; [done|]. intros [Hc Hs]%char_free_cons. cbn [split_on]. rewrite IH by done. by rewrite bool_decide_eq_false_2. Qed.

Lemma split_on_app sep s t : char_free sep s = true → split_on sep (s +:+ String sep t) = s :: split_on sep t.
Proof.
  induction s as [|c s IH].
  - intros _. change ("" +:+ String sep t) with (String sep t). cbn [split_on]. assert (split_on sep t ≠ []) as Hne by (destruct t; cbn [split_on]; [done|]; repeat case_match; done).
    destruct (split_on sep t); [done|]. by rewrite bool_decide_eq_true_2.
  - intros [Hc Hs]%char_free_cons. change (String c s +:+ ?u) with (String c (s +:+ u)). cbn [split_on]. rewrite IH by done. by rewrite bool_decide_eq_false_2.
Qed.

Lemma pretty_no_dash (n : nat) : char_free "-"%char (pretty n) = true.
Proof.
  unfold pretty, pretty_nat, pretty, pretty_N. case_decide; [done|]. generalize (N.of_nat n). intros x.
  enough (∀ s, char_free "-"%char s = true → char_free "-"%char (pretty_N_go x s) = true) as Hgen by (by apply Hgen).
  clear. induction (N.lt_wf_0 x) as [x _ IH]. intros s Hs. destruct (decide (x = 0%N)) as [->|Hx]; [done|].
  rewrite pretty_N_go_step by lia. apply IH; [apply N.div_lt; lia|]. simpl. rewrite Hs.
  unfold pretty_N_char. repeat case_match; done.
Qed.

Lemma rank_name_inj ns name name' idx idx' : rank_name ns name idx = rank_name ns name' idx' → name = name' ∧ idx = idx'.
Proof.
  unfold rank_name. intros [= Heq].
  assert (∀ a b : string, a +:+ "-rank-" +:+ b = (a +:+ "-rank") +:+ String "-" b) as Hassoc.
  { intros a b. induction a as [|x a IH]; [done|]. exact (f_equal (String x) IH). }
  rewrite !Hassoc in Heq. apply last_sep_inj in Heq as [Hn Hi]; [|apply pretty_no_dash..].
  apply string_app_inj_r in Hn. apply (inj pretty) in Hi. done.
Qed.

(** ** What the operations do to the endpoints *)

Section lemmas.
Context {F : Type} `{LawfulFactory F}.
#[local] Abbreviation datastore := (datastore F).

(** The endpoints are stored under their names and are those the factory knows. *)
Record store_ok (ns : string) (ds : datastore) : Prop := mkStoreOk {
  so_named : ∀ k ep, ds_pods ds !! k = Some ep → se_name ep = k ∧ ∃ idx, k = rank_name ns (md_PodName (se_Metadata ep)) idx;
  so_in_use : in_use (ds_epf ds) (dom (ds_pods ds))
}.

(** Everything but the endpoints. *)
Record same_rest (ds ds' : datastore) : Prop := mkSameRest {
  sr_pool : ds_pool ds' = ds_pool ds;
  sr_objectives : ds_objectives ds' = ds_objectives ds;
  sr_rewrites : ds_modelRewrites ds' = ds_modelRewrites ds;
  sr_port : ds_modelServerMetricsPort ds' = ds_modelServerMetricsPort ds
}.

#[export] Instance same_rest_preorder : PreOrder same_rest.
Proof using Type. split; [by intros ds; split|]. intros x y z [] []. split; congruence. Qed.

Definition meta (ds : datastore) (k : NamespacedName) : option EndpointMetadata := se_Metadata <$> ds_pods ds !! k.

Lemma same_rest_pods pods f ds : same_rest ds (with_pods pods f ds).
Proof using Type. done. Qed.

Lemma delete_ok ns ds k ep : store_ok ns ds → ds_pods ds !! k = Some ep →
  store_ok ns (with_pods (delete k (ds_pods ds)) (ReleaseEndpoint ep (ds_epf ds)) ds).
Proof using Type.
  intros [H1' H2] Hk. destruct (H1' k ep Hk) as [Hn _]. split; simpl.
  - intros k' ep' [_ Hk']%lookup_delete_Some. by apply H1'.
  - rewrite dom_delete_L. rewrite <- Hn. by apply ReleaseEndpoint_law.
Qed.

Lemma delete_all ns p l : ∀ ds, store_ok ns ds → NoDup l.*1 → (∀ k ep, (k, ep) ∈ l → ds_pods ds !! k = Some ep) →
  let ds' := foldl (delete_if p) ds l in
  store_ok ns ds' ∧ same_rest ds ds' ∧
  ∀ k ep, ds_pods ds' !! k = Some ep ↔ ds_pods ds !! k = Some ep ∧ ((k, ep) ∈ l → p ep = false).
Proof using Type.
  induction l as [|[k ep] l IH]; intros ds Hok Hnd Hl; cbn [foldl].
  { split; [done|]. split; [done|]. intros k ep. split; [|by intros [? _]]. intros ?. split; [done|]. intros []%elem_of_nil. }
  apply NoDup_cons in Hnd as [Hnew Hnd]. assert (ds_pods ds !! k = Some ep) as Hk by (apply Hl; by apply elem_of_cons; left).
  assert (∀ k' ep', (k', ep') ∈ l → k' ≠ k) as Hne.
  { intros k' ep' Hin ->. apply Hnew. apply list_elem_of_fmap. by exists (k, ep'). }
  destruct (p ep) eqn:Hp.
  - assert (delete_if p ds (k, ep) = with_pods (delete k (ds_pods ds)) (ReleaseEndpoint ep (ds_epf ds)) ds) as ->
      by (unfold delete_if; simpl; by rewrite Hp).
    destruct (IH (with_pods (delete k (ds_pods ds)) (ReleaseEndpoint ep (ds_epf ds)) ds)) as (H3 & H4 & H5); [by apply delete_ok|done| |].
    { intros k' ep' Hin. simpl. rewrite lookup_delete_ne by (symmetry; by eapply Hne). apply Hl. by apply elem_of_cons; right. }
    split; [done|]. split; [etrans; [apply same_rest_pods|exact H4]|]. intros k' ep'. rewrite H5. simpl. rewrite lookup_delete_Some, elem_of_cons. split.
    + intros [[Hkk Hk'] Himp]. split; [done|]. intros [[= -> ->]|Hin]; [done|by apply Himp].
    + intros [Hk' Himp]. assert (k ≠ k'). { intros ->. rewrite Hk in Hk'. injection Hk' as ->. rewrite Himp in Hp by auto. done. }
      split; [done|]. intros Hin. apply Himp. by right.
  - assert (delete_if p ds (k, ep) = ds) as -> by (unfold delete_if; simpl; by rewrite Hp).
    destruct (IH ds) as (H3 & H4 & H5); [done|done| |].
    { intros k' ep' Hin. apply Hl. by apply elem_of_cons; right. }
    split; [done|]. split; [done|]. intros k' ep'. rewrite H5, elem_of_cons. split; [|naive_solver].
    intros [Hk' Himp]. split; [done|]. intros [[= -> ->]|Hin]; [done|by apply Himp].
Qed.

Lemma delete_range ns p order ds : store_ok ns ds →
  let ds' := foldl (delete_if p) ds (pods_range order ds) in
  store_ok ns ds' ∧ same_rest ds ds' ∧ ∀ k ep, ds_pods ds' !! k = Some ep ↔ ds_pods ds !! k = Some ep ∧ p ep = false.
Proof using Type.
  intros Hok. assert (∀ k ep, (k, ep) ∈ pods_range order ds ↔ ds_pods ds !! k = Some ep) as Hin.
  { intros k ep. unfold pods_range. rewrite (shuffle_perm order (map_to_list (ds_pods ds))). apply elem_of_map_to_list. }
  destruct (delete_all ns p (pods_range order ds) ds) as (H3 & H4 & H5); [done| |by intros; apply Hin|].
  { unfold pods_range. rewrite (shuffle_perm order (map_to_list (ds_pods ds))). apply NoDup_fst_map_to_list. }
  split; [done|]. split; [done|]. intros k ep. rewrite H5, Hin. naive_solver.
Qed.

Lemma PodDelete_spec ns order name ds : store_ok ns ds →
  let ds' := PodDelete order name ds in
  store_ok ns ds' ∧ same_rest ds ds' ∧
  ∀ name' idx, meta ds' (rank_name ns name' idx) = if decide (name' = name) then None else meta ds (rank_name ns name' idx).
Proof using Type.
  intros Hok ds'. destruct (delete_range ns (λ ep, bool_decide (md_PodName (se_Metadata ep) = name)) order ds Hok) as (H3 & H4 & H5).
  change (foldl _ ds _) with ds' in H3, H4, H5. clearbody ds'.
  split; [done|]. split; [done|]. intros name' idx. unfold meta.
  assert (∀ ep, ds_pods ds !! rank_name ns name' idx = Some ep → md_PodName (se_Metadata ep) = name') as Hname.
  { intros ep Hep. destruct (so_named ns ds Hok _ _ Hep) as [_ [idx' Hidx]]. by apply rank_name_inj in Hidx as [-> _]. }
  set (k := rank_name ns name' idx) in *. case_decide as Hd.
  - destruct (ds_pods ds' !! k) as [ep|] eqn:Hk; [|done]. apply H5 in Hk as [Hk Hb]. apply Hname in Hk. apply bool_decide_eq_false in Hb. congruence.
  - destruct (ds_pods ds !! k) as [ep|] eqn:Hk.
    + assert (ds_pods ds' !! k = Some ep) as ->; [|done].
      apply H5. split; [done|]. apply bool_decide_eq_false. rewrite (Hname ep eq_refl). done.
    + destruct (ds_pods ds' !! k) as [ep|] eqn:Hk'; [|done]. apply H5 in Hk' as [Hk' _]. congruence.
Qed.
Lemma put_spec ns ds r m idx : store_ok ns ds → md_NamespacedName m = rank_name ns (md_PodName m) idx →
  let s' := put_endpoint (r, ds) m in
  store_ok ns s'.2 ∧ same_rest ds s'.2 ∧ ∀ k, meta s'.2 k = if decide (k = md_NamespacedName m) then Some m else meta ds k.
Proof using Type.
  intros Hok Hm. assert (∀ ep f, in_use f ({[md_NamespacedName m]} ∪ dom (ds_pods ds)) →
    let ds' := with_pods (<[md_NamespacedName m := UpdateMetadata ep m]> (ds_pods ds)) f ds in
    store_ok ns ds' ∧ same_rest ds ds' ∧ ∀ k, meta ds' k = if decide (k = md_NamespacedName m) then Some m else meta ds k) as Hput.
  { intros ep f Hf. split; [|split; [done|]].
    - split; simpl; [|by rewrite dom_insert_L]. intros k ep' [[<- <-]|[_ Hk]]%lookup_insert_Some; [|by apply Hok].
      split; [done|]. by exists idx.
    - intros k. unfold meta. simpl. case_decide as Hk; [subst; by rewrite lookup_insert_eq|by rewrite lookup_insert_ne]. }
  unfold put_endpoint. destruct (ds_pods ds !! md_NamespacedName m) as [ep|] eqn:Hk.
  - apply Hput. replace ({[md_NamespacedName m]} ∪ dom (ds_pods ds)) with (dom (ds_pods ds)); [apply Hok|].
    apply elem_of_dom_2 in Hk. set_solver.
  - destruct (NewEndpoint_law m (ds_epf ds) (dom (ds_pods ds)) (so_in_use ns ds Hok)) as (ep & f & Heq & _ & Hf); [by apply not_elem_of_dom|].
    rewrite Heq. by apply Hput.
Qed.

(** Where the endpoints of the ports [sel] selects are, from index [idx] on. *)
Definition at_ports (ns name : string) (sel : Z → Prop) (idx : nat) (ports : list Z) (k : NamespacedName) : Prop :=
  ∃ i port, ports !! i = Some port ∧ sel port ∧ k = rank_name ns name (idx + i).

Lemma at_ports_cons ns name sel idx port ports k :
  at_ports ns name sel idx (port :: ports) k ↔ (sel port ∧ k = rank_name ns name idx) ∨ at_ports ns name sel (S idx) ports k.
Proof using Type.
  unfold at_ports. split.
  - intros ([|i] & q & Hq & Hs & ->); simpl in Hq.
    + injection Hq as ->. left. by rewrite Nat.add_0_r.
    + right. exists i, q. by rewrite <- Nat.add_succ_comm.
  - intros [[Hs ->]|(i & q & Hq & Hs & ->)]; [exists 0, port; by rewrite Nat.add_0_r|]. exists (S i), q. by rewrite <- Nat.add_succ_comm.
Qed.

Lemma put_all ns (ds0 : datastore) pool pod act ports : pod_Namespace pod = ns → ∀ idx (s : bool * datastore), store_ok ns s.2 →
  let s' := foldl put_endpoint s (pod_endpoints ds0 pool pod act idx ports) in
  store_ok ns s'.2 ∧ same_rest s.2 s'.2 ∧
  (∀ i port, ports !! i = Some port → port ∈ act → meta s'.2 (rank_name ns (pod_Name pod) (idx + i)) = Some (endpoint_metadata ds0 pool pod (idx + i) port)) ∧
  (∀ k, ¬ at_ports ns (pod_Name pod) (.∈ act) idx ports k → meta s'.2 k = meta s.2 k).
Proof using Type.
  intros Hns. induction ports as [|port ports IH]; intros idx s Hok; cbn [pod_endpoints].
  { split; [done|]. split; [done|]. split; [intros i port; by rewrite lookup_nil|done]. }
  assert (∃ s1, foldl put_endpoint s ((if bool_decide (port ∈ act) then [endpoint_metadata ds0 pool pod idx port] else []) ++ pod_endpoints ds0 pool pod act (S idx) ports) =
    foldl put_endpoint s1 (pod_endpoints ds0 pool pod act (S idx) ports) ∧ store_ok ns s1.2 ∧ same_rest s.2 s1.2 ∧
    (port ∈ act → meta s1.2 (rank_name ns (pod_Name pod) idx) = Some (endpoint_metadata ds0 pool pod idx port)) ∧
    (∀ k, ¬ (port ∈ act ∧ k = rank_name ns (pod_Name pod) idx) → meta s1.2 k = meta s.2 k)) as (s1 & -> & H1' & H2 & H3 & H4).
  { case_bool_decide as Hin; [|exists s; naive_solver]. exists (put_endpoint s (endpoint_metadata ds0 pool pod idx port)). split; [done|].
    destruct s as [r ds]. destruct (put_spec ns ds r (endpoint_metadata ds0 pool pod idx port) idx Hok) as (G1 & G2 & G3).
    { simpl. unfold createEndpointNamespacedName. by rewrite Hns. }
    assert (md_NamespacedName (endpoint_metadata ds0 pool pod idx port) = rank_name ns (pod_Name pod) idx) as Hn
      by (simpl; unfold createEndpointNamespacedName; by rewrite Hns). rewrite Hn in G3.
    split; [done|]. split; [done|]. split; intros; rewrite G3; [by rewrite decide_True|rewrite decide_False; naive_solver]. }
  destruct (IH (S idx) s1 H1') as (G1 & G2 & G3 & G4). split; [done|]. split; [by etrans|]. split.
  - intros [|i] q Hq Hact; simpl in Hq.
    + injection Hq as ->. rewrite Nat.add_0_r. rewrite G4; [by apply H3|]. intros (i & q' & _ & _ & [_ Heq]%rank_name_inj). lia.
    + rewrite <- Nat.add_succ_comm. by apply G3.
  - intros k Hk. rewrite at_ports_cons in Hk. rewrite G4, H4; naive_solver.
Qed.

Lemma remove_spec ns pod act ports : pod_Namespace pod = ns → ∀ idx (ds : datastore), store_ok ns ds →
  let ds' := remove_inactive pod act idx ports ds in
  store_ok ns ds' ∧ same_rest ds ds' ∧
  (∀ k, at_ports ns (pod_Name pod) (.∉ act) idx ports k → meta ds' k = None) ∧
  (∀ k, ¬ at_ports ns (pod_Name pod) (.∉ act) idx ports k → meta ds' k = meta ds k).
Proof using Type.
  intros Hns. induction ports as [|port ports IH]; intros idx ds Hok; cbn [remove_inactive].
  { split; [done|]. split; [done|]. split; [|done]. intros k (i & q & Hq & _). by rewrite lookup_nil in Hq. }
  set (name := createEndpointNamespacedName pod idx). assert (name = rank_name ns (pod_Name pod) idx) as Hname
    by (unfold name, createEndpointNamespacedName; by rewrite Hns).
  set (ds1 := if bool_decide (port ∈ act) then ds else _).
  assert (store_ok ns ds1 ∧ same_rest ds ds1 ∧ ((port ∉ act) → meta ds1 name = None) ∧
    ∀ k, ¬ ((port ∉ act) ∧ k = name) → meta ds1 k = meta ds k) as (H1' & H2 & H3 & H4).
  { unfold ds1. case_bool_decide as Hin; [naive_solver|]. destruct (ds_pods ds !! name) as [ep|] eqn:Hk.
    - split; [by apply delete_ok|]. split; [done|]. unfold meta. simpl. split; [intros _; by rewrite lookup_delete_eq|].
      intros k Hne. rewrite lookup_delete_ne by naive_solver. done.
    - split; [done|]. split; [done|]. split; [intros _; unfold meta; by rewrite Hk|done]. }
  clearbody ds1. destruct (IH (S idx) ds1 H1') as (G1 & G2 & G3 & G4). split; [done|]. split; [by etrans|]. rewrite Hname in *. split; intros k Hk; rewrite at_ports_cons in Hk.
  - destruct Hk as [[Hp ->]|Hk]; [|by apply G3]. rewrite G4; [by apply H3|]. intros (i & q' & _ & _ & [_ Heq]%rank_name_inj). lia.
  - rewrite G4, H4; naive_solver.
Qed.
(** The endpoint a pod should have for the port of this index. *)
Definition rank_metadata (ds : datastore) (pool : EndpointPool) (pod : Pod) (idx : nat) : option EndpointMetadata :=
  port ← pool_TargetPorts pool !! idx;
  if bool_decide (port ∈ extractActivePorts pod (pool_TargetPorts pool)) then Some (endpoint_metadata ds pool pod idx port) else None.

Lemma rank_metadata_rest ds ds' pool pod idx : same_rest ds ds' → rank_metadata ds' pool pod idx = rank_metadata ds pool pod idx.
Proof using Type. intros [_ _ _ Hport]. unfold rank_metadata, endpoint_metadata, metrics_port. by rewrite Hport. Qed.

Lemma update_spec ns pod pool ds : pod_Namespace pod = ns → store_ok ns ds →
  let ds' := (podUpdateOrAddIfNotExist pod (Some pool) ds).2 in
  store_ok ns ds' ∧ same_rest ds ds' ∧
  ∀ name idx, meta ds' (rank_name ns name idx) =
    if decide (name = pod_Name pod ∧ idx < length (pool_TargetPorts pool)) then rank_metadata ds pool pod idx else meta ds (rank_name ns name idx).
Proof using Type.
  intros Hns Hok. unfold podUpdateOrAddIfNotExist. set (ports := pool_TargetPorts pool). set (act := extractActivePorts pod ports).
  destruct (put_all ns ds pool pod act ports Hns 0 (true, ds) Hok) as (H1' & H2 & H3 & H4).
  destruct (foldl put_endpoint _ _) as [r ds1]. cbn [snd] in *.
  destruct (remove_spec ns pod act ports Hns 0 ds1 H1') as (G1 & G2 & G3 & G4). split; [done|]. split; [by etrans|].
  intros name idx. case_decide as Hd.
  - destruct Hd as [-> Hlt]. unfold rank_metadata. fold ports. fold act. destruct (lookup_lt_is_Some_2 ports idx Hlt) as [port Hport].
    rewrite Hport. simpl. case_bool_decide as Hact.
    + rewrite G4; [by apply (H3 idx port)|]. intros (i & q & Hq & Hnot & [_ ->]%rank_name_inj). simpl in *. congruence.
    + apply G3. by exists idx, port.
  - rewrite G4, H4; [done|..]; intros (i & q & Hq & _ & [-> ->]%rank_name_inj); apply Hd; (split; [done|by eapply lookup_lt_Some]).
Qed.

Lemma update_all ns pool ready : NoDup (pod_Name <$> ready) → Forall (λ pod, pod_Namespace pod = ns) ready → ∀ ds, store_ok ns ds →
  let ds' := foldl (λ ds pod, (podUpdateOrAddIfNotExist pod (Some pool) ds).2) ds ready in
  store_ok ns ds' ∧ same_rest ds ds' ∧
  (∀ pod idx, pod ∈ ready → idx < length (pool_TargetPorts pool) → meta ds' (rank_name ns (pod_Name pod) idx) = rank_metadata ds pool pod idx) ∧
  (∀ name idx, name ∉ pod_Name <$> ready → meta ds' (rank_name ns name idx) = meta ds (rank_name ns name idx)).
Proof using Type.
  induction ready as [|pod ready IH]; intros Hnd Hns ds Hok; cbn [foldl].
  { split; [done|]. split; [done|]. split; [intros pod idx []%elem_of_nil|done]. }
  apply NoDup_cons in Hnd as [Hnew Hnd]. apply Forall_cons in Hns as [Hpod Hns].
  destruct (update_spec ns pod pool ds Hpod Hok) as (H1' & H2 & H3). set (ds1 := (podUpdateOrAddIfNotExist pod (Some pool) ds).2) in *. clearbody ds1.
  destruct (IH Hnd Hns ds1 H1') as (G1 & G2 & G3 & G4). split; [done|]. split; [by etrans|]. split.
  - intros pod' idx [->|Hin]%elem_of_cons Hlt.
    + rewrite G4, H3 by done. by rewrite decide_True.
    + rewrite G3 by done. by apply rank_metadata_rest.
  - intros name idx Hname. rewrite fmap_cons, not_elem_of_cons in Hname. destruct Hname as [Hne Hname]. rewrite G4, H3 by done.
    rewrite decide_False; [done|]. by intros [-> _].
Qed.

Lemma resync_spec ns order List pool ds items : List (pool_Selector pool) (pool_Namespace pool) = inl items →
  let ready := List.filter IsPodReady items in
  NoDup (pod_Name <$> ready) → Forall (λ pod, pod_Namespace pod = ns) ready → store_ok ns ds →
  ∃ ds', podResyncAll order List pool ds = (None, ds') ∧ store_ok ns ds' ∧ same_rest ds ds' ∧
  (∀ pod idx, pod ∈ ready → meta ds' (rank_name ns (pod_Name pod) idx) = rank_metadata ds pool pod idx) ∧
  (∀ name idx, name ∉ pod_Name <$> ready → meta ds' (rank_name ns name idx) = None).
Proof using Type.
  intros Hlist ready Hnd Hns Hok. unfold podResyncAll. rewrite Hlist. cbn zeta. fold ready.
  destruct (update_all ns pool ready Hnd Hns ds Hok) as (H1' & H2 & H3 & H4).
  set (ds1 := foldl _ ds ready) in *. clearbody ds1. set (active := list_to_set _).
  assert (∀ k, k ∈ active ↔ ∃ pod idx, pod ∈ ready ∧ idx < length (pool_TargetPorts pool) ∧ k = rank_name ns (pod_Name pod) idx) as Hactive.
  { intros k. unfold active. rewrite elem_of_list_to_set, list_elem_of_bind. setoid_rewrite list_elem_of_fmap. setoid_rewrite elem_of_seq.
    rewrite Forall_forall in Hns. unfold createEndpointNamespacedName, rank_name. split.
    - intros (pod & (idx & -> & Hidx) & Hpod). exists pod, idx. rewrite (Hns pod Hpod). split; [done|]. split; [lia|done].
    - intros (pod & idx & Hpod & Hidx & ->). exists pod. split; [|done]. exists idx. rewrite (Hns pod Hpod). split; [done|lia]. }
  destruct (delete_range ns (λ ep, negb (bool_decide (se_name ep ∈ active))) order ds1 H1') as (G1 & G2 & G3).
  eexists. split; [reflexivity|]. set (ds2 := foldl _ ds1 _) in *. clearbody ds2.
  assert (∀ k, meta ds2 k = if decide (k ∈ active) then meta ds1 k else None) as Hmeta.
  { intros k. unfold meta. destruct (ds_pods ds2 !! k) as [ep|] eqn:Hk.
    - apply G3 in Hk as [Hk Hact]. destruct (so_named ns ds1 H1' k ep Hk) as [<- _]. apply negb_false_iff, bool_decide_eq_true in Hact.
      by rewrite decide_True, Hk.
    - case_decide as Hact; [|done]. destruct (ds_pods ds1 !! k) as [ep|] eqn:Hk1; [|done]. destruct (so_named ns ds1 H1' k ep Hk1) as [Hn _].
      assert (ds_pods ds2 !! k = Some ep) as Hc; [|congruence]. apply G3. split; [done|]. rewrite Hn. by rewrite bool_decide_eq_true_2. }
  split; [done|]. split; [by etrans|]. split.
  - intros pod idx Hpod. rewrite Hmeta. destruct (decide (idx < length (pool_TargetPorts pool))) as [Hlt|Hge].
    + rewrite decide_True; [by apply H3|]. apply Hactive. by exists pod, idx.
    + rewrite decide_False. { unfold rank_metadata. by rewrite lookup_ge_None_2 by lia. }
      intros (pod' & idx' & _ & Hlt & [_ ->]%rank_name_inj)%Hactive. lia.
  - intros name idx Hname. rewrite Hmeta. case_decide as Hact; [|done]. apply Hactive in Hact as (pod & idx' & Hpod & _ & [-> _]%rank_name_inj).
    exfalso. apply Hname. apply list_elem_of_fmap. by exists pod.
Qed.

Lemma Clear_spec ns order ds : store_ok ns ds → store_ok ns (Clear order ds) ∧ ds_pods (Clear order ds) = ∅.
Proof using Type.
  intros Hok. split; [|done]. split; [done|]. simpl.
  assert (∀ l f used, (∀ k ep, (k, ep) ∈ l → se_name ep = k) → in_use f used → in_use (foldl (λ f kv, ReleaseEndpoint kv.2 f) f l) (used ∖ list_to_set l.*1)) as Hgen.
  { induction l as [|[k ep] l IH]; intros f used Hl Hf; cbn [foldl].
    - replace (used ∖ list_to_set (@nil (NamespacedName * StoredEndpoint)).*1) with used by set_solver. done.
    - assert (se_name ep = k) as <- by (apply Hl; by apply elem_of_cons; left).
      replace (used ∖ list_to_set ((se_name ep, ep) :: l).*1) with (used ∖ {[se_name ep]} ∖ list_to_set l.*1) by set_solver.
      apply IH; [intros k' ep' Hin; apply Hl; by apply elem_of_cons; right|]. by apply ReleaseEndpoint_law. }
  assert (∀ k ep, (k, ep) ∈ pods_range order ds ↔ ds_pods ds !! k = Some ep) as Hin.
  { intros k ep. unfold pods_range. rewrite (shuffle_perm order (map_to_list (ds_pods ds))). apply elem_of_map_to_list. }
  pose proof (Hgen (pods_range order ds) (ds_epf ds) (dom (ds_pods ds))) as Hf.
  replace (dom (ds_pods ds) ∖ list_to_set (pods_range order ds).*1) with (∅ : gset NamespacedName) in Hf.
  { rewrite dom_empty_L. apply Hf; [|apply Hok]. intros k ep Hk%Hin. by apply (so_named ns ds Hok k ep). }
  apply set_eq. intros k. rewrite elem_of_difference, elem_of_list_to_set, elem_of_dom. split; [by intros []%elem_of_empty|].
  intros [[ep Hep] Hn]. exfalso. apply Hn. apply list_elem_of_fmap. exists (k, ep). split; [done|by apply Hin].
Qed.
End lemmas.
