(* ===== verification/DataRuntime.v ===== *)
(** * The runtime of the data layer: [datalayer/runtime.go], [datalayer/collector.go]

    The runtime holds the configured data sources with their extractors, and runs a collector
    for every endpoint of the datastore: at each tick, the polling sources are asked for data
    and their extractors update the endpoint. It is the factory of endpoints that the datastore
    relies on ([LawfulFactory]). Sources and extractors are plugins with a state [P] of their
    own; what a source returns has type [D]. *)

From stdpp Require Import prelude gmap strings list.
From Stdlib Require Import ZArith Lia.
From S2P Require Import Prelude SchedTypes Pickers DataDependencies Datastore.

(** ** Types at run time: [reflect.Type] *)

Record RType := mkRType { ty_Name : string; ty_interface : bool; ty_methods : gset string }.

#[export] Instance RType_eq_dec : EqDecision RType.
Proof. solve_decision. Defined.

(** [t.Implements(u)] for an interface [u]. *)
Definition Implements (t u : RType) : bool := bool_decide (ty_methods u ⊆ ty_methods t).

Inductive TypeError := ErrNilType | ErrNotInterface | ErrIncompatible.

Definition validateInputTypeCompatible (dataSourceOutput extractorInput : option RType) : option TypeError :=
  match dataSourceOutput, extractorInput with
  | Some output, Some input =>
      if bool_decide (output = input) || (ty_interface input && bool_decide (ty_methods input = ∅)) || (ty_interface input && Implements output input)
      then None else Some ErrIncompatible
  | _, _ => Some ErrNilType
  end.

Definition validateExtractorCompatible (extractorType expectedInterfaceType : option RType) : option TypeError :=
  match extractorType, expectedInterfaceType with
  | Some t, Some u => if negb (ty_interface u) then Some ErrNotInterface else if negb (Implements t u) then Some ErrIncompatible else None
  | _, _ => Some ErrNilType
  end.

(** ** Plugins *)

Record EndpointEvent := mkEvent { ev_delete : bool; ev_Endpoint : StoredEndpoint }.

Section runtime.
Context {P D : Type}.

(** The optional methods are those of the interfaces a type assertion can find. *)
Record Extractor := mkExtractor {
  ex_Type : string;
  ex_Name : string;
  ex_reflect : option RType;
  ExpectedInputType : option RType;
  ex_GVK : option string;
  Extract : D → NamespacedName → P → option string * P;
  ExtractEndpoint : option (EndpointEvent → P → option string * P)
}.

Record Source := mkSource {
  src_Type : string;
  src_Name : string;
  src_ExtractorType : option RType;
  src_OutputType : option RType;
  Poll : option (NamespacedName → P → (option D + string) * P);
  src_GVK : option string;
  NotifyEndpoint : option (EndpointEvent → P → (option EndpointEvent + string) * P);
  ValidateExtractor : option (Extractor → option string)
}.

(** ** The collector of an endpoint *)

Record Collector := mkCollector { c_started : bool; c_stopped : bool }.

Definition NewCollector : Collector := mkCollector false false.

(** [Start] waits for its goroutine or for the end of the context: [ready] is which of the two
    comes first. *)
Definition Collector_Start (ready : bool) (pollers : list Source) (c : Collector) : option string * Collector :=
  if bool_decide (length pollers = 0) then (Some "cannot start collector with empty sources", c)
  else if c_started c then (Some "collector start called multiple times", c)
  else if ready then (None, mkCollector true (c_stopped c))
  else (Some "context canceled", mkCollector true (c_stopped c)).

Definition Collector_Stop (c : Collector) : option string * Collector :=
  if negb (c_started c) then (Some "collector stop called before start", c)
  else if c_stopped c then (Some "collector stop called multiple times", c)
  else (None, mkCollector true true).

(** The last error of each source and extractor; [true] is an error. What is logged is left out. *)
Definition logErrorTransition (errs : gmap string bool) (key : string) (err : bool) : gmap string bool :=
  if bool_decide (err ≠ default false (errs !! key)) then <[key := err]> errs else errs.

Record Errors := mkErrors { lastPollErrors : gmap string bool; lastExtractErrors : gmap string bool }.

Definition typed_name (name type : string) : string := name +:+ "/" +:+ type.

(** One source at a tick. *)
Definition collect_source (endpoint : NamespacedName) (exts : gmap string (list Extractor)) (s : Errors * P) (src : Source) : Errors * P :=
  match Poll src with
  | None => s
  | Some poll =>
      let '(r, p) := poll endpoint s.2 in
      let key := typed_name (src_Name src) (src_Type src) in
      let errs := mkErrors (logErrorTransition (lastPollErrors s.1) key (if r is inr _ then true else false)) (lastExtractErrors s.1) in
      match r with
      | inl (Some data) =>
          foldl (λ s ext,
                   let '(extErr, p) := Extract ext data endpoint s.2 in
                   (mkErrors (lastPollErrors s.1)
                      (logErrorTransition (lastExtractErrors s.1) (typed_name (ex_Name ext) (ex_Type ext)) (if extErr is Some _ then true else false)), p))
            (errs, p) (default [] (exts !! src_Name src))
      | _ => (errs, p)
      end
  end.

Definition collect_tick (endpoint : NamespacedName) (sources : list Source) (exts : gmap string (list Extractor)) (s : Errors * P) : Errors * P :=
  foldl (collect_source endpoint exts) s sources.

(** ** The runtime *)

Record Runtime := mkRuntime {
  rt_pollers : gmap string Source;
  rt_notifiers : gmap string Source;
  rt_endpointSources : gmap string Source;
  rt_sourceExtractors : gmap string (list Extractor);
  rt_collectors : gmap NamespacedName Collector;
  rt_refs : positive;
  rt_plugins : P
}.

Definition NewRuntime (p : P) : Runtime := mkRuntime ∅ ∅ ∅ ∅ ∅ 1%positive p.

Definition defaultRefreshInterval : Z := 50 * 1000000.
Definition polling_interval (pollingInterval : Z) : Z := if bool_decide (0 < pollingInterval)%Z then pollingInterval else defaultRefreshInterval.

Inductive ConfigureError :=
  | ErrNoSources
  | ErrDisallowed (ext src : string)
  | ErrExtractorType (ext src : string) (e : TypeError)
  | ErrInputType (ext src : string) (e : TypeError)
  | ErrGVK (ext src : string)
  | ErrValidation (ext src err : string)
  | ErrDuplicateGVK (gvk existing src : string)
  | ErrUnknownSource (src : string).

(** The first check that fails. *)
Definition or_else (e e' : option ConfigureError) : option ConfigureError := match e with Some _ => e | None => e' end.

Definition validateSourceExtractor (src : Source) (disallowedExtractorType : string) (ext : Extractor) : option ConfigureError :=
  let en := typed_name (ex_Name ext) (ex_Type ext) in
  let sn := typed_name (src_Name src) (src_Type src) in
  or_else (if bool_decide (disallowedExtractorType ≠ "" ∧ ex_Type ext = disallowedExtractorType) then Some (ErrDisallowed en sn) else None)
 (or_else (ErrExtractorType en sn <$> validateExtractorCompatible (ex_reflect ext) (src_ExtractorType src))
 (or_else (ErrInputType en sn <$> validateInputTypeCompatible (src_OutputType src) (ExpectedInputType ext))
 (or_else (match src_GVK src, ex_GVK ext with
           | Some g, Some g' => if bool_decide (g ≠ g') then Some (ErrGVK en sn) else None
           | _, _ => None
           end)
          (match ValidateExtractor src with
           | Some validate => ErrValidation en sn <$> validate ext
           | None => None
           end)))).

Fixpoint validateSourceExtractors (src : Source) (extractors : list Extractor) (disallowedExtractorType : string) : option ConfigureError :=
  match extractors with
  | [] => None
  | ext :: extractors' => or_else (validateSourceExtractor src disallowedExtractorType ext) (validateSourceExtractors src extractors' disallowedExtractorType)
  end.

Record SourceConfig := mkSourceConfig { sc_Plugin : Source; sc_Extractors : list Extractor }.

Definition with_sources (pollers notifiers endpointSources : gmap string Source) (r : Runtime) : Runtime :=
  mkRuntime pollers notifiers endpointSources (rt_sourceExtractors r) (rt_collectors r) (rt_refs r) (rt_plugins r).

Definition with_extractors (srcName : string) (exts : list Extractor) (r : Runtime) : Runtime :=
  mkRuntime (rt_pollers r) (rt_notifiers r) (rt_endpointSources r) (<[srcName := exts]> (rt_sourceExtractors r)) (rt_collectors r) (rt_refs r) (rt_plugins r).

(** One source of the configuration; [gvks] are the kinds that have a notification source. *)
Definition configure_source (disallowedExtractorType : string) (s : Runtime * gmap string string) (srcCfg : SourceConfig) :
    Runtime * gmap string string + ConfigureError :=
  let '(r, gvks) := s in
  let src := sc_Plugin srcCfg in
  let srcName := src_Name src in
  match validateSourceExtractors src (sc_Extractors srcCfg) disallowedExtractorType with
  | Some err => inr err
  | None =>
      let registered :=
        match Poll src, src_GVK src, NotifyEndpoint src with
        | Some _, _, _ => inl (with_sources (<[srcName := src]> (rt_pollers r)) (rt_notifiers r) (rt_endpointSources r) r, gvks)
        | None, Some gvk, _ =>
            match gvks !! gvk with
            | Some existing => inr (ErrDuplicateGVK gvk existing (typed_name (src_Name src) (src_Type src)))
            | None => inl (with_sources (rt_pollers r) (<[srcName := src]> (rt_notifiers r)) (rt_endpointSources r) r, <[gvk := srcName]> gvks)
            end
        | None, None, Some _ => inl (with_sources (rt_pollers r) (rt_notifiers r) (<[srcName := src]> (rt_endpointSources r)) r, gvks)
        | None, None, None => inr (ErrUnknownSource (typed_name (src_Name src) (src_Type src)))
        end in
      match registered with
      | inl (r, gvks) => inl (if bool_decide (0 < length (sc_Extractors srcCfg)) then with_extractors srcName (sc_Extractors srcCfg) r else r, gvks)
      | inr err => inr err
      end
  end.

Definition Configure (cfg : list SourceConfig) (enableNewMetrics : bool) (disallowedExtractorType : string) (r : Runtime) : Runtime + ConfigureError :=
  if bool_decide (length cfg = 0) then (if enableNewMetrics then inr ErrNoSources else inl r)
  else match fold_err (configure_source disallowedExtractorType) (r, ∅) cfg with
       | inl (r, _) => inl r
       | inr err => inr err
       end.

(** ** Endpoints *)

Definition with_plugins (p : P) (r : Runtime) : Runtime :=
  mkRuntime (rt_pollers r) (rt_notifiers r) (rt_endpointSources r) (rt_sourceExtractors r) (rt_collectors r) (rt_refs r) p.

Definition with_collectors (cs : gmap NamespacedName Collector) (r : Runtime) : Runtime :=
  mkRuntime (rt_pollers r) (rt_notifiers r) (rt_endpointSources r) (rt_sourceExtractors r) cs (rt_refs r) (rt_plugins r).

(** The event for one endpoint source and its extractors. *)
Definition dispatch_source (event : EndpointEvent) (extractors : gmap string (list Extractor)) (p : P) (kv : string * Source) : P :=
  match NotifyEndpoint kv.2 with
  | None => p
  | Some notify =>
      match notify event p with
      | (inl (Some processed), p) =>
          foldl (λ p ext, match ExtractEndpoint ext with Some extract => (extract processed p).2 | None => p end) p (default [] (extractors !! kv.1))
      | (_, p) => p
      end
  end.

Definition dispatchEndpointEvent (order : nat → nat) (event : EndpointEvent) (r : Runtime) : Runtime :=
  with_plugins (foldl (dispatch_source event (rt_sourceExtractors r)) (rt_plugins r) (shuffle order (map_to_list (rt_endpointSources r)))) r.

(** A new endpoint object. *)
Definition make_endpoint (m : EndpointMetadata) (r : Runtime) : StoredEndpoint * Runtime :=
  (mkStored (rt_refs r) m, mkRuntime (rt_pollers r) (rt_notifiers r) (rt_endpointSources r) (rt_sourceExtractors r) (rt_collectors r) (Pos.succ (rt_refs r)) (rt_plugins r)).

Definition Runtime_NewEndpoint (order : EndpointEvent → nat → nat) (ready : EndpointMetadata → bool) (m : EndpointMetadata) (r : Runtime) : option StoredEndpoint * Runtime :=
  let pollers := (map_to_list (rt_pollers r)).*2 in
  let '(endpoint, r) := make_endpoint m r in
  if bool_decide (length pollers = 0) then (Some endpoint, r)
  else
    let key := md_NamespacedName m in
    match rt_collectors r !! key with
    | Some _ => (None, r)
    | None =>
        match Collector_Start (ready m) pollers NewCollector with
        | (Some _, _) => (None, with_collectors (delete key (rt_collectors r)) r)
        | (None, c) =>
            let r := with_collectors (<[key := c]> (rt_collectors r)) r in
            let event := mkEvent false endpoint in (Some endpoint, dispatchEndpointEvent (order event) event r)
        end
    end.

Definition Runtime_ReleaseEndpoint (order : EndpointEvent → nat → nat) (ep : StoredEndpoint) (r : Runtime) : Runtime :=
  let event := mkEvent true ep in
  let r := dispatchEndpointEvent (order event) event r in
  with_collectors (delete (se_name ep) (rt_collectors r)) r.

(** Every collector that is still there is stopped. *)
Definition Runtime_Stop (r : Runtime) : Runtime := with_collectors ((λ c, (Collector_Stop c).2) <$> rt_collectors r) r.
End runtime.
Arguments Runtime : clear implicits.
Arguments Source : clear implicits.
Arguments Extractor : clear implicits.
Arguments SourceConfig : clear implicits.

(** ** The runtime as a factory *)

Section factory.
Context {P D : Type} (order : EndpointEvent → nat → nat) (ready : EndpointMetadata → bool) (Hready : ∀ m, ready m = true).
#[local] Abbreviation Runtime := (Runtime P D).

Definition runtime_factory : EndpointFactory Runtime :=
  {| NewEndpoint := Runtime_NewEndpoint order ready; ReleaseEndpoint := Runtime_ReleaseEndpoint order |}.

(** With polling sources, a collector runs for every endpoint in use and for no other. *)
Definition collects (r : Runtime) (used : gset NamespacedName) : Prop :=
  if bool_decide (rt_pollers r = ∅) then rt_collectors r = ∅
  else dom (rt_collectors r) = used ∧ map_Forall (λ _ c, c = mkCollector true false) (rt_collectors r).

Lemma no_pollers (r : Runtime) : length (map_to_list (rt_pollers r)).*2 = 0 ↔ rt_pollers r = ∅.
Proof using Type. rewrite length_fmap, length_map_to_list. apply map_size_empty_iff. Qed.

Lemma new_collects m (r : Runtime) used : collects r used → md_NamespacedName m ∉ used →
  ∃ ep r', Runtime_NewEndpoint order ready m r = (Some ep, r') ∧ se_Metadata ep = m ∧ collects r' ({[md_NamespacedName m]} ∪ used).
Proof using Hready.
  intros Hc Hnew. unfold Runtime_NewEndpoint, make_endpoint. rewrite (bool_decide_ext _ _ (no_pollers r)).
  unfold collects in Hc. case_bool_decide as Hp.
  - eexists _, _. split; [done|]. split; [done|]. unfold collects. simpl. by rewrite bool_decide_eq_true_2.
  - destruct Hc as [Hdom Hall]. cbn [rt_collectors]. assert (rt_collectors r !! md_NamespacedName m = None) as -> by (apply not_elem_of_dom; by rewrite Hdom).
    unfold Collector_Start. rewrite bool_decide_eq_false_2 by (by rewrite no_pollers). simpl. rewrite Hready.
    eexists _, _. split; [done|]. split; [done|]. unfold collects. simpl. rewrite bool_decide_eq_false_2 by done.
    rewrite dom_insert_L, Hdom. split; [done|]. by apply map_Forall_insert_2.
Qed.

Lemma release_collects ep (r : Runtime) used : collects r used → collects (Runtime_ReleaseEndpoint order ep r) (used ∖ {[se_name ep]}).
Proof using Type.
  unfold collects, Runtime_ReleaseEndpoint. simpl. case_bool_decide; [intros ->; by rewrite delete_empty|]. intros [Hdom Hall]. split.
  - by rewrite dom_delete_L, Hdom.
  - by apply map_Forall_delete.
Qed.

Definition runtime_lawful : @LawfulFactory Runtime runtime_factory :=
  @Build_LawfulFactory Runtime runtime_factory collects new_collects release_collects.
End factory.

(** ** A configuration that is accepted fits together *)

Section configure.
Context {P D : Type}.
#[local] Abbreviation Runtime := (Runtime P D).
#[local] Abbreviation Source := (Source P D).
#[local] Abbreviation Extractor := (Extractor P D).

(** An extractor fits its source: it has the interface the source asks for, can take what the
    source gives, watches the same kind, and passes the check of the source. *)
Record fits (disallowed : string) (src : Source) (ext : Extractor) : Prop := mkFits {
  fi_allowed : disallowed = "" ∨ ex_Type ext ≠ disallowed;
  fi_interface : ∃ t u, ex_reflect ext = Some t ∧ src_ExtractorType src = Some u ∧ ty_interface u = true ∧ ty_methods u ⊆ ty_methods t;
  fi_input : ∃ t u, src_OutputType src = Some t ∧ ExpectedInputType ext = Some u ∧ (t = u ∨ (ty_interface u = true ∧ ty_methods u ⊆ ty_methods t));
  fi_gvk : ∀ g g', src_GVK src = Some g → ex_GVK ext = Some g' → g = g';
  fi_valid : ∀ validate, ValidateExtractor src = Some validate → validate ext = None
}.

Lemma or_else_None e e' : or_else e e' = None ↔ e = None ∧ e' = None.
Proof using Type. destruct e; simpl; naive_solver. Qed.

Lemma validate_fits src disallowed ext : validateSourceExtractor src disallowed ext = None → fits disallowed src ext.
Proof using Type.
  unfold validateSourceExtractor. cbv zeta. rewrite !or_else_None. intros (H1 & H2%fmap_None & H3%fmap_None & H4 & H5). split.
  - case_bool_decide as Hb; [done|]. destruct (decide (disallowed = "")); [by left|]. right. intros ?. by apply Hb.
  - unfold validateExtractorCompatible in H2. destruct (ex_reflect ext) as [t|], (src_ExtractorType src) as [u|]; try done.
    destruct (ty_interface u) eqn:Hu; [|done]. simpl in H2. unfold Implements in H2. case_bool_decide; [|done]. by exists t, u.
  - unfold validateInputTypeCompatible in H3. destruct (src_OutputType src) as [t|], (ExpectedInputType ext) as [u|]; try done.
    exists t, u. split; [done|]. split; [done|]. destruct (_ || _) eqn:Hb; [|done]. clear H3.
    apply orb_true_iff in Hb as [[Hb%bool_decide_eq_true|[Hi Hb%bool_decide_eq_true]%andb_true_iff]%orb_true_iff|[Hi Hb%bool_decide_eq_true]%andb_true_iff].
    + by left.
    + right. split; [done|]. rewrite Hb. apply empty_subseteq.
    + by right.
  - intros g g' Hg Hg'. rewrite Hg, Hg' in H4. by case_bool_decide.
  - intros validate Hv. rewrite Hv in H5. by apply fmap_None in H5.
Qed.

Lemma validate_all_fit src disallowed exts : validateSourceExtractors src exts disallowed = None → Forall (fits disallowed src) exts.
Proof using Type.
  induction exts as [|ext exts IH]; cbn [validateSourceExtractors]; [constructor|]. intros [H1 H2]%or_else_None.
  constructor; [by apply validate_fits|by apply IH].
Qed.

(** A map from names to sources of the configuration that satisfy [Q]. *)
Definition from_config (Q : Source → Prop) (seen : list (SourceConfig P D)) (m : gmap string Source) : Prop :=
  ∀ n src, m !! n = Some src → src_Name src = n ∧ Q src ∧ ∃ c, c ∈ seen ∧ sc_Plugin c = src.

Lemma from_config_more Q Q' seen c m : (∀ src, Q src → Q' src) → from_config Q seen m → from_config Q' (seen ++ [c]) m.
Proof using Type.
  intros HQ Hm n src Hn. destruct (Hm n src Hn) as (? & ? & x & Hx & ?). split; [done|]. split; [by apply HQ|].
  exists x. split; [|done]. apply elem_of_app. by left.
Qed.

Lemma from_config_insert Q Q' seen c m : (∀ src, Q src → Q' src) → from_config Q seen m → Q' (sc_Plugin c) →
  from_config Q' (seen ++ [c]) (<[src_Name (sc_Plugin c) := sc_Plugin c]> m).
Proof using Type.
  intros HQ Hm Hc n src [[<- <-]|[_ Hn]]%lookup_insert_Some; [|by eapply from_config_more].
  split; [done|]. split; [done|]. exists c. split; [|done]. apply elem_of_app. right. by apply list_elem_of_singleton.
Qed.

(** What is registered comes from the configuration, and the kinds have one source each. *)
Record configured (disallowed : string) (seen : list (SourceConfig P D)) (r : Runtime) (gvks : gmap string string) : Prop := mkConfigured {
  cf_fit : Forall (λ c, Forall (fits disallowed (sc_Plugin c)) (sc_Extractors c)) seen;
  cf_pollers : from_config (λ src, is_Some (Poll src)) seen (rt_pollers r);
  cf_notifiers : from_config (λ src, ∃ g, src_GVK src = Some g ∧ gvks !! g = Some (src_Name src)) seen (rt_notifiers r);
  cf_endpoints : from_config (λ src, is_Some (NotifyEndpoint src)) seen (rt_endpointSources r);
  cf_extractors : ∀ n exts, rt_sourceExtractors r !! n = Some exts → ∃ c, c ∈ seen ∧ src_Name (sc_Plugin c) = n ∧ sc_Extractors c = exts;
  cf_registered : ∀ c, c ∈ seen → let n := src_Name (sc_Plugin c) in
    is_Some (rt_pollers r !! n) ∨ is_Some (rt_notifiers r !! n) ∨ is_Some (rt_endpointSources r !! n)
}.

(** The maps after the registration of one source. *)
Definition registered (c : SourceConfig P D) (gvks : gmap string string) (r : Runtime) (gvks' : gmap string string) (r' : Runtime) : Prop :=
  let src := sc_Plugin c in
  let n := src_Name src in
  (r' = with_sources (<[n := src]> (rt_pollers r)) (rt_notifiers r) (rt_endpointSources r) r ∧ gvks' = gvks ∧ is_Some (Poll src)) ∨
  (∃ g, r' = with_sources (rt_pollers r) (<[n := src]> (rt_notifiers r)) (rt_endpointSources r) r ∧ gvks' = <[g := n]> gvks ∧ src_GVK src = Some g ∧ gvks !! g = None) ∨
  (r' = with_sources (rt_pollers r) (rt_notifiers r) (<[n := src]> (rt_endpointSources r)) r ∧ gvks' = gvks ∧ is_Some (NotifyEndpoint src)).

Lemma configure_source_registers disallowed r gvks c r' gvks' : configure_source disallowed (r, gvks) c = inl (r', gvks') →
  Forall (fits disallowed (sc_Plugin c)) (sc_Extractors c) ∧
  ∃ r1, registered c gvks r gvks' r1 ∧
        r' = (if bool_decide (0 < length (sc_Extractors c)) then with_extractors (src_Name (sc_Plugin c)) (sc_Extractors c) r1 else r1).
Proof using Type.
  unfold configure_source. destruct (validateSourceExtractors _ _ _) eqn:Hv; [done|]. apply validate_all_fit in Hv. intros Hc. split; [done|]. revert Hc.
  unfold registered. cbv zeta. destruct (Poll (sc_Plugin c)) as [poll|].
  { intros [= <- <-]. eexists. split; [left|done]. split; [done|]. split; [done|by eexists]. }
  destruct (src_GVK (sc_Plugin c)) as [g|].
  - destruct (gvks !! g) eqn:Hg; [done|]. intros [= <- <-]. eexists. split; [|done]. right. left. by exists g.
  - destruct (NotifyEndpoint (sc_Plugin c)); [|done]. intros [= <- <-]. eexists. split; [|done]. right. right. split; [done|]. split; [done|by eexists].
Qed.

Lemma registered_keeps (c : SourceConfig P D) gvks r gvks' r' : registered c gvks r gvks' r' →
  rt_sourceExtractors r' = rt_sourceExtractors r ∧ gvks ⊆ gvks' ∧
  ∀ n, is_Some (rt_pollers r !! n) ∨ is_Some (rt_notifiers r !! n) ∨ is_Some (rt_endpointSources r !! n) ∨ n = src_Name (sc_Plugin c) →
       is_Some (rt_pollers r' !! n) ∨ is_Some (rt_notifiers r' !! n) ∨ is_Some (rt_endpointSources r' !! n).
Proof using Type.
  intros Hreg. assert (∀ (m : gmap string Source) n, is_Some (m !! n) ∨ n = src_Name (sc_Plugin c) → is_Some (<[src_Name (sc_Plugin c) := sc_Plugin c]> m !! n)) as Hins.
  { intros m n Hn. apply lookup_insert_is_Some'. naive_solver. }
  destruct Hreg as [(-> & -> & _)|[(g & -> & -> & _ & Hg)|(-> & -> & _)]]; simpl; (split; [done|]);
    (split; [first [done|by apply insert_subseteq]|]); intros n Hn; naive_solver.
Qed.

Lemma configure_step disallowed seen r gvks c s : configured disallowed seen r gvks → configure_source disallowed (r, gvks) c = inl s →
  configured disallowed (seen ++ [c]) s.1 s.2.
Proof using Type.
  destruct s as [r' gvks']. intros [H1 H2 H3 H4 H5 H6] (Hfit & r1 & Hreg & ->)%configure_source_registers.
  destruct (registered_keeps c gvks r gvks' r1 Hreg) as (Hext & Hg & Hsome).
  assert (∀ src : Source, (∃ g, src_GVK src = Some g ∧ gvks !! g = Some (src_Name src)) → ∃ g, src_GVK src = Some g ∧ gvks' !! g = Some (src_Name src)) as Hmore.
  { intros src (g & Hsrc & Hn). exists g. split; [done|by eapply lookup_weaken]. }
  set (r2 := if bool_decide _ then _ else r1).
  assert (rt_pollers r2 = rt_pollers r1 ∧ rt_notifiers r2 = rt_notifiers r1 ∧ rt_endpointSources r2 = rt_endpointSources r1) as (E1 & E2 & E3)
    by (unfold r2; by case_bool_decide).
  split; cbn [fst snd].
  - apply Forall_app. split; [done|by constructor].
  - rewrite E1. destruct Hreg as [(-> & _ & Hp)|[(g & -> & _)|(-> & _)]]; simpl;
      first [by apply (from_config_insert (λ src, is_Some (Poll src)))|by apply (from_config_more (λ src, is_Some (Poll src)))].
  - rewrite E2. destruct Hreg as [(-> & _)|[(g & -> & -> & Hgvk & _)|(-> & _)]]; simpl;
      [by apply (from_config_more _ _ _ _ _ Hmore)| |by apply (from_config_more _ _ _ _ _ Hmore)].
    eapply from_config_insert; [exact Hmore|done|]. exists g. split; [done|]. apply lookup_insert_eq.
  - rewrite E3. destruct Hreg as [(-> & _)|[(g & -> & _)|(-> & _ & Hp)]]; simpl;
      first [by apply (from_config_insert (λ src, is_Some (NotifyEndpoint src)))|by apply (from_config_more (λ src, is_Some (NotifyEndpoint src)))].
  - intros n exts Hn. assert ((n = src_Name (sc_Plugin c) ∧ exts = sc_Extractors c) ∨ rt_sourceExtractors r !! n = Some exts) as [[-> ->]|Hold].
    { unfold r2 in Hn. case_bool_decide; simpl in Hn; rewrite Hext in Hn; [|by right]. apply lookup_insert_Some in Hn as [[<- <-]|[_ ?]]; auto. }
    + exists c. split; [apply elem_of_app; right; by apply list_elem_of_singleton|done].
    + destruct (H5 n exts Hold) as (x & Hx & ?). exists x. split; [apply elem_of_app; by left|done].
  - intros x Hx. rewrite E1, E2, E3. apply Hsome. apply elem_of_app in Hx as [Hx| ->%list_elem_of_singleton]; [|naive_solver].
    destruct (H6 x Hx) as [?|[?|?]]; auto.
Qed.

(** A configuration that the runtime accepts fits together: every extractor has the
    interface its source asks for, takes what the source returns, watches the kind of the
    source and is not disallowed; every source is registered under its name as a source for
    polling, for notifications or for endpoints; what is registered comes from the
    configuration; and no two notification sources watch the same kind. *)
Theorem configured_sources_fit (p : P) (cfg : list (SourceConfig P D)) (enableNewMetrics : bool) (disallowed : string) (r : Runtime) :
  Configure cfg enableNewMetrics disallowed (NewRuntime p) = inl r →
  (∃ gvks, configured disallowed cfg r gvks) ∧
  ∀ n n' src src' g, rt_notifiers r !! n = Some src → rt_notifiers r !! n' = Some src' → src_GVK src = Some g → src_GVK src' = Some g → n = n'.
Proof using Type.
  intros Hc. assert (∃ gvks, configured disallowed cfg r gvks) as [gvks Hcf].
  { unfold Configure in Hc. assert (configured disallowed [] (NewRuntime p) ∅) as Hstart.
    { split; try done. intros c []%elem_of_nil. }
    case_bool_decide as Hlen.
    - apply length_zero_iff_nil in Hlen as ->. destruct enableNewMetrics; [done|]. injection Hc as <-. by exists ∅.
    - destruct (fold_err _ _ _) as [[r' gvks]|] eqn:Hf; [|done]. injection Hc as <-. exists gvks. revert Hf.
      apply (fold_err_inl (configure_source disallowed) (λ seen s, configured disallowed seen s.1 s.2) cfg); [|done].
      intros seen c [r1 g1] s _ Hs. by apply configure_step. }
  split; [by exists gvks|]. intros n n' src src' g Hn Hn' Hg Hg'.
  destruct (cf_notifiers _ _ _ _ Hcf n src Hn) as (<- & (g1 & Hg1 & H1) & _), (cf_notifiers _ _ _ _ Hcf n' src' Hn') as (<- & (g2 & Hg2 & H2) & _).
  congruence.
Qed.
End configure.

(** ** Example *)

Definition poll_nothing (_ : NamespacedName) (p : unit) : (option unit + string) * unit := (inl None, p).
Definition extract_nothing (_ : unit) (_ : NamespacedName) (p : unit) : option string * unit := (None, p).

Abbreviation any_type := (mkRType "any" true ∅).
Abbreviation metrics_type := (mkRType "PrometheusMetricMap" false ∅).
Abbreviation extractor_type := (mkRType "Extractor" true {["Extract"]}).
Abbreviation core_extractor_type := (mkRType "CoreExtractor" false {["Extract"; "TypedName"]}).

Definition metrics_source : Source unit unit :=
  mkSource "metrics-data-source" "metrics" (Some extractor_type) (Some metrics_type) (Some poll_nothing) None None None.
Definition core_extractor : Extractor unit unit :=
  mkExtractor "core-metrics-extractor" "core" (Some core_extractor_type) (Some any_type) None extract_nothing None.

Definition metrics_runtime : Runtime unit unit := Eval vm_compute in
  match Configure [mkSourceConfig metrics_source [core_extractor]] true "" (NewRuntime tt) with inl r => r | inr _ => NewRuntime tt end.

Lemma configured_sources_fit_witness :
  Configure [mkSourceConfig metrics_source [core_extractor]] true "" (NewRuntime tt) = inl metrics_runtime ∧
  ∃ gvks, configured "" [mkSourceConfig metrics_source [core_extractor]] metrics_runtime gvks.
Proof.
  assert (Configure [mkSourceConfig metrics_source [core_extractor]] true "" (NewRuntime tt) = inl metrics_runtime) as Hc by (vm_compute; reflexivity).
  split; [exact Hc|]. exact (proj1 (configured_sources_fit tt _ true "" metrics_runtime Hc)).
Defined.

(** Without polling sources the endpoint sources are not told about a new endpoint, though
    they are told when it goes. *)
Definition count_events : Source nat unit :=
  mkSource "endpoint-source" "events" None None None None (Some (λ e n, (inl (Some e), S n))) None.

Lemma added_without_event m :
  let r := with_sources ∅ ∅ {["events" := count_events]} (NewRuntime 0) in
  match Runtime_NewEndpoint (λ _ _, 0) (λ _, true) m r with
  | (Some ep, r') => rt_plugins r' = 0 ∧ rt_plugins (Runtime_ReleaseEndpoint (λ _ _, 0) ep r') = 1
  | (None, _) => False
  end.
Proof. vm_compute. split; reflexivity. Qed.
