(* ===== verification/Reconcilers.v ===== *)
(** * The reconcilers: [epp/controller]

    The reconcilers bring the datastore ([Datastore.v]) up to date when objects of the cluster
    change. Their work is driven by events: a change of an object puts its name into a queue,
    unless a predicate on its labels says that it does not concern the pool, and the reconciler
    reads the object and updates the store. [step] is this system: changes of the cluster and
    reconciliations in any order; a reconciliation that cannot read its object is retried. The
    cache of the client is in step with the cluster and with the events it delivers. *)

From stdpp Require Import prelude gmap strings list relations.
From Stdlib Require Import ZArith Lia.
From S2P Require Import Prelude FlowTypes SchedTypes Pickers ModelRewrite Datastore DataRuntime.

(** ** Reconcilers *)

(** [common.GKNN]: what a pool reference is compared with. *)
Record GKNN := mkGKNN { gk_Name : string; gk_Group : string }.

Section reconcilers.
Context {F : Type} `{EndpointFactory F}.
Context (Matches : gmap string string → gmap string string → bool).
#[local] Abbreviation datastore := (datastore F).

Definition updateDatastore (order : nat → nat) (pod : Pod) (ds : datastore) : datastore :=
  if negb (IsPodReady pod) || negb (PoolLabelsMatch Matches (pod_Labels pod) ds) then PodDelete order (pod_Name pod) ds
  else (PodUpdateOrAddIfNotExist pod ds).2.

(** The reader finds an object, does not find it, or fails. *)
Definition PodReconciler_Reconcile (order : nat → nat) (Get : NamespacedName → option Pod + string) (req : NamespacedName) (ds : datastore) :
    option string * datastore :=
  if negb (PoolHasSynced ds) then (None, ds)
  else
    match Get req with
    | inr err => (Some ("unable to get pod - " +:+ err), ds)
    | inl None => (None, PodDelete order (nn_Name req) ds)
    | inl (Some pod) => (None, updateDatastore order pod ds)
    end.

(** The event filter of [SetupWithManager]: [old] is absent for a creation, [new] for a deletion. *)
Definition pod_event (old new : option Pod) (ds : datastore) : bool :=
  let matches p := PoolLabelsMatch Matches (pod_Labels p) ds in
  from_option matches false old || from_option matches false new.

Definition InferencePoolReconciler_Reconcile (order : nat → nat) (Get : option InferencePool + string)
    (List : gmap string string → string → list Pod + string) (ds : datastore) : option string * datastore :=
  match Get with
  | inr err => (Some ("unable to get InferencePool - " +:+ err), ds)
  | inl None => (None, Clear order ds)
  | inl (Some pool) =>
      if ip_deleting pool then (None, Clear order ds)
      else
        match PoolSet order List (Some (InferencePoolToEndpointPool pool)) ds with
        | (Some err, ds) => (Some ("failed to update datastore - " +:+ err), ds)
        | (None, ds) => (None, ds)
        end
  end.

Definition same_pool (g : GKNN) (ref : string * string) : bool := bool_decide (ref = (gk_Name g, gk_Group g)).

Definition InferenceObjectiveReconciler_Reconcile (g : GKNN) (Get : NamespacedName → option InferenceObjective + string) (req : NamespacedName)
    (ds : datastore) : option string * datastore :=
  match Get req with
  | inr err => (Some ("unable to get InferenceObjective - " +:+ err), ds)
  | inl None => (None, ObjectiveDelete req ds)
  | inl (Some o) => (None, if io_deleting o || negb (same_pool g (io_PoolRef o)) then ObjectiveDelete req ds else ObjectiveSet o ds)
  end.

Record RewriteObject := mkRewriteObject { ro_Rewrite : InferenceModelRewrite; ro_PoolRef : option (string * string); ro_deleting : bool }.

Definition InferenceModelRewriteReconciler_Reconcile (g : GKNN) (ties : option string → nat → nat)
    (Get : NamespacedName → option RewriteObject + string) (req : NamespacedName) (ds : datastore) : option string * datastore :=
  match Get req with
  | inr err => (Some ("unable to get InferenceModelRewrite - " +:+ err), ds)
  | inl None => (None, ModelRewriteDelete req ds)
  | inl (Some r) =>
      (None, if ro_deleting r || negb (from_option (same_pool g) false (ro_PoolRef r)) then ModelRewriteDelete req ds
             else ModelRewriteSet ties (ro_Rewrite r) ds)
  end.
End reconcilers.

(** ** The system *)

(** The pods of one namespace by name, and the pool. *)
Record Cluster := mkCluster { cl_pods : gmap string Pod; cl_pool : option InferencePool }.

Section system.
Context {F : Type} `{LawfulFactory F}.
Context (Matches : gmap string string → gmap string string → bool) (ns : string).
#[local] Abbreviation datastore := (datastore F).

(** [reader.List] with a label selector and a namespace. *)
Definition list_pods (order : nat → nat) (cl : Cluster) (selector : gmap string string) (namespace : string) : list Pod + string :=
  inl (List.filter (λ p, Matches selector (pod_Labels p) && bool_decide (pod_Namespace p = namespace)) (shuffle order (map_to_list (cl_pods cl)).*2)).

Definition get_pod (cl : Cluster) (req : NamespacedName) : option Pod + string := inl (cl_pods cl !! nn_Name req).

Record Sys := mkSys {
  sy_cluster : Cluster;
  sy_ds : datastore;
  sy_pods : gset string;
  sy_pool : bool
}.

(** Objects are stored under their names, and the client only sees this namespace. *)
Definition pod_named (name : string) (pod : Pod) : Prop := pod_Name pod = name ∧ pod_Namespace pod = ns.

Inductive change_step : Sys → Sys → Prop :=
  | pod_changed cl ds pods pool name new : (∀ pod, new = Some pod → pod_named name pod) →
      change_step (mkSys cl ds pods pool)
        (mkSys (mkCluster (partial_alter (λ _, new) name (cl_pods cl)) (cl_pool cl)) ds
           (if pod_event Matches (cl_pods cl !! name) new ds then {[name]} ∪ pods else pods) pool)
  | pool_changed cl ds pods pool new : (∀ p, new = Some p → ip_Namespace p = ns) →
      change_step (mkSys cl ds pods pool) (mkSys (mkCluster (cl_pods cl) new) ds pods true).

Inductive reconcile_step : Sys → Sys → Prop :=
  | pod_reconciled cl ds pods pool name order err ds' : name ∈ pods →
      PodReconciler_Reconcile Matches order (get_pod cl) (mkNamespacedName ns name) ds = (err, ds') →
      reconcile_step (mkSys cl ds pods pool) (mkSys cl ds' (pods ∖ {[name]}) pool)
  | pool_reconciled cl ds pods order order' err ds' :
      InferencePoolReconciler_Reconcile order (inl (cl_pool cl)) (list_pods order' cl) ds = (err, ds') →
      reconcile_step (mkSys cl ds pods true) (mkSys cl ds' pods false).

(** The object could not be read: nothing changes, the request is queued again. *)
Inductive retry_step : Sys → Sys → Prop :=
  | pod_retried cl ds pods pool name order Get err err' ds' : name ∈ pods → Get (mkNamespacedName ns name) = inr err →
      PoolHasSynced ds = true →
      PodReconciler_Reconcile Matches order Get (mkNamespacedName ns name) ds = (err', ds') →
      retry_step (mkSys cl ds pods pool) (mkSys cl ds' pods pool)
  | pool_retried cl ds pods order List err err' ds' :
      InferencePoolReconciler_Reconcile order (inr err) List ds = (err', ds') →
      retry_step (mkSys cl ds pods true) (mkSys cl ds' pods true).

Definition step (s s' : Sys) : Prop := change_step s s' ∨ reconcile_step s s' ∨ retry_step s s'.

Definition start (epf : F) (port : Z) : Sys := mkSys (mkCluster ∅ None) (NewDatastore epf port) ∅ false.

(** ** What the store should hold *)

Definition wanted_pool (cl : Cluster) : option EndpointPool :=
  p ← cl_pool cl; if ip_deleting p then None else Some (InferencePoolToEndpointPool p).

Definition wanted (ds : datastore) (pool : EndpointPool) (pod : option Pod) (idx : nat) : option EndpointMetadata :=
  p ← pod; if IsPodReady p && Matches (pool_Selector pool) (pod_Labels p) then rank_metadata ds pool p idx else None.

(** The endpoints are those of the ready pods of the pool, and have their collectors. *)
Record converged (s : Sys) : Prop := mkConverged {
  co_pool : ds_pool (sy_ds s) = wanted_pool (sy_cluster s);
  co_names : ∀ k ep, ds_pods (sy_ds s) !! k = Some ep → ∃ name idx, k = rank_name ns name idx;
  co_endpoints : ∀ name idx, meta (sy_ds s) (rank_name ns name idx) =
    pool ← wanted_pool (sy_cluster s); wanted (sy_ds s) pool (cl_pods (sy_cluster s) !! name) idx;
  co_in_use : in_use (ds_epf (sy_ds s)) (dom (ds_pods (sy_ds s)))
}.

Definition settled (s : Sys) : Prop := sy_pods s = ∅ ∧ sy_pool s = false.

(** ** Invariant *)

(** The pods that have no reconciliation pending are as the pool of the store wants them. *)
Definition synced (cl : Cluster) (pending : gset string) (ds : datastore) : Prop :=
  match ds_pool ds with
  | None => ds_pods ds = ∅
  | Some pool => pool_Namespace pool = ns ∧
      (∀ name idx, length (pool_TargetPorts pool) ≤ idx → meta ds (rank_name ns name idx) = None) ∧
      ∀ name idx, name ∉ pending → meta ds (rank_name ns name idx) = wanted ds pool (cl_pods cl !! name) idx
  end.

Record sys_inv (s : Sys) : Prop := mkSysInv {
  si_store : store_ok ns (sy_ds s);
  si_named : map_Forall pod_named (cl_pods (sy_cluster s));
  si_cl_pool : ∀ p, cl_pool (sy_cluster s) = Some p → ip_Namespace p = ns;
  si_pool : sy_pool s = false → ds_pool (sy_ds s) = wanted_pool (sy_cluster s);
  si_synced : synced (sy_cluster s) (sy_pods s) (sy_ds s)
}.

Lemma start_sys_inv epf port : in_use epf ∅ → sys_inv (start epf port).
Proof using Type.
  intros Hf. split; [split|..]; done.
Qed.

Lemma wanted_rest ds ds' pool pod idx : same_rest ds ds' → wanted ds' pool pod idx = wanted ds pool pod idx.
Proof using Type. intros Hr. unfold wanted. destruct pod as [p|]; [|done]. simpl. by rewrite (rank_metadata_rest ds ds'). Qed.

Lemma wanted_ports ds pool pool' pod idx : pool_Selector pool = pool_Selector pool' → pool_TargetPorts pool = pool_TargetPorts pool' →
  wanted ds pool pod idx = wanted ds pool' pod idx.
Proof using Type.
  intros Hs Hp. unfold wanted. destruct pod as [p|]; [|done]. simpl. rewrite Hs.
  unfold rank_metadata, endpoint_metadata, metrics_port. by rewrite Hp.
Qed.

Lemma change_inv s s' : sys_inv s → change_step s s' → sys_inv s'.
Proof using Type.
  intros [H1' H2 H3 H4 H5] Hstep. destruct Hstep as [cl ds pods pool name new Hnew|cl ds pods pool new Hnew]; simpl in *.
  - split; simpl; [done| |done|done|].
    + intros name' pod Hpod. destruct (decide (name' = name)) as [->|Hne].
      * rewrite lookup_partial_alter_eq in Hpod. by apply Hnew.
      * rewrite lookup_partial_alter_ne in Hpod by done. by apply (H2 name' pod).
    + unfold synced in *. destruct (ds_pool ds) as [p|] eqn:Hp; [|done]. destruct H5 as (Hns & Hlen & H5). split; [done|]. split; [done|]. simpl.
      assert (∀ pod, PoolLabelsMatch Matches (pod_Labels pod) ds = Matches (pool_Selector p) (pod_Labels pod)) as Hmatch
        by (intros pod; unfold PoolLabelsMatch; by rewrite Hp).
      intros name' idx Hpend. destruct (decide (name' = name)) as [->|Hne].
      * rewrite lookup_partial_alter_eq. destruct (pod_event _ _ _ _) eqn:Hev; [set_solver|]. rewrite H5 by done.
        unfold pod_event in Hev. apply orb_false_iff in Hev as [Hold Hnew']. transitivity (@None EndpointMetadata).
        -- unfold wanted. destruct (cl_pods cl !! name) as [q|]; [|done]. simpl in *. rewrite Hmatch in Hold. by rewrite Hold, andb_false_r.
        -- unfold wanted. destruct new as [q|]; [|done]. simpl in *. rewrite Hmatch in Hnew'. by rewrite Hnew', andb_false_r.
      * rewrite lookup_partial_alter_ne by done. apply H5. destruct (pod_event _ _ _ _); set_solver.
  - by split.
Qed.
Lemma wanted_beyond ds pool pod idx : length (pool_TargetPorts pool) ≤ idx → wanted ds pool pod idx = None.
Proof using Type.
  intros Hlen. unfold wanted. destruct pod as [p|]; [|done]. simpl. case_match; [|done]. unfold rank_metadata. by rewrite lookup_ge_None_2.
Qed.

(** After [PodDelete], or after an update, the pod is as it should be. *)
Lemma pod_synced cl pending ds ds' name pool :
  ds_pool ds = Some pool → synced cl pending ds → same_rest ds ds' →
  (∀ name' idx, meta ds' (rank_name ns name' idx) =
     if decide (name' = name ∧ idx < length (pool_TargetPorts pool)) then wanted ds pool (cl_pods cl !! name) idx else meta ds (rank_name ns name' idx)) →
  synced cl (pending ∖ {[name]}) ds'.
Proof using Type.
  unfold synced. intros Hp Hs Hr Hmeta. rewrite (sr_pool _ _ Hr), Hp. rewrite Hp in Hs. destruct Hs as (Hns & Hlen & Hs).
  split; [done|]. split.
  - intros name' idx Hge. rewrite Hmeta, decide_False by (intros [_ ?]; lia). by apply Hlen.
  - intros name' idx Hpend. rewrite (wanted_rest ds ds' _ _ _ Hr), Hmeta. case_decide as Hd; [by destruct Hd as [-> _]|].
    destruct (decide (name' = name)) as [->|Hne]; [|apply Hs; set_solver].
    assert (length (pool_TargetPorts pool) ≤ idx) by (destruct (decide (idx < length (pool_TargetPorts pool))); [naive_solver|lia]).
    rewrite wanted_beyond by done. by apply Hlen.
Qed.

(** The effect of a reconciliation on the endpoints. *)
Definition pod_put (cl : Cluster) (pool : EndpointPool) (name : string) (ds ds' : datastore) : Prop :=
  store_ok ns ds' ∧ same_rest ds ds' ∧ ∀ name' idx, meta ds' (rank_name ns name' idx) =
     if decide (name' = name ∧ idx < length (pool_TargetPorts pool)) then wanted ds pool (cl_pods cl !! name) idx else meta ds (rank_name ns name' idx).

Lemma pod_put_delete cl pool name order ds : store_ok ns ds →
  (∀ idx, length (pool_TargetPorts pool) ≤ idx → meta ds (rank_name ns name idx) = None) →
  (∀ idx, wanted ds pool (cl_pods cl !! name) idx = None) → pod_put cl pool name ds (PodDelete order name ds).
Proof using Type.
  intros Hok Hlen Hw. destruct (PodDelete_spec ns order name ds Hok) as (G1 & G2 & G3). split; [done|]. split; [done|].
  intros name' idx. rewrite G3, Hw. destruct (decide (name' = name)) as [->|Hne].
  - case_decide as Hd; [done|]. symmetry. apply Hlen. destruct (decide (idx < length (pool_TargetPorts pool))); [naive_solver|lia].
  - rewrite decide_False; [done|naive_solver].
Qed.

Lemma pod_reconcile_put cl pool name order ds err ds' : ds_pool ds = Some pool → store_ok ns ds → map_Forall pod_named (cl_pods cl) →
  (∀ idx, length (pool_TargetPorts pool) ≤ idx → meta ds (rank_name ns name idx) = None) →
  PodReconciler_Reconcile Matches order (get_pod cl) (mkNamespacedName ns name) ds = (err, ds') → pod_put cl pool name ds ds'.
Proof using Type.
  intros Hp Hok Hnamed Hlen. unfold PodReconciler_Reconcile, PoolHasSynced, get_pod. rewrite Hp. simpl.
  destruct (cl_pods cl !! name) as [pod|] eqn:Hpod; intros [= <- <-].
  2:{ apply pod_put_delete; [done|done|]. intros idx. by rewrite Hpod. }
  destruct (Hnamed name pod Hpod) as [Hname Hns]. unfold updateDatastore, PoolLabelsMatch. rewrite Hp.
  destruct (IsPodReady pod && Matches (pool_Selector pool) (pod_Labels pod)) eqn:Hb.
  - apply andb_true_iff in Hb as [Hready Hmatch]. rewrite Hready, Hmatch. simpl. unfold PodUpdateOrAddIfNotExist. rewrite Hp.
    destruct (update_spec ns pod pool ds Hns Hok) as (G1 & G2 & G3). split; [done|]. split; [done|]. intros name' idx. rewrite G3, Hname.
    case_decide; [|done]. unfold wanted. rewrite Hpod. simpl. by rewrite Hready, Hmatch.
  - assert (negb (IsPodReady pod) || negb (Matches (pool_Selector pool) (pod_Labels pod)) = true) as -> by (by rewrite <- negb_andb, Hb).
    rewrite Hname. apply pod_put_delete; [done|done|]. intros idx. unfold wanted. rewrite Hpod. simpl. by rewrite Hb.
Qed.

Lemma pod_reconcile_inv cl ds pods pool name order err ds' : sys_inv (mkSys cl ds pods pool) →
  PodReconciler_Reconcile Matches order (get_pod cl) (mkNamespacedName ns name) ds = (err, ds') →
  sys_inv (mkSys cl ds' (pods ∖ {[name]}) pool).
Proof using Type.
  intros [H1' H2 H3 H4 H5] Hrec. simpl in *. destruct (ds_pool ds) as [p|] eqn:Hp.
  - destruct (pod_reconcile_put cl p name order ds err ds' Hp H1' H2) as (G1 & G2 & G3); [|done|].
    { unfold synced in H5. rewrite Hp in H5. intros idx. by apply H5. }
    split; simpl; [done|done|done| |by eapply pod_synced]. intros Hpool. by rewrite (sr_pool _ _ G2), Hp, H4.
  - unfold PodReconciler_Reconcile, PoolHasSynced in Hrec. rewrite Hp in Hrec. injection Hrec as <- <-.
    split; try done; simpl; [by rewrite Hp|]. unfold synced in *. by rewrite Hp in *.
Qed.

(** ** The pool *)

Lemma list_pods_ready cl order selector (items : list Pod) : map_Forall pod_named (cl_pods cl) → list_pods order cl selector ns = inl items →
  let ready := List.filter IsPodReady items in
  NoDup (pod_Name <$> ready) ∧ Forall (λ pod, pod_Namespace pod = ns) ready ∧
  ∀ pod, pod ∈ ready ↔ cl_pods cl !! pod_Name pod = Some pod ∧ IsPodReady pod && Matches selector (pod_Labels pod) = true.
Proof using Type.
  intros Hnamed [= <-] ready. set (all := shuffle order (map_to_list (cl_pods cl)).*2) in *.
  assert (all ≡ₚ (map_to_list (cl_pods cl)).*2) as Hperm by apply shuffle_perm.
  assert (∀ pod, pod ∈ all ↔ cl_pods cl !! pod_Name pod = Some pod) as Hall.
  { intros pod. rewrite Hperm, list_elem_of_fmap. split.
    - intros ([name q] & -> & Hin%elem_of_map_to_list). simpl. by destruct (Hnamed name q Hin) as [-> _].
    - intros Hpod. exists (pod_Name pod, pod). split; [done|by apply elem_of_map_to_list]. }
  split; [|split].
  - apply NoDup_filter_fmap, NoDup_filter_fmap. rewrite Hperm. rewrite <- list_fmap_compose.
    rewrite (list_fmap_ext _ fst); [apply NoDup_fst_map_to_list|]. intros i [name pod] Hi.
    apply list_elem_of_lookup_2, elem_of_map_to_list in Hi. by destruct (Hnamed name pod Hi).
  - apply Forall_forall. intros pod [[Hin%Hall _]%filter_In_elem _]%filter_In_elem. by destruct (Hnamed _ _ Hin).
  - intros pod. unfold ready. rewrite !filter_In_elem, Hall. split.
    + intros [[Hpod [Hm _]%andb_true_iff] Hr]. by rewrite Hr, Hm.
    + intros [Hpod [Hr Hm]%andb_true_iff]. split; [|done]. split; [done|]. rewrite Hm. destruct (Hnamed _ _ Hpod) as [_ ->].
      by rewrite bool_decide_eq_true_2.
Qed.

Lemma resync_synced cl order order' pool ds pending : map_Forall pod_named (cl_pods cl) → store_ok ns ds → pool_Namespace pool = ns → ds_pool ds = Some pool →
  ∃ ds', podResyncAll order (list_pods order' cl) pool ds = (None, ds') ∧ store_ok ns ds' ∧ same_rest ds ds' ∧ synced cl pending ds'.
Proof using Type.
  intros Hnamed Hok Hns Hp. destruct (list_pods order' cl (pool_Selector pool) ns) as [items|] eqn:Hitems; [|done].
  destruct (list_pods_ready cl order' _ items Hnamed Hitems) as (Hnd & Hall & Hready).
  destruct (resync_spec ns order (list_pods order' cl) pool ds items) as (ds' & H1' & H2 & H3 & H4 & H5); [by rewrite Hns|done|done|done|].
  exists ds'. split; [done|]. split; [done|]. split; [done|]. unfold synced. rewrite (sr_pool _ _ H3), Hp. split; [done|].
  assert (∀ name idx, meta ds' (rank_name ns name idx) = wanted ds pool (cl_pods cl !! name) idx) as Hmeta.
  { intros name idx. unfold wanted. destruct (cl_pods cl !! name) as [pod|] eqn:Hpod; simpl.
    - destruct (Hnamed name pod Hpod) as [<- _]. destruct (IsPodReady pod && _) eqn:Hb; [apply H4; by apply Hready|].
      apply H5. intros (pod' & Heq & [Hpod' Hb']%Hready)%list_elem_of_fmap. rewrite <- Heq in Hpod'. congruence.
    - apply H5. intros (pod' & -> & [Hpod' _]%Hready)%list_elem_of_fmap. congruence. }
  split; intros name idx Hi; rewrite Hmeta; [by apply wanted_beyond|by rewrite (wanted_rest ds ds')].
Qed.

Lemma pool_reconcile_inv cl ds pods order order' err ds' : sys_inv (mkSys cl ds pods true) →
  InferencePoolReconciler_Reconcile order (inl (cl_pool cl)) (list_pods order' cl) ds = (err, ds') →
  err = None ∧ sys_inv (mkSys cl ds' pods false).
Proof using Type.
  intros [H1' H2 H3 H4 H5] Hrec. cbn [sy_cluster sy_ds sy_pods sy_pool] in *. unfold InferencePoolReconciler_Reconcile in Hrec.
  assert (wanted_pool cl = None → (err, ds') = (None, Clear order ds) → err = None ∧ sys_inv (mkSys cl ds' pods false)) as Hclear.
  { intros Hw [= -> ->]. split; [done|]. split; simpl; [by apply Clear_spec|done|done|by rewrite Hw|done]. }
  destruct (cl_pool cl) as [p|] eqn:Hcl; [|apply Hclear; [unfold wanted_pool; by rewrite Hcl|done]].
  destruct (ip_deleting p) eqn:Hdel; [apply Hclear; [unfold wanted_pool; rewrite Hcl; simpl; by rewrite Hdel|done]|].
  assert (wanted_pool cl = Some (InferencePoolToEndpointPool p)) as Hw by (unfold wanted_pool; rewrite Hcl; simpl; by rewrite Hdel).
  unfold PoolSet in Hrec. cbv zeta in Hrec. set (pool := InferencePoolToEndpointPool p) in *. assert (pool_Namespace pool = ns) as Hns by (by apply H3).
  set (ds1 := with_pool (Some pool) ds) in *. assert (store_ok ns ds1) as Hok by (by destruct H1'; split).
  destruct (_ || _) eqn:Hch.
  - destruct (resync_synced cl order order' pool ds1 pods H2 Hok Hns eq_refl) as (ds2 & Heq & G1 & G2 & G3). rewrite Heq in Hrec.
    injection Hrec as <- <-. split; [done|]. split; simpl; [done|done|by rewrite Hcl|by rewrite (sr_pool _ _ G2), Hw|done].
  - injection Hrec as <- <-. split; [done|]. apply orb_false_iff in Hch as [Hsel Hports]. destruct (ds_pool ds) as [old|] eqn:Hold; [|done].
    apply negb_false_iff, bool_decide_eq_true in Hsel. apply negb_false_iff, bool_decide_eq_true in Hports.
    split; simpl; [done|done|by rewrite Hcl|by rewrite Hw|]. unfold synced in *. rewrite Hold in H5. simpl. destruct H5 as (_ & Hlen & Hs).
    split; [done|]. split; [intros name idx Hge; apply Hlen; by rewrite Hports|]. intros name idx Hn. rewrite <- (wanted_ports ds1 old pool) by done. by apply Hs.
Qed.
Lemma sys_step_inv s s' : sys_inv s → step s s' → sys_inv s'.
Proof using Type.
  intros Hinv [Hc|[Hr|Hr]]; [by eapply change_inv|..]; destruct Hr.
  - by eapply pod_reconcile_inv.
  - by eapply pool_reconcile_inv.
  - unfold PodReconciler_Reconcile in *. destruct (PoolHasSynced ds); [|done]. simpl in *. destruct (Get _); simplify_eq. done.
  - by simplify_eq/=.
Qed.

Lemma reachable_sys_inv epf port s : in_use epf ∅ → rtc step (start epf port) s → sys_inv s.
Proof using Type. intros Hf Hs. pose proof (start_sys_inv epf port Hf) as Hi. induction Hs; [done|]. apply IHHs. by eapply sys_step_inv. Qed.

Lemma settled_converged s : sys_inv s → settled s → converged s.
Proof using Type.
  intros [H1' H2 H3 H4 H5] [Hpods Hpool]. specialize (H4 Hpool). split; [done| | |apply H1'].
  - intros k ep Hk. destruct (so_named ns _ H1' k ep Hk) as [_ [idx ->]]. eauto.
  - intros name idx. rewrite <- H4. unfold synced in H5. destruct (ds_pool (sy_ds s)) as [pool|]; simpl.
    + apply H5. rewrite Hpods. apply not_elem_of_empty.
    + unfold meta. rewrite H5. done.
Qed.

(** Reconciling everything that is pending settles the system. *)
Lemma settles_pods cl pool : ∀ pods ds, sys_inv (mkSys cl ds pods pool) → ∃ ds', rtc reconcile_step (mkSys cl ds pods pool) (mkSys cl ds' ∅ pool).
Proof using Type.
  refine (set_ind_L (λ pods, ∀ ds, sys_inv (mkSys cl ds pods pool) → ∃ ds', rtc reconcile_step (mkSys cl ds pods pool) (mkSys cl ds' ∅ pool)) _ _).
  - intros ds _. by exists ds.
  - intros name pods Hnew IH ds Hinv.
    destruct (PodReconciler_Reconcile Matches (λ _, 0) (get_pod cl) (mkNamespacedName ns name) ds) as [err ds1] eqn:Hr.
    pose proof (pod_reconcile_inv _ _ _ _ _ _ _ _ Hinv Hr) as Hinv1.
    replace (({[name]} ∪ pods) ∖ {[name]}) with pods in Hinv1 by set_solver.
    destruct (IH ds1 Hinv1) as [ds' Hs]. exists ds'. eapply rtc_l; [|exact Hs].
    replace (mkSys cl ds1 pods pool) with (mkSys cl ds1 (({[name]} ∪ pods) ∖ {[name]}) pool) by (f_equal; set_solver).
    eapply pod_reconciled; [set_solver|exact Hr].
Qed.

Lemma settles s : sys_inv s → ∃ s', rtc reconcile_step s s' ∧ sy_cluster s' = sy_cluster s ∧ settled s'.
Proof using Type.
  destruct s as [cl ds pods pool]. intros Hinv.
  assert (∃ ds1, rtc reconcile_step (mkSys cl ds pods pool) (mkSys cl ds1 pods false) ∧ sys_inv (mkSys cl ds1 pods false)) as (ds1 & Hs1 & Hinv1).
  { destruct pool; [|by exists ds].
    destruct (InferencePoolReconciler_Reconcile (λ _, 0) (inl (cl_pool cl)) (list_pods (λ _, 0) cl) ds) as [err ds1] eqn:Hr.
    exists ds1. split; [apply rtc_once; by eapply pool_reconciled|by eapply pool_reconcile_inv]. }
  destruct (settles_pods cl false pods ds1 Hinv1) as [ds' Hs2]. exists (mkSys cl ds' ∅ false). split; [by etrans|done].
Qed.

End system.

(** ** Where the store falls behind *)

(** The new pool is stored before the pods are listed. When listing fails the reconciliation is
    retried, but the retry finds the pool unchanged and does not list again. *)
Lemma failed_resync_not_retried {F} `{EndpointFactory F} order order' List List' pool err (ds : datastore F) :
  List (pool_Selector pool) (pool_Namespace pool) = inr err → ds_pool ds = None →
  let ds1 := (PoolSet order List (Some pool) ds).2 in
  ds_pods ds1 = ds_pods ds ∧ PoolSet order' List' (Some pool) ds1 = (None, ds1).
Proof.
  intros Hl Hp ds1. assert (ds1 = with_pool (Some pool) ds) as Hds1.
  { unfold ds1, PoolSet. cbv zeta. rewrite Hp. simpl. unfold podResyncAll. by rewrite Hl. }
  clearbody ds1. subst ds1. split; [done|]. unfold PoolSet. simpl. by rewrite !bool_decide_eq_true_2.
Qed.

(** When a pool is deleted and made again, its pods are listed again, but not its objectives. *)
Lemma objectives_forgotten {F} `{LawfulFactory F} ns order order' List items pool name (ds : datastore F) : store_ok ns ds →
  List (pool_Selector pool) (pool_Namespace pool) = inl items → List.filter IsPodReady items = [] →
  ObjectiveGet name (PoolSet order' List (Some pool) (Clear order ds)).2 = None.
Proof.
  intros Hok Hl Hitems. unfold PoolSet. cbv zeta. simpl. set (ds1 := with_pool (Some pool) (Clear order ds)).
  assert (store_ok ns ds1) as Hok1 by (destruct (Clear_spec ns order ds Hok) as [[H1' H2'] _]; by split).
  destruct (resync_spec ns order' List pool ds1 items Hl) as (ds' & -> & _ & Hr & _); rewrite ?Hitems; [constructor|constructor|done|].
  simpl. unfold ObjectiveGet. by rewrite (sr_objectives _ _ Hr).
Qed.

(** ** Examples *)

Definition subset_matches (selector labels : gmap string string) : bool := bool_decide (selector ⊆ labels).

#[local] Instance metrics_factory : EndpointFactory (Runtime unit unit) := runtime_factory (λ _ _, 0) (λ _, true).
#[local] Instance metrics_lawful : LawfulFactory (Runtime unit unit) := runtime_lawful (λ _ _, 0) (λ _, true) (λ _, eq_refl).

Definition ready_pod (name : string) (labels : gmap string string) : Pod :=
  mkPod name "default" labels {[activePortsAnnotation := "8001, 9000"]} "10.0.0.1" false [("Initialized", "False"); ("Ready", "True")].

Definition llm_pool (selector : gmap string string) : InferencePool := mkInferencePool "default" "pool" [8000%Z; 8001%Z] selector "http" false.

Abbreviation llama := ({["app" := "llama"]} : gmap string string).
Abbreviation pool_cluster := (mkCluster ∅ (Some (llm_pool llama))).
Abbreviation pod_cluster := (mkCluster {["a" := ready_pod "a" llama]} (Some (llm_pool llama))).

(** The pool is set, then a pod appears. *)
Definition with_llm_pool : datastore (Runtime unit unit) := Eval vm_compute in
  (InferencePoolReconciler_Reconcile (λ _, 0) (inl (Some (llm_pool llama))) (list_pods subset_matches (λ _, 0) pool_cluster) (NewDatastore metrics_runtime 0)).2.
Definition with_llm_pod : datastore (Runtime unit unit) := Eval vm_compute in
  (PodReconciler_Reconcile subset_matches (λ _, 0) (get_pod pod_cluster) (mkNamespacedName "default" "a") with_llm_pool).2.

Lemma metrics_collects : collects metrics_runtime ∅.
Proof.
  unfold collects. rewrite bool_decide_eq_false_2 by (intros H; discriminate (f_equal (lookup "metrics") H)).
  change (rt_collectors metrics_runtime) with (∅ : gmap NamespacedName Collector). split; [reflexivity|apply map_Forall_empty].
Qed.


(** [updateDatastore] looks at the pool twice. When the pool changes in between, the pod is added
    although the new pool does not select it, and nothing removes it. *)
Lemma pod_added_to_new_pool :
  let mistral := {["app" := "mistral"]} : gmap string string in
  let pod := ready_pod "a" llama in
  let ds := with_llm_pool in
  let ds1 := (PoolSet (λ _, 0) (list_pods subset_matches (λ _, 0) pod_cluster) (Some (InferencePoolToEndpointPool (llm_pool mistral))) ds).2 in
  let ds2 := (PodUpdateOrAddIfNotExist pod ds1).2 in
  PoolLabelsMatch subset_matches (pod_Labels pod) ds = true ∧ size (ds_pods ds1) = 0 ∧
  PoolLabelsMatch subset_matches (pod_Labels pod) ds2 = false ∧ size (ds_pods ds2) = 1.
Proof. vm_compute. repeat split. Qed.

(** Text after a number is ignored: a range of ports is read as its first port. *)
Lemma port_range_read_as_port :
  extractActivePorts (mkPod "a" "default" ∅ {[activePortsAnnotation := "8000-8001"]} "" false []) [8000%Z; 8001%Z] = {[8000%Z]}.
Proof. vm_compute. reflexivity. Qed.
