(* ===== verification/ApproxPrefix.v ===== *)
(** * The approximate prefix cache: [plugins/requestcontrol/dataproducer/approximateprefix]

    A producer that guesses how much of a prompt each endpoint has in its prefix cache. The
    prompt is cut into blocks whose hashes form a chain, and an index remembers for every
    endpoint the hashes of the prompts sent to it, in an LRU cache of the size of the
    endpoint's own cache. Both the hash function and the LRU cache are third-party: the class
    [LruCache] states what is documented of [golang-lru], [Sum64] is [xxhash]. The state of
    requests between the extension points is that of [plugin.PluginState]. *)

From stdpp Require Import prelude gmap strings list pretty.
From Stdlib Require Import ZArith Ascii Lia.
From S2P Require Import Prelude Float64 FlowTypes SchedTypes Json Pickers SchedulerProfile Scheduler.

(** ** LRU caches *)

(** [Add] returns the key it evicts, on which the callback of the cache is called; the keys are
    from the oldest to the newest. *)
Class LruCache (C K : Type) := {
  lru_New : nat → C;
  lru_Add : K → C → option K * C;
  lru_Remove : K → C → C;
  lru_Keys : C → list K;
  lru_Size : C → nat
}.

Class LruCacheLaws (C K : Type) `{EqDecision K, LruCache C K} : Prop := {
  lru_New_keys n : lru_Keys (lru_New n) = [];
  lru_New_size n : lru_Size (lru_New n) = n;
  lru_Add_keys k c : let l := filter (λ x, x ≠ k) (lru_Keys c) ++ [k] in
    match lru_Add k c with
    | (Some old, c') => lru_Size c < length l ∧ l = old :: lru_Keys c'
    | (None, c') => length l ≤ lru_Size c ∧ lru_Keys c' = l
    end;
  lru_Add_size k c : lru_Size (lru_Add k c).2 = lru_Size c;
  lru_Remove_keys k c : lru_Keys (lru_Remove k c) = filter (λ x, x ≠ k) (lru_Keys c);
  lru_Remove_size k c : lru_Size (lru_Remove k c) = lru_Size c
}.

(** ** State of a request between extension points: [plugin.PluginState] *)

Section plugin_state.
Context {V : Type}.

Record PluginState := mkPluginState {
  ps_storage : gmap string (gmap string V);
  ps_lastAccess : gmap string Z
}.

Definition NewPluginState : PluginState := mkPluginState ∅ ∅.

Definition stalenessThreshold : Z := 5 * 60 * 1000000000.

Definition PluginState_Read (now : Z) (requestID key : string) (s : PluginState) : option V * PluginState :=
  (m ← ps_storage s !! requestID; m !! key, mkPluginState (ps_storage s) (<[requestID := now]> (ps_lastAccess s))).

Definition PluginState_Write (now : Z) (requestID key : string) (val : V) (s : PluginState) : PluginState :=
  mkPluginState (<[requestID := <[key := val]> (default ∅ (ps_storage s !! requestID))]> (ps_storage s))
    (<[requestID := now]> (ps_lastAccess s)).

Definition PluginState_Delete (requestID : string) (s : PluginState) : PluginState :=
  mkPluginState (delete requestID (ps_storage s)) (delete requestID (ps_lastAccess s)).

Definition cleanStaleRequests (order : nat → nat) (now : Z) (s : PluginState) : PluginState :=
  foldl (λ s kv, if bool_decide (stalenessThreshold < now - kv.2)%Z then PluginState_Delete kv.1 s else s) s
    (shuffle order (map_to_list (ps_lastAccess s))).
End plugin_state.
Arguments PluginState : clear implicits.

(** ** Hashing: [hashing.go] *)

Section hashing.
(** [xxhash.Sum64] of what was written, and the text of a number. *)
Context (Sum64 : list ascii → Z) (FormatFloat : float64 → string).

Definition averageCharactersPerToken : Z := 4.

(** [binary.LittleEndian.PutUint64]. *)
Definition toBytes (i : Z) : list ascii :=
  (λ k, ascii_of_N (Z.to_N (Z.land (Z.shiftr i (8 * Z.of_nat k)) 255))) <$> seq 0 8.

Definition numbers_Marshal (l : list Z) : string := json_array (pretty <$> l).

(** [EmbeddingsInput] has no encoder of its own; its empty slices are nil. *)
Definition EmbeddingsInput_Marshal (e : Prompt) : string :=
  json_object [always "Raw" (MarshalString (pr_Raw e));
               always "Strings" (if pr_Strings e is [] then "null" else json_array (MarshalString <$> pr_Strings e));
               always "TokenIDs" (if pr_TokenIDs e is [] then "null" else numbers_Marshal (pr_TokenIDs e))].

Definition single_field (name : string) (j : JSON) : string := json_object [always name (JSON_Marshal FormatFloat j)].

Definition getUserInputBytes (b : InferenceRequestBody) : string + GoError :=
  match bd_Conversations b, bd_Responses b, bd_ChatCompletions b, bd_Completions b, bd_Embeddings b with
  | Some c, _, _, _, _ => inl (json_array (ConversationItem_Marshal FormatFloat <$> cv_Items c))
  | None, Some r, _, _, _ =>
      inl (json_array (option_list (single_field "instructions" <$> rr_Instructions r) ++
                       option_list (single_field "tools" <$> rr_Tools r) ++ [single_field "input" (rr_Input r)]))
  | None, None, Some c, _, _ => inl (Messages_Marshal (cc_Messages c))
  | None, None, None, Some c, _ => inl (Prompt_PlainText (cr_Prompt c))
  | None, None, None, None, Some e => inl (EmbeddingsInput_Marshal (er_Input e))
  | None, None, None, None, None => inr (ENew "invalid request body: no recognized API format found")
  end.

(** The loop over the full blocks: the hashes, the last one, and what is left. *)
Fixpoint full_blocks (fuel : nat) (size : nat) (prevBlockHash : Z) (userInput : list ascii) : list Z * Z * list ascii :=
  match fuel with
  | O => ([], prevBlockHash, userInput)
  | S fuel' =>
      if bool_decide (size ≤ length userInput) then
        let h := Sum64 (take size userInput ++ toBytes prevBlockHash) in
        let '(res, last, rest) := full_blocks fuel' size h (drop size userInput) in
        (h :: res, last, rest)
      else ([], prevBlockHash, userInput)
  end.

(** The hash the chain starts from. *)
Definition model_hash (request : InferenceRequest) (b : InferenceRequestBody) : Z :=
  Sum64 (String.list_ascii_of_string (ir_TargetModel request) ++ String.list_ascii_of_string (CacheSalt b)).

Definition hash_blocks (size : nat) (prevBlockHash : Z) (userInput : list ascii) : list Z :=
  let '(res, last, rest) := full_blocks (length userInput) size prevBlockHash userInput in
  if bool_decide (0 < length rest) then res ++ [Sum64 (rest ++ toBytes last)] else res.

(** [None] is a panic: the slice of the input has a negative bound. *)
Definition hashPrompt (request : InferenceRequest) (blockSizeTokens maxPrefixBlocks : Z) : option (list Z) :=
  match ir_Body request with
  | None => Some []
  | Some b =>
      match getUserInputBytes b with
      | inr _ => Some []
      | inl text =>
          let userInput := String.list_ascii_of_string text in
          let cacheBlockSizeChars := Int.i64 (blockSizeTokens * averageCharactersPerToken) in
          if bool_decide (cacheBlockSizeChars ≤ 0)%Z then Some []
          else if bool_decide (Z.of_nat (length userInput) < cacheBlockSizeChars)%Z then Some []
          else
            let limit := Int.i64 (cacheBlockSizeChars * maxPrefixBlocks) in
            let hashes input := hash_blocks (Z.to_nat cacheBlockSizeChars) (model_hash request b) input in
            if bool_decide (limit < Z.of_nat (length userInput))%Z then
              (if bool_decide (limit < 0)%Z then None else Some (hashes (take (Z.to_nat limit) userInput)))
            else Some (hashes userInput)
      end
  end.
End hashing.

(** ** The index: [indexer.go] *)

Abbreviation ServerID := NamespacedName.
Record server := mkServer { sv_ServerID : ServerID; sv_NumOfGPUBlocks : Z }.

Section index.
Context {C : Type} `{LruCache C Z}.

Record indexer := mkIndexer {
  ix_hashToPods : gmap Z (gset ServerID);
  ix_podToLRU : gmap ServerID C;
  ix_defaultLRUSize : Z
}.

Definition newIndexer (defaultLRUSize : Z) : indexer := mkIndexer ∅ ∅ defaultLRUSize.

(** The callback of the cache of [pod]. *)
Definition evictionFn (pod : ServerID) (hash : Z) (m : gmap Z (gset ServerID)) : gmap Z (gset ServerID) :=
  match m !! hash with
  | Some podSet =>
      let podSet := podSet ∖ {[pod]} in
      if bool_decide (podSet = ∅) then delete hash m else <[hash := podSet]> m
  | None => m
  end.

Definition add_to_lru (pod : ServerID) (s : C * gmap Z (gset ServerID)) (hash : Z) : C * gmap Z (gset ServerID) :=
  match lru_Add hash s.1 with
  | (Some old, c) => (c, evictionFn pod old s.2)
  | (None, c) => (c, s.2)
  end.

Definition add_to_map (pod : ServerID) (m : gmap Z (gset ServerID)) (hash : Z) : gmap Z (gset ServerID) :=
  <[hash := {[pod]} ∪ default ∅ (m !! hash)]> m.

Definition lru_size (i : indexer) (pod : server) : Z :=
  if bool_decide (sv_NumOfGPUBlocks pod ≤ 0)%Z then ix_defaultLRUSize i else sv_NumOfGPUBlocks pod.

(** [None] is a panic: a cache without a positive size is nil. *)
Definition indexer_Add (hashes : list Z) (pod : server) (i : indexer) : option indexer :=
  let id := sv_ServerID pod in
  lruForPod ← match ix_podToLRU i !! id with
              | Some c => Some c
              | None => if bool_decide (lru_size i pod ≤ 0)%Z then None else Some (lru_New (Z.to_nat (lru_size i pod)))
              end;
  let '(c, m) := foldl (add_to_lru id) (lruForPod, ix_hashToPods i) hashes in
  Some (mkIndexer (foldl (add_to_map id) m hashes) (<[id := c]> (ix_podToLRU i)) (ix_defaultLRUSize i)).

Definition indexer_Get (hash : Z) (i : indexer) : gset ServerID := default ∅ (ix_hashToPods i !! hash).

Definition indexer_RemovePod (pod : ServerID) (i : indexer) : indexer :=
  match ix_podToLRU i !! pod with
  | None => i
  | Some c => mkIndexer (foldl (λ m hash, evictionFn pod hash m) (ix_hashToPods i) (lru_Keys c)) (delete pod (ix_podToLRU i)) (ix_defaultLRUSize i)
  end.

Definition indexer_Pods (order : nat → nat) (i : indexer) : list ServerID := shuffle order (map_to_list (ix_podToLRU i)).*1.
End index.
Arguments indexer : clear implicits.

(** ** The plugin: [plugin.go] *)

Definition ApproxPrefixCachePluginType : string := "approx-prefix-cache-producer".
Definition experimentalDefaultPrefillProfile : string := "prefill".
Definition defaultBlockSizeTokens : Z := 16.
Definition defaultMaxPrefixBlocks : Z := 256.
Definition defaultLRUCapacityPerServer : Z := 31250.

Record SchedulingContextState := mkContextState { cs_PrefixHashes : list Z; cs_PrefixCacheServers : gmap ServerID Z }.

Record prefix_config := mkPrefixConfig {
  pc_AutoTune : bool;
  pc_BlockSizeTokens : Z;
  pc_BlockSize : Z;
  pc_MaxPrefixBlocksToMatch : Z;
  pc_MaxPrefixTokensToMatch : Z;
  pc_LRUCapacityPerServer : Z
}.

Definition default_prefix_config : prefix_config :=
  mkPrefixConfig true defaultBlockSizeTokens 0 defaultMaxPrefixBlocks 0 defaultLRUCapacityPerServer.

Section plugin.
Context {C : Type} `{LruCache C Z} (Sum64 : list ascii → Z) (FormatFloat : float64 → string).

Record prepareData := mkPrepareData {
  pd_config : prefix_config;
  pd_indexer : indexer C;
  pd_state : PluginState SchedulingContextState
}.

Definition newPrepareData (c : prefix_config) : prepareData + GoError :=
  if bool_decide (0 < pc_BlockSize c ∧ pc_BlockSizeTokens c ≤ 0)%Z then inr (ENew "invalid configuration: BlockSize is deprecated")
  else if negb (pc_AutoTune c) && bool_decide (pc_BlockSizeTokens c ≤ 0)%Z then inr (ENew "invalid configuration: BlockSizeTokens must be > 0 when AutoTune is disabled")
  else if bool_decide (pc_MaxPrefixTokensToMatch c < 0)%Z then inr (ENew "invalid configuration: MaxPrefixTokensToMatch must be >= 0")
  else inl (mkPrepareData c (newIndexer (pc_LRUCapacityPerServer c)) NewPluginState).

Definition GetBlockSize (c : prefix_config) (endpoints : list Endpoint) : Z :=
  match endpoints with
  | endpoint :: _ =>
      if pc_AutoTune c && bool_decide (0 < mt_CacheBlockSize (ep_Metrics endpoint))%Z then mt_CacheBlockSize (ep_Metrics endpoint)
      else pc_BlockSizeTokens c
  | [] => pc_BlockSizeTokens c
  end.

Fixpoint match_loop (i : indexer C) (hashes : list Z) (res : gmap ServerID Z) : gmap ServerID Z :=
  match hashes with
  | [] => res
  | hash :: hashes' =>
      let cachedServers := indexer_Get hash i in
      if bool_decide (cachedServers = ∅) then res
      else match_loop i hashes' (set_fold (λ server res, <[server := (default 0 (res !! server) + 1)%Z]> res) res cachedServers)
  end.

Definition matchLongestPrefix (i : indexer C) (hashes : list Z) : gmap ServerID Z := match_loop i hashes ∅.

Definition server_id (ep : Endpoint) : ServerID := md_NamespacedName (ep_Metadata ep).

Definition with_prefix_info (servers : gmap ServerID Z) (total blockSize : Z) (ep : Endpoint) : Endpoint :=
  mkEndpoint (ep_ptr ep) (ep_Metadata ep) (ep_Metrics ep)
    (<[PrefixCacheMatchInfoKey := APrefix (mkPrefixInfo (default 0 (servers !! server_id ep))%Z total blockSize)]> (ep_Attributes ep)).

Definition max_blocks (c : prefix_config) (blockSize : Z) : Z :=
  if bool_decide (0 < pc_MaxPrefixTokensToMatch c ∧ 0 < blockSize)%Z then (pc_MaxPrefixTokensToMatch c `quot` blockSize)%Z
  else pc_MaxPrefixBlocksToMatch c.

Definition PrepareRequestData (now : Z) (request : InferenceRequest) (pods : list Endpoint) (p : prepareData) : option (list Endpoint * prepareData) :=
  let blockSize := GetBlockSize (pd_config p) pods in
  hashes ← hashPrompt Sum64 FormatFloat request blockSize (max_blocks (pd_config p) blockSize);
  let prefixCacheServers := matchLongestPrefix (pd_indexer p) hashes in
  Some (with_prefix_info prefixCacheServers (Z.of_nat (length hashes)) blockSize <$> pods,
        mkPrepareData (pd_config p) (pd_indexer p)
          (PluginState_Write now (ir_RequestId request) ApproxPrefixCachePluginType (mkContextState hashes prefixCacheServers) (pd_state p))).

Definition makeserver (c : prefix_config) (targetEndpoint : Endpoint) : server :=
  mkServer (server_id targetEndpoint)
    (if pc_AutoTune c && bool_decide (0 < mt_CacheNumBlocks (ep_Metrics targetEndpoint))%Z then mt_CacheNumBlocks (ep_Metrics targetEndpoint)
     else defaultLRUCapacityPerServer).

Definition add_server (hashes : list Z) (i : option (indexer C)) (s : server) : option (indexer C) := i ≫= indexer_Add hashes s.

(** [None] is a panic: a profile result is nil. The goroutine that updates the index is run at
    once. *)
Definition PreRequest (now : Z) (request : InferenceRequest) (schedulingResult : SchedulingResult) (p : prepareData) : option prepareData :=
  let deleted st := PluginState_Delete (ir_RequestId request) st in
  match sr_ProfileResults schedulingResult !! sr_PrimaryProfileName schedulingResult with
  | Some (Some (targetEndpoint :: _)) =>
      prefill ← match sr_ProfileResults schedulingResult !! experimentalDefaultPrefillProfile with
                | Some (Some (ep :: _)) => Some [makeserver (pd_config p) ep]
                | Some (Some []) | None => Some []
                | Some None => None
                end;
      let servers := makeserver (pd_config p) targetEndpoint :: prefill in
      match PluginState_Read now (ir_RequestId request) ApproxPrefixCachePluginType (pd_state p) with
      | (None, st) => Some (mkPrepareData (pd_config p) (pd_indexer p) (deleted st))
      | (Some state, st) =>
          i ← foldl (add_server (cs_PrefixHashes state)) (Some (pd_indexer p)) servers;
          Some (mkPrepareData (pd_config p) i (deleted st))
      end
  | Some (Some []) => Some (mkPrepareData (pd_config p) (pd_indexer p) (deleted (pd_state p)))
  | _ => None
  end.

(** One tick of [CleanUpInactivePods]. *)
Definition CleanUpInactivePods (order : nat → nat) (podList : list ServerID) (p : prepareData) : prepareData :=
  mkPrepareData (pd_config p)
    (foldl (λ i pod, if bool_decide (pod ∈ podList) then i else indexer_RemovePod pod i) (pd_indexer p) (indexer_Pods order (pd_indexer p)))
    (pd_state p).
End plugin.
Arguments prepareData : clear implicits.

(** ** The index and the caches agree *)

#[local] Abbreviation Map := (gmap Z (gset ServerID)).

Definition holds (m : Map) (hash : Z) (pod : ServerID) : Prop := pod ∈ default ∅ (m !! hash).
Definition no_empty (m : Map) : Prop := ∀ hash s, m !! hash = Some s → s ≠ ∅.

Lemma evict_holds pod hash m h q : holds (evictionFn pod hash m) h q ↔ holds m h q ∧ ¬ (h = hash ∧ q = pod).
Proof.
  unfold holds, evictionFn. destruct (m !! hash) as [s|] eqn:Hs.
  - destruct (decide (h = hash)) as [->|Hne].
    + rewrite Hs. simpl. case_bool_decide as He; [rewrite lookup_delete_eq|rewrite lookup_insert_eq]; simpl; set_solver.
    + case_bool_decide as He; [rewrite lookup_delete_ne by done|rewrite lookup_insert_ne by done]; naive_solver.
  - split; [|naive_solver]. intros Hq. split; [done|]. intros [-> ->]. rewrite Hs in Hq. simpl in Hq. set_solver.
Qed.

Lemma evict_no_empty pod hash m : no_empty m → no_empty (evictionFn pod hash m).
Proof.
  intros Hm h s. unfold evictionFn. destruct (m !! hash) as [s0|]; [|apply Hm]. case_bool_decide as He.
  - intros [_ Hh]%lookup_delete_Some. by eapply Hm.
  - intros [[<- <-]|[_ Hh]]%lookup_insert_Some; [done|by eapply Hm].
Qed.

Lemma add_holds pod hashes : ∀ m h q, holds (foldl (add_to_map pod) m hashes) h q ↔ holds m h q ∨ (h ∈ hashes ∧ q = pod).
Proof.
  induction hashes as [|k hashes IH]; intros m h q; cbn [foldl].
  - split; [by left|]. intros [?|[[]%elem_of_nil _]]; done.
  - rewrite IH, elem_of_cons. unfold holds, add_to_map. destruct (decide (h = k)) as [->|Hne].
    + rewrite lookup_insert_eq. simpl. set_solver.
    + rewrite lookup_insert_ne by done. naive_solver.
Qed.

Lemma add_no_empty pod hashes : ∀ m, no_empty m → no_empty (foldl (add_to_map pod) m hashes).
Proof.
  induction hashes as [|k hashes IH]; intros m Hm; cbn [foldl]; [done|]. apply IH. intros h s. unfold add_to_map.
  intros [[<- <-]|[_ Hh]]%lookup_insert_Some; [set_solver|by eapply Hm].
Qed.

Lemma moved_nodup (l : list Z) k : NoDup l → NoDup (filter (λ x, x ≠ k) l ++ [k]).
Proof.
  intros Hl. apply NoDup_app. split; [by apply NoDup_filter|]. split; [|apply NoDup_singleton].
  intros x [Hx _]%list_elem_of_filter ->%list_elem_of_singleton. done.
Qed.

Lemma newest_step (pre suf seen : list Z) k : (∀ x, x ∈ suf ↔ x ∈ seen) → length suf ≤ length seen →
  let suf' := filter (λ x, x ≠ k) suf ++ [k] in (∀ x, x ∈ suf' ↔ x ∈ seen ++ [k]) ∧ length suf' ≤ length (seen ++ [k]).
Proof.
  intros Hs Hl. simpl. split.
  - intros x. rewrite !elem_of_app, list_elem_of_filter, !list_elem_of_singleton, Hs. destruct (decide (x = k)); naive_solver.
  - rewrite !length_app. pose proof (length_filter (λ x, x ≠ k) suf). simpl. lia.
Qed.

Section index_proofs.
Context {C : Type} `{!LruCache C Z} `{!LruCacheLaws C Z}.

Record lru_ok (c : C) : Prop := mkLruOk {
  lo_nodup : NoDup (lru_Keys c);
  lo_length : length (lru_Keys c) ≤ lru_Size c
}.

(** While hashes are added to the cache of [pod]: those that were added are the newest keys,
    the map has the pod only for keys, and for all keys that are not new. *)
Record adding (pod : ServerID) (m0 : Map) (seen : list Z) (c : C) (m : Map) : Prop := mkAdding {
  ad_ok : lru_ok c;
  ad_newest : ∃ pre suf, lru_Keys c = pre ++ suf ∧ (∀ x, x ∈ suf ↔ x ∈ seen) ∧ length suf ≤ length seen;
  ad_sound : ∀ h, holds m h pod → h ∈ lru_Keys c;
  ad_complete : ∀ h, h ∈ lru_Keys c → holds m h pod ∨ h ∈ seen;
  ad_others : ∀ h q, q ≠ pod → holds m h q ↔ holds m0 h q;
  ad_nonempty : no_empty m
}.

Lemma adding_step pod m0 seen c m k : length seen < lru_Size c → adding pod m0 seen c m →
  let s := add_to_lru pod (c, m) k in adding pod m0 (seen ++ [k]) s.1 s.2 ∧ lru_Size s.1 = lru_Size c.
Proof using Type*.
  intros Hlt [[Hnd Hlen] (pre & suf & Hkeys & Hsuf & Hsl) Hs Hc Ho Hne]. unfold add_to_lru. cbn [fst snd].
  pose proof (lru_Add_keys k c) as Hadd. pose proof (lru_Add_size k c) as Hsize. cbv zeta in Hadd.
  pose proof (moved_nodup (lru_Keys c) k Hnd) as Hnd'. destruct (newest_step pre suf seen k Hsuf Hsl) as [Hsuf' Hsl'].
  assert (filter (λ x, x ≠ k) (lru_Keys c) ++ [k] = filter (λ x, x ≠ k) pre ++ (filter (λ x, x ≠ k) suf ++ [k])) as Hsplit
    by (by rewrite Hkeys, filter_app, app_assoc).
  assert (∀ x, x ∈ filter (λ x, x ≠ k) (lru_Keys c) ++ [k] ↔ x ∈ lru_Keys c ∨ x = k) as Hin.
  { intros x. rewrite elem_of_app, list_elem_of_filter, list_elem_of_singleton. destruct (decide (x = k)); naive_solver. }
  assert (∀ x, x ∈ seen ++ [k] ↔ x ∈ seen ∨ x = k) as Hseen by (intros x; by rewrite elem_of_app, list_elem_of_singleton).
  destruct (lru_Add k c) as [[old|] c']; cbn [fst snd] in *.
  - destruct Hadd as [Hover Hl]. split; [|done]. rewrite Hl in Hnd', Hin. apply NoDup_cons in Hnd' as [Hold Hnd'].
    assert (∀ x, x ∈ lru_Keys c' ↔ (x ∈ lru_Keys c ∨ x = k) ∧ x ≠ old) as Hin'.
    { intros x. rewrite <- Hin, elem_of_cons. split; [|naive_solver]. intros Hx. split; [by right|]. by intros ->. }
    split.
    + split; [done|]. rewrite Hsize. apply (f_equal length) in Hl. rewrite length_app in Hl. simpl in Hl.
      pose proof (length_filter (λ x, x ≠ k) (lru_Keys c)). lia.
    + rewrite Hl in Hsplit. destruct (filter (λ x, x ≠ k) pre) as [|y pre'] eqn:Hpre.
      * exfalso. rewrite Hl in Hover. rewrite Hsplit in Hover. rewrite (length_app seen) in Hsl'. simpl in Hover, Hsl'. lia.
      * injection Hsplit as _ Heq. by exists pre', (filter (λ x, x ≠ k) suf ++ [k]).
    + intros h [Hh Hn]%evict_holds. apply Hin'. split; [left; by apply Hs|]. intros ->. naive_solver.
    + intros h [Hh Hn]%Hin'. rewrite evict_holds, Hseen. destruct Hh as [Hh|?]; [|by right; right]. destruct (Hc h Hh); naive_solver.
    + intros h q Hq. rewrite evict_holds, <- Ho by done. naive_solver.
    + by apply evict_no_empty.
  - destruct Hadd as [Hfit Hl]. split; [|done]. rewrite <- Hl in Hin, Hnd'. split.
    + split; [done|]. rewrite Hsize. by rewrite Hl.
    + rewrite Hl, Hsplit. by exists (filter (λ x, x ≠ k) pre), (filter (λ x, x ≠ k) suf ++ [k]).
    + intros h Hh. apply Hin. left. by apply Hs.
    + intros h [Hh|?]%Hin; rewrite Hseen; [|by right; right]. destruct (Hc h Hh); naive_solver.
    + done.
    + done.
Qed.

Lemma adding_all pod m0 hashes : ∀ seen c m, length seen + length hashes ≤ lru_Size c → adding pod m0 seen c m →
  let s := foldl (add_to_lru pod) (c, m) hashes in adding pod m0 (seen ++ hashes) s.1 s.2 ∧ lru_Size s.1 = lru_Size c.
Proof using Type*.
  induction hashes as [|k hashes IH]; intros seen c m Hlen Had; cbn [foldl].
  - by rewrite app_nil_r.
  - simpl in Hlen. destruct (adding_step pod m0 seen c m k) as [Had' Hsize]; [lia|done|]. destruct (add_to_lru pod (c, m) k) as [c' m']. cbn [fst snd] in *.
    destruct (IH (seen ++ [k]) c' m') as [H3 H4]; [rewrite length_app; simpl; lia|done|]. split; [by rewrite <- app_assoc in H3|by rewrite H4].
Qed.

(** The index says that a pod has a block exactly if the cache of the pod has it. *)
Record index_ok (i : indexer C) : Prop := mkIndexOk {
  io_agree : ∀ h pod, holds (ix_hashToPods i) h pod ↔ ∃ c, ix_podToLRU i !! pod = Some c ∧ h ∈ lru_Keys c;
  io_lru : ∀ pod c, ix_podToLRU i !! pod = Some c → lru_ok c ∧ 0 < lru_Size c;
  io_nonempty : no_empty (ix_hashToPods i)
}.

(** The size of the cache of a pod, or the one it will get. *)
Definition capacity (i : indexer C) (pod : server) : Z :=
  match ix_podToLRU i !! sv_ServerID pod with Some c => Z.of_nat (lru_Size c) | None => lru_size i pod end.

Lemma new_index_ok n : index_ok (newIndexer n).
Proof using Type.
  split; [|done|done]. intros h pod. unfold holds. simpl. rewrite lookup_empty. split; [by intros []%elem_of_empty|]. intros (c & [=] & _).
Qed.

Lemma index_Add_spec hashes pod i : index_ok i → (0 < capacity i pod)%Z → (Z.of_nat (length hashes) ≤ capacity i pod)%Z →
  ∃ i', indexer_Add hashes pod i = Some i' ∧ index_ok i' ∧
    (∀ s, capacity i' s = if decide (sv_ServerID s = sv_ServerID pod) then capacity i pod else capacity i s) ∧
    (∀ h, h ∈ hashes → holds (ix_hashToPods i') h (sv_ServerID pod)) ∧
    (∀ h q, q ≠ sv_ServerID pod → holds (ix_hashToPods i') h q ↔ holds (ix_hashToPods i) h q).
Proof using Type*.
  intros [H1 H2 H3] Hpos Hfit. unfold indexer_Add. set (id := sv_ServerID pod) in *.
  assert (∃ c, match ix_podToLRU i !! id with
              | Some c => Some c
              | None => if bool_decide (lru_size i pod ≤ 0)%Z then None else Some (lru_New (Z.to_nat (lru_size i pod)))
              end = Some c ∧ Z.of_nat (lru_Size c) = capacity i pod ∧ lru_ok c ∧ ∀ h, holds (ix_hashToPods i) h id ↔ h ∈ lru_Keys c)
    as (c & -> & Hcap & Hok & Hag).
  { unfold capacity in *. fold id. destruct (ix_podToLRU i !! id) as [c|] eqn:Hc.
    - exists c. split; [done|]. split; [done|]. split; [by eapply H2|]. intros h. rewrite H1. naive_solver.
    - fold id in Hpos. rewrite Hc in Hpos. rewrite bool_decide_eq_false_2 by lia. eexists. split; [done|]. split; [rewrite lru_New_size; lia|].
      split; [split; rewrite lru_New_keys; [constructor|simpl; lia]|]. intros h. rewrite H1, lru_New_keys, elem_of_nil. naive_solver. }
  simpl. destruct (adding_all id (ix_hashToPods i) hashes [] c (ix_hashToPods i)) as [Had Hsize]; [simpl; lia| |].
  { split; [done| | | |done|done].
    - exists (lru_Keys c), []. split; [by rewrite app_nil_r|]. split; [done|simpl; lia].
    - intros h Hh. by apply Hag.
    - intros h Hh. left. by apply Hag. }
  destruct (foldl (add_to_lru id) (c, ix_hashToPods i) hashes) as [c' m]. cbn [fst snd app] in *.
  destruct Had as [Hok' (pre & suf & Hkeys & Hsuf & _) Hs Hc Ho Hne]. eexists. split; [reflexivity|].
  assert (∀ h, h ∈ hashes → h ∈ lru_Keys c') as Hall by (intros h Hh; rewrite Hkeys; apply elem_of_app; right; by apply Hsuf).
  split; [split; simpl|].
  - intros h q. rewrite add_holds. destruct (decide (q = id)) as [->|Hq].
    + rewrite lookup_insert_eq. split.
      * intros Hh. exists c'. split; [done|]. destruct Hh as [Hh|[Hh _]]; [by apply Hs|by apply Hall].
      * intros (c'' & [= <-] & Hh). destruct (Hc h Hh); auto.
    + rewrite lookup_insert_ne by done. rewrite Ho, H1 by done. naive_solver.
  - intros q c'' [[<- <-]|[_ Hq]]%lookup_insert_Some; [split; [done|lia]|by eapply H2].
  - by apply add_no_empty.
  - split.
    { intros s. unfold capacity at 1. cbn [ix_podToLRU]. fold id. case_decide as Hid; [rewrite Hid, lookup_insert_eq; lia|].
      by rewrite lookup_insert_ne by done. }
    simpl. split.
    + intros h Hh. apply add_holds. by right.
    + intros h q Hq. rewrite add_holds, Ho by done. naive_solver.
Qed.

Lemma RemovePod_spec pod i : index_ok i →
  let i' := indexer_RemovePod pod i in
  index_ok i' ∧ ix_podToLRU i' !! pod = None ∧ ∀ h q, holds (ix_hashToPods i') h q ↔ holds (ix_hashToPods i) h q ∧ q ≠ pod.
Proof using Type.
  intros [H1 H2 H3]. unfold indexer_RemovePod. destruct (ix_podToLRU i !! pod) as [c|] eqn:Hc.
  2:{ split; [by split|]. split; [done|]. intros h q. split; [|by intros [? _]]. intros Hh. split; [done|]. intros ->. apply H1 in Hh as (? & ? & _). congruence. }
  assert (∀ l m, no_empty m → no_empty (foldl (λ m hash, evictionFn pod hash m) m l) ∧
    ∀ h q, holds (foldl (λ m hash, evictionFn pod hash m) m l) h q ↔ holds m h q ∧ ¬ (h ∈ l ∧ q = pod)) as Hfold.
  { induction l as [|k l IH]; intros m Hm; cbn [foldl].
    - split; [done|]. intros h q. rewrite elem_of_nil. naive_solver.
    - destruct (IH (evictionFn pod k m)) as [G1 G2]; [by apply evict_no_empty|]. split; [done|]. intros h q. rewrite G2, evict_holds, elem_of_cons. naive_solver. }
  destruct (Hfold (lru_Keys c) (ix_hashToPods i) H3) as [G1 G2].
  assert (∀ h q, holds (foldl (λ m hash, evictionFn pod hash m) (ix_hashToPods i) (lru_Keys c)) h q ↔ holds (ix_hashToPods i) h q ∧ q ≠ pod) as G3.
  { intros h q. rewrite G2. split; [|naive_solver]. intros [Hh Hn]. split; [done|]. intros ->. apply Hn. split; [|done].
    apply H1 in Hh as (c' & Hc' & Hh). congruence. }
  split; [split; simpl|].
  - intros h q. rewrite G3, H1. split.
    + intros [(c' & Hc' & Hh) Hq]. exists c'. by rewrite lookup_delete_ne.
    + intros (c' & [Hq Hc']%lookup_delete_Some & Hh). split; [by exists c'|done].
  - intros q c' [_ Hq]%lookup_delete_Some. by eapply H2.
  - done.
  - split; [apply lookup_delete_eq|done].
Qed.
End index_proofs.

(** ** Matching *)

Section matching.
Context {C : Type}.

(** The number of leading blocks a pod has, where the blocks end that no pod has. *)
Fixpoint matched (i : indexer C) (hashes : list Z) (pod : ServerID) : Z :=
  match hashes with
  | [] => 0
  | hash :: hashes' =>
      if bool_decide (indexer_Get hash i = ∅) then 0
      else ((if bool_decide (pod ∈ indexer_Get hash i) then 1 else 0) + matched i hashes' pod)%Z
  end.

Lemma count_servers (X : gset ServerID) (res : gmap ServerID Z) pod :
  default 0%Z (set_fold (λ server res, <[server := (default 0 (res !! server) + 1)%Z]> res) res X !! pod) =
  (default 0 (res !! pod) + (if bool_decide (pod ∈ X) then 1 else 0))%Z.
Proof using Type.
  revert X. apply (set_fold_ind_L (λ (r : gmap ServerID Z) X, default 0%Z (r !! pod) = (default 0 (res !! pod) + (if bool_decide (pod ∈ X) then 1 else 0))%Z)).
  - rewrite bool_decide_eq_false_2 by set_solver. lia.
  - intros x X r Hx IH. destruct (decide (pod = x)) as [->|Hne].
    + rewrite lookup_insert_eq. simpl. rewrite IH, bool_decide_eq_false_2, bool_decide_eq_true_2 by set_solver. lia.
    + rewrite lookup_insert_ne by done. rewrite IH. f_equal. by rewrite (bool_decide_ext (pod ∈ X) (pod ∈ {[x]} ∪ X)) by set_solver.
Qed.

Lemma match_loop_spec (i : indexer C) hashes pod : ∀ res,
  default 0%Z (match_loop i hashes res !! pod) = (default 0 (res !! pod) + matched i hashes pod)%Z.
Proof using Type.
  induction hashes as [|hash hashes IH]; intros res; cbn [match_loop matched]; [lia|]. case_bool_decide as He; [lia|].
  rewrite IH, count_servers. lia.
Qed.

Lemma matched_bounds (i : indexer C) hashes pod : (0 ≤ matched i hashes pod ≤ Z.of_nat (length hashes))%Z.
Proof using Type. induction hashes as [|h hashes IH]; cbn [matched length]; [lia|]. repeat case_bool_decide; lia. Qed.

Lemma matched_all (i : indexer C) hashes pod : (∀ h, h ∈ hashes → pod ∈ indexer_Get h i) → matched i hashes pod = Z.of_nat (length hashes).
Proof using Type.
  induction hashes as [|h hashes IH]; intros Hall; cbn [matched length]; [done|].
  assert (pod ∈ indexer_Get h i) as Hh by (apply Hall; by apply elem_of_cons; left).
  rewrite bool_decide_eq_false_2 by set_solver. rewrite bool_decide_eq_true_2 by done.
  rewrite IH; [lia|]. intros h' Hh'. apply Hall. by apply elem_of_cons; right.
Qed.

(** For a pod that has the first [n] blocks and none after them this is the longest prefix. *)
Lemma matched_prefix (i : indexer C) hashes pod n : n ≤ length hashes →
  (∀ k h, hashes !! k = Some h → pod ∈ indexer_Get h i ↔ k < n) → matched i hashes pod = Z.of_nat n.
Proof using Type.
  revert n. induction hashes as [|h hashes IH]; intros n Hn Hiff; cbn [matched length] in *; [by replace n with 0 by lia|].
  pose proof (Hiff 0 h eq_refl) as H0. destruct n as [|n].
  - rewrite (bool_decide_eq_false_2 (pod ∈ _)) by (rewrite H0; lia). rewrite (IH 0); [by case_bool_decide|lia|].
    intros k h' Hk. rewrite (Hiff (S k) h' Hk). lia.
  - assert (pod ∈ indexer_Get h i) as Hh by (apply H0; lia). rewrite bool_decide_eq_false_2 by set_solver. rewrite bool_decide_eq_true_2 by done.
    rewrite (IH n); [lia|lia|]. intros k h' Hk. rewrite (Hiff (S k) h' Hk). lia.
Qed.
End matching.

(** ** The chain of hashes *)

Lemma toBytes_length i : length (toBytes i) = 8.
Proof. unfold toBytes. by rewrite length_fmap, length_seq. Qed.

Section chain.
Context (Sum64 : list ascii → Z) (size : nat) (Hsize : 0 < size).

Lemma full_blocks_fuel fuel : ∀ fuel' prev input, length input ≤ fuel → length input ≤ fuel' →
  full_blocks Sum64 fuel size prev input = full_blocks Sum64 fuel' size prev input.
Proof using Hsize.
  induction fuel as [|fuel IH]; intros fuel' prev input Hf Hf'.
  - destruct input; [|simpl in Hf; lia]. destruct fuel'; [done|]. cbn [full_blocks]. rewrite bool_decide_eq_false_2; [done|simpl; lia].
  - destruct fuel' as [|fuel']; cbn [full_blocks]; case_bool_decide as Hs; [simpl in *; lia|done| |done].
    rewrite (IH fuel'); [done|rewrite length_drop; lia..].
Qed.

Lemma hash_blocks_full prev input : size ≤ length input →
  let h := Sum64 (take size input ++ toBytes prev) in
  hash_blocks Sum64 size prev input = h :: hash_blocks Sum64 size h (drop size input).
Proof using Hsize.
  intros Hlen h. unfold hash_blocks. destruct (length input) as [|fuel] eqn:Hfuel; [lia|]. cbn [full_blocks].
  rewrite bool_decide_eq_true_2 by lia. fold h. rewrite (full_blocks_fuel fuel (length (drop size input))) by (rewrite length_drop; lia).
  destruct (full_blocks _ _ _ h (drop size input)) as [[res last] rest]. by case_bool_decide.
Qed.

Lemma hash_blocks_partial prev input : length input < size →
  hash_blocks Sum64 size prev input = if bool_decide (0 < length input) then [Sum64 (input ++ toBytes prev)] else [].
Proof using Hsize.
  intros Hlen. unfold hash_blocks. destruct (length input) as [|fuel] eqn:Hfuel; cbn [full_blocks].
  - by rewrite Hfuel.
  - rewrite bool_decide_eq_false_2 by lia. by rewrite Hfuel.
Qed.

(** The inputs of the hash function. *)
Fixpoint hashed (fuel : nat) (prev : Z) (input : list ascii) : list (list ascii) :=
  match fuel with
  | O => []
  | S fuel' => (take size input ++ toBytes prev) :: hashed fuel' (Sum64 (take size input ++ toBytes prev)) (drop size input)
  end.

Lemma hash_blocks_lookup i : ∀ prev input, i * size < length input →
  hash_blocks Sum64 size prev input !! i = Sum64 <$> hashed (S i) prev input !! i.
Proof using Hsize.
  induction i as [|i IH]; intros prev input Hi.
  - destruct (decide (size ≤ length input)) as [Hl|Hl]; [by rewrite hash_blocks_full|].
    rewrite hash_blocks_partial by lia. rewrite bool_decide_eq_true_2 by lia. cbn. by rewrite take_ge by lia.
  - simpl in Hi. rewrite hash_blocks_full by lia. change (hashed (S (S i)) prev input !! S i) with (hashed (S i) (Sum64 (take size input ++ toBytes prev)) (drop size input) !! i).
    simpl. apply IH. rewrite length_drop. lia.
Qed.

Lemma hash_blocks_length i : ∀ prev input, i < length (hash_blocks Sum64 size prev input) → i * size < length input.
Proof using Hsize.
  induction i as [|i IH]; intros prev input; (destruct (decide (size ≤ length input)) as [Hl|Hl];
    [rewrite hash_blocks_full by done|rewrite hash_blocks_partial by lia; case_bool_decide]); simpl; try lia.
  intros Hi. apply Nat.succ_lt_mono in Hi. apply IH in Hi. rewrite length_drop in Hi. lia.
Qed.

Lemma blocks_split n (a b : list ascii) : take (size + n) a = take (size + n) b ↔ take size a = take size b ∧ take n (drop size a) = take n (drop size b).
Proof using Hsize.
  split.
  - intros Heq. split.
    + apply (f_equal (take size)) in Heq. rewrite !take_take in Heq. by replace (size `min` (size + n)) with size in Heq by lia.
    + rewrite !take_drop_commute. by rewrite Heq.
  - intros [H1 H2]. rewrite <- (take_take_drop a), <- (take_take_drop b). by rewrite H1, H2.
Qed.

Lemma hashed_same i : ∀ prev a b, take (S i * size) a = take (S i * size) b → hashed (S i) prev a = hashed (S i) prev b.
Proof using Hsize.
  induction i as [|i IH]; intros prev a b Heq.
  - cbn. rewrite Nat.mul_1_l in Heq. by rewrite Heq.
  - rewrite Nat.mul_succ_l, Nat.add_comm in Heq. apply blocks_split in Heq as [Hsz Heq].
    cbn [hashed] in *. rewrite Hsz. f_equal. by apply IH.
Qed.

Lemma toBytes_inj i j : (0 ≤ i < Int.two64)%Z → (0 ≤ j < Int.two64)%Z → toBytes i = toBytes j → i = j.
Proof using Hsize.
  intros Hi Hj Heq. assert (∀ k, k < 8 → Z.land (Z.shiftr i (8 * Z.of_nat k)) 255 = Z.land (Z.shiftr j (8 * Z.of_nat k)) 255) as Hbyte.
  { intros k Hk. apply (f_equal (.!! k)) in Heq. unfold toBytes in Heq. rewrite !list_lookup_fmap, !lookup_seq_lt in Heq by done. injection Heq as Heq.
    assert (∀ x, (0 ≤ Z.land x 255 < 256)%Z) as Hrange by (intros x; change 255%Z with (Z.ones 8); rewrite Z.land_ones by lia; apply Z.mod_pos_bound; lia).
    apply (f_equal N_of_ascii) in Heq. rewrite !N_ascii_embedding in Heq; [apply (f_equal Z.of_N) in Heq; rewrite !Z2N.id in Heq; [done|apply Hrange..]|..].
    all: pose proof (Hrange (Z.shiftr i (8 * Z.of_nat k))); pose proof (Hrange (Z.shiftr j (8 * Z.of_nat k))); lia. }
  assert (∀ x n, (0 ≤ x < Int.two64)%Z → (64 ≤ n)%Z → Z.testbit x n = false) as Habove.
  { intros x n Hx Hn. destruct (decide (x = 0%Z)) as [->|]; [apply Z.testbit_0_l|]. apply Z.bits_above_log2; [lia|].
    apply Z.log2_lt_pow2; [lia|]. unfold Int.two64 in Hx. pose proof (Z.pow_le_mono_r 2 64 n). lia. }
  apply Z.bits_inj'. intros n Hn. destruct (decide (64 ≤ n)%Z); [by rewrite !Habove|].
  specialize (Hbyte (Z.to_nat (n / 8))). rewrite Z2Nat.id in Hbyte by (apply Z.div_pos; lia).
  assert (n / 8 < 8)%Z by (apply Z.div_lt_upper_bound; lia). pose proof (Z.mod_pos_bound n 8). pose proof (Z.div_mod n 8).
  assert (0 ≤ n / 8)%Z by (apply Z.div_pos; lia).
  assert (∀ x, Z.testbit x n = Z.testbit (Z.land (Z.shiftr x (8 * (n / 8))) 255) (n mod 8)) as Hbit.
  { intros x. change 255%Z with (Z.ones 8). rewrite Z.land_spec, Z.ones_spec_low, andb_true_r, Z.shiftr_spec by lia. f_equal. lia. }
  rewrite !Hbit, Hbyte by lia. done.
Qed.

(** Equal hashes come from equal inputs, back to the start of the chain. *)
Lemma hashed_inj i : (∀ x, 0 ≤ Sum64 x < Int.two64)%Z → ∀ prev prev' a b,
  (0 ≤ prev < Int.two64)%Z → (0 ≤ prev' < Int.two64)%Z →
  (∀ x y, x ∈ hashed (S i) prev a → y ∈ hashed (S i) prev' b → Sum64 x = Sum64 y → x = y) →
  ∀ x, hashed (S i) prev a !! i = Some x → hashed (S i) prev' b !! i = Some x →
  prev = prev' ∧ take (S i * size) a = take (S i * size) b.
Proof using Hsize.
  intros Hrange. induction i as [|i IH]; intros prev prev' a b Hp Hp' Hcol x Ha Hb.
  - change (Some (take size a ++ toBytes prev) = Some x) in Ha. change (Some (take size b ++ toBytes prev') = Some x) in Hb.
    injection Ha as <-. injection Hb as Hb. rewrite Nat.mul_1_l. apply app_inj_2 in Hb as [H1 H2]; [|by rewrite !toBytes_length].
    split; [symmetry; by apply toBytes_inj|done].
  - cbn [hashed] in Ha, Hb, Hcol. change (hashed (S i) (Sum64 (take size a ++ toBytes prev)) (drop size a) !! i = Some x) in Ha.
    change (hashed (S i) (Sum64 (take size b ++ toBytes prev')) (drop size b) !! i = Some x) in Hb.
    destruct (IH (Sum64 (take size a ++ toBytes prev)) (Sum64 (take size b ++ toBytes prev')) (drop size a) (drop size b) (Hrange _) (Hrange _))
      with (x := x) as [Hh Ht]; [|exact Ha|exact Hb|].
    { intros u v Hu Hv. apply Hcol; apply elem_of_cons; by right. }
    apply Hcol in Hh; [|by apply elem_of_cons; left..]. apply app_inj_2 in Hh as [H1 H2]; [|by rewrite !toBytes_length].
    split; [by apply toBytes_inj|]. rewrite Nat.mul_succ_l, Nat.add_comm. by apply blocks_split.
Qed.
End chain.

(** ** Properties *)

Section properties.
Context (Sum64 : list ascii → Z) (FormatFloat : float64 → string).

Lemma hashPrompt_same r r' bs mb : ir_TargetModel r' = ir_TargetModel r → ir_Body r' = ir_Body r →
  hashPrompt Sum64 FormatFloat r' bs mb = hashPrompt Sum64 FormatFloat r bs mb.
Proof using Type. intros Hm Hb. unfold hashPrompt, model_hash. by rewrite Hm, Hb. Qed.

(** The hash at a position is that of the block and of the chain before it, in the whole text. *)
Lemma hashPrompt_lookup r b text bs mb hs i h (size := Z.to_nat (bs * 4)) :
  (0 < bs)%Z → (0 ≤ mb)%Z → (bs * 4 < Int.two63)%Z → (bs * 4 * mb < Int.two63)%Z →
  ir_Body r = Some b → getUserInputBytes FormatFloat b = inl text →
  hashPrompt Sum64 FormatFloat r bs mb = Some hs → hs !! i = Some h →
  Some h = Sum64 <$> hashed Sum64 size (S i) (model_hash Sum64 r b) (String.list_ascii_of_string text) !! i.
Proof using Type.
  intros Hbs Hmb Hov Hov' Hb Ht. unfold hashPrompt. rewrite Hb, Ht. cbv zeta. unfold averageCharactersPerToken.
  rewrite (Int.i64_small (bs * 4)) by (unfold Int.two63 in *; lia). set (input := String.list_ascii_of_string text).
  rewrite bool_decide_eq_false_2 by lia. case_bool_decide as Hshort; [intros [= <-]; by rewrite lookup_nil|].
  rewrite Int.i64_small by (unfold Int.two63 in *; nia). intros Hhs Hi.
  assert (∃ n, hs = hash_blocks Sum64 size (model_hash Sum64 r b) (take n input) ∧ (n = Z.to_nat mb * size ∨ n = length input)) as (n & -> & Hn).
  { revert Hhs. case_bool_decide; [rewrite bool_decide_eq_false_2 by nia|]; intros [= <-].
    - exists (Z.to_nat (bs * 4 * mb)). split; [done|]. left. unfold size. rewrite <- Z2Nat.inj_mul by lia. f_equal. lia.
    - exists (length input). rewrite firstn_all. auto. }
  assert (0 < size) as Hsize by (unfold size; lia).
  pose proof (hash_blocks_length Sum64 size Hsize i _ _ (lookup_lt_Some _ _ _ Hi)) as Hlen.
  rewrite hash_blocks_lookup in Hi by done. rewrite <- Hi. do 2 f_equal. symmetry. apply hashed_same; [done|].
  destruct Hn as [-> | ->]; [|by rewrite firstn_all]. rewrite take_take. f_equal. rewrite length_take in Hlen.
  assert (i < Z.to_nat mb) by (apply (Nat.mul_lt_mono_pos_r size); [done|lia]). nia.
Qed.

Lemma hashed_is_Some size i : ∀ prev input, is_Some (hashed Sum64 size (S i) prev input !! i).
Proof using Type.
  induction i as [|i IH]; intros prev input; [by eexists|].
  change (hashed Sum64 size (S (S i)) prev input !! S i) with (hashed Sum64 size (S i) (Sum64 (take size input ++ toBytes prev)) (drop size input) !! i). apply IH.
Qed.

End properties.

(** ** What a prompt leaves in the index *)

Section round_trip.
Context {C : Type} `{!LruCache C Z} `{!LruCacheLaws C Z} (Sum64 : list ascii → Z) (FormatFloat : float64 → string).

Lemma Get_holds (i : indexer C) h pod : pod ∈ indexer_Get h i ↔ holds (ix_hashToPods i) h pod.
Proof using Type. done. Qed.

Lemma makeserver_positive c ep : (0 < sv_NumOfGPUBlocks (makeserver c ep))%Z.
Proof using Type.
  unfold makeserver, defaultLRUCapacityPerServer. simpl. destruct (pc_AutoTune c && bool_decide (0 < mt_CacheNumBlocks (ep_Metrics ep))%Z) eqn:E; [|lia].
  apply andb_true_iff in E as [_ ?%bool_decide_eq_true]. done.
Qed.

Lemma makeserver_capacity (i : indexer C) c ep : index_ok i → (0 < capacity i (makeserver c ep))%Z.
Proof using Type.
  intros Hi. pose proof (makeserver_positive c ep). unfold capacity, lru_size.
  destruct (ix_podToLRU i !! sv_ServerID (makeserver c ep)) as [lru|] eqn:E; [destruct (io_lru _ Hi _ _ E); lia|].
  rewrite bool_decide_eq_false_2 by lia. done.
Qed.

Lemma add_servers_none hashes (l : list server) : foldl (add_server hashes) (None : option (indexer C)) l = None.
Proof using Type. by induction l. Qed.

(** Each of the endpoints that are added has all hashes afterwards. *)
Lemma add_servers_spec c hashes (eps : list Endpoint) : ∀ i, index_ok i →
  (∀ ep, ep ∈ eps → (Z.of_nat (length hashes) ≤ capacity i (makeserver c ep))%Z) →
  ∃ i', foldl (add_server hashes) (Some i) (makeserver c <$> eps) = Some i' ∧ index_ok i' ∧
    ∀ q, (∃ ep, ep ∈ eps ∧ server_id ep = q) ∨ (∀ h, h ∈ hashes → holds (ix_hashToPods i) h q) →
      ∀ h, h ∈ hashes → holds (ix_hashToPods i') h q.
Proof using Type*.
  induction eps as [|ep eps IH]; intros i Hi Hfit; cbn [fmap list_fmap foldl].
  - exists i. split; [done|]. split; [done|]. intros q [(ep & []%elem_of_nil & _)|Hq]; done.
  - assert (ep ∈ ep :: eps) as Hin by by apply elem_of_cons; left.
    destruct (index_Add_spec hashes (makeserver c ep) i Hi) as (i1 & Hadd & Hi1 & Hcap & Hnew & Hold); [by apply makeserver_capacity|by apply Hfit|].
    unfold add_server at 2. simpl. rewrite Hadd. destruct (IH i1 Hi1) as (i2 & H2 & Hi2 & Hall).
    { intros ep' Hep'. rewrite Hcap. case_decide; apply Hfit; [done|by apply elem_of_cons; right]. }
    exists i2. split; [done|]. split; [done|]. intros q Hq. apply Hall.
    destruct (decide (q = server_id ep)) as [->|Hne]; [by right|].
    destruct Hq as [(ep' & [->|Hep']%elem_of_cons & <-)|Hq]; [done|left; by exists ep'|]. right. intros h Hh. apply Hold; auto.
Qed.

(** The endpoints whose servers [PreRequest] adds. *)
Definition recorded_endpoints (result : SchedulingResult) (target : Endpoint) : list Endpoint :=
  target :: match sr_ProfileResults result !! experimentalDefaultPrefillProfile with Some (Some (ep :: _)) => [ep] | _ => [] end.

Lemma PreRequest_after (now now' : Z) request result target rest p hashes servers st :
  index_ok (pd_indexer p) → sr_ProfileResults result !! sr_PrimaryProfileName result = Some (Some (target :: rest)) →
  sr_ProfileResults result !! experimentalDefaultPrefillProfile ≠ Some None →
  (∀ ep, ep ∈ recorded_endpoints result target → (Z.of_nat (length hashes) ≤ capacity (pd_indexer p) (makeserver (pd_config p) ep))%Z) →
  pd_state p = PluginState_Write now (ir_RequestId request) ApproxPrefixCachePluginType (mkContextState hashes servers) st →
  ∃ p', PreRequest now' request result p = Some p' ∧ pd_config p' = pd_config p ∧ index_ok (pd_indexer p') ∧
    ps_storage (pd_state p') !! ir_RequestId request = None ∧
    ∀ ep h, ep ∈ recorded_endpoints result target → h ∈ hashes → server_id ep ∈ indexer_Get h (pd_indexer p').
Proof using Type*.
  intros Hi Hprimary Hprefill Hfit Hst. unfold PreRequest. rewrite Hprimary.
  destruct (add_servers_spec (pd_config p) hashes (recorded_endpoints result target) (pd_indexer p) Hi Hfit) as (i' & Hadd & Hi' & Hall).
  assert (match sr_ProfileResults result !! experimentalDefaultPrefillProfile with
    | Some (Some (ep :: _)) => Some [makeserver (pd_config p) ep] | Some (Some []) | None => Some [] | Some None => None end
    = Some (tail (makeserver (pd_config p) <$> recorded_endpoints result target))) as ->.
  { unfold recorded_endpoints. by destruct (sr_ProfileResults result !! experimentalDefaultPrefillProfile) as [[[|ep ?]|]|]. }
  cbn [mbind option_bind]. rewrite Hst. unfold PluginState_Read, PluginState_Write. cbn [ps_storage]. rewrite lookup_insert_eq. cbn [mbind option_bind].
  rewrite lookup_insert_eq. cbn [cs_PrefixHashes]. change (makeserver (pd_config p) target :: tail (makeserver (pd_config p) <$> recorded_endpoints result target)) with (makeserver (pd_config p) <$> recorded_endpoints result target).
  rewrite Hadd. eexists. split; [reflexivity|]. split; [done|]. split; [done|]. split; [apply lookup_delete_eq|].
  intros ep h Hep Hh. apply Get_holds. apply Hall; [|done]. left. by exists ep.
Qed.

Lemma prefix_info_get servers total bs ep : ep_Attributes (with_prefix_info servers total bs ep) !! PrefixCacheMatchInfoKey =
  Some (APrefix (mkPrefixInfo (default 0 (servers !! server_id ep))%Z total bs)).
Proof using Type. apply lookup_insert_eq. Qed.

End round_trip.

(** ** Clean-up *)

Section clean_up.
Context {C : Type} `{!LruCache C Z} `{!LruCacheLaws C Z}.

Lemma remove_pods_spec (podList : list ServerID) (l : list ServerID) : ∀ i : indexer C, index_ok i →
  let i' := foldl (λ i pod, if bool_decide (pod ∈ podList) then i else indexer_RemovePod pod i) i l in
  index_ok i' ∧ ∀ h q, holds (ix_hashToPods i') h q ↔ holds (ix_hashToPods i) h q ∧ (q ∈ l → q ∈ podList).
Proof using Type.
  induction l as [|pod l IH]; intros i Hi; cbn [foldl].
  - split; [done|]. intros h q. split; [intros ?; split; [done|by intros []%elem_of_nil]|by intros [? _]].
  - case_bool_decide as Hpod.
    + destruct (IH i Hi) as [Hok Hh]. split; [done|]. intros h q. rewrite Hh, elem_of_cons. split; [|naive_solver].
      intros [H1 H2]. split; [done|]. intros [->|?]; auto.
    + destruct (RemovePod_spec pod i Hi) as (Hi' & _ & Hrem). destruct (IH _ Hi') as [Hok Hh]. split; [done|].
      intros h q. rewrite Hh, Hrem, elem_of_cons. split.
      * intros [[H1 H2] H3]. split; [done|]. intros [->|?]; [done|auto].
      * intros [H1 H2]. split; [split; [done|]; intros ->; auto|auto].
Qed.

(** A tick removes from the index exactly the blocks of the pods that are not listed. *)
Lemma inactive_pods_removed order podList (p : prepareData C) : index_ok (pd_indexer p) →
  let p' := CleanUpInactivePods order podList p in
  index_ok (pd_indexer p') ∧
  ∀ h q, q ∈ indexer_Get h (pd_indexer p') ↔ q ∈ indexer_Get h (pd_indexer p) ∧ q ∈ podList.
Proof using Type.
  intros Hi. unfold CleanUpInactivePods. cbn [pd_indexer].
  destruct (remove_pods_spec podList (indexer_Pods order (pd_indexer p)) (pd_indexer p) Hi) as [Hok Hh]. split; [done|].
  intros h q. rewrite !Get_holds, Hh. split; [|naive_solver]. intros [Hq Hl]. split; [done|]. apply Hl.
  apply (io_agree _ Hi) in Hq as (c & Hc & _). unfold indexer_Pods. rewrite shuffle_perm. apply list_elem_of_fmap.
  exists (q, c). split; [done|]. by apply elem_of_map_to_list.
Qed.
End clean_up.

(** *** State of requests *)

Section plugin_state_proofs.
Context {V : Type}.
Implicit Types s : PluginState V.

Lemma Read_Write now now' id key v s : (PluginState_Read now' id key (PluginState_Write now id key v s)).1 = Some v.
Proof using Type. unfold PluginState_Read, PluginState_Write. simpl. by rewrite lookup_insert_eq; simpl; rewrite lookup_insert_eq. Qed.

Lemma Read_Write_other now now' id id' key key' v s : id' ≠ id ∨ key' ≠ key →
  (PluginState_Read now' id' key' (PluginState_Write now id key v s)).1 = (PluginState_Read now' id' key' s).1.
Proof using Type.
  unfold PluginState_Read, PluginState_Write. simpl. intros Hne. destruct (decide (id' = id)) as [->|Hid]; [|by rewrite lookup_insert_ne].
  rewrite lookup_insert_eq. simpl. rewrite lookup_insert_ne by naive_solver. by destruct (ps_storage s !! id); simpl; [|rewrite lookup_empty].
Qed.

(** A cleaning round drops the requests that were not used within the threshold, and no other. *)
Lemma clean_fold now (l : list (string * Z)) : ∀ s,
  let s' := foldl (λ s kv, if bool_decide (stalenessThreshold < now - kv.2)%Z then PluginState_Delete kv.1 s else s) s l in
  ∀ id, let stale := ∃ t, (id, t) ∈ l ∧ (stalenessThreshold < now - t)%Z in
    (stale → ps_storage s' !! id = None ∧ ps_lastAccess s' !! id = None) ∧
    (¬ stale → ps_storage s' !! id = ps_storage s !! id ∧ ps_lastAccess s' !! id = ps_lastAccess s !! id).
Proof using Type.
  induction l as [|[k t] l IH] using rev_ind; intros s s' id stale.
  - split; [intros (t & []%elem_of_nil & _)|done].
  - unfold s', stale. rewrite foldl_snoc. cbn [fst snd]. destruct (IH s id) as [H1 H2]. case_bool_decide as Ht.
    + unfold PluginState_Delete. cbn [ps_storage ps_lastAccess]. destruct (decide (id = k)) as [->|Hne].
      * rewrite !lookup_delete_eq. split; [done|]. intros Hn. exfalso. apply Hn. exists t. split; [|done]. apply elem_of_app. right. by apply list_elem_of_singleton.
      * rewrite !lookup_delete_ne by done. split; intros Hs; [apply H1|apply H2].
        -- destruct Hs as (t' & [?|[= -> ->]%list_elem_of_singleton]%elem_of_app & ?); [by exists t'|done].
        -- intros (t' & ? & ?). apply Hs. exists t'. rewrite elem_of_app. auto.
    + split; intros Hs; [apply H1|apply H2].
      * destruct Hs as (t' & [?|[= -> ->]%list_elem_of_singleton]%elem_of_app & ?); [by exists t'|done].
      * intros (t' & ? & ?). apply Hs. exists t'. rewrite elem_of_app. auto.
Qed.

Lemma stale_requests_dropped order now s id t : ps_lastAccess s !! id = Some t →
  let s' := cleanStaleRequests order now s in
  if bool_decide (stalenessThreshold < now - t)%Z then ps_storage s' !! id = None ∧ ps_lastAccess s' !! id = None
  else ps_storage s' !! id = ps_storage s !! id ∧ ps_lastAccess s' !! id = Some t.
Proof using Type.
  intros Ht s'. destruct (clean_fold now (shuffle order (map_to_list (ps_lastAccess s))) s id) as [H1 H2].
  case_bool_decide as Hs; [apply H1|rewrite <- Ht; apply H2].
  - exists t. split; [|done]. rewrite shuffle_perm. by apply elem_of_map_to_list.
  - intros (t' & Hin & Ht'). rewrite shuffle_perm in Hin. apply elem_of_map_to_list in Hin. congruence.
Qed.
End plugin_state_proofs.

(** ** Examples *)

(** A cache as a list of its keys. *)
Record list_lru := mkListLru { ll_keys : list Z; ll_size : nat }.

#[export] Instance list_lru_cache : LruCache list_lru Z := {
  lru_New n := mkListLru [] n;
  lru_Add k c :=
    let l := filter (λ x, x ≠ k) (ll_keys c) ++ [k] in
    if bool_decide (ll_size c < length l) then (head l, mkListLru (tail l) (ll_size c)) else (None, mkListLru l (ll_size c));
  lru_Remove k c := mkListLru (filter (λ x, x ≠ k) (ll_keys c)) (ll_size c);
  lru_Keys := ll_keys;
  lru_Size := ll_size
}.

#[export] Instance list_lru_laws : LruCacheLaws list_lru Z.
Proof.
  split; try done.
  - intros k c. cbn [lru_Keys lru_Add lru_Size list_lru_cache]. case_bool_decide as Hlt; [|split; [simpl; lia|done]].
    destruct (filter (λ x, x ≠ k) (ll_keys c) ++ [k]) as [|old l] eqn:Hl; [by destruct (filter _ _)|]. done.
  - intros k c. cbn. by case_bool_decide.
Qed.

(** A polynomial hash. *)
Definition sample_Sum64 (l : list ascii) : Z := foldl (λ h c, ((h * 131 + Z.of_N (N_of_ascii c) + 1) mod Int.two64)%Z) 7%Z l.

Lemma sample_Sum64_range l : (0 ≤ sample_Sum64 l < Int.two64)%Z.
Proof.
  unfold sample_Sum64. assert (0 ≤ 7 < Int.two64)%Z as H7 by (unfold Int.two64; lia). revert H7. generalize 7%Z.
  induction l as [|c l IH]; intros h Hh; cbn [foldl]; [done|]. apply IH. apply Z.mod_pos_bound. done.
Qed.

Definition completion (id model text : string) : InferenceRequest :=
  mkInferenceRequest id model (Some (mkBody (Some (mkCompletions (mkPrompt text [] []) "")) None None None None None false)) ∅ 0 0.

Definition completion_body (text : string) : InferenceRequestBody :=
  mkBody (Some (mkCompletions (mkPrompt text [] []) "")) None None None None None false.

(** Two prompts that differ in the third block of four characters. *)
Definition fox_prompt : string := "the quick brown fox".
Definition dog_prompt : string := "the quicker dog".

Definition fox_hashes : list Z := Eval vm_compute in default [] (hashPrompt sample_Sum64 (λ _, "") (completion "r1" "m" fox_prompt) 1 256).
Definition dog_hashes : list Z := Eval vm_compute in default [] (hashPrompt sample_Sum64 (λ _, "") (completion "r2" "m" dog_prompt) 1 256).

Definition collision_free (Sum64 : list ascii → Z) (l1 l2 : list (list ascii)) : bool :=
  forallb (λ x, forallb (λ y, implb (Sum64 x =? Sum64 y)%Z (bool_decide (x = y))) l2) l1.

Lemma collision_free_spec Sum64 l1 l2 : collision_free Sum64 l1 l2 = true → ∀ x y, x ∈ l1 → y ∈ l2 → Sum64 x = Sum64 y → x = y.
Proof.
  unfold collision_free. rewrite forallb_forall. intros Hall x y Hx Hy Heq. specialize (Hall x (proj1 (list_elem_of_In _ _) Hx)).
  rewrite forallb_forall in Hall. specialize (Hall y (proj1 (list_elem_of_In _ _) Hy)). rewrite Heq, Z.eqb_refl in Hall.
  by apply bool_decide_eq_true in Hall.
Qed.


Definition small_config : prefix_config := mkPrefixConfig false 1 0 256 0 100.
Definition small_plugin : prepareData list_lru := mkPrepareData small_config (newIndexer 100) NewPluginState.
Definition first_prepared : option (list Endpoint * prepareData list_lru) :=
  PrepareRequestData sample_Sum64 (λ _, "") 0 (completion "r1" "m" fox_prompt) [sample_endpoint 1 "a"; sample_endpoint 2 "b"] small_plugin.
Definition sent_to_a : SchedulingResult := mkSchedulingResult {[ "default"%string := Some [sample_endpoint 1 "a"] ]} "default".

Definition info_of (ep : Endpoint) : option Cloneable := ep_Attributes ep !! PrefixCacheMatchInfoKey.


Definition pod_a : ServerID := mkNamespacedName "default" "a".
Definition pod_b : ServerID := mkNamespacedName "default" "b".

(** Three blocks for a cache of two: the first one is evicted before it is entered in the map, where it
    stays when the pod is removed. *)
Lemma long_prompt_leaks :
  (λ i, bool_decide (pod_a ∈ indexer_Get 1 (indexer_RemovePod pod_a i))) <$> indexer_Add (C:=list_lru) [1; 2; 3]%Z (mkServer pod_a 2) (newIndexer 100) = Some true.
Proof. vm_compute. reflexivity. Qed.

(** A pod that has the first and the third block counts for two when another one has the second. *)
Lemma gap_counted :
  (λ i, matchLongestPrefix (C:=list_lru) i [1; 2; 3]%Z !! pod_a) <$>
    (indexer_Add [1; 3]%Z (mkServer pod_a 10) (newIndexer 100) ≫= indexer_Add [1; 2; 3]%Z (mkServer pod_b 10)) = Some (Some 2%Z).
Proof. vm_compute. reflexivity. Qed.

(** A negative limit of blocks is a valid configuration, with which every prompt that has a block panics. *)
Lemma negative_limit_panics : ∃ p : prepareData list_lru,
  newPrepareData (mkPrefixConfig false 1 0 (-1) 0 100) = inl p ∧
  PrepareRequestData sample_Sum64 (λ _, "") 0 (completion "r1" "m" fox_prompt) [] p = None.
Proof. eexists. split; [reflexivity|]. vm_compute. reflexivity. Qed.

(** Nothing separates the model from the salt in the hash the chain starts from. *)
Lemma model_and_salt_run_together Sum64 text rest :
  let salted salt := mkBody (Some (mkCompletions (mkPrompt text [] []) salt)) None None None None None false in
  model_hash Sum64 (mkInferenceRequest "r1" "llama-a" rest ∅ 0 0) (salted "b") =
  model_hash Sum64 (mkInferenceRequest "r2" "llama-ab" rest ∅ 0 0) (salted "").
Proof. reflexivity. Qed.

(** The configured capacity is never used: the size that is passed on is positive. *)
Lemma configured_capacity_unused {C} `{!LruCache C Z} (i : indexer C) c ep : lru_size i (makeserver c ep) = sv_NumOfGPUBlocks (makeserver c ep).
Proof. unfold lru_size. rewrite bool_decide_eq_false_2; [done|]. pose proof (makeserver_positive c ep). lia. Qed.
