(* ===== verification/JsonDecode.v ===== *)
(** * JSON decoding: [encoding/json]

    The decoder with which requests and responses are read, into decoded values: white space,
    literals, numbers with correctly rounded conversion, strings with all escapes, arrays and
    objects down to the nesting depth the decoder allows. Objects are lists of fields in the
    order of their names, as the encoder writes them, so that a map is its list. What [Json]
    encodes is decoded to the same value, with integers as floats. As there, bytes above 127 stand for themselves. *)

From stdpp Require Import prelude strings list pretty.
From Stdlib Require Import ZArith Ascii Lia SpecFloat Sorted.
From S2P Require Import Prelude Float64 SchedTypes Json.

(** ** Objects *)

Abbreviation JsonObject := (list (string * JSON)).

Fixpoint obj_lookup (k : string) (m : JsonObject) : option JSON :=
  match m with
  | [] => None
  | (k', v) :: m' => if bool_decide (k = k') then Some v else obj_lookup k m'
  end.

Fixpoint obj_insert (k : string) (v : JSON) (m : JsonObject) : JsonObject :=
  match m with
  | [] => [(k, v)]
  | (k', v') :: m' =>
      match String.compare k k' with
      | Eq => (k, v) :: m'
      | Lt => (k, v) :: m
      | Gt => (k', v') :: obj_insert k v m'
      end
  end.

Definition obj_delete (k : string) (m : JsonObject) : JsonObject := filter (λ f, f.1 ≠ k) m.

Definition key_lt (f g : string * JSON) : Prop := String.compare f.1 g.1 = Lt.
#[export] Instance key_lt_dec f g : Decision (key_lt f g).
Proof. unfold key_lt. apply _. Defined.

Definition obj_sorted (m : JsonObject) : Prop := StronglySorted key_lt m.

(** ** Decoding *)

Definition is_ws (c : ascii) : bool := bool_decide (nat_of_ascii c ∈ [32; 9; 10; 13]).

Fixpoint skip_ws (s : string) : string :=
  match s with
  | EmptyString => EmptyString
  | String c s' => if is_ws c then skip_ws s' else s
  end.

(** *** Strings *)

Definition hex_value (c : ascii) : option Z :=
  let n := Z.of_N (N_of_ascii c) in
  if bool_decide (48 ≤ n ≤ 57)%Z then Some (n - 48)%Z
  else if bool_decide (97 ≤ n ≤ 102)%Z then Some (n - 87)%Z
  else if bool_decide (65 ≤ n ≤ 70)%Z then Some (n - 55)%Z
  else None.

Definition hex4 (a b c d : ascii) : option Z :=
  a ← hex_value a; b ← hex_value b; c ← hex_value c; d ← hex_value d;
  Some (((a * 16 + b) * 16 + c) * 16 + d)%Z.

Definition byte (n : Z) : string := String (ascii_of_N (Z.to_N n)) "".

(** [utf8.EncodeRune]. *)
Definition utf8_encode (r : Z) : string :=
  (if bool_decide (r < 128) then byte r
   else if bool_decide (r < 2048) then byte (192 + r / 64) +:+ byte (128 + r mod 64)
   else if bool_decide (r < 65536) then byte (224 + r / 4096) +:+ byte (128 + (r / 64) mod 64) +:+ byte (128 + r mod 64)
   else byte (240 + r / 262144) +:+ byte (128 + (r / 4096) mod 64) +:+ byte (128 + (r / 64) mod 64) +:+ byte (128 + r mod 64))%Z.

Definition ReplacementChar : Z := 65533.
Definition IsSurrogate (r : Z) : bool := bool_decide (55296 ≤ r < 57344)%Z.

(** [utf16.DecodeRune] of two halves that belong together. *)
Definition DecodeRune (r1 r2 : Z) : option Z :=
  if bool_decide (55296 ≤ r1 < 56320 ∧ 56320 ≤ r2 < 57344)%Z then Some ((r1 - 55296) * 1024 + (r2 - 56320) + 65536)%Z else None.

Definition simple_escape (e : ascii) : option ascii :=
  if bool_decide (nat_of_ascii e ∈ [34; 92; 47]) then Some e
  else if bool_decide (e = "b"%char) then Some (ascii_of_nat 8)
  else if bool_decide (e = "f"%char) then Some (ascii_of_nat 12)
  else if bool_decide (e = "n"%char) then Some (ascii_of_nat 10)
  else if bool_decide (e = "r"%char) then Some (ascii_of_nat 13)
  else if bool_decide (e = "t"%char) then Some (ascii_of_nat 9)
  else None.

Definition prepend (t : string) (r : option (string * string)) : option (string * string) :=
  '(u, rest) ← r; Some (t +:+ u, rest).

(** The text up to the closing quote, and what follows it. *)
Fixpoint string_body (s : string) : option (string * string) :=
  match s with
  | EmptyString => None
  | String c s1 =>
      if bool_decide (nat_of_ascii c = 34) then Some (""%string, s1)
      else if bool_decide (nat_of_ascii c = 92) then
        match s1 with
        | EmptyString => None
        | String e s2 =>
            if bool_decide (e = "u"%char) then
              match s2 with
              | String h1 (String h2 (String h3 (String h4 s3))) =>
                  match hex4 h1 h2 h3 h4 with
                  | None => None
                  | Some r =>
                      if IsSurrogate r then
                        match s3 with
                        | String b (String u (String l1 (String l2 (String l3 (String l4 s4))))) =>
                            match (if bool_decide (nat_of_ascii b = 92 ∧ u = "u"%char) then hex4 l1 l2 l3 l4 else None) ≫= DecodeRune r with
                            | Some rr => prepend (utf8_encode rr) (string_body s4)
                            | None => prepend (utf8_encode ReplacementChar) (string_body s3)
                            end
                        | _ => prepend (utf8_encode ReplacementChar) (string_body s3)
                        end
                      else prepend (utf8_encode r) (string_body s3)
                  end
              | _ => None
              end
            else match simple_escape e with Some t => prepend (String t "") (string_body s2) | None => None end
        end
      else if bool_decide (nat_of_ascii c < 32) then None
      else prepend (String c "") (string_body s1)
  end.

(** *** Numbers *)

Definition digit (c : ascii) : option Z :=
  let n := Z.of_N (N_of_ascii c) in if bool_decide (48 ≤ n ≤ 57)%Z then Some (n - 48)%Z else None.

Fixpoint take_digits (s : string) : list Z * string :=
  match s with
  | EmptyString => ([], s)
  | String c s' => match digit c with Some d => let '(ds, rest) := take_digits s' in (d :: ds, rest) | None => ([], s) end
  end.

Definition digits_value (ds : list Z) : Z := foldl (λ n d, n * 10 + d)%Z 0%Z ds.

(** [strconv.ParseFloat] of the decimal [m * 10^k]: the nearest number, ties to even; a number
    that is too large is an error. The bounds keep the powers small. *)
Definition ParseFloat (neg : bool) (m : Z) (k : Z) (ndigits : nat) : option float64 :=
  if bool_decide (m = 0)%Z then Some (S754_zero neg)
  else
      let magnitude := (k + Z.of_nat ndigits)%Z in
      if bool_decide (400 < magnitude)%Z then None
      else if bool_decide (magnitude < -400)%Z then Some (S754_zero neg)
      else
        let r :=
          if bool_decide (0 ≤ k)%Z then of_int (if neg then - (m * 10 ^ k) else m * 10 ^ k)
          else
            let '(q, e, l) := SFdiv_core_binary 53 1024 m 0 (10 ^ (- k)) 0 in
            binary_round_aux 53 1024 neg q e l in
        match r with S754_infinity _ | S754_nan => None | _ => Some r end.

Definition some_digits (s : string) : option (list Z * string) :=
  match take_digits s with ([], _) => None | r => Some r end.

Definition number_sign (s : string) : bool * string :=
  match s with
  | String c s' => if bool_decide (c = "-"%char) then (true, s') else (false, s)
  | EmptyString => (false, s)
  end.

Definition integer_part (s : string) : option (list Z * string) :=
  match s with
  | String c s' => if bool_decide (c = "0"%char) then Some ([0%Z], s') else some_digits s
  | EmptyString => None
  end.

Definition fraction_part (s : string) : option (list Z * string) :=
  match s with
  | String c s' => if bool_decide (c = "."%char) then some_digits s' else Some ([], s)
  | EmptyString => Some ([], s)
  end.

Definition exponent_sign (s : string) : bool * string :=
  match s with
  | String c s' => if bool_decide (c = "-"%char) then (true, s') else if bool_decide (c = "+"%char) then (false, s') else (false, s)
  | EmptyString => (false, s)
  end.

Definition exponent_part (s : string) : option (Z * string) :=
  match s with
  | String c s' =>
      if bool_decide (c = "e"%char ∨ c = "E"%char) then
        let '(neg, s'') := exponent_sign s' in
        '(ds, rest) ← some_digits s'';
        Some ((if neg then - digits_value ds else digits_value ds)%Z, rest)
      else Some (0%Z, s)
  | EmptyString => Some (0%Z, s)
  end.

Definition number (s : string) : option (float64 * string) :=
  let '(neg, s1) := number_sign s in
  '(int, s2) ← integer_part s1;
  '(frac, s3) ← fraction_part s2;
  '(exp, rest) ← exponent_part s3;
  f ← ParseFloat neg (digits_value (int ++ frac)) (exp - Z.of_nat (length frac)) (length (int ++ frac));
  Some (f, rest).

(** *** Values *)

Definition maxNestingDepth : nat := Z.to_nat 10000.

Fixpoint strip_prefix (p s : string) : option string :=
  match p, s with
  | EmptyString, _ => Some s
  | String a p', String b s' => if bool_decide (a = b) then strip_prefix p' s' else None
  | String _ _, EmptyString => None
  end.

Definition first_is (c : ascii) (s : string) : option string := strip_prefix (String c "") s.

Definition literal (s : string) : option (JSON * string) :=
  match strip_prefix "null" s with
  | Some rest => Some (JNull, rest)
  | None =>
      match strip_prefix "true" s with
      | Some rest => Some (JBool true, rest)
      | None => rest ← strip_prefix "false" s; Some (JBool false, rest)
      end
  end.

Definition scalar (s : string) : option (JSON * string) :=
  match first_is (ascii_of_nat 34) s with
  | Some s1 => '(t, rest) ← string_body s1; Some (JString t, rest)
  | None => match literal s with Some r => Some r | None => '(f, rest) ← number s; Some (JNumber f, rest) end
  end.

(** A value and what follows it; [depth] levels of arrays and objects may still be opened. *)
Fixpoint value (fuel depth : nat) (s : string) : option (JSON * string) :=
  match fuel with
  | O => None
  | S fuel' =>
      let s := skip_ws s in
      match first_is "{"%char s, first_is "["%char s, depth with
      | Some s1, _, S depth' =>
          match first_is "}"%char (skip_ws s1) with
          | Some rest => Some (JObject [], rest)
          | None => members fuel' depth' [] s1
          end
      | None, Some s1, S depth' =>
          match first_is "]"%char (skip_ws s1) with
          | Some rest => Some (JArray [], rest)
          | None => elements fuel' depth' [] s1
          end
      | None, None, _ => scalar s
      | _, _, O => None
      end
  end
with members (fuel depth : nat) (acc : JsonObject) (s : string) : option (JSON * string) :=
  match fuel with
  | O => None
  | S fuel' =>
      s1 ← first_is (ascii_of_nat 34) (skip_ws s);
      '(k, s2) ← string_body s1;
      s3 ← first_is ":"%char (skip_ws s2);
      '(v, s4) ← value fuel' depth s3;
      let acc := obj_insert k v acc in
      match first_is ","%char (skip_ws s4) with
      | Some s5 => members fuel' depth acc s5
      | None => rest ← first_is "}"%char (skip_ws s4); Some (JObject acc, rest)
      end
  end
with elements (fuel depth : nat) (acc : list JSON) (s : string) : option (JSON * string) :=
  match fuel with
  | O => None
  | S fuel' =>
      '(v, s1) ← value fuel' depth s;
      let acc := acc ++ [v] in
      match first_is ","%char (skip_ws s1) with
      | Some s2 => elements fuel' depth acc s2
      | None => rest ← first_is "]"%char (skip_ws s1); Some (JArray acc, rest)
      end
  end.

(** [json.Unmarshal] into a variable of type [any]. *)
Definition Unmarshal (s : string) : option JSON :=
  '(j, rest) ← value (S (String.length s)) maxNestingDepth s;
  if bool_decide (skip_ws rest = ""%string) then Some j else None.

(** [json.Unmarshal] into a variable of type [map[string]any]; the outer [None] is an error and
    the inner one the nil map, which [null] leaves. *)
Definition UnmarshalMap (s : string) : option (option JsonObject) :=
  match Unmarshal s with
  | Some (JObject m) => Some (Some m)
  | Some JNull => Some None
  | _ => None
  end.

(** ** What is encoded is decoded *)

Lemma app_cons c (s t : string) : String c s +:+ t = String c (s +:+ t).
Proof. done. Qed.

Lemma app_empty (s : string) : "" +:+ s = s.
Proof. done. Qed.

Lemma app_assoc_string (a b c : string) : (a +:+ b) +:+ c = a +:+ (b +:+ c).
Proof. induction a as [|x a IH]; [done|]. rewrite !app_cons. by rewrite IH. Qed.

Lemma app_empty_r (s : string) : s +:+ "" = s.
Proof. induction s as [|c s IH]; [done|]. by rewrite app_cons, IH. Qed.

Ltac all_chars c := destruct c as [[] [] [] [] [] [] [] []].

Lemma escape_char_decodes c t : string_body (escape_char c +:+ t) = prepend (String c "") (string_body t).
Proof. all_chars c; reflexivity. Qed.

Lemma string_body_escape s rest : string_body (escape s +:+ (dquote +:+ rest)) = Some (s, rest).
Proof.
  induction s as [|c s IH]; [done|]. cbn [escape]. rewrite app_assoc_string, escape_char_decodes, IH. done.
Qed.

(** *** Numbers end where the value ends *)

Definition stops (s : string) : bool :=
  match s with EmptyString => true | String c _ => bool_decide (c ∈ [","%char; "]"%char; "}"%char]) end.

Lemma stops_char c s : stops (String c s) = true →
  digit c = None ∧ c ≠ "0"%char ∧ c ≠ "."%char ∧ c ≠ "e"%char ∧ c ≠ "E"%char ∧ c ≠ "-"%char ∧ c ≠ "+"%char.
Proof.
  intros Hc%bool_decide_eq_true. repeat (apply elem_of_cons in Hc as [->|Hc]; [by repeat split|]). by apply elem_of_nil in Hc.
Qed.

Lemma take_digits_app t rest : stops rest = true →
  take_digits (t +:+ rest) = ((take_digits t).1, (take_digits t).2 +:+ rest).
Proof.
  intros Hs. induction t as [|c t IH].
  - destruct rest as [|c rest]; [done|]. apply stops_char in Hs as (Hd & _). rewrite !app_empty. cbn [take_digits fst snd]. by rewrite Hd.
  - rewrite app_cons. cbn [take_digits]. destruct (digit c); [|done]. rewrite IH. by destruct (take_digits t).
Qed.

Lemma some_digits_app t d r rest : stops rest = true → some_digits t = Some (d, r) → some_digits (t +:+ rest) = Some (d, r +:+ rest).
Proof.
  intros Hs. unfold some_digits. rewrite take_digits_app by done. destruct (take_digits t) as [[|d' ds] r']; [done|]. simpl. congruence.
Qed.

Lemma exponent_part_app t e r rest : stops rest = true → exponent_part t = Some (e, r) → exponent_part (t +:+ rest) = Some (e, r +:+ rest).
Proof.
  intros Hs. destruct t as [|c t].
  - intros [= <- <-]. rewrite !app_empty. destruct rest as [|c rest]; [done|]. apply stops_char in Hs as (_ & _ & _ & H1 & H2 & _).
    cbn [exponent_part]. rewrite bool_decide_eq_false_2; [done|]. naive_solver.
  - rewrite app_cons. cbn [exponent_part]. case_bool_decide; [|by intros [= <- <-]].
    assert (some_digits (exponent_sign t).2 = None ∨ exponent_sign (t +:+ rest) = ((exponent_sign t).1, (exponent_sign t).2 +:+ rest)) as [Hn|He].
    { destruct t as [|c' t]; [by left|]. right. rewrite app_cons. cbn [exponent_sign]. by repeat case_bool_decide. }
    { destruct (exponent_sign t). simpl in Hn. by rewrite Hn. }
    rewrite He. destruct (exponent_sign t) as [neg t']. simpl. destruct (some_digits t') as [[ds r']|] eqn:Hd; [|done].
    intros [= <- <-]. by rewrite (some_digits_app _ _ _ _ Hs Hd).
Qed.

Lemma fraction_part_app t d r rest : stops rest = true → fraction_part t = Some (d, r) → fraction_part (t +:+ rest) = Some (d, r +:+ rest).
Proof.
  intros Hs. destruct t as [|c t].
  - intros [= <- <-]. rewrite !app_empty. destruct rest as [|c rest]; [done|]. apply stops_char in Hs as (_ & _ & H1 & _).
    cbn [fraction_part]. by rewrite bool_decide_eq_false_2.
  - rewrite app_cons. cbn [fraction_part]. case_bool_decide; [by apply some_digits_app|by intros [= <- <-]].
Qed.

Lemma integer_part_app t d r rest : stops rest = true → integer_part t = Some (d, r) → integer_part (t +:+ rest) = Some (d, r +:+ rest).
Proof.
  intros Hs. destruct t as [|c t]; [done|]. rewrite app_cons. cbn [integer_part]. case_bool_decide; [by intros [= <- <-]|].
  rewrite <- app_cons. by apply some_digits_app.
Qed.

Lemma number_app t f r rest : stops rest = true → number t = Some (f, r) → number (t +:+ rest) = Some (f, r +:+ rest).
Proof.
  intros Hs. unfold number. destruct t as [|c t]; [done|].
  assert (number_sign (String c t +:+ rest) = ((number_sign (String c t)).1, (number_sign (String c t)).2 +:+ rest)) as ->
    by (rewrite app_cons; cbn [number_sign]; by case_bool_decide).
  destruct (number_sign (String c t)) as [neg s1]. simpl.
  destruct (integer_part s1) as [[int s2]|] eqn:H1; [|done]. rewrite (integer_part_app _ _ _ _ Hs H1). simpl.
  destruct (fraction_part s2) as [[frac s3]|] eqn:H2; [|done]. rewrite (fraction_part_app _ _ _ _ Hs H2). simpl.
  destruct (exponent_part s3) as [[e s4]|] eqn:H3; [|done]. rewrite (exponent_part_app _ _ _ _ Hs H3). simpl.
  destruct (ParseFloat _ _ _ _); [|done]. simpl. by intros [= -> ->].
Qed.

Definition num_start (c : ascii) : bool := bool_decide (c = "-"%char) || bool_decide (is_Some (digit c)).

Lemma number_start t x : number t = Some x → ∃ c s, t = String c s ∧ num_start c = true.
Proof.
  unfold number, num_start. destruct t as [|c t]; [done|]. intros H. exists c, t. split; [done|]. revert H. cbn [number_sign].
  case_bool_decide; [done|]. cbn [integer_part mbind option_bind]. case_bool_decide as Hz; [subst c; done|]. unfold some_digits. cbn [take_digits].
  destruct (digit c); [|done]. intros _. by rewrite bool_decide_eq_true_2.
Qed.

(** A property of all numbers, integers and objects in a value. *)
Fixpoint json_all (N : float64 → Prop) (I : Z → Prop) (O : JsonObject → Prop) (j : JSON) : Prop :=
  match j with
  | JNumber f => N f
  | JInt z => I z
  | JArray l => (fix go (l : list JSON) := match l with [] => True | j :: l' => json_all N I O j ∧ go l' end) l
  | JObject m => O m ∧ (fix go (l : JsonObject) := match l with [] => True | (_, j) :: l' => json_all N I O j ∧ go l' end) m
  | _ => True
  end.

Lemma all_array N I O l : json_all N I O (JArray l) ↔ Forall (json_all N I O) l.
Proof. simpl. induction l as [|j l IH]; [by rewrite Forall_nil|]. rewrite Forall_cons. naive_solver. Qed.

Lemma all_object N I O m : json_all N I O (JObject m) ↔ O m ∧ Forall (json_all N I O) m.*2.
Proof.
  simpl. f_equiv. induction m as [|[k j] m IH]; cbn [fmap list_fmap snd]; [by rewrite Forall_nil|]. rewrite Forall_cons. naive_solver.
Qed.

Section induction.
Context (P : JSON → Prop) (Hnull : P JNull) (Hbool : ∀ b, P (JBool b)) (Hnumber : ∀ f, P (JNumber f)) (Hint : ∀ z, P (JInt z)) (Hstring : ∀ s, P (JString s))
  (Harray : ∀ l, Forall P l → P (JArray l)) (Hobject : ∀ m, Forall P m.*2 → P (JObject m)).

Fixpoint json_ind (j : JSON) : P j :=
  match j with
  | JNull => Hnull
  | JBool b => Hbool b
  | JNumber f => Hnumber f
  | JInt z => Hint z
  | JString s => Hstring s
  | JArray l => Harray l ((fix go (l : list JSON) : Forall P l := match l with [] => List.Forall_nil P | j :: l' => List.Forall_cons P j l' (json_ind j) (go l') end) l)
  | JObject m => Hobject m ((fix go (l : JsonObject) : Forall P l.*2 :=
                  match l with [] => List.Forall_nil P | (k, j) :: l' => List.Forall_cons P j l'.*2 (json_ind j) (go l') end) m)
  end.
End induction.

Lemma json_all_and N I O N' I' O' j : json_all N I O j → json_all N' I' O' j → json_all (λ f, N f ∧ N' f) (λ z, I z ∧ I' z) (λ m, O m ∧ O' m) j.
Proof.
  induction j as [| | | | |l IH|m IH] using json_ind; try done.
  - rewrite !all_array. intros H1 H2. apply Forall_forall. intros j Hj. rewrite Forall_forall in *. auto.
  - rewrite !all_object. intros [? H1] [? H2]. split; [done|]. apply Forall_forall. intros j Hj. rewrite Forall_forall in *. auto.
Qed.

Lemma json_all_impl (N N' : float64 → Prop) (I I' : Z → Prop) (O O' : JsonObject → Prop) j :
  (∀ f, N f → N' f) → (∀ z, I z → I' z) → (∀ m, O m → O' m) → json_all N I O j → json_all N' I' O' j.
Proof.
  intros HN HI HO. induction j as [| |f|z| |l IH|m IH] using json_ind; try done; [apply HN|apply HI|..].
  - rewrite !all_array, !Forall_forall in *. auto.
  - rewrite !all_object, !Forall_forall in *. naive_solver.
Qed.

(** A value as it is decoded. *)
Fixpoint decoded (j : JSON) : JSON :=
  match j with
  | JInt z => JNumber (of_int z)
  | JArray l => JArray ((fix go (l : list JSON) := match l with [] => [] | j :: l' => decoded j :: go l' end) l)
  | JObject m => JObject ((fix go (l : JsonObject) := match l with [] => [] | (k, j) :: l' => (k, decoded j) :: go l' end) m)
  | _ => j
  end.

Definition decoded_fields (m : JsonObject) : JsonObject := (λ f, (f.1, decoded f.2)) <$> m.

Lemma decoded_array l : decoded (JArray l) = JArray (decoded <$> l).
Proof. reflexivity. Qed.

Lemma decoded_object m : decoded (JObject m) = JObject (decoded_fields m).
Proof. simpl. f_equal. induction m as [|[k j] m IH]; [done|]. cbn. by rewrite IH. Qed.

Lemma decoded_same N O j : json_all N (λ _, False) O j → decoded j = j.
Proof.
  induction j as [| | | | |l IH|m IH] using json_ind; try done.
  - rewrite all_array, decoded_array. intros Hl. f_equal. rewrite <- list_fmap_id. apply list_fmap_ext. intros i j Hj. simpl.
    apply list_elem_of_lookup_2 in Hj. rewrite Forall_forall in IH, Hl. auto.
  - rewrite all_object, decoded_object. intros [_ Hm]. f_equal. unfold decoded_fields. rewrite <- list_fmap_id. apply list_fmap_ext.
    intros i [k j] Hj. simpl. f_equal. apply list_elem_of_lookup_2 in Hj. rewrite Forall_fmap, Forall_forall in IH, Hm. by apply (IH (k, j)), (Hm (k, j)).
Qed.

Lemma obj_lookup_decoded k m : obj_lookup k (decoded_fields m) = decoded <$> obj_lookup k m.
Proof.
  induction m as [|[k' j] m IH]; [done|]. cbn [decoded_fields fmap list_fmap obj_lookup fst snd]. case_bool_decide; [done|]. exact IH.
Qed.

Section roundtrip.
Context (FormatFloat : float64 → string).

#[local] Abbreviation Marshal := (JSON_Marshal FormatFloat).
Definition field_text (f : string * JSON) : string := MarshalString f.1 +:+ ":" +:+ Marshal f.2.

(** The values the decoder gives: the text of each number is one of that number, and the fields
    of an object are in order. *)
Definition number_ok (f : float64) : Prop := number (FormatFloat f) = Some (f, ""%string).
Definition int_ok (z : Z) : Prop := number (pretty z) = Some (of_int z, ""%string).
Definition json_wf : JSON → Prop := json_all number_ok int_ok obj_sorted.
(** The same for objects in any order. *)
Definition text_ok : JSON → Prop := json_all number_ok int_ok (λ _, True).

Lemma wf_text_ok j : json_wf j → text_ok j.
Proof using Type. by apply json_all_impl. Qed.

Fixpoint json_size (j : JSON) : nat :=
  match j with
  | JArray l => S ((fix go (l : list JSON) := match l with [] => 0 | j :: l' => S (json_size j + go l') end) l)
  | JObject m => S ((fix go (l : JsonObject) := match l with [] => 0 | (_, j) :: l' => S (json_size j + go l') end) m)
  | _ => 1
  end.

Fixpoint json_depth (j : JSON) : nat :=
  match j with
  | JArray l => S ((fix go (l : list JSON) := match l with [] => 0 | j :: l' => json_depth j `max` go l' end) l)
  | JObject m => S ((fix go (l : JsonObject) := match l with [] => 0 | (_, j) :: l' => json_depth j `max` go l' end) m)
  | _ => 0
  end.

Definition elements_size (l : list JSON) : nat := foldr (λ j n, S (json_size j + n)) 0 l.

Lemma wf_array l : json_wf (JArray l) ↔ Forall json_wf l.
Proof using Type. apply all_array. Qed.

Lemma wf_object m : json_wf (JObject m) ↔ obj_sorted m ∧ Forall json_wf m.*2.
Proof using Type. apply all_object. Qed.

Lemma size_array l : json_size (JArray l) = S (elements_size l).
Proof using Type. done. Qed.

Lemma size_object m : json_size (JObject m) = S (elements_size m.*2).
Proof using Type. simpl. f_equal. induction m as [|[k j] m IH]; [done|]. cbn [fmap list_fmap snd elements_size foldr]. do 2 f_equal. exact IH. Qed.

Lemma depth_array l depth : json_depth (JArray l) ≤ S depth ↔ Forall (λ j, json_depth j ≤ depth) l.
Proof using Type.
  simpl. rewrite <- Nat.succ_le_mono. induction l as [|j l IH]; [rewrite Forall_nil; split; [done|lia]|]. rewrite Forall_cons, <- IH. lia.
Qed.

Lemma depth_object m depth : json_depth (JObject m) ≤ S depth ↔ Forall (λ j, json_depth j ≤ depth) m.*2.
Proof using Type.
  simpl. rewrite <- Nat.succ_le_mono. induction m as [|[k j] m IH]; cbn [fmap list_fmap snd]; [rewrite Forall_nil; split; [done|lia]|]. rewrite Forall_cons, <- IH. lia.
Qed.

Lemma marshal_array l : Marshal (JArray l) = "[" +:+ strings_Join (Marshal <$> l) "," +:+ "]".
Proof using Type. cbn [JSON_Marshal]. unfold json_array. reflexivity. Qed.

Lemma marshal_object m : Marshal (JObject m) = "{" +:+ strings_Join (field_text <$> m) "," +:+ "}".
Proof using Type.
  cbn [JSON_Marshal]. unfold json_object. do 3 f_equal. induction m as [|[k j] m IH]; [done|]. cbn [fmap list_fmap omap list_omap always]. by rewrite <- IH.
Qed.

Lemma join_cons s l sep : l ≠ [] → strings_Join (s :: l) sep = s +:+ (sep +:+ strings_Join l sep).
Proof using Type. by destruct l. Qed.

(** What a value starts with. *)
Definition opens (s : string) : Prop := ∃ c s', s = String c s' ∧ is_ws c = false ∧ c ≠ "]"%char ∧ c ≠ "}"%char.

Lemma num_start_char c : num_start c = true →
  is_ws c = false ∧ c ≠ "]"%char ∧ c ≠ "}"%char ∧ c ≠ "{"%char ∧ c ≠ "["%char ∧ c ≠ ascii_of_nat 34 ∧ c ≠ "n"%char ∧ c ≠ "t"%char ∧ c ≠ "f"%char.
Proof using Type. all_chars c; try discriminate; intros _; repeat split; discriminate. Qed.

Lemma marshal_opens j : text_ok j → opens (Marshal j).
Proof using Type.
  destruct j as [|[]|f|z|s|l|m]; try (intros _; eexists _, _; split; [reflexivity|done]).
  all: intros Hf; apply number_start in Hf as (c & s & Ht & Hc); exists c, s; (split; [done|]); apply num_start_char in Hc; naive_solver.
Qed.

Lemma opens_skip s rest : opens s → skip_ws (s +:+ rest) = s +:+ rest.
Proof using Type. intros (c & s' & -> & Hc & _). rewrite app_cons. cbn [skip_ws]. by rewrite Hc. Qed.

Lemma opens_not_closed s rest : opens s → first_is "]"%char (s +:+ rest) = None ∧ first_is "}"%char (s +:+ rest) = None.
Proof using Type.
  intros (c & s' & -> & _ & H1 & H2). rewrite app_cons. unfold first_is. cbn [strip_prefix]. split; by rewrite bool_decide_eq_false_2 by congruence.
Qed.

Lemma join_opens s l sep : opens s → opens (strings_Join (s :: l) sep).
Proof using Type.
  intros (c & s' & -> & Hc). destruct l as [|s2 l]; [by exists c, s'|]. rewrite join_cons by done. rewrite app_cons. by eexists _, _.
Qed.

Lemma field_opens f : opens (field_text f).
Proof using Type. eexists _, _. split; [reflexivity|done]. Qed.

Lemma sorted_keys m m' : obj_sorted m → m.*1 = m'.*1 → obj_sorted m'.
Proof using Type.
  intros Hs. revert m'. induction Hs as [|[k v] m Hs IH Hall]; intros [|[k' v'] m'] Heq; try done; [constructor|].
  cbn in Heq. injection Heq as -> Heq. constructor; [by apply IH|]. clear -Hall Heq. revert m' Heq.
  induction Hall as [|[k2 v2] m Hlt _ IH]; intros [|[k3 v3] m'] Heq; try done. cbn in Heq. injection Heq as -> Heq. constructor; [done|]. by apply IH.
Qed.

Lemma obj_insert_last k v acc l : obj_sorted (acc ++ (k, v) :: l) → obj_insert k v acc = acc ++ [(k, v)].
Proof using Type.
  induction acc as [|[k' v'] acc IH]; [done|]. cbn [app obj_insert]. intros [Hs Hall]%StronglySorted_inv.
  assert (key_lt (k', v') (k, v)) as Hlt by (eapply Forall_forall in Hall; [exact Hall|]; apply elem_of_app; right; by left).
  unfold key_lt in Hlt. simpl in Hlt. rewrite String.compare_antisym, Hlt. simpl. by rewrite IH.
Qed.

Lemma value_scalar fuel depth s : skip_ws s = s → first_is "{"%char s = None → first_is "["%char s = None → value (S fuel) depth s = scalar s.
Proof using Type. intros Hs H1 H2. cbn [value]. by rewrite Hs, H1, H2. Qed.

Lemma value_number fuel depth t f rest : number t = Some (f, ""%string) → stops rest = true →
  value (S fuel) depth (t +:+ rest) = Some (JNumber f, rest).
Proof using Type.
  intros Hf Hs. pose proof (number_app _ _ _ _ Hs Hf) as Happ. apply number_start in Hf as (c & s & -> & Hc).
  apply num_start_char in Hc as (Hw & _ & _ & H1 & H2 & H3 & H4 & H5 & H6). rewrite app_cons in *.
  assert (∀ a p, a ≠ c → strip_prefix (String a p) (String c (s +:+ rest)) = None) as Hno
    by (intros a p Ha; cbn [strip_prefix]; by rewrite bool_decide_eq_false_2).
  rewrite value_scalar; [|cbn [skip_ws]; by rewrite Hw|by apply Hno..].
  unfold scalar, literal, first_is. rewrite !Hno by done. rewrite Happ. done.
Qed.

Lemma value_string fuel depth s rest : value (S fuel) depth (MarshalString s +:+ rest) = Some (JString s, rest).
Proof using Type.
  unfold MarshalString. rewrite !app_assoc_string. unfold dquote, char. rewrite app_cons, app_empty. rewrite value_scalar by done.
  unfold scalar, first_is. cbn [strip_prefix]. rewrite bool_decide_eq_true_2 by done.
  change (String (Ascii.ascii_of_nat 34) "" +:+ rest) with (dquote +:+ rest). by rewrite string_body_escape.
Qed.

Lemma first_is_cons c s : first_is c (String c s) = Some s.
Proof using Type. unfold first_is. cbn [strip_prefix]. by rewrite bool_decide_eq_true_2. Qed.

Lemma value_array fuel depth s : value (S fuel) (S depth) ("[" +:+ s) =
  match first_is "]"%char (skip_ws s) with Some rest => Some (JArray [], rest) | None => elements fuel depth [] s end.
Proof using Type. reflexivity. Qed.

Lemma value_object fuel depth s : value (S fuel) (S depth) ("{" +:+ s) =
  match first_is "}"%char (skip_ws s) with Some rest => Some (JObject [], rest) | None => members fuel depth [] s end.
Proof using Type. reflexivity. Qed.

(** The three loops, by induction on the fuel. *)
Record decodes (fuel : nat) : Prop := mkDecodes {
  dc_value : ∀ j depth rest, json_size j ≤ fuel → json_depth j ≤ depth → json_wf j → stops rest = true →
    value fuel depth (Marshal j +:+ rest) = Some (decoded j, rest);
  dc_elements : ∀ l acc depth rest, l ≠ [] → elements_size l ≤ fuel → Forall (λ j, json_depth j ≤ depth) l → Forall json_wf l →
    elements fuel depth acc (strings_Join (Marshal <$> l) "," +:+ ("]" +:+ rest)) = Some (JArray (acc ++ (decoded <$> l)), rest);
  dc_members : ∀ m acc depth rest, m ≠ [] → elements_size m.*2 ≤ fuel → Forall (λ j, json_depth j ≤ depth) m.*2 → Forall json_wf m.*2 →
    obj_sorted (acc ++ m) →
    members fuel depth acc (strings_Join (field_text <$> m) "," +:+ ("}" +:+ rest)) = Some (JObject (acc ++ decoded_fields m), rest)
}.

Lemma decodes_value fuel j depth rest : decodes fuel → json_size j ≤ S fuel → json_depth j ≤ depth → json_wf j → stops rest = true →
  value (S fuel) depth (Marshal j +:+ rest) = Some (decoded j, rest).
Proof using Type.
  intros [_ He Hm] Hsz Hd Hwf Hs. destruct j as [|[]|f|z|s|l|m]; [by rewrite value_scalar..|by apply value_number|by apply value_number|apply value_string| |].
  - rewrite size_array in Hsz. destruct depth as [|depth]; [simpl in Hd; lia|]. rewrite depth_array in Hd. rewrite wf_array in Hwf.
    rewrite marshal_array, !app_assoc_string, value_array. destruct l as [|j l]; [done|].
    assert (opens (strings_Join (Marshal <$> j :: l) ",")) as Ho by (apply join_opens, marshal_opens, wf_text_ok; by apply Forall_cons in Hwf as [? _]).
    destruct (opens_not_closed _ ("]" +:+ rest) Ho) as [Hc _].
    rewrite (opens_skip _ _ Ho), Hc. rewrite decoded_array. apply (He (j :: l) []); [done|lia|done..].
  - rewrite size_object in Hsz. destruct depth as [|depth]; [simpl in Hd; lia|]. rewrite depth_object in Hd. rewrite wf_object in Hwf. destruct Hwf as [Hsort Hwf].
    rewrite marshal_object, !app_assoc_string, value_object. destruct m as [|f m]; [done|].
    assert (opens (strings_Join (field_text <$> f :: m) ",")) as Ho by apply join_opens, field_opens.
    destruct (opens_not_closed _ ("}" +:+ rest) Ho) as [_ Hc].
    rewrite (opens_skip _ _ Ho), Hc. rewrite decoded_object. apply (Hm (f :: m) []); [done|lia|done..].
Qed.

Lemma decodes_elements fuel l acc depth rest : decodes fuel → l ≠ [] → elements_size l ≤ S fuel →
  Forall (λ j, json_depth j ≤ depth) l → Forall json_wf l →
  elements (S fuel) depth acc (strings_Join (Marshal <$> l) "," +:+ ("]" +:+ rest)) = Some (JArray (acc ++ (decoded <$> l)), rest).
Proof using Type.
  intros [Hv He _] Hne Hsz Hd Hw. destruct l as [|j l]; [done|]. apply Forall_cons in Hd as [Hd Hds]. apply Forall_cons in Hw as [Hw Hws].
  cbn [elements_size foldr] in Hsz. fold (elements_size l) in Hsz. cbn [elements fmap list_fmap]. destruct l as [|j2 l].
  - change (strings_Join _ ",") with (Marshal j). rewrite Hv by (done || lia). done.
  - rewrite join_cons by done. rewrite !app_assoc_string. rewrite Hv by (done || lia). cbn [mbind option_bind].
    change (skip_ws ("," +:+ ?s)) with (String ","%char s). rewrite first_is_cons. rewrite He by (done || lia). by rewrite <- app_assoc.
Qed.

Lemma decodes_members fuel m acc depth rest : decodes fuel → m ≠ [] → elements_size m.*2 ≤ S fuel →
  Forall (λ j, json_depth j ≤ depth) m.*2 → Forall json_wf m.*2 → obj_sorted (acc ++ m) →
  members (S fuel) depth acc (strings_Join (field_text <$> m) "," +:+ ("}" +:+ rest)) = Some (JObject (acc ++ decoded_fields m), rest).
Proof using Type.
  intros [Hv _ Hm] Hne Hsz Hd Hw Hs. destruct m as [|[k j] m]; [done|]. cbn [fmap list_fmap snd] in *. apply Forall_cons in Hd as [Hd Hds]. apply Forall_cons in Hw as [Hw Hws].
  cbn [elements_size foldr] in Hsz. fold (elements_size m.*2) in Hsz.
  assert (∀ t, stops t = true → members (S fuel) depth acc (field_text (k, j) +:+ t) =
    match first_is ","%char (skip_ws t) with
    | Some s5 => members fuel depth (acc ++ [(k, decoded j)]) s5
    | None => rest ← first_is "}"%char (skip_ws t); Some (JObject (acc ++ [(k, decoded j)]), rest)
    end) as Hfield.
  { intros t Ht. unfold field_text, MarshalString. cbn [fst snd members]. rewrite !app_assoc_string.
    change (skip_ws (dquote +:+ ?s)) with (String (ascii_of_nat 34) s). rewrite first_is_cons. cbn [mbind option_bind].
    rewrite string_body_escape. cbn [mbind option_bind]. change (skip_ws (":" +:+ ?s)) with (String ":"%char s). rewrite first_is_cons. cbn [mbind option_bind].
    rewrite Hv by (done || lia). cbn [mbind option_bind]. rewrite (obj_insert_last k _ acc m); [done|]. by apply (sorted_keys (acc ++ (k, j) :: m)); [|rewrite !fmap_app]. }
  destruct m as [|f2 m].
  - change (strings_Join _ ",") with (field_text (k, j)). by rewrite Hfield.
  - rewrite join_cons by done. rewrite !app_assoc_string, Hfield by done.
    change (skip_ws ("," +:+ ?s)) with (String ","%char s). rewrite first_is_cons. rewrite Hm; [by rewrite <- app_assoc|done|lia|done..|]. rewrite <- app_assoc. by apply (sorted_keys (acc ++ (k, j) :: f2 :: m)); [|rewrite !fmap_app].
Qed.

Lemma decodes_all fuel : decodes fuel.
Proof using Type.
  induction fuel as [|fuel IH].
  - split.
    + intros [] **; simpl in *; lia.
    + intros [|j l] **; [done|simpl in *; lia].
    + intros [|[k j] l] **; [done|simpl in *; lia].
  - split; [intros **; by apply decodes_value|intros **; by apply decodes_elements|intros **; by apply decodes_members].
Qed.

Lemma join_length sep l : sep = ","%string → foldr (λ s n, S (String.length s + n)) 0 l ≤ S (String.length (strings_Join l sep)).
Proof using Type.
  intros ->. induction l as [|s [|s2 l] IH]; [simpl; lia|simpl; lia|]. rewrite join_cons by done. rewrite !length_cat. simpl in *. lia.
Qed.

Lemma size_length j : text_ok j → json_size j ≤ String.length (Marshal j).
Proof using Type.
  assert (∀ (texts : list string) (js : list JSON), Forall2 (λ s j, json_size j ≤ String.length s) texts js →
    elements_size js ≤ S (String.length (strings_Join texts ","))) as Hjoin.
  { intros texts js H2. etrans; [|by apply join_length]. induction H2; simpl; lia. }
  induction j as [|[]|f|z|s|l IH|m IH] using json_ind; try (cbn; lia).
  1,2: intros Hf; apply number_start in Hf as (c & s & Hc & _); cbn [JSON_Marshal json_size]; rewrite Hc; cbn; lia.
  - intros _. cbn [JSON_Marshal json_size]. pose proof (MarshalString_length s). lia.
  - unfold text_ok in *. rewrite all_array, size_array, marshal_array, !length_cat. intros Hw. cbn [String.length].
    enough (elements_size l ≤ S (String.length (strings_Join (Marshal <$> l) ","))) by lia. apply Hjoin.
    apply Forall2_fmap_l, Forall_Forall2_diag. rewrite Forall_forall in *. auto.
  - unfold text_ok in *. rewrite all_object, size_object, marshal_object, !length_cat. intros [_ Hw]. cbn [String.length].
    enough (elements_size m.*2 ≤ S (String.length (strings_Join (field_text <$> m) ","))) by lia. apply Hjoin.
    apply Forall2_fmap_2, Forall_Forall2_diag. rewrite Forall_fmap in IH, Hw. apply Forall_forall. intros f Hf. rewrite Forall_forall in IH, Hw.
    unfold field_text. rewrite !length_cat. specialize (IH f Hf (Hw f Hf)). simpl in IH. lia.
Qed.

(** Decoding what was encoded gives the same value. *)
Lemma Unmarshal_Marshal j : json_wf j → json_depth j ≤ maxNestingDepth → Unmarshal (Marshal j) = Some (decoded j).
Proof using Type.
  intros Hw Hd. unfold Unmarshal. rewrite <- (app_empty_r (Marshal j)) at 2.
  rewrite (dc_value _ (decodes_all _)); [done| |done|done|done]. pose proof (size_length j (wf_text_ok _ Hw)). lia.
Qed.
End roundtrip.

(** ** Objects as maps *)

Lemma compare_refl s : String.compare s s = Eq.
Proof. pose proof (String.compare_antisym s s). by destruct (String.compare s s). Qed.

Lemma compare_trans a b c : String.compare a b = Lt → String.compare b c = Lt → String.compare a c = Lt.
Proof.
  intros Hab Hbc. assert (String.le a b ∧ String.le b c) as [H1 H2] by (unfold String.le, String.leb; by rewrite Hab, Hbc).
  assert (String.le a c) as H3 by (by etrans). unfold String.le, String.leb in H3. destruct (String.compare a c) eqn:Hac; [|done|done].
  apply String.compare_eq_iff in Hac as ->. rewrite String.compare_antisym, Hbc in Hab. done.
Qed.

Lemma key_lt_trans : Transitive key_lt.
Proof. intros f g h. apply compare_trans. Qed.

Lemma obj_insert_elem k v m f : f ∈ obj_insert k v m → f = (k, v) ∨ f ∈ m.
Proof.
  induction m as [|[k' v'] m IH]; cbn [obj_insert]; [by intros ?%list_elem_of_singleton; left|].
  destruct (String.compare k k'); rewrite !elem_of_cons; naive_solver.
Qed.

Lemma obj_insert_sorted k v m : obj_sorted m → obj_sorted (obj_insert k v m).
Proof.
  unfold obj_sorted. induction m as [|[k' v'] m IH]; cbn [obj_insert]; [by repeat constructor|].
  intros [Hs Hall]%StronglySorted_inv. destruct (String.compare k k') eqn:Hc.
  - apply String.compare_eq_iff in Hc as ->. by constructor.
  - constructor; [by constructor|]. constructor; [done|]. eapply Forall_impl; [exact Hall|]. intros f. apply compare_trans, Hc.
  - constructor; [by apply IH|]. apply Forall_forall. intros f [->|Hf]%obj_insert_elem; [|by eapply Forall_forall in Hall].
    unfold key_lt. simpl. by rewrite String.compare_antisym, Hc.
Qed.

Lemma obj_delete_sorted k m : obj_sorted m → obj_sorted (obj_delete k m).
Proof.
  unfold obj_sorted, obj_delete. induction 1 as [|f m Hs IH Hall]; [constructor|]. rewrite filter_cons. case_decide; [|done].
  constructor; [done|]. apply Forall_forall. intros g [_ Hg]%list_elem_of_filter. by eapply Forall_forall in Hall.
Qed.

Lemma obj_lookup_insert_eq k v m : obj_lookup k (obj_insert k v m) = Some v.
Proof.
  induction m as [|[k' v'] m IH]; cbn [obj_insert obj_lookup]; [by rewrite bool_decide_eq_true_2|].
  destruct (String.compare k k') eqn:Hc; cbn [obj_lookup]; [by rewrite bool_decide_eq_true_2..|].
  rewrite bool_decide_eq_false_2; [done|]. intros ->. pose proof (compare_refl k'). congruence.
Qed.

Lemma obj_lookup_insert_ne k k' v m : k' ≠ k → obj_lookup k' (obj_insert k v m) = obj_lookup k' m.
Proof.
  intros Hne. induction m as [|[k2 v2] m IH]; cbn [obj_insert obj_lookup]; [by rewrite bool_decide_eq_false_2|].
  destruct (String.compare k k2) eqn:Hc; cbn [obj_lookup].
  - apply String.compare_eq_iff in Hc as ->. by rewrite !(bool_decide_eq_false_2 (k' = k2)).
  - by rewrite (bool_decide_eq_false_2 (k' = k)).
  - by rewrite IH.
Qed.

Lemma obj_lookup_delete_eq k m : obj_lookup k (obj_delete k m) = None.
Proof.
  unfold obj_delete. induction m as [|[k' v] m IH]; [done|]. rewrite filter_cons. case_decide as Hd; [|done]. cbn [obj_lookup].
  by rewrite bool_decide_eq_false_2.
Qed.

Lemma obj_lookup_delete_ne k k' m : k' ≠ k → obj_lookup k' (obj_delete k m) = obj_lookup k' m.
Proof.
  intros Hne. unfold obj_delete. induction m as [|[k2 v] m IH]; [done|]. rewrite filter_cons. cbn [obj_lookup]. case_decide as Hd; simpl in Hd.
  - cbn [obj_lookup]. by rewrite IH.
  - rewrite IH, (bool_decide_eq_false_2 (k' = k2)); [done|]. congruence.
Qed.

Lemma obj_lookup_elem k v m : obj_lookup k m = Some v → (k, v) ∈ m.
Proof.
  induction m as [|[k' v'] m IH]; cbn [obj_lookup]; [done|]. case_bool_decide as Hk; [intros [= ->]; subst; by left|]. intros H. right. auto.
Qed.

(** Two sorted objects with the same entries are the same. *)
Lemma obj_lookup_lt k m : Forall (λ f, String.compare k f.1 = Lt) m → obj_lookup k m = None.
Proof.
  induction 1 as [|[k' v] m Hk _ IH]; [done|]. cbn [obj_lookup]. rewrite bool_decide_eq_false_2; [done|]. simpl in Hk. intros ->.
  pose proof (compare_refl k'). congruence.
Qed.

Lemma obj_ext m1 m2 : obj_sorted m1 → obj_sorted m2 → (∀ k, obj_lookup k m1 = obj_lookup k m2) → m1 = m2.
Proof.
  intros H1. revert m2. induction H1 as [|[k1 v1] m1 Hs1 IH Hall1]; intros m2 H2 Heq.
  - destruct m2 as [|[k v] m2]; [done|]. specialize (Heq k). cbn [obj_lookup] in Heq. by rewrite bool_decide_eq_true_2 in Heq.
  - destruct H2 as [|[k2 v2] m2 Hs2 Hall2]; [specialize (Heq k1); cbn [obj_lookup] in Heq; by rewrite bool_decide_eq_true_2 in Heq|].
    assert (k1 = k2) as <-.
    { apply String.compare_eq_iff. destruct (String.compare k1 k2) eqn:Hc; [done| |].
      - specialize (Heq k1). cbn [obj_lookup] in Heq. rewrite bool_decide_eq_true_2 in Heq by done. rewrite bool_decide_eq_false_2, obj_lookup_lt in Heq; [done| |].
        + eapply Forall_impl; [exact Hall2|]. intros f. by apply compare_trans.
        + intros ->. pose proof (compare_refl k2). congruence.
      - assert (String.compare k2 k1 = Lt) as Hc' by (by rewrite String.compare_antisym, Hc).
        specialize (Heq k2). cbn [obj_lookup] in Heq. rewrite (bool_decide_eq_true_2 (k2 = k2)) in Heq by done. rewrite bool_decide_eq_false_2, obj_lookup_lt in Heq; [done| |].
        + eapply Forall_impl; [exact Hall1|]. intros f. by apply compare_trans.
        + intros ->. pose proof (compare_refl k1). congruence. }
    pose proof (Heq k1) as Hv. cbn [obj_lookup] in Hv. rewrite !bool_decide_eq_true_2 in Hv by done. injection Hv as <-. f_equal.
    apply IH; [done|]. intros k. destruct (decide (k = k1)) as [->|Hne].
    + by rewrite !obj_lookup_lt.
    + specialize (Heq k). cbn [obj_lookup] in Heq. by rewrite !bool_decide_eq_false_2 in Heq.
Qed.

Lemma json_all_insert N I O k v m : O (obj_insert k v m) → json_all N I O v → json_all N I O (JObject m) → json_all N I O (JObject (obj_insert k v m)).
Proof.
  rewrite !all_object. intros HO Hv [_ Hm]. split; [done|]. rewrite Forall_fmap in *. apply Forall_forall.
  intros f [->|Hf]%obj_insert_elem; [done|]. rewrite Forall_forall in Hm. by apply Hm.
Qed.

Lemma json_all_delete N I O k m : O (obj_delete k m) → json_all N I O (JObject m) → json_all N I O (JObject (obj_delete k m)).
Proof.
  rewrite !all_object. intros HO [_ Hm]. split; [done|]. rewrite Forall_fmap in *. apply Forall_forall.
  intros f [_ Hf]%list_elem_of_filter. rewrite Forall_forall in Hm. by apply Hm.
Qed.

(** ** What the decoder gives is sorted and not too deep *)

Definition sorted_json : JSON → Prop := json_all (λ _, True) (λ _, False) obj_sorted.

Record gives (fuel : nat) : Prop := mkGives {
  gv_value : ∀ depth s j rest, value fuel depth s = Some (j, rest) → sorted_json j ∧ json_depth j ≤ depth;
  gv_members : ∀ depth acc s j rest, obj_sorted acc → Forall (λ j, sorted_json j ∧ json_depth j ≤ depth) acc.*2 →
    members fuel depth acc s = Some (j, rest) → sorted_json j ∧ json_depth j ≤ S depth;
  gv_elements : ∀ depth acc s j rest, Forall (λ j, sorted_json j ∧ json_depth j ≤ depth) acc →
    elements fuel depth acc s = Some (j, rest) → sorted_json j ∧ json_depth j ≤ S depth
}.

Lemma scalar_gives s j rest : scalar s = Some (j, rest) → sorted_json j ∧ json_depth j = 0.
Proof.
  unfold scalar, literal. intros H. repeat (case_match; simplify_option_eq; try done).
Qed.

Lemma gives_members fuel depth acc s j rest : gives fuel → obj_sorted acc → Forall (λ j, sorted_json j ∧ json_depth j ≤ depth) acc.*2 →
  members (S fuel) depth acc s = Some (j, rest) → sorted_json j ∧ json_depth j ≤ S depth.
Proof.
  intros [Hv Hm _] Hs Hall. cbn [members]. intros H. apply bind_Some in H as (s1 & _ & H). apply bind_Some in H as ([k s2] & _ & H).
  apply bind_Some in H as (s3 & _ & H). apply bind_Some in H as ([v s4] & Hval & H). apply Hv in Hval.
  assert (obj_sorted (obj_insert k v acc)) as Hs' by by apply obj_insert_sorted.
  assert (Forall (λ j, sorted_json j ∧ json_depth j ≤ depth) (obj_insert k v acc).*2) as Hall'.
  { rewrite Forall_fmap in *. apply Forall_forall. intros f [->|Hf]%obj_insert_elem; [done|]. rewrite Forall_forall in Hall. by apply Hall. }
  destruct (first_is ","%char (skip_ws s4)); [by eapply Hm|]. apply bind_Some in H as (r & _ & [= <- _]).
  rewrite depth_object. unfold sorted_json. rewrite all_object. apply Forall_and in Hall' as [H1 H2]. done.
Qed.

Lemma gives_elements fuel depth acc s j rest : gives fuel → Forall (λ j, sorted_json j ∧ json_depth j ≤ depth) acc →
  elements (S fuel) depth acc s = Some (j, rest) → sorted_json j ∧ json_depth j ≤ S depth.
Proof.
  intros [Hv _ He] Hall. cbn [elements]. intros H. apply bind_Some in H as ([v s1] & Hval & H). apply Hv in Hval.
  assert (Forall (λ j, sorted_json j ∧ json_depth j ≤ depth) (acc ++ [v])) as Hall' by (apply Forall_app; split; [done|by apply Forall_singleton]).
  destruct (first_is ","%char (skip_ws s1)); [by eapply He|]. apply bind_Some in H as (r & _ & [= <- _]).
  rewrite depth_array. unfold sorted_json. rewrite all_array. by apply Forall_and in Hall' as [H1 H2].
Qed.

Lemma gives_all fuel : gives fuel.
Proof.
  induction fuel as [|fuel IH]; [done|]. split; [|intros **; by eapply gives_members|intros **; by eapply gives_elements].
  intros depth s j rest. cbn [value]. destruct (first_is "{"%char (skip_ws s)) as [s1|], (first_is "["%char (skip_ws s)) as [s2|], depth as [|depth]; try done.
  1,2: case_match; [intros [= <- _]; split; [by repeat constructor|simpl; lia]|]; apply (gv_members _ IH); [constructor|constructor].
  - case_match; [intros [= <- _]; split; [done|simpl; lia]|]. by apply (gv_elements _ IH).
  - intros [H1 H2]%scalar_gives. split; [done|lia].
  - intros [H1 H2]%scalar_gives. split; [done|lia].
Qed.

Lemma Unmarshal_gives s j : Unmarshal s = Some j → sorted_json j ∧ json_depth j ≤ maxNestingDepth.
Proof.
  unfold Unmarshal. intros ([j' rest] & Hv & H)%bind_Some. case_bool_decide; [|done]. injection H as ->. by eapply (gv_value _ (gives_all _)).
Qed.

(** ** Objects that are encoded and decoded *)

Section objects.
Context (FormatFloat : float64 → string).

(** An object that is decoded as it was encoded. *)
Definition obj_good (m : JsonObject) : Prop := json_wf FormatFloat (JObject m) ∧ json_depth (JObject m) ≤ maxNestingDepth.
Definition val_good (v : JSON) : Prop := json_wf FormatFloat v ∧ S (json_depth v) ≤ maxNestingDepth.

(** The numbers of a value have texts that are decoded to them. *)
Definition numbers_ok : JSON → Prop := json_all (number_ok FormatFloat) (λ _, True) (λ _, True).

Lemma depth_unfold : maxNestingDepth = S (Z.to_nat 9999).
Proof using Type. unfold maxNestingDepth. lia. Qed.

Lemma good_insert k v m : val_good v → obj_good m → obj_good (obj_insert k v m).
Proof using Type.
  unfold val_good, obj_good. rewrite depth_unfold. intros [Hv Hdv] [Hm Hdm]. split.
  - apply json_all_insert; [|done|done]. apply obj_insert_sorted. by apply wf_object in Hm as [? _].
  - rewrite depth_object in *. rewrite Forall_fmap in *. apply Forall_forall. intros f [->|Hf]%obj_insert_elem; [simpl; lia|].
    rewrite Forall_forall in Hdm. by apply Hdm.
Qed.

Lemma good_delete k m : obj_good m → obj_good (obj_delete k m).
Proof using Type.
  unfold obj_good. rewrite depth_unfold. intros [Hm Hdm]. split.
  - apply json_all_delete; [|done]. apply obj_delete_sorted. by apply wf_object in Hm as [? _].
  - rewrite depth_object in *. rewrite Forall_fmap in *. apply Forall_forall. intros f [_ Hf]%list_elem_of_filter. rewrite Forall_forall in Hdm. by apply Hdm.
Qed.

Lemma good_sorted m : obj_good m → obj_sorted m.
Proof using Type. intros [[? _]%wf_object _]. done. Qed.

(** What was decoded is good and has no integers. *)
Lemma decoded_good s m : UnmarshalMap s = Some (Some m) → numbers_ok (JObject m) → obj_good m ∧ decoded_fields m = m.
Proof using Type.
  unfold UnmarshalMap. destruct (Unmarshal s) as [[]|] eqn:E; try done. intros [= <-] Hn. apply Unmarshal_gives in E as [Hs Hd]. split.
  - split; [|done]. eapply (json_all_impl _ _ _ _ _ _ (JObject _)); [..|exact (json_all_and _ _ _ _ _ _ _ Hs Hn)]; naive_solver.
  - pose proof (decoded_same _ _ _ Hs) as Hdec. rewrite decoded_object in Hdec. by injection Hdec.
Qed.

Lemma encoded_decodes m : obj_good m → UnmarshalMap (JSON_Marshal FormatFloat (JObject m)) = Some (Some (decoded_fields m)).
Proof using Type. intros [Hw Hd]. unfold UnmarshalMap. by rewrite (Unmarshal_Marshal FormatFloat), decoded_object. Qed.

Lemma lookup_good k v s m : UnmarshalMap s = Some (Some m) → obj_lookup k m = Some v → numbers_ok v → val_good v ∧ decoded v = v.
Proof using Type.
  unfold UnmarshalMap. destruct (Unmarshal s) as [[]|] eqn:E; try done. intros [= <-] Hl%obj_lookup_elem Hn. apply Unmarshal_gives in E as [Hs Hd].
  unfold sorted_json in Hs. rewrite all_object, Forall_fmap, Forall_forall in Hs. destruct Hs as [_ Hs]. specialize (Hs _ Hl). simpl in Hs.
  split; [split|by eapply decoded_same].
  - eapply json_all_impl; [..|exact (json_all_and _ _ _ _ _ _ _ Hs Hn)]; naive_solver.
  - rewrite depth_unfold in *. rewrite depth_object, Forall_fmap, Forall_forall in Hd. specialize (Hd _ Hl). simpl in Hd. lia.
Qed.
End objects.

Lemma decoded_sorted m : obj_sorted m → obj_sorted (decoded_fields m).
Proof. intros Hs. apply (sorted_keys m); [done|]. unfold decoded_fields. rewrite <- list_fmap_compose. by apply list_fmap_ext. Qed.
