(* ===== verification/SidecarTargets.v ===== *)
(** * Targets of the routing sidecar: [pkg/sidecar/proxy], [allowlist.go]

    The sidecar sends requests to hosts that a header names. This file has the addresses, with
    what the sidecar uses of [net] and [net/url], and the allow list that guards them: a list
    of the names and addresses of the pods of the pool, kept up to date by watching the pool
    and its pods. *)

From stdpp Require Import prelude gmap strings list pretty.
From Stdlib Require Import ZArith Ascii Lia.
From S2P Require Import Prelude Float64 FlowTypes Ordering SchedTypes Json JsonDecode ProfileHandlers.

(** ** Cutting strings *)

(** [strings.Cut] at the first separator; [None] when there is none. *)
Fixpoint cut (c : ascii) (s : string) : string * option string :=
  match s with
  | EmptyString => (EmptyString, None)
  | String a s' => if bool_decide (a = c) then (EmptyString, Some s') else let '(b, r) := cut c s' in (String a b, r)
  end.

(** At the last separator. *)
Fixpoint cut_last (c : ascii) (s : string) : option (string * string) :=
  match s with
  | EmptyString => None
  | String a s' =>
      match cut_last c s' with
      | Some (b, r) => Some (String a b, r)
      | None => if bool_decide (a = c) then Some (EmptyString, s') else None
      end
  end.

Fixpoint all_char (p : ascii → bool) (s : string) : bool :=
  match s with EmptyString => true | String c s' => p c && all_char p s' end.

(** ** Addresses: [net.SplitHostPort] *)

(** [None] is an error. *)
Definition SplitHostPort (hostport : string) : option (string * string) :=
  match cut_last ":"%char hostport, first_is "["%char hostport with
  | None, _ => None
  | Some _, Some s =>
      let '(host, after) := cut "]"%char s in
      port ← after ≫= first_is ":"%char;
      if char_free ":"%char port && char_free "["%char s && char_free "]"%char port then Some (host, port) else None
  | Some (host, port), None =>
      if char_free ":"%char host && char_free "["%char hostport && char_free "]"%char hostport then Some (host, port) else None
  end.

(** ** URLs: [net/url] *)

Record URL := mkURL {
  u_Scheme : string;
  u_User : option string;
  u_Host : string;
  u_Path : string;
  u_RawQuery : string
}.

Inductive encoding := EncodeHost | EncodeZone | EncodeOther.

Definition is_alnum (c : ascii) : bool :=
  let n := nat_of_ascii c in bool_decide (48 ≤ n ≤ 57 ∨ 65 ≤ n ≤ 90 ∨ 97 ≤ n ≤ 122).

(** [shouldEscape] for hosts: all but letters, digits, marks and sub-delimiters. *)
Definition shouldEscape_host (c : ascii) : bool :=
  negb (is_alnum c || bool_decide (nat_of_ascii c ∈
    [33; 36; 38; 39; 40; 41; 42; 43; 44; 59; 61; 58; 91; 93; 60; 62; 34; 45; 95; 46; 126])).

Definition bad_char (mode : encoding) (c : ascii) : bool :=
  match mode with EncodeOther => false | _ => bool_decide (nat_of_ascii c < 128) && shouldEscape_host c end.

Definition bad_escape (mode : encoding) (a b : ascii) (hi v : Z) : bool :=
  let percent := bool_decide (a = "2"%char ∧ b = "5"%char) in
  match mode with
  | EncodeHost => bool_decide (hi < 8)%Z && negb percent
  | EncodeZone => negb percent && negb (bool_decide (v = 32%Z)) && shouldEscape_host (ascii_of_N (Z.to_N v))
  | EncodeOther => false
  end.

Fixpoint unescape (mode : encoding) (s : string) : option string :=
  match s with
  | EmptyString => Some EmptyString
  | String c s' =>
      if bool_decide (c = "%"%char) then
        match s' with
        | String a (String b rest) =>
            match hex_value a, hex_value b with
            | Some hi, Some lo =>
                let v := (hi * 16 + lo)%Z in
                if bad_escape mode a b hi v then None else String (ascii_of_N (Z.to_N v)) <$> unescape mode rest
            | _, _ => None
            end
        | _ => None
        end
      else if bad_char mode c then None
      else String c <$> unescape mode s'
  end.

Definition is_digit (c : ascii) : bool := bool_decide (48 ≤ nat_of_ascii c ≤ 57).

Definition validOptionalPort (port : string) : bool :=
  match port with
  | EmptyString => true
  | String c ds => bool_decide (c = ":"%char) && all_char is_digit ds
  end.

Definition validUserinfo (s : string) : bool :=
  all_char (λ c, is_alnum c || bool_decide (nat_of_ascii c ∈ [45; 46; 95; 58; 126; 33; 36; 38; 39; 40; 41; 42; 43; 44; 59; 61; 37; 64])) s.

(** The index of the zone of an address in brackets: what precedes [%25]. *)
Fixpoint cut_zone (s : string) : option (string * string) :=
  match strip_prefix "%25" s with
  | Some _ => Some (EmptyString, s)
  | None => match s with EmptyString => None | String c s' => '(b, z) ← cut_zone s'; Some (String c b, z) end
  end.

Definition parseHost (host : string) : option string :=
  match first_is "["%char host with
  | Some _ =>
      '(inside, colonPort) ← cut_last "]"%char host;
      if validOptionalPort colonPort then
        match cut_zone inside with
        | Some (before, zone) =>
            host1 ← unescape EncodeHost before; host2 ← unescape EncodeZone zone; host3 ← unescape EncodeHost (String "]"%char colonPort);
            Some (host1 +:+ host2 +:+ host3)
        | None => unescape EncodeHost host
        end
      else None
  | None =>
      match cut_last ":"%char host with
      | Some (_, port) => if validOptionalPort (String ":"%char port) then unescape EncodeHost host else None
      | None => unescape EncodeHost host
      end
  end.

Definition parseAuthority (authority : string) : option (option string * string) :=
  match cut_last "@"%char authority with
  | None => host ← parseHost authority; Some (None, host)
  | Some (userinfo, h) =>
      host ← parseHost h;
      if validUserinfo userinfo then _ ← unescape EncodeOther userinfo; Some (Some userinfo, host) else None
  end.

Definition is_ctl (c : ascii) : bool := bool_decide (nat_of_ascii c < 32 ∨ nat_of_ascii c = 127).

(** [url.Parse(scheme + "://" + rest)] for a scheme of lower case letters; [None] is an error. *)
Definition url_Parse (scheme rest : string) : option URL :=
  let '(u, frag) := cut "#"%char rest in
  if all_char (λ c, negb (is_ctl c)) u then
    let '(u, query) := cut "?"%char u in
    let '(authority, tail) := cut "/"%char u in
    '(user, host) ← parseAuthority authority;
    path ← unescape EncodeOther (from_option (String "/"%char) EmptyString tail);
    _ ← unescape EncodeOther (default EmptyString frag);
    Some (mkURL scheme user host path (default EmptyString query))
  else None.

(** [URL.Hostname]: where a connection for the URL goes. *)
Definition Hostname (u : URL) : string :=
  let h := match cut_last ":"%char (u_Host u) with
           | Some (b, p) => if validOptionalPort (String ":"%char p) then b else u_Host u
           | None => u_Host u
           end in
  match first_is "["%char h ≫= cut_last "]"%char with Some (inside, EmptyString) => inside | _ => h end.

(** ** The allow list: [allowlist.go] *)

Definition DefaultPoolGroup : string := "inference.networking.k8s.io".
Definition LegacyPoolGroup : string := "inference.networking.x-k8s.io".

(** What the code reads of a pod; an address that is not set is empty. *)
Record PodObject := mkPodObject { po_Name : string; po_podIP : string }.

(** An informer has the pods of a selector in its store. *)
Record PodInformer := mkPodInformer { pi_selector : gmap string string; pi_store : list PodObject }.

Record AllowlistValidator := mkAllowlist {
  av_enabled : bool;
  av_allowedTargets : gset string;
  av_podInformers : gmap string PodInformer;
  av_podStopChans : gset string
}.

Definition inferencePoolGroupToVersion (group : string) : option string :=
  if bool_decide (group = DefaultPoolGroup) then Some "v1"
  else if bool_decide (group = LegacyPoolGroup) then Some "v1alpha2" else None.

(** [client] is the error of making the Kubernetes client. *)
Definition NewAllowlistValidator (client : option GoError) (enabled : bool) (poolGroup : string) : AllowlistValidator + GoError :=
  if enabled then
    match inferencePoolGroupToVersion poolGroup, client with
    | None, _ => inr (ENew "unsupported poolGroup")
    | Some _, Some err => inr err
    | Some _, None => inl (mkAllowlist true ∅ ∅ ∅)
    end
  else inl (mkAllowlist false ∅ ∅ ∅).

Definition normalizeHostPort (hostPort : string) : string :=
  match SplitHostPort hostPort with Some (host, _) => host | None => hostPort end.

Definition IsAllowed (av : AllowlistValidator) (hostPort : string) : bool :=
  negb (av_enabled av) || bool_decide (normalizeHostPort hostPort ∈ av_allowedTargets av).

Definition addPodToAllowlist (targets : gset string) (pod : PodObject) : gset string :=
  let targets := if bool_decide (po_podIP pod = ""%string) then targets else {[po_podIP pod]} ∪ targets in
  if bool_decide (po_Name pod = ""%string) then targets else {[po_Name pod]} ∪ targets.

Definition rebuildAllowlist (av : AllowlistValidator) : AllowlistValidator :=
  let pods := (map_to_list (av_podInformers av)).*2 ≫= pi_store in
  mkAllowlist (av_enabled av)
    (foldl (λ targets pod, if bool_decide (po_podIP pod = ""%string) then targets else addPodToAllowlist targets pod) ∅ pods)
    (av_podInformers av) (av_podStopChans av).

(** The new informer starts with an empty store. *)
Definition createPodInformer (poolName : string) (selector : gmap string string) (av : AllowlistValidator) : AllowlistValidator :=
  mkAllowlist (av_enabled av) (av_allowedTargets av)
    (<[poolName := mkPodInformer selector []]> (av_podInformers av)) ({[poolName]} ∪ av_podStopChans av).

(** [unstructured.NestedMap] of one field: missing fields and other values are refused. *)
Definition NestedMap (m : JsonObject) (field : string) : option JsonObject :=
  match obj_lookup field m with Some (JObject m') => Some m' | _ => None end.

Section pool.
(** The text of a number under the verb [%v]. *)
Context (FormatG : float64 → string).

Fixpoint Sprint_v (j : JSON) : string :=
  match j with
  | JNull => "<nil>"
  | JBool b => if b then "true" else "false"
  | JNumber f => FormatG f
  | JInt z => pretty z
  | JString s => s
  | JArray l => "[" +:+ strings_Join ((fix go (l : list JSON) := match l with [] => [] | j :: l' => Sprint_v j :: go l' end) l) " " +:+ "]"
  | JObject m =>
      "map[" +:+ strings_Join ((fix go (l : JsonObject) := match l with [] => [] | (k, j) :: l' => (k +:+ ":" +:+ Sprint_v j) :: go l' end) m) " " +:+ "]"
  end.

Definition updatePodsForPool (poolName : string) (pool : JsonObject) (av : AllowlistValidator) : AllowlistValidator :=
  match NestedMap pool "spec" ≫= λ spec, NestedMap spec "selector" with
  | Some selectorData => createPodInformer poolName (list_to_map ((λ f, (f.1, Sprint_v f.2)) <$> selectorData)) av
  | None => av
  end.

Definition onInferencePoolDelete (poolName : string) (av : AllowlistValidator) : AllowlistValidator :=
  rebuildAllowlist (mkAllowlist (av_enabled av) (av_allowedTargets av) (delete poolName (av_podInformers av)) (av_podStopChans av ∖ {[poolName]})).

Definition Stop (av : AllowlistValidator) : AllowlistValidator :=
  if av_enabled av then mkAllowlist true (av_allowedTargets av) ∅ ∅ else av.

(** The life of the list: events of the pool, a change of the store of an informer, which has
    pods of [P], and the handlers that are called after a change. *)
Inductive av_step (P : PodObject → Prop) : AllowlistValidator → AllowlistValidator → Prop :=
  | av_pool av poolName pool : av_step P av (updatePodsForPool poolName pool av)
  | av_pool_deleted av poolName : av_step P av (onInferencePoolDelete poolName av)
  | av_store av poolName i store : av_podInformers av !! poolName = Some i → Forall P store →
      av_step P av (mkAllowlist (av_enabled av) (av_allowedTargets av) (<[poolName := mkPodInformer (pi_selector i) store]> (av_podInformers av)) (av_podStopChans av))
  | av_pod_event av : av_step P av (rebuildAllowlist av).

(** ** What is allowed *)

Definition pod_target (pod : PodObject) (t : string) : Prop :=
  po_podIP pod ≠ ""%string ∧ (t = po_podIP pod ∨ t = po_Name pod ∧ po_Name pod ≠ ""%string).

Lemma add_pod_spec targets pod t : po_podIP pod ≠ ""%string →
  t ∈ addPodToAllowlist targets pod ↔ t ∈ targets ∨ pod_target pod t.
Proof using Type. intros Hip. unfold addPodToAllowlist, pod_target. rewrite (bool_decide_eq_false_2 (po_podIP pod = _)) by done. case_bool_decide; set_solver. Qed.

(** After a rebuild exactly the names and addresses of the pods in the stores are allowed. *)
Lemma rebuild_exact av t : t ∈ av_allowedTargets (rebuildAllowlist av) ↔
  ∃ name i pod, av_podInformers av !! name = Some i ∧ pod ∈ pi_store i ∧ pod_target pod t.
Proof using Type.
  unfold rebuildAllowlist. cbn [av_allowedTargets]. set (pods := _ ≫= pi_store).
  assert (∀ l targets, t ∈ foldl (λ targets pod, if bool_decide (po_podIP pod = ""%string) then targets else addPodToAllowlist targets pod) targets l ↔
    t ∈ targets ∨ ∃ pod, pod ∈ l ∧ pod_target pod t) as Hfold.
  { induction l as [|pod l IH]; intros targets; cbn [foldl]; [set_solver|]. rewrite IH. case_bool_decide as Hip.
    - split; [set_solver|]. intros [?|(p & [->|?]%elem_of_cons & Hp)]; [by left|by destruct Hp|set_solver].
    - rewrite add_pod_spec by done. set_solver. }
  rewrite Hfold. split.
  - intros [[]%elem_of_empty|(pod & Hpod & Ht)]. unfold pods in Hpod. apply list_elem_of_bind in Hpod as (i & Hpod & Hi).
    apply list_elem_of_fmap in Hi as ([name i'] & -> & Hi). apply elem_of_map_to_list in Hi. by exists name, i', pod.
  - intros (name & i & pod & Hi & Hpod & Ht). right. exists pod. split; [|done]. unfold pods. apply list_elem_of_bind. exists i. split; [done|].
    apply list_elem_of_fmap. exists (name, i). split; [done|]. by apply elem_of_map_to_list.
Qed.

(** Only names and addresses of pods of [P] are ever allowed. *)
Record av_inv (P : PodObject → Prop) (av : AllowlistValidator) : Prop := mkAvInv {
  ai_allowed : ∀ t, t ∈ av_allowedTargets av → ∃ pod, P pod ∧ pod_target pod t;
  ai_stores : ∀ name i, av_podInformers av !! name = Some i → Forall P (pi_store i)
}.

Lemma rebuild_inv P av : (∀ name i, av_podInformers av !! name = Some i → Forall P (pi_store i)) → av_inv P (rebuildAllowlist av).
Proof using Type.
  intros Hs. split; [|done]. intros t (name & i & pod & Hi & Hpod & Ht)%rebuild_exact. exists pod. split; [|done].
  specialize (Hs name i Hi). by eapply Forall_forall in Hs.
Qed.

Lemma av_step_inv P av av' : av_step P av av' → av_inv P av → av_inv P av'.
Proof using Type.
  intros Hstep [H1 H2]. destruct Hstep as [av poolName pool|av poolName|av poolName i store Hi Hall|av].
  - unfold updatePodsForPool. destruct (_ ≫= _); [|done]. split; [done|]. cbn [createPodInformer av_podInformers]. intros name i [[<- <-]|[_ Hi]]%lookup_insert_Some; [constructor|by eapply H2].
  - apply rebuild_inv. cbn [av_podInformers]. intros name i [_ Hi]%lookup_delete_Some. by eapply H2.
  - split; [done|]. cbn [av_podInformers]. intros name i' [[<- <-]|[_ Hi']]%lookup_insert_Some; [done|by eapply H2].
  - by apply rebuild_inv.
Qed.

Lemma allowed_inv P av av' : av_inv P av → rtc (av_step P) av av' → av_inv P av'.
Proof using Type. intros Hi. induction 1 as [|a b c Hab _ IH]; [done|]. apply IH. by eapply av_step_inv. Qed.
End pool.

(** ** Where an allowed target leads *)

Lemma cut_free c s : char_free c s = true → cut c s = (s, None).
Proof. induction s as [|a s IH]; [done|]. intros [Ha Hs]%char_free_cons. cbn [cut]. rewrite bool_decide_eq_false_2 by done. by rewrite IH. Qed.

(** What precedes the first separator. *)
Lemma cut_app c a b : char_free c a = true → (cut c (a +:+ b)).1 = a +:+ (cut c b).1.
Proof.
  induction a as [|x a IH]; [done|]. intros [Hx Ha]%char_free_cons. rewrite app_cons. cbn [cut]. rewrite bool_decide_eq_false_2 by done.
  specialize (IH Ha). destruct (cut c (a +:+ b)). simpl in *. by rewrite IH.
Qed.

Lemma cut_prefix c d s : char_free d s = true → char_free d (cut c s).1 = true.
Proof.
  induction s as [|a s IH]; [done|]. intros [Ha Hs]%char_free_cons. cbn [cut]. case_bool_decide; [done|]. specialize (IH Hs). destruct (cut c s). by apply char_free_cons.
Qed.

Lemma cut_last_free c s : char_free c s = true → cut_last c s = None.
Proof. induction s as [|a s IH]; [done|]. intros [Ha Hs]%char_free_cons. cbn [cut_last]. rewrite IH by done. by rewrite bool_decide_eq_false_2. Qed.

Lemma cut_last_app c a b : char_free c b = true → cut_last c (a +:+ String c b) = Some (a, b).
Proof.
  intros Hb. induction a as [|x a IH]; [|by rewrite app_cons; cbn [cut_last]; rewrite IH].
  rewrite app_empty. cbn [cut_last]. rewrite cut_last_free by done. by rewrite bool_decide_eq_true_2.
Qed.

Lemma cut_last_Some c s a b : cut_last c s = Some (a, b) → s = a +:+ String c b ∧ char_free c b = true.
Proof.
  revert a. induction s as [|x s IH]; intros a; [done|]. cbn [cut_last]. destruct (cut_last c s) as [[a' b']|] eqn:E.
  - intros [= <- <-]. destruct (IH a' eq_refl) as [-> Hb]. done.
  - case_bool_decide as Hx; [|done]. intros [= <- <-]. subst x. split; [done|]. clear IH.
    induction s as [|y s IH]; [done|]. cbn [cut_last] in E. destruct (cut_last c s) as [[]|]; [done|]. case_bool_decide; [done|]. apply char_free_cons. auto.
Qed.

Lemma cut_last_None c s : cut_last c s = None → char_free c s = true.
Proof.
  induction s as [|y s IH]; [done|]. cbn [cut_last]. destruct (cut_last c s) as [[]|]; [done|]. case_bool_decide; [done|]. intros _. apply char_free_cons. auto.
Qed.

Lemma cut_Some c s a b : cut c s = (a, Some b) → s = a +:+ String c b ∧ char_free c a = true.
Proof.
  revert a. induction s as [|x s IH]; intros a; [done|]. cbn [cut]. case_bool_decide as Hx; [intros [= <- <-]; by subst|].
  destruct (cut c s) as [a' r] eqn:E. intros [= <- ->]. destruct (IH a' eq_refl) as [-> Ha]. split; [done|]. by apply char_free_cons.
Qed.

Lemma unescape_plain mode s t : char_free "%"%char s = true → unescape mode s = Some t → t = s.
Proof.
  revert t. induction s as [|c s IH]; intros t; [by intros _ [= <-]|]. intros [Hc Hs]%char_free_cons. cbn [unescape].
  rewrite bool_decide_eq_false_2 by done. destruct (bad_char mode c); [done|]. destruct (unescape mode s) as [t'|]; [|done]. intros [= <-]. by rewrite (IH t').
Qed.

(** Host names and addresses have letters, digits, dots, dashes and colons. *)
Definition host_char (c : ascii) : bool := is_alnum c || bool_decide (nat_of_ascii c ∈ [45; 46; 58]).
Definition host_like (s : string) : bool := all_char host_char s.

Lemma host_like_free c s : host_char c = false → host_like s = true → char_free c s = true.
Proof.
  intros Hc. induction s as [|a s IH]; [done|]. unfold host_like. cbn [all_char]. intros [Ha Hs]%andb_true_iff. apply char_free_cons. split; [congruence|auto].
Qed.

Lemma digits_free c s : is_digit c = false → all_char is_digit s = true → char_free c s = true.
Proof.
  intros Hc. induction s as [|a s IH]; [done|]. cbn [all_char]. intros [Ha Hs]%andb_true_iff. apply char_free_cons. split; [congruence|auto].
Qed.

(** The authority of a target without separators is the text before a query or fragment. *)
Lemma url_Parse_host scheme hp u : char_free "/"%char hp = true → char_free "@"%char hp = true → url_Parse scheme hp = Some u →
  parseHost (cut "?"%char (cut "#"%char hp).1).1 = Some (u_Host u).
Proof.
  intros Hslash Hat. unfold url_Parse. destruct (cut "#"%char hp) as [h1 frag] eqn:E1. destruct (all_char _ h1); [|done].
  destruct (cut "?"%char h1) as [h2 query] eqn:E2. cbn [fst].
  assert (∀ d, char_free d hp = true → char_free d h2 = true) as Hfree.
  { intros d Hd. apply (cut_prefix "#"%char), (cut_prefix "?"%char) in Hd. rewrite E1 in Hd. cbn [fst] in Hd. by rewrite E2 in Hd. }
  rewrite (cut_free "/"%char h2) by auto. unfold parseAuthority. rewrite (cut_last_free "@"%char h2) by auto.
  rewrite E2. cbn [fst]. destruct (parseHost h2) as [host|]; [|done]. cbn [mbind option_bind from_option unescape]. destruct (unescape EncodeOther _); [|done]. cbn [mbind option_bind]. by intros [= <-].
Qed.

Lemma first_is_free c s : char_free c s = true → first_is c s = None.
Proof. destruct s as [|a s]; [done|]. intros [Ha _]%char_free_cons. unfold first_is. cbn [strip_prefix]. by rewrite bool_decide_eq_false_2 by congruence. Qed.

Lemma valid_port p : validOptionalPort (String ":"%char p) = all_char is_digit p.
Proof. cbn [validOptionalPort]. by rewrite bool_decide_eq_true_2. Qed.

(** A host name with a port. *)
Lemma parse_named host p h : host_like host = true → char_free ":"%char p = true →
  parseHost (host +:+ String ":"%char p) = Some h → h = host +:+ String ":"%char p ∧ all_char is_digit p = true.
Proof.
  intros Hl Hp. unfold parseHost. rewrite (cut_last_app ":"%char host p Hp), valid_port. destruct (all_char is_digit p) eqn:Hd.
  - assert (∀ c, host_char c = false → is_digit c = false → char_free c (host +:+ String ":"%char p) = true) as Hfree.
    { intros c H1 H2. rewrite char_free_app, (host_like_free c _ H1 Hl). apply char_free_cons. split; [by intros <-|by apply digits_free]. }
    rewrite (first_is_free "["%char) by by apply Hfree. intros Hu. split; [|done]. eapply unescape_plain; [|exact Hu]. by apply Hfree.
  - destruct host as [|a host]; [done|]. rewrite app_cons. unfold first_is. cbn [strip_prefix]. rewrite bool_decide_eq_false_2; [done|].
    apply (host_like_free "["%char _ eq_refl), char_free_cons in Hl as [? _]. congruence.
Qed.

Lemma Hostname_named u host p : host_like host = true → u_Host u = host +:+ String ":"%char p → all_char is_digit p = true → Hostname u = host.
Proof.
  intros Hl Hu Hd. unfold Hostname. rewrite Hu, cut_last_app by (by apply digits_free). rewrite valid_port, Hd.
  by rewrite (first_is_free "["%char) by by apply host_like_free.
Qed.

(** An address in brackets with a port. *)
Lemma parse_bracketed host p h : host_like host = true → char_free "]"%char p = true →
  parseHost (String "["%char (host +:+ String "]"%char (String ":"%char p))) = Some h →
  h = String "["%char (host +:+ String "]"%char (String ":"%char p)) ∧ all_char is_digit p = true.
Proof.
  intros Hl Hp. unfold parseHost. rewrite first_is_cons. rewrite <- app_cons. rewrite cut_last_app by (by apply char_free_cons).
  cbn [mbind option_bind]. rewrite valid_port. destruct (all_char is_digit p) eqn:Hd; [|done].
  pose proof (host_like_free "%"%char _ eq_refl Hl) as Hpc.
  assert (∀ s, char_free "%"%char s = true → cut_zone s = None) as Hz.
  { induction s as [|c s IH]; [done|]. intros [Hx Hs]%char_free_cons. cbn [cut_zone strip_prefix]. rewrite bool_decide_eq_false_2 by congruence. by rewrite IH. }
  rewrite Hz by (by apply char_free_cons). intros Hu. split; [|done]. eapply unescape_plain; [|exact Hu].
  rewrite app_cons. apply char_free_cons. split; [done|]. rewrite char_free_app, Hpc. apply char_free_cons. split; [done|]. apply char_free_cons. split; [done|]. by apply digits_free.
Qed.

Lemma Hostname_bracketed u host p : u_Host u = String "["%char (host +:+ String "]"%char (String ":"%char p)) →
  all_char is_digit p = true → Hostname u = host.
Proof.
  intros Hu Hd. unfold Hostname. rewrite Hu.
  assert (String "["%char (host +:+ String "]"%char (String ":"%char p)) = (String "["%char host +:+ "]") +:+ String ":"%char p) as -> by (by rewrite !app_cons, app_assoc_string).
  rewrite cut_last_app by (by apply digits_free). rewrite valid_port, Hd. rewrite app_cons, first_is_cons. cbn [mbind option_bind].
  by rewrite (cut_last_app "]"%char host "").
Qed.

(** A host name alone. *)
Lemma parse_bare host h : host_like host = true → char_free ":"%char host = true → parseHost host = Some h → h = host.
Proof.
  intros Hl Hc. unfold parseHost. rewrite (cut_last_free ":"%char) by done. rewrite (first_is_free "["%char) by by apply host_like_free.
  apply unescape_plain. by apply host_like_free.
Qed.

Lemma Hostname_bare u host : host_like host = true → char_free ":"%char host = true → u_Host u = host → Hostname u = host.
Proof.
  intros Hl Hc Hu. unfold Hostname. rewrite Hu, cut_last_free by done. by rewrite (first_is_free "["%char) by by apply host_like_free.
Qed.

(** A target as it is announced: no user, no path, and not an IPv6 address without brackets. *)
Definition plain_target (hp : string) : Prop :=
  char_free "@"%char hp = true ∧ char_free "/"%char hp = true ∧ (is_Some (SplitHostPort hp) ∨ char_free ":"%char hp = true).

Lemma SplitHostPort_Some hp host port : SplitHostPort hp = Some (host, port) → char_free ":"%char port = true ∧
  (hp = host +:+ String ":"%char port ∨
   hp = String "["%char (host +:+ String "]"%char (String ":"%char port)) ∧ char_free "]"%char port = true).
Proof.
  unfold SplitHostPort. destruct (cut_last ":"%char hp) as [[before port']|] eqn:E; [|done].
  destruct (first_is "["%char hp) as [s|] eqn:Hf.
  - assert (hp = String "["%char s) as ->.
    { destruct hp as [|a hp]; [done|]. unfold first_is in Hf. cbn [strip_prefix] in Hf. case_bool_decide; [|done]. injection Hf as ->. congruence. }
    destruct (cut "]"%char s) as [h after] eqn:Hcut. destruct after as [after|]; [|done]. cbn [mbind option_bind].
    destruct (first_is ":"%char after) as [p|] eqn:Hp; [|done]. cbn [mbind option_bind].
    destruct (char_free ":"%char p && char_free "["%char s && char_free "]"%char p) eqn:Hfree; [|done]. intros [= <- <-].
    apply andb_true_iff in Hfree as [[H1 _]%andb_true_iff H2]. split; [done|]. right. split; [|done].
    apply cut_Some in Hcut as [-> _]. do 3 f_equal. destruct after as [|a after]; [done|]. unfold first_is in Hp. cbn [strip_prefix] in Hp.
    case_bool_decide; [|done]. injection Hp as ->. congruence.
  - apply cut_last_Some in E as [-> Hp]. destruct (_ && _ && _); [|done]. intros [= <- <-]. auto.
Qed.

(** The text of a target before a query or fragment. *)
Lemma cut_both a b : char_free "#"%char a = true → char_free "?"%char a = true →
  (cut "?"%char (cut "#"%char (a +:+ b)).1).1 = a +:+ (cut "?"%char (cut "#"%char b).1).1.
Proof. intros H1 H2. by rewrite !cut_app. Qed.

(** A connection for a target that is allowed goes to a host of the list. *)
Lemma allowed_hostname av scheme hp u : av_enabled av = true → (∀ t, t ∈ av_allowedTargets av → host_like t = true) →
  plain_target hp → IsAllowed av hp = true → url_Parse scheme hp = Some u → Hostname u ∈ av_allowedTargets av.
Proof.
  intros Hen Hlike (Hat & Hslash & Hplain) Hok Hparse. apply url_Parse_host in Hparse; [|done..].
  unfold IsAllowed in Hok. rewrite Hen in Hok. cbn [negb orb] in Hok. apply bool_decide_eq_true in Hok. unfold normalizeHostPort in Hok.
  assert (∀ c p, char_free c p = true → char_free c (cut "?"%char (cut "#"%char p).1).1 = true) as Hpre by (intros; by apply cut_prefix, cut_prefix).
  destruct (SplitHostPort hp) as [[host port]|] eqn:Hs.
  - pose proof (Hlike _ Hok) as Hl. pose proof (host_like_free "#"%char _ eq_refl Hl) as H1. pose proof (host_like_free "?"%char _ eq_refl Hl) as H2.
    apply SplitHostPort_Some in Hs as (Hp & [-> | [-> Hb]]).
    + rewrite cut_both in Hparse by done. change (String ":"%char port) with (":" +:+ port) in Hparse. rewrite cut_both in Hparse by done.
      apply parse_named in Hparse as [Hu Hd]; [|done|by apply Hpre]. by rewrite (Hostname_named u host _ Hl Hu Hd).
    + change (String "["%char (host +:+ String "]"%char (String ":"%char port))) with ("[" +:+ (host +:+ ("]:" +:+ port))) in Hparse.
      rewrite !cut_both in Hparse by done. apply parse_bracketed in Hparse as [Hu Hd]; [|done|by apply Hpre]. by rewrite (Hostname_bracketed u host _ Hu Hd).
  - destruct Hplain as [[? ?]|Hcolon]; [done|]. pose proof (Hlike _ Hok) as Hl.
    rewrite <- (app_empty_r hp), cut_both in Hparse by (by apply host_like_free). rewrite app_empty_r in Hparse.
    apply parse_bare in Hparse; [|done..]. by rewrite (Hostname_bare u hp).
Qed.
