(* ===== verification/SidecarProxy.v ===== *)
(** * The routing sidecar: [pkg/sidecar/proxy]

    The proxy in front of a decoder, which runs the protocols that split a request over
    encoders, a prefiller and the decoder: NIXL, shared storage, SGLang and the encoder stage.
    A handler is a computation on the caches of reverse proxies, the list of the requests that
    were handed to a reverse proxy, and the response to the client; it panics where the code
    does. The servers behind the reverse proxies are a function of what they are sent and of
    how many requests were sent before. Traces, logs and flushing are left out; errors are
    their texts. *)

From stdpp Require Import prelude gmap strings list pretty.
From Stdlib Require Import ZArith Ascii Lia.
From S2P Require Import Prelude Float64 FlowTypes Ordering SchedTypes Json JsonDecode ProfileHandlers Datastore SidecarTargets.

(** ** HTTP *)

(** Header names are in lower case; each has its values in order. *)
Abbreviation Header := (gmap string (list string)).

Definition h_Values (name : string) (h : Header) : list string := default [] (h !! name).
Definition h_Get (name : string) (h : Header) : string := default ""%string (head (h_Values name h)).
Definition h_Add (name value : string) (h : Header) : Header := <[name := h_Values name h ++ [value]]> h.
Definition h_Set (name value : string) (h : Header) : Header := <[name := [value]]> h.
Definition h_copy (src dst : Header) : Header := union_with (λ old new, Some (old ++ new)) dst src.

(** A body can be read or gives an error. *)
Record HttpRequest := mkHttpRequest { rq_Path : string; rq_Header : Header; rq_Body : string + string }.

Definition with_body (body : string) (r : HttpRequest) : HttpRequest := mkHttpRequest (rq_Path r) (rq_Header r) (inl body).
Definition add_header (name value : string) (r : HttpRequest) : HttpRequest := mkHttpRequest (rq_Path r) (h_Add name value (rq_Header r)) (rq_Body r).

(** Reverse proxies: that of a decoder has an error handler of its own. *)
Inductive Handler := HDecoder (u : URL) | HProxy (u : URL).

Inductive Outcome :=
  | Responded (status : Z) (header : Header) (chunks : list string)
  | Refused
  | Failed (err : string).

(** What is done to a response writer. *)
Inductive WOp := OHeader (h : Header) | OWriteHeader (status : Z) | OWrite (b : string).

(** *** Writers: [status_response_writer.go] and that of the client *)

Record ResponseWriter := mkWriter { rw_Header : Header; rw_Sent : option (Z * Header); rw_Body : string }.

Definition new_writer : ResponseWriter := mkWriter ∅ None "".

Definition client_op (w : ResponseWriter) (op : WOp) : ResponseWriter :=
  let send status := match rw_Sent w with None => Some (status, rw_Header w) | sent => sent end in
  match op with
  | OHeader h => mkWriter (h_copy h (rw_Header w)) (rw_Sent w) (rw_Body w)
  | OWriteHeader status => mkWriter (rw_Header w) (send status) (rw_Body w)
  | OWrite b => mkWriter (rw_Header w) (send 200%Z) (rw_Body w +:+ b)
  end.

Record bufferedResponseWriter := mkBuffered { bw_headers : Header; bw_buffer : string; bw_statusCode : Z }.

Definition buffered_op (w : bufferedResponseWriter) (op : WOp) : bufferedResponseWriter :=
  match op with
  | OHeader h => mkBuffered (h_copy h (bw_headers w)) (bw_buffer w) (bw_statusCode w)
  | OWriteHeader status => mkBuffered (bw_headers w) (bw_buffer w) status
  | OWrite b => mkBuffered (bw_headers w) (bw_buffer w +:+ b) (if bool_decide (bw_statusCode w = 0)%Z then 200%Z else bw_statusCode w)
  end.

Definition isHTTPError (statusCode : Z) : bool := bool_decide (statusCode < 200 ∨ 300 ≤ statusCode)%Z.

Definition shouldFallbackToDecode (pw : bufferedResponseWriter) : bool := negb (bool_decide (400 ≤ bw_statusCode pw ≤ 451)%Z).

(** *** Errors: [errors.go] *)

Definition sendError (err errorType : string) (code : Z) : list WOp :=
  [OWriteHeader code;
   OWrite (json_object [always "object" (MarshalString "error"); always "message" (MarshalString err); always "type" (MarshalString errorType);
                        always "param" (MarshalString ""); always "code" (pretty code)])].

Definition errorJSONInvalid (err : string) : list WOp := sendError err "BadRequestError" 400.
Definition errorBadGateway (err : string) : list WOp := sendError err "BadGateway" 502.
Definition errorInternalServerError (err : string) : list WOp := sendError err "InternalServerError" 500.

Definition decoderServiceUnavailable : list WOp :=
  sendError "The decode node is not ready. Please check that the vLLM service is running and the port configuration is correct." "ServiceUnavailable" 503.

(** *** Reverse proxies: [httputil.ReverseProxy], [createDecoderProxyHandler] *)

Definition serve_ops (h : Handler) (o : Outcome) : list WOp :=
  match o, h with
  | Responded status header chunks, _ => OHeader header :: OWriteHeader status :: (OWrite <$> chunks)
  | Refused, HDecoder _ => decoderServiceUnavailable
  | Failed err, HDecoder _ => errorBadGateway err
  | _, HProxy _ => [OWriteHeader 502]
  end.

(** ** Configuration: [proxy.go] *)

Definition KVConnectorNIXLV2 : string := "nixlv2".
Definition KVConnectorSharedStorage : string := "shared-storage".
Definition KVConnectorSGLang : string := "sglang".
Definition ECExampleConnector : string := "ec-example".

Inductive APIType := APITypeChatCompletions | APITypeResponses.

Definition tokenLimitFieldsForAPIType (api : APIType) : list string :=
  match api with APITypeResponses => ["max_output_tokens"] | APITypeChatCompletions => ["max_tokens"; "max_completion_tokens"] end.

Record Config := mkConfig {
  cf_Port : string;
  cf_DecoderURL : URL;
  cf_KVConnector : string;
  cf_ECConnector : string;
  cf_DataParallelSize : Z;
  cf_MaxIdleConnsPerHost : Z;
  cf_EnablePrefillerSampling : bool;
  cf_UseTLSForPrefiller : bool;
  cf_UseTLSForDecoder : bool;
  cf_UseTLSForEncoder : bool;
  cf_InsecureSkipVerifyForPrefiller : bool;
  cf_InsecureSkipVerifyForEncoder : bool;
  cf_InsecureSkipVerifyForDecoder : bool;
  cf_SecureServing : bool;
  cf_CertPath : string;
  cf_EnableSSRFProtection : bool;
  cf_InferencePoolNamespace : string;
  cf_InferencePoolName : string;
  cf_PoolGroup : string
}.

Definition cf_with_Port (port : string) (decoderURL : URL) (c : Config) : Config :=
  mkConfig port decoderURL (cf_KVConnector c) (cf_ECConnector c) (cf_DataParallelSize c) (cf_MaxIdleConnsPerHost c) (cf_EnablePrefillerSampling c)
    (cf_UseTLSForPrefiller c) (cf_UseTLSForDecoder c) (cf_UseTLSForEncoder c)
    (cf_InsecureSkipVerifyForPrefiller c) (cf_InsecureSkipVerifyForEncoder c) (cf_InsecureSkipVerifyForDecoder c)
    (cf_SecureServing c) (cf_CertPath c) (cf_EnableSSRFProtection c) (cf_InferencePoolNamespace c) (cf_InferencePoolName c) (cf_PoolGroup c).

(** The runner of the protocol between prefiller and decoder. *)
Inductive PDConnector := RunNIXLV2 | RunSharedStorage | RunSGLang.

Record Server := mkServer {
  s_config : Config;
  s_allowlistValidator : AllowlistValidator;
  s_runPDConnectorProtocol : PDConnector;
  s_runEPDConnectorProtocol : bool;
  s_prefillerScheme : string;
  s_encoderScheme : string;
  s_decoderProxy : URL;
  s_dataParallelProxies : gmap string URL;
  s_forwardDataParallel : bool
}.

Definition setKVConnector (connector : string) : PDConnector :=
  if bool_decide (connector = KVConnectorSharedStorage) then RunSharedStorage
  else if bool_decide (connector = KVConnectorSGLang) then RunSGLang
  else RunNIXLV2.

Definition setECConnector (connector : string) : bool := bool_decide (connector = ECExampleConnector).

(** [NewProxy], and the decoder proxy that [Start] makes. *)
Definition NewProxy (config : Config) (av : AllowlistValidator) : Server :=
  let ec := negb (bool_decide (cf_ECConnector config = ""%string)) in
  mkServer config av (setKVConnector (cf_KVConnector config)) (ec && setECConnector (cf_ECConnector config))
    (if cf_UseTLSForPrefiller config then "https" else "http")
    (if ec && cf_UseTLSForEncoder config then "https" else "http")
    (cf_DecoderURL config) ∅ true.

(** [strconv.Atoi] of a port. *)
Definition Atoi (s : string) : option Z := slodeadline.ParseInt (String.list_ascii_of_string s).

Definition url_Port (u : URL) : string :=
  match cut_last ":"%char (u_Host u) with Some (_, p) => if validOptionalPort (String ":"%char p) then p else "" | None => "" end.

Definition localhost (scheme port : string) : option URL := url_Parse scheme ("localhost:" +:+ port).

(** [startDataParallel]: the map of proxies, and the servers of the other ranks; [None] is an
    error. *)
Fixpoint rank_proxies (podIP scheme : string) (basePort baseDecoderPort : Z) (idx : nat) (proxies : gmap string URL) : option (gmap string URL) :=
  match idx with
  | O => Some proxies
  | S idx' =>
      proxies ← rank_proxies podIP scheme basePort baseDecoderPort idx' proxies;
      u ← localhost scheme (pretty (baseDecoderPort + Z.of_nat idx)%Z);
      Some (<[JoinHostPort podIP (pretty (basePort + Z.of_nat idx)%Z) := u]> proxies)
  end.

(** A clone serves the requests of its own rank, and none for the others. *)
Definition rank_server (s : Server) (scheme : string) (basePort baseDecoderPort : Z) (idx : nat) : option Server :=
  u ← localhost scheme (pretty (baseDecoderPort + Z.of_nat idx)%Z);
  let c := s_config s in
  Some (mkServer
    (cf_with_Port (pretty (basePort + Z.of_nat idx)%Z) u c)
    (s_allowlistValidator s) (setKVConnector (cf_KVConnector c)) (s_runEPDConnectorProtocol s) (s_prefillerScheme s) (s_encoderScheme s)
    u (s_dataParallelProxies s) false).

Definition startDataParallel (podIP : string) (s : Server) : option (Server * list Server) :=
  basePort ← Atoi (cf_Port (s_config s));
  baseDecoderPort ← Atoi (url_Port (cf_DecoderURL (s_config s)));
  let scheme := u_Scheme (cf_DecoderURL (s_config s)) in
  let ranks := Z.to_nat (cf_DataParallelSize (s_config s) - 1) in
  proxies ← rank_proxies podIP scheme basePort baseDecoderPort ranks (<[JoinHostPort podIP (cf_Port (s_config s)) := s_decoderProxy s]> (s_dataParallelProxies s));
  let s' := mkServer (s_config s) (s_allowlistValidator s) (s_runPDConnectorProtocol s) (s_runEPDConnectorProtocol s) (s_prefillerScheme s)
              (s_encoderScheme s) (s_decoderProxy s) proxies (s_forwardDataParallel s) in
  clones ← mapM (rank_server s' scheme basePort baseDecoderPort) (seq 1 ranks);
  Some (s', clones).

(** [Start] without a list that was injected, up to the servers it runs. *)
Definition Start (client : option GoError) (podIP : string) (config : Config) : option (Server * list Server) :=
  match NewAllowlistValidator client (cf_EnableSSRFProtection config) (cf_PoolGroup config) with
  | inl av => startDataParallel podIP (NewProxy config av)
  | inr _ => None
  end.

(** ** Caches of reverse proxies *)

(** The LRU cache of [golang-lru]: it has what was added last, and otherwise only what was
    there before. *)
Class ProxyCache (C : Type) := {
  pc_New : C;
  pc_Get : string → C → option URL;
  pc_Add : string → URL → C → C
}.

Class LawfulProxyCache (C : Type) `{ProxyCache C} : Prop := {
  pc_new k : pc_Get k pc_New = None;
  pc_add k u c : pc_Get k (pc_Add k u c) = Some u;
  pc_add_other k k' u u' c : k' ≠ k → pc_Get k' (pc_Add k u c) = Some u' → pc_Get k' c = Some u'
}.

(** Random choices and the clock: ids, the sampled host, the room and how far the decoder is when
    its answer is looked at. *)
Record Choices := mkChoices {
  ch_requestID : string + string;
  ch_uuid : string + string;
  ch_sample : nat → nat;
  ch_roomID : Z;
  ch_looked : nat;
  ch_written : nat
}.

Section proxy.
Context {C : Type} `{ProxyCache C}.
(** The servers, the texts of numbers and of the errors of decoding and of parsing a URL. *)
Context (upstream : nat → Handler → HttpRequest → Outcome) (FormatFloat : float64 → string) (json_error url_error : string → string).
(** The port of the bootstrap server of SGLang, see [sglang_init]. *)
Context (sglangBootstrapPort : Z).

Record ProxyState := mkProxyState {
  px_prefillers : C;
  px_encoders : C;
  px_sent : list (Handler * HttpRequest);
  px_w : ResponseWriter
}.

Abbreviation PM := (GoM ProxyState).

Definition respond (ops : list WOp) : PM unit :=
  modify (λ st, mkProxyState (px_prefillers st) (px_encoders st) (px_sent st) (foldl client_op (px_w st) ops)).

(** [ServeHTTP] hands the request to the server; what it writes goes to one of the writers. *)
Definition ServeHTTP (h : Handler) (r : HttpRequest) : PM Outcome :=
  n ← gets (λ st, length (px_sent st));
  _ ← modify (λ st, mkProxyState (px_prefillers st) (px_encoders st) (px_sent st ++ [(h, r)]) (px_w st));
  mret (upstream n h r).

Definition serve_client (h : Handler) (r : HttpRequest) : PM unit := o ← ServeHTTP h r; respond (serve_ops h o).

Definition serve_buffered (h : Handler) (r : HttpRequest) : PM bufferedResponseWriter :=
  o ← ServeHTTP h r; mret (foldl buffered_op (mkBuffered ∅ "" 0) (serve_ops h o)).

(** [createProxyHandler] on one of the caches. *)
Definition new_proxy (scheme hostPort : string) (cache : C) : (Handler + string) * C :=
  match pc_Get hostPort cache with
  | Some u => (inl (HProxy u), cache)
  | None =>
      let hostPort := default hostPort (strip_prefix "http://" hostPort) in
      match url_Parse scheme hostPort with
      | None => (inr (url_error hostPort), cache)
      | Some u => (inl (HProxy u), pc_Add hostPort u cache)
      end
  end.

Definition prefillerProxyHandler (s : Server) (hostPort : string) : PM (Handler + string) :=
  λ st, let '(r, cache) := new_proxy (s_prefillerScheme s) hostPort (px_prefillers st) in
        Some (r, mkProxyState cache (px_encoders st) (px_sent st) (px_w st)).

Definition encoderProxyHandler (s : Server) (hostPort : string) : PM (Handler + string) :=
  λ st, let '(r, cache) := new_proxy (s_encoderScheme s) hostPort (px_encoders st) in
        Some (r, mkProxyState (px_prefillers st) cache (px_sent st) (px_w st)).

(** [data_parallel.go]. *)
Definition dataParallelHandler (s : Server) (r : HttpRequest) : PM bool :=
  let hostPort := h_Get DataParallelEndpointHeader (rq_Header r) in
  if bool_decide (hostPort = ""%string) then mret false
  else
    match s_dataParallelProxies s !! hostPort with
    | Some u => _ ← serve_client (HDecoder u) r; mret true
    | None => _ ← respond [OWriteHeader 400]; mret true
    end.

(** The decoder, or the one of a rank. *)
Definition serve_decoder (s : Server) (r : HttpRequest) : PM unit :=
  used ← (if s_forwardDataParallel s then dataParallelHandler s r else mret false);
  if (used : bool) then mret tt else serve_client (HDecoder (s_decoderProxy s)) r.

Definition Marshal (m : JsonObject) : string := JSON_Marshal FormatFloat (JObject m).

(** Reading and decoding the body; a failure is answered. A nil map is [None]. *)
Definition read_body (r : HttpRequest) (k : string → option JsonObject → PM unit) : PM unit :=
  match rq_Body r with
  | inr err => respond [OWriteHeader 400; OWrite err]
  | inl original => match UnmarshalMap original with None => respond (errorJSONInvalid (json_error original)) | Some m => k original m end
  end.

(** An assignment to a nil map panics. *)
Definition assigned (m : option JsonObject) : PM JsonObject := match m with Some m => mret m | None => panic end.

(** ** NIXL: [connector_nixlv2.go] *)

Definition requestHeaderRequestID : string := "x-request-id".

Definition nixl_prefill_params : JSON :=
  JObject [("do_remote_decode", JBool true); ("do_remote_prefill", JBool false); ("remote_block_ids", JNull);
           ("remote_engine_id", JNull); ("remote_host", JNull); ("remote_port", JNull)]%string.

Definition nixl_prefill_request (tokenLimitFields : list string) (m : JsonObject) : JsonObject :=
  let m := obj_insert "kv_transfer_params" nixl_prefill_params m in
  let m := obj_insert "stream" (JBool false) m in
  let m := obj_delete "stream_options" m in
  foldl (λ m field, obj_insert field (JInt 1) m) m tokenLimitFields.

Definition restore (saved : option JSON) (field : string) (m : JsonObject) : JsonObject :=
  match saved with Some v => obj_insert field v m | None => m end.

(** The fields that were saved of [original] are put back into the request [m]. *)
Definition nixl_decode_request (tokenLimitFields : list string) (original m : JsonObject) (params : option JSON) : JsonObject :=
  let m := restore (obj_lookup "stream" original) "stream" (obj_delete "stream" m) in
  let m := restore (obj_lookup "stream_options" original) "stream_options" m in
  let m := foldl (λ m field, restore (obj_lookup field original) field (obj_delete field m)) m tokenLimitFields in
  obj_insert "kv_transfer_params" (default JNull params) m.

Definition runNIXLProtocolV2 (ch : Choices) (s : Server) (r : HttpRequest) (prefillPodHostPort : string) (apiType : APIType) : PM unit :=
  let fields := tokenLimitFieldsForAPIType apiType in
  read_body r (λ original body,
    match ch_uuid ch with
    | inr err => respond (errorBadGateway err)
    | inl uuid =>
        m ← assigned body;
        let pm := nixl_prefill_request fields m in
        let preq := with_body (Marshal pm) (add_header requestHeaderRequestID uuid r) in
        h ← prefillerProxyHandler s prefillPodHostPort;
        match h with
        | inr err => respond (errorBadGateway err)
        | inl h =>
            pw ← serve_buffered h preq;
            if isHTTPError (bw_statusCode pw) then
              if shouldFallbackToDecode pw then serve_client (HDecoder (s_decoderProxy s)) (with_body original r)
              else respond [OHeader (bw_headers pw); OWriteHeader (bw_statusCode pw); OWrite (bw_buffer pw)]
            else
              match UnmarshalMap (bw_buffer pw) with
              | None => respond (errorJSONInvalid (json_error (bw_buffer pw)))
              | Some prefillerResponse =>
                  let params := prefillerResponse ≫= obj_lookup "kv_transfer_params" in
                  serve_decoder s (with_body (Marshal (nixl_decode_request fields m pm params)) (add_header requestHeaderRequestID uuid r))
              end
        end
    end).

(** ** Shared storage: [connector_shared_storage.go] *)

Definition hasCacheThresholdFinishReason (response : option JsonObject) : bool :=
  match response ≫= obj_lookup "choices" with
  | Some (JArray (JObject choice :: _)) =>
      match obj_lookup "finish_reason" choice with Some (JString reason) => bool_decide (reason = "cache_threshold"%string) | _ => false end
  | _ => false
  end.

Definition trim (s : string) : string := String.string_of_list_ascii (slodeadline.TrimSpace s).

Definition sse_line (line : string) : bool :=
  match strip_prefix "data: " (trim line) with
  | Some data =>
      if bool_decide (data = "[DONE]"%string) then false
      else match UnmarshalMap data with Some response => hasCacheThresholdFinishReason response | None => false end
  | None => false
  end.

Definition checkBufferedResponseForCacheThreshold (data : string) : bool := existsb sse_line (split_on (ascii_of_nat 10) data).

(** [bytes.Count] of the end of an event. *)
Fixpoint count_events (s : string) : nat :=
  match s with
  | String a ((String b s'') as s') =>
      if bool_decide (nat_of_ascii a = 10 ∧ nat_of_ascii b = 10) then S (count_events s'') else count_events s'
  | _ => 0
  end.

Definition shouldSignalBytes (data : string) : bool := bool_decide (2 ≤ count_events data).

Definition cat (l : list string) : string := foldr String.append ""%string l.

(** How many chunks are in the buffer when it is ready: two events, or all. *)
Fixpoint ready_after (buffer : string) (chunks : list string) : nat :=
  match chunks with
  | [] => 0
  | c :: chunks' => if shouldSignalBytes (buffer +:+ c) then 1 else S (ready_after (buffer +:+ c) chunks')
  end.

Definition op_header (ops : list WOp) : list WOp := List.filter (λ op, match op with OHeader _ => true | _ => false end) ops.
Definition op_status (ops : list WOp) : Z := default 0%Z (head (omap (λ op, match op with OWriteHeader st => Some st | _ => None end) ops)).
Definition op_chunks (ops : list WOp) : list string := omap (λ op, match op with OWrite b => Some b | _ => None end) ops.

(** The result is [None] when an error was answered, otherwise whether a prefill is needed. The
    writer starts with a buffer, but its headers are those of the client. The decoder may be
    ahead when the buffer is looked at, by [ch_looked]; when an error is passed on, what the
    decoder has not written by the time the handler returns is lost, [ch_written]. *)
Definition tryDecodeStreaming (ch : Choices) (s : Server) (r : HttpRequest) : PM (option bool) :=
  let h := HDecoder (s_decoderProxy s) in
  o ← ServeHTTP h r;
  let ops := serve_ops h o in
  let chunks := op_chunks ops in
  let looked := ready_after "" chunks `max` (ch_looked ch `min` length chunks) in
  _ ← respond (op_header ops);
  if isHTTPError (op_status ops) then
    _ ← respond (OWriteHeader (op_status ops) :: (OWrite <$> take (looked `max` ch_written ch) chunks));
    mret None
  else if checkBufferedResponseForCacheThreshold (cat (take looked chunks)) then mret (Some true)
  else
    _ ← respond (OWriteHeader (op_status ops) :: (OWrite <$> chunks));
    mret (Some false).

Definition tryDecodeBuffered (s : Server) (r : HttpRequest) : PM (option bool) :=
  dw ← serve_buffered (HDecoder (s_decoderProxy s)) r;
  if isHTTPError (bw_statusCode dw) then
    _ ← respond (OWriteHeader (bw_statusCode dw) :: (if bool_decide (bw_buffer dw = ""%string) then [] else [OWrite (bw_buffer dw)]));
    mret None
  else
    match UnmarshalMap (bw_buffer dw) with
    | None => _ ← respond (errorInternalServerError (json_error (bw_buffer dw))); mret None
    | Some response =>
        if hasCacheThresholdFinishReason response then mret (Some true)
        else
          _ ← modify (λ st, mkProxyState (px_prefillers st) (px_encoders st) (px_sent st)
                 (mkWriter (bw_headers dw ∪ rw_Header (px_w st)) (rw_Sent (px_w st)) (rw_Body (px_w st))));
          _ ← respond [OWrite (bw_buffer dw)];
          mret (Some false)
    end.

Definition tryDecode (ch : Choices) (s : Server) (r : HttpRequest) (m : JsonObject) : PM (option bool) :=
  match obj_lookup "stream" m with Some (JBool true) => tryDecodeStreaming ch s r | _ => tryDecodeBuffered s r end.

Definition storage_prefill_request (m : JsonObject) : JsonObject :=
  obj_insert "cache_hit_threshold" (JInt 0) (obj_insert "max_completion_tokens" (JInt 1) (obj_insert "max_tokens" (JInt 1) m)).

(** Whether the prefill succeeded. *)
Definition prefill (s : Server) (r : HttpRequest) (prefillPodHostPort : string) (m : JsonObject) : PM bool :=
  let preq := with_body (Marshal (storage_prefill_request m)) r in
  h ← prefillerProxyHandler s prefillPodHostPort;
  match h with
  | inr err => _ ← respond (errorBadGateway err); mret false
  | inl h =>
      pw ← serve_buffered h preq;
      if isHTTPError (bw_statusCode pw) then
        _ ← respond (OWriteHeader (bw_statusCode pw) :: (if bool_decide (bw_buffer pw = ""%string) then [] else [OWrite (bw_buffer pw)]));
        mret false
      else mret true
  end.

Definition prefill_and_decode (s : Server) (r : HttpRequest) (prefillPodHostPort : string) (m : JsonObject) : PM unit :=
  ok ← prefill s r prefillPodHostPort m;
  if (ok : bool) then serve_client (HDecoder (s_decoderProxy s)) (with_body (Marshal (obj_insert "cache_hit_threshold" (JInt 0) m)) r)
  else mret tt.

Definition runSharedStorageProtocol (ch : Choices) (s : Server) (r : HttpRequest) (prefillPodHostPort : string) : PM unit :=
  read_body r (λ original body,
    m ← assigned body;
    match obj_lookup "cache_hit_threshold" m with
    | None => prefill_and_decode s r prefillPodHostPort m
    | Some _ =>
        needsPrefill ← tryDecode ch s (with_body original r) m;
        if bool_decide (needsPrefill = Some true) then prefill_and_decode s r prefillPodHostPort m else mret tt
    end).

(** ** SGLang: [connector_sglang.go] *)

Definition getBootstrapHost (prefillHostPort : string) : string := (cut ":"%char prefillHostPort).1.

Definition addSGLangBootstrapInfo (m : option JsonObject) (prefillHostPort : string) (roomID : Z) : JsonObject :=
  obj_insert "bootstrap_room" (JInt roomID) (obj_insert "bootstrap_port" (JInt sglangBootstrapPort)
    (obj_insert "bootstrap_host" (JString (getBootstrapHost prefillHostPort)) (default [] m))).

(** The prefill is sent by a goroutine, whose answer nobody reads. *)
Definition runSGLangProtocol (ch : Choices) (s : Server) (r : HttpRequest) (prefillPodHostPort : string) : PM unit :=
  match rq_Body r with
  | inr err => respond (errorJSONInvalid ("failed to read request body: " +:+ err))
  | inl original =>
      match UnmarshalMap original with
      | None => respond (errorJSONInvalid ("failed to parse request body: " +:+ json_error original))
      | Some m =>
          let req := with_body (Marshal (addSGLangBootstrapInfo m prefillPodHostPort (ch_roomID ch))) r in
          h ← prefillerProxyHandler s prefillPodHostPort;
          match h with
          | inr err => respond (errorBadGateway err)
          | inl h => _ ← ServeHTTP h req; serve_client (HDecoder (s_decoderProxy s)) req
          end
      end
  end.

Definition run_pd (ch : Choices) (s : Server) (r : HttpRequest) (host : string) (apiType : APIType) : PM unit :=
  match s_runPDConnectorProtocol s with
  | RunNIXLV2 => runNIXLProtocolV2 ch s r host apiType
  | RunSharedStorage => runSharedStorageProtocol ch s r host
  | RunSGLang => runSGLangProtocol ch s r host
  end.

(** ** The encoder stage: [connector_epd_shared_storage.go] *)

Definition mmTypes : list string := ["image_url"; "audio_url"; "input_audio"].

Definition field_of (k : string) (j : JSON) : option JSON := match j with JObject m => obj_lookup k m | _ => None end.

Definition mm_item (item : JSON) : option JsonObject :=
  match item with
  | JObject m => match obj_lookup "type" m with Some (JString t) => if bool_decide (t ∈ mmTypes) then Some m else None | _ => None end
  | _ => None
  end.

Definition extractMMItems (requestData : option JsonObject) : list JsonObject :=
  match requestData ≫= obj_lookup "messages" with
  | Some (JArray messages) => messages ≫= λ msg, match field_of "content" msg with Some (JArray items) => omap mm_item items | _ => [] end
  | _ => []
  end.

Definition buildEncoderRequest (originalRequest : JsonObject) (mmItem : JsonObject) : JsonObject :=
  let m := obj_insert "messages" (JArray [JObject [("content", JArray [JObject mmItem]); ("role", JString "user")]])%string originalRequest in
  obj_delete "stream_options" (obj_insert "stream" (JBool false) (obj_insert "max_tokens" (JInt 1) m)).

Definition url_of (field : string) (item : JsonObject) : string :=
  match obj_lookup field item ≫= field_of "url" with Some (JString u) => u | _ => "" end.

Definition mmItemURL (item : JsonObject) : string :=
  match obj_lookup "type" item with
  | Some (JString t) =>
      if bool_decide (t = "image_url"%string) then url_of "image_url" item
      else if bool_decide (t = "audio_url"%string) then url_of "audio_url" item else ""
  | _ => ""
  end.

Fixpoint dedupe (seenURLs : gset string) (items : list JsonObject) : list JsonObject :=
  match items with
  | [] => []
  | item :: items' =>
      let url := mmItemURL item in
      if bool_decide (url = ""%string) then item :: dedupe seenURLs items'
      else if bool_decide (url ∈ seenURLs) then dedupe seenURLs items'
      else item :: dedupe ({[url]} ∪ seenURLs) items'
  end.

(** One of the goroutines; the result is its error. *)
Definition encode_item (s : Server) (originalRequest item : JsonObject) (hostPort requestID : string) (itemIdx : nat) : PM (option string) :=
  h ← encoderProxyHandler s hostPort;
  match h with
  | inr err => mret (Some ("failed to get encoder proxy handler for " +:+ hostPort +:+ ": " +:+ err))
  | inl h =>
      let header := h_Set requestHeaderRequestID (requestID +:+ "-enc-" +:+ pretty (Z.of_nat itemIdx)) (h_Set "content-type" "application/json" ∅) in
      pw ← serve_buffered h (mkHttpRequest "/v1/chat/completions" header (inl (Marshal (buildEncoderRequest originalRequest item))));
      mret (if isHTTPError (bw_statusCode pw) then
              Some ("encoder request failed for item " +:+ pretty (Z.of_nat itemIdx) +:+ " with status " +:+ pretty (bw_statusCode pw) +:+ ": " +:+ bw_buffer pw)
            else None)
  end.

(** The goroutines are run in the order of the items; the first error stands for any. An index
    out of range panics. *)
Fixpoint fanout (s : Server) (originalRequest : JsonObject) (encoderHostPorts : list string) (requestID : string) (idx : nat) (items : list JsonObject) : PM (option string) :=
  match items with
  | [] => mret None
  | item :: items' =>
      hostPort ← getsome (λ _, encoderHostPorts !! (idx mod length encoderHostPorts));
      err ← encode_item s originalRequest item hostPort requestID idx;
      errs ← fanout s originalRequest encoderHostPorts requestID (S idx) items';
      mret (match err with Some e => Some e | None => errs end)
  end.

Definition fanoutEncoderPrimer (s : Server) (originalRequest : option JsonObject) (encoderHostPorts : list string) (requestID : string) : PM (option string) :=
  fanout s (default [] originalRequest) encoderHostPorts requestID 0 (dedupe ∅ (extractMMItems originalRequest)).

Definition runEPDProtocol (ch : Choices) (s : Server) (r : HttpRequest) (prefillEndPoint : string) (encodeEndPoints : list string) : PM unit :=
  read_body r (λ original body,
    match ch_requestID ch with
    | inr err => respond (errorBadGateway err)
    | inl requestID =>
        err ← (if bool_decide (encodeEndPoints = []) then mret None else fanoutEncoderPrimer s body encodeEndPoints requestID);
        match err with
        | Some err => respond (errorBadGateway err)
        | None =>
            m ← assigned body;
            let pdRequest := add_header requestHeaderRequestID requestID (with_body (Marshal (obj_insert "cache_hit_threshold" (JInt 0) m)) r) in
            if bool_decide (prefillEndPoint = ""%string) then serve_decoder s pdRequest
            else run_pd ch s pdRequest prefillEndPoint APITypeChatCompletions
        end
    end).

(** ** Routing: [chat_completions.go] *)

Definition header_list (name : string) (h : Header) : list string :=
  match h_Values name h with
  | [v] => split_on ","%char v
  | l => l
  end.

(** The host of the prefiller; an index out of range panics. *)
Definition prefill_host (ch : Choices) (s : Server) (r : HttpRequest) : PM string :=
  let hosts := header_list PrefillEndpointHeader (rq_Header r) in
  if bool_decide (hosts = []) then mret ""%string
  else
    host ← getsome (λ _, hosts !! (if cf_EnablePrefillerSampling (s_config s) then ch_sample ch (length hosts) else 0));
    mret (trim host).

Definition allowed_encoders (s : Server) (r : HttpRequest) : list string :=
  List.filter (IsAllowed (s_allowlistValidator s)) (trim <$> header_list EncoderEndpointsHeader (rq_Header r)).

Definition forbidden : list WOp :=
  [OHeader {["content-type"%string := ["text/plain; charset=utf-8"%string]; "x-content-type-options"%string := ["nosniff"%string]]};
   OWriteHeader 403; OWrite ("Forbidden: prefill target not allowed by SSRF protection" +:+ String (ascii_of_nat 10) "")].

(** The method value that runs the encoder stage is bound to a server, which is [epd]. *)
Definition disaggregatedPrefillHandler (ch : Choices) (epd s : Server) (apiType : APIType) (r : HttpRequest) : PM unit :=
  prefillHostPort ← prefill_host ch s r;
  if negb (bool_decide (prefillHostPort = ""%string)) && negb (IsAllowed (s_allowlistValidator s) prefillHostPort) then respond forbidden
  else
    let allowedEncoders := allowed_encoders s r in
    if negb (bool_decide (allowedEncoders = [])) && s_runEPDConnectorProtocol s then runEPDProtocol ch epd r prefillHostPort allowedEncoders
    else if negb (bool_decide (prefillHostPort = ""%string)) then run_pd ch s r prefillHostPort apiType
    else serve_decoder s r.
End proxy.
Arguments ProxyState : clear implicits.

(** [init]: the port from the environment. *)
Definition sglang_init (env : string) : Z := default 8998%Z (Atoi env).
