(* ===== verification/SidecarOptions.v ===== *)
(** * Options of the routing sidecar

    The command line of the sidecar ([options.go]): the defaults with the environment, the
    completion that turns flags into the configuration of the proxy, deprecated ones included,
    and the validation. What passes the validation is what the proxy is started with. *)
From stdpp Require Import prelude gmap strings list.
From Stdlib Require Import ZArith Ascii Lia.
From S2P Require Import Prelude SchedTypes Datastore SidecarTargets SidecarProxy.

Definition prefillStage : string := "prefiller".
Definition decodeStage : string := "decoder".
Definition encodeStage : string := "encoder".

Definition supportedKVConnectors : list string := [KVConnectorNIXLV2; KVConnectorSharedStorage; KVConnectorSGLang].
Definition supportedECConnectors : list string := [ECExampleConnector].
Definition supportedTLSStages : list string := [prefillStage; decodeStage; encodeStage].

Definition names (l : list string) : string := String.concat ", " l.

Record Options := mkOptions {
  op_Config : Config;
  op_vllmPort : string;
  op_enableTLS : list string;
  op_tlsInsecureSkipVerify : list string;
  op_inferencePool : string;
  op_connector : string;
  op_prefillerUseTLS : bool;
  op_decoderUseTLS : bool;
  op_prefillerInsecureSkipVerify : bool;
  op_decoderInsecureSkipVerify : bool
}.

(** [strconv.ParseBool]. *)
Definition ParseBool (s : string) : option bool :=
  if bool_decide (s ∈ ["1"; "t"; "T"; "TRUE"; "true"; "True"]%string) then Some true
  else if bool_decide (s ∈ ["0"; "f"; "F"; "FALSE"; "false"; "False"]%string) then Some false
  else None.

(** The empty URL stands for the nil pointer until [Complete] sets it. *)
Definition NewOptions (Getenv : string → string) : Options :=
  mkOptions
    (mkConfig "8000" (mkURL "" None "" "" "") "" "" 1 1024 (default false (ParseBool (Getenv "ENABLE_PREFILLER_SAMPLING")))
       false false false false false false true "" false (Getenv "INFERENCE_POOL_NAMESPACE") (Getenv "INFERENCE_POOL_NAME") DefaultPoolGroup)
    "8001" [] [] (Getenv "INFERENCE_POOL") KVConnectorNIXLV2 false false false false.

(** A deprecated flag adds its stage. *)
Definition migrate (flag : bool) (stage : string) (stages : list string) : list string :=
  if flag && negb (bool_decide (stage ∈ stages)) then stages ++ [stage] else stages.

(** [strings.SplitN] of the pool at its first slash. *)
Definition parse_pool (o : Options) : string * string :=
  if bool_decide (op_inferencePool o = ""%string) then (cf_InferencePoolNamespace (op_Config o), cf_InferencePoolName (op_Config o))
  else match cut "/"%char (op_inferencePool o) with (ns, Some name) => (ns, name) | (name, None) => ("default"%string, name) end.

Definition Complete (o : Options) : option Options :=
  let c := op_Config o in
  let kv := if negb (bool_decide (op_connector o = ""%string)) && bool_decide (cf_KVConnector c = ""%string) then op_connector o else cf_KVConnector c in
  let '(ns, name) := parse_pool o in
  let tls := migrate (op_decoderUseTLS o) decodeStage (migrate (op_prefillerUseTLS o) prefillStage (op_enableTLS o)) in
  let skip := migrate (op_decoderInsecureSkipVerify o) decodeStage (migrate (op_prefillerInsecureSkipVerify o) prefillStage (op_tlsInsecureSkipVerify o)) in
  let has stage l := bool_decide (stage ∈ l) in
  u ← url_Parse (if has decodeStage tls then "https" else "http") ("localhost:" +:+ op_vllmPort o);
  Some (mkOptions
    (mkConfig (cf_Port c) u kv (cf_ECConnector c) (cf_DataParallelSize c) (cf_MaxIdleConnsPerHost c) (cf_EnablePrefillerSampling c)
       (has prefillStage tls) (has decodeStage tls) (has encodeStage tls) (has prefillStage skip) (has encodeStage skip) (has decodeStage skip)
       (cf_SecureServing c) (cf_CertPath c) (cf_EnableSSRFProtection c) ns name (cf_PoolGroup c))
    (op_vllmPort o) tls skip (op_inferencePool o) (op_connector o)
    (op_prefillerUseTLS o) (op_decoderUseTLS o) (op_prefillerInsecureSkipVerify o) (op_decoderInsecureSkipVerify o)).

Definition validateStages (stages supportedStages : list string) (flagName : string) : option string :=
  if forallb (λ stage, bool_decide (stage ∈ supportedStages)) stages then None
  else Some (flagName +:+ " stages must be one of: " +:+ names supportedTLSStages).

(** The first of the errors. *)
Fixpoint first_error (checks : list (option string)) : option string :=
  match checks with [] => None | Some e :: _ => Some e | None :: checks' => first_error checks' end.

Definition guard_error (bad : bool) (e : string) : option string := if bad then Some e else None.

Definition Validate (o : Options) : option string :=
  let c := op_Config o in
  let supported s := bool_decide (s ∈ supportedKVConnectors) in
  let pool := split_on "/"%char (op_inferencePool o) in
  let given := negb (bool_decide (op_inferencePool o = ""%string)) in
  let required flag env := "--inference-pool, " +:+ flag +:+ ", INFERENCE_POOL, or " +:+ env +:+ " environment variable is required when --enable-ssrf-protection is true" in
  first_error
    [guard_error (negb (supported (cf_KVConnector c))) ("--kv-connector must be one of: " +:+ names supportedKVConnectors);
     guard_error (negb (bool_decide (cf_ECConnector c = ""%string)) && negb (bool_decide (cf_ECConnector c ∈ supportedECConnectors)))
       ("--ec-connector must be one of: " +:+ names supportedECConnectors);
     guard_error (negb (bool_decide (op_connector o = ""%string)) && negb (bool_decide (op_connector o = cf_KVConnector c)) && negb (supported (op_connector o)))
       ("--connector must be one of: " +:+ names supportedKVConnectors);
     validateStages (op_enableTLS o) supportedTLSStages "--enable-tls";
     validateStages (op_tlsInsecureSkipVerify o) supportedTLSStages "--tls-insecure-skip-verify";
     guard_error (given && bool_decide (2 < length pool)) "--inference-pool must be in format 'namespace/name' or 'name', not multiple slashes";
     guard_error (given && existsb (λ part, bool_decide (part = ""%string)) pool) "--inference-pool cannot have empty namespace or name";
     guard_error (cf_EnableSSRFProtection c && bool_decide (cf_InferencePoolNamespace c = ""%string)) (required "--inference-pool-namespace" "INFERENCE_POOL_NAMESPACE");
     guard_error (cf_EnableSSRFProtection c && bool_decide (cf_InferencePoolName c = ""%string)) (required "--inference-pool-name" "INFERENCE_POOL_NAME")].

(** ** What valid options give *)

Lemma first_error_None checks : first_error checks = None ↔ Forall (λ e, e = None) checks.
Proof. induction checks as [|[e|] checks IH]; simpl; [done|split; [done|by inversion 1]|]. rewrite Forall_cons, IH. naive_solver. Qed.

Lemma guard_error_None bad e : guard_error bad e = None ↔ bad = false.
Proof. by destruct bad. Qed.

Lemma validateStages_None stages supported flag : validateStages stages supported flag = None ↔ stages ⊆ supported.
Proof.
  unfold validateStages. destruct (forallb _ stages) eqn:E.
  - split; [|done]. intros _ x Hx. apply list_elem_of_In in Hx. rewrite forallb_forall in E. by apply E, bool_decide_eq_true in Hx.
  - split; [done|]. intros Hs. rewrite (proj2 (forallb_forall _ _)) in E; [done|]. intros x Hx%list_elem_of_In. by apply bool_decide_eq_true_2, Hs.
Qed.

Lemma migrate_spec flag stage stages x : x ∈ migrate flag stage stages ↔ x ∈ stages ∨ flag = true ∧ x = stage.
Proof. unfold migrate. destruct flag; cbn [andb]; [|naive_solver]. case_bool_decide; cbn [negb]; set_solver. Qed.

Definition connector_name (p : PDConnector) : string :=
  match p with RunNIXLV2 => KVConnectorNIXLV2 | RunSharedStorage => KVConnectorSharedStorage | RunSGLang => KVConnectorSGLang end.

Lemma supported_connector kv : kv ∈ supportedKVConnectors → connector_name (setKVConnector kv) = kv.
Proof. unfold supportedKVConnectors. rewrite !elem_of_cons, elem_of_nil. by intros [->|[->|[->|[]]]]. Qed.

(** The parts of a text without more than one separator. *)
Lemma split_on_cut sep s : split_on sep s = match cut sep s with (a, Some b) => a :: split_on sep b | (a, None) => [a] end.
Proof.
  induction s as [|c s IH]; [done|]. cbn [split_on cut]. case_bool_decide as Hc.
  - destruct (split_on sep s) eqn:E; [|done]. rewrite IH in E. by destruct (cut sep s) as [a [b|]].
  - rewrite IH. by destruct (cut sep s) as [a [b|]].
Qed.

Lemma split_on_single sep s : length (split_on sep s) = 1 → char_free sep s = true.
Proof.
  rewrite split_on_cut. destruct (cut sep s) as [a [b|]] eqn:E.
  - rewrite split_on_cut. destruct (cut sep b) as [a' [b'|]]; [|done]. rewrite split_on_cut. by destruct (cut sep b') as [? [?|]].
  - intros _. revert a E. induction s as [|c s IH]; intros a; [done|]. cbn [cut]. case_bool_decide; [done|].
    destruct (cut sep s) as [a' [b|]] eqn:E; [done|]. intros _. apply char_free_cons. eauto.
Qed.

(** The pool of a text that is valid. *)
Definition names_pool (text ns name : string) : Prop :=
  (text = ns +:+ String "/"%char name ∨ text = name ∧ ns = "default"%string) ∧
  char_free "/"%char ns = true ∧ char_free "/"%char name = true ∧ ns ≠ ""%string ∧ name ≠ ""%string.

Lemma valid_pool_named o : op_inferencePool o ≠ ""%string → length (split_on "/"%char (op_inferencePool o)) ≤ 2 →
  existsb (λ part, bool_decide (part = ""%string)) (split_on "/"%char (op_inferencePool o)) = false →
  names_pool (op_inferencePool o) (parse_pool o).1 (parse_pool o).2.
Proof.
  intros Hne Hlen Hparts. unfold parse_pool. rewrite bool_decide_eq_false_2 by done. pose proof (split_on_cut "/"%char (op_inferencePool o)) as Hs.
  destruct (cut "/"%char (op_inferencePool o)) as [a [b|]] eqn:E; rewrite Hs in Hlen, Hparts.
  - apply cut_Some in E as [-> Ha]. cbn [length] in Hlen. assert (length (split_on "/"%char b) = 1) as Hb.
    { assert (length (split_on "/"%char b) ≠ 0); [|lia]. rewrite split_on_cut. by destruct (cut "/"%char b) as [? [?|]]. }
    apply split_on_single in Hb. rewrite split_on_cut, (cut_free _ b) in Hparts by done.
    cbn [existsb] in Hparts. rewrite !orb_false_iff, !bool_decide_eq_false in Hparts. destruct Hparts as (? & ? & _).
    split; [by left|done].
  - assert (char_free "/"%char (op_inferencePool o) = true) as Hf by (apply split_on_single; by rewrite Hs).
    rewrite cut_free in E by done. injection E as <-. split; [by right|done].
Qed.

Lemma url_Parse_scheme scheme rest u : url_Parse scheme rest = Some u → u_Scheme u = scheme.
Proof.
  unfold url_Parse. destruct (cut "#"%char rest) as [u0 frag]. destruct (all_char _ u0); [|done]. destruct (cut "?"%char u0) as [u1 query]. destruct (cut "/"%char u1) as [authority tail].
  intros H. apply bind_Some in H as ([user host] & _ & H). apply bind_Some in H as (path & _ & H). by apply bind_Some in H as (? & _ & [= <-]).
Qed.

Lemma localhost_hostname scheme port u : all_char is_digit port = true → url_Parse scheme ("localhost:" +:+ port) = Some u → Hostname u = "localhost"%string.
Proof.
  intros Hd Hu. assert (∀ c, is_digit c = false → char_free c "localhost:" = true → char_free c ("localhost:" +:+ port) = true) as Hfree.
  { intros c Hc Hl. repeat (apply char_free_cons in Hl as [? Hl]). repeat (apply char_free_cons; split; [done|]). by apply digits_free. }
  apply url_Parse_host in Hu; [|by apply Hfree..]. rewrite (cut_free "#"%char) in Hu by by apply Hfree. cbn [fst] in Hu.
  rewrite (cut_free "?"%char) in Hu by by apply Hfree. cbn [fst] in Hu.
  apply (parse_named "localhost" port) in Hu as [Hu _]; [|done|by apply digits_free]. by eapply Hostname_named.
Qed.

(** What the options ask for and the validation accepts is what the proxy does: the connector
    that is named, by the deprecated flag if by no other; TLS for a stage exactly when one of its
    flags is set; a decoder on this host; and with the protection a pool, which is the one that
    is named. *)
Theorem valid_options_served o o' av : Complete o = Some o' → Validate o' = None →
  let c := op_Config o' in let s := NewProxy c av in
  connector_name (s_runPDConnectorProtocol s) = (if bool_decide (cf_KVConnector (op_Config o) = ""%string) then op_connector o else cf_KVConnector (op_Config o)) ∧
  (s_runEPDConnectorProtocol s = true ↔ cf_ECConnector (op_Config o) ≠ ""%string) ∧
  (s_prefillerScheme s = "https"%string ↔ prefillStage ∈ op_enableTLS o ∨ op_prefillerUseTLS o = true) ∧
  (u_Scheme (s_decoderProxy s) = "https"%string ↔ decodeStage ∈ op_enableTLS o ∨ op_decoderUseTLS o = true) ∧
  (all_char is_digit (op_vllmPort o) = true → Hostname (s_decoderProxy s) = "localhost"%string) ∧
  (op_inferencePool o ≠ ""%string → names_pool (op_inferencePool o) (cf_InferencePoolNamespace c) (cf_InferencePoolName c)) ∧
  (cf_EnableSSRFProtection c = true → cf_InferencePoolNamespace c ≠ ""%string ∧ cf_InferencePoolName c ≠ ""%string).
Proof.
  intros Hc Hv c s. unfold Complete in Hc. destruct (parse_pool o) as [ns name] eqn:Hpool.
  apply bind_Some in Hc as (u & Hu & [= <-]). unfold Validate in Hv. cbn [op_Config op_inferencePool op_connector op_enableTLS op_tlsInsecureSkipVerify cf_KVConnector
    cf_ECConnector cf_EnableSSRFProtection cf_InferencePoolNamespace cf_InferencePoolName] in Hv.
  apply first_error_None in Hv. rewrite !Forall_cons, !guard_error_None in Hv. destruct Hv as (Hkv & Hec & _ & _ & _ & Hlen & Hparts & Hns & Hname & _).
  subst c s. cbn [op_Config NewProxy s_runPDConnectorProtocol s_runEPDConnectorProtocol s_prefillerScheme s_decoderProxy cf_KVConnector cf_ECConnector cf_UseTLSForPrefiller
    cf_DecoderURL cf_InferencePoolNamespace cf_InferencePoolName cf_EnableSSRFProtection].
  split_and!.
  - rewrite negb_false_iff, bool_decide_eq_true in Hkv. rewrite supported_connector by done.
    destruct (bool_decide (cf_KVConnector (op_Config o) = ""%string)) eqn:E; rewrite ?andb_false_r, ?andb_true_r; [|done].
    destruct (bool_decide (op_connector o = ""%string)) eqn:Hempty; cbn [negb]; [|done]. apply bool_decide_eq_true in E, Hempty. congruence.
  - unfold setECConnector. destruct (decide (cf_ECConnector (op_Config o) = ""%string)) as [He|He]; [by rewrite He|].
    rewrite bool_decide_eq_false_2 in Hec by done. cbn [negb andb] in Hec. apply negb_false_iff, bool_decide_eq_true, list_elem_of_singleton in Hec as ->. by split.
  - clear - o. assert (prefillStage ≠ decodeStage) by done. case_bool_decide as Hin; rewrite !migrate_spec in Hin; split; naive_solver.
  - rewrite (url_Parse_scheme _ _ _ Hu). clear - o. assert (prefillStage ≠ decodeStage) by done. case_bool_decide as Hin; rewrite !migrate_spec in Hin; split; naive_solver.
  - intros Hd. by eapply localhost_hostname.
  - intros Hp. rewrite bool_decide_eq_false_2 in Hlen, Hparts by done. cbn [negb andb] in Hlen, Hparts. rewrite bool_decide_eq_false in Hlen.
    pose proof (valid_pool_named o Hp ltac:(lia) Hparts) as H. by rewrite Hpool in H.
  - intros Hp. rewrite Hp in Hns, Hname. cbn [andb] in Hns, Hname. by rewrite bool_decide_eq_false in Hns, Hname.
Qed.

(** Options of a command line with old and new flags. *)
Definition sample_options : Options :=
  mkOptions (mkConfig "8000" (mkURL "" None "" "" "") "" "ec-example" 1 1024 false false false false false false false true "" true "" "" DefaultPoolGroup)
    "8200" [] [] "llm/pool" KVConnectorSGLang true false false false.

Lemma sample_options_served : ∃ o', Complete sample_options = Some o' ∧ Validate o' = None ∧
  s_runPDConnectorProtocol (NewProxy (op_Config o') (mkAllowlist true ∅ ∅ ∅)) = RunSGLang ∧ cf_InferencePoolName (op_Config o') = "pool"%string.
Proof. eexists. split; [vm_compute; reflexivity|]. split; [vm_compute; reflexivity|]. split; reflexivity. Qed.

(** Options without a pool are refused when the protection is on. *)
Lemma protection_needs_pool : (Complete (mkOptions (op_Config sample_options) "8001" [] [] "" "nixlv2" false false false false) ≫= Validate) ≠ None.
Proof. vm_compute. discriminate. Qed.
