(* ===== verification/SidecarProps.v ===== *)
(** * What the routing sidecar guarantees

    Every request that is not for the decoder goes to a pod of the pool; every request is
    answered; the NIXL protocol gives the decoder the request of the client; and the host that
    the scheduler announces is the one that is contacted. *)

From stdpp Require Import prelude gmap strings list pretty.
From Stdlib Require Import ZArith Ascii Lia.
From S2P Require Import Prelude Float64 FlowTypes Ordering SchedTypes Json JsonDecode Pickers SchedulerProfile Scheduler ProfileHandlers Datastore SidecarTargets SidecarProxy.

(** ** Only pods of the pool are contacted *)

Section safety.
Context {C : Type} `{!ProxyCache C} `{!LawfulProxyCache C}.
Context (upstream : nat → Handler → HttpRequest → Outcome) (FormatFloat : float64 → string) (json_error url_error : string → string) (port : Z).
Context (s : Server).

#[local] Abbreviation PM := (GoM (ProxyState C)).

Definition known_decoder (u : URL) : Prop := u = s_decoderProxy s ∨ ∃ k, s_dataParallelProxies s !! k = Some u.

Definition handler_ok (h : Handler) : Prop :=
  match h with HDecoder u => known_decoder u | HProxy u => Hostname u ∈ av_allowedTargets (s_allowlistValidator s) end.

Definition cache_ok (scheme : string) (c : C) : Prop := ∀ k u, pc_Get k c = Some u → url_Parse scheme k = Some u.

Record sent_ok (st : ProxyState C) : Prop := mkSentOk {
  so_sent : Forall (λ x, handler_ok x.1) (px_sent st);
  so_prefillers : cache_ok (s_prefillerScheme s) (px_prefillers st);
  so_encoders : cache_ok (s_encoderScheme s) (px_encoders st)
}.

(** The invariant is kept, and the result satisfies [Q], when there is one. *)
Definition safe {A} (c : PM A) (Q : A → Prop) : Prop := ∀ st a st', sent_ok st → c st = Some (a, st') → sent_ok st' ∧ Q a.

Lemma safe_ret {A} (a : A) (Q : A → Prop) : Q a → safe (mret a) Q.
Proof using Type. intros HQ st a' st' Hst [= <- <-]. done. Qed.

Lemma safe_bind {A B} (c : PM A) (k : A → PM B) Q R : safe c Q → (∀ a, Q a → safe (k a) R) → safe (c ≫= k) R.
Proof using Type.
  intros Hc Hk st b st' Hst. unfold mbind, gom_bind. destruct (c st) as [[a st1]|] eqn:E; [|done]. destruct (Hc _ _ _ Hst E) as [Hst1 Ha]. by apply Hk.
Qed.

Lemma safe_then {A B} (c : PM A) (k : A → PM B) R : safe c (λ _, True) → (∀ a, safe (k a) R) → safe (c ≫= k) R.
Proof using Type. intros Hc Hk. eapply safe_bind; [exact Hc|]. auto. Qed.

Lemma safe_respond ops : safe (respond ops) (λ _, True).
Proof using Type. intros st a st' [H1 H2 H3] [= <- <-]. by repeat split. Qed.

Lemma safe_ServeHTTP h r : handler_ok h → safe (ServeHTTP upstream h r) (λ _, True).
Proof using Type.
  intros Hh st a st' [H1 H2 H3] [= <- <-]. split; [|done]. split; [|done..]. cbn [px_sent]. apply Forall_app. split; [done|]. by apply Forall_singleton.
Qed.

Lemma safe_client h r : handler_ok h → safe (serve_client upstream h r) (λ _, True).
Proof using Type. intros Hh. eapply safe_then; [by apply safe_ServeHTTP|]. intros o. apply safe_respond. Qed.

Lemma safe_buffered h r : handler_ok h → safe (serve_buffered upstream h r) (λ _, True).
Proof using Type. intros Hh. eapply safe_then; [by apply safe_ServeHTTP|]. intros o. by apply safe_ret. Qed.

Lemma decoder_ok : handler_ok (HDecoder (s_decoderProxy s)).
Proof using Type. by left. Qed.

Lemma safe_decoder r : safe (serve_decoder upstream s r) (λ _, True).
Proof using Type.
  unfold serve_decoder. eapply safe_then.
  - destruct (s_forwardDataParallel s); [|by apply safe_ret]. unfold dataParallelHandler. case_bool_decide; [by apply safe_ret|].
    destruct (s_dataParallelProxies s !! _) as [u|] eqn:E.
    + eapply safe_then; [apply safe_client; right; by eexists|]. intros. by apply safe_ret.
    + eapply safe_then; [apply safe_respond|]. intros. by apply safe_ret.
  - intros []; [by apply safe_ret|]. apply safe_client, decoder_ok.
Qed.

Lemma safe_read_body r k : (∀ original m, safe (k original m) (λ _, True)) → safe (read_body json_error r k) (λ _, True).
Proof using Type.
  intros Hk. unfold read_body. destruct (rq_Body r); [|apply safe_respond]. destruct (UnmarshalMap s0); [apply Hk|apply safe_respond].
Qed.

Lemma safe_assigned m : safe (assigned m : PM _) (λ _, True).
Proof using Type. destruct m; [by apply safe_ret|by intros st a st' Hst H]. Qed.

(** Targets that are allowed. *)
Context (Henabled : av_enabled (s_allowlistValidator s) = true)
  (Hlike : ∀ t, t ∈ av_allowedTargets (s_allowlistValidator s) → host_like t = true).

Definition good_target (hp : string) : Prop := plain_target hp ∧ IsAllowed (s_allowlistValidator s) hp = true.

Lemma no_scheme hp : char_free "/"%char hp = true → strip_prefix "http://" hp = None.
Proof using Type.
  intros Hf. destruct (strip_prefix "http://" hp) as [rest|] eqn:E; [|done]. exfalso.
  do 6 (destruct hp as [|? hp]; [done|]; cbn [strip_prefix] in E; case_bool_decide; [|done]; apply char_free_cons in Hf as [? Hf]). congruence.
Qed.

Lemma new_proxy_ok scheme hp c r c' : good_target hp → cache_ok scheme c → new_proxy url_error scheme hp c = (r, c') →
  cache_ok scheme c' ∧ ∀ h, r = inl h → handler_ok h.
Proof using Henabled Hlike LawfulProxyCache0.
  intros [Hplain Hok] Hc. unfold new_proxy. destruct (pc_Get hp c) as [u|] eqn:E.
  - intros [= <- <-]. split; [done|]. intros h [= <-]. by eapply (allowed_hostname _ _ hp); [..|apply Hc].
  - rewrite no_scheme by apply Hplain. cbn [default]. destruct (url_Parse scheme hp) as [u|] eqn:Hp; intros [= <- <-]; [|done]. split.
    + intros k u' Hk. destruct (decide (k = hp)) as [->|Hne]; [rewrite pc_add in Hk; congruence|]. apply Hc. by eapply pc_add_other.
    + intros h [= <-]. by eapply (allowed_hostname _ _ hp).
Qed.

Lemma safe_prefiller hp : good_target hp → safe (prefillerProxyHandler url_error s hp) (λ r, ∀ h, r = inl h → handler_ok h).
Proof using Henabled Hlike LawfulProxyCache0.
  intros Hg st a st' [H1 H2 H3]. unfold prefillerProxyHandler. destruct (new_proxy _ _ _ _) as [r c] eqn:E. intros [= <- <-].
  apply new_proxy_ok in E as [Hc Hh]; [|done..]. done.
Qed.

Lemma safe_encoder hp : good_target hp → safe (encoderProxyHandler url_error s hp) (λ r, ∀ h, r = inl h → handler_ok h).
Proof using Henabled Hlike LawfulProxyCache0.
  intros Hg st a st' [H1 H2 H3]. unfold encoderProxyHandler. destruct (new_proxy _ _ _ _) as [r c] eqn:E. intros [= <- <-].
  apply new_proxy_ok in E as [Hc Hh]; [|done..]. done.
Qed.

Ltac safe_step :=
  match goal with
  | |- safe (respond _) _ => apply safe_respond
  | |- safe (mret _) _ => by apply safe_ret
  | |- safe (serve_decoder _ _ _) _ => apply safe_decoder
  | |- safe (serve_client _ (HDecoder (s_decoderProxy _)) _) _ => apply safe_client, decoder_ok
  | |- safe (serve_buffered _ (HDecoder (s_decoderProxy _)) _) _ => apply safe_buffered, decoder_ok
  | |- safe (ServeHTTP _ (HDecoder (s_decoderProxy _)) _) _ => apply safe_ServeHTTP, decoder_ok
  | |- safe (serve_buffered _ _ _) _ => apply safe_buffered; by auto
  | |- safe (ServeHTTP _ _ _) _ => apply safe_ServeHTTP; by auto
  | |- safe (assigned _) _ => apply safe_assigned
  | |- safe (modify _) _ => intros ? ? ? [] [= <- <-]; by repeat split
  | |- safe (read_body _ _ _) _ => apply safe_read_body; intros
  | |- safe (prefillerProxyHandler _ _ _ ≫= _) _ => eapply safe_bind; [by apply safe_prefiller|intros [|] ?]
  | |- safe (encoderProxyHandler _ _ _ ≫= _) _ => eapply safe_bind; [by apply safe_encoder|intros [|] ?]
  | |- safe (_ ≫= _) _ => eapply safe_then; [|intros]
  | |- safe (if ?b then _ else _) _ => destruct b
  | |- safe (match ?x with _ => _ end) _ => destruct x
  end.

Lemma safe_nixl ch r hp api : good_target hp → safe (runNIXLProtocolV2 upstream FormatFloat json_error url_error ch s r hp api) (λ _, True).
Proof using Henabled Hlike LawfulProxyCache0. intros Hg. unfold runNIXLProtocolV2. repeat safe_step. Qed.

Lemma safe_try ch r m : safe (tryDecode upstream json_error ch s r m) (λ _, True).
Proof using Type. unfold tryDecode, tryDecodeStreaming, tryDecodeBuffered. repeat safe_step. Qed.

Lemma safe_prefill_and_decode r hp m : good_target hp → safe (prefill_and_decode upstream FormatFloat url_error s r hp m) (λ _, True).
Proof using Henabled Hlike LawfulProxyCache0. intros Hg. unfold prefill_and_decode, prefill. repeat safe_step. Qed.

Lemma safe_storage ch r hp : good_target hp → safe (runSharedStorageProtocol upstream FormatFloat json_error url_error ch s r hp) (λ _, True).
Proof using Henabled Hlike LawfulProxyCache0.
  intros Hg. unfold runSharedStorageProtocol. repeat first [by apply safe_prefill_and_decode|apply safe_try|safe_step].
Qed.

Lemma safe_sglang ch r hp : good_target hp → safe (runSGLangProtocol upstream FormatFloat json_error url_error port ch s r hp) (λ _, True).
Proof using Henabled Hlike LawfulProxyCache0. intros Hg. unfold runSGLangProtocol. repeat safe_step. Qed.

Lemma safe_pd ch r hp api : good_target hp → safe (run_pd upstream FormatFloat json_error url_error port ch s r hp api) (λ _, True).
Proof using Henabled Hlike LawfulProxyCache0.
  intros Hg. unfold run_pd. destruct (s_runPDConnectorProtocol s); [by apply safe_nixl|by apply safe_storage|by apply safe_sglang].
Qed.

Lemma safe_fanout original hosts id items : Forall good_target hosts → ∀ idx, safe (fanout upstream FormatFloat url_error s original hosts id idx items) (λ _, True).
Proof using Henabled Hlike LawfulProxyCache0.
  intros Hg. induction items as [|item items IH]; intros idx; cbn [fanout]; [by apply safe_ret|].
  eapply (safe_bind _ _ good_target).
  - intros st a st' Hst. unfold getsome. destruct (hosts !! _) as [hp|] eqn:E; [|done]. intros [= <- <-]. split; [done|]. by eapply Forall_lookup.
  - intros hp Hhp. eapply safe_then; [unfold encode_item; repeat safe_step|]. intros err. eapply safe_then; [apply IH|]. intros errs. by apply safe_ret.
Qed.

Lemma safe_epd ch r hp hosts : (hp = ""%string ∨ good_target hp) → Forall good_target hosts →
  safe (runEPDProtocol upstream FormatFloat json_error url_error port ch s r hp hosts) (λ _, True).
Proof using Henabled Hlike LawfulProxyCache0.
  intros Hhp Hg. unfold runEPDProtocol, fanoutEncoderPrimer. apply safe_read_body. intros original m. destruct (ch_requestID ch); [|apply safe_respond].
  eapply safe_then; [case_bool_decide; [by apply safe_ret|by apply safe_fanout]|]. intros [err|]; [apply safe_respond|].
  eapply safe_then; [apply safe_assigned|]. intros body. case_bool_decide; [apply safe_decoder|]. destruct Hhp as [?|Hhp]; [done|]. by apply safe_pd.
Qed.
End safety.

Section pool.
Context {C : Type} `{!ProxyCache C} `{!LawfulProxyCache C}.
Context (upstream : nat → Handler → HttpRequest → Outcome) (FormatFloat FormatG : float64 → string) (json_error url_error : string → string) (port : Z).

(** The targets of a request as they are announced. *)
Definition plain_headers (r : HttpRequest) : Prop :=
  ∀ hp, hp ∈ trim <$> (header_list PrefillEndpointHeader (rq_Header r) ++ header_list EncoderEndpointsHeader (rq_Header r)) → plain_target hp.

Lemma prefill_host_plain ch s r st hp st' : plain_headers r → prefill_host (C:=C) ch s r st = Some (hp, st') → st' = st ∧ (hp = ""%string ∨ plain_target hp).
Proof using Type.
  intros Hp. unfold prefill_host. case_bool_decide; [intros [= <- <-]; auto|]. unfold mbind, gom_bind, getsome.
  destruct (header_list PrefillEndpointHeader (rq_Header r) !! _) as [host|] eqn:E; [|done]. intros [= <- <-]. split; [done|]. right. apply Hp.
  apply list_elem_of_fmap. exists host. split; [done|]. apply elem_of_app. left. by eapply list_elem_of_lookup_2.
Qed.

Lemma encoders_good s r : plain_headers r → Forall (good_target s) (allowed_encoders s r).
Proof using Type.
  intros Hp. apply Forall_forall. intros hp [Hin Hok]%filter_In_elem. split; [|done]. apply Hp. apply list_elem_of_fmap in Hin as (host & -> & Hin).
  apply list_elem_of_fmap. exists host. split; [done|]. apply elem_of_app. by right.
Qed.

Lemma handler_safe ch epd s api r st u st' :
  av_enabled (s_allowlistValidator s) = true → (∀ t, t ∈ av_allowedTargets (s_allowlistValidator s) → host_like t = true) →
  s_allowlistValidator epd = s_allowlistValidator s → plain_headers r → sent_ok s st → sent_ok epd st →
  disaggregatedPrefillHandler (C:=C) upstream FormatFloat json_error url_error port ch epd s api r st = Some (u, st') →
  sent_ok s st' ∨ sent_ok epd st'.
Proof using LawfulProxyCache0.
  intros Hen Hlike Hepd Hp Hs He. unfold disaggregatedPrefillHandler. unfold mbind, gom_bind at 1.
  destruct (prefill_host ch s r st) as [[hp st1]|] eqn:E; [|done]. apply prefill_host_plain in E as [-> Hhp]; [|done].
  destruct (negb (bool_decide (hp = ""%string)) && negb (IsAllowed (s_allowlistValidator s) hp)) eqn:Hforb.
  { intros H. left. by eapply safe_respond in H as [? _]. }
  assert (hp = ""%string ∨ good_target s hp) as Hgood.
  { destruct Hhp as [?|Hhp]; [by left|]. apply andb_false_iff in Hforb as [H%negb_false_iff%bool_decide_eq_true|H%negb_false_iff]; [by left|by right]. }
  destruct (negb (bool_decide (allowed_encoders s r = [])) && s_runEPDConnectorProtocol s).
  - intros H. right. eapply (safe_epd upstream FormatFloat json_error url_error port epd) in H as [? _]; [done|by rewrite Hepd..| | |done].
    + unfold good_target. rewrite Hepd. exact Hgood.
    + pose proof (encoders_good s r Hp) as Henc. unfold good_target in *. by rewrite Hepd.
  - case_bool_decide as Hempty; cbn [negb]; intros H; left.
    + by eapply safe_decoder in H as [? _].
    + destruct Hgood as [?|Hgood]; [done|]. by eapply safe_pd in H as [? _].
Qed.

(** C11. With the protection enabled, the sidecar sends requests only to its decoders and to pods of
    the pool: whatever the pods, events and requests so far, every request that a handler
    hands to a reverse proxy of a prefiller or encoder goes to the name or the address of a
    pod that the informers have seen. The targets in the headers are as they are announced:
    without user or path, and with brackets around an IPv6 address. *)
Theorem sidecar_contacts_pool (P : PodObject → Prop) (av0 av : AllowlistValidator) (ch : Choices) (epd s : Server) (api : APIType)
    (r : HttpRequest) (st st' : ProxyState C) (u : unit) :
  av_inv P av0 → rtc (av_step FormatG P) av0 av → (∀ pod t, P pod → pod_target pod t → host_like t = true) →
  av_enabled av = true → s_allowlistValidator s = av → s_allowlistValidator epd = av →
  s_prefillerScheme epd = s_prefillerScheme s → s_encoderScheme epd = s_encoderScheme s →
  cache_ok (s_prefillerScheme s) (px_prefillers st) → cache_ok (s_encoderScheme s) (px_encoders st) → px_sent st = [] →
  plain_headers r →
  disaggregatedPrefillHandler upstream FormatFloat json_error url_error port ch epd s api r st = Some (u, st') →
  ∀ h q, (h, q) ∈ px_sent st' →
    match h with
    | HDecoder u => known_decoder s u ∨ known_decoder epd u
    | HProxy u => ∃ pod, P pod ∧ pod_target pod (Hostname u)
    end.
Proof using LawfulProxyCache0.
  intros Hinv Hsteps Hlike Hen Hs Hepd Hsch Hsch' Hc Hc' Hsent Hp Hrun h q Hin. apply (allowed_inv FormatG P) in Hsteps as [Hallowed _]; [|done].
  assert (∀ x, s_allowlistValidator x = av → handler_ok x h →
    match h with HDecoder u => known_decoder x u | HProxy u => ∃ pod, P pod ∧ pod_target pod (Hostname u) end) as Hout.
  { intros x Hx. destruct h; [done|]. cbn [handler_ok]. rewrite Hx. apply Hallowed. }
  eapply handler_safe in Hrun as [[Hf _ _]|[Hf _ _]].
  - rewrite Forall_forall in Hf. apply Hf in Hin. apply (Hout s Hs) in Hin. destruct h; auto.
  - rewrite Forall_forall in Hf. apply Hf in Hin. apply (Hout epd Hepd) in Hin. destruct h; auto.
  - by rewrite Hs.
  - rewrite Hs. intros t Ht. apply Hallowed in Ht as (pod & HP & Ht). by eapply Hlike.
  - by rewrite Hs.
  - done.
  - split; [by rewrite Hsent|done..].
  - split; [by rewrite Hsent|by rewrite Hsch|by rewrite Hsch'].
Qed.
End pool.

(** ** Every request is answered *)

Lemma members_object fuel : ∀ depth acc s j rest, members fuel depth acc s = Some (j, rest) → ∃ m, j = JObject m.
Proof.
  induction fuel as [|fuel IH]; [done|]. intros depth acc s j rest. cbn [members]. intros H.
  apply bind_Some in H as (s1 & _ & H). apply bind_Some in H as ([k s2] & _ & H). apply bind_Some in H as (s3 & _ & H).
  apply bind_Some in H as ([v s4] & _ & H). destruct (first_is ","%char (skip_ws s4)); [by eapply IH|].
  apply bind_Some in H as (r & _ & [= <- _]). by eexists.
Qed.

(** An encoded object is not decoded as the nil map. *)
Lemma object_not_null FormatFloat m : UnmarshalMap (Marshal FormatFloat m) ≠ Some None.
Proof.
  unfold UnmarshalMap, Marshal. destruct (Unmarshal _) as [j|] eqn:E; [|done]. unfold Unmarshal in E. apply bind_Some in E as ([j' rest] & Hv & E).
  case_bool_decide; [|done]. injection E as ->. rewrite marshal_object in Hv. unfold maxNestingDepth in Hv.
  change (Z.to_nat 10000) with (S (Z.to_nat 9999)) in Hv. rewrite value_object in Hv.
  destruct (first_is "}"%char _); [injection Hv as <- _; done|]. by apply members_object in Hv as [m' ->].
Qed.

Section answers.
Context {C : Type} `{!ProxyCache C}.
Context (upstream : nat → Handler → HttpRequest → Outcome) (FormatFloat : float64 → string) (json_error url_error : string → string) (port : Z).

#[local] Abbreviation PM := (GoM (ProxyState C)).

Definition answered (st : ProxyState C) : Prop := is_Some (rw_Sent (px_w st)).

Definition does {A} (c : PM A) (Q : A → ProxyState C → Prop) : Prop := ∀ st, wp c Q st.
Definition answers {A} (c : PM A) : Prop := does c (λ _, answered).
Definition total {A} (c : PM A) : Prop := does c (λ _ _, True).

Lemma does_bind {A B} (c : PM A) (k : A → PM B) Q R : does c Q → (∀ a st, Q a st → wp (k a) R st) → does (c ≫= k) R.
Proof using Type. intros Hc Hk st. apply wp_bind. eapply wp_mono; [apply Hc|]. auto. Qed.

Lemma total_bind {A B} (c : PM A) (k : A → PM B) R : total c → (∀ a, does (k a) R) → does (c ≫= k) R.
Proof using Type. intros Hc Hk. eapply does_bind; [exact Hc|]. intros a st _. apply Hk. Qed.

Lemma answered_bind {A B} (c : PM A) (b : B) : answers c → does (c ≫= λ _, mret b) (λ b' st, b' = b ∧ answered st).
Proof using Type. intros Hc. eapply does_bind; [exact Hc|]. intros a st Ha. by apply wp_ret. Qed.

Lemma ops_answered ops : ∀ w, (is_Some (rw_Sent w) ∨ ∃ op, op ∈ ops ∧ match op with OHeader _ => False | _ => True end) →
  is_Some (rw_Sent (foldl client_op w ops)).
Proof using Type.
  induction ops as [|op ops IH]; intros w H; cbn [foldl].
  - destruct H as [?|(op & []%elem_of_nil & _)]; done.
  - apply IH. destruct H as [[x Hx]|(op' & [->|Hin]%elem_of_cons & Hop)]; [left|left|right; by exists op'].
    + destruct op; cbn; rewrite Hx; done.
    + destruct op; [done|..]; cbn; by destruct (rw_Sent w).
Qed.

Lemma answers_respond op ops : match op with OHeader _ => False | _ => True end → answers (respond (op :: ops)).
Proof using Type. intros Hop st. apply wp_modify. apply ops_answered. right. exists op. split; [by left|done]. Qed.

Lemma answers_error err ty code : answers (respond (sendError err ty code)).
Proof using Type. by apply answers_respond. Qed.

Lemma total_serve h r : total (ServeHTTP upstream h r).
Proof using Type. intros st. done. Qed.

Lemma total_buffered h r : total (serve_buffered upstream h r).
Proof using Type. intros st. done. Qed.

Lemma answers_client h r : answers (serve_client upstream h r).
Proof using Type.
  eapply total_bind; [apply total_serve|]. intros o st. apply wp_modify. apply ops_answered. right.
  destruct o as [status header chunks| |err], h; (eexists (OWriteHeader _); split; [first [by left|right; by left]|done]).
Qed.

Lemma total_prefiller s hp : total (prefillerProxyHandler url_error s hp).
Proof using Type. intros st. unfold wp, prefillerProxyHandler. by destruct (new_proxy _ _ _ _). Qed.

Lemma total_encoder s hp : total (encoderProxyHandler url_error s hp).
Proof using Type. intros st. unfold wp, encoderProxyHandler. by destruct (new_proxy _ _ _ _). Qed.

Lemma answers_decoder s r : answers (serve_decoder upstream s r).
Proof using Type.
  unfold serve_decoder. eapply (does_bind _ _ (λ used st, used = true → answered st)).
  - destruct (s_forwardDataParallel s); [|by intros st]. unfold dataParallelHandler. case_bool_decide; [by intros st|].
    destruct (s_dataParallelProxies s !! _) as [u|]; (eapply does_bind; [first [apply answers_client|by apply answers_respond]|]); intros a st Ha; apply wp_ret; done.
  - intros [] st Hst; [by apply wp_ret, Hst|apply answers_client].
Qed.

(** A body that is not [null]. *)
Definition not_null (r : HttpRequest) : Prop := ∀ b, rq_Body r = inl b → UnmarshalMap b ≠ Some None.

Lemma answers_read_body r k : not_null r → (∀ original m, answers (k original (Some m))) → answers (read_body json_error r k).
Proof using Type.
  intros Hn Hk. unfold read_body. destruct (rq_Body r) as [b|err] eqn:E; [|by apply answers_respond].
  specialize (Hn b E). destruct (UnmarshalMap b) as [[m|]|]; [apply Hk|done|apply answers_error].
Qed.

Lemma answers_nixl ch s r hp api : not_null r → answers (runNIXLProtocolV2 upstream FormatFloat json_error url_error ch s r hp api).
Proof using Type.
  intros Hn. unfold runNIXLProtocolV2. apply answers_read_body; [done|]. intros original m. destruct (ch_uuid ch); [|apply answers_error].
  eapply total_bind; [done|]. intros body. eapply total_bind; [apply total_prefiller|]. intros [h|err]; [|apply answers_error].
  eapply total_bind; [apply total_buffered|]. intros pw. destruct (isHTTPError _).
  - destruct (shouldFallbackToDecode pw); [apply answers_client|]. intros st. apply wp_modify, ops_answered. right. eexists. split; [right; by left|done].
  - destruct (UnmarshalMap (bw_buffer pw)); [apply answers_decoder|apply answers_error].
Qed.

Lemma does_try ch s r m : does (tryDecode upstream json_error ch s r m) (λ res st, res = Some true ∨ answered st).
Proof using Type.
  assert (∀ (c : PM unit) (res : option bool), answers c → does (c ≫= λ _, mret res) (λ res' st, res' = Some true ∨ answered st)) as Hret.
  { intros c res Hc. eapply does_bind; [exact Hc|]. intros a st Ha. apply wp_ret. by right. }
  assert (does (tryDecodeStreaming upstream ch s r) (λ res st, res = Some true ∨ answered st)) as Hs.
  { unfold tryDecodeStreaming. eapply total_bind; [apply total_serve|]. intros o. eapply total_bind; [done|]. intros _.
    destruct (isHTTPError _); [by apply Hret, answers_respond|]. destruct (checkBufferedResponseForCacheThreshold _); [intros st; apply wp_ret; by left|].
    by apply Hret, answers_respond. }
  assert (does (tryDecodeBuffered upstream json_error s r) (λ res st, res = Some true ∨ answered st)) as Hb.
  { unfold tryDecodeBuffered. eapply total_bind; [apply total_buffered|]. intros dw. destruct (isHTTPError _); [by apply Hret, answers_respond|].
    destruct (UnmarshalMap _) as [resp|]; [|apply Hret, answers_error]. destruct (hasCacheThresholdFinishReason resp); [intros st; apply wp_ret; by left|].
    eapply total_bind; [done|]. intros _. by apply Hret, answers_respond. }
  unfold tryDecode. destruct (obj_lookup "stream" m) as [[|[]| | | | |]|]; done.
Qed.

Lemma answers_prefill_and_decode s r hp m : answers (prefill_and_decode upstream FormatFloat url_error s r hp m).
Proof using Type.
  unfold prefill_and_decode. eapply (does_bind _ _ (λ ok st, ok = false → answered st)).
  - unfold prefill. eapply total_bind; [apply total_prefiller|]. intros [h|err].
    + eapply total_bind; [apply total_buffered|]. intros pw. destruct (isHTTPError _); [|by intros st].
      eapply does_bind; [by apply answers_respond|]. intros a st Ha. by apply wp_ret.
    + eapply does_bind; [apply answers_error|]. intros a st Ha. by apply wp_ret.
  - intros [] st Hst; [apply answers_client|by apply wp_ret, Hst].
Qed.

Lemma answers_storage ch s r hp : not_null r → answers (runSharedStorageProtocol upstream FormatFloat json_error url_error ch s r hp).
Proof using Type.
  intros Hn. unfold runSharedStorageProtocol. apply answers_read_body; [done|]. intros original m. eapply total_bind; [done|]. intros body.
  destruct (obj_lookup _ body); [|apply answers_prefill_and_decode]. eapply does_bind; [apply does_try|]. intros res st Hres.
  case_bool_decide; [apply answers_prefill_and_decode|]. apply wp_ret. destruct Hres; done.
Qed.

Lemma answers_sglang ch s r hp : answers (runSGLangProtocol upstream FormatFloat json_error url_error port ch s r hp).
Proof using Type.
  unfold runSGLangProtocol. destruct (rq_Body r); [|apply answers_error]. destruct (UnmarshalMap _); [|apply answers_error].
  eapply total_bind; [apply total_prefiller|]. intros [h|err]; [|apply answers_error]. eapply total_bind; [apply total_serve|]. intros o'. apply answers_client.
Qed.

Lemma answers_pd ch s r hp api : not_null r → answers (run_pd upstream FormatFloat json_error url_error port ch s r hp api).
Proof using Type.
  intros Hn. unfold run_pd. destruct (s_runPDConnectorProtocol s); [by apply answers_nixl|by apply answers_storage|apply answers_sglang].
Qed.

Lemma total_fanout s original hosts id items : hosts ≠ [] → ∀ idx, total (fanout upstream FormatFloat url_error s original hosts id idx items).
Proof using Type.
  intros Hne. induction items as [|item items IH]; intros idx; cbn [fanout]; [done|].
  assert (is_Some (hosts !! (idx mod length hosts))) as [hp Hhp] by (apply lookup_lt_is_Some, Nat.mod_upper_bound; by destruct hosts).
  intros st. apply wp_bind. eapply wp_getsome; [exact Hhp|]. revert st. eapply total_bind.
  - unfold encode_item. eapply total_bind; [apply total_encoder|]. intros [h|err]; [|done]. eapply total_bind; [apply total_buffered|done].
  - intros err. eapply total_bind; [apply IH|done].
Qed.

Lemma answers_epd ch s r hp hosts : not_null r → answers (runEPDProtocol upstream FormatFloat json_error url_error port ch s r hp hosts).
Proof using Type.
  intros Hn. unfold runEPDProtocol. apply answers_read_body; [done|]. intros original m. destruct (ch_requestID ch); [|apply answers_error].
  eapply total_bind; [case_bool_decide; [done|by apply total_fanout]|]. intros [err|]; [apply answers_error|].
  eapply total_bind; [done|]. intros body. case_bool_decide; [apply answers_decoder|]. apply answers_pd.
  intros b [= <-]. apply object_not_null.
Qed.

End answers.

(** ** The decoder gets the request of the client *)

Lemma good_decodes FormatFloat m : obj_good FormatFloat m → UnmarshalMap (Marshal FormatFloat m) = Some (Some (decoded_fields m)).
Proof. apply encoded_decodes. Qed.

Lemma lookup_restore k saved f m : obj_lookup k (restore saved f (obj_delete f m)) = if bool_decide (k = f) then saved else obj_lookup k m.
Proof.
  unfold restore. case_bool_decide as Hk; [subst|]; destruct saved.
  - apply obj_lookup_insert_eq.
  - apply obj_lookup_delete_eq.
  - by rewrite obj_lookup_insert_ne, obj_lookup_delete_ne.
  - by rewrite obj_lookup_delete_ne.
Qed.

Lemma restore_sorted saved f m : obj_sorted m → obj_sorted (restore saved f m).
Proof. destruct saved; [apply obj_insert_sorted|done]. Qed.

Lemma lookup_limits k fields : ∀ m, obj_lookup k (foldl (λ m field, obj_insert field (JInt 1) m) m fields) =
  if bool_decide (k ∈ fields) then Some (JInt 1) else obj_lookup k m.
Proof.
  induction fields as [|f fields IH]; intros m; cbn [foldl]; [done|]. rewrite IH. destruct (decide (k ∈ fields)) as [Hin|Hin].
  - rewrite !bool_decide_eq_true_2; [done|by right|done].
  - rewrite (bool_decide_eq_false_2 (k ∈ fields)) by done. destruct (decide (k = f)) as [->|Hne].
    + rewrite bool_decide_eq_true_2 by by left. apply obj_lookup_insert_eq.
    + rewrite bool_decide_eq_false_2 by (rewrite elem_of_cons; naive_solver). by apply obj_lookup_insert_ne.
Qed.

Lemma lookup_restore_all k original fields : ∀ m,
  obj_lookup k (foldl (λ m field, restore (obj_lookup field original) field (obj_delete field m)) m fields) =
  if bool_decide (k ∈ fields) then obj_lookup k original else obj_lookup k m.
Proof.
  induction fields as [|f fields IH]; intros m; cbn [foldl]; [done|]. rewrite IH, lookup_restore. destruct (decide (k ∈ fields)) as [Hin|Hin].
  - rewrite !bool_decide_eq_true_2; [done|by right|done].
  - rewrite (bool_decide_eq_false_2 (k ∈ fields)) by done. destruct (decide (k = f)) as [->|Hne].
    + by rewrite !bool_decide_eq_true_2; [|by left|].
    + by rewrite !bool_decide_eq_false_2; [|rewrite elem_of_cons; naive_solver|].
Qed.

(** What the prefiller is asked. *)
Lemma lookup_prefill k fields m : obj_lookup k (nixl_prefill_request fields m) =
  if bool_decide (k ∈ fields) then Some (JInt 1)
  else if bool_decide (k = "stream_options"%string) then None
  else if bool_decide (k = "stream"%string) then Some (JBool false)
  else if bool_decide (k = "kv_transfer_params"%string) then Some nixl_prefill_params
  else obj_lookup k m.
Proof.
  unfold nixl_prefill_request. rewrite lookup_limits. case_bool_decide; [done|].
  case_bool_decide; [subst; apply obj_lookup_delete_eq|]. rewrite obj_lookup_delete_ne by done.
  case_bool_decide; [subst; apply obj_lookup_insert_eq|]. rewrite obj_lookup_insert_ne by done.
  case_bool_decide; [subst; apply obj_lookup_insert_eq|]. by rewrite obj_lookup_insert_ne.
Qed.

(** Saving and restoring gives back all fields but the parameters of the transfer. *)
Lemma decode_request_restored api m params : obj_sorted m → let fields := tokenLimitFieldsForAPIType api in
  nixl_decode_request fields m (nixl_prefill_request fields m) params = obj_insert "kv_transfer_params" (default JNull params) m.
Proof.
  intros Hs fields. assert (∀ fs m, obj_sorted m → obj_sorted (foldl (λ m field, obj_insert field (JInt 1) m) m fs)) as Hlim
    by (induction fs; intros; cbn [foldl]; [done|]; by apply IHfs, obj_insert_sorted).
  assert (∀ o fs m, obj_sorted m → obj_sorted (foldl (λ m field, restore (obj_lookup field o) field (obj_delete field m)) m fs)) as Hres
    by (induction fs; intros; cbn [foldl]; [done|]; by apply IHfs, restore_sorted, obj_delete_sorted).
  apply obj_ext.
  - unfold nixl_decode_request, nixl_prefill_request. apply obj_insert_sorted, Hres, restore_sorted, restore_sorted, obj_delete_sorted, Hlim, obj_delete_sorted. by do 2 apply obj_insert_sorted.
  - by apply obj_insert_sorted.
  - intros k. unfold nixl_decode_request. destruct (decide (k = "kv_transfer_params"%string)) as [->|Hkv]; [by rewrite !obj_lookup_insert_eq|].
    rewrite !(obj_lookup_insert_ne _ k) by done. rewrite lookup_restore_all. case_bool_decide as Hin; [done|].
    assert (obj_lookup "stream_options" (restore (obj_lookup "stream" m) "stream" (obj_delete "stream" (nixl_prefill_request fields m))) = None) as Hnone.
    { rewrite lookup_restore, bool_decide_eq_false_2, lookup_prefill by done. by destruct api. }
    destruct (decide (k = "stream_options"%string)) as [->|Hso].
    { destruct (obj_lookup "stream_options" m) as [v|]; cbn [restore]; [apply obj_lookup_insert_eq|exact Hnone]. }
    assert (∀ saved m', obj_lookup k (restore saved "stream_options" m') = obj_lookup k m') as ->
      by (intros [v|] m'; [by apply obj_lookup_insert_ne|done]).
    rewrite lookup_restore. case_bool_decide; [by subst|]. rewrite lookup_prefill. by rewrite !bool_decide_eq_false_2.
Qed.

Lemma buffered_chunks header chunks : ∀ buffer status, status ≠ 0%Z →
  foldl buffered_op (mkBuffered header buffer status) (OWrite <$> chunks) = mkBuffered header (buffer +:+ cat chunks) status.
Proof.
  induction chunks as [|c chunks IH]; intros buffer status Hst; cbn [fmap list_fmap foldl cat foldr]; [by rewrite app_empty_r|].
  cbn [buffered_op bw_headers bw_buffer bw_statusCode]. rewrite bool_decide_eq_false_2 by done. rewrite IH by done. by rewrite app_assoc_string.
Qed.

Lemma run_bind {S A B} (c : GoM S A) (k : A → GoM S B) st a st' : c st = Some (a, st') → (c ≫= k) st = k a st'.
Proof. intros Hc. unfold mbind, gom_bind. by rewrite Hc. Qed.

Lemma buffered_response h status header chunks : status ≠ 0%Z →
  foldl buffered_op (mkBuffered ∅ "" 0) (serve_ops h (Responded status header chunks)) = mkBuffered (h_copy header ∅) (cat chunks) status.
Proof. intros Hst. cbn [serve_ops foldl buffered_op bw_headers bw_buffer bw_statusCode]. by rewrite buffered_chunks. Qed.

Section nixl.
Context {C : Type} `{!ProxyCache C}.
Context (upstream : nat → Handler → HttpRequest → Outcome) (FormatFloat : float64 → string) (json_error url_error : string → string).

Lemma run_buffered h r (st : ProxyState C) : serve_buffered upstream h r st =
  Some (foldl buffered_op (mkBuffered ∅ "" 0) (serve_ops h (upstream (length (px_sent st)) h r)),
        mkProxyState (px_prefillers st) (px_encoders st) (px_sent st ++ [(h, r)]) (px_w st)).
Proof using Type. reflexivity. Qed.

Lemma run_client h r (st : ProxyState C) : serve_client upstream h r st =
  Some (tt, mkProxyState (px_prefillers st) (px_encoders st) (px_sent st ++ [(h, r)])
              (foldl client_op (px_w st) (serve_ops h (upstream (length (px_sent st)) h r)))).
Proof using Type. reflexivity. Qed.

(** C20. The NIXL protocol hands the request of the client to the decoder: when the prefiller
    accepts, exactly two requests are sent. The prefiller is asked for one token without
    streaming, with all other fields of the client's request; the decoder gets the client's
    request field by field, with the transfer parameters that the prefiller answered; and the
    client gets what the decoder answers. *)
Theorem nixl_decoder_gets_request (ch : Choices) (s : Server) (r : HttpRequest) (hp : string) (api : APIType) (st st1 : ProxyState C)
    (original uuid : string) (m : JsonObject) (h : Handler) (status : Z) (header : Header) (chunks : list string) (response : option JsonObject) :
  let fields := tokenLimitFieldsForAPIType api in
  let req := add_header requestHeaderRequestID uuid r in
  let params := response ≫= obj_lookup "kv_transfer_params" in
  rq_Body r = inl original → UnmarshalMap original = Some (Some m) → numbers_ok FormatFloat (JObject m) →
  ch_uuid ch = inl uuid → prefillerProxyHandler url_error s hp st = Some (inl h, st1) →
  upstream (length (px_sent st)) h (with_body (Marshal FormatFloat (nixl_prefill_request fields m)) req) = Responded status header chunks →
  (200 ≤ status < 300)%Z → UnmarshalMap (cat chunks) = Some response → (∀ v, params = Some v → numbers_ok FormatFloat v) →
  (h_Get DataParallelEndpointHeader (rq_Header r) = ""%string ∨ s_forwardDataParallel s = false) →
  ∃ st' prefillBody prefillRequest decodeBody,
    runNIXLProtocolV2 upstream FormatFloat json_error url_error ch s r hp api st = Some (tt, st') ∧
    px_sent st' = px_sent st ++ [(h, with_body prefillBody req); (HDecoder (s_decoderProxy s), with_body decodeBody req)] ∧
    UnmarshalMap prefillBody = Some (Some prefillRequest) ∧
    (∀ k, obj_lookup k prefillRequest =
      if bool_decide (k ∈ fields) then Some (JNumber (of_int 1))
      else if bool_decide (k = "stream_options"%string) then None
      else if bool_decide (k = "stream"%string) then Some (JBool false)
      else if bool_decide (k = "kv_transfer_params"%string) then Some nixl_prefill_params
      else obj_lookup k m) ∧
    UnmarshalMap decodeBody = Some (Some (obj_insert "kv_transfer_params" (default JNull params) m)) ∧
    px_w st' = foldl client_op (px_w st)
      (serve_ops (HDecoder (s_decoderProxy s)) (upstream (S (length (px_sent st))) (HDecoder (s_decoderProxy s)) (with_body decodeBody req))).
Proof using Type.
  intros fields req params Hbody Hm Hnum Huuid Hh Hup Hstatus Hresp Hpn Hdp.
  destruct (decoded_good FormatFloat _ _ Hm Hnum) as [Hgood Hsame].
  assert (px_sent st1 = px_sent st ∧ px_w st1 = px_w st) as [Hsent1 Hw1]
    by (unfold prefillerProxyHandler in Hh; destruct (new_proxy _ _ _ _); by injection Hh as _ <-).
  assert (obj_good FormatFloat (nixl_prefill_request fields m)) as Hpg.
  { unfold nixl_prefill_request. assert (val_good FormatFloat (JInt 1)) as H1 by (split; [vm_compute; reflexivity|rewrite depth_unfold; simpl; lia]).
    assert (val_good FormatFloat nixl_prefill_params) as H2 by (split; [split; [by repeat constructor|done]|rewrite depth_unfold; simpl; lia]).
    assert (val_good FormatFloat (JBool false)) as H3 by (split; [done|rewrite depth_unfold; simpl; lia]).
    destruct api; cbn [fields tokenLimitFieldsForAPIType foldl]; by repeat first [apply good_insert|apply good_delete]. }
  assert (obj_good FormatFloat (obj_insert "kv_transfer_params" (default JNull params) m) ∧ decoded (default JNull params) = default JNull params) as [Hdg Hds].
  { destruct params as [v|] eqn:Hv; cbn [default].
    - destruct response as [resp|]; [|done]. destruct (lookup_good FormatFloat _ v _ _ Hresp Hv) as [Hvg Hvd]; [by apply Hpn|]. split; [by apply good_insert|done].
    - split; [|done]. apply good_insert; [|done]. split; [done|rewrite depth_unfold; simpl; lia]. }
  eexists _, _, (decoded_fields (nixl_prefill_request fields m)), _. split.
  { unfold runNIXLProtocolV2, read_body. rewrite Hbody, Hm, Huuid. cbv zeta. fold fields. fold req.
    rewrite (run_bind (assigned (Some m)) _ st m st) by done. rewrite (run_bind _ _ _ _ _ Hh).
    rewrite (run_bind _ _ _ _ _ (run_buffered h _ st1)). rewrite Hsent1, Hup, buffered_response by lia.
    cbn [bw_statusCode bw_buffer]. unfold isHTTPError. rewrite bool_decide_eq_false_2 by lia. rewrite Hresp.
    rewrite (decode_request_restored api m) by by eapply good_sorted.
    unfold serve_decoder. rewrite (run_bind _ _ _ false (mkProxyState (px_prefillers st1) (px_encoders st1) (px_sent st ++ [(h, with_body (Marshal FormatFloat (nixl_prefill_request fields m)) req)]) (px_w st1))).
    { apply run_client. }
    destruct Hdp as [Hdp| ->]; [|done]. destruct (s_forwardDataParallel s); [|done]. unfold dataParallelHandler. cbn [with_body rq_Header add_header req].
    replace (h_Get DataParallelEndpointHeader (h_Add requestHeaderRequestID uuid (rq_Header r))) with ""%string; [by rewrite bool_decide_eq_true_2|].
    rewrite <- Hdp. unfold h_Get, h_Values, h_Add. by rewrite lookup_insert_ne. }
  cbn [px_sent px_w]. rewrite Hw1. split; [by rewrite <- app_assoc|]. split; [by apply good_decodes|]. split.
  { intros k. rewrite obj_lookup_decoded, lookup_prefill. repeat (case_bool_decide; [done|]). rewrite <- Hsame at 2. by rewrite obj_lookup_decoded. }
  split; [|by rewrite length_app, Nat.add_comm].
  rewrite (good_decodes FormatFloat) by done. do 2 f_equal. apply obj_ext.
  - apply decoded_sorted. by apply obj_insert_sorted; eapply good_sorted.
  - by apply obj_insert_sorted; eapply good_sorted.
  - intros k. rewrite obj_lookup_decoded. destruct (decide (k = "kv_transfer_params"%string)) as [->|Hne].
    + rewrite !obj_lookup_insert_eq. change (Some (decoded (default JNull params)) = Some (default JNull params)). by rewrite Hds.
    + rewrite !obj_lookup_insert_ne by done. rewrite <- obj_lookup_decoded. by rewrite Hsame.
Qed.
End nixl.

(** ** The announced hosts are those that are contacted *)

Lemma all_char_app p a b : all_char p (a +:+ b) = all_char p a && all_char p b.
Proof. induction a as [|c a IH]; [done|]. rewrite app_cons. cbn [all_char]. by rewrite IH, andb_assoc. Qed.

Lemma all_char_impl (p q : ascii → bool) s : (∀ c, p c = true → q c = true) → all_char p s = true → all_char q s = true.
Proof. intros Hpq. induction s as [|c s IH]; [done|]. cbn [all_char]. rewrite !andb_true_iff. naive_solver. Qed.

Lemma all_char_free (p : ascii → bool) c s : p c = false → all_char p s = true → char_free c s = true.
Proof.
  intros Hc. induction s as [|a s IH]; [done|]. cbn [all_char]. intros [Ha Hs]%andb_true_iff. apply char_free_cons. split; [congruence|auto].
Qed.

(** The characters of an address with a port. *)
Definition hp_char (c : ascii) : bool := host_char c || bool_decide (nat_of_ascii c ∈ [91; 93]).

(** An endpoint as the data layer makes it: an address and a number as its port. *)
Definition addressed (ep : Endpoint) : Prop :=
  host_like (md_Address (ep_Metadata ep)) = true ∧ all_char is_digit (md_Port (ep_Metadata ep)) = true.

Lemma digit_hp c : is_digit c = true → hp_char c = true.
Proof.
  unfold is_digit, hp_char, host_char, is_alnum. intros Hc%bool_decide_eq_true. rewrite bool_decide_eq_true_2; [done|]. auto.
Qed.

Lemma hp_not_space c : hp_char c = true → slodeadline.is_space c = false.
Proof.
  unfold hp_char, host_char, is_alnum, slodeadline.is_space. rewrite !orb_true_iff, !bool_decide_eq_true, !elem_of_cons, !elem_of_nil. intros Hc.
  apply bool_decide_eq_false_2. lia.
Qed.

Lemma host_port_chars ep : addressed ep → all_char hp_char (host_port ep) = true.
Proof.
  intros [Ha Hp]. unfold host_port, JoinHostPort.
  assert (all_char hp_char (md_Address (ep_Metadata ep)) = true) as H1 by (eapply all_char_impl; [|exact Ha]; unfold hp_char; by intros c ->).
  assert (all_char hp_char (md_Port (ep_Metadata ep)) = true) as H2 by (eapply all_char_impl; [apply digit_hp|exact Hp]).
  destruct (has_colon _); rewrite !all_char_app, H1, H2; done.
Qed.

Lemma trim_id s : all_char (λ c, negb (slodeadline.is_space c)) s = true → trim s = s.
Proof.
  intros Hs. unfold trim, slodeadline.TrimSpace.
  assert (∀ l, Forall (λ c, slodeadline.is_space c = false) l → slodeadline.drop_spaces l = l) as Hd.
  { intros l [|c l' Hc _]; [done|]. cbn [slodeadline.drop_spaces]. by rewrite Hc. }
  assert (Forall (λ c, slodeadline.is_space c = false) (String.list_ascii_of_string s)) as Hall.
  { induction s as [|c s IH]; [constructor|]. cbn [all_char] in Hs. apply andb_true_iff in Hs as [Hc Hs]. constructor; [by apply negb_true_iff|auto]. }
  rewrite (Hd _ Hall), Hd by (by apply Forall_rev). by rewrite rev_involutive, String.string_of_list_ascii_of_string.
Qed.

Lemma hp_trim s : all_char hp_char s = true → trim s = s.
Proof. intros Hs. apply trim_id. eapply all_char_impl; [|exact Hs]. intros c Hc. by rewrite hp_not_space. Qed.

Lemma split_on_join l : l ≠ [] → Forall (λ s, char_free ","%char s = true) l → split_on ","%char (strings_Join l ",") = l.
Proof.
  induction l as [|s l IH]; intros Hne Hall; [done|]. destruct l as [|s2 l].
  - apply Forall_cons in Hall as [Hs _]. cbn [strings_Join]. by apply split_on_free.
  - apply Forall_cons in Hall as [Hs Hall]. rewrite join_cons by done. rewrite (app_cons ","%char ""), app_empty, split_on_app by done. by rewrite IH.
Qed.

Lemma has_colon_free s : has_colon s = negb (char_free ":"%char s).
Proof.
  induction s as [|c s IH]; [done|]. cbn [has_colon char_free]. rewrite IH, negb_andb, negb_involutive. f_equal.
  destruct (Ascii.eqb c ":"%char) eqn:E; [apply Ascii.eqb_eq in E as ->; done|]. apply bool_decide_eq_false_2. intros Hc. apply Ascii.eqb_neq in E. apply E.
  rewrite <- (ascii_nat_embedding c), Hc. done.
Qed.

(** Joining and splitting an address. *)
Lemma SplitHostPort_Join host p : host_like host = true → all_char is_digit p = true → SplitHostPort (JoinHostPort host p) = Some (host, p).
Proof.
  intros Hl Hp. assert (∀ c, is_digit c = false → char_free c p = true) as Hfree by (intros; by apply digits_free).
  assert (∀ c, host_char c = false → char_free c host = true) as Hfree' by (intros; by apply host_like_free).
  unfold JoinHostPort. rewrite has_colon_free. destruct (char_free ":"%char host) eqn:Hc; cbn [negb]; unfold SplitHostPort.
  - change (":" +:+ p) with (String ":"%char p). rewrite cut_last_app by by apply Hfree.
    assert (∀ c, host_char c = false → is_digit c = false → char_free c (host +:+ String ":"%char p) = true) as Hb.
    { intros c H1 H2. rewrite char_free_app, Hfree' by done. apply char_free_cons. split; [by intros <-|by apply Hfree]. }
    rewrite (first_is_free "["%char) by by apply Hb. by rewrite Hc, !Hb.
  - change ("[" +:+ host +:+ "]:" +:+ p) with (String "["%char (host +:+ String "]"%char (String ":"%char p))).
    assert (String "["%char (host +:+ String "]"%char (String ":"%char p)) = (String "["%char host +:+ "]") +:+ String ":"%char p) as Heq by (by rewrite !app_cons, app_assoc_string).
    rewrite Heq at 1. rewrite cut_last_app by by apply Hfree. rewrite first_is_cons.
    assert (∀ c a b, char_free c a = true → cut c (a +:+ String c b) = (a, Some b)) as Hcut.
    { intros c a b. induction a as [|x a IH]; [intros _; rewrite app_empty; cbn [cut]; by rewrite bool_decide_eq_true_2|].
      intros [Hx Ha]%char_free_cons. rewrite app_cons. cbn [cut]. rewrite bool_decide_eq_false_2 by done. by rewrite IH. }
    rewrite Hcut by by apply Hfree'. cbn [mbind option_bind]. rewrite first_is_cons. cbn [mbind option_bind]. rewrite !Hfree by done. cbn [andb].
    rewrite char_free_app, Hfree' by done. cbn [andb]. assert (char_free "["%char (String "]"%char (String ":"%char p)) = true) as ->; [|done].
    do 2 (apply char_free_cons; split; [done|]). by apply Hfree.
Qed.

Lemma host_port_plain ep : addressed ep → plain_target (host_port ep).
Proof.
  intros Ha. pose proof (host_port_chars ep Ha) as Hc. split; [by apply (all_char_free hp_char)|]. split; [by apply (all_char_free hp_char)|].
  left. destruct Ha. eexists. by apply SplitHostPort_Join.
Qed.

Lemma hp_unescape s : all_char hp_char s = true → unescape EncodeHost s = Some s.
Proof.
  induction s as [|c s IH]; [done|]. cbn [all_char]. intros [Hc Hs]%andb_true_iff. cbn [unescape].
  rewrite bool_decide_eq_false_2 by (intros ->; done). assert (bad_char EncodeHost c = false) as ->; [|by rewrite IH].
  unfold bad_char. apply andb_false_iff. right. unfold shouldEscape_host. apply negb_false_iff.
  unfold hp_char, host_char in Hc. apply orb_true_iff. destruct (is_alnum c); [by left|]. right. cbn [orb] in Hc.
  rewrite orb_true_iff, !bool_decide_eq_true, !elem_of_cons, !elem_of_nil in Hc. apply bool_decide_eq_true. rewrite !elem_of_cons. tauto.
Qed.

Lemma parseHost_Join host p : host_like host = true → all_char is_digit p = true → all_char hp_char (JoinHostPort host p) = true →
  parseHost (JoinHostPort host p) = Some (JoinHostPort host p).
Proof.
  intros Hl Hp Hall. pose proof (hp_unescape _ Hall) as Hu. assert (∀ c, is_digit c = false → char_free c p = true) as Hfree by (intros; by apply digits_free).
  assert (∀ c, hp_char c = false → char_free c (JoinHostPort host p) = true) as Hfree' by (intros; by apply (all_char_free hp_char)).
  unfold JoinHostPort in *. rewrite has_colon_free in *. destruct (char_free ":"%char host) eqn:Hc; cbn [negb] in *; unfold parseHost.
  - assert (first_is "["%char (host +:+ ":" +:+ p) = None) as ->.
    { apply first_is_free. rewrite !char_free_app, (host_like_free _ _ (eq_refl : host_char "["%char = false) Hl), Hfree by done. done. }
    change (":" +:+ p) with (String ":"%char p) in *. rewrite cut_last_app by by apply Hfree. by rewrite valid_port, Hp.
  - change ("[" +:+ host +:+ "]:" +:+ p) with (String "["%char host +:+ String "]"%char (String ":"%char p)) in *.
    rewrite (app_cons "["%char), first_is_cons. rewrite <- app_cons. rewrite cut_last_app by (apply char_free_cons; split; [done|by apply Hfree]).
    cbn [mbind option_bind]. rewrite valid_port, Hp.
    assert (∀ s, char_free "%"%char s = true → cut_zone s = None) as ->; [|done|].
    + induction s as [|c s IH]; [done|]. intros [Hx Hs]%char_free_cons. cbn [cut_zone strip_prefix]. rewrite bool_decide_eq_false_2 by congruence. by rewrite IH.
    + apply char_free_cons. split; [done|by apply host_like_free].
Qed.

(** The URL of an announced host. *)
Lemma announced_url scheme ep : addressed ep → url_Parse scheme (host_port ep) = Some (mkURL scheme None (host_port ep) "" "").
Proof.
  intros Ha. pose proof (host_port_chars ep Ha) as Hc. assert (∀ c, hp_char c = false → char_free c (host_port ep) = true) as Hfree by (intros; by apply (all_char_free hp_char)).
  unfold url_Parse. rewrite cut_free by by apply Hfree.
  assert (all_char (λ c, negb (is_ctl c)) (host_port ep) = true) as ->.
  { eapply all_char_impl; [|exact Hc]. intros c. unfold hp_char, host_char, is_alnum, is_ctl. rewrite !orb_true_iff, !bool_decide_eq_true, !elem_of_cons, !elem_of_nil.
    intros H. rewrite bool_decide_eq_false_2; [done|lia]. }
  rewrite cut_free by by apply Hfree. rewrite cut_free by by apply Hfree. unfold parseAuthority. rewrite cut_last_free by by apply Hfree.
  destruct Ha as [Hl Hp]. unfold host_port in *. rewrite parseHost_Join by done. done.
Qed.

Lemma announced_hostname scheme ep : addressed ep → Hostname (mkURL scheme None (host_port ep) "" "") = md_Address (ep_Metadata ep).
Proof.
  intros [Hl Hp]. unfold host_port, JoinHostPort. rewrite has_colon_free. destruct (char_free ":"%char (md_Address (ep_Metadata ep))); cbn [negb].
  - by eapply Hostname_named.
  - by eapply Hostname_bracketed.
Qed.

(** The headers as the gateway passes them on. *)
Definition forwarded (request : InferenceRequest) : Header := (λ v, [v]) <$> ir_Headers request.

(** C19. The sidecar contacts the endpoints the scheduler chose: for the headers that the handler of
    the scheduler sets, the sidecar reads the endpoint of the prefill profile as the target of
    the prefill and those of the encode profile as the encoders, in order. Each of them is a
    plain target, whose URL leads to the address of the endpoint. *)
Theorem announced_hosts_contacted {C : Type} (ch : Choices) (s : Server) (r : HttpRequest) (prefillProfile encodeProfile scheme : string)
    (request : InferenceRequest) (sr : SchedulingResult) (target : Endpoint) (rest encoders : list Endpoint) (st : ProxyState C) :
  sr_ProfileResults sr !! prefillProfile = Some (Some (target :: rest)) →
  sr_ProfileResults sr !! encodeProfile = Some (Some encoders) → encoders ≠ [] → Forall addressed (target :: encoders) →
  rq_Header r = forwarded (headers.PreRequest prefillProfile encodeProfile request (Some sr)) →
  cf_EnablePrefillerSampling (s_config s) = false →
  (∀ ep, ep ∈ encoders → IsAllowed (s_allowlistValidator s) (host_port ep) = true) →
  prefill_host ch s r st = Some (host_port target, st) ∧ allowed_encoders s r = host_port <$> encoders ∧ plain_headers r ∧
  ∀ ep, ep ∈ target :: encoders → ∃ u, url_Parse scheme (host_port ep) = Some u ∧ Hostname u = md_Address (ep_Metadata ep).
Proof.
  intros Hp He Hne Haddr Hr Hsampling Hall.
  destruct (PreRequest_announces prefillProfile encodeProfile sr request) as (H1 & H2 & _). rewrite Hp in H1. rewrite He in H2. cbn [first_host_port] in H1.
  assert (Forall (λ ep, all_char hp_char (host_port ep) = true) (target :: encoders)) as Hchars by (eapply Forall_impl; [exact Haddr|apply host_port_chars]).
  apply Forall_cons in Hchars as [Ht Hes].
  assert (header_list PrefillEndpointHeader (rq_Header r) = [host_port target]) as Hpl.
  { unfold header_list, h_Values, forwarded in *. rewrite Hr, lookup_fmap, H1. cbn. apply split_on_free. by apply (all_char_free hp_char). }
  assert (header_list EncoderEndpointsHeader (rq_Header r) = host_port <$> encoders) as Hel.
  { unfold header_list, h_Values, forwarded in *. rewrite Hr, lookup_fmap, H2. destruct encoders as [|e encoders]; [done|]. cbn [all_host_ports fmap option_fmap option_map default].
    apply split_on_join; [done|]. apply Forall_fmap. eapply Forall_impl; [exact Hes|]. intros ep Hep. by apply (all_char_free hp_char). }
  assert (trim <$> (host_port <$> encoders) = host_port <$> encoders) as Htrim.
  { rewrite <- list_fmap_compose. apply list_fmap_ext. intros i ep Hep. apply hp_trim. by eapply (Forall_lookup_1 _ _ _ _ Hes). }
  split_and!.
  - unfold prefill_host. rewrite Hpl. rewrite bool_decide_eq_false_2 by done. rewrite Hsampling. unfold mbind, gom_bind, getsome. cbn. by rewrite hp_trim.
  - unfold allowed_encoders. rewrite Hel, Htrim. clear Hel Htrim H2 Hes Haddr He Hne. induction encoders as [|e encoders IH]; [done|]. cbn [fmap list_fmap List.filter].
    rewrite Hall by by left. f_equal. apply IH. intros ep Hep. apply Hall. by right.
  - intros hp. rewrite Hpl, Hel, fmap_app, Htrim. cbn [fmap list_fmap]. rewrite hp_trim by done. rewrite Forall_forall in Haddr.
    intros [->%list_elem_of_singleton|(ep & -> & Hep)%list_elem_of_fmap]%elem_of_app; apply host_port_plain, Haddr; [by left|by right].
  - intros ep Hep. rewrite Forall_forall in Haddr. specialize (Haddr ep Hep). eexists. split; [by apply announced_url|by apply announced_hostname].
Qed.

(** ** Examples *)

#[export] Instance map_proxy_cache : ProxyCache (gmap string URL) := { pc_New := ∅; pc_Get k c := c !! k; pc_Add k u c := <[k := u]> c }.

#[export] Instance map_proxy_lawful : LawfulProxyCache (gmap string URL).
Proof.
  split; [done|intros; apply lookup_insert_eq|]. intros k k' u u' c Hne. cbn. by rewrite lookup_insert_ne.
Qed.

Definition quoted (s : string) : string := MarshalString s.
Definition sample_format (f : float64) : string := pretty (to_int f).

Definition decoder_url : URL := mkURL "http" None "localhost:8001" "" "".
Definition base_config (kv ec : string) (ranks : Z) (protection : bool) : Config :=
  mkConfig "8000" decoder_url kv ec ranks 1024 false false false false false false false true "" protection "default" "pool" DefaultPoolGroup.

Definition prefill_pod : PodObject := mkPodObject "prefill-0" "10.0.0.7".
Definition pool_v1alpha2 : JsonObject := [("spec", JObject [("selector", JObject [("app", JString "vllm")])])]%string.
Definition sample_FormatG : float64 → string := λ _, "".

(** The list after the events of the pool and of one pod. *)
Definition pods_of_pool (store : list PodObject) : PodInformer := mkPodInformer {["app"%string := "vllm"%string]} store.
Definition list_started : AllowlistValidator := updatePodsForPool sample_FormatG "pool" pool_v1alpha2 (mkAllowlist true ∅ ∅ ∅).
Definition list_stored : AllowlistValidator :=
  mkAllowlist (av_enabled list_started) (av_allowedTargets list_started)
    (<["pool"%string := pods_of_pool [prefill_pod]]> (av_podInformers list_started)) (av_podStopChans list_started).
Definition list_built : AllowlistValidator := rebuildAllowlist list_stored.

Lemma list_built_reached : rtc (av_step sample_FormatG (λ pod, pod = prefill_pod)) (mkAllowlist true ∅ ∅ ∅) list_built.
Proof.
  apply (rtc_l _ _ list_started); [apply (av_pool _ _ _ "pool" pool_v1alpha2)|].
  apply (rtc_l _ _ list_stored); [|eapply rtc_l; [apply av_pod_event|apply rtc_refl]].
  apply (av_store sample_FormatG (λ pod, pod = prefill_pod) list_started "pool" (pods_of_pool []) [prefill_pod]).
  - vm_compute. reflexivity.
  - by apply Forall_singleton.
Qed.


Definition sample_server : Server := NewProxy (base_config "nixlv2" "" 1 true) list_built.
Definition sample_choices : Choices := mkChoices (inl "id-1"%string) (inl "id-2"%string) (λ _, 0) 7 0 0.

Definition completion_text : string :=
  "{" +:+ quoted "max_tokens" +:+ ":16," +:+ quoted "prompt" +:+ ":" +:+ quoted "hi" +:+ "," +:+ quoted "stream" +:+ ":true}".
Definition params_text : string := "{" +:+ quoted "kv_transfer_params" +:+ ":{" +:+ quoted "remote_port" +:+ ":5600}}".

(** Prefillers answer with parameters, the decoder with a text. *)
Definition sample_upstream (n : nat) (h : Handler) (r : HttpRequest) : Outcome :=
  match h with HProxy _ => Responded 200 ∅ [params_text] | HDecoder _ => Responded 200 ∅ ["done"%string] end.

Definition post (target body : string) : HttpRequest := mkHttpRequest "/v1/completions" {[PrefillEndpointHeader := [target]]} (inl body).
Definition start_state : ProxyState (gmap string URL) := mkProxyState ∅ ∅ [] new_writer.

Abbreviation sample_run up srv r := (disaggregatedPrefillHandler up sample_format (λ _, "") (λ _, "") 8998 sample_choices srv srv APITypeChatCompletions r start_state).

Lemma empty_list_inv (P : PodObject → Prop) : av_inv P (mkAllowlist true ∅ ∅ ∅).
Proof. split; [intros t Ht; by apply elem_of_empty in Ht|intros name i Hi; cbn [av_podInformers] in Hi; by rewrite lookup_empty in Hi]. Qed.

Lemma prefill_pod_like pod t : pod = prefill_pod → pod_target pod t → host_like t = true.
Proof. intros -> [_ [->|[-> _]]]; vm_compute; reflexivity. Qed.

Lemma empty_cache_ok scheme : cache_ok scheme (∅ : gmap string URL).
Proof. intros k u Hk. cbn in Hk. by rewrite lookup_empty in Hk. Qed.

Definition sample_post : HttpRequest := post "10.0.0.7:8000" completion_text.

Lemma sample_post_plain : plain_headers sample_post.
Proof.
  intros hp Hhp. change (hp ∈ trim <$> ["10.0.0.7:8000"%string]) in Hhp. apply list_elem_of_singleton in Hhp as ->.
  split; [done|]. split; [done|]. left. by eexists.
Qed.

Lemma sample_run_sent : (λ x, length (px_sent x.2)) <$> sample_run sample_upstream sample_server sample_post = Some 2.
Proof. vm_compute. reflexivity. Qed.

Lemma sidecar_contacts_pool_witness :
  ∃ st' : ProxyState (gmap string URL), sample_run sample_upstream sample_server sample_post = Some (tt, st') ∧ length (px_sent st') = 2 ∧
    ∀ h q, (h, q) ∈ px_sent st' →
      match h with
      | HDecoder u => known_decoder sample_server u ∨ known_decoder sample_server u
      | HProxy u => ∃ pod, pod = prefill_pod ∧ pod_target pod (Hostname u)
      end.
Proof.
  pose proof sample_run_sent as Hsent. destruct (sample_run sample_upstream sample_server sample_post) as [[[] st']|] eqn:Hrun; [|discriminate Hsent].
  exists st'. split; [reflexivity|]. split; [by injection Hsent|]. clear Hsent.
  exact (sidecar_contacts_pool sample_upstream sample_format sample_FormatG (λ _, "") (λ _, "") 8998 (λ pod, pod = prefill_pod)
    (mkAllowlist true ∅ ∅ ∅) list_built sample_choices sample_server sample_server APITypeChatCompletions sample_post start_state st' tt
    (empty_list_inv _) list_built_reached prefill_pod_like eq_refl eq_refl eq_refl eq_refl eq_refl (empty_cache_ok _) (empty_cache_ok _) eq_refl
    sample_post_plain Hrun).
Defined.

Lemma sample_post_not_null : not_null sample_post.
Proof. intros b [= <-]. vm_compute. discriminate. Qed.

(** The prefiller fails, and the decoder cannot be reached. *)
Definition failing_upstream (n : nat) (h : Handler) (r : HttpRequest) : Outcome :=
  match h with HProxy _ => Responded 503 ∅ [] | HDecoder _ => Failed "EOF" end.


Definition sample_object : JsonObject := Eval vm_compute in default [] (default None (UnmarshalMap completion_text)).
Definition sample_params : JsonObject := Eval vm_compute in default [] (default None (UnmarshalMap params_text)).
Definition prefill_url : URL := mkURL "http" None "10.0.0.7:8000" "" "".

Lemma nixl_decoder_gets_request_witness :
  ∃ (st' : ProxyState (gmap string URL)) decodeBody,
    runNIXLProtocolV2 sample_upstream sample_format (λ _, "") (λ _, "") sample_choices sample_server sample_post "10.0.0.7:8000" APITypeChatCompletions start_state = Some (tt, st') ∧
    length (px_sent st') = 2 ∧
    UnmarshalMap decodeBody = Some (Some (obj_insert "kv_transfer_params" (JObject [("remote_port"%string, JNumber (of_int 5600))]) sample_object)) ∧
    rw_Body (px_w st') = "done"%string.
Proof.
  destruct (nixl_decoder_gets_request sample_upstream sample_format (λ _, "") (λ _, "") sample_choices sample_server sample_post "10.0.0.7:8000" APITypeChatCompletions
    start_state (mkProxyState (<["10.0.0.7:8000"%string := prefill_url]> ∅) ∅ [] new_writer) completion_text "id-2" sample_object (HProxy prefill_url) 200 ∅ [params_text]
    (Some sample_params)) as (st' & pb & preq & db & Hrun & Hsent & _ & _ & Hdb & Hw).
  - reflexivity.
  - vm_compute. reflexivity.
  - vm_compute. auto 10.
  - reflexivity.
  - vm_compute. reflexivity.
  - reflexivity.
  - lia.
  - vm_compute. reflexivity.
  - intros v Hv. vm_compute in Hv. injection Hv as <-. vm_compute. auto 10.
  - by left.
  - exists st', db. split; [exact Hrun|]. split; [by rewrite Hsent|]. split; [exact Hdb|]. rewrite Hw. reflexivity.
Defined.

Definition scheduled : SchedulingResult :=
  mkSchedulingResult {["decode"%string := Some [sample_endpoint 1 "d"]; "prefill"%string := Some [sample_endpoint 2 "p"]; "encode"%string := Some [sample_endpoint 3 "e"; sample_endpoint 4 "f"]]} "decode".

Definition open_server : Server := NewProxy (base_config "nixlv2" "ec-example" 1 false) (mkAllowlist false ∅ ∅ ∅).

Lemma announced_hosts_contacted_witness :
  let r := mkHttpRequest "/v1/chat/completions" (forwarded (headers.PreRequest "prefill" "encode" sample_request (Some scheduled))) (inl "{}"%string) in
  prefill_host sample_choices open_server r start_state = Some ("10.0.0.1:8000"%string, start_state) ∧
  allowed_encoders open_server r = ["10.0.0.1:8000"; "10.0.0.1:8000"]%string ∧ plain_headers r ∧
  ∃ u, url_Parse "http" "10.0.0.1:8000" = Some u ∧ Hostname u = "10.0.0.1"%string.
Proof.
  intros r. destruct (announced_hosts_contacted sample_choices open_server r "prefill" "encode" "http" sample_request scheduled
    (sample_endpoint 2 "p") [] [sample_endpoint 3 "e"; sample_endpoint 4 "f"] start_state) as (H1 & H2 & H3 & H4).
  - reflexivity.
  - reflexivity.
  - done.
  - repeat constructor.
  - reflexivity.
  - reflexivity.
  - intros ep _. reflexivity.
  - split; [exact H1|]. split; [exact H2|]. split; [exact H3|]. apply (H4 (sample_endpoint 2 "p")). by left.
Defined.

(** ** Corner cases *)

(** A target with a user part passes the list on behalf of its user and leads elsewhere. *)
Lemma userinfo_bypass :
  IsAllowed list_built "10.0.0.7:8000@evil.example" = true ∧ Hostname <$> url_Parse "http" "10.0.0.7:8000@evil.example" = Some "evil.example"%string.
Proof. vm_compute. split; reflexivity. Qed.

(** The prefix that the proxies strip is not stripped for the list. *)
Lemma http_prefix_rejected : IsAllowed list_built "http://10.0.0.7:8000" = false.
Proof. vm_compute. reflexivity. Qed.

(** The selector of a v1 pool has its labels below [matchLabels]; they become the text of one
    label, which no pod has. *)
Definition pool_v1 : JsonObject := [("spec", JObject [("selector", JObject [("matchLabels", JObject [("app", JString "vllm")])])])]%string.

Lemma v1_selector_misread :
  pi_selector <$> av_podInformers (updatePodsForPool sample_FormatG "pool" pool_v1 (mkAllowlist true ∅ ∅ ∅)) !! "pool"%string =
  Some {["matchLabels"%string := "map[app:vllm]"%string]}.
Proof. vm_compute. reflexivity. Qed.

(** A new selector starts with an empty store, but what was allowed stays so until an event of a
    pod. *)
Lemma selector_change_keeps_targets FormatG poolName pool av : av_allowedTargets (updatePodsForPool FormatG poolName pool av) = av_allowedTargets av.
Proof. unfold updatePodsForPool. by destruct (_ ≫= _). Qed.

(** The body [null] is decoded as the nil map, and the first assignment panics. *)
Lemma null_body_panics : sample_run sample_upstream sample_server (post "10.0.0.7:8000" "null") = None.
Proof. vm_compute. reflexivity. Qed.

(** The host of an IPv6 address is cut at its first colon. *)
Lemma bootstrap_host_cut : getBootstrapHost "[fd00::1]:8000" = "[fd00"%string.
Proof. reflexivity. Qed.

(** The prefill over shared storage limits the tokens of the chat API only. *)
Lemma storage_prefill_unlimited m : obj_sorted m → obj_lookup "max_output_tokens" (storage_prefill_request m) = obj_lookup "max_output_tokens" m.
Proof. intros Hm. unfold storage_prefill_request. by rewrite !obj_lookup_insert_ne. Qed.

(** A number passes through a float64. *)
Lemma large_seed_rounded : UnmarshalMap ("{" +:+ quoted "seed" +:+ ":9007199254740993}") = Some (Some [("seed"%string, JNumber (of_int 9007199254740992))]).
Proof. vm_compute. reflexivity. Qed.

(** With encoders, the request to another rank is decoded by the base server. *)
Definition encoded_post : HttpRequest :=
  mkHttpRequest "/v1/chat/completions" {[EncoderEndpointsHeader := ["10.0.0.9:8000"%string]]} (inl ("{" +:+ quoted "messages" +:+ ":[]}")).

Lemma rank_decoded_by_base :
  match Start None "10.0.0.1" (base_config "nixlv2" "ec-example" 2 false) with
  | Some (base, [rank]) =>
      u_Host (s_decoderProxy rank) = "localhost:8002"%string ∧
      (λ x, (λ '(h, _), match h with HDecoder u | HProxy u => u_Host u end) <$> px_sent x.2) <$>
        disaggregatedPrefillHandler sample_upstream sample_format (λ _, "") (λ _, "") 8998 sample_choices base rank APITypeChatCompletions encoded_post start_state
        = Some ["localhost:8001"%string]
  | _ => False
  end.
Proof. vm_compute. split; reflexivity. Qed.

(** When the streamed answer of the decoder is discarded, its headers stay with the client, and
    those of the second answer are added to them. *)
Definition event_text : string :=
  "data: {" +:+ quoted "choices" +:+ ":[{" +:+ quoted "finish_reason" +:+ ":" +:+ quoted "cache_threshold" +:+ "}]}" +:+ String (ascii_of_nat 10) (String (ascii_of_nat 10) "").
Definition cold_decoder (n : nat) (h : Handler) (r : HttpRequest) : Outcome :=
  Responded 200 {["content-type"%string := ["text/event-stream"%string]]} [if bool_decide (n = 0) then event_text else "done"%string].
Definition threshold_text : string := "{" +:+ quoted "cache_hit_threshold" +:+ ":1," +:+ quoted "stream" +:+ ":true}".

Lemma headers_added_twice :
  (λ x, (length (px_sent x.2), rw_Header (px_w x.2) !! "content-type"%string)) <$>
    sample_run cold_decoder (NewProxy (base_config "shared-storage" "" 1 true) list_built) (post "10.0.0.7:8000" threshold_text) =
  Some (3, Some ["text/event-stream"; "text/event-stream"]%string).
Proof. vm_compute. reflexivity. Qed.
