(* ===== verification/MetricsExtractor.v ===== *)
(** * The extractor of model server metrics

    [framework/plugins/datalayer/extractor/metrics]: the specifications of metrics, the mapping
    of an inference engine to them, the registry of mappings with its factory, and the
    extraction of the scraped metric families into the metrics of an endpoint, which the
    scorers and the saturation detectors read. The Prometheus types are records of what the
    code reads; the parser of PromQL is a parameter. An [int] made of a [float64] out of range
    depends on the platform and is a parameter too. *)
From stdpp Require Import prelude gmap strings list.
From Stdlib Require Import ZArith Ascii Lia.
From S2P Require Import Prelude Float64 FloatOps FlowTypes Ordering SchedTypes Pickers Datastore.

Local Open Scope go_scope.

(** ** Scraped data *)

Record Metric := mkMetric {
  mc_Label : list (string * string);
  mc_Gauge : option float64;
  mc_Counter : option float64;
  mc_TimestampMs : Z
}.

Abbreviation PrometheusMetricMap := (gmap string (list Metric)).

(** ** Specifications: [spec.go], [loraspec.go] *)

Record Spec := mkSpec { sp_Name : string; sp_Labels : gmap string string }.

(** What [parser.ParseExpr] returns: a vector selector with its name and matchers, whether each
    is an equality, or another expression. *)
Inductive Expr := VectorSelector (name : string) (matchers : list (bool * string * string)) | OtherExpr.

Definition quote : ascii := ascii_of_nat 34.
Definition is_word (c : ascii) : bool :=
  let n := nat_of_ascii c in bool_decide (48 ≤ n ≤ 57 ∨ 65 ≤ n ≤ 90 ∨ 97 ≤ n ≤ 122 ∨ n = 95).
(** The class of white space of the regular expressions. *)
Definition re_space (c : ascii) : bool := bool_decide (nat_of_ascii c ∈ [9; 10; 12; 13; 32]).
Definition in_value (c : ascii) : bool := negb (bool_decide (nat_of_ascii c ∈ [34; 44; 125]) || re_space c).

Fixpoint span_char (p : ascii → bool) (s : string) : string * string :=
  match s with
  | EmptyString => (EmptyString, EmptyString)
  | String c s' => if p c then let '(a, b) := span_char p s' in (String c a, b) else (EmptyString, s)
  end.

(** The match of the regular expression at a word: the word, the value and what follows. *)
Definition match_label (s : string) : option (string * string * string) :=
  let '(word, s1) := span_char is_word s in
  match word, (span_char re_space s1).2 with
  | String _ _, String c s2 =>
      if bool_decide (c = "="%char) then
        match span_char in_value (span_char re_space s2).2 with
        | (String _ _ as value, rest) => Some (word, value, rest)
        | _ => None
        end
      else None
  | _, _ => None
  end.

(** [ReplaceAllString]; a word that does not match is passed over as a whole, as none of its
    ends matches either. *)
Fixpoint quote_values (fuel : nat) (s : string) : string :=
  match fuel, s with
  | S fuel', String c s' =>
      match match_label s with
      | Some (word, value, rest) => word +:+ String "="%char (String quote (value +:+ String quote (quote_values fuel' rest)))
      | None =>
          if is_word c then let '(word, rest) := span_char is_word s in word +:+ quote_values fuel' rest
          else String c (quote_values fuel' s')
      end
  | _, _ => s
  end.

Definition addQuotesToLabelValues (input : string) : string := quote_values (String.length input) input.

Definition HasPrefix (prefix s : string) : bool := String.prefix prefix s.

Section parser.
Context (ParseExpr : string → Expr + GoError).

(** The nil specification is [None]. *)
Definition parseStringToSpec (spec : string) : option Spec + GoError :=
  if bool_decide (spec = ""%string) then inl None
  else
    expr ←? ParseExpr (addQuotesToLabelValues spec);
    match expr with
    | VectorSelector name matchers =>
        let metricLabels := foldl (λ m '(eq, k, v), if (eq : bool) && negb (HasPrefix "__" k) then <[k := v]> m else m) ∅ matchers in
        if bool_decide (name = ""%string) then inr (ENew "empty metric name in specification") else inl (Some (mkSpec name metricLabels))
    | OtherExpr => inr (ENew "not a valid metric specification")
    end.
End parser.

Definition extractFamily (spec : option Spec) (families : PrometheusMetricMap) : list Metric + GoError :=
  match spec with
  | None => inr (ENew "metric specification is nil")
  | Some spec =>
      match families !! sp_Name spec with
      | None => inr (ENew "metric family not found")
      | Some [] => inr (ENew "no metrics found")
      | Some metrics => inl metrics
      end
  end.

Definition labelsMatch (spec : Spec) (metricLabels : list (string * string)) : bool :=
  if bool_decide (sp_Labels spec = ∅) then true
  else
    let metricLabelMap := foldl (λ m '(name, value), <[name := value]> m) (∅ : gmap string string) metricLabels in
    bool_decide (map_Forall (λ name value, metricLabelMap !! name = Some value) (sp_Labels spec)).

Definition extractValue (metric : Metric) : float64 :=
  match mc_Gauge metric, mc_Counter metric with
  | Some v, _ => v
  | None, Some v => v
  | None, None => fzero
  end.

(** The loop that keeps the metric with the greatest key. *)
Definition latest_by {V} (gt : V → V → bool) (key : Metric → V) (spec : Spec) : option Metric * V → list Metric → option Metric * V :=
  foldl (λ '(latest, recent) metric, if labelsMatch spec (mc_Label metric) && gt (key metric) recent then (Some metric, key metric) else (latest, recent)).

Definition getLatestMetric (spec : Spec) (families : PrometheusMetricMap) : Metric + GoError :=
  family ←? extractFamily (Some spec) families;
  match (latest_by Z.gtb mc_TimestampMs spec (None, (-1)%Z) family).1 with
  | Some latest => inl latest
  | None => inr (ENew "no matching metric found")
  end.

(** [LoRASpec]: the value of a series is when it was created. *)
Definition lora_getLatestMetric (spec : Spec) (families : PrometheusMetricMap) : Metric + GoError :=
  family ←? extractFamily (Some spec) families;
  match (latest_by (λ a b, flt b a) extractValue spec (None, of_int (-1)) family).1 with
  | Some latest => inl latest
  | None => inr (ENew "no matching lora metric found")
  end.

(** ** Mappings: [mapping.go], [mapping_registry.go] *)

Record Mapping := mkMapping {
  mp_TotalQueuedRequests : option Spec;
  mp_TotalRunningRequests : option Spec;
  mp_KVCacheUtilization : option Spec;
  mp_LoraRequestInfo : option Spec;
  mp_CacheInfo : option Spec;
  mp_CacheBlockSizeLabel : string;
  mp_CacheNumBlocksLabel : string;
  mp_CacheBlockSize : option Spec;
  mp_CacheNumBlocks : option Spec
}.

Record MappingConfig := mkMappingConfig {
  mg_Queue : string;
  mg_Running : string;
  mg_KVUsage : string;
  mg_Lora : string;
  mg_CacheInfo : string;
  mg_CacheBlockSizeLabel : string;
  mg_CacheNumBlocksLabel : string;
  mg_CacheBlockSize : string;
  mg_CacheNumBlocks : string
}.

Definition DefaultEngineType : string := "default".
Definition DefaultEngineTypeLabelKey : string := "inference.networking.k8s.io/engine-type".

Abbreviation MappingRegistry := (gmap string Mapping).

Definition registry_Register (engineType : string) (mapping : option Mapping) (r : MappingRegistry) : MappingRegistry + GoError :=
  if bool_decide (engineType = ""%string) then inr (ENew "engine type cannot be empty")
  else match mapping with
       | None => inr (ENew "mapping cannot be nil")
       | Some m => match r !! engineType with Some _ => inr (ENew "mapping already exists") | None => inl (<[engineType := m]> r) end
       end.

Definition registry_Get (engineType : string) (r : MappingRegistry) : option Mapping :=
  let engineType := if bool_decide (engineType = ""%string) then DefaultEngineType else engineType in
  match r !! engineType with
  | Some m => Some m
  | None => if bool_decide (engineType = DefaultEngineType) then None else r !! DefaultEngineType
  end.

Section extractor.
Context (ParseExpr : string → Expr + GoError) (outside : float64 → Z).

(** An empty text of a LoRA specification disables it, as that of the others. *)
Definition parseStringToLoRASpec : string → option Spec + GoError := parseStringToSpec ParseExpr.

Definition err_of {A} (r : A + GoError) : list GoError := match r with inl _ => [] | inr e => [e] end.
Definition val_of {A} (r : option A + GoError) : option A := match r with inl v => v | inr _ => None end.

Definition NewMappingFromConfig (cfg : MappingConfig) : Mapping + GoError :=
  let queueSpec := parseStringToSpec ParseExpr (mg_Queue cfg) in
  let runningSpec := parseStringToSpec ParseExpr (mg_Running cfg) in
  let kvusageSpec := parseStringToSpec ParseExpr (mg_KVUsage cfg) in
  let loraSpec := parseStringToLoRASpec (mg_Lora cfg) in
  let cacheInfoSpec := parseStringToSpec ParseExpr (mg_CacheInfo cfg) in
  let cacheBlockSizeSpec := parseStringToSpec ParseExpr (mg_CacheBlockSize cfg) in
  let cacheNumBlocksSpec := parseStringToSpec ParseExpr (mg_CacheNumBlocks cfg) in
  let errs := err_of queueSpec ++ err_of runningSpec ++ err_of kvusageSpec ++ err_of loraSpec ++ err_of cacheInfoSpec ++ err_of cacheBlockSizeSpec ++ err_of cacheNumBlocksSpec in
  match errs with
  | [] => inl (mkMapping (val_of queueSpec) (val_of runningSpec) (val_of kvusageSpec) (val_of loraSpec) (val_of cacheInfoSpec)
            (mg_CacheBlockSizeLabel cfg) (mg_CacheNumBlocksLabel cfg) (val_of cacheBlockSizeSpec) (val_of cacheNumBlocksSpec))
  | _ => inr (EWrap errs)
  end.

(** ** The factory: [factories.go] *)

Record engineConfigParams := mkEngine { ec_Name : string; ec_Mapping : MappingConfig }.

Record modelServerExtractorParams := mkExtractorParams {
  xp_EngineLabelKey : string;
  xp_DefaultEngine : string;
  xp_EngineConfigs : list engineConfigParams
}.

Definition defaultEngineConfigs : list engineConfigParams :=
  [mkEngine "vllm" (mkMappingConfig "vllm:num_requests_waiting" "vllm:num_requests_running" "vllm:kv_cache_usage_perc"
     "vllm:lora_requests_info" "vllm:cache_config_info" "" "" "" "");
   mkEngine "sglang" (mkMappingConfig "sglang:num_queue_reqs" "sglang:num_running_reqs" "sglang:token_usage"
     "" "sglang:cache_config_info" "page_size" "num_pages" "" "");
   mkEngine "trtllm-serve" (mkMappingConfig "trtllm_num_requests_waiting" "trtllm_num_requests_running" "trtllm_kv_cache_utilization"
     "" "" "" "" "trtllm_kv_cache_tokens_per_block" "trtllm_kv_cache_max_blocks");
   mkEngine "triton-tensorrt-llm" (mkMappingConfig "nv_trt_llm_request_metrics{request_type=waiting}" "nv_trt_llm_request_metrics{request_type=scheduled}"
     "nv_trt_llm_kv_cache_block_metrics{kv_cache_block_type=fraction}" "" "" "" ""
     "nv_trt_llm_kv_cache_block_metrics{kv_cache_block_type=tokens_per}" "nv_trt_llm_kv_cache_block_metrics{kv_cache_block_type=max}")].

Definition defaultEngineName : string := "vllm".

Record Extractor := mkExtractor { xt_Name : string; xt_registry : MappingRegistry; xt_engineLabelKey : string }.

(** [NewCoreMetricsExtractor] with the name of the plugin. *)
Definition NewCoreMetricsExtractor (name : string) (registry : MappingRegistry) (engineLabelKey : string) : Extractor :=
  mkExtractor name registry (if bool_decide (engineLabelKey = ""%string) then DefaultEngineTypeLabelKey else engineLabelKey).

Definition all_engines (configs : list engineConfigParams) : list engineConfigParams :=
  configs ++ List.filter (λ d, negb (bool_decide (ec_Name d ∈ ec_Name <$> configs))) defaultEngineConfigs.

Fixpoint register_engines (defaultEngine : string) (engines : list engineConfigParams) (registry : MappingRegistry) (defaultMapping : option Mapping) : MappingRegistry * option Mapping + GoError :=
  match engines with
  | [] => inl (registry, defaultMapping)
  | ec :: engines' =>
      if bool_decide (ec_Name ec = ""%string) then inr (ENew "engine config name cannot be empty")
      else if bool_decide (ec_Name ec = DefaultEngineType) then inr (ENew "engine config name is reserved")
      else
        mapping ←? NewMappingFromConfig (ec_Mapping ec);
        registry ←? registry_Register (ec_Name ec) (Some mapping) registry;
        register_engines defaultEngine engines' registry (if bool_decide (ec_Name ec = defaultEngine) then Some mapping else defaultMapping)
  end.

Definition newCoreMetricsExtractorPlugin (name : string) (params : modelServerExtractorParams) : Extractor + GoError :=
  let defaultEngine := if bool_decide (xp_DefaultEngine params = ""%string) then defaultEngineName else xp_DefaultEngine params in
  let labelKey := if bool_decide (xp_EngineLabelKey params = ""%string) then DefaultEngineTypeLabelKey else xp_EngineLabelKey params in
  res ←? register_engines defaultEngine (all_engines (xp_EngineConfigs params)) ∅ None;
  match res.2 with
  | None => inr (ENew "defaultEngine not found in engineConfigs")
  | defaultMapping =>
      registry ←? registry_Register DefaultEngineType defaultMapping res.1;
      inl (NewCoreMetricsExtractor name registry labelKey)
  end.

(** ** Extraction: [extractor.go] *)

(** [int(x)]. *)
Definition go_int (x : float64) : Z :=
  match x with
  | SpecFloat.S754_zero _ => 0
  | SpecFloat.S754_finite _ _ _ => if bool_decide (- Int.two63 ≤ to_int x < Int.two63)%Z then to_int x else outside x
  | _ => outside x
  end.

Definition getEngineTypeFromEndpoint (ep : Endpoint) (labelKey : string) : string :=
  match md_Labels (ep_Metadata ep) !! labelKey with
  | Some engineType => if bool_decide (engineType = ""%string) then DefaultEngineType else engineType
  | None => DefaultEngineType
  end.

Definition trimmed (s : string) : string := String.string_of_list_ascii (slodeadline.TrimSpace s).

Definition addAdapters (csv : string) (m : gmap string Z) : gmap string Z :=
  foldl (λ m name, if bool_decide (trimmed name = ""%string) then m else <[trimmed name := 0%Z]> m) m (split_on ","%char csv).

Definition set_queued (v : Z) (m : Metrics) : Metrics :=
  mkMetrics (mt_ActiveModels m) (mt_WaitingModels m) (mt_MaxActiveModels m) (mt_RunningRequestsSize m) v (mt_KVCacheUsagePercent m)
    (mt_KvCacheMaxTokenCapacity m) (mt_CacheBlockSize m) (mt_CacheNumBlocks m) (mt_UpdateTime m).
Definition set_running (v : Z) (m : Metrics) : Metrics :=
  mkMetrics (mt_ActiveModels m) (mt_WaitingModels m) (mt_MaxActiveModels m) v (mt_WaitingQueueSize m) (mt_KVCacheUsagePercent m)
    (mt_KvCacheMaxTokenCapacity m) (mt_CacheBlockSize m) (mt_CacheNumBlocks m) (mt_UpdateTime m).
Definition set_usage (v : float64) (m : Metrics) : Metrics :=
  mkMetrics (mt_ActiveModels m) (mt_WaitingModels m) (mt_MaxActiveModels m) (mt_RunningRequestsSize m) (mt_WaitingQueueSize m) v
    (mt_KvCacheMaxTokenCapacity m) (mt_CacheBlockSize m) (mt_CacheNumBlocks m) (mt_UpdateTime m).
Definition set_models (active waiting : gmap string Z) (max : Z) (m : Metrics) : Metrics :=
  mkMetrics active waiting max (mt_RunningRequestsSize m) (mt_WaitingQueueSize m) (mt_KVCacheUsagePercent m)
    (mt_KvCacheMaxTokenCapacity m) (mt_CacheBlockSize m) (mt_CacheNumBlocks m) (mt_UpdateTime m).
Definition set_cache (blockSize numBlocks : Z) (m : Metrics) : Metrics :=
  mkMetrics (mt_ActiveModels m) (mt_WaitingModels m) (mt_MaxActiveModels m) (mt_RunningRequestsSize m) (mt_WaitingQueueSize m) (mt_KVCacheUsagePercent m)
    (mt_KvCacheMaxTokenCapacity m) blockSize numBlocks (mt_UpdateTime m).
Definition set_time (t : Z) (m : Metrics) : Metrics :=
  mkMetrics (mt_ActiveModels m) (mt_WaitingModels m) (mt_MaxActiveModels m) (mt_RunningRequestsSize m) (mt_WaitingQueueSize m) (mt_KVCacheUsagePercent m)
    (mt_KvCacheMaxTokenCapacity m) (mt_CacheBlockSize m) (mt_CacheNumBlocks m) t.

(** A label with a number: an empty one is skipped, an invalid one is an error. *)
Definition number_label (value : string) (set : Z → Metrics → Metrics) (s : Metrics * list GoError) : Metrics * list GoError :=
  if bool_decide (value = ""%string) then s
  else match slodeadline.ParseInt (String.list_ascii_of_string value) with
       | Some val => (set val s.1, s.2)
       | None => (s.1, s.2 ++ [ENew "strconv.Atoi"])
       end.

(** The cases of the two loops over the labels. *)
Definition lora_label (s : Metrics * list GoError) (label : string * string) : Metrics * list GoError :=
  let '(name, value) := label in
  if bool_decide (name = "running_lora_adapters"%string) then
    (set_models (addAdapters value (mt_ActiveModels s.1)) (mt_WaitingModels s.1) (mt_MaxActiveModels s.1) s.1, s.2)
  else if bool_decide (name = "waiting_lora_adapters"%string) then
    (set_models (mt_ActiveModels s.1) (addAdapters value (mt_WaitingModels s.1)) (mt_MaxActiveModels s.1) s.1, s.2)
  else if bool_decide (name = "max_lora"%string) then
    number_label value (λ v m, set_models (mt_ActiveModels m) (mt_WaitingModels m) v m) s
  else s.

Definition populateLoRAMetrics (metric : Metric) (clone : Metrics) (errs : list GoError) : Metrics * list GoError :=
  foldl lora_label (set_models ∅ ∅ (mt_MaxActiveModels clone) clone, errs) (mc_Label metric).

Definition cache_label (blockSizeLabelName numBlocksLabelName : string) (s : Metrics * list GoError) (label : string * string) : Metrics * list GoError :=
  let '(name, value) := label in
  if bool_decide (name = blockSizeLabelName) then number_label value (λ v m, set_cache v (mt_CacheNumBlocks m) m) s
  else if bool_decide (name = numBlocksLabelName) then number_label value (λ v m, set_cache (mt_CacheBlockSize m) v m) s
  else s.

Definition populateCacheInfoMetrics (metric : Metric) (blockSizeLabelName numBlocksLabelName : string) (clone : Metrics) (errs : list GoError) : Metrics * list GoError :=
  foldl (cache_label blockSizeLabelName numBlocksLabelName) (set_cache 0 (mt_CacheNumBlocks clone) clone, errs) (mc_Label metric).

Record Extraction := mkExtraction { xr_clone : Metrics; xr_errs : list GoError; xr_updated : bool }.

(** One of the blocks of [Extract]. *)
Definition extract_one (get : Spec → PrometheusMetricMap → Metric + GoError) (families : PrometheusMetricMap) (spec : option Spec)
    (populate : Metric → Metrics → list GoError → Metrics * list GoError) (x : Extraction) : Extraction :=
  match spec with
  | None => x
  | Some spec =>
      match get spec families with
      | inr err => mkExtraction (xr_clone x) (xr_errs x ++ [err]) (xr_updated x)
      | inl metric => let '(clone, errs) := populate metric (xr_clone x) (xr_errs x) in mkExtraction clone errs true
      end
  end.

Definition put_value (set : float64 → Metrics → Metrics) (metric : Metric) (clone : Metrics) (errs : list GoError) : Metrics * list GoError :=
  (set (extractValue metric) clone, errs).

Definition label_or (label default : string) : string := if bool_decide (label = ""%string) then default else label.

Definition extract_all (mapping : Mapping) (families : PrometheusMetricMap) (current : Metrics) : Extraction :=
  let x := mkExtraction current [] false in
  let x := extract_one getLatestMetric families (mp_TotalQueuedRequests mapping) (put_value (λ v, set_queued (go_int v))) x in
  let x := extract_one getLatestMetric families (mp_TotalRunningRequests mapping) (put_value (λ v, set_running (go_int v))) x in
  let x := extract_one getLatestMetric families (mp_KVCacheUtilization mapping) (put_value set_usage) x in
  let x := extract_one lora_getLatestMetric families (mp_LoraRequestInfo mapping) populateLoRAMetrics x in
  let x := extract_one getLatestMetric families (mp_CacheInfo mapping)
             (λ metric, populateCacheInfoMetrics metric (label_or (mp_CacheBlockSizeLabel mapping) "block_size") (label_or (mp_CacheNumBlocksLabel mapping) "num_gpu_blocks")) x in
  let x := extract_one getLatestMetric families (mp_CacheBlockSize mapping) (put_value (λ v m, set_cache (go_int v) (mt_CacheNumBlocks m) m)) x in
  extract_one getLatestMetric families (mp_CacheNumBlocks mapping) (put_value (λ v m, set_cache (mt_CacheBlockSize m) (go_int v) m)) x.

(** Data of another type is [None]. *)
Definition Extract (ext : Extractor) (now : Z) (data : option PrometheusMetricMap) (ep : Endpoint) : Endpoint * option GoError :=
  match data with
  | None => (ep, Some (ENew "unexpected input in Extract"))
  | Some families =>
      match registry_Get (getEngineTypeFromEndpoint ep (xt_engineLabelKey ext)) (xt_registry ext) with
      | None => (ep, Some (ENew "no mapping found for engine type and no default mapping registered"))
      | Some mapping =>
          let x := extract_all mapping families (ep_Metrics ep) in
          (if xr_updated x then mkEndpoint (ep_ptr ep) (ep_Metadata ep) (set_time now (xr_clone x)) (ep_Attributes ep) else ep,
           match xr_errs x with [] => None | errs => Some (EWrap errs) end)
      end
  end.
End extractor.

(** ** The newest series *)

(** [m] matches, no matching series is newer, and every earlier one is older. *)
Definition newest {V} (gt : V → V → bool) (key : Metric → V) (start : V) (spec : Spec) (family : list Metric) (m : Metric) : Prop :=
  labelsMatch spec (mc_Label m) = true ∧ gt (key m) start = true ∧
  (∀ m', m' ∈ family → labelsMatch spec (mc_Label m') = true → gt (key m') (key m) = false) ∧
  ∃ l1 l2, family = l1 ++ m :: l2 ∧
    ∀ m', m' ∈ l1 → labelsMatch spec (mc_Label m') = true → gt (key m') start = true → gt (key m) (key m') = true.

Definition unmatched {V} (gt : V → V → bool) (key : Metric → V) (start : V) (spec : Spec) (family : list Metric) : Prop :=
  ∀ m, m ∈ family → labelsMatch spec (mc_Label m) = true → gt (key m) start = false.

Section newest.
Context {V : Type} (gt : V → V → bool) (key : Metric → V) (start : V) (spec : Spec).
Context (Hirr : ∀ a, gt a a = false) (Htrans : ∀ a b c, gt a b = true → gt b c = true → gt a c = true)
  (Hweak : ∀ a b c, gt c b = true → gt a b = false → gt a start = true → gt c a = true).

Lemma latest_by_spec family :
  (latest_by gt key spec (None, start) family = (None, start) ∧ unmatched gt key start spec family) ∨
  ∃ m, latest_by gt key spec (None, start) family = (Some m, key m) ∧ newest gt key start spec family m.
Proof using Hirr Htrans Hweak.
  induction family as [|x family IH] using rev_ind; [left; split; [done|intros m []%elem_of_nil]|].
  unfold latest_by in *. rewrite foldl_app. cbn [foldl].
  destruct IH as [[Heq Hun]|(m & Heq & Hm & Hstart & Hmax & l1 & l2 & -> & Hl1)]; rewrite Heq; clear Heq.
  - destruct (labelsMatch spec (mc_Label x) && gt (key x) start) eqn:E; [right|left].
    + apply andb_true_iff in E as [Ex Egt]. exists x. split; [done|]. split_and!; [done|done| |].
      * intros m' [Hm'|Hx%list_elem_of_singleton]%elem_of_app Hmatch; [|rewrite Hx; by apply Hirr].
        destruct (gt (key m') (key x)) eqn:E'; [|done]. specialize (Hun m' Hm' Hmatch). rewrite (Htrans _ _ _ E' Egt) in Hun. done.
      * exists family, []. split; [done|]. intros m' Hm' Hmatch Hs. by rewrite (Hun m' Hm' Hmatch) in Hs.
    + split; [done|]. intros m [Hm|Hx%list_elem_of_singleton]%elem_of_app Hmatch; [by apply Hun|]. rewrite Hx in *. by rewrite Hmatch in E.
  - right. destruct (labelsMatch spec (mc_Label x) && gt (key x) (key m)) eqn:E.
    + apply andb_true_iff in E as [Ex Egt]. exists x. split; [done|]. split_and!; [done|by eapply Htrans| |].
      * intros m' [Hm'|Hx%list_elem_of_singleton]%elem_of_app Hmatch; [|rewrite Hx; by apply Hirr].
        destruct (gt (key m') (key x)) eqn:E'; [|done]. specialize (Hmax m' Hm' Hmatch). by rewrite (Htrans _ _ _ E' Egt) in Hmax.
      * exists (l1 ++ m :: l2), []. split; [done|]. intros m' Hm' Hmatch Hs. by eapply Hweak; [exact Egt|apply Hmax|].
    + exists m. split; [done|]. split_and!; [done|done| |].
      * intros m' [Hm'|Hx%list_elem_of_singleton]%elem_of_app Hmatch; [by apply Hmax|]. rewrite Hx in *. by rewrite Hmatch in E.
      * exists l1, (l2 ++ [x]). by rewrite <- app_assoc.
Qed.
End newest.

Definition latest (spec : Spec) : list Metric → Metric → Prop := newest Z.gtb mc_TimestampMs (-1)%Z spec.
Definition latest_lora (spec : Spec) : list Metric → Metric → Prop := newest (λ a b, flt b a) extractValue (of_int (-1)) spec.

(** There is no such series. *)
Definition absent {V} (gt : V → V → bool) (key : Metric → V) (start : V) (spec : Spec) (families : PrometheusMetricMap) : Prop :=
  ∀ family, families !! sp_Name spec = Some family → unmatched gt key start spec family.

Lemma getLatestMetric_spec spec families :
  match getLatestMetric spec families with
  | inl m => ∃ family, families !! sp_Name spec = Some family ∧ latest spec family m
  | inr _ => absent Z.gtb mc_TimestampMs (-1)%Z spec families
  end.
Proof.
  unfold getLatestMetric, extractFamily, absent. destruct (families !! sp_Name spec) as [[|x family]|] eqn:E; cbn [ebind]; [intros ? [= <-] m []%elem_of_nil| |done].
  destruct (latest_by_spec Z.gtb mc_TimestampMs (-1)%Z spec) with (x :: family) as [[Heq Hun]|(m & Heq & Hm)]; try (rewrite Heq; cbn [fst]).
  - intros a. rewrite Z.gtb_ltb. apply Z.ltb_irrefl.
  - intros a b c. rewrite !Z.gtb_ltb, !Z.ltb_lt. lia.
  - intros a b c. rewrite !Z.gtb_ltb, !Z.ltb_lt, Z.ltb_ge. lia.
  - by intros ? [= <-].
  - by eexists.
Qed.

Lemma lora_getLatestMetric_spec spec families :
  match lora_getLatestMetric spec families with
  | inl m => ∃ family, families !! sp_Name spec = Some family ∧ latest_lora spec family m
  | inr _ => absent (λ a b, flt b a) extractValue (of_int (-1)) spec families
  end.
Proof.
  unfold lora_getLatestMetric, extractFamily, absent. destruct (families !! sp_Name spec) as [[|x family]|] eqn:E; cbn [ebind]; [intros ? [= <-] m []%elem_of_nil| |done].
  destruct (latest_by_spec (λ a b, flt b a) extractValue (of_int (-1)) spec) with (x :: family) as [[Heq Hun]|(m & Heq & Hm)]; try (rewrite Heq; cbn [fst]).
  - intros a. destruct (flt a a) eqn:H; [|done]. pose proof (flt_nan _ _ H) as [Hn _]. rewrite flt_not_fle, fle_refl in H by done. done.
  - intros a b c H1 H2. eapply flt_fle_trans; [exact H2|by apply flt_fle].
  - intros a b c H1 H2 H3. eapply flt_le_trans; [|exact H1]. apply not_flt_fle; [by destruct (flt_nan _ _ H3)|by destruct (flt_nan _ _ H1)|done].
  - by intros ? [= <-].
  - by eexists.
Qed.

(** ** The mapping of an endpoint *)

Section mapping.
Context (ParseExpr : string → Expr + GoError).

(** The engines registered so far, and the default among them. *)
Lemma register_engines_spec defaultEngine engines r d r' d' :
  register_engines ParseExpr defaultEngine engines r d = inl (r', d') →
  NoDup (ec_Name <$> engines) ∧ (∀ ec, ec ∈ engines → r !! ec_Name ec = None ∧ ec_Name ec ≠ ""%string ∧ ec_Name ec ≠ DefaultEngineType ∧ ∃ mapping, NewMappingFromConfig ParseExpr (ec_Mapping ec) = inl mapping) ∧
  (∀ name mapping, r' !! name = Some mapping ↔ r !! name = Some mapping ∨ ∃ ec, ec ∈ engines ∧ ec_Name ec = name ∧ NewMappingFromConfig ParseExpr (ec_Mapping ec) = inl mapping) ∧
  (∀ mapping, d' = Some mapping → d = Some mapping ∨ r' !! defaultEngine = Some mapping).
Proof.
  revert r d. induction engines as [|ec engines IH]; intros r d; cbn [register_engines].
  - intros [= <- <-]. split; [constructor|]. split; [intros ? []%elem_of_nil|]. split; [|by left]. intros name mapping. split; [by left|]. by intros [?|(? & []%elem_of_nil & _)].
  - case_bool_decide as Hempty; [done|]. case_bool_decide as Hres; [done|]. intros H. apply ebind_inl in H as (mapping & Hm & H).
    apply ebind_inl in H as (r1 & Hr & H). unfold registry_Register in Hr. rewrite (bool_decide_eq_false_2 _ Hempty) in Hr.
    destruct (r !! ec_Name ec) eqn:Hnone; [done|]. injection Hr as <-. apply IH in H as (Hnd & Hfresh & Hget & Hd).
    split_and!.
    + rewrite fmap_cons. constructor; [|done]. intros (ec' & Heq & Hin)%list_elem_of_fmap. apply Hfresh in Hin as [Hin _]. rewrite <- Heq in Hin. by rewrite lookup_insert_eq in Hin.
    + intros ec' [->|Hin]%elem_of_cons; [by eauto|]. apply Hfresh in Hin as (Hin & ? & ? & ?). apply lookup_insert_None in Hin as [? _]. done.
    + intros name mapping'. rewrite Hget, lookup_insert_Some. split.
      * intros [[[<- <-]|[_ ?]]|(ec' & ? & ? & ?)]; [right; exists ec; split_and!; [by left|done..]|by left|right; exists ec'; split_and!; [by right|done..]].
      * intros [Hr|(ec' & [->|Hin]%elem_of_cons & <- & Hm')].
        -- left. right. split; [|done]. intros <-. congruence.
        -- left. left. split; [done|]. congruence.
        -- right. by exists ec'.
    + intros mapping' [Heq|?]%Hd; [|by right]. case_bool_decide as Hdef; [|by left]. injection Heq as <-. right. apply Hget. left. rewrite Hdef. apply lookup_insert_eq.
Qed.

(** The configuration that applies to an engine: its own, or that of the default engine. *)
Definition engine_config (params : modelServerExtractorParams) (engine : string) (ec : engineConfigParams) : Prop :=
  let engines := all_engines (xp_EngineConfigs params) in
  ec ∈ engines ∧
  (ec_Name ec = engine ∨ ((engine ∉ (ec_Name <$> engines)) ∧ ec_Name ec = label_or (xp_DefaultEngine params) defaultEngineName)).

Lemma all_engines_user params ec : ec ∈ xp_EngineConfigs params → ec ∈ all_engines (xp_EngineConfigs params).
Proof using Type. intros H. unfold all_engines. apply elem_of_app. by left. Qed.

Lemma factory_mapping name params ext engine : newCoreMetricsExtractorPlugin ParseExpr name params = inl ext →
  NoDup (ec_Name <$> all_engines (xp_EngineConfigs params)) ∧
  ∃ ec mapping, engine_config params engine ec ∧ NewMappingFromConfig ParseExpr (ec_Mapping ec) = inl mapping ∧ registry_Get engine (xt_registry ext) = Some mapping.
Proof using Type.
  unfold newCoreMetricsExtractorPlugin. intros H. apply ebind_inl in H as ([r d] & Hr & H). cbn [fst snd] in H. destruct d as [md|]; [|done].
  apply ebind_inl in H as (r1 & Hreg & [= <-]). unfold registry_Register in Hreg. cbn in Hreg.
  destruct (r !! DefaultEngineType) eqn:Hnone; [done|]. injection Hreg as <-. apply register_engines_spec in Hr as (Hnd & Hfresh & Hget & Hdef).
  destruct (Hdef md eq_refl) as [?|Hmd]; [done|]. split; [done|]. set (engines := all_engines (xp_EngineConfigs params)) in *.
  apply Hget in Hmd as [?|(ecd & Hind & Hnamed & Hmd)]; [done|]. cbn [NewCoreMetricsExtractor xt_registry]. unfold registry_Get.
  destruct (decide (engine ∈ (ec_Name <$> engines))) as [(ec & -> & Hin)%list_elem_of_fmap|Hno].
  - destruct (Hfresh ec Hin) as (_ & Hne & Hnd' & mapping & Hm). exists ec, mapping. split; [split; [done|by left]|]. split; [done|].
    rewrite bool_decide_eq_false_2 by done. rewrite lookup_insert_ne by done. by rewrite (proj2 (Hget (ec_Name ec) mapping)) by (right; by exists ec).
  - exists ecd, md. split; [split; [done|right; split; [done|]; exact Hnamed]|]. split; [done|].
    assert (∀ e, e = engine ∨ e = DefaultEngineType → r !! e = None) as Hmiss.
    { intros e [->| ->]; [|done]. destruct (r !! engine) eqn:E; [|done]. apply Hget in E as [?|(ec & Hin & <- & _)]; [done|]. destruct Hno. by apply list_elem_of_fmap_2. }
    set (e := if bool_decide (engine = ""%string) then DefaultEngineType else engine). destruct (decide (e = DefaultEngineType)) as [->|Hne]; [by rewrite lookup_insert_eq|].
    rewrite lookup_insert_ne by done. rewrite bool_decide_eq_false_2 by done. rewrite Hmiss, lookup_insert_eq; [done|]. subst e. case_bool_decide; auto.
Qed.
End mapping.

(** ** What is extracted *)

(** A field has the value of the newest series of its specification, or what it had. *)
Definition read {A} (is_latest : Spec → list Metric → Metric → Prop) (gone : Spec → PrometheusMetricMap → Prop)
    (families : PrometheusMetricMap) (spec : option Spec) (value : Metric → A → Prop) (old new : A) : Prop :=
  match spec with
  | None => new = old
  | Some spec => (∃ family m, families !! sp_Name spec = Some family ∧ is_latest spec family m ∧ value m new) ∨ (gone spec families ∧ new = old)
  end.

Abbreviation not_there := (absent Z.gtb mc_TimestampMs (-1)%Z).
Abbreviation no_lora := (absent (λ a b, flt b a) extractValue (of_int (-1))).

(** The adapters that a label lists. *)
Definition lists_adapter (label : string) (m : Metric) (adapter : string) : Prop :=
  adapter ≠ ""%string ∧ ∃ value part, (label, value) ∈ mc_Label m ∧ part ∈ split_on ","%char value ∧ trimmed part = adapter.

Section extraction.
Context (outside : float64 → Z).

Lemma extract_one_keeps {A} (f : Metrics → A) get families spec populate x :
  (∀ metric m errs, f (populate metric m errs).1 = f m) → f (xr_clone (extract_one get families spec populate x)) = f (xr_clone x).
Proof using Type.
  intros Hf. unfold extract_one. destruct spec as [spec|]; [|done]. destruct (get spec families) as [metric|err]; [|done].
  pose proof (Hf metric (xr_clone x) (xr_errs x)) as H. by destruct (populate _ _ _).
Qed.

Lemma extract_one_reads {A} (f : Metrics → A) (value : Metric → A → Prop) is_latest gone get families spec populate x :
  (∀ spec, match get spec families with
           | inl m => ∃ family, families !! sp_Name spec = Some family ∧ is_latest spec family m
           | inr _ => gone spec families
           end) →
  (∀ metric m errs, value metric (f (populate metric m errs).1)) →
  read is_latest gone families spec value (f (xr_clone x)) (f (xr_clone (extract_one get families spec populate x))).
Proof using Type.
  intros Hget Hf. unfold extract_one, read. destruct spec as [spec|]; [|done]. specialize (Hget spec). destruct (get spec families) as [metric|err].
  - left. destruct Hget as (family & Hfam & Hl). exists family, metric. pose proof (Hf metric (xr_clone x) (xr_errs x)) as H. by destruct (populate _ _ _).
  - right. done.
Qed.

Lemma number_label_keeps {A} (f : Metrics → A) value set s : (∀ v m, f (set v m) = f m) → f (number_label value set s).1 = f s.1.
Proof using Type. intros H. unfold number_label. case_bool_decide; [done|]. destruct (slodeadline.ParseInt _); [apply H|done]. Qed.

(** A loop over the labels keeps what its cases keep. *)
Lemma labels_keep {A} (f : Metrics → A) (case : Metrics * list GoError → string * string → Metrics * list GoError) l s : (∀ s label, f (case s label).1 = f s.1) → f (foldl case s l).1 = f s.1.
Proof using Type. intros H. revert s. induction l as [|label l IH]; intros s; [done|]. cbn [foldl]. rewrite IH. apply H. Qed.

Lemma lora_keeps {A} (f : Metrics → A) metric m errs : (∀ a w x m, f (set_models a w x m) = f m) → f (populateLoRAMetrics metric m errs).1 = f m.
Proof using Type.
  intros H. unfold populateLoRAMetrics. rewrite labels_keep; [apply H|]. intros s [name value]. unfold lora_label.
  repeat case_bool_decide; cbn [fst]; [apply H|apply H| |done]. apply number_label_keeps. intros. apply H.
Qed.

Lemma cache_info_keeps {A} (f : Metrics → A) metric b n m errs : (∀ v w m, f (set_cache v w m) = f m) → f (populateCacheInfoMetrics metric b n m errs).1 = f m.
Proof using Type.
  intros H. unfold populateCacheInfoMetrics. rewrite labels_keep; [apply H|]. intros s [name value]. unfold cache_label.
  repeat case_bool_decide; [| |done]; apply number_label_keeps; intros; apply H.
Qed.

(** Errors are only added. *)
Lemma number_label_errs value set s : (number_label value set s).2 = [] → s.2 = [].
Proof using Type. unfold number_label. case_bool_decide; [done|]. destruct (slodeadline.ParseInt _); [done|]. by intros [? _]%app_nil. Qed.

Lemma labels_errs (case : Metrics * list GoError → string * string → Metrics * list GoError) l s : (∀ s label, (case s label).2 = [] → s.2 = []) → (foldl case s l).2 = [] → s.2 = [].
Proof using Type. intros H. revert s. induction l as [|label l IH]; intros s; [done|]. cbn [foldl]. eauto. Qed.

Lemma lora_errs metric m errs : (populateLoRAMetrics metric m errs).2 = [] → errs = [].
Proof using Type.
  unfold populateLoRAMetrics. apply labels_errs. intros s [name value]. unfold lora_label. repeat case_bool_decide; try done. apply number_label_errs.
Qed.

Lemma cache_info_errs metric b n m errs : (populateCacheInfoMetrics metric b n m errs).2 = [] → errs = [].
Proof using Type.
  unfold populateCacheInfoMetrics. apply labels_errs. intros s [name value]. unfold cache_label. repeat case_bool_decide; try done; apply number_label_errs.
Qed.

Lemma addAdapters_spec csv m a : a ∈ dom (addAdapters csv m) ↔ a ∈ dom m ∨ a ≠ ""%string ∧ ∃ part, part ∈ split_on ","%char csv ∧ trimmed part = a.
Proof using Type.
  unfold addAdapters. revert m. induction (split_on ","%char csv) as [|part parts IH]; intros m; cbn [foldl]; [set_solver|].
  rewrite IH. case_bool_decide as He; [|rewrite dom_insert_L]; set_solver.
Qed.

(** The adapters of the labels replace those that were known. *)
Lemma lora_models metric m errs a :
  (a ∈ dom (mt_ActiveModels (populateLoRAMetrics metric m errs).1) ↔ lists_adapter "running_lora_adapters" metric a) ∧
  (a ∈ dom (mt_WaitingModels (populateLoRAMetrics metric m errs).1) ↔ lists_adapter "waiting_lora_adapters" metric a).
Proof using Type.
  unfold populateLoRAMetrics, lists_adapter.
  set (listed := λ (label : string) (l : list (string * string)), a ≠ ""%string ∧ ∃ value part, (label, value) ∈ l ∧ part ∈ split_on ","%char value ∧ trimmed part = a).
  cut (∀ l s, (a ∈ dom (mt_ActiveModels (foldl lora_label s l).1) ↔ a ∈ dom (mt_ActiveModels s.1) ∨ listed "running_lora_adapters"%string l) ∧
    (a ∈ dom (mt_WaitingModels (foldl lora_label s l).1) ↔ a ∈ dom (mt_WaitingModels s.1) ∨ listed "waiting_lora_adapters"%string l)).
  { intros H. destruct (H (mc_Label metric) (set_models ∅ ∅ (mt_MaxActiveModels m) m, errs)) as [-> ->]. cbn [set_models fst mt_ActiveModels mt_WaitingModels].
    rewrite !dom_empty_L, !elem_of_empty. unfold listed. tauto. }
  assert (∀ label name value l, listed label ((name, value) :: l) ↔
    (label = name ∧ a ≠ ""%string ∧ ∃ part, part ∈ split_on ","%char value ∧ trimmed part = a) ∨ listed label l) as Hcons.
  { intros label name value l. unfold listed. setoid_rewrite elem_of_cons. split; [intros (? & v & p & [[= -> ->]|?] & ? & ?); [left|right]; eauto 10|].
    intros [(-> & ? & p & ? & ?)|(? & v & p & ? & ? & ?)]; eauto 10. }
  induction l as [|[name value] l IH]; intros s; [split; unfold listed; split; [by left|intros [?|(_ & ? & ? & []%elem_of_nil & _)]; done|by left|intros [?|(_ & ? & ? & []%elem_of_nil & _)]; done]|].
  cbn [foldl]. destruct (IH (lora_label s (name, value))) as [-> ->]. rewrite !Hcons. unfold lora_label. case_bool_decide; [|case_bool_decide; [|case_bool_decide]]; subst.
  - cbn [fst set_models mt_ActiveModels mt_WaitingModels]. rewrite addAdapters_spec. split; [tauto|]. split; [tauto|]. intros [?|[[? _]|?]]; [tauto|done|tauto].
  - cbn [fst set_models mt_ActiveModels mt_WaitingModels]. rewrite addAdapters_spec. split; [|tauto]. split; [tauto|]. intros [?|[[? _]|?]]; [tauto|done|tauto].
  - rewrite (number_label_keeps mt_ActiveModels), (number_label_keeps mt_WaitingModels) by done. split; (split; [tauto|]; intros [?|[[? _]|?]]; [tauto|done|tauto]).
  - split; (split; [tauto|]; intros [?|[[? _]|?]]; [tauto|by subst|tauto]).
Qed.

Lemma extract_one_errs get families spec populate x : (∀ metric m errs, (populate metric m errs).2 = [] → errs = []) →
  xr_errs (extract_one get families spec populate x) = [] → xr_errs x = [] ∧ ∀ sp, spec = Some sp → ∃ m, get sp families = inl m.
Proof using Type.
  intros Hp. unfold extract_one. destruct spec as [sp|]; [|done]. destruct (get sp families) as [metric|err] eqn:E.
  - pose proof (Hp metric (xr_clone x) (xr_errs x)) as H. destruct (populate _ _ _) as [clone errs]. cbn. intros ->. split; [by apply H|]. intros ? [= <-]. by eexists.
  - cbn. by intros [_ ?]%app_nil.
Qed.

(** The values that the scrape gives for the fields of an endpoint. *)
Record extracted (mapping : Mapping) (families : PrometheusMetricMap) (old new : Metrics) : Prop := mkExtracted {
  ex_queued : read latest not_there families (mp_TotalQueuedRequests mapping) (λ m v, v = go_int outside (extractValue m)) (mt_WaitingQueueSize old) (mt_WaitingQueueSize new);
  ex_running : read latest not_there families (mp_TotalRunningRequests mapping) (λ m v, v = go_int outside (extractValue m)) (mt_RunningRequestsSize old) (mt_RunningRequestsSize new);
  ex_usage : read latest not_there families (mp_KVCacheUtilization mapping) (λ m v, v = extractValue m) (mt_KVCacheUsagePercent old) (mt_KVCacheUsagePercent new);
  ex_active : read latest_lora no_lora families (mp_LoraRequestInfo mapping)
    (λ m models, ∀ a, a ∈ dom models ↔ lists_adapter "running_lora_adapters" m a) (mt_ActiveModels old) (mt_ActiveModels new);
  ex_waiting : read latest_lora no_lora families (mp_LoraRequestInfo mapping)
    (λ m models, ∀ a, a ∈ dom models ↔ lists_adapter "waiting_lora_adapters" m a) (mt_WaitingModels old) (mt_WaitingModels new);
  ex_capacity : mt_KvCacheMaxTokenCapacity new = mt_KvCacheMaxTokenCapacity old
}.

(** The block that writes a field [f]; the others keep it. *)
Ltac keeps f := rewrite ?(extract_one_keeps f) by (intros; first [apply lora_keeps|apply cache_info_keeps|idtac]; done).
Ltac reads f :=
  keeps f;
  match goal with |- read _ _ _ _ _ ?old (_ (xr_clone (extract_one _ _ _ _ ?x))) => replace old with (f (xr_clone x)) by (by keeps f) end;
  apply (extract_one_reads f).

Lemma extract_all_extracted mapping families current : extracted mapping families current (xr_clone (extract_all outside mapping families current)).
Proof using Type.
  unfold extract_all. split.
  - reads mt_WaitingQueueSize; [intros; apply getLatestMetric_spec|done].
  - reads mt_RunningRequestsSize; [intros; apply getLatestMetric_spec|done].
  - reads mt_KVCacheUsagePercent; [intros; apply getLatestMetric_spec|done].
  - reads mt_ActiveModels; [intros; apply lora_getLatestMetric_spec|]. intros. apply lora_models.
  - reads mt_WaitingModels; [intros; apply lora_getLatestMetric_spec|]. intros. apply lora_models.
  - by keeps mt_KvCacheMaxTokenCapacity.
Qed.

(** A scrape without an error has found a series for every specification. *)
Lemma extract_all_errs mapping families current : xr_errs (extract_all outside mapping families current) = [] →
  (∀ spec, spec ∈ omap id [mp_TotalQueuedRequests mapping; mp_TotalRunningRequests mapping; mp_KVCacheUtilization mapping; mp_CacheInfo mapping;
      mp_CacheBlockSize mapping; mp_CacheNumBlocks mapping] → ∃ m, getLatestMetric spec families = inl m) ∧
  (∀ spec, mp_LoraRequestInfo mapping = Some spec → ∃ m, lora_getLatestMetric spec families = inl m).
Proof using Type.
  unfold extract_all. intros H.
  apply extract_one_errs in H as [H H7]; [|done]. apply extract_one_errs in H as [H H6]; [|done]. apply extract_one_errs in H as [H H5]; [|intros *; apply cache_info_errs].
  apply extract_one_errs in H as [H H4]; [|apply lora_errs]. apply extract_one_errs in H as [H H3]; [|done]. apply extract_one_errs in H as [H H2]; [|done].
  apply extract_one_errs in H as [_ H1]; [|done]. split; [|done].
  intros spec (o & Ho & Hs)%list_elem_of_omap. cbn in Hs. subst o. rewrite !elem_of_cons, elem_of_nil in Ho. naive_solver.
Qed.

Lemma extract_one_updated get families spec populate x : xr_updated (extract_one get families spec populate x) = false →
  xr_updated x = false ∧ xr_clone (extract_one get families spec populate x) = xr_clone x.
Proof using Type. unfold extract_one. destruct spec as [sp|]; [|done]. destruct (get sp families) as [metric|err]; [|done]. by destruct (populate _ _ _). Qed.

Lemma extract_all_same mapping families current : xr_updated (extract_all outside mapping families current) = false → xr_clone (extract_all outside mapping families current) = current.
Proof using Type.
  unfold extract_all. intros H. do 7 (apply extract_one_updated in H as [H ->]). done.
Qed.
End extraction.

(** C25. What a model server reports reaches the endpoint that the scorers see: an extractor that
    the factory accepts has a mapping for every endpoint, that of the engine of its label or
    else that of the default engine, whose names are distinct and where a configured engine
    replaces the built-in one. Queue length, running requests, cache usage and adapters are
    those of the newest series that matches the specification, the first among equally new
    ones, and stay as they were when there is none. An extraction without an error has found
    a series for every specification. *)
Theorem scraped_metrics_reach_endpoint (ParseExpr : string → Expr + GoError) (outside : float64 → Z) (name : string) (params : modelServerExtractorParams)
    (ext : Extractor) (now : Z) (families : PrometheusMetricMap) (ep : Endpoint) :
  newCoreMetricsExtractorPlugin ParseExpr name params = inl ext →
  NoDup (ec_Name <$> all_engines (xp_EngineConfigs params)) ∧
  ∃ ec mapping, engine_config params (getEngineTypeFromEndpoint ep (label_or (xp_EngineLabelKey params) DefaultEngineTypeLabelKey)) ec ∧
    NewMappingFromConfig ParseExpr (ec_Mapping ec) = inl mapping ∧
    let '(ep', err) := Extract outside ext now (Some families) ep in
    ep_ptr ep' = ep_ptr ep ∧ ep_Metadata ep' = ep_Metadata ep ∧ ep_Attributes ep' = ep_Attributes ep ∧
    extracted outside mapping families (ep_Metrics ep) (ep_Metrics ep') ∧
    (ep' = ep ∨ mt_UpdateTime (ep_Metrics ep') = now) ∧
    (err = None →
      (∀ spec, spec ∈ omap id [mp_TotalQueuedRequests mapping; mp_TotalRunningRequests mapping; mp_KVCacheUtilization mapping; mp_CacheInfo mapping;
          mp_CacheBlockSize mapping; mp_CacheNumBlocks mapping] → ∃ family m, families !! sp_Name spec = Some family ∧ latest spec family m) ∧
      (∀ spec, mp_LoraRequestInfo mapping = Some spec → ∃ family m, families !! sp_Name spec = Some family ∧ latest_lora spec family m)).
Proof.
  intros Hf. set (engine := getEngineTypeFromEndpoint ep _). destruct (factory_mapping ParseExpr name params ext engine Hf) as (Hnd & ec & mapping & Hec & Hm & Hget).
  split; [done|]. exists ec, mapping. split; [done|]. split; [done|].
  assert (xt_engineLabelKey ext = label_or (xp_EngineLabelKey params) DefaultEngineTypeLabelKey) as Hkey.
  { unfold newCoreMetricsExtractorPlugin in Hf. apply ebind_inl in Hf as ([r d] & _ & Hf). cbn [fst snd] in Hf. destruct d as [md|]; [|done].
    apply ebind_inl in Hf as (r1 & _ & [= <-]). unfold NewCoreMetricsExtractor, label_or. cbn [xt_engineLabelKey]. case_bool_decide; [done|]. by rewrite bool_decide_eq_false_2. }
  unfold Extract. rewrite Hkey. fold engine. rewrite Hget. pose proof (extract_all_extracted outside mapping families (ep_Metrics ep)) as Hx.
  split; [by destruct (xr_updated _)|]. split; [by destruct (xr_updated _)|]. split; [by destruct (xr_updated _)|]. split; [|split].
  - destruct (xr_updated _) eqn:Hu; [by destruct Hx|]. by rewrite extract_all_same in Hx.
  - destruct (xr_updated _); [by right|by left].
  - intros He. assert (xr_errs (extract_all outside mapping families (ep_Metrics ep)) = []) as Hnil by by destruct (xr_errs _).
    apply extract_all_errs in Hnil as [H1 H2]. split.
    + intros spec [m Hg]%H1. pose proof (getLatestMetric_spec spec families) as H. rewrite Hg in H. destruct H as (family & ? & ?). eauto.
    + intros spec [m Hg]%H2. pose proof (lora_getLatestMetric_spec spec families) as H. rewrite Hg in H. destruct H as (family & ? & ?). eauto.
Qed.

(** ** Examples *)

(** A parser of names and of one quoted label. *)
Definition is_name (c : ascii) : bool := is_word c || bool_decide (c = ":"%char).
Definition sample_ParseExpr (s : string) : Expr + GoError :=
  match span_char is_name s with
  | (name, EmptyString) => inl (VectorSelector name [(true, "__name__"%string, name)])
  | (name, String c rest) =>
      match span_char is_word rest with
      | (label, String e (String q rest)) =>
          match span_char is_word rest with
          | (value, String q' (String c' EmptyString)) =>
              if bool_decide (c = "{"%char ∧ e = "="%char ∧ q = quote ∧ q' = quote ∧ c' = "}"%char) then inl (VectorSelector name [(true, label, value); (true, "__name__"%string, name)])
              else inr (ENew "parse error")
          | _ => inr (ENew "parse error")
          end
      | _ => inr (ENew "parse error")
      end
  end.

Definition gauge (labels : list (string * string)) (v : Z) : Metric := mkMetric labels (Some (of_int v)) None 0.

Definition vllm_families : PrometheusMetricMap :=
  {["vllm:num_requests_waiting"%string := [gauge [] 3; gauge [] 9];
    "vllm:num_requests_running"%string := [gauge [] 5];
    "vllm:kv_cache_usage_perc"%string := [gauge [] 1];
    "vllm:lora_requests_info"%string := [gauge [("running_lora_adapters", "old")]%string 1; gauge [("running_lora_adapters", "a, b"); ("waiting_lora_adapters", ""); ("max_lora", "4")]%string 2];
    "vllm:cache_config_info"%string := [gauge [("block_size", "16"); ("num_gpu_blocks", "100")]%string 1]]}.

Definition default_params : modelServerExtractorParams := mkExtractorParams "" "" [].

Definition sample_extract (ext : Extractor) : option GoError * Z * Z * Z :=
  let '(ep', err) := Extract (λ _, 0%Z) ext 7 (Some vllm_families) (sample_endpoint 1 "a") in
  (err, mt_WaitingQueueSize (ep_Metrics ep'), mt_MaxActiveModels (ep_Metrics ep'), mt_CacheBlockSize (ep_Metrics ep')).

Lemma default_extractor_reads :
  match newCoreMetricsExtractorPlugin sample_ParseExpr "core" default_params with inl ext => Some (sample_extract ext) | inr _ => None end = Some (None, 3, 4, 16)%Z.
Proof. vm_compute. reflexivity. Qed.

Lemma scraped_metrics_reach_endpoint_witness :
  ∃ ext, newCoreMetricsExtractorPlugin sample_ParseExpr "core" default_params = inl ext ∧ sample_extract ext = (None, 3, 4, 16)%Z ∧
    ∃ ec mapping, engine_config default_params "default" ec ∧ NewMappingFromConfig sample_ParseExpr (ec_Mapping ec) = inl mapping.
Proof.
  pose proof default_extractor_reads as Hreads. destruct (newCoreMetricsExtractorPlugin sample_ParseExpr "core" default_params) as [ext|err] eqn:Hext; [|discriminate Hreads].
  exists ext. split; [reflexivity|]. split; [by injection Hreads|]. clear Hreads.
  destruct (scraped_metrics_reach_endpoint sample_ParseExpr (λ _, 0%Z) "core" default_params ext 7 vllm_families (sample_endpoint 1 "a") Hext) as (_ & ec & mapping & Hec & Hm & _).
  exists ec, mapping. split; [exact Hec|exact Hm].
Defined.

(** Every built-in engine can be parsed. *)
Lemma built_in_engines_parsed : forallb (λ ec, match NewMappingFromConfig sample_ParseExpr (ec_Mapping ec) with inl _ => true | inr _ => false end) defaultEngineConfigs = true.
Proof. vm_compute. reflexivity. Qed.

(** The quotes that are added for convenience break a matcher by regular expression, and a quoted
    value with an equals sign. *)
Definition quoted_text (l : list string) : string := foldr (λ s r, s +:+ (if bool_decide (r = ""%string) then r else String quote r)) ""%string l.

Lemma matcher_mangled :
  addQuotesToLabelValues (quoted_text ["m{a=~"; "x.*"; "}"]) = quoted_text ["m{a="; "~"; ""; "x.*"; "}"] ∧
  addQuotesToLabelValues (quoted_text ["m{a="; "b=c"; "}"]) = quoted_text ["m{a="; "b="; "c"; ""; "}"].
Proof. vm_compute. split; reflexivity. Qed.

(** The block size is reset when its label is missing, the number of blocks is not. *)
Lemma stale_num_blocks m errs :
  (populateCacheInfoMetrics (gauge [] 1) "block_size" "num_gpu_blocks" m errs).1 = set_cache 0 (mt_CacheNumBlocks m) m.
Proof. reflexivity. Qed.
