(* ===== verification/ConfigLoader.v ===== *)
(** * Loading of the configuration

    [config/loader]: the default configuration, the defaults that complete a configuration, its
    validation, the instantiation of the plugins and the construction of the configurations of
    scheduler, data layer, flow control and parser. Decoding the text is the API machinery's and
    a parameter. A factory is a function of the name of the instance, its parameters and the
    plugins so far; a loaded plugin has the interfaces that the code asserts. The map of the
    handle is live: the defaults that are registered are seen by the later steps. The order of
    a loop over it is an argument. *)
From stdpp Require Import prelude gmap strings list.
From Stdlib Require Import ZArith Lia.
From S2P Require Import Prelude Float64 FlowTypes Ordering Fairness RegistryConfig Controller SchedTypes Pickers SchedulerProfile.

#[local] Open Scope go_scope.

(** ** The API types: [apix/config/v1alpha1] *)

Record PluginSpec := mkPluginSpec { ps_Name : string; ps_Type : string; ps_Parameters : option string }.
Record SchedulingPlugin := mkSchedulingPlugin { sl_PluginRef : string; sl_Weight : option float64 }.
Record SchedulingProfile := mkSchedulingProfile { sp_Name : string; sp_Plugins : list SchedulingPlugin }.
Record DataLayerSource := mkDataLayerSource { dl_PluginRef : string; dl_Extractors : list string }.
Record FlowControlConfig := mkFlowControlConfig {
  fc_API : APIConfig;
  fc_DefaultRequestTTL : option Z;
  fc_UsageLimitPolicyPluginRef : string
}.

(** A parser and a saturation detector are referred to by name. *)
Record EndpointPickerConfig := mkEPConfig {
  ec_FeatureGates : list string;
  ec_Plugins : list PluginSpec;
  ec_SchedulingProfiles : list SchedulingProfile;
  ec_SaturationDetector : option string;
  ec_DataLayer : option (list DataLayerSource);
  ec_FlowControl : option FlowControlConfig;
  ec_Parser : option string
}.

(** ** Plugins *)

Record LoadedPlugin := mkLoadedPlugin {
  lp_Type : string;
  lp_Name : string;
  lp_sched : SchedPlugin;
  lp_ProfileHandler : bool;
  lp_flow : Plugin;
  lp_UsageLimitPolicy : bool;
  lp_SaturationDetector : bool;
  lp_Parser : bool;
  lp_DataSource : bool;
  lp_Extractor : bool
}.

Abbreviation Handle := (gmap string LoadedPlugin).
Abbreviation FactoryFunc := (string → option string → Handle → LoadedPlugin + GoError).

Definition is_filter (p : LoadedPlugin) : bool := bool_decide (is_Some (spl_filter (lp_sched p))).
Definition is_scorer (p : LoadedPlugin) : bool := bool_decide (is_Some (spl_scorer (lp_sched p))).
Definition is_picker (p : LoadedPlugin) : bool := bool_decide (is_Some (spl_picker (lp_sched p))).

(** A type assertion on the plugin of a name; it fails for a nil plugin. *)
Definition named (test : LoadedPlugin → bool) (name : string) (h : Handle) : bool := from_option test false (h !! name).

Definition QueueScorerType : string := "queue-scorer".
Definition KvCacheUtilizationScorerType : string := "kv-cache-utilization-scorer".
Definition PrefixCacheScorerPluginType : string := "prefix-cache-scorer".
Definition MetricsDataSourceType : string := "metrics-data-source".
Definition MetricsExtractorType : string := "core-metrics-extractor".
Definition SingleProfileHandlerType : string := "single-profile-handler".
Definition MaxScorePickerType : string := "max-score-picker".
Definition OpenAIParserType : string := "openai-parser".
Definition UtilizationDetectorType : string := "utilization-detector".
Definition DefaultUsageLimitPolicyRef : string := "static-usage-limit-policy".
Definition EnableLegacyMetricsFeatureGate : string := "enableLegacyMetrics".
Definition FlowControlFeatureGate : string := "flowControl".

Definition DefaultScorerWeight : float64 := fone.

(** ** Defaults: [defaults.go] *)

Definition default_data_layer : list DataLayerSource := [mkDataLayerSource MetricsDataSourceType [MetricsExtractorType]].

Definition loadDefaultConfig : EndpointPickerConfig :=
  mkEPConfig []
    ((λ t, mkPluginSpec "" t None) <$> [QueueScorerType; KvCacheUtilizationScorerType; PrefixCacheScorerPluginType; MetricsDataSourceType; MetricsExtractorType])
    [mkSchedulingProfile "default"
       [mkSchedulingPlugin QueueScorerType (Some (of_int 2)); mkSchedulingPlugin KvCacheUtilizationScorerType (Some (of_int 2));
        mkSchedulingPlugin PrefixCacheScorerPluginType (Some (of_int 3))]]
    None (Some default_data_layer) None None.

Definition with_plugins (ps : list PluginSpec) (c : EndpointPickerConfig) : EndpointPickerConfig :=
  mkEPConfig (ec_FeatureGates c) ps (ec_SchedulingProfiles c) (ec_SaturationDetector c) (ec_DataLayer c) (ec_FlowControl c) (ec_Parser c).
Definition with_profiles (ps : list SchedulingProfile) (c : EndpointPickerConfig) : EndpointPickerConfig :=
  mkEPConfig (ec_FeatureGates c) (ec_Plugins c) ps (ec_SaturationDetector c) (ec_DataLayer c) (ec_FlowControl c) (ec_Parser c).
Definition with_detector (d : string) (c : EndpointPickerConfig) : EndpointPickerConfig :=
  mkEPConfig (ec_FeatureGates c) (ec_Plugins c) (ec_SchedulingProfiles c) (Some d) (ec_DataLayer c) (ec_FlowControl c) (ec_Parser c).
Definition with_data (d : list DataLayerSource) (c : EndpointPickerConfig) : EndpointPickerConfig :=
  mkEPConfig (ec_FeatureGates c) (ec_Plugins c) (ec_SchedulingProfiles c) (ec_SaturationDetector c) (Some d) (ec_FlowControl c) (ec_Parser c).
Definition with_parser (p : string) (c : EndpointPickerConfig) : EndpointPickerConfig :=
  mkEPConfig (ec_FeatureGates c) (ec_Plugins c) (ec_SchedulingProfiles c) (ec_SaturationDetector c) (ec_DataLayer c) (ec_FlowControl c) (Some p).

Definition applyStaticDefaults (c : EndpointPickerConfig) : EndpointPickerConfig :=
  with_plugins ((λ p, if bool_decide (ps_Name p = ""%string) then mkPluginSpec (ps_Type p) (ps_Type p) (ps_Parameters p) else p) <$> ec_Plugins c) c.

(** The configuration and the handle while defaults are added. *)
Record Load := mkLoad { ld_cfg : EndpointPickerConfig; ld_handle : Handle }.

Definition on_cfg (f : EndpointPickerConfig → EndpointPickerConfig) (s : Load) : Load := mkLoad (f (ld_cfg s)) (ld_handle s).

Section loader.
Context (Registry : gmap string FactoryFunc).

Definition registerDefaultPlugin (pluginType : string) (s : Load) : Load + GoError :=
  match Registry !! pluginType with
  | None => inr (ENew "plugin type not found in registry")
  | Some factory =>
      plugin ←? factory pluginType None (ld_handle s);
      inl (mkLoad (with_plugins (ec_Plugins (ld_cfg s) ++ [mkPluginSpec pluginType pluginType None]) (ld_cfg s)) (<[pluginType := plugin]> (ld_handle s)))
  end.

(** [if _, ok := allPlugins[name]; !ok { registerDefaultPlugin }]. *)
Definition ensure_plugin (name pluginType : string) (s : Load) : Load + GoError :=
  match ld_handle s !! name with Some _ => inl s | None => registerDefaultPlugin pluginType s end.

(** The names of the plugins in the order of a loop over the map. *)
Definition all_names (order : nat → nat) (h : Handle) : list string := shuffle order (map_to_list h).*1.

Definition schedulable (p : LoadedPlugin) : bool := is_filter p || is_scorer p || is_picker p.

Definition ensure_profile (order : nat → nat) (s : Load) : Load :=
  match ec_SchedulingProfiles (ld_cfg s) with
  | [] => on_cfg (with_profiles [mkSchedulingProfile "default"
            ((λ name, mkSchedulingPlugin name None) <$> List.filter (λ name, named schedulable name (ld_handle s)) (all_names order (ld_handle s)))]) s
  | _ => s
  end.

Definition ensure_handler (s : Load) : Load + GoError :=
  match ec_SchedulingProfiles (ld_cfg s) with
  | [_] => if existsb (λ np, lp_ProfileHandler np.2) (map_to_list (ld_handle s)) then inl s else registerDefaultPlugin SingleProfileHandlerType s
  | _ => inl s
  end.

(** The first picker of the loop, or a new one. *)
Definition ensure_picker (order : nat → nat) (s : Load) : (Load * string) + GoError :=
  match List.filter (λ name, named is_picker name (ld_handle s)) (all_names order (ld_handle s)) with
  | name :: _ => inl (s, name)
  | [] => s ←? registerDefaultPlugin MaxScorePickerType s; inl (s, MaxScorePickerType)
  end.

Definition complete_profile (h : Handle) (maxScorePickerName : string) (prof : SchedulingProfile) : SchedulingProfile :=
  let plugins := (λ ref, match sl_Weight ref with
                         | None => if named is_scorer (sl_PluginRef ref) h then mkSchedulingPlugin (sl_PluginRef ref) (Some DefaultScorerWeight) else ref
                         | Some _ => ref
                         end) <$> sp_Plugins prof in
  let hasPicker := existsb (λ ref, named is_picker (sl_PluginRef ref) h) (sp_Plugins prof) in
  mkSchedulingProfile (sp_Name prof) (if hasPicker then plugins else plugins ++ [mkSchedulingPlugin maxScorePickerName None]).

Definition ensureSchedulingLayer (order order' : nat → nat) (s : Load) : Load + GoError :=
  s ←? ensure_handler (ensure_profile order s);
  sp ←? ensure_picker order' s;
  let '(s, maxScorePickerName) := sp in
  inl (on_cfg (λ c, with_profiles (complete_profile (ld_handle s) maxScorePickerName <$> ec_SchedulingProfiles c) c) s).

Definition ensureFlowControlLayer (s : Load) : Load + GoError :=
  s ←? ensure_plugin DefaultOrderingPolicyRef DefaultOrderingPolicyRef s;
  s ←? ensure_plugin DefaultFairnessPolicyRef DefaultFairnessPolicyRef s;
  ensure_plugin DefaultUsageLimitPolicyRef DefaultUsageLimitPolicyRef s.

Definition ensureParser (s : Load) : Load + GoError :=
  let ref := default OpenAIParserType (ec_Parser (ld_cfg s)) in
  ensure_plugin ref OpenAIParserType (on_cfg (with_parser ref) s).

Definition ensureSaturationDetector (s : Load) : Load + GoError :=
  let ref := match ec_SaturationDetector (ld_cfg s) with
             | Some d => if bool_decide (d = ""%string) then UtilizationDetectorType else d
             | None => UtilizationDetectorType
             end in
  let s := on_cfg (with_detector ref) s in
  if bool_decide (ref = UtilizationDetectorType) then ensure_plugin ref UtilizationDetectorType s else inl s.

Definition ensureDataLayer (s : Load) : Load + GoError :=
  if bool_decide (EnableLegacyMetricsFeatureGate ∈ ec_FeatureGates (ld_cfg s)) then inl s
  else match ec_DataLayer (ld_cfg s) with
       | Some _ => inl s
       | None =>
           s ←? ensure_plugin MetricsDataSourceType MetricsDataSourceType s;
           s ←? ensure_plugin MetricsExtractorType MetricsExtractorType s;
           inl (on_cfg (with_data default_data_layer) s)
       end.

Definition applySystemDefaults (order order' : nat → nat) (s : Load) : Load + GoError :=
  s ←? ensureSchedulingLayer order order' s;
  s ←? ensureFlowControlLayer s;
  s ←? ensureParser s;
  s ←? ensureSaturationDetector s;
  ensureDataLayer s.
End loader.

(** ** Validation: [validation.go] *)

Section validation.
Context (registeredFeatureGates : gset string).

Definition validateFeatureGates (gates : list string) : option GoError :=
  if forallb (λ gate, bool_decide (gate ∈ registeredFeatureGates)) gates then None else Some (ENew "feature gate is unknown or unregistered").

Definition definedPlugins (c : EndpointPickerConfig) : list string := ps_Name <$> ec_Plugins c.

Fixpoint validate_refs (defined : list string) (refs : list SchedulingPlugin) : option GoError :=
  match refs with
  | [] => None
  | ref :: refs' =>
      if bool_decide (sl_PluginRef ref = ""%string) then Some (ENew "plugin is missing a 'pluginRef'")
      else if bool_decide (sl_PluginRef ref ∈ defined) then validate_refs defined refs'
      else Some (ENew "profile references undefined plugin")
  end.

Fixpoint validate_profiles (defined : list string) (seenProfileNames : gset string) (profiles : list SchedulingProfile) : option GoError :=
  match profiles with
  | [] => None
  | profile :: profiles' =>
      if bool_decide (sp_Name profile = ""%string) then Some (ENew "profile is missing a name")
      else if bool_decide (sp_Name profile ∈ seenProfileNames) then Some (ENew "profile has duplicate name")
      else match validate_refs defined (sp_Plugins profile) with
           | Some err => Some err
           | None => validate_profiles defined ({[sp_Name profile]} ∪ seenProfileNames) profiles'
           end
  end.

Definition validateSchedulingProfiles (c : EndpointPickerConfig) : option GoError := validate_profiles (definedPlugins c) ∅ (ec_SchedulingProfiles c).

Definition validateSaturationDetector (c : EndpointPickerConfig) : option GoError :=
  match ec_SaturationDetector c with
  | None => None
  | Some ref =>
      if bool_decide (ref = ""%string) then Some (ENew "saturation detector plugin reference is empty")
      else if bool_decide (ref ∈ definedPlugins c) then None else Some (ENew "saturation detector references undefined plugin")
  end.

Definition validateConfig (c : EndpointPickerConfig) : option GoError :=
  match validateFeatureGates (ec_FeatureGates c) with
  | Some err => Some err
  | None => match validateSchedulingProfiles c with Some err => Some err | None => validateSaturationDetector c end
  end.
End validation.

(** ** Construction: [configloader.go], [flowcontrol/config.go] *)

Record SchedulerConfig := mkSchedulerConfig { sg_profileHandler : LoadedPlugin; sg_profiles : gmap string SchedulerProfile }.
Record FlowConfig := mkFlowConfig { fg_Controller : controllerconfig.Config; fg_Registry : RegistryConfig.Config; fg_UsageLimitPolicy : LoadedPlugin }.
Record DataSourceConfig := mkDataSourceConfig { dg_Plugin : LoadedPlugin; dg_Extractors : list LoadedPlugin }.

Record LoaderConfig := mkLoaderConfig {
  lc_SchedulerConfig : SchedulerConfig;
  lc_SaturationDetector : LoadedPlugin;
  lc_DataConfig : option (list DataSourceConfig);
  lc_FlowControlConfig : option FlowConfig;
  lc_Parser : LoadedPlugin
}.

Fixpoint instantiate_loop (Registry : gmap string FactoryFunc) (pluginNames : gset string) (configuredPlugins : list PluginSpec) (h : Handle) : Handle + GoError :=
  match configuredPlugins with
  | [] => inl h
  | spec :: specs =>
      if bool_decide (ps_Type spec = ""%string) then inr (ENew "plugin is missing a type")
      else if bool_decide (ps_Name spec ∈ pluginNames) then inr (ENew "duplicate plugin name")
      else match Registry !! ps_Type spec with
           | None => inr (ENew "plugin type is not registered")
           | Some factory =>
               plugin ←? factory (ps_Name spec) (ps_Parameters spec) h;
               instantiate_loop Registry ({[ps_Name spec]} ∪ pluginNames) specs (<[ps_Name spec := plugin]> h)
           end
  end.

Definition instantiatePlugins (Registry : gmap string FactoryFunc) : list PluginSpec → Handle → Handle + GoError := instantiate_loop Registry ∅.

(** A scorer is wrapped with its weight. *)
Definition plugin_object (ref : SchedulingPlugin) (p : LoadedPlugin) : PluginObject :=
  match spl_scorer (lp_sched p) with
  | Some scorer => PWeighted scorer (lp_sched p) (default DefaultScorerWeight (sl_Weight ref))
  | None => PPlain (lp_sched p)
  end.

Fixpoint build_profile (h : Handle) (refs : list SchedulingPlugin) (p : SchedulerProfile) : SchedulerProfile + GoError :=
  match refs with
  | [] => inl p
  | ref :: refs' =>
      match h !! sl_PluginRef ref with
      | None => inr (ENew "plugin referenced in profile not found in handle")
      | Some plugin => p ←? AddPlugins [plugin_object ref plugin] p; build_profile h refs' p
      end
  end.

Fixpoint build_profiles (h : Handle) (configProfiles : list SchedulingProfile) (profiles : gmap string SchedulerProfile) : gmap string SchedulerProfile + GoError :=
  match configProfiles with
  | [] => inl profiles
  | cfgProfile :: configProfiles' =>
      fwProfile ←? build_profile h (sp_Plugins cfgProfile) NewSchedulerProfile;
      build_profiles h configProfiles' (<[sp_Name cfgProfile := fwProfile]> profiles)
  end.

(** Which of several handlers is named in the error depends on the order of the loop. *)
Definition buildSchedulerConfig (configProfiles : list SchedulingProfile) (h : Handle) : SchedulerConfig + GoError :=
  profiles ←? build_profiles h configProfiles ∅;
  match List.filter lp_ProfileHandler (map_to_list h).*2 with
  | [] => inr (ENew "no profile handler configured")
  | [profileHandler] =>
      if bool_decide (lp_Type profileHandler = SingleProfileHandlerType) && bool_decide (1 < size profiles) then inr (ENew "SingleProfileHandler cannot support multiple scheduling profiles")
      else inl (mkSchedulerConfig profileHandler profiles)
  | _ => inr (ENew "multiple profile handlers found; only one is allowed")
  end.

(** The plugin of a name, with an interface. *)
Definition plugin_as (test : LoadedPlugin → bool) (ref : string) (h : Handle) : LoadedPlugin + GoError :=
  match h !! ref with
  | None => inr (ENew "plugin not found")
  | Some p => if test p then inl p else inr (ENew "plugin is not of the type")
  end.

Definition buildParserConfig (rawParserConfig : option string) (h : Handle) : LoadedPlugin + GoError :=
  match rawParserConfig with None => inr (ENew "parserConfig is not configured") | Some ref => plugin_as lp_Parser ref h end.

Fixpoint map_err {A B} (f : A → B + GoError) (l : list A) : list B + GoError :=
  match l with
  | [] => inl []
  | x :: l' => y ←? f x; ys ←? map_err f l'; inl (y :: ys)
  end.

Definition buildDataLayerConfig (rawDataConfig : option (list DataLayerSource)) (h : Handle) : list DataSourceConfig + GoError :=
  map_err (λ source,
    sourcePlugin ←? plugin_as lp_DataSource (dl_PluginRef source) h;
    extractors ←? map_err (λ ref, plugin_as lp_Extractor ref h) (dl_Extractors source);
    inl (mkDataSourceConfig sourcePlugin extractors)) (default [] rawDataConfig).

Definition ensureUsageLimitPolicy (apiConfig : option FlowControlConfig) (h : Handle) : LoadedPlugin + GoError :=
  let ref := match apiConfig with
             | Some c => if bool_decide (fc_UsageLimitPolicyPluginRef c = ""%string) then DefaultUsageLimitPolicyRef else fc_UsageLimitPolicyPluginRef c
             | None => DefaultUsageLimitPolicyRef
             end in
  plugin_as lp_UsageLimitPolicy ref h.

Definition flow_NewConfigFromAPI (apiConfig : option FlowControlConfig) (h : Handle) : FlowConfig + GoError :=
  registryConfig ←? RegistryConfig.NewConfigFromAPI (fc_API <$> apiConfig) (lp_flow <$> h);
  ctrlCfg ←? controllerconfig.NewConfigFromAPI (fc_DefaultRequestTTL <$> apiConfig);
  usageLimitPolicy ←? ensureUsageLimitPolicy apiConfig h;
  inl (mkFlowConfig ctrlCfg registryConfig usageLimitPolicy).

Section load.
Context (Registry : gmap string FactoryFunc) (registeredFeatureGates : gset string) (decodeRawConfig : string → EndpointPickerConfig + GoError).

Definition checked (e : option GoError) : unit + GoError := match e with Some err => inr err | None => inl tt end.

Definition optionally {A} (b : bool) (c : A + GoError) : option A + GoError := if b then x ←? c; inl (Some x) else inl None.

Definition LoadRawConfig (configBytes : string) : EndpointPickerConfig + GoError :=
  rawConfig ←? (if bool_decide (configBytes = ""%string) then inl loadDefaultConfig else decodeRawConfig configBytes);
  let rawConfig := applyStaticDefaults rawConfig in
  _ ←? checked (validateFeatureGates registeredFeatureGates (ec_FeatureGates rawConfig));
  inl rawConfig.

(** The result has the effective configuration and the plugins. *)
Definition InstantiateAndConfigure (order order' : nat → nat) (rawConfig : EndpointPickerConfig) (h : Handle) : (LoaderConfig * Load) + GoError :=
  h ←? instantiatePlugins Registry (ec_Plugins rawConfig) h;
  s ←? applySystemDefaults Registry order order' (mkLoad rawConfig h);
  let c := ld_cfg s in
  _ ←? checked (validateConfig registeredFeatureGates c);
  schedulerConfig ←? buildSchedulerConfig (ec_SchedulingProfiles c) (ld_handle s);
  let gate g := bool_decide (g ∈ ec_FeatureGates c) in
  dataConfig ←? optionally (negb (gate EnableLegacyMetricsFeatureGate)) (buildDataLayerConfig (ec_DataLayer c) (ld_handle s));
  flowControlConfig ←? optionally (gate FlowControlFeatureGate) (flow_NewConfigFromAPI (ec_FlowControl c) (ld_handle s));
  parserConfig ←? buildParserConfig (ec_Parser c) (ld_handle s);
  saturationDetector ←? plugin_as lp_SaturationDetector (default ""%string (ec_SaturationDetector c)) (ld_handle s);
  inl (mkLoaderConfig schedulerConfig saturationDetector dataConfig flowControlConfig parserConfig, s).
End load.

(** ** Profiles *)

(** What the plugins of a list of references give to a profile. *)
Definition filters_of (h : Handle) (refs : list SchedulingPlugin) : list Filter := omap (λ ref, h !! sl_PluginRef ref ≫= λ p, spl_filter (lp_sched p)) refs.
Definition scorers_of (h : Handle) (refs : list SchedulingPlugin) : list WeightedScorer :=
  omap (λ ref, h !! sl_PluginRef ref ≫= λ p, (λ scorer, mkWeightedScorer scorer (default DefaultScorerWeight (sl_Weight ref))) <$> spl_scorer (lp_sched p)) refs.
Definition pickers_of (h : Handle) (refs : list SchedulingPlugin) : list Picker := omap (λ ref, h !! sl_PluginRef ref ≫= λ p, spl_picker (lp_sched p)) refs.

Lemma add_plugin_spec ref plugin p p' : AddPlugins [plugin_object ref plugin] p = inl p' →
  pf_filters p' = pf_filters p ++ option_list (spl_filter (lp_sched plugin)) ∧
  pf_scorers p' = pf_scorers p ++ option_list ((λ scorer, mkWeightedScorer scorer (default DefaultScorerWeight (sl_Weight ref))) <$> spl_scorer (lp_sched plugin)) ∧
  option_list (pf_picker p') = option_list (pf_picker p) ++ option_list (spl_picker (lp_sched plugin)).
Proof.
  unfold plugin_object. destruct plugin as [? ? [f sc pk] ? ? ? ? ? ? ?]; cbn. intros H. apply ebind_inl in H as (q & H & [= <-]).
  destruct sc, f, pk, p as [fs ss [pk'|]]; cbn in H; simplify_eq; cbn; by rewrite ?app_nil_r.
Qed.

Lemma build_profile_spec h refs p p' : build_profile h refs p = inl p' →
  pf_filters p' = pf_filters p ++ filters_of h refs ∧ pf_scorers p' = pf_scorers p ++ scorers_of h refs ∧
  option_list (pf_picker p') = option_list (pf_picker p) ++ pickers_of h refs.
Proof.
  revert p. induction refs as [|ref refs IH]; intros p; cbn [build_profile]; [intros [= <-]; by rewrite !app_nil_r|].
  unfold filters_of, scorers_of, pickers_of. cbn [omap list_omap]. destruct (h !! sl_PluginRef ref) as [plugin|]; [|done]. intros H.
  apply ebind_inl in H as (q & Hq & H). apply IH in H as (-> & -> & ->). apply add_plugin_spec in Hq as (-> & -> & ->).
  cbn. destruct (lp_sched plugin) as [f sc pk]; cbn. rewrite <- !app_assoc. by destruct f, sc, pk.
Qed.

Lemma build_profiles_spec h profiles m m' : NoDup (sp_Name <$> profiles) → build_profiles h profiles m = inl m' →
  dom m' = dom m ∪ list_to_set (sp_Name <$> profiles) ∧
  (∀ prof, prof ∈ profiles → ∃ p, m' !! sp_Name prof = Some p ∧ build_profile h (sp_Plugins prof) NewSchedulerProfile = inl p) ∧
  (∀ name, name ∉ sp_Name <$> profiles → m' !! name = m !! name).
Proof.
  revert m. induction profiles as [|prof profiles IH]; intros m Hnd; cbn [build_profiles].
  - intros [= <-]. split; [set_solver|]. split; [intros ? []%elem_of_nil|done].
  - rewrite fmap_cons, NoDup_cons in Hnd. destruct Hnd as [Hnot Hnd]. intros H. apply ebind_inl in H as (p & Hp & H).
    apply IH in H as (Hdom & Hall & Hother); [|done]. split_and!.
    + rewrite Hdom, dom_insert_L, fmap_cons. set_solver.
    + intros prof' [->|Hin]%elem_of_cons; [|by apply Hall]. exists p. split; [|done]. by rewrite Hother, lookup_insert_eq.
    + intros name Hname. rewrite fmap_cons, not_elem_of_cons in Hname. rewrite Hother by tauto. by rewrite lookup_insert_ne by naive_solver.
Qed.

Lemma validate_profiles_None defined seen profiles : validate_profiles defined seen profiles = None →
  NoDup (sp_Name <$> profiles) ∧ (∀ prof, prof ∈ profiles → (sp_Name prof ∉ seen) ∧ sp_Name prof ≠ ""%string).
Proof.
  revert seen. induction profiles as [|prof profiles IH]; intros seen; cbn [validate_profiles]; [intros _; split; [constructor|intros ? []%elem_of_nil]|].
  case_bool_decide as He; [done|]. case_bool_decide as Hs; [done|]. destruct (validate_refs _ _); [done|]. intros [Hnd Hall]%IH. split.
  - rewrite fmap_cons. constructor; [|done]. intros (prof' & Heq & Hin)%list_elem_of_fmap. apply Hall in Hin as [Hin _]. rewrite <- Heq in Hin. set_solver.
  - intros prof' [->|Hin]%elem_of_cons; [done|]. apply Hall in Hin. set_solver.
Qed.

(** ** The defaults *)

(** Later steps keep the plugins, the profiles and the gates. *)
Record grows (s s' : Load) : Prop := mkGrows {
  gr_handle : ld_handle s ⊆ ld_handle s';
  gr_profiles : ec_SchedulingProfiles (ld_cfg s') = ec_SchedulingProfiles (ld_cfg s);
  gr_gates : ec_FeatureGates (ld_cfg s') = ec_FeatureGates (ld_cfg s)
}.

#[export] Instance grows_preorder : PreOrder grows.
Proof. split; [by split|]. intros s1 s2 s3 [] []. split; [by etrans|congruence..]. Qed.

Section defaults.
Context (Registry : gmap string FactoryFunc).

Lemma ensure_plugin_grows name t s s' : (name = t ∨ is_Some (ld_handle s !! name)) → ensure_plugin Registry name t s = inl s' →
  grows s s' ∧ ec_Parser (ld_cfg s') = ec_Parser (ld_cfg s).
Proof using Type.
  intros Hname. unfold ensure_plugin. destruct (ld_handle s !! name) eqn:Hn; [by intros [= <-]|]. destruct Hname as [->|[q Hq]]; [|done].
  unfold registerDefaultPlugin. destruct (Registry !! t) as [factory|]; [|done]. intros H. apply ebind_inl in H as (plugin & _ & [= <-]).
  split; [|done]. split; [by apply insert_subseteq|done..].
Qed.

Lemma on_cfg_grows f s : (∀ c, ec_SchedulingProfiles (f c) = ec_SchedulingProfiles c) → (∀ c, ec_FeatureGates (f c) = ec_FeatureGates c) → grows s (on_cfg f s).
Proof using Type. intros H1 H2. split; [done|apply H1|apply H2]. Qed.

Lemma ensureFlowControlLayer_grows s s' : ensureFlowControlLayer Registry s = inl s' → grows s s' ∧ ec_Parser (ld_cfg s') = ec_Parser (ld_cfg s).
Proof using Type.
  unfold ensureFlowControlLayer. intros H. apply ebind_inl in H as (s1 & H1 & H). apply ebind_inl in H as (s2 & H2 & H3).
  apply ensure_plugin_grows in H1 as [G1 E1]; [|by left]. apply ensure_plugin_grows in H2 as [G2 E2]; [|by left]. apply ensure_plugin_grows in H3 as [G3 E3]; [|by left].
  split; [|congruence]. etrans; [exact G1|]. by etrans.
Qed.

Lemma ensureSaturationDetector_grows s s' : ensureSaturationDetector Registry s = inl s' → grows s s'.
Proof using Type.
  unfold ensureSaturationDetector. set (ref := match _ with Some d => _ | None => _ end). intros H.
  assert (grows (on_cfg (with_detector ref) s) s') as Hg; [|etrans; [by apply (on_cfg_grows (with_detector ref))|done]].
  case_bool_decide as Hd; [|by injection H as <-]. eapply ensure_plugin_grows; [by left|exact H].
Qed.

Lemma ensureDataLayer_grows s s' : ensureDataLayer Registry s = inl s' → grows s s'.
Proof using Type.
  unfold ensureDataLayer. case_bool_decide as Hgate; [by intros [= <-]|]. destruct (ec_DataLayer (ld_cfg s)); [by intros [= <-]|]. intros H.
  apply ebind_inl in H as (s1 & H1 & H). apply ebind_inl in H as (s2 & H2 & [= <-]).
  apply ensure_plugin_grows in H1 as [G1 _]; [|by left]. apply ensure_plugin_grows in H2 as [G2 _]; [|by left].
  etrans; [exact G1|]. etrans; [exact G2|]. by apply on_cfg_grows.
Qed.

(** The parser that is configured is a plugin. *)
Definition parser_defined (s : Load) : Prop := ∀ ref, ec_Parser (ld_cfg s) = Some ref → is_Some (ld_handle s !! ref).

Lemma ensureParser_grows s s' : parser_defined s → ensureParser Registry s = inl s' → grows s s'.
Proof using Type.
  intros Hp. unfold ensureParser. set (ref := default _ _). intros H. etrans; [by apply (on_cfg_grows (with_parser ref))|].
  eapply ensure_plugin_grows; [|exact H]. subst ref. destruct (ec_Parser (ld_cfg s)) as [ref|] eqn:E; [right; by apply Hp|by left].
Qed.
End defaults.

(** ** A configuration that loads *)

Lemma instantiate_names Registry names specs h h' : instantiate_loop Registry names specs h = inl h' →
  NoDup (ps_Name <$> specs) ∧ ∀ name, is_Some (h' !! name) ↔ is_Some (h !! name) ∨ name ∈ ps_Name <$> specs.
Proof.
  revert names h. enough (∀ names h, instantiate_loop Registry names specs h = inl h' →
    NoDup (ps_Name <$> specs) ∧ (∀ name, name ∈ ps_Name <$> specs → name ∉ names) ∧ ∀ name, is_Some (h' !! name) ↔ is_Some (h !! name) ∨ name ∈ ps_Name <$> specs) as Hall
    by (intros names h H; apply Hall in H; naive_solver).
  induction specs as [|spec specs IH]; intros names h; cbn [instantiate_loop].
  - intros [= <-]. split; [constructor|]. split; [intros ? []%elem_of_nil|]. intros name. rewrite elem_of_nil. tauto.
  - case_bool_decide; [done|]. case_bool_decide as Hn; [done|]. destruct (Registry !! ps_Type spec) as [factory|]; [|done]. intros Hl.
    apply ebind_inl in Hl as (plugin & _ & Hl). apply IH in Hl as (Hnd & Hfresh & Hget). rewrite fmap_cons. split_and!.
    + constructor; [|done]. intros Hin. apply Hfresh in Hin. set_solver.
    + intros name [->|Hin]%elem_of_cons; [done|]. apply Hfresh in Hin. set_solver.
    + intros name. rewrite Hget, elem_of_cons. destruct (decide (name = ps_Name spec)) as [->|Hne].
      * rewrite lookup_insert_eq. split; intros _; [right; by left|left; by eexists].
      * rewrite lookup_insert_ne by done. naive_solver.
Qed.

(** A profile of the effective configuration has the plugins of the one that was configured, in
    order and with their weights, and at most one more. *)
Definition completes (prof prof' : SchedulingProfile) : Prop :=
  sp_Name prof' = sp_Name prof ∧
  ∃ extra, sl_PluginRef <$> sp_Plugins prof' = (sl_PluginRef <$> sp_Plugins prof) ++ extra ∧ length extra ≤ 1 ∧
    ∀ i ref w, sp_Plugins prof !! i = Some ref → sl_Weight ref = Some w → sp_Plugins prof' !! i = Some ref.

Lemma complete_profile_completes h name prof : completes prof (complete_profile h name prof).
Proof.
  unfold complete_profile. set (plugins := (λ ref : SchedulingPlugin, _) <$> sp_Plugins prof). split; [done|]. cbn [sp_Plugins].
  assert (sl_PluginRef <$> plugins = sl_PluginRef <$> sp_Plugins prof) as Hrefs.
  { subst plugins. rewrite <- list_fmap_compose. apply list_fmap_ext. intros i ref _. cbn. destruct (sl_Weight ref); [done|]. by destruct (named _ _ _). }
  assert (∀ i ref w, sp_Plugins prof !! i = Some ref → sl_Weight ref = Some w → plugins !! i = Some ref) as Hw.
  { intros i ref w Hi Hw. subst plugins. rewrite list_lookup_fmap, Hi. cbn. by rewrite Hw. }
  destruct (existsb _ _).
  - exists []. rewrite app_nil_r. split; [done|]. split; [simpl; lia|done].
  - exists [name]. rewrite fmap_app, Hrefs. split; [done|]. split; [simpl; lia|]. intros i ref w Hi Hr. apply lookup_app_l_Some. by eapply Hw.
Qed.

Lemma complete_profile_picker h name prof : named is_picker name h = true → ∃ ref, ref ∈ sp_Plugins (complete_profile h name prof) ∧ named is_picker (sl_PluginRef ref) h = true.
Proof.
  intros Hname. unfold complete_profile. cbn [sp_Plugins]. destruct (existsb _ (sp_Plugins prof)) eqn:E.
  - apply existsb_exists in E as (ref & Hin%list_elem_of_In & Hp). eexists. split; [apply list_elem_of_fmap_2, Hin|].
    destruct (sl_Weight ref); [done|]. by destruct (named is_scorer _ _).
  - eexists. split; [apply elem_of_app; right; by apply list_elem_of_singleton|done].
Qed.

Lemma ensure_picker_named Registry order s s' name : (∀ h p factory, Registry !! MaxScorePickerType = Some factory → factory MaxScorePickerType None h = inl p → is_picker p = true) →
  ensure_picker Registry order s = inl (s', name) → named is_picker name (ld_handle s') = true ∧ ec_SchedulingProfiles (ld_cfg s') = ec_SchedulingProfiles (ld_cfg s) ∧
    ec_FeatureGates (ld_cfg s') = ec_FeatureGates (ld_cfg s) ∧ ec_Parser (ld_cfg s') = ec_Parser (ld_cfg s) ∧ (∀ n, is_Some (ld_handle s !! n) → is_Some (ld_handle s' !! n)).
Proof.
  intros Hmax. unfold ensure_picker. destruct (List.filter _ _) as [|n l] eqn:E.
  - intros H. apply ebind_inl in H as (s1 & H & [= <- <-]). unfold registerDefaultPlugin in H. destruct (Registry !! MaxScorePickerType) as [factory|] eqn:Hf; [|done].
    apply ebind_inl in H as (plugin & Hp & [= <-]). cbn [ld_handle ld_cfg]. unfold named. rewrite lookup_insert_eq. cbn. split; [by eapply Hmax|]. split_and!; [done..|].
    intros n Hn. destruct (decide (n = MaxScorePickerType)) as [->|Hne]; [rewrite lookup_insert_eq; by eexists|by rewrite lookup_insert_ne].
  - intros [= <- <-]. assert (n ∈ List.filter (λ name, named is_picker name (ld_handle s)) (all_names order (ld_handle s))) as Hin by (rewrite E; by left).
    apply list_elem_of_In, filter_In in Hin as [_ Hin]. split_and!; done.
Qed.

#[export] Instance bool_filter_proper {A} (f : A → bool) : Proper (Permutation ==> Permutation) (List.filter f).
Proof.
  intros l k. induction 1 as [|x l k _ IH|x y l|l1 l2 l3 _ IH1 _ IH2]; cbn [List.filter]; [done| | |by etrans].
  - destruct (f x); [by constructor|done].
  - destruct (f x), (f y); done || apply Permutation_swap.
Qed.

Section loaded.
Context (Registry : gmap string FactoryFunc) (gates : gset string).
(** The factory of the default picker makes a picker. *)
Context (Hmax : ∀ h p factory, Registry !! MaxScorePickerType = Some factory → factory MaxScorePickerType None h = inl p → is_picker p = true).

Lemma register_keeps t s s' : registerDefaultPlugin Registry t s = inl s' →
  ec_SchedulingProfiles (ld_cfg s') = ec_SchedulingProfiles (ld_cfg s) ∧ ec_FeatureGates (ld_cfg s') = ec_FeatureGates (ld_cfg s) ∧
  ec_Parser (ld_cfg s') = ec_Parser (ld_cfg s) ∧ (∀ n, is_Some (ld_handle s !! n) → is_Some (ld_handle s' !! n)).
Proof using Type.
  unfold registerDefaultPlugin. destruct (Registry !! t) as [factory|]; [|done]. intros H. apply ebind_inl in H as (plugin & _ & [= <-]). split_and!; [done..|].
  intros n Hn. cbn [ld_handle]. destruct (decide (n = t)) as [->|Hne]; [rewrite lookup_insert_eq; by eexists|by rewrite lookup_insert_ne].
Qed.

(** Every profile of the effective configuration has a picker. *)
Lemma scheduling_layer_spec order order' s s' : ensureSchedulingLayer Registry order order' s = inl s' →
  ec_FeatureGates (ld_cfg s') = ec_FeatureGates (ld_cfg s) ∧ ec_Parser (ld_cfg s') = ec_Parser (ld_cfg s) ∧
  (∀ n, is_Some (ld_handle s !! n) → is_Some (ld_handle s' !! n)) ∧
  (ec_SchedulingProfiles (ld_cfg s) ≠ [] → Forall2 completes (ec_SchedulingProfiles (ld_cfg s)) (ec_SchedulingProfiles (ld_cfg s'))) ∧
  (∀ prof, prof ∈ ec_SchedulingProfiles (ld_cfg s') → ∃ ref, ref ∈ sp_Plugins prof ∧ named is_picker (sl_PluginRef ref) (ld_handle s') = true).
Proof using Hmax.
  unfold ensureSchedulingLayer. intros H. apply ebind_inl in H as (s1 & H1 & H). apply ebind_inl in H as ([s2 name] & H2 & [= <-]).
  assert (ec_SchedulingProfiles (ld_cfg s1) = ec_SchedulingProfiles (ld_cfg (ensure_profile order s)) ∧ ec_FeatureGates (ld_cfg s1) = ec_FeatureGates (ld_cfg s) ∧
    ec_Parser (ld_cfg s1) = ec_Parser (ld_cfg s) ∧ (∀ n, is_Some (ld_handle s !! n) → is_Some (ld_handle s1 !! n))) as (Hp1 & Hg1 & Hpa1 & Hh1).
  { assert (ec_FeatureGates (ld_cfg (ensure_profile order s)) = ec_FeatureGates (ld_cfg s) ∧ ec_Parser (ld_cfg (ensure_profile order s)) = ec_Parser (ld_cfg s) ∧
      ld_handle (ensure_profile order s) = ld_handle s) as (Hg & Hpa & Hh) by (unfold ensure_profile; by destruct (ec_SchedulingProfiles (ld_cfg s))).
    unfold ensure_handler in H1. destruct (ec_SchedulingProfiles (ld_cfg (ensure_profile order s))) as [|prof [|]] eqn:Eprof;
      [injection H1 as <-; rewrite Eprof, Hg, Hpa, Hh; done| |injection H1 as <-; rewrite Eprof, Hg, Hpa, Hh; done].
    destruct (existsb _ _); [injection H1 as <-; rewrite Eprof, Hg, Hpa, Hh; done|].
    apply register_keeps in H1 as (-> & -> & -> & Hk). rewrite Hh in Hk. rewrite Hg, Hpa. done. }
  apply (ensure_picker_named Registry _ _ _ _ Hmax) in H2 as (Hname & Hp2 & Hg2 & Hpa2 & Hh2). cbn [on_cfg ld_cfg ld_handle with_profiles ec_FeatureGates ec_Parser ec_SchedulingProfiles].
  split; [congruence|]. split; [congruence|]. split; [auto|]. split.
  - intros Hne. rewrite Hp2, Hp1. unfold ensure_profile. destruct (ec_SchedulingProfiles (ld_cfg s)) as [|prof profs] eqn:E; [done|]. rewrite E.
    apply Forall2_fmap_r, Forall_Forall2_diag. apply Forall_forall. intros x _. apply complete_profile_completes.
  - intros prof (prof0 & -> & _)%list_elem_of_fmap. by apply complete_profile_picker.
Qed.

Lemma detector_set s s1 s2 : ensureSaturationDetector Registry s = inl s1 → ensureDataLayer Registry s1 = inl s2 → is_Some (ec_SaturationDetector (ld_cfg s2)).
Proof using Type.
  assert (∀ name t s s', ensure_plugin Registry name t s = inl s' → ec_SaturationDetector (ld_cfg s') = ec_SaturationDetector (ld_cfg s)) as Hkeep.
  { intros name t s0 s'. unfold ensure_plugin, registerDefaultPlugin. destruct (ld_handle s0 !! name); [by intros [= <-]|]. destruct (Registry !! t); [|done].
    intros H. by apply ebind_inl in H as (p & _ & [= <-]). }
  unfold ensureSaturationDetector. set (ref := match _ with Some d => _ | None => _ end). intros H1 H2. assert (ec_SaturationDetector (ld_cfg s1) = Some ref) as Hs1.
  { case_bool_decide; [by apply Hkeep in H1|by injection H1 as <-]. }
  unfold ensureDataLayer in H2. case_bool_decide; [injection H2 as <-; by eexists|]. destruct (ec_DataLayer _); [injection H2 as <-; by eexists|].
  apply ebind_inl in H2 as (s3 & H3%Hkeep & H2). apply ebind_inl in H2 as (s4 & H4%Hkeep & [= <-]). cbn. rewrite H4, H3, Hs1. by eexists.
Qed.

Lemma picker_found h h' prof ref : h ⊆ h' → ref ∈ sp_Plugins prof → named is_picker (sl_PluginRef ref) h = true → pickers_of h' (sp_Plugins prof) ≠ [].
Proof using Type.
  intros Hsub Hin Hn Hnil. unfold named in Hn. destruct (h !! sl_PluginRef ref) as [p|] eqn:E; [|done]. cbn in Hn. unfold is_picker in Hn. apply bool_decide_eq_true in Hn as [pk Hpk].
  eapply lookup_weaken in E; [|exact Hsub]. assert (pk ∈ pickers_of h' (sp_Plugins prof)) as Hpk'; [|rewrite Hnil in Hpk'; by apply elem_of_nil in Hpk'].
  unfold pickers_of. apply list_elem_of_omap. exists ref. split; [done|]. rewrite E. exact Hpk.
Qed.

Lemma system_defaults_spec order order' s s' : parser_defined s → applySystemDefaults Registry order order' s = inl s' →
  ec_FeatureGates (ld_cfg s') = ec_FeatureGates (ld_cfg s) ∧
  (ec_SchedulingProfiles (ld_cfg s) ≠ [] → Forall2 completes (ec_SchedulingProfiles (ld_cfg s)) (ec_SchedulingProfiles (ld_cfg s'))) ∧
  (∀ n, is_Some (ld_handle s !! n) → is_Some (ld_handle s' !! n)) ∧
  (∀ prof, prof ∈ ec_SchedulingProfiles (ld_cfg s') → pickers_of (ld_handle s') (sp_Plugins prof) ≠ []) ∧ is_Some (ec_SaturationDetector (ld_cfg s')).
Proof using Hmax.
  intros Hpd. unfold applySystemDefaults. intros H. apply ebind_inl in H as (s1 & H1 & H). apply ebind_inl in H as (s2 & H2 & H).
  apply ebind_inl in H as (s3 & H3 & H). apply ebind_inl in H as (s4 & H4 & H5).
  apply scheduling_layer_spec in H1 as (Hg1 & Hpa1 & Hh1 & Hc1 & Hpk1). apply ensureFlowControlLayer_grows in H2 as [G2 Hpa2].
  apply ensureParser_grows in H3 as G3; last first.
  { intros ref Href. rewrite Hpa2, Hpa1 in Href. destruct (Hh1 ref (Hpd ref Href)) as [p Hp]. exists p. by eapply lookup_weaken; [exact Hp|apply (gr_handle _ _ G2)]. }
  pose proof (detector_set _ _ _ H4 H5) as Hdet. apply ensureSaturationDetector_grows in H4. apply ensureDataLayer_grows in H5.
  assert (grows s1 s') as [Hsub Hprof Hgates] by (etrans; [exact G2|]; etrans; [exact G3|]; by etrans).
  split; [congruence|]. split; [by rewrite Hprof|]. split; [|split; [|done]].
  - intros n Hn. destruct (Hh1 n Hn) as [p Hp]. exists p. by eapply lookup_weaken.
  - intros prof Hin. rewrite Hprof in Hin. destruct (Hpk1 prof Hin) as (ref & Href & Hn). by eapply picker_found.
Qed.

Lemma map_err_inl {A B} (f : A → B + GoError) l ys : map_err f l = inl ys → Forall2 (λ x y, f x = inl y) l ys.
Proof using Type.
  revert ys. induction l as [|x l IH]; intros ys; cbn [map_err]; [by intros [= <-]|]. intros H. apply ebind_inl in H as (y & Hy & H).
  apply ebind_inl in H as (ys' & Hys & [= <-]). constructor; auto.
Qed.

Lemma plugin_as_inl test ref h p : plugin_as test ref h = inl p → h !! ref = Some p ∧ test p = true.
Proof using Type. unfold plugin_as. destruct (h !! ref) as [q|]; [|done]. destruct (test q) eqn:E; [|done]. by intros [= <-]. Qed.

Lemma handler_unique (h : Handle) p : List.filter lp_ProfileHandler (map_to_list h).*2 = [p] →
  ∃ name, h !! name = Some p ∧ lp_ProfileHandler p = true ∧ ∀ name' p', h !! name' = Some p' → lp_ProfileHandler p' = true → name' = name.
Proof using Type.
  intros Hf. assert (p ∈ List.filter lp_ProfileHandler (map_to_list h).*2) as Hin by (rewrite Hf; by left).
  apply list_elem_of_In, filter_In in Hin as [Hin%list_elem_of_In Hp]. apply list_elem_of_fmap in Hin as ([name q] & -> & Hin). cbn in *.
  apply elem_of_map_to_list in Hin as Hlook. exists name. split; [done|]. split; [done|]. intros name' p' Hname' Hp'. destruct (decide (name' = name)) as [|Hne]; [done|exfalso].
  rewrite <- (insert_delete_id h name q Hlook) in Hf.
  assert (List.filter lp_ProfileHandler (map_to_list (<[name:=q]> (delete name h))).*2 ≡ₚ q :: List.filter lp_ProfileHandler (map_to_list (delete name h)).*2) as Hperm.
  { rewrite map_to_list_insert by apply lookup_delete_eq. cbn. by rewrite Hp. }
  rewrite Hf in Hperm. apply Permutation_cons_inv, Permutation_nil_l, eq_sym in Hperm.
  assert (p' ∈ List.filter lp_ProfileHandler (map_to_list (delete name h)).*2) as Hin'; [|rewrite Hperm in Hin'; by apply elem_of_nil in Hin'].
  apply list_elem_of_In, filter_In. split; [|done]. apply list_elem_of_In, list_elem_of_fmap. exists (name', p'). split; [done|].
  apply elem_of_map_to_list. by rewrite lookup_delete_ne.
Qed.
End loaded.

(** A plugin of the handle with an interface. *)
Definition instance_of (test : LoadedPlugin → bool) (h : Handle) (ref : string) (p : LoadedPlugin) : Prop := h !! ref = Some p ∧ test p = true.

(** What a loaded configuration consists of. *)
Record assembled (c : EndpointPickerConfig) (h : Handle) (conf : LoaderConfig) : Prop := mkAssembled {
  as_names : dom (sg_profiles (lc_SchedulerConfig conf)) = list_to_set (sp_Name <$> ec_SchedulingProfiles c);
  as_profile : ∀ prof, prof ∈ ec_SchedulingProfiles c → ∃ p picker, sg_profiles (lc_SchedulerConfig conf) !! sp_Name prof = Some p ∧
    pf_filters p = filters_of h (sp_Plugins prof) ∧ pf_scorers p = scorers_of h (sp_Plugins prof) ∧
    pickers_of h (sp_Plugins prof) = [picker] ∧ pf_picker p = Some picker;
  as_handler : ∃ name, instance_of lp_ProfileHandler h name (sg_profileHandler (lc_SchedulerConfig conf)) ∧
    ∀ name' p', instance_of lp_ProfileHandler h name' p' → name' = name;
  as_single : lp_Type (sg_profileHandler (lc_SchedulerConfig conf)) = SingleProfileHandlerType → size (sg_profiles (lc_SchedulerConfig conf)) ≤ 1;
  as_detector : ∃ ref, ec_SaturationDetector c = Some ref ∧ instance_of lp_SaturationDetector h ref (lc_SaturationDetector conf);
  as_parser : ∃ ref, ec_Parser c = Some ref ∧ instance_of lp_Parser h ref (lc_Parser conf);
  as_data : match lc_DataConfig conf with
            | None => EnableLegacyMetricsFeatureGate ∈ ec_FeatureGates c
            | Some sources => Forall2 (λ src d, instance_of lp_DataSource h (dl_PluginRef src) (dg_Plugin d) ∧
                Forall2 (instance_of lp_Extractor h) (dl_Extractors src) (dg_Extractors d)) (default [] (ec_DataLayer c)) sources
            end;
  as_flow : is_Some (lc_FlowControlConfig conf) ↔ FlowControlFeatureGate ∈ ec_FeatureGates c
}.

Lemma buildSchedulerConfig_spec c h sc : NoDup (sp_Name <$> ec_SchedulingProfiles c) → (∀ prof, prof ∈ ec_SchedulingProfiles c → pickers_of h (sp_Plugins prof) ≠ []) →
  buildSchedulerConfig (ec_SchedulingProfiles c) h = inl sc →
  dom (sg_profiles sc) = list_to_set (sp_Name <$> ec_SchedulingProfiles c) ∧
  (∀ prof, prof ∈ ec_SchedulingProfiles c → ∃ p picker, sg_profiles sc !! sp_Name prof = Some p ∧ pf_filters p = filters_of h (sp_Plugins prof) ∧
    pf_scorers p = scorers_of h (sp_Plugins prof) ∧ pickers_of h (sp_Plugins prof) = [picker] ∧ pf_picker p = Some picker) ∧
  (∃ name, instance_of lp_ProfileHandler h name (sg_profileHandler sc) ∧ ∀ name' p', instance_of lp_ProfileHandler h name' p' → name' = name) ∧
  (lp_Type (sg_profileHandler sc) = SingleProfileHandlerType → size (sg_profiles sc) ≤ 1).
Proof.
  intros Hnd Hpick. unfold buildSchedulerConfig. intros H. apply ebind_inl in H as (profiles & Hb & H). apply build_profiles_spec in Hb as (Hdom & Hprof & _); [|done].
  destruct (List.filter _ _) as [|ph [|]] eqn:Hf; [done| |done]. apply handler_unique in Hf as (name & Hname & Hph & Huniq).
  destruct (bool_decide (lp_Type ph = _) && bool_decide (1 < size profiles)) eqn:E; [done|]. injection H as <-. cbn [sg_profiles sg_profileHandler]. split_and!.
  - rewrite Hdom. set_solver.
  - intros prof Hin. destruct (Hprof prof Hin) as (p & Hp & Hbp). apply build_profile_spec in Hbp as (Hfl & Hsc & Hpk). specialize (Hpick prof Hin).
    cbn in Hfl, Hsc, Hpk. destruct (pf_picker p) as [picker|] eqn:Epk; [|by rewrite <- Hpk in Hpick]. exists p, picker. done.
  - exists name. split; [done|]. intros name' p' [H1 H2]. by eapply Huniq.
  - intros Hty. rewrite Hty, bool_decide_eq_true_2 in E by done. apply bool_decide_eq_false in E. lia.
Qed.

Lemma loaded_assembled (Registry : gmap string FactoryFunc) (gates : gset string) (order order' : nat → nat) (raw : EndpointPickerConfig)
    (h : Handle) (conf : LoaderConfig) (s : Load) :
  (∀ h p factory, Registry !! MaxScorePickerType = Some factory → factory MaxScorePickerType None h = inl p → is_picker p = true) →
  (∀ ref, ec_Parser raw = Some ref → ref ∈ ps_Name <$> ec_Plugins raw) →
  InstantiateAndConfigure Registry gates order order' raw h = inl (conf, s) →
  NoDup (ps_Name <$> ec_Plugins raw) ∧ (∀ name, name ∈ ps_Name <$> ec_Plugins raw → is_Some (ld_handle s !! name)) ∧
  ec_FeatureGates (ld_cfg s) = ec_FeatureGates raw ∧
  (ec_SchedulingProfiles raw ≠ [] → Forall2 completes (ec_SchedulingProfiles raw) (ec_SchedulingProfiles (ld_cfg s))) ∧
  assembled (ld_cfg s) (ld_handle s) conf.
Proof.
  intros Hmax Hparser. unfold InstantiateAndConfigure. intros H. apply ebind_inl in H as (h1 & H1 & H). apply ebind_inl in H as (s1 & H2 & H).
  apply instantiate_names in H1 as [Hnd Hnames]. apply (system_defaults_spec Registry Hmax) in H2 as (Hgates & Hcomp & Hkeep & Hpick & [ref Href]);
    [|intros r Hr; cbn [ld_handle]; apply Hnames; right; by apply Hparser].
  apply ebind_inl in H as ([] & Hval & H). unfold checked in Hval. destruct (validateConfig _ _) eqn:Hv; [done|]. clear Hval.
  unfold validateConfig in Hv. destruct (validateFeatureGates _ _); [done|]. destruct (validateSchedulingProfiles _) eqn:Hvp; [done|]. apply validate_profiles_None in Hvp as [Hndp _].
  apply ebind_inl in H as (sc & Hsc & H). apply ebind_inl in H as (data & Hdata & H). apply ebind_inl in H as (flow & Hflow & H).
  apply ebind_inl in H as (parser & Hpa & H). apply ebind_inl in H as (det & Hdet & [= <- <-]).
  cbn [ld_cfg ld_handle] in *. split; [done|]. split; [intros name Hn; apply Hkeep, Hnames; by right|]. split; [done|]. split; [done|].
  apply (buildSchedulerConfig_spec (ld_cfg s1)) in Hsc as (? & ? & ? & ?); [|done..]. split; cbn [lc_SchedulerConfig lc_SaturationDetector lc_DataConfig lc_FlowControlConfig lc_Parser]; try done.
  - exists ref. split; [done|]. rewrite Href in Hdet. by apply plugin_as_inl in Hdet.
  - unfold buildParserConfig in Hpa. destruct (ec_Parser (ld_cfg s1)) as [pref|]; [|done]. exists pref. split; [done|]. by apply plugin_as_inl in Hpa.
  - unfold optionally in Hdata. destruct (negb _) eqn:E.
    + apply ebind_inl in Hdata as (sources & Hs & [= <-]). apply map_err_inl in Hs. eapply Forall2_impl; [exact Hs|]. intros src d Hd. cbn beta in Hd.
      apply ebind_inl in Hd as (p & Hp & Hd). apply ebind_inl in Hd as (exts & He & [= <-]). cbn [dg_Plugin dg_Extractors]. split; [by apply plugin_as_inl in Hp|].
      apply map_err_inl in He. eapply Forall2_impl; [exact He|]. intros r q Hq. by apply plugin_as_inl in Hq.
    + injection Hdata as <-. by apply negb_false_iff, bool_decide_eq_true in E.
  - unfold optionally in Hflow. case_bool_decide as E.
    + apply ebind_inl in Hflow as (fc & _ & [= <-]). split; [done|by eexists].
    + injection Hflow as <-. split; [by intros [? ?]|done].
Qed.


(** ** The default configuration *)

Definition default_scorers : list string := [QueueScorerType; KvCacheUtilizationScorerType; PrefixCacheScorerPluginType].
Definition builtin_types : list string :=
  default_scorers ++ [MetricsDataSourceType; MetricsExtractorType; SingleProfileHandlerType; MaxScorePickerType; DefaultOrderingPolicyRef;
    DefaultFairnessPolicyRef; DefaultUsageLimitPolicyRef; OpenAIParserType; UtilizationDetectorType].

(** What the factory of a built-in type makes. *)
Record made (t : string) (p : LoadedPlugin) : Prop := mkMade {
  md_type : lp_Type p = t;
  md_handler : lp_ProfileHandler p = bool_decide (t = SingleProfileHandlerType);
  md_scorer : is_scorer p = bool_decide (t ∈ default_scorers);
  md_picker : is_picker p = bool_decide (t = MaxScorePickerType);
  md_parser : lp_Parser p = bool_decide (t = OpenAIParserType);
  md_detector : lp_SaturationDetector p = bool_decide (t = UtilizationDetectorType);
  md_source : lp_DataSource p = bool_decide (t = MetricsDataSourceType);
  md_extractor : lp_Extractor p = bool_decide (t = MetricsExtractorType)
}.

Class BuiltinPlugins (Registry : gmap string FactoryFunc) : Prop :=
  builtin_made t : t ∈ builtin_types → ∃ factory, Registry !! t = Some factory ∧ ∀ h, ∃ p, factory t None h = inl p ∧ made t p.

(** A handle with instances of the types [S]. *)
Record stock (S : gset string) (h : Handle) : Prop := mkStock { st_dom : dom h = S; st_made : ∀ t p, h !! t = Some p → made t p }.

Lemma stock_insert S h t p : stock S h → made t p → stock ({[t]} ∪ S) (<[t := p]> h).
Proof. intros [Hd Hm] Hp. split; [by rewrite dom_insert_L, Hd|]. intros t' p' [[<- <-]|[_ Ht']]%lookup_insert_Some; auto. Qed.

Lemma stock_get S h t : stock S h → t ∈ S → ∃ p, h !! t = Some p ∧ made t p.
Proof. intros [Hd Hm] Ht. rewrite <- Hd in Ht. apply elem_of_dom in Ht as [p Hp]. eauto. Qed.

Lemma build_profile_total h refs p : (∀ ref, ref ∈ refs → is_Some (h !! sl_PluginRef ref)) → length (option_list (pf_picker p) ++ pickers_of h refs) ≤ 1 →
  ∃ p', build_profile h refs p = inl p'.
Proof.
  revert p. induction refs as [|ref refs IH]; intros p Hin Hlen; cbn [build_profile]; [by eexists|].
  destruct (Hin ref) as [plugin Hp]; [by left|]. unfold pickers_of in Hlen. cbn [omap list_omap] in Hlen. rewrite Hp in *. cbn in Hlen.
  assert (∃ p', AddPlugins [plugin_object ref plugin] p = inl p') as [p1 Hp1].
  { unfold plugin_object. destruct (lp_sched plugin) as [f sc pk]; cbn in *. destruct sc, f, pk, p as [fs ss [pk'|]]; cbn in *; try (by eexists); lia. }
  rewrite Hp1. cbn [ebind]. apply IH; [intros r Hr; apply Hin; by right|]. apply add_plugin_spec in Hp1 as (_ & _ & ->). rewrite <- app_assoc. destruct (spl_picker (lp_sched plugin)); exact Hlen.
Qed.

Lemma handler_single (h : Handle) name p : h !! name = Some p → lp_ProfileHandler p = true → (∀ name' p', h !! name' = Some p' → lp_ProfileHandler p' = true → name' = name) →
  List.filter lp_ProfileHandler (map_to_list h).*2 = [p].
Proof.
  intros Hlook Hp Huniq. apply Permutation_singleton_r. rewrite <- (insert_delete_id h name p Hlook). rewrite map_to_list_insert by apply lookup_delete_eq. cbn. rewrite Hp.
  constructor. destruct (List.filter lp_ProfileHandler (map_to_list (delete name h)).*2) as [|q l] eqn:E; [done|exfalso].
  assert (q ∈ List.filter lp_ProfileHandler (map_to_list (delete name h)).*2) as Hin by (rewrite E; by left).
  apply list_elem_of_In, filter_In in Hin as [Hin%list_elem_of_In Hq]. apply list_elem_of_fmap in Hin as ([n q'] & -> & Hin). apply elem_of_map_to_list in Hin. cbn in Hq.
  apply lookup_delete_Some in Hin as [Hne Hn]. apply Hne. symmetry. by eapply Huniq.
Qed.

(** Facts on sets of names. *)
Ltac same_types := apply (bool_decide_unpack _); by vm_compute.

Section default_config.
Context (Registry : gmap string FactoryFunc) `{!BuiltinPlugins Registry}.

Definition plain_spec (t : string) : PluginSpec := mkPluginSpec t t None.

Lemma instantiate_stock types names S h : NoDup types → (∀ t, t ∈ types → t ∈ builtin_types ∧ t ≠ ""%string ∧ t ∉ names) → stock S h →
  ∃ h', instantiate_loop Registry names (plain_spec <$> types) h = inl h' ∧ stock (list_to_set types ∪ S) h'.
Proof using BuiltinPlugins0.
  revert names S h. induction types as [|t types IH]; intros names S h Hnd Hin Hs; [exists h; split; [done|]; by rewrite list_to_set_nil, union_empty_l_L|].
  apply NoDup_cons in Hnd as [Hnot Hnd]. rewrite fmap_cons. cbn [instantiate_loop plain_spec ps_Type ps_Name ps_Parameters].
  destruct (Hin t) as (Hb & Hne & Hnn); [by left|]. rewrite bool_decide_eq_false_2 by done. rewrite bool_decide_eq_false_2 by done.
  destruct (builtin_made t Hb) as (factory & -> & Hf). destruct (Hf h) as (p & -> & Hp). cbn [ebind].
  destruct (IH ({[t]} ∪ names) ({[t]} ∪ S) (<[t:=p]> h)) as (h' & Hh' & Hs'); [done| |by apply stock_insert|].
  - intros t' Ht'. destruct (Hin t') as (? & ? & ?); [by right|]. split_and!; [done|done|]. intros [->%elem_of_singleton|?]%elem_of_union; done.
  - exists h'. split; [done|]. replace (list_to_set (t :: types) ∪ S) with (list_to_set types ∪ ({[t]} ∪ S)); [done|]. rewrite list_to_set_cons. set_solver.
Qed.

Lemma register_stock t S s : t ∈ builtin_types → stock S (ld_handle s) →
  ∃ h', registerDefaultPlugin Registry t s = inl (mkLoad (with_plugins (ec_Plugins (ld_cfg s) ++ [plain_spec t]) (ld_cfg s)) h') ∧ stock ({[t]} ∪ S) h'.
Proof using BuiltinPlugins0.
  intros Ht Hs. unfold registerDefaultPlugin. destruct (builtin_made t Ht) as (factory & -> & Hf). destruct (Hf (ld_handle s)) as (p & -> & Hp). cbn [ebind].
  exists (<[t:=p]> (ld_handle s)). split; [done|]. by apply stock_insert.
Qed.

Lemma ensure_stock t S s : t ∈ builtin_types → t ∉ S → stock S (ld_handle s) →
  ∃ h', ensure_plugin Registry t t s = inl (mkLoad (with_plugins (ec_Plugins (ld_cfg s) ++ [plain_spec t]) (ld_cfg s)) h') ∧ stock ({[t]} ∪ S) h'.
Proof using BuiltinPlugins0.
  intros Ht Hnot Hs. unfold ensure_plugin. rewrite (proj1 (not_elem_of_dom (ld_handle s) t)) by (by rewrite (st_dom _ _ Hs)). by apply register_stock.
Qed.

(** No instance has an interface that no type in stock has. *)
Lemma stock_none S h test : stock S h → (∀ t p, made t p → t ∈ S → test p = false) → ∀ t, named test t h = false.
Proof using Type. intros Hs Ht t. unfold named. destruct (h !! t) as [p|] eqn:E; [|done]. cbn. eapply Ht; [by eapply st_made|]. rewrite <- (st_dom _ _ Hs). by apply elem_of_dom. Qed.

Definition loaded_types : list string := default_scorers ++ [MetricsDataSourceType; MetricsExtractorType].

Definition default_raw : EndpointPickerConfig := applyStaticDefaults loadDefaultConfig.

Definition default_profile : SchedulingProfile :=
  mkSchedulingProfile "default" [mkSchedulingPlugin QueueScorerType (Some (of_int 2)); mkSchedulingPlugin KvCacheUtilizationScorerType (Some (of_int 2));
    mkSchedulingPlugin PrefixCacheScorerPluginType (Some (of_int 3)); mkSchedulingPlugin MaxScorePickerType None].

Definition default_effective : EndpointPickerConfig :=
  mkEPConfig [] (plain_spec <$> builtin_types) [default_profile] (Some UtilizationDetectorType) (Some default_data_layer) None (Some OpenAIParserType).

Lemma default_instantiated : ∃ h, instantiatePlugins Registry (ec_Plugins default_raw) ∅ = inl h ∧ stock (list_to_set loaded_types) h.
Proof using BuiltinPlugins0.
  destruct (instantiate_stock loaded_types ∅ ∅ ∅) as (h & Hh & Hs).
  - apply (bool_decide_unpack _). by vm_compute.
  - intros t Ht. split; [unfold loaded_types, builtin_types in *; set_solver|]. split; [|set_solver].
    unfold loaded_types, default_scorers in Ht. simpl in Ht. rewrite !elem_of_cons, elem_of_nil in Ht. naive_solver.
  - split; [by rewrite dom_empty_L|]. intros t p H. by rewrite lookup_empty in H.
  - rewrite union_empty_r_L in Hs. by exists h.
Qed.

Lemma no_handler h : (∀ t, named lp_ProfileHandler t h = false) → existsb (λ np, lp_ProfileHandler np.2) (map_to_list h) = false.
Proof using Type.
  intros Hn. apply not_true_iff_false. intros ([t p] & Hin%list_elem_of_In & Hp)%existsb_exists. apply elem_of_map_to_list in Hin.
  specialize (Hn t). unfold named in Hn. rewrite Hin in Hn. cbn in *. congruence.
Qed.

Lemma no_names test order h : (∀ t, named test t h = false) → List.filter (λ name, named test name h) (all_names order h) = [].
Proof using Type. intros Hn. induction (all_names order h) as [|t l IH]; [done|]. cbn [List.filter]. by rewrite Hn. Qed.

Lemma stock_picker S h t : stock S h → t ∈ S → named is_picker t h = bool_decide (t = MaxScorePickerType).
Proof using Type. intros Hs Ht. destruct (stock_get S h t Hs Ht) as (p & Hp & Hm). unfold named. rewrite Hp. cbn. apply (md_picker _ _ Hm). Qed.

Definition scheduled_types : list string := loaded_types ++ [SingleProfileHandlerType; MaxScorePickerType].

Lemma default_scheduling order order' h : stock (list_to_set loaded_types) h →
  ∃ h', ensureSchedulingLayer Registry order order' (mkLoad default_raw h) =
    inl (mkLoad (with_profiles [default_profile] (with_plugins (plain_spec <$> scheduled_types) default_raw)) h') ∧ stock (list_to_set scheduled_types) h'.
Proof using BuiltinPlugins0.
  intros Hs. unfold ensureSchedulingLayer. change (ensure_profile order (mkLoad default_raw h)) with (mkLoad default_raw h).
  destruct (register_stock SingleProfileHandlerType (list_to_set loaded_types) (mkLoad default_raw h)) as (h1 & H1 & S1); [unfold builtin_types; set_solver|done|].
  unfold ensure_handler. change (ec_SchedulingProfiles (ld_cfg (mkLoad default_raw h))) with (ec_SchedulingProfiles loadDefaultConfig). cbn [ec_SchedulingProfiles loadDefaultConfig].
  rewrite no_handler, H1; last first.
  { eapply stock_none; [exact Hs|]. intros t p Hp Ht. rewrite (md_handler _ _ Hp). apply bool_decide_eq_false_2. intros ->. revert Ht. apply (bool_decide_unpack _). by vm_compute. }
  cbn [ebind]. set (s1 := mkLoad _ h1). destruct (register_stock MaxScorePickerType ({[SingleProfileHandlerType]} ∪ list_to_set loaded_types) s1) as (h2 & H2 & S2);
    [unfold builtin_types; set_solver|done|].
  unfold ensure_picker. rewrite no_names, H2; last first.
  { eapply stock_none; [exact S1|]. intros t p Hp Ht. rewrite (md_picker _ _ Hp). apply bool_decide_eq_false_2. intros ->. revert Ht. apply (bool_decide_unpack _). by vm_compute. }
  cbn [ebind]. exists h2. split.
  - assert (complete_profile h2 MaxScorePickerType <$> ec_SchedulingProfiles loadDefaultConfig = [default_profile]) as Hp.
    { cbn [ec_SchedulingProfiles loadDefaultConfig fmap list_fmap]. f_equal. unfold complete_profile. cbn [sp_Plugins sp_Name existsb sl_PluginRef].
      rewrite !(stock_picker _ _ _ S2) by (apply (bool_decide_unpack _); by vm_compute). reflexivity. }
    f_equal. unfold on_cfg. cbn [ld_cfg ld_handle]. f_equal. exact (f_equal (λ l, with_profiles l (with_plugins (plain_spec <$> scheduled_types) default_raw)) Hp).
  - replace (list_to_set scheduled_types : gset string) with ({[MaxScorePickerType]} ∪ ({[SingleProfileHandlerType]} ∪ list_to_set loaded_types) : gset string); [done|].
    apply (bool_decide_unpack _). by vm_compute.
Qed.

Ltac new_type t S s h H St := destruct (ensure_stock t S s) as (h & H & St); [unfold builtin_types; set_solver|same_types|done|].

Lemma default_system order order' h : stock (list_to_set loaded_types) h →
  ∃ h', applySystemDefaults Registry order order' (mkLoad default_raw h) = inl (mkLoad default_effective h') ∧ stock (list_to_set builtin_types) h'.
Proof using BuiltinPlugins0.
  intros Hs. unfold applySystemDefaults. destruct (default_scheduling order order' h Hs) as (h1 & -> & S1). cbn [ebind]. set (s1 := mkLoad _ h1).
  unfold ensureFlowControlLayer. new_type DefaultOrderingPolicyRef (list_to_set scheduled_types : gset string) s1 h2 H2 S2. rewrite H2. cbn [ebind]. set (s2 := mkLoad _ h2).
  new_type DefaultFairnessPolicyRef ({[DefaultOrderingPolicyRef]} ∪ list_to_set scheduled_types : gset string) s2 h3 H3 S3. rewrite H3. cbn [ebind]. set (s3 := mkLoad _ h3).
  new_type DefaultUsageLimitPolicyRef ({[DefaultFairnessPolicyRef]} ∪ ({[DefaultOrderingPolicyRef]} ∪ list_to_set scheduled_types) : gset string) s3 h4 H4 S4. rewrite H4. cbn [ebind].
  set (s4 := mkLoad _ h4). unfold ensureParser. change (default OpenAIParserType (ec_Parser (ld_cfg s4))) with OpenAIParserType.
  new_type OpenAIParserType ({[DefaultUsageLimitPolicyRef]} ∪ ({[DefaultFairnessPolicyRef]} ∪ ({[DefaultOrderingPolicyRef]} ∪ list_to_set scheduled_types)) : gset string)
    (on_cfg (with_parser OpenAIParserType) s4) h5 H5 S5. rewrite H5. cbn [ebind]. set (s5 := mkLoad _ h5). unfold ensureSaturationDetector.
  change (ec_SaturationDetector (ld_cfg s5)) with (None : option string). cbn iota. rewrite bool_decide_eq_true_2 by done.
  new_type UtilizationDetectorType ({[OpenAIParserType]} ∪ ({[DefaultUsageLimitPolicyRef]} ∪ ({[DefaultFairnessPolicyRef]} ∪ ({[DefaultOrderingPolicyRef]} ∪ list_to_set scheduled_types))) : gset string)
    (on_cfg (with_detector UtilizationDetectorType) s5) h6 H6 S6. rewrite H6. cbn [ebind]. set (s6 := mkLoad _ h6). unfold ensureDataLayer.
  change (ec_FeatureGates (ld_cfg s6)) with ([] : list string). rewrite bool_decide_eq_false_2 by apply not_elem_of_nil.
  change (ec_DataLayer (ld_cfg s6)) with (Some default_data_layer). exists h6. split; [reflexivity|].
  replace (list_to_set builtin_types : gset string) with ({[UtilizationDetectorType]} ∪ ({[OpenAIParserType]} ∪ ({[DefaultUsageLimitPolicyRef]} ∪
    ({[DefaultFairnessPolicyRef]} ∪ ({[DefaultOrderingPolicyRef]} ∪ list_to_set scheduled_types)))) : gset string); [done|]. same_types.
Qed.

Lemma stock_as S h t test : stock S h → t ∈ S → (∀ p, made t p → test p = true) → ∃ p, plugin_as test t h = inl p.
Proof using Type. intros Hs Ht Hm. destruct (stock_get S h t Hs Ht) as (p & Hp & Hmp). exists p. unfold plugin_as. rewrite Hp. by rewrite Hm. Qed.

Lemma default_scheduler h : stock (list_to_set builtin_types) h → ∃ sc, buildSchedulerConfig [default_profile] h = inl sc.
Proof using Type.
  intros Hs. unfold buildSchedulerConfig. cbn [build_profiles].
  assert (∀ ref, ref ∈ sp_Plugins default_profile → sl_PluginRef ref ∈ (list_to_set builtin_types : gset string)) as Hrefs.
  { intros ref Href. unfold default_profile in Href. cbn in Href. rewrite !elem_of_cons, elem_of_nil in Href. destruct Href as [->|[->|[->|[->|[]]]]]; same_types. }
  destruct (build_profile_total h (sp_Plugins default_profile) NewSchedulerProfile) as [p Hp].
  - intros ref Href. destruct (stock_get _ _ _ Hs (Hrefs ref Href)) as (p & ? & _). by eexists.
  - cbn [NewSchedulerProfile pf_picker option_list app]. unfold pickers_of, default_profile. cbn [sp_Plugins omap list_omap sl_PluginRef].
    assert (∀ t, t ∈ (list_to_set builtin_types : gset string) → t ≠ MaxScorePickerType → (h !! t ≫= λ p, spl_picker (lp_sched p)) = None) as Hnone.
    { intros t Ht Hne. destruct (stock_get _ _ _ Hs Ht) as (p & -> & Hm). cbn. pose proof (md_picker _ _ Hm) as Hpk. rewrite bool_decide_eq_false_2 in Hpk by done.
      unfold is_picker in Hpk. apply bool_decide_eq_false in Hpk. destruct (spl_picker (lp_sched p)); [|done]. destruct Hpk. by eexists. }
    rewrite !Hnone by (done || same_types). destruct (h !! MaxScorePickerType ≫= _); simpl; lia.
  - rewrite Hp. cbn [ebind]. destruct (stock_get _ _ SingleProfileHandlerType Hs) as (ph & Hph & Hm); [same_types|].
    rewrite (handler_single h SingleProfileHandlerType ph); [|done|by rewrite (md_handler _ _ Hm)|].
    + rewrite (bool_decide_eq_false_2 (1 < _)); [rewrite andb_false_r; by eexists|]. rewrite map_size_insert_None, map_size_empty by apply lookup_empty. lia.
    + intros name' p' Hp' Hh. pose proof (st_made _ _ Hs _ _ Hp') as Hm'. rewrite (md_handler _ _ Hm') in Hh. by apply bool_decide_eq_true in Hh.
Qed.

Lemma default_weights h : stock (list_to_set builtin_types) h → ws_Weight <$> scorers_of h (sp_Plugins default_profile) = [of_int 2; of_int 2; of_int 3].
Proof using Type.
  intros Hs. assert (∀ t w, t ∈ default_scorers → t ∈ (list_to_set builtin_types : gset string) → ∃ sc,
    (h !! t ≫= λ p, (λ scorer, mkWeightedScorer scorer (default DefaultScorerWeight (Some w))) <$> spl_scorer (lp_sched p)) = Some (mkWeightedScorer sc w)) as Hsome.
  { intros t w Hin Ht. destruct (stock_get _ _ _ Hs Ht) as (p & -> & Hm). cbn. pose proof (md_scorer _ _ Hm) as Hsc. rewrite bool_decide_eq_true_2 in Hsc by done.
    unfold is_scorer in Hsc. apply bool_decide_eq_true in Hsc as [sc Hsc]. exists sc. by rewrite Hsc. }
  unfold scorers_of, default_profile. cbn [sp_Plugins omap list_omap sl_PluginRef sl_Weight].
  destruct (Hsome QueueScorerType (of_int 2)) as [s1 ->]; [same_types..|]. destruct (Hsome KvCacheUtilizationScorerType (of_int 2)) as [s2 ->]; [same_types..|].
  destruct (Hsome PrefixCacheScorerPluginType (of_int 3)) as [s3 ->]; [same_types..|].
  destruct (stock_get _ _ MaxScorePickerType Hs) as (p & -> & Hm); [same_types|]. cbn [mbind option_bind]. pose proof (md_scorer _ _ Hm) as Hsc.
  rewrite bool_decide_eq_false_2 in Hsc by same_types. unfold is_scorer in Hsc. apply bool_decide_eq_false in Hsc.
  destruct (spl_scorer (lp_sched p)); [destruct Hsc; by eexists|]. reflexivity.
Qed.
End default_config.


(** Factories that make what [made] asks for. *)
Definition sample_plugin (t name : string) : LoadedPlugin :=
  mkLoadedPlugin t name
    (mkSchedPlugin None (if bool_decide (t ∈ default_scorers) then Some (mkScorer (λ _ _, mret ∅)) else None) (if bool_decide (t = MaxScorePickerType) then Some (MaxScorePicker 1) else None))
    (bool_decide (t = SingleProfileHandlerType)) POther (bool_decide (t = DefaultUsageLimitPolicyRef)) (bool_decide (t = UtilizationDetectorType))
    (bool_decide (t = OpenAIParserType)) (bool_decide (t = MetricsDataSourceType)) (bool_decide (t = MetricsExtractorType)).

Definition sample_registry : gmap string FactoryFunc := list_to_map ((λ t, (t, λ name _ _, inl (sample_plugin t name))) <$> builtin_types).

#[export] Instance sample_registry_builtin : BuiltinPlugins sample_registry.
Proof.
  intros t Ht. exists (λ name _ _, inl (sample_plugin t name)). split.
  - unfold sample_registry. apply elem_of_list_to_map; [|apply list_elem_of_fmap; by exists t]. rewrite <- list_fmap_compose. apply (bool_decide_unpack _). by vm_compute.
  - intros h. exists (sample_plugin t t). split; [done|]. unfold sample_plugin. split; cbn; [done|done| | |done..]; unfold is_scorer, is_picker; cbn.
    + destruct (bool_decide (t ∈ default_scorers)); [apply bool_decide_eq_true_2; by eexists|apply bool_decide_eq_false_2; by intros [? ?]].
    + destruct (bool_decide (t = MaxScorePickerType)); [apply bool_decide_eq_true_2; by eexists|apply bool_decide_eq_false_2; by intros [? ?]].
Qed.


(** A configuration with one profile and no picker. *)
Definition custom_config : EndpointPickerConfig :=
  mkEPConfig [] [mkPluginSpec "q" QueueScorerType None; mkPluginSpec "kv" KvCacheUtilizationScorerType None]
    [mkSchedulingProfile "main" [mkSchedulingPlugin "q" (Some (of_int 5)); mkSchedulingPlugin "kv" None]] None None None None.

Definition load_sample (order' : nat → nat) (c : EndpointPickerConfig) : (LoaderConfig * Load) + GoError := InstantiateAndConfigure sample_registry ∅ (λ _, 0) order' c ∅.

Lemma custom_loads : match load_sample (λ _, 0) custom_config with inl _ => true | inr _ => false end = true.
Proof. vm_compute. reflexivity. Qed.


(** With two pickers, the one that a profile without a picker gets depends on the order of a loop
    over a map. *)
Definition two_pickers (profiles : list SchedulingProfile) : EndpointPickerConfig :=
  mkEPConfig [] [mkPluginSpec "p1" MaxScorePickerType None; mkPluginSpec "p2" MaxScorePickerType None] profiles None None None None.
Definition effective_refs (r : (LoaderConfig * Load) + GoError) : option (list (list string)) :=
  match r with inl (_, s) => Some ((λ prof, sl_PluginRef <$> sp_Plugins prof) <$> ec_SchedulingProfiles (ld_cfg s)) | inr _ => None end.

Lemma picker_depends_on_order :
  effective_refs (load_sample (λ _, 0) (two_pickers [mkSchedulingProfile "main" []])) ≠ effective_refs (load_sample (λ _, 1) (two_pickers [mkSchedulingProfile "main" []])).
Proof. vm_compute. discriminate. Qed.

(** Without profiles, all plugins go into one, and two pickers are refused. *)
Lemma two_pickers_refused : effective_refs (load_sample (λ _, 0) (two_pickers [])) = None.
Proof. vm_compute. reflexivity. Qed.

(** A default plugin replaces one that the user has given its name. *)
Definition taken_name : EndpointPickerConfig :=
  mkEPConfig [] [mkPluginSpec MaxScorePickerType QueueScorerType None] [mkSchedulingProfile "main" [mkSchedulingPlugin MaxScorePickerType (Some (of_int 2))]] None None None None.

Lemma default_replaces_plugin :
  match load_sample (λ _, 0) taken_name with
  | inl (conf, s) => (lp_Type <$> ld_handle s !! MaxScorePickerType, (λ p, length (pf_scorers p)) <$> sg_profiles (lc_SchedulerConfig conf) !! "main"%string)
  | inr _ => (None, None)
  end = (Some MaxScorePickerType, Some 0).
Proof. vm_compute. reflexivity. Qed.
