(* ===== verification/JsonTyped.v ===== *)
(** * JSON decoding into Go types: [encoding/json]

    [json.Unmarshal] into a struct goes through the members of an object in the order of the
    text: a member is decoded into the field whose name is its key, or else whose name differs
    from it only in case; a field may be decoded more than once, each time on top of what is
    there, and members without a field are skipped. A value that does not fit its field is an
    error, but the decoder goes on. So typed decoding starts from documents, which keep the
    order of the members, repeated keys and the digits of numbers. Decoding a document into
    [any] is what [JsonDecode] does at once. *)

From stdpp Require Import prelude strings list pretty.
From Stdlib Require Import ZArith Ascii Lia SpecFloat Sorted.
From S2P Require Import Prelude Float64 SchedTypes Json JsonDecode.

(** ** Documents *)

(** The parts of a number; no exponent is [None]. *)
Record NumLit := mkNumLit { nl_neg : bool; nl_int : list Z; nl_frac : list Z; nl_exp : option Z }.

Inductive Doc :=
  | DNull
  | DBool (b : bool)
  | DNumber (n : NumLit)
  | DString (s : string)
  | DArray (l : list Doc)
  | DObject (fields : list (string * Doc)).

Definition number_lit (s : string) : option (NumLit * string) :=
  let '(neg, s1) := number_sign s in
  '(int, s2) ← integer_part s1;
  '(frac, s3) ← fraction_part s2;
  '(exp, rest) ← exponent_part s3;
  Some (mkNumLit neg int frac (if bool_decide (rest = s3) then None else Some exp), rest).

Definition doc_scalar (s : string) : option (Doc * string) :=
  match first_is (ascii_of_nat 34) s with
  | Some s1 => '(t, rest) ← string_body s1; Some (DString t, rest)
  | None =>
      match literal s with
      | Some (JBool b, rest) => Some (DBool b, rest)
      | Some (_, rest) => Some (DNull, rest)
      | None => '(n, rest) ← number_lit s; Some (DNumber n, rest)
      end
  end.

Fixpoint doc (fuel depth : nat) (s : string) : option (Doc * string) :=
  match fuel with
  | O => None
  | S fuel' =>
      let s := skip_ws s in
      match first_is "{"%char s, first_is "["%char s, depth with
      | Some s1, _, S depth' =>
          match first_is "}"%char (skip_ws s1) with
          | Some rest => Some (DObject [], rest)
          | None => doc_members fuel' depth' [] s1
          end
      | None, Some s1, S depth' =>
          match first_is "]"%char (skip_ws s1) with
          | Some rest => Some (DArray [], rest)
          | None => doc_elements fuel' depth' [] s1
          end
      | None, None, _ => doc_scalar s
      | _, _, O => None
      end
  end
with doc_members (fuel depth : nat) (acc : list (string * Doc)) (s : string) : option (Doc * string) :=
  match fuel with
  | O => None
  | S fuel' =>
      s1 ← first_is (ascii_of_nat 34) (skip_ws s);
      '(k, s2) ← string_body s1;
      s3 ← first_is ":"%char (skip_ws s2);
      '(v, s4) ← doc fuel' depth s3;
      let acc := acc ++ [(k, v)] in
      match first_is ","%char (skip_ws s4) with
      | Some s5 => doc_members fuel' depth acc s5
      | None => rest ← first_is "}"%char (skip_ws s4); Some (DObject acc, rest)
      end
  end
with doc_elements (fuel depth : nat) (acc : list Doc) (s : string) : option (Doc * string) :=
  match fuel with
  | O => None
  | S fuel' =>
      '(v, s1) ← doc fuel' depth s;
      let acc := acc ++ [v] in
      match first_is ","%char (skip_ws s1) with
      | Some s2 => doc_elements fuel' depth acc s2
      | None => rest ← first_is "]"%char (skip_ws s1); Some (DArray acc, rest)
      end
  end.

(** The check that comes before decoding, with the document it reads. *)
Definition document (s : string) : option Doc :=
  '(d, rest) ← doc (S (String.length s)) maxNestingDepth s;
  if bool_decide (skip_ws rest = ""%string) then Some d else None.

(** ** Decoding into [any] *)

Definition lit_float (n : NumLit) : option float64 :=
  ParseFloat (nl_neg n) (digits_value (nl_int n ++ nl_frac n)) (default 0 (nl_exp n) - Z.of_nat (length (nl_frac n)))%Z
    (length (nl_int n ++ nl_frac n)).

(** [strconv.ParseInt] takes neither fraction nor exponent. *)
Definition lit_int (n : NumLit) : option Z :=
  let z := (if nl_neg n then - digits_value (nl_int n) else digits_value (nl_int n))%Z in
  if bool_decide (nl_frac n = [] ∧ nl_exp n = None ∧ - Int.two63 ≤ z < Int.two63)%Z then Some z else None.

(** A number that is too large is nil, and an error. *)
Fixpoint to_any (d : Doc) : JSON :=
  match d with
  | DNull => JNull
  | DBool b => JBool b
  | DNumber n => match lit_float n with Some f => JNumber f | None => JNull end
  | DString s => JString s
  | DArray l => JArray ((fix go (l : list Doc) := match l with [] => [] | d :: l' => to_any d :: go l' end) l)
  | DObject fields =>
      JObject ((fix go (acc : JsonObject) (l : list (string * Doc)) :=
                  match l with [] => acc | (k, d) :: l' => go (obj_insert k (to_any d) acc) l' end) [] fields)
  end.

Fixpoint any_ok (d : Doc) : bool :=
  match d with
  | DNumber n => bool_decide (is_Some (lit_float n))
  | DArray l => (fix go (l : list Doc) := match l with [] => true | d :: l' => any_ok d && go l' end) l
  | DObject fields => (fix go (l : list (string * Doc)) := match l with [] => true | (_, d) :: l' => any_ok d && go l' end) fields
  | _ => true
  end.

(** The members of an object put into a map. *)
Definition into_map (acc : JsonObject) (fields : list (string * Doc)) : JsonObject :=
  foldl (λ m f, obj_insert f.1 (to_any f.2) m) acc fields.
Definition members_ok (fields : list (string * Doc)) : bool := forallb (λ f, any_ok f.2) fields.

Lemma to_any_array l : to_any (DArray l) = JArray (to_any <$> l).
Proof. reflexivity. Qed.

Lemma to_any_object fields : to_any (DObject fields) = JObject (into_map [] fields).
Proof.
  unfold into_map. cbn [to_any]. f_equal. generalize (@nil (string * JSON)) as acc. induction fields as [|[k d] fields IH]; intros acc; [done|]. apply IH.
Qed.

Lemma any_ok_array l : any_ok (DArray l) = forallb any_ok l.
Proof. reflexivity. Qed.

Lemma any_ok_object fields : any_ok (DObject fields) = members_ok fields.
Proof. cbn [any_ok]. induction fields as [|[k d] fields IH]; [done|]. cbn [members_ok forallb snd]. by rewrite IH. Qed.

(** ** Decoding at once and through documents are the same *)

Definition read_any (r : option (Doc * string)) : option (JSON * string) :=
  '(d, rest) ← r; if any_ok d then Some (to_any d, rest) else None.

Lemma exponent_absent s e rest : exponent_part s = Some (e, rest) → rest = s → e = 0%Z.
Proof.
  unfold exponent_part. destruct s as [|c s]; [by intros [= <- _]|]. case_bool_decide; [|by intros [= <- _]].
  destruct (exponent_sign s) as [neg s'] eqn:Es. intros ([ds r] & Hd & [= _ <-])%bind_Some ->. exfalso.
  assert (String.length s' ≤ String.length s) as H1.
  { unfold exponent_sign in Es. destruct s as [|c' s]; [by injection Es as _ <-|]. repeat case_bool_decide; injection Es as _ <-; simpl; lia. }
  assert (∀ t, String.length (take_digits t).2 ≤ String.length t) as Ht.
  { induction t as [|c' t IH]; [done|]. cbn [take_digits]. destruct (digit c'); [|done]. destruct (take_digits t); simpl in *; lia. }
  unfold some_digits in Hd. specialize (Ht s'). destruct (take_digits s') as [[|] r]; [done|]. injection Hd as _ ->. simpl in *. lia.
Qed.

Lemma number_by_lit s : number s = ('(n, rest) ← number_lit s; f ← lit_float n; Some (f, rest)).
Proof.
  unfold number, number_lit. destruct (number_sign s) as [neg s1]. destruct (integer_part s1) as [[int s2]|]; [|done]. cbn [mbind option_bind].
  destruct (fraction_part s2) as [[frac s3]|]; [|done]. cbn [mbind option_bind]. destruct (exponent_part s3) as [[e rest]|] eqn:E; [|done]. cbn [mbind option_bind].
  unfold lit_float. cbn [nl_neg nl_int nl_frac nl_exp]. case_bool_decide as Hr; [|done]. by rewrite (exponent_absent _ _ _ E Hr).
Qed.

Lemma scalar_by_doc s : scalar s = read_any (doc_scalar s).
Proof.
  unfold scalar, doc_scalar. destruct (first_is _ s) as [s1|]; [by destruct (string_body s1) as [[t rest]|]|].
  destruct (literal s) as [[j rest]|] eqn:E.
  - unfold literal in E. destruct (strip_prefix "null" s); [by injection E as <- <-|]. destruct (strip_prefix "true" s); [by injection E as <- <-|].
    by apply bind_Some in E as (r & _ & [= <- <-]).
  - rewrite number_by_lit. destruct (number_lit s) as [[n rest]|]; [|done]. cbn [mbind option_bind read_any any_ok to_any].
    destruct (lit_float n); [by rewrite bool_decide_eq_true_2 by done|by rewrite bool_decide_eq_false_2 by (by intros [? ?])].
Qed.

Lemma elements_extend fuel : ∀ depth acc s d rest, doc_elements fuel depth acc s = Some (d, rest) → ∃ l, d = DArray (acc ++ l).
Proof.
  induction fuel as [|fuel IH]; [done|]. intros depth acc s d rest. cbn [doc_elements]. intros ([v s1] & _ & H)%bind_Some.
  destruct (first_is _ _); [apply IH in H as [l ->]; rewrite <- app_assoc; by eexists|].
  apply bind_Some in H as (? & _ & [= <- _]). by eexists.
Qed.

Lemma members_extend fuel : ∀ depth acc s d rest, doc_members fuel depth acc s = Some (d, rest) → ∃ l, d = DObject (acc ++ l).
Proof.
  induction fuel as [|fuel IH]; [done|]. intros depth acc s d rest. cbn [doc_members].
  intros (s1 & _ & ([k s2] & _ & (s3 & _ & ([v s4] & _ & H)%bind_Some)%bind_Some)%bind_Some)%bind_Some.
  destruct (first_is ","%char _); [apply IH in H as [l ->]; rewrite <- app_assoc; by eexists|].
  apply bind_Some in H as (? & _ & [= <- _]). by eexists.
Qed.

Lemma bad_elements fuel depth acc s : forallb any_ok acc = false → read_any (doc_elements fuel depth acc s) = None.
Proof.
  intros Hbad. destruct (doc_elements fuel depth acc s) as [[d rest]|] eqn:E; [|done]. apply elements_extend in E as [l ->].
  cbn [read_any mbind option_bind]. by rewrite any_ok_array, forallb_app, Hbad.
Qed.

Lemma bad_members fuel depth acc s : members_ok acc = false → read_any (doc_members fuel depth acc s) = None.
Proof.
  intros Hbad. destruct (doc_members fuel depth acc s) as [[d rest]|] eqn:E; [|done]. apply members_extend in E as [l ->].
  cbn [read_any mbind option_bind]. rewrite any_ok_object. unfold members_ok in *. by rewrite forallb_app, Hbad.
Qed.

Record reads (fuel : nat) : Prop := mkReads {
  rd_value : ∀ depth s, value fuel depth s = read_any (doc fuel depth s);
  rd_members : ∀ depth acc s, members_ok acc = true → members fuel depth (into_map [] acc) s = read_any (doc_members fuel depth acc s);
  rd_elements : ∀ depth acc s, forallb any_ok acc = true → elements fuel depth (to_any <$> acc) s = read_any (doc_elements fuel depth acc s)
}.

Lemma reads_members fuel depth acc s : reads fuel → members_ok acc = true →
  members (S fuel) depth (into_map [] acc) s = read_any (doc_members (S fuel) depth acc s).
Proof.
  intros [Hv Hm _] Hok. cbn [members doc_members]. destruct (first_is _ (skip_ws s)) as [s1|]; [|done]. cbn [mbind option_bind].
  destruct (string_body s1) as [[k s2]|]; [|done]. cbn [mbind option_bind]. destruct (first_is _ (skip_ws s2)) as [s3|]; [|done]. cbn [mbind option_bind].
  rewrite Hv. destruct (doc fuel depth s3) as [[v s4]|]; [|done]. cbn [read_any mbind option_bind].
  assert (members_ok (acc ++ [(k, v)]) = any_ok v) as Hacc by (unfold members_ok in *; rewrite forallb_app, Hok; simpl; by rewrite andb_true_r).
  destruct (any_ok v).
  - cbn [mbind option_bind]. assert (obj_insert k (to_any v) (into_map [] acc) = into_map [] (acc ++ [(k, v)])) as -> by (unfold into_map; by rewrite foldl_app).
    destruct (first_is ","%char (skip_ws s4)); [by apply Hm|]. destruct (first_is _ (skip_ws s4)); [|done]. cbn [mbind option_bind].
    by rewrite any_ok_object, Hacc, to_any_object.
  - cbn [mbind option_bind]. destruct (first_is ","%char (skip_ws s4)) as [s5|]; [by rewrite bad_members|].
    destruct (first_is _ (skip_ws s4)); [|done]. cbn [mbind option_bind]. by rewrite any_ok_object, Hacc.
Qed.

Lemma reads_elements fuel depth acc s : reads fuel → forallb any_ok acc = true →
  elements (S fuel) depth (to_any <$> acc) s = read_any (doc_elements (S fuel) depth acc s).
Proof.
  intros [Hv _ He] Hok. cbn [elements doc_elements]. rewrite Hv. destruct (doc fuel depth s) as [[v s1]|]; [|done]. cbn [read_any mbind option_bind].
  assert (forallb any_ok (acc ++ [v]) = any_ok v) as Hacc by (rewrite forallb_app, Hok; simpl; by rewrite andb_true_r).
  destruct (any_ok v).
  - cbn [mbind option_bind]. change [to_any v] with (to_any <$> [v]). rewrite <- fmap_app.
    destruct (first_is ","%char (skip_ws s1)); [by apply He|]. destruct (first_is _ (skip_ws s1)); [|done]. cbn [mbind option_bind].
    by rewrite any_ok_array, Hacc, to_any_array.
  - cbn [mbind option_bind]. destruct (first_is ","%char (skip_ws s1)) as [s5|]; [by rewrite bad_elements|].
    destruct (first_is _ (skip_ws s1)); [|done]. cbn [mbind option_bind]. by rewrite any_ok_array, Hacc.
Qed.

Lemma reads_all fuel : reads fuel.
Proof.
  induction fuel as [|fuel IH]; [done|]. split; [|intros **; by apply reads_members|intros **; by apply reads_elements].
  intros depth s. cbn [value doc]. destruct (first_is "{"%char (skip_ws s)) as [s1|], (first_is "["%char (skip_ws s)) as [s2|], depth as [|depth]; try done.
  1,2: case_match; [done|]; by apply (rd_members _ IH depth []).
  - case_match; [done|]. by apply (rd_elements _ IH depth []).
  - apply scalar_by_doc.
  - apply scalar_by_doc.
Qed.

(** [json.Unmarshal] into [any] reads the document and converts it. *)
Lemma Unmarshal_by_document s : Unmarshal s = (d ← document s; if any_ok d then Some (to_any d) else None).
Proof.
  unfold Unmarshal, document. rewrite (rd_value _ (reads_all _)). destruct (doc _ _ _) as [[d rest]|]; [|done]. cbn [read_any mbind option_bind].
  destruct (any_ok d) eqn:Hok; cbn [mbind option_bind]; case_bool_decide; cbn [mbind option_bind]; rewrite ?Hok; done.
Qed.

(** ** Decoding into Go types *)

(** Decoding on top of a value; [false] when something does not fit. *)
Definition Decode (A : Type) : Type := A → Doc → A * bool.

Definition dec_string : Decode string := λ s d,
  match d with DString t => (t, true) | DNull => (s, true) | _ => (s, false) end.

Definition dec_bool : Decode bool := λ b d,
  match d with DBool c => (c, true) | DNull => (b, true) | _ => (b, false) end.

Definition dec_int : Decode Z := λ i d,
  match d with
  | DNumber n => match lit_int n with Some z => (z, true) | None => (i, false) end
  | DNull => (i, true)
  | _ => (i, false)
  end.

Definition dec_any : Decode JSON := λ _ d, (to_any d, any_ok d).

(** [[]any]; the nil slice is the empty one. *)
Definition dec_anys : Decode (list JSON) := λ l d,
  match d with DArray ds => (to_any <$> ds, forallb any_ok ds) | DNull => ([], true) | _ => (l, false) end.

(** [map[string]any]; the nil map is [None]. *)
Definition dec_map : Decode (option JsonObject) := λ m d,
  match d with
  | DObject fields => (Some (into_map (default [] m) fields), members_ok fields)
  | DNull => (None, true)
  | _ => (m, false)
  end.

(** A pointer is set before what it points to is decoded. *)
Definition dec_pointer {A} (zero : A) (dec : Decode A) : Decode (option A) := λ p d,
  match d with
  | DNull => (None, true)
  | _ => let '(a, ok) := dec (default zero p) d in (Some a, ok)
  end.

(** A slice with what its array holds behind its end: elements are decoded on top of those that
    are there. *)
Definition dec_slice {A} (zero : A) (dec : Decode A) : Decode (list A * list A) := λ sl d,
  match d with
  | DNull | DArray [] => (([], []), true)
  | DArray ds =>
      let old := sl.1 ++ sl.2 in
      let rs := imap (λ i d, dec (default zero (old !! i)) d) ds in
      ((rs.*1, drop (length ds) old), forallb snd rs)
  | _ => (sl, false)
  end.

(** [foldName], for comparing with names in ASCII: two letters outside it fold into it. *)
Definition upper_ascii (c : ascii) : ascii :=
  let n := nat_of_ascii c in if bool_decide (97 ≤ n ≤ 122) then ascii_of_nat (n - 32) else c.

Fixpoint foldName (s : string) : string :=
  match s with
  | EmptyString => EmptyString
  | String c s1 =>
      match s1 with
      | String c2 s2 =>
          if bool_decide (nat_of_ascii c = 197 ∧ nat_of_ascii c2 = 191) then String "S"%char (foldName s2)
          else
            match s2 with
            | String c3 s3 =>
                if bool_decide (nat_of_ascii c = 226 ∧ nat_of_ascii c2 = 132 ∧ nat_of_ascii c3 = 170) then String "K"%char (foldName s3)
                else String (upper_ascii c) (foldName s1)
            | EmptyString => String (upper_ascii c) (foldName s1)
            end
      | EmptyString => String (upper_ascii c) EmptyString
      end
  end.

(** The fields of a struct by name. *)
Definition Fields (A : Type) : Type := list (string * Decode A).

Definition find_field {A} (fields : Fields A) (key : string) : option (Decode A) :=
  match list_find (λ f, f.1 = key) fields with
  | Some (_, f) => Some f.2
  | None => (λ r : nat * (string * Decode A), r.2.2) <$> list_find (λ f, foldName f.1 = foldName key) fields
  end.

Definition dec_member {A} (fields : Fields A) (acc : A * bool) (m : string * Doc) : A * bool :=
  match find_field fields m.1 with
  | Some dec => let '(a, ok) := dec acc.1 m.2 in (a, acc.2 && ok)
  | None => acc
  end.

Definition dec_struct {A} (fields : Fields A) : Decode A := λ a d,
  match d with
  | DObject members => foldl (dec_member fields) (a, true) members
  | DNull => (a, true)
  | _ => (a, false)
  end.

(** The decoder of a part of a value. *)
Definition part {A B} (get : A → B) (set : B → A → A) (dec : Decode B) : Decode A := λ a d,
  let '(b, ok) := dec (get a) d in (set b a, ok).

(** [json.Unmarshal] into a variable that holds [a]: after a syntax error it still does. *)
Definition UnmarshalInto {A} (dec : Decode A) (a : A) (s : string) : A * bool :=
  match document s with Some d => dec a d | None => (a, false) end.

(** ** The document of an encoded value *)

Lemma number_lit_app t n r rest : stops rest = true → number_lit t = Some (n, r) → number_lit (t +:+ rest) = Some (n, r +:+ rest).
Proof.
  intros Hs. unfold number_lit. destruct t as [|c t]; [done|].
  assert (number_sign (String c t +:+ rest) = ((number_sign (String c t)).1, (number_sign (String c t)).2 +:+ rest)) as ->
    by (rewrite app_cons; cbn [number_sign]; by case_bool_decide).
  destruct (number_sign (String c t)) as [neg s1]. simpl.
  destruct (integer_part s1) as [[int s2]|] eqn:H1; [|done]. rewrite (integer_part_app _ _ _ _ Hs H1). simpl.
  destruct (fraction_part s2) as [[frac s3]|] eqn:H2; [|done]. rewrite (fraction_part_app _ _ _ _ Hs H2). simpl.
  destruct (exponent_part s3) as [[e s4]|] eqn:H3; [|done]. rewrite (exponent_part_app _ _ _ _ Hs H3). simpl.
  intros [= <- <-]. do 3 f_equal. destruct (decide (s4 = s3)) as [->|Hne]; [by rewrite !bool_decide_eq_true_2|].
  rewrite !bool_decide_eq_false_2; [done|done|]. by intros ?%string_app_inj_r.
Qed.

Lemma number_has_lit t f : number t = Some (f, ""%string) → ∃ n, number_lit t = Some (n, ""%string) ∧ lit_float n = Some f.
Proof.
  rewrite number_by_lit. intros ([n rest] & Hn & (f' & Hf & [= -> ->])%bind_Some)%bind_Some. by exists n.
Qed.

Definition lit_of (t : string) : NumLit := match number_lit t with Some (n, _) => n | None => mkNumLit false [] [] None end.

Section documents.
Context (FormatFloat : float64 → string).

#[local] Abbreviation Marshal := (JSON_Marshal FormatFloat).

Fixpoint doc_of (j : JSON) : Doc :=
  match j with
  | JNull => DNull
  | JBool b => DBool b
  | JNumber f => DNumber (lit_of (FormatFloat f))
  | JInt z => DNumber (lit_of (pretty z))
  | JString s => DString s
  | JArray l => DArray ((fix go (l : list JSON) := match l with [] => [] | j :: l' => doc_of j :: go l' end) l)
  | JObject m => DObject ((fix go (l : JsonObject) := match l with [] => [] | (k, j) :: l' => (k, doc_of j) :: go l' end) m)
  end.

Definition docs_of (m : JsonObject) : list (string * Doc) := (λ f, (f.1, doc_of f.2)) <$> m.

Lemma doc_of_array l : doc_of (JArray l) = DArray (doc_of <$> l).
Proof using Type. reflexivity. Qed.

Lemma doc_of_object m : doc_of (JObject m) = DObject (docs_of m).
Proof using Type. simpl. f_equal. induction m as [|[k j] m IH]; [done|]. cbn. by rewrite IH. Qed.

Lemma text_array l : text_ok FormatFloat (JArray l) ↔ Forall (text_ok FormatFloat) l.
Proof using Type. apply all_array. Qed.

Lemma text_object m : text_ok FormatFloat (JObject m) ↔ Forall (text_ok FormatFloat) m.*2.
Proof using Type. unfold text_ok. rewrite all_object. naive_solver. Qed.

Lemma doc_scalar_at fuel depth s : skip_ws s = s → first_is "{"%char s = None → first_is "["%char s = None → doc (S fuel) depth s = doc_scalar s.
Proof using Type. intros Hs H1 H2. cbn [doc]. by rewrite Hs, H1, H2. Qed.

Lemma doc_number fuel depth t f rest : number t = Some (f, ""%string) → stops rest = true →
  doc (S fuel) depth (t +:+ rest) = Some (DNumber (lit_of t), rest).
Proof using Type.
  intros Hf Hs. destruct (number_has_lit _ _ Hf) as (n & Hn & _). unfold lit_of. rewrite Hn.
  pose proof (number_lit_app _ _ _ _ Hs Hn) as Happ. apply number_start in Hf as (c & s & -> & Hc).
  apply num_start_char in Hc as (Hw & _ & _ & H1 & H2 & H3 & H4 & H5 & H6). rewrite app_cons in *.
  assert (∀ a p, a ≠ c → strip_prefix (String a p) (String c (s +:+ rest)) = None) as Hno
    by (intros a p Ha; cbn [strip_prefix]; by rewrite bool_decide_eq_false_2).
  rewrite doc_scalar_at; [|cbn [skip_ws]; by rewrite Hw|by apply Hno..].
  unfold doc_scalar, literal, first_is. rewrite !Hno by done. rewrite Happ. done.
Qed.

Lemma doc_string fuel depth s rest : doc (S fuel) depth (MarshalString s +:+ rest) = Some (DString s, rest).
Proof using Type.
  unfold MarshalString. rewrite !app_assoc_string. unfold dquote, char. rewrite app_cons, app_empty. rewrite doc_scalar_at by done.
  unfold doc_scalar, first_is. cbn [strip_prefix]. rewrite bool_decide_eq_true_2 by done.
  change (String (Ascii.ascii_of_nat 34) "" +:+ rest) with (dquote +:+ rest). by rewrite string_body_escape.
Qed.

Lemma doc_array fuel depth s : doc (S fuel) (S depth) ("[" +:+ s) =
  match first_is "]"%char (skip_ws s) with Some rest => Some (DArray [], rest) | None => doc_elements fuel depth [] s end.
Proof using Type. reflexivity. Qed.

Lemma doc_object fuel depth s : doc (S fuel) (S depth) ("{" +:+ s) =
  match first_is "}"%char (skip_ws s) with Some rest => Some (DObject [], rest) | None => doc_members fuel depth [] s end.
Proof using Type. reflexivity. Qed.

Record documents (fuel : nat) : Prop := mkDocuments {
  dm_value : ∀ j depth rest, json_size j ≤ fuel → json_depth j ≤ depth → text_ok FormatFloat j → stops rest = true →
    doc fuel depth (Marshal j +:+ rest) = Some (doc_of j, rest);
  dm_elements : ∀ l acc depth rest, l ≠ [] → elements_size l ≤ fuel → Forall (λ j, json_depth j ≤ depth) l → Forall (text_ok FormatFloat) l →
    doc_elements fuel depth acc (strings_Join (Marshal <$> l) "," +:+ ("]" +:+ rest)) = Some (DArray (acc ++ (doc_of <$> l)), rest);
  dm_members : ∀ m acc depth rest, m ≠ [] → elements_size m.*2 ≤ fuel → Forall (λ j, json_depth j ≤ depth) m.*2 →
    Forall (text_ok FormatFloat) m.*2 →
    doc_members fuel depth acc (strings_Join (field_text FormatFloat <$> m) "," +:+ ("}" +:+ rest)) = Some (DObject (acc ++ docs_of m), rest)
}.

Lemma documents_value fuel j depth rest : documents fuel → json_size j ≤ S fuel → json_depth j ≤ depth → text_ok FormatFloat j → stops rest = true →
  doc (S fuel) depth (Marshal j +:+ rest) = Some (doc_of j, rest).
Proof using Type.
  intros [_ He Hm] Hsz Hd Hwf Hs. destruct j as [|[]|f|z|s|l|m]; [by rewrite doc_scalar_at..|by eapply doc_number|by eapply doc_number|apply doc_string| |].
  - rewrite size_array in Hsz. destruct depth as [|depth]; [simpl in Hd; lia|]. rewrite depth_array in Hd. rewrite text_array in Hwf.
    rewrite marshal_array, !app_assoc_string, doc_array. destruct l as [|j l]; [done|].
    assert (opens (strings_Join (Marshal <$> j :: l) ",")) as Ho by (apply join_opens, marshal_opens; by apply Forall_cons in Hwf as [? _]).
    destruct (opens_not_closed _ ("]" +:+ rest) Ho) as [Hc _].
    rewrite (opens_skip _ _ Ho), Hc. rewrite doc_of_array. apply (He (j :: l) []); [done|lia|done..].
  - rewrite size_object in Hsz. destruct depth as [|depth]; [simpl in Hd; lia|]. rewrite depth_object in Hd. rewrite text_object in Hwf.
    rewrite marshal_object, !app_assoc_string, doc_object. destruct m as [|f m]; [done|].
    assert (opens (strings_Join (field_text FormatFloat <$> f :: m) ",")) as Ho by apply join_opens, field_opens.
    destruct (opens_not_closed _ ("}" +:+ rest) Ho) as [_ Hc].
    rewrite (opens_skip _ _ Ho), Hc. rewrite doc_of_object. apply (Hm (f :: m) []); [done|lia|done..].
Qed.

Lemma documents_elements fuel l acc depth rest : documents fuel → l ≠ [] → elements_size l ≤ S fuel →
  Forall (λ j, json_depth j ≤ depth) l → Forall (text_ok FormatFloat) l →
  doc_elements (S fuel) depth acc (strings_Join (Marshal <$> l) "," +:+ ("]" +:+ rest)) = Some (DArray (acc ++ (doc_of <$> l)), rest).
Proof using Type.
  intros [Hv He _] Hne Hsz Hd Hw. destruct l as [|j l]; [done|]. apply Forall_cons in Hd as [Hd Hds]. apply Forall_cons in Hw as [Hw Hws].
  cbn [elements_size foldr] in Hsz. fold (elements_size l) in Hsz. cbn [doc_elements fmap list_fmap]. destruct l as [|j2 l].
  - change (strings_Join _ ",") with (Marshal j). rewrite Hv by (done || lia). done.
  - rewrite join_cons by done. rewrite !app_assoc_string. rewrite Hv by (done || lia). cbn [mbind option_bind].
    change (skip_ws ("," +:+ ?s)) with (String ","%char s). rewrite first_is_cons. rewrite He by (done || lia). by rewrite <- app_assoc.
Qed.

Lemma documents_members fuel m acc depth rest : documents fuel → m ≠ [] → elements_size m.*2 ≤ S fuel →
  Forall (λ j, json_depth j ≤ depth) m.*2 → Forall (text_ok FormatFloat) m.*2 →
  doc_members (S fuel) depth acc (strings_Join (field_text FormatFloat <$> m) "," +:+ ("}" +:+ rest)) = Some (DObject (acc ++ docs_of m), rest).
Proof using Type.
  intros [Hv _ Hm] Hne Hsz Hd Hw. destruct m as [|[k j] m]; [done|]. cbn [fmap list_fmap snd] in *. apply Forall_cons in Hd as [Hd Hds]. apply Forall_cons in Hw as [Hw Hws].
  cbn [elements_size foldr] in Hsz. fold (elements_size m.*2) in Hsz.
  assert (∀ t, stops t = true → doc_members (S fuel) depth acc (field_text FormatFloat (k, j) +:+ t) =
    match first_is ","%char (skip_ws t) with
    | Some s5 => doc_members fuel depth (acc ++ [(k, doc_of j)]) s5
    | None => rest ← first_is "}"%char (skip_ws t); Some (DObject (acc ++ [(k, doc_of j)]), rest)
    end) as Hfield.
  { intros t Ht. unfold field_text, MarshalString. cbn [fst snd doc_members]. rewrite !app_assoc_string.
    change (skip_ws (dquote +:+ ?s)) with (String (ascii_of_nat 34) s). rewrite first_is_cons. cbn [mbind option_bind].
    rewrite string_body_escape. cbn [mbind option_bind]. change (skip_ws (":" +:+ ?s)) with (String ":"%char s). rewrite first_is_cons. cbn [mbind option_bind].
    rewrite Hv by (done || lia). done. }
  destruct m as [|f2 m].
  - change (strings_Join _ ",") with (field_text FormatFloat (k, j)). by rewrite Hfield.
  - rewrite join_cons by done. rewrite !app_assoc_string, Hfield by done.
    change (skip_ws ("," +:+ ?s)) with (String ","%char s). rewrite first_is_cons. rewrite Hm; [by rewrite <- app_assoc|done|lia|done..].
Qed.

Lemma documents_all fuel : documents fuel.
Proof using Type.
  induction fuel as [|fuel IH].
  - split.
    + intros [] **; simpl in *; lia.
    + intros [|j l] **; [done|simpl in *; lia].
    + intros [|[k j] l] **; [done|simpl in *; lia].
  - split; [intros **; by apply documents_value|intros **; by apply documents_elements|intros **; by apply documents_members].
Qed.

(** What is encoded is read back, in the order in which it was written. *)
Lemma document_Marshal j : text_ok FormatFloat j → json_depth j ≤ maxNestingDepth → document (Marshal j) = Some (doc_of j).
Proof using Type.
  intros Hw Hd. unfold document. rewrite <- (app_empty_r (Marshal j)) at 2.
  rewrite (dm_value _ (documents_all _)); [done| |done|done|done]. pose proof (size_length _ j Hw). lia.
Qed.

Lemma into_map_sorted acc fields : obj_sorted (acc ++ ((λ f, (f.1, to_any f.2)) <$> fields)) →
  into_map acc fields = acc ++ ((λ f, (f.1, to_any f.2)) <$> fields).
Proof using Type.
  revert acc. induction fields as [|[k d] fields IH]; intros acc; cbn [fmap list_fmap fst snd into_map foldl]; [by rewrite app_nil_r|]. intros Hs.
  rewrite (obj_insert_last _ _ _ _ Hs). fold (into_map (acc ++ [(k, to_any d)]) fields). rewrite IH; by rewrite <- app_assoc.
Qed.

(** Converted, it is the value. *)
Lemma doc_of_converts j : json_wf FormatFloat j → to_any (doc_of j) = decoded j ∧ any_ok (doc_of j) = true.
Proof using Type.
  assert (∀ t f, number t = Some (f, ""%string) → lit_float (lit_of t) = Some f) as Hlit.
  { intros t f (n & Hn & Hf)%number_has_lit. unfold lit_of. by rewrite Hn. }
  induction j as [| |f|z| |l IH|m IH] using json_ind; try done.
  - intros Hf%Hlit. cbn [doc_of to_any any_ok decoded]. rewrite Hf. split; [done|]. by apply bool_decide_eq_true_2.
  - intros Hf%Hlit. cbn [doc_of to_any any_ok decoded]. rewrite Hf. split; [done|]. by apply bool_decide_eq_true_2.
  - rewrite wf_array, doc_of_array, to_any_array, any_ok_array, decoded_array. intros Hl. rewrite Forall_forall in IH, Hl. split.
    + f_equal. rewrite <- list_fmap_compose. apply list_fmap_ext. intros i j Hj%list_elem_of_lookup_2. simpl. by apply IH; [|apply Hl].
    + apply Is_true_true, forallb_True, Forall_fmap, Forall_forall. intros j Hj. simpl. by rewrite (proj2 (IH j Hj (Hl j Hj))).
  - rewrite wf_object, doc_of_object, to_any_object, any_ok_object, decoded_object. intros [Hs Hl]. rewrite Forall_fmap in IH, Hl. rewrite Forall_forall in IH, Hl. split.
    + f_equal. assert ((λ f, (f.1, to_any f.2)) <$> docs_of m = decoded_fields m) as Heq.
      { unfold docs_of, decoded_fields. rewrite <- list_fmap_compose. apply list_fmap_ext. intros i f Hf%list_elem_of_lookup_2. simpl. f_equal. by apply IH; [|apply Hl]. }
      rewrite (into_map_sorted []); rewrite Heq; [done|]. by apply decoded_sorted.
    + apply Is_true_true, forallb_True, Forall_fmap, Forall_forall. intros f Hf. simpl. by rewrite (proj2 (IH f Hf (Hl f Hf))).
Qed.
End documents.

(** ** Structs field by field *)

Fixpoint member (k : string) (members : list (string * Doc)) : option Doc :=
  match members with
  | [] => None
  | (k', d) :: members' => if bool_decide (k = k') then Some d else member k members'
  end.

Definition apply_opt {A} (acc : A * bool) (dec : Decode A) (o : option Doc) : A * bool :=
  match o with Some d => let '(a, ok) := dec acc.1 d in (a, acc.2 && ok) | None => acc end.

(** The fields in the order of the struct. *)
Definition by_fields {A} (fields : Fields A) (members : list (string * Doc)) (acc : A * bool) : A * bool :=
  foldl (λ acc f, apply_opt acc f.2 (member f.1 members)) acc fields.

Definition commute {A} (dec1 dec2 : Decode A) : Prop := ∀ acc d1 d2,
  apply_opt (apply_opt acc dec1 (Some d1)) dec2 (Some d2) = apply_opt (apply_opt acc dec2 (Some d2)) dec1 (Some d1).

(** The fields are parts of the struct that do not overlap. *)
Definition separate {A} (fields : Fields A) : Prop :=
  NoDup fields.*1 ∧ ∀ f g, f ∈ fields → g ∈ fields → f.1 ≠ g.1 → commute f.2 g.2.

(** A key that is a field's up to case is the field's. *)
Definition plain_keys (names keys : list string) : Prop :=
  ∀ k n, k ∈ keys → n ∈ names → foldName n = foldName k → k = n.

Lemma find_field_exact {A} (fields : Fields A) f : NoDup fields.*1 → f ∈ fields → find_field fields f.1 = Some f.2.
Proof.
  intros Hnd Hf. unfold find_field. destruct (list_find _ fields) as [[i g]|] eqn:E.
  - apply list_find_Some in E as (Hi & Hg & _). apply list_elem_of_lookup in Hf as [j Hj].
    assert (i = j) as ->; [|congruence]. eapply (NoDup_lookup _ _ _ f.1); [exact Hnd| |]; rewrite list_lookup_fmap; [by rewrite Hi, <- Hg|by rewrite Hj].
  - apply list_find_None in E. rewrite Forall_forall in E. by specialize (E _ Hf).
Qed.

Lemma find_field_none {A} (fields : Fields A) k : (∀ f, f ∈ fields → foldName f.1 ≠ foldName k) → find_field fields k = None.
Proof.
  intros Hk. unfold find_field.
  assert (list_find (λ f : string * Decode A, f.1 = k) fields = None) as -> by (apply list_find_None, Forall_forall; intros f Hf <-; by eapply Hk).
  assert (list_find (λ f : string * Decode A, foldName f.1 = foldName k) fields = None) as -> by (apply list_find_None, Forall_forall; intros f Hf; by apply Hk).
  done.
Qed.

Lemma by_fields_skip {A} (fields : Fields A) k d members acc : k ∉ fields.*1 → by_fields fields ((k, d) :: members) acc = by_fields fields members acc.
Proof.
  unfold by_fields. revert acc. induction fields as [|f fields IH]; intros acc Hk; [done|]. cbn [fmap list_fmap foldl member] in *.
  apply not_elem_of_cons in Hk as [Hne Hk]. rewrite bool_decide_eq_false_2 by done. by apply IH.
Qed.

Lemma apply_commutes {A} (dec1 dec2 : Decode A) acc d o : commute dec1 dec2 →
  apply_opt (apply_opt acc dec1 (Some d)) dec2 o = apply_opt (apply_opt acc dec2 o) dec1 (Some d).
Proof. intros Hc. destruct o as [d2|]; [apply Hc|done]. Qed.

Lemma by_fields_front {A} (fields : Fields A) f d members acc : separate fields → f ∈ fields → member f.1 members = None →
  by_fields fields members (apply_opt acc f.2 (Some d)) = by_fields fields ((f.1, d) :: members) acc.
Proof.
  intros [Hnd Hc] Hf Hm. unfold by_fields. revert acc. induction fields as [|g fields IH]; intros acc; [by apply elem_of_nil in Hf|].
  cbn [foldl member]. cbn [fmap list_fmap] in Hnd. apply NoDup_cons in Hnd as [Hg Hnd]. destruct (decide (g.1 = f.1)) as [Heq|Hne].
  - assert (g = f) as ->.
    { apply elem_of_cons in Hf as [->|Hf]; [done|]. exfalso. apply Hg. rewrite Heq. apply list_elem_of_fmap. by exists f. }
    rewrite bool_decide_eq_true_2 by done. rewrite Hm. cbn [apply_opt]. symmetry. by apply by_fields_skip.
  - rewrite bool_decide_eq_false_2 by done. rewrite apply_commutes.
    + apply IH; [done|intros a b Ha Hb; apply Hc; by right|]. by apply elem_of_cons in Hf as [->|Hf].
    + apply Hc; [done|left|done].
Qed.

Lemma member_none k members : k ∉ members.*1 → member k members = None.
Proof.
  induction members as [|[k' d] members IH]; [done|]. cbn [fmap list_fmap fst member]. intros [Hne Hk]%not_elem_of_cons.
  rewrite bool_decide_eq_false_2 by done. by apply IH.
Qed.

(** Members that occur once are decoded as if they were in the order of the fields. *)
Lemma struct_by_fields {A} (fields : Fields A) (a : A) members : separate fields → NoDup members.*1 → plain_keys fields.*1 members.*1 →
  dec_struct fields a (DObject members) = by_fields fields members (a, true).
Proof.
  intros Hs Hnd Hp. cbn [dec_struct]. generalize (a, true) as acc. induction members as [|[k d] members IH]; intros acc.
  - unfold by_fields. clear. revert acc. induction fields as [|f fields IH]; intros acc; [done|]. cbn [foldl member apply_opt]. by rewrite <- IH.
  - cbn [fmap list_fmap fst] in Hnd. apply NoDup_cons in Hnd as [Hk Hnd]. cbn [foldl].
    rewrite IH; [|done|intros k' n Hin; apply Hp; by right]. unfold dec_member. cbn [fst snd].
    destruct (decide (k ∈ fields.*1)) as [(f & -> & Hf)%list_elem_of_fmap|Hnot].
    + destruct Hs as [Hnf Hc]. rewrite find_field_exact by done. by rewrite <- by_fields_front; [|split|..|apply member_none].
    + rewrite find_field_none; [by rewrite by_fields_skip|]. intros f Hf Heq. apply Hnot. assert (f.1 ∈ fields.*1) as Hf1 by (apply list_elem_of_fmap; by exists f).
      by rewrite (Hp k f.1); [|left|..].
Qed.

Lemma any_ok_text FormatFloat j : text_ok FormatFloat j → any_ok (doc_of FormatFloat j) = true.
Proof.
  assert (∀ t f, number t = Some (f, ""%string) → bool_decide (is_Some (lit_float (lit_of t))) = true) as Hlit.
  { intros t f (n & Hn & Hf)%number_has_lit. unfold lit_of. rewrite Hn. apply bool_decide_eq_true_2. by eexists. }
  induction j as [| |f|z| |l IH|m IH] using json_ind; try done.
  - apply Hlit.
  - apply Hlit.
  - rewrite text_array, doc_of_array, any_ok_array. intros Hl. rewrite Forall_forall in IH, Hl.
    apply Is_true_true, forallb_True, Forall_fmap, Forall_forall. intros j Hj. simpl. by rewrite (IH j Hj (Hl j Hj)).
  - rewrite text_object, doc_of_object, any_ok_object. intros Hl. rewrite Forall_fmap in IH, Hl. rewrite Forall_forall in IH, Hl.
    apply Is_true_true, forallb_True, Forall_fmap, Forall_forall. intros f Hf. simpl. by rewrite (IH f Hf (Hl f Hf)).
Qed.

Lemma docs_of_keys FormatFloat m : (docs_of FormatFloat m).*1 = m.*1.
Proof. unfold docs_of. rewrite <- list_fmap_compose. by apply list_fmap_ext. Qed.

Lemma member_docs FormatFloat k m : member k (docs_of FormatFloat m) = doc_of FormatFloat <$> obj_lookup k m.
Proof. induction m as [|[k' j] m IH]; [done|]. cbn [docs_of fmap list_fmap fst snd member obj_lookup]. case_bool_decide; [done|]. exact IH. Qed.

Lemma into_map_lookup k fields : ∀ acc, NoDup fields.*1 →
  obj_lookup k (into_map acc fields) = match member k fields with Some d => Some (to_any d) | None => obj_lookup k acc end.
Proof.
  unfold into_map. induction fields as [|[k' d] fields IH]; intros acc; [done|]. cbn [fmap list_fmap fst foldl snd member]. intros [Hk Hnd]%NoDup_cons.
  rewrite IH by done. destruct (decide (k = k')) as [->|Hne].
  - rewrite bool_decide_eq_true_2, member_none by done. by rewrite obj_lookup_insert_eq.
  - rewrite bool_decide_eq_false_2 by done. destruct (member k fields); [done|]. by apply obj_lookup_insert_ne.
Qed.

Lemma into_map_all_sorted acc fields : obj_sorted acc → obj_sorted (into_map acc fields).
Proof. unfold into_map. revert acc. induction fields as [|f fields IH]; intros acc Hs; [done|]. cbn [foldl]. by apply IH, obj_insert_sorted. Qed.

(** *** Parts of a struct *)

Lemma part_commute {A B C} (g1 : A → B) (s1 : B → A → A) (g2 : A → C) (s2 : C → A → A) dec1 dec2 :
  (∀ b a, g2 (s1 b a) = g2 a) → (∀ c a, g1 (s2 c a) = g1 a) → (∀ b c a, s2 c (s1 b a) = s1 b (s2 c a)) →
  commute (part g1 s1 dec1) (part g2 s2 dec2).
Proof.
  intros H1 H2 H3 [a ok] d1 d2. unfold part. cbn [apply_opt fst snd]. destruct (dec1 (g1 a) d1) as [b ok1] eqn:E1, (dec2 (g2 a) d2) as [c ok2] eqn:E2. cbn [fst snd].
  rewrite H1, H2, E1, E2. f_equal; [apply H3|]. by rewrite <- !andb_assoc, (andb_comm ok1).
Qed.

Ltac separate_parts :=
  split; [by apply (bool_decide_unpack _)|];
  intros f g Hf Hg Hne; repeat (apply elem_of_cons in Hf as [->|Hf]; [repeat (apply elem_of_cons in Hg as [->|Hg]; [try done; by apply part_commute|]); by apply elem_of_nil in Hg|]);
  by apply elem_of_nil in Hf.
