(* ===== verification/Parsers.v ===== *)
(** * Request and response parsers: [framework/plugins/requesthandling/parsers]

    The parser turns the body of a request into what the scheduler looks at, and finds the usage
    of tokens in the response. [openai] reads the JSON of the OpenAI APIs, [vllmgrpc] the frames
    of vLLM's gRPC API, and [passthrough] nothing. Decoding of JSON is that of Go; decoding of
    protobuf messages is a library and a parameter. What a conversion gives for a number outside
    the range of its type is up to the implementation, and a parameter too. *)

From stdpp Require Import prelude gmap strings list pretty.
From Stdlib Require Import ZArith Ascii Lia SpecFloat Sorted.
From S2P Require Import Prelude Float64 FloatOps FloatSum Ordering SchedTypes Json Director Envoy ExtProc Datastore JsonDecode JsonTyped.

(** ** Strings *)

Definition HasPrefix (s prefix : string) : bool := String.prefix prefix s.

Definition HasSuffix (s suffix : string) : bool :=
  bool_decide (String.length suffix ≤ String.length s) &&
  bool_decide (String.substring (String.length s - String.length suffix) (String.length suffix) s = suffix).

Definition TrimPrefix (s prefix : string) : string := default s (strip_prefix prefix s).

Definition Contains (s sub : string) : bool := contains (String.list_ascii_of_string sub) (String.list_ascii_of_string s).

(** ** Usage *)

(** [Usage]; the details hold the cached tokens. *)
Record Usage := mkUsage {
  us_PromptTokens : Z;
  us_CompletionTokens : Z;
  us_TotalTokens : Z;
  us_PromptTokenDetails : option Z
}.

(** What a parser returns of a response: nil, or a usage that may be missing. *)
Abbreviation ParsedResponse := (option (option Usage)).

Definition empty_body : InferenceRequestBody := mkBody None None None None None None false.

(** ** [openai/openai.go] *)

Module openai.
Definition conversationsAPI : string := "conversations".
Definition responsesAPI : string := "responses".
Definition chatCompletionsAPI : string := "chat/completions".
Definition completionsAPI : string := "completions".
Definition embeddingsAPI : string := "embeddings".

Definition getRequestPath (headers : gmap string string) : string :=
  let get k := default ""%string (headers !! k) in
  if bool_decide (get ":path"%string ≠ ""%string) then get ":path"%string
  else if bool_decide (get "x-original-path"%string ≠ ""%string) then get "x-original-path"%string
  else if bool_decide (get "x-forwarded-path"%string ≠ ""%string) then get "x-forwarded-path"%string
  else "/v1/completions".

Definition determineAPITypeFromPath (path : string) : string :=
  if HasSuffix path "/conversations" then conversationsAPI
  else if HasSuffix path "/responses" then responsesAPI
  else if HasSuffix path "/chat/completions" then chatCompletionsAPI
  else if HasSuffix path "/completions" then completionsAPI
  else if HasSuffix path "/embeddings" then embeddingsAPI
  else completionsAPI.

Section parser.
(** The conversion of a number outside the range of an integer type, the texts of the JSON
    library's errors and of numbers. *)
Context (convert : float64 → Z) (json_error : string → string) (FormatFloat : float64 → string).

Definition int_of (f : float64) : Z :=
  if bool_decide (- Int.two63 ≤ to_int f < Int.two63)%Z then to_int f else Int.i64 (convert f).
Definition uint32_of (f : float64) : Z :=
  if bool_decide (0 ≤ to_int f < 2 ^ 32)%Z then to_int f else (convert f `mod` 2 ^ 32)%Z.

(** *** Inputs: [interface/requesthandling/types.go] *)

(** The callers drop the messages of the errors. *)
Definition token_id (v : JSON) : option Z :=
  match v with
  | JNumber flt => if feq flt (of_int (uint32_of flt)) then Some (uint32_of flt) else None
  | _ => None
  end.

Definition parseArrayInput (v : list JSON) : option (list string * list Z) :=
  match v with
  | [] => Some ([], [])
  | JString _ :: _ => l ← mapM (λ v, match v with JString s => Some s | _ => None end) v; Some (l, [])
  | JNumber _ :: _ => l ← mapM token_id v; Some ([], l)
  | _ => None
  end.

(** [Prompt.UnmarshalJSON] and [EmbeddingsInput.UnmarshalJSON]. *)
Definition Prompt_UnmarshalJSON : Decode Prompt := λ p d,
  if any_ok d then
    match to_any d with
    | JString v => (mkPrompt v (pr_Strings p) (pr_TokenIDs p), true)
    | JArray v =>
        match parseArrayInput v with
        | Some (ss, ids) => (mkPrompt (pr_Raw p) ss ids, true)
        | None => (p, false)
        end
    | _ => (p, false)
    end
  else (p, false).

Definition zero_prompt : Prompt := mkPrompt "" [] [].
Definition zero_block : ContentBlock := mkBlock "" "" "" "" "" "".

Definition block_fields : Fields ContentBlock := [
  ("type"%string, part cb_Type (λ v b, mkBlock v (cb_Text b) (cb_ImageURL b) (cb_AudioData b) (cb_AudioFormat b) (cb_VideoURL b)) dec_string);
  ("text"%string, part cb_Text (λ v b, mkBlock (cb_Type b) v (cb_ImageURL b) (cb_AudioData b) (cb_AudioFormat b) (cb_VideoURL b)) dec_string);
  ("image_url"%string, dec_struct [
    ("url"%string, part cb_ImageURL (λ v b, mkBlock (cb_Type b) (cb_Text b) v (cb_AudioData b) (cb_AudioFormat b) (cb_VideoURL b)) dec_string)]);
  ("input_audio"%string, dec_struct [
    ("data"%string, part cb_AudioData (λ v b, mkBlock (cb_Type b) (cb_Text b) (cb_ImageURL b) v (cb_AudioFormat b) (cb_VideoURL b)) dec_string);
    ("format"%string, part cb_AudioFormat (λ v b, mkBlock (cb_Type b) (cb_Text b) (cb_ImageURL b) (cb_AudioData b) v (cb_VideoURL b)) dec_string)]);
  ("video_url"%string, dec_struct [
    ("url"%string, part cb_VideoURL (λ v b, mkBlock (cb_Type b) (cb_Text b) (cb_ImageURL b) (cb_AudioData b) (cb_AudioFormat b) v) dec_string)])].

(** A text, which [null] leaves empty, or blocks. *)
Definition Content_UnmarshalJSON : Decode Content := λ mc d,
  match dec_string "" d with
  | (str, true) => (mkContent str (ct_Structured mc), true)
  | _ =>
      match dec_slice zero_block (dec_struct block_fields) ([], []) d with
      | ((blocks, _), true) => (mkContent (ct_Raw mc) (Some blocks), true)
      | _ => (mc, false)
      end
  end.

Definition zero_message : SchedTypes.Message := mkMessage "" (mkContent "" None).
Definition message_fields : Fields SchedTypes.Message := [
  ("role"%string, part ms_Role (λ v m, mkMessage v (ms_Content m)) dec_string);
  ("content"%string, part ms_Content (λ v m, mkMessage (ms_Role m) v) Content_UnmarshalJSON)].

Definition zero_item : ConversationItem := mkConversationItem "" "" JNull.
Definition item_fields : Fields ConversationItem := [
  ("type"%string, part ci_Type (λ v i, mkConversationItem v (ci_Role i) (ci_Content i)) dec_string);
  ("role"%string, part ci_Role (λ v i, mkConversationItem (ci_Type i) v (ci_Content i)) dec_string);
  ("content"%string, part ci_Content (λ v i, mkConversationItem (ci_Type i) (ci_Role i) v) dec_any)].

(** *** The bodies *)

Definition completions_fields : Fields CompletionsRequest := [
  ("prompt"%string, part cr_Prompt (λ v c, mkCompletions v (cr_CacheSalt c)) Prompt_UnmarshalJSON);
  ("cache_salt"%string, part cr_CacheSalt (λ v c, mkCompletions (cr_Prompt c) v) dec_string)].

Definition embeddings_fields : Fields EmbeddingsRequest := [
  ("input"%string, part er_Input (λ v c, mkEmbeddings v (er_CacheSalt c)) Prompt_UnmarshalJSON);
  ("cache_salt"%string, part er_CacheSalt (λ v c, mkEmbeddings (er_Input c) v) dec_string)].

(** With the messages behind the end of the slice. *)
Abbreviation ChatState := (ChatCompletionsRequest * list SchedTypes.Message)%type.
Definition zero_chat : ChatCompletionsRequest := mkChat [] [] [] "" false false false [] "".

Definition chat_part {B} (get : ChatCompletionsRequest → B) (set : B → ChatCompletionsRequest → ChatCompletionsRequest) (dec : Decode B) : Decode ChatState :=
  part (λ s, get s.1) (λ v s, (set v s.1, s.2)) dec.

Definition chat_fields : Fields ChatState := [
  ("messages"%string, part (λ s, (cc_Messages s.1, s.2))
    (λ v s, let c := s.1 in
       (mkChat v.1 (cc_Tools c) (cc_Documents c) (cc_ChatTemplate c) (cc_ReturnAssistantTokensMask c) (cc_ContinueFinalMessage c)
          (cc_AddGenerationPrompt c) (cc_ChatTemplateKWArgs c) (cc_CacheSalt c), v.2))
    (dec_slice zero_message (dec_struct message_fields)));
  ("tools"%string, chat_part cc_Tools (λ v c,
    mkChat (cc_Messages c) v (cc_Documents c) (cc_ChatTemplate c) (cc_ReturnAssistantTokensMask c) (cc_ContinueFinalMessage c)
      (cc_AddGenerationPrompt c) (cc_ChatTemplateKWArgs c) (cc_CacheSalt c)) dec_anys);
  ("documents"%string, chat_part cc_Documents (λ v c,
    mkChat (cc_Messages c) (cc_Tools c) v (cc_ChatTemplate c) (cc_ReturnAssistantTokensMask c) (cc_ContinueFinalMessage c)
      (cc_AddGenerationPrompt c) (cc_ChatTemplateKWArgs c) (cc_CacheSalt c)) dec_anys);
  ("chat_template"%string, chat_part cc_ChatTemplate (λ v c,
    mkChat (cc_Messages c) (cc_Tools c) (cc_Documents c) v (cc_ReturnAssistantTokensMask c) (cc_ContinueFinalMessage c)
      (cc_AddGenerationPrompt c) (cc_ChatTemplateKWArgs c) (cc_CacheSalt c)) dec_string);
  ("return_assistant_tokens_mask"%string, chat_part cc_ReturnAssistantTokensMask (λ v c,
    mkChat (cc_Messages c) (cc_Tools c) (cc_Documents c) (cc_ChatTemplate c) v (cc_ContinueFinalMessage c)
      (cc_AddGenerationPrompt c) (cc_ChatTemplateKWArgs c) (cc_CacheSalt c)) dec_bool);
  ("continue_final_message"%string, chat_part cc_ContinueFinalMessage (λ v c,
    mkChat (cc_Messages c) (cc_Tools c) (cc_Documents c) (cc_ChatTemplate c) (cc_ReturnAssistantTokensMask c) v
      (cc_AddGenerationPrompt c) (cc_ChatTemplateKWArgs c) (cc_CacheSalt c)) dec_bool);
  ("add_generation_prompt"%string, chat_part cc_AddGenerationPrompt (λ v c,
    mkChat (cc_Messages c) (cc_Tools c) (cc_Documents c) (cc_ChatTemplate c) (cc_ReturnAssistantTokensMask c) (cc_ContinueFinalMessage c)
      v (cc_ChatTemplateKWArgs c) (cc_CacheSalt c)) dec_bool);
  ("chat_template_kwargs"%string, chat_part (λ c, Some (cc_ChatTemplateKWArgs c)) (λ v c,
    mkChat (cc_Messages c) (cc_Tools c) (cc_Documents c) (cc_ChatTemplate c) (cc_ReturnAssistantTokensMask c) (cc_ContinueFinalMessage c)
      (cc_AddGenerationPrompt c) (default [] v) (cc_CacheSalt c)) dec_map);
  ("cache_salt"%string, chat_part cc_CacheSalt (λ v c,
    mkChat (cc_Messages c) (cc_Tools c) (cc_Documents c) (cc_ChatTemplate c) (cc_ReturnAssistantTokensMask c) (cc_ContinueFinalMessage c)
      (cc_AddGenerationPrompt c) (cc_ChatTemplateKWArgs c) v) dec_string)].

(** A nil value is [JNull], or [None]. *)
Definition nil_any (v : option JSON) : JSON := default JNull v.
Definition any_nil (v : JSON) : option JSON := match v with JNull => None | v => Some v end.

Definition zero_responses : ResponsesRequest := mkResponses JNull None None "".
Definition responses_fields : Fields ResponsesRequest := [
  ("input"%string, part rr_Input (λ v r, mkResponses v (rr_Instructions r) (rr_Tools r) (rr_CacheSalt r)) dec_any);
  ("instructions"%string, part (λ r, nil_any (rr_Instructions r)) (λ v r, mkResponses (rr_Input r) (any_nil v) (rr_Tools r) (rr_CacheSalt r)) dec_any);
  ("tools"%string, part (λ r, nil_any (rr_Tools r)) (λ v r, mkResponses (rr_Input r) (rr_Instructions r) (any_nil v) (rr_CacheSalt r)) dec_any);
  ("cache_salt"%string, part rr_CacheSalt (λ v r, mkResponses (rr_Input r) (rr_Instructions r) (rr_Tools r) v) dec_string)].

Abbreviation ConversationsState := (ConversationsRequest * list ConversationItem)%type.
Definition conversations_fields : Fields ConversationsState := [
  ("items"%string, part (λ s, (cv_Items s.1, s.2)) (λ v s, (mkConversations v.1 (cv_Metadata s.1) (cv_CacheSalt s.1), v.2))
    (dec_slice zero_item (dec_struct item_fields)));
  ("metadata"%string, part (λ s, Some (cv_Metadata s.1)) (λ v s, (mkConversations (cv_Items s.1) (default [] v) (cv_CacheSalt s.1), s.2)) dec_map);
  ("cache_salt"%string, part (λ s, cv_CacheSalt s.1) (λ v s, (mkConversations (cv_Items s.1) (cv_Metadata s.1) v, s.2)) dec_string)].

Definition validateChatCompletionsMessages (messages : list SchedTypes.Message) : bool := bool_decide (length messages ≠ 0).

Definition extractRequestBody (rawBody : string) (headers : gmap string string) : InferenceRequestBody + string :=
  let apiType := determineAPITypeFromPath (getRequestPath headers) in
  if bool_decide (apiType = conversationsAPI) then
    let '(c, ok) := UnmarshalInto (dec_struct conversations_fields) (mkConversations [] [] "", []) rawBody in
    if ok && bool_decide (0 < length (cv_Items c.1)) then inl (mkBody None None None (Some c.1) None None false)
    else inr "invalid conversations request: must have items field"
  else if bool_decide (apiType = responsesAPI) then
    let '(r, ok) := UnmarshalInto (dec_struct responses_fields) zero_responses rawBody in
    if ok && match rr_Input r with JNull => false | _ => true end then inl (mkBody None None (Some r) None None None false)
    else inr "invalid responses request: must have input field"
  else if bool_decide (apiType = chatCompletionsAPI) then
    let '(c, ok) := UnmarshalInto (dec_struct chat_fields) (zero_chat, []) rawBody in
    if ok && validateChatCompletionsMessages (cc_Messages c.1) then inl (mkBody None (Some c.1) None None None None false)
    else inr "invalid chat completions request: must have valid messages field"
  else if bool_decide (apiType = completionsAPI) then
    let '(c, ok) := UnmarshalInto (dec_struct completions_fields) (mkCompletions zero_prompt "") rawBody in
    if ok && negb (Prompt_IsEmpty (cr_Prompt c)) then inl (mkBody (Some c) None None None None None false)
    else inr "invalid completions request: must have prompt field"
  else if bool_decide (apiType = embeddingsAPI) then
    let '(e, ok) := UnmarshalInto (dec_struct embeddings_fields) (mkEmbeddings zero_prompt "") rawBody in
    if ok && negb (Prompt_IsEmpty (er_Input e)) then inl (mkBody None None None None (Some e) None false)
    else inr "invalid embeddings request: must have input field"
  else inr "unsupported API endpoint".

Definition with_stream (b : InferenceRequestBody) : InferenceRequestBody :=
  mkBody (bd_Completions b) (bd_ChatCompletions b) (bd_Responses b) (bd_Conversations b) (bd_Embeddings b) (bd_TokenizedPrompt b) true.

Definition ParseRequest (body : bytes) (headers : gmap string string) : (InferenceRequestBody * Payload) + string :=
  let text := String.string_of_list_ascii body in
  match UnmarshalMap text with
  | None => inr ("error unmarshaling request bodyMap: " +:+ json_error text)
  | Some bodyMap =>
      match extractRequestBody text headers with
      | inr err => inr err
      | inl extractedBody =>
          let bodyMap := default [] bodyMap in
          let stream := match obj_lookup "stream" bodyMap with Some (JBool stream) => stream | _ => false end in
          inl (if stream then with_stream extractedBody else extractedBody, PayloadMap (list_to_map bodyMap))
      end
  end.

(** *** The usage of tokens *)

(** A type assertion to [float64]; [None] is a panic. *)
Definition as_int (v : JSON) : option Z := match v with JNumber f => Some (int_of f) | _ => None end.
Definition not_nil (usg : JsonObject) (key : string) : bool :=
  match obj_lookup key usg with None | Some JNull => false | Some _ => true end.
Definition tokens (usg : JsonObject) (key : string) : option Z :=
  if not_nil usg key then as_int (default JNull (obj_lookup key usg)) else Some 0%Z.

Definition extractUsageByAPIType (usg : JsonObject) (objectType : string) : option Usage :=
  counts ←
    (if HasPrefix objectType "response" || HasPrefix objectType "conversation" then
       p ← tokens usg "input_tokens"; c ← tokens usg "output_tokens"; Some (p, c)
     else if bool_decide (objectType ∈ ["chat.completion"; "chat.completion.chunk"; "text_completion"]%string) then
       p ← tokens usg "prompt_tokens"; c ← tokens usg "completion_tokens"; Some (p, c)
     else
       p ← (if not_nil usg "input_tokens" then tokens usg "input_tokens" else tokens usg "prompt_tokens");
       c ← (if not_nil usg "output_tokens" then tokens usg "output_tokens" else tokens usg "completion_tokens");
       Some (p, c));
  total ← tokens usg "total_tokens";
  Some (mkUsage counts.1 counts.2 total None).

(** The outer [None] is a panic, the inner one nil. *)
Definition extractUsage (responseBytes : string) : option (option Usage + string) :=
  match UnmarshalMap responseBytes with
  | None => Some (inr (json_error responseBytes))
  | Some responseBody =>
      let responseBody := default [] responseBody in
      if not_nil responseBody "usage" then
        match obj_lookup "usage" responseBody with
        | Some (JObject usg) =>
            let objectType := match obj_lookup "object" responseBody with Some (JString s) => s | _ => ""%string end in
            usage ← extractUsageByAPIType usg objectType;
            if not_nil usg "prompt_token_details" then
              match obj_lookup "prompt_token_details" usg with
              | Some (JObject detailsMap) =>
                  match obj_lookup "cached_tokens" detailsMap with
                  | Some cachedTokens =>
                      n ← as_int cachedTokens;
                      Some (inl (Some (mkUsage (us_PromptTokens usage) (us_CompletionTokens usage) (us_TotalTokens usage) (Some n))))
                  | None => Some (inl (Some usage))
                  end
              | _ => None
              end
            else Some (inl (Some usage))
        | _ => None
        end
      else Some (inl None)
  end.

Definition usage_fields : Fields Usage := [
  ("prompt_tokens"%string, part us_PromptTokens (λ v u, mkUsage v (us_CompletionTokens u) (us_TotalTokens u) (us_PromptTokenDetails u)) dec_int);
  ("completion_tokens"%string, part us_CompletionTokens (λ v u, mkUsage (us_PromptTokens u) v (us_TotalTokens u) (us_PromptTokenDetails u)) dec_int);
  ("total_tokens"%string, part us_TotalTokens (λ v u, mkUsage (us_PromptTokens u) (us_CompletionTokens u) v (us_PromptTokenDetails u)) dec_int);
  ("prompt_token_details"%string, part us_PromptTokenDetails (λ v u, mkUsage (us_PromptTokens u) (us_CompletionTokens u) (us_TotalTokens u) v)
    (dec_pointer 0%Z (dec_struct [("cached_tokens"%string, dec_int)])))].
Definition zero_usage : Usage := mkUsage 0 0 0 None.

(** The variable into which the events of a stream are decoded, one after the other. *)
Record StreamResponse := mkStreamResponse {
  st_Usage : option Usage;
  st_ResponseUsage : option JsonObject;
  st_ResponseObject : string;
  st_Type : string
}.

Definition stream_fields : Fields StreamResponse := [
  ("usage"%string, part st_Usage (λ v s, mkStreamResponse v (st_ResponseUsage s) (st_ResponseObject s) (st_Type s))
    (dec_pointer zero_usage (dec_struct usage_fields)));
  ("response"%string, part (λ s, (st_ResponseUsage s, st_ResponseObject s)) (λ v s, mkStreamResponse (st_Usage s) v.1 v.2 (st_Type s))
    (dec_struct [
      ("usage"%string, part fst (λ v r, (v, r.2)) dec_map);
      ("object"%string, part snd (λ v r, (r.1, v)) dec_string)]));
  ("type"%string, part st_Type (λ v s, mkStreamResponse (st_Usage s) (st_ResponseUsage s) (st_ResponseObject s) v) dec_string)].

Definition streamingRespPrefix : string := "data: ".

Fixpoint stream_lines (streamResponse : StreamResponse) (lines : list string) : option (option Usage) :=
  match lines with
  | [] => Some None
  | line :: lines' =>
      let content := TrimPrefix line streamingRespPrefix in
      if negb (HasPrefix line streamingRespPrefix) || bool_decide (content = "[DONE]"%string) then stream_lines streamResponse lines'
      else
        let '(streamResponse, ok) := UnmarshalInto (dec_struct stream_fields) streamResponse content in
        if negb ok then stream_lines streamResponse lines'
        else
          match st_Usage streamResponse, st_ResponseUsage streamResponse with
          | Some usage, _ => Some (Some usage)
          | None, Some usg =>
              if bool_decide (st_Type streamResponse = "response.completed"%string) then
                let jsonBytes := JSON_Marshal FormatFloat (JObject [("object"%string, JString (st_ResponseObject streamResponse)); ("usage"%string, JObject usg)]) in
                match extractUsage jsonBytes with
                | None => None
                | Some (inl (Some usage)) => Some (Some usage)
                | Some _ => stream_lines streamResponse lines'
                end
              else stream_lines streamResponse lines'
          | None, None => stream_lines streamResponse lines'
          end
  end.

Definition extractUsageStreaming (responseText : string) : option (option Usage) :=
  stream_lines (mkStreamResponse None None "" "") (split_on (ascii_of_nat 10) responseText).

Definition is_stream (headers : gmap string string) : bool :=
  existsb (λ kv, bool_decide (ToLower kv.1 = "content-type"%string) && Contains (ToLower kv.2) "text/event-stream") (map_to_list headers).

Definition ParseResponse (body : bytes) (headers : gmap string string) : option (ParsedResponse + string) :=
  if bool_decide (length body = 0) then Some (inl None)
  else
    let text := String.string_of_list_ascii body in
    if is_stream headers then usage ← extractUsageStreaming text; Some (inl (Some usage))
    else
      r ← extractUsage text;
      match r with inr err => Some (inr err) | inl usage => Some (inl (Some usage)) end.
End parser.
End openai.

(** ** [passthrough/passthrough.go] *)

Module passthrough.
Definition ParseRequest (body : bytes) (headers : gmap string string) : (InferenceRequestBody * Payload) + string :=
  inl (empty_body, RawPayload).

Definition ParseResponse (body : bytes) (headers : gmap string string) : option (ParsedResponse + string) := Some (inl None).
End passthrough.

(** ** [vllmgrpc/vllmgrpc.go] *)

Module vllmgrpc.

(** *** The messages that are read, by the fields that are used *)

Inductive GenerateInput := GenerateRequest_Text (text : string) | GenerateRequest_Tokenized (tokenized : option (list Z)).

(** A placeholder is an offset and a length, or nil. *)
Record MultimodalInputs := mkMultimodal { mm_Placeholders : list (option (Z * Z)); mm_Hashes : list string }.
Record GenerateRequest := mkGenerateRequest {
  gr_Input : option GenerateInput;
  gr_Stream : bool;
  gr_MmInputs : option MultimodalInputs
}.
Record EmbedRequest := mkEmbedRequest { em_Tokenized : option (list Z) }.

Record TokenCounts := mkTokenCounts { tc_PromptTokens : Z; tc_CompletionTokens : Z; tc_CachedTokens : Z }.
Inductive GenerateResponse := GenerateResponse_Chunk (c : TokenCounts) | GenerateResponse_Complete (c : TokenCounts).
(** With the number of values of the embedding. *)
Record EmbedResponse := mkEmbedResponse { es_Embedding : nat; es_PromptTokens : Z }.

(** *** Frames *)

Definition gRPCPayloadHeaderLen : Z := 5.

(** [binary.BigEndian.Uint32]. *)
Definition BigEndian (b : bytes) : Z := foldl (λ n c, n * 256 + Z.of_N (N_of_ascii c))%Z 0%Z b.

Definition u32 (z : Z) : Z := (z `mod` 2 ^ 32)%Z.

(** The sums of a length are those of [uint32]. [None] is the panic of a slice whose end is
    before its start. *)
Definition parseGrpcPayload (data : bytes) : option ((bytes * bool) + string) :=
  let len := Z.of_nat (length data) in
  if bool_decide (len < gRPCPayloadHeaderLen)%Z then
    Some (inr ("invalid gRPC frame: expected at least 5 bytes for header, got " +:+ pretty len))
  else
    let isCompressed := bool_decide (data !! 0 = Some (ascii_of_nat 1)) in
    let msgLen := BigEndian (take 4 (drop 1 data)) in
    let high := u32 (gRPCPayloadHeaderLen + msgLen) in
    if bool_decide (u32 len < high)%Z then
      Some (inr ("incomplete gRPC payload: header indicates " +:+ pretty msgLen +:+ " bytes, but only " +:+
                 pretty (u32 (u32 len - gRPCPayloadHeaderLen)) +:+ " bytes are available"))
    else if bool_decide (high < gRPCPayloadHeaderLen)%Z then None
    else Some (inl (take (Z.to_nat (high - gRPCPayloadHeaderLen)) (drop 5 data), isCompressed)).

(** [toGenerateRequest] and the like, with the decoder of their message. *)
Definition to_message {A} (Unmarshal : bytes → A + string) (payload : bytes) : option (A + string) :=
  r ← parseGrpcPayload payload;
  match r with
  | inr _ => Some (inr "not able to parse payload"%string)
  | inl (_, true) => Some (inr "compressed vllmgrpc payload is not supported"%string)
  | inl (parsedPayload, false) => Some (Unmarshal parsedPayload)
  end.

Definition convertMultiModalFeatures (mmInputs : option MultimodalInputs) : list MultiModalFeature :=
  match mmInputs with
  | None => []
  | Some mm =>
      imap (λ i placeholder,
        let hash := default ""%string (mm_Hashes mm !! i) in
        match placeholder with
        | Some (offset, length) => mkFeature "image" hash offset length
        | None => mkFeature "image" hash 0 0
        end) (mm_Placeholders mm)
  end.

Section parser.
(** [proto.Unmarshal] into the messages. *)
Context (Unmarshal_GenerateRequest : bytes → GenerateRequest + string) (Unmarshal_EmbedRequest : bytes → EmbedRequest + string).
Context (Unmarshal_GenerateResponse : bytes → option GenerateResponse + string) (Unmarshal_EmbedResponse : bytes → EmbedResponse + string).

Definition convertToInferenceRequestBody (payload : bytes) : option (InferenceRequestBody + string) :=
  r ← to_message Unmarshal_GenerateRequest payload;
  match r with
  | inr err => Some (inr err)
  | inl pbReq =>
      match gr_Input pbReq with
      | Some (GenerateRequest_Text text) =>
          Some (inl (mkBody (Some (mkCompletions (mkPrompt text [] []) "")) None None None None None (gr_Stream pbReq)))
      | Some (GenerateRequest_Tokenized None) => Some (inr "missing tokenized input"%string)
      | Some (GenerateRequest_Tokenized (Some inputIDs)) =>
          Some (inl (mkBody (Some (mkCompletions (mkPrompt "" [] inputIDs) "")) None None None None
                       (Some (mkTokenized inputIDs (convertMultiModalFeatures (gr_MmInputs pbReq)))) (gr_Stream pbReq)))
      | None => Some (inr "not supported request inputType"%string)
      end
  end.

Definition convertEmbedToInferenceRequestBody (payload : bytes) : option (InferenceRequestBody + string) :=
  r ← to_message Unmarshal_EmbedRequest payload;
  match r with
  | inr err => Some (inr err)
  | inl pbReq =>
      match em_Tokenized pbReq with
      | Some inputIds => Some (inl (mkBody None None None None (Some (mkEmbeddings (mkPrompt "" [] inputIds) "")) None false))
      | None => Some (inr "missing tokenized input in EmbedRequest"%string)
      end
  end.

Definition vllmGeneratePath : string := "/vllm.grpc.engine.VllmEngine/Generate".
Definition vllmEmbedPath : string := "/vllm.grpc.engine.VllmEngine/Embed".

Definition parsed (prefix : string) (r : option (InferenceRequestBody + string)) : option ((InferenceRequestBody * Payload) + string) :=
  r ← r;
  match r with
  | inr err => Some (inr (prefix +:+ err))
  | inl body => Some (inl (body, PayloadProto))
  end.

Definition ParseRequest (body : bytes) (headers : gmap string string) : option ((InferenceRequestBody * Payload) + string) :=
  let path := default ""%string (headers !! ":path"%string) in
  if bool_decide (path = vllmEmbedPath) then parsed "parsing gRPC payload for Embed: " (convertEmbedToInferenceRequestBody body)
  else if bool_decide (path = vllmGeneratePath) then parsed "parsing gRPC payload for Generate: " (convertToInferenceRequestBody body)
  else Some (inr ("unsupported gRPC path: " +:+ path)).

Definition requestControlUsage (promptToken completionToken cachedToken : Z) : Usage :=
  mkUsage promptToken completionToken (Int.i64 (promptToken + completionToken)) (Some cachedToken).

Definition counts_usage (c : TokenCounts) : option Usage :=
  if bool_decide (0 < tc_PromptTokens c ∨ 0 < tc_CompletionTokens c)%Z
  then Some (requestControlUsage (tc_PromptTokens c) (tc_CompletionTokens c) (tc_CachedTokens c)) else None.

(** The error of the first attempt is the one that is reported, even when there was none. *)
Definition ParseResponse (body : bytes) (headers : gmap string string) : option (ParsedResponse + string) :=
  r ← to_message Unmarshal_GenerateResponse body;
  match r with
  | inl (Some (GenerateResponse_Chunk c)) | inl (Some (GenerateResponse_Complete c)) => Some (inl (Some (counts_usage c)))
  | _ =>
      e ← to_message Unmarshal_EmbedResponse body;
      let failed := Some (inr ("failed to parse gRPC response payload as GenerateResponse or EmbedResponse: " +:+
                               match r with inr err => err | inl _ => "%!w(<nil>)" end)) in
      match e with
      | inl embedResp =>
          if bool_decide (0 < es_Embedding embedResp ∨ (0 < es_PromptTokens embedResp)%Z) then
            Some (inl (Some (if bool_decide (0 < es_PromptTokens embedResp)%Z
                             then Some (mkUsage (es_PromptTokens embedResp) 0 (es_PromptTokens embedResp) None) else None)))
          else failed
      | inr _ => failed
      end
  end.
End parser.
End vllmgrpc.
