(* ===== verification/ParserProps.v ===== *)
(** * What the parsers understand

    A request that a client encodes is read as it was meant; the body that goes to the model
    server is the client's with the model replaced; the usage that a model server reports is
    found; and the frames of gRPC are read, unless their length overflows. *)

From stdpp Require Import prelude gmap strings list pretty sorting.
From Stdlib Require Import ZArith Ascii Lia SpecFloat Sorted QArith Qpower.
From S2P Require Import Prelude Float64 FloatRound FloatOps FloatSum FlowTypes Ordering SchedTypes Json Pickers SchedulerProfile Scheduler ModelRewrite RequestControl Director Envoy ExtProc InFlight EndToEnd Datastore JsonDecode JsonTyped Parsers.

#[local] Open Scope nat_scope.

(** ** Numbers *)

Lemma digits_value_snoc ds d : digits_value (ds ++ [d]) = (digits_value ds * 10 + d)%Z.
Proof. unfold digits_value. by rewrite foldl_app. Qed.

Lemma pretty_char_digit n : (n < 10)%N → digit (pretty_N_char n) = Some (Z.of_N n).
Proof.
  intros Hn. assert (n ∈ [0; 1; 2; 3; 4; 5; 6; 7; 8; 9]%N) as Hin by (rewrite !elem_of_cons; lia).
  repeat (apply elem_of_cons in Hin as [->|Hin]; [reflexivity|]). by apply elem_of_nil in Hin.
Qed.

(** The decimal digits of a number, and no zero in front. *)
Lemma pretty_go_digits (x : N) : ∃ ds, digits_value ds = Z.of_N x ∧
  (∀ s, take_digits (pretty_N_go x s) = (ds ++ (take_digits s).1, (take_digits s).2)) ∧
  (∀ s, (0 < x)%N → ∃ c t, pretty_N_go x s = String c t ∧ c ≠ "0"%char).
Proof.
  induction (N.lt_wf_0 x) as [x _ IH]. destruct (decide (x = 0)%N) as [->|Hx].
  { exists []. split; [done|]. split; [|lia]. intros s. rewrite pretty_N_go_0. by destruct (take_digits s). }
  pose proof (N.div_mod' x 10) as Hdm. pose proof (N.mod_lt x 10 ltac:(done)) as Hmod.
  destruct (IH (x `div` 10)%N) as (ds & Hv & Ht & Hz); [apply N.div_lt; lia|].
  exists (ds ++ [Z.of_N (x `mod` 10)]). split; [rewrite digits_value_snoc, Hv; lia|]. split.
  - intros s. rewrite pretty_N_go_step by lia. rewrite Ht. cbn [take_digits]. rewrite pretty_char_digit by done.
    destruct (take_digits s). cbn [fst snd]. by rewrite <- app_assoc.
  - intros s _. rewrite pretty_N_go_step by lia. destruct (decide (0 < x `div` 10)%N) as [Hp|Hp]; [by apply Hz|].
    replace (x `div` 10)%N with 0%N by lia. rewrite pretty_N_go_0. eexists _, _. split; [done|]. intros Hc.
    pose proof (pretty_char_digit _ Hmod) as Hd. rewrite Hc in Hd. assert (x `mod` 10 = 0)%N by (injection Hd; lia). lia.
Qed.

Lemma pretty_pos_lit (p : positive) : ∃ ds, digits_value ds = Z.pos p ∧ integer_part (pretty p) = Some (ds, ""%string) ∧
  number_sign (pretty p) = (false, pretty p).
Proof.
  destruct (pretty_go_digits (N.pos p)) as (ds & Hv & Ht & Hz). exists ds. split; [done|].
  change (pretty p) with (pretty_N_go (N.pos p) ""). specialize (Ht ""%string). destruct (Hz ""%string ltac:(done)) as (c & t & Heq & Hc).
  rewrite Heq in *. cbn [take_digits fst snd] in Ht. rewrite app_nil_r in Ht. split.
  - cbn [integer_part]. rewrite bool_decide_eq_false_2 by done. unfold some_digits. cbn [take_digits]. rewrite Ht. destruct ds; [|done]. by cbn in Hv.
  - cbn [number_sign]. rewrite bool_decide_eq_false_2; [done|]. intros ->. cbn in Ht. injection Ht as <-. by cbn in Hv.
Qed.

Lemma pretty_lit (z : Z) : ∃ ds, number_lit (pretty z) = Some (mkNumLit (bool_decide (z < 0)%Z) ds [] None, ""%string) ∧ digits_value ds = Z.abs z.
Proof.
  destruct z as [|p|p].
  - exists [0%Z]. split; reflexivity.
  - destruct (pretty_pos_lit p) as (ds & Hv & Hi & Hs). exists ds. split; [|done]. change (pretty (Z.pos p)) with (pretty p).
    unfold number_lit. by rewrite Hs, Hi.
  - destruct (pretty_pos_lit p) as (ds & Hv & Hi & _). exists ds. split; [|done]. change (pretty (Z.neg p)) with (String "-"%char (pretty p)).
    unfold number_lit. cbn [number_sign]. rewrite bool_decide_eq_true_2 by done. by rewrite Hi.
Qed.

Lemma lit_int_pretty z : (- Int.two63 ≤ z < Int.two63)%Z → lit_int (lit_of (pretty z)) = Some z.
Proof.
  intros Hz. destruct (pretty_lit z) as (ds & Hl & Hv). unfold lit_of, lit_int. rewrite Hl. cbn [nl_neg nl_int nl_frac nl_exp]. rewrite Hv.
  assert ((if bool_decide (z < 0)%Z then - Z.abs z else Z.abs z) = z)%Z as -> by (case_bool_decide; lia). by rewrite bool_decide_eq_true_2.
Qed.

Lemma to_int_of_int z : (0 ≤ z < 2 ^ 53)%Z → to_int (of_int z) = z.
Proof.
  intros Hz. pose proof (of_int_exact z Hz) as Hv. pose proof (of_int_nonneg z ltac:(lia)) as Hn. destruct (of_int z) as [s|s| |s m e]; try done.
  { by apply (proj1 (inject_Z_injective 0 z)) in Hv. }
  destruct s; [done|]. cbn [fval] in Hv. cbn [to_int]. rewrite Qmult_1_l in Hv. destruct (Z.leb_spec 0 e) as [He|He].
  - rewrite pow2_Z, <- inject_Z_mult in Hv by done. by apply (proj1 (inject_Z_injective _ _)) in Hv.
  - assert (Z.pos m = z * 2 ^ (- e))%Z as ->; [|by rewrite Z.div_mul by lia].
    apply (proj1 (inject_Z_injective _ _)). rewrite inject_Z_mult, <- pow2_Z, <- Hv by lia. rewrite <- Qmult_assoc, <- pow2_plus.
    replace (e + - e)%Z with 0%Z by lia. rewrite pow2_0. by rewrite Qmult_1_r.
Qed.

Lemma feq_refl x : is_nan x = false → feq x x = true.
Proof.
  intros Hx. pose proof (fle_refl x Hx) as H. revert H. unfold fle, feq, SFleb, SFeqb. destruct x as [[]|[]| |[] m e]; try done; cbn [SFcompare].
  all: rewrite Z.compare_refl, Pos.compare_cont_refl; done.
Qed.

(** ** Requests as clients encode them *)

Section encoded.
Context (FormatFloat : float64 → string).

#[local] Abbreviation doc_of := (doc_of FormatFloat).

(** A field that is omitted when it is empty. *)
Definition omit (k s : string) : JsonObject := if bool_decide (s = ""%string) then [] else [(k, JString s)].

Definition block_json (b : ContentBlock) : JSON :=
  JObject ([("type"%string, JString (cb_Type b))] ++ omit "text" (cb_Text b) ++
    [("image_url"%string, JObject (omit "url" (cb_ImageURL b)));
     ("input_audio"%string, JObject (omit "data" (cb_AudioData b) ++ omit "format" (cb_AudioFormat b)));
     ("video_url"%string, JObject (omit "url" (cb_VideoURL b)))]).

Definition content_json (c : Content) : JSON :=
  if bool_decide (ct_Raw c ≠ ""%string) then JString (ct_Raw c)
  else match ct_Structured c with Some blocks => JArray (block_json <$> blocks) | None => JString "" end.

Definition message_json (m : SchedTypes.Message) : JSON :=
  JObject (omit "role" (ms_Role m) ++ [("content"%string, content_json (ms_Content m))]).

(** A message has a text or blocks. *)
Definition message_wf (m : SchedTypes.Message) : Prop := ct_Raw (ms_Content m) = ""%string ∨ ct_Structured (ms_Content m) = None.

Definition prompt_json (p : Prompt) : JSON :=
  if bool_decide (pr_Raw p ≠ ""%string) then JString (pr_Raw p)
  else if bool_decide (pr_Strings p ≠ []) then JArray (JString <$> pr_Strings p)
  else JArray (JInt <$> pr_TokenIDs p).

(** A prompt is a text, texts or tokens. *)
Definition prompt_wf (p : Prompt) : Prop :=
  pr_Raw p ≠ ""%string ∧ pr_Strings p = [] ∧ pr_TokenIDs p = [] ∨
  pr_Raw p = ""%string ∧ pr_Strings p ≠ [] ∧ pr_TokenIDs p = [] ∨
  pr_Raw p = ""%string ∧ pr_Strings p = [] ∧ pr_TokenIDs p ≠ [] ∧ Forall (λ t, 0 ≤ t < 2 ^ 32)%Z (pr_TokenIDs p).

Definition item_json (i : ConversationItem) : JSON :=
  JObject (omit "type" (ci_Type i) ++ omit "role" (ci_Role i) ++ [("content"%string, ci_Content i)]).

(** A value of any type: its numbers are floats. *)
Definition any_value (j : JSON) : Prop := json_wf FormatFloat j ∧ decoded j = j.

Lemma any_read j : any_value j → dec_any JNull (doc_of j) = (j, true).
Proof using Type. intros [Hw Hd]. unfold dec_any. destruct (doc_of_converts _ _ Hw) as [-> ->]. by rewrite Hd. Qed.

Lemma anys_read l l0 : Forall any_value l → dec_anys l0 (doc_of (JArray l)) = (l, true).
Proof using Type.
  intros Hl. rewrite doc_of_array. cbn [dec_anys]. f_equal.
  - rewrite <- list_fmap_compose. rewrite <- (list_fmap_id l) at 2. apply list_fmap_ext. intros i j Hj%list_elem_of_lookup_2. rewrite Forall_forall in Hl.
    pose proof (any_read _ (Hl _ Hj)) as H. by injection H.
  - apply Is_true_true, forallb_True, Forall_fmap, Forall_forall. intros j Hj. rewrite Forall_forall in Hl. pose proof (any_read _ (Hl _ Hj)) as H. simpl.
    injection H as _ ->. done.
Qed.

Lemma map_read m0 : any_value (JObject m0) → dec_map (Some []) (doc_of (JObject m0)) = (Some m0, true).
Proof using Type.
  intros Hm. pose proof (any_read _ Hm) as H. rewrite doc_of_object in *. unfold dec_any in H. rewrite to_any_object, any_ok_object in H.
  unfold dec_map. simpl from_option. injection H as -> ->. done.
Qed.

Lemma block_read b : dec_struct openai.block_fields openai.zero_block (doc_of (block_json b)) = (b, true).
Proof using Type. destruct b as [ty text image data format video]. unfold block_json, omit. cbn [cb_Type cb_Text cb_ImageURL cb_AudioData cb_AudioFormat cb_VideoURL].
  repeat case_bool_decide; subst; reflexivity.
Qed.

Lemma slice_read {A} (zero : A) (dec : Decode A) (json : A → JSON) l : Forall (λ x, dec zero (doc_of (json x)) = (x, true)) l →
  dec_slice zero dec ([], []) (doc_of (JArray (json <$> l))) = ((l, []), true).
Proof using Type.
  intros Hl. rewrite doc_of_array. destruct l as [|x l]; [done|]. cbn [fmap list_fmap dec_slice fst snd app]. change (doc_of (json x) :: ?t) with (doc_of <$> (json <$> x :: l)).
  rewrite <- list_fmap_compose. assert (imap (λ i d, dec (default zero ([] !! i)) d) (doc_of ∘ json <$> x :: l) = (λ x, (x, true)) <$> x :: l) as ->.
  { apply list_eq. intros i. rewrite list_lookup_imap, !list_lookup_fmap. destruct ((x :: l) !! i) as [y|] eqn:Hy; [|done]. cbn. f_equal.
    rewrite Forall_forall in Hl. apply Hl. by eapply list_elem_of_lookup_2. }
  rewrite drop_nil. f_equal; [f_equal; rewrite <- list_fmap_compose; by rewrite list_fmap_id|].
  apply Is_true_true, forallb_True, Forall_fmap, Forall_true. done.
Qed.

Lemma content_read c : ct_Raw c = ""%string ∨ ct_Structured c = None →
  openai.Content_UnmarshalJSON (mkContent "" None) (doc_of (content_json c)) = (c, true).
Proof using Type.
  destruct c as [raw blocks]. unfold content_json. cbn [ct_Raw ct_Structured]. intros Hc. case_bool_decide as Hr.
  - destruct Hc as [?| ->]; [done|]. reflexivity.
  - subst raw. destruct blocks as [blocks|]; [|reflexivity]. unfold openai.Content_UnmarshalJSON.
    assert (∀ s, dec_string s (doc_of (JArray (block_json <$> blocks))) = (s, false)) as -> by (intros; by rewrite doc_of_array).
    rewrite slice_read; [done|]. apply Forall_true, block_read.
Qed.

Lemma message_read m : message_wf m → dec_struct openai.message_fields openai.zero_message (doc_of (message_json m)) = (m, true).
Proof using Type.
  intros Hm. destruct m as [role c]. pose proof (content_read _ Hm) as Hc. cbn [ms_Content] in Hc.
  assert (∀ m0, ms_Content m0 = mkContent "" None → part ms_Content (λ v m, mkMessage (ms_Role m) v) openai.Content_UnmarshalJSON m0 (doc_of (content_json c)) =
    (mkMessage (ms_Role m0) c, true)) as Hp by (intros m0 E; unfold part; by rewrite E, Hc).
  assert (find_field openai.message_fields "content" = Some (part ms_Content (λ v m, mkMessage (ms_Role m) v) openai.Content_UnmarshalJSON)) as Hf by reflexivity.
  assert (find_field openai.message_fields "role" = Some (part ms_Role (λ v m, mkMessage v (ms_Content m)) dec_string)) as Hr by reflexivity.
  unfold message_json, omit. cbn [ms_Role ms_Content]. rewrite doc_of_object. case_bool_decide; subst; cbn [app docs_of fmap list_fmap fst snd dec_struct foldl].
  - unfold dec_member. cbn [fst snd]. by rewrite Hf, Hp.
  - unfold dec_member. cbn [fst snd]. rewrite Hf, Hr. cbn [part dec_string JsonTyped.doc_of fst snd]. by rewrite Hp.
Qed.

Lemma item_read i : any_value (ci_Content i) → dec_struct openai.item_fields openai.zero_item (doc_of (item_json i)) = (i, true).
Proof using Type.
  intros Hi. destruct i as [ty role c]. pose proof (any_read _ Hi) as Hc. cbn [ci_Content] in Hc. unfold dec_any in Hc.
  assert (∀ i0, part ci_Content (λ v i, mkConversationItem (ci_Type i) (ci_Role i) v) dec_any i0 (doc_of c) = (mkConversationItem (ci_Type i0) (ci_Role i0) c, true)) as Hp
    by (intros i0; unfold part, dec_any; injection Hc as -> ->; done).
  assert (find_field openai.item_fields "content" = Some (part ci_Content (λ v i, mkConversationItem (ci_Type i) (ci_Role i) v) dec_any)) as Hf by reflexivity.
  assert (find_field openai.item_fields "type" = Some (part ci_Type (λ v i, mkConversationItem v (ci_Role i) (ci_Content i)) dec_string)) as Ht by reflexivity.
  assert (find_field openai.item_fields "role" = Some (part ci_Role (λ v i, mkConversationItem (ci_Type i) v (ci_Content i)) dec_string)) as Hr by reflexivity.
  unfold item_json, omit. cbn [ci_Type ci_Role ci_Content]. rewrite doc_of_object.
  do 2 case_bool_decide; subst; cbn [app docs_of fmap list_fmap fst snd dec_struct foldl]; unfold dec_member; cbn [fst snd]; rewrite Hf, ?Hr, ?Ht;
    cbn [part dec_string JsonTyped.doc_of fst snd]; by rewrite Hp.
Qed.

Section prompts.
Context (convert : float64 → Z).

Lemma token_read t : (0 ≤ t < 2 ^ 32)%Z → openai.token_id convert (JNumber (of_int t)) = Some t.
Proof using Type.
  intros Ht. cbn [openai.token_id]. unfold openai.uint32_of. rewrite to_int_of_int by lia. rewrite bool_decide_eq_true_2 by done. rewrite feq_refl; [done|].
  apply nonneg_not_nan, of_int_nonneg. lia.
Qed.

Lemma texts_read l : l ≠ [] → openai.parseArrayInput convert (JString <$> l) = Some (l, []).
Proof using Type.
  intros Hl. destruct l as [|s l]; [done|]. unfold openai.parseArrayInput. cbn [fmap list_fmap]. change (JString s :: (JString <$> l)) with (JString <$> s :: l).
  assert (mapM (λ v, match v with JString s => Some s | _ => None end) (JString <$> s :: l) = Some (s :: l)) as ->; [|done].
  generalize (s :: l). clear. induction l as [|s l IH]; [done|]. cbn. by rewrite IH.
Qed.

Lemma tokens_read l : l ≠ [] → Forall (λ t, 0 ≤ t < 2 ^ 32)%Z l → openai.parseArrayInput convert ((λ t, JNumber (of_int t)) <$> l) = Some ([], l).
Proof using Type.
  intros Hl Hr. destruct l as [|t l]; [done|]. unfold openai.parseArrayInput. cbn [fmap list_fmap]. change (JNumber (of_int t) :: _) with ((λ t, JNumber (of_int t)) <$> t :: l).
  assert (mapM (openai.token_id convert) ((λ t, JNumber (of_int t)) <$> t :: l) = Some (t :: l)) as ->; [|done].
  revert Hr. generalize (t :: l). clear. induction 1 as [|t l Ht _ IH]; [done|]. cbn [fmap list_fmap mapM]. rewrite token_read by done. cbn [mbind option_bind]. by rewrite IH.
Qed.

Lemma prompt_json_wf p : text_ok FormatFloat (prompt_json p) → json_wf FormatFloat (prompt_json p).
Proof using Type.
  unfold prompt_json. repeat case_bool_decide; [done|rewrite wf_array, text_array, !Forall_fmap; intros Hl; by (eapply Forall_impl; [exact Hl|])..].
Qed.

Lemma prompt_read p : prompt_wf p → text_ok FormatFloat (prompt_json p) →
  openai.Prompt_UnmarshalJSON convert openai.zero_prompt (doc_of (prompt_json p)) = (p, true) ∧ Prompt_IsEmpty p = false.
Proof using Type.
  intros Hp Hw%prompt_json_wf. unfold openai.Prompt_UnmarshalJSON. destruct (doc_of_converts _ _ Hw) as [-> ->]. clear Hw. destruct p as [raw ss ids].
  unfold prompt_wf, prompt_json, Prompt_IsEmpty in *. cbn [pr_Raw pr_Strings pr_TokenIDs] in *. destruct Hp as [(Hr & -> & ->)|[(-> & Hs & ->)|(-> & -> & Hi & Hall)]].
  - rewrite bool_decide_eq_true_2 by done. split; [done|]. by rewrite bool_decide_eq_false_2.
  - rewrite bool_decide_eq_false_2 by (by intros []). rewrite bool_decide_eq_true_2 by done. rewrite decoded_array, <- list_fmap_compose.
    rewrite (list_fmap_ext (decoded ∘ JString) JString) by done. rewrite texts_read by done. split; [done|]. destruct ss; [done|].
    rewrite (bool_decide_eq_false_2 (length _ = 0)) by done. by rewrite andb_false_r.
  - rewrite bool_decide_eq_false_2 by (by intros []). rewrite bool_decide_eq_false_2 by (by intros []). rewrite decoded_array, <- list_fmap_compose.
    rewrite (list_fmap_ext (decoded ∘ JInt) (λ t, JNumber (of_int t))) by done. rewrite tokens_read by done. split; [done|]. destruct ids; [done|].
    rewrite (bool_decide_eq_false_2 (length (z :: ids) = 0)) by done. by rewrite andb_false_r.
Qed.
End prompts.

(** *** Bodies *)

(** A field of the object has a value, or is missing when the value is the empty one. *)
Definition given (m : JsonObject) (k : string) (v : JSON) (empty : Prop) : Prop :=
  obj_lookup k m = Some v ∨ empty ∧ obj_lookup k m = None.

Definition chat_given (m : JsonObject) (c : ChatCompletionsRequest) : Prop :=
  given m "messages" (JArray (message_json <$> cc_Messages c)) False ∧
  given m "tools" (JArray (cc_Tools c)) (cc_Tools c = []) ∧
  given m "documents" (JArray (cc_Documents c)) (cc_Documents c = []) ∧
  given m "chat_template" (JString (cc_ChatTemplate c)) (cc_ChatTemplate c = ""%string) ∧
  given m "return_assistant_tokens_mask" (JBool (cc_ReturnAssistantTokensMask c)) (cc_ReturnAssistantTokensMask c = false) ∧
  given m "continue_final_message" (JBool (cc_ContinueFinalMessage c)) (cc_ContinueFinalMessage c = false) ∧
  given m "add_generation_prompt" (JBool (cc_AddGenerationPrompt c)) (cc_AddGenerationPrompt c = false) ∧
  given m "chat_template_kwargs" (JObject (cc_ChatTemplateKWArgs c)) (cc_ChatTemplateKWArgs c = []) ∧
  given m "cache_salt" (JString (cc_CacheSalt c)) (cc_CacheSalt c = ""%string).

(** What a client asks for with an object at an API. *)
Inductive asks (m : JsonObject) : string → InferenceRequestBody → Prop :=
  | asks_completions p salt : prompt_wf p → given m "prompt" (prompt_json p) False → given m "cache_salt" (JString salt) (salt = ""%string) →
      plain_keys ["prompt"; "cache_salt"]%string m.*1 →
      asks m openai.completionsAPI (mkBody (Some (mkCompletions p salt)) None None None None None false)
  | asks_chat c : chat_given m c → cc_Messages c ≠ [] → Forall message_wf (cc_Messages c) → Forall any_value (cc_Tools c) →
      Forall any_value (cc_Documents c) → any_value (JObject (cc_ChatTemplateKWArgs c)) → plain_keys openai.chat_fields.*1 m.*1 →
      asks m openai.chatCompletionsAPI (mkBody None (Some c) None None None None false)
  | asks_responses r : given m "input" (rr_Input r) False → rr_Input r ≠ JNull → any_value (rr_Input r) →
      given m "instructions" (default JNull (rr_Instructions r)) (rr_Instructions r = None) → any_value (default JNull (rr_Instructions r)) →
      given m "tools" (default JNull (rr_Tools r)) (rr_Tools r = None) → any_value (default JNull (rr_Tools r)) →
      rr_Instructions r ≠ Some JNull → rr_Tools r ≠ Some JNull →
      given m "cache_salt" (JString (rr_CacheSalt r)) (rr_CacheSalt r = ""%string) → plain_keys openai.responses_fields.*1 m.*1 →
      asks m openai.responsesAPI (mkBody None None (Some r) None None None false)
  | asks_conversations c : given m "items" (JArray (item_json <$> cv_Items c)) False → cv_Items c ≠ [] → Forall (λ i, any_value (ci_Content i)) (cv_Items c) →
      given m "metadata" (JObject (cv_Metadata c)) (cv_Metadata c = []) → any_value (JObject (cv_Metadata c)) →
      given m "cache_salt" (JString (cv_CacheSalt c)) (cv_CacheSalt c = ""%string) → plain_keys openai.conversations_fields.*1 m.*1 →
      asks m openai.conversationsAPI (mkBody None None None (Some c) None None false)
  | asks_embeddings p salt : prompt_wf p → given m "input" (prompt_json p) False → given m "cache_salt" (JString salt) (salt = ""%string) →
      plain_keys ["input"; "cache_salt"]%string m.*1 →
      asks m openai.embeddingsAPI (mkBody None None None None (Some (mkEmbeddings p salt)) None false).
End encoded.

(** *** What is read *)

Section read.
Context (convert : float64 → Z) (json_error : string → string) (FormatFloat : float64 → string).

#[local] Abbreviation doc_of := (doc_of FormatFloat).
#[local] Abbreviation docs_of := (docs_of FormatFloat).

Lemma apply_given {A B} (m : JsonObject) k v (empty : Prop) (get : A → B) set dec a b : given m k v empty → dec (get a) (doc_of v) = (b, true) →
  (empty → set b a = a) → apply_opt (a, true) (part get set dec) (member k (docs_of m)) = (set b a, true).
Proof using Type.
  intros Hg Hd He. rewrite member_docs. destruct Hg as [->|[Hz ->]]; cbn [fmap option_fmap option_map apply_opt].
  - unfold part. cbn [fst snd]. by rewrite Hd.
  - by rewrite He.
Qed.

Lemma chat_separate : separate openai.chat_fields.
Proof using Type. unfold openai.chat_fields, openai.chat_part. separate_parts. Qed.
Lemma completions_separate : separate (openai.completions_fields convert).
Proof using Type. unfold openai.completions_fields. separate_parts. Qed.
Lemma embeddings_separate : separate (openai.embeddings_fields convert).
Proof using Type. unfold openai.embeddings_fields. separate_parts. Qed.
Lemma responses_separate : separate openai.responses_fields.
Proof using Type. unfold openai.responses_fields. separate_parts. Qed.
Lemma conversations_separate : separate openai.conversations_fields.
Proof using Type. unfold openai.conversations_fields. separate_parts. Qed.

(** An object that a client may send: its texts can be read, and no name occurs twice. *)
Definition sendable (m : JsonObject) : Prop :=
  text_ok FormatFloat (JObject m) ∧ json_depth (JObject m) ≤ maxNestingDepth ∧ NoDup m.*1.

#[local] Abbreviation text m := (JSON_Marshal FormatFloat (JObject m)).

Lemma object_decodes {A} (fields : Fields A) a m : sendable m → separate fields → plain_keys fields.*1 m.*1 →
  UnmarshalInto (dec_struct fields) a (text m) = by_fields fields (docs_of m) (a, true).
Proof using Type.
  intros (Ht & Hd & Hnd) Hs Hp. unfold UnmarshalInto. rewrite document_Marshal, doc_of_object by done.
  apply struct_by_fields; [done|by rewrite docs_of_keys..].
Qed.

(** The next field, with the value [v]. *)
Ltac step v H :=
  rewrite (apply_given _ _ _ _ _ _ _ _ v H);
  cbn [fst snd from_option id openai.zero_chat cc_Messages cc_Tools cc_Documents cc_ChatTemplate cc_ReturnAssistantTokensMask cc_ContinueFinalMessage
       cc_AddGenerationPrompt cc_ChatTemplateKWArgs cc_CacheSalt].

Lemma chat_decodes m c : sendable m → chat_given m c → Forall message_wf (cc_Messages c) → Forall (any_value FormatFloat) (cc_Tools c) →
  Forall (any_value FormatFloat) (cc_Documents c) → any_value FormatFloat (JObject (cc_ChatTemplateKWArgs c)) → plain_keys openai.chat_fields.*1 m.*1 →
  UnmarshalInto (dec_struct openai.chat_fields) (openai.zero_chat, []) (text m) = ((c, []), true).
Proof using Type.
  intros Hm (H1 & H2 & H3 & H4 & H5 & H6 & H7 & H8 & H9) Hms Ht Hd Hk Hp. rewrite object_decodes; [|done|apply chat_separate|done].
  destruct c as [ms tools docs tpl mask cont add kw salt]. cbn in H1, H2, H3, H4, H5, H6, H7, H8, H9, Hms, Ht, Hd, Hk.
  unfold by_fields, openai.chat_fields, openai.chat_part. cbn [foldl fst snd].
  step (ms, @nil SchedTypes.Message) H1; [|apply slice_read; eapply Forall_impl; [exact Hms|]; intros x; apply message_read|done].
  step tools H2; [|by apply anys_read|by intros ->]. step docs H3; [|by apply anys_read|by intros ->].
  step tpl H4; [|done|by intros ->]. step mask H5; [|done|by intros ->]. step cont H6; [|done|by intros ->].
  step add H7; [|done|by intros ->]. step (Some kw) H8; [|by apply map_read|by intros ->]. step salt H9; [done|done|by intros ->].
Qed.

Lemma sendable_value m k v : sendable m → obj_lookup k m = Some v → text_ok FormatFloat v.
Proof using Type.
  intros (Ht & _ & _) Hl%obj_lookup_elem. rewrite text_object, Forall_fmap, Forall_forall in Ht. by apply (Ht _ Hl).
Qed.

Lemma completions_decodes m p salt : sendable m → prompt_wf p → given m "prompt" (prompt_json p) False → given m "cache_salt" (JString salt) (salt = ""%string) →
  plain_keys ["prompt"; "cache_salt"]%string m.*1 →
  UnmarshalInto (dec_struct (openai.completions_fields convert)) (mkCompletions openai.zero_prompt "") (text m) = (mkCompletions p salt, true) ∧ Prompt_IsEmpty p = false.
Proof using Type.
  intros Hm Hw H1 H2 Hp. destruct H1 as [H1|[[] _]]. destruct (prompt_read FormatFloat convert p Hw) as [Hr He]; [by eapply sendable_value|]. split; [|done].
  rewrite object_decodes; [|done|apply completions_separate|done]. unfold by_fields, openai.completions_fields. cbn [foldl fst snd].
  rewrite (apply_given m _ _ False _ _ _ _ p (or_introl H1)); [|done|done]. rewrite (apply_given m _ _ _ _ _ _ _ salt H2); [done|done|by intros ->].
Qed.

Lemma embeddings_decodes m p salt : sendable m → prompt_wf p → given m "input" (prompt_json p) False → given m "cache_salt" (JString salt) (salt = ""%string) →
  plain_keys ["input"; "cache_salt"]%string m.*1 →
  UnmarshalInto (dec_struct (openai.embeddings_fields convert)) (mkEmbeddings openai.zero_prompt "") (text m) = (mkEmbeddings p salt, true) ∧ Prompt_IsEmpty p = false.
Proof using Type.
  intros Hm Hw H1 H2 Hp. destruct H1 as [H1|[[] _]]. destruct (prompt_read FormatFloat convert p Hw) as [Hr He]; [by eapply sendable_value|]. split; [|done].
  rewrite object_decodes; [|done|apply embeddings_separate|done]. unfold by_fields, openai.embeddings_fields. cbn [foldl fst snd].
  rewrite (apply_given m _ _ False _ _ _ _ p (or_introl H1)); [|done|done]. rewrite (apply_given m _ _ _ _ _ _ _ salt H2); [done|done|by intros ->].
Qed.

Lemma any_decodes j j0 : any_value FormatFloat j → dec_any j0 (doc_of j) = (j, true).
Proof using Type. apply any_read. Qed.

Lemma any_nil_default o : o ≠ Some JNull → openai.any_nil (default JNull o) = o.
Proof using Type. destruct o as [[]|]; done. Qed.

Lemma responses_decodes m r : sendable m → given m "input" (rr_Input r) False → any_value FormatFloat (rr_Input r) →
  given m "instructions" (default JNull (rr_Instructions r)) (rr_Instructions r = None) → any_value FormatFloat (default JNull (rr_Instructions r)) →
  given m "tools" (default JNull (rr_Tools r)) (rr_Tools r = None) → any_value FormatFloat (default JNull (rr_Tools r)) →
  rr_Instructions r ≠ Some JNull → rr_Tools r ≠ Some JNull →
  given m "cache_salt" (JString (rr_CacheSalt r)) (rr_CacheSalt r = ""%string) → plain_keys openai.responses_fields.*1 m.*1 →
  UnmarshalInto (dec_struct openai.responses_fields) openai.zero_responses (text m) = (r, true).
Proof using Type.
  intros Hm H1 Hi H2 Hin H3 Ht Hn1 Hn2 H4 Hp. rewrite object_decodes; [|done|apply responses_separate|done]. destruct r as [input instr tools salt]. cbn in *.
  unfold by_fields, openai.responses_fields. cbn [foldl fst snd]. rewrite (apply_given m _ _ _ _ _ _ _ input H1); [|by apply any_decodes|done].
  rewrite (apply_given m _ _ _ _ _ _ _ (default JNull instr) H2); [|by apply any_decodes|by intros ->]. rewrite any_nil_default by done.
  rewrite (apply_given m _ _ _ _ _ _ _ (default JNull tools) H3); [|by apply any_decodes|by intros ->]. rewrite any_nil_default by done.
  rewrite (apply_given m _ _ _ _ _ _ _ salt H4); [done|done|by intros ->].
Qed.

Lemma conversations_decodes m c : sendable m → given m "items" (JArray (item_json <$> cv_Items c)) False →
  Forall (λ i, any_value FormatFloat (ci_Content i)) (cv_Items c) →
  given m "metadata" (JObject (cv_Metadata c)) (cv_Metadata c = []) → any_value FormatFloat (JObject (cv_Metadata c)) →
  given m "cache_salt" (JString (cv_CacheSalt c)) (cv_CacheSalt c = ""%string) → plain_keys openai.conversations_fields.*1 m.*1 →
  UnmarshalInto (dec_struct openai.conversations_fields) (mkConversations [] [] "", []) (text m) = ((c, []), true).
Proof using Type.
  intros Hm H1 Hi H2 Hme H3 Hp. rewrite object_decodes; [|done|apply conversations_separate|done]. destruct c as [items meta salt]. cbn in *.
  unfold by_fields, openai.conversations_fields. cbn [foldl fst snd].
  rewrite (apply_given m _ _ _ _ _ _ _ (items, []) H1); [|apply slice_read; eapply Forall_impl; [exact Hi|]; intros x; apply item_read|done].
  rewrite (apply_given m _ _ _ _ _ _ _ (Some meta) H2); [|by apply map_read|by intros ->].
  rewrite (apply_given m _ _ _ _ _ _ _ salt H3); [done|done|by intros ->].
Qed.

Lemma body_extracted m headers b : sendable m → asks FormatFloat m (openai.determineAPITypeFromPath (openai.getRequestPath headers)) b →
  openai.extractRequestBody convert (text m) headers = inl b.
Proof using Type.
  intros Hm Ha. unfold openai.extractRequestBody. remember (openai.determineAPITypeFromPath _) as api eqn:Hapi. clear Hapi.
  destruct Ha as [p salt|c Hg Hne|r|c|p salt].
  - destruct (completions_decodes m p salt) as [-> He]; [done..|]. cbn [cr_Prompt]. rewrite He. done.
  - rewrite (chat_decodes m c) by done. cbn [fst]. destruct (cc_Messages c); done.
  - rewrite (responses_decodes m r) by done. destruct (rr_Input r); done.
  - rewrite (conversations_decodes m c) by done. cbn [fst]. destruct (cv_Items c); done.
  - destruct (embeddings_decodes m p salt) as [-> He]; [done..|]. cbn [er_Input]. rewrite He. done.
Qed.

Lemma map_decoded m : sendable m → UnmarshalMap (text m) = Some (Some (into_map [] (docs_of m))).
Proof using Type.
  intros (Ht & Hd & _). unfold UnmarshalMap. rewrite Unmarshal_by_document, document_Marshal by done. cbn [mbind option_bind].
  rewrite (any_ok_text _ _ Ht), doc_of_object, to_any_object. done.
Qed.
End read.

(** ** The body that is forwarded *)

Section forwarded.
Context {S : Type} (d : Director S) (dd : DirectorDraws).
Context (FormatFloat : float64 → string) (Error_text : GoError → string).

Lemma prepare_keeps request result (s s' : DState S) : prepareRequest d request result s = Some (inl tt, s') →
  ds_payload s' = ds_payload s ∧ rc_TargetModelName (ds_ctx s') = rc_TargetModelName (ds_ctx s).
Proof using Type.
  unfold prepareRequest. case_bool_decide; [done|]. destruct (sr_ProfileResults result !! _) as [[[|pod pods]|]|]; try done.
  intros [= <-]. done.
Qed.

(** A request that is let through has its model replaced, and its payload encoded. *)
Lemma handled_body body fields (s s' : DState S) : ds_payload s = PayloadMap fields →
  HandleRequest d dd FormatFloat Error_text body s = Some (inl tt, s') →
  ∃ incoming, fields !! "model"%string = Some (JString incoming) ∧
    rc_RawBody (ds_ctx s') = marshal_payload FormatFloat (<["model"%string := JString (rc_TargetModelName (ds_ctx s'))]> fields).
Proof using Type.
  intros Hp. unfold HandleRequest, ebindM, modelRewriteIfNeeded, mbind, gom_bind, gets. cbn. rewrite Hp. unfold mutateModel.
  destruct (fields !! "model"%string) as [[| | | |incoming| |]|]; try done. destruct (applyWeightedModelRewrite _ _ _) as [c|]; [|done]. cbn.
  intros H. exists incoming. split; [done|]. revert H. destruct (d_Admit _ _ _); [done|]. case_bool_decide; [done|]. cbn.
  destruct (runPrepareDataPlugins _ _ _ _ _) as [[request eps] p]. cbn. destruct (negb _); [done|]. destruct (d_Schedule _ _ _) as [[[result|err] request']|]; [|done|done]. cbn.
  match goal with |- context [prepareRequest d request' result ?st] => destruct (prepareRequest d request' result st) as [[[[]|err] s1]|] eqn:E end; [|done|done].
  apply prepare_keeps in E as [E1 E2]. cbn in E1, E2. unfold repackage, mbind, gom_bind, gets. cbn. rewrite E1. cbn. intros [= <-]. cbn. by rewrite E2.
Qed.
End forwarded.

(** *** The encoded map *)

Lemma obj_lookup_map k m : (list_to_map m : gmap string JSON) !! k = obj_lookup k m.
Proof.
  induction m as [|[k' v] m IH]; [done|]. cbn [list_to_map foldr obj_lookup fst snd]. case_bool_decide as Hk; [subst; by rewrite lookup_insert_eq|].
  by rewrite lookup_insert_ne.
Qed.

Lemma le_not_eq a b : String.le a b → a ≠ b → String.compare a b = Lt.
Proof.
  unfold String.le, String.leb. destruct (String.compare a b) eqn:E; [|done|done]. apply String.compare_eq_iff in E. done.
Qed.

Lemma le_sorted_keys (l : JsonObject) : StronglySorted (λ a b, String.le a.1 b.1) l → NoDup l.*1 → obj_sorted l.
Proof.
  induction 1 as [|f l Hs IH Hall]; [constructor|]. cbn [fmap list_fmap]. intros [Hf Hnd]%NoDup_cons. constructor; [by apply IH|].
  apply Forall_forall. intros g Hg. rewrite Forall_forall in Hall. apply le_not_eq; [by apply Hall|]. intros Heq. apply Hf. rewrite Heq.
  apply list_elem_of_fmap. by exists g.
Qed.

Lemma sorted_fields (M : gmap string JSON) (m : JsonObject) : obj_sorted m → (∀ k, M !! k = obj_lookup k m) →
  merge_sort (λ a b, String.le a.1 b.1) (map_to_list M) = m.
Proof.
  intros Hs Hl. assert (merge_sort (λ a b, String.le a.1 b.1) (map_to_list M) ≡ₚ map_to_list M) as Hperm by apply merge_sort_Permutation.
  apply obj_ext; [|done|].
  - apply le_sorted_keys; [|rewrite Hperm; apply NoDup_fst_map_to_list]. apply StronglySorted_merge_sort.
    + intros a b c Hab Hbc. by etrans.
    + intros a b. apply (total String.le).
  - intros k. rewrite <- Hl, <- obj_lookup_map. f_equal. rewrite <- (list_to_map_to_list M) at 2. apply list_to_map_proper; [|done].
    rewrite Hperm. apply NoDup_fst_map_to_list.
Qed.

Lemma payload_encoded FormatFloat k v (m : JsonObject) : obj_sorted m →
  marshal_payload FormatFloat (<[k := v]> (list_to_map m)) = JSON_Marshal FormatFloat (JObject (obj_insert k v m)).
Proof.
  intros Hs. unfold marshal_payload. rewrite (sorted_fields _ (obj_insert k v m)); [done|by apply obj_insert_sorted|].
  intros k'. destruct (decide (k' = k)) as [->|Hne]; [by rewrite lookup_insert_eq, obj_lookup_insert_eq|].
  rewrite lookup_insert_ne, obj_lookup_insert_ne by done. apply obj_lookup_map.
Qed.

Lemma parsed_payload convert json_error body headers b p :
  openai.ParseRequest convert json_error body headers = inl (b, p) →
  ∃ m, UnmarshalMap (String.string_of_list_ascii body) = Some m ∧ p = PayloadMap (list_to_map (default [] m)).
Proof.
  unfold openai.ParseRequest. destruct (UnmarshalMap _) as [m|]; [|done]. destruct (openai.extractRequestBody _ _ _); [|done]. intros [= _ <-]. by eexists.
Qed.

Lemma replaced_decodes FormatFloat k t text m : UnmarshalMap text = Some (Some m) → numbers_ok FormatFloat (JObject m) →
  UnmarshalMap (JSON_Marshal FormatFloat (JObject (obj_insert k (JString t) m))) = Some (Some (obj_insert k (JString t) m)).
Proof.
  intros Hm Hn. destruct (decoded_good _ _ _ Hm Hn) as [Hg Hd].
  assert (obj_good FormatFloat (obj_insert k (JString t) m)) as Hgi.
  { apply good_insert; [|done]. split; [done|]. rewrite depth_unfold. simpl. lia. }
  rewrite encoded_decodes by done. do 2 f_equal. pose proof (good_sorted _ _ Hgi) as Hs. apply obj_ext; [by apply decoded_sorted|done|].
  intros k'. rewrite obj_lookup_decoded. destruct (decide (k' = k)) as [->|Hne]; [by rewrite obj_lookup_insert_eq|].
  rewrite obj_lookup_insert_ne by done. by rewrite <- obj_lookup_decoded, Hd.
Qed.

(** *** The two claims *)

Definition stream_asked (m : JsonObject) : bool := match obj_lookup "stream" m with Some (JBool b) => b | _ => false end.


(** The bytes of the body that the proxy is told to send. *)
Definition body_sent (r : ProcessingResponse) : bytes := match r with RequestBodyResponse body _ => body | _ => [] end.

(** C9. The model server gets the request of the client. When the end of a request has arrived
    and the director lets it through, the body in the answers to the proxy decodes to the
    object that the client sent, with the model replaced by the target model of the request and
    all other fields as they were. The texts of the numbers have to decode to them, as those of
    Go's encoder do. *)
Theorem client_body_forwarded {S : Type} (d : Director S) (dd : DirectorDraws) (convert : float64 → Z) (json_error : string → string)
    (FormatFloat : float64 → string) (Error_text : GoError → string) (evictionLookup : option (string → bool)) (Itoa : Z → string)
    (traceHeaders : SetHeaders) (order : nat → nat) (chunk : bytes) (s s' : Stream S) :
  let text := String.string_of_list_ascii (sm_body s ++ chunk) in
  (∀ m, UnmarshalMap text = Some (Some m) → numbers_ok FormatFloat (JObject m)) →
  on_request_body (HandleRequest d dd FormatFloat Error_text) (openai.ParseRequest convert json_error) evictionLookup Itoa traceHeaders order
    chunk true s = Some (inl tt, s') →
  ∃ m incoming, UnmarshalMap text = Some (Some m) ∧ obj_lookup "model" m = Some (JString incoming) ∧
    UnmarshalMap (String.string_of_list_ascii (concat (body_sent <$> ob_reqBodyResp (sm_out s')))) =
      Some (Some (obj_insert "model" (JString (rc_TargetModelName (ds_ctx (sm_d s')))) m)).
Proof.
  intros text Hn. unfold on_request_body, mbind, gom_bind, gets. cbn [negb]. unfold ebindM, mbind, gom_bind. cbn.
  destruct (openai.ParseRequest _ _ _ _) as [[b p]|msg] eqn:Hparse; [|done]. cbn. unfold lift_d. cbn.
  match goal with |- context [HandleRequest d dd FormatFloat Error_text b ?st] =>
    destruct (HandleRequest d dd FormatFloat Error_text b st) as [[[[]|err] d1]|] eqn:Hh end; [|done|done].
  apply parsed_payload in Hparse as (m0 & Hm0 & Hp). fold text in Hm0.
  eapply handled_body in Hh as (incoming & Hin & Hraw); [|exact Hp]. rewrite obj_lookup_map in Hin.
  destruct m0 as [m|]; [|done]. cbn [from_option id] in *.
  intros Hrun. exists m, incoming. split; [done|]. split; [done|].
  assert (ds_ctx (sm_d s') = ds_ctx d1 ∧ ob_reqBodyResp (sm_out s') = GenerateRequestBodyResponses (String.list_ascii_of_string (rc_RawBody (ds_ctx d1)))) as [-> ->].
  { revert Hrun. cbn. destruct evictionLookup; cbn; destruct (option_bind _ _ _ _); cbn; intros H; injection H as <-; done. }
  unfold GenerateRequestBodyResponses. rewrite <- list_fmap_compose.
  rewrite (list_fmap_ext _ fst) by (by intros i []). destruct (chunks_carry_body (String.list_ascii_of_string (rc_RawBody (ds_ctx d1))) true) as [-> _].
  rewrite String.string_of_list_ascii_of_string, Hraw. specialize (Hn m Hm0). destruct (decoded_good _ _ _ Hm0 Hn) as [Hg _].
  rewrite payload_encoded by by eapply good_sorted. by eapply replaced_decodes.
Qed.

(** *** Examples *)

Definition plain_keysb (names keys : list string) : bool :=
  forallb (λ k, forallb (λ n, bool_decide (k = n ∨ foldName n ≠ foldName k)) names) keys.

Lemma plain_keysb_plain names keys : plain_keysb names keys = true → plain_keys names keys.
Proof.
  intros Hb k n Hk Hn Heq. unfold plain_keysb in Hb. apply Is_true_true, forallb_True in Hb. rewrite Forall_forall in Hb. specialize (Hb _ Hk).
  apply forallb_True in Hb. rewrite Forall_forall in Hb. specialize (Hb _ Hn). apply bool_decide_unpack in Hb as [?|?]; done.
Qed.

Definition sample_message : SchedTypes.Message := mkMessage "user" (mkContent "" (Some [mkBlock "text" "hello" "" "" "" ""])).
Definition sample_chat : ChatCompletionsRequest := mkChat [sample_message] [] [] "" false false true [] "salt".
Definition sample_request : JsonObject := [
  ("model"%string, JString "llama"); ("messages"%string, JArray [message_json sample_message]); ("stream"%string, JBool true);
  ("cache_salt"%string, JString "salt"); ("add_generation_prompt"%string, JBool true); ("max_tokens"%string, JInt 16)].
Definition chat_headers : gmap string string := {[ ":path"%string := "/v1/chat/completions"%string ]}.


Definition sample_text : string := JSON_Marshal (λ _, ""%string) (JObject [("prompt"%string, JString "hi"); ("model"%string, JString "llama")]).

Abbreviation sample_body_run := (on_request_body demo_handle (openai.ParseRequest (λ _, 0%Z) id) None (λ _, ""%string) [] id
  (String.list_ascii_of_string sample_text) true (new_stream InFlightLoadProducerFactory)).

Lemma sample_body_ok : fst <$> sample_body_run = Some (inl tt).
Proof. vm_compute. reflexivity. Qed.

Lemma client_body_forwarded_witness : ∃ s' m, sample_body_run = Some (inl tt, s') ∧ UnmarshalMap sample_text = Some (Some m) ∧
  UnmarshalMap (String.string_of_list_ascii (concat (body_sent <$> ob_reqBodyResp (sm_out s')))) =
    Some (Some (obj_insert "model" (JString (rc_TargetModelName (ds_ctx (sm_d s')))) m)).
Proof.
  pose proof sample_body_ok as Hok. destruct sample_body_run as [[r s']|] eqn:Hrun; [|done]. injection Hok as ->.
  destruct (client_body_forwarded demo_director sample_director_draws (λ _, 0%Z) id (λ _, ""%string) (λ _, ""%string) None (λ _, ""%string) [] id
    (String.list_ascii_of_string sample_text) (new_stream InFlightLoadProducerFactory) s') as (m & incoming & Hm & _ & Hb).
  - intros m. cbn [new_stream sm_body app]. rewrite String.string_of_list_ascii_of_string. intros Hm.
    assert (UnmarshalMap sample_text = Some (Some [("model"%string, JString "llama"); ("prompt"%string, JString "hi")])) as Hs by (vm_compute; reflexivity).
    rewrite Hs in Hm. injection Hm as <-. by repeat split.
  - exact Hrun.
  - exists s', m. cbn [new_stream sm_body app] in Hm. rewrite String.string_of_list_ascii_of_string in Hm.
    split; [reflexivity|]. split; [exact Hm|exact Hb].
Defined.

(** ** The usage of tokens *)

(** *** Encoded values are on one line *)

Definition newline : ascii := ascii_of_nat 10.

Lemma free_app c a b : char_free c (a +:+ b) = true ↔ char_free c a = true ∧ char_free c b = true.
Proof. by rewrite char_free_app, andb_true_iff. Qed.

(** A part of a text without line breaks, and the rest. *)
Definition cut_line (s rest : string) : Prop := ∃ t, s = t +:+ rest ∧ char_free newline t = true.

Lemma cut_refl s : cut_line s s.
Proof. by exists ""%string. Qed.

Lemma cut_trans a b c : cut_line a b → cut_line b c → cut_line a c.
Proof.
  intros (t & -> & Ht) (u & -> & Hu). exists (t +:+ u). by rewrite app_assoc_string, free_app.
Qed.

Lemma cut_cons c s : c ≠ newline → cut_line (String c s) s.
Proof. intros Hc. exists (String c ""). split; [done|]. by apply char_free_cons. Qed.

Lemma digits_cut s : cut_line s (take_digits s).2.
Proof.
  induction s as [|c s IH]; [apply cut_refl|]. cbn [take_digits]. destruct (digit c) as [d|] eqn:Hd; [|apply cut_refl].
  eapply cut_trans; [apply cut_cons; by intros ->|]. by destruct (take_digits s).
Qed.

Lemma some_digits_cut s ds rest : some_digits s = Some (ds, rest) → cut_line s rest.
Proof. unfold some_digits. pose proof (digits_cut s) as H. destruct (take_digits s) as [[|] r]; [done|]. by intros [= _ <-]. Qed.

Lemma number_cut s n rest : number_lit s = Some (n, rest) → cut_line s rest.
Proof.
  unfold number_lit. destruct (number_sign s) as [neg s1] eqn:H1. intros ([int s2] & H2 & ([frac s3] & H3 & ([e r] & H4 & [= _ <-])%bind_Some)%bind_Some)%bind_Some.
  apply (cut_trans _ s1).
  { destruct s as [|c s]; [by injection H1 as _ <-; apply cut_refl|]. cbn [number_sign] in H1. case_bool_decide; injection H1 as _ <-; [subst; by apply cut_cons|apply cut_refl]. }
  apply (cut_trans _ s2).
  { destruct s1 as [|c s1]; [done|]. cbn [integer_part] in H2. case_bool_decide; [injection H2 as _ <-; subst; by apply cut_cons|by eapply some_digits_cut]. }
  apply (cut_trans _ s3).
  { destruct s2 as [|c s2]; [by injection H3 as _ <-; apply cut_refl|]. cbn [fraction_part] in H3. case_bool_decide; [|injection H3 as _ <-; apply cut_refl].
    subst. eapply cut_trans; [by apply cut_cons|]. by eapply some_digits_cut. }
  destruct s3 as [|c s3]; [by injection H4 as _ <-; apply cut_refl|]. cbn [exponent_part] in H4. case_bool_decide as Hc; [|injection H4 as _ <-; apply cut_refl].
  eapply cut_trans; [apply cut_cons; by destruct Hc as [->| ->]|]. destruct (exponent_sign s3) as [neg' s4] eqn:H5.
  apply bind_Some in H4 as ([ds r'] & H4 & [= _ <-]). eapply cut_trans; [|by eapply some_digits_cut].
  destruct s3 as [|c' s3]; [by injection H5 as _ <-; apply cut_refl|]. cbn [exponent_sign] in H5.
  repeat case_bool_decide; injection H5 as _ <-; subst; first [by apply cut_cons|apply cut_refl].
Qed.

Lemma number_line t f : number t = Some (f, ""%string) → char_free newline t = true.
Proof. intros (n & Hn & _)%number_has_lit. apply number_cut in Hn as (u & -> & Hu). by rewrite app_empty_r. Qed.

Lemma escape_line s : char_free newline (escape s) = true.
Proof.
  induction s as [|c s IH]; [done|]. cbn [escape]. apply free_app. split; [|done]. all_chars c; reflexivity.
Qed.

Lemma string_line s : char_free newline (MarshalString s) = true.
Proof. unfold MarshalString. rewrite !free_app. split; [done|]. split; [apply escape_line|done]. Qed.

Lemma join_line l : Forall (λ s, char_free newline s = true) l → char_free newline (strings_Join l ",") = true.
Proof.
  induction 1 as [|s l Hs _ IH]; [done|]. destruct l as [|s2 l]; [done|]. rewrite join_cons by done. rewrite !free_app. done.
Qed.

Lemma marshal_line FormatFloat j : text_ok FormatFloat j → char_free newline (JSON_Marshal FormatFloat j) = true.
Proof.
  induction j as [|[]|f|z|s|l IH|m IH] using json_ind; try done.
  - apply number_line.
  - apply number_line.
  - intros _. apply string_line.
  - rewrite text_array, marshal_array, !free_app. intros Hl. split; [done|]. split; [|done]. apply join_line, Forall_fmap, Forall_forall. intros j Hj.
    rewrite Forall_forall in IH, Hl. by apply IH, Hl.
  - rewrite text_object, marshal_object, !free_app. intros Hl. split; [done|]. split; [|done]. apply join_line, Forall_fmap, Forall_forall. intros f Hf. simpl.
    unfold field_text. apply free_app. split; [apply string_line|]. apply free_app. split; [done|]. rewrite Forall_fmap in IH, Hl. rewrite Forall_forall in IH, Hl. by apply IH, Hl.
Qed.

(** *** Reports of usage *)

(** The usage as model servers write it. *)
Definition usage_members (u : Usage) : JsonObject :=
  [("prompt_tokens"%string, JInt (us_PromptTokens u)); ("total_tokens"%string, JInt (us_TotalTokens u));
   ("completion_tokens"%string, JInt (us_CompletionTokens u))] ++
  match us_PromptTokenDetails u with
  | Some n => [("prompt_token_details"%string, JObject [("cached_tokens"%string, JInt n)])]
  | None => []
  end.
Definition usage_json (u : Usage) : JSON := JObject (usage_members u).

Lemma usage_lookup u :
  obj_lookup "prompt_tokens" (usage_members u) = Some (JInt (us_PromptTokens u)) ∧
  obj_lookup "completion_tokens" (usage_members u) = Some (JInt (us_CompletionTokens u)) ∧
  obj_lookup "total_tokens" (usage_members u) = Some (JInt (us_TotalTokens u)) ∧
  obj_lookup "prompt_token_details" (usage_members u) = (λ n, JObject [("cached_tokens"%string, JInt n)]) <$> us_PromptTokenDetails u.
Proof. destruct u as [p c t [n|]]; done. Qed.

Lemma usage_names u : NoDup (usage_members u).*1 ∧ plain_keys openai.usage_fields.*1 (usage_members u).*1.
Proof. destruct u as [p c t [n|]]; split; first [by apply (bool_decide_unpack _)|by apply plain_keysb_plain]. Qed.

Definition counted (n : Z) : Prop := (0 ≤ n < 2 ^ 53)%Z.
Definition usage_ok (u : Usage) : Prop :=
  counted (us_PromptTokens u) ∧ counted (us_CompletionTokens u) ∧ counted (us_TotalTokens u) ∧
  match us_PromptTokenDetails u with Some n => counted n | None => True end.

(** A line that is not an event with data, or the end of the events. *)
Definition quiet (line : string) : Prop :=
  char_free newline line = true ∧ (HasPrefix line openai.streamingRespPrefix = false ∨ line = "data: [DONE]"%string).

(** The answers in which a model server reports a usage: one object, or a chunk of a stream with
    an event after lines without data, whatever follows. *)
Inductive reports (FormatFloat : float64 → string) (u : Usage) : gmap string string → string → Prop :=
  | reports_whole headers m object : openai.is_stream headers = false → sendable FormatFloat m → obj_lookup "usage" m = Some (usage_json u) →
      obj_lookup "object" m = Some (JString object) → object ∈ ["chat.completion"; "text_completion"]%string →
      reports FormatFloat u headers (JSON_Marshal FormatFloat (JObject m))
  | reports_event headers m lines rest : openai.is_stream headers = true → sendable FormatFloat m → obj_lookup "usage" m = Some (usage_json u) →
      obj_lookup "response" m = None → obj_lookup "type" m = None → plain_keys openai.stream_fields.*1 m.*1 → Forall quiet lines →
      reports FormatFloat u headers (foldr (λ line t, line +:+ String newline t)
        ("data: " +:+ JSON_Marshal FormatFloat (JObject m) +:+ String newline rest) lines).

Section usage.
Context (convert : float64 → Z) (json_error : string → string) (FormatFloat : float64 → string).

Lemma int_read n : counted n → openai.int_of convert (of_int n) = n.
Proof using Type. intros Hn. unfold openai.int_of. rewrite to_int_of_int by done. rewrite bool_decide_eq_true_2; [done|]. unfold counted, Int.two63 in *. lia. Qed.

Lemma dec_int_read n i : counted n → dec_int i (doc_of FormatFloat (JInt n)) = (n, true).
Proof using Type. intros Hn. cbn [doc_of dec_int]. rewrite lit_int_pretty; [done|]. unfold counted, Int.two63 in *. lia. Qed.

Lemma int_any n : text_ok FormatFloat (JInt n) → to_any (doc_of FormatFloat (JInt n)) = JNumber (of_int n).
Proof using Type. intros (l & Hl & Hf)%number_has_lit. cbn [doc_of to_any]. unfold lit_of. by rewrite Hl, Hf. Qed.

Lemma usage_any u : text_ok FormatFloat (usage_json u) →
  ∃ usg, to_any (doc_of FormatFloat (usage_json u)) = JObject usg ∧
    obj_lookup "prompt_tokens" usg = Some (JNumber (of_int (us_PromptTokens u))) ∧
    obj_lookup "completion_tokens" usg = Some (JNumber (of_int (us_CompletionTokens u))) ∧
    obj_lookup "total_tokens" usg = Some (JNumber (of_int (us_TotalTokens u))) ∧
    obj_lookup "prompt_token_details" usg = (λ n, JObject [("cached_tokens"%string, JNumber (of_int n))]) <$> us_PromptTokenDetails u.
Proof using Type.
  unfold usage_json. rewrite text_object, doc_of_object, to_any_object. intros Ht. eexists. split; [done|].
  destruct (usage_lookup u) as (H1 & H2 & H3 & H4), (usage_names u) as [Hnd _]. rewrite !into_map_lookup by by rewrite docs_of_keys.
  rewrite !member_docs, H1, H2, H3, H4. rewrite Forall_fmap, Forall_forall in Ht. apply obj_lookup_elem, Ht in H1, H2, H3. simpl in H1, H2, H3.
  cbn [fmap option_fmap option_map]. rewrite !int_any by done. split_and!; [done..|].
  destruct (us_PromptTokenDetails u) as [n|]; [|done]. cbn [fmap option_fmap option_map] in *. apply obj_lookup_elem, Ht in H4. simpl in H4.
  destruct H4 as [_ [H4 _]]. rewrite doc_of_object, to_any_object. cbn [docs_of fmap list_fmap into_map foldl fst snd]. by rewrite int_any.
Qed.

Lemma usage_whole m object u : sendable FormatFloat m → usage_ok u → obj_lookup "usage" m = Some (usage_json u) →
  obj_lookup "object" m = Some (JString object) → object ∈ ["chat.completion"; "text_completion"]%string →
  openai.extractUsage convert json_error (JSON_Marshal FormatFloat (JObject m)) = Some (inl (Some u)).
Proof using Type.
  intros Hm (H1 & H2 & H3 & H4) Hu Ho Hin. unfold openai.extractUsage. rewrite (map_decoded FormatFloat m Hm). cbn [from_option id].
  assert (∀ k, obj_lookup k (into_map [] (docs_of FormatFloat m)) = (λ v, to_any (doc_of FormatFloat v)) <$> obj_lookup k m) as Hl.
  { intros k. destruct Hm as (_ & _ & Hnd). rewrite into_map_lookup by by rewrite docs_of_keys. rewrite member_docs. by destruct (obj_lookup k m). }
  destruct (usage_any u) as (usg & Hany & Hp & Hc & Ht & Hd); [by eapply sendable_value|].
  unfold openai.not_nil at 1. rewrite !Hl, Hu, Ho. cbn [fmap option_fmap option_map]. rewrite Hany.
  assert (openai.extractUsageByAPIType convert usg object = Some (mkUsage (us_PromptTokens u) (us_CompletionTokens u) (us_TotalTokens u) None)) as He.
  { unfold openai.extractUsageByAPIType, openai.tokens, openai.not_nil. rewrite Hp, Hc, Ht. cbn [from_option id openai.as_int]. rewrite !int_read by done.
    apply elem_of_cons in Hin as [->|[->|[]%elem_of_nil]%elem_of_cons]; reflexivity. }
  cbn [to_any doc_of]. rewrite He. cbn [mbind option_bind]. unfold openai.not_nil. rewrite Hd. destruct u as [p c t [n|]]; [|done].
  cbn [fmap option_fmap option_map us_PromptTokenDetails] in *. cbn [obj_lookup]. rewrite bool_decide_eq_true_2 by done. cbn [openai.as_int mbind option_bind]. by rewrite int_read.
Qed.

Lemma usage_separate : separate openai.usage_fields.
Proof using Type. unfold openai.usage_fields. separate_parts. Qed.
Lemma stream_separate : separate openai.stream_fields.
Proof using Type. unfold openai.stream_fields. separate_parts. Qed.

Lemma apply_part {A B} (get : A → B) set dec a b d : dec (get a) d = (b, true) → apply_opt (a, true) (part get set dec) (Some d) = (set b a, true).
Proof using Type. intros Hd. unfold part. cbn [apply_opt fst snd]. by rewrite Hd. Qed.

Lemma usage_decodes u : usage_ok u → dec_struct openai.usage_fields openai.zero_usage (doc_of FormatFloat (usage_json u)) = (u, true).
Proof using Type.
  intros (H1 & H2 & H3 & H4). destruct (usage_lookup u) as (L1 & L2 & L3 & L4), (usage_names u) as [Hnd Hp].
  unfold usage_json. rewrite doc_of_object, struct_by_fields; [|apply usage_separate|by rewrite docs_of_keys..].
  unfold by_fields, openai.usage_fields. cbn [foldl fst snd]. rewrite !member_docs, L1, L2, L3, L4. cbn [fmap option_fmap option_map].
  rewrite (apply_part _ _ _ _ (us_PromptTokens u)) by by apply dec_int_read. rewrite (apply_part _ _ _ _ (us_CompletionTokens u)) by by apply dec_int_read.
  rewrite (apply_part _ _ _ _ (us_TotalTokens u)) by by apply dec_int_read. destruct u as [p c t [n|]]; [|done].
  cbn [fmap option_fmap option_map us_PromptTokenDetails] in *. rewrite (apply_part _ _ _ _ (Some n)); [done|].
  rewrite doc_of_object. cbn [dec_pointer docs_of fmap list_fmap fst snd dec_struct foldl from_option id]. unfold dec_member.
  change (find_field _ _) with (Some dec_int). cbn [fst snd]. by rewrite dec_int_read.
Qed.

Lemma event_decodes m u : sendable FormatFloat m → usage_ok u → obj_lookup "usage" m = Some (usage_json u) → obj_lookup "response" m = None →
  obj_lookup "type" m = None → plain_keys openai.stream_fields.*1 m.*1 →
  UnmarshalInto (dec_struct openai.stream_fields) (openai.mkStreamResponse None None "" "") (JSON_Marshal FormatFloat (JObject m)) =
    (openai.mkStreamResponse (Some u) None "" "", true).
Proof using Type.
  intros Hm Hu H1 H2 H3 Hp. rewrite object_decodes; [|done|apply stream_separate|done]. unfold by_fields, openai.stream_fields. cbn [foldl fst snd].
  rewrite !member_docs, H1, H2, H3. cbn [fmap option_fmap option_map]. rewrite (apply_part _ _ _ _ (Some u)); [done|].
  cbn [openai.st_Usage]. unfold usage_json. rewrite doc_of_object. cbn [dec_pointer from_option id]. rewrite <- doc_of_object.
  change (JObject (usage_members u)) with (usage_json u). by rewrite usage_decodes.
Qed.

Lemma quiet_skipped st lines l : Forall quiet lines →
  openai.stream_lines convert json_error FormatFloat st (lines ++ l) = openai.stream_lines convert json_error FormatFloat st l.
Proof using Type.
  induction 1 as [|line lines [_ Hq] _ IH]; [done|]. cbn [app openai.stream_lines]. destruct Hq as [->| ->]; cbn [negb orb]; [done|].
  rewrite bool_decide_eq_true_2 by done. by rewrite orb_true_r.
Qed.

Lemma lines_split lines t : Forall quiet lines →
  split_on newline (foldr (λ line t, line +:+ String newline t) t lines) = lines ++ split_on newline t.
Proof using Type. induction 1 as [|line lines [Hl _] _ IH]; [done|]. cbn [foldr app]. by rewrite split_on_app, IH. Qed.

Lemma usage_streamed m u lines rest : sendable FormatFloat m → usage_ok u → obj_lookup "usage" m = Some (usage_json u) → obj_lookup "response" m = None →
  obj_lookup "type" m = None → plain_keys openai.stream_fields.*1 m.*1 → Forall quiet lines →
  openai.extractUsageStreaming convert json_error FormatFloat (foldr (λ line t, line +:+ String newline t)
    ("data: " +:+ JSON_Marshal FormatFloat (JObject m) +:+ String newline rest) lines) = Some (Some u).
Proof using Type.
  intros Hm Hu H1 H2 H3 Hp Hl. unfold openai.extractUsageStreaming. change (ascii_of_nat 10) with newline. rewrite lines_split by done. rewrite quiet_skipped by done.
  rewrite <- app_assoc_string, split_on_app.
  2: { apply free_app. split; [done|]. apply marshal_line. by destruct Hm. }
  cbn [openai.stream_lines]. assert (∀ t, HasPrefix ("data: " +:+ t) openai.streamingRespPrefix = true) as -> by (by intros []).
  assert (∀ t, TrimPrefix ("data: " +:+ t) openai.streamingRespPrefix = t) as -> by done.
  rewrite bool_decide_eq_false_2 by (by rewrite marshal_object). cbn [negb orb]. by rewrite (event_decodes m u).
Qed.
End usage.

(** C34. The usage that a model server reports is found: a response of the completion or chat
    completion API with a usage, and a chunk of a stream with an event that carries one, after
    any lines without data and whatever follows, are parsed without a panic, and the usage is
    the one that was reported, token by token. *)
Theorem usage_found (convert : float64 → Z) (json_error : string → string) (FormatFloat : float64 → string) (u : Usage)
    (headers : gmap string string) (text : string) :
  usage_ok u → reports FormatFloat u headers text →
  openai.ParseResponse convert json_error FormatFloat (String.list_ascii_of_string text) headers = Some (inl (Some (Some u))).
Proof.
  intros Hu Hr. unfold openai.ParseResponse. rewrite String.string_of_list_ascii_of_string. destruct Hr as [headers m object Hs Hm H1 H2 Hin|headers m lines rest Hs Hm H1 H2 H3 Hp Hl].
  - rewrite marshal_object. cbn [String.list_ascii_of_string length app]. rewrite <- (marshal_object FormatFloat m), Hs.
    change (bool_decide (S _ = 0)) with false. cbn iota. by rewrite (usage_whole convert json_error FormatFloat m object u).
  - rewrite Hs. rewrite (usage_streamed convert json_error FormatFloat m u) by done. rewrite bool_decide_eq_false_2; [done|].
    destruct lines as [|[|c line] lines]; done.
Qed.

Definition sample_usage : Usage := mkUsage 7 10 17 (Some 4%Z).
Definition stream_headers : gmap string string := {[ "content-type"%string := "text/event-stream; charset=utf-8"%string ]}.
Definition sample_event : JsonObject := [("object"%string, JString "chat.completion.chunk"); ("usage"%string, usage_json sample_usage)].

Lemma sample_event_ok : sendable (λ _, ""%string) sample_event.
Proof. split; [vm_compute; repeat split|]. split; [vm_compute; lia|]. apply (bool_decide_unpack _). vm_compute. exact Logic.I. Qed.

Lemma usage_found_witness :
  openai.ParseResponse (λ _, 0%Z) id (λ _, ""%string) (String.list_ascii_of_string
    ("event: message" +:+ String newline ("data: " +:+ JSON_Marshal (λ _, ""%string) (JObject sample_event) +:+ String newline "data: [DONE]")))
    stream_headers = Some (inl (Some (Some sample_usage))).
Proof.
  apply (usage_found (λ _, 0%Z) id (λ _, ""%string) sample_usage stream_headers).
  - split_and!; unfold counted; cbn; lia.
  - apply (reports_event _ _ _ sample_event ["event: message"%string] "data: [DONE]"); [vm_compute; reflexivity|apply sample_event_ok|reflexivity..| |].
    + apply plain_keysb_plain. vm_compute. reflexivity.
    + constructor; [|constructor]. split; [reflexivity|]. left. reflexivity.
Defined.

(** ** The frames of gRPC *)

Section frames.
Import vllmgrpc.

Lemma big_endian_range (b : bytes) : (0 ≤ BigEndian b < 256 ^ Z.of_nat (length b))%Z.
Proof.
  unfold BigEndian. induction b as [|c b IH] using rev_ind; [done|]. rewrite foldl_app, length_app. cbn [foldl length].
  rewrite Nat2Z.inj_add, Z.pow_add_r by lia. change (256 ^ Z.of_nat 1)%Z with 256%Z.
  assert (0 ≤ Z.of_N (N_of_ascii c) < 256)%Z by (pose proof (N_ascii_bounded c); lia). lia.
Qed.

Lemma length_field (data : bytes) : 5 ≤ length data → (0 ≤ BigEndian (take 4 (drop 1 data)) < 2 ^ 32)%Z.
Proof.
  intros Hl. pose proof (big_endian_range (take 4 (drop 1 data))) as H. rewrite length_take, length_drop in H.
  replace (4 `min` (length data - 1)) with 4 in H by lia. change (256 ^ Z.of_nat 4)%Z with (2 ^ 32)%Z in H. done.
Qed.

Lemma payload_cases (data : bytes) :
  (Z.of_nat (length data) < 2 ^ 32)%Z →
  let msgLen := BigEndian (take 4 (drop 1 data)) in
  match parseGrpcPayload data with
  | Some (inl (payload, compressed)) =>
      (5 + msgLen ≤ Z.of_nat (length data))%Z ∧ payload = take (Z.to_nat msgLen) (drop 5 data) ∧ Z.of_nat (length payload) = msgLen ∧
      compressed = bool_decide (data !! 0 = Some (ascii_of_nat 1))
  | Some (inr _) => length data < 5 ∨ (Z.of_nat (length data) < 5 + msgLen < 2 ^ 32)%Z
  | None => 5 ≤ length data ∧ (2 ^ 32 ≤ 5 + msgLen)%Z
  end.
Proof.
  intros Hlen msgLen. unfold parseGrpcPayload, gRPCPayloadHeaderLen. case_bool_decide as H5; [left; lia|]. fold msgLen.
  pose proof (length_field data ltac:(lia)) as Hm. fold msgLen in Hm.
  assert (u32 (Z.of_nat (length data)) = Z.of_nat (length data)) as -> by (unfold u32; apply Z.mod_small; lia).
  destruct (decide (5 + msgLen < 2 ^ 32)%Z) as [Hsmall|Hbig].
  - assert (u32 (5 + msgLen) = 5 + msgLen)%Z as -> by (unfold u32; apply Z.mod_small; lia). case_bool_decide; [right; lia|].
    case_bool_decide; [lia|]. replace (5 + msgLen - 5)%Z with msgLen by lia. split; [lia|]. split; [done|]. split; [|done].
    rewrite length_take, length_drop. lia.
  - assert (u32 (5 + msgLen) = 5 + msgLen - 2 ^ 32)%Z as ->.
    { unfold u32. symmetry. apply (Z.mod_unique_pos _ _ 1); lia. }
    case_bool_decide; [lia|]. case_bool_decide; [split; lia|lia].
Qed.

(** C33. The bounds of a frame. For every body below 4 GiB: a payload is returned only if the
    frame is complete, and it is exactly the bytes that the header announces; an error is
    returned only if the header or the payload is incomplete; and the function panics exactly
    when the announced length is so large that adding the length of the header overflows 32
    bits. *)
Theorem grpc_payload_bounds (data : bytes) :
  (Z.of_nat (length data) < 2 ^ 32)%Z →
  let msgLen := BigEndian (take 4 (drop 1 data)) in
  match parseGrpcPayload data with
  | Some (inl (payload, compressed)) =>
      (5 + msgLen ≤ Z.of_nat (length data))%Z ∧ payload = take (Z.to_nat msgLen) (drop 5 data) ∧ Z.of_nat (length payload) = msgLen ∧
      compressed = bool_decide (data !! 0 = Some (ascii_of_nat 1))
  | Some (inr _) => length data < 5 ∨ (Z.of_nat (length data) < 5 + msgLen < 2 ^ 32)%Z
  | None => 5 ≤ length data ∧ (2 ^ 32 ≤ 5 + msgLen)%Z
  end.
Proof. apply payload_cases. Qed.

(** Five bytes are enough for a panic. *)
Definition overflowing : bytes := ascii_of_nat <$> [0; 255; 255; 255; 255].

Lemma grpc_payload_bounds_witness :
  (Z.of_nat (length overflowing) < 2 ^ 32)%Z ∧ parseGrpcPayload overflowing = None ∧ (2 ^ 32 ≤ 5 + BigEndian (take 4 (drop 1 overflowing)))%Z.
Proof.
  assert (Z.of_nat (length overflowing) < 2 ^ 32)%Z as Hl by (vm_compute; reflexivity). split; [exact Hl|].
  assert (parseGrpcPayload overflowing = None) as Hp by (vm_compute; reflexivity). split; [exact Hp|].
  pose proof (grpc_payload_bounds overflowing Hl) as H. cbv zeta in H. rewrite Hp in H. exact (proj2 H).
Defined.

Definition be32 (n : Z) : bytes := (λ k, ascii_of_N (Z.to_N ((n / 256 ^ k) `mod` 256))) <$> [3; 2; 1; 0]%Z.

Lemma big_endian_be32 n : (0 ≤ n < 2 ^ 32)%Z → BigEndian (be32 n) = n.
Proof.
  intros Hn. unfold BigEndian, be32. cbn [fmap list_fmap foldl].
  assert (∀ z, (0 ≤ z)%Z → Z.of_N (N_of_ascii (ascii_of_N (Z.to_N (z `mod` 256)))) = z `mod` 256)%Z as Hb.
  { intros z Hz. pose proof (Z.mod_pos_bound z 256 ltac:(lia)). rewrite N_ascii_embedding by lia. rewrite Z2N.id; lia. }
  rewrite !Hb by (apply Z.div_pos; lia). change (256 ^ 3)%Z with 16777216%Z. change (256 ^ 2)%Z with 65536%Z. change (256 ^ 1)%Z with 256%Z. change (256 ^ 0)%Z with 1%Z.
  rewrite Z.div_1_r. Z.div_mod_to_equations. lia.
Qed.

(** What a client frames is read back. *)
Lemma grpc_frame_read (flag : ascii) (msg rest : bytes) : (Z.of_nat (length msg + length rest) < 2 ^ 32 - 5)%Z →
  parseGrpcPayload (flag :: be32 (Z.of_nat (length msg)) ++ msg ++ rest) = Some (inl (msg, bool_decide (flag = ascii_of_nat 1))).
Proof.
  intros Hl. set (data := flag :: _). assert (length data = 5 + (length msg + length rest)) as Hd by (subst data; cbn [length be32 fmap list_fmap app]; by rewrite length_app).
  pose proof (payload_cases data ltac:(lia)) as H. cbv zeta in H.
  assert (BigEndian (take 4 (drop 1 data)) = Z.of_nat (length msg)) as Hbe.
  { change (take 4 (drop 1 data)) with (be32 (Z.of_nat (length msg))). apply big_endian_be32. lia. }
  rewrite Hbe in H. destruct (parseGrpcPayload data) as [[[payload c]|err]|]; [|lia|lia]. destruct H as (_ & -> & _ & ->).
  change (drop 5 data) with (msg ++ rest). rewrite Nat2Z.id, take_app_length. do 4 f_equal. apply bool_decide_ext. subst data. cbn. naive_solver.
Qed.
End frames.

(** ** Where the code falls short *)

Abbreviation plain_text m := (JSON_Marshal (λ _, ""%string) (JObject m)).
Abbreviation parse_response text headers := (openai.ParseResponse (λ _, 0%Z) id (λ _, ""%string) (String.list_ascii_of_string text) headers).
Abbreviation parse_request m := (openai.ParseRequest (λ _, 0%Z) id (String.list_ascii_of_string (plain_text m)) ∅).

(** Integers go through floats: a seed above [2^53] is forwarded as another one. *)
Lemma forwarded_seed_rounded :
  obj_lookup "seed" <$> mjoin (UnmarshalMap (plain_text [("seed"%string, JInt 9007199254740993)])) =
    Some (Some (JNumber (of_int 9007199254740992))).
Proof. vm_compute. reflexivity. Qed.

(** A usage that is no object, or a count that is no number, is a panic. *)
Lemma response_panics :
  parse_response (plain_text [("usage"%string, JInt 5)]) ∅ = None ∧
  parse_response (plain_text [("usage"%string, JObject [("total_tokens"%string, JString "5")])]) ∅ = None.
Proof. split; vm_compute; reflexivity. Qed.

(** The details that the API names [prompt_tokens_details] are not read. *)
Lemma cached_tokens_missed :
  parse_response (plain_text [("usage"%string, JObject [("prompt_tokens"%string, JInt 9); ("prompt_tokens_details"%string, JObject [("cached_tokens"%string, JInt 8)])])]) ∅ =
    Some (inl (Some (Some (mkUsage 9 0 0 None)))).
Proof. vm_compute. reflexivity. Qed.

(** After an event with a usage that does not decode, any other event reports one of zeros. *)
Lemma stale_usage_reported :
  parse_response ("data: " +:+ plain_text [("usage"%string, JInt 5)] +:+ String newline ("data: " +:+ plain_text [])) stream_headers =
    Some (inl (Some (Some (mkUsage 0 0 0 None)))).
Proof. vm_compute. reflexivity. Qed.

(** An event that is cut in two by the chunks of the response is lost. *)
Lemma split_event_lost :
  let event := ("data: " +:+ plain_text sample_event)%string in
  parse_response event stream_headers = Some (inl (Some (Some sample_usage))) ∧
  parse_response (String.substring 0 20 event) stream_headers = Some (inl (Some None)) ∧
  parse_response (String.substring 20 (String.length event - 20) event) stream_headers = Some (inl (Some None)).
Proof. split_and!; vm_compute; reflexivity. Qed.

(** The scheduler looks at one prompt, and the model server gets another. *)
Lemma prompt_case_ignored :
  (λ r, match r with
        | inl (b, PayloadMap fields) => Some (PromptText (λ _, ""%string) b, fields !! "prompt"%string)
        | _ => None
        end) (parse_request [("prompt"%string, JString "served"); ("PROMPT"%string, JString "scheduled")]) =
    Some ("scheduled"%string, Some (JString "served")).
Proof. vm_compute. reflexivity. Qed.

(** A prompt that is given twice is both a text and tokens. *)
Lemma prompt_given_twice :
  (λ r, match r with inl (b, _) => cr_Prompt <$> bd_Completions b | _ => None end)
    (parse_request [("prompt"%string, JString "text"); ("prompt"%string, JArray [JInt 1; JInt 2])]) =
    Some (mkPrompt "text" [] [1%Z; 2%Z]).
Proof. vm_compute. reflexivity. Qed.
